(* ===== verification/_CoqProject ===== *)
-Q . S2P
Prelude.v
Lifecycle.v
LifecycleOracle.v
DirectorySlot.v
Directory.v
TaskGroup.v
MutantsGate.v
ObserveSlot.v
Observe.v
Driver.v
DriverModel.v
DriverLaw.v
DriverOrder.v
EntityRuntime.v
EntityExample.v
EntityCustody.v
EntityRefinement.v
EntityDuties.v
EntityFamily.v
EntityProgress.v
EntityShutdown.v
DriverContract.v
Assessment.v
Host.v
LocalIngress.v
LocalEnvironment.v
LocalExample.v
LocalNext.v
LocalLaw.v
LocalDriver.v
DriverEnding.v
LocalTerminal.v
ActorOutcome.v
TerminalProjection.v
ActorOwner.v
ActorLaunch.v
ChildRetirement.v
ChildExample.v
Endpoint.v
ExactObservation.v
Capabilities.v
EffectItems.v
ItemLaws.v
ChildCreation.v
NativeInterpreter.v
NativeExample.v
NativeRun.v
RemoteIngress.v
RemoteDeclaration.v
RemoteExport.v
RemoteReplay.v
RemoteExample.v
RemoteClient.v
RemoteClientLaw.v
RemoteClientExample.v
RemoteNode.v
WorkerPreparation.v
NativeEntity.v
NativeFamily.v
ApplicationWork.v
ApplicationExecution.v
ApplicationInvariant.v
ApplicationLaw.v
ApplicationExample.v
ApplicationInterface.v
InterfaceExample.v
