(* ===== verification/Prelude.v ===== *)
(** * Bombay: a verification library of the local actor runtime

    Bombay ([src/crates]) is an actor runtime: a universal driver executes one
    closed Behavior against one environment ([bombay-engine]); the local runtime
    ([bombay]) launches actors as tasks, routes commands to entities through a
    sharded directory of lifecycle slots, and publishes terminal outcomes to
    observers; [mutants-gate] decides whether a mutation-testing run is
    acceptable.  Execution flows from [launch.rs] through [actor_execution.rs]
    into the driver, whose environment is [local/environment.rs]; entity
    commands flow from [entity/runtime.rs] into [entity/directory.rs], whose
    slots run the pure machine of [entity/lifecycle]; every terminal fact is
    read through [observe].

    ** Files

    - Prelude.v: results and panics, the operation monad, machine-width
      counters, shared lemmas and tactics.
    - Lifecycle.v: [entity/lifecycle/{mod,inactive,retiring,transition}.rs], the
      slot machine ([EntitySlot_decide]) with its effects; LifecycleOracle.v: the
      independent oracle of the transition tests.
    - DirectorySlot.v and Directory.v: [entity/directory.rs], one slot under its
      mutex with its effect queue and dispatch guard, and the sharded map;
      threads are step relations ([slot_step], [world_step]).
    - TaskGroup.v: the task group and shutdown claim of [entity/runtime.rs] and
      the protocol of [spawn_owned], [shutdown] and [join_owned].
    - EntityRuntime.v: the rest of [entity/runtime.rs]: admission, passivation,
      retirement, the tasks that interpret slot effects and the family shutdown,
      over any port ([LocalEntityRuntime]); [runtime_step] interleaves callers,
      tasks and the claimant, and lets any of them unwind.  EntityExample.v: a
      concrete port and scenario.  EntityCustody.v: commands and leases are
      conserved; EntityRefinement.v: simulation by the worlds of Directory.v;
      EntityDuties.v and EntityFamily.v: what each slot waits for is in
      somebody's hands; EntityProgress.v: none of the runtime's own assertions is
      hit; EntityShutdown.v: one incarnation per entity, the rows and receipts of
      shutdown, and its end.
    - MutantsGate.v: [mutants-gate/src/main.rs].
    - ObserveSlot.v and Observe.v: [observe/mod.rs], the completion slot with its
      waiters and threads, and the observation space with its pool.
    - Driver.v: [bombay-engine/src/driver.rs] and [environment.rs];
      DriverModel.v: the script tests' causal model
      ([tests/driver_property.rs]) and the refinement; DriverLaw.v and
      DriverOrder.v: the laws of [docs/driver-law.md] for any behavior and
      environment; DriverContract.v: what an environment promises the driver
      (the classes [EnvironmentTyping] and [EnvironmentContract]) and what the
      driver then promises its caller.
    - Assessment.v: the retirement and failure assessments of [terminal.rs] and
      their combinations.
    - Host.v: asynchronous operations that may be dropped or unwind ([Async]) and
      their weakest preconditions.
    - LocalIngress.v: [local/ingress.rs] and [local/execution.rs];
      LocalEnvironment.v: [local/environment.rs], the production environment,
      with the instance [local_environment_port]; LocalExample.v: a concrete
      host; LocalLaw.v: the interface of the interpreter and the instances of
      DriverContract.v's classes; LocalNext.v: acquisition of events;
      LocalDriver.v: theorems about the driver on the local environment.
    - DriverEnding.v: how a driver's disposition and its residual fit together
      (class [ResidualLaw]); LocalTerminal.v: its instance for the local
      environment.
    - ActorOutcome.v: [actor_outcome.rs], [actor_execution.rs], [termination.rs],
      the terminal reports of [local/effects/reports.rs] and the report of a
      joined actor; TerminalProjection.v: [ActorRetirement] of [terminal.rs] and
      [SpawnError] of [launch.rs]; ActorOwner.v: the owner of an actor's task
      and its protocol ([owner_step]); ActorLaunch.v: [spawn_owned_execution],
      the task it spawns, a failed startup and the projection of a child.
    - ChildRetirement.v: [local/children.rs], the registry of a creator's
      children, their retirement and the trait of their product
      ([RetireChildTasks], with its law); ChildExample.v: a creator with two
      children.
    - Endpoint.v: [local/endpoint.rs] and [address.rs], what a reference to an
      actor can do and the source of addresses; ExactObservation.v: the exact
      observations of [local/effects/observation.rs] and the protocol of
      interpreter, tasks and retirement ([exact_step]).
    - Capabilities.v: [local/effects/mod.rs], what the interpreter of an actor
      owns, its local events and its retirement; EffectItems.v: the items it
      interprets ([local/effects/]{delivery,observation,reports,timers,services,
      creation}[.rs]); ItemLaws.v: what the items promise ([native_item] lists
      them); ChildCreation.v: the creation of a child ([local/effects/creation.rs])
      in the product of registries of [local/children.rs]; NativeInterpreter.v: the
      interpreter of a native actor, an instance of LocalLaw.v's interface for
      whatever the actor does ([native_step]); NativeExample.v and NativeRun.v:
      concrete capabilities, and an actor that runs on them.
    - RemoteIngress.v: [remote/]{[json],[ingress],[verification]}[.rs], the bounded
      check of protected bytes, the charged custody of an original and the
      providers; RemoteDeclaration.v: [remote/export/declaration.rs], an interface
      ([Commands], with [CommandsLaw]) and its four instances; RemoteExport.v:
      [remote/export/]{[query],[request],[mod]}[.rs], the operation of a request in
      segments between its waits and the export that runs them ([export_step]);
      RemoteReplay.v: its laws; RemoteClient.v and RemoteClientLaw.v:
      [remote/client.rs] in the same way; RemoteNode.v: the products of exports and
      clients and the startup and end of a node ([application/node.rs]);
      RemoteExample.v and RemoteClientExample.v: concrete runs.
    - NativeEntity.v: [entity/bombay.rs] and the metrics, capacity and errors of
      [entity/family.rs], the port that launches local actors for the entity
      runtime, its activations and retirements in segments ([family_run]);
      NativeFamily.v: [entity/family.rs] and [entity/retirement.rs], admission,
      delivery and the shutdown of families, with the instance [local_entity].
    - ApplicationWork.v: [application/]{[work],[outcome],[scope],[mailbox]}[.rs];
      ApplicationExecution.v: [application/execution.rs], the execution future,
      its cleanup task and the future of its results ([application_run]);
      ApplicationInvariant.v and ApplicationLaw.v: its invariant and laws;
      ApplicationExample.v: concrete executions; ApplicationInterface.v:
      [application/interface.rs], what the handles of an application establish
      ([handle_run]) and the request that shuts its root down
      ([lifecycle_history]); InterfaceExample.v: two such requests.
    - WorkerPreparation.v: [worker_preparation.rs], the source of workers and the
      loop that settles a request with it.

    ** How code becomes definitions

    A definition keeps the name of its Rust item.  [Result] is [Result]; an
    operation that may unwind returns an [option], [None] being the panic, next
    to the state that survives it.  An operation under a mutex is a function on
    the protected state; threads interleave between such operations, or between
    atomic accesses, sequentially consistently.  [Arc] identities are references
    into an arena or names.  Machine integers are [N] or [positive] with their
    checked operations; a capacity that cannot be reached in memory is not
    modelled.  Asynchronous operations are atomic at their outcome: they panic,
    stay pending, or are ready and then disposed of ([HostRun]).

    In the local environment each poll, call of the host and wait is a step of an
    [Async] program on the host's state and the environment's fields: a wait may
    be the last step (the future is dropped), a call may unwind, and the fields
    are left the way the code leaves them.  [expect] and [unreachable!] are the
    outcome [Violated].

    A task of the entity runtime is the list of statements it has still to run;
    a statement ends at a lock, at a call of the port or where it schedules a
    task.  A call of the port acts when its future resolves.  The atomics of the
    task group are TaskGroup.v's; here the claimant goes on when no thread is
    left.  The ledger of commands and leases is a ghost.

    Parameters stand for code outside [src]: the user's [Clone] and [Hash], the
    entity runtime's port, the Behavior and environment of the driver (any instance of [BehaviorPort] and
    [EnvironmentPort]), the host and interpreter of the local environment
    ([LocalHost], [CommitActions], [LaunchHost], [LaunchChannels] and the classes of LocalIngress.v),
    the mailboxes and lanes of other actors ([EndpointHost], [ControlLane]), the
    timer queue, services and observed futures of an actor ([CapabilityHost]), the
    traversals of an action and its settlements ([Traversal], whose law says that
    they interpret items), the launch of a child as its creator sees it
    ([CreationHost]), the JSON parser of the remote layer ([JsonParser], whose law
    is its documented event grammar), its channels ([IngressHost]), and the answers
    of providers, policies, session and target to an export or client ([Host],
    [ClientHost], [Session]), what a launch and a joined task mean to a family
    ([NativeEntity], implemented by [local_entity]), the data and answers of an
    application ([ApplicationTypes]), its reply mailboxes and entity references
    ([ExternalHost], [EntityTarget]), a supervisor's request for workers
    ([WorkerRequests], whose law is that it is a roster),
    the creation sequence of the behavior crate, the file
    system and JSON of the gate.

    ** Groups of theorems

    Conservation (commands, leases, receipts, outcomes, settlements, tasks,
    whole runs of the entity runtime with panics), safety of
    every interleaving (single live incarnation, no lost wake-up, one
    dispatcher), the order laws of the driver, refinement of independent models
    (the slot oracle, the causal model, flat and partial maps) and of the
    directory's worlds by the entity runtime, termination and liveness (dispatch
    drains, no incarnation is forgotten, shutdown
    settles, no source of events starves), typing of the local incarnation and
    its contract with the driver, the projection of whatever an actor's task
    returns (total, lossless, with an exact report), its acquisition by its owner, the retirement of
    a creator's children and of its capabilities, the registry that creations keep,
    refused effect items (they come back), the end of observations (told once),
    at most one effect of a replayed remote request and one delivery of a remote
    response, replies from the canonical request, the exact bounded check, the capacity and
    metrics of a family, the exact outcome of an application and its end, the callers its
    handles grant and the one shutdown they request, the preparation of workers role by
    role, bounds of counters and
    identities, behaviour on
    every error branch.  The claim ids C1, C2, ...
    order them by importance.

    ** Fuel

    [drive] and [receive_run] are bounded by fuel: the causal-model theorem
    proves that some fuel suffices for every script and that more changes
    nothing; the law theorems speak of single iterations and of runs of any
    length, so no fuel occurs in them.  [dispatch_loop] needs more
    units than the queue holds and than what may be appended to it while it runs,
    which is proved to be enough ([dispatch_pending_drains]).  One poll of
    [next_local_event] has a unit for every observation, which is proved to be
    enough ([rounds_enough]).  The loop that settles a request of workers has more
    units than the request has later roles, which is proved to be enough.  The loop
    of [Json.check] has a unit for every byte and one for the end, which is proved to
    be enough.  The polls of
    [local_next] and [next_source_polls] are not fuel: they are how often the
    executor polls the future before it drops it.

    ** What is not modelled

    See the components of the manifest: the wrappers of [launch.rs] that choose
    an ingress mode, the origins and formatting of [terminal.rs], the traversal of an
    action by the behavior crate, the composition of an application and its HTTP server,
    the configuration of the remote session,
    macros, fuzzing and performance harnesses.  They are glue over third-party
    runtimes (tokio, zenoh, the behavior crates).  Weak memory
    orderings are not modelled: atomics are sequentially consistent.  The startup
    sender of an application closes with its actor's task, a little later than in
    its environment; the deadlines of a native interpreter without capabilities are
    [None], where it would unwind (an interpreter in service has them).

    ** Findings

    Cancelling [receive_run] while [apply] or [next_source] is pending and
    receiving the driver again departs from its law
    ([DriverLaw.cancelled_apply_drops_decision],
    [DriverLaw.cancelled_source_reoffers]).  A retirement of children that is
    dropped between a child's result and the receipt of its notifications is
    never continued ([ChildRetirement.awaited_receipt_stops_retirement]); one that
    is not dropped goes on ([going]), so the hand-over of a native actor holds of
    the runs that are not dropped.  The
    comment on exact observations has retirement take their map before the control
    lane is drained; the environment drains first ([exact_step] allows both
    orders). *)

From stdpp Require Export prelude gmap.

#[export] Set Default Goal Selector "!".

(** ** Results and panics

    A Rust [Result<T, E>] is [Result].  A computation that may unwind is an
    [option]: [None] is a panic, and stdpp's [x ← m; k] runs [k] only when
    [m] returned.  A handler whose state survives the unwinding returns the
    surviving state next to the option. *)

Variant Result (T E : Type) : Type :=
  | Ok (value : T)
  | Err (error : E).
Arguments Ok {_ _} _.
Arguments Err {_ _} _.

#[export] Instance Result_eq_dec {T E} `{!EqDecision T, !EqDecision E} :
  EqDecision (Result T E).
Proof. solve_decision. Defined.

Definition is_Ok {T E} (r : Result T E) : bool :=
  match r with Ok _ => true | Err _ => false end.

Definition map_err {T E F} (f : E → F) (r : Result T E) : Result T F :=
  match r with Ok v => Ok v | Err e => Err (f e) end.

Declare Scope bombay_scope.
Delimit Scope bombay_scope with bombay.
Notation "'panic!'" := None (only parsing) : bombay_scope.
Open Scope bombay_scope.

(** An operation on a state [S] that may unwind: the state survives a panic
    the way the code leaves it. *)
Definition Op (S A : Type) : Type := S → S * option A.

#[export] Instance Op_ret S : MRet (Op S) := λ A x s, (s, Some x).
#[export] Instance Op_bind S : MBind (Op S) := λ A B k m s,
  match m s with
  | (s, None) => (s, None)
  | (s, Some x) => k x s
  end.

Definition panic {S A} : Op S A := λ s, (s, None).
(** [expect] and [unwrap] on an [Option], and slice indexing. *)
Definition expect {S A} (o : option A) : Op S A := λ s, (s, o).
Definition gets {S A} (f : S → A) : Op S A := λ s, (s, Some (f s)).
Definition modify {S} (f : S → S) : Op S () := λ s, (f s, Some ()).

(** ** Machine integers

    [u64] and [usize] (64-bit targets) are [N] bounded by the width, the
    [NonZero] types are [positive]. *)

Definition u64_max : N := 18446744073709551615.
Definition usize_max : N := u64_max.

Definition checked_add (max a b : N) : option N :=
  if (a + b <=? max)%N then Some (a + b)%N else None.

Definition checked_sub (a b : N) : option N :=
  if (b <=? a)%N then Some (a - b)%N else None.

(** [NonZero::new]. *)
Definition nonzero (n : N) : option positive :=
  match n with N0 => None | Npos p => Some p end.

Definition len {A} (l : list A) : N := N.of_nat (length l).

Ltac solve_checked :=
  split; intros; destruct_and?; simplify_eq/=; try split; try f_equal; try lia; try done.

Lemma checked_add_Some max a b c :
  checked_add max a b = Some c ↔ c = (a + b)%N ∧ (a + b ≤ max)%N.
Proof. unfold checked_add. destruct (N.leb_spec (a + b) max); solve_checked. Qed.

Lemma checked_add_None max a b :
  checked_add max a b = None ↔ (max < a + b)%N.
Proof. unfold checked_add. destruct (N.leb_spec (a + b) max); solve_checked. Qed.

Lemma checked_sub_Some a b c :
  checked_sub a b = Some c ↔ a = (c + b)%N.
Proof. unfold checked_sub. destruct (N.leb_spec b a); solve_checked. Qed.

Lemma checked_sub_None a b : checked_sub a b = None ↔ (a < b)%N.
Proof. unfold checked_sub. destruct (N.leb_spec b a); solve_checked. Qed.

Lemma nonzero_Some n p : nonzero n = Some p ↔ n = Npos p.
Proof. destruct n; solve_checked. Qed.

Lemma nonzero_None n : nonzero n = None ↔ n = 0%N.
Proof. destruct n; solve_checked. Qed.

Lemma len_nil {A} : len (@nil A) = 0%N.
Proof. done. Qed.

Lemma len_cons {A} (x : A) l : len (x :: l) = (len l + 1)%N.
Proof. unfold len. simpl. lia. Qed.

Lemma len_app {A} (l k : list A) : len (l ++ k) = (len l + len k)%N.
Proof. unfold len. rewrite length_app. lia. Qed.

Lemma len_map {A B} (f : A → B) (l : list A) : len (map f l) = len l.
Proof. unfold len. by rewrite length_map. Qed.

(** ** Automation *)

Create HintDb bombay.
Create Rewrite HintDb machine_int.
Create Rewrite HintDb bombay_len.
#[export] Hint Rewrite @len_nil @len_cons @len_app @app_nil_r @app_nil_l : bombay_len.
#[export] Hint Rewrite checked_add_Some checked_sub_Some checked_add_None
  checked_sub_None nonzero_Some nonzero_None : machine_int.

(** Expose the successful branch of every monadic step in the context. *)
Ltac run_option :=
  repeat match goal with
  | H : mbind _ _ = Some _ |- _ => apply bind_Some in H as (? & ? & H)
  | H : fmap _ _ = Some _ |- _ => apply fmap_Some in H as (? & ? & H)
  | H : mret _ = Some _ |- _ => injection H as H; subst
  | H : Some _ = Some _ |- _ => injection H as H; subst
  | H : None = Some _ |- _ => discriminate H
  | H : Some _ = None |- _ => discriminate H
  end.

(** The steps of an operation, forwards. *)
Lemma Op_bind_eq {S A B} (m : Op S A) (k : A → Op S B) s :
  (m ≫= k) s = match m s with (s, None) => (s, None) | (s, Some x) => k x s end.
Proof. done. Qed.

Lemma Op_bind_Some {S A B} (m : Op S A) (k : A → Op S B) s s' y :
  (m ≫= k) s = (s', Some y) → ∃ s1 x, m s = (s1, Some x) ∧ k x s1 = (s', Some y).
Proof. rewrite Op_bind_eq. destruct (m s) as [s1 [x|]]; naive_solver. Qed.

Lemma Op_bind_None {S A B} (m : Op S A) (k : A → Op S B) s s' :
  (m ≫= k) s = (s', None) →
  m s = (s', None) ∨ ∃ s1 x, m s = (s1, Some x) ∧ k x s1 = (s', None).
Proof. rewrite Op_bind_eq. destruct (m s) as [s1 [x|]]; naive_solver. Qed.

(** Case analysis on every [match] of a hypothesis. *)
Ltac case_matches_in H :=
  repeat match type of H with
  | context [match ?x with _ => _ end] => destruct x eqn:?
  end.

(** ** Lists *)

Section lists.
Context {A B : Type}.

(** To prove a permutation from another one, put the sides of the known one on
    opposite sides of the goal. *)
Lemma permutation_with (known known' l k : list A) :
  known ≡ₚ known' → l ++ known' ≡ₚ k ++ known → l ≡ₚ k.
Proof. intros Hk Hl. rewrite Hk in Hl. by apply Permutation_app_inv_r in Hl. Qed.

(** Splitting off the elements a predicate rejects only reorders a list. *)
Lemma filter_split_permutation (P : A → Prop) `{!∀ x, Decision (P x)} l :
  l ≡ₚ filter P l ++ filter (λ x, ¬ P x) l.
Proof.
  induction l as [|x l IH]; [done|]. rewrite !filter_cons.
  destruct (decide (P x)), (decide (¬ P x)); try contradiction; simpl.
  - by apply perm_skip.
  - etrans; [apply perm_skip, IH|]. apply Permutation_middle.
Qed.

Lemma Forall_filter_id (P : A → Prop) `{!∀ x, Decision (P x)} l :
  Forall P l → filter P l = l.
Proof. induction 1; [done|]. rewrite filter_cons_True; by f_equal. Qed.
End lists.
