(* ===== verification/Lifecycle.v ===== *)
(** * Entity lifecycle: the pure algebra of one routing slot

    Models [crates/bombay/src/entity/lifecycle/{mod,inactive,retiring,transition}.rs].
    [EntitySlot] is the state of one stable entity slot, [SlotEvent] an external
    fact, [SlotEffect] a request to the interpreter, [EntitySlot_decide] the transition.
    [E::clone] is user code: it is the parameter [clone], and [None] is its
    panic.  The only other panic is the checked addition of [reserve]. *)

From S2P Require Import Prelude.

(** ** Identities and classifications *)

Record ActivationId := ActivationId_new { ActivationId_get : positive }.
Record DispatchId := DispatchId_new { DispatchId_get : positive }.

#[export] Instance ActivationId_eq_dec : EqDecision ActivationId.
Proof. solve_decision. Defined.
#[export] Instance DispatchId_eq_dec : EqDecision DispatchId.
Proof. solve_decision. Defined.

Variant Generation (T : Type) :=
  | Current (value : T)
  | Stale (value : T).
Arguments Current {_} _.
Arguments Stale {_} _.

Definition classify {T} (self observed : ActivationId) (value : T) : Generation T :=
  match Pos.compare (ActivationId_get self) (ActivationId_get observed) with
  | Eq => Current value
  | Lt | Gt => Stale value
  end.

Variant Refusal :=
  | Refusal_Busy
  | Refusal_Draining
  | Refusal_Unavailable
  | Refusal_Shutdown.

Variant DrainStage :=
  | DrainStage_Reservations
  | DrainStage_FenceEnqueue
  | DrainStage_FenceAcknowledgement
  | DrainStage_Retirement.

Record DrainFailure := {
  stage : DrainStage;
  outstanding_reservations : N;
}.

Variant RetirementMode :=
  | RetirementMode_Graceful
  | RetirementMode_Forced (failure : DrainFailure).

Variant LifecyclePhase :=
  | Phase_Inactive
  | Phase_Activating
  | Phase_Active
  | Phase_Draining
  | Phase_Retiring.

Variant LifecycleEdge :=
  | Edge_ClaimActivation
  | Edge_ActivationSucceeded
  | Edge_ActivationFailed
  | Edge_BeginDrain
  | Edge_FenceAcknowledged
  | Edge_ForceDrain
  | Edge_Terminated.

Variant TransitionEvidence :=
  | Traversed (edge : LifecycleEdge)
  | SelfLoop
  | Ignored.

#[export] Instance Refusal_eq_dec : EqDecision Refusal.
Proof. solve_decision. Defined.
#[export] Instance DrainStage_eq_dec : EqDecision DrainStage.
Proof. solve_decision. Defined.
#[export] Instance DrainFailure_eq_dec : EqDecision DrainFailure.
Proof. solve_decision. Defined.
#[export] Instance RetirementMode_eq_dec : EqDecision RetirementMode.
Proof. solve_decision. Defined.
#[export] Instance LifecyclePhase_eq_dec : EqDecision LifecyclePhase.
Proof. solve_decision. Defined.
#[export] Instance LifecycleEdge_eq_dec : EqDecision LifecycleEdge.
Proof. solve_decision. Defined.
#[export] Instance TransitionEvidence_eq_dec : EqDecision TransitionEvidence.
Proof. solve_decision. Defined.

(** ** Reservation counting *)

Variant ReservationCount :=
  | Count_Drained
  | Count_Pending (count : positive).

Variant ReservationResolution :=
  | Resolution_Unexpected
  | Resolution_Pending (count : ReservationCount)
  | Resolution_Drained.

Definition from_len (value : N) : ReservationCount :=
  match nonzero value with
  | Some pending => Count_Pending pending
  | None => Count_Drained
  end.

(** [None] is the [expect] on [checked_add]. *)
Definition reserve (self : ReservationCount) : option ReservationCount :=
  match self with
  | Count_Drained => Some (Count_Pending 1)
  | Count_Pending value =>
      sum ← checked_add usize_max (Npos value) 1;
      next ← nonzero sum;
      Some (Count_Pending next)
  end.

Definition resolve (self : ReservationCount) : ReservationResolution :=
  match self with
  | Count_Drained => Resolution_Unexpected
  | Count_Pending value =>
      match (rest ← checked_sub (Npos value) 1; nonzero rest) with
      | Some remaining => Resolution_Pending (Count_Pending remaining)
      | None => Resolution_Drained
      end
  end.

Variant DrainProgress :=
  | Progress_Reservations (count : positive)
  | Progress_FenceAcknowledgement.

(** ** Slot states, events and effects *)

Section slot_types.
  Context (C E L : Type).

Record ActivationWaiter := {
  waiter_dispatch_id : DispatchId;
  waiter_command : C;
}.

Record ActivatingSlot := {
  activating_id : ActivationId;
  waiters : list ActivationWaiter;
  waiter_limit : positive;
}.

Record ActiveSlot := {
  active_id : ActivationId;
  active_endpoint : E;
  active_lease : L;
  reservations : ReservationCount;
}.

Record DrainingSlot := {
  draining_id : ActivationId;
  draining_endpoint : E;
  draining_lease : L;
  progress : DrainProgress;
}.

Variant EntitySlot :=
  | Slot_Inactive
  | Slot_Activating (state : ActivatingSlot)
  | Slot_Active (state : ActiveSlot)
  | Slot_Draining (state : DrainingSlot)
  | Slot_Retiring (activation_id : ActivationId).

Variant SlotEvent :=
  | Event_ClaimActivation (activation_id : ActivationId) (dispatch_id : DispatchId)
      (command : C) (limit : positive)
  | Event_Dispatch (dispatch_id : DispatchId) (command : C)
  | Event_CancelWaiter (activation_id : ActivationId) (dispatch_id : DispatchId)
  | Event_ActivationSucceeded (activation_id : ActivationId) (endpoint : E) (lease : L)
  | Event_ActivationFailed (activation_id : ActivationId)
  | Event_DeliveryResolved (activation_id : ActivationId) (failure : option (DispatchId * C))
  | Event_BeginDrain (activation_id : ActivationId)
  | Event_FenceAcknowledged (activation_id : ActivationId)
  | Event_ForceDrain (activation_id : ActivationId) (failure : DrainFailure)
  | Event_Terminated (activation_id : ActivationId).

Variant SlotEffect :=
  | Effect_StartActivation (activation_id : ActivationId)
  | Effect_Deliver (activation_id : ActivationId) (dispatch_id : DispatchId)
      (endpoint : E) (command : C)
  | Effect_Reject (dispatch_id : DispatchId) (command : C) (reason : Refusal)
  | Effect_EnqueueFence (activation_id : ActivationId) (endpoint : E)
  | Effect_Retire (activation_id : ActivationId) (lease : L) (retirement : RetirementMode)
  | Effect_Remove (activation_id : ActivationId).

Variant SlotEffectBatch :=
  | Batch_Empty
  | Batch_One (effect : SlotEffect)
  | Batch_Many (effects : list SlotEffect).

Record SlotDecision := {
  state : EntitySlot;
  effects : SlotEffectBatch;
  evidence : TransitionEvidence;
}.
End slot_types.

Arguments Build_ActivationWaiter {C} _ _.
Arguments waiter_dispatch_id {C} _.
Arguments waiter_command {C} _.
Arguments Build_ActivatingSlot {C} _ _ _.
Arguments activating_id {C} _.
Arguments waiters {C} _.
Arguments waiter_limit {C} _.
Arguments Build_ActiveSlot {E L} _ _ _ _.
Arguments active_id {E L} _.
Arguments active_endpoint {E L} _.
Arguments active_lease {E L} _.
Arguments reservations {E L} _.
Arguments Build_DrainingSlot {E L} _ _ _ _.
Arguments draining_id {E L} _.
Arguments draining_endpoint {E L} _.
Arguments draining_lease {E L} _.
Arguments progress {E L} _.
Arguments Slot_Inactive {C E L}.
Arguments Slot_Activating {C E L} _.
Arguments Slot_Active {C E L} _.
Arguments Slot_Draining {C E L} _.
Arguments Slot_Retiring {C E L} _.
Arguments Event_ClaimActivation {C E L} _ _ _ _.
Arguments Event_Dispatch {C E L} _ _.
Arguments Event_CancelWaiter {C E L} _ _.
Arguments Event_ActivationSucceeded {C E L} _ _ _.
Arguments Event_ActivationFailed {C E L} _.
Arguments Event_DeliveryResolved {C E L} _ _.
Arguments Event_BeginDrain {C E L} _.
Arguments Event_FenceAcknowledged {C E L} _.
Arguments Event_ForceDrain {C E L} _ _.
Arguments Event_Terminated {C E L} _.
Arguments Effect_StartActivation {C E L} _.
Arguments Effect_Deliver {C E L} _ _ _ _.
Arguments Effect_Reject {C E L} _ _ _.
Arguments Effect_EnqueueFence {C E L} _ _.
Arguments Effect_Retire {C E L} _ _ _.
Arguments Effect_Remove {C E L} _.
Arguments Batch_Empty {C E L}.
Arguments Batch_One {C E L} _.
Arguments Batch_Many {C E L} _.
Arguments Build_SlotDecision {C E L} _ _ _.
Arguments state {C E L} _.
Arguments effects {C E L} _.
Arguments evidence {C E L} _.

(** ** Effect batches *)

Section batch.
  Context {C E L : Type}.
  Implicit Types (b : SlotEffectBatch C E L) (e : SlotEffect C E L).

Definition batch_one e : SlotEffectBatch C E L := Batch_One e.

Definition as_slice b : list (SlotEffect C E L) :=
  match b with
  | Batch_Empty => []
  | Batch_One effect => [effect]
  | Batch_Many effects => effects
  end.

Definition into_vec b : list (SlotEffect C E L) :=
  match b with
  | Batch_Empty => []
  | Batch_One effect => [effect]
  | Batch_Many effects => effects
  end.

(** The [FnMut] callback threads the state it captures. *)
Definition for_each {S} (interpret : S → SlotEffect C E L → S) b (captured : S) : S :=
  match b with
  | Batch_Empty => captured
  | Batch_One effect => interpret captured effect
  | Batch_Many effects => fold_left interpret effects captured
  end.

Definition push b e : SlotEffectBatch C E L :=
  match b with
  | Batch_Empty => Batch_One e
  | Batch_One first => Batch_Many [first; e]
  | Batch_Many effects => Batch_Many (effects ++ [e])
  end.

Definition extend b (effects : list (SlotEffect C E L)) : SlotEffectBatch C E L :=
  fold_left push effects b.

Definition batch_default : SlotEffectBatch C E L := Batch_Empty.

Definition from_iter (effects : list (SlotEffect C E L)) : SlotEffectBatch C E L :=
  extend batch_default effects.

Definition batch_add b (rhs : SlotEffectBatch C E L) : SlotEffectBatch C E L :=
  for_each push rhs b.
End batch.

(** ** Decisions *)

Section decisions.
  Context {C E L : Type}.
  Implicit Types (slot : EntitySlot C E L) (batch : SlotEffectBatch C E L).

Definition decision slot batch : SlotDecision C E L :=
  Build_SlotDecision slot batch Ignored.

Definition handled slot batch : SlotDecision C E L :=
  Build_SlotDecision slot batch SelfLoop.

Definition traversed slot batch (edge : LifecycleEdge) : SlotDecision C E L :=
  Build_SlotDecision slot batch (Traversed edge).

Definition with_evidence (self : SlotDecision C E L) (ev : TransitionEvidence) :
    SlotDecision C E L :=
  Build_SlotDecision (state self) (effects self) ev.

Definition with_effect (d : SlotDecision C E L) (effect : SlotEffect C E L) :
    SlotDecision C E L :=
  Build_SlotDecision (state d) (batch_add (effects d) (batch_one effect)) (evidence d).

Definition reject slot (dispatch_id : DispatchId) (command : C) (reason : Refusal) :
    SlotDecision C E L :=
  handled slot (batch_one (Effect_Reject dispatch_id command reason)).

Definition reject_failed_delivery slot (failure : option (DispatchId * C))
    (reason : Refusal) : SlotDecision C E L :=
  match failure with
  | Some (dispatch_id, command) =>
      decision slot (batch_one (Effect_Reject dispatch_id command reason))
  | None => decision slot batch_default
  end.

Definition retire_stale slot (activation_id : ActivationId) (lease : L) :
    SlotDecision C E L :=
  decision slot (batch_one (Effect_Retire activation_id lease
    (RetirementMode_Forced
      {| stage := DrainStage_Retirement; outstanding_reservations := 0 |}))).

Definition phase slot : LifecyclePhase :=
  match slot with
  | Slot_Inactive => Phase_Inactive
  | Slot_Activating _ => Phase_Activating
  | Slot_Active _ => Phase_Active
  | Slot_Draining _ => Phase_Draining
  | Slot_Retiring _ => Phase_Retiring
  end.

Definition slot_activation_id slot : option ActivationId :=
  match slot with
  | Slot_Inactive => None
  | Slot_Activating st => Some (activating_id st)
  | Slot_Active st => Some (active_id st)
  | Slot_Draining st => Some (draining_id st)
  | Slot_Retiring activation_id => Some activation_id
  end.

(** [inactive.rs] *)
Definition decide_inactive (event : SlotEvent C E L) : SlotDecision C E L :=
  match event with
  | Event_ClaimActivation activation_id dispatch_id command limit =>
      traversed
        (Slot_Activating
          (Build_ActivatingSlot activation_id
            [Build_ActivationWaiter dispatch_id command] limit))
        (batch_one (Effect_StartActivation activation_id))
        Edge_ClaimActivation
  | Event_Dispatch dispatch_id command =>
      reject Slot_Inactive dispatch_id command Refusal_Unavailable
  | Event_ActivationSucceeded activation_id _ lease =>
      retire_stale Slot_Inactive activation_id lease
  | Event_DeliveryResolved _ failure =>
      reject_failed_delivery Slot_Inactive failure Refusal_Unavailable
  | _ => decision Slot_Inactive batch_default
  end.

(** [retiring.rs] *)
Definition decide_retiring (activation_id : ActivationId) (event : SlotEvent C E L) :
    SlotDecision C E L :=
  match event with
  | Event_Terminated observed =>
      match classify activation_id observed () with
      | Current () =>
          traversed Slot_Inactive (batch_one (Effect_Remove activation_id)) Edge_Terminated
      | Stale () => decision (Slot_Retiring activation_id) batch_default
      end
  | Event_Dispatch dispatch_id command
  | Event_ClaimActivation _ dispatch_id command _ =>
      reject (Slot_Retiring activation_id) dispatch_id command Refusal_Draining
  | Event_ActivationSucceeded stale_id _ lease =>
      retire_stale (Slot_Retiring activation_id) stale_id lease
  | Event_DeliveryResolved _ failure =>
      reject_failed_delivery (Slot_Retiring activation_id) failure Refusal_Unavailable
  | _ => decision (Slot_Retiring activation_id) batch_default
  end.

Definition fail_activation (st : ActivatingSlot C) (activation_id : ActivationId) :
    SlotDecision C E L :=
  match classify (activating_id st) activation_id () with
  | Current () =>
      let batch := from_iter
        (map (λ waiter, Effect_Reject (waiter_dispatch_id waiter) (waiter_command waiter)
                          Refusal_Unavailable) (waiters st)
         ++ [Effect_Remove activation_id]) in
      traversed Slot_Inactive batch Edge_ActivationFailed
  | Stale () => decision (Slot_Activating st) batch_default
  end.

Definition resolve_active_delivery (st : ActiveSlot E L)
    (failure : option (DispatchId * C)) : SlotDecision C E L :=
  let with_reservations count :=
    Slot_Active (Build_ActiveSlot (active_id st) (active_endpoint st) (active_lease st) count) in
  match resolve (reservations st) with
  | Resolution_Unexpected =>
      reject_failed_delivery (Slot_Active st) failure Refusal_Unavailable
  | Resolution_Pending count =>
      with_evidence
        (reject_failed_delivery (with_reservations count) failure Refusal_Unavailable) SelfLoop
  | Resolution_Drained =>
      with_evidence
        (reject_failed_delivery (with_reservations Count_Drained) failure Refusal_Unavailable)
        SelfLoop
  end.

Definition acknowledge_fence (st : DrainingSlot E L) : SlotDecision C E L :=
  match progress st with
  | Progress_Reservations _ => decision (Slot_Draining st) batch_default
  | Progress_FenceAcknowledgement =>
      traversed (Slot_Retiring (draining_id st))
        (batch_one (Effect_Retire (draining_id st) (draining_lease st) RetirementMode_Graceful))
        Edge_FenceAcknowledged
  end.

Definition force_drain (st : DrainingSlot E L) (failure : DrainFailure) : SlotDecision C E L :=
  traversed (Slot_Retiring (draining_id st))
    (batch_one (Effect_Retire (draining_id st) (draining_lease st)
      (RetirementMode_Forced failure)))
    Edge_ForceDrain.

(** The handlers that clone the endpoint may unwind with it. *)
Context (clone : E → option E).

Definition finish_activation (st : ActivatingSlot C) (activation_id : ActivationId)
    (endpoint : E) (lease : L) : option (SlotDecision C E L) :=
  match classify (activating_id st) activation_id (endpoint, lease) with
  | Current (endpoint, lease) =>
      let count := from_len (len (waiters st)) in
      delivers ← mapM (λ waiter,
        copy ← clone endpoint;
        Some (Effect_Deliver activation_id (waiter_dispatch_id waiter) copy
                (waiter_command waiter))) (waiters st);
      Some (traversed
        (Slot_Active (Build_ActiveSlot activation_id endpoint lease count))
        (from_iter delivers) Edge_ActivationSucceeded)
  | Stale (_, lease) => Some (retire_stale (Slot_Activating st) activation_id lease)
  end.

Definition decide_activating (st : ActivatingSlot C) (event : SlotEvent C E L) :
    option (SlotDecision C E L) :=
  match event with
  | Event_Dispatch dispatch_id command =>
      match N.compare (len (waiters st)) (Npos (waiter_limit st)) with
      | Lt =>
          Some (handled
            (Slot_Activating (Build_ActivatingSlot (activating_id st)
              (waiters st ++ [Build_ActivationWaiter dispatch_id command]) (waiter_limit st)))
            batch_default)
      | Eq | Gt => Some (reject (Slot_Activating st) dispatch_id command Refusal_Busy)
      end
  | Event_CancelWaiter activation_id dispatch_id =>
      match classify (activating_id st) activation_id dispatch_id with
      | Current dispatch_id =>
          let prior_waiters := len (waiters st) in
          let retained := filter (λ w, waiter_dispatch_id w ≠ dispatch_id) (waiters st) in
          let st' := Build_ActivatingSlot (activating_id st) retained (waiter_limit st) in
          if (len retained <? prior_waiters)%N
          then Some (handled (Slot_Activating st') batch_default)
          else Some (decision (Slot_Activating st') batch_default)
      | Stale _ => Some (decision (Slot_Activating st) batch_default)
      end
  | Event_ActivationSucceeded activation_id endpoint lease =>
      finish_activation st activation_id endpoint lease
  | Event_ActivationFailed activation_id => Some (fail_activation st activation_id)
  | Event_ClaimActivation _ dispatch_id command _ =>
      Some (reject (Slot_Activating st) dispatch_id command Refusal_Busy)
  | Event_DeliveryResolved _ failure =>
      Some (reject_failed_delivery (Slot_Activating st) failure Refusal_Unavailable)
  | _ => Some (decision (Slot_Activating st) batch_default)
  end.

Definition begin_drain (st : ActiveSlot E L) : option (SlotDecision C E L) :=
  match reservations st with
  | Count_Drained =>
      endpoint ← clone (active_endpoint st);
      Some (traversed
        (Slot_Draining (Build_DrainingSlot (active_id st) (active_endpoint st)
          (active_lease st) Progress_FenceAcknowledgement))
        (batch_one (Effect_EnqueueFence (active_id st) endpoint)) Edge_BeginDrain)
  | Count_Pending pending =>
      Some (traversed
        (Slot_Draining (Build_DrainingSlot (active_id st) (active_endpoint st)
          (active_lease st) (Progress_Reservations pending)))
        batch_default Edge_BeginDrain)
  end.

Definition decide_active (st : ActiveSlot E L) (event : SlotEvent C E L) :
    option (SlotDecision C E L) :=
  match event with
  | Event_Dispatch dispatch_id command =>
      endpoint ← clone (active_endpoint st);
      count ← reserve (reservations st);
      Some (handled
        (Slot_Active (Build_ActiveSlot (active_id st) (active_endpoint st) (active_lease st) count))
        (batch_one (Effect_Deliver (active_id st) dispatch_id endpoint command)))
  | Event_DeliveryResolved activation_id failure =>
      match classify (active_id st) activation_id failure with
      | Current failure => Some (resolve_active_delivery st failure)
      | Stale failure =>
          Some (reject_failed_delivery (Slot_Active st) failure Refusal_Unavailable)
      end
  | Event_BeginDrain activation_id =>
      match classify (active_id st) activation_id () with
      | Current () => begin_drain st
      | Stale () => Some (decision (Slot_Active st) batch_default)
      end
  | Event_ActivationSucceeded activation_id _ lease =>
      Some (retire_stale (Slot_Active st) activation_id lease)
  | Event_ClaimActivation _ dispatch_id command _ =>
      Some (reject (Slot_Active st) dispatch_id command Refusal_Busy)
  | _ => Some (decision (Slot_Active st) batch_default)
  end.

Definition resolve_draining_delivery (st : DrainingSlot E L)
    (failure : option (DispatchId * C)) : option (SlotDecision C E L) :=
  let with_progress p :=
    Slot_Draining (Build_DrainingSlot (draining_id st) (draining_endpoint st)
      (draining_lease st) p) in
  match progress st with
  | Progress_FenceAcknowledgement =>
      Some (reject_failed_delivery (Slot_Draining st) failure Refusal_Unavailable)
  | Progress_Reservations pending =>
      match (rest ← checked_sub (Npos pending) 1; nonzero rest) with
      | Some remaining =>
          Some (with_evidence
            (reject_failed_delivery (with_progress (Progress_Reservations remaining)) failure
              Refusal_Unavailable) SelfLoop)
      | None =>
          endpoint ← clone (draining_endpoint st);
          Some (with_evidence
            (with_effect
              (reject_failed_delivery (with_progress Progress_FenceAcknowledgement) failure
                Refusal_Unavailable)
              (Effect_EnqueueFence (draining_id st) endpoint)) SelfLoop)
      end
  end.

Definition decide_draining (st : DrainingSlot E L) (event : SlotEvent C E L) :
    option (SlotDecision C E L) :=
  match event with
  | Event_Dispatch dispatch_id command
  | Event_ClaimActivation _ dispatch_id command _ =>
      Some (reject (Slot_Draining st) dispatch_id command Refusal_Draining)
  | Event_DeliveryResolved activation_id failure =>
      match classify (draining_id st) activation_id failure with
      | Current failure => resolve_draining_delivery st failure
      | Stale failure =>
          Some (reject_failed_delivery (Slot_Draining st) failure Refusal_Unavailable)
      end
  | Event_FenceAcknowledged activation_id =>
      match classify (draining_id st) activation_id () with
      | Current () => Some (acknowledge_fence st)
      | Stale () => Some (decision (Slot_Draining st) batch_default)
      end
  | Event_ForceDrain activation_id failure =>
      match classify (draining_id st) activation_id failure with
      | Current failure => Some (force_drain st failure)
      | Stale _ => Some (decision (Slot_Draining st) batch_default)
      end
  | Event_ActivationSucceeded activation_id _ lease =>
      Some (retire_stale (Slot_Draining st) activation_id lease)
  | _ => Some (decision (Slot_Draining st) batch_default)
  end.

Definition EntitySlot_decide slot (event : SlotEvent C E L) : option (SlotDecision C E L) :=
  match slot with
  | Slot_Inactive => Some (decide_inactive event)
  | Slot_Activating st => decide_activating st event
  | Slot_Active st => decide_active st event
  | Slot_Draining st => decide_draining st event
  | Slot_Retiring activation_id => Some (decide_retiring activation_id event)
  end.

Definition EntitySlot_decide_all slot (events : list (SlotEvent C E L)) : option (SlotDecision C E L) :=
  fold_left (λ accumulated event,
      accumulated ← accumulated;
      next ← EntitySlot_decide (state accumulated) event;
      Some (Build_SlotDecision (state next)
              (batch_add (effects accumulated) (effects next)) (evidence next)))
    events (Some (decision slot batch_default)).

(** Closing a family needs no clone: every owned value moves out. *)
Definition close_family slot :
    EntitySlot C E L * SlotEffectBatch C E L *
    option (ActivationId * E * L * Result unit DrainFailure) :=
  match slot with
  | Slot_Inactive => (Slot_Inactive, batch_default, None)
  | Slot_Activating st =>
      let batch := from_iter
        (map (λ waiter, Effect_Reject (waiter_dispatch_id waiter) (waiter_command waiter)
                          Refusal_Shutdown) (waiters st)) in
      (Slot_Inactive, push batch (Effect_Remove (activating_id st)), None)
  | Slot_Active st =>
      let admission :=
        match reservations st with
        | Count_Drained => Ok ()
        | Count_Pending count =>
            Err {| stage := DrainStage_Reservations; outstanding_reservations := Npos count |}
        end in
      (Slot_Retiring (active_id st), batch_default,
       Some (active_id st, active_endpoint st, active_lease st, admission))
  | Slot_Draining st =>
      let failure :=
        match progress st with
        | Progress_Reservations count =>
            {| stage := DrainStage_Reservations; outstanding_reservations := Npos count |}
        | Progress_FenceAcknowledgement =>
            {| stage := DrainStage_FenceAcknowledgement; outstanding_reservations := 0 |}
        end in
      (Slot_Retiring (draining_id st), batch_default,
       Some (draining_id st, draining_endpoint st, draining_lease st, Err failure))
  | Slot_Retiring activation_id => (Slot_Retiring activation_id, batch_default, None)
  end.
End decisions.

Arguments decision : simpl never.
Arguments handled : simpl never.
Arguments traversed : simpl never.

(** ** Specification vocabulary *)

Definition count_value (c : ReservationCount) : N :=
  match c with Count_Drained => 0 | Count_Pending p => Npos p end.

Definition progress_value (p : DrainProgress) : N :=
  match p with Progress_Reservations n => Npos n | Progress_FenceAcknowledgement => 0 end.

Section vocabulary.
  Context {C E L : Type}.
  Implicit Types (slot : EntitySlot C E L) (event : SlotEvent C E L) (e : SlotEffect C E L).

(** The commands and leases a value owns, each once per owner. *)
Definition slot_commands slot : list C :=
  match slot with
  | Slot_Activating st => map waiter_command (waiters st)
  | _ => []
  end.

Definition event_commands event : list C :=
  match event with
  | Event_ClaimActivation _ _ c _ | Event_Dispatch _ c => [c]
  | Event_DeliveryResolved _ (Some (_, c)) => [c]
  | _ => []
  end.

Definition effect_commands e : list C :=
  match e with
  | Effect_Deliver _ _ _ c | Effect_Reject _ c _ => [c]
  | _ => []
  end.

Definition slot_leases slot : list L :=
  match slot with
  | Slot_Active st => [active_lease st]
  | Slot_Draining st => [draining_lease st]
  | _ => []
  end.

Definition event_leases event : list L :=
  match event with
  | Event_ActivationSucceeded _ _ l => [l]
  | _ => []
  end.

Definition effect_leases e : list L :=
  match e with
  | Effect_Retire _ l _ => [l]
  | _ => []
  end.

Definition batch_commands (b : SlotEffectBatch C E L) : list C :=
  into_vec b ≫= effect_commands.

Definition batch_leases (b : SlotEffectBatch C E L) : list L :=
  into_vec b ≫= effect_leases.

(** Only a current cancellation drops commands: those of the named waiter. *)
Definition cancelled_commands slot event : list C :=
  match slot, event with
  | Slot_Activating st, Event_CancelWaiter a d =>
      if decide (activating_id st = a)
      then map waiter_command (filter (λ w, ¬ waiter_dispatch_id w ≠ d) (waiters st))
      else []
  | _, _ => []
  end.

Definition is_claim event : bool :=
  match event with Event_ClaimActivation _ _ _ _ => true | _ => false end.

Definition is_cleanup e : bool :=
  match e with Effect_Reject _ _ _ | Effect_Retire _ _ _ => true | _ => false end.

(** The incarnation an event names: the one a stale fact is compared with. *)
Definition event_generation event : option ActivationId :=
  match event with
  | Event_ClaimActivation _ _ _ _ | Event_Dispatch _ _ => None
  | Event_CancelWaiter a _ | Event_ActivationSucceeded a _ _ | Event_ActivationFailed a
  | Event_DeliveryResolved a _ | Event_BeginDrain a | Event_FenceAcknowledged a
  | Event_ForceDrain a _ | Event_Terminated a => Some a
  end.

(** The waiter set never exceeds the bound fixed when the activation was claimed. *)
Definition slot_wf slot : Prop :=
  match slot with
  | Slot_Activating st =>
      (len (waiters st) ≤ Npos (waiter_limit st))%N ∧ (Npos (waiter_limit st) ≤ usize_max)%N
  | Slot_Active st => (count_value (reservations st) ≤ usize_max)%N
  | _ => True
  end.

(** Reservations a slot still counts for its incarnation. *)
Definition slot_reservations slot : N :=
  match slot with
  | Slot_Active st => count_value (reservations st)
  | Slot_Draining st => progress_value (progress st)
  | _ => 0
  end.
End vocabulary.

(** The phases in the order of one incarnation's life. *)
Definition phase_rank (p : LifecyclePhase) : nat :=
  match p with
  | Phase_Activating => 0
  | Phase_Active => 1
  | Phase_Draining => 2
  | Phase_Retiring => 3
  | Phase_Inactive => 4
  end.

Definition edge_phases (edge : LifecycleEdge) : LifecyclePhase * LifecyclePhase :=
  match edge with
  | Edge_ClaimActivation => (Phase_Inactive, Phase_Activating)
  | Edge_ActivationSucceeded => (Phase_Activating, Phase_Active)
  | Edge_ActivationFailed => (Phase_Activating, Phase_Inactive)
  | Edge_BeginDrain => (Phase_Active, Phase_Draining)
  | Edge_FenceAcknowledged | Edge_ForceDrain => (Phase_Draining, Phase_Retiring)
  | Edge_Terminated => (Phase_Retiring, Phase_Inactive)
  end.

(** ** Lemmas: counters and generations *)

Lemma classify_spec {T} (a b : ActivationId) (v : T) :
  classify a b v = if decide (a = b) then Current v else Stale v.
Proof.
  destruct a as [a], b as [b]. unfold classify. simpl.
  destruct (Pos.compare_spec a b); case_decide; naive_solver lia.
Qed.

Lemma count_value_from_len n : count_value (from_len n) = n.
Proof. by destruct n. Qed.

Lemma reserve_Some c c' :
  reserve c = Some c' →
  count_value c' = (count_value c + 1)%N ∧ (count_value c' ≤ usize_max)%N.
Proof.
  destruct c as [|p]; unfold reserve; intros H; run_option; [by vm_compute|].
  apply checked_add_Some in H0 as [-> ?]. apply nonzero_Some in H1. simpl in *. lia.
Qed.

Lemma reserve_None c :
  reserve c = None ↔ (usize_max < count_value c + 1)%N.
Proof.
  destruct c as [|p]; simpl; [by split; vm_compute|].
  destruct (checked_add usize_max (N.pos p) 1) as [n|] eqn:Hadd; simpl.
  - apply checked_add_Some in Hadd as [-> ?]. destruct (nonzero _) eqn:Hnz; simpl.
    + split; [done|lia].
    + apply nonzero_None in Hnz. lia.
  - by rewrite checked_add_None in Hadd.
Qed.

Lemma predecessor_spec p :
  (rest ← checked_sub (Npos p) 1; nonzero rest) = nonzero (Npos p - 1).
Proof.
  destruct (checked_sub (N.pos p) 1) eqn:H; simpl.
  - apply checked_sub_Some in H. f_equal. lia.
  - apply checked_sub_None in H. lia.
Qed.

Lemma resolve_spec c :
  match resolve c with
  | Resolution_Unexpected => count_value c = 0%N
  | Resolution_Pending c' => count_value c = (count_value c' + 1)%N ∧ count_value c' ≠ 0%N
  | Resolution_Drained => count_value c = 1%N
  end.
Proof.
  destruct c as [|p]; unfold resolve; [done|]. rewrite predecessor_spec.
  destruct (nonzero _) as [q|] eqn:H; simpl;
    [apply nonzero_Some in H|apply nonzero_None in H]; lia.
Qed.

(** ** Lemmas: effect batches *)

Section batch_lemmas.
  Context {C E L : Type}.
  Implicit Types (b : SlotEffectBatch C E L) (e : SlotEffect C E L).

Lemma into_vec_push b e : into_vec (push b e) = into_vec b ++ [e].
Proof. by destruct b. Qed.

Lemma into_vec_extend b l : into_vec (extend b l) = into_vec b ++ l.
Proof.
  revert b. unfold extend. induction l as [|e l IH]; intros b; simpl.
  - by rewrite app_nil_r.
  - by rewrite IH, into_vec_push, <- app_assoc.
Qed.

Lemma into_vec_from_iter (l : list (SlotEffect C E L)) : into_vec (from_iter l) = l.
Proof. apply into_vec_extend. Qed.

Lemma for_each_fold {S} (f : S → SlotEffect C E L → S) b s :
  for_each f b s = fold_left f (into_vec b) s.
Proof. by destruct b. Qed.

Lemma into_vec_add b b' : into_vec (batch_add b b') = into_vec b ++ into_vec b'.
Proof. unfold batch_add. rewrite for_each_fold. apply into_vec_extend. Qed.

Lemma as_slice_into_vec b : as_slice b = into_vec b.
Proof. by destruct b. Qed.

(** A batch is canonical when [Batch_Many] holds at least two effects: then
    the representation is determined by the effects, so zero or one effect
    never allocates. *)
Definition canonical b : Prop :=
  match b with Batch_Many l => (2 ≤ length l)%nat | _ => True end.

Lemma push_canonical b e : canonical b → canonical (push b e).
Proof. destruct b; simpl; rewrite ?length_app; simpl; lia. Qed.

Lemma extend_canonical b l : canonical b → canonical (extend b l).
Proof.
  revert b. unfold extend. induction l as [|e l IH]; intros b Hb; simpl; [done|].
  by apply IH, push_canonical.
Qed.

Lemma canonical_inj b b' :
  canonical b → canonical b' → into_vec b = into_vec b' → b = b'.
Proof.
  destruct b as [|e|l], b' as [|e'|l']; simpl; intros ?? Hvec; simplify_eq; simpl in *;
    try done; lia.
Qed.

Lemma batch_add_canonical b b' : canonical b → canonical (batch_add b b').
Proof. unfold batch_add. rewrite for_each_fold. apply extend_canonical. Qed.

Lemma batch_add_assoc a b c :
  canonical a → batch_add (batch_add a b) c = batch_add a (batch_add b c).
Proof.
  intros Ha. apply canonical_inj; [by do 2 apply batch_add_canonical|by apply batch_add_canonical|].
  by rewrite !into_vec_add, app_assoc.
Qed.

(** Two batches are equivalent when an interpreter sees the same effects. *)
#[export] Instance batch_equiv : Equiv (SlotEffectBatch C E L) :=
  λ b b', into_vec b = into_vec b'.

#[export] Instance batch_equivalence : Equivalence (≡@{SlotEffectBatch C E L}).
Proof. split; unfold equiv, batch_equiv; congruence. Qed.

#[export] Instance batch_add_proper :
  Proper ((≡) ==> (≡) ==> (≡)) (@batch_add C E L).
Proof. intros a a' Ha b b' Hb. unfold equiv, batch_equiv in *. rewrite !into_vec_add. congruence. Qed.

#[export] Instance push_proper : Proper ((≡) ==> (=) ==> (≡)) (@push C E L).
Proof. intros a a' Ha e ? <-. unfold equiv, batch_equiv in *. rewrite !into_vec_push. congruence. Qed.

#[export] Instance batch_commands_proper : Proper ((≡) ==> (=)) (@batch_commands C E L).
Proof. intros b b' Hb. unfold batch_commands. by rewrite Hb. Qed.
End batch_lemmas.

Create Rewrite HintDb bombay_batch.
#[export] Hint Rewrite @into_vec_push @into_vec_extend @into_vec_from_iter @into_vec_add
  : bombay_batch.

(** ** Case analysis on one transition *)

(** Unfold every handler, split on the branch the code took and keep the
    equations of the monadic steps. *)
Ltac unfold_handlers :=
  unfold EntitySlot_decide, decide_inactive, decide_activating, decide_active, decide_draining,
    decide_retiring, finish_activation, fail_activation, resolve_active_delivery,
    resolve_draining_delivery, begin_drain, acknowledge_fence, force_drain,
    reject_failed_delivery, retire_stale, reject, with_effect, with_evidence,
    decision, handled, traversed, batch_one, batch_default in *.

Ltac transition_cases H :=
  unfold_handlers; rewrite ?classify_spec, ?predecessor_spec in H;
  repeat (case_match; simplify_eq/=; rewrite ?classify_spec, ?predecessor_spec in * );
  run_option; simplify_eq/=.

Section transition_lemmas.
  Context {C E L : Type} (clone : E → option E).
  Implicit Types (slot : EntitySlot C E L) (event : SlotEvent C E L).

Lemma reject_commands (reason : Refusal) (ws : list (ActivationWaiter C)) :
  map (λ w, @Effect_Reject C E L (waiter_dispatch_id w) (waiter_command w) reason) ws
    ≫= effect_commands = map waiter_command ws.
Proof. induction ws; [done|]. csimpl. by f_equal. Qed.

Lemma reject_leases (reason : Refusal) (ws : list (ActivationWaiter C)) :
  map (λ w, @Effect_Reject C E L (waiter_dispatch_id w) (waiter_command w) reason) ws
    ≫= effect_leases = [].
Proof. induction ws; [done|]. csimpl. done. Qed.

(** Committing an activation delivers every waiter, in order, to copies of
    the endpoint. *)
Lemma delivers_spec (a : ActivationId) (endpoint : E) (ws : list (ActivationWaiter C))
    (ds : list (SlotEffect C E L)) :
  mapM (λ w, copy ← clone endpoint;
    Some (Effect_Deliver a (waiter_dispatch_id w) copy (waiter_command w))) ws = Some ds →
  Forall2 (λ w d, ∃ copy, clone endpoint = Some copy ∧
    d = Effect_Deliver a (waiter_dispatch_id w) copy (waiter_command w)) ws ds.
Proof.
  intros H%mapM_Some_1. eapply Forall2_impl; [exact H|]. simpl. intros w d Hd. run_option. eauto.
Qed.

Lemma delivers_commands a (endpoint : E) (ws : list (ActivationWaiter C))
    (ds : list (SlotEffect C E L)) :
  mapM (λ w, copy ← clone endpoint;
    Some (Effect_Deliver a (waiter_dispatch_id w) copy (waiter_command w))) ws = Some ds →
  ds ≫= effect_commands = map waiter_command ws ∧ ds ≫= effect_leases = [].
Proof.
  intros H%delivers_spec. induction H as [|w d ws ds (copy & _ & ->) _ [IH1 IH2]]; [done|].
  csimpl. by rewrite IH1, IH2.
Qed.

Lemma decide_commands slot event d :
  EntitySlot_decide clone slot event = Some d →
  slot_commands slot ++ event_commands event ≡ₚ
  slot_commands (state d) ++ batch_commands (effects d) ++ cancelled_commands slot event.
Proof.
  intros H. destruct slot, event; transition_cases H; unfold batch_commands;
    autorewrite with bombay_batch; simpl; try done; try lia.
  - rewrite map_app. simpl. by rewrite app_nil_r.
  - rewrite app_nil_r, <- map_app. apply Permutation_map, filter_split_permutation.
  - rewrite app_nil_r, <- map_app. apply Permutation_map, filter_split_permutation.
  - match goal with H : mapM _ _ = Some _ |- _ => apply delivers_commands in H as [-> _] end. done.
  - rewrite bind_app, reject_commands. simpl. by rewrite !app_nil_r.
Qed.

Lemma decide_leases slot event d :
  EntitySlot_decide clone slot event = Some d →
  slot_leases slot ++ event_leases event ≡ₚ slot_leases (state d) ++ batch_leases (effects d).
Proof.
  intros H. destruct slot, event; transition_cases H; unfold batch_leases;
    autorewrite with bombay_batch; simpl; try done; try lia.
  - match goal with H : mapM _ _ = Some _ |- _ => apply delivers_commands in H as [_ ->] end. done.
  - by rewrite bind_app, reject_leases.
Qed.

Lemma decide_canonical slot event d :
  EntitySlot_decide clone slot event = Some d → canonical (effects d).
Proof.
  intros H. destruct slot, event; transition_cases H; simpl; try done; try lia.
  - by apply extend_canonical.
  - by apply extend_canonical.
Qed.

Lemma filter_same_length {A} (P : A → Prop) `{!∀ x, Decision (P x)} (l : list A) :
  (len l ≤ len (filter P l))%N → filter P l = l.
Proof.
  intros Hlen. apply Forall_filter_id, Forall_forall. intros x Hx. apply dec_stable. intros Hn.
  pose proof (filter_split_permutation P l) as Hp%Permutation_length.
  rewrite length_app in Hp. unfold len in Hlen.
  assert (Hin : x ∈ filter (λ x, ¬ P x) l) by (apply list_elem_of_filter; split; [exact Hn|exact Hx]).
  destruct (filter (λ x, ¬ P x) l); [by apply not_elem_of_nil in Hin|]. simpl in Hp. lia.
Qed.

Lemma decide_evidence slot event d :
  EntitySlot_decide clone slot event = Some d →
  match evidence d with
  | Traversed edge => (phase slot, phase (state d)) = edge_phases edge
  | SelfLoop => phase (state d) = phase slot
  | Ignored => state d = slot ∧ Forall is_cleanup (into_vec (effects d))
  end.
Proof.
  intros H. destruct slot as [|st|st|st|], event; transition_cases H;
    try done; try lia; (split; [|by repeat constructor]); try done.
  - destruct st as [a ws limit]; simpl in *. do 3 f_equal. apply filter_same_length.
    by apply N.ltb_ge.
Qed.

(** Every effect emitted from a closed phase is a refusal, a retirement, a
    fence or a removal: only [Phase_Activating] and [Phase_Active] deliver. *)
Definition is_deliver (e : SlotEffect C E L) : bool :=
  match e with Effect_Deliver _ _ _ _ => true | _ => false end.

Lemma decide_closed_no_deliver slot event d :
  EntitySlot_decide clone slot event = Some d →
  (2 ≤ phase_rank (phase slot))%nat →
  Forall (λ e, ¬ is_deliver e) (into_vec (effects d)).
Proof.
  intros H Hrank. destruct slot, event; simpl in Hrank; try lia; transition_cases H;
    autorewrite with bombay_batch; simpl; repeat constructor; naive_solver.
Qed.

Lemma decide_rank slot event d :
  EntitySlot_decide clone slot event = Some d → ¬ is_claim event →
  (phase_rank (phase slot) ≤ phase_rank (phase (state d)))%nat.
Proof.
  intros H Hclaim. pose proof (decide_evidence _ _ _ H) as Hev.
  destruct (evidence d) as [[]| |] eqn:He; simpl in Hev.
  1: { destruct slot, event; simpl in *; transition_cases H; done || naive_solver. }
  1-6: injection Hev as -> ->; simpl; lia.
  - by rewrite Hev.
  - by destruct Hev as [-> _].
Qed.

Lemma decide_stale slot event d a :
  EntitySlot_decide clone slot event = Some d →
  event_generation event = Some a → slot_activation_id slot ≠ Some a →
  state d = slot ∧ evidence d = Ignored ∧ Forall is_cleanup (into_vec (effects d)).
Proof.
  intros H Hgen Hid.
  assert (evidence d = Ignored) as He.
  { destruct slot, event; simpl in Hgen, Hid; try discriminate Hgen; injection Hgen as ->;
      transition_cases H; done || naive_solver. }
  pose proof (decide_evidence _ _ _ H) as Hev. rewrite He in Hev. naive_solver.
Qed.

Definition event_wf (event : SlotEvent C E L) : Prop :=
  match event with
  | Event_ClaimActivation _ _ _ limit => (Npos limit ≤ usize_max)%N
  | _ => True
  end.
End transition_lemmas.

(** ** Runs: an ordered stream of facts through one slot *)

Section runs.
  Context {C E L : Type} (clone : E → option E).
  Implicit Types (slot : EntitySlot C E L) (event : SlotEvent C E L).

(** [slot_run slot events slot' emitted cancelled]: folding [events] from
    [slot] reaches [slot'], emits [emitted] in order and drops [cancelled]. *)
Inductive slot_run slot :
    list (SlotEvent C E L) → EntitySlot C E L → list (SlotEffect C E L) → list C → Prop :=
  | slot_run_nil : slot_run slot [] slot [] []
  | slot_run_snoc events slot' emitted cancelled event d :
      slot_run slot events slot' emitted cancelled →
      EntitySlot_decide clone slot' event = Some d →
      slot_run slot (events ++ [event]) (state d) (emitted ++ into_vec (effects d))
        (cancelled ++ cancelled_commands slot' event).

Lemma decide_all_snoc slot events event :
  EntitySlot_decide_all clone slot (events ++ [event]) =
  (accumulated ← EntitySlot_decide_all clone slot events;
   next ← EntitySlot_decide clone (state accumulated) event;
   Some (Build_SlotDecision (state next)
           (batch_add (effects accumulated) (effects next)) (evidence next))).
Proof. unfold EntitySlot_decide_all. by rewrite fold_left_app. Qed.

Lemma decide_all_run slot events d :
  EntitySlot_decide_all clone slot events = Some d →
  ∃ cancelled, slot_run slot events (state d) (into_vec (effects d)) cancelled.
Proof.
  revert d. induction events as [|event events IH] using rev_ind; intros d H.
  - injection H as <-. eexists. constructor.
  - rewrite decide_all_snoc in H. run_option. edestruct IH as [cancelled Hrun]; [eassumption|].
    simpl. rewrite into_vec_add. eexists. by econstructor.
Qed.

Lemma run_canonical slot events d :
  EntitySlot_decide_all clone slot events = Some d → canonical (effects d).
Proof.
  revert d. induction events as [|event events IH] using rev_ind; intros d H.
  - by injection H as <-.
  - rewrite decide_all_snoc in H. run_option. simpl. unfold batch_add. rewrite for_each_fold.
    apply extend_canonical. by apply IH.
Qed.

Lemma run_commands slot events slot' emitted cancelled :
  slot_run slot events slot' emitted cancelled →
  slot_commands slot ++ (events ≫= event_commands) ≡ₚ
  slot_commands slot' ++ (emitted ≫= effect_commands) ++ cancelled.
Proof.
  induction 1 as [|events slot' emitted cancelled event d _ IH Hd]; [by rewrite !app_nil_r|].
  apply decide_commands in Hd. rewrite !bind_app. simpl. rewrite app_nil_r, app_assoc, IH.
  unfold batch_commands in Hd.
  trans ((slot_commands slot' ++ event_commands event) ++ (emitted ≫= effect_commands) ++ cancelled);
    [solve_Permutation|]. rewrite Hd. solve_Permutation.
Qed.

Lemma run_leases slot events slot' emitted cancelled :
  slot_run slot events slot' emitted cancelled →
  slot_leases slot ++ (events ≫= event_leases) ≡ₚ
  slot_leases slot' ++ (emitted ≫= effect_leases).
Proof.
  induction 1 as [|events slot' emitted cancelled event d _ IH Hd]; [done|].
  apply decide_leases in Hd. rewrite !bind_app. simpl. rewrite app_nil_r, app_assoc, IH.
  unfold batch_leases in Hd.
  trans ((slot_leases slot' ++ event_leases event) ++ (emitted ≫= effect_leases));
    [solve_Permutation|]. rewrite Hd. solve_Permutation.
Qed.

Lemma run_not_cancelled slot events slot' emitted cancelled :
  slot_run slot events slot' emitted cancelled →
  (∀ a d, Event_CancelWaiter a d ∉ events) → cancelled = [].
Proof.
  induction 1 as [|events slot' emitted cancelled event d _ IH Hd]; intros Hno; [done|].
  rewrite IH by set_solver. simpl.
  destruct slot', event; try done. exfalso. eapply Hno. apply elem_of_app. right. by left.
Qed.

Lemma run_closed slot events slot' emitted cancelled :
  slot_run slot events slot' emitted cancelled →
  (2 ≤ phase_rank (phase slot))%nat → Forall (λ ev, ¬ is_claim ev) events →
  (phase_rank (phase slot) ≤ phase_rank (phase slot'))%nat ∧
  Forall (λ e, ¬ is_deliver e) emitted.
Proof.
  induction 1 as [|events slot' emitted cancelled event d _ IH Hd]; intros Hrank Hclaim; [done|].
  apply Forall_app in Hclaim as [Hclaim [Hevent _]%Forall_cons].
  destruct (IH Hrank Hclaim) as [Hle Hemitted].
  pose proof (decide_rank _ _ _ _ Hd Hevent). split; [lia|].
  apply Forall_app. split; [done|]. eapply decide_closed_no_deliver; [done|lia].
Qed.
End runs.

(** ** Deliveries in flight

    The interpreter starts a delivery for each [Effect_Deliver] and later
    resolves it once.  [in_flight] pairs a slot with the incarnations of the
    deliveries that are not resolved yet. *)

Section in_flight.
  Context {C E L : Type} (clone : E → option E).
  Implicit Types (slot : EntitySlot C E L) (event : SlotEvent C E L).

Definition started_deliveries (emitted : list (SlotEffect C E L)) : list ActivationId :=
  emitted ≫= λ e, match e with Effect_Deliver a _ _ _ => [a] | _ => [] end.

(** A resolution answers a delivery in flight; an activation succeeds or is
    claimed under an identity that no delivery in flight carries. *)
Inductive in_flight : EntitySlot C E L → list ActivationId → Prop :=
  | in_flight_initial : in_flight Slot_Inactive []
  | in_flight_resolve slot pending before after a failure d :
      in_flight slot pending →
      pending = before ++ a :: after →
      EntitySlot_decide clone slot (Event_DeliveryResolved a failure) = Some d →
      in_flight (state d) (before ++ after ++ started_deliveries (into_vec (effects d)))
  | in_flight_event slot pending event d :
      in_flight slot pending →
      (∀ a failure, event ≠ Event_DeliveryResolved a failure) →
      (∀ a dispatch command limit,
        event = Event_ClaimActivation a dispatch command limit → a ∉ pending) →
      EntitySlot_decide clone slot event = Some d →
      in_flight (state d) (pending ++ started_deliveries (into_vec (effects d))).

Definition occurrences (a : ActivationId) (l : list ActivationId) : N :=
  len (filter (λ b, b = a) l).

Lemma occurrences_nil a : occurrences a [] = 0%N.
Proof. done. Qed.

Lemma occurrences_app a l k : occurrences a (l ++ k) = (occurrences a l + occurrences a k)%N.
Proof. unfold occurrences. by rewrite filter_app, len_app. Qed.

Lemma occurrences_cons a b l :
  occurrences a (b :: l) = ((if decide (b = a) then 1 else 0) + occurrences a l)%N.
Proof. unfold occurrences. rewrite filter_cons. case_decide; rewrite ?len_cons; lia. Qed.

Lemma occurrences_zero a l : occurrences a l = 0%N ↔ a ∉ l.
Proof.
  induction l as [|b l IH]; [split; [intros _; apply not_elem_of_nil|done]|].
  rewrite occurrences_cons, not_elem_of_cons, <- IH. case_decide; split; intros; destruct_and?;
    try congruence; try lia. split; [congruence|lia].
Qed.

Lemma started_delivers a endpoint (ws : list (ActivationWaiter C)) (ds : list (SlotEffect C E L)) :
  mapM (λ w, copy ← clone endpoint;
    Some (Effect_Deliver a (waiter_dispatch_id w) copy (waiter_command w))) ws = Some ds →
  occurrences a (started_deliveries ds) = len ws.
Proof.
  intros H%delivers_spec. induction H as [|w d ws ds (copy & _ & ->) _ IH]; [done|].
  unfold started_deliveries in *. csimpl. rewrite occurrences_cons, len_cons, IH.
  rewrite decide_True by done. lia.
Qed.

(** What a slot counts agrees with the deliveries of its own incarnation;
    while an activation is being prepared none is in flight. *)
Definition counts_in_flight slot (pending : list ActivationId) : Prop :=
  match slot with
  | Slot_Activating st => occurrences (activating_id st) pending = 0%N
  | Slot_Active st => occurrences (active_id st) pending = count_value (reservations st)
  | Slot_Draining st => occurrences (draining_id st) pending = progress_value (progress st)
  | _ => True
  end.

Lemma counts_event slot pending event d :
  EntitySlot_decide clone slot event = Some d →
  (∀ a failure, event ≠ Event_DeliveryResolved a failure) →
  (∀ a dispatch command limit,
    event = Event_ClaimActivation a dispatch command limit → a ∉ pending) →
  counts_in_flight slot pending →
  counts_in_flight (state d) (pending ++ started_deliveries (into_vec (effects d))).
Proof.
  intros H Hnot Hfresh Hcount.
  destruct slot, event; try (by exfalso; eapply Hnot); transition_cases H;
    autorewrite with bombay_batch; simpl; rewrite ?app_nil_r; try done; try lia.
  - apply occurrences_zero. naive_solver.
  - match goal with H : mapM _ _ = Some _ |- _ => apply started_delivers in H as Hds end.
    rewrite occurrences_app, Hds, Hcount, count_value_from_len. lia.
  - match goal with H : reserve _ = Some _ |- _ => apply reserve_Some in H as [Hc _] end.
    rewrite occurrences_app, Hcount, Hc, occurrences_cons, decide_True by done.
    rewrite occurrences_nil. lia.
  - by rewrite Hcount, H0.
Qed.

Lemma counts_resolved slot before a after failure d :
  EntitySlot_decide clone slot (Event_DeliveryResolved a failure) = Some d →
  counts_in_flight slot (before ++ a :: after) →
  counts_in_flight (state d) (before ++ after ++ started_deliveries (into_vec (effects d))).
Proof.
  intros H Hcount.
  assert (started_deliveries (into_vec (effects d)) = []) as ->.
  { clear Hcount. destruct slot; transition_cases H; autorewrite with bombay_batch; done. }
  rewrite app_nil_r.
  destruct slot as [|st|st|st|]; simpl in Hcount;
    rewrite ?occurrences_app, ?occurrences_cons in Hcount; transition_cases H;
    rewrite ?occurrences_app; try lia;
    try match goal with H : resolve ?c = _ |- _ =>
      pose proof (resolve_spec c) as Hs; rewrite H in Hs; simpl in *; lia end;
    try match goal with Hp : progress _ = _ |- _ => rewrite Hp in *; simpl in * end;
    try match goal with
      | Hn : nonzero _ = Some _ |- _ => apply nonzero_Some in Hn
      | Hn : nonzero _ = None |- _ => apply nonzero_None in Hn
      end; lia.
Qed.

(** Rule induction: the counts agree with the deliveries in every reachable
    world. *)
Lemma in_flight_counts slot pending :
  in_flight slot pending → counts_in_flight slot pending.
Proof.
  induction 1 as [|slot pending before after a failure d _ IH -> Hd
    |slot pending event d _ IH Hnot Hfresh Hd]; [done| |].
  - by eapply counts_resolved.
  - by eapply counts_event.
Qed.

(** A fence is requested exactly when the incarnation has no delivery left. *)
Lemma decide_fence slot event d a endpoint :
  EntitySlot_decide clone slot event = Some d →
  Effect_EnqueueFence a endpoint ∈ into_vec (effects d) →
  ∃ st, state d = Slot_Draining st ∧ draining_id st = a ∧
        progress st = Progress_FenceAcknowledgement.
Proof.
  intros H Hin. destruct slot, event; transition_cases H;
    autorewrite with bombay_batch in Hin; simpl in Hin;
    rewrite ?elem_of_app, ?elem_of_cons, ?elem_of_nil in Hin; try naive_solver.
  - match goal with H : mapM _ _ = Some _ |- _ => apply delivers_spec in H end.
    exfalso. assert (Forall (λ e, is_deliver e) x) as Hall.
    { eapply Forall2_Forall_r; [exact H0|]. apply Forall_forall. naive_solver. }
    rewrite Forall_forall in Hall. by apply (Hall _ Hin).
  - exfalso. destruct Hin as [Hin|]; [|naive_solver]. apply list_elem_of_fmap in Hin. naive_solver.
Qed.
End in_flight.

(** ** Well-formedness, panics and closing *)

Section operation_lemmas.
  Context {C E L : Type} (clone : E → option E).
  Implicit Types (slot : EntitySlot C E L) (event : SlotEvent C E L).

Lemma decide_wf slot event d :
  EntitySlot_decide clone slot event = Some d → event_wf event → slot_wf slot →
  slot_wf (state d).
Proof.
  intros H Hevent Hslot. destruct slot, event; transition_cases H; simpl in *; try done.
  - rewrite len_cons, len_nil. lia.
  - rewrite len_app, len_cons, len_nil. rewrite N.compare_lt_iff in *. lia.
  - rewrite N.ltb_lt in *. lia.
  - split; [|lia]. etrans; [|apply Hslot]. unfold len. pose proof (length_filter
      (λ w, waiter_dispatch_id w ≠ value) (waiters state0)). lia.
  - rewrite count_value_from_len. lia.
  - match goal with H : reserve _ = Some _ |- _ => by apply reserve_Some in H as [_ ?] end.
  - match goal with H : resolve ?c = _ |- _ => pose proof (resolve_spec c) as Hs;
      rewrite H in Hs; lia end.
  - match goal with H : resolve ?c = _ |- _ => pose proof (resolve_spec c) as Hs;
      rewrite H in Hs; lia end.
Qed.

Lemma run_wf slot events slot' emitted cancelled :
  slot_run clone slot events slot' emitted cancelled →
  Forall event_wf events → slot_wf slot → slot_wf slot'.
Proof.
  induction 1 as [|events slot' emitted cancelled event d _ IH Hd]; intros Hevents Hslot; [done|].
  apply Forall_app in Hevents as [Hevents [Hevent _]%Forall_cons].
  eapply decide_wf; [done..|]. by apply IH.
Qed.

Lemma decide_panics slot event :
  (∀ e, is_Some (clone e)) →
  EntitySlot_decide clone slot event = None ↔
  ∃ st dispatch command, slot = Slot_Active st ∧ event = Event_Dispatch dispatch command ∧
    (usize_max ≤ count_value (reservations st))%N.
Proof.
  intros Htotal.
  assert (∀ e, clone e ≠ None) as Hne by (intros e; destruct (Htotal e); congruence).
  split.
  - intros H. destruct slot as [|st|st|st|], event; unfold_handlers; rewrite ?predecessor_spec in H;
      repeat (case_match; simplify_eq/=); rewrite ?bind_None in H;
      repeat match goal with
        | H : _ ∨ _ |- _ => destruct H as [H|(? & ? & H)]
        | H : clone _ = None |- _ => by apply Hne in H
        | H : Some _ = None |- _ => discriminate H
        end; rewrite ?bind_None in H.
    + apply mapM_None in H. exfalso. apply Exists_exists in H as (w & _ & Hw).
      rewrite bind_None in Hw. destruct Hw as [Hw|(? & ? & [=])]. by apply Hne in Hw.
    + destruct H as [H|(? & ? & [=])]. apply reserve_None in H. do 3 eexists. split_and!; [done..|lia].
  - intros (st & dispatch & command & -> & -> & Hfull). simpl.
    destruct (clone _); [simpl|done]. apply bind_None. left. apply reserve_None. lia.
Qed.
End operation_lemmas.

(** ** Properties *)

Section properties.
  Context {C E L : Type} (clone : E → option E).
  Implicit Types (slot : EntitySlot C E L) (event : SlotEvent C E L).

(** Folding any stream of facts through a slot conserves every command:
    what the slot held and what the facts carried is what the slot still
    holds, what the effects carry and the cancelled waiters, each exactly
    once; nothing is dropped unless a cancellation is in the stream. *)
Lemma commands_conserved slot events d :
  EntitySlot_decide_all clone slot events = Some d →
  ∃ cancelled,
    slot_commands slot ++ (events ≫= event_commands) ≡ₚ
      slot_commands (state d) ++ batch_commands (effects d) ++ cancelled ∧
    ((∀ a dispatch, Event_CancelWaiter a dispatch ∉ events) → cancelled = []).
Proof.
  intros [cancelled Hrun]%decide_all_run. exists cancelled.
  split; [by eapply run_commands|by eapply run_not_cancelled].
Qed.

(** A lease is affine: along any stream of facts each lease received is
    either still owned by the slot or handed to exactly one [Effect_Retire]. *)
Lemma leases_conserved slot events d :
  EntitySlot_decide_all clone slot events = Some d →
  slot_leases slot ++ (events ≫= event_leases) ≡ₚ slot_leases (state d) ++ batch_leases (effects d).
Proof. intros [cancelled Hrun]%decide_all_run. by eapply run_leases. Qed.

(** In every reachable world the fence of an incarnation is requested
    only once none of its deliveries is in flight. *)
Lemma fence_after_deliveries slot pending event d a endpoint :
  in_flight clone slot pending →
  (∀ b failure, event ≠ Event_DeliveryResolved b failure) →
  (∀ b dispatch command limit,
    event = Event_ClaimActivation b dispatch command limit → b ∉ pending) →
  EntitySlot_decide clone slot event = Some d →
  Effect_EnqueueFence a endpoint ∈ into_vec (effects d) →
  a ∉ pending ++ started_deliveries (into_vec (effects d)).
Proof.
  intros Hworld Hnot Hfresh Hd Hin.
  pose proof (in_flight_event _ _ _ _ _ Hworld Hnot Hfresh Hd) as Hcount%in_flight_counts.
  destruct (decide_fence _ _ _ _ _ _ Hd Hin) as (st & Hst & <- & Hp).
  rewrite Hst in Hcount. simpl in Hcount. rewrite Hp in Hcount. by apply occurrences_zero.
Qed.

(** A slot that began draining never admits again: until a new claim, the
    phase only moves towards removal and no effect delivers a command. *)
Lemma draining_never_reopens slot events d :
  EntitySlot_decide_all clone slot events = Some d →
  phase slot = Phase_Draining ∨ phase slot = Phase_Retiring →
  Forall (λ ev, ¬ is_claim ev) events →
  (phase_rank (phase slot) ≤ phase_rank (phase (state d)))%nat ∧
  Forall (λ e, ¬ is_deliver e) (into_vec (effects d)).
Proof.
  intros [cancelled Hrun]%decide_all_run Hphase Hclaim.
  eapply run_closed; [done| |done]. destruct Hphase as [-> | ->]; simpl; lia.
Qed.

(** The evidence a transition reports is what it did: a traversed edge
    moves between the phases of that edge, a self-loop keeps the phase, and an
    ignored fact keeps the state and emits only refusals and stale retirements. *)
Lemma evidence_sound slot event d :
  EntitySlot_decide clone slot event = Some d →
  match evidence d with
  | Traversed edge => (phase slot, phase (state d)) = edge_phases edge ∧ phase slot ≠ phase (state d)
  | SelfLoop => phase (state d) = phase slot
  | Ignored => state d = slot ∧ Forall is_cleanup (into_vec (effects d))
  end.
Proof.
  intros Hev%decide_evidence. destruct (evidence d) as [[]| |]; try done;
    (split; [done|]); by injection Hev as -> ->.
Qed.

(** A fact about another incarnation than the slot's never changes the
    slot; at most it returns the command or retires the lease it carries. *)
Lemma stale_facts_ignored slot event d a :
  EntitySlot_decide clone slot event = Some d →
  event_generation event = Some a → slot_activation_id slot ≠ Some a →
  state d = slot ∧ evidence d = Ignored ∧ Forall is_cleanup (into_vec (effects d)) ∧
  event_commands event ≡ₚ batch_commands (effects d) ∧
  event_leases event ≡ₚ batch_leases (effects d).
Proof.
  intros Hd Hgen Hid. destruct (decide_stale _ _ _ _ _ Hd Hgen Hid) as (Hs & He & Hc).
  split_and!; [done..| |].
  - pose proof (decide_commands _ _ _ _ Hd) as Hp. rewrite Hs in Hp.
    assert (cancelled_commands slot event = []) as Hcc.
    { destruct slot, event; simpl in *; simplify_eq; try done. by case_decide; subst. }
    rewrite Hcc, app_nil_r in Hp. by eapply Permutation_app_inv_l.
  - pose proof (decide_leases _ _ _ _ Hd) as Hp. rewrite Hs in Hp.
    by eapply Permutation_app_inv_l.
Qed.

(** An activation never retains more waiters than the bound of its claim
    and no reservation count leaves [usize], along any stream of facts. *)
Lemma waiters_bounded events d :
  EntitySlot_decide_all clone Slot_Inactive events = Some d →
  Forall event_wf events → slot_wf (C := C) (E := E) (L := L) (state d).
Proof. intros [cancelled Hrun]%decide_all_run Hevents. by eapply run_wf. Qed.

(** A transition whose endpoint clones unwinds in one case only: a
    dispatch to an active slot that already counts [usize::MAX] reservations. *)
Lemma decide_panics_only_on_overflow slot event :
  (∀ e, is_Some (clone e)) →
  EntitySlot_decide clone slot event = None ↔
  ∃ st dispatch command, slot = Slot_Active st ∧ event = Event_Dispatch dispatch command ∧
    (usize_max ≤ count_value (reservations st))%N.
Proof. apply decide_panics. Qed.

(** folding a stream is compositional: splitting it anywhere gives the
    same state, the same evidence and the identical effect batch. *)
Lemma decide_all_app slot xs ys :
  EntitySlot_decide_all clone slot (xs ++ ys) =
  (first ← EntitySlot_decide_all clone slot xs;
   rest ← EntitySlot_decide_all clone (state first) ys;
   Some (Build_SlotDecision (state rest) (batch_add (effects first) (effects rest))
           (match ys with [] => evidence first | _ => evidence rest end))).
Proof.
  destruct (EntitySlot_decide_all clone slot xs) as [first|] eqn:Hxs.
  2: { induction ys as [|y ys IH] using rev_ind; [by rewrite app_nil_r|].
       by rewrite app_assoc, decide_all_snoc, IH. }
  apply run_canonical in Hxs as Hcanonical. simpl.
  induction ys as [|y ys IH] using rev_ind; [by rewrite app_nil_r; destruct first|].
  rewrite app_assoc, !decide_all_snoc, IH.
  destruct (EntitySlot_decide_all clone (state first) ys) as [rest|]; [simpl|done].
  destruct (EntitySlot_decide clone (state rest) y) as [next|]; [simpl|done].
  do 2 f_equal; [|by destruct ys]. by apply batch_add_assoc.
Qed.

(** Closing a family is total and conserving: it ends in
    [Phase_Inactive] or [Phase_Retiring], refuses every retained waiter with
    [Refusal_Shutdown], moves out the one lease the slot owned, and grants a
    graceful fence exactly when the slot was active with nothing reserved. *)
Lemma close_family_conserves slot :
  let '(slot', batch, retirement) := close_family slot in
  (phase slot' = Phase_Inactive ∨ phase slot' = Phase_Retiring) ∧
  slot_commands slot = batch_commands batch ∧ batch_leases batch = [] ∧
  slot_leases slot = match retirement with Some (_, _, lease, _) => [lease] | None => [] end ∧
  match retirement with
  | Some (a, _, _, Ok ()) =>
      phase slot = Phase_Active ∧ slot_reservations slot = 0%N ∧ slot_activation_id slot = Some a
  | Some (a, _, _, Err failure) =>
      outstanding_reservations failure = slot_reservations slot ∧
      slot_activation_id slot = Some a
  | None => True
  end.
Proof.
  destruct slot as [|st|[a e l []]|[a e l []]|a]; simpl; split_and!; auto;
    unfold batch_commands, batch_leases; autorewrite with bombay_batch;
    rewrite ?bind_app, ?reject_commands, ?reject_leases, ?app_nil_r; done.
Qed.
End properties.

(** ** Witnesses: one incarnation from its claim to its removal *)

Definition copy_clone (e : N) : option N := Some e.

Definition life : list (SlotEvent N N N) :=
  let a := ActivationId_new 1 in
  [Event_ClaimActivation a (DispatchId_new 1) 10%N 2;
   Event_Dispatch (DispatchId_new 2) 20%N;
   Event_Dispatch (DispatchId_new 3) 30%N;
   Event_ActivationSucceeded a 7%N 9%N;
   Event_BeginDrain a;
   Event_DeliveryResolved a None;
   Event_DeliveryResolved a (Some (DispatchId_new 2, 20%N));
   Event_FenceAcknowledged a].

Definition life_end : SlotDecision N N N :=
  default (decision Slot_Inactive Batch_Empty)
    (EntitySlot_decide_all copy_clone Slot_Inactive life).

Example life_effects :
  into_vec (effects life_end) =
  let a := ActivationId_new 1 in
  [Effect_StartActivation a;
   Effect_Reject (DispatchId_new 3) 30%N Refusal_Busy;
   Effect_Deliver a (DispatchId_new 1) 7%N 10%N;
   Effect_Deliver a (DispatchId_new 2) 7%N 20%N;
   Effect_Reject (DispatchId_new 2) 20%N Refusal_Unavailable;
   Effect_EnqueueFence a 7%N;
   Effect_Retire a 9%N RetirementMode_Graceful].
Proof. reflexivity. Qed.

Definition idle_active : EntitySlot N N N :=
  Slot_Active (Build_ActiveSlot (ActivationId_new 1) 7%N 9%N Count_Drained).

Definition drained : SlotDecision N N N :=
  default (decision Slot_Inactive Batch_Empty)
    (EntitySlot_decide copy_clone idle_active (Event_BeginDrain (ActivationId_new 1))).

Definition claimed : SlotDecision N N N :=
  decide_inactive (Event_ClaimActivation (ActivationId_new 1) (DispatchId_new 1) 10%N 2).

Definition activated : SlotDecision N N N :=
  default claimed (EntitySlot_decide copy_clone (state claimed)
    (Event_ActivationSucceeded (ActivationId_new 1) 7%N 9%N)).

