(* ===== verification/LifecycleOracle.v ===== *)
(** * The independent slot oracle and its refinement

    [crates/bombay/src/entity/lifecycle/transition.rs] checks the transition
    against an independently written oracle, [expected_step], on every trace of
    at most four inputs out of nineteen.  This file models the oracle and its
    observations, and proves that the transition refines it on traces of any
    length. *)

From S2P Require Import Prelude Lifecycle.

Definition activation (value : positive) : ActivationId := ActivationId_new value.
Definition dispatch (value : positive) : DispatchId := DispatchId_new value.

Variant Input :=
  | ClaimCurrent
  | Dispatch
  | CancelCurrent
  | CancelStale
  | ActivationCurrent
  | ActivationStale
  | ActivationFailure
  | ActivationFailureStale
  | DeliveryCurrent
  | DeliveryFailedCurrent
  | DeliveryFailedStale
  | BeginDrainCurrent
  | BeginDrainStale
  | FenceCurrent
  | FenceStale
  | ForceCurrent
  | ForceStale
  | TerminatedCurrent
  | TerminatedStale.

Definition forced_fence : DrainFailure :=
  {| stage := DrainStage_FenceAcknowledgement; outstanding_reservations := 0 |}.

Definition event (input : Input) : SlotEvent N N N :=
  match input with
  | ClaimCurrent => Event_ClaimActivation (activation 1) (dispatch 1) 1%N 2
  | Dispatch => Event_Dispatch (dispatch 2) 2%N
  | CancelCurrent => Event_CancelWaiter (activation 1) (dispatch 1)
  | CancelStale => Event_CancelWaiter (activation 2) (dispatch 1)
  | ActivationCurrent => Event_ActivationSucceeded (activation 1) 1%N 1%N
  | ActivationStale => Event_ActivationSucceeded (activation 2) 2%N 2%N
  | ActivationFailure => Event_ActivationFailed (activation 1)
  | ActivationFailureStale => Event_ActivationFailed (activation 2)
  | DeliveryCurrent => Event_DeliveryResolved (activation 1) None
  | DeliveryFailedCurrent => Event_DeliveryResolved (activation 1) (Some (dispatch 3, 3%N))
  | DeliveryFailedStale => Event_DeliveryResolved (activation 2) (Some (dispatch 3, 3%N))
  | BeginDrainCurrent => Event_BeginDrain (activation 1)
  | BeginDrainStale => Event_BeginDrain (activation 2)
  | FenceCurrent => Event_FenceAcknowledged (activation 1)
  | FenceStale => Event_FenceAcknowledged (activation 2)
  | ForceCurrent => Event_ForceDrain (activation 1) forced_fence
  | ForceStale => Event_ForceDrain (activation 2) forced_fence
  | TerminatedCurrent => Event_Terminated (activation 1)
  | TerminatedStale => Event_Terminated (activation 2)
  end.

Variant ExpectedSlot :=
  | ExpectedSlot_Inactive
  | ExpectedSlot_Activating (waiters : list (DispatchId * N))
  | ExpectedSlot_Active (reservations : N)
  | ExpectedSlot_Draining (pending : option positive)
  | ExpectedSlot_Retiring.

Variant ExpectedAuthority :=
  | ExpectedAuthority_Inactive
  | ExpectedAuthority_Activation (id : ActivationId) (limit : positive)
  | ExpectedAuthority_ActorGeneration (id : ActivationId) (endpoint lease : N)
  | ExpectedAuthority_Retirement (id : ActivationId).

Variant ExpectedEffect :=
  | Expected_Start (id : ActivationId)
  | Expected_Deliver (id : ActivationId) (dispatch_id : DispatchId) (endpoint command : N)
  | Expected_Reject (dispatch_id : DispatchId) (command : N) (reason : Refusal)
  | Expected_Fence (id : ActivationId) (endpoint : N)
  | Expected_Retire (id : ActivationId) (lease : N) (retirement : RetirementMode)
  | Expected_Remove (id : ActivationId).

#[export] Instance ExpectedSlot_eq_dec : EqDecision ExpectedSlot.
Proof. solve_decision. Defined.
#[export] Instance ExpectedAuthority_eq_dec : EqDecision ExpectedAuthority.
Proof. solve_decision. Defined.
#[export] Instance ExpectedEffect_eq_dec : EqDecision ExpectedEffect.
Proof. solve_decision. Defined.

Definition observed_slot (slot : EntitySlot N N N) : ExpectedSlot :=
  match slot with
  | Slot_Inactive => ExpectedSlot_Inactive
  | Slot_Activating st =>
      ExpectedSlot_Activating
        (map (λ waiter, (waiter_dispatch_id waiter, waiter_command waiter)) (waiters st))
  | Slot_Active st =>
      ExpectedSlot_Active
        match reservations st with Count_Drained => 0 | Count_Pending pending => Npos pending end
  | Slot_Draining st =>
      ExpectedSlot_Draining
        match progress st with
        | Progress_Reservations pending => Some pending
        | Progress_FenceAcknowledgement => None
        end
  | Slot_Retiring _ => ExpectedSlot_Retiring
  end.

Definition observed_authority (slot : EntitySlot N N N) : ExpectedAuthority :=
  match slot with
  | Slot_Inactive => ExpectedAuthority_Inactive
  | Slot_Activating st => ExpectedAuthority_Activation (activating_id st) (waiter_limit st)
  | Slot_Active st =>
      ExpectedAuthority_ActorGeneration (active_id st) (active_endpoint st) (active_lease st)
  | Slot_Draining st =>
      ExpectedAuthority_ActorGeneration (draining_id st) (draining_endpoint st) (draining_lease st)
  | Slot_Retiring activation_id => ExpectedAuthority_Retirement activation_id
  end.

Definition expected_authority (slot : ExpectedSlot) : ExpectedAuthority :=
  match slot with
  | ExpectedSlot_Inactive => ExpectedAuthority_Inactive
  | ExpectedSlot_Activating _ => ExpectedAuthority_Activation (activation 1) 2
  | ExpectedSlot_Active _ | ExpectedSlot_Draining _ =>
      ExpectedAuthority_ActorGeneration (activation 1) 1 1
  | ExpectedSlot_Retiring => ExpectedAuthority_Retirement (activation 1)
  end.

Definition observed_effect (effect : SlotEffect N N N) : ExpectedEffect :=
  match effect with
  | Effect_StartActivation id => Expected_Start id
  | Effect_Deliver id dispatch_id endpoint command =>
      Expected_Deliver id dispatch_id endpoint command
  | Effect_Reject dispatch_id command reason => Expected_Reject dispatch_id command reason
  | Effect_EnqueueFence id endpoint => Expected_Fence id endpoint
  | Effect_Retire id lease retirement => Expected_Retire id lease retirement
  | Effect_Remove id => Expected_Remove id
  end.

Definition observed_effects (effects : SlotEffectBatch N N N) : list ExpectedEffect :=
  map observed_effect (as_slice effects).

Definition forced_retirement : RetirementMode :=
  RetirementMode_Forced {| stage := DrainStage_Retirement; outstanding_reservations := 0 |}.

Definition cleanup (input : Input) : list ExpectedEffect :=
  match input with
  | ActivationCurrent => [Expected_Retire (activation 1) 1%N forced_retirement]
  | ActivationStale => [Expected_Retire (activation 2) 2%N forced_retirement]
  | DeliveryFailedCurrent | DeliveryFailedStale =>
      [Expected_Reject (dispatch 3) 3%N Refusal_Unavailable]
  | _ => []
  end.

Definition expected_inactive (input : Input) :
    ExpectedSlot * list ExpectedEffect * TransitionEvidence :=
  match input with
  | ClaimCurrent =>
      (ExpectedSlot_Activating [(dispatch 1, 1%N)], [Expected_Start (activation 1)],
       Traversed Edge_ClaimActivation)
  | Dispatch =>
      (ExpectedSlot_Inactive, [Expected_Reject (dispatch 2) 2%N Refusal_Unavailable], SelfLoop)
  | _ => (ExpectedSlot_Inactive, cleanup input, Ignored)
  end.

Definition expected_activating (ws : list (DispatchId * N)) (input : Input) :
    ExpectedSlot * list ExpectedEffect * TransitionEvidence :=
  match input with
  | Dispatch =>
      if (len ws <? 2)%N then (ExpectedSlot_Activating (ws ++ [(dispatch 2, 2%N)]), [], SelfLoop)
      else (ExpectedSlot_Activating ws, [Expected_Reject (dispatch 2) 2%N Refusal_Busy], SelfLoop)
  | ClaimCurrent =>
      (ExpectedSlot_Activating ws, [Expected_Reject (dispatch 1) 1%N Refusal_Busy], SelfLoop)
  | CancelCurrent =>
      let prior := len ws in
      let retained := filter (λ w, w.1 ≠ dispatch 1) ws in
      (ExpectedSlot_Activating retained, [],
       if (len retained <? prior)%N then SelfLoop else Ignored)
  | ActivationCurrent =>
      (ExpectedSlot_Active (len ws),
       map (λ w, Expected_Deliver (activation 1) w.1 1%N w.2) ws,
       Traversed Edge_ActivationSucceeded)
  | ActivationFailure =>
      (ExpectedSlot_Inactive,
       map (λ w, Expected_Reject w.1 w.2 Refusal_Unavailable) ws ++ [Expected_Remove (activation 1)],
       Traversed Edge_ActivationFailed)
  | _ => (ExpectedSlot_Activating ws, cleanup input, Ignored)
  end.

Definition expected_active (count : N) (input : Input) :
    ExpectedSlot * list ExpectedEffect * TransitionEvidence :=
  match input with
  | Dispatch =>
      (ExpectedSlot_Active (count + 1)%N,
       [Expected_Deliver (activation 1) (dispatch 2) 1%N 2%N], SelfLoop)
  | ClaimCurrent =>
      (ExpectedSlot_Active count, [Expected_Reject (dispatch 1) 1%N Refusal_Busy], SelfLoop)
  | DeliveryCurrent | DeliveryFailedCurrent =>
      match checked_sub count 1 with
      | Some remaining => (ExpectedSlot_Active remaining, cleanup input, SelfLoop)
      | None => (ExpectedSlot_Active count, cleanup input, Ignored)
      end
  | BeginDrainCurrent =>
      match nonzero count with
      | Some pending => (ExpectedSlot_Draining (Some pending), [], Traversed Edge_BeginDrain)
      | None =>
          (ExpectedSlot_Draining None, [Expected_Fence (activation 1) 1%N],
           Traversed Edge_BeginDrain)
      end
  | _ => (ExpectedSlot_Active count, cleanup input, Ignored)
  end.

Definition expected_draining (pending : option positive) (input : Input) :
    ExpectedSlot * list ExpectedEffect * TransitionEvidence :=
  match input with
  | Dispatch =>
      (ExpectedSlot_Draining pending, [Expected_Reject (dispatch 2) 2%N Refusal_Draining], SelfLoop)
  | ClaimCurrent =>
      (ExpectedSlot_Draining pending, [Expected_Reject (dispatch 1) 1%N Refusal_Draining], SelfLoop)
  | DeliveryCurrent | DeliveryFailedCurrent =>
      match pending with
      | Some count =>
          if (1 <? Npos count)%N
          then (ExpectedSlot_Draining (nonzero (Npos count - 1)), cleanup input, SelfLoop)
          else (ExpectedSlot_Draining None,
                cleanup input ++ [Expected_Fence (activation 1) 1%N], SelfLoop)
      | None => (ExpectedSlot_Draining None, cleanup input, Ignored)
      end
  | FenceCurrent =>
      match pending with
      | Some count => (ExpectedSlot_Draining (Some count), [], Ignored)
      | None =>
          (ExpectedSlot_Retiring, [Expected_Retire (activation 1) 1%N RetirementMode_Graceful],
           Traversed Edge_FenceAcknowledged)
      end
  | ForceCurrent =>
      (ExpectedSlot_Retiring,
       [Expected_Retire (activation 1) 1%N (RetirementMode_Forced forced_fence)],
       Traversed Edge_ForceDrain)
  | _ => (ExpectedSlot_Draining pending, cleanup input, Ignored)
  end.

Definition expected_retiring (input : Input) :
    ExpectedSlot * list ExpectedEffect * TransitionEvidence :=
  match input with
  | Dispatch =>
      (ExpectedSlot_Retiring, [Expected_Reject (dispatch 2) 2%N Refusal_Draining], SelfLoop)
  | ClaimCurrent =>
      (ExpectedSlot_Retiring, [Expected_Reject (dispatch 1) 1%N Refusal_Draining], SelfLoop)
  | TerminatedCurrent =>
      (ExpectedSlot_Inactive, [Expected_Remove (activation 1)], Traversed Edge_Terminated)
  | _ => (ExpectedSlot_Retiring, cleanup input, Ignored)
  end.

Definition expected_step (slot : ExpectedSlot) (input : Input) :
    ExpectedSlot * list ExpectedEffect * TransitionEvidence :=
  match slot with
  | ExpectedSlot_Inactive => expected_inactive input
  | ExpectedSlot_Activating ws => expected_activating ws input
  | ExpectedSlot_Active count => expected_active count input
  | ExpectedSlot_Draining pending => expected_draining pending input
  | ExpectedSlot_Retiring => expected_retiring input
  end.

(** [u8::clone]. *)
Definition clone_u8 (endpoint : N) : option N := Some endpoint.

(** [assert!]: a failed assertion unwinds like a panic of the transition. *)
Definition assert (condition : bool) : option () := if condition then Some () else None.

(** [matches!(effect, Reject | Retire)]. *)
Definition cleanup_effect (effect : SlotEffect N N N) : bool :=
  match effect with Effect_Reject _ _ _ | Effect_Retire _ _ _ => true | _ => false end.

Definition check_evidence (before after : LifecyclePhase) (output : SlotDecision N N N) :
    option () :=
  match evidence output with
  | Traversed _ => assert (bool_decide (before ≠ after))
  | SelfLoop => assert (bool_decide (before = after))
  | Ignored =>
      _ ← assert (bool_decide (before = after));
      assert (forallb cleanup_effect (as_slice (effects output)))
  end.

(** One iteration of the loop of [check_trace]. *)
Definition check_input (slot : EntitySlot N N N) (expected : ExpectedSlot) (input : Input) :
    option (EntitySlot N N N * ExpectedSlot) :=
  let before := phase slot in
  output ← EntitySlot_decide clone_u8 slot (event input);
  let after := phase (state output) in
  let '(next, emitted, ev) := expected_step expected input in
  _ ← assert (bool_decide (observed_slot (state output) = next));
  _ ← assert (bool_decide (observed_authority (state output) = expected_authority next));
  _ ← assert (bool_decide (observed_effects (effects output) = emitted));
  _ ← assert (bool_decide (evidence output = ev));
  _ ← check_evidence before after output;
  Some (state output, next).

Fixpoint check_loop (slot : EntitySlot N N N) (expected : ExpectedSlot) (trace : list Input) :
    option () :=
  match trace with
  | [] => Some ()
  | input :: rest =>
      '(slot, expected) ← check_input slot expected input;
      check_loop slot expected rest
  end.

(** [None] is a failed assertion or a panic of the transition. *)
Definition check_trace (trace : list Input) : option () :=
  check_loop Slot_Inactive ExpectedSlot_Inactive trace.

(** ** Refinement *)

(** The oracle keeps less than the slot, but on the traces of [check_trace]
    its state determines the slot: the slot it stands for. *)
Definition realize (expected : ExpectedSlot) : EntitySlot N N N :=
  match expected with
  | ExpectedSlot_Inactive => Slot_Inactive
  | ExpectedSlot_Activating ws =>
      Slot_Activating (Build_ActivatingSlot (activation 1)
        (map (λ w, Build_ActivationWaiter w.1 w.2) ws) 2)
  | ExpectedSlot_Active count =>
      Slot_Active (Build_ActiveSlot (activation 1) 1%N 1%N (from_len count))
  | ExpectedSlot_Draining (Some pending) =>
      Slot_Draining (Build_DrainingSlot (activation 1) 1%N 1%N (Progress_Reservations pending))
  | ExpectedSlot_Draining None =>
      Slot_Draining (Build_DrainingSlot (activation 1) 1%N 1%N Progress_FenceAcknowledgement)
  | ExpectedSlot_Retiring => Slot_Retiring (activation 1)
  end.

(** What bounds the reservations: an input adds at most one. *)
Definition weight (expected : ExpectedSlot) : N :=
  match expected with
  | ExpectedSlot_Activating ws => len ws
  | ExpectedSlot_Active count => count
  | _ => 0
  end.

Definition step_state (expected : ExpectedSlot) (input : Input) : ExpectedSlot :=
  (expected_step expected input).1.1.
Definition step_effects (expected : ExpectedSlot) (input : Input) : list ExpectedEffect :=
  (expected_step expected input).1.2.
Definition step_evidence (expected : ExpectedSlot) (input : Input) : TransitionEvidence :=
  (expected_step expected input).2.

(** The transition simulates one step of the oracle. *)
Definition simulates (expected : ExpectedSlot) (input : Input) : Prop :=
  ∃ output, EntitySlot_decide clone_u8 (realize expected) (event input) = Some output ∧
    state output = realize (step_state expected input) ∧
    observed_effects (effects output) = step_effects expected input ∧
    evidence output = step_evidence expected input.

Lemma observed_realize expected : observed_slot (realize expected) = expected.
Proof.
  destruct expected as [|ws|count|[]|]; simpl; try done; f_equal.
  - rewrite map_map. simpl. induction ws as [|[]]; simpl; congruence.
  - by destruct count.
Qed.

Lemma authority_realize expected : observed_authority (realize expected) = expected_authority expected.
Proof. by destruct expected as [| | |[]|]. Qed.

(** Filtering commutes with the reading of a waiter as a pair. *)
Lemma filter_waiters ws d :
  filter (λ w, waiter_dispatch_id w ≠ d)
    (map (λ w : DispatchId * N, Build_ActivationWaiter w.1 w.2) ws) =
  map (λ w, Build_ActivationWaiter w.1 w.2) (filter (λ w, w.1 ≠ d) ws).
Proof.
  induction ws as [|w ws IH]; [done|]. simpl. rewrite !filter_cons. simpl.
  by case_decide; rewrite IH.
Qed.

Lemma delivers_waiters ws :
  mapM (λ w, copy ← clone_u8 1%N;
      Some (Effect_Deliver (L := N) (activation 1) (waiter_dispatch_id w) copy (waiter_command w)))
    (map (λ w : DispatchId * N, Build_ActivationWaiter w.1 w.2) ws) =
  Some (map (λ w, Effect_Deliver (activation 1) w.1 1%N w.2) ws).
Proof. induction ws as [|w ws IH]; [done|]. simpl in *. by rewrite IH. Qed.

Lemma simulates_activating ws input : simulates (ExpectedSlot_Activating ws) input.
Proof.
  unfold simulates, step_state, step_effects, step_evidence, observed_effects.
  destruct input; try by (eexists; split; [reflexivity|]).
  - simpl. rewrite len_map.
    destruct (N.compare_spec (len ws) 2); destruct (N.ltb_spec (len ws) 2); try lia;
      (eexists; split; [reflexivity|]); [done| |done].
    split; [|done]. simpl. by rewrite map_app.
  - simpl. rewrite filter_waiters, !len_map.
    by destruct (len (filter _ ws) <? len ws)%N; (eexists; split; [reflexivity|]).
  - simpl. unfold finish_activation. simpl. rewrite delivers_waiters. simpl.
    eexists; split; [reflexivity|]. simpl. rewrite len_map. split; [done|].
    rewrite as_slice_into_vec, into_vec_from_iter, map_map. done.
  - simpl. unfold fail_activation. simpl. eexists; split; [reflexivity|]. simpl. split; [done|].
    rewrite as_slice_into_vec. autorewrite with bombay_batch.
    by rewrite map_app, !map_map.
Qed.

Lemma decrement p : checked_sub (Npos p) 1 = Some (Npos p - 1)%N.
Proof. apply checked_sub_Some. lia. Qed.

Lemma from_len_predecessor (p : positive) :
  match resolve (Count_Pending p) with
  | Resolution_Unexpected => False
  | Resolution_Pending c => c = from_len (Npos p - 1)
  | Resolution_Drained => (Npos p - 1 = 0)%N
  end.
Proof.
  unfold resolve. rewrite predecessor_spec.
  destruct (nonzero (Npos p - 1)) eqn:Hnz; [|by apply nonzero_None].
  apply nonzero_Some in Hnz. rewrite Hnz. done.
Qed.

Ltac simulated := eexists; split; [reflexivity|]; done.

Lemma simulates_active count input :
  (count < usize_max)%N → simulates (ExpectedSlot_Active count) input.
Proof.
  intros Hcount. unfold simulates, step_state, step_effects, step_evidence, observed_effects.
  destruct input; try simulated.
  - simpl. destruct (reserve (from_len count)) as [c|] eqn:Hr.
    + eexists; split; [reflexivity|]. simpl. split; [|done].
      apply reserve_Some in Hr as [Hc _]. rewrite count_value_from_len in Hc.
      rewrite <- Hc. by destruct c.
    + apply reserve_None in Hr. rewrite count_value_from_len in Hr. lia.
  - destruct count as [|p]; [simulated|]. simpl. rewrite decrement.
    unfold resolve_active_delivery. cbn [reservations from_len].
    pose proof (from_len_predecessor p) as Hp. revert Hp. generalize (Npos p - 1)%N. intros rest Hp.
    destruct (resolve _) as [|c|]; [done|subst c|rewrite Hp]; simulated.
  - destruct count as [|p]; [simulated|]. simpl. rewrite decrement.
    unfold resolve_active_delivery. cbn [reservations from_len].
    pose proof (from_len_predecessor p) as Hp. revert Hp. generalize (Npos p - 1)%N. intros rest Hp.
    destruct (resolve _) as [|c|]; [done|subst c|rewrite Hp]; simulated.
  - destruct count as [|p]; simulated.
Qed.

Lemma simulates_draining_delivery p input :
  input = DeliveryCurrent ∨ input = DeliveryFailedCurrent →
  simulates (ExpectedSlot_Draining (Some p)) input.
Proof.
  unfold simulates, step_state, step_effects, step_evidence, observed_effects.
  intros [-> | ->].
  all: cbn -[N.sub N.ltb]; unfold resolve_draining_delivery; cbn -[N.sub N.ltb checked_sub nonzero].
  all: rewrite predecessor_spec; destruct (N.ltb_spec 1 (Npos p)).
  all: destruct (nonzero (Npos p - 1)) eqn:Hnz;
    first [apply nonzero_Some in Hnz; lia|apply nonzero_None in Hnz; lia|simulated].
Qed.

Lemma simulates_draining pending input : simulates (ExpectedSlot_Draining pending) input.
Proof.
  destruct input, pending as [p|];
    try (unfold simulates, step_state, step_effects, step_evidence, observed_effects; simulated).
  - apply simulates_draining_delivery; auto.
  - apply simulates_draining_delivery; auto.
Qed.

Lemma step_simulates expected input :
  (weight expected < usize_max)%N → simulates expected input.
Proof.
  intros Hweight. destruct expected as [|ws|count|pending|].
  - destruct input; simulated.
  - apply simulates_activating.
  - by apply simulates_active.
  - apply simulates_draining.
  - destruct input; simulated.
Qed.

Lemma len_filter {A} (P : A → Prop) `{!∀ x, Decision (P x)} l : (len (filter P l) ≤ len l)%N.
Proof. unfold len. pose proof (length_filter P l). lia. Qed.

Lemma step_weight expected input :
  (weight (step_state expected input) ≤ weight expected + 1)%N.
Proof.
  unfold step_state.
  destruct expected as [|ws|count|pending|], input; simpl; try lia;
    repeat case_match; simpl in *; rewrite ?len_app, ?len_cons, ?len_nil; try lia.
  - pose proof (len_filter (λ w : DispatchId * N, w.1 ≠ dispatch 1) ws). lia.
  - apply checked_sub_Some in H. lia.
  - apply checked_sub_Some in H. lia.
Qed.

(** The further assertions on the evidence hold of any transition. *)
Lemma check_evidence_ok slot input output :
  EntitySlot_decide clone_u8 slot (event input) = Some output →
  check_evidence (phase slot) (phase (state output)) output = Some ().
Proof.
  intros Hev%decide_evidence. unfold check_evidence.
  destruct (evidence output) as [edge| |].
  - rewrite bool_decide_true; [done|]. destruct edge; by injection Hev as -> ->.
  - by rewrite bool_decide_true.
  - destruct Hev as [-> Hc]. rewrite bool_decide_true; [|done]. simpl.
    rewrite as_slice_into_vec. destruct (forallb _ _) eqn:Hf; [done|].
    apply not_true_iff_false in Hf. destruct Hf. apply forallb_forall. intros e He.
    rewrite Forall_forall in Hc. apply list_elem_of_In, Hc in He. by destruct e.
Qed.

Lemma check_input_ok expected input :
  (weight expected < usize_max)%N →
  check_input (realize expected) expected input =
    Some (realize (step_state expected input), step_state expected input).
Proof.
  intros (output & Hd & Hs & Hf & He)%(step_simulates _ input). unfold check_input. rewrite Hd.
  simpl. pose proof (check_evidence_ok _ _ _ Hd) as Hev.
  unfold step_state, step_effects, step_evidence in *.
  destruct (expected_step expected input) as [[next emitted] ev]. simpl in *.
  by rewrite Hs in *; rewrite observed_realize, authority_realize, !bool_decide_true, Hev.
Qed.

Lemma check_loop_ok trace expected :
  (weight expected + len trace ≤ usize_max)%N →
  check_loop (realize expected) expected trace = Some ().
Proof.
  revert expected. induction trace as [|input trace IH]; intros expected Hlen; [done|].
  rewrite len_cons in Hlen. simpl. rewrite check_input_ok by lia. simpl. apply IH.
  pose proof (step_weight expected input). lia.
Qed.

(** ** Properties *)

(** C35: the transition refines the independent oracle: on every trace that
    fits in [usize] inputs, whatever its order, [check_trace] runs to its end,
    so no transition panics and the state, the owned resources, the effects
    and the evidence agree with the oracle after every input. *)
Theorem transition_refines_oracle trace :
  (len trace ≤ usize_max)%N → check_trace trace = Some ().
Proof. intros Hlen. by apply (check_loop_ok trace ExpectedSlot_Inactive). Qed.

Lemma transition_refines_oracle_witness :
  check_trace [ClaimCurrent; Dispatch; ActivationCurrent; DeliveryFailedCurrent;
    BeginDrainCurrent; DeliveryCurrent; FenceCurrent; TerminatedCurrent] = Some ().
Proof. apply transition_refines_oracle. vm_compute. discriminate. Defined.
