(* ===== verification/DirectorySlot.v ===== *)
(** * One slot of the local directory

    [crates/bombay/src/entity/directory.rs], the part about one entity: the
    mutex-protected execution of a lifecycle machine, its queue of effects and
    the guard that makes one caller at a time interpret them.

    A slot operation runs under the slot mutex, so it is a function from
    [SlotExecution] to [SlotExecution] and a result; an [option] result that is
    [None] is a panic, and the execution returned with it is the one the
    unwinding leaves behind (the lock ignores poisoning).  Threads interleave
    between operations: [slot_step] is one operation of any thread. *)

From S2P Require Import Prelude Lifecycle.

(** The two ends of one retirement observation ([pair] of [observe]) are named
    by the cell they share. *)
Record RetirementCell := RetirementCell_new { cell_name : positive }.

#[export] Instance RetirementCell_eq_dec : EqDecision RetirementCell.
Proof. solve_decision. Defined.

Variant EntityRetirementError := NotActive | ShuttingDown.

Variant SlotDispatchPhase := Idle | Dispatching.

#[export] Instance SlotDispatchPhase_eq_dec : EqDecision SlotDispatchPhase.
Proof. solve_decision. Defined.

Section data.
Context {C E L : Type}.

Variant SlotState :=
  | SlotState_Ready (machine : EntitySlot C E L)
  | SlotState_Poisoned.

Record SlotExecution := {
  slot_state : SlotState;
  pending : list (SlotEffect C E L);
  dispatch : SlotDispatchPhase;
  retirement : option RetirementCell
}.
End data.
Arguments SlotState : clear implicits.
Arguments SlotExecution : clear implicits.

Record InstalledSlotEvidence := {
  installed_evidence : TransitionEvidence;
  installed_phase : LifecyclePhase;
  installed_activation_id : option ActivationId
}.

Section operations.
Context {C E L : Type} (clone : E → option E).
Implicit Types (x : SlotExecution C E L) (event : SlotEvent C E L).

Definition set_slot_state (s : SlotState C E L) x : SlotExecution C E L :=
  {| slot_state := s; pending := pending x; dispatch := dispatch x; retirement := retirement x |}.
Definition set_pending (q : list (SlotEffect C E L)) x : SlotExecution C E L :=
  {| slot_state := slot_state x; pending := q; dispatch := dispatch x; retirement := retirement x |}.
Definition set_dispatch (p : SlotDispatchPhase) x : SlotExecution C E L :=
  {| slot_state := slot_state x; pending := pending x; dispatch := p; retirement := retirement x |}.
Definition set_retirement (r : option RetirementCell) x : SlotExecution C E L :=
  {| slot_state := slot_state x; pending := pending x; dispatch := dispatch x; retirement := r |}.

(** [self.pending.push_back(effect)]. *)
Definition push_back x (effect : SlotEffect C E L) : SlotExecution C E L :=
  set_pending (pending x ++ [effect]) x.

Definition installed_of (d : SlotDecision C E L) : InstalledSlotEvidence :=
  {| installed_evidence := evidence d;
     installed_phase := phase (state d);
     installed_activation_id := slot_activation_id (state d) |}.

(** [mem::replace] installs [Poisoned] first: a transition that unwinds, or a
    slot already poisoned, leaves it there. *)
Definition submit x event : SlotExecution C E L * option InstalledSlotEvidence :=
  let taken := set_slot_state SlotState_Poisoned x in
  match slot_state x with
  | SlotState_Poisoned => (taken, panic!)
  | SlotState_Ready machine =>
      match EntitySlot_decide clone machine event with
      | None => (taken, panic!)
      | Some d =>
          (for_each push_back (effects d) (set_slot_state (SlotState_Ready (state d)) taken),
           Some (installed_of d))
      end
  end.

Definition Slot_new : SlotExecution C E L :=
  {| slot_state := SlotState_Ready Slot_Inactive; pending := []; dispatch := Idle;
     retirement := None |}.

(** [fresh] is the cell [pair] allocates when this call creates one. *)
Definition begin_retirement x (fresh : RetirementCell) :
    SlotExecution C E L *
    option (Result (InstalledSlotEvidence * RetirementCell) EntityRetirementError) :=
  match slot_state x with
  | SlotState_Poisoned => (x, panic!)
  | SlotState_Ready machine =>
      match phase machine with
      | Phase_Inactive | Phase_Activating => (x, Some (Err NotActive))
      | Phase_Active | Phase_Draining | Phase_Retiring =>
          match slot_activation_id machine with
          | None => (x, Some (Err NotActive))
          | Some activation =>
              let '(x, observation) :=
                match retirement x with
                | Some cell => (x, cell)
                | None => (set_retirement (Some fresh) x, fresh)
                end in
              let '(x, installed) := submit x (Event_BeginDrain activation) in
              (x, installed ← installed; Some (Ok (installed, observation)))
          end
      end
  end.

(** Takes the publisher; the completion published, if any, is the result. *)
Definition complete_retirement x (mode : RetirementMode) :
    SlotExecution C E L * option (RetirementCell * RetirementMode) :=
  (set_retirement None x, cell ← retirement x; Some (cell, mode)).

Definition activation_id x : option (option ActivationId) :=
  match slot_state x with
  | SlotState_Ready machine => Some (slot_activation_id machine)
  | SlotState_Poisoned => panic!
  end.

Definition submit_owned x event : SlotExecution C E L * option () :=
  let '(x, installed) := submit x event in (x, _ ← installed; Some ()).

Definition has_pending x : bool := match pending x with [] => false | _ => true end.

Definition retirement_disposition x : Result () (option ActivationId) :=
  match slot_state x with
  | SlotState_Ready Slot_Inactive => Ok ()
  | SlotState_Ready machine => Err (slot_activation_id machine)
  | SlotState_Poisoned => Err None
  end.

Definition slot_close_family x :
    SlotExecution C E L * option (ActivationId * E * L * Result () DrainFailure) :=
  let taken := set_slot_state SlotState_Poisoned x in
  match slot_state x with
  | SlotState_Poisoned => (taken, None)
  | SlotState_Ready machine =>
      let '(machine, batch, retired) := close_family machine in
      (for_each push_back batch (set_slot_state (SlotState_Ready machine) taken), retired)
  end.

(** [SlotDispatch::acquire]: [true] when the caller now holds the guard. *)
Definition acquire x : SlotExecution C E L * bool :=
  match dispatch x with
  | Idle => (set_dispatch Dispatching x, true)
  | Dispatching => (x, false)
  end.

(** [SlotDispatch::next] on a guard that is still held; [None] gives it up. *)
Definition next x : SlotExecution C E L * option (SlotEffect C E L) :=
  match pending x with
  | effect :: rest => (set_pending rest x, Some effect)
  | [] => (set_dispatch Idle x, None)
  end.

(** [Drop for SlotDispatch]: a guard given up by [next] drops to nothing, one
    still held (its interpreter unwound) returns the slot to [Idle]. *)
Definition drop_dispatch x (held : bool) : SlotExecution C E L :=
  if held then set_dispatch Idle x else x.

(** The interpreter runs without the lock: it acts on whatever holds the slot,
    which [slot_of] and [put_slot] reach, and so it may call the slot itself.  It
    may unwind, which drops the guard.  Every round takes the queue as it is then;
    [fuel] bounds the rounds, and running out of it is [None]. *)
Section dispatching.
Context {S : Type} (slot_of : S → SlotExecution C E L) (put_slot : SlotExecution C E L → S → S).

(** One critical section on the slot. *)
Definition on_slot {A} (op : SlotExecution C E L → SlotExecution C E L * A) (s : S) : S * A :=
  let '(x, a) := op (slot_of s) in (put_slot x s, a).

Fixpoint dispatch_loop (fuel : nat) (interpret : SlotEffect C E L → Op S ()) (s : S) :
    option (S * option ()) :=
  match fuel with
  | O => None
  | Datatypes.S fuel =>
      match on_slot next s with
      | (s, None) => Some ((on_slot (λ x, (drop_dispatch x false, ())) s).1, Some ())
      | (s, Some effect) =>
          match interpret effect s with
          | (s, None) => Some ((on_slot (λ x, (drop_dispatch x true, ())) s).1, panic!)
          | (s, Some ()) => dispatch_loop fuel interpret s
          end
      end
  end.

Definition dispatch_pending (fuel : nat) (interpret : SlotEffect C E L → Op S ()) (s : S) :
    option (S * option ()) :=
  match on_slot acquire s with
  | (s, false) => Some (s, Some ())
  | (s, true) => dispatch_loop fuel interpret s
  end.
End dispatching.
End operations.

(** ** Threads around one slot *)

(** What the slot mutex protects, and ghost counters of what the threads hold:
    the guards alive, the decisions submitted whose [interpret] has not run
    yet, whether a guard was dropped by an unwinding interpreter, every effect
    the machine decided and every effect handed to an interpreter. *)
Record SlotWorld {C E L} := {
  execution : SlotExecution C E L;
  guards : nat;
  owed : nat;
  unwound : bool;
  emitted : list (SlotEffect C E L);
  interpreted : list (SlotEffect C E L)
}.
Arguments SlotWorld : clear implicits.

Section threads.
Context {C E L : Type} (clone : E → option E).
Implicit Types (x : SlotExecution C E L) (event : SlotEvent C E L) (w : SlotWorld C E L).

Definition slot_world_init : SlotWorld C E L :=
  {| execution := Slot_new; guards := 0; owed := 0; unwound := false; emitted := [];
     interpreted := [] |}.

(** The effects one submission decides. *)
Definition submit_emits x event : list (SlotEffect C E L) :=
  match slot_state x with
  | SlotState_Poisoned => []
  | SlotState_Ready machine =>
      match EntitySlot_decide clone machine event with
      | None => []
      | Some d => into_vec (effects d)
      end
  end.

Definition begin_emits x : list (SlotEffect C E L) :=
  match slot_state x with
  | SlotState_Ready (Slot_Active _ | Slot_Draining _ | Slot_Retiring _) =>
      match activation_id x with
      | Some (Some activation) => submit_emits x (Event_BeginDrain activation)
      | _ => []
      end
  | _ => []
  end.

Definition close_emits x : list (SlotEffect C E L) :=
  match slot_state x with
  | SlotState_Poisoned => []
  | SlotState_Ready machine => into_vec (close_family machine).1.2
  end.

(** A thread that changed the slot still has to run [dispatch_pending]. *)
Definition after_submission w x (fresh : list (SlotEffect C E L)) : SlotWorld C E L :=
  {| execution := x; guards := guards w; owed := S (owed w); unwound := unwound w;
     emitted := emitted w ++ fresh; interpreted := interpreted w |}.

(** One critical section of one thread. *)
Inductive slot_step : SlotWorld C E L → SlotWorld C E L → Prop :=
  | step_submit w event :
      slot_step w (after_submission w (submit clone (execution w) event).1
                     (submit_emits (execution w) event))
  | step_begin_retirement w fresh :
      slot_step w (after_submission w (begin_retirement clone (execution w) fresh).1
                     (begin_emits (execution w)))
  | step_close_family w :
      slot_step w (after_submission w (slot_close_family (execution w)).1
                     (close_emits (execution w)))
  | step_complete_retirement w mode :
      slot_step w {| execution := (complete_retirement (execution w) mode).1;
        guards := guards w; owed := owed w; unwound := unwound w;
        emitted := emitted w; interpreted := interpreted w |}
  | step_acquire w x taken owed' :
      owed w = S owed' → acquire (execution w) = (x, taken) →
      slot_step w {| execution := x; guards := (if taken then S (guards w) else guards w);
        owed := owed'; unwound := unwound w;
        emitted := emitted w; interpreted := interpreted w |}
  | step_next_effect w x effect :
      guards w ≠ 0%nat → next (execution w) = (x, Some effect) →
      slot_step w {| execution := x; guards := guards w; owed := owed w; unwound := unwound w;
        emitted := emitted w; interpreted := interpreted w ++ [effect] |}
  | step_next_done w x guards' :
      guards w = S guards' → next (execution w) = (x, None) →
      slot_step w {| execution := x; guards := guards'; owed := owed w; unwound := unwound w;
        emitted := emitted w; interpreted := interpreted w |}
  | step_interpreter_unwinds w guards' :
      guards w = S guards' →
      slot_step w {| execution := drop_dispatch (execution w) true; guards := guards';
        owed := owed w; unwound := true;
        emitted := emitted w; interpreted := interpreted w |}.

Definition slot_reachable w : Prop := rtc slot_step slot_world_init w.

(** ** Lemmas: one operation *)

Lemma for_each_push_back (batch : SlotEffectBatch C E L) x :
  for_each push_back batch x = set_pending (pending x ++ into_vec batch) x.
Proof.
  rewrite for_each_fold. generalize (into_vec batch) as l. intros l. revert x.
  induction l as [|e l IH]; intros x; simpl.
  - rewrite app_nil_r. by destruct x.
  - rewrite IH. unfold push_back, set_pending. simpl. by rewrite <- app_assoc.
Qed.

Lemma submit_pending x event : pending (submit clone x event).1 = pending x ++ submit_emits x event.
Proof.
  unfold submit, submit_emits. destruct (slot_state x); simpl; [|by rewrite app_nil_r].
  destruct (EntitySlot_decide _ _ _); simpl; [|by rewrite app_nil_r].
  by rewrite for_each_push_back.
Qed.

Lemma submit_dispatch x event : dispatch (submit clone x event).1 = dispatch x.
Proof.
  unfold submit. destruct (slot_state x); [|done]. destruct (EntitySlot_decide _ _ _); [|done].
  simpl. by rewrite for_each_push_back.
Qed.

Lemma submit_retirement x event : retirement (submit clone x event).1 = retirement x.
Proof.
  unfold submit. destruct (slot_state x); [|done]. destruct (EntitySlot_decide _ _ _); [|done].
  simpl. by rewrite for_each_push_back.
Qed.

(** What a submission does to the machine, on every branch. *)
Lemma submit_spec x event :
  match slot_state x with
  | SlotState_Poisoned => submit clone x event = (x, None)
  | SlotState_Ready machine =>
      match EntitySlot_decide clone machine event with
      | None => submit clone x event = (set_slot_state SlotState_Poisoned x, None)
      | Some d =>
          submit clone x event =
            (set_pending (pending x ++ into_vec (effects d))
               (set_slot_state (SlotState_Ready (state d)) x), Some (installed_of d))
      end
  end.
Proof.
  unfold submit. destruct x as [[machine|] q p r]; simpl; [|done].
  destruct (EntitySlot_decide clone machine event); [|done]. by rewrite for_each_push_back.
Qed.

Lemma submit_set_retirement x event r :
  submit clone (set_retirement r x) event =
  (set_retirement r (submit clone x event).1, (submit clone x event).2).
Proof.
  unfold submit. destruct x as [[machine|] q p r']; simpl; [|done].
  destruct (EntitySlot_decide clone machine event); [|done]. by rewrite !for_each_push_back.
Qed.

Definition observed_cell x (fresh : RetirementCell) : RetirementCell :=
  default fresh (retirement x).

(** [begin_retirement] is a refusal or a submission of [Event_BeginDrain]. *)
Lemma begin_retirement_spec x fresh :
  begin_retirement clone x fresh =
  match slot_state x with
  | SlotState_Poisoned => (x, None)
  | SlotState_Ready (Slot_Inactive | Slot_Activating _) => (x, Some (Err NotActive))
  | SlotState_Ready machine =>
      match slot_activation_id machine with
      | None => (x, Some (Err NotActive))
      | Some a =>
          let cell := observed_cell x fresh in
          let '(x', installed) := submit clone (set_retirement (Some cell) x) (Event_BeginDrain a) in
          (x', (λ i, Ok (i, cell)) <$> installed)
      end
  end.
Proof.
  unfold begin_retirement, observed_cell, set_retirement.
  destruct x as [[[]|] q p [cell|]]; simpl; try done; case_match; done.
Qed.

Lemma begin_retirement_Ok x fresh x' installed cell :
  begin_retirement clone x fresh = (x', Some (Ok (installed, cell))) →
  ∃ machine a, slot_state x = SlotState_Ready machine ∧ slot_activation_id machine = Some a ∧
    phase machine ≠ Phase_Inactive ∧ phase machine ≠ Phase_Activating ∧
    cell = observed_cell x fresh ∧
    submit clone (set_retirement (Some cell) x) (Event_BeginDrain a) = (x', Some installed).
Proof.
  rewrite begin_retirement_spec. destruct (slot_state x) as [machine|]; [|done].
  intros H. exists machine.
  destruct machine as [|st|st|st|a]; cbn [slot_activation_id] in H; try done;
    (destruct (submit _ _ _) as [y [i|]] eqn:Hsub in H; simplify_eq/=);
    eexists; split_and!; try done.
Qed.

Lemma begin_retirement_pending x fresh :
  pending (begin_retirement clone x fresh).1 = pending x ++ begin_emits x.
Proof.
  rewrite begin_retirement_spec. unfold begin_emits, activation_id.
  destruct (slot_state x) as [[]|] eqn:Hs; simpl; try by rewrite app_nil_r.
  all: case_match eqn:Hsub; simpl; apply (f_equal (pending ∘ fst)) in Hsub; simpl in Hsub;
    rewrite submit_pending in Hsub; simpl in Hsub; by rewrite <- Hsub.
Qed.

Lemma begin_retirement_dispatch x fresh :
  dispatch (begin_retirement clone x fresh).1 = dispatch x.
Proof.
  rewrite begin_retirement_spec.
  destruct (slot_state x) as [[]|] eqn:Hs; simpl; try done.
  all: case_match eqn:Hsub; simpl; apply (f_equal (dispatch ∘ fst)) in Hsub; simpl in Hsub;
    rewrite submit_dispatch in Hsub; by rewrite <- Hsub.
Qed.

Lemma close_family_pending x :
  pending (slot_close_family x).1 = pending x ++ close_emits x.
Proof.
  unfold slot_close_family, close_emits. destruct (slot_state x); simpl; [|by rewrite app_nil_r].
  destruct (close_family machine) as [[]] eqn:Hc. simpl. by rewrite for_each_push_back.
Qed.

Lemma close_family_dispatch x : dispatch (slot_close_family x).1 = dispatch x.
Proof.
  unfold slot_close_family. destruct (slot_state x); [|done].
  destruct (close_family machine) as [[]]. simpl. by rewrite for_each_push_back.
Qed.

(** ** The invariant of the threads *)

(** One interpreter at a time, the effects in the order they were decided, and
    none left behind: a queue that is not empty has a guard that will drain it
    or a caller that still has to interpret, unless an interpreter unwound. *)
Record slot_inv w : Prop := {
  inv_guard : guards w = match dispatch (execution w) with Idle => 0%nat | Dispatching => 1%nat end;
  inv_order : emitted w = interpreted w ++ pending (execution w);
  inv_owed : pending (execution w) = [] ∨ guards w ≠ 0%nat ∨ owed w ≠ 0%nat ∨ unwound w = true
}.

Lemma slot_inv_init : slot_inv slot_world_init.
Proof. split; [done..|by left]. Qed.

Lemma after_submission_inv w x fresh :
  slot_inv w → dispatch x = dispatch (execution w) →
  pending x = pending (execution w) ++ fresh → slot_inv (after_submission w x fresh).
Proof.
  intros [Hg Ho _] Hd Hp. split; simpl.
  - by rewrite Hd.
  - by rewrite Hp, Ho, app_assoc.
  - naive_solver.
Qed.

Lemma slot_step_inv w w' : slot_inv w → slot_step w w' → slot_inv w'.
Proof.
  intros Hinv Hstep. destruct Hstep.
  1: { apply after_submission_inv; [done|apply submit_dispatch|apply submit_pending]. }
  1: { apply after_submission_inv;
         [done|apply begin_retirement_dispatch|apply begin_retirement_pending]. }
  1: { apply after_submission_inv; [done|apply close_family_dispatch|apply close_family_pending]. }
  all: destruct w as [[s q p r] g o u em it], Hinv as [Hg Ho Hq]; unfold acquire, next in *;
    simpl in *; subst.
  - by split.
  - destruct p; simplify_eq/=; split; simpl; auto.
  - destruct q as [|e q]; simplify_eq/=. split; simpl; [done|by rewrite <- app_assoc|auto].
  - destruct p, q; simplify_eq/=. split; simpl; auto.
  - destruct p; simplify_eq/=. split; simpl; auto.
Qed.
End threads.

(** ** Lemmas: retirement and the interpreter's loop *)

Section drain_lemmas.
Context {C E L : Type} (clone : E → option E).
Implicit Types (x : SlotExecution C E L).

(** What an interpreter may do to the slot whose effects it is handed, in its own
    call and by whatever threads run meanwhile: the guard is held, so it can only
    append to the queue; at most [budget] effects are appended in all.  [emitted]
    and [handed] are any records of what was appended and of what was handed out. *)
Record interpreting {S} (slot_of : S → SlotExecution C E L) put_slot
    (interpret : SlotEffect C E L → Op S ()) (emitted handed : S → list (SlotEffect C E L))
    (budget : S → nat) : Prop := {
  slot_of_put x s : slot_of (put_slot x s) = x;
  put_keeps x s : emitted (put_slot x s) = emitted s ∧ handed (put_slot x s) = handed s;
  put_budget x s : slot_state x = slot_state (slot_of s) → budget (put_slot x s) = budget s;
  appends effect s : dispatch (slot_of s) = Dispatching →
    let s' := (interpret effect s).1 in
    dispatch (slot_of s') = Dispatching ∧ handed s' = handed s ++ [effect] ∧
    ∃ more, pending (slot_of s') = pending (slot_of s) ++ more ∧ emitted s' = emitted s ++ more ∧
      (length more + budget s' ≤ budget s)%nat
}.

(** What a loop that ended leaves: everything handed out, in order, and what is
    left of the queue, is what the queue held and what was appended meanwhile. *)
Definition drained {S} (slot_of : S → SlotExecution C E L) (interpret : SlotEffect C E L → Op S ())
    (emitted handed : S → list (SlotEffect C E L)) (s s' : S) (outcome : option ()) : Prop :=
  ∃ out more,
    handed s' = handed s ++ out ∧ emitted s' = emitted s ++ more ∧
    out ++ pending (slot_of s') = pending (slot_of s) ++ more ∧ dispatch (slot_of s') = Idle ∧
    match outcome with
    | Some _ => pending (slot_of s') = []
    | None => ∃ before effect s1, out = before ++ [effect] ∧ (interpret effect s1).2 = None
    end.

Section draining.
Context {S} (slot_of : S → SlotExecution C E L) (put_slot : SlotExecution C E L → S → S).
Context (interpret : SlotEffect C E L → Op S ()) (emitted handed : S → list (SlotEffect C E L)) (budget : S → nat).
Context (law : interpreting slot_of put_slot interpret emitted handed budget).

Lemma dispatch_loop_drains bound s :
  dispatch (slot_of s) = Dispatching → (length (pending (slot_of s)) + budget s ≤ bound)%nat →
  ∃ s' outcome, drained slot_of interpret emitted handed s s' outcome ∧
    ∀ fuel, (bound < fuel)%nat → dispatch_loop slot_of put_slot fuel interpret s = Some (s', outcome).
Proof using law.
  destruct law as [Hget Hkeep Hbudget Happ]. revert s. induction bound as [|bound IH]; intros s Hd Hb.
  all: destruct (pending (slot_of s)) as [|e q] eqn:Hq; simpl in Hb; try lia.
  1, 2: eexists _, (Some ()); split; [|intros [|fuel] Hf; [lia|]; cbn; unfold on_slot, next; by rewrite Hq].
  1, 2: cbn; exists [], []; rewrite !Hget, !app_nil_r, Hq; cbn; rewrite Hq;
    destruct (Hkeep (set_dispatch Idle (slot_of s)) s) as [E1 E2];
    destruct (Hkeep (set_dispatch Idle (slot_of s)) (put_slot (set_dispatch Idle (slot_of s)) s)) as [E3 E4];
    by rewrite E3, E4, E1, E2.
  set (x := set_pending q (slot_of s)). set (s1 := put_slot x s).
  assert (∀ fuel, dispatch_loop slot_of put_slot (Datatypes.S fuel) interpret s =
    match interpret e s1 with
    | (s, None) => Some ((on_slot slot_of put_slot (λ x, (drop_dispatch x true, ())) s).1, None)
    | (s, Some ()) => dispatch_loop slot_of put_slot fuel interpret s
    end) as Hloop by (intros fuel; cbn; unfold on_slot at 1, next; by rewrite Hq).
  destruct (Hkeep x s) as [He Hh]. pose proof (Hbudget x s eq_refl) as Hbs.
  assert (dispatch (slot_of s1) = Dispatching) as Hd1 by (unfold s1; by rewrite Hget).
  assert (pending (slot_of s1) = q) as Hp1 by (unfold s1; by rewrite Hget).
  destruct (Happ e s1 Hd1) as (Hd2 & Hh2 & more & Hp2 & He2 & Hb2).
  destruct (interpret e s1) as [s2 [[]|]] eqn:Hi; cbn [fst] in *.
  - destruct (IH s2 Hd2) as (s' & outcome & (out & more' & Ho & Hm & Hx & Hidle & Hout) & Hrun).
    { rewrite Hp2, Hp1, length_app. unfold s1 in Hb2. lia. }
    exists s', outcome. split.
    + exists (e :: out), (more ++ more'). rewrite Ho, Hm, Hh2, He2. unfold s1. rewrite He, Hh.
      split_and!; [by rewrite <- app_assoc|by rewrite <- app_assoc| |done|].
      * rewrite Hq. cbn. by rewrite Hx, Hp2, Hp1, <- app_assoc.
      * destruct outcome; [done|]. destruct Hout as (before & e' & s3 & -> & Hs3). by exists (e :: before), e', s3.
    + intros [|fuel] Hf; [lia|]. rewrite Hloop. apply Hrun. lia.
  - eexists _, None. split; [|intros [|fuel] Hf; [lia|]; by rewrite Hloop].
    unfold on_slot. cbn. destruct (Hkeep (set_dispatch Idle (slot_of s2)) s2) as [E1 E2].
    exists [e], more. rewrite !Hget. cbn. rewrite E1, E2, Hh2, He2. unfold s1. rewrite He, Hh.
    split_and!; [done|done| |done|].
    + by rewrite Hq, Hp2, Hp1.
    + exists [], e, s1. by rewrite Hi.
Qed.
End draining.

(** Draining the machine's own incarnation closes an active phase and leaves
    a closed one as it is; the incarnation stays. *)
Lemma begin_drain_closes (machine : EntitySlot C E L) a d :
  slot_activation_id machine = Some a →
  phase machine ≠ Phase_Inactive → phase machine ≠ Phase_Activating →
  EntitySlot_decide clone machine (Event_BeginDrain a) = Some d →
  slot_activation_id (state d) = Some a ∧
  (phase (state d) = Phase_Draining ∨ phase (state d) = Phase_Retiring).
Proof.
  intros Hid Hi Ha H. destruct machine as [|st|st|st|b]; simpl in *; try done; transition_cases H;
    simpl; auto.
Qed.
End drain_lemmas.

(** ** Properties *)

Section properties.
Context {C E L : Type} (clone : E → option E).
Implicit Types (x : SlotExecution C E L) (event : SlotEvent C E L) (w : SlotWorld C E L).

(** Whatever the threads interleave, at most one of them interprets the
    effects of a slot, and the effects it hands out are those the machine
    decided, in the order they were decided, none lost and none repeated. *)
Lemma effects_interpreted_in_order w :
  slot_reachable clone w →
  (guards w ≤ 1)%nat ∧ emitted w = interpreted w ++ pending (execution w).
Proof.
  intros Hw. assert (slot_inv w) as [Hg Ho _].
  { revert Hw. apply rtc_ind_r; [apply slot_inv_init|]. intros; by eapply slot_step_inv. }
  split; [|done]. rewrite Hg. destruct (dispatch _); lia.
Qed.

(** An effect is never stranded: when every caller that submitted has run
    its interpretation, no guard is held and no interpreter unwound, every
    effect decided so far has been interpreted, even those submitted while
    another thread held the guard. *)
Lemma effects_never_stranded w :
  slot_reachable clone w →
  owed w = 0%nat → guards w = 0%nat → unwound w = false → interpreted w = emitted w.
Proof.
  intros Hw Hd Hg Hu. assert (slot_inv w) as [_ Ho Hq].
  { revert Hw. apply rtc_ind_r; [apply slot_inv_init|]. intros; by eapply slot_step_inv. }
  destruct Hq as [Hq|[?|[?|?]]]; [|congruence..]. by rewrite Ho, Hq, app_nil_r.
Qed.

(** C40: the interpreter's loop ends, whatever is appended while it runs: a
    caller that finds the slot idle hands out the queue, and everything its
    interpreter and the other threads append to it meanwhile (at most [budget s]
    effects), each once and in order, up to the first effect whose interpretation
    unwinds; it leaves the slot idle, with an empty queue unless it unwound.  One
    that finds the slot dispatching, as a reentrant call does, does nothing.  The
    fuel is enough as soon as it exceeds what is queued and what may be appended. *)
Theorem dispatch_pending_drains {S} (slot_of : S → SlotExecution C E L) put_slot interpret emitted handed
    (budget : S → nat) s :
  interpreting slot_of put_slot interpret emitted handed budget →
  ∃ s' outcome,
    (∀ fuel, (length (pending (slot_of s)) + budget s < fuel)%nat →
       dispatch_pending slot_of put_slot fuel interpret s = Some (s', outcome)) ∧
    match dispatch (slot_of s) with
    | Idle => drained slot_of interpret emitted handed s s' outcome
    | Dispatching =>
        outcome = Some () ∧ slot_of s' = slot_of s ∧ handed s' = handed s ∧ emitted s' = emitted s
    end.
Proof.
  intros law. pose proof law as [Hget Hkeep Hbudget _]. unfold dispatch_pending, on_slot, acquire.
  destruct (dispatch (slot_of s)) eqn:Hd.
  - set (x := set_dispatch Dispatching (slot_of s)). destruct (Hkeep x s) as [He Hh].
    destruct (dispatch_loop_drains _ _ _ _ _ _ law (length (pending (slot_of s)) + budget s) (put_slot x s))
      as (s' & outcome & Hr & Hrun); [by rewrite Hget|rewrite Hget, Hbudget by done; done|].
    exists s', outcome. split; [done|]. unfold drained in *. by rewrite Hget, He, Hh in Hr.
  - destruct (Hkeep (slot_of s) s) as [He Hh]. eexists _, _. by rewrite Hget, He, Hh.
Qed.

(** A submission unwinds exactly when the slot is poisoned or the
    transition itself unwinds; then the slot is poisoned, its queue, guard and
    retirement untouched, and from then on every submission unwinds and the
    slot stays poisoned. *)
Lemma panicked_transition_poisons x event :
  (submit clone x event).2 = None →
  (slot_state x = SlotState_Poisoned ∨
   ∃ machine, slot_state x = SlotState_Ready machine ∧
     EntitySlot_decide clone machine event = None) ∧
  (submit clone x event).1 = set_slot_state SlotState_Poisoned x ∧
  ∀ later, submit clone (submit clone x event).1 later =
    (set_slot_state SlotState_Poisoned x, None).
Proof.
  pose proof (submit_spec clone x event) as Hs. destruct x as [[machine|] q p r]; simpl in Hs;
    [|rewrite Hs; intros _; simpl; by auto].
  destruct (EntitySlot_decide clone machine event) eqn:Hd; rewrite Hs; [done|].
  intros _. simpl. eauto 10.
Qed.

(** Beginning a retirement closes admission for the incarnation it found
    and returns the one observation of that retirement: a second call gets the
    same cell, and completing publishes to that cell exactly once. *)
Lemma retirement_observed_once x fresh x' installed cell mode :
  begin_retirement clone x fresh = (x', Some (Ok (installed, cell))) →
  (∃ machine a, slot_state x' = SlotState_Ready machine ∧ slot_activation_id machine = Some a ∧
     activation_id x = Some (Some a) ∧ (phase machine = Phase_Draining ∨ phase machine = Phase_Retiring)) ∧
  cell = default fresh (retirement x) ∧
  (∀ other x'' installed' cell', begin_retirement clone x' other = (x'', Some (Ok (installed', cell'))) →
     cell' = cell) ∧
  (complete_retirement x' mode).2 = Some (cell, mode) ∧
  (complete_retirement (complete_retirement x' mode).1 mode).2 = None.
Proof.
  intros Hb. assert (retirement x' = Some cell ∧ cell = default fresh (retirement x) ∧
    ∃ machine machine' a, slot_state x = SlotState_Ready machine ∧
      slot_activation_id machine = Some a ∧ slot_state x' = SlotState_Ready machine' ∧
      slot_activation_id machine' = Some a ∧
      (phase machine' = Phase_Draining ∨ phase machine' = Phase_Retiring))
    as (Hr & Hc & machine & machine' & a & Hs & Ha & Hs' & Ha' & Hp).
  { apply begin_retirement_Ok in Hb as (machine & a & Hs & Ha & Hi & Hact & Hc & Hsub).
    pose proof (submit_spec clone (set_retirement (Some cell) x) (Event_BeginDrain a)) as Hspec.
    cbn [slot_state set_retirement] in Hspec. rewrite Hs in Hspec.
    destruct (EntitySlot_decide _ _ _) as [d|] eqn:Hd; rewrite Hsub in Hspec; [|done].
    injection Hspec as -> ->. apply begin_drain_closes in Hd as [??]; [|done..].
    split; [done|]. split; [done|]. exists machine, (state d), a. by split_and!. }
  split_and!; [|done| | |done].
  - exists machine', a. unfold activation_id. rewrite Hs, Ha. by split_and!.
  - intros other x'' i c (_ & _ & _ & _ & _ & _ & -> & _)%begin_retirement_Ok.
    unfold observed_cell. by rewrite Hr.
  - simpl. by rewrite Hr.
Qed.
End properties.

(** ** Concrete instances *)

Definition copy_endpoint (e : N) : option N := Some e.

Definition claim_event : SlotEvent N N N :=
  Event_ClaimActivation (ActivationId_new 1) (DispatchId_new 1) 7%N 2.

Definition claimed_slot : SlotExecution N N N := (submit copy_endpoint Slot_new claim_event).1.

(** One caller claimed the slot and interpreted its effect. *)
Definition settled_world : SlotWorld N N N :=
  {| execution := set_pending [] claimed_slot; guards := 0; owed := 0; unwound := false;
     emitted := [Effect_StartActivation (ActivationId_new 1)];
     interpreted := [Effect_StartActivation (ActivationId_new 1)] |}.


(** A runtime that answers a delivery in the very call that hands it out, as the
    reentrant runtime of the directory's tests does: the answer is submitted to the
    slot, and the interpretation it asks for finds the slot dispatching. *)
Record Reentrant := {
  cell : SlotExecution N N N;
  submitted : list (SlotEffect N N N);
  told : list (SlotEffect N N N)
}.

Definition put_cell (x : SlotExecution N N N) (r : Reentrant) : Reentrant :=
  {| cell := x; submitted := submitted r; told := told r |}.

Definition answer_deliveries (effect : SlotEffect N N N) : Op Reentrant () := λ r,
  match effect with
  | Effect_Deliver a _ _ _ =>
      let event := Event_DeliveryResolved a None in
      let '(x, installed) := submit copy_endpoint (cell r) event in
      let '(x, _) := acquire x in
      ({| cell := x; submitted := submitted r ++ submit_emits copy_endpoint (cell r) event;
          told := told r ++ [effect] |}, _ ← installed; Some ())
  | _ => ({| cell := cell r; submitted := submitted r; told := told r ++ [effect] |}, Some ())
  end.

(** One fence is due while deliveries are outstanding. *)
Definition fence_due (r : Reentrant) : nat :=
  match slot_state (cell r) with
  | SlotState_Ready (Slot_Draining st) =>
      match progress st with Progress_Reservations _ => 1 | Progress_FenceAcknowledgement => 0 end
  | _ => 0
  end.

Lemma resolution_owes (machine : EntitySlot N N N) a d :
  EntitySlot_decide copy_endpoint machine (Event_DeliveryResolved a None) = Some d →
  (length (into_vec (effects d)) +
    match state d with
    | Slot_Draining st => match progress st with Progress_Reservations _ => 1 | _ => 0 end
    | _ => 0
    end ≤
    match machine with
    | Slot_Draining st => match progress st with Progress_Reservations _ => 1 | _ => 0 end
    | _ => 0
    end)%nat.
Proof.
  intros H. destruct machine as [|st|st|st|b]; simpl in *; transition_cases H; simpl; lia.
Qed.

Lemma answer_deliveries_interprets :
  interpreting cell put_cell answer_deliveries submitted told fence_due.
Proof.
  split; [done|done|by intros x r Hs; unfold fence_due; simpl; rewrite Hs|].
  intros effect r Hd. destruct effect as [|a id e c| | | |]; simpl;
    try (split; [done|]; split; [done|]; exists []; unfold fence_due; simpl; by rewrite !app_nil_r).
  pose proof (submit_pending copy_endpoint (cell r) (Event_DeliveryResolved a None)) as Hp.
  pose proof (submit_dispatch copy_endpoint (cell r) (Event_DeliveryResolved a None)) as Hx.
  pose proof (submit_spec copy_endpoint (cell r) (Event_DeliveryResolved a None)) as Hs.
  unfold submit_emits in *. rewrite Hd in Hx.
  destruct (submit copy_endpoint (cell r) (Event_DeliveryResolved a None)) as [x installed]. simpl in *.
  unfold acquire. rewrite Hx. simpl. split; [done|]. split; [done|]. eexists. split; [exact Hp|].
  split; [done|]. unfold fence_due. simpl. destruct (slot_state (cell r)) as [machine|] eqn:Hm.
  - destruct (EntitySlot_decide _ _ _) as [d|] eqn:He.
    + injection Hs as -> ->. simpl. by apply resolution_owes in He.
    + injection Hs as -> ->. simpl. lia.
  - injection Hs as -> ->. rewrite Hm. simpl. lia.
Qed.

(** Two commands wait while the entity activates; it drains before they are handed
    out. *)
Definition draining_cell : SlotExecution N N N :=
  let submit x event := (submit copy_endpoint x event).1 in
  submit (submit (submit (set_pending [] claimed_slot) (Event_Dispatch (DispatchId_new 2) 8%N))
            (Event_ActivationSucceeded (ActivationId_new 1) 2%N 3%N))
    (Event_BeginDrain (ActivationId_new 1)).

(** Both deliveries are handed out, then the fence that the second answer appends. *)
Lemma dispatch_pending_drains_witness :
  let start := {| cell := draining_cell; submitted := []; told := [] |} in
  let deliver (id : positive) (command : N) : SlotEffect N N N := Effect_Deliver (ActivationId_new 1) (DispatchId_new id) 2%N command in
  length (pending draining_cell) = 2%nat ∧
  ∃ s', (∀ fuel, (3 < fuel)%nat →
      dispatch_pending cell put_cell fuel answer_deliveries start = Some (s', Some ())) ∧
    told s' = [deliver 1%positive 7%N; deliver 2%positive 8%N; Effect_EnqueueFence (ActivationId_new 1) 2%N] ∧
    drained cell answer_deliveries submitted told start s' (Some ()).
Proof.
  intros start deliver. split; [vm_compute; reflexivity|].
  destruct (dispatch_pending_drains cell put_cell answer_deliveries submitted told fence_due start
    answer_deliveries_interprets) as (s' & outcome & Hrun & Hdrained).
  assert (∃ r, dispatch_pending cell put_cell 4 answer_deliveries start = Some (r, Some ()) ∧
    told r = [deliver 1%positive 7%N; deliver 2%positive 8%N; Effect_EnqueueFence (ActivationId_new 1) 2%N]) as (r & Hr & Ht)
    by (vm_compute; by eexists).
  pose proof (Hrun 4) as H4. rewrite Hr in H4.
  assert (Some (r, Some ()) = Some (s', outcome)) as [= -> ->] by (apply H4; vm_compute; lia).
  exists s'. split; [exact Hrun|]. split; [exact Ht|exact Hdrained].
Defined.
