(* ===== verification/Directory.v ===== *)
(** * The sharded local directory

    [crates/bombay/src/entity/directory.rs]: the map from entity to slot, split
    in shards by the masked hash of the entity, the two identity sequences, the
    operations of [LocalDirectory] and the interpretation of queued effects.

    A slot is shared ([Arc]) between the map and the decisions that name it, so
    the model keeps the slots in an arena and the shards map to references. An
    operation is an [Op]: it acts on the directory and may panic. *)

From S2P Require Import Prelude Lifecycle DirectorySlot.

(** ** Configuration *)

(** [usize::is_power_of_two] on a positive count. *)
Definition is_power_of_two (n : positive) : bool := (2 ^ N.log2 (Npos n) =? Npos n)%N.

Record DirectoryConfig := { config_shards : positive; activation_waiters : positive }.

Variant DirectoryConfigError := InvalidShardCount (shards activation_waiters : positive).

Definition DirectoryConfig_new (shards activation_waiters : positive) :
    Result DirectoryConfig DirectoryConfigError :=
  if negb (is_power_of_two shards) || (u64_max <? Npos shards - 1)%N
  then Err (InvalidShardCount shards activation_waiters)
  else Ok {| config_shards := shards; activation_waiters := activation_waiters |}.

Definition DirectoryConfig_default : DirectoryConfig :=
  {| config_shards := 64; activation_waiters := 64 |}.

(** ** Identity sequences *)

(** [try_update] by [checked_add(1)] yields the previous value; an exhausted
    sequence stays where it is. *)
Definition allocate (sequence : N) : N * option positive :=
  match checked_add u64_max sequence 1 with
  | Some advanced => (advanced, nonzero sequence)
  | None => (sequence, None)
  end.

(** A run of allocations, by any threads: the sequence is one atomic. *)
Fixpoint allocate_many (count : nat) (sequence : N) : N * list (option positive) :=
  match count with
  | O => (sequence, [])
  | S count =>
      let '(sequence, id) := allocate sequence in
      let '(sequence, ids) := allocate_many count sequence in (sequence, id :: ids)
  end.

(** ** Data *)

(** The identity of one [Arc<Slot>]. *)
Abbreviation SlotRef := positive (only parsing).

Variant DirectoryError (C : Type) :=
  | ActivationIdsExhausted (command : C)
  | DispatchIdsExhausted (command : C).
Arguments ActivationIdsExhausted {_} _.
Arguments DispatchIdsExhausted {_} _.

Variant InstalledEffectSource (C E L : Type) :=
  | Mapped (slot : SlotRef)
  | Transient (effects : list (SlotEffect C E L)).
Arguments Mapped {_ _ _} _.
Arguments Transient {_ _ _} _.

Record InstalledSlotDecision (I C E L : Type) := {
  decided : InstalledSlotEvidence;
  entity_id : I;
  target : InstalledEffectSource C E L
}.
Arguments Build_InstalledSlotDecision {_ _ _ _} _ _ _.
Arguments decided {_ _ _ _} _.
Arguments entity_id {_ _ _ _} _.
Arguments target {_ _ _ _} _.

Record InstalledDispatch (I C E L : Type) := {
  dispatched_id : DispatchId;
  dispatched_decision : InstalledSlotDecision I C E L
}.
Arguments Build_InstalledDispatch {_ _ _ _} _ _.
Arguments dispatched_id {_ _ _ _} _.
Arguments dispatched_decision {_ _ _ _} _.

Section data.
Context {I C E L : Type} `{Countable I}.

Record LocalDirectory := {
  shards : list (gmap I SlotRef);
  mask : N;
  directory_waiter_limit : positive;
  next_activation : N;
  next_dispatch : N;
  arena : gmap SlotRef (SlotExecution C E L)
}.
End data.
Arguments LocalDirectory I C E L {_ _}.

(** The runtime port that carries effects out: [R] is its state.  It runs without
    any lock, so it may call the directory again, and it may unwind. *)
Class EffectInterpreter (R I C E L : Type) `{Countable I} := {
  start_activation : I → ActivationId → Op (LocalDirectory I C E L * R) ();
  deliver : I → ActivationId → DispatchId → E → C → Op (LocalDirectory I C E L * R) ();
  reject_command : DispatchId → C → Refusal → Op (LocalDirectory I C E L * R) ();
  enqueue_fence : I → ActivationId → E → Op (LocalDirectory I C E L * R) ();
  retire : I → ActivationId → L → RetirementMode → Op (LocalDirectory I C E L * R) ()
}.

Section operations.
Context {I C E L : Type} `{Countable I} (clone : E → option E) (hash_one : I → N).
Local Abbreviation Dir := (LocalDirectory I C E L).
Local Abbreviation Decision := (InstalledSlotDecision I C E L).
Implicit Types (d : Dir) (k : I) (slot : SlotRef) (event : SlotEvent C E L).

Definition set_shards (s : list (gmap I SlotRef)) d : Dir :=
  {| shards := s; mask := mask d; directory_waiter_limit := directory_waiter_limit d;
     next_activation := next_activation d; next_dispatch := next_dispatch d; arena := arena d |}.
Definition set_next_activation (n : N) d : Dir :=
  {| shards := shards d; mask := mask d; directory_waiter_limit := directory_waiter_limit d;
     next_activation := n; next_dispatch := next_dispatch d; arena := arena d |}.
Definition set_next_dispatch (n : N) d : Dir :=
  {| shards := shards d; mask := mask d; directory_waiter_limit := directory_waiter_limit d;
     next_activation := next_activation d; next_dispatch := n; arena := arena d |}.
Definition set_arena (a : gmap SlotRef (SlotExecution C E L)) d : Dir :=
  {| shards := shards d; mask := mask d; directory_waiter_limit := directory_waiter_limit d;
     next_activation := next_activation d; next_dispatch := next_dispatch d; arena := a |}.

(** [with_hasher]; the [expect] on the mask is the [None]. *)
Definition with_hasher (config : DirectoryConfig) : option Dir :=
  let count := Npos (config_shards config) in
  if (u64_max <? count - 1)%N then panic!
  else Some
    {| shards := replicate (Pos.to_nat (config_shards config)) ∅;
       mask := count - 1;
       directory_waiter_limit := activation_waiters config;
       next_activation := 1; next_dispatch := 1; arena := ∅ |}.

Definition shard_index d k : nat := N.to_nat (N.land (hash_one k) (mask d)).

(** [&self.shards[self.shard_index(entity_id)]]: out of range panics. *)
Definition shard_of d k : option (gmap I SlotRef) := shards d !! shard_index d k.

(** The shard section of a lookup: the slot mapped for the entity, cloned. *)
Definition get k : Op Dir (option SlotRef) :=
  entries ← gets (λ d, shard_of d k);
  entries ← expect entries;
  mret (entries !! k).

Definition put_entry k slot d : Dir :=
  set_shards (alter <[k := slot]> (shard_index d k) (shards d)) d.
Definition remove_entry k d : Dir :=
  set_shards (alter (delete k) (shard_index d k) (shards d)) d.

(** An operation of the slot behind a reference, under its mutex. *)
Definition at_slot {A} slot (op : SlotExecution C E L → SlotExecution C E L * option A) : Op Dir A :=
  λ d,
    match arena d !! slot with
    | None => (d, None)
    | Some x => let '(x, result) := op x in (set_arena (<[slot := x]> (arena d)) d, result)
    end.

(** [Arc::new(Slot::new())]. *)
Definition new_slot : Op Dir SlotRef :=
  λ d, let slot := fresh (dom (arena d)) in
    (set_arena (<[slot := Slot_new]> (arena d)) d, Some slot).

Definition allocate_dispatch : Op Dir (option positive) :=
  λ d, let '(n, id) := allocate (next_dispatch d) in (set_next_dispatch n d, Some id).
Definition allocate_activation : Op Dir (option positive) :=
  λ d, let '(n, id) := allocate (next_activation d) in (set_next_activation n d, Some id).

Definition installed_slot_decision k (installed : InstalledSlotEvidence)
    (source : InstalledEffectSource C E L) : Decision :=
  {| decided := installed; entity_id := k; target := source |}.

(** [dispatch] once the entity is known absent, still under the shard lock. *)
Definition claim k (dispatch_id : DispatchId) (command : C) :
    Op Dir (Result (SlotRef * InstalledSlotEvidence) (DirectoryError C)) :=
  sequence ← allocate_activation;
  match sequence with
  | None => mret (Err (ActivationIdsExhausted command))
  | Some sequence =>
      let activation_id := ActivationId_new sequence in
      slot ← new_slot;
      limit ← gets directory_waiter_limit;
      installed ← at_slot slot (λ x,
        submit clone x (Event_ClaimActivation activation_id dispatch_id command limit));
      _ ← modify (put_entry k slot);
      mret (Ok (slot, installed))
  end.

Definition dispatch k (command : C) :
    Op Dir (Result (InstalledDispatch I C E L) (DirectoryError C)) :=
  sequence ← allocate_dispatch;
  match sequence with
  | None => mret (Err (DispatchIdsExhausted command))
  | Some sequence =>
      let dispatch_id := DispatchId_new sequence in
      entry ← get k;
      match entry with
      | Some slot =>
          installed ← at_slot slot (λ x, submit clone x (Event_Dispatch dispatch_id command));
          mret (Ok (Build_InstalledDispatch dispatch_id
            (installed_slot_decision k installed (Mapped slot))))
      | None =>
          claimed ← claim k dispatch_id command;
          match claimed with
          | Err error => mret (Err error)
          | Ok (slot, installed) =>
              mret (Ok (Build_InstalledDispatch dispatch_id
                (installed_slot_decision k installed (Mapped slot))))
          end
      end
  end.

(** An event for an absent entity is reduced on an inactive machine. *)
Definition submit_absent k event : option Decision :=
  decision ← EntitySlot_decide clone Slot_Inactive event;
  Some (installed_slot_decision k (installed_of decision) (Transient (into_vec (effects decision)))).

Definition submit_or_inactive k event : Op Dir Decision :=
  entry ← get k;
  match entry with
  | Some slot =>
      installed ← at_slot slot (λ x, submit clone x event);
      mret (installed_slot_decision k installed (Mapped slot))
  | None => expect (submit_absent k event)
  end.

Definition activation_succeeded k activation_id (endpoint : E) (lease : L) : Op Dir Decision :=
  submit_or_inactive k (Event_ActivationSucceeded activation_id endpoint lease).
Definition activation_failed k activation_id : Op Dir Decision :=
  submit_or_inactive k (Event_ActivationFailed activation_id).
Definition cancel_waiter k activation_id dispatch_id : Op Dir Decision :=
  submit_or_inactive k (Event_CancelWaiter activation_id dispatch_id).
Definition delivery_resolved k activation_id (failure : option (DispatchId * C)) : Op Dir Decision :=
  submit_or_inactive k (Event_DeliveryResolved activation_id failure).
Definition begin_drain k activation_id : Op Dir Decision :=
  submit_or_inactive k (Event_BeginDrain activation_id).
Definition fence_acknowledged k activation_id : Op Dir Decision :=
  submit_or_inactive k (Event_FenceAcknowledged activation_id).
Definition force_drain k activation_id (failure : DrainFailure) : Op Dir Decision :=
  submit_or_inactive k (Event_ForceDrain activation_id failure).
Definition terminated k activation_id : Op Dir Decision :=
  submit_or_inactive k (Event_Terminated activation_id).

Definition directory_len d : N := foldr (λ entries n, (N.of_nat (size entries) + n)%N) 0%N (shards d).

Definition is_empty d : bool := (directory_len d =? 0)%N.

(** [HashMap::drain] yields the entries of a shard in some order. *)
Definition take_family : Op Dir (list (I * SlotRef)) :=
  λ d, (set_shards (map (λ _, ∅) (shards d)) d, Some (shards d ≫= map_to_list)).

(** The first entry of a shard whose slot is the selected one. *)
Definition extract_slot selected (entries : gmap I SlotRef) : option I :=
  fst <$> find (λ entry, bool_decide (entry.2 = selected)) (map_to_list entries).

Fixpoint take_slot_from selected (before after : list (gmap I SlotRef)) :
    list (gmap I SlotRef) * option (I * SlotRef) :=
  match after with
  | [] => (before, None)
  | entries :: rest =>
      match extract_slot selected entries with
      | Some k => (before ++ delete k entries :: rest, Some (k, selected))
      | None => take_slot_from selected (before ++ [entries]) rest
      end
  end.

Definition take_slot selected : Op Dir (option (I * SlotRef)) :=
  λ d, let '(s, taken) := take_slot_from selected [] (shards d) in (set_shards s d, Some taken).

Definition directory_begin_retirement k (fresh : RetirementCell) :
    Op Dir (Result (Decision * RetirementCell) EntityRetirementError) :=
  entry ← get k;
  match entry with
  | None => mret (Err NotActive)
  | Some slot =>
      began ← at_slot slot (λ x, begin_retirement clone x fresh);
      match began with
      | Err error => mret (Err error)
      | Ok (installed, observation) =>
          mret (Ok (installed_slot_decision k installed (Mapped slot), observation))
      end
  end.

Definition current_activation k : Op Dir (option ActivationId) :=
  entry ← get k;
  match entry with
  | None => mret None
  | Some slot => at_slot slot (λ x, (x, activation_id x))
  end.

(** Only the entry that still names this very slot is removed. *)
Definition remove_matching k slot : Op Dir () :=
  entry ← get k;
  if bool_decide (entry = Some slot) then modify (remove_entry k) else mret ().
End operations.

(** ** Interpretation of effects *)

Section interpretation.
Context {I C E L R : Type} `{Countable I} `{!EffectInterpreter R I C E L} (hash_one : I → N).
Local Abbreviation Dir := (LocalDirectory I C E L).

Definition on_directory {A} (op : Op Dir A) : Op (Dir * R) A :=
  λ '(d, r), let '(d, result) := op d in ((d, r), result).

Definition apply_effect (k : I) (slot : option SlotRef) (effect : SlotEffect C E L) :
    Op (Dir * R) () :=
  match effect with
  | Effect_StartActivation activation_id => start_activation k activation_id
  | Effect_Deliver activation_id dispatch_id endpoint command =>
      deliver k activation_id dispatch_id endpoint command
  | Effect_Reject dispatch_id command reason => reject_command dispatch_id command reason
  | Effect_EnqueueFence activation_id endpoint => enqueue_fence k activation_id endpoint
  | Effect_Retire activation_id lease retirement => retire k activation_id lease retirement
  | Effect_Remove _ =>
      match slot with
      | Some slot => on_directory (remove_matching hash_one k slot)
      | None => mret ()
      end
  end.

(** The slot that a decision shares with the directory. *)
Definition slot_in (slot : SlotRef) (s : Dir * R) : SlotExecution C E L :=
  default Slot_new (arena s.1 !! slot).
Definition put_in (slot : SlotRef) x (s : Dir * R) : Dir * R :=
  (set_arena (<[slot := x]> (arena s.1)) s.1, s.2).

(** [fuel] is that of [dispatch_pending], and running out of it is the outer
    [None]. *)
Definition interpret (fuel : nat) (decision : InstalledSlotDecision I C E L) (s : Dir * R) :
    option ((Dir * R) * option ()) :=
  let k := entity_id decision in
  match target decision with
  | Mapped slot =>
      match arena s.1 !! slot with
      | None => Some (s, None)
      | Some _ => dispatch_pending (slot_in slot) (put_in slot) fuel (apply_effect k (Some slot)) s
      end
  | Transient batch =>
      Some (fold_left (λ (done : Op (Dir * R) ()) effect, _ ← done; apply_effect k None effect)
              batch (mret ()) s)
  end.
End interpretation.

(** ** Threads around the directory *)

Section threads.
Context {I C E L : Type} `{Countable I} (clone : E → option E) (hash_one : I → N).
Local Abbreviation Dir := (LocalDirectory I C E L).
Implicit Types (x : SlotExecution C E L) (slot : SlotRef) (k : I).

(** What a thread may do with a slot it holds: every operation but a claim,
    which only [claim] performs. *)
Inductive slot_op : (SlotExecution C E L → SlotExecution C E L) → Prop :=
  | op_submit event : ¬ is_claim event → slot_op (λ x, (submit clone x event).1)
  | op_begin_retirement fresh : slot_op (λ x, (begin_retirement clone x fresh).1)
  | op_complete_retirement mode : slot_op (λ x, (complete_retirement x mode).1)
  | op_close_family : slot_op (λ x, (slot_close_family x).1)
  | op_acquire : slot_op (λ x, (acquire x).1)
  | op_drop held : slot_op (λ x, drop_dispatch x held).

(** The directory; ghosts: the effects popped by a dispatcher and not applied
    yet, with the entity of its decision; what each slot was claimed for; the
    slots handed out by [take_slot] and [take_family]. *)
Record World := {
  directory : Dir;
  in_hand : list (I * SlotRef * SlotEffect C E L);
  claims : gmap SlotRef (I * ActivationId);
  taken : gset SlotRef
}.

Definition with_directory (w : World) (d : Dir) : World :=
  {| directory := d; in_hand := in_hand w; claims := claims w; taken := taken w |}.

Definition update_slot (f : SlotExecution C E L → SlotExecution C E L) slot (d : Dir) : Dir :=
  set_arena (alter f slot (arena d)) d.

(** One critical section of one thread. *)
Inductive world_step : World → World → Prop :=
  | world_allocate_dispatch w :
      world_step w (with_directory w (allocate_dispatch (directory w)).1)
  | world_claim w k dispatch_id command d slot installed sequence :
      get hash_one k (directory w) = (directory w, Some None) →
      (allocate (next_activation (directory w))).2 = Some sequence →
      claim clone hash_one k dispatch_id command (directory w) = (d, Some (Ok (slot, installed))) →
      world_step w {| directory := d; in_hand := in_hand w;
        claims := <[slot := (k, ActivationId_new sequence)]> (claims w); taken := taken w |}
  | world_claim_exhausted w k dispatch_id command d error :
      claim clone hash_one k dispatch_id command (directory w) = (d, Some (Err error)) →
      world_step w (with_directory w d)
  | world_slot w slot f :
      slot_op f → world_step w (with_directory w (update_slot f slot (directory w)))
  | world_next w k slot x effect :
      arena (directory w) !! slot = Some x → (next x).2 = Some effect →
      world_step w {| directory := update_slot (λ x, (next x).1) slot (directory w);
        in_hand := (k, slot, effect) :: in_hand w; claims := claims w; taken := taken w |}
  | world_next_done w slot :
      world_step w (with_directory w
        (update_slot (λ x, match (next x).2 with None => (next x).1 | Some _ => x end) slot
           (directory w)))
  | world_apply w before k slot effect after d :
      in_hand w = before ++ (k, slot, effect) :: after →
      (match effect with
       | Effect_Remove _ => remove_matching hash_one k slot (directory w) = (d, Some ())
       | _ => d = directory w
       end) →
      world_step w {| directory := d; in_hand := before ++ after; claims := claims w;
        taken := taken w |}
  | world_take_slot w selected :
      world_step w {| directory := (take_slot selected (directory w)).1; in_hand := in_hand w;
        claims := claims w;
        taken := match (take_slot selected (directory w)).2 with
                 | Some (Some (_, slot)) => {[slot]} ∪ taken w
                 | _ => taken w
                 end |}
  | world_take_family w :
      world_step w {| directory := (take_family (directory w)).1; in_hand := in_hand w;
        claims := claims w;
        taken := list_to_set (default [] (take_family (directory w)).2).*2 ∪ taken w |}.

Definition world_of (d : Dir) : World :=
  {| directory := d; in_hand := []; claims := ∅; taken := ∅ |}.

Definition world_reachable (config : DirectoryConfig) (w : World) : Prop :=
  ∃ d, with_hasher config = Some d ∧ rtc world_step (world_of d) w.

(** A slot that holds or may still hold an incarnation. *)
Definition live (w : World) slot : Prop :=
  ∃ x, arena (directory w) !! slot = Some x ∧ slot_state x ≠ SlotState_Ready Slot_Inactive.
End threads.
Arguments World I C E L {_ _}.

(** ** The flat map a sharded directory stands for *)

Section flat.
Context {I C E L : Type} `{Countable I} (hash_one : I → N).
Local Abbreviation Dir := (LocalDirectory I C E L).
Implicit Types (d : Dir) (k : I) (slot : SlotRef).

Definition entries d : gmap I SlotRef := foldr (∪) ∅ (shards d).

(** Every hash indexes a shard, and an entry sits in the shard of its hash. *)
Record directory_wf d : Prop := {
  wf_index : ∀ h, (N.to_nat (N.land h (mask d)) < length (shards d))%nat;
  wf_placed : ∀ i m k slot,
    shards d !! i = Some m → m !! k = Some slot → shard_index hash_one d k = i
}.

Lemma foldr_union_None (s : list (gmap I SlotRef)) k :
  (∀ j m, s !! j = Some m → m !! k = None) → foldr (∪) (∅ : gmap I SlotRef) s !! k = None.
Proof.
  induction s as [|m s IH]; intros Hs; simpl; [apply lookup_empty|].
  apply lookup_union_None. split; [by apply (Hs 0%nat)|]. apply IH. intros j. apply (Hs (S j)).
Qed.

(** A key that only one shard can hold is looked up there. *)
Lemma foldr_union_lookup (s : list (gmap I SlotRef)) k i :
  (∀ j m, s !! j = Some m → j ≠ i → m !! k = None) →
  foldr (∪) (∅ : gmap I SlotRef) s !! k = s !! i ≫= (.!! k).
Proof.
  revert i. induction s as [|m s IH]; intros i Hs; simpl.
  - rewrite lookup_empty. by destruct i.
  - destruct i as [|i]; simpl.
    + rewrite lookup_union_l; [done|]. apply foldr_union_None. intros j m' Hj.
      by apply (Hs (S j)).
    + rewrite lookup_union_r; [|by apply (Hs 0%nat)]. apply IH. intros j m' Hj Hne.
      apply (Hs (S j)); [done|lia].
Qed.

Lemma entries_lookup d k :
  directory_wf d → entries d !! k = shard_of hash_one d k ≫= (.!! k).
Proof.
  intros [_ Hp]. apply foldr_union_lookup. intros j m Hj Hne.
  destruct (m !! k) as [slot|] eqn:Hk; [|done]. by rewrite (Hp _ _ _ _ Hj Hk) in Hne.
Qed.

Lemma shard_in_range d k : directory_wf d → is_Some (shard_of hash_one d k).
Proof. intros [Hi _]. apply lookup_lt_is_Some. apply Hi. Qed.

(** A lookup in the shard of the hash is a lookup in the flat map. *)
Lemma get_entries d k : directory_wf d → get hash_one k d = (d, Some (entries d !! k)).
Proof.
  intros Hwf. rewrite (entries_lookup _ _ Hwf).
  destruct (shard_in_range d k Hwf) as [m Hm]. unfold get, gets, expect, mret, mbind, Op_bind, Op_ret.
  by rewrite Hm.
Qed.

(** Updating one shard at the hash of a key, by a function that keeps the
    other keys, keeps the directory well placed. *)
Lemma alter_shard_wf d k (f : gmap I SlotRef → gmap I SlotRef) :
  directory_wf d → (∀ m k', k' ≠ k → f m !! k' = m !! k') →
  directory_wf (set_shards (alter f (shard_index hash_one d k) (shards d)) d).
Proof.
  intros [Hi Hp] Hf. split; simpl.
  - intros h. rewrite length_alter. apply Hi.
  - intros i m k' slot Hm Hk'. unfold shard_index in *. simpl.
    destruct (decide (k' = k)) as [->|Hne]; rewrite list_lookup_alter in Hm.
    + case_decide; [done|]. exact (Hp _ _ _ _ Hm Hk').
    + case_decide; [|exact (Hp _ _ _ _ Hm Hk')]. apply fmap_Some in Hm as (m' & Hm & ->).
      rewrite Hf in Hk' by done. subst i. exact (Hp _ _ _ _ Hm Hk').
Qed.

Lemma alter_shard_entries d k (f : gmap I SlotRef → gmap I SlotRef) k' :
  directory_wf d → (∀ m k', k' ≠ k → f m !! k' = m !! k') →
  entries (set_shards (alter f (shard_index hash_one d k) (shards d)) d) !! k' =
    if decide (k' = k) then shard_of hash_one d k ≫= λ m, f m !! k else entries d !! k'.
Proof.
  intros Hwf Hf. rewrite entries_lookup by (by apply alter_shard_wf). rewrite entries_lookup by done.
  unfold shard_of, shard_index. simpl. rewrite list_lookup_alter.
  destruct (decide (k' = k)) as [->|Hk].
  - rewrite decide_True by done. by destruct (shards d !! _).
  - case_decide as Hi; [|done]. rewrite Hi. destruct (shards d !! _); simpl; [by apply Hf|done].
Qed.

Lemma put_entry_wf d k slot : directory_wf d → directory_wf (put_entry hash_one k slot d).
Proof. intros Hwf. apply alter_shard_wf; [done|]. intros. by apply lookup_insert_ne. Qed.

Lemma put_entry_entries d k slot :
  directory_wf d → entries (put_entry hash_one k slot d) = <[k := slot]> (entries d).
Proof.
  intros Hwf. apply map_eq. intros k'. unfold put_entry. rewrite alter_shard_entries;
    [|done|intros; by apply lookup_insert_ne].
  destruct (shard_in_range d k Hwf) as [m ->]. simpl. case_decide; simplify_map_eq; done.
Qed.

Lemma remove_entry_wf d k : directory_wf d → directory_wf (remove_entry hash_one k d).
Proof. intros Hwf. apply alter_shard_wf; [done|]. intros. by apply lookup_delete_ne. Qed.

Lemma remove_entry_entries d k :
  directory_wf d → entries (remove_entry hash_one k d) = delete k (entries d).
Proof.
  intros Hwf. apply map_eq. intros k'. unfold remove_entry. rewrite alter_shard_entries;
    [|done|intros; by apply lookup_delete_ne].
  destruct (shard_in_range d k Hwf) as [m ->]. simpl. case_decide; simplify_map_eq; done.
Qed.

Lemma remove_matching_spec d k slot :
  directory_wf d →
  remove_matching hash_one k slot d =
    (if decide (entries d !! k = Some slot) then remove_entry hash_one k d else d, Some ()).
Proof.
  intros Hwf. unfold remove_matching, mbind, Op_bind. rewrite get_entries by done.
  by destruct (decide _); [rewrite bool_decide_true by done|rewrite bool_decide_false by done].
Qed.

Lemma map_to_list_disjoint_union (m1 m2 : gmap I SlotRef) :
  m1 ##ₘ m2 → map_to_list (m1 ∪ m2) ≡ₚ map_to_list m1 ++ map_to_list m2.
Proof.
  intros Hdisj. apply NoDup_Permutation.
  - apply NoDup_map_to_list.
  - apply NoDup_app. split_and!; [apply NoDup_map_to_list| |apply NoDup_map_to_list].
    intros [k slot] H1%elem_of_map_to_list H2%elem_of_map_to_list.
    by eapply map_disjoint_spec.
  - intros [k slot]. rewrite elem_of_app, !elem_of_map_to_list. by apply lookup_union_Some.
Qed.

Lemma shards_permutation (s : list (gmap I SlotRef)) :
  (∀ i j m m' k, s !! i = Some m → s !! j = Some m' →
     is_Some (m !! k) → is_Some (m' !! k) → i = j) →
  s ≫= map_to_list ≡ₚ map_to_list (foldr (∪) (∅ : gmap I SlotRef) s).
Proof.
  induction s as [|m s IH]; intros Hs; csimpl; [by rewrite map_to_list_empty|].
  rewrite map_to_list_disjoint_union.
  - f_equiv. apply IH. intros i j m1 m2 k H1 H2 Hk1 Hk2.
    enough (S i = S j) by lia. by eapply (Hs (S i) (S j)).
  - apply map_disjoint_spec. intros k x y Hx Hy.
    rewrite foldr_union_None in Hy; [done|]. intros j m' Hj.
    destruct (m' !! k) eqn:Hk; [|done].
    assert (0%nat = S j) as [=] by (eapply (Hs 0%nat (S j)); simpl; eauto).
Qed.

Lemma entries_permutation d :
  directory_wf d → shards d ≫= map_to_list ≡ₚ map_to_list (entries d).
Proof.
  intros [_ Hp]. apply shards_permutation. intros i j m m' k Hi Hj [x Hx] [y Hy].
  by rewrite <- (Hp _ _ _ _ Hi Hx), <- (Hp _ _ _ _ Hj Hy).
Qed.

Lemma directory_len_entries d : directory_wf d → directory_len d = N.of_nat (size (entries d)).
Proof.
  intros Hwf. rewrite <- (length_map_to_list (entries d)), <- (entries_permutation d Hwf).
  unfold directory_len. induction (shards d) as [|m s IH]; csimpl; [done|].
  rewrite IH, length_app, length_map_to_list. lia.
Qed.

Lemma extract_slot_spec selected (m : gmap I SlotRef) :
  match extract_slot selected m with
  | Some k => m !! k = Some selected
  | None => ∀ k, m !! k ≠ Some selected
  end.
Proof.
  unfold extract_slot. destruct (find _ _) as [[k slot]|] eqn:Hf; simpl.
  - apply find_some in Hf as [Hin Hb%bool_decide_eq_true]. simpl in Hb. subst slot.
    by apply elem_of_map_to_list, list_elem_of_In.
  - intros k Hk. apply elem_of_map_to_list, list_elem_of_In in Hk.
    apply (find_none _ _ Hf) in Hk. by rewrite bool_decide_true in Hk.
Qed.

Lemma take_slot_from_spec selected before after :
  match take_slot_from selected before after with
  | (s, None) => s = before ++ after ∧ ∀ m k, m ∈ after → m !! k ≠ Some selected
  | (s, Some (k, slot)) => slot = selected ∧ ∃ pre (m : gmap I SlotRef) post,
      after = pre ++ m :: post ∧ m !! k = Some selected ∧ s = before ++ pre ++ delete k m :: post
  end.
Proof.
  revert before. induction after as [|m after IH]; intros before; simpl.
  - rewrite app_nil_r. split; [done|]. intros m k Hm. by apply not_elem_of_nil in Hm.
  - pose proof (extract_slot_spec selected m) as Hx. destruct (extract_slot selected m) as [k|].
    + split; [done|]. by exists [], m, after.
    + specialize (IH (before ++ [m])). destruct (take_slot_from _ _ _) as [s [[k slot]|]].
      * destruct IH as (-> & pre & m' & post & -> & Hk & ->). split; [done|].
        exists (m :: pre), m', post. split_and!; [done..|by rewrite <- app_assoc].
      * destruct IH as [-> Hn]. split; [by rewrite <- app_assoc|].
        intros m' k [->|Hin]%elem_of_cons; [apply Hx|by apply Hn].
Qed.

(** [take_slot] removes the entry of the selected slot, if it has one. *)
Lemma take_slot_spec d selected :
  directory_wf d →
  match take_slot selected d with
  | (d', Some (Some (k, slot))) =>
      slot = selected ∧ entries d !! k = Some selected ∧ d' = remove_entry hash_one k d
  | (d', Some None) => d' = d ∧ ∀ k, entries d !! k ≠ Some selected
  | (_, None) => False
  end.
Proof.
  intros Hwf. unfold take_slot. pose proof (take_slot_from_spec selected [] (shards d)) as Ht.
  destruct (take_slot_from _ _ _) as [s [[k slot]|]]; simpl in *.
  - destruct Ht as (-> & pre & m & post & Hs & Hk & ->).
    assert (shards d !! length pre = Some m) as Hl by (rewrite Hs; by apply list_lookup_middle).
    pose proof (wf_placed d Hwf _ _ _ _ Hl Hk) as Hidx. split_and!; [done| |].
    + rewrite entries_lookup by done. unfold shard_of. by rewrite Hidx, Hl.
    + unfold remove_entry. rewrite Hidx, Hs. f_equal.
      rewrite <- (Nat.add_0_r (length pre)), alter_app_r. done.
  - destruct Ht as [-> Hn]. split; [by destruct d|]. intros k Hk.
    rewrite entries_lookup in Hk by done. unfold shard_of in Hk.
    destruct (shards d !! _) as [m|] eqn:Hm; simpl in Hk; [|done].
    eapply (Hn m k); [by eapply list_elem_of_lookup_2|done].
Qed.

Lemma take_slot_arena d selected : arena (take_slot selected d).1 = arena d.
Proof. unfold take_slot. by destruct (take_slot_from _ _ _). Qed.

Lemma take_family_wf d : directory_wf d → directory_wf (take_family d).1.
Proof.
  intros [Hi Hp]. split; simpl.
  - intros h. rewrite length_map. apply Hi.
  - intros i m k slot Hm Hk. rewrite list_lookup_fmap in Hm. apply fmap_Some in Hm as (? & _ & ->).
    by rewrite lookup_empty in Hk.
Qed.

Lemma take_family_entries d : entries (take_family d).1 = ∅.
Proof. unfold entries. simpl. induction (shards d); simpl; [done|]. rewrite IHl. apply (left_id_L ∅ (∪)). Qed.
End flat.

(** ** What the directory relies on in the machine of a slot *)

Section machine.
Context {C E L : Type} (clone : E → option E).
Implicit Types (x : SlotExecution C E L) (machine : EntitySlot C E L) (event : SlotEvent C E L).

Lemma decide_remove_inactive machine event d b :
  EntitySlot_decide clone machine event = Some d →
  Effect_Remove b ∈ into_vec (effects d) → state d = Slot_Inactive.
Proof.
  intros H Hin. destruct machine, event; transition_cases H; try done;
    autorewrite with bombay_batch in Hin; simpl in Hin; exfalso;
    rewrite ?elem_of_app, ?elem_of_cons, ?elem_of_nil in Hin; try naive_solver.
  match goal with H : mapM _ _ = Some _ |- _ => apply delivers_spec in H; rename H into Hf end.
  eapply Forall2_length in Hf as Hlen. apply list_elem_of_lookup in Hin as [i Hi].
  destruct (Forall2_lookup_r _ _ _ _ _ Hf Hi) as (w & _ & copy & _ & ?). done.
Qed.

Lemma decide_identity machine event d :
  EntitySlot_decide clone machine event = Some d → ¬ is_claim event →
  slot_activation_id (state d) = slot_activation_id machine ∨ state d = Slot_Inactive.
Proof.
  intros H Hclaim. destruct machine, event; transition_cases H; auto; naive_solver.
Qed.

Lemma decide_inactive_stays event :
  ¬ is_claim event →
  ∃ d, EntitySlot_decide clone Slot_Inactive event = Some d ∧ state d = Slot_Inactive ∧
    ∀ b, Effect_Remove b ∉ into_vec (effects d).
Proof.
  intros Hclaim. eexists. split; [reflexivity|].
  destruct event as [| | | | |a [[]|]| | | |]; simpl; try (by destruct Hclaim);
    (split; [done|]); intros b; rewrite ?list_elem_of_singleton, ?elem_of_nil; try naive_solver.
Qed.

Lemma no_identity machine : slot_activation_id machine = None → machine = Slot_Inactive.
Proof. by destruct machine. Qed.

Lemma close_family_identity machine :
  let '(machine', batch, _) := close_family machine in
  (slot_activation_id machine' = slot_activation_id machine ∨ machine' = Slot_Inactive) ∧
  ∀ b, Effect_Remove b ∈ into_vec batch → machine' = Slot_Inactive.
Proof.
  destruct machine; simpl; try (split; [by auto|]); try done; set_solver.
Qed.

Definition terminal x : Prop := slot_state x = SlotState_Ready Slot_Inactive.

(** The machine is in the incarnation it was claimed for, or past it; an
    order to remove the slot is only queued once it is terminal. *)
Record slot_ok (a : ActivationId) x : Prop := {
  ok_identity : ∀ machine, slot_state x = SlotState_Ready machine →
    slot_activation_id machine = Some a ∨ machine = Slot_Inactive;
  ok_remove : ∀ b, Effect_Remove b ∈ pending x → terminal x
}.

Lemma submit_ok a x event :
  ¬ is_claim event → slot_ok a x → slot_ok a (submit clone x event).1.
Proof.
  intros Hclaim [Hid Hrm]. pose proof (submit_spec clone x event) as Hs. unfold terminal in *.
  destruct (slot_state x) as [machine|] eqn:Hx; [|rewrite Hs; split; simpl; [congruence|intros b Hb; by apply Hrm in Hb]].
  destruct (EntitySlot_decide clone machine event) as [d|] eqn:Hd; rewrite Hs; simpl.
  - split; simpl.
    + intros m [= <-]. destruct (decide_identity _ _ _ Hd Hclaim) as [Heq|Heq]; [|by right].
      destruct (Hid _ eq_refl) as [Hm| ->]; [left; congruence|].
      right. destruct (decide_inactive_stays event Hclaim) as (? & ? & ? & _). congruence.
    + intros b [Hin|Hin]%elem_of_app; unfold terminal; simpl; f_equal.
      * apply Hrm in Hin as [= ->].
        destruct (decide_inactive_stays event Hclaim) as (? & ? & ? & _). congruence.
      * by eapply decide_remove_inactive.
  - split; simpl; [done|]. intros b Hin. apply Hrm in Hin as [= ->].
    destruct (decide_inactive_stays event Hclaim) as (? & ? & ? & _). congruence.
Qed.

Lemma submit_terminal x event :
  ¬ is_claim event → terminal x → terminal (submit clone x event).1.
Proof.
  unfold terminal. intros Hclaim Hx. pose proof (submit_spec clone x event) as Hs. rewrite Hx in Hs.
  destruct (decide_inactive_stays event Hclaim) as (d & Hd & Hst & _). rewrite Hd in Hs.
  rewrite Hs. simpl. by rewrite Hst.
Qed.

Lemma slot_op_ok a f x : slot_op clone f → slot_ok a x → slot_ok a (f x).
Proof.
  intros Hop Hok. destruct Hop as [event Hclaim|fresh|mode| | |held].
  - by apply submit_ok.
  - rewrite begin_retirement_spec. destruct (slot_state x) as [[]|]; simpl; try done.
    all: case_match eqn:Hsub; simpl; apply (f_equal fst) in Hsub; simpl in Hsub; subst;
      apply submit_ok; [naive_solver|]; destruct Hok; split; done.
  - destruct Hok; split; done.
  - unfold slot_close_family. destruct (slot_state x) as [machine|] eqn:Hx.
    + pose proof (close_family_identity machine) as Hc.
      destruct (close_family machine) as [[m batch] retired]. simpl.
      destruct Hok as [Hid Hrm], Hc as [Hm Hb]. unfold terminal in *. rewrite Hx in *.
      rewrite for_each_push_back. split; simpl.
      * intros ? [= <-]. destruct (Hid _ eq_refl) as [Ha| ->]; [naive_solver congruence|].
        right. destruct Hm as [Hm%no_identity|]; done.
      * unfold terminal. simpl. intros b [Hin|Hin]%elem_of_app; f_equal; [|by eapply Hb].
        apply Hrm in Hin as [= ->]. destruct Hm as [Hm%no_identity|]; done.
    + simpl. destruct Hok as [Hid Hrm]. split; simpl; [done|].
      intros b Hin. apply Hrm in Hin. unfold terminal in Hin. congruence.
  - unfold acquire. destruct (DirectorySlot.dispatch x); [|done]. destruct Hok; split; done.
  - destruct held; [|done]. destruct Hok; split; done.
Qed.

Lemma slot_op_terminal f x : slot_op clone f → terminal x → terminal (f x).
Proof.
  intros Hop Hx. destruct Hop as [event Hclaim|fresh|mode| | |held].
  - by apply submit_terminal.
  - rewrite begin_retirement_spec. unfold terminal in *. by rewrite Hx.
  - done.
  - unfold slot_close_family, terminal in *. rewrite Hx. simpl. done.
  - unfold acquire. by destruct (DirectorySlot.dispatch x).
  - by destruct held.
Qed.

(** A claimed slot: the machine activates the incarnation it is born with. *)
Lemma claimed_slot_ok a dispatch_id (command : C) limit :
  submit (L := L) clone Slot_new (Event_ClaimActivation a dispatch_id command limit) =
    (set_pending [Effect_StartActivation a]
      (set_slot_state (SlotState_Ready
         (Slot_Activating (Build_ActivatingSlot a [Build_ActivationWaiter dispatch_id command] limit)))
         Slot_new),
     Some {| installed_evidence := Traversed Edge_ClaimActivation;
             installed_phase := Phase_Activating; installed_activation_id := Some a |}).
Proof. done. Qed.
End machine.

(** ** The invariant of the threads around the directory *)

Section world_lemmas.
Context {I C E L : Type} `{Countable I} (clone : E → option E) (hash_one : I → N).
Local Abbreviation Dir := (LocalDirectory I C E L).
Implicit Types (d : Dir) (k : I) (slot : SlotRef) (w : World I C E L).

Lemma allocate_spec n m id :
  allocate n = (m, id) →
  (m = n + 1 ∧ n < u64_max ∧ id = nonzero n)%N ∨ (m = n ∧ id = None ∧ (u64_max ≤ n)%N).
Proof.
  unfold allocate. destruct (checked_add u64_max n 1) as [k|] eqn:Hadd; intros [= <- <-].
  - apply checked_add_Some in Hadd as [-> ?]. left. split_and!; [done|lia|done].
  - apply checked_add_None in Hadd. right. split_and!; [done..|lia].
Qed.

(** A claim of an absent entity, on every branch. *)
Lemma claim_spec k dispatch_id (command : C) d :
  claim clone hash_one k dispatch_id command d =
  let '(n, sequence) := allocate (next_activation d) in
  match sequence with
  | None => (set_next_activation n d, Some (Err (ActivationIdsExhausted command)))
  | Some sequence =>
      let a := ActivationId_new sequence in
      let slot := fresh (dom (arena d)) in
      let '(x, installed) := submit clone Slot_new
        (Event_ClaimActivation a dispatch_id command (directory_waiter_limit d)) in
      (put_entry hash_one k slot
         (set_arena (<[slot := x]> (arena d)) (set_next_activation n d)),
       (λ i, Ok (slot, i)) <$> installed)
  end.
Proof.
  unfold claim, allocate_activation, mbind, Op_bind.
  destruct (allocate (next_activation d)) as [n [sequence|]]; [|done].
  unfold new_slot, gets, modify, at_slot, mret, Op_ret. simpl.
  rewrite lookup_insert_eq. simpl. unfold put_entry, set_arena. simpl. by rewrite insert_insert_eq.
Qed.

(** A dispatch, on every branch up to the slot's own operation. *)
Lemma dispatch_spec k (command : C) d :
  directory_wf hash_one d →
  dispatch clone hash_one k command d =
  let '(n, sequence) := allocate (next_dispatch d) in
  match sequence with
  | None => (set_next_dispatch n d, Some (Err (DispatchIdsExhausted command)))
  | Some sequence =>
      let id := DispatchId_new sequence in
      let dispatched slot installed :=
        Build_InstalledDispatch id (installed_slot_decision k installed (Mapped slot)) in
      match entries d !! k with
      | Some slot =>
          let '(d', installed) := at_slot slot (λ x, submit clone x (Event_Dispatch id command))
            (set_next_dispatch n d) in
          (d', Ok ∘ dispatched slot <$> installed)
      | None =>
          let '(d', claimed) := claim clone hash_one k id command (set_next_dispatch n d) in
          (d', (λ c, match c with Ok (slot, i) => Ok (dispatched slot i) | Err e => Err e end)
                 <$> claimed)
      end
  end.
Proof.
  intros Hwf. unfold dispatch, allocate_dispatch, mbind, Op_bind.
  destruct (allocate (next_dispatch d)) as [n [s|]]; [|done].
  assert (directory_wf hash_one (set_next_dispatch n d)) as Hwf' by (by destruct Hwf).
  rewrite get_entries by done. change (entries (set_next_dispatch n d)) with (entries d).
  destruct (entries d !! k) as [slot|].
  - by destruct (at_slot _ _ _) as [d' [i|]].
  - by destruct (claim _ _ _ _ _ _) as [d' [[[slot i]|e]|]].
Qed.

(** A fresh reference is not in the arena. *)
Lemma fresh_slot d : arena d !! fresh (dom (arena d)) = None.
Proof. apply not_elem_of_dom, is_fresh. Qed.

Record world_inv w : Prop := {
  inv_wf : directory_wf hash_one (directory w);
  (** the map only names claimed slots *)
  inv_mapped : ∀ k slot, entries (directory w) !! k = Some slot →
    ∃ a, claims w !! slot = Some (k, a);
  (** every slot was claimed, and is terminal once neither mapped nor taken *)
  inv_claimed : ∀ slot x, arena (directory w) !! slot = Some x →
    ∃ k a, claims w !! slot = Some (k, a) ∧ slot_ok a x ∧
      (terminal x ∨ entries (directory w) !! k = Some slot ∨ slot ∈ taken w);
  inv_arena : ∀ slot, is_Some (claims w !! slot) → is_Some (arena (directory w) !! slot);
  (** no incarnation is claimed twice *)
  inv_identity : ∀ slot1 slot2 k1 k2 a,
    claims w !! slot1 = Some (k1, a) → claims w !! slot2 = Some (k2, a) → slot1 = slot2;
  inv_next : ∀ slot k a, claims w !! slot = Some (k, a) →
    (Npos (ActivationId_get a) < next_activation (directory w))%N;
  (** the order to remove a slot is in hand only once it is terminal *)
  inv_in_hand : ∀ k slot b, (k, slot, Effect_Remove b) ∈ in_hand w →
    ∃ x, arena (directory w) !! slot = Some x ∧ terminal x
}.

(** A change of one slot that keeps what the invariant says of it. *)
Lemma update_slot_inv w slot f hand :
  world_inv w →
  (∀ a x, slot_ok a x → slot_ok a (f x)) → (∀ x, terminal x → terminal (f x)) →
  (∀ k s b, (k, s, Effect_Remove b) ∈ hand →
     (k, s, Effect_Remove b) ∈ in_hand w ∨
     ∃ x, arena (directory w) !! s = Some x ∧ terminal x) →
  world_inv {| directory := update_slot f slot (directory w); in_hand := hand;
    claims := claims w; taken := taken w |}.
Proof.
  intros [Hwf Hmap Hcl Har Hid Hnx Hh] Hok Hterm Hhand.
  assert (∀ s x, arena (directory w) !! s = Some x → terminal x →
    ∃ x', arena (update_slot f slot (directory w)) !! s = Some x' ∧ terminal x') as Hkeep.
  { intros s x Hs Ht. simpl. rewrite lookup_alter. case_decide; subst; rewrite Hs; simpl;
      eexists; split; auto. }
  split; simpl.
  - destruct Hwf as [H1 H2]. by split.
  - exact Hmap.
  - intros s x Hs. rewrite lookup_alter in Hs. case_decide as Heq.
    + apply fmap_Some in Hs as (y & Hs & ->). subst s.
      destruct (Hcl _ _ Hs) as (k & a & Hk & Hsl & Hor). exists k, a.
      split_and!; [done|by apply Hok|]. destruct Hor; [left; by apply Hterm|by right].
    + by apply Hcl.
  - intros s Hs. rewrite lookup_alter. destruct (Har _ Hs) as [x Hx].
    case_decide; subst; by rewrite Hx.
  - exact Hid.
  - exact Hnx.
  - intros k s b [Hin|(x & Hx & Ht)]%Hhand; [|by eapply Hkeep].
    destruct (Hh _ _ _ Hin) as (x & Hx & Ht). by eapply Hkeep.
Qed.

(** A change of the counters alone. *)
Lemma same_entries_inv w d :
  world_inv w → shards d = shards (directory w) → mask d = mask (directory w) →
  arena d = arena (directory w) → (next_activation (directory w) ≤ next_activation d)%N →
  world_inv (with_directory w d).
Proof.
  intros [[Hwf1 Hwf2] Hmap Hcl Har Hid Hnx Hh] Hs Hm Ha Hn.
  assert (entries d = entries (directory w)) as He by (unfold entries; by rewrite Hs).
  split; simpl; rewrite ?He, ?Ha; try done.
  - split; [by rewrite Hs, Hm|]. unfold shard_index in *. by rewrite Hs, Hm.
  - intros slot k a Hc. apply Hnx in Hc. lia.
Qed.

Lemma claim_inv w k dispatch_id (command : C) d slot installed sequence :
  world_inv w →
  get hash_one k (directory w) = (directory w, Some None) →
  (allocate (next_activation (directory w))).2 = Some sequence →
  claim clone hash_one k dispatch_id command (directory w) = (d, Some (Ok (slot, installed))) →
  world_inv {| directory := d; in_hand := in_hand w;
    claims := <[slot := (k, ActivationId_new sequence)]> (claims w); taken := taken w |}.
Proof.
  intros [Hwf Hmap Hcl Har Hid Hnx Hh] Hget Hseq Hclaim.
  rewrite get_entries in Hget by done. injection Hget as Habsent.
  rewrite claim_spec in Hclaim.
  destruct (allocate (next_activation (directory w))) as [n s] eqn:Halloc. simpl in Hseq. subst s.
  pose proof (allocate_spec _ _ _ Halloc) as [(-> & Hlt & Hs)|(_ & [=] & _)].
  symmetry in Hs. apply nonzero_Some in Hs.
  cbv zeta in Hclaim. rewrite claimed_slot_ok in Hclaim.
  set (a := ActivationId_new sequence) in *. set (fs := fresh (dom (arena (directory w)))) in *.
  injection Hclaim as <- <- <-.
  set (x := set_pending _ _). set (d' := set_arena _ _).
  assert (directory_wf hash_one d') as Hwf' by (by destruct Hwf).
  assert (entries d' = entries (directory w)) as He by done.
  assert (arena (directory w) !! fs = None) as Hfresh by apply fresh_slot.
  assert (claims w !! fs = None) as Hnc.
  { apply eq_None_not_Some. intros Hc%Har. rewrite Hfresh in Hc. by destruct Hc. }
  split; cbn [directory in_hand claims taken].
  - by apply put_entry_wf.
  - rewrite put_entry_entries by done. rewrite He. intros k' slot [[<- <-]|[Hne Hk]]%lookup_insert_Some.
    + exists a. by rewrite lookup_insert_eq.
    + destruct (Hmap _ _ Hk) as [b Hb]. exists b. rewrite lookup_insert_ne; [done|congruence].
  - rewrite put_entry_entries by done. rewrite He. simpl.
    intros slot y [[<- <-]|[Hne Hy]]%lookup_insert_Some.
    + exists k, a. rewrite !lookup_insert_eq. split_and!; [done| |by right; left].
      split; simpl; [intros m [= <-]; by left|]. set_solver.
    + destruct (Hcl _ _ Hy) as (k' & b & Hc & Hok & Hor). exists k', b.
      rewrite lookup_insert_ne by congruence. split_and!; [done..|].
      destruct Hor as [?|[Hk|?]]; [by left| |by right; right]. right; left.
      rewrite lookup_insert_ne; [done|congruence].
  - intros slot [[k' b] [[<- _]|[Hne Hc]]%lookup_insert_Some]; simpl.
    + rewrite lookup_insert_eq. eauto.
    + rewrite lookup_insert_ne by done. apply Har. eauto.
  - intros s1 s2 k1 k2 b H1 H2. apply lookup_insert_Some in H1, H2.
    assert (∀ s' k', claims w !! s' = Some (k', a) → False) as Hfa.
    { intros s' k' Hc. apply Hnx in Hc. simpl in Hc. lia. }
    destruct H1 as [[<- [= <- <-]]|[? H1]], H2 as [[<- [= <-]]|[? H2]]; try done;
      [naive_solver..|]. by eapply Hid.
  - intros slot k' b [[<- [= <- <-]]|[Hne Hc]]%lookup_insert_Some; simpl; [lia|].
    apply Hnx in Hc. lia.
  - intros k' slot b Hin. destruct (Hh _ _ _ Hin) as (y & Hy & Ht). exists y. split; [|done].
    simpl. rewrite lookup_insert_ne; [done|congruence].
Qed.

Lemma next_ok (a : ActivationId) (x : SlotExecution C E L) : slot_ok a x → slot_ok a (next x).1.
Proof.
  intros [Hid Hrm]. unfold next. destruct (pending x) as [|e q] eqn:Hq; split; simpl; try done.
  - rewrite Hq. intros b. apply Hrm.
  - intros b Hin. apply (Hrm b). by right.
Qed.

Lemma next_terminal (x : SlotExecution C E L) : terminal x → terminal (next x).1.
Proof. unfold next. by destruct (pending x). Qed.

(** Removing the entry of a slot that is terminal, or taken. *)
Lemma remove_entry_inv w k slot hand (stolen : gset SlotRef) :
  world_inv w → entries (directory w) !! k = Some slot →
  (slot ∈ stolen ∨ ∃ x, arena (directory w) !! slot = Some x ∧ terminal x) →
  taken w ⊆ stolen → (∀ e, e ∈ hand → e ∈ in_hand w) →
  world_inv {| directory := remove_entry hash_one k (directory w); in_hand := hand;
    claims := claims w; taken := stolen |}.
Proof.
  intros [Hwf Hmap Hcl Har Hid Hnx Hh] Hk Hgone Htaken Hhand.
  split; cbn [directory in_hand claims taken].
  - by apply remove_entry_wf.
  - rewrite remove_entry_entries by done. intros k' s [_ Hs]%lookup_delete_Some. by apply Hmap.
  - rewrite remove_entry_entries by done. intros s x Hs.
    destruct (Hcl _ _ Hs) as (k' & a & Hc & Hok & Hor). exists k', a. split_and!; [done..|].
    destruct Hor as [?|[Hk'|?]]; [by left| |by right; right; apply Htaken].
    destruct (decide (k' = k)) as [->|Hne].
    + assert (s = slot) as -> by congruence.
      destruct Hgone as [?|(y & Hy & Ht)]; [by right; right|]. left. simpl in Hs. congruence.
    + right; left. by rewrite lookup_delete_ne by done.
  - done.
  - done.
  - done.
  - intros k' s b Hin. by apply (Hh k' s b), Hhand.
Qed.

Lemma drop_in_hand_inv w hand :
  world_inv w → (∀ e, e ∈ hand → e ∈ in_hand w) →
  world_inv {| directory := directory w; in_hand := hand; claims := claims w; taken := taken w |}.
Proof.
  intros [Hwf Hmap Hcl Har Hid Hnx Hh] Hhand. split; simpl; try done.
  intros k s b Hin. by apply (Hh k s b), Hhand.
Qed.

Lemma take_family_inv w :
  world_inv w →
  world_inv {| directory := (take_family (directory w)).1; in_hand := in_hand w;
    claims := claims w;
    taken := list_to_set (default [] (take_family (directory w)).2).*2 ∪ taken w |}.
Proof.
  intros [Hwf Hmap Hcl Har Hid Hnx Hh].
  split; cbn [directory in_hand claims taken]; rewrite ?take_family_entries; try done.
  - by apply take_family_wf.
  - intros s x Hs. destruct (Hcl _ _ Hs) as (k & a & Hc & Hok & Hor). exists k, a.
    split_and!; [done..|]. destruct Hor as [?|[Hk|?]]; [by left| |right; right; set_solver].
    right; right. apply elem_of_union_l, elem_of_list_to_set, list_elem_of_fmap.
    exists (k, s). split; [done|]. simpl.
    rewrite (entries_permutation hash_one) by done. by apply elem_of_map_to_list.
Qed.

Lemma world_step_inv w w' : world_inv w → world_step clone hash_one w w' → world_inv w'.
Proof.
  intros Hinv Hstep. destruct Hstep.
  - unfold allocate_dispatch. destruct (allocate (next_dispatch _)). by apply same_entries_inv.
  - by eapply claim_inv.
  - rewrite claim_spec in H0. destruct (allocate _) as [n s] eqn:Halloc.
    destruct s; cbv zeta in H0; [by rewrite claimed_slot_ok in H0|]. injection H0 as <- <-.
    apply same_entries_inv; try done. simpl. apply allocate_spec in Halloc. lia.
  - unfold with_directory. apply update_slot_inv; [done| | |by auto].
    + intros. by eapply slot_op_ok.
    + intros. by eapply slot_op_terminal.
  - apply update_slot_inv; [done|apply next_ok|apply next_terminal|].
    intros k' s b [[= -> -> <-]|Hin]%elem_of_cons; [|by left]. right. exists x. split; [done|].
    destruct (inv_claimed _ Hinv _ _ H0) as (_ & a & _ & Hok & _).
    apply (ok_remove _ _ Hok b). unfold next in H1. destruct (pending x); [done|].
    injection H1 as ->. by left.
  - unfold with_directory. apply update_slot_inv; [done| | |by auto].
    + intros a x Hx. case_match; [done|]. by apply next_ok.
    + intros x Hx. case_match; [done|]. by apply next_terminal.
  - assert (∀ e, e ∈ before ++ after → e ∈ in_hand w) as Hhand.
    { rewrite H0. intros e. rewrite !elem_of_app, elem_of_cons. naive_solver. }
    destruct effect; subst; try by apply drop_in_hand_inv.
    rewrite remove_matching_spec in H1 by apply Hinv. injection H1 as <-. case_decide as Hk.
    + apply (remove_entry_inv _ _ slot); try done. right. apply (inv_in_hand _ Hinv k slot activation_id).
      rewrite H0. apply elem_of_app. right. by left.
    + by apply drop_in_hand_inv.
  - pose proof (take_slot_spec hash_one (directory w) selected (inv_wf _ Hinv)) as Ht.
    destruct (take_slot selected (directory w)) as [d [[[k s]|]|]]; simpl; [| |done].
    + destruct Ht as (-> & Hk & ->). apply (remove_entry_inv _ _ selected); try done; set_solver.
    + destruct Ht as [-> _]. by destruct w.
  - by apply take_family_inv.
Qed.

(** A slot that was taken out of the directory was claimed, and no entity is
    routed to it. *)
Record taken_inv w : Prop := {
  inv_taken : ∀ slot, slot ∈ taken w → is_Some (claims w !! slot);
  inv_unrouted : ∀ k slot, entries (directory w) !! k = Some slot → slot ∉ taken w
}.

Lemma taken_fewer w d hand :
  taken_inv w → entries d ⊆ entries (directory w) →
  taken_inv {| directory := d; in_hand := hand; claims := claims w; taken := taken w |}.
Proof.
  intros [Ht Hu] Hd. split; simpl; [done|]. intros k slot Hk. eapply Hu, lookup_weaken; done.
Qed.

Lemma claim_taken w k dispatch_id (command : C) d slot installed sequence :
  world_inv w → taken_inv w →
  (allocate (next_activation (directory w))).2 = Some sequence →
  claim clone hash_one k dispatch_id command (directory w) = (d, Some (Ok (slot, installed))) →
  taken_inv {| directory := d; in_hand := in_hand w;
    claims := <[slot := (k, ActivationId_new sequence)]> (claims w); taken := taken w |}.
Proof.
  intros Hinv [Ht Hu] Hseq Hclaim. rewrite claim_spec in Hclaim.
  destruct (allocate (next_activation (directory w))) as [n s] eqn:Halloc. simpl in Hseq. subst s.
  cbv zeta in Hclaim. rewrite claimed_slot_ok in Hclaim. injection Hclaim as <- <- <-.
  set (fs := fresh (dom (arena (directory w)))). set (d' := set_arena _ _).
  assert (directory_wf hash_one d') as Hwf by (by destruct (inv_wf _ Hinv)).
  assert (entries d' = entries (directory w)) as He by done.
  split; cbn [directory claims taken].
  - intros s Hs. rewrite lookup_insert_is_Some'. right. by apply Ht.
  - rewrite put_entry_entries, He by done. intros k' s [[_ <-]|[_ Hk]]%lookup_insert_Some; [|by eapply Hu].
    intros Hs%Ht%(inv_arena _ Hinv). unfold fs in Hs. rewrite fresh_slot in Hs. by destruct Hs.
Qed.

Lemma world_step_taken w w' :
  world_inv w → taken_inv w → world_step clone hash_one w w' → taken_inv w'.
Proof.
  intros Hinv Htk Hstep. pose proof (inv_wf _ Hinv) as Hwf. destruct Hstep.
  - apply taken_fewer; [done|]. unfold allocate_dispatch. by destruct (allocate (next_dispatch _)).
  - by eapply claim_taken.
  - rewrite claim_spec in H0. destruct (allocate _) as [n s]; destruct s; cbv zeta in H0;
      [by rewrite claimed_slot_ok in H0|]. injection H0 as <- <-. by apply taken_fewer.
  - by apply taken_fewer.
  - by apply taken_fewer.
  - by apply taken_fewer.
  - apply taken_fewer; [done|]. destruct effect; subst; try done.
    rewrite remove_matching_spec in H1 by done. injection H1 as <-. case_decide; [|done].
    rewrite remove_entry_entries by done. apply delete_subseteq.
  - pose proof (take_slot_spec hash_one (directory w) selected Hwf) as Ht.
    destruct (take_slot selected (directory w)) as [d [[[k s]|]|]]; cbn [fst snd]; [| |done].
    + destruct Ht as (-> & Hk & ->). destruct Htk as [Ht Hu]. destruct (inv_mapped _ Hinv _ _ Hk) as [a Ha].
      split; cbn [directory claims taken].
      * intros s [->%elem_of_singleton|Hs]%elem_of_union; [by exists (k, a)|by apply Ht].
      * rewrite remove_entry_entries by done. intros k' s [Hne Hs]%lookup_delete_Some.
        rewrite elem_of_union, elem_of_singleton. intros [->|Hin]; [|by eapply Hu].
        destruct (inv_mapped _ Hinv _ _ Hs) as [a' Ha']. congruence.
    + destruct Ht as [-> _]. by apply taken_fewer.
  - destruct Htk as [Ht Hu]. split; cbn [directory claims taken].
    + intros s [Hs|Hs]%elem_of_union; [|by apply Ht].
      apply elem_of_list_to_set, list_elem_of_fmap in Hs as ([k s'] & -> & Hs). simpl in Hs.
      rewrite (entries_permutation hash_one) in Hs by done. apply elem_of_map_to_list in Hs.
      destruct (inv_mapped _ Hinv _ _ Hs) as [a Ha]. by exists (k, a).
    + rewrite take_family_entries. intros k s Hs. by rewrite lookup_empty in Hs.
Qed.
End world_lemmas.

(** ** Lemmas: configuration, interpretation *)

Lemma mask_land (p : positive) h :
  is_power_of_two p = true → (N.land h (Npos p - 1) < Npos p)%N.
Proof.
  unfold is_power_of_two. intros Hp%N.eqb_eq. rewrite <- Hp.
  rewrite <- N.pred_sub, <- N.ones_equiv, N.land_ones. apply N.mod_lt, N.pow_nonzero. lia.
Qed.

Lemma DirectoryConfig_new_Ok p limit config :
  DirectoryConfig_new p limit = Ok config →
  config = {| config_shards := p; activation_waiters := limit |} ∧
  is_power_of_two p = true ∧ (Npos p - 1 ≤ u64_max)%N.
Proof.
  unfold DirectoryConfig_new. destruct (is_power_of_two p); simpl; [|done].
  destruct (N.ltb_spec u64_max (N.pos p - 1)); intros [= <-]. split_and!; done || lia.
Qed.

Section new_directory.
Context {I C E L : Type} `{Countable I} (clone : E → option E) (hash_one : I → N).

Lemma with_hasher_spec p limit config :
  DirectoryConfig_new p limit = Ok config →
  ∃ d : LocalDirectory I C E L, with_hasher config = Some d ∧ directory_wf hash_one d ∧
    entries d = ∅ ∧ arena d = ∅ ∧ length (shards d) = Pos.to_nat p.
Proof.
  intros (-> & Hp & Hmax)%DirectoryConfig_new_Ok. unfold with_hasher. simpl.
  destruct (N.ltb_spec u64_max (N.pos p - 1)); [lia|].
  eexists. split; [reflexivity|]. split_and!; simpl.
  - split; simpl.
    + intros h. rewrite length_replicate. pose proof (mask_land p h Hp). lia.
    + intros i m k slot [-> _]%lookup_replicate_1. by rewrite lookup_empty.
  - unfold entries. simpl. induction (Pos.to_nat p) as [|n IH]; simpl; [done|].
    rewrite IH. apply (left_id_L ∅ (∪)).
  - done.
  - by rewrite length_replicate.
Qed.

Lemma reachable_inv p limit config (w : World I C E L) :
  DirectoryConfig_new p limit = Ok config →
  world_reachable clone hash_one config w → world_inv hash_one w.
Proof.
  intros Hc (d & Hd & Hrun). destruct (with_hasher_spec _ _ _ Hc) as (d' & Hd' & Hwf & He & Ha & _).
  rewrite Hd in Hd'. injection Hd' as <-. revert Hrun.
  apply rtc_ind_r; [|intros; by eapply world_step_inv].
  split; simpl; rewrite ?He, ?Ha; try done; intros *; rewrite ?lookup_empty; try done.
  all: try (by intros ?%is_Some_None).
  all: by intros ?%elem_of_nil.
Qed.

(** Taken slots stay taken and unrouted. *)
Lemma steps_taken (w w' : World I C E L) :
  world_inv hash_one w → taken_inv w → rtc (world_step clone hash_one) w w' →
  world_inv hash_one w' ∧ taken_inv w' ∧ taken w ⊆ taken w'.
Proof.
  intros Hinv Htk Hsteps. induction Hsteps as [w|w w1 w2 Hstep _ IH]; [done|].
  destruct IH as (? & ? & Hle); [by eapply world_step_inv|by eapply world_step_taken|].
  split_and!; [done..|]. etrans; [|exact Hle].
  destruct Hstep; cbn [taken with_directory]; try done; [|set_solver].
  destruct (take_slot _ _).2 as [[[? ?]|]|]; set_solver.
Qed.

Lemma reachable_taken p limit config (w : World I C E L) :
  DirectoryConfig_new p limit = Ok config → world_reachable clone hash_one config w →
  world_inv hash_one w ∧ taken_inv w.
Proof.
  intros Hc Hw. split; [by eapply reachable_inv|]. destruct Hw as (d & Hd & Hrun).
  eapply steps_taken; [| |exact Hrun].
  - eapply reachable_inv; [exact Hc|]. by exists d.
  - destruct (with_hasher_spec _ _ _ Hc) as (d' & Hd' & _ & He & _). rewrite Hd in Hd'. injection Hd' as <-.
    split; simpl; [by intros ? ?%elem_of_empty|]. intros k slot. by rewrite He, lookup_empty.
Qed.
End new_directory.

Section interpretation_lemmas.
Context {I C E L R : Type} `{Countable I} `{!EffectInterpreter R I C E L} (hash_one : I → N).
Implicit Types (d : LocalDirectory I C E L) (k : I) (slot : SlotRef).

Definition is_remove (effect : SlotEffect C E L) : bool :=
  match effect with Effect_Remove _ => true | _ => false end.

Definition removed k slot (batch : list (SlotEffect C E L)) d : LocalDirectory I C E L :=
  if existsb is_remove batch && bool_decide (entries d !! k = Some slot)
  then remove_entry hash_one k d else d.

Lemma removed_wf k slot batch d :
  directory_wf hash_one d → directory_wf hash_one (removed k slot batch d).
Proof. intros. unfold removed. case_match; [by apply remove_entry_wf|done]. Qed.

Lemma removed_entries k slot batch d :
  directory_wf hash_one d →
  entries (removed k slot batch d) =
    if existsb is_remove batch && bool_decide (entries d !! k = Some slot)
    then delete k (entries d) else entries d.
Proof. intros. unfold removed. case_match; [by apply remove_entry_entries|done]. Qed.

(** A runtime that only schedules what it is told, as the entity runtime does: a
    call changes its own state and returns. *)
Class Scheduling := {
  scheduled : I → R → SlotEffect C E L → R;
  schedules k effect d (r : R) : is_remove effect = false →
    apply_effect hash_one k None effect (d, r) = ((d, scheduled k r effect), Some ())
}.

(** What one effect asks of the runtime: a removal asks nothing. *)
Definition runtime_call `{!Scheduling} k (r : R) (effect : SlotEffect C E L) : R :=
  if is_remove effect then r else scheduled k r effect.

Context `{!Scheduling}.

Lemma apply_effect_spec k slot effect d (r : R) :
  directory_wf hash_one d →
  apply_effect hash_one k (Some slot) effect (d, r) =
    ((removed k slot [effect] d, runtime_call k r effect), Some ()).
Proof.
  intros Hwf. unfold removed, runtime_call. destruct (is_remove effect) eqn:He; simpl; rewrite He; simpl.
  - destruct effect; try done. simpl. rewrite remove_matching_spec by done. simpl.
    destruct (decide (entries d !! k = Some slot));
      [by rewrite bool_decide_true by done|by rewrite bool_decide_false by done].
  - rewrite <- schedules by done. by destruct effect.
Qed.

Lemma removed_app k slot xs ys d :
  directory_wf hash_one d →
  removed k slot ys (removed k slot xs d) = removed k slot (xs ++ ys) d.
Proof.
  intros Hwf. unfold removed at 1. rewrite removed_entries by done. unfold removed.
  rewrite existsb_app. destruct (existsb is_remove xs), (existsb is_remove ys); simpl;
    destruct (bool_decide (entries d !! k = Some slot)) eqn:Hb; simpl; rewrite ?Hb; try done.
  all: rewrite bool_decide_false; [done|]. all: by rewrite lookup_delete_eq.
Qed.

Lemma removed_arena k slot batch a d :
  removed k slot batch (set_arena a d) = set_arena a (removed k slot batch d).
Proof. unfold removed. change (entries (set_arena a d)) with (entries d). by case_match. Qed.

Lemma on_slot_in {A} slot (op : SlotExecution C E L → SlotExecution C E L * A) d (r : R) x :
  arena d !! slot = Some x →
  on_slot (slot_in slot) (put_in slot) op (d, r) =
    ((set_arena (<[slot := (op x).1]> (arena d)) d, r), (op x).2).
Proof. intros Hx. unfold on_slot, slot_in, put_in. cbn. rewrite Hx. simpl. by destruct (op x). Qed.

Lemma scheduling_loop k slot fuel d (r : R) x :
  directory_wf hash_one d → arena d !! slot = Some x → (length (pending x) < fuel)%nat →
  dispatch_loop (slot_in slot) (put_in slot) fuel (apply_effect hash_one k (Some slot)) (d, r) =
    Some ((set_arena (<[slot := set_dispatch Idle (set_pending [] x)]> (arena d)) (removed k slot (pending x) d),
           fold_left (runtime_call k) (pending x) r), Some ()).
Proof.
  revert d r x. induction fuel as [|fuel IH]; intros d r x Hwf Hx Hf; [lia|].
  cbn [dispatch_loop]. rewrite (on_slot_in _ _ _ _ x) by done.
  unfold next. destruct (pending x) as [|e q] eqn:Hq; cbn [fst snd].
  - rewrite (on_slot_in _ _ _ _ (set_dispatch Idle x)) by (cbn; by rewrite lookup_insert_eq).
    cbn. rewrite insert_insert_eq. unfold removed. cbn. destruct x; cbn in *; subst. done.
  - rewrite apply_effect_spec by (by destruct Hwf). rewrite removed_arena.
    rewrite (IH _ _ (set_pending q x)).
    + cbn [pending set_pending arena set_arena]. rewrite removed_arena, insert_insert_eq.
      rewrite removed_app by done. done.
    + by apply (removed_wf k slot [e]) in Hwf as [? ?].
    + cbn. by rewrite lookup_insert_eq.
    + cbn in *. lia.
Qed.
End interpretation_lemmas.

(** ** Properties *)

Section properties.
Context {I C E L : Type} `{Countable I} (clone : E → option E) (hash_one : I → N).
Implicit Types (d : LocalDirectory I C E L) (k : I) (slot : SlotRef) (w : World I C E L).

(** C37: whatever the threads interleave, an entity has at most one live slot in
    its directory.  A slot that was claimed for an entity and still holds an
    incarnation is either the very slot the directory routes the entity to, and
    then every other such slot of the entity was taken out of the directory (by
    the drain of shutdown, or by the removal that keeps a failed retirement); or it
    was itself taken out, and then no entity is ever routed to it again.  What the
    directory routes to was claimed for that entity and not taken. *)
Theorem single_live_incarnation p limit config w k slot a :
  DirectoryConfig_new p limit = Ok config → world_reachable clone hash_one config w →
  claims w !! slot = Some (k, a) → live w slot →
  (if decide (slot ∈ taken w)
   then ∀ k' w', rtc (world_step clone hash_one) w w' →
     get hash_one k' (directory w') ≠ (directory w', Some (Some slot))
   else get hash_one k (directory w) = (directory w, Some (Some slot)) ∧
     ∀ other b, claims w !! other = Some (k, b) → live w other → other = slot ∨ other ∈ taken w) ∧
  (∀ k' other, get hash_one k' (directory w) = (directory w, Some (Some other)) →
     (other ∉ taken w) ∧ ∃ b, claims w !! other = Some (k', b)).
Proof.
  intros Hc Hw Hs Hl. destruct (reachable_taken _ _ _ _ _ _ Hc Hw) as [Hinv Htk].
  assert (∀ other b, claims w !! other = Some (k, b) → live w other → other ∉ taken w →
    entries (directory w) !! k = Some other) as Hmapped.
  { intros other b Ho (x & Hx & Hlive) Htaken.
    destruct (inv_claimed _ _ Hinv _ _ Hx) as (k' & a' & Hs' & _ & [Hterm|[Hk|?]]); [done| |done].
    rewrite Ho in Hs'. by injection Hs' as -> ->. }
  split.
  - destruct (decide (slot ∈ taken w)) as [Ht|Ht].
    + intros k' w' Hsteps. destruct (steps_taken _ _ _ _ Hinv Htk Hsteps) as (Hinv' & [_ Hu] & Hle).
      rewrite get_entries by apply Hinv'. intros [= Hk%Hu]. by apply Hk, Hle.
    + pose proof (Hmapped _ _ Hs Hl Ht) as Hk. split; [rewrite get_entries by apply Hinv; by rewrite Hk|].
      intros other b Ho Hlo. destruct (decide (other ∈ taken w)) as [?|Hn]; [by right|].
      pose proof (Hmapped _ _ Ho Hlo Hn). left. congruence.
  - intros k' other. rewrite get_entries by apply Hinv. intros [= Hk].
    split; [by eapply (inv_unrouted _ Htk)|]. by apply (inv_mapped _ _ Hinv).
Qed.

(** The incarnations of a directory are never reused: no two slots ever
    claimed share an activation identity, whatever their entities, and the
    machine of a slot is in the incarnation it was claimed for or past it. *)
Lemma incarnations_never_reused p limit config w slot1 slot2 k1 k2 a x machine :
  DirectoryConfig_new p limit = Ok config → world_reachable clone hash_one config w →
  claims w !! slot1 = Some (k1, a) →
  (claims w !! slot2 = Some (k2, a) → slot1 = slot2) ∧
  (arena (directory w) !! slot1 = Some x → slot_state x = SlotState_Ready machine →
   slot_activation_id machine = Some a ∨ machine = Slot_Inactive).
Proof.
  intros Hc Hw Hs. pose proof (reachable_inv _ _ _ _ _ _ Hc Hw) as Hinv. split.
  - intros Hs2. by eapply (inv_identity _ _ Hinv).
  - intros Hx Hm. destruct (inv_claimed _ _ Hinv _ _ Hx) as (k & b & Hs' & Hok & _).
    rewrite Hs in Hs'. injection Hs' as <- <-. by apply (ok_identity _ _ Hok).
Qed.

(** Interpreting an order to remove is exact: it never unroutes a slot
    that is live, neither the one it names nor a later incarnation of the
    entity. *)
Lemma removal_is_exact p limit config w d k slot b k' slot' :
  DirectoryConfig_new p limit = Ok config → world_reachable clone hash_one config w →
  (k, slot, Effect_Remove b) ∈ in_hand w →
  remove_matching hash_one k slot (directory w) = (d, Some ()) →
  live w slot' → entries (directory w) !! k' = Some slot' → entries d !! k' = Some slot'.
Proof.
  intros Hc Hw Hin Hrm (x & Hx & Hlive) Hk'. pose proof (reachable_inv _ _ _ _ _ _ Hc Hw) as Hinv.
  rewrite remove_matching_spec in Hrm by apply Hinv. injection Hrm as <-.
  case_decide as Hk; [|done]. rewrite remove_entry_entries by apply Hinv.
  destruct (decide (k' = k)) as [->|?]; [|by rewrite lookup_delete_ne].
  destruct (inv_in_hand _ _ Hinv _ _ _ Hin) as (y & Hy & Hterm).
  assert (slot' = slot) as -> by congruence. rewrite Hx in Hy. injection Hy as ->.
  by destruct Hlive.
Qed.

(** Sharding is transparent: with any hash, every operation of a well
    placed directory acts on its one flat map of entries and never indexes
    outside the shards, and keeps the directory well placed. *)
Lemma sharding_is_transparent d k slot :
  directory_wf hash_one d →
  get hash_one k d = (d, Some (entries d !! k)) ∧
  entries (put_entry hash_one k slot d) = <[k := slot]> (entries d) ∧
  directory_wf hash_one (put_entry hash_one k slot d) ∧
  (∃ d', remove_matching hash_one k slot d = (d', Some ()) ∧ directory_wf hash_one d' ∧
     entries d' = if decide (entries d !! k = Some slot) then delete k (entries d) else entries d) ∧
  directory_len d = N.of_nat (size (entries d)) ∧
  (∃ d' taken, take_family d = (d', Some taken) ∧ directory_wf hash_one d' ∧
     entries d' = ∅ ∧ taken ≡ₚ map_to_list (entries d)) ∧
  (∃ d' taken, take_slot slot d = (d', Some taken) ∧ directory_wf hash_one d' ∧
     match taken with
     | Some (k', slot') => slot' = slot ∧ entries d !! k' = Some slot ∧
         entries d' = delete k' (entries d)
     | None => d' = d ∧ ∀ k', entries d !! k' ≠ Some slot
     end).
Proof.
  intros Hwf. split_and!.
  - by apply get_entries.
  - by apply put_entry_entries.
  - by apply put_entry_wf.
  - rewrite remove_matching_spec by done. eexists. split; [done|].
    case_decide; [|done]. split; [by apply remove_entry_wf|by apply remove_entry_entries].
  - by apply (directory_len_entries hash_one).
  - eexists _, _. split; [done|]. split_and!; [by apply take_family_wf|apply take_family_entries|].
    by apply (entries_permutation hash_one).
  - pose proof (take_slot_spec hash_one d slot Hwf) as Ht.
    destruct (take_slot slot d) as [d' [taken|]]; [|done]. exists d', taken. split; [done|].
    destruct taken as [[k' slot']|].
    + destruct Ht as (-> & Hk & ->). split_and!; [by apply remove_entry_wf|done..|].
      by apply remove_entry_entries.
    + by destruct Ht as [-> ?].
Qed.

(** A validated configuration indexes: the directory is built with every
    shard empty, and the masked hash of any entity is the index of a shard. *)
Lemma config_indexes_every_hash p limit config :
  DirectoryConfig_new p limit = Ok config →
  ∃ d, with_hasher config = Some d ∧ directory_wf hash_one d ∧
    length (shards d) = Pos.to_nat p ∧ directory_len d = 0%N ∧
    ∀ k, (shard_index hash_one d k < Pos.to_nat p)%nat.
Proof.
  intros Hc. destruct (with_hasher_spec (C := C) (E := E) (L := L) hash_one _ _ _ Hc)
    as (d & Hd & Hwf & He & _ & Hlen).
  exists d. split_and!; [done..| |].
  - rewrite (directory_len_entries hash_one) by done. by rewrite He, map_size_empty.
  - intros k. rewrite <- Hlen. apply Hwf.
Qed.

(** A refused dispatch returns the very command it was given, only once
    the identity sequence it needs is exhausted, and changes no route, no slot
    and no activation identity. *)
Lemma dispatch_refusal_preserves d d' k command error :
  directory_wf hash_one d → (1 ≤ next_dispatch d)%N → (1 ≤ next_activation d)%N →
  dispatch clone hash_one k command d = (d', Some (Err error)) →
  entries d' = entries d ∧ arena d' = arena d ∧ next_activation d' = next_activation d ∧
  match error with
  | DispatchIdsExhausted returned => returned = command ∧ (u64_max ≤ next_dispatch d)%N
  | ActivationIdsExhausted returned =>
      returned = command ∧ (u64_max ≤ next_activation d)%N ∧ entries d !! k = None
  end.
Proof.
  intros Hwf Hnd Hna. rewrite dispatch_spec by done. cbv zeta.
  destruct (allocate (next_dispatch d)) as [n s] eqn:Hs. apply allocate_spec in Hs.
  destruct s as [s|]; [|intros [= <- <-]; split_and!; try done;
    destruct Hs as [(_ & _ & Hz)|(_ & _ & ?)]; [by destruct (next_dispatch d)|done]].
  destruct (entries d !! k) as [slot|] eqn:Hk.
  { match goal with |- context [at_slot ?s ?op ?d] => destruct (at_slot s op d) as [d2 [i|]] end;
      by intros [=]. }
  rewrite claim_spec. cbn [next_activation set_next_dispatch].
  destruct (allocate (next_activation d)) as [m a] eqn:Ha. apply allocate_spec in Ha.
  destruct a as [a|]; cbv zeta; [by rewrite claimed_slot_ok|].
  destruct Ha as [(_ & _ & Hz)|(-> & _ & ?)]; [by destruct (next_activation d)|].
  by intros [= <- <-].
Qed.

(** Dispatching to an absent entity claims one fresh slot: the command
    waits in it, its activation is queued to start under fresh identities, the
    entity is routed to it and nothing else changes. *)
Lemma dispatch_claims_absent d k command :
  directory_wf hash_one d → entries d !! k = None →
  (1 ≤ next_dispatch d < u64_max)%N → (1 ≤ next_activation d < u64_max)%N →
  ∃ d' slot a id,
    dispatch clone hash_one k command d =
      (d', Some (Ok (Build_InstalledDispatch id (installed_slot_decision k
        {| installed_evidence := Traversed Edge_ClaimActivation;
           installed_phase := Phase_Activating; installed_activation_id := Some a |}
        (Mapped slot))))) ∧
    Npos (ActivationId_get a) = next_activation d ∧ Npos (DispatchId_get id) = next_dispatch d ∧
    next_activation d' = (next_activation d + 1)%N ∧ next_dispatch d' = (next_dispatch d + 1)%N ∧
    arena d !! slot = None ∧ directory_wf hash_one d' ∧
    entries d' = <[k := slot]> (entries d) ∧
    arena d' = <[slot :=
      {| slot_state := SlotState_Ready (Slot_Activating {| activating_id := a;
           waiters := [Build_ActivationWaiter id command];
           waiter_limit := directory_waiter_limit d |});
         pending := [Effect_StartActivation a]; DirectorySlot.dispatch := Idle;
         retirement := None |}]> (arena d).
Proof.
  intros Hwf Hk Hnd Hna. rewrite dispatch_spec by done. cbv zeta. rewrite Hk.
  destruct (allocate (next_dispatch d)) as [n s] eqn:Hs. apply allocate_spec in Hs.
  destruct Hs as [(-> & _ & ->)|(_ & _ & ?)]; [|lia].
  destruct (next_dispatch d) as [|id] eqn:Hid; [lia|].
  destruct (next_activation d) as [|a] eqn:Haid; [lia|].
  cbn [nonzero]. rewrite claim_spec. cbn [next_activation set_next_dispatch]. rewrite Haid.
  destruct (allocate (Npos a)) as [m a'] eqn:Ha. apply allocate_spec in Ha.
  destruct Ha as [(-> & _ & ->)|(_ & _ & ?)]; [|lia].
  cbn [nonzero]. cbv zeta. rewrite claimed_slot_ok.
  eexists _, _, (ActivationId_new a), (DispatchId_new id). split; [reflexivity|].
  split_and!; try done.
  - apply (fresh_slot d).
  - apply put_entry_wf. by destruct Hwf.
  - rewrite put_entry_entries; [done|by destruct Hwf].
Qed.
End properties.

Lemma allocate_many_spec count n :
  (1 ≤ n ≤ u64_max)%N →
  let '(m, ids) := allocate_many count n in
  (n ≤ m ≤ u64_max)%N ∧ length ids = count ∧
  ∀ i o, ids !! i = Some o →
    o = if (n + N.of_nat i <? u64_max)%N then nonzero (n + N.of_nat i) else None.
Proof.
  revert n. induction count as [|count IH]; intros n Hn; cbn [allocate_many]; [by split_and!; try lia|].
  destruct (allocate n) as [n' id] eqn:Ha. apply allocate_spec in Ha.
  assert (1 ≤ n' ≤ u64_max)%N as Hn' by lia. specialize (IH n' Hn').
  destruct (allocate_many count n') as [m ids]. destruct IH as (Hm & Hlen & Hids).
  split_and!; [lia|lia|simpl; lia|]. intros [|i] o; simpl.
  - intros [= <-]. rewrite N.add_0_r. destruct (N.ltb_spec n u64_max); destruct Ha; naive_solver lia.
  - intros Ho%Hids. rewrite Ho. destruct Ha as [(-> & Hlt & _)|(-> & _ & Hmax)].
    + by replace (n + 1 + N.of_nat i)%N with (n + N.of_nat (S i))%N by lia.
    + assert (u64_max <= n + N.of_nat i)%N as Hi by lia.
      by rewrite (proj2 (N.ltb_ge _ _)), (proj2 (N.ltb_ge _ _)) by lia.
Qed.

(** An identity sequence that starts at one hands out 1, 2, 3 and so on,
    each once, up to [u64::MAX - 1]; from then on every request is refused and
    the counter stays, so no identity is zero, reused or wrapped. *)
Lemma identities_never_repeat count :
  let '(sequence, ids) := allocate_many count 1 in
  (sequence ≤ u64_max)%N ∧ length ids = count ∧
  (∀ i id, ids !! i = Some (Some id) → Npos id = (N.of_nat i + 1)%N) ∧
  (∀ i, ids !! i = Some None ↔ (i < count)%nat ∧ (u64_max ≤ N.of_nat i + 1)%N).
Proof.
  pose proof (allocate_many_spec count 1) as Hs. destruct (allocate_many count 1) as [m ids].
  destruct Hs as (Hm & Hlen & Hids); [by vm_compute|]. split_and!; [lia|done| |].
  - intros i id Hi%Hids. destruct (N.ltb_spec (1 + N.of_nat i) u64_max); [|done].
    symmetry in Hi. apply nonzero_Some in Hi. lia.
  - intros i. split.
    + intros Hi. pose proof (lookup_lt_Some _ _ _ Hi). split; [lia|]. apply Hids in Hi.
      destruct (N.ltb_spec (1 + N.of_nat i) u64_max); [|lia].
      symmetry in Hi. apply nonzero_None in Hi. lia.
    + intros [Hlt Hmax]. rewrite <- Hlen in Hlt. apply lookup_lt_is_Some in Hlt as [o Ho].
      rewrite Ho. f_equal. rewrite (Hids _ _ Ho), (proj2 (N.ltb_ge _ _)); [done|lia].
Qed.
Section interpretation_properties.
Context {I C E L R : Type} `{Countable I} `{!EffectInterpreter R I C E L} (hash_one : I → N).
Context `{!Scheduling hash_one}.
Implicit Types (d : LocalDirectory I C E L).

(** For a runtime that only schedules, interpreting a decision of an idle slot
    terminates without a panic, asks the runtime for every queued effect once and
    in order, leaves the queue empty and the slot idle, and unroutes the entity
    exactly when a removal was queued and the entity is still routed to that slot. *)
Lemma interpret_performs_effects fuel d (r : R) decision slot x :
  directory_wf hash_one d → target decision = Mapped slot → arena d !! slot = Some x →
  DirectorySlot.dispatch x = Idle → (length (pending x) < fuel)%nat →
  ∃ d', interpret hash_one fuel decision (d, r) =
      Some ((d', fold_left (runtime_call hash_one (entity_id decision)) (pending x) r), Some ()) ∧
    arena d' = <[slot := set_pending [] x]> (arena d) ∧
    entries d' =
      if existsb is_remove (pending x) && bool_decide (entries d !! entity_id decision = Some slot)
      then delete (entity_id decision) (entries d) else entries d.
Proof.
  intros Hwf Ht Hx Hidle Hf. unfold interpret. rewrite Ht. cbn [fst]. rewrite Hx.
  unfold dispatch_pending. rewrite (on_slot_in _ _ _ _ x) by done. unfold acquire. rewrite Hidle. cbn [fst snd].
  rewrite (scheduling_loop _ _ _ _ _ _ (set_dispatch Dispatching x)); [|by destruct Hwf| |done].
  2: { cbn. by rewrite lookup_insert_eq. }
  eexists. split; [reflexivity|]. rewrite removed_arena. split.
  - cbn. rewrite insert_insert_eq. f_equal. destruct x; cbn in *. by subst.
  - do 2 change (entries (set_arena ?a ?d)) with (entries d). by rewrite removed_entries.
Qed.
End interpretation_properties.

(** ** Concrete instances *)

Definition identity_hash (k : N) : N := k.

Definition small_config : DirectoryConfig := {| config_shards := 4; activation_waiters := 2 |}.

Definition empty_directory : LocalDirectory N N N N :=
  {| shards := [∅; ∅; ∅; ∅]; mask := 3; directory_waiter_limit := 2; next_activation := 1;
     next_dispatch := 1; arena := ∅ |}.

Definition claim_at (k : N) (w : World N N N N) : World N N N N :=
  {| directory := (claim copy_endpoint identity_hash k (DispatchId_new 1) 10%N (directory w)).1;
     in_hand := in_hand w;
     claims := <[fresh (dom (arena (directory w))) :=
                   (k, ActivationId_new (N.succ_pos (next_activation (directory w) - 1)))]> (claims w);
     taken := taken w |}.

Definition pop_at (k : N) slot effect (w : World N N N N) : World N N N N :=
  {| directory := update_slot (λ x, (next x).1) slot (directory w);
     in_hand := (k, slot, effect) :: in_hand w; claims := claims w; taken := taken w |}.

Definition fail_at slot a (w : World N N N N) : World N N N N :=
  with_directory w (update_slot (λ x, (submit copy_endpoint x (Event_ActivationFailed a)).1) slot
    (directory w)).

(** Entity 6 is claimed, its activation fails and its effects are popped, the
    removal last; entity 2, of the same shard, is claimed meanwhile.  The
    worlds are computed step by step. *)
Definition world0 : World N N N N := world_of empty_directory.
Definition world1 : World N N N N := Eval vm_compute in claim_at 6 world0.
Definition world2 : World N N N N := Eval vm_compute in fail_at 1 (ActivationId_new 1) world1.
Definition world3 : World N N N N :=
  Eval vm_compute in pop_at 6 1 (Effect_StartActivation (ActivationId_new 1)) world2.
Definition world4 : World N N N N :=
  Eval vm_compute in pop_at 6 1 (Effect_Reject (DispatchId_new 1) 10%N Refusal_Unavailable) world3.
Definition world5 : World N N N N :=
  Eval vm_compute in pop_at 6 1 (Effect_Remove (ActivationId_new 1)) world4.
Definition crowded_world : World N N N N := Eval vm_compute in claim_at 2 world5.

Lemma claim_at_step k (w : World N N N N) :
  get identity_hash k (directory w) = (directory w, Some None) →
  (1 ≤ next_activation (directory w) < u64_max)%N →
  world_step copy_endpoint identity_hash w (claim_at k w).
Proof.
  intros Hget Hnext. destruct (next_activation (directory w)) as [|sequence] eqn:Hseq; [lia|].
  assert (allocate (Npos sequence) = ((Npos sequence + 1)%N, Some sequence)) as Ha.
  { destruct (allocate (Npos sequence)) as [n o] eqn:Ho. apply allocate_spec in Ho as [|]; [|lia].
    naive_solver. }
  unfold claim_at. rewrite Hseq.
  replace (N.succ_pos (Npos sequence - 1)) with sequence by (simpl; lia).
  eapply (world_claim _ _ w k (DispatchId_new 1) 10%N); [done|by rewrite Hseq, Ha|].
  rewrite claim_spec, Hseq, Ha. cbv zeta. rewrite claimed_slot_ok. reflexivity.
Qed.

Lemma pop_at_step k slot effect x (w : World N N N N) :
  arena (directory w) !! slot = Some x → (next x).2 = Some effect →
  world_step copy_endpoint identity_hash w (pop_at k slot effect w).
Proof. apply world_next. Qed.

Lemma fail_at_step slot a (w : World N N N N) :
  world_step copy_endpoint identity_hash w (fail_at slot a w).
Proof. apply world_slot, (op_submit _ (Event_ActivationFailed a)). by intros []. Qed.

Lemma crowded_world_reachable : world_reachable copy_endpoint identity_hash small_config crowded_world.
Proof.
  exists empty_directory. split; [reflexivity|].
  apply (rtc_l _ _ world1); [apply (claim_at_step 6); [reflexivity|vm_compute; by split]|].
  apply (rtc_l _ _ world2); [apply (fail_at_step 1 (ActivationId_new 1))|].
  apply (rtc_l _ _ world3);
    [eapply (pop_at_step 6 1 (Effect_StartActivation (ActivationId_new 1)) _ world2); vm_compute; reflexivity|].
  apply (rtc_l _ _ world4);
    [eapply (pop_at_step 6 1 (Effect_Reject (DispatchId_new 1) 10%N Refusal_Unavailable) _ world3); vm_compute; reflexivity|].
  apply (rtc_l _ _ world5);
    [eapply (pop_at_step 6 1 (Effect_Remove (ActivationId_new 1)) _ world4); vm_compute; reflexivity|].
  apply rtc_once. apply (claim_at_step 2); [vm_compute; reflexivity|vm_compute; by split].
Qed.

Lemma crowded_live : live crowded_world 2.
Proof. eexists. split; [vm_compute; reflexivity|discriminate]. Qed.

Lemma single_live_incarnation_witness :
  get identity_hash 2%N (directory crowded_world) = (directory crowded_world, Some (Some 2%positive)) ∧
  ∀ other b, claims crowded_world !! other = Some (2%N, b) → live crowded_world other →
    other = 2%positive ∨ other ∈ taken crowded_world.
Proof.
  apply (single_live_incarnation copy_endpoint identity_hash 4 2 small_config crowded_world 2%N 2
    (ActivationId_new 2));
    [reflexivity|apply crowded_world_reachable|vm_compute; reflexivity|apply crowded_live].
Defined.

(** A runtime that records what it is asked. *)
Variant RuntimeCall :=
  | Called_StartActivation (k : N) (a : ActivationId)
  | Called_Deliver (k : N) (a : ActivationId) (id : DispatchId) (endpoint command : N)
  | Called_Reject (id : DispatchId) (command : N) (reason : Refusal)
  | Called_EnqueueFence (k : N) (a : ActivationId) (endpoint : N)
  | Called_Retire (k : N) (a : ActivationId) (lease : N) (mode : RetirementMode).

#[export] Instance recording_runtime : EffectInterpreter (list RuntimeCall) N N N N := {|
  start_activation k a := λ '(d, r), ((d, r ++ [Called_StartActivation k a]), Some ());
  deliver k a id endpoint command := λ '(d, r), ((d, r ++ [Called_Deliver k a id endpoint command]), Some ());
  reject_command id command reason := λ '(d, r), ((d, r ++ [Called_Reject id command reason]), Some ());
  enqueue_fence k a endpoint := λ '(d, r), ((d, r ++ [Called_EnqueueFence k a endpoint]), Some ());
  retire k a lease mode := λ '(d, r), ((d, r ++ [Called_Retire k a lease mode]), Some ())
|}.

#[export] Instance recording_schedules : Scheduling (R := list RuntimeCall) identity_hash.
Proof.
  refine {| scheduled k r effect := r ++
      match effect with
      | Effect_StartActivation a => [Called_StartActivation k a]
      | Effect_Deliver a id endpoint command => [Called_Deliver k a id endpoint command]
      | Effect_Reject id command reason => [Called_Reject id command reason]
      | Effect_EnqueueFence a endpoint => [Called_EnqueueFence k a endpoint]
      | Effect_Retire a lease mode => [Called_Retire k a lease mode]
      | Effect_Remove _ => []
      end |}.
  by intros k [] d r.
Defined.
