(* ===== verification/TaskGroup.v ===== *)
(** * The lifecycle tasks of an entity family

    [crates/bombay/src/entity/runtime.rs], [EntityTaskGroup] and
    [EntityShutdownClaim]: the count of live task guards and its idle epoch, the
    join handles, the single shutdown claim, the drained rows and the retained
    retirement failures.

    Every operation runs under the group's mutex and is an [Op] on
    [EntityTaskState]; a panic keeps the state it leaves behind, since the lock
    ignores poisoning. *)

From S2P Require Import Prelude.

(** The cell shared by the two ends of one idle epoch ([pair] of [observe]). *)
Record EpochCell := EpochCell_new { epoch_name : positive }.

#[export] Instance EpochCell_eq_dec : EqDecision EpochCell.
Proof. solve_decision. Defined.

Variant ShutdownClaimPhase := Available | Claimed.

#[export] Instance ShutdownClaimPhase_eq_dec : EqDecision ShutdownClaimPhase.
Proof. solve_decision. Defined.

Section data.
Context {Task TaskFailure Family Retirement : Type}.

Variant EntityTaskRecord :=
  | Running (task : Task)
  | Joined
  | Failed (failure : TaskFailure).

Variant FamilyDrainPhase :=
  | NotStarted
  | Started (represented : N) (rows : list Family).

Record OpenTasks := {
  active : N;
  idle_epoch : option EpochCell;
  tasks : list EntityTaskRecord;
  shutdown : ShutdownClaimPhase;
  drain : FamilyDrainPhase;
  retired : list Family;
  retirements : list Retirement
}.

Variant EntityTaskState := Open (group : OpenTasks) | Closed.
End data.
Arguments EntityTaskRecord : clear implicits.
Arguments FamilyDrainPhase : clear implicits.
Arguments OpenTasks : clear implicits.
Arguments EntityTaskState : clear implicits.

Section operations.
Context {Task TaskFailure Family Retirement : Type}.
Local Abbreviation State := (EntityTaskState Task TaskFailure Family Retirement).
Local Abbreviation Group := (OpenTasks Task TaskFailure Family Retirement).
Local Abbreviation TaskRecord := (EntityTaskRecord Task TaskFailure).

Definition set_active (n : N) (epoch : option EpochCell) (g : Group) : Group :=
  {| active := n; idle_epoch := epoch; tasks := tasks g; shutdown := shutdown g;
     drain := drain g; retired := retired g; retirements := retirements g |}.
Definition set_tasks (l : list TaskRecord) (g : Group) : Group :=
  {| active := active g; idle_epoch := idle_epoch g; tasks := l; shutdown := shutdown g;
     drain := drain g; retired := retired g; retirements := retirements g |}.
Definition set_shutdown (p : ShutdownClaimPhase) (g : Group) : Group :=
  {| active := active g; idle_epoch := idle_epoch g; tasks := tasks g; shutdown := p;
     drain := drain g; retired := retired g; retirements := retirements g |}.
Definition set_drain (p : FamilyDrainPhase Family) (g : Group) : Group :=
  {| active := active g; idle_epoch := idle_epoch g; tasks := tasks g; shutdown := shutdown g;
     drain := p; retired := retired g; retirements := retirements g |}.
Definition set_retired (l : list Family) (g : Group) : Group :=
  {| active := active g; idle_epoch := idle_epoch g; tasks := tasks g; shutdown := shutdown g;
     drain := drain g; retired := l; retirements := retirements g |}.
Definition set_retirements (l : list Retirement) (g : Group) : Group :=
  {| active := active g; idle_epoch := idle_epoch g; tasks := tasks g; shutdown := shutdown g;
     drain := drain g; retired := retired g; retirements := l |}.

(** [let EntityTaskState::Open { .. } = &mut *state else panic!]. *)
Definition when_open {A} (op : Group → Group * option A) : Op State A :=
  λ state,
    match state with
    | Open g => let '(g, result) := op g in (Open g, result)
    | Closed => (Closed, panic!)
    end.

Definition EntityTaskGroup_new : State :=
  Open {| active := 0; idle_epoch := None; tasks := []; shutdown := Available;
          drain := NotStarted; retired := []; retirements := [] |}.

(** The guard returned stands for one later [finish]; [fresh] is the cell
    [pair] allocates when the epoch starts. *)
Definition begin (fresh : EpochCell) : Op State () :=
  when_open (λ g,
    let epoch := if (active g =? 0)%N then Some fresh else idle_epoch g in
    match checked_add usize_max (active g) 1 with
    | None => (set_active (active g) epoch g, panic!)
    | Some n => (set_active n epoch g, Some ())
    end).

(** [EntityShutdownClaim { tasks: Vec::new() }] on success. *)
Definition claim : Op State (option (list TaskRecord)) :=
  λ state,
    match state with
    | Open g =>
        match shutdown g with
        | Available => (Open (set_shutdown Claimed g), Some (Some []))
        | Claimed => (state, Some None)
        end
    | Closed => (state, Some None)
    end.

Definition track (task : Task) : Op State () :=
  when_open (λ g, (set_tasks (tasks g ++ [Running task]) g, Some ())).

(** One round of [wait_idle]: the observation to await, [None] when idle. *)
Definition idle_observation (state : State) : option EpochCell :=
  match state with
  | Open g => idle_epoch g
  | Closed => None
  end.

(** The result is the epoch completed, if this was the last guard. *)
Definition finish : Op State (option EpochCell) :=
  when_open (λ g,
    match checked_sub (active g) 1 with
    | None => (g, panic!)
    | Some n =>
        if (n =? 0)%N then (set_active n None g, Some (idle_epoch g))
        else (set_active n (idle_epoch g) g, Some None)
    end).

Definition retirement_failed (retirement : Retirement) : Op State () :=
  when_open (λ g, (set_retirements (retirements g ++ [retirement]) g, Some ())).

Definition retain_retired (row : Family) (matches : Retirement → bool) : Op State () :=
  when_open (λ g,
    (if existsb matches (retirements g) then set_retired (retired g ++ [row]) g else g, Some ())).

(** Closing twice is harmless; the four assertions panic before the change. *)
Definition close : Op State () :=
  λ state,
    match state with
    | Closed => (Closed, Some ())
    | Open g =>
        if negb (active g =? 0)%N then (state, panic!) else
        match idle_epoch g, tasks g, shutdown g with
        | None, [], Claimed => (Closed, Some ())
        | _, _, _ => (state, panic!)
        end
    end.

Definition record_drain (take : list Family) : Op State () :=
  when_open (λ g,
    match drain g with
    | NotStarted => (set_drain (Started (len take) take) g, Some ())
    | Started _ _ => (g, Some ())
    end).

Definition rows (copy : Family → Family) : Op State (list Family) :=
  when_open (λ g,
    match drain g with
    | Started _ l => (g, Some (map copy l))
    | NotStarted => (g, panic!)
    end).

(** On the claim's own records, appended to. *)
Definition take_tasks (own : list TaskRecord) : Op State (list TaskRecord) :=
  when_open (λ g,
    match shutdown g with
    | Claimed => (set_tasks [] g, Some (own ++ tasks g))
    | Available => (g, panic!)
    end).

(** The failures among joined records; a running one panics. *)
Fixpoint joined_failures (own : list TaskRecord) : option (list TaskFailure) :=
  match own with
  | [] => Some []
  | Failed failure :: own => failures ← joined_failures own; Some (failure :: failures)
  | Joined :: own => joined_failures own
  | Running _ :: _ => panic!
  end.

Definition take_family_rows : Op State (N * list Family * list Retirement) :=
  when_open (λ g,
    match drain g with
    | NotStarted => (set_drain NotStarted g, panic!)
    | Started represented l =>
        (set_retirements [] (set_retired [] (set_drain NotStarted g)),
         Some (represented, l ++ retired g, retirements g))
    end).

Definition complete (own : list TaskRecord) :
    Op State (N * list Family * list Retirement * list TaskFailure) :=
  failures ← expect (joined_failures own);
  taken ← take_family_rows;
  _ ← close;
  mret (taken, failures).

(** [Drop for EntityShutdownClaim]: the records go back, the claim reopens. *)
Definition drop_claim (own : list TaskRecord) (state : State) : State :=
  match state with
  | Open g => Open (set_shutdown Available (set_tasks (tasks g ++ own) g))
  | Closed => Closed
  end.
End operations.

(** ** The shutdown protocol

    Who calls the group, and when.  A call of [spawn_owned] runs [begin], hands
    the guard to a scheduled task and runs [track]; it is made by a caller
    holding the admission lock, by a task whose own guard is alive, or by the
    shutdown claimant while it interprets the drained rows. *)

Abbreviation TaskId := positive (only parsing).

Variant Owner := Caller | OwnerTask (task : TaskId) | Claimant.

#[export] Instance Owner_eq_dec : EqDecision Owner.
Proof. solve_decision. Defined.

(** Progress of an owner's current [spawn_owned]. *)
Variant Spawn := NoSpawn | Begun | Scheduled (task : TaskId).

(** Where the future of [shutdown] stands; the flag is [true] before the rows
    were drained, and [Listing] is between [record_drain] and [rows]. *)
Variant ShutdownPoint :=
  | Awaiting (first : bool)
  | Taking (first : bool)
  | Joining (first : bool)
  | Listing
  | Interpreting
  | Completing.

Section protocol.
Context {TaskFailure Family Retirement : Type}.
Local Abbreviation State := (EntityTaskState TaskId TaskFailure Family Retirement).
Local Abbreviation TaskRecord := (EntityTaskRecord TaskId TaskFailure).

(** The group, the admission flag, the owners that may call the group and the
    claim in progress; ghosts: the tasks ever scheduled and those joined. *)
Record ShutdownWorld := {
  group_state : State;
  admission_closed : bool;
  owners : list (Owner * Spawn);
  claimant : option (ShutdownPoint * list TaskRecord);
  spawned : list TaskId;
  joined : list TaskId
}.

Definition shutdown_init : ShutdownWorld :=
  {| group_state := EntityTaskGroup_new; admission_closed := false; owners := [];
     claimant := None; spawned := []; joined := [] |}.

Definition with_group (s : State) (l : list (Owner * Spawn)) (w : ShutdownWorld) : ShutdownWorld :=
  {| group_state := s; admission_closed := admission_closed w; owners := l;
     claimant := claimant w; spawned := spawned w; joined := joined w |}.
Definition with_claimant (s : State) (c : option (ShutdownPoint * list TaskRecord))
    (w : ShutdownWorld) : ShutdownWorld :=
  {| group_state := s; admission_closed := admission_closed w; owners := owners w;
     claimant := c; spawned := spawned w; joined := joined w |}.

Definition no_caller (l : list (Owner * Spawn)) : Prop := ∀ s, (Caller, s) ∉ l.

Definition is_running (record : TaskRecord) : bool :=
  match record with Running _ => true | _ => false end.

(** One critical section of one thread, or one await point of [shutdown]. *)
Inductive shutdown_step : ShutdownWorld → ShutdownWorld → Prop :=
  (** the admission lock, taken by a caller that found admission open *)
  | step_enter w :
      admission_closed w = false → no_caller (owners w) →
      shutdown_step w (with_group (group_state w) ((Caller, NoSpawn) :: owners w) w)
  | step_leave w pre post :
      owners w = pre ++ (Caller, NoSpawn) :: post →
      shutdown_step w (with_group (group_state w) (pre ++ post) w)
  (** [spawn_owned] *)
  | step_begin w pre o post fresh s :
      owners w = pre ++ (o, NoSpawn) :: post → begin fresh (group_state w) = (s, Some ()) →
      shutdown_step w (with_group s (pre ++ (o, Begun) :: post) w)
  | step_schedule w pre o post t :
      owners w = pre ++ (o, Begun) :: post → t ∉ spawned w →
      shutdown_step w {| group_state := group_state w; admission_closed := admission_closed w;
        owners := pre ++ (o, Scheduled t) :: post ++ [(OwnerTask t, NoSpawn)];
        claimant := claimant w; spawned := t :: spawned w; joined := joined w |}
  | step_track w pre o post t s :
      owners w = pre ++ (o, Scheduled t) :: post → track t (group_state w) = (s, Some ()) →
      shutdown_step w (with_group s (pre ++ (o, NoSpawn) :: post) w)
  (** a task ends and drops its guard *)
  | step_finish w pre t post s epoch :
      owners w = pre ++ (OwnerTask t, NoSpawn) :: post →
      finish (group_state w) = (s, Some epoch) →
      shutdown_step w (with_group s (pre ++ post) w)
  (** retirement evidence recorded by any owner *)
  | step_retirement_failed w o sp retirement s :
      (o, sp) ∈ owners w → retirement_failed retirement (group_state w) = (s, Some ()) →
      shutdown_step w (with_group s (owners w) w)
  | step_retain_retired w o sp row matches s :
      (o, sp) ∈ owners w → retain_retired row matches (group_state w) = (s, Some ()) →
      shutdown_step w (with_group s (owners w) w)
  (** [shutdown] *)
  | step_close_admission w :
      no_caller (owners w) →
      shutdown_step w {| group_state := group_state w; admission_closed := true;
        owners := owners w; claimant := claimant w; spawned := spawned w; joined := joined w |}
  | step_claim w s own :
      admission_closed w = true → claim (group_state w) = (s, Some (Some own)) →
      shutdown_step w (with_claimant s (Some (Awaiting true, own)) w)
  | step_idle w first own :
      claimant w = Some (Awaiting first, own) → idle_observation (group_state w) = None →
      shutdown_step w (with_claimant (group_state w) (Some (Taking first, own)) w)
  | step_take w first own s own' :
      claimant w = Some (Taking first, own) → take_tasks own (group_state w) = (s, Some own') →
      shutdown_step w (with_claimant s (Some (Joining first, own')) w)
  | step_join w first pre t post (result : Result () TaskFailure) :
      claimant w = Some (Joining first, pre ++ Running t :: post) →
      (∀ sp, (OwnerTask t, sp) ∉ owners w) →
      shutdown_step w {| group_state := group_state w; admission_closed := admission_closed w;
        owners := owners w;
        claimant := Some (Joining first, pre ++ match result with
                                                | Ok () => Joined
                                                | Err failure => Failed failure
                                                end :: post);
        spawned := spawned w; joined := t :: joined w |}
  | step_drain w own family s :
      claimant w = Some (Joining true, own) → existsb is_running own = false →
      record_drain family (group_state w) = (s, Some ()) →
      shutdown_step w (with_claimant s (Some (Listing, own)) w)
  | step_rows w own copy l s :
      claimant w = Some (Listing, own) → rows copy (group_state w) = (s, Some l) →
      shutdown_step w {| group_state := s; admission_closed := admission_closed w;
        owners := (Claimant, NoSpawn) :: owners w; claimant := Some (Interpreting, own);
        spawned := spawned w; joined := joined w |}
  | step_interpreted w own pre post :
      claimant w = Some (Interpreting, own) → owners w = pre ++ (Claimant, NoSpawn) :: post →
      shutdown_step w {| group_state := group_state w; admission_closed := admission_closed w;
        owners := pre ++ post; claimant := Some (Awaiting false, own);
        spawned := spawned w; joined := joined w |}
  | step_pending w own :
      claimant w = Some (Joining false, own) → existsb is_running own = false →
      shutdown_step w {| group_state := group_state w; admission_closed := admission_closed w;
        owners := (Claimant, NoSpawn) :: owners w; claimant := Some (Interpreting, own);
        spawned := spawned w; joined := joined w |}
  | step_settled w own :
      claimant w = Some (Joining false, own) → existsb is_running own = false →
      shutdown_step w (with_claimant (group_state w) (Some (Completing, own)) w)
  | step_complete w own s result :
      claimant w = Some (Completing, own) → complete own (group_state w) = (s, Some result) →
      shutdown_step w (with_claimant s None w)
  (** the future of [shutdown] is dropped at an await *)
  | step_drop w point own :
      claimant w = Some (point, own) → point ∉ [Listing; Interpreting; Completing] →
      shutdown_step w (with_claimant (drop_claim own (group_state w)) None w).

Definition shutdown_reachable (w : ShutdownWorld) : Prop := rtc shutdown_step shutdown_init w.

(** ** The invariant of the protocol *)

Definition owner_weight (owner : Owner * Spawn) : nat :=
  (match owner.1 with OwnerTask _ => 1 | _ => 0 end) +
  (match owner.2 with Begun => 1 | _ => 0 end).

(** Guards alive: one per unfinished task and one per [spawn_owned] that has
    begun and not scheduled. *)
Definition guards_alive (l : list (Owner * Spawn)) : nat := sum_list_with owner_weight l.

Definition claimants (l : list (Owner * Spawn)) : nat :=
  sum_list_with (λ owner, match owner.1 with Claimant => 1%nat | _ => 0%nat end) l.

Definition interpreting (c : option (ShutdownPoint * list TaskRecord)) : bool :=
  match c with Some (Interpreting, _) => true | _ => false end.

Definition handle_of (record : TaskRecord) : list TaskId :=
  match record with Running t => [t] | _ => [] end.

Definition scheduled_of (owner : Owner * Spawn) : list TaskId :=
  match owner.2 with Scheduled t => [t] | _ => [] end.

(** Past the wait, nobody can call the group any more. *)
Definition quiet (point : ShutdownPoint) : bool :=
  match point with Taking _ | Joining _ | Listing | Completing => true | _ => false end.

(** Past [take_tasks], until it interprets: the group tracks no handle. *)
Definition settling (point : ShutdownPoint) : bool :=
  match point with Joining _ | Listing | Completing => true | _ => false end.

Definition drained (point : ShutdownPoint) : bool :=
  match point with
  | Awaiting first | Taking first | Joining first => negb first
  | Listing | Interpreting | Completing => true
  end.

Definition is_started (p : FamilyDrainPhase Family) : bool :=
  match p with Started _ _ => true | NotStarted => false end.

Definition claim_inv (w : ShutdownWorld) (g : OpenTasks TaskId TaskFailure Family Retirement)
    (point : ShutdownPoint) (own : list TaskRecord) : Prop :=
  admission_closed w = true ∧
  (quiet point → owners w = []) ∧
  (drained point → is_started (drain g)) ∧
  (settling point → tasks g = []) ∧
  (point = Completing → existsb is_running own = false).

Definition open_inv (w : ShutdownWorld) (g : OpenTasks TaskId TaskFailure Family Retirement) : Prop :=
  active g = N.of_nat (guards_alive (owners w)) ∧
  (idle_epoch g = None ↔ active g = 0%N) ∧
  (admission_closed w = true → no_caller (owners w)) ∧
  spawned w ≡ₚ (tasks g ≫= handle_of) ++ (default [] (snd <$> claimant w) ≫= handle_of) ++
    joined w ++ (owners w ≫= scheduled_of) ∧
  claimants (owners w) = (if interpreting (claimant w) then 1%nat else 0%nat) ∧
  match claimant w with
  | None => shutdown g = Available
  | Some (point, own) => shutdown g = Claimed ∧ claim_inv w g point own
  end.

Definition shutdown_inv (w : ShutdownWorld) : Prop :=
  match group_state w with
  | Open g => open_inv w g
  | Closed => owners w = [] ∧ claimant w = None ∧ admission_closed w = true ∧
      spawned w ≡ₚ joined w
  end.

Lemma guards_app l k : guards_alive (l ++ k) = (guards_alive l + guards_alive k)%nat.
Proof. apply sum_list_with_app. Qed.
Lemma guards_cons o l : guards_alive (o :: l) = (owner_weight o + guards_alive l)%nat.
Proof. done. Qed.
Lemma claimants_app l k : claimants (l ++ k) = (claimants l + claimants k)%nat.
Proof. apply sum_list_with_app. Qed.
Lemma claimants_cons o l :
  claimants (o :: l) = ((match o.1 with Claimant => 1 | _ => 0 end) + claimants l)%nat.
Proof. done. Qed.

Lemma no_caller_app l k : no_caller (l ++ k) ↔ no_caller l ∧ no_caller k.
Proof. unfold no_caller. set_solver. Qed.
Lemma no_caller_cons o sp l : no_caller ((o, sp) :: l) ↔ o ≠ Caller ∧ no_caller l.
Proof.
  unfold no_caller. split.
  - intros Hn. split; [intros ->; apply (Hn sp); by left|]. intros s Hs. apply (Hn s). by right.
  - intros [Ho Hn] s [[= <- <-]|Hs]%elem_of_cons; [done|]. by apply (Hn s).
Qed.

(** With no caller, no claimant and no guard alive, nobody is left. *)
Lemma nobody_left l : no_caller l → claimants l = 0%nat → guards_alive l = 0%nat → l = [].
Proof.
  destruct l as [|[o sp] l]; [done|]. rewrite no_caller_cons, claimants_cons, guards_cons.
  intros [Ho _] Hc Hg. destruct o; simpl in *; done || lia.
Qed.
End protocol.
Create Rewrite HintDb shutdown.
#[export] Hint Rewrite @guards_app @guards_cons @claimants_app @claimants_cons @no_caller_app
  @no_caller_cons @bind_app : shutdown.
Arguments ShutdownWorld : clear implicits.

Section protocol_lemmas.
Context {TaskFailure Family Retirement : Type}.
Local Abbreviation World := (ShutdownWorld TaskFailure Family Retirement).
Local Abbreviation Group := (OpenTasks TaskId TaskFailure Family Retirement).
Implicit Types (w : World) (g : Group).

Lemma claim_inv_owners w w' g g' point own :
  claim_inv w g point own → admission_closed w' = admission_closed w →
  (owners w = [] → owners w' = []) → (is_started (drain g) → is_started (drain g')) →
  (owners w = [] → tasks g = [] → tasks g' = []) → claim_inv w' g' point own.
Proof.
  intros (Ha & Hq & Hd & Ht & Hr) Ha' Ho Hdr Htk. split_and!; try by auto.
  - by rewrite Ha'.
  - intros Hp. apply Htk; [|by apply Ht]. apply Hq. by destruct point.
Qed.

(** A step of one owner's [spawn_owned] keeps the claim. *)
Ltac owner_claim :=
  match goal with
  | |- match claimant ?w with _ => _ end => destruct (claimant w) as [[point own]|]; [|done]
  end;
  match goal with
  | H : _ ∧ claim_inv _ _ _ _ |- _ =>
      let Hs := fresh in let Hc := fresh in destruct H as [Hs Hc];
      split; [exact Hs|]; eapply claim_inv_owners; [exact Hc|done| |done|done]
  end;
  match goal with
  | H : owners ?w = ?pre ++ _ :: _ |- _ => rewrite H; by destruct pre
  end.

Lemma begin_inv w pre o post fresh s :
  shutdown_inv w → owners w = pre ++ (o, NoSpawn) :: post →
  begin fresh (group_state w) = (s, Some ()) →
  shutdown_inv (with_group s (pre ++ (o, Begun) :: post) w).
Proof.
  unfold shutdown_inv, begin, when_open. destruct (group_state w) as [g|]; [|done].
  intros (Ha & Hi & Hc & Hp & Hk & Hs) Ho Hb.
  destruct (checked_add _ _ _) as [n|] eqn:Hn; [|done]. injection Hb as <-.
  apply checked_add_Some in Hn as [-> Hmax]. simpl. unfold open_inv. simpl.
  rewrite Ho in Ha, Hc, Hp, Hk. autorewrite with shutdown in *. split_and!.
  - unfold owner_weight in *. simpl in *. lia.
  - destruct (N.eqb_spec (active g) 0); split; [done|lia| |lia]. intros ?%Hi. lia.
  - naive_solver.
  - rewrite Hp. csimpl. autorewrite with shutdown. done.
  - done.
  - owner_claim.
Qed.

Lemma schedule_inv w pre o post t :
  shutdown_inv w → owners w = pre ++ (o, Begun) :: post →
  shutdown_inv {| group_state := group_state w; admission_closed := admission_closed w;
    owners := pre ++ (o, Scheduled t) :: post ++ [(OwnerTask t, NoSpawn)];
    claimant := claimant w; spawned := t :: spawned w; joined := joined w |}.
Proof.
  unfold shutdown_inv. simpl. destruct (group_state w) as [g|];
    [|intros (Hn & _) Ho; rewrite Ho in Hn; by destruct pre].
  intros (Ha & Hi & Hc & Hp & Hk & Hs) Ho. unfold open_inv. simpl.
  rewrite Ho in Ha, Hc, Hp, Hk. autorewrite with shutdown in *. split_and!.
  - unfold owner_weight in *. simpl in *. lia.
  - done.
  - intros Hclosed. destruct (Hc Hclosed) as (? & ? & ?). split_and!; try done.
    intros sp Hin. by apply elem_of_nil in Hin.
  - rewrite Hp. csimpl. autorewrite with shutdown. csimpl. rewrite app_nil_r. solve_Permutation.
  - simpl in *. lia.
  - owner_claim.
Qed.

Lemma track_inv w pre o post t s :
  shutdown_inv w → owners w = pre ++ (o, Scheduled t) :: post →
  track t (group_state w) = (s, Some ()) →
  shutdown_inv (with_group s (pre ++ (o, NoSpawn) :: post) w).
Proof.
  unfold shutdown_inv, track, when_open. destruct (group_state w) as [g|]; [|done].
  intros (Ha & Hi & Hc & Hp & Hk & Hs) Ho [= <-]. unfold open_inv. simpl.
  rewrite Ho in Ha, Hc, Hp, Hk. autorewrite with shutdown in *. split_and!.
  - unfold owner_weight in *. simpl in *. lia.
  - done.
  - naive_solver.
  - rewrite Hp. csimpl. autorewrite with shutdown. csimpl. solve_Permutation.
  - done.
  - destruct (claimant w) as [[point own]|]; [|done]. destruct Hs as [Hshutdown Hclaim].
    split; [done|]. eapply claim_inv_owners; [exact Hclaim|done| |done|];
      rewrite Ho; by destruct pre.
Qed.

Lemma finish_inv w pre t post s epoch :
  shutdown_inv w → owners w = pre ++ (OwnerTask t, NoSpawn) :: post →
  finish (group_state w) = (s, Some epoch) →
  shutdown_inv (with_group s (pre ++ post) w).
Proof.
  unfold shutdown_inv, finish, when_open. destruct (group_state w) as [g|]; [|done].
  intros (Ha & Hi & Hc & Hp & Hk & Hs) Ho Hf.
  destruct (checked_sub (active g) 1) as [n|] eqn:Hn; [|done]. apply checked_sub_Some in Hn.
  assert (s = Open (set_active n (if (n =? 0)%N then None else idle_epoch g) g)) as ->
    by (by destruct (n =? 0)%N; injection Hf).
  simpl. unfold open_inv. simpl.
  rewrite Ho in Ha, Hc, Hp, Hk. autorewrite with shutdown in *. split_and!.
  - unfold owner_weight in *. simpl in *. lia.
  - destruct (N.eqb_spec n 0); [done|]. split; [intros ?%Hi; lia|lia].
  - naive_solver.
  - rewrite Hp. csimpl. autorewrite with shutdown. done.
  - simpl in *. lia.
  - owner_claim.
Qed.

(** A call that records evidence: the counters, handles and claim are as they were. *)
Lemma record_inv w g :
  shutdown_inv w → (∃ g0, group_state w = Open g0 ∧ active g = active g0 ∧
    idle_epoch g = idle_epoch g0 ∧ tasks g = tasks g0 ∧ shutdown g = shutdown g0 ∧
    drain g = drain g0) →
  shutdown_inv (with_group (Open g) (owners w) w).
Proof.
  intros Hinv (g0 & Hg0 & Ha & He & Ht & Hs & Hd). unfold shutdown_inv in *. rewrite Hg0 in Hinv.
  simpl. unfold open_inv in *. simpl. rewrite Ha, He, Ht, Hs.
  destruct Hinv as (? & ? & ? & ? & ? & Hc). split_and!; try done.
  destruct (claimant w) as [[point own]|]; [|done]. destruct Hc as [? Hc]. split; [done|].
  eapply claim_inv_owners; [exact Hc|done|done|by rewrite Hd|by rewrite Ht].
Qed.

Lemma enter_inv w :
  shutdown_inv w → admission_closed w = false →
  shutdown_inv (with_group (group_state w) ((Caller, NoSpawn) :: owners w) w).
Proof.
  unfold shutdown_inv. simpl. destruct (group_state w) as [g|]; [|intros (_ & _ & ? & _); congruence].
  intros (Ha & Hi & Hc & Hp & Hk & Hs) Hopen. unfold open_inv. simpl.
  split_and!; try done; try congruence.
  - destruct (claimant w) as [[point own]|]; [|done]. destruct Hs as [_ [? _]]. congruence.
Qed.

Lemma leave_inv w pre post :
  shutdown_inv w → owners w = pre ++ (Caller, NoSpawn) :: post →
  shutdown_inv (with_group (group_state w) (pre ++ post) w).
Proof.
  unfold shutdown_inv. simpl. destruct (group_state w) as [g|];
    [|intros (Hn & _) Ho; rewrite Ho in Hn; by destruct pre].
  intros (Ha & Hi & Hc & Hp & Hk & Hs) Ho. unfold open_inv. simpl.
  rewrite Ho in Ha, Hc, Hp, Hk. autorewrite with shutdown in *. split_and!; try done.
  - naive_solver.
  - owner_claim.
Qed.

Lemma close_admission_inv w :
  shutdown_inv w → no_caller (owners w) →
  shutdown_inv {| group_state := group_state w; admission_closed := true;
    owners := owners w; claimant := claimant w; spawned := spawned w; joined := joined w |}.
Proof.
  unfold shutdown_inv. simpl. destruct (group_state w) as [g|]; [|naive_solver].
  intros (Ha & Hi & Hc & Hp & Hk & Hs) Hn. unfold open_inv. simpl. split_and!; try done.
  destruct (claimant w) as [[point own]|]; [|done]. destruct Hs as [? Hs]. split; [done|].
  eapply claim_inv_owners; [exact Hs|by destruct Hs as [-> _]|done..].
Qed.

Lemma claim_step_inv w s own :
  shutdown_inv w → admission_closed w = true →
  claim (group_state w) = (s, Some (Some own)) →
  shutdown_inv (with_claimant s (Some (Awaiting true, own)) w).
Proof.
  unfold shutdown_inv, claim. destruct (group_state w) as [g|]; [|done].
  intros (Ha & Hi & Hc & Hp & Hk & Hs) Hcl Hclaim.
  destruct (shutdown g) eqn:Hsd; [|done]. injection Hclaim as <- <-.
  destruct (claimant w) as [[point own]|]; [by destruct Hs|].
  simpl. unfold open_inv, claim_inv. simpl. split_and!; done.
Qed.

(** The wait of the claimant returns only when nobody can call the group. *)
Lemma idle_inv w first own :
  shutdown_inv w → claimant w = Some (Awaiting first, own) →
  idle_observation (group_state w) = None →
  shutdown_inv (with_claimant (group_state w) (Some (Taking first, own)) w).
Proof.
  unfold shutdown_inv. simpl. destruct (group_state w) as [g|] eqn:Hg; [|intros (_ & ? & _); congruence].
  intros (Ha & Hi & Hc & Hp & Hk & Hs) Hw Hidle. rewrite Hw in Hs, Hk, Hp.
  destruct Hs as (Hsd & Hcl & Hq & Hd & Ht & Hr). simpl in Hidle, Hk.
  apply Hi in Hidle. assert (owners w = []) as Hnobody.
  { apply nobody_left; [by apply Hc|done|lia]. }
  unfold open_inv, claim_inv. simpl. split_and!; done.
Qed.

Lemma take_inv w first own s own' :
  shutdown_inv w → claimant w = Some (Taking first, own) →
  take_tasks own (group_state w) = (s, Some own') →
  shutdown_inv (with_claimant s (Some (Joining first, own')) w).
Proof.
  unfold shutdown_inv, take_tasks, when_open. destruct (group_state w) as [g|]; [|done].
  intros (Ha & Hi & Hc & Hp & Hk & Hs) Hw Htake. rewrite Hw in Hs, Hk, Hp.
  destruct Hs as (Hsd & Hcl & Hq & Hd & Ht & Hr). rewrite Hsd in Htake. injection Htake as <- <-.
  simpl. unfold open_inv, claim_inv. simpl in *. split_and!; try done.
  rewrite Hp. autorewrite with shutdown. solve_Permutation.
Qed.

Lemma join_inv w first pre t post (result : Result () TaskFailure) :
  shutdown_inv w → claimant w = Some (Joining first, pre ++ Running t :: post) →
  shutdown_inv {| group_state := group_state w; admission_closed := admission_closed w;
    owners := owners w;
    claimant := Some (Joining first, pre ++ match result with
                                            | Ok () => Joined
                                            | Err failure => Failed failure
                                            end :: post);
    spawned := spawned w; joined := t :: joined w |}.
Proof.
  unfold shutdown_inv. simpl. destruct (group_state w) as [g|]; [|intros (_ & ? & _); congruence].
  intros (Ha & Hi & Hc & Hp & Hk & Hs) Hw. rewrite Hw in Hs, Hk, Hp.
  destruct Hs as (Hsd & Hcl & Hq & Hd & Ht & Hr). unfold open_inv, claim_inv. simpl in *. split_and!; try done.
  rewrite Hp. autorewrite with shutdown. csimpl. destruct result as [[]|f]; csimpl; solve_Permutation.
Qed.

(** The claimant turns to the rows: it may spawn again. *)
Lemma interpret_inv w g0 g point own :
  shutdown_inv w → claimant w = Some (point, own) → settling point → point ≠ Completing →
  group_state w = Open g0 →
  active g = active g0 → idle_epoch g = idle_epoch g0 → tasks g = tasks g0 →
  shutdown g = shutdown g0 → is_started (drain g) →
  shutdown_inv {| group_state := Open g; admission_closed := admission_closed w;
    owners := (Claimant, NoSpawn) :: owners w; claimant := Some (Interpreting, own);
    spawned := spawned w; joined := joined w |}.
Proof.
  intros Hinv Hw Hpoint Hn Hg Ea Ee Et Es Hstart. unfold shutdown_inv in *. rewrite Hg in Hinv. simpl.
  destruct Hinv as (Ha & Hi & Hc & Hp & Hk & Hs). rewrite Hw in Hs, Hk, Hp.
  destruct Hs as (Hsd & Hcl & Hq & Hd & Ht & Hr). unfold open_inv, claim_inv. simpl in *.
  rewrite Ea, Ee, Et, Es. autorewrite with shutdown. split_and!; try done.
  - intros Had. split; [done|]. by apply Hc.
  - rewrite Hk. by destruct point.
Qed.

(** The drain starts the family: nobody else is there to see it. *)
Lemma drain_inv w own family s :
  shutdown_inv w → claimant w = Some (Joining true, own) →
  record_drain family (group_state w) = (s, Some ()) →
  shutdown_inv (with_claimant s (Some (Listing, own)) w).
Proof.
  unfold shutdown_inv, record_drain, when_open. destruct (group_state w) as [g|]; [|done].
  intros (Ha & Hi & Hc & Hp & Hk & Hs) Hw Hd. rewrite Hw in Hs, Hk, Hp.
  destruct Hs as (Hsd & Hcl & Hq & _ & Ht & Hr).
  destruct (drain g) eqn:Hdr; injection Hd as <-; simpl; unfold open_inv, claim_inv; simpl in *;
    rewrite ?Hdr; split_and!; done.
Qed.

Lemma interpreted_inv w own pre post :
  shutdown_inv w → claimant w = Some (Interpreting, own) →
  owners w = pre ++ (Claimant, NoSpawn) :: post →
  shutdown_inv {| group_state := group_state w; admission_closed := admission_closed w;
    owners := pre ++ post; claimant := Some (Awaiting false, own);
    spawned := spawned w; joined := joined w |}.
Proof.
  unfold shutdown_inv. simpl. destruct (group_state w) as [g|]; [|intros (_ & ? & _); congruence].
  intros (Ha & Hi & Hc & Hp & Hk & Hs) Hw Ho. rewrite Hw in Hs, Hk, Hp.
  destruct Hs as (Hsd & Hcl & Hq & Hd & Ht & Hr). unfold open_inv, claim_inv. simpl in *.
  rewrite Ho in Ha, Hc, Hp, Hk. autorewrite with shutdown in *. simpl in *. split_and!; try done.
  - naive_solver.
  - lia.
Qed.

Lemma drop_inv w point own :
  shutdown_inv w → claimant w = Some (point, own) → point ∉ [Listing; Interpreting; Completing] →
  shutdown_inv (with_claimant (drop_claim own (group_state w)) None w).
Proof.
  unfold shutdown_inv. simpl. destruct (group_state w) as [g|]; [|intros (_ & ? & _); congruence].
  intros (Ha & Hi & Hc & Hp & Hk & Hs) Hw Hn. rewrite Hw in Hs, Hk, Hp.
  destruct Hs as (Hsd & Hcl & Hq & Hd & Ht & Hr). simpl. unfold open_inv, claim_inv. simpl in *. split_and!; try done.
  - rewrite Hp. autorewrite with shutdown. solve_Permutation.
  - rewrite Hk. destruct point; try done. set_solver.
Qed.

(** Without running records the failures are all there is to report. *)
Lemma joined_failures_spec (own : list (EntityTaskRecord TaskId TaskFailure)) :
  existsb is_running own = false →
  joined_failures own = Some (own ≫= λ record, match record with Failed f => [f] | _ => [] end) ∧
  own ≫= handle_of = [].
Proof.
  induction own as [|[t| |f] own IH]; simpl; intros Hr; csimpl; [done|done|by apply IH|].
  destruct (IH Hr) as [Hf Hh]. split; [by rewrite Hf|exact Hh].
Qed.

Definition failures_of (own : list (EntityTaskRecord TaskId TaskFailure)) : list TaskFailure :=
  own ≫= λ record, match record with Failed f => [f] | _ => [] end.

(** Completing a quiet claim passes every assertion and closes the group. *)
Lemma complete_spec g represented family (own : list (EntityTaskRecord TaskId TaskFailure)) :
  active g = 0%N → idle_epoch g = None → tasks g = [] → shutdown g = Claimed →
  drain g = Started represented family → existsb is_running own = false →
  complete own (Open g) =
    (Closed, Some (represented, family ++ retired g, retirements g, failures_of own)).
Proof.
  intros Ha Hi Ht Hs Hd Hr. destruct (joined_failures_spec own Hr) as [Hf _].
  unfold complete, expect, take_family_rows, when_open, close, mbind, Op_bind.
  rewrite Hf, Hd. simpl. by rewrite Ha, Hi, Ht, Hs.
Qed.

Lemma claimant_quiet w g point own :
  group_state w = Open g → shutdown_inv w → claimant w = Some (point, own) → quiet point →
  owners w = [] ∧ active g = 0%N ∧ idle_epoch g = None ∧ shutdown g = Claimed ∧
  claim_inv w g point own.
Proof.
  unfold shutdown_inv. intros ->. intros (Ha & Hi & Hc & Hp & Hk & Hs) Hw Hq. rewrite Hw in Hs.
  destruct Hs as [Hs Hcl]. pose proof (proj1 (proj2 Hcl) Hq) as Ho. rewrite Ho in Ha.
  split_and!; try done. by apply Hi.
Qed.

Lemma complete_inv w own :
  shutdown_inv w → claimant w = Some (Completing, own) →
  ∃ g represented family, group_state w = Open g ∧ drain g = Started represented family ∧
    complete own (group_state w) =
      (Closed, Some (represented, family ++ retired g, retirements g, failures_of own)) ∧
    shutdown_inv (with_claimant Closed None w).
Proof.
  intros Hinv Hw. pose proof Hinv as Hinv'. unfold shutdown_inv in Hinv'.
  destruct (group_state w) as [g|] eqn:Hg; [|naive_solver].
  destruct (claimant_quiet _ _ _ _ Hg Hinv Hw I) as (Ho & Ha & Hi & Hs & Had & _ & Hd & Ht & Hr).
  specialize (Hd I). destruct (drain g) as [|represented family] eqn:Hdr; [done|].
  exists g, represented, family. split_and!; [done..| |].
  - apply complete_spec; try done; [by apply Ht|by apply Hr].
  - unfold shutdown_inv. simpl. split_and!; try done.
    destruct Hinv' as (_ & _ & _ & Hp & _ & _). rewrite Hp, Hw, Ho, Ht by done. simpl.
    destruct (joined_failures_spec own (Hr eq_refl)) as [_ ->]. by rewrite app_nil_r.
Qed.

(** Whoever can call the group finds it open. *)
Lemma open_of_owner w :
  shutdown_inv w → ∀ o sp, (o, sp) ∈ owners w → ∃ g, group_state w = Open g ∧ open_inv w g.
Proof.
  unfold shutdown_inv. intros Hw o sp Hin. destruct (group_state w) as [g|]; [by exists g|].
  destruct Hw as (Hn & _). rewrite Hn in Hin. by apply elem_of_nil in Hin.
Qed.

Lemma open_of_claimant w :
  shutdown_inv w → ∀ point own, claimant w = Some (point, own) →
  ∃ g, group_state w = Open g ∧ shutdown g = Claimed ∧ claim_inv w g point own.
Proof.
  unfold shutdown_inv. intros Hw point own Hc. destruct (group_state w) as [g|]; [|naive_solver].
  exists g. split; [done|]. destruct Hw as (_ & _ & _ & _ & _ & Hs). by rewrite Hc in Hs.
Qed.

Lemma guard_counted (l : list (Owner * Spawn)) t sp :
  (OwnerTask t, sp) ∈ l → (0 < guards_alive l)%nat.
Proof.
  intros (pre & post & ->)%list_elem_of_split. rewrite guards_app, guards_cons.
  unfold owner_weight. simpl. lia.
Qed.

Lemma shutdown_step_inv w w' : shutdown_inv w → shutdown_step w w' → shutdown_inv w'.
Proof.
  intros Hinv Hstep. destruct Hstep.
  - by apply enter_inv.
  - by eapply leave_inv.
  - by eapply begin_inv.
  - by apply schedule_inv.
  - by eapply track_inv.
  - by eapply finish_inv.
  - unfold retirement_failed, when_open in *. destruct (group_state w) as [g|] eqn:Hg; [|done].
    simplify_eq/=. apply record_inv; [done|]. by exists g.
  - unfold retain_retired, when_open in *. destruct (group_state w) as [g|] eqn:Hg; [|done].
    simplify_eq/=. apply record_inv; [done|]. exists g. by case_match.
  - by apply close_admission_inv.
  - by eapply claim_step_inv.
  - by eapply idle_inv.
  - by eapply take_inv.
  - by apply join_inv.
  - by eapply drain_inv.
  - unfold rows, when_open in *. destruct (group_state w) as [g|] eqn:Hg; [|done].
    destruct (drain g) as [|n k] eqn:Hd; simplify_eq/=. eapply interpret_inv; try done.
    by rewrite Hd.
  - by eapply interpreted_inv.
  - destruct (group_state w) as [g|] eqn:Hg.
    + eapply interpret_inv; try done.
      destruct (claimant_quiet _ _ _ _ Hg Hinv H I) as (_ & _ & _ & _ & _ & _ & Hd & _). by apply Hd.
    + unfold shutdown_inv in Hinv. rewrite Hg in Hinv. naive_solver.
  - destruct (group_state w) as [g|] eqn:Hg.
    + pose proof Hinv as Hinv'. unfold shutdown_inv in *. rewrite Hg in Hinv. simpl.
      destruct Hinv as (Ha & Hi & Hc & Hp & Hk & Hs). rewrite H in Hs, Hk, Hp.
      destruct Hs as (Hsd & Hcl & Hq & Hd & Ht & Hr). unfold open_inv, claim_inv. simpl in *.
      split_and!; done.
    + unfold shutdown_inv in Hinv. rewrite Hg in Hinv. naive_solver.
  - destruct (complete_inv _ _ Hinv H) as (g & n & l & Hg & _ & Hc & Hdone).
    rewrite Hg in Hc, H0. rewrite Hc in H0. by injection H0 as <- _.
  - by eapply drop_inv.
Qed.

Lemma shutdown_reachable_inv w : shutdown_reachable w → shutdown_inv w.
Proof.
  apply rtc_ind_r; [|intros; by eapply shutdown_step_inv].
  unfold shutdown_inv. simpl. unfold open_inv. simpl. split_and!; done.
Qed.
End protocol_lemmas.

(** ** Properties *)

Section properties.
Context {TaskFailure Family Retirement : Type}.
Implicit Types (w : ShutdownWorld TaskFailure Family Retirement).

(** C38: the shutdown protocol never trips its own panics. In every reachable
    world an owner may begin a task as long as fewer than [usize::MAX] guards
    are alive, track one, end one, and record retirement evidence, without
    finding the group closed. The claimant that stopped waiting finds its claim
    still standing and takes every handle; with its handles joined it records
    the drain, then lists the very rows recorded; and at its end it passes every
    assertion of [complete] and [close] and receives the drained and retired
    rows, the retirement failures and the task failures. *)
Theorem shutdown_never_panics w :
  shutdown_reachable w →
  (∀ o, (o, NoSpawn) ∈ owners w → (N.of_nat (guards_alive (owners w)) < usize_max)%N →
     ∀ fresh, (begin fresh (group_state w)).2 = Some ()) ∧
  (∀ o sp t, (o, sp) ∈ owners w → (track t (group_state w)).2 = Some ()) ∧
  (∀ t, (OwnerTask t, NoSpawn) ∈ owners w → is_Some (finish (group_state w)).2) ∧
  (∀ o sp retirement row matches, (o, sp) ∈ owners w →
     (retirement_failed retirement (group_state w)).2 = Some () ∧
     (retain_retired row matches (group_state w)).2 = Some ()) ∧
  (∀ first own, claimant w = Some (Taking first, own) → ∃ g, group_state w = Open g ∧
     take_tasks own (group_state w) = (Open (set_tasks [] g), Some (own ++ tasks g))) ∧
  (∀ own family, claimant w = Some (Joining true, own) →
     (record_drain family (group_state w)).2 = Some ()) ∧
  (∀ own copy, claimant w = Some (Listing, own) → ∃ g represented family,
     group_state w = Open g ∧ drain g = Started represented family ∧
     rows copy (group_state w) = (group_state w, Some (map copy family))) ∧
  (∀ own, claimant w = Some (Completing, own) → ∃ g represented family,
     group_state w = Open g ∧ drain g = Started represented family ∧
     complete own (group_state w) =
       (Closed, Some (represented, family ++ retired g, retirements g, failures_of own))).
Proof.
  intros Hw%shutdown_reachable_inv.
  pose proof (open_of_owner w Hw) as Hopen. pose proof (open_of_claimant w Hw) as Hclaim.
  split_and!.
  - intros o Hin Hmax fresh. destruct (Hopen _ _ Hin) as (g & -> & Ha & _). simpl.
    destruct (checked_add _ _ _) as [n|] eqn:Hn; [done|]. apply checked_add_None in Hn. lia.
  - intros o sp t Hin. by destruct (Hopen _ _ Hin) as (g & -> & _).
  - intros t Hin. destruct (Hopen _ _ Hin) as (g & -> & Ha & _). simpl.
    destruct (checked_sub _ _) as [n|] eqn:Hn; [simpl; destruct (n =? 0)%N; simpl; eauto|].
    apply checked_sub_None in Hn. by apply guard_counted in Hin; lia.
  - intros o sp retirement row matches Hin. by destruct (Hopen _ _ Hin) as (g & -> & _).
  - intros first own Hc. destruct (Hclaim _ _ Hc) as (g & -> & Hs & _). exists g.
    split; [done|]. unfold take_tasks, when_open. by rewrite Hs.
  - intros own family Hc. destruct (Hclaim _ _ Hc) as (g & -> & _). simpl. by destruct (drain g).
  - intros own copy Hc. destruct (Hclaim _ _ Hc) as (g & -> & _ & _ & _ & Hd & _).
    specialize (Hd I). destruct (drain g) as [|n l] eqn:Hg; [done|]. exists g, n, l.
    split_and!; [done..|]. unfold rows, when_open. by rewrite Hg.
  - intros own Hc. destruct (complete_inv _ _ Hw Hc) as (g & n & l & Hg & Hd & Hx & _). eauto 10.
Qed.

(** No task escapes shutdown: once the group is closed, no owner is left,
    and every task that was ever scheduled has been joined, each exactly once,
    even across shutdown futures that were dropped half way. *)
Lemma shutdown_joins_every_task w :
  shutdown_reachable w → group_state w = Closed →
  owners w = [] ∧ claimant w = None ∧ spawned w ≡ₚ joined w.
Proof.
  intros Hw%shutdown_reachable_inv Hclosed. unfold shutdown_inv in Hw. rewrite Hclosed in Hw.
  naive_solver.
Qed.

(** The idle epoch tells the truth: a round of [wait_idle] finds nothing
    to wait for exactly when no task is unfinished and no [spawn_owned] is
    between its guard and its schedule. *)
Lemma idle_epoch_tracks_guards w :
  shutdown_reachable w →
  (idle_observation (group_state w) = None ↔ guards_alive (owners w) = 0%nat).
Proof.
  intros Hw%shutdown_reachable_inv. unfold shutdown_inv in Hw.
  destruct (group_state w) as [g|]; simpl.
  - destruct Hw as (Ha & Hi & _). rewrite Hi. lia.
  - destruct Hw as (-> & _). done.
Qed.
End properties.

(** ** Concrete instances *)

Local Abbreviation DemoWorld := (ShutdownWorld N N N).

(** One task is scheduled by an admitted caller, ends, and is joined. *)
Definition settled_group : EntityTaskState positive N N N :=
  Open {| active := 0; idle_epoch := None; tasks := []; shutdown := Claimed;
          drain := Started 1 [7%N]; retired := []; retirements := [] |}.

Definition completing_world : DemoWorld :=
  {| group_state := settled_group; admission_closed := true; owners := [];
     claimant := Some (Completing, [Joined]); spawned := [1%positive]; joined := [1%positive] |}.

Lemma completing_reachable : shutdown_reachable completing_world.
Proof.
  unfold shutdown_reachable.
  eapply rtc_l; [apply step_enter; [done|intros s Hs; by apply elem_of_nil in Hs]|].
  eapply rtc_l; [eapply (step_begin _ [] _ [] (EpochCell_new 1)); reflexivity|].
  eapply rtc_l; [eapply (step_schedule _ [] _ [] 1); [reflexivity|apply not_elem_of_nil]|].
  eapply rtc_l; [eapply (step_track _ []); reflexivity|].
  eapply rtc_l; [eapply (step_leave _ []); reflexivity|].
  eapply rtc_l; [eapply (step_finish _ [] _ []); reflexivity|].
  eapply rtc_l; [apply step_close_admission; intros s Hs; by apply elem_of_nil in Hs|].
  eapply rtc_l; [eapply step_claim; reflexivity|].
  eapply rtc_l; [eapply step_idle; reflexivity|].
  eapply rtc_l; [eapply step_take; reflexivity|].
  eapply rtc_l; [eapply (step_join _ _ [] _ [] (Ok ())); [reflexivity|intros s; apply not_elem_of_nil]|].
  eapply rtc_l; [eapply (step_drain _ _ [7%N]); reflexivity|].
  eapply rtc_l; [eapply (step_rows _ _ id); reflexivity|].
  eapply rtc_l; [eapply (step_interpreted _ _ [] []); reflexivity|].
  eapply rtc_l; [eapply step_idle; reflexivity|].
  eapply rtc_l; [eapply step_take; reflexivity|].
  eapply rtc_l; [eapply step_settled; reflexivity|]. apply rtc_refl.
Qed.

Lemma shutdown_never_panics_witness :
  ∃ g represented family, group_state completing_world = Open g ∧
    drain g = Started represented family ∧
    complete [Joined] (group_state completing_world) =
      (Closed, Some (represented, family ++ retired g, retirements g, failures_of [Joined])).
Proof. by apply (shutdown_never_panics completing_world completing_reachable). Defined.

Lemma idle_epoch_tracks_guards_witness :
  idle_observation (group_state completing_world) = None ↔
  guards_alive (owners completing_world) = 0%nat.
Proof. apply (idle_epoch_tracks_guards completing_world completing_reachable). Defined.
