(* ===== verification/MutantsGate.v ===== *)
(** * The mutation-testing gate

    [crates/mutants-gate/src/main.rs]: the tallies of a mutation run, the
    baseline seeded from them and the check of a run against a baseline.

    Reading and parsing the files, and printing JSON, are parameters.  A
    [BTreeMap] is a [gmap] whose iteration sorts the keys; a [String] error is
    a string, as the code formats it.  The counters are bounded by the number of
    outcomes of one file, so they are [N]. *)

From stdpp Require Import strings pretty sorting.
From S2P Require Import Prelude.

Open Scope string_scope.
Open Scope list_scope.

(** ** Data *)

Variant Summary := Success | CaughtMutant | MissedMutant | Unviable | Timeout | Failure.

#[export] Instance Summary_eq_dec : EqDecision Summary.
Proof. solve_decision. Defined.

Record Candidate := {
  candidate_name : string;
  candidate_file : string;
  candidate_function : option string
}.

(** [Mutant] has the fields of [Candidate]. *)
Record Mutant := {
  mutant_name : string;
  mutant_file : string;
  mutant_function : option string
}.

Variant Scenario :=
  | Scenario_Baseline
  | Scenario_Mutant (mutant : Mutant).

Record Outcome := { summary : Summary; scenario : Scenario }.

Record Report := { outcomes : list Outcome }.

Record Baseline := {
  floors : gmap string N;
  known_zero_viable : list string;
  equivalent_mutants : list string
}.

Record Tally := { total : N; viable : N; unviable : N; missed : N; timeout : N }.

Definition Tally_default : Tally :=
  {| total := 0; viable := 0; unviable := 0; missed := 0; timeout := 0 |}.

(** ** Results, and maps in the order of their keys *)

Definition Checked (T : Type) : Type := Result T string.

#[export] Instance Checked_ret : MRet Checked := λ T x, Ok x.
#[export] Instance Checked_bind : MBind Checked := λ T U k r,
  match r with Ok x => k x | Err e => Err e end.

Definition key_le (a b : string) : Prop := String.leb a b = true.

#[export] Instance key_le_dec : RelDecision key_le := λ a b, decide (String.leb a b = true).

Definition sorted_keys {T} (m : gmap string T) : list string := merge_sort key_le (map fst (map_to_list m)).

Definition sorted_set (s : gset string) : list string := merge_sort key_le (elements s).

(** Iterating a [BTreeMap]. *)
Definition entries_of {T} (m : gmap string T) : list (string * T) :=
  omap (λ k, x ← m !! k; Some (k, x)) (sorted_keys m).

(** ** The tool *)

Definition key (file : string) (function : option string) : string :=
  match function with
  | None => file +:+ "::<module>"
  | Some value => file +:+ "::" +:+ value
  end.

Definition candidate_key (c : Candidate) : string := key (candidate_file c) (candidate_function c).
Definition mutant_key (m : Mutant) : string := key (mutant_file m) (mutant_function m).

Definition is_baseline (o : Outcome) : bool :=
  match scenario o with Scenario_Baseline => true | Scenario_Mutant _ => false end.

(** The checks on the unmutated baseline. *)
Definition check_unmutated (report : Report) : Checked () :=
  match List.filter is_baseline (outcomes report) with
  | [] => Err "the unmutated baseline is missing"
  | baseline :: rest =>
      match rest with
      | _ :: _ => Err "the unmutated baseline appears more than once"
      | [] =>
          if bool_decide (summary baseline = Success) then Ok ()
          else Err "the unmutated baseline did not pass"
      end
  end.

Fixpoint expected_keys (expected : gmap string string) (candidates : list Candidate) :
    Checked (gmap string string) :=
  match candidates with
  | [] => Ok expected
  | candidate :: candidates =>
      match expected !! candidate_name candidate with
      | Some _ => Err ("duplicate candidate: " +:+ candidate_name candidate)
      | None =>
          expected_keys (<[candidate_name candidate := candidate_key candidate]> expected) candidates
      end
  end.

Fixpoint check_reviewed (expected : gmap string string) (reviewed : list string) : Checked () :=
  match reviewed with
  | [] => Ok ()
  | name :: reviewed =>
      match expected !! name with
      | None => Err ("stale reviewed equivalent mutant: " +:+ name)
      | Some _ => check_reviewed expected reviewed
      end
  end.

Definition summary_debug (s : Summary) : string :=
  match s with
  | Success => "Success" | CaughtMutant => "CaughtMutant" | MissedMutant => "MissedMutant"
  | Unviable => "Unviable" | Timeout => "Timeout" | Failure => "Failure"
  end.

(** [tally.total += 1] and the counters of the outcome's summary. *)
Definition count (reviewed : bool) (s : Summary) (t : Tally) : option Tally :=
  match s with
  | CaughtMutant => Some {| total := total t + 1; viable := viable t + 1; unviable := unviable t;
      missed := missed t; timeout := timeout t |}
  | MissedMutant => Some {| total := total t + 1; viable := viable t + 1; unviable := unviable t;
      missed := (if reviewed then missed t else missed t + 1); timeout := timeout t |}
  | Timeout => Some {| total := total t + 1; viable := viable t + 1; unviable := unviable t;
      missed := missed t; timeout := timeout t + 1 |}
  | Unviable => Some {| total := total t + 1; viable := viable t; unviable := unviable t + 1;
      missed := missed t; timeout := timeout t |}
  | Success | Failure => None
  end.

(** One mutant outcome. *)
Definition tally_mutant (expected : gmap string string) (reviewed : gset string)
    (state : gmap string Tally * gset string) (s : Summary) (mutant : Mutant) :
    Checked (gmap string Tally * gset string) :=
  let '(result, observed) := state in
  let name := mutant_name mutant in
  match expected !! name with
  | None => Err ("unexpected mutant outcome: " +:+ name)
  | Some expected_key =>
      let k := mutant_key mutant in
      if bool_decide (k ≠ expected_key) then Err ("candidate identity changed: " +:+ name)
      else if bool_decide (name ∈ observed) then Err ("duplicate mutant outcome: " +:+ name)
      else if bool_decide (name ∈ reviewed ∧ s ≠ MissedMutant)
      then Err ("reviewed equivalent no longer missed: " +:+ name)
      else
        match count (bool_decide (name ∈ reviewed)) s (default Tally_default (result !! k)) with
        | None => Err ("invalid mutant outcome " +:+ name +:+ ": " +:+ summary_debug s)
        | Some tally => Ok (<[k := tally]> result, {[name]} ∪ observed)
        end
  end.

Fixpoint tally_outcomes (expected : gmap string string) (reviewed : gset string)
    (state : gmap string Tally * gset string) (l : list Outcome) :
    Checked (gmap string Tally * gset string) :=
  match l with
  | [] => Ok state
  | outcome :: l =>
      match scenario outcome with
      | Scenario_Baseline => tally_outcomes expected reviewed state l
      | Scenario_Mutant mutant =>
          state ← tally_mutant expected reviewed state (summary outcome) mutant;
          tally_outcomes expected reviewed state l
      end
  end.

Fixpoint check_complete (observed : gset string) (names : list string) : Checked () :=
  match names with
  | [] => Ok ()
  | name :: names =>
      if bool_decide (name ∈ observed) then check_complete observed names
      else Err ("incomplete candidate results: missing " +:+ name)
  end.

Definition tallies (report : Report) (candidates : list Candidate) (equivalent : list string) :
    Checked (gmap string Tally) :=
  _ ← check_unmutated report;
  match candidates with
  | [] => Err "no mutants were selected"
  | _ :: _ =>
      expected ← expected_keys ∅ candidates;
      let reviewed : gset string := list_to_set equivalent in
      if bool_decide (size reviewed ≠ length equivalent)
      then Err "duplicate reviewed equivalent mutant"
      else
        _ ← check_reviewed expected (sorted_set reviewed);
        counted ← tally_outcomes expected reviewed (∅, ∅) (outcomes report);
        let '(result, observed) := (counted : gmap string Tally * gset string) in
        _ ← check_complete observed (sorted_keys expected);
        Ok result
  end.

(** The loop of [emit_baseline] over the tallies. *)
Fixpoint seed (seeded : gmap string N * list string) (l : list (string * Tally)) :
    Checked (gmap string N * list string) :=
  match l with
  | [] => Ok seeded
  | (k, tally) :: l =>
      if (0 <? missed tally)%N || (0 <? timeout tally)%N
      then Err ("cannot seed baseline from survivor or timeout: " +:+ k)
      else if (viable tally =? 0)%N then
        if negb (unviable tally =? total tally)%N
        then Err ("non-unviable zero-viability outcome: " +:+ k)
        else seed (seeded.1, seeded.2 ++ [k]) l
      else seed (<[k := viable tally]> seeded.1, seeded.2) l
  end.

(** The value [emit_baseline] serializes. *)
Definition seed_baseline (report : Report) (candidates : list Candidate) (equivalent : list string) :
    Checked Baseline :=
  tallied ← tallies report candidates equivalent;
  seeded ← seed (∅, []) (entries_of tallied);
  Ok {| floors := seeded.1; known_zero_viable := seeded.2; equivalent_mutants := equivalent |}.

Definition emit_baseline (to_string_pretty : Baseline → Checked string) (report : Report)
    (candidates : list Candidate) (equivalent : list string) : Checked string :=
  baseline ← seed_baseline report candidates equivalent;
  to_string_pretty baseline.

Definition floor_failures (expected : gset string) (floor : string * N) : list string :=
  let '(k, n) := floor in
  if (n =? 0)%N then ["invalid zero floor: " +:+ k]
  else if bool_decide (k ∉ expected) then ["stale floor: " +:+ k] else [].

Definition known_zero_failures (expected : gset string) (fl : gmap string N) (k : string) :
    list string :=
  (if bool_decide (k ∉ expected) then ["stale known-zero-viable entry: " +:+ k] else []) ++
  (if bool_decide (is_Some (fl !! k)) then ["conflicting baseline entries: " +:+ k] else []).

Definition tally_failures (fl : gmap string N) (known_zero : gset string) (entry : string * Tally) :
    list string :=
  let '(k, tally) := entry in
  (if (0 <? missed tally)%N then [k +:+ ": " +:+ pretty (missed tally) +:+ " survivor(s)"] else []) ++
  (if (0 <? timeout tally)%N then [k +:+ ": " +:+ pretty (timeout tally) +:+ " timeout(s)"] else []) ++
  match fl !! k with
  | Some floor =>
      if (viable tally <? floor)%N
      then [k +:+ ": viability collapsed to " +:+ pretty (viable tally) +:+ " below " +:+ pretty floor]
      else []
  | None =>
      if bool_decide (k ∈ known_zero) then
        if (0 <? viable tally)%N || negb (unviable tally =? total tally)%N
        then [k +:+ ": known-zero-viable entry gained viable mutants"] else []
      else ["unaccounted: " +:+ k]
  end.

Definition newline : string := String (Ascii.ascii_of_nat 10) "".

(** [check] once its three files are read; the coverage line it prints first is
    not modelled. *)
Definition check_run (report : Report) (candidates : list Candidate) (baseline : Baseline) :
    Checked () :=
  tallied ← tallies report candidates (equivalent_mutants baseline);
  let expected : gset string := list_to_set (map candidate_key candidates) in
  let known_zero : gset string := list_to_set (known_zero_viable baseline) in
  let failures :=
    (if bool_decide (size known_zero ≠ length (known_zero_viable baseline))
     then ["duplicate known-zero-viable entry"] else []) ++
    (entries_of (floors baseline) ≫= floor_failures expected) ++
    (sorted_set known_zero ≫= known_zero_failures expected (floors baseline)) ++
    (entries_of tallied ≫= tally_failures (floors baseline) known_zero) in
  match failures with
  | [] => Ok ()
  | _ :: _ => Err (String.concat newline failures)
  end.

Section files.
Variables (read_report : string → string → Checked Report)
  (read_candidates : string → string → Checked (list Candidate))
  (read_baseline : string → Checked Baseline)
  (to_string_pretty : Baseline → Checked string).

Definition check (output baseline_path : string) : Checked () :=
  report ← read_report output "outcomes.json";
  candidates ← read_candidates output "mutants.json";
  baseline ← read_baseline baseline_path;
  check_run report candidates baseline.

(** The text printed on standard output by a successful [emit-baseline]. *)
Definition run (args : list string) : Checked (option string) :=
  match args with
  | [mode; output] =>
      if bool_decide (mode = "emit-baseline") then
        report ← read_report output "outcomes.json";
        candidates ← read_candidates output "mutants.json";
        printed ← emit_baseline to_string_pretty report candidates [];
        Ok (Some printed)
      else Err "usage: mutants-gate <emit-baseline OUT [REVIEWED_BASELINE] | check OUT BASELINE>"
  | [mode; output; baseline] =>
      if bool_decide (mode = "emit-baseline") then
        report ← read_report output "outcomes.json";
        candidates ← read_candidates output "mutants.json";
        reviewed ← read_baseline baseline;
        printed ← emit_baseline to_string_pretty report candidates (equivalent_mutants reviewed);
        Ok (Some printed)
      else if bool_decide (mode = "check") then _ ← check output baseline; Ok None
      else Err "usage: mutants-gate <emit-baseline OUT [REVIEWED_BASELINE] | check OUT BASELINE>"
  | _ => Err "usage: mutants-gate <emit-baseline OUT [REVIEWED_BASELINE] | check OUT BASELINE>"
  end.
End files.

(** ** Lemmas: results and ordered iteration *)

Lemma checked_bind_Ok {T U} (m : Checked T) (k : T → Checked U) y :
  m ≫= k = Ok y ↔ ∃ x, m = Ok x ∧ k x = Ok y.
Proof. destruct m as [x|e]; unfold mbind, Checked_bind; naive_solver. Qed.

(** Split a run that succeeded into its successful steps. *)
Ltac run_checked :=
  repeat match goal with
  | H : Err _ = Ok _ |- _ => discriminate H
  | H : Ok _ = Ok _ |- _ => injection H as H; subst
  | H : @mbind Checked _ _ _ _ _ = Ok _ |- _ => apply checked_bind_Ok in H as (? & ? & H)
  | H : (if ?b then _ else _) = Ok _ |- _ => destruct b eqn:?
  end.

Lemma sorted_keys_permutation {T} (m : gmap string T) : sorted_keys m ≡ₚ map fst (map_to_list m).
Proof. apply merge_sort_Permutation. Qed.

Lemma elem_of_sorted_keys {T} (m : gmap string T) k : k ∈ sorted_keys m ↔ is_Some (m !! k).
Proof.
  rewrite sorted_keys_permutation. rewrite list_elem_of_fmap. split.
  - intros ([k' x] & -> & Hx%elem_of_map_to_list). by exists x.
  - intros [x Hx%elem_of_map_to_list]. by exists (k, x).
Qed.

Lemma NoDup_sorted_keys {T} (m : gmap string T) : NoDup (sorted_keys m).
Proof. rewrite sorted_keys_permutation. apply NoDup_fst_map_to_list. Qed.

Lemma elem_of_sorted_set (s : gset string) k : k ∈ sorted_set s ↔ k ∈ s.
Proof. unfold sorted_set. rewrite merge_sort_Permutation. apply elem_of_elements. Qed.

Lemma elem_of_entries {T} (m : gmap string T) k x : (k, x) ∈ entries_of m ↔ m !! k = Some x.
Proof.
  unfold entries_of. rewrite list_elem_of_omap. split.
  - intros (k' & _ & Hk). destruct (m !! k') eqn:Hm; simpl in Hk; [|done]. by injection Hk as -> ->.
  - intros Hk. exists k. rewrite elem_of_sorted_keys, Hk. by split.
Qed.

Lemma bind_nil {A B} (l : list A) (f : A → list B) :
  l ≫= f = [] ↔ ∀ x, x ∈ l → f x = [].
Proof.
  induction l as [|x l IH]; csimpl.
  - split; [intros _ x Hx; by apply elem_of_nil in Hx|done].
  - split.
    + intros [Hx Hl]%app_nil y [->|Hy]%elem_of_cons; [done|]. by apply IH.
    + intros Hall. apply app_nil. split; [apply Hall; by left|].
      apply IH. intros y Hy. apply Hall. by right.
Qed.

Lemma size_list_to_set_le (l : list string) : (size (list_to_set l : gset string) ≤ length l)%nat.
Proof.
  induction l as [|y l IH]; [by rewrite list_to_set_nil, size_empty|].
  rewrite list_to_set_cons, size_union_alt, size_singleton. simpl.
  assert (size (list_to_set l ∖ {[y]} : gset string) ≤ size (list_to_set l : gset string))%nat
    by (apply subseteq_size; set_solver). lia.
Qed.

(** A set built from a list has its length exactly when nothing repeats. *)
Lemma size_list_to_set_NoDup (l : list string) :
  size (list_to_set l : gset string) = length l ↔ NoDup l.
Proof.
  split; [|apply size_list_to_set].
  induction l as [|x l IH]; intros Hs; [constructor|].
  rewrite list_to_set_cons in Hs. simpl in Hs. pose proof (size_list_to_set_le l) as Hle.
  destruct (decide (x ∈ (list_to_set l : gset string))) as [Hin|Hin].
  - rewrite subseteq_union_1_L in Hs by set_solver. lia.
  - rewrite size_union, size_singleton in Hs by set_solver.
    constructor; [by rewrite <- (elem_of_list_to_set (C := gset string))|apply IH; lia].
Qed.

(** ** Lemmas: the tallies *)

(** The mutant outcomes of a report, in order. *)
Definition mutants_of (l : list Outcome) : list (Summary * Mutant) :=
  omap (λ o, match scenario o with
             | Scenario_Mutant m => Some (summary o, m)
             | Scenario_Baseline => None
             end) l.

Definition in_key (k : string) (l : list (Summary * Mutant)) : list (Summary * Mutant) :=
  filter (λ o, mutant_key o.2 = k) l.

Definition is_viable (s : Summary) : bool :=
  match s with CaughtMutant | MissedMutant | Timeout => true | _ => false end.

Definition counted (p : Summary * Mutant → bool) (l : list (Summary * Mutant)) : N :=
  len (List.filter p l).

(** What a tally should hold for the outcomes of its key. *)
Definition reference_tally (reviewed : gset string) (l : list (Summary * Mutant)) : Tally :=
  {| total := len l;
     viable := counted (λ o, is_viable o.1) l;
     unviable := counted (λ o, bool_decide (o.1 = Unviable)) l;
     missed := counted (λ o, bool_decide (o.1 = MissedMutant ∧ mutant_name o.2 ∉ reviewed)) l;
     timeout := counted (λ o, bool_decide (o.1 = Timeout)) l |}.

Definition valid_summary (s : Summary) : Prop := s ≠ Success ∧ s ≠ Failure.

(** What [tally_outcomes] has established of the outcomes it went through. *)
Record tallied (expected : gmap string string) (reviewed : gset string)
    (result : gmap string Tally) (observed : gset string) (l : list (Summary * Mutant)) : Prop := {
  tallied_observed : observed = list_to_set (map (λ o, mutant_name o.2) l);
  tallied_once : NoDup (map (λ o, mutant_name o.2) l);
  tallied_expected : ∀ s m, (s, m) ∈ l →
    expected !! mutant_name m = Some (mutant_key m) ∧ valid_summary s ∧
    (mutant_name m ∈ reviewed → s = MissedMutant);
  tallied_counts : ∀ k, result !! k =
    if decide (in_key k l = []) then None else Some (reference_tally reviewed (in_key k l))
}.

Lemma counted_snoc p l o : counted p (l ++ [o]) = if p o then (counted p l + 1)%N else counted p l.
Proof.
  unfold counted. rewrite List.filter_app, len_app. simpl. destruct (p o); [by rewrite len_cons, len_nil|].
  rewrite len_nil. lia.
Qed.

Lemma count_reference reviewed s m l tally :
  count (bool_decide (mutant_name m ∈ reviewed)) s (reference_tally reviewed l) = Some tally →
  valid_summary s ∧ tally = reference_tally reviewed (l ++ [(s, m)]).
Proof.
  unfold reference_tally. rewrite len_app, !counted_snoc. simpl. rewrite len_cons, len_nil.
  destruct s; simpl; intros [= <-]; (split; [by split|]); repeat case_bool_decide;
    try done; try naive_solver.
Qed.

Lemma in_key_snoc k l s m :
  in_key k (l ++ [(s, m)]) =
    if decide (mutant_key m = k) then in_key k l ++ [(s, m)] else in_key k l.
Proof.
  unfold in_key. rewrite filter_app. simpl. rewrite filter_cons, filter_nil. simpl.
  case_decide; [done|]. apply app_nil_r.
Qed.

Lemma tally_mutant_tallied expected reviewed result observed l s m result' observed' :
  tallied expected reviewed result observed l →
  tally_mutant expected reviewed (result, observed) s m = Ok (result', observed') →
  tallied expected reviewed result' observed' (l ++ [(s, m)]).
Proof.
  intros [Ho Hnd He Hc] Ht. unfold tally_mutant in Ht.
  destruct (expected !! mutant_name m) as [k|] eqn:Hk; [|done].
  case_bool_decide as Hkey; [done|]. subst k.
  case_bool_decide as Hobs; [done|]. case_bool_decide as Hrev; [done|].
  assert (default Tally_default (result !! mutant_key m) =
    reference_tally reviewed (in_key (mutant_key m) l)) as Hd.
  { rewrite Hc. destruct (decide (in_key _ l = [])) as [Hn|Hn]; [by rewrite Hn|done]. }
  rewrite Hd in Ht. destruct (count _ _ _) as [tally|] eqn:Hcount; [|done].
  injection Ht as <- <-. apply count_reference in Hcount as [Hvalid ->]. split.
  - rewrite Ho, map_app. simpl. rewrite list_to_set_app_L. simpl. set_solver.
  - rewrite map_app. apply NoDup_app. split_and!; [done| |apply NoDup_singleton].
    intros name Hin [->|Hn]%elem_of_cons; [|by apply elem_of_nil in Hn].
    apply Hobs. rewrite Ho. by apply elem_of_list_to_set.
  - intros s' m' [Hin|[[= -> ->]|Hin]%elem_of_cons]%elem_of_app; [by apply He| |by apply elem_of_nil in Hin].
    split_and!; [done..|]. intros Hr. apply dec_stable. intros Hs. by apply Hrev.
  - intros k. rewrite in_key_snoc. destruct (decide (mutant_key m = k)) as [Hk'|Hk'].
    + subst k. rewrite lookup_insert_eq. rewrite decide_False; [done|]. by destruct (in_key _ l).
    + by rewrite lookup_insert_ne.
Qed.

Lemma tally_outcomes_tallied expected reviewed result observed l os result' observed' :
  tallied expected reviewed result observed l →
  tally_outcomes expected reviewed (result, observed) os = Ok (result', observed') →
  tallied expected reviewed result' observed' (l ++ mutants_of os).
Proof.
  revert result observed l. induction os as [|o os IH]; intros result observed l Hl Ht; simpl in Ht.
  - injection Ht as <- <-. by rewrite app_nil_r.
  - unfold mutants_of. csimpl. destruct (scenario o) as [|m]; [by eapply IH|].
    apply checked_bind_Ok in Ht as ([r ob] & Hm & Ht).
    rewrite cons_middle, app_assoc. eapply IH; [|done]. by eapply tally_mutant_tallied.
Qed.

Lemma check_complete_Ok observed names :
  check_complete observed names = Ok () → ∀ name, name ∈ names → name ∈ observed.
Proof.
  induction names as [|n names IH]; simpl; intros Hc name Hin; [by apply elem_of_nil in Hin|].
  case_bool_decide; [|done]. apply elem_of_cons in Hin as [->|Hin]; [done|]. by apply IH.
Qed.

Lemma check_reviewed_Ok expected names :
  check_reviewed expected names = Ok () → ∀ name, name ∈ names → is_Some (expected !! name).
Proof.
  induction names as [|n names IH]; simpl; intros Hc name Hin; [by apply elem_of_nil in Hin|].
  destruct (expected !! n) eqn:Hn; [|done]. apply elem_of_cons in Hin as [->|Hin]; [by eexists|].
  by apply IH.
Qed.

Lemma expected_keys_Ok acc candidates expected :
  expected_keys acc candidates = Ok expected →
  NoDup (map candidate_name candidates) ∧
  (∀ c, c ∈ candidates → acc !! candidate_name c = None) ∧
  ∀ name k, expected !! name = Some k ↔
    acc !! name = Some k ∨ ∃ c, c ∈ candidates ∧ candidate_name c = name ∧ candidate_key c = k.
Proof.
  revert acc. induction candidates as [|c candidates IH]; intros acc He; simpl in He.
  { injection He as <-. split_and!; [constructor|intros c Hc; by apply elem_of_nil in Hc|].
    intros name k. split; [by left|]. intros [?|(c & Hc & _)]; [done|by apply elem_of_nil in Hc]. }
  destruct (acc !! candidate_name c) eqn:Hacc; [done|]. apply IH in He as (Hnd & Hnone & Hexp).
  assert (∀ c', c' ∈ candidates → candidate_name c' ≠ candidate_name c ∧
    acc !! candidate_name c' = None) as Hother.
  { intros c' Hc'. apply Hnone in Hc'. by apply lookup_insert_None in Hc' as [? ?]. }
  split_and!.
  - simpl. constructor; [|done]. intros (c' & Heq & Hc')%list_elem_of_fmap.
    by apply Hother in Hc' as [? _].
  - intros c' [->|Hc']%elem_of_cons; [done|]. by apply Hother.
  - intros name k. rewrite Hexp, lookup_insert_Some. split.
    + intros [[[<- <-]|[_ ?]]|(c' & Hc' & ?)]; [right; exists c|by left|right; exists c'].
      * by split; [left|].
      * by split; [right|].
    + intros [Hk|(c' & [->|Hc']%elem_of_cons & Hn & Hk)].
      * left. right. split; [|done]. intros <-. congruence.
      * left. left. done.
      * right. by exists c'.
Qed.

(** Everything a successful tally has established. *)
Record tallies_ok (report : Report) (candidates : list Candidate) (equivalent : list string)
    (T : gmap string Tally) (expected : gmap string string) : Prop := {
  ok_candidates : NoDup (map candidate_name candidates);
  ok_expected : ∀ name k, expected !! name = Some k ↔
    ∃ c, c ∈ candidates ∧ candidate_name c = name ∧ candidate_key c = k;
  ok_equivalent : NoDup equivalent;
  ok_tallied : tallied expected (list_to_set equivalent) T
    (list_to_set (map (λ o, mutant_name o.2) (mutants_of (outcomes report))))
    (mutants_of (outcomes report));
  ok_complete : ∀ c, c ∈ candidates →
    candidate_name c ∈ map (λ o, mutant_name o.2) (mutants_of (outcomes report))
}.

Lemma tallies_Ok report candidates equivalent T :
  tallies report candidates equivalent = Ok T →
  ∃ expected, tallies_ok report candidates equivalent T expected.
Proof.
  unfold tallies. intros H. apply checked_bind_Ok in H as ([] & _ & H).
  destruct candidates as [|c cs]; [done|]. remember (c :: cs) as candidates.
  apply checked_bind_Ok in H as (expected & He & H).
  case_bool_decide as Hsize; [done|].
  apply checked_bind_Ok in H as ([] & _ & H).
  apply checked_bind_Ok in H as ([result observed] & Ht & H).
  apply checked_bind_Ok in H as ([] & Hcomplete & H). injection H as <-.
  apply expected_keys_Ok in He as (Hnd & _ & Hexp). exists expected.
  assert (tallied expected (list_to_set equivalent) ∅ ∅ []) as Hinit.
  { split; [done|constructor|intros s m Hin; by apply elem_of_nil in Hin|].
    intros k. rewrite lookup_empty. done. }
  pose proof (tally_outcomes_tallied _ _ _ _ _ _ _ _ Hinit Ht) as Hres. simpl in Hres.
  pose proof (tallied_observed _ _ _ _ _ Hres) as Hobs. subst observed.
  split; try done.
  - intros name k. rewrite Hexp, lookup_empty. naive_solver.
  - by apply size_list_to_set_NoDup.
  - intros c' Hc'. assert (candidate_name c' ∈ sorted_keys expected) as Hin.
    { apply elem_of_sorted_keys. exists (candidate_key c'). apply Hexp. right. by exists c'. }
    apply (check_complete_Ok _ _ Hcomplete) in Hin. by apply elem_of_list_to_set in Hin.
Qed.

Lemma in_key_elem k l s m : (s, m) ∈ in_key k l ↔ (s, m) ∈ l ∧ mutant_key m = k.
Proof. unfold in_key. rewrite list_elem_of_filter. simpl. naive_solver. Qed.

(** An outcome in the report shows in the tally of its key. *)
Lemma tallied_counted expected reviewed T observed l s m :
  tallied expected reviewed T observed l → (s, m) ∈ l →
  T !! mutant_key m = Some (reference_tally reviewed (in_key (mutant_key m) l)).
Proof.
  intros [_ _ _ Hc] Hin. rewrite Hc. rewrite decide_False; [done|]. intros Hn.
  assert ((s, m) ∈ in_key (mutant_key m) l) as Hk by (by apply in_key_elem).
  rewrite Hn in Hk. by apply elem_of_nil in Hk.
Qed.

Lemma counted_zero p l : counted p l = 0%N ↔ ∀ o, o ∈ l → p o = false.
Proof.
  unfold counted. induction l as [|o l IH]; simpl.
  - split; [intros _ o Ho; by apply elem_of_nil in Ho|done].
  - split.
    + intros Hz o' [->|Ho]%elem_of_cons; destruct (p o) eqn:Hp; rewrite ?len_cons in Hz; try lia;
        by apply IH.
    + intros Hall. rewrite (Hall o) by (by left). apply IH. intros o' Ho'. apply Hall. by right.
Qed.

(** What an accepted run satisfies, without the messages. *)
Record accepted (T : gmap string Tally) (candidates : list Candidate) (b : Baseline) : Prop := {
  acc_known_zero : NoDup (known_zero_viable b);
  acc_floors : ∀ k n, floors b !! k = Some n → n ≠ 0%N ∧ k ∈ map candidate_key candidates;
  acc_zero : ∀ k, k ∈ known_zero_viable b →
    k ∈ map candidate_key candidates ∧ floors b !! k = None;
  acc_tallies : ∀ k t, T !! k = Some t → missed t = 0%N ∧ timeout t = 0%N ∧
    match floors b !! k with
    | Some floor => (floor ≤ viable t)%N
    | None => k ∈ known_zero_viable b ∧ viable t = 0%N ∧ unviable t = total t
    end
}.

Lemma tally_failures_nil fl known_zero k t :
  tally_failures fl known_zero (k, t) = [] ↔
  missed t = 0%N ∧ timeout t = 0%N ∧
  match fl !! k with
  | Some floor => (floor ≤ viable t)%N
  | None => k ∈ known_zero ∧ viable t = 0%N ∧ unviable t = total t
  end.
Proof.
  unfold tally_failures. rewrite !app_nil.
  destruct (N.ltb_spec 0 (missed t)), (N.ltb_spec 0 (timeout t)); try (split; naive_solver lia).
  destruct (fl !! k) as [floor|].
  - destruct (N.ltb_spec (viable t) floor); split; naive_solver lia.
  - case_bool_decide; [|split; naive_solver].
    destruct (N.ltb_spec 0 (viable t)), (N.eqb_spec (unviable t) (total t)); simpl;
      split; naive_solver lia.
Qed.

Lemma floor_failures_nil expected k n :
  floor_failures expected (k, n) = [] ↔ n ≠ 0%N ∧ k ∈ expected.
Proof.
  unfold floor_failures. destruct (N.eqb_spec n 0); [split; naive_solver|].
  case_bool_decide; split; naive_solver.
Qed.

Lemma known_zero_failures_nil expected fl k :
  known_zero_failures expected fl k = [] ↔ k ∈ expected ∧ fl !! k = None.
Proof.
  unfold known_zero_failures. rewrite app_nil. destruct (fl !! k) as [n|].
  - rewrite (bool_decide_true (is_Some _)) by by eexists. split; naive_solver.
  - rewrite (bool_decide_false (is_Some _)) by by intros [? ?]. case_bool_decide; split; naive_solver.
Qed.

Lemma check_run_Ok report candidates b :
  check_run report candidates b = Ok () ↔
  ∃ T, tallies report candidates (equivalent_mutants b) = Ok T ∧ accepted T candidates b.
Proof.
  unfold check_run. rewrite checked_bind_Ok. f_equiv. intros T. f_equiv.
  match goal with |- match ?l with [] => _ | _ => _ end = _ ↔ _ => transitivity (l = []) end.
  { by case_match. }
  rewrite !app_nil, !bind_nil. split.
  - intros (Hsize & Hfl & Hkz & Htl). split.
    + case_bool_decide as Hs; [done|]. by apply size_list_to_set_NoDup.
    + intros k n Hk%elem_of_entries%Hfl%floor_failures_nil. by rewrite elem_of_list_to_set in Hk.
    + intros k Hk. specialize (Hkz k). rewrite elem_of_sorted_set, elem_of_list_to_set in Hkz.
      apply Hkz in Hk. by rewrite known_zero_failures_nil, elem_of_list_to_set in Hk.
    + intros k t Hk%elem_of_entries%Htl%tally_failures_nil.
      destruct (floors b !! k); [done|]. by rewrite elem_of_list_to_set in Hk.
  - intros [Hnd Hfl Hkz Htl]. split_and!.
    + rewrite bool_decide_false; [done|]. intros Hs. apply Hs. by apply size_list_to_set_NoDup.
    + intros [k n] Hk%elem_of_entries%Hfl. apply floor_failures_nil. by rewrite elem_of_list_to_set.
    + intros k Hk. rewrite elem_of_sorted_set, elem_of_list_to_set in Hk.
      apply known_zero_failures_nil. rewrite elem_of_list_to_set. by apply Hkz.
    + intros [k t] Hk%elem_of_entries%Htl. apply tally_failures_nil.
      destruct (floors b !! k); [done|]. by rewrite elem_of_list_to_set.
Qed.

Lemma NoDup_entries {T} (m : gmap string T) : NoDup (map fst (entries_of m)).
Proof.
  unfold entries_of. pose proof (NoDup_sorted_keys m) as Hnd.
  induction (sorted_keys m) as [|k l IH]; csimpl; [constructor|].
  apply NoDup_cons in Hnd as [Hk Hnd]. destruct (m !! k) as [x|]; simpl; [|by apply IH].
  constructor; [|by apply IH]. intros ([k' y] & -> & Hin)%list_elem_of_fmap.
  apply list_elem_of_omap in Hin as (k'' & Hin & Heq).
  destruct (m !! k'') eqn:Hm; simpl in Heq; [|done]. by injection Heq as -> ->.
Qed.

(** What seeding a baseline from tallies produces. *)
Lemma seed_Ok fl kz l fl' kz' :
  seed (fl, kz) l = Ok (fl', kz') → NoDup (map fst l) → (∀ k t, (k, t) ∈ l → fl !! k = None) →
  (∀ k t, (k, t) ∈ l → missed t = 0%N ∧ timeout t = 0%N ∧
     (viable t = 0%N → unviable t = total t)) ∧
  (∀ k n, fl' !! k = Some n ↔
     fl !! k = Some n ∨ ∃ t, (k, t) ∈ l ∧ viable t = n ∧ n ≠ 0%N) ∧
  kz' = kz ++ map fst (List.filter (λ e, viable e.2 =? 0)%N l).
Proof.
  revert fl kz. induction l as [|[k t] l IH]; intros fl kz Hs Hnd Hfl; simpl in Hs.
  { injection Hs as <- <-. split_and!; [intros k t Hk; by apply elem_of_nil in Hk| |by rewrite app_nil_r].
    intros k n. split; [by left|]. intros [?|(t & Hk & _)]; [done|by apply elem_of_nil in Hk]. }
  simpl in Hnd. apply NoDup_cons in Hnd as [Hk Hnd].
  destruct (N.ltb_spec 0 (missed t)), (N.ltb_spec 0 (timeout t)); simpl in Hs; try discriminate Hs.
  assert (∀ k' t', (k', t') ∈ l → fl !! k' = None) as Hfl' by (intros; eapply Hfl; by right).
  assert (∀ t', (k, t') ∉ l) as Hkl.
  { intros t' Hin. apply Hk. apply list_elem_of_fmap. by exists (k, t'). }
  destruct (N.eqb_spec (viable t) 0) as [Hv|Hv].
  - destruct (N.eqb_spec (unviable t) (total t)) as [Hu|Hu]; simpl in Hs; [|done].
    destruct (IH _ _ Hs Hnd Hfl') as (Hall & Hin & ->). split_and!.
    + intros k' t' [[= -> ->]|Hin']%elem_of_cons; [split_and!; [lia|lia|done]|by eapply Hall].
    + intros k' n. rewrite Hin. setoid_rewrite elem_of_cons. naive_solver.
    + simpl. rewrite Hv. simpl. by rewrite <- app_assoc.
  - apply IH in Hs as (Hall & Hin & ->); [|done|].
    + split_and!.
      * intros k' t' [[= -> ->]|Hin']%elem_of_cons; [split_and!; [lia|lia|done]|by eapply Hall].
      * intros k' n. rewrite Hin, lookup_insert_Some. setoid_rewrite elem_of_cons. split.
        -- intros [[[<- <-]|[_ ?]]|(t' & ? & ?)]; [right; exists t; by auto|by left|right; exists t'; by auto].
        -- intros [Hn|(t' & [[= -> ->]|Hin'] & Hvt & Hn)].
           ++ left. right. split; [|done]. intros <-. rewrite (Hfl k t) in Hn by (by left). done.
           ++ left. by left.
           ++ right. by exists t'.
      * simpl. by rewrite (proj2 (N.eqb_neq _ _) Hv).
    + intros k' t' Hin. rewrite lookup_insert_ne; [by eapply Hfl'|]. intros <-. by eapply Hkl.
Qed.

Lemma NoDup_map_filter {A B} (f : A → B) (p : A → bool) (l : list A) :
  NoDup (map f l) → NoDup (map f (List.filter p l)).
Proof.
  induction l as [|x l IH]; simpl; [done|]. intros [Hx Hl]%NoDup_cons. destruct (p x); [|by apply IH].
  simpl. constructor; [|by apply IH]. intros (y & Hy & Hin)%list_elem_of_fmap. apply Hx.
  apply list_elem_of_fmap. exists y. split; [done|].
  by apply list_elem_of_In, filter_In in Hin as [Hin%list_elem_of_In _].
Qed.

Lemma seed_accepted report candidates equivalent T expected fl kz :
  tallies_ok report candidates equivalent T expected → seed (∅, []) (entries_of T) = Ok (fl, kz) →
  accepted T candidates
    {| floors := fl; known_zero_viable := kz; equivalent_mutants := equivalent |}.
Proof.
  intros Hok Hs. pose proof (NoDup_entries T) as Hnd.
  apply seed_Ok in Hs as (Hall & Hfl & ->); [|done|intros; apply lookup_empty].
  assert (∀ k t, T !! k = Some t → k ∈ map candidate_key candidates) as Hkey.
  { intros k t Hk. destruct (ok_tallied _ _ _ _ _ Hok) as [_ _ He Hc]. rewrite Hc in Hk.
    destruct (decide (in_key k _ = [])) as [|Hn]; [done|].
    destruct (in_key k _) as [|[s m] l] eqn:Hl; [done|].
    assert ((s, m) ∈ in_key k (mutants_of (outcomes report))) as Hin by (rewrite Hl; by left).
    apply in_key_elem in Hin as [Hin <-]. apply He in Hin as (Hexp & _).
    apply (ok_expected _ _ _ _ _ Hok) in Hexp as (c & Hc' & _ & <-).
    apply list_elem_of_fmap. by exists c. }
  assert (∀ k, k ∈ map fst (List.filter (λ e : string * Tally, viable e.2 =? 0)%N (entries_of T)) ↔
    ∃ t, T !! k = Some t ∧ viable t = 0%N) as Hzero.
  { intros k. rewrite list_elem_of_fmap. split.
    - intros ([k' t] & -> & Hin). apply list_elem_of_In, filter_In in Hin as [Hin Hv%N.eqb_eq].
      apply list_elem_of_In, elem_of_entries in Hin. by exists t.
    - intros (t & Hk & Hv). exists (k, t). split; [done|]. apply list_elem_of_In, filter_In.
      split; [by apply list_elem_of_In, elem_of_entries|by apply N.eqb_eq]. }
  split; simpl.
  - by apply NoDup_map_filter.
  - intros k n [Hn|(t & Hin%elem_of_entries & <- & Hv)]%Hfl; [by rewrite lookup_empty in Hn|].
    split; [done|by eapply Hkey].
  - intros k (t & Hk & Hv)%Hzero. split; [by eapply Hkey|]. destruct (fl !! k) as [n|] eqn:Hn; [|done].
    apply Hfl in Hn as [Hn|(t' & Hin%elem_of_entries & <- & Hn)]; [by rewrite lookup_empty in Hn|].
    by simplify_map_eq.
  - intros k t Hk. destruct (Hall k t) as (Hm & Ht & Hu); [by apply elem_of_entries|].
    split_and!; [done..|]. destruct (fl !! k) as [n|] eqn:Hn.
    + apply Hfl in Hn as [Hn|(t' & Hin%elem_of_entries & <- & Hn)]; [by rewrite lookup_empty in Hn|].
      simplify_map_eq. lia.
    + destruct (decide (viable t = 0%N)) as [Hv|Hv].
      * split_and!; [apply Hzero; by exists t|done|by apply Hu].
      * assert (fl !! k = Some (viable t)) as Hf; [|congruence]. apply Hfl. right. exists t.
        by split_and!; [apply elem_of_entries| |].
Qed.

(** ** Properties *)

(** The gate is sound: a run it accepts has exactly one outcome per
    candidate, of that candidate's file and function, and every mutant was
    caught or unviable, or it is a reviewed equivalent that was missed; no
    unreviewed survivor and no timeout passes. *)
Lemma gate_accepts_only_killed report candidates b :
  check_run report candidates b = Ok () →
  map (λ o, mutant_name o.2) (mutants_of (outcomes report)) ≡ₚ map candidate_name candidates ∧
  ∀ s m, (s, m) ∈ mutants_of (outcomes report) →
    (∃ c, c ∈ candidates ∧ candidate_name c = mutant_name m ∧ candidate_key c = mutant_key m) ∧
    (s = CaughtMutant ∨ s = Unviable ∨
     (s = MissedMutant ∧ mutant_name m ∈ equivalent_mutants b)).
Proof.
  intros (T & HT & Hacc)%check_run_Ok. apply tallies_Ok in HT as [expected Hok].
  destruct (ok_tallied _ _ _ _ _ Hok) as [_ Honce Hexp _]. split.
  - apply NoDup_Permutation; [done|apply (ok_candidates _ _ _ _ _ Hok)|]. intros name. split.
    + intros ([s m] & -> & Hin)%list_elem_of_fmap. apply Hexp in Hin as (He & _).
      apply (ok_expected _ _ _ _ _ Hok) in He as (c & Hc & Hn & _). simpl. rewrite <- Hn.
      apply list_elem_of_fmap. by exists c.
    + intros (c & -> & Hc)%list_elem_of_fmap. by apply (ok_complete _ _ _ _ _ Hok).
  - intros s m Hin. destruct (Hexp _ _ Hin) as (He & [Hs1 Hs2] & _). split.
    { by apply (ok_expected _ _ _ _ _ Hok) in He as (c & Hc & Hn & Hk); exists c. }
    pose proof (tallied_counted _ _ _ _ _ _ _ (ok_tallied _ _ _ _ _ Hok) Hin) as Hk.
    apply (acc_tallies _ _ _ Hacc) in Hk as (Hm & Ht & _). simpl in Hm, Ht.
    assert ((s, m) ∈ in_key (mutant_key m) (mutants_of (outcomes report))) as Hin'
      by (by apply in_key_elem).
    rewrite counted_zero in Hm, Ht. specialize (Hm _ Hin'). specialize (Ht _ Hin'). simpl in Hm, Ht.
    apply bool_decide_eq_false in Hm, Ht. destruct s; try done; [by left| |by right; left].
    right. right. split; [done|]. apply dec_stable. intros Hn. apply Hm. split; [done|].
    by rewrite elem_of_list_to_set.
Qed.

(** C39: a baseline seeded from a run accepts that run: emitting and checking
    round-trip. *)
Theorem seeded_baseline_is_accepted report candidates equivalent b :
  seed_baseline report candidates equivalent = Ok b → check_run report candidates b = Ok ().
Proof.
  unfold seed_baseline. intros H. apply checked_bind_Ok in H as (T & HT & H).
  apply checked_bind_Ok in H as ([fl kz] & Hs & H). injection H as <-.
  apply check_run_Ok. exists T. split; [done|]. apply tallies_Ok in HT as [expected Hok].
  by eapply seed_accepted.
Qed.

(** The tallies count: per key, they hold how many of its outcomes there
    are, how many were viable, unviable, timed out, and survived unreviewed;
    and a key without outcomes has no tally. *)
Lemma tallies_count report candidates equivalent T k :
  tallies report candidates equivalent = Ok T →
  T !! k = (if decide (in_key k (mutants_of (outcomes report)) = []) then None
            else Some (reference_tally (list_to_set equivalent)
                         (in_key k (mutants_of (outcomes report))))).
Proof. intros [expected Hok]%tallies_Ok. apply (tallied_counts _ _ _ _ _ (ok_tallied _ _ _ _ _ Hok)). Qed.

(** ** Concrete instances *)

Definition candidate (name : string) : Candidate :=
  {| candidate_name := name; candidate_file := "src/lib.rs"; candidate_function := Some "f" |}.

Definition outcome (s : Summary) (name : string) : Outcome :=
  {| summary := s; scenario := Scenario_Mutant
       {| mutant_name := name; mutant_file := "src/lib.rs"; mutant_function := Some "f" |} |}.

Definition demo_report : Report :=
  {| outcomes := [{| summary := Success; scenario := Scenario_Baseline |};
       outcome CaughtMutant "one"; outcome MissedMutant "two"; outcome Unviable "three"] |}.

Definition demo_candidates : list Candidate := [candidate "one"; candidate "two"; candidate "three"].

Definition demo_baseline : Baseline :=
  {| floors := {["src/lib.rs::f" := 2%N]}; known_zero_viable := []; equivalent_mutants := ["two"] |}.

Lemma seeded_baseline_is_accepted_witness : check_run demo_report demo_candidates demo_baseline = Ok ().
Proof. apply (seeded_baseline_is_accepted _ _ ["two"]). vm_compute. reflexivity. Defined.
