(* ===== verification/ObserveSlot.v ===== *)
(** * One completion slot

    [crates/bombay/src/observe/mod.rs], [Slot] and what observes it: the state
    word and its three bits, the waiter registry, publication, registration,
    taking, recycling and dropping the outcome.

    A slot operation is a function on [Slot]; [Access] separates a returned
    value, a panic and an access to an uninitialised outcome cell.  An operation
    of several atomic parts is defined part by part; [observer_step] interleaves the
    parts of any number of threads.  The part that runs under the waiters mutex
    is one step, placed at its load of the state word: the registry is only
    touched under that mutex, and a publication that lands between the load and
    the unlock still drains after it. *)

From S2P Require Import Prelude.

(** ** The state word *)

Definition COMPLETED : N := N.shiftl 1 0.
Definition HAS_WAITER : N := N.shiftl 1 1.
Definition OUTCOME_VALID : N := N.shiftl 1 2.

Definition has_bit (word mask : N) : bool := negb (N.land word mask =? 0)%N.

(** [fetch_and(!mask)]. *)
Definition clear_bit (word mask : N) : N := N.ldiff word mask.

Variant Access (A : Type) :=
  | Returned (value : A)
  | Panicked
  | Undefined.
Arguments Returned {_} _.
Arguments Panicked {_}.
Arguments Undefined {_}.

(** ** Waiters *)

Abbreviation ThreadId := positive (only parsing).

(** The data pointer and vtable a [Waker] compares in [will_wake]. *)
Abbreviation WakerId := positive (only parsing).

Definition will_wake (a b : WakerId) : bool := bool_decide (a = b).

Variant WakerOwnership :=
  | Futures (future_owners : positive)
  | Persistent (future_owners : N).

Variant Waiter :=
  | Waiter_Thread (thread : ThreadId)
  | Waiter_Waker (waker : WakerId) (ownership : WakerOwnership).

Variant Waiters :=
  | Waiters_Empty
  | Waiters_One (waiter : Waiter)
  | Waiters_Many (waiters : list Waiter).

(** [Deref] to a slice. *)
Definition slice (ws : Waiters) : list Waiter :=
  match ws with
  | Waiters_Empty => []
  | Waiters_One waiter => [waiter]
  | Waiters_Many l => l
  end.

(** Writing through [DerefMut]: the shape and the length stay. *)
Definition with_slice (ws : Waiters) (l : list Waiter) : Waiters :=
  match ws, l with
  | Waiters_One _, [waiter] => Waiters_One waiter
  | Waiters_Many _, _ => Waiters_Many l
  | _, _ => ws
  end.

Definition push (ws : Waiters) (waiter : Waiter) : Waiters :=
  match ws with
  | Waiters_Empty => Waiters_One waiter
  | Waiters_One first => Waiters_Many [first; waiter]
  | Waiters_Many l => Waiters_Many (l ++ [waiter])
  end.

(** The shape [retain] rebuilds from the length of its vector. *)
Definition rebuild (l : list Waiter) : Waiters :=
  match l with
  | [] => Waiters_Empty
  | [waiter] => Waiters_One waiter
  | _ => Waiters_Many l
  end.

Definition retain (keep : Waiter → bool) (ws : Waiters) : Waiters :=
  match ws with
  | Waiters_Empty => Waiters_Empty
  | Waiters_One waiter => if keep waiter then Waiters_One waiter else Waiters_Empty
  | Waiters_Many l => rebuild (List.filter keep l)
  end.

(** A [retain_mut] closure with captured state [S]: the waiter it leaves, if it
    keeps it; [None] is a panic. *)
Fixpoint retain_list {S} (keep : S → Waiter → option (S * option Waiter)) (s : S)
    (l : list Waiter) : option (S * list Waiter) :=
  match l with
  | [] => Some (s, [])
  | waiter :: l =>
      '(s, kept) ← keep s waiter;
      '(s, l) ← retain_list keep s l;
      Some (s, match kept with Some waiter => waiter :: l | None => l end)
  end.

(** [mem::take] first: a panicking closure leaves the registry empty. *)
Definition retain_mut {S} (keep : S → Waiter → option (S * option Waiter)) (s : S) (ws : Waiters) :
    Waiters * option S :=
  match ws with
  | Waiters_Empty => (Waiters_Empty, Some s)
  | Waiters_One waiter =>
      match keep s waiter with
      | None => (Waiters_Empty, panic!)
      | Some (s, Some waiter) => (Waiters_One waiter, Some s)
      | Some (s, None) => (Waiters_Empty, Some s)
      end
  | Waiters_Many l =>
      match retain_list keep s l with
      | None => (Waiters_Empty, panic!)
      | Some (s, l) => (rebuild l, Some s)
      end
  end.

Definition for_each {S} (visit : S → Waiter → S) (ws : Waiters) (s : S) : S :=
  match ws with
  | Waiters_Empty => s
  | Waiters_One waiter => visit s waiter
  | Waiters_Many l => fold_left visit l s
  end.

(** ** Future registrations *)

(** The closure of [remove_future_waker_owner]; the state is whether the
    target is still to be found. *)
Definition remove_owner (target : WakerId) (remaining : bool) (waiter : Waiter) :
    option (bool * option Waiter) :=
  match waiter with
  | Waiter_Thread _ => Some (remaining, Some waiter)
  | Waiter_Waker waker ownership =>
      if negb remaining then Some (remaining, Some waiter)
      else if negb (will_wake waker target) then Some (remaining, Some waiter)
      else
        match ownership with
        | Futures future_owners =>
            match (rest ← checked_sub (Npos future_owners) 1; nonzero rest) with
            | Some remaining_owners =>
                Some (false, Some (Waiter_Waker waker (Futures remaining_owners)))
            | None => Some (false, None)
            end
        | Persistent future_owners =>
            match checked_sub future_owners 1 with
            | Some n => Some (false, Some (Waiter_Waker waker (Persistent n)))
            | None => panic!
            end
        end
  end.

Definition remove_future_waker_owner (ws : Waiters) (target : WakerId) : Waiters * option () :=
  let '(ws, done) := retain_mut (remove_owner target) true ws in (ws, _ ← done; Some ()).

(** Join the entry that already wakes the same task: the new slice, [None] when
    there is no such entry; the outer [None] is an overflow. *)
Fixpoint join_owner (next : WakerId) (l : list Waiter) : option (option (list Waiter)) :=
  match l with
  | [] => Some None
  | waiter :: rest =>
      let skip :=
        joined ← join_owner next rest;
        Some (rest' ← joined; Some (waiter :: rest')) in
      match waiter with
      | Waiter_Thread _ => skip
      | Waiter_Waker waker ownership =>
          if will_wake waker next then
            match ownership with
            | Futures future_owners =>
                match (n ← checked_add usize_max (Npos future_owners) 1; nonzero n) with
                | Some n => Some (Some (Waiter_Waker waker (Futures n) :: rest))
                | None => panic!
                end
            | Persistent future_owners =>
                match checked_add usize_max future_owners 1 with
                | Some n => Some (Some (Waiter_Waker waker (Persistent n) :: rest))
                | None => panic!
                end
            end
          else skip
      end
  end.

(** [update_future_waker] once its recheck saw the slot pending and the wakers
    differ. *)
Definition install_future_waker (ws : Waiters) (previous : option WakerId) (next : WakerId) :
    Waiters * option () :=
  match join_owner next (slice ws) with
  | None => (ws, panic!)
  | Some joined =>
      let ws :=
        match joined with
        | Some l => with_slice ws l
        | None => push ws (Waiter_Waker next (Futures 1))
        end in
      match previous with
      | Some previous => remove_future_waker_owner ws previous
      | None => (ws, Some ())
      end
  end.

(** [register_waker] once its recheck saw the slot pending: an entry for the
    same task becomes persistent. *)
Fixpoint persist_owner (waker : WakerId) (l : list Waiter) : option (list Waiter) :=
  match l with
  | [] => None
  | waiter :: rest =>
      match waiter with
      | Waiter_Waker existing ownership =>
          if will_wake existing waker then
            Some (Waiter_Waker existing
                    match ownership with
                    | Futures future_owners => Persistent (Npos future_owners)
                    | Persistent future_owners => Persistent future_owners
                    end :: rest)
          else rest ← persist_owner waker rest; Some (waiter :: rest)
      | Waiter_Thread _ => rest ← persist_owner waker rest; Some (waiter :: rest)
      end
  end.

Definition install_waker (ws : Waiters) (waker : WakerId) : Waiters :=
  match persist_owner waker (slice ws) with
  | Some l => with_slice ws l
  | None => push ws (Waiter_Waker waker (Persistent 0))
  end.

(** [wait] and [wait_timeout] under the lock. *)
Definition is_thread (thread : ThreadId) (waiter : Waiter) : bool :=
  match waiter with
  | Waiter_Thread t => bool_decide (t = thread)
  | Waiter_Waker _ _ => false
  end.

Definition push_thread (ws : Waiters) (thread : ThreadId) : Waiters :=
  match last (slice ws) with
  | Some waiter => if is_thread thread waiter then ws else push ws (Waiter_Thread thread)
  | None => push ws (Waiter_Thread thread)
  end.

Definition remove_thread (ws : Waiters) (thread : ThreadId) : Waiters :=
  retain (λ waiter, negb (is_thread thread waiter)) ws.

(** ** The slot *)

Section slot.
Context {O : Type}.

(** [outcome] is the [MaybeUninit] cell: [None] when uninitialised, moved out
    or dropped. *)
Record Slot := {
  state : N;
  outcome : option O;
  waiters : Waiters
}.

Definition set_state (n : N) (s : Slot) : Slot :=
  {| state := n; outcome := outcome s; waiters := waiters s |}.
Definition set_outcome (o : option O) (s : Slot) : Slot :=
  {| state := state s; outcome := o; waiters := waiters s |}.
Definition set_waiters (ws : Waiters) (s : Slot) : Slot :=
  {| state := state s; outcome := outcome s; waiters := ws |}.

Definition Slot_new : Slot := {| state := 0; outcome := None; waiters := Waiters_Empty |}.

Definition completed (s : Slot) : bool := has_bit (state s) COMPLETED.

(** [fetch_or(HAS_WAITER)]. *)
Definition flag_waiter (s : Slot) : Slot := set_state (N.lor (state s) HAS_WAITER) s.

Definition outcome_ref (s : Slot) : Access O :=
  match outcome s with Some value => Returned value | None => Undefined end.

Definition drop_outcome (s : Slot) : Slot * Access () :=
  match outcome s with
  | Some _ => (set_outcome None s, Returned ())
  | None => (s, Undefined)
  end.

Definition try_take_outcome (s : Slot) : Slot * Access (option O) :=
  if negb (completed s) then (s, Returned None)
  else
    let previous := state s in
    let s := set_state (clear_bit previous OUTCOME_VALID) s in
    if negb (has_bit previous OUTCOME_VALID) then (s, Panicked)
    else
      match outcome s with
      | Some value => (set_outcome None s, Returned (Some value))
      | None => (s, Undefined)
      end.

(** [complete]: the publication, then under the lock the drain, then the
    notification of the drained waiters. *)
Definition publish (value : O) (s : Slot) : Slot * Access N :=
  if completed s then (s, Panicked)
  else
    let s := set_outcome (Some value) s in
    let previous := state s in
    (set_state (N.lor previous (N.lor COMPLETED OUTCOME_VALID)) s, Returned previous).

Definition drain (s : Slot) : Slot * Waiters := (set_waiters Waiters_Empty s, waiters s).

(** The waiters notified, in order, and the first waker that panicked. *)
Definition notify (wake_panics : WakerId → bool) (ws : Waiters) : list Waiter * option WakerId :=
  for_each (λ '(notified, first_panic) waiter,
      (notified ++ [waiter],
       match waiter with
       | Waiter_Thread _ => first_panic
       | Waiter_Waker waker _ =>
           match first_panic with
           | Some _ => first_panic
           | None => if wake_panics waker then Some waker else None
           end
       end)) ws ([], None).

(** The payload of the panic [complete] resumes. *)
Variant Completion :=
  | Completion_Done (notified : list Waiter)
  | Completion_Resumed (notified : list Waiter) (panic : WakerId)
  | Completion_Twice.

Definition complete (wake_panics : WakerId → bool) (value : O) (s : Slot) : Slot * Completion :=
  match publish value s with
  | (s, Returned previous) =>
      if has_bit previous HAS_WAITER then
        let '(s, ws) := drain s in
        let '(notified, first_panic) := notify wake_panics ws in
        (s, match first_panic with
            | Some panic => Completion_Resumed notified panic
            | None => Completion_Done notified
            end)
      else (s, Completion_Done [])
  | (s, _) => (s, Completion_Twice)
  end.

(** [reset]; [drop_panics] is whether dropping this outcome unwinds. *)
Definition reset (drop_panics : O → bool) (s : Slot) : Slot * Access () :=
  let word := state s in
  let finish s :=
    let s := if has_bit word HAS_WAITER then set_waiters Waiters_Empty s else s in
    (set_state 0 s, Returned ()) in
  if has_bit word OUTCOME_VALID then
    let s := set_state (clear_bit word OUTCOME_VALID) s in
    match outcome s with
    | None => (s, Undefined)
    | Some value =>
        let s := set_outcome None s in
        if drop_panics value then (s, Panicked) else finish s
    end
  else finish s.

(** [Drop for Slot]. *)
Definition drop_slot (s : Slot) : Slot * Access () :=
  if has_bit (state s) OUTCOME_VALID then drop_outcome s else (s, Returned ()).

(** [try_get], and the first load of [wait], of a poll and of a registration. *)
Definition try_get (s : Slot) : Access (option O) :=
  if completed s then
    match outcome_ref s with
    | Returned value => Returned (Some value)
    | Panicked => Panicked
    | Undefined => Undefined
    end
  else Returned None.

(** The locked part of [wait]: [true] when the outcome was seen. *)
Definition wait_register (thread : ThreadId) (s : Slot) : Slot * bool :=
  let s := set_waiters (push_thread (waiters s) thread) s in
  if completed s then (set_waiters (remove_thread (waiters s) thread) s, true)
  else (s, false).

(** The deadline of [wait_timeout] passed. *)
Definition wait_deregister (thread : ThreadId) (s : Slot) : Slot :=
  set_waiters (remove_thread (waiters s) thread) s.

(** The locked part of [update_future_waker]; the result is its [Option]. *)
Definition update_register (previous : option WakerId) (next : WakerId) (s : Slot) :
    Slot * option (option WakerId) :=
  if completed s then (s, Some None)
  else if bool_decide (previous = Some next) then (s, Some (Some next))
  else
    let '(ws, done) := install_future_waker (waiters s) previous next in
    (set_waiters ws s, _ ← done; Some (Some next)).

(** [update_future_waker] run without interruption. *)
Definition update_future_waker (previous : option WakerId) (next : WakerId) (s : Slot) :
    Slot * option (option WakerId) :=
  if completed s then (s, Some None) else update_register previous next (flag_waiter s).

Definition deregister_future_waker (waker : WakerId) (s : Slot) : Slot * option () :=
  let '(ws, done) := remove_future_waker_owner (waiters s) waker in (set_waiters ws s, done).

(** The locked part of [register_waker]: [true] is [Poll::Ready]. *)
Definition register_install (waker : WakerId) (s : Slot) : Slot * bool :=
  if completed s then (s, true) else (set_waiters (install_waker (waiters s) waker) s, false).

Definition register_waker (waker : WakerId) (s : Slot) : Slot * bool :=
  if completed s then (s, true) else register_install waker (flag_waiter s).

(** [into_outcome], given the strong count [Arc::try_unwrap] looks at. *)
Definition into_outcome (strong_count : N) (s : Slot) : Slot * Access (option O) :=
  if (strong_count =? 1)%N then try_take_outcome s else (s, Returned None).

(** [FutureRegistration::update]: the registration's waker after it. *)
Definition registration_update (registered : option WakerId) (waker : WakerId) (s : Slot) :
    Slot * option (option WakerId) :=
  if bool_decide (registered = Some waker) then (s, Some registered)
  else
    match update_future_waker registered waker s with
    | (s, None) => (s, panic!)
    | (s, Some None) => (s, Some registered)
    | (s, Some (Some next)) => (s, Some (Some next))
    end.

Definition drop_registration (registered : option WakerId) (s : Slot) : Slot * option () :=
  match registered with
  | Some waker => deregister_future_waker waker s
  | None => (s, Some ())
  end.

(** One uninterrupted poll of an [ObservationFuture]: the registration after it
    and the outcome, if ready; the outer [None] is a panic. *)
Definition poll_shared (registered : option WakerId) (waker : WakerId) (s : Slot) :
    Slot * option (option WakerId * Access (option O)) :=
  if completed s then (s, Some (registered, try_get s))
  else
    match registration_update registered waker s with
    | (s, None) => (s, panic!)
    | (s, Some registered) => (s, Some (registered, try_get s))
    end.

(** One uninterrupted poll of an [AffineObservation]. *)
Definition poll_affine (registered : option WakerId) (waker : WakerId) (s : Slot) :
    Slot * option (option WakerId * Access (option O)) :=
  match try_take_outcome s with
  | (s, Returned None) =>
      match registration_update registered waker s with
      | (s, None) => (s, panic!)
      | (s, Some registered) =>
          let '(s, taken) := try_take_outcome s in (s, Some (registered, taken))
      end
  | (s, taken) => (s, Some (registered, taken))
  end.
End slot.
Arguments Slot : clear implicits.

(** ** Threads and tasks around one shared slot *)

Variant ThreadPoint := TIdle | TLooping | TLoaded | TFlagged | TParked.

#[export] Instance ThreadPoint_eq_dec : EqDecision ThreadPoint.
Proof. solve_decision. Defined.

(** Where a future's poll stands; [FDone] is past [Poll::Ready]. *)
Variant FuturePoint :=
  | FIdle
  | FStarted (next : WakerId)
  | FLoaded (next : WakerId)
  | FFlagged (next : WakerId)
  | FDone.

Record FutureState := { registered : option WakerId; point : FuturePoint }.

Variant RegisterPoint := RLoaded (waker : WakerId) | RFlagged (waker : WakerId).

Variant Completer := CPending | CDraining | CNotifying (queue : list Waiter) | CComplete.

Section interleaving.
Context {O : Type}.

(** Blocked threads, futures, [register_waker] calls in progress and returned,
    the completer, and what was woken. *)
Record ObserverWorld := {
  slot : Slot O;
  threads : list (ThreadId * ThreadPoint);
  futures : list FutureState;
  registers : list RegisterPoint;
  persistents : list WakerId;
  completer : Completer;
  tokens : gset ThreadId;
  woken : gset WakerId
}.

Definition observer_init (ids : list ThreadId) : ObserverWorld :=
  {| slot := Slot_new; threads := map (λ t, (t, TIdle)) ids; futures := []; registers := [];
     persistents := []; completer := CPending; tokens := ∅; woken := ∅ |}.

Definition with_threads (s : Slot O) (l : list (ThreadId * ThreadPoint)) (w : ObserverWorld) :
    ObserverWorld :=
  {| slot := s; threads := l; futures := futures w; registers := registers w;
     persistents := persistents w; completer := completer w; tokens := tokens w;
     woken := woken w |}.
Definition with_futures (s : Slot O) (l : list FutureState) (w : ObserverWorld) : ObserverWorld :=
  {| slot := s; threads := threads w; futures := l; registers := registers w;
     persistents := persistents w; completer := completer w; tokens := tokens w;
     woken := woken w |}.
Definition with_registers (s : Slot O) (l : list RegisterPoint) (ps : list WakerId)
    (w : ObserverWorld) : ObserverWorld :=
  {| slot := s; threads := threads w; futures := futures w; registers := l;
     persistents := ps; completer := completer w; tokens := tokens w; woken := woken w |}.
Definition with_completer (s : Slot O) (c : Completer) (ts : gset ThreadId) (ws : gset WakerId)
    (w : ObserverWorld) : ObserverWorld :=
  {| slot := s; threads := threads w; futures := futures w; registers := registers w;
     persistents := persistents w; completer := c; tokens := ts; woken := ws |}.
Definition with_tokens (ts : gset ThreadId) (w : ObserverWorld) : ObserverWorld :=
  with_completer (slot w) (completer w) ts (woken w) w.

(** One atomic part of one participant. *)
Inductive observer_step : ObserverWorld → ObserverWorld → Prop :=
  (** [wait] and [wait_timeout] *)
  | thread_calls w pre t post :
      threads w = pre ++ (t, TIdle) :: post →
      observer_step w (with_threads (slot w) (pre ++ (t, TLooping) :: post) w)
  | thread_loads w pre t post :
      threads w = pre ++ (t, TLooping) :: post →
      observer_step w (with_threads (slot w)
        (pre ++ (t, if completed (slot w) then TIdle else TLoaded) :: post) w)
  | thread_flags w pre t post :
      threads w = pre ++ (t, TLoaded) :: post →
      observer_step w (with_threads (flag_waiter (slot w)) (pre ++ (t, TFlagged) :: post) w)
  | thread_registers w pre t post s ready :
      threads w = pre ++ (t, TFlagged) :: post → wait_register t (slot w) = (s, ready) →
      observer_step w (with_threads s
        (pre ++ (t, if ready : bool then TIdle else TParked) :: post) w)
  | thread_unparks w pre t post :
      threads w = pre ++ (t, TParked) :: post →
      observer_step w (with_tokens (tokens w ∖ {[t]})
        (with_threads (slot w) (pre ++ (t, TLooping) :: post) w))
  | thread_times_out w pre t post :
      threads w = pre ++ (t, TParked) :: post →
      observer_step w (with_threads (wait_deregister t (slot w)) (pre ++ (t, TIdle) :: post) w)
  (** [IntoFuture], polls and drop of a future *)
  | future_created w :
      observer_step w (with_futures (slot w) ({| registered := None; point := FIdle |} :: futures w) w)
  | future_ready w pre f post :
      futures w = pre ++ f :: post → point f = FIdle → completed (slot w) = true →
      observer_step w (with_futures (slot w)
        (pre ++ {| registered := registered f; point := FDone |} :: post) w)
  | future_polled w pre f post next :
      futures w = pre ++ f :: post → point f = FIdle → completed (slot w) = false →
      registered f ≠ Some next →
      observer_step w (with_futures (slot w)
        (pre ++ {| registered := registered f; point := FStarted next |} :: post) w)
  | future_loads w pre f post next :
      futures w = pre ++ f :: post → point f = FStarted next →
      observer_step w (with_futures (slot w)
        (pre ++ {| registered := registered f;
                   point := if completed (slot w) then FIdle else FLoaded next |} :: post) w)
  | future_flags w pre f post next :
      futures w = pre ++ f :: post → point f = FLoaded next →
      observer_step w (with_futures (flag_waiter (slot w))
        (pre ++ {| registered := registered f; point := FFlagged next |} :: post) w)
  | future_registers w pre f post next s result :
      futures w = pre ++ f :: post → point f = FFlagged next →
      update_register (registered f) next (slot w) = (s, Some result) →
      observer_step w (with_futures s
        (pre ++ {| registered := match result with Some waker => Some waker | None => registered f end;
                   point := FIdle |} :: post) w)
  | future_dropped w pre f post s :
      futures w = pre ++ f :: post → (point f = FIdle ∨ point f = FDone) →
      drop_registration (registered f) (slot w) = (s, Some ()) →
      observer_step w (with_futures s (pre ++ post) w)
  (** [register_waker] *)
  | register_called w waker :
      completed (slot w) = false →
      observer_step w (with_registers (slot w) (RLoaded waker :: registers w) (persistents w) w)
  | register_flags w pre waker post :
      registers w = pre ++ RLoaded waker :: post →
      observer_step w (with_registers (flag_waiter (slot w)) (pre ++ RFlagged waker :: post)
        (persistents w) w)
  | register_installs w pre waker post s ready :
      registers w = pre ++ RFlagged waker :: post → register_install waker (slot w) = (s, ready) →
      observer_step w (with_registers s (pre ++ post)
        (if ready : bool then persistents w else waker :: persistents w) w)
  (** [complete] *)
  | completer_publishes w value s previous :
      completer w = CPending → publish value (slot w) = (s, Returned previous) →
      observer_step w (with_completer s
        (if has_bit previous HAS_WAITER then CDraining else CComplete) (tokens w) (woken w) w)
  | completer_drains w s ws :
      completer w = CDraining → drain (slot w) = (s, ws) →
      observer_step w (with_completer s (CNotifying (slice ws)) (tokens w) (woken w) w)
  | completer_unparks w t queue :
      completer w = CNotifying (Waiter_Thread t :: queue) →
      observer_step w (with_completer (slot w) (CNotifying queue) ({[t]} ∪ tokens w) (woken w) w)
  | completer_wakes w waker ownership queue :
      completer w = CNotifying (Waiter_Waker waker ownership :: queue) →
      observer_step w (with_completer (slot w) (CNotifying queue) (tokens w) ({[waker]} ∪ woken w) w)
  | completer_done w :
      completer w = CNotifying [] →
      observer_step w (with_completer (slot w) CComplete (tokens w) (woken w) w).

Definition observer_reachable (w : ObserverWorld) : Prop :=
  ∃ ids, NoDup ids ∧ rtc observer_step (observer_init ids) w.
End interleaving.
Arguments ObserverWorld : clear implicits.

(** ** Where outcomes go *)

(** A use of a slot and what became of the outcomes it received; [faults]
    counts accesses to an uninitialised cell. *)
Variant SlotUse (O : Type) :=
  | Use_Complete (value : O)
  | Use_Take
  | Use_Reset
  | Use_Update (previous : option WakerId) (next : WakerId)
  | Use_Register (waker : WakerId)
  | Use_Deregister (registered : option WakerId).
Arguments Use_Complete {_} _.
Arguments Use_Take {_}.
Arguments Use_Reset {_}.
Arguments Use_Update {_} _ _.
Arguments Use_Register {_} _.
Arguments Use_Deregister {_} _.

Record Ledger (O : Type) :=
  { cell : Slot O; published : list O; taken : list O; dropped : list O; faults : nat }.
Arguments cell {_} _.
Arguments published {_} _.
Arguments taken {_} _.
Arguments dropped {_} _.
Arguments faults {_} _.

Section ledger.
Context {O : Type} (drop_panics : O → bool).

Definition slot_use (use : SlotUse O) (l : Ledger O) : Ledger O :=
  let keep s := {| cell := s; published := published l; taken := taken l; dropped := dropped l;
                   faults := faults l |} in
  let fault s := {| cell := s; published := published l; taken := taken l; dropped := dropped l;
                    faults := S (faults l) |} in
  match use with
  | Use_Complete value =>
      match complete (λ _, false) value (cell l) with
      | (s, Completion_Twice) => keep s
      | (s, _) => {| cell := s; published := value :: published l; taken := taken l;
                     dropped := dropped l; faults := faults l |}
      end
  | Use_Take =>
      match try_take_outcome (cell l) with
      | (s, Returned (Some value)) => {| cell := s; published := published l;
            taken := value :: taken l; dropped := dropped l; faults := faults l |}
      | (s, Undefined) => fault s
      | (s, _) => keep s
      end
  | Use_Reset =>
      match reset drop_panics (cell l) with
      | (s, Undefined) => fault s
      | (s, _) => {| cell := s; published := published l; taken := taken l;
            dropped := (if has_bit (state (cell l)) OUTCOME_VALID
                        then option_list (outcome (cell l)) else []) ++ dropped l;
            faults := faults l |}
      end
  | Use_Update previous next => keep (update_future_waker previous next (cell l)).1
  | Use_Register waker => keep (register_waker waker (cell l)).1
  | Use_Deregister registered => keep (drop_registration registered (cell l)).1
  end.

(** The uses in order, then the slot's own drop. *)
Definition slot_life (uses : list (SlotUse O)) : Ledger O :=
  let l := foldl (λ l use, slot_use use l)
    {| cell := Slot_new; published := []; taken := []; dropped := []; faults := 0 |} uses in
  match drop_slot (cell l) with
  | (s, Undefined) => {| cell := s; published := published l; taken := taken l;
                         dropped := dropped l; faults := S (faults l) |}
  | (s, _) => {| cell := s; published := published l; taken := taken l;
        dropped := (if has_bit (state (cell l)) OUTCOME_VALID
                    then option_list (outcome (cell l)) else []) ++ dropped l;
        faults := faults l |}
  end.
End ledger.

(** ** Lemmas: the registry *)

Definition waker_of (waiter : Waiter) : option WakerId :=
  match waiter with Waiter_Waker waker _ => Some waker | Waiter_Thread _ => None end.

Definition waker_ids (l : list Waiter) : list WakerId := omap waker_of l.

Definition ownership_count (ownership : WakerOwnership) : N :=
  match ownership with Futures n => Npos n | Persistent n => n end.

Definition owner_count (waker : WakerId) (waiter : Waiter) : N :=
  match waiter with
  | Waiter_Waker w ownership => if decide (w = waker) then ownership_count ownership else 0
  | Waiter_Thread _ => 0
  end.

(** The futures registered for a waker, as the registry counts them. *)
Definition owners_of (waker : WakerId) (l : list Waiter) : N :=
  foldr (λ waiter n, (owner_count waker waiter + n)%N) 0%N l.

Definition persistent_in (waker : WakerId) (l : list Waiter) : Prop :=
  ∃ n, Waiter_Waker waker (Persistent n) ∈ l.

(** The entries a registration by a future must not disturb. *)
Definition preserves (l l' : list Waiter) : Prop :=
  (∀ t, Waiter_Thread t ∈ l → Waiter_Thread t ∈ l') ∧
  (∀ waker, persistent_in waker l → persistent_in waker l').

#[export] Instance preserves_preorder : PreOrder preserves.
Proof. split; [by split|]. intros l1 l2 l3 [H1 H2] [H3 H4]. split; eauto. Qed.

Lemma preserves_app l k : preserves l (l ++ k).
Proof.
  split; [intros; apply elem_of_app; by left|]. intros w [n Hn]. exists n. apply elem_of_app. by left.
Qed.

Lemma preserves_cons x l l' : preserves l l' → preserves (x :: l) (x :: l').
Proof.
  intros [Ht Hp]. split.
  - intros t [->|Hin]%elem_of_cons; [by left|right; by apply Ht].
  - intros w [n [<-|Hin]%elem_of_cons]; [exists n; by left|].
    destruct (Hp w) as [m Hm]; [by exists n|]. exists m. by right.
Qed.

Lemma owners_app waker l k : owners_of waker (l ++ k) = (owners_of waker l + owners_of waker k)%N.
Proof. induction l as [|x l IH]; simpl; lia. Qed.

Lemma owners_zero waker l : waker ∉ waker_ids l → owners_of waker l = 0%N.
Proof.
  unfold waker_ids. induction l as [|[t|w o] l IH]; csimpl; [done|by auto|].
  intros [Hne Hin]%not_elem_of_cons. rewrite IH by done. by rewrite decide_False.
Qed.

Lemma slice_push ws x : slice (push ws x) = slice ws ++ [x].
Proof. by destruct ws. Qed.

Lemma slice_rebuild l : slice (rebuild l) = l.
Proof. by destruct l as [|? []]. Qed.

Lemma slice_with_slice ws l : length l = length (slice ws) → slice (with_slice ws l) = l.
Proof. destruct ws as [|x|k], l as [|y [|z l]]; simpl; try done; lia. Qed.

Lemma slice_retain keep ws : slice (retain keep ws) = List.filter keep (slice ws).
Proof. destruct ws as [|x|l]; simpl; [done|by destruct (keep x)|apply slice_rebuild]. Qed.

Lemma retain_mut_slice {S} (keep : S → Waiter → option (S * option Waiter)) s ws s' l :
  retain_list keep s (slice ws) = Some (s', l) →
  slice (retain_mut keep s ws).1 = l ∧ (retain_mut keep s ws).2 = Some s'.
Proof.
  destruct ws as [|x|k]; simpl.
  - by intros [= <- <-].
  - destruct (keep s x) as [[s1 [y|]]|]; simpl; [|by intros [= <- <-]|done]. by intros [= <- <-].
  - intros ->. simpl. by rewrite slice_rebuild.
Qed.

Lemma join_owner_absent next l :
  next ∉ waker_ids l → join_owner next l = Some None.
Proof.
  unfold waker_ids. induction l as [|[t|w o] l IH]; csimpl; [done| |].
  - intros Hin. by rewrite IH.
  - intros [Hne Hin]%not_elem_of_cons. unfold will_wake. rewrite bool_decide_false by congruence.
    by rewrite IH.
Qed.

Lemma count_successor p n :
  (n ← checked_add usize_max (Npos p) 1; nonzero n) = Some n → n = Pos.succ p.
Proof.
  destruct (checked_add usize_max (N.pos p) 1) as [m|] eqn:Hm; simpl; [|done].
  apply checked_add_Some in Hm as [-> _]. intros Hn%nonzero_Some. lia.
Qed.

(** Joining an entry counts one more owner for its waker, and only that. *)
Lemma join_owner_present next l l' :
  join_owner next l = Some (Some l') →
  next ∈ waker_ids l ∧ waker_ids l' = waker_ids l ∧ length l' = length l ∧ preserves l l' ∧
  ∀ waker, owners_of waker l' = (owners_of waker l + if decide (waker = next) then 1 else 0)%N.
Proof.
  unfold waker_ids. revert l'. induction l as [|x l IH]; intros l'; [done|]. intros H.
  assert (∀ joined, join_owner next l = Some joined → Some l' = (r ← joined; Some (x :: r)) →
    (next ∈ omap waker_of l ∧ omap waker_of l' = omap waker_of (x :: l)) ∧
    length l' = length (x :: l) ∧ preserves (x :: l) l' ∧
    ∀ waker, owners_of waker l' =
      (owners_of waker (x :: l) + if decide (waker = next) then 1 else 0)%N) as Hskip.
  { intros [r|] Hj; simpl; [|done]. intros [= ->]. destruct (IH _ Hj) as (Hin & Hid & Hlen & Hp & Ho).
    split_and!; csimpl; [done|by rewrite Hid|by rewrite Hlen|by apply preserves_cons|].
    intros waker. simpl. rewrite Ho. lia. }
  destruct x as [t|w o]; simpl in H.
  - destruct (join_owner next l) as [joined|]; [|done]. simpl in H. injection H as H.
    destruct (Hskip joined eq_refl) as ([? ?] & ? & ? & ?); [by destruct joined|]. by split_and!.
  - unfold will_wake in H. case_bool_decide as Hw.
    + subst w. assert (∃ o', l' = Waiter_Waker next o' :: l ∧
        ownership_count o' = (ownership_count o + 1)%N ∧
        (∀ n, o = Persistent n → ∃ m, o' = Persistent m)) as (o' & -> & Hc & Hper).
      { destruct o as [p|n].
        - destruct (n ← checked_add _ _ _; nonzero n) as [q|] eqn:Hq in H; [|done].
          injection H as <-. apply count_successor in Hq as ->. exists (Futures (Pos.succ p)).
          split_and!; [done|simpl; lia|done].
        - destruct (checked_add _ _ _) as [m|] eqn:Hm in H; [|done]. injection H as <-.
          apply checked_add_Some in Hm as [-> _]. exists (Persistent (n + 1)).
          split_and!; [done|done|by eexists]. }
      split_and!; csimpl; [by left|done|done| |].
      * split; [intros t [?|Hin]%elem_of_cons; [done|by right]|].
        intros waker [n [[= -> <-]|Hin]%elem_of_cons]; [|exists n; by right].
        destruct (Hper n eq_refl) as [m ->]. exists m. by left.
      * intros waker. rewrite Hc. destruct (decide (next = waker)) as [->|Hne];
          [rewrite decide_True by done|rewrite decide_False by done]; lia.
    + destruct (join_owner next l) as [joined|]; [|done]. simpl in H. injection H as H.
      destruct (Hskip joined eq_refl) as ([? ?] & ? & ? & ?); [by destruct joined|].
      split_and!; try done. csimpl. by right.
Qed.

Lemma remove_owner_found target l : retain_list (remove_owner target) false l = Some (false, l).
Proof. induction l as [|[t|w o] l IH]; simpl; [done|..]; by rewrite IH. Qed.

Lemma remove_owner_absent target l :
  target ∉ waker_ids l → retain_list (remove_owner target) true l = Some (true, l).
Proof.
  unfold waker_ids. induction l as [|[t|w o] l IH]; csimpl; [done| |].
  - intros Hin. by rewrite IH.
  - intros [Hne Hin]%not_elem_of_cons. unfold will_wake. rewrite bool_decide_false by congruence.
    simpl. by rewrite IH.
Qed.

(** Removing one owner of a registered waker never panics, uncounts that owner
    alone, and disturbs no other waiter. *)
Lemma remove_owner_present target l :
  NoDup (waker_ids l) → (1 ≤ owners_of target l)%N →
  ∃ s l', retain_list (remove_owner target) true l = Some (s, l') ∧ NoDup (waker_ids l') ∧
    (∀ w, w ∈ waker_ids l' → w ∈ waker_ids l) ∧ preserves l l' ∧
    ∀ w, owners_of w l' = (owners_of w l - if decide (w = target) then 1 else 0)%N.
Proof.
  unfold waker_ids. induction l as [|x l IH]; csimpl; [lia|]. intros Hnd Howners.
  destruct x as [t|w o]; csimpl in Hnd; simpl in Howners; simpl.
  { destruct (IH Hnd Howners) as (s & l' & -> & ? & ? & ? & ?). simpl. exists s, (Waiter_Thread t :: l').
    split_and!; csimpl; [done..|by apply preserves_cons|done]. }
  apply NoDup_cons in Hnd as [Hw Hnd]. unfold will_wake. destruct (decide (w = target)) as [->|Hne].
  - rewrite bool_decide_true by done. simpl. rewrite (owners_zero target l) in Howners by done.
    assert (∃ kept, remove_owner target true (Waiter_Waker target o) = Some (false, kept) ∧
      match kept with
      | None => ownership_count o = 1%N ∧ ∃ p, o = Futures p
      | Some x => ∃ o', x = Waiter_Waker target o' ∧ (ownership_count o' + 1)%N = ownership_count o ∧
          (∀ n, o = Persistent n → ∃ m, o' = Persistent m)
      end) as (kept & Hkept & Hspec).
    { simpl. unfold will_wake. rewrite bool_decide_true by done. simpl. destruct o as [p|n]; simpl in *.
      - destruct (checked_sub (Npos p) 1) as [r|] eqn:Hr; simpl;
          [apply checked_sub_Some in Hr|apply checked_sub_None in Hr; lia].
        destruct (nonzero r) as [q|] eqn:Hq.
        + apply nonzero_Some in Hq as ->. eexists. split; [done|]. exists (Futures q).
          split_and!; [done|simpl; lia|done].
        + apply nonzero_None in Hq as ->. eexists. split; [done|]. split; [lia|by eexists].
      - destruct (checked_sub n 1) as [r|] eqn:Hr;
          [apply checked_sub_Some in Hr|apply checked_sub_None in Hr; lia].
        eexists. split; [done|]. exists (Persistent r). split_and!; [done|simpl; lia|by eexists]. }
    simpl in Hkept. unfold will_wake in Hkept. rewrite bool_decide_true in Hkept by done.
    simpl in Hkept. rewrite Hkept. simpl. rewrite remove_owner_found. simpl.
    exists false. destruct kept as [x|].
    + destruct Hspec as (o' & -> & Ho & Hper). exists (Waiter_Waker target o' :: l).
      split_and!; csimpl; [done|by constructor|done| |].
      * split; [intros t [?|Hin]%elem_of_cons; [done|by right]|].
        intros waker [n [[= -> <-]|Hin]%elem_of_cons]; [|exists n; by right].
        destruct (Hper n eq_refl) as [m ->]. exists m. by left.
      * intros waker. destruct (decide (target = waker)) as [->|?];
          [rewrite decide_True by done|rewrite decide_False by done]; lia.
    + destruct Hspec as [Ho [p ->]]. exists l. split_and!; csimpl; [done|done|by right| |].
      * split; [intros t [?|Hin]%elem_of_cons; [done|done]|].
        intros waker [n [?|Hin]%elem_of_cons]; [done|by exists n].
      * intros waker. simpl in Ho. injection Ho as ->. destruct (decide (target = waker)) as [->|?];
          [rewrite decide_True by done|rewrite decide_False by done]; lia.
  - rewrite bool_decide_false by done. simpl. simpl in Howners.
    destruct (IH Hnd) as (s & l' & -> & Hnd' & Hin & Hp & Ho); [lia|]. simpl.
    exists s, (Waiter_Waker w o :: l'). split_and!; csimpl; [done| | |by apply preserves_cons|].
    + constructor; [|done]. intros Hx. by apply Hin in Hx.
    + intros w' [->|Hx]%elem_of_cons; [by left|right; by apply Hin].
    + intros w'. rewrite Ho. destruct (decide (w = w')) as [->|?]; [|lia].
      rewrite decide_False by done. lia.
Qed.

Lemma remove_future_spec ws target :
  NoDup (waker_ids (slice ws)) → (1 ≤ owners_of target (slice ws))%N →
  ∃ ws', remove_future_waker_owner ws target = (ws', Some ()) ∧ NoDup (waker_ids (slice ws')) ∧
    preserves (slice ws) (slice ws') ∧
    ∀ w, owners_of w (slice ws') = (owners_of w (slice ws) - if decide (w = target) then 1 else 0)%N.
Proof.
  intros Hnd Ho. destruct (remove_owner_present _ _ Hnd Ho) as (s & l & Hl & Hnd' & _ & Hp & Hc).
  unfold remove_future_waker_owner. destruct (retain_mut_slice _ _ _ _ _ Hl) as [Hs Hr].
  destruct (retain_mut _ _ _) as [ws' r]. simpl in *. subst r l. by exists ws'.
Qed.

Lemma remove_future_absent ws target :
  target ∉ waker_ids (slice ws) →
  ∃ ws', remove_future_waker_owner ws target = (ws', Some ()) ∧ slice ws' = slice ws.
Proof.
  intros Hin. pose proof (remove_owner_absent _ _ Hin) as Hl.
  unfold remove_future_waker_owner. destruct (retain_mut_slice _ _ _ _ _ Hl) as [Hs Hr].
  destruct (retain_mut _ _ _) as [ws' r]. simpl in *. subst r. by exists ws'.
Qed.

(** Installing a future's waker moves one owner from the previous one to it. *)
Lemma install_future_spec ws previous next ws' :
  NoDup (waker_ids (slice ws)) →
  (∀ p, previous = Some p → p ≠ next ∧ (1 ≤ owners_of p (slice ws))%N) →
  install_future_waker ws previous next = (ws', Some ()) →
  NoDup (waker_ids (slice ws')) ∧ preserves (slice ws) (slice ws') ∧
  ∀ w, owners_of w (slice ws') =
    (owners_of w (slice ws) + (if decide (w = next) then 1 else 0)
       - (if decide (Some w = previous) then 1 else 0))%N.
Proof.
  intros Hnd Hprev Hi. unfold install_future_waker in Hi.
  assert (∃ mid, NoDup (waker_ids (slice mid)) ∧ preserves (slice ws) (slice mid) ∧
    (∀ w, owners_of w (slice mid) = (owners_of w (slice ws) + if decide (w = next) then 1 else 0)%N) ∧
    match previous with
    | Some previous => remove_future_waker_owner mid previous
    | None => (mid, Some ())
    end = (ws', Some ())) as (mid & Hnd' & Hp & Ho & Hm).
  { destruct (decide (next ∈ waker_ids (slice ws))) as [Hin|Hin].
    - destruct (join_owner next (slice ws)) as [[l|]|] eqn:Hj; [|exfalso|done].
      + apply join_owner_present in Hj as (_ & Hid & Hlen & Hp & Ho).
        exists (with_slice ws l). rewrite slice_with_slice by done. by rewrite Hid.
      + clear -Hj Hin. unfold waker_ids in Hin. induction (slice ws) as [|[t|w o] l IH]; csimpl in Hin.
        * by apply elem_of_nil in Hin.
        * simpl in Hj. destruct (join_owner next l) as [[|]|]; simpl in Hj; try done. by apply IH.
        * simpl in Hj. unfold will_wake in Hj. case_bool_decide.
          { by destruct o; simpl in Hj; repeat case_match. }
          apply elem_of_cons in Hin as [?|Hin]; [congruence|].
          destruct (join_owner next l) as [[|]|]; simpl in Hj; try done. by apply IH.
    - rewrite join_owner_absent in Hi by done. eexists. split_and!; [| | |exact Hi].
      + rewrite slice_push. unfold waker_ids in *. rewrite omap_app. simpl. apply NoDup_app.
        split_and!; [done| |apply NoDup_singleton]. intros w Hw ->%list_elem_of_singleton. done.
      + rewrite slice_push. apply preserves_app.
      + intros w. rewrite slice_push, owners_app. simpl.
        destruct (decide (next = w)) as [->|]; [by rewrite decide_True|by rewrite decide_False]. }
  destruct previous as [p|].
  - destruct (Hprev p eq_refl) as [Hpn Hpo].
    destruct (remove_future_spec mid p Hnd') as (ws2 & Hr & Hnd2 & Hp2 & Ho2);
      [rewrite Ho; lia|]. rewrite Hr in Hm. injection Hm as ->.
    split_and!; [done|by etrans|]. intros w. rewrite Ho2, Ho.
    destruct (decide (w = p)) as [->|?]; [by rewrite (decide_True (P := Some _ = _)) by done|].
    rewrite (decide_False (P := Some _ = _)) by congruence. done.
  - injection Hm as ->. split_and!; [done..|]. intros w. rewrite Ho. simpl. lia.
Qed.

Lemma persist_owner_spec waker l :
  match persist_owner waker l with
  | None => waker ∉ waker_ids l
  | Some l' => waker_ids l' = waker_ids l ∧ length l' = length l ∧ preserves l l' ∧
      persistent_in waker l' ∧ ∀ w, owners_of w l' = owners_of w l
  end.
Proof.
  unfold waker_ids. induction l as [|x l IH]; csimpl; [by apply not_elem_of_nil|].
  assert (match persist_owner waker l with
    | None => True
    | Some l' => omap waker_of (x :: l') = omap waker_of (x :: l) ∧ length (x :: l') = length (x :: l) ∧
        preserves (x :: l) (x :: l') ∧ persistent_in waker (x :: l') ∧
        ∀ w, owners_of w (x :: l') = owners_of w (x :: l) end) as Hskip.
  { destruct (persist_owner waker l) as [l'|]; [|done]. destruct IH as (Hid & Hlen & Hp & [n Hn] & Ho).
    split_and!; csimpl; [by rewrite Hid|by rewrite Hlen|by apply preserves_cons|exists n; by right|].
    intros w. by rewrite Ho. }
  destruct x as [t|w o]; simpl.
  - destruct (persist_owner waker l); [done|]. by csimpl.
  - unfold will_wake. case_bool_decide as Hw.
    + subst w. split_and!; csimpl; [done|done| | |].
      * split; [intros t [?|Hin]%elem_of_cons; [done|by right]|].
        intros w [n [[= -> <-]|Hin]%elem_of_cons]; [exists n; by left|exists n; by right].
      * destruct o as [p|n]; eexists; by left.
      * intros w. by destruct o.
    + destruct (persist_owner waker l); [done|]. csimpl. apply not_elem_of_cons. by split.
Qed.

Lemma install_waker_spec ws waker :
  NoDup (waker_ids (slice ws)) →
  NoDup (waker_ids (slice (install_waker ws waker))) ∧
  preserves (slice ws) (slice (install_waker ws waker)) ∧
  persistent_in waker (slice (install_waker ws waker)) ∧
  ∀ w, owners_of w (slice (install_waker ws waker)) = owners_of w (slice ws).
Proof.
  intros Hnd. unfold install_waker. pose proof (persist_owner_spec waker (slice ws)) as Hs.
  destruct (persist_owner waker (slice ws)) as [l|].
  - destruct Hs as (Hid & Hlen & Hp & Hper & Ho). rewrite slice_with_slice by done. by rewrite Hid.
  - rewrite slice_push. split_and!.
    + unfold waker_ids in *. rewrite omap_app. simpl. apply NoDup_app.
      split_and!; [done| |apply NoDup_singleton]. intros w Hw ->%list_elem_of_singleton. done.
    + apply preserves_app.
    + exists 0%N. apply elem_of_app. right. by left.
    + intros w. rewrite owners_app. simpl. case_decide; lia.
Qed.

Lemma slice_push_thread ws t :
  slice (push_thread ws t) = slice ws ∧ Waiter_Thread t ∈ slice ws ∨
  slice (push_thread ws t) = slice ws ++ [Waiter_Thread t].
Proof.
  unfold push_thread. destruct (last (slice ws)) as [x|] eqn:Hl; [|right; apply slice_push].
  destruct (is_thread t x) eqn:Hx; [|right; apply slice_push]. left. split; [done|].
  destruct x as [t'|]; simpl in Hx; [|done]. apply bool_decide_eq_true in Hx as ->.
  apply last_Some in Hl as [l ->]. apply elem_of_app. right. by left.
Qed.

(** A thread's own entries come and go; wakers and other threads stay. *)
Lemma slice_remove_thread ws t :
  slice (remove_thread ws t) = List.filter (λ x, negb (is_thread t x)) (slice ws).
Proof. apply slice_retain. Qed.

Lemma filter_thread_wakers t l :
  waker_ids (List.filter (λ x, negb (is_thread t x)) l) = waker_ids l ∧
  (∀ w, owners_of w (List.filter (λ x, negb (is_thread t x)) l) = owners_of w l) ∧
  (∀ x, x ∈ List.filter (λ x, negb (is_thread t x)) l ↔ x ∈ l ∧ x ≠ Waiter_Thread t).
Proof.
  unfold waker_ids. split_and!.
  - induction l as [|[t'|w o] l IH]; csimpl; [done| |by rewrite IH].
    case_bool_decide; simpl; done.
  - intros w. induction l as [|[t'|w' o] l IH]; simpl; [done| |by rewrite IH].
    case_bool_decide; simpl; done.
  - intros x. rewrite !list_elem_of_In, filter_In. f_equiv.
    destruct x as [t'|]; simpl; [|by split]. case_bool_decide; simpl; split; congruence.
Qed.

(** ** Lemmas: the state word *)

Lemma has_bit_testbit n k : has_bit n (N.shiftl 1 k) = N.testbit n k.
Proof.
  unfold has_bit. rewrite N.shiftl_1_l.
  assert (N.land n (2 ^ k) = if N.testbit n k then 2 ^ k else 0)%N as ->.
  { apply N.bits_inj. intros i. rewrite N.land_spec, N.pow2_bits_eqb.
    destruct (N.eqb_spec k i) as [<-|Hne].
    - rewrite andb_true_r. destruct (N.testbit n k); [by rewrite N.pow2_bits_true|by rewrite N.bits_0].
    - rewrite andb_false_r. destruct (N.testbit n k); [by rewrite N.pow2_bits_false|by rewrite N.bits_0]. }
  destruct (N.testbit n k); [|done]. apply negb_true_iff, N.eqb_neq, N.pow_nonzero. lia.
Qed.

Lemma lor_bit n m k : has_bit (N.lor n m) (N.shiftl 1 k) = has_bit n (N.shiftl 1 k) || has_bit m (N.shiftl 1 k).
Proof. by rewrite !has_bit_testbit, N.lor_spec. Qed.

Lemma clear_other_bit n j k :
  j ≠ k → has_bit (clear_bit n (N.shiftl 1 j)) (N.shiftl 1 k) = has_bit n (N.shiftl 1 k).
Proof.
  intros Hne. rewrite !has_bit_testbit. unfold clear_bit. rewrite N.ldiff_spec, N.shiftl_1_l.
  rewrite N.pow2_bits_false by done. by rewrite andb_true_r.
Qed.

Lemma clear_this_bit n k : has_bit (clear_bit n (N.shiftl 1 k)) (N.shiftl 1 k) = false.
Proof.
  rewrite has_bit_testbit. unfold clear_bit. rewrite N.ldiff_spec, N.shiftl_1_l, N.pow2_bits_true.
  apply andb_false_r.
Qed.

Section invariant.
Context {O : Type}.
Implicit Types (w : ObserverWorld O) (s : Slot O).

Definition waiting s : bool := has_bit (state s) HAS_WAITER.

Lemma flag_waiter_completed s : completed (flag_waiter s) = completed s.
Proof. unfold completed, flag_waiter, HAS_WAITER, COMPLETED. simpl. rewrite lor_bit. by rewrite orb_false_r. Qed.

Lemma flag_waiter_waiting s : waiting (flag_waiter s) = true.
Proof. unfold waiting, flag_waiter, HAS_WAITER. simpl. rewrite lor_bit. by rewrite orb_true_r. Qed.

Lemma publish_spec value s :
  completed s = false →
  ∃ s', publish value s = (s', Returned (state s)) ∧ completed s' = true ∧
    outcome s' = Some value ∧ waiters s' = waiters s ∧ (waiting s = true → waiting s' = true).
Proof.
  intros Hc. unfold publish. rewrite Hc. eexists. split; [done|]. split_and!; [|done|done|].
  - unfold completed. simpl. unfold COMPLETED. by rewrite !lor_bit, !orb_true_r.
  - unfold waiting. simpl. unfold HAS_WAITER. rewrite lor_bit. by intros ->.
Qed.

(** ** The invariant of the observers *)

Definition futures_on (waker : WakerId) (l : list FutureState) : N :=
  foldr (λ f n, ((if decide (registered f = Some waker) then 1 else 0) + n)%N) 0%N l.

Lemma futures_on_app waker l k : futures_on waker (l ++ k) = (futures_on waker l + futures_on waker k)%N.
Proof. induction l; simpl; lia. Qed.

Lemma futures_on_elem waker l f :
  f ∈ l → registered f = Some waker → (1 ≤ futures_on waker l)%N.
Proof.
  intros Hin Hr. apply list_elem_of_split in Hin as (pre & post & ->).
  rewrite futures_on_app. simpl. rewrite decide_True by done. lia.
Qed.

Definition flagged_thread (p : ThreadPoint) : bool :=
  match p with TFlagged | TParked => true | _ => false end.
Definition flagged_future (f : FutureState) : bool :=
  match registered f, point f with None, FFlagged _ => true | None, _ => false | Some _, _ => true end.
Definition flagged_register (r : RegisterPoint) : bool :=
  match r with RFlagged _ => true | RLoaded _ => false end.

(** Whoever got past [fetch_or(HAS_WAITER)] left the bit behind. *)
Record flags_ok w : Prop := {
  flags_threads : ∀ t p, (t, p) ∈ threads w → flagged_thread p → waiting (slot w) = true;
  flags_futures : ∀ f, f ∈ futures w → flagged_future f → waiting (slot w) = true;
  flags_registers : ∀ r, r ∈ registers w → flagged_register r → waiting (slot w) = true;
  flags_persistents : persistents w ≠ [] → waiting (slot w) = true;
  flags_entries : slice (waiters (slot w)) ≠ [] → waiting (slot w) = true
}.

(** Until the drain, the registry holds every obligation. *)
Record registry_ok w : Prop := {
  reg_unique : NoDup (waker_ids (slice (waiters (slot w))));
  reg_futures : ∀ waker, owners_of waker (slice (waiters (slot w))) = futures_on waker (futures w);
  reg_persistents : ∀ waker, waker ∈ persistents w →
    persistent_in waker (slice (waiters (slot w)));
  reg_parked : ∀ t, (t, TParked) ∈ threads w → Waiter_Thread t ∈ slice (waiters (slot w))
}.

(** After the drain, an obligation was discharged or is still queued. *)
Record woken_ok w (queue : list Waiter) : Prop := {
  wok_empty : slice (waiters (slot w)) = [];
  wok_futures : ∀ f waker, f ∈ futures w → registered f = Some waker →
    waker ∈ woken w ∨ waker ∈ waker_ids queue;
  wok_persistents : ∀ waker, waker ∈ persistents w → waker ∈ woken w ∨ waker ∈ waker_ids queue;
  wok_parked : ∀ t, (t, TParked) ∈ threads w → t ∈ tokens w ∨ Waiter_Thread t ∈ queue
}.

Definition phase_ok w : Prop :=
  match completer w with
  | CPending => completed (slot w) = false ∧ registry_ok w
  | CDraining => completed (slot w) = true ∧ registry_ok w
  | CNotifying queue => completed (slot w) = true ∧ woken_ok w queue
  | CComplete => completed (slot w) = true ∧ woken_ok w []
  end.

Record observer_inv w : Prop := {
  oinv_threads : NoDup (map fst (threads w));
  oinv_flags : flags_ok w;
  oinv_phase : phase_ok w;
  oinv_outcome : completed (slot w) = true → is_Some (outcome (slot w))
}.

(** What a thread's step may do to the slot: its own entries aside, the
    registry is as it was. *)
Record thread_change (t : ThreadId) s s' : Prop := {
  tc_completed : completed s' = completed s;
  tc_outcome : outcome s' = outcome s;
  tc_waiting : waiting s = true → waiting s' = true;
  tc_ids : waker_ids (slice (waiters s')) = waker_ids (slice (waiters s));
  tc_owners : ∀ waker, owners_of waker (slice (waiters s')) = owners_of waker (slice (waiters s));
  tc_persistent : ∀ waker, persistent_in waker (slice (waiters s)) →
    persistent_in waker (slice (waiters s'));
  tc_threads : ∀ t', t' ≠ t → Waiter_Thread t' ∈ slice (waiters s) → Waiter_Thread t' ∈ slice (waiters s');
  tc_empty : slice (waiters s) = [] → completed s = true → slice (waiters s') = []
}.

Lemma thread_step_inv w t p p' pre post s ts :
  observer_inv w → threads w = pre ++ (t, p) :: post → thread_change t (slot w) s →
  (flagged_thread p' → waiting s = true) →
  (slice (waiters s) ≠ [] → waiting s = true) →
  (p' = TParked → completed s = false ∧ Waiter_Thread t ∈ slice (waiters s)) →
  (∀ t', t' ≠ t → t' ∈ tokens w → t' ∈ ts) →
  observer_inv (with_tokens ts (with_threads s (pre ++ (t, p') :: post) w)).
Proof.
  intros [Hnd [Hft Hff Hfr Hfp Hfe] Hphase Hout] Hth [Tc To Tw Ti Ta Tp Tt Te] Hflag Hent Hpark Htok.
  assert (∀ t' q, (t', q) ∈ pre ++ (t, p') :: post → (t', q) = (t, p') ∨ t' ≠ t ∧ (t', q) ∈ threads w)
    as Hin.
  { intros t' q Hin. rewrite Hth in Hnd. rewrite map_app in Hnd. simpl in Hnd.
    apply NoDup_app in Hnd as (_ & Hd & [Hn _]%NoDup_cons).
    rewrite elem_of_app, elem_of_cons in Hin. destruct Hin as [Hin|[Hin|Hin]]; [|by left|].
    - right. split; [|rewrite Hth; apply elem_of_app; by left]. intros ->. eapply (Hd t); [|by left].
      apply list_elem_of_fmap. by exists (t, q).
    - right. split; [|rewrite Hth; apply elem_of_app; right; by right]. intros ->. apply Hn.
      apply list_elem_of_fmap. by exists (t, q). }
  split; simpl.
  - rewrite Hth in Hnd. rewrite map_app in *. exact Hnd.
  - split; simpl.
    + intros t' q [[= -> ->]|[_ Hq]]%Hin Hfl; [by apply Hflag|]. apply Tw. by eapply Hft.
    + intros f Hf Hfl. apply Tw. by eapply Hff.
    + intros r Hr Hfl. apply Tw. by eapply Hfr.
    + intros Hp. by apply Tw, Hfp.
    + exact Hent.
  - assert (∀ c, completed (slot w) = c ∧ registry_ok w → completed s = c ∧ registry_ok
      (with_tokens ts (with_threads s (pre ++ (t, p') :: post) w))) as Hreg.
    { intros c [Hc [R1 R2 R3 R4]]. split; [congruence|]. split; simpl.
      - by rewrite Ti.
      - intros waker. by rewrite Ta.
      - intros waker Hw. by apply Tp, R3.
      - intros t' [[= -> <-]|[Hne Ht]]%Hin; [by apply Hpark|]. by apply Tt, R4. }
    assert (∀ queue, completed (slot w) = true ∧ woken_ok w queue → completed s = true ∧ woken_ok
      (with_tokens ts (with_threads s (pre ++ (t, p') :: post) w)) queue) as Hwok.
    { intros queue [Hc [W1 W2 W3 W4]]. split; [congruence|]. split; simpl.
      - by apply Te.
      - done.
      - done.
      - intros t' [[= -> <-]|[Hne Ht]]%Hin; [destruct (Hpark eq_refl); congruence|].
        destruct (W4 _ Ht); [left; by apply Htok|by right]. }
    unfold phase_ok in *. simpl. destruct (completer w); by auto.
  - intros Hc. rewrite To. apply Hout. congruence.
Qed.

Lemma thread_change_refl t s s' :
  completed s' = completed s → outcome s' = outcome s → (waiting s = true → waiting s' = true) →
  waiters s' = waiters s → thread_change t s s'.
Proof. intros ? ? ? Hw. by split; rewrite ?Hw. Qed.

Lemma slice_remove_nonempty ws t : slice (remove_thread ws t) ≠ [] → slice ws ≠ [].
Proof. rewrite slice_remove_thread. intros Hne Hws. apply Hne. by rewrite Hws. Qed.

Lemma thread_change_remove t s : thread_change t s (wait_deregister t s).
Proof.
  destruct (filter_thread_wakers t (slice (waiters s))) as (Hi & Ho & Hin).
  unfold wait_deregister. split; simpl; try rewrite slice_remove_thread; try done.
  - intros waker [n Hn]. exists n. by apply Hin.
  - intros t' Hne Ht. apply Hin. split; [done|congruence].
  - by intros ->.
Qed.

Lemma thread_change_push t s :
  completed s = false → thread_change t s (set_waiters (push_thread (waiters s) t) s).
Proof.
  intros Hc. split; simpl; try done; try congruence.
  all: destruct (slice_push_thread (waiters s) t) as [[-> _]| ->]; try done.
  - unfold waker_ids. rewrite omap_app. apply app_nil_r.
  - intros waker. rewrite owners_app. simpl. lia.
  - intros waker. apply preserves_app.
  - intros t' _. apply preserves_app.
Qed.

Lemma push_thread_in ws t : Waiter_Thread t ∈ slice (push_thread ws t).
Proof.
  destruct (slice_push_thread ws t) as [[-> H]| ->]; [done|]. apply elem_of_app. right. by left.
Qed.

(** A registration that finds the slot completed leaves no entry behind. *)
Lemma thread_change_register t s s' ready :
  wait_register t s = (s', ready) →
  thread_change t s s' ∧ ready = completed s ∧ waiting s' = waiting s ∧
  (ready = false → Waiter_Thread t ∈ slice (waiters s')).
Proof.
  unfold wait_register. cbv zeta. change (completed (set_waiters _ s)) with (completed s).
  destruct (completed s) eqn:Hc; intros [= <- <-].
  - split_and!; [|done..]. destruct (filter_thread_wakers t (slice (waiters s))) as (Hi & Ho & Hin).
    assert (List.filter (λ x, negb (is_thread t x)) (slice (push_thread (waiters s) t)) =
      List.filter (λ x, negb (is_thread t x)) (slice (waiters s))) as Hf.
    { destruct (slice_push_thread (waiters s) t) as [[-> _]| ->]; [done|].
      rewrite List.filter_app. simpl. rewrite bool_decide_true by done. apply app_nil_r. }
    split; simpl; try rewrite slice_remove_thread, Hf; try done.
    + intros waker [n Hn]. exists n. by apply Hin.
    + intros t' Hne Ht. apply Hin. split; [done|congruence].
    + by intros ->.
  - split_and!; [by apply thread_change_push|done..|]. intros _. apply push_thread_in.
Qed.
(** What the slot keeps across a future's step. *)
Record future_change (before after : list FutureState) s s' : Prop := {
  fc_completed : completed s' = completed s;
  fc_outcome : outcome s' = outcome s;
  fc_waiting : waiting s = true → waiting s' = true;
  fc_entries : slice (waiters s') ≠ [] → waiting s' = true;
  fc_flagged : ∀ f, f ∈ after → flagged_future f → waiting s' = true;
  fc_registry : NoDup (waker_ids (slice (waiters s))) →
    (∀ waker, futures_on waker before ≤ owners_of waker (slice (waiters s)))%N →
    NoDup (waker_ids (slice (waiters s'))) ∧ preserves (slice (waiters s)) (slice (waiters s')) ∧
    ∀ waker, owners_of waker (slice (waiters s')) =
      (owners_of waker (slice (waiters s)) + futures_on waker after - futures_on waker before)%N;
  fc_drained : slice (waiters s) = [] → completed s = true →
    slice (waiters s') = [] ∧
    ∀ f waker, f ∈ after → registered f = Some waker →
      ∃ f', f' ∈ before ∧ registered f' = Some waker
}.

Lemma future_step_inv w pre before after post s :
  observer_inv w → futures w = pre ++ before ++ post → future_change before after (slot w) s →
  observer_inv (with_futures s (pre ++ after ++ post) w).
Proof.
  intros [Hnd [Hft Hff Hfr Hfp Hfe] Hphase Hout] Hf [Fc Fo Fw Fe Ff Fr Fd].
  assert (∀ f, f ∈ pre ++ after ++ post → f ∈ after ∨ f ∈ futures w) as Hin.
  { intros f. rewrite Hf, !elem_of_app. tauto. }
  assert (∀ f, f ∈ before → f ∈ futures w) as Hbefore.
  { intros f. rewrite Hf, !elem_of_app. tauto. }
  split; simpl; [done| | |].
  - split; simpl; [..|done].
    + intros t p Ht Hp. by eapply Fw, Hft.
    + intros f [Ha|Ha]%Hin Hfl; [by eapply Ff|by eapply Fw, Hff].
    + intros r Hr Hfl. by eapply Fw, Hfr.
    + intros Hp. by apply Fw, Hfp.
  - assert (∀ c, completed (slot w) = c ∧ registry_ok w → completed s = c ∧ registry_ok
      (with_futures s (pre ++ after ++ post) w)) as Hreg.
    { intros c [Hc [R1 R2 R3 R4]]. split; [congruence|].
      destruct (Fr R1) as (Hnd' & Fp & Ho').
      { intros waker. rewrite R2, Hf, !futures_on_app. lia. }
      split; simpl.
      - done.
      - intros waker. rewrite Ho', R2, Hf, !futures_on_app. lia.
      - intros waker Hw. by apply Fp, R3.
      - intros t Ht. by apply Fp, R4. }
    assert (∀ queue, completed (slot w) = true ∧ woken_ok w queue → completed s = true ∧ woken_ok
      (with_futures s (pre ++ after ++ post) w) queue) as Hwok.
    { intros queue [Hc [W1 W2 W3 W4]]. split; [congruence|]. destruct (Fd W1 Hc) as [Hs Hb].
      split; simpl; [done| |done|done].
      intros f waker [Ha|Ha]%Hin Hr; [|by eapply W2].
      destruct (Hb f waker Ha Hr) as (f' & Hf' & Hr'). eapply W2; [by apply Hbefore|done]. }
    unfold phase_ok in *. simpl. destruct (completer w); by auto.
  - intros Hc. rewrite Fo. apply Hout. congruence.
Qed.

(** A step that only moves the poll along. *)
Lemma future_point_change w pre f post point' s :
  observer_inv w → futures w = pre ++ f :: post →
  completed s = completed (slot w) → outcome s = outcome (slot w) → waiters s = waiters (slot w) →
  (waiting (slot w) = true → waiting s = true) →
  (∀ next, point' = FFlagged next → waiting s = true) →
  observer_inv (with_futures s (pre ++ {| registered := registered f; point := point' |} :: post) w).
Proof.
  intros Hinv Hf Hc Ho Hw Hm Hflag.
  apply (future_step_inv w pre [f] [{| registered := registered f; point := point' |}] post s Hinv Hf).
  pose proof (oinv_flags _ Hinv) as [_ Hff _ _ Hfe].
  split; try done; try rewrite Hw; try done.
  - intros Hne. by apply Hm, Hfe.
  - intros g ->%list_elem_of_singleton Hfl. unfold flagged_future in Hfl. simpl in Hfl.
    destruct (registered f) as [r|] eqn:Hr.
    + apply Hm. eapply (Hff f); [rewrite Hf; apply elem_of_app; right; by left|].
      unfold flagged_future. by rewrite Hr.
    + destruct point' as [| | |next|]; try done. by eapply Hflag.
  - intros Hnd Hle. split_and!; [done..|]. intros waker. simpl. lia.
  - intros Hs _. split; [done|]. intros g waker ->%list_elem_of_singleton. simpl. intros Hr.
    exists f. split; [by left|done].
Qed.
Lemma future_change_register f next s s' result :
  waiting s = true → update_register (registered f) next s = (s', Some result) →
  future_change [f]
    [{| registered := match result with Some waker => Some waker | None => registered f end;
        point := FIdle |}] s s'.
Proof.
  intros Hwait. unfold update_register.
  assert (∀ r, r = registered f → future_change [f] [{| registered := r; point := FIdle |}] s s) as Hsame.
  { intros r ->. split; try done.
    - intros Hnd _. split_and!; [done..|]. intros waker. simpl. lia.
    - intros Hs _. split; [done|]. intros g waker ->%list_elem_of_singleton Hr.
      exists f. split; [by left|done]. }
  destruct (completed s) eqn:Hc; [intros [= <- <-]; by apply Hsame|].
  case_bool_decide as Heq; [intros [= <- <-]; by apply Hsame|].
  destruct (install_future_waker _ _ _) as [ws [[]|]] eqn:Hi; [|done]. intros [= <- <-].
  split; try done.
  - intros Hnd Hle. apply install_future_spec in Hi as (Hnd' & Hp & Ho); [|done|].
    + split_and!; [done..|]. intros waker. simpl. rewrite Ho. specialize (Hle waker). simpl in Hle.
      destruct (decide (waker = next)), (decide (Some next = Some waker)),
        (decide (Some waker = registered f)), (decide (registered f = Some waker)); try congruence; lia.
    + intros p Hp. split; [congruence|]. specialize (Hle p). simpl in Hle.
      rewrite decide_True in Hle by done. lia.
  - congruence.
Qed.

Lemma future_change_drop f s s' :
  (slice (waiters s) ≠ [] → waiting s = true) → drop_registration (registered f) s = (s', Some ()) →
  future_change [f] [] s s'.
Proof.
  intros Hent. unfold drop_registration. destruct (registered f) as [waker|] eqn:Hr.
  - unfold deregister_future_waker. destruct (remove_future_waker_owner _ _) as [ws done] eqn:Hrm.
    intros [= <- ->].
    assert (slice (waiters s) = [] → slice ws = []) as Hempty.
    { intros Hs. destruct (remove_future_absent (waiters s) waker) as (ws' & Heq & Hws);
        [rewrite Hs; by apply not_elem_of_nil|]. congruence. }
    split; try done.
    + intros Hne. apply Hent. intros Hs. by apply Hne, Hempty.
    + by intros g ?%elem_of_nil.
    + intros Hnd Hle. destruct (remove_future_spec (waiters s) waker Hnd) as (ws' & Heq & Hnd' & Hp & Ho).
      { specialize (Hle waker). simpl in Hle. rewrite decide_True in Hle by done. lia. }
      rewrite Hrm in Heq. injection Heq as <-. split_and!; [done..|]. intros w'. simpl. rewrite Ho, Hr.
      destruct (decide (w' = waker)), (decide (Some waker = Some w')); try congruence; lia.
    + intros Hs _. split; [by apply Hempty|]. by intros g ? ?%elem_of_nil.
  - intros [= <-]. split; try done.
    + by intros g ?%elem_of_nil.
    + intros Hnd Hle. split_and!; [done..|]. intros w'. simpl. rewrite Hr. simpl. lia.
    + intros Hs _. split; [done|]. by intros g ? ?%elem_of_nil.
Qed.

(** [register_waker]: what is still to install, what was promised. *)
Lemma register_point_inv w (before l : list RegisterPoint) s :
  observer_inv w → (∀ r, r ∈ l → r ∈ registers w ∨ r ∈ before) →
  (∀ r, r ∈ before → flagged_register r → waiting s = true) →
  completed s = completed (slot w) → outcome s = outcome (slot w) → waiters s = waiters (slot w) →
  (waiting (slot w) = true → waiting s = true) →
  observer_inv (with_registers s l (persistents w) w).
Proof.
  intros [Hnd [Hft Hff Hfr Hfp Hfe] Hphase Hout] Hl Hflag Hc Ho Hw Hm.
  split; simpl; [done| | |by rewrite Hc, Ho].
  - split; simpl; rewrite ?Hw; [| | |by auto..].
    + intros t p Ht Hp. by eapply Hm, Hft.
    + intros f Hf Hfl. by eapply Hm, Hff.
    + intros r [Hr|Hr]%Hl Hfl; [by eapply Hm, Hfr|by eapply Hflag].
  - unfold phase_ok in *. simpl. rewrite Hc. destruct (completer w); destruct Hphase as [? Hp];
      (split; [done|]); destruct Hp as [P1 P2 P3 P4]; split; simpl; rewrite ?Hw; by auto.
Qed.

Lemma register_installs_inv w pre waker post s ready :
  observer_inv w → registers w = pre ++ RFlagged waker :: post →
  register_install waker (slot w) = (s, ready) →
  observer_inv (with_registers s (pre ++ post)
    (if ready : bool then persistents w else waker :: persistents w) w).
Proof.
  intros Hinv Hr. pose proof Hinv as [Hnd [Hft Hff Hfr Hfp Hfe] Hphase Hout].
  assert (∀ r, r ∈ pre ++ post → r ∈ registers w ∨ r ∈ @nil RegisterPoint) as Hin.
  { intros r Hin. left. rewrite Hr. rewrite elem_of_app, elem_of_cons. apply elem_of_app in Hin. tauto. }
  assert (waiting (slot w) = true) as Hwait.
  { eapply (Hfr (RFlagged waker)); [rewrite Hr; apply elem_of_app; right; by left|done]. }
  unfold register_install. destruct (completed (slot w)) eqn:Hc; intros [= <- <-].
  - by apply (register_point_inv w [] _ _ Hinv Hin).
  - split; simpl; [done| | |by intros Hc'; change (completed (slot w) = true) in Hc'; congruence].
    + by split.
    + unfold phase_ok in *. simpl. change (completed (set_waiters _ _)) with (completed (slot w)).
      assert (registry_ok w → registry_ok (with_registers
        (set_waiters (install_waker (waiters (slot w)) waker) (slot w)) (pre ++ post)
        (waker :: persistents w) w)) as Hreg.
      { intros [R1 R2 R3 R4]. destruct (install_waker_spec (waiters (slot w)) waker R1) as (I1 & I2 & I3 & I4).
        split; simpl; [done| | |].
        - intros w'. by rewrite I4.
        - intros w' [->|Hw']%elem_of_cons; [done|]. by apply I2, R3.
        - intros t Ht. by apply I2, R4. }
      destruct (completer w); destruct Hphase; split; by auto || congruence.
Qed.
Lemma completer_publishes_inv w value s previous :
  observer_inv w → completer w = CPending → publish value (slot w) = (s, Returned previous) →
  observer_inv (with_completer s
    (if has_bit previous HAS_WAITER then CDraining else CComplete) (tokens w) (woken w) w).
Proof.
  intros [Hnd [Hft Hff Hfr Hfp Hfe] Hphase Hout] Hcm Hpub. unfold phase_ok in Hphase.
  rewrite Hcm in Hphase. destruct Hphase as [Hc [R1 R2 R3 R4]].
  destruct (publish_spec value _ Hc) as (s' & Heq & Hc' & Ho' & Hw' & Hm).
  rewrite Hpub in Heq. injection Heq as -> ->.
  split; simpl; [done| | |by eexists].
  - split; simpl; rewrite ?Hw'; by eauto.
  - unfold phase_ok. simpl. fold (waiting (slot w)).
    destruct (waiting (slot w)) eqn:Hwait; simpl; (split; [done|]).
    + split; simpl; by rewrite ?Hw'.
    + split; simpl.
      * rewrite Hw'. destruct (slice (waiters (slot w))) as [|x l]; [done|].
        by discriminate (Hfe ltac:(done)).
      * intros f waker Hf Hr. discriminate (Hff f Hf). unfold flagged_future. by rewrite Hr.
      * intros waker Hp. discriminate Hfp. intros Hnil. rewrite Hnil in Hp. by apply elem_of_nil in Hp.
      * intros t Ht. by discriminate (Hft t TParked Ht).
Qed.

Lemma owner_listed waker l : (1 ≤ owners_of waker l)%N → waker ∈ waker_ids l.
Proof.
  intros Ho. destruct (decide (waker ∈ waker_ids l)) as [|Hn]; [done|].
  apply owners_zero in Hn. lia.
Qed.

Lemma persistent_listed waker l : persistent_in waker l → waker ∈ waker_ids l.
Proof. intros [n Hn]. apply list_elem_of_omap. by eexists. Qed.

Lemma completer_drains_inv w s ws :
  observer_inv w → completer w = CDraining → drain (slot w) = (s, ws) →
  observer_inv (with_completer s (CNotifying (slice ws)) (tokens w) (woken w) w).
Proof.
  intros [Hnd [Hft Hff Hfr Hfp Hfe] Hphase Hout] Hcm [= <- <-]. unfold phase_ok in Hphase.
  rewrite Hcm in Hphase. destruct Hphase as [Hc [R1 R2 R3 R4]].
  split; simpl; [done| | |by intros _; apply Hout].
  - by split.
  - unfold phase_ok. simpl. split; [done|]. split; simpl; [done| | |].
    + intros f waker Hf Hr. right. apply owner_listed. rewrite R2. by eapply futures_on_elem.
    + intros waker Hp. right. by apply persistent_listed, R3.
    + intros t Ht. right. by apply R4.
Qed.

(** One waiter of the queue is notified. *)
Lemma completer_notifies_inv w x queue c ts ks :
  observer_inv w → completer w = CNotifying (x ++ queue) →
  (∀ t, t ∈ tokens w ∨ Waiter_Thread t ∈ x → t ∈ ts) →
  (∀ waker, waker ∈ woken w ∨ waker ∈ waker_ids x → waker ∈ ks) →
  (c = CNotifying queue ∨ c = CComplete ∧ queue = []) →
  observer_inv (with_completer (slot w) c ts ks w).
Proof.
  intros [Hnd [Hft Hff Hfr Hfp Hfe] Hphase Hout] Hcm Hts Hks Hcase. unfold phase_ok in Hphase.
  rewrite Hcm in Hphase. destruct Hphase as [Hc [W1 W2 W3 W4]].
  assert (woken_ok (with_completer (slot w) c ts ks w) queue) as Hok.
  { unfold waker_ids in *. split; simpl; [done| | |].
    - intros f waker Hf Hr. destruct (W2 _ _ Hf Hr) as [Hin|Hin]; [by auto|].
      rewrite omap_app, elem_of_app in Hin. destruct Hin; by auto.
    - intros waker Hp. destruct (W3 _ Hp) as [Hin|Hin]; [by auto|].
      rewrite omap_app, elem_of_app in Hin. destruct Hin; by auto.
    - intros t Ht. destruct (W4 _ Ht) as [Hin|Hin]; [by auto|].
      rewrite elem_of_app in Hin. destruct Hin; by auto. }
  split; simpl; [done|by split| |done].
  unfold phase_ok. simpl. destruct Hcase as [->|[-> ->]]; by split.
Qed.

(** A thread's step that leaves the tokens alone. *)
Lemma thread_step_keeps w t p p' pre post s :
  observer_inv w → threads w = pre ++ (t, p) :: post → thread_change t (slot w) s →
  (flagged_thread p' → waiting s = true) →
  (slice (waiters s) ≠ [] → waiting s = true) →
  (p' = TParked → completed s = false ∧ Waiter_Thread t ∈ slice (waiters s)) →
  observer_inv (with_threads s (pre ++ (t, p') :: post) w).
Proof.
  intros Hinv Hth Hch Hflag Hent Hpark.
  change (observer_inv (with_tokens (tokens w) (with_threads s (pre ++ (t, p') :: post) w))).
  by eapply thread_step_inv.
Qed.

Lemma thread_registers_inv w t pre post s ready :
  observer_inv w → threads w = pre ++ (t, TFlagged) :: post →
  wait_register t (slot w) = (s, ready) →
  observer_inv (with_threads s (pre ++ (t, if ready : bool then TIdle else TParked) :: post) w).
Proof.
  intros Hinv Hth Hreg. pose proof (oinv_flags _ Hinv) as [Hft _ _ _ _].
  assert (waiting (slot w) = true) as Hwait.
  { apply (Hft t TFlagged); [rewrite Hth; apply elem_of_app; right; by left|done]. }
  destruct (thread_change_register _ _ _ _ Hreg) as (Hch & Hready & Hw & Hin).
  eapply thread_step_keeps; [done|done|done|by intros _; rewrite Hw|by intros _; rewrite Hw|].
  destruct ready; [done|]. intros _. split; [by rewrite (tc_completed _ _ _ Hch)|by apply Hin].
Qed.

Lemma observer_step_inv w w' : observer_inv w → observer_step w w' → observer_inv w'.
Proof.
  intros Hinv Hstep. pose proof (oinv_flags _ Hinv) as [Hft Hff Hfr Hfp Hfe].
  destruct Hstep.
  - by eapply thread_step_keeps; [..|apply thread_change_refl| | |].
  - eapply thread_step_keeps; [done|done|by apply thread_change_refl|by destruct (completed _)|done|].
    by destruct (completed _).
  - eapply thread_step_keeps; [done|done|apply thread_change_refl|..]; try done.
    + apply flag_waiter_completed.
    + intros _. apply flag_waiter_waiting.
    + intros _. apply flag_waiter_waiting.
    + intros _. apply flag_waiter_waiting.
  - by eapply thread_registers_inv.
  - eapply thread_step_inv; [done|done|by apply thread_change_refl|done|done|done|]. set_solver.
  - eapply thread_step_keeps; [done|done|apply thread_change_remove|done| |done].
    intros Hne. apply Hfe. exact (slice_remove_nonempty _ _ Hne).
  - apply (future_step_inv w [] [] [_] (futures w)); [done|done|]. split; try done.
    + by intros f ->%list_elem_of_singleton.
    + intros Hnd _. split_and!; [done..|]. intros waker. simpl. lia.
    + intros Hs _. split; [done|]. by intros f waker ->%list_elem_of_singleton.
  - by eapply future_point_change.
  - by eapply future_point_change.
  - eapply future_point_change; try done. intros n. by destruct (completed _).
  - eapply future_point_change; try done; [apply flag_waiter_completed|intros _; apply flag_waiter_waiting|].
    intros _ _. apply flag_waiter_waiting.
  - eapply (future_step_inv w pre [f] [_] post); [done|done|].
    eapply future_change_register; [|done]. apply (Hff f).
    + rewrite H. apply elem_of_app. right. by left.
    + unfold flagged_future. rewrite H0. by destruct (registered f).
  - apply (future_step_inv w pre [f] [] post); [done|done|]. by apply future_change_drop.
  - eapply (register_point_inv w [RLoaded waker]); try done.
    + intros r [->|Hr]%elem_of_cons; [right; by left|by left].
    + by intros r ->%list_elem_of_singleton.
  - eapply (register_point_inv w [RFlagged waker]); try done.
    + intros r. rewrite H, !elem_of_app, !elem_of_cons. intros [?|[->|?]]; [tauto| |tauto].
      right. by left.
    + intros _ _ _. apply flag_waiter_waiting.
    + apply flag_waiter_completed.
    + intros _. apply flag_waiter_waiting.
  - by eapply register_installs_inv.
  - by eapply completer_publishes_inv.
  - by eapply completer_drains_inv.
  - eapply (completer_notifies_inv w [Waiter_Thread t] queue); [done|done|set_solver|set_solver|by left].
  - eapply (completer_notifies_inv w [Waiter_Waker waker ownership] queue);
      [done|done| |unfold waker_ids; csimpl; set_solver|by left].
    intros t [?|?%list_elem_of_singleton]; done.
  - eapply (completer_notifies_inv w [] []); [done|done|set_solver|set_solver|by right].
Qed.

Lemma observer_init_inv ids : NoDup ids → observer_inv (observer_init (O := O) ids).
Proof.
  intros Hnd. split; simpl.
  - by rewrite map_map, map_id.
  - split; simpl; try by intros ? ?%elem_of_nil.
    + intros t p Ht Hp. apply list_elem_of_fmap in Ht as (t' & [= -> ->] & _). done.
    + done.
    + done.
  - split; [done|]. split; simpl; [constructor|done|by intros ? ?%elem_of_nil|].
    intros t Ht. by apply list_elem_of_fmap in Ht as (t' & [=] & _).
  - done.
Qed.

Lemma observer_reachable_inv w : observer_reachable w → observer_inv w.
Proof.
  intros (ids & Hnd & Hs). pose proof (observer_init_inv ids Hnd) as Hi. revert Hi.
  induction Hs as [|w1 w2 w3 H1 _ IH]; [done|]. intros Hi. by eapply IH, observer_step_inv.
Qed.
End invariant.

(** ** Lemmas: notification and the outcome cell *)

(** What [complete] resumes with: the first registered waker that panics. *)
Definition first_panic_of (wake_panics : WakerId → bool) (l : list Waiter) : option WakerId :=
  head (List.filter wake_panics (waker_ids l)).

Lemma notify_spec wake_panics ws :
  notify wake_panics ws = (slice ws, first_panic_of wake_panics (slice ws)).
Proof.
  unfold notify. set (visit := λ '(notified, first_panic) waiter, _).
  assert (∀ l notified first_panic, fold_left visit l (notified, first_panic) =
    (notified ++ l, match first_panic with Some p => Some p | None => first_panic_of wake_panics l end))
    as Hfold.
  { unfold first_panic_of, waker_ids. induction l as [|x l IH]; intros n fp; simpl.
    - rewrite app_nil_r. by destruct fp.
    - rewrite IH. rewrite <-app_assoc. simpl. f_equal. destruct x as [t|waker o]; csimpl; [done|].
      destruct fp; [done|]. by destruct (wake_panics waker). }
  destruct ws as [|x|l]; simpl; [done| |apply Hfold].
  unfold first_panic_of, waker_ids. destruct x as [t|waker o]; csimpl; [done|]. by destruct (wake_panics waker).
Qed.

Section cell.
Context {O : Type}.
Implicit Types s : Slot O.

(** [OUTCOME_VALID] says whether the cell is initialised. *)
Definition cell_ok s : Prop := has_bit (state s) OUTCOME_VALID = bool_decide (is_Some (outcome s)).

Lemma clear_valid word : has_bit (clear_bit word OUTCOME_VALID) OUTCOME_VALID = false.
Proof. apply clear_this_bit. Qed.

Lemma flag_cell s : cell_ok s → cell_ok (flag_waiter s).
Proof.
  unfold cell_ok, flag_waiter, OUTCOME_VALID, HAS_WAITER. simpl. rewrite lor_bit, orb_false_r. done.
Qed.

Lemma update_cell previous next s :
  cell_ok s → cell_ok (update_future_waker previous next s).1 ∧
  outcome (update_future_waker previous next s).1 = outcome s.
Proof.
  intros Hs%flag_cell. unfold update_future_waker, update_register.
  destruct (completed s) eqn:Hc; [split; [|done]|].
  { revert Hs. unfold cell_ok, flag_waiter, OUTCOME_VALID, HAS_WAITER. simpl.
    by rewrite lor_bit, orb_false_r. }
  destruct (completed (flag_waiter s)), (bool_decide (previous = Some next)); try done.
  by destruct (install_future_waker _ _ _) as [ws r].
Qed.

Lemma register_cell waker s :
  cell_ok s → cell_ok (register_waker waker s).1 ∧ outcome (register_waker waker s).1 = outcome s.
Proof.
  intros Hs. pose proof (flag_cell _ Hs). unfold register_waker, register_install.
  destruct (completed s); [done|]. by destruct (completed (flag_waiter s)).
Qed.

Lemma deregister_cell waker s :
  cell_ok s → cell_ok (drop_registration waker s).1 ∧ outcome (drop_registration waker s).1 = outcome s.
Proof.
  intros Hs. unfold drop_registration, deregister_future_waker. destruct waker as [waker|]; [|done].
  by destruct (remove_future_waker_owner _ _).
Qed.

Lemma take_cell s :
  cell_ok s →
  cell_ok (try_take_outcome s).1 ∧
  match (try_take_outcome s).2 with
  | Returned (Some value) => outcome s = Some value ∧ outcome (try_take_outcome s).1 = None
  | Returned None => completed s = false ∧ (try_take_outcome s).1 = s
  | Panicked => completed s = true ∧ outcome s = None ∧ outcome (try_take_outcome s).1 = None
  | Undefined => False
  end.
Proof.
  intros Hs. unfold try_take_outcome. destruct (completed s) eqn:Hc; [|done]. simpl.
  unfold cell_ok in Hs. destruct (outcome s) as [value|] eqn:Ho.
  - rewrite Hs. simpl. split; [|done]. unfold cell_ok. simpl. by rewrite clear_valid.
  - rewrite Hs. simpl. split; [|done]. unfold cell_ok. simpl. by rewrite clear_valid, Ho.
Qed.

Lemma complete_cell wake_panics value s :
  cell_ok s → cell_ok (complete wake_panics value s).1 ∧
  if completed s then complete wake_panics value s = (s, Completion_Twice)
  else (complete wake_panics value s).2 ≠ Completion_Twice ∧
    outcome (complete wake_panics value s).1 = Some value.
Proof.
  intros Hs. unfold complete. destruct (completed s) eqn:Hc.
  - unfold publish. by rewrite Hc.
  - destruct (publish_spec value s Hc) as (s' & Hp & _ & Ho & _ & _). rewrite Hp.
    assert (cell_ok s') as Hs'.
    { unfold cell_ok. rewrite Ho. simpl. unfold publish in Hp. rewrite Hc in Hp. injection Hp as <-.
      simpl. unfold OUTCOME_VALID. by rewrite !lor_bit, !orb_true_r. }
    destruct (has_bit (state s) HAS_WAITER); [|done]. simpl.
    destruct (notify _ _) as [n [p|]]; by split.
Qed.

Lemma reset_cell drop_panics s :
  cell_ok s → cell_ok (reset drop_panics s).1 ∧ (reset drop_panics s).2 ≠ Undefined ∧
  outcome (reset drop_panics s).1 = None.
Proof.
  intros Hs. unfold reset. destruct (has_bit (state s) OUTCOME_VALID) eqn:Hv; unfold cell_ok in Hs; rewrite Hv in Hs.
  - simpl. destruct (outcome s) as [value|] eqn:Ho; [|done]. destruct (drop_panics value); simpl.
    + split_and!; [|done..]. unfold cell_ok. simpl. by rewrite clear_valid.
    + by destruct (has_bit (state s) HAS_WAITER).
  - destruct (outcome s) as [value|] eqn:Ho; [done|].
    destruct (has_bit (state s) HAS_WAITER); simpl; split_and!; try done; unfold cell_ok; simpl; by rewrite Ho.
Qed.
End cell.

Section conservation.
Context {O : Type} (drop_panics : O → bool).
Implicit Types l : Ledger O.

Record ledger_ok l : Prop := {
  led_cell : cell_ok (cell l);
  led_pending : completed (cell l) = false → outcome (cell l) = None;
  led_faults : faults l = 0;
  led_balance : published l ≡ₚ taken l ++ dropped l ++ option_list (outcome (cell l))
}.

Lemma update_completed previous next (s : Slot O) :
  completed (update_future_waker previous next s).1 = completed s.
Proof.
  unfold update_future_waker, update_register. destruct (completed s) eqn:Hc; [done|].
  rewrite flag_waiter_completed, Hc. destruct (bool_decide (previous = Some next)).
  - simpl. by rewrite flag_waiter_completed.
  - destruct (install_future_waker _ _ _) as [ws r]. simpl.
    change (completed (flag_waiter s) = false). by rewrite flag_waiter_completed.
Qed.

Lemma register_completed waker (s : Slot O) : completed (register_waker waker s).1 = completed s.
Proof.
  unfold register_waker, register_install. destruct (completed s) eqn:Hc; [done|].
  rewrite flag_waiter_completed, Hc. simpl.
  change (completed (flag_waiter s) = false). by rewrite flag_waiter_completed.
Qed.

Lemma deregister_completed waker (s : Slot O) : completed (drop_registration waker s).1 = completed s.
Proof.
  unfold drop_registration, deregister_future_waker. destruct waker as [waker|]; [|done].
  by destruct (remove_future_waker_owner _ _).
Qed.

(** The outcome a disposal claims is the one in the cell. *)
Lemma claimed_outcome (s : Slot O) :
  cell_ok s →
  (if has_bit (state s) OUTCOME_VALID then option_list (outcome s) else []) = option_list (outcome s).
Proof. unfold cell_ok. intros ->. by destruct (outcome s). Qed.

Lemma ledger_keep l s :
  ledger_ok l → cell_ok s → outcome s = outcome (cell l) → completed s = completed (cell l) →
  ledger_ok {| cell := s; published := published l; taken := taken l; dropped := dropped l;
               faults := faults l |}.
Proof. intros [Hc Hp Hf Hb] Hs Ho Hd. split; simpl; [done|by rewrite Hd, Ho|done|by rewrite Ho]. Qed.

Lemma take_use_ok l : ledger_ok l → ledger_ok (slot_use drop_panics Use_Take l).
Proof.
  intros Hl. pose proof Hl as [Hc Hp Hf Hb]. simpl. destruct (take_cell _ Hc) as [Hc' Hspec].
  destruct (try_take_outcome (cell l)) as [s [[value|]| |]]; simpl in *.
  - destruct Hspec as [Ho Hn]. split; simpl; [done|done|done|].
    rewrite Hb, Ho, Hn. simpl. rewrite app_nil_r. solve_Permutation.
  - destruct Hspec as [_ ->]. by destruct l.
  - destruct Hspec as (Hd & Ho & Hn). split; simpl; [done|done|done|]. by rewrite Hb, Ho, Hn.
  - done.
Qed.

Lemma complete_use_ok value l : ledger_ok l → ledger_ok (slot_use drop_panics (Use_Complete value) l).
Proof.
  intros Hl. pose proof Hl as [Hc Hp Hf Hb]. simpl.
  destruct (complete_cell (λ _, false) value _ Hc) as [Hc' Hspec].
  destruct (completed (cell l)) eqn:Hd.
  - rewrite Hspec in *. by destruct l.
  - destruct Hspec as [Hne Ho].
    assert (completed (complete (λ _, false) value (cell l)).1 = true) as Hdone.
    { unfold complete. destruct (publish_spec value _ Hd) as (s' & -> & Hs' & _).
      destruct (has_bit _ _); [|done]. simpl. by destruct (notify (λ _, false) (waiters s')) as [? []]. }
    destruct (complete _ value (cell l)) as [s r]. simpl in *.
    assert (ledger_ok {| cell := s; published := value :: published l; taken := taken l;
      dropped := dropped l; faults := faults l |}) by
      (split; simpl; [done|congruence|done|]; rewrite Hb, Ho, (Hp eq_refl); simpl;
       rewrite app_nil_r; solve_Permutation).
    by destruct r.
Qed.

Lemma reset_use_ok l : ledger_ok l → ledger_ok (slot_use drop_panics Use_Reset l).
Proof.
  intros Hl. pose proof Hl as [Hc Hp Hf Hb]. simpl.
  destruct (reset_cell drop_panics _ Hc) as (Hc' & Hu & Ho). rewrite (claimed_outcome _ Hc).
  destruct (reset drop_panics (cell l)) as [s r]. simpl in *.
  assert (ledger_ok {| cell := s; published := published l; taken := taken l;
    dropped := option_list (outcome (cell l)) ++ dropped l; faults := faults l |}).
  { split; simpl; [done|done|done|]. rewrite Hb, Ho. simpl. rewrite app_nil_r. solve_Permutation. }
  by destruct r.
Qed.

Lemma slot_use_ok use l : ledger_ok l → ledger_ok (slot_use drop_panics use l).
Proof.
  intros Hl. pose proof (led_cell _ Hl). destruct use as [value| | |previous next|waker|registered].
  - by apply complete_use_ok.
  - by apply take_use_ok.
  - by apply reset_use_ok.
  - apply ledger_keep; [done|by apply update_cell..|apply update_completed].
  - apply ledger_keep; [done|by apply register_cell..|apply register_completed].
  - apply ledger_keep; [done|by apply deregister_cell..|apply deregister_completed].
Qed.

Lemma slot_uses_ok uses l :
  ledger_ok l → ledger_ok (foldl (λ l use, slot_use drop_panics use l) l uses).
Proof. revert l. induction uses as [|use uses IH]; intros l Hl; simpl; [done|]. by apply IH, slot_use_ok. Qed.
End conservation.

(** ** Properties *)

Section properties.
Context {O : Type}.
Implicit Types (w : ObserverWorld O) (s : Slot O).

(** C36: However threads, futures, [register_waker] calls and the completer
    interleave, once [complete] has returned nobody waits in vain: every waker a
    future registered or [register_waker] accepted was woken, and every parked
    thread has its unpark token. *)
Theorem no_lost_wakeup w :
  observer_reachable w → completer w = CComplete →
  (∀ f waker, f ∈ futures w → registered f = Some waker → waker ∈ woken w) ∧
  (∀ waker, waker ∈ persistents w → waker ∈ woken w) ∧
  (∀ t, (t, TParked) ∈ threads w → t ∈ tokens w) ∧
  completed (slot w) = true ∧ is_Some (outcome (slot w)).
Proof.
  intros Hr Hc. destruct (observer_reachable_inv _ Hr) as [_ _ Hphase Hout]. unfold phase_ok in Hphase.
  rewrite Hc in Hphase. destruct Hphase as [Hd [_ W2 W3 W4]]. split_and!; [| | |done|by apply Hout].
  - intros f waker Hf Hg. by destruct (W2 f waker Hf Hg) as [|?%elem_of_nil].
  - intros waker Hp. by destruct (W3 waker Hp) as [|?%elem_of_nil].
  - intros t Ht. by destruct (W4 t Ht) as [|?%elem_of_nil].
Qed.

(** The registry counts its futures exactly: until the slot completes, the
    owners of a waker are the live futures registered for it, one entry per
    task, and dropping any future's registration never panics, completed or
    not. *)
Lemma registrations_counted w :
  observer_reachable w →
  (completed (slot w) = false →
    NoDup (waker_ids (slice (waiters (slot w)))) ∧
    ∀ waker, owners_of waker (slice (waiters (slot w))) = futures_on waker (futures w)) ∧
  ∀ f, f ∈ futures w → (drop_registration (registered f) (slot w)).2 = Some ().
Proof.
  intros Hr. destruct (observer_reachable_inv _ Hr) as [_ _ Hphase _]. unfold phase_ok in Hphase.
  assert (registry_ok w ∨ slice (waiters (slot w)) = [] ∧ completed (slot w) = true) as Hcase.
  { destruct (completer w); destruct Hphase as [? Hp]; [by left|by left|..];
      right; by destruct Hp. }
  split.
  - intros Hc. destruct Hcase as [[R1 R2 _ _]|[_ ?]]; [by split|congruence].
  - intros f Hf. unfold drop_registration, deregister_future_waker.
    destruct (registered f) as [waker|] eqn:Hreg; [|done].
    destruct Hcase as [[R1 R2 _ _]|[Hnil _]].
    + destruct (remove_future_spec (waiters (slot w)) waker R1) as (ws & -> & _); [|done].
      rewrite R2. by eapply futures_on_elem.
    + destruct (remove_future_absent (waiters (slot w)) waker) as (ws & -> & _); [|done].
      rewrite Hnil. by apply not_elem_of_nil.
Qed.

(** [complete] publishes the outcome and notifies every registered waiter in
    registration order, even when wakers panic; it then resumes the first
    panic. *)
Lemma complete_notifies_all wake_panics value s :
  completed s = false →
  completed (complete wake_panics value s).1 = true ∧
  outcome (complete wake_panics value s).1 = Some value ∧
  if has_bit (state s) HAS_WAITER then
    slice (waiters (complete wake_panics value s).1) = [] ∧
    (complete wake_panics value s).2 =
      match first_panic_of wake_panics (slice (waiters s)) with
      | Some panic => Completion_Resumed (slice (waiters s)) panic
      | None => Completion_Done (slice (waiters s))
      end
  else (complete wake_panics value s).2 = Completion_Done [].
Proof.
  intros Hc. unfold complete. destruct (publish_spec value s Hc) as (s' & -> & Hd & Ho & Hw & _).
  destruct (has_bit (state s) HAS_WAITER); [|done]. simpl. rewrite Hw, notify_spec.
  by destruct (first_panic_of _ _).
Qed.

(** Over any life of a slot, completions, takes, resets, registrations and
    the final drop in any order, destructors panicking or not: the outcome cell
    is never read or dropped uninitialised, and every published outcome is
    taken or dropped exactly once. *)
Lemma outcomes_conserved drop_panics (uses : list (SlotUse O)) :
  faults (slot_life drop_panics uses) = 0 ∧
  published (slot_life drop_panics uses) ≡ₚ
    taken (slot_life drop_panics uses) ++ dropped (slot_life drop_panics uses).
Proof.
  unfold slot_life. cbv zeta. set (l := foldl _ _ _).
  assert (ledger_ok l) as [Hc Hp Hf Hb].
  { subst l. by apply slot_uses_ok. }
  rewrite (claimed_outcome _ Hc). unfold drop_slot, drop_outcome. unfold cell_ok in Hc. rewrite Hc.
  destruct (outcome (cell l)) as [value|]; simpl in *; (split; [done|]).
  - rewrite Hb. solve_Permutation.
  - by rewrite Hb, app_nil_r.
Qed.
End properties.

(** ** Witnesses *)

(** Thread 1 parks and a future registers waker 7 before the publication;
    [register_waker] with waker 9 races with it and still gets in before the
    drain is over. *)
Definition race_start : ObserverWorld N := observer_init [1%positive].

Definition race_end : ObserverWorld N :=
  {| slot := {| state := 7; outcome := Some 5%N; waiters := Waiters_Empty |};
     threads := [(1%positive, TParked)];
     futures := [{| registered := Some 7%positive; point := FIdle |}];
     registers := []; persistents := [9%positive]; completer := CComplete;
     tokens := {[1%positive]} ∪ ∅; woken := {[9%positive]} ∪ ({[7%positive]} ∪ ∅) |}.

(** One step of the run, the world it reaches kept computed. *)
Tactic Notation "observer_next" uconstr(rule) :=
  eapply rtc_l; [eapply rule; reflexivity|];
  lazymatch goal with
  | |- rtc _ ?a ?b =>
      let a := eval cbv -[union empty singleton difference] in a in change (rtc observer_step a b)
  end.

Lemma race_runs : rtc observer_step race_start race_end.
Proof.
  unfold race_start, observer_init. simpl.
  observer_next (thread_calls (O := N) _ [] 1%positive []).
  observer_next (thread_loads (O := N) _ [] 1%positive []).
  observer_next (thread_flags (O := N) _ [] 1%positive []).
  observer_next (future_created (O := N)).
  eapply rtc_l; [by eapply (future_polled _ [] _ [] 7%positive)|]. simpl.
  observer_next (future_loads (O := N) _ []).
  observer_next (future_flags (O := N) _ []).
  observer_next (register_called (O := N) _ 9%positive).
  observer_next (register_flags (O := N) _ []).
  observer_next (thread_registers (O := N) _ [] 1%positive []).
  observer_next (future_registers (O := N) _ []).
  observer_next (register_installs (O := N) _ []).
  observer_next (completer_publishes (O := N) _ 5%N).
  observer_next (completer_drains (O := N)).
  observer_next (completer_unparks (O := N)).
  observer_next (completer_wakes (O := N)).
  observer_next (completer_wakes (O := N)).
  observer_next (completer_done (O := N)).
  apply rtc_refl.
Qed.

Lemma race_reachable : observer_reachable race_end.
Proof. exists [1%positive]. split; [apply NoDup_singleton|apply race_runs]. Qed.

Lemma no_lost_wakeup_witness :
  7%positive ∈ woken race_end ∧ 9%positive ∈ woken race_end ∧ 1%positive ∈ tokens race_end.
Proof.
  destruct (no_lost_wakeup race_end race_reachable eq_refl) as (Hf & Hp & Ht & _).
  split; [|split].
  - apply (Hf {| registered := Some 7%positive; point := FIdle |}); [by left|done].
  - apply Hp. by left.
  - apply Ht. by left.
Defined.

