(* ===== verification/Observe.v ===== *)
(** * The observation space

    [crates/bombay/src/observe/mod.rs]: the retained-key hasher, [SmallMap],
    and [ObservationSpace], whose subjects share recycled slots
    (ObserveSlot.v).

    A slot is named by the allocation it lives in.  [triomphe::Arc] is not part
    of the repository: an operation that reads a strong count takes it as an
    argument, and [space_step] supplies what that function documents, the number
    of handles that exist. *)

From S2P Require Import Prelude ObserveSlot.

(** ** The retained-key hasher *)

Record RetainedKeyHasher := { hash : N }.

Definition RETAINED_KEY_HASH_MULTIPLIER : N := 0x517cc1b727220a95.

Definition u64_wrap (n : N) : N := N.land n u64_max.

Definition rotate_left (n k : N) : N := N.lor (u64_wrap (N.shiftl n k)) (N.shiftr n (64 - k)).

Definition add (h : RetainedKeyHasher) (word : N) : RetainedKeyHasher :=
  {| hash := u64_wrap (N.lxor (rotate_left (hash h) 5) word * RETAINED_KEY_HASH_MULTIPLIER) |}.

(** Bytes are [N] below 256. *)
Definition from_le_bytes (bytes : list N) : N := foldr (λ b n, (b + 256 * n)%N) 0%N bytes.

Fixpoint write (h : RetainedKeyHasher) (bytes : list N) : RetainedKeyHasher :=
  match bytes with
  | b0 :: b1 :: b2 :: b3 :: b4 :: b5 :: b6 :: b7 :: rest =>
      write (add h (from_le_bytes [b0; b1; b2; b3; b4; b5; b6; b7])) rest
  | [] => h
  | tail => add h (from_le_bytes (tail ++ replicate (8 - length tail) 0%N))
  end.

Definition write_u64 (h : RetainedKeyHasher) (value : N) : RetainedKeyHasher := add h value.

(** [value as u64]: [usize] has 64 bits. *)
Definition write_usize (h : RetainedKeyHasher) (value : N) : RetainedKeyHasher := add h (u64_wrap value).

Definition finish (h : RetainedKeyHasher) : N := hash h.

(** ** The key table *)

Abbreviation SlotId := positive (only parsing).

Record SlotEntry := { generation : N; slot_of : SlotId }.

#[export] Instance SlotEntry_eq_dec : EqDecision SlotEntry.
Proof. solve_decision. Defined.

Definition SLOT_POOL_CAP : nat := 128.
Definition INLINE_CAP : nat := 4.

(** [Vec::swap_remove]. *)
Definition swap_remove {A} (index : nat) (l : list A) : list A :=
  take (length l - 1) (match last l with Some x => <[index := x]> l | None => l end).

Section space.
Context {K O : Type} `{!EqDecision K, !Countable K}.

Variant SmallMap :=
  | Inline (entries : list (K * SlotEntry))
  | Hash (map : gmap K SlotEntry).

Definition SmallMap_default : SmallMap := Inline [].

Definition position (key : K) (entries : list (K * SlotEntry)) : option (nat * (K * SlotEntry)) :=
  list_find (λ p, p.1 = key) entries.

Definition get (m : SmallMap) (key : K) : option SlotEntry :=
  match m with
  | Inline entries => '(_, (_, e)) ← position key entries; Some e
  | Hash map => map !! key
  end.

Definition is_vacant (m : SmallMap) (key : K) : bool :=
  match m with
  | Inline entries => negb (existsb (λ p, bool_decide (p.1 = key)) entries)
  | Hash map => negb (bool_decide (is_Some (map !! key)))
  end.

Definition insert_vacant (m : SmallMap) (key : K) (entry : SlotEntry) : SmallMap :=
  match m with
  | Inline entries =>
      if INLINE_CAP <=? length entries then
        Hash (<[key := entry]> (foldl (λ map '(k, e), <[k := e]> map) ∅ entries))
      else Inline (entries ++ [(key, entry)])
  | Hash map => Hash (<[key := entry]> map)
  end.

Definition remove_if (m : SmallMap) (key : K) (gen : N) : SmallMap * bool :=
  match m with
  | Inline entries =>
      match position key entries with
      | Some (index, (_, e)) =>
          if (generation e =? gen)%N then (Inline (swap_remove index entries), true) else (m, false)
      | None => (m, false)
      end
  | Hash map =>
      match map !! key with
      | Some e => if (generation e =? gen)%N then (Hash (delete key map), true) else (m, false)
      | None => (m, false)
      end
  end.

(** ** The space *)

(** [Inner] and the slots its handles point to. *)
Record Inner := {
  next_generation : N;
  map : SmallMap;
  pool : list SlotId;
  cells : gmap SlotId (Slot O)
}.

Definition Inner_new : Inner :=
  {| next_generation := 1; map := SmallMap_default; pool := []; cells := ∅ |}.

Definition set_next_generation (n : N) (i : Inner) : Inner :=
  {| next_generation := n; map := map i; pool := pool i; cells := cells i |}.
Definition set_map (m : SmallMap) (i : Inner) : Inner :=
  {| next_generation := next_generation i; map := m; pool := pool i; cells := cells i |}.
Definition set_pool (l : list SlotId) (i : Inner) : Inner :=
  {| next_generation := next_generation i; map := map i; pool := l; cells := cells i |}.
Definition set_cell (id : SlotId) (s : Slot O) (i : Inner) : Inner :=
  {| next_generation := next_generation i; map := map i; pool := pool i; cells := <[id := s]> (cells i) |}.

Record Subject := { key : K; subject_generation : N; subject_slot : SlotId }.

Variant SubjectExists := mk_SubjectExists (key : K).
Variant UnknownSubject := mk_UnknownSubject (key : K).

(** [Vec::pop] and [Vec::push] on the pool. *)
Definition pool_pop : Op Inner (option SlotId) := λ i,
  (set_pool (take (length (pool i) - 1) (pool i)) i, Some (last (pool i))).
Definition pool_push (id : SlotId) : Op Inner () := modify (λ i, set_pool (pool i ++ [id]) i).

(** [AtomicUsize::fetch_add] wraps. *)
Definition fetch_generation : Op Inner N := λ i,
  (set_next_generation (u64_wrap (next_generation i + 1)) i, Some (next_generation i)).

(** [slot.reset()] through the handle; a panicking destructor unwinds. *)
Definition reset_slot (drop_panics : O → bool) (id : SlotId) : Op Inner () := λ i,
  match cells i !! id with
  | Some s =>
      let '(s, done) := reset drop_panics s in
      (set_cell id s i, match done with Returned _ => Some () | _ => panic! end)
  | None => (i, panic!)
  end.

(** [subject]; [allocated] names the allocation of [Arc::new]. *)
Definition subject (drop_panics : O → bool) (allocated : SlotId) (k : K) :
    Op Inner (Result Subject SubjectExists) :=
  pooled ← pool_pop;
  vacant ← gets (λ i, is_vacant (map i) k);
  if negb vacant then
    match pooled with Some id => pool_push id | None => mret () end;;
    mret (Err (mk_SubjectExists k))
  else
    gen ← fetch_generation;
    if (gen =? usize_max)%N then panic
    else
      id ← match pooled with
           | Some id => reset_slot drop_panics id;; mret id
           | None => modify (set_cell allocated Slot_new);; mret allocated
           end;
      modify (λ i, set_map (insert_vacant (map i) k {| generation := gen; slot_of := id |}) i);;
      mret (Ok {| key := k; subject_generation := gen; subject_slot := id |}).

(** [observe]: the captured slot. *)
Definition observe (k : K) : Op Inner (Result SlotId UnknownSubject) :=
  entry ← gets (λ i, get (map i) k);
  mret match entry with
       | Some e => Ok (slot_of e)
       | None => Err (mk_UnknownSubject k)
       end.

(** [Drop for Subject], the fields aside. *)
Definition drop_subject (strong_count : Inner → SlotId → N) (subj : Subject) : Op Inner () :=
  removed ← (λ i, let '(m, removed) := remove_if (map i) (key subj) (subject_generation subj) in
                  (set_map m i, Some removed));
  if (removed : bool) then
    count ← gets (λ i, strong_count i (subject_slot subj));
    size ← gets (λ i, length (pool i));
    if ((count =? 1)%N && (size <? SLOT_POOL_CAP)) then pool_push (subject_slot subj) else mret ()
  else mret ().

(** [Subject::complete]. *)
Definition complete_subject (wake_panics : WakerId → bool) (subj : Subject) (value : O) :
    Op Inner Completion := λ i,
  match cells i !! subject_slot subj with
  | Some s => let '(s, c) := complete wake_panics value s in (set_cell (subject_slot subj) s i, Some c)
  | None => (i, panic!)
  end.
End space.
Arguments SmallMap : clear implicits.
Arguments SmallMap _ {_ _}.
Arguments Inner : clear implicits.
Arguments Inner _ _ {_ _}.
Arguments Subject : clear implicits.
Arguments SubjectExists : clear implicits.
Arguments UnknownSubject : clear implicits.

(** ** Subjects and observations of one space *)

(** What an observer does to its slot between capture and drop, each run
    without interruption (ObserveSlot.v interleaves their parts). *)
Variant ObserverUse :=
  | Observer_Update (previous : option WakerId) (next : WakerId)
  | Observer_Register (waker : WakerId)
  | Observer_Deregister (registered : option WakerId)
  | Observer_Wait (thread : ThreadId)
  | Observer_TimeOut (thread : ThreadId).

Definition observer_use {O} (use : ObserverUse) (s : Slot O) : Slot O :=
  match use with
  | Observer_Update previous next => (update_future_waker previous next s).1
  | Observer_Register waker => (register_waker waker s).1
  | Observer_Deregister registered => (drop_registration registered s).1
  | Observer_Wait thread => if completed s then s else (wait_register thread (flag_waiter s)).1
  | Observer_TimeOut thread => wait_deregister thread s
  end.

Section world.
Context {K O : Type} `{!EqDecision K, !Countable K}.
Context (drop_panics : O → bool) (wake_panics : WakerId → bool).

(** Live subjects and captured observations, each with the number of the
    [subject] call they go back to; dropped subjects whose slot handle is not
    yet dropped; and the outcome each subject published. *)
Record SpaceWorld := {
  inner : Inner K O;
  subjects : list (nat * Subject K);
  retiring : list SlotId;
  observations : list (nat * SlotId);
  created : nat;
  outcomes : gmap nat O
}.

Definition space_init : SpaceWorld :=
  {| inner := Inner_new; subjects := []; retiring := []; observations := []; created := 0;
     outcomes := ∅ |}.

Definition with_inner (i : Inner K O) (w : SpaceWorld) : SpaceWorld :=
  {| inner := i; subjects := subjects w; retiring := retiring w; observations := observations w;
     created := created w; outcomes := outcomes w |}.
Definition with_observations (l : list (nat * SlotId)) (w : SpaceWorld) : SpaceWorld :=
  {| inner := inner w; subjects := subjects w; retiring := retiring w; observations := l;
     created := created w; outcomes := outcomes w |}.
Definition with_subject (subj : Subject K) (w : SpaceWorld) : SpaceWorld :=
  {| inner := inner w; subjects := (created w, subj) :: subjects w; retiring := retiring w;
     observations := observations w; created := S (created w); outcomes := outcomes w |}.
Definition with_outcome (number : nat) (value : O) (w : SpaceWorld) : SpaceWorld :=
  {| inner := inner w; subjects := subjects w; retiring := retiring w;
     observations := observations w; created := created w;
     outcomes := <[number := value]> (outcomes w) |}.
Definition with_retired (l : list (nat * Subject K)) (ids : list SlotId) (w : SpaceWorld) : SpaceWorld :=
  {| inner := inner w; subjects := l; retiring := ids; observations := observations w;
     created := created w; outcomes := outcomes w |}.

Definition entry_slots (m : SmallMap K) : list SlotId :=
  match m with
  | Inline entries => (λ p, slot_of p.2) <$> entries
  | Hash map => (λ p, slot_of p.2) <$> map_to_list map
  end.

(** Every handle to a slot there is. *)
Definition handles (w : SpaceWorld) (i : Inner K O) : list SlotId :=
  entry_slots (map i) ++ pool i ++ ((λ p, subject_slot p.2) <$> subjects w) ++ retiring w ++
  (observations w).*2.

Definition handle_count (w : SpaceWorld) (i : Inner K O) (id : SlotId) : N :=
  len (filter (λ x, x = id) (handles w i)).

Inductive space_step : SpaceWorld → SpaceWorld → Prop :=
  | space_subject w allocated k i r :
      cells (inner w) !! allocated = None → subject drop_panics allocated k (inner w) = (i, r) →
      space_step w match r with
                   | Some (Ok subj) => with_subject subj (with_inner i w)
                   | _ => with_inner i w
                   end
  | space_observe w k i n subj id :
      (n, subj) ∈ subjects w → key subj = k → observe k (inner w) = (i, Some (Ok id)) →
      space_step w (with_observations ((n, id) :: observations w) (with_inner i w))
  | space_complete w n subj value i c :
      (n, subj) ∈ subjects w → complete_subject wake_panics subj value (inner w) = (i, Some c) →
      space_step w match c with
                   | Completion_Twice => with_inner i w
                   | _ => with_outcome n value (with_inner i w)
                   end
  | space_uses w n id s use :
      (n, id) ∈ observations w → cells (inner w) !! id = Some s →
      space_step w (with_inner (set_cell id (observer_use use s) (inner w)) w)
  | space_clones w n id :
      (n, id) ∈ observations w → space_step w (with_observations ((n, id) :: observations w) w)
  | space_forgets w pre x post :
      observations w = pre ++ x :: post → space_step w (with_observations (pre ++ post) w)
  | space_takes w pre n id post s s' taken :
      observations w = pre ++ (n, id) :: post → cells (inner w) !! id = Some s →
      into_outcome (handle_count w (inner w) id) s = (s', taken) →
      space_step w (with_observations (pre ++ post) (with_inner (set_cell id s' (inner w)) w))
  | space_drops w pre n subj post i r :
      subjects w = pre ++ (n, subj) :: post →
      drop_subject (handle_count w) subj (inner w) = (i, r) →
      space_step w (with_retired (pre ++ post) (subject_slot subj :: retiring w) (with_inner i w))
  | space_releases w pre id post :
      retiring w = pre ++ id :: post →
      space_step w (with_retired (subjects w) (pre ++ post) w).

Definition space_reachable (w : SpaceWorld) : Prop := rtc space_step space_init w.
End world.
Arguments SpaceWorld _ _ {_ _}.

(** ** Lemmas: the hasher *)

Lemma u64_wrap_mod n : u64_wrap n = (n mod 2 ^ 64)%N.
Proof. unfold u64_wrap. change u64_max with (N.ones 64). apply N.land_ones. Qed.

(** The multiplier is odd, so multiplying by it is undone modulo [2 ^ 64]. *)
Definition multiplier_inverse : N := 0x2040003d780970bd.

Lemma multiplier_inverts : ((RETAINED_KEY_HASH_MULTIPLIER * multiplier_inverse) mod 2 ^ 64 = 1)%N.
Proof. vm_compute. reflexivity. Qed.

Lemma multiply_injective x y :
  u64_wrap (x * RETAINED_KEY_HASH_MULTIPLIER) = u64_wrap (y * RETAINED_KEY_HASH_MULTIPLIER) →
  u64_wrap x = u64_wrap y.
Proof.
  rewrite !u64_wrap_mod. intros H.
  assert (∀ z, z mod 2 ^ 64 =
    ((z * RETAINED_KEY_HASH_MULTIPLIER) mod 2 ^ 64 * multiplier_inverse) mod 2 ^ 64)%N as Hinv.
  { intros z. rewrite N.Div0.mul_mod_idemp_l, <-N.mul_assoc, <-N.Div0.mul_mod_idemp_r, multiplier_inverts.
    by rewrite N.mul_1_r. }
  rewrite (Hinv x), (Hinv y). by rewrite H.
Qed.

Lemma u64_wrap_lxor x y : u64_wrap (N.lxor x y) = N.lxor (u64_wrap x) (u64_wrap y).
Proof.
  unfold u64_wrap. apply N.bits_inj. intros i. rewrite N.land_spec, !N.lxor_spec, !N.land_spec.
  by destruct (N.testbit x i), (N.testbit y i), (N.testbit u64_max i).
Qed.

Lemma lxor_injective x y z : N.lxor x y = N.lxor x z → y = z.
Proof.
  intros H. apply (f_equal (N.lxor x)) in H. by rewrite <-!N.lxor_assoc, !N.lxor_nilpotent, !N.lxor_0_l in H.
Qed.

Lemma u64_wrap_small n : (n ≤ u64_max)%N → u64_wrap n = n.
Proof. intros Hn. rewrite u64_wrap_mod. apply N.mod_small. unfold u64_max in Hn. lia. Qed.

Lemma add_injective h a b :
  (a ≤ u64_max)%N → (b ≤ u64_max)%N → finish (add h a) = finish (add h b) → a = b.
Proof.
  unfold finish, add. simpl. intros Ha Hb H%multiply_injective.
  rewrite !u64_wrap_lxor in H. apply lxor_injective in H. by rewrite !u64_wrap_small in H.
Qed.

Lemma write_short h l :
  l ≠ [] → length l ≤ 8 → write h l = add h (from_le_bytes (l ++ replicate (8 - length l) 0%N)).
Proof. intros Hne Hl. do 9 (destruct l as [|? l]; [done|]); simpl in *; lia || done. Qed.

Lemma padded_bytes l n :
  Forall (λ x, (x < 256)%N) l → Forall (λ x, (x < 256)%N) (l ++ replicate n 0%N).
Proof. intros Hl. apply Forall_app. split; [done|]. apply Forall_replicate. lia. Qed.

Lemma from_le_bytes_bound l :
  Forall (λ x, (x < 256)%N) l → (from_le_bytes l < 256 ^ len l)%N.
Proof.
  induction 1 as [|x l Hx _ IH]; [done|]. rewrite len_cons, N.add_1_r, N.pow_succ_r'. simpl. lia.
Qed.

Lemma from_le_bytes_injective a b :
  Forall (λ x, (x < 256)%N) a → Forall (λ x, (x < 256)%N) b → length a = length b →
  from_le_bytes a = from_le_bytes b → a = b.
Proof.
  intros Ha. revert b. induction Ha as [|x a Hx _ IH]; intros b Hb Hlen Heq; [by destruct b|].
  destruct Hb as [|y b Hy Hb]; [done|]. simpl in *.
  assert (x = y ∧ from_le_bytes a = from_le_bytes b) as [-> Htl] by lia.
  f_equal. apply IH; [done|lia|done].
Qed.

Lemma padded_word l :
  Forall (λ x, (x < 256)%N) l → length l ≤ 8 →
  (from_le_bytes (l ++ replicate (8 - length l) 0%N) ≤ u64_max)%N.
Proof.
  intros Hl H8. pose proof (from_le_bytes_bound _ (padded_bytes l (8 - length l) Hl)) as Hb.
  assert (len (l ++ replicate (8 - length l) 0%N) = 8%N) as Hlen.
  { unfold len. rewrite length_app, length_replicate. lia. }
  rewrite Hlen in Hb. unfold u64_max. change (256 ^ 8)%N with 18446744073709551616%N in Hb. lia.
Qed.

(** ** Lemmas: the key table *)

Section smallmap.
Context {K : Type} `{!EqDecision K, !Countable K}.
Implicit Types (m : SmallMap K) (entries : list (K * SlotEntry)).

(** The partial map a table stores. *)
Definition to_map m : gmap K SlotEntry :=
  match m with Inline entries => list_to_map entries | Hash map => map end.

Definition map_wf m : Prop :=
  match m with
  | Inline entries => NoDup entries.*1 ∧ length entries ≤ INLINE_CAP
  | Hash _ => True
  end.

Lemma position_Some k entries i e :
  position k entries = Some (i, e) → e.1 = k ∧ entries !! i = Some e.
Proof. intros (Hl & Hk & _)%list_find_Some. done. Qed.

Lemma position_None k entries : position k entries = None → k ∉ entries.*1.
Proof.
  intros Hf%list_find_None Hin. apply list_elem_of_fmap in Hin as (p & -> & Hp).
  rewrite Forall_forall in Hf. by apply (Hf p).
Qed.

Lemma get_spec m k : map_wf m → get m k = to_map m !! k.
Proof.
  destruct m as [entries|map]; [|done]. intros [Hnd _]. simpl.
  destruct (position k entries) as [[i [k' e]]|] eqn:Hp; simpl.
  - apply position_Some in Hp as [Hk Hl]. simpl in Hk. subst k'. symmetry.
    apply elem_of_list_to_map; [done|]. by eapply list_elem_of_lookup_2.
  - symmetry. apply not_elem_of_list_to_map_1. by apply position_None.
Qed.

Lemma is_vacant_spec m k : map_wf m → is_vacant m k = bool_decide (to_map m !! k = None).
Proof.
  intros Hwf. destruct m as [entries|map]; simpl.
  - rewrite <-(negb_involutive (bool_decide _)). f_equal. apply eq_true_iff_eq.
    rewrite existsb_exists, negb_true_iff, bool_decide_eq_false, <-not_elem_of_list_to_map.
    split.
    + intros ([k' e] & Hin & Hk) Hn. apply bool_decide_eq_true in Hk. simpl in Hk. subst k'. apply Hn.
      apply list_elem_of_fmap. exists (k, e). by rewrite list_elem_of_In.
    + intros Hn. apply dec_stable in Hn. apply list_elem_of_fmap in Hn as (p & -> & Hp).
      exists p. rewrite <-list_elem_of_In. split; [done|]. by apply bool_decide_eq_true.
  - destruct (map !! k) eqn:Hk; [|done]. by rewrite bool_decide_true.
Qed.

Lemma foldl_insert entries (map : gmap K SlotEntry) :
  NoDup entries.*1 → (∀ k, k ∈ entries.*1 → map !! k = None) →
  foldl (λ map '(k, e), <[k := e]> map) map entries = list_to_map entries ∪ map.
Proof.
  revert map. induction entries as [|[k e] l IH]; intros map Hnd Hd; csimpl; [by rewrite map_empty_union|].
  csimpl in Hnd. apply NoDup_cons in Hnd as [Hk Hnd]. rewrite IH; [|done|].
  - rewrite <-insert_union_l, insert_union_r; [done|by apply not_elem_of_list_to_map_1].
  - intros k' Hk'. rewrite lookup_insert_ne by congruence. apply Hd. csimpl. by right.
Qed.

Lemma insert_vacant_spec m k e :
  map_wf m → to_map m !! k = None →
  map_wf (insert_vacant m k e) ∧ to_map (insert_vacant m k e) = <[k := e]> (to_map m).
Proof.
  destruct m as [entries|map]; [|done]. intros [Hnd Hlen] Hk. unfold insert_vacant.
  apply not_elem_of_list_to_map_2 in Hk. destruct (INLINE_CAP <=? length entries) eqn:Hc.
  - simpl. split; [done|]. f_equal. rewrite foldl_insert; [by rewrite map_union_empty|done|by intros].
  - apply Nat.leb_gt in Hc. simpl. assert (NoDup ((entries ++ [(k, e)]).*1)) as Hnd'.
    { rewrite fmap_app. apply NoDup_app. split_and!; [done| |apply NoDup_singleton].
      intros x Hx ->%list_elem_of_singleton. done. }
    split; [split; [done|rewrite length_app; simpl; lia]|].
    rewrite (list_to_map_proper (entries ++ [(k, e)]) ((k, e) :: entries)); [done|done|].
    by rewrite Permutation_app_comm.
Qed.

Lemma swap_remove_permutation {A} i (l : list A) x :
  l !! i = Some x → l ≡ₚ x :: swap_remove i l.
Proof.
  intros Hi. unfold swap_remove. destruct (last l) as [y|] eqn:Hl.
  2: { apply last_None in Hl as ->. done. }
  apply last_Some in Hl as [l' ->]. rewrite length_app. simpl. rewrite Nat.add_sub.
  destruct (decide (i < length l')) as [Hlt|Hge].
  - rewrite lookup_app_l in Hi by done. rewrite insert_app_l by done.
    rewrite take_app_length' by by rewrite length_insert.
    apply list_elem_of_split_length in Hi as (l1 & l2 & -> & ->).
    rewrite insert_app_r_alt, Nat.sub_diag by lia. simpl. solve_Permutation.
  - assert (i = length l') as ->.
    { apply lookup_lt_Some in Hi. rewrite length_app in Hi. simpl in Hi. lia. }
    rewrite list_lookup_middle in Hi by done. injection Hi as ->.
    rewrite insert_app_r_alt, Nat.sub_diag by lia. simpl. rewrite take_app_length. solve_Permutation.
Qed.

Lemma remove_if_spec m k gen :
  map_wf m →
  map_wf (remove_if m k gen).1 ∧
  (remove_if m k gen).2 = bool_decide (generation <$> to_map m !! k = Some gen) ∧
  to_map (remove_if m k gen).1 =
    (if (remove_if m k gen).2 then delete k (to_map m) else to_map m).
Proof.
  intros Hwf. pose proof (get_spec m k Hwf) as Hget. destruct m as [entries|map]; simpl in *.
  - destruct (position k entries) as [[i [k' e]]|] eqn:Hp; simpl in Hget; rewrite <-Hget; simpl.
    + apply position_Some in Hp as [Hk Hl]. simpl in Hk. subst k'.
      destruct (N.eqb_spec (generation e) gen) as [->|Hne]; simpl.
      * destruct Hwf as [Hnd Hlen]. pose proof (swap_remove_permutation _ _ _ Hl) as Hperm.
        assert (NoDup ((k, e) :: swap_remove i entries).*1) as Hnd' by by rewrite <-Hperm.
        split; [|split; [symmetry; by apply bool_decide_eq_true|]].
        { csimpl in Hnd'. apply NoDup_cons in Hnd' as [_ ?]. split; [done|].
          apply Permutation_length in Hperm. simpl in Hperm. lia. }
        rewrite (list_to_map_proper _ _ Hnd Hperm). csimpl in *. apply NoDup_cons in Hnd' as [Hk _].
        rewrite delete_insert_id; [done|by apply not_elem_of_list_to_map_1].
      * split; [done|split; [|done]]. symmetry. apply bool_decide_eq_false. congruence.
    + by split.
  - destruct (map !! k) as [e|]; simpl.
    + destruct (N.eqb_spec (generation e) gen) as [->|Hne]; simpl.
      * by rewrite bool_decide_true.
      * split; [done|split; [|done]]. symmetry. apply bool_decide_eq_false. congruence.
    + by split.
Qed.
End smallmap.

(** ** Lemmas: the slots *)

Section cells.
Context {O : Type}.
Implicit Types s : Slot O.

Record cell_inv s : Prop := {
  ci_cell : cell_ok s;
  ci_pending : completed s = false → outcome s = None;
  ci_waiters : waiters s = Waiters_Empty ∨ waiting s = true
}.

Lemma cell_inv_new : cell_inv Slot_new.
Proof. split; [done|done|by left]. Qed.

Lemma set_waiters_completed ws s : completed (set_waiters ws s) = completed s.
Proof. done. Qed.

(** An observer's use shows the same outcome. *)
Record same_outcome s s' : Prop := {
  so_completed : completed s' = completed s;
  so_outcome : outcome s' = outcome s
}.

(** Only the registry changes, and only where [HAS_WAITER] is set. *)
Lemma set_waiters_inv ws s : cell_inv s → waiting s = true → cell_inv (set_waiters ws s).
Proof. intros [Hc Hp Hw] Hm. split; [done|exact Hp|by right]. Qed.

Lemma waiting_register_cell t s :
  cell_inv s → waiting s = true →
  cell_inv (wait_register t s).1 ∧ same_outcome s (wait_register t s).1.
Proof.
  intros Hs Hm. unfold wait_register. cbv zeta. rewrite set_waiters_completed.
  destruct (completed s); (split; [by repeat apply set_waiters_inv|by split]).
Qed.

Lemma flag_waiter_inv s : cell_inv s → cell_inv (flag_waiter s).
Proof.
  intros [Hc Hp Hw]. split; [by apply flag_cell| |right; apply flag_waiter_waiting].
  by rewrite flag_waiter_completed.
Qed.

Lemma observer_use_inv use s :
  cell_inv s → cell_inv (observer_use use s) ∧ same_outcome s (observer_use use s).
Proof.
  intros Hs. pose proof (flag_waiter_inv _ Hs) as Hf. pose proof (flag_waiter_waiting s) as Hm.
  destruct use as [previous next|waker|registered|t|t]; simpl.
  - split; [|split; [apply update_completed|apply update_cell, Hs]].
    unfold update_future_waker, update_register. destruct (completed s); [done|].
    destruct (completed (flag_waiter s)), (bool_decide (previous = Some next)); try done.
    destruct (install_future_waker _ _ _) as [ws r]. by apply set_waiters_inv.
  - split; [|split; [apply register_completed|apply register_cell, Hs]].
    unfold register_waker, register_install. destruct (completed s); [done|].
    destruct (completed (flag_waiter s)); [done|]. by apply set_waiters_inv.
  - split; [|split; [apply deregister_completed|apply deregister_cell, Hs]].
    unfold drop_registration, deregister_future_waker. destruct registered as [waker|]; [|done].
    destruct (ci_waiters _ Hs) as [Hw|Hw].
    + rewrite Hw. simpl. destruct Hs as [Hc Hp _]. split; [done|exact Hp|by left].
    + destruct (remove_future_waker_owner _ _) as [ws r]. by apply set_waiters_inv.
  - destruct (completed s) eqn:Hd; [by split|].
    destruct (waiting_register_cell t _ Hf Hm) as [Hi [H1 H2]]. split; [done|].
    split; [|by rewrite H2]. by rewrite H1, flag_waiter_completed.
  - destruct Hs as [Hc Hp Hw]. split; [|by split]. split; [done|exact Hp|].
    destruct Hw as [Hw|Hw]; [left|by right]. simpl. by rewrite Hw.
Qed.

Lemma complete_cell_inv wake_panics value s :
  cell_inv s → completed s = false →
  cell_inv (complete wake_panics value s).1 ∧ completed (complete wake_panics value s).1 = true ∧
  outcome (complete wake_panics value s).1 = Some value ∧
  (complete wake_panics value s).2 ≠ Completion_Twice.
Proof.
  intros [Hc Hp Hw] Hd. destruct (complete_cell wake_panics value s Hc) as [Hc' Hspec].
  rewrite Hd in Hspec. destruct Hspec as [Hne Ho].
  assert (completed (complete wake_panics value s).1 = true ∧
    (waiters (complete wake_panics value s).1 = Waiters_Empty ∨
     waiting (complete wake_panics value s).1 = true)) as [Hd' Hw'].
  { unfold complete. destruct (publish_spec value s Hd) as (s' & -> & Hs' & _ & Hws & Hm).
    unfold waiting in *. destruct (has_bit (state s) HAS_WAITER) eqn:Hb.
    - simpl. destruct (notify wake_panics (waiters s')) as [? []]; (split; [done|by left]).
    - simpl. split; [done|]. left. rewrite Hws. by destruct Hw. }
  split_and!; [|done..]. by split; [|rewrite Hd'|].
Qed.

Lemma reset_inv drop_panics s :
  cell_inv s →
  reset drop_panics s = (Slot_new, Returned ()) ∨
  ∃ s' value, reset drop_panics s = (s', Panicked) ∧ cell_inv s' ∧
    outcome s = Some value ∧ drop_panics value = true.
Proof.
  intros [Hc Hp Hw]. unfold reset. unfold cell_ok in Hc.
  assert (∀ o, waiters s = Waiters_Empty ∨ waiting s = true → o = None →
    set_state 0 (if has_bit (state s) HAS_WAITER then set_waiters Waiters_Empty (set_outcome o s)
                 else set_outcome o s) = Slot_new) as Hfin.
  { intros o Hws ->. unfold waiting in Hws. destruct (has_bit (state s) HAS_WAITER); [done|].
    destruct Hws as [Hws|?]; [|done]. unfold set_state, set_outcome. simpl. by rewrite Hws. }
  destruct (outcome s) as [value|] eqn:Ho; simpl in Hc; rewrite Hc.
  - simpl. rewrite Ho. destruct (drop_panics value) eqn:Hdp.
    + right. eexists _, value. split_and!; [done| |done|done]. split; simpl.
      * unfold cell_ok. simpl. by rewrite clear_valid.
      * done.
      * destruct Hw as [Hw|Hw]; [by left|right]. unfold waiting. simpl. unfold HAS_WAITER, OUTCOME_VALID.
        by rewrite clear_other_bit.
    + left. specialize (Hfin None Hw eq_refl). f_equal. rewrite <-Hfin.
      by destruct (has_bit (state s) HAS_WAITER).
  - left. specialize (Hfin None Hw eq_refl). f_equal. rewrite <-Hfin. destruct s as [n o ws]. simpl in *.
    subst o. by destruct (has_bit n HAS_WAITER).
Qed.

Lemma into_outcome_inv count s :
  cell_inv s →
  cell_inv (into_outcome count s).1 ∧ (into_outcome count s).2 ≠ Undefined ∧
  (count ≠ 1%N → (into_outcome count s).1 = s ∧ (into_outcome count s).2 = Returned None) ∧
  (count = 1%N → (into_outcome count s).2 =
    if completed s then match outcome s with Some value => Returned (Some value) | None => Panicked end
    else Returned None).
Proof.
  intros Hs. unfold into_outcome. destruct (N.eqb_spec count 1) as [->|Hne].
  - pose proof Hs as [Hc Hp Hw]. destruct (take_cell _ Hc) as [Hc' Hspec].
    unfold try_take_outcome in *. destruct (completed s) eqn:Hd; [|done]. simpl in *. unfold cell_ok in Hc.
    rewrite Hc in *. destruct (outcome s) as [value|] eqn:Ho; simpl in *.
    + split_and!; [|done..]. split; [done|done|]. destruct Hw as [Hw|Hw]; [by left|right].
      unfold waiting. simpl. unfold HAS_WAITER, OUTCOME_VALID. by rewrite clear_other_bit.
    + split_and!; [|done..]. split; [done|done|]. destruct Hw as [Hw|Hw]; [by left|right].
      unfold waiting. simpl. unfold HAS_WAITER, OUTCOME_VALID. by rewrite clear_other_bit.
  - by split_and!.
Qed.
End cells.

(** ** Lemmas: the operations of the space *)

Section operations.
Context {K O : Type} `{!EqDecision K, !Countable K}.
Context (drop_panics : O → bool).
Implicit Types i : Inner K O.

Lemma pool_pop_nil i : pool i = [] → pool_pop i = (i, Some None).
Proof. unfold pool_pop. intros Hp. destruct i as [n m l c]. simpl in *. by subst l. Qed.

Lemma pool_pop_snoc i rest id :
  pool i = rest ++ [id] → pool_pop i = (set_pool rest i, Some (Some id)).
Proof.
  intros Hp. unfold pool_pop. rewrite Hp, last_snoc, length_app. simpl. rewrite Nat.add_sub.
  by rewrite take_app_length.
Qed.

Lemma pool_cases i : pool i = [] ∨ ∃ rest id, pool i = rest ++ [id].
Proof. destruct (pool i) as [|id rest _] using rev_ind; [by left|right; by eexists _, _]. Qed.

(** A key that is taken leaves the space as it was. *)
Lemma subject_occupied allocated k i :
  map_wf (map i) → is_Some (to_map (map i) !! k) →
  subject drop_panics allocated k i = (i, Some (Err (mk_SubjectExists k))).
Proof.
  intros Hwf [e He]. unfold subject. unfold mbind, Op_bind.
  assert (∀ l, is_vacant (map (set_pool l i)) k = false) as Hv.
  { intros l. simpl. rewrite is_vacant_spec by done. apply bool_decide_eq_false. by rewrite He. }
  destruct (pool_cases i) as [Hp|(rest & id & Hp)].
  - rewrite (pool_pop_nil _ Hp). simpl. unfold gets. pose proof (Hv (pool i)) as Hv'. simpl in Hv'.
    by rewrite Hv'.
  - rewrite (pool_pop_snoc _ _ _ Hp). unfold gets. rewrite Hv. simpl. unfold pool_push, modify, mret, Op_ret.
    simpl. rewrite <-Hp. by destruct i.
Qed.

(** Where the slot of a new subject comes from. *)
Variant slot_source i allocated : Inner K O → SlotId → Prop :=
  | source_fresh :
      pool i = [] → slot_source i allocated (set_cell allocated Slot_new i) allocated
  | source_pooled rest id :
      pool i = rest ++ [id] → slot_source i allocated (set_cell id Slot_new (set_pool rest i)) id.

Definition next_subject i k id : Inner K O → Inner K O := λ i',
  set_map (insert_vacant (map i) k {| generation := next_generation i; slot_of := id |})
    (set_next_generation (u64_wrap (next_generation i + 1)) i').

(** On a vacant key [subject] returns, unless the generations are exhausted or
    the destructor of the recycled slot's old outcome panics. *)
Lemma subject_vacant allocated k i :
  map_wf (map i) → to_map (map i) !! k = None →
  (∀ id, id ∈ pool i → ∃ s, cells i !! id = Some s ∧ cell_inv s) →
  (∃ i' id, slot_source i allocated i' id ∧ next_generation i ≠ usize_max ∧
    subject drop_panics allocated k i = (next_subject i k id i',
      Some (Ok {| key := k; subject_generation := next_generation i; subject_slot := id |}))) ∨
  (∃ rest, (pool i = rest ∨ ∃ id, pool i = rest ++ [id]) ∧ next_generation i = usize_max ∧
    subject drop_panics allocated k i =
      (set_next_generation (u64_wrap (next_generation i + 1)) (set_pool rest i), None)) ∨
  (∃ rest id s s' value, pool i = rest ++ [id] ∧ cells i !! id = Some s ∧
    outcome s = Some value ∧ drop_panics value = true ∧ cell_inv s' ∧
    subject drop_panics allocated k i =
      (set_cell id s' (set_next_generation (u64_wrap (next_generation i + 1)) (set_pool rest i)), None)).
Proof.
  intros Hwf Hk Hcells. unfold subject, mbind, Op_bind.
  assert (∀ l, is_vacant (map (set_pool l i)) k = true) as Hv.
  { intros l. simpl. rewrite is_vacant_spec by done. by apply bool_decide_eq_true. }
  destruct (pool_cases i) as [Hp|(rest & id & Hp)].
  - rewrite (pool_pop_nil _ Hp). pose proof (Hv (pool i)) as Hv'. simpl in Hv'. unfold gets. rewrite Hv'. simpl.
    destruct (N.eqb_spec (next_generation i) usize_max) as [Hg|Hg].
    + right. left. exists (pool i). split_and!; [by left|done|]. by destruct i.
    + left. eexists _, _. split_and!; [by apply source_fresh|done|done].
  - rewrite (pool_pop_snoc _ _ _ Hp). unfold gets. rewrite Hv. simpl.
    destruct (N.eqb_spec (next_generation i) usize_max) as [Hg|Hg].
    + right. left. exists rest. split_and!; [right; by eexists|done|done].
    + destruct (Hcells id) as (s & Hs & Hinv); [rewrite Hp; apply elem_of_app; right; by left|].
      unfold reset_slot. simpl. rewrite Hs.
      destruct (reset_inv drop_panics s Hinv) as [->|(s' & value & -> & Hs' & Ho & Hd)].
      * left. eexists _, _. split_and!; [by eapply source_pooled|done|done].
      * right. right. by eexists rest, id, s, s', value.
Qed.

Lemma observe_spec k i :
  map_wf (map i) →
  observe k i = (i, Some match to_map (map i) !! k with
                         | Some e => Ok (slot_of e)
                         | None => Err (mk_UnknownSubject k)
                         end).
Proof. intros Hwf. unfold observe, mbind, Op_bind, gets. by rewrite get_spec. Qed.

(** Dropping a subject removes its own generation; its slot is recycled when
    nothing else holds it and the pool has room. *)
Lemma drop_subject_spec strong_count subj i :
  map_wf (map i) →
  let m := (remove_if (map i) (key subj) (subject_generation subj)).1 in
  let i' := set_map m i in
  drop_subject strong_count subj i =
    (if bool_decide (generation <$> to_map (map i) !! key subj = Some (subject_generation subj)) then
       if (strong_count i' (subject_slot subj) =? 1)%N && (length (pool i) <? SLOT_POOL_CAP)
       then set_pool (pool i ++ [subject_slot subj]) i' else i'
     else i, Some ()).
Proof.
  intros Hwf. cbv zeta. destruct (remove_if_spec (map i) (key subj) (subject_generation subj) Hwf) as (_ & Hr & Hm).
  unfold drop_subject, mbind, Op_bind. rewrite <-Hr in *. clear Hr.
  destruct (remove_if (map i) (key subj) (subject_generation subj)) as [m r] eqn:Hrm. simpl in *.
  destruct r.
  - unfold gets. by destruct (_ && _).
  - unfold remove_if in Hrm. destruct i as [n m0 l c]. simpl in *. f_equal.
    destruct m0 as [entries|map]; case_matches_in Hrm; by simplify_eq.
Qed.
End operations.

(** ** The invariant of a space *)

Section invariant.
Context {K O : Type} `{!EqDecision K, !Countable K}.
Context (drop_panics : O → bool) (wake_panics : WakerId → bool).
Implicit Types (w : SpaceWorld K O) (i : Inner K O).

(** The subjects' and observations' slots, with the number they go back to. *)
Definition holders w : list (nat * SlotId) :=
  ((λ p, (p.1, subject_slot p.2)) <$> subjects w) ++ observations w.

Definition entry_of (subj : Subject K) : SlotEntry :=
  {| generation := subject_generation subj; slot_of := subject_slot subj |}.

Record table_ok w : Prop := {
  tb_wf : map_wf (map (inner w));
  tb_subjects : ∀ p, p ∈ subjects w → to_map (map (inner w)) !! key p.2 = Some (entry_of p.2);
  tb_entries : ∀ k e, to_map (map (inner w)) !! k = Some e → ∃ p, p ∈ subjects w ∧ key p.2 = k;
  tb_keys : NoDup ((λ p, key p.2) <$> subjects w);
  tb_numbers : NoDup (subjects w).*1
}.

Record pool_ok w : Prop := {
  po_size : length (pool (inner w)) ≤ SLOT_POOL_CAP;
  po_nodup : NoDup (pool (inner w));
  po_free : ∀ n id, id ∈ pool (inner w) → (n, id) ∉ holders w
}.

Record cells_ok w : Prop := {
  ce_inv : ∀ id s, cells (inner w) !! id = Some s → cell_inv s;
  ce_pool : ∀ id, id ∈ pool (inner w) → is_Some (cells (inner w) !! id);
  ce_shows : ∀ n id, (n, id) ∈ holders w → ∃ s, cells (inner w) !! id = Some s ∧
    outcome s = (outcomes w !! n) ∧ completed s = bool_decide (is_Some (outcomes w !! n))
}.

Record owners_ok w : Prop := {
  ow_slot : ∀ n id id', (n, id) ∈ holders w → (n, id') ∈ holders w → id = id';
  ow_number : ∀ n n' id, (n, id) ∈ holders w → (n', id) ∈ holders w → n = n';
  ow_created : ∀ n id, (n, id) ∈ holders w → n < created w;
  ow_outcomes : ∀ n, is_Some (outcomes w !! n) → n < created w
}.

Record space_inv w : Prop := {
  si_table : table_ok w;
  si_pool : pool_ok w;
  si_cells : cells_ok w;
  si_owners : owners_ok w
}.

Lemma holders_with_inner i w : holders (with_inner i w) = holders w.
Proof. done. Qed.

Lemma subject_holder w p : p ∈ subjects w → (p.1, subject_slot p.2) ∈ holders w.
Proof. intros Hp. apply elem_of_app. left. apply list_elem_of_fmap. by exists p. Qed.

Lemma observation_holder w n id : (n, id) ∈ observations w → (n, id) ∈ holders w.
Proof. intros Hp. apply elem_of_app. by right. Qed.

(** Writing one slot's cell. *)
Lemma set_cell_ok w id s s' :
  space_inv w → cells (inner w) !! id = Some s → cell_inv s' →
  (∀ n, (n, id) ∈ holders w → same_outcome s s') →
  space_inv (with_inner (set_cell id s' (inner w)) w).
Proof.
  intros [Ht Hp [C1 C2 C3] Ho] Hs Hinv Hsame. split; [by destruct Ht|by destruct Hp| |by destruct Ho].
  split; simpl.
  - intros id' x. rewrite lookup_insert_Some. intros [[<- <-]|[_ Hx]]; [done|by eapply C1].
  - intros id' Hin. rewrite lookup_insert_is_Some. destruct (decide (id = id')); [by left|right; by auto].
  - intros n id' Hin. rewrite holders_with_inner in Hin. destruct (C3 n id' Hin) as (x & Hx & Hout & Hd).
    destruct (decide (id = id')) as [<-|Hne].
    + exists s'. rewrite lookup_insert_eq. rewrite Hs in Hx. injection Hx as <-.
      destruct (Hsame n Hin) as [-> ->]. done.
    + exists x. by rewrite lookup_insert_ne.
Qed.

(** Fewer observations, or copies of the ones there are. *)
Lemma with_observations_ok w l :
  space_inv w → (∀ p, p ∈ l → p ∈ holders w) → space_inv (with_observations l w).
Proof.
  intros [Ht [P1 P2 P3] [C1 C2 C3] [O1 O2 O3 O4]] Hl.
  assert (∀ p, p ∈ holders (with_observations l w) → p ∈ holders w) as Hh.
  { intros p. unfold holders at 1. simpl. intros [Hp|Hp]%elem_of_app; [|by apply Hl].
    apply elem_of_app. by left. }
  split; [by destruct Ht|..].
  - split; [done|done|]. intros n id Hid Hin. by apply (P3 n id Hid), Hh.
  - split; [done|done|]. intros n id Hin. by apply C3, Hh.
  - split; [| | |done].
    + intros n id id' H1 H2. by apply (O1 n); apply Hh.
    + intros n n' id H1 H2. by apply (O2 n n' id); apply Hh.
    + intros n id Hin. by eapply O3, Hh.
Qed.

Lemma count_positive (id : SlotId) l : id ∈ l → (1 ≤ len (filter (λ x, x = id) l))%N.
Proof.
  intros Hin. unfold len. destruct (filter (λ x, x = id) l) as [|x k] eqn:Hf; [|simpl; lia].
  assert (id ∈ filter (λ x, x = id) l) as Hx by by apply list_elem_of_filter.
  rewrite Hf in Hx. by apply elem_of_nil in Hx.
Qed.

(** A strong count of one, read by the dropping subject, means that nothing
    else holds its slot. *)
Lemma count_one w i pre n subj post :
  subjects w = pre ++ (n, subj) :: post → handle_count w i (subject_slot subj) = 1%N →
  (subject_slot subj ∉ pool i) ∧ (∀ p, p ∈ pre ++ post → subject_slot p.2 ≠ subject_slot subj) ∧
  ∀ n', (n', subject_slot subj) ∉ observations w.
Proof.
  intros Hs. unfold handle_count, handles. rewrite Hs. rewrite fmap_app, fmap_cons. simpl.
  rewrite !filter_app, filter_cons_True by done. rewrite !len_app, len_cons. intros Hc.
  split_and!.
  - intros Hin. apply count_positive in Hin. lia.
  - intros p [Hin|Hin]%elem_of_app Heq.
    + assert (subject_slot subj ∈ (λ p : nat * Subject K, subject_slot p.2) <$> pre) as Hx
        by (apply list_elem_of_fmap; by exists p). apply count_positive in Hx. lia.
    + assert (subject_slot subj ∈ (λ p : nat * Subject K, subject_slot p.2) <$> post) as Hx
        by (apply list_elem_of_fmap; by exists p). apply count_positive in Hx. lia.
  - intros n' Hin. assert (subject_slot subj ∈ (observations w).*2) as Hx
      by (apply list_elem_of_fmap; by exists (n', subject_slot subj)). apply count_positive in Hx. lia.
Qed.

Lemma observation_count_one w i pre n id post :
  observations w = pre ++ (n, id) :: post → handle_count w i id = 1%N →
  (∀ p, p ∈ subjects w → subject_slot p.2 ≠ id) ∧ ∀ n', (n', id) ∉ pre ++ post.
Proof.
  intros Hs. unfold handle_count, handles. rewrite Hs. rewrite fmap_app, fmap_cons. simpl.
  rewrite !filter_app, filter_cons_True by done. rewrite !len_app, len_cons. intros Hc. split.
  - intros p Hin Heq. assert (id ∈ (λ p : nat * Subject K, subject_slot p.2) <$> subjects w) as Hx
      by (apply list_elem_of_fmap; by exists p). apply count_positive in Hx. lia.
  - intros n' [Hin|Hin]%elem_of_app.
    + assert (id ∈ pre.*2) as Hx by (apply list_elem_of_fmap; by exists (n', id)).
      apply count_positive in Hx. lia.
    + assert (id ∈ post.*2) as Hx by (apply list_elem_of_fmap; by exists (n', id)).
      apply count_positive in Hx. lia.
Qed.

Lemma shrink_pool_ok w rest l g :
  space_inv w → pool (inner w) = rest ++ l →
  space_inv (with_inner (set_next_generation g (set_pool rest (inner w))) w).
Proof.
  intros [Ht [P1 P2 P3] [C1 C2 C3] Ho] Hp. rewrite Hp in *. split; [by destruct Ht| | |by destruct Ho].
  - split; simpl.
    + rewrite length_app in P1. lia.
    + by apply NoDup_app in P2 as [? _].
    + intros n id Hid. apply P3, elem_of_app. by left.
  - split; simpl; [done| |done]. intros id Hid. apply C2, elem_of_app. by left.
Qed.

(** A slot nobody holds may be rewritten, or allocated. *)
Lemma new_cell_ok w id s :
  space_inv w → cell_inv s → (∀ n, (n, id) ∉ holders w) →
  space_inv (with_inner (set_cell id s (inner w)) w).
Proof.
  intros [Ht Hp [C1 C2 C3] Ho] Hs Hfree. split; [by destruct Ht|by destruct Hp| |by destruct Ho].
  split; simpl.
  - intros id' x. rewrite lookup_insert_Some. intros [[<- <-]|[_ Hx]]; [done|by eapply C1].
  - intros id' Hin. rewrite lookup_insert_is_Some. destruct (decide (id = id')); [by left|right; by auto].
  - intros n id' Hin. rewrite lookup_insert_ne; [by apply C3|]. intros <-. by apply (Hfree n).
Qed.

Lemma add_subject_ok w id k g :
  space_inv w → cells (inner w) !! id = Some Slot_new → id ∉ pool (inner w) →
  (∀ n, (n, id) ∉ holders w) → to_map (map (inner w)) !! k = None →
  space_inv (with_subject {| key := k; subject_generation := g; subject_slot := id |}
    (with_inner (set_map (insert_vacant (map (inner w)) k {| generation := g; slot_of := id |})
      (inner w)) w)).
Proof.
  intros [[T1 T2 T3 T4 T5] [P1 P2 P3] [C1 C2 C3] [O1 O2 O3 O4]] Hc Hpool Hfree Hk.
  destruct (insert_vacant_spec _ k {| generation := g; slot_of := id |} T1 Hk) as [Hwf Hm].
  set (subj := {| key := k; subject_generation := g; subject_slot := id |}).
  set (w' := with_subject _ _).
  assert (∀ n x, (n, x) ∈ holders w' → n = created w ∧ x = id ∨ (n, x) ∈ holders w) as Hh.
  { intros n x. unfold holders, w'. simpl. rewrite elem_of_cons. intros [[= -> ->]|?]; [by left|by right]. }
  assert (outcomes w !! created w = None) as Hnone.
  { destruct (outcomes w !! created w) eqn:Ho; [|done].
    assert (created w < created w); [|lia]. by apply O4. }
  split; [split|split|split|split]; simpl.
  - done.
  - intros p [->|Hp]%elem_of_cons; rewrite Hm; simpl; [by rewrite lookup_insert_eq|].
    rewrite lookup_insert_ne; [by apply T2|]. intros ->. rewrite T2 in Hk by done. done.
  - intros k' e. rewrite Hm, lookup_insert_Some. intros [[<- _]|[_ He]].
    + eexists. split; [by left|done].
    + destruct (T3 _ _ He) as (p & Hp & Hkey). exists p. split; [by right|done].
  - constructor; [|done]. intros Hin. apply list_elem_of_fmap in Hin as (p & -> & Hp).
    rewrite T2 in Hk by done. done.
  - constructor; [|done]. intros Hin. apply list_elem_of_fmap in Hin as (p & Hn & Hp).
    apply subject_holder, O3 in Hp. lia.
  - done.
  - done.
  - intros n x Hx [[-> ->]|Hin]%Hh; [done|]. by eapply P3.
  - done.
  - done.
  - intros n x [[-> ->]|Hin]%Hh; [|by apply C3]. exists Slot_new. by rewrite Hnone.
  - intros n x x' [[-> ->]|H1]%Hh [[Hn ->]|H2]%Hh; [done|apply O3 in H2; lia| |by eapply O1].
    subst n. apply O3 in H1. lia.
  - intros n n' x [[-> ->]|H1]%Hh [[-> Hx]|H2]%Hh; [done|by apply Hfree in H2| |by eapply O2].
    subst x. by apply Hfree in H1.
  - intros n x [[-> ->]|H1]%Hh; [lia|]. apply O3 in H1. lia.
  - intros n Hn. apply O4 in Hn. lia.
Qed.

Lemma subject_step_ok w allocated k i r :
  space_inv w → cells (inner w) !! allocated = None →
  subject drop_panics allocated k (inner w) = (i, r) →
  space_inv match r with
            | Some (Ok subj) => with_subject subj (with_inner i w)
            | _ => with_inner i w
            end.
Proof.
  intros Hinv Hnew Hsub. pose proof Hinv as [[T1 _ _ _ _] [_ P2 P3] [C1 C2 C3] _].
  set (g := u64_wrap (next_generation (inner w) + 1)).
  destruct (to_map (map (inner w)) !! k) as [e|] eqn:Hk.
  { rewrite subject_occupied in Hsub by done. injection Hsub as <- <-.
    by replace (with_inner (inner w) w) with w by by destruct w. }
  destruct (subject_vacant drop_panics allocated k (inner w) T1 Hk) as
    [(i' & id & Hsrc & _ & Heq)|[(rest & Hpool & _ & Heq)|(rest & id & s & s' & v & Hp & Hs & _ & _ & Hs' & Heq)]].
  - intros id Hid. destruct (C2 id Hid) as [s Hs]. exists s. split; [done|by eapply C1].
  - rewrite Hsub in Heq. injection Heq as -> ->. destruct Hsrc as [Hp|rest id Hp].
    + assert (∀ n, (n, allocated) ∉ holders w) as Hfree.
      { intros n Hin. destruct (C3 _ _ Hin) as (s & Hs & _). congruence. }
      pose proof (shrink_pool_ok w [] [] g Hinv Hp) as Hw1.
      pose proof (new_cell_ok _ allocated Slot_new Hw1 cell_inv_new Hfree) as Hw2.
      replace (set_cell allocated Slot_new (inner w)) with
        (set_cell allocated Slot_new (set_pool [] (inner w))) by (unfold set_cell, set_pool; by rewrite Hp).
      apply (add_subject_ok _ allocated k (next_generation (inner w)) Hw2); simpl;
        [by rewrite lookup_insert_eq|by apply not_elem_of_nil|done|done].
    + rewrite Hp in P2, P3. apply NoDup_app in P2 as (_ & Hd & _).
      assert (∀ n, (n, id) ∉ holders w) as Hfree.
      { intros n. apply P3, elem_of_app. right. by left. }
      pose proof (shrink_pool_ok w rest [id] g Hinv Hp) as Hw1.
      pose proof (new_cell_ok _ id Slot_new Hw1 cell_inv_new Hfree) as Hw2.
      apply (add_subject_ok _ id k (next_generation (inner w)) Hw2); simpl;
        [by rewrite lookup_insert_eq| |done|done]. intros Hin. apply (Hd id Hin). by left.
  - rewrite Hsub in Heq. injection Heq as -> ->.
    destruct Hpool as [Hp|[id Hp]]; [apply (shrink_pool_ok w rest []); [done|by rewrite app_nil_r]|].
    by apply (shrink_pool_ok w rest [id]).
  - rewrite Hsub in Heq. injection Heq as -> ->.
    assert (∀ n, (n, id) ∉ holders w) as Hfree.
    { intros n. apply P3. rewrite Hp. apply elem_of_app. right. by left. }
    apply (new_cell_ok _ id s' (shrink_pool_ok w rest [id] g Hinv Hp) Hs' Hfree).
Qed.

Lemma complete_step_ok w n subj value i c :
  space_inv w → (n, subj) ∈ subjects w →
  complete_subject wake_panics subj value (inner w) = (i, Some c) →
  space_inv match c with
            | Completion_Twice => with_inner i w
            | _ => with_outcome n value (with_inner i w)
            end.
Proof.
  intros Hinv Hin. pose proof Hinv as [Ht [P1 P2 P3] [C1 C2 C3] [O1 O2 O3 O4]].
  pose proof (subject_holder _ _ Hin) as Hh. simpl in Hh.
  destruct (C3 _ _ Hh) as (s & Hs & Ho & Hd). unfold complete_subject. rewrite Hs.
  destruct (completed s) eqn:Hc.
  - destruct (complete_cell wake_panics value s (ci_cell _ (C1 _ _ Hs))) as [_ Hspec].
    rewrite Hc in Hspec. rewrite Hspec. intros [= <- <-].
    apply (set_cell_ok w (subject_slot subj) s s); [done|done|by eapply C1|by split].
  - destruct (complete_cell_inv wake_panics value s (C1 _ _ Hs) Hc) as (Hs' & Hd' & Ho' & Hne).
    destruct (complete wake_panics value s) as [s' c']. simpl in *. intros [= <- <-].
    assert (space_inv (with_outcome n value
      (with_inner (set_cell (subject_slot subj) s' (inner w)) w))) as Hgoal; [|by destruct c'].
    split; [by destruct Ht|by split| |].
    + split; simpl.
      * intros id' x. rewrite lookup_insert_Some. intros [[<- <-]|[_ Hx]]; [done|by eapply C1].
      * intros id' Hid. rewrite lookup_insert_is_Some.
        destruct (decide (subject_slot subj = id')); [by left|right; by auto].
      * intros n' id' Hin'. change ((n', id') ∈ holders w) in Hin'.
        destruct (decide (n' = n)) as [->|Hn].
        { rewrite (O1 n id' (subject_slot subj) Hin' Hh), !lookup_insert_eq. exists s'.
          split_and!; [done|done|]. by rewrite Hd', bool_decide_true. }
        rewrite !lookup_insert_ne; [by apply C3|done|]. intros <-. by apply Hn, (O2 n' n (subject_slot subj)).
    + split; [done|done|done|]. intros n' Hn'. simpl in Hn'.
      destruct (decide (n = n')) as [<-|Hne']; [by eapply O3|]. rewrite lookup_insert_ne in Hn' by done. by apply O4.
Qed.

Lemma takes_step_ok w pre n id post s s' taken :
  space_inv w → observations w = pre ++ (n, id) :: post → cells (inner w) !! id = Some s →
  into_outcome (handle_count w (inner w) id) s = (s', taken) →
  space_inv (with_observations (pre ++ post) (with_inner (set_cell id s' (inner w)) w)).
Proof.
  intros Hinv Hobs Hs Htake. pose proof Hinv as [_ _ [C1 _ _] _].
  destruct (into_outcome_inv (handle_count w (inner w) id) s (C1 _ _ Hs)) as (Hs' & _ & Hshared & _).
  rewrite Htake in *. simpl in *.
  assert (∀ p, p ∈ pre ++ post → p ∈ holders w) as Hin.
  { intros [m x] Hx. apply observation_holder. rewrite Hobs. rewrite elem_of_app, elem_of_cons.
    apply elem_of_app in Hx. tauto. }
  destruct (decide (handle_count w (inner w) id = 1%N)) as [Hone|Hne].
  - destruct (observation_count_one w (inner w) pre n id post Hobs Hone) as [Hsub Hob].
    apply (new_cell_ok (with_observations (pre ++ post) w)); [by apply with_observations_ok|done|].
    intros m. unfold holders. simpl. intros [Hm|Hm]%elem_of_app; [|by eapply Hob].
    apply list_elem_of_fmap in Hm as (p & [= _ Heq] & Hp). by eapply Hsub.
  - destruct (Hshared Hne) as [-> _]. apply with_observations_ok; [|done].
    apply (set_cell_ok w id s s); [done|done|by eapply C1|by split].
Qed.

Lemma drops_step_ok w pre n subj post ids i r :
  space_inv w → subjects w = pre ++ (n, subj) :: post →
  drop_subject (handle_count w) subj (inner w) = (i, r) →
  space_inv (with_retired (pre ++ post) ids (with_inner i w)).
Proof.
  intros [[T1 T2 T3 T4 T5] [P1 P2 P3] [C1 C2 C3] [O1 O2 O3 O4]] Hsubs.
  assert ((n, subj) ∈ subjects w) as Hin by (rewrite Hsubs; apply elem_of_app; right; by left).
  assert (∀ p, p ∈ pre ++ post → p ∈ subjects w ∧ key p.2 ≠ key subj) as Hrest.
  { intros p Hp. rewrite Hsubs, fmap_app, fmap_cons in T4. simpl in T4.
    apply NoDup_app in T4 as (_ & Hd & [Hk _]%NoDup_cons).
    rewrite Hsubs, elem_of_app, elem_of_cons. apply elem_of_app in Hp. split; [tauto|]. intros Heq.
    destruct Hp as [Hp|Hp].
    - apply (Hd (key subj)); [rewrite <-Heq; apply list_elem_of_fmap; by exists p|by left].
    - apply Hk. rewrite <-Heq. apply list_elem_of_fmap. by exists p. }
  assert (to_map (map (inner w)) !! key subj = Some (entry_of subj)) as Hcur by apply (T2 _ Hin).
  pose proof (drop_subject_spec (handle_count w) subj (inner w) T1) as Hspec. cbv zeta in Hspec.
  rewrite bool_decide_true in Hspec by by rewrite Hcur. rewrite Hspec. clear Hspec.
  destruct (remove_if_spec (map (inner w)) (key subj) (subject_generation subj) T1) as (Hwf & Hr & Hm).
  rewrite bool_decide_true in Hr by by rewrite Hcur. rewrite Hr in Hm.
  set (m := (remove_if _ _ _).1) in *. set (w' := with_inner (set_map m (inner w)) w).
  assert (∀ l c, (∀ id, id ∈ l → (id ∈ pool (inner w) ∨ id = subject_slot subj ∧
      (∀ p, p ∈ pre ++ post → subject_slot p.2 ≠ subject_slot subj) ∧
      ∀ n', (n', subject_slot subj) ∉ observations w)) → NoDup l → length l ≤ SLOT_POOL_CAP →
    c = set_pool l (set_map m (inner w)) →
    space_inv (with_retired (pre ++ post) ids (with_inner c w))) as Hgoal.
  { intros l c Hl Hnd Hlen ->.
    set (w2 := with_retired _ _ _).
    assert (∀ x, x ∈ holders w2 → x ∈ holders w) as Hh.
    { intros x. unfold holders, w2. simpl. rewrite !elem_of_app. intros [Hx|?]; [left|by right].
      apply list_elem_of_fmap in Hx as (p & -> & Hp). apply list_elem_of_fmap. exists p.
      split; [done|]. by apply Hrest. }
    split; [split|split|split|split]; simpl.
    - done.
    - intros p Hp. destruct (Hrest p Hp). rewrite Hm, lookup_delete_ne by done. by apply T2.
    - intros k e. rewrite Hm, lookup_delete_Some. intros [Hk He].
      destruct (T3 _ _ He) as (p & Hp & Hkey). exists p. split; [|done].
      rewrite Hsubs, elem_of_app, elem_of_cons in Hp. apply elem_of_app.
      destruct Hp as [?|[->|?]]; [by left|done|by right].
    - rewrite Hsubs, fmap_app, fmap_cons in T4. rewrite fmap_app.
      eapply sublist_NoDup; [exact T4|]. apply sublist_app; [done|by apply sublist_cons].
    - rewrite Hsubs, fmap_app, fmap_cons in T5. rewrite fmap_app.
      eapply sublist_NoDup; [exact T5|]. apply sublist_app; [done|by apply sublist_cons].
    - done.
    - done.
    - intros m' id Hid Hx. destruct (Hl id Hid) as [Hp|(-> & Hno & Hob)]; [by eapply P3, Hh|].
      unfold holders, w2 in Hx. simpl in Hx. apply elem_of_app in Hx as [Hx|Hx]; [|by eapply Hob].
      apply list_elem_of_fmap in Hx as (p & [= _ Heq] & Hp). by eapply Hno.
    - done.
    - intros id Hid. destruct (Hl id Hid) as [Hp|(-> & _)]; [by apply C2|].
      destruct (C3 _ _ (subject_holder _ _ Hin)) as (s & Hs & _). by eexists.
    - intros m' id Hx. by apply C3, Hh.
    - intros m' id id' H1 H2. by apply (O1 m'); apply Hh.
    - intros m' n' id H1 H2. by apply (O2 m' n' id); apply Hh.
    - intros m' id Hx. by eapply O3, Hh.
    - done. }
  destruct (handle_count w (set_map m (inner w)) (subject_slot subj) =? 1)%N eqn:Hone; simpl.
  2: { intros [= <- <-]. eapply (Hgoal (pool (inner w))); [by left|done|done|done]. }
  destruct (Nat.ltb_spec (length (pool (inner w))) SLOT_POOL_CAP) as [Hlt|Hge].
  2: { intros [= <- <-]. eapply (Hgoal (pool (inner w))); [by left|done|done|done]. }
  intros [= <- <-]. apply N.eqb_eq in Hone. destruct (count_one _ _ _ _ _ _ Hsubs Hone) as (Hp & Hno & Hob).
  eapply (Hgoal (pool (inner w) ++ [subject_slot subj])); [| | |done].
  - intros id [?| ->%list_elem_of_singleton]%elem_of_app; [by left|by right].
  - apply NoDup_app. split_and!; [done| |apply NoDup_singleton].
    intros x Hx ->%list_elem_of_singleton. done.
  - rewrite length_app. simpl. lia.
Qed.

Lemma space_step_inv w w' :
  space_inv w → space_step drop_panics wake_panics w w' → space_inv w'.
Proof.
  intros Hinv Hstep. destruct Hstep as [w al k i r Hal Hs|w k i n subj id Hin Hk Ho|w n subj v i c Hin Hc
    |w n id s use Hin Hs|w n id Hin|w pre x post Hl|w pre n id post s s' t Hl Hs Ht|w pre n subj post i r Hl Hd
    |w pre id post Hl].
  - by eapply subject_step_ok.
  - pose proof Hinv as [[T1 T2 _ _ _] _ _ _]. rewrite observe_spec in Ho by done.
    assert (to_map (map (inner w)) !! key subj = Some (entry_of subj)) as Hcur by apply (T2 _ Hin).
    subst k. rewrite Hcur in Ho. injection Ho as <- <-.
    replace (with_inner (inner w) w) with w by by destruct w.
    apply with_observations_ok; [done|]. intros p [->|Hp]%elem_of_cons; [by apply (subject_holder w (n, subj))|].
    destruct p. by apply observation_holder.
  - by eapply complete_step_ok.
  - pose proof (ce_inv _ (si_cells _ Hinv) _ _ Hs) as Hcell.
    destruct (observer_use_inv use s Hcell) as [Hu Hso]. by eapply set_cell_ok.
  - apply with_observations_ok; [done|]. intros p [->|Hp]%elem_of_cons; [by apply observation_holder|].
    destruct p. by apply observation_holder.
  - apply with_observations_ok; [done|]. intros [m y] Hp. apply observation_holder. rewrite Hl.
    rewrite elem_of_app, elem_of_cons. apply elem_of_app in Hp. tauto.
  - by eapply takes_step_ok.
  - by eapply drops_step_ok.
  - by destruct Hinv as [[] [] [] []].
Qed.

Lemma space_init_inv : space_inv space_init.
Proof.
  assert (∀ n id, (n, id) ∉ holders space_init) as Hnone by by intros n id ?%elem_of_nil.
  split; [split|split|split|split]; simpl; try apply NoDup_nil_2; try apply Nat.le_0_l; try done;
    try by intros ? ?%elem_of_nil.
  - split; [apply NoDup_nil_2|apply Nat.le_0_l].
  - by intros n id ?%Hnone.
  - by intros n id id' ?%Hnone.
  - by intros n n' id ?%Hnone.
  - by intros n id ?%Hnone.
  - intros n [v Hv]. done.
Qed.

Lemma space_reachable_inv w : space_reachable drop_panics wake_panics w → space_inv w.
Proof.
  unfold space_reachable. pose proof space_init_inv as Hi. revert Hi. generalize (@space_init K O _ _).
  intros w0 Hi Hs. induction Hs as [|w1 w2 w3 H1 _ IH]; [done|]. by eapply IH, space_step_inv.
Qed.
End invariant.

(** ** Properties *)

Section properties.
Context {K O : Type} `{!EqDecision K, !Countable K}.
Context (drop_panics : O → bool) (wake_panics : WakerId → bool).
Implicit Types (w : SpaceWorld K O) (i : Inner K O).

(** Generation isolation: whatever subjects were created, dropped and had
    their slots recycled since, an observation reads exactly the outcome its own
    subject published, nothing before that, and never an uninitialised cell. *)
Lemma observations_isolated w n id :
  space_reachable drop_panics wake_panics w → (n, id) ∈ observations w →
  ∃ s, cells (inner w) !! id = Some s ∧ try_get s = Returned (outcomes w !! n).
Proof.
  intros Hr Hin. destruct (space_reachable_inv _ _ _ Hr) as [_ _ [C1 C2 C3] _].
  destruct (C3 _ _ (observation_holder _ _ _ Hin)) as (s & Hs & Ho & Hd).
  exists s. split; [done|]. unfold try_get, outcome_ref. rewrite Hd, Ho.
  by destruct (outcomes w !! n).
Qed.

(** A key is retained exactly while its subject lives: at most one live
    subject per key, [observe] captures the slot of that subject and fails when
    there is none, and [subject] on a retained key fails and leaves the space
    as it was. *)
Lemma keys_retained_while_live w :
  space_reachable drop_panics wake_panics w →
  NoDup ((λ p, key p.2) <$> subjects w) ∧
  ∀ k,
    (∃ p, p ∈ subjects w ∧ key p.2 = k ∧
       observe k (inner w) = (inner w, Some (Ok (subject_slot p.2))) ∧
       ∀ allocated, subject drop_panics allocated k (inner w) =
         (inner w, Some (Err (mk_SubjectExists k)))) ∨
    (∀ p, p ∈ subjects w → key p.2 ≠ k) ∧
      observe k (inner w) = (inner w, Some (Err (mk_UnknownSubject k))).
Proof.
  intros Hr. destruct (space_reachable_inv _ _ _ Hr) as [[T1 T2 T3 T4 _] _ _ _].
  split; [done|]. intros k. destruct (to_map (map (inner w)) !! k) as [e|] eqn:Hk.
  - left. destruct (T3 _ _ Hk) as (p & Hp & <-). exists p. rewrite (T2 p Hp) in Hk. injection Hk as <-.
    split_and!; [done|done| |].
    + by rewrite observe_spec, (T2 p Hp).
    + intros allocated. apply subject_occupied; [done|]. by rewrite (T2 p Hp).
  - right. split; [|by rewrite observe_spec, Hk]. intros p Hp <-. by rewrite T2 in Hk.
Qed.

(** Recycling: the pool holds at most [SLOT_POOL_CAP] distinct slots, none
    of them held by a subject or an observation; a new subject's slot is a
    pristine pending slot nobody else holds; and [subject] panics only when the
    generations are exhausted or the destructor of a retained outcome panics. *)
Lemma recycled_slots_pristine w allocated k :
  space_reachable drop_panics wake_panics w → cells (inner w) !! allocated = None →
  length (pool (inner w)) ≤ SLOT_POOL_CAP ∧ NoDup (pool (inner w)) ∧
  (∀ n id, id ∈ pool (inner w) → (n, id) ∉ holders w) ∧
  match subject drop_panics allocated k (inner w) with
  | (i, Some (Ok subj)) =>
      cells i !! subject_slot subj = Some Slot_new ∧ key subj = k ∧
      (∀ n, (n, subject_slot subj) ∉ holders w) ∧ (subject_slot subj ∉ pool i) ∧
      ∀ id, (∃ n, (n, id) ∈ holders w) → cells i !! id = cells (inner w) !! id
  | (_, Some (Err _)) => True
  | (_, None) => next_generation (inner w) = usize_max ∨ ∃ value, drop_panics value = true
  end.
Proof.
  intros Hr Hnew. destruct (space_reachable_inv _ _ _ Hr) as [[T1 _ _ _ _] [P1 P2 P3] [C1 C2 C3] _].
  split_and!; [done..|]. destruct (to_map (map (inner w)) !! k) as [e|] eqn:Hk.
  { by rewrite subject_occupied. }
  destruct (subject_vacant drop_panics allocated k (inner w) T1 Hk) as
    [(i' & id & Hsrc & _ & ->)|[(rest & _ & Hg & ->)|(rest & id & s & s' & v & _ & _ & _ & Hv & _ & ->)]].
  - intros id Hid. destruct (C2 id Hid) as [s Hs]. exists s. split; [done|by eapply C1].
  - assert ((∀ n, (n, id) ∉ holders w) ∧ (id ∉ pool i') ∧ cells i' = <[id := Slot_new]> (cells (inner w)))
      as (Hfree & Hpool & Hcells).
    { destruct Hsrc as [Hp|rest id Hp]; simpl.
      - split_and!; [|rewrite Hp; by apply not_elem_of_nil|done].
        intros n Hin. destruct (C3 _ _ Hin) as (s & Hs & _). congruence.
      - rewrite Hp in P2, P3. apply NoDup_app in P2 as (_ & Hd & _). split_and!; [| |done].
        + intros n. apply P3, elem_of_app. right. by left.
        + intros Hin. apply (Hd id Hin). by left. }
    simpl. rewrite Hcells. split_and!; [by rewrite lookup_insert_eq|done|done|done|].
    intros id' [n Hin]. rewrite lookup_insert_ne; [done|]. intros <-. by apply (Hfree n).
  - by left.
  - right. by exists v.
Qed.

(** [SmallMap], inline or promoted to a hash table at [INLINE_CAP] entries,
    is a partial map: lookup, vacancy, insertion at a vacant key and
    generation-checked removal are those of [gmap], and inline storage stays
    within its capacity. *)
Lemma small_map_is_a_map (m : SmallMap K) k e gen :
  map_wf m →
  get m k = to_map m !! k ∧
  is_vacant m k = bool_decide (to_map m !! k = None) ∧
  (to_map m !! k = None →
    map_wf (insert_vacant m k e) ∧ to_map (insert_vacant m k e) = <[k := e]> (to_map m)) ∧
  map_wf (remove_if m k gen).1 ∧
  (remove_if m k gen).2 = bool_decide (generation <$> to_map m !! k = Some gen) ∧
  to_map (remove_if m k gen).1 = (if (remove_if m k gen).2 then delete k (to_map m) else to_map m).
Proof.
  intros Hwf. split; [by apply get_spec|]. split; [by apply is_vacant_spec|].
  split; [by apply insert_vacant_spec|by apply remove_if_spec].
Qed.
End properties.

(** The hasher of retained keys is injective on a single word: from any
    state, two [u64] keys with one hash are the same key, and so are two byte
    keys of one length, up to eight bytes. *)
Lemma single_word_keys_never_collide h :
  (∀ a b, (a ≤ u64_max)%N → (b ≤ u64_max)%N →
    finish (write_u64 h a) = finish (write_u64 h b) → a = b) ∧
  ∀ a b, Forall (λ x, (x < 256)%N) a → Forall (λ x, (x < 256)%N) b →
    length a = length b → length a ≤ 8 → finish (write h a) = finish (write h b) → a = b.
Proof.
  split; [intros a b; apply add_injective|]. intros a b Ha Hb Hlen H8 Heq.
  destruct (decide (a = [])) as [->|Hne]; [by destruct b|].
  assert (b ≠ []) as Hne' by by intros ->; destruct a.
  rewrite !write_short in Heq by (done || lia). rewrite <-Hlen in Heq.
  apply add_injective in Heq; [|by apply padded_word|rewrite Hlen; apply padded_word; [done|lia]].
  apply from_le_bytes_injective in Heq; [|by apply padded_bytes..|by rewrite !length_app, Hlen].
  by apply app_inj_2 in Heq as [? _].
Qed.

(** ** Witnesses *)

Lemma rtc_eq {A} (R : A → A → Prop) x y : x = y → rtc R x y.
Proof. intros ->. apply rtc_refl. Qed.

(** One step of a run, the world it reaches kept computed. *)
Tactic Notation "space_next" uconstr(rule) :=
  eapply rtc_l; [eapply rule; reflexivity|];
  lazymatch goal with
  | |- rtc _ ?a ?b => let a := eval vm_compute in a in change (rtc (space_step (λ _, false) (λ _, false)) a b)
  end.

