(* ===== verification/Driver.v ===== *)
(** * The Driver

    [crates/bombay-engine/src/driver.rs] and the port it drives,
    [environment.rs]: one closed Behavior and one environment, run by a causal
    loop over affine slots.

    Behavior and environment are arbitrary: an environment operation may leave
    the slots it borrows in any state, panic while it is constructed, polled or
    disposed of, or stay pending.  [drive_step] is one iteration of the loop of
    [drive]; it also reports the calls the iteration makes.  A pending operation
    suspends the driver; dropping [receive_run] there and receiving the driver
    again runs [drive_step] from the suspended state. *)

From S2P Require Import Prelude.

(** ** Data of the Behavior algebra, as the driver matches on it *)

Variant Step := Step_Continue | Step_Stop.

Variant SettlementStatus := Status_Accepted | Status_Rejected | Status_Corrupt.

Variant SourceCustody (S : Type) :=
  | Custody_Exhausted (settlement : S)
  | Custody_Retained (settlement : S)
  | Custody_Admitted (settlement : S)
  | Custody_Closed (settlement : S).
Arguments Custody_Exhausted {_} _.
Arguments Custody_Retained {_} _.
Arguments Custody_Admitted {_} _.
Arguments Custody_Closed {_} _.

Variant ControlFlow (B C : Type) := Continue (value : C) | Break (request : B).
Arguments Continue {_ _} _.
Arguments Break {_ _} _.

(** ** Data of the driver *)

Variant Completion (Request : Type) :=
  | Stopped
  | Exhausted
  | RetirementRequested (request : Request).
Arguments Stopped {_}.
Arguments Exhausted {_}.
Arguments RetirementRequested {_} _.

Variant SettlementFailure := Failure_Rejected | Failure_Corrupt | Failure_SourceClosed.

Variant DriverError (B A P : Type) :=
  | Error_Behavior (error : B)
  | Error_InitializationPanicked (payload : P)
  | Error_TransitionPanicked (payload : P)
  | Error_HostExecutionPanicked (payload : P)
  | Error_ActivationPanicked (payload : P)
  | Error_RetirementPanicked (payload : P)
  | Error_InterpreterContractFailed
  | Error_Activation (error : A)
  | Error_Settlement (failure : SettlementFailure).
Arguments Error_Behavior {_ _ _} _.
Arguments Error_InitializationPanicked {_ _ _} _.
Arguments Error_TransitionPanicked {_ _ _} _.
Arguments Error_HostExecutionPanicked {_ _ _} _.
Arguments Error_ActivationPanicked {_ _ _} _.
Arguments Error_RetirementPanicked {_ _ _} _.
Arguments Error_InterpreterContractFailed {_ _ _}.
Arguments Error_Activation {_ _ _} _.
Arguments Error_Settlement {_ _ _} _.

Variant SettlementTurn (S : Type) :=
  | Turn_Offer (settlement : S)
  | Turn_AwaitSource (settlement : S)
  | Turn_Retained (settlement : S).
Arguments Turn_Offer {_} _.
Arguments Turn_AwaitSource {_} _.
Arguments Turn_Retained {_} _.

Definition into_settlement {S} (turn : SettlementTurn S) : S :=
  match turn with
  | Turn_Offer settlement | Turn_AwaitSource settlement | Turn_Retained settlement => settlement
  end.

Definition is_retained {S} (turn : SettlementTurn S) : bool :=
  match turn with Turn_Retained _ => true | _ => false end.

Variant ExecutionPhase :=
  | Prepared
  | Activating
  | Initializing
  | SettlingInitialization
  | Active
  | Retiring
  | RetirementAttempted.

#[export] Instance ExecutionPhase_eq_dec : EqDecision ExecutionPhase.
Proof. solve_decision. Defined.

Definition is_Retiring (p : ExecutionPhase) : bool := match p with Retiring => true | _ => false end.
Definition is_Initializing (p : ExecutionPhase) : bool :=
  match p with Initializing => true | _ => false end.
Definition is_SettlingInitialization (p : ExecutionPhase) : bool :=
  match p with SettlingInitialization => true | _ => false end.

Variant ActionDecision := Decision_Continue | Decision_Stop.

Definition from_step (step : Step) : ActionDecision :=
  match step with Step_Continue => Decision_Continue | Step_Stop => Decision_Stop end.

(** [VecDeque::insert], which panics past the end, and [VecDeque::remove]. *)
Definition vec_insert {A} (index : nat) (x : A) (l : list A) : option (list A) :=
  if index <=? length l then Some (take index l ++ x :: drop index l) else panic!.
Definition vec_remove {A} (index : nat) (l : list A) : option (A * list A) :=
  x ← l !! index; Some (x, delete index l).

(** ** Host operations *)

(** How an asynchronous operation went: its constructor panicked; it is still
    pending; or it was polled to a reply or a panic, and disposing of the future
    panicked or not. *)
Variant HostRun (R P : Type) :=
  | Run_Constructor (payload : P)
  | Run_Pending
  | Run_Polled (reply : R + P) (disposal : option P).
Arguments Run_Constructor {_ _} _.
Arguments Run_Pending {_ _}.
Arguments Run_Polled {_ _} _ _.

(** [receive_operation] once it does not pend: the reply and the failures, in
    the order they were caught. *)
Definition receive_operation {R P} (run : HostRun R P) : option (option R * list P) :=
  match run with
  | Run_Constructor payload => Some (None, [payload])
  | Run_Pending => None
  | Run_Polled (inl reply) disposal => Some (Some reply, option_list disposal)
  | Run_Polled (inr payload) disposal => Some (None, payload :: option_list disposal)
  end.

(** A synchronous fold: the behavior it leaves, and its decision, rejection or
    panic. *)
Variant Folded (A E P : Type) :=
  | Folded_Actions (actions : A)
  | Folded_Error (error : E)
  | Folded_Panicked (payload : P).
Arguments Folded_Actions {_ _ _} _.
Arguments Folded_Error {_ _ _} _.
Arguments Folded_Panicked {_ _ _} _.

(** The Behavior, as the driver uses it. *)
Class BehaviorPort (B Event Actions Error P : Type) := {
  initialize : B → B * Folded Actions Error P;
  delegate_transition : B → Event → B * Folded Actions Error P;
  become_ : Actions → Step
}.

(** The environment port; [W] is whatever else the host keeps. *)
Class EnvironmentPort (W Env Act Actions Event S I Request Error Residual P : Type) := {
  activate : W → option Env → option Actions → option (Result (Act * I) (Error * Residual)) →
    W * (option Env * option Actions * option (Result (Act * I) (Error * Residual))) * HostRun () P;
  retire_prepared : W → option Env → option Actions → option Residual →
    W * (option Env * option Actions * option Residual) * HostRun () P;
  next : W → Act → W * Act * HostRun (ControlFlow Request (option Event)) P;
  next_source : W → Act → W * Act * HostRun (ControlFlow Request (option Event)) P;
  apply : W → Act → option Actions → option I → W * Act * (option Actions * option I) * HostRun () P;
  offer_next : W → Act → option S → option (SourceCustody S) →
    W * Act * (option S * option (SourceCustody S)) * HostRun () P;
  publish : W → Act → W * Act * (ControlFlow Request () + P);
  retire_active : W → option Act → option Actions → option I → option (SourceCustody S) →
    option nat → option (ControlFlow Request (option Event)) → option (list S) → option Residual →
    W * (option Act * option Actions * option I * option (SourceCustody S) * option nat *
         option (ControlFlow Request (option Event)) * option (list S) * option Residual) *
    HostRun () P;
  settlement_status : I → SettlementStatus + P;
  interpretation_settlement : I → S;
  drop_settlement : S → option P
}.

Section driver.
Context {B Event Actions BError W Env Act S I Request EError Residual P : Type}.
Context `{!BehaviorPort B Event Actions BError P}.
Context `{!EnvironmentPort W Env Act Actions Event S I Request EError Residual P}.

Record Driver := {
  behavior : B;
  environment : option Env;
  active : option Act;
  phase : ExecutionPhase;
  actions : option Actions;
  activation : option (Result (Act * I) (EError * Residual));
  interpretation : option I;
  source_input : option S;
  source_received : option (SourceCustody S);
  source_index : option nat;
  ingress : option (ControlFlow Request (option Event));
  decision : option ActionDecision;
  settlements : list (SettlementTurn S);
  retirement_input : option (list S);
  residual : option Residual;
  disposition : option (Result (Completion Request) (DriverError BError EError P));
  additional_failures : list (DriverError BError EError P)
}.
Implicit Types d : Driver.

Definition set_behavior (x : B) d : Driver :=
  Build_Driver x (environment d) (active d) (phase d) (actions d) (activation d)
    (interpretation d) (source_input d) (source_received d) (source_index d) (ingress d)
    (decision d) (settlements d) (retirement_input d) (residual d) (disposition d)
    (additional_failures d).
Definition set_environment (x : option Env) d : Driver :=
  Build_Driver (behavior d) x (active d) (phase d) (actions d) (activation d) (interpretation d)
    (source_input d) (source_received d) (source_index d) (ingress d) (decision d) (settlements d)
    (retirement_input d) (residual d) (disposition d) (additional_failures d).
Definition set_active (x : option Act) d : Driver :=
  Build_Driver (behavior d) (environment d) x (phase d) (actions d) (activation d)
    (interpretation d) (source_input d) (source_received d) (source_index d) (ingress d)
    (decision d) (settlements d) (retirement_input d) (residual d) (disposition d)
    (additional_failures d).
Definition set_phase (x : ExecutionPhase) d : Driver :=
  Build_Driver (behavior d) (environment d) (active d) x (actions d) (activation d)
    (interpretation d) (source_input d) (source_received d) (source_index d) (ingress d)
    (decision d) (settlements d) (retirement_input d) (residual d) (disposition d)
    (additional_failures d).
Definition set_actions (x : option Actions) d : Driver :=
  Build_Driver (behavior d) (environment d) (active d) (phase d) x (activation d)
    (interpretation d) (source_input d) (source_received d) (source_index d) (ingress d)
    (decision d) (settlements d) (retirement_input d) (residual d) (disposition d)
    (additional_failures d).
Definition set_activation (x : option (Result (Act * I) (EError * Residual))) d : Driver :=
  Build_Driver (behavior d) (environment d) (active d) (phase d) (actions d) x (interpretation d)
    (source_input d) (source_received d) (source_index d) (ingress d) (decision d) (settlements d)
    (retirement_input d) (residual d) (disposition d) (additional_failures d).
Definition set_interpretation (x : option I) d : Driver :=
  Build_Driver (behavior d) (environment d) (active d) (phase d) (actions d) (activation d) x
    (source_input d) (source_received d) (source_index d) (ingress d) (decision d) (settlements d)
    (retirement_input d) (residual d) (disposition d) (additional_failures d).
Definition set_source_input (x : option S) d : Driver :=
  Build_Driver (behavior d) (environment d) (active d) (phase d) (actions d) (activation d)
    (interpretation d) x (source_received d) (source_index d) (ingress d) (decision d)
    (settlements d) (retirement_input d) (residual d) (disposition d) (additional_failures d).
Definition set_source_received (x : option (SourceCustody S)) d : Driver :=
  Build_Driver (behavior d) (environment d) (active d) (phase d) (actions d) (activation d)
    (interpretation d) (source_input d) x (source_index d) (ingress d) (decision d)
    (settlements d) (retirement_input d) (residual d) (disposition d) (additional_failures d).
Definition set_source_index (x : option nat) d : Driver :=
  Build_Driver (behavior d) (environment d) (active d) (phase d) (actions d) (activation d)
    (interpretation d) (source_input d) (source_received d) x (ingress d) (decision d)
    (settlements d) (retirement_input d) (residual d) (disposition d) (additional_failures d).
Definition set_ingress (x : option (ControlFlow Request (option Event))) d : Driver :=
  Build_Driver (behavior d) (environment d) (active d) (phase d) (actions d) (activation d)
    (interpretation d) (source_input d) (source_received d) (source_index d) x (decision d)
    (settlements d) (retirement_input d) (residual d) (disposition d) (additional_failures d).
Definition set_decision (x : option ActionDecision) d : Driver :=
  Build_Driver (behavior d) (environment d) (active d) (phase d) (actions d) (activation d)
    (interpretation d) (source_input d) (source_received d) (source_index d) (ingress d) x
    (settlements d) (retirement_input d) (residual d) (disposition d) (additional_failures d).
Definition set_settlements (x : list (SettlementTurn S)) d : Driver :=
  Build_Driver (behavior d) (environment d) (active d) (phase d) (actions d) (activation d)
    (interpretation d) (source_input d) (source_received d) (source_index d) (ingress d)
    (decision d) x (retirement_input d) (residual d) (disposition d) (additional_failures d).
Definition set_retirement_input (x : option (list S)) d : Driver :=
  Build_Driver (behavior d) (environment d) (active d) (phase d) (actions d) (activation d)
    (interpretation d) (source_input d) (source_received d) (source_index d) (ingress d)
    (decision d) (settlements d) x (residual d) (disposition d) (additional_failures d).
Definition set_residual (x : option Residual) d : Driver :=
  Build_Driver (behavior d) (environment d) (active d) (phase d) (actions d) (activation d)
    (interpretation d) (source_input d) (source_received d) (source_index d) (ingress d)
    (decision d) (settlements d) (retirement_input d) x (disposition d) (additional_failures d).
Definition set_disposition (x : option (Result (Completion Request) (DriverError BError EError P))) d : Driver :=
  Build_Driver (behavior d) (environment d) (active d) (phase d) (actions d) (activation d)
    (interpretation d) (source_input d) (source_received d) (source_index d) (ingress d)
    (decision d) (settlements d) (retirement_input d) (residual d) x (additional_failures d).
Definition set_additional_failures (x : list (DriverError BError EError P)) d : Driver :=
  Build_Driver (behavior d) (environment d) (active d) (phase d) (actions d) (activation d)
    (interpretation d) (source_input d) (source_received d) (source_index d) (ingress d)
    (decision d) (settlements d) (retirement_input d) (residual d) (disposition d) x.

Definition Driver_new (b : B) (env : Env) : Driver :=
  {| behavior := b; environment := Some env; active := None; phase := Prepared; actions := None;
     activation := None; interpretation := None; source_input := None; source_received := None;
     source_index := None; ingress := None; decision := None; settlements := [];
     retirement_input := None; residual := None; disposition := None; additional_failures := [] |}.

(** The first terminal fact is the disposition; later errors are additional. *)
Definition reject (error : DriverError BError EError P) d : Driver :=
  set_phase Retiring
    match disposition d with
    | None => set_disposition (Some (Err error)) d
    | Some _ => set_additional_failures (additional_failures d ++ [error]) d
    end.

Definition complete (completion : Completion Request) d : Driver :=
  set_phase Retiring
    match disposition d with
    | None => set_disposition (Some (Ok completion)) d
    | Some _ => d
    end.

Definition receive_activation_failures (failures : list P) d : Driver :=
  foldl (λ d payload, reject (Error_ActivationPanicked payload) d) d failures.

Definition receive_execution_failures (failures : list P) d : Driver :=
  foldl (λ d payload, reject (Error_HostExecutionPanicked payload) d) d failures.

(** ** The loop *)

Variant LoopFlow := Loop_Again | Loop_Return | Loop_Suspended | Loop_Panicked.

(** What the driver asks of the behavior and the environment; a fold is recorded
    with the actions it decided. *)
Variant Call :=
  | Call_Initialize (decided : option Actions)
  | Call_Activate (offered : option Actions)
  | Call_Offer (settlement : option S)
  | Call_NextSource
  | Call_Publish
  | Call_Next
  | Call_Fold (event : Event) (decided : option Actions)
  | Call_Apply (offered : option Actions)
  | Call_RetirePrepared
  | Call_RetireActive (owned : option (list S)).

Record Iteration := { after : Driver; host : W; calls : list Call; flow : LoopFlow }.

Definition iterate d (w : W) (cs : list Call) : Iteration :=
  {| after := d; host := w; calls := cs; flow := Loop_Again |}.
Definition suspend d (w : W) (cs : list Call) : Iteration :=
  {| after := d; host := w; calls := cs; flow := Loop_Suspended |}.
Definition finish d (w : W) (cs : list Call) : Iteration :=
  {| after := d; host := w; calls := cs; flow := Loop_Return |}.
Definition unwind d (w : W) (cs : list Call) : Iteration :=
  {| after := d; host := w; calls := cs; flow := Loop_Panicked |}.

Definition decided (folded : Folded Actions BError P) : option Actions :=
  match folded with Folded_Actions a => Some a | _ => None end.

Definition prepared_turn d (w : W) : Iteration :=
  let d := set_phase Activating d in
  let '(b, folded) := initialize (behavior d) in
  let d := set_behavior b d in
  let d :=
    match folded with
    | Folded_Actions a => set_actions (Some a) (set_decision (Some (from_step (become_ a))) d)
    | Folded_Error error => reject (Error_Behavior error) d
    | Folded_Panicked payload => reject (Error_InitializationPanicked payload) d
    end in
  iterate d w [Call_Initialize (decided folded)].

(** [InterpreterContractFailed] unless a failure already rejected. *)
Definition contract_failed d : Driver :=
  if is_Retiring (phase d) then d else reject Error_InterpreterContractFailed d.

Definition is_some {A} (o : option A) : bool := match o with Some _ => true | None => false end.

Definition activating_turn d (w : W) : Iteration :=
  let cs := [Call_Activate (actions d)] in
  let '(w, (env, acts, act), run) := activate w (environment d) (actions d) (activation d) in
  let d := set_activation act (set_actions acts (set_environment env d)) in
  match receive_operation run with
  | None => suspend d w cs
  | Some (_, failures) =>
      if is_some env || is_some acts || negb (is_some act)
      then iterate (contract_failed (receive_activation_failures failures d)) w cs
      else
        let d := set_activation None d in
        let d :=
          match act with
          | Some (Ok (active, i)) =>
              let d := set_interpretation (Some i) (set_active (Some active) d) in
              if is_Retiring (phase d) then d else set_phase Initializing d
          | Some (Err (error, r)) => reject (Error_Activation error) (set_residual (Some r) d)
          | None => reject Error_InterpreterContractFailed d
          end in
        iterate (receive_activation_failures failures d) w cs
  end.

(** The acquired interpretation is classified and its settlement queued first;
    [false] is a [continue] of the loop. *)
Definition classify d : Driver * bool :=
  match interpretation d with
  | None => (d, true)
  | Some i =>
      match settlement_status i with
      | inr payload => (reject (Error_HostExecutionPanicked payload) d, false)
      | inl status =>
          let d := set_interpretation None d in
          let d := set_settlements (Turn_Offer (interpretation_settlement i) :: settlements d) d in
          let selected := decision d in
          let d := set_decision None d in
          match status, selected with
          | Status_Corrupt, _ => (reject (Error_Settlement Failure_Corrupt) d, false)
          | Status_Rejected, _ =>
              if is_Initializing (phase d) then (reject (Error_Settlement Failure_Rejected) d, false)
              else
                match selected with
                | Some Decision_Stop => (complete Stopped d, false)
                | Some Decision_Continue => (d, true)
                | None => (reject Error_InterpreterContractFailed d, false)
                end
          | Status_Accepted, Some Decision_Stop => (complete Stopped d, false)
          | Status_Accepted, Some Decision_Continue =>
              (if is_Initializing (phase d) then set_phase SettlingInitialization d else d, true)
          | Status_Accepted, None => (reject Error_InterpreterContractFailed d, false)
          end
      end
  end.

(** The reply of [offer_next], acquired before or now: the failures, [None]
    while it is pending. *)
Definition offer_operation d (w : W) (act : Act) : Driver * W * list Call * option (list P) :=
  match source_received d with
  | Some _ => (d, w, [], Some [])
  | None =>
      let '(w, act, (input, received), run) := offer_next w act (source_input d) None in
      (set_source_received received (set_source_input input (set_active (Some act) d)), w,
       [Call_Offer (source_input d)], snd <$> receive_operation run)
  end.

(** A row put back at its original position. *)
Definition insert_row (index : nat) (row : SettlementTurn S) d : option Driver :=
  l ← vec_insert index row (settlements d); Some (set_settlements l d).

(** What an acquired source reply does to the queue. *)
Definition receive_custody (index : nat) (custody : SourceCustody S) (failures : list P) d :
    option Driver :=
  match custody with
  | Custody_Exhausted settlement =>
      let d := receive_execution_failures failures d in
      Some match drop_settlement settlement with
           | Some payload => reject (Error_HostExecutionPanicked payload) d
           | None => d
           end
  | Custody_Retained settlement =>
      d ← insert_row index (Turn_Retained settlement) d; Some (receive_execution_failures failures d)
  | Custody_Admitted settlement =>
      d ← insert_row index (Turn_AwaitSource settlement) d;
      Some (receive_execution_failures failures d)
  | Custody_Closed settlement =>
      d ← insert_row index (Turn_Offer settlement) d;
      Some (receive_execution_failures failures (reject (Error_Settlement Failure_SourceClosed) d))
  end.

Definition offer_turn d (w : W) (act : Act) (index : nat) : Iteration :=
  let '(d, w, cs, failures) := offer_operation d w act in
  match failures with
  | None => suspend d w cs
  | Some failures =>
      match source_input d, source_received d with
      | None, Some custody =>
          let d := set_source_received None (set_source_index None d) in
          match receive_custody index custody failures d with
          | Some d => iterate d w cs
          | None => unwind d w cs
          end
      | _, _ => iterate (contract_failed (receive_execution_failures failures d)) w cs
      end
  end.

(** [receive_operation(.., &mut self.ingress)]: an ingress already acquired is
    not requested again.  The failures, [None] while it is pending. *)
Definition request (call : Call)
    (operation : W → Act → W * Act * HostRun (ControlFlow Request (option Event)) P)
    d (w : W) (act : Act) : Driver * W * list Call * option (list P) :=
  match ingress d with
  | Some _ => (d, w, [], Some [])
  | None =>
      let '(w, act, run) := operation w act in
      let d := set_active (Some act) d in
      match receive_operation run with
      | None => (d, w, [call], None)
      | Some (reply, failures) => (set_ingress reply d, w, [call], Some failures)
      end
  end.

(** [apply] on the decided actions. *)
Definition apply_turn d (w : W) (cs : list Call) : Iteration :=
  match active d with
  | None => iterate (reject Error_InterpreterContractFailed d) w cs
  | Some act =>
      let cs := cs ++ [Call_Apply (actions d)] in
      let '(w, act, (acts, i), run) := apply w act (actions d) (interpretation d) in
      let d := set_interpretation i (set_actions acts (set_active (Some act) d)) in
      match receive_operation run with
      | None => suspend d w cs
      | Some (_, failures) =>
          let d := receive_execution_failures failures d in
          iterate
            (if (is_some acts || negb (is_some i)) && negb (is_Retiring (phase d))
             then reject Error_InterpreterContractFailed d else d) w cs
      end
  end.

(** The acquired ingress is folded into the behavior and its actions applied. *)
Definition fold_turn d (w : W) (cs : list Call) : Iteration :=
  let acquired := ingress d in
  let d := set_ingress None d in
  match acquired with
  | Some (Continue (Some event)) =>
      let '(b, folded) := delegate_transition (behavior d) event in
      let d := set_behavior b d in
      let cs := cs ++ [Call_Fold event (decided folded)] in
      match folded with
      | Folded_Actions a =>
          apply_turn (set_actions (Some a) (set_decision (Some (from_step (become_ a))) d)) w cs
      | Folded_Error error => iterate (reject (Error_Behavior error) d) w cs
      | Folded_Panicked payload => iterate (reject (Error_TransitionPanicked payload) d) w cs
      end
  | Some (Continue None) => iterate (complete Exhausted d) w cs
  | Some (Break request) => iterate (complete (RetirementRequested request) d) w cs
  | None => iterate (reject Error_InterpreterContractFailed d) w cs
  end.

(** The row that progresses next: the first that is not retained. *)
Definition next_row d : option (nat * SettlementTurn S) :=
  list_find (λ turn, is_retained turn = false) (settlements d).

(** An admitted source: its control event is acquired before the older row. *)
Definition await_source_turn (index : nat) (settlement : S) d (w : W) (act : Act) : Iteration :=
  match insert_row index (Turn_Offer settlement) d with
  | None => unwind d w []
  | Some d =>
      let '(d, w, cs, failures) := request Call_NextSource next_source d w act in
      match failures with
      | None => suspend d w cs
      | Some failures =>
          let d :=
            match ingress d with
            | Some (Continue None) =>
                reject (Error_Settlement Failure_SourceClosed) (set_ingress None d)
            | _ => d
            end in
          let d := receive_execution_failures failures d in
          if is_Retiring (phase d) then iterate d w cs
          else if negb (is_some (ingress d)) then iterate (reject Error_InterpreterContractFailed d) w cs
          else fold_turn d w cs
      end
  end.

Definition publish_turn d (w : W) (act : Act) : Iteration :=
  let '(w, act, publication) := publish w act in
  let d := set_active (Some act) d in
  iterate
    match publication with
    | inl (Continue _) => set_phase Active d
    | inl (Break request) => complete (RetirementRequested request) d
    | inr payload => reject (Error_HostExecutionPanicked payload) d
    end w [Call_Publish].

Definition ordinary_turn d (w : W) (act : Act) : Iteration :=
  let '(d, w, cs, failures) := request Call_Next next d w act in
  match failures with
  | None => suspend d w cs
  | Some failures =>
      let d := receive_execution_failures failures d in
      if is_Retiring (phase d) then iterate d w cs else fold_turn d w cs
  end.

Definition settle_turn d (w : W) (act : Act) : Iteration :=
  match next_row d with
  | Some (index, row) =>
      match vec_remove index (settlements d), row with
      | None, _ => unwind d w []
      | Some (_, rest), Turn_Offer settlement =>
          iterate (set_source_input (Some settlement) (set_source_index (Some index)
            (set_settlements rest d))) w []
      | Some (_, rest), Turn_AwaitSource settlement =>
          await_source_turn index settlement (set_settlements rest d) w act
      | Some _, Turn_Retained _ => unwind d w []
      end
  | None =>
      if is_SettlingInitialization (phase d) then publish_turn d w act else ordinary_turn d w act
  end.

Definition running_turn d (w : W) : Iteration :=
  let '(d, classified) := classify d in
  if negb classified then iterate d w []
  else
    match active d with
    | None => iterate (reject Error_InterpreterContractFailed d) w []
    | Some act =>
        match source_index d with
        | Some index => offer_turn d w act index
        | None => settle_turn d w act
        end
    end.

(** The rows still owned move to the retirement input, the one on offer at its
    original position. *)
Definition gather_retirement d : option Driver :=
  match retirement_input d, active d with
  | None, Some _ =>
      d ← match source_input d, source_index d with
          | Some settlement, Some index =>
              insert_row index (Turn_Retained settlement)
                (set_source_index None (set_source_input None d))
          | _, _ => Some d
          end;
      Some (set_retirement_input (Some (map into_settlement (settlements d))) (set_settlements [] d))
  | _, _ => Some d
  end.

Definition receive_retirement_failures (failures : list P) d : Driver :=
  set_additional_failures
    (additional_failures d ++ map (λ payload, Error_RetirementPanicked payload) failures) d.

Definition retire_prepared_turn d (w : W) : Iteration :=
  let d := set_phase RetirementAttempted d in
  let '(w, (env, acts, r), run) := retire_prepared w (environment d) (actions d) (residual d) in
  let d := set_residual r (set_actions acts (set_environment env d)) in
  match receive_operation run with
  | None => suspend d w [Call_RetirePrepared]
  | Some (_, failures) => finish (receive_retirement_failures failures d) w [Call_RetirePrepared]
  end.

Definition retire_active_turn d (w : W) : Iteration :=
  let d := set_phase RetirementAttempted d in
  let cs := [Call_RetireActive (retirement_input d)] in
  let '(w, (act, acts, i, received, index, ing, owned, r), run) :=
    retire_active w (active d) (actions d) (interpretation d) (source_received d) (source_index d)
      (ingress d) (retirement_input d) (residual d) in
  let d := set_residual r (set_retirement_input owned (set_ingress ing (set_source_index index
    (set_source_received received (set_interpretation i (set_actions acts (set_active act d))))))) in
  match receive_operation run with
  | None => suspend d w cs
  | Some (_, failures) => finish (receive_retirement_failures failures d) w cs
  end.

Definition retiring_turn d (w : W) : Iteration :=
  if is_some (source_input d) && is_some (source_received d) then finish d w []
  else
    match gather_retirement d with
    | None => unwind d w []
    | Some d =>
        match environment d, active d, residual d with
        | Some _, None, None => retire_prepared_turn d w
        | None, Some _, None => retire_active_turn d w
        | _, _, _ => finish d w []
        end
    end.

Definition drive_step d (w : W) : Iteration :=
  match phase d with
  | Prepared => prepared_turn d w
  | Activating => activating_turn d w
  | Initializing | SettlingInitialization | Active => running_turn d w
  | Retiring => retiring_turn d w
  | RetirementAttempted => finish d w []
  end.

(** [drive], bounded: the iteration that left the loop and every call made. *)
Fixpoint drive (fuel : nat) d (w : W) : option (list Call * Iteration) :=
  match fuel with
  | 0 => None
  | Datatypes.S fuel =>
      let it := drive_step d w in
      match flow it with
      | Loop_Again => '(cs, last) ← drive fuel (after it) (host it); Some (calls it ++ cs, last)
      | _ => Some (calls it, it)
      end
  end.

(** ** Receiving *)

Record DriverRetirement := {
  retired_behavior : B;
  retired_residual : Residual;
  retired_disposition : Result (Completion Request) (DriverError BError EError P);
  retired_failures : list (DriverError BError EError P)
}.

Definition ready d : bool :=
  negb (is_some (environment d)) && negb (is_some (active d)) && negb (is_some (actions d)) &&
  negb (is_some (activation d)) && negb (is_some (interpretation d)) &&
  negb (is_some (source_input d)) && negb (is_some (source_received d)) &&
  negb (is_some (source_index d)) && bool_decide (length (settlements d) = 0) &&
  negb (is_some (ingress d)) && negb (is_some (retirement_input d)) && is_some (residual d) &&
  is_some (disposition d).

(** What [receive_run] hands over once [drive] returned. *)
Definition receive_owner d : Result DriverRetirement Driver :=
  if ready d then
    match residual d, disposition d with
    | Some r, Some disposition =>
        Ok {| retired_behavior := behavior d; retired_residual := r;
              retired_disposition := disposition; retired_failures := additional_failures d |}
    | _, _ => Err d
    end
  else Err d.

(** [receive_run] on its two outside slots; [None] is a suspension, a panic or
    too little fuel. *)
Definition receive_run (fuel : nat) (driver : option Driver)
    (received : option (Result DriverRetirement Driver)) (w : W) :
    option (option Driver * option (Result DriverRetirement Driver) * list Call * W) :=
  match received, driver with
  | Some _, _ | None, None => Some (driver, received, [], w)
  | None, Some owner =>
      '(cs, last) ← drive fuel owner w;
      match flow last with
      | Loop_Return => Some (None, Some (receive_owner (after last)), cs, host last)
      | _ => None
      end
  end.

(** [run]. *)
Definition run (fuel : nat) d (w : W) : option (Result DriverRetirement Driver) :=
  '(_, received, _, _) ← receive_run fuel (Some d) None w; received.
End driver.

(** ** Runs *)

Section runs.
Context {B Event Actions BError W Env Act S I Request EError Residual P : Type}.
Context `{!BehaviorPort B Event Actions BError P}.
Context `{!EnvironmentPort W Env Act Actions Event S I Request EError Residual P}.

Abbreviation driver := (@Driver B Event Actions BError Env Act S I Request EError Residual P)
  (only parsing).
Implicit Types (d : driver) (w : W).

(** The iterations of one uninterrupted [drive]. *)
Inductive reaches : driver → W → list Call → driver → W → Prop :=
  | reaches_refl d w : reaches d w [] d w
  | reaches_step d w cs d' w' :
      flow (drive_step d w) = Loop_Again →
      reaches (after (drive_step d w)) (host (drive_step d w)) cs d' w' →
      reaches d w (calls (drive_step d w) ++ cs) d' w'.

Lemma reaches_iterate d w d1 w1 cs cs' d' w' :
  drive_step d w = iterate d1 w1 cs → reaches d1 w1 cs' d' w' → reaches d w (cs ++ cs') d' w'.
Proof. intros Hs Hr. pose proof (reaches_step d w cs' d' w') as H. rewrite Hs in H. by apply H. Qed.

Lemma reaches_trans d w cs d1 w1 cs' d2 w2 :
  reaches d w cs d1 w1 → reaches d1 w1 cs' d2 w2 → reaches d w (cs ++ cs') d2 w2.
Proof.
  induction 1 as [|d w cs d1 w1 Hf _ IH]; intros H2; [done|].
  rewrite <-app_assoc. constructor; [done|by apply IH].
Qed.

(** An iteration after which the loop goes on to the given state. *)
Definition leads (it : Iteration) d' w' : Prop :=
  flow it = Loop_Again ∧ ∃ cs, reaches (after it) (host it) cs d' w'.

Lemma leads_iterate d w cs d' w' : (∃ cs', reaches d w cs' d' w') → leads (iterate d w cs) d' w'.
Proof. intros H. by split. Qed.

Lemma leads_reaches d w d' w' : leads (drive_step d w) d' w' → ∃ cs, reaches d w cs d' w'.
Proof. intros [Hf [cs Hr]]. eexists. by apply reaches_step. Qed.

Lemma reaches_leads d w cs d1 w1 d2 w2 :
  reaches d w cs d1 w1 → leads (drive_step d1 w1) d2 w2 → ∃ cs, reaches d w cs d2 w2.
Proof. intros H1 [cs' H2]%leads_reaches. eexists. by eapply reaches_trans. Qed.

Lemma leads_trans it d1 w1 d2 w2 :
  leads it d1 w1 → leads (drive_step d1 w1) d2 w2 → leads it d2 w2.
Proof. intros [Hf [cs Hr]] Hl. split; [done|]. by eapply reaches_leads. Qed.

(** Enough fuel follows the run to its end, and more changes nothing. *)
Lemma drive_reaches d w cs d' w' :
  reaches d w cs d' w' → flow (drive_step d' w') ≠ Loop_Again →
  ∃ fuel, ∀ fuel', fuel ≤ fuel' →
    drive fuel' d w = Some (cs ++ calls (drive_step d' w'), drive_step d' w').
Proof.
  induction 1 as [d w|d w cs d' w' Hf _ IH]; intros Hend.
  - exists 1. intros fuel' Hle. destruct fuel' as [|fuel']; [lia|]. simpl.
    by destruct (flow (drive_step d w)).
  - destruct (IH Hend) as [fuel Hfuel]. exists (Datatypes.S fuel). intros fuel' Hle.
    destruct fuel' as [|fuel']; [lia|]. simpl. rewrite Hf, Hfuel by lia. simpl. by rewrite app_assoc.
Qed.

(** One fold, by its outcome. *)
Lemma fold_turn_error d w cs event b error :
  ingress d = Some (Continue (Some event)) →
  delegate_transition (behavior d) event = (b, Folded_Error error) →
  fold_turn d w cs =
    iterate (reject (Error_Behavior error) (set_behavior b (set_ingress None d))) w
      (cs ++ [Call_Fold event None]).
Proof. intros Hi Hf. unfold fold_turn. rewrite Hi. cbn [behavior set_ingress]. by rewrite Hf. Qed.

Lemma fold_turn_actions d w cs event b a :
  ingress d = Some (Continue (Some event)) →
  delegate_transition (behavior d) event = (b, Folded_Actions a) →
  fold_turn d w cs =
    apply_turn (set_actions (Some a) (set_decision (Some (from_step (become_ a)))
      (set_behavior b (set_ingress None d)))) w (cs ++ [Call_Fold event (Some a)]).
Proof. intros Hi Hf. unfold fold_turn. rewrite Hi. cbn [behavior set_ingress]. by rewrite Hf. Qed.

(** An application that hands back no actions and an interpretation. *)
Lemma apply_turn_interpreted d w w' cs act act' i :
  active d = Some act → phase d ≠ Retiring →
  apply w act (actions d) (interpretation d) = (w', act', (None, Some i), Run_Polled (inl ()) None) →
  apply_turn d w cs =
    iterate (set_interpretation (Some i) (set_actions None (set_active (Some act') d))) w'
      (cs ++ [Call_Apply (actions d)]).
Proof. intros Ha Hp Hr. unfold apply_turn. rewrite Ha, Hr. reflexivity. Qed.
End runs.
