(* ===== verification/DriverModel.v ===== *)
(** * The causal model of the driver

    [crates/bombay-engine/tests/driver_property.rs]: a scripted behavior and
    environment, the independent model [expected] of a script's execution, and
    the proof that the driver (Driver.v) executes every script the way the
    model says. *)

From S2P Require Import Prelude Driver.

(** ** Scripts *)

Variant ActorDecision := Decide_Continue | Decide_Stop | Decide_Fail.

#[export] Instance ActorDecision_eq_dec : EqDecision ActorDecision.
Proof. solve_decision. Defined.

Inductive PlannedTurn :=
  | mk_PlannedTurn (id : N) (decision : ActorDecision) (settlement : SettlementStatus)
      (source : SourceChoice) (first second : N) (child : option N)
with SourceChoice :=
  | Source_Exhaust
  | Source_Retain
  | Source_Admit (turn : PlannedTurn)
  | Source_AdmitMissing
  | Source_Close.

(** [PartialEq], as derived. *)
Definition status_eqb (a b : SettlementStatus) : bool :=
  match a, b with
  | Status_Accepted, Status_Accepted | Status_Rejected, Status_Rejected
  | Status_Corrupt, Status_Corrupt => true
  | _, _ => false
  end.

Fixpoint turn_eqb (a b : PlannedTurn) : bool :=
  match a, b with
  | mk_PlannedTurn id decision settlement source first second child,
    mk_PlannedTurn id' decision' settlement' source' first' second' child' =>
      bool_decide (id = id') && bool_decide (decision = decision') &&
      status_eqb settlement settlement' && source_eqb source source' &&
      bool_decide (first = first') && bool_decide (second = second') && bool_decide (child = child')
  end
with source_eqb (a b : SourceChoice) : bool :=
  match a, b with
  | Source_Exhaust, Source_Exhaust | Source_Retain, Source_Retain
  | Source_AdmitMissing, Source_AdmitMissing | Source_Close, Source_Close => true
  | Source_Admit t, Source_Admit t' => turn_eqb t t'
  | _, _ => false
  end.

Definition turn_id (t : PlannedTurn) : N := let '(mk_PlannedTurn id _ _ _ _ _ _) := t in id.
Definition turn_decision (t : PlannedTurn) : ActorDecision :=
  let '(mk_PlannedTurn _ decision _ _ _ _ _) := t in decision.
Definition turn_settlement (t : PlannedTurn) : SettlementStatus :=
  let '(mk_PlannedTurn _ _ settlement _ _ _ _) := t in settlement.
Definition turn_source (t : PlannedTurn) : SourceChoice :=
  let '(mk_PlannedTurn _ _ _ source _ _ _) := t in source.
Definition turn_first (t : PlannedTurn) : N := let '(mk_PlannedTurn _ _ _ _ first _ _) := t in first.
Definition turn_second (t : PlannedTurn) : N := let '(mk_PlannedTurn _ _ _ _ _ second _) := t in second.
Definition turn_child (t : PlannedTurn) : option N :=
  let '(mk_PlannedTurn _ _ _ _ _ _ child) := t in child.

Variant ActivationChoice := Choice_Establish | Choice_Fail.

Record Script := {
  initialization : PlannedTurn;
  script_activation : ActivationChoice;
  ordinary : list PlannedTurn
}.

Variant Ingress := Ingress_Ordinary (id : N) | Ingress_Source (id : N).

Variant ExecutionEvent :=
  | ActivationFailed
  | Created (child : N)
  | SentFirst (first : N)
  | SentSecond (second : N)
  | Published
  | RequestedOrdinary
  | RequestedSource
  | Offered (id : N)
  | Retired (ids : list N)
  | PreparedRetired.

Variant ScriptError := DecisionFailed.
Variant ScriptActivationError := ScriptActivationFailed.

Abbreviation ScriptDriverError := (DriverError ScriptError ScriptActivationError ()) (only parsing).
Abbreviation Disposition :=
  (Result (Completion Empty_set) (DriverError ScriptError ScriptActivationError ())) (only parsing).

(** ** The causal model *)

Record CausalModel := {
  model_trace : list ExecutionEvent;
  model_inputs : list Ingress;
  pending : list N
}.

Variant ModelEnd := ModelEnd_Stopped | ModelEnd_Failure (error : ScriptDriverError).

Definition model_push (e : ExecutionEvent) (m : CausalModel) : CausalModel :=
  {| model_trace := model_trace m ++ [e]; model_inputs := model_inputs m; pending := pending m |}.

Definition model_commit (t : PlannedTurn) (m : CausalModel) : CausalModel :=
  let m := match turn_child t with Some child => model_push (Created child) m | None => m end in
  let m := model_push (SentSecond (turn_second t)) (model_push (SentFirst (turn_first t)) m) in
  {| model_trace := model_trace m; model_inputs := model_inputs m; pending := turn_id t :: pending m |}.

(** [None] is the panic of [expect]. *)
Definition discharge (id : N) (m : CausalModel) : option CausalModel :=
  '(index, _) ← list_find (λ p, p = id) (pending m);
  Some {| model_trace := model_trace m; model_inputs := model_inputs m;
          pending := delete index (pending m) |}.

Definition model_failure (failure : SettlementFailure) : ModelEnd :=
  ModelEnd_Failure (Error_Settlement failure).

Fixpoint model_decision (t : PlannedTurn) (ingress : Ingress) (m : CausalModel) :
    option (CausalModel * Result () ModelEnd) :=
  match t with
  | mk_PlannedTurn id decision settlement source first second child =>
      let m := {| model_trace := model_trace m; model_inputs := model_inputs m ++ [ingress];
                  pending := pending m |} in
      match decision with
      | Decide_Fail => Some (m, Err (ModelEnd_Failure (Error_Behavior DecisionFailed)))
      | Decide_Continue | Decide_Stop =>
          let m := model_commit (mk_PlannedTurn id decision settlement source first second child) m in
          match settlement, decision with
          | Status_Corrupt, _ => Some (m, Err (model_failure Failure_Corrupt))
          | _, Decide_Stop => Some (m, Err ModelEnd_Stopped)
          | _, _ => offer_source id source m
          end
      end
  end
with offer_source (id : N) (source : SourceChoice) (m : CausalModel) :
    option (CausalModel * Result () ModelEnd) :=
  let m := model_push (Offered id) m in
  match source with
  | Source_Exhaust => m ← discharge id m; Some (m, Ok ())
  | Source_Retain => Some (m, Ok ())
  | Source_Close => Some (m, Err (model_failure Failure_SourceClosed))
  | Source_AdmitMissing =>
      Some (model_push RequestedSource m, Err (model_failure Failure_SourceClosed))
  | Source_Admit t =>
      '(m, r) ← model_decision t (Ingress_Source (turn_id t)) (model_push RequestedSource m);
      match r with
      | Err e => Some (m, Err e)
      | Ok () => m ← discharge id (model_push (Offered id) m); Some (m, Ok ())
      end
  end.

Definition model_offer (t : PlannedTurn) : CausalModel → option (CausalModel * Result () ModelEnd) :=
  offer_source (turn_id t) (turn_source t).

Fixpoint model_ordinary (l : list PlannedTurn) (m : CausalModel) :
    option (CausalModel * Result (Completion Empty_set) ModelEnd) :=
  let m := model_push RequestedOrdinary m in
  match l with
  | [] => Some (m, Ok Exhausted)
  | t :: l =>
      '(m, r) ← model_decision t (Ingress_Ordinary (turn_id t)) m;
      match r with
      | Ok () => model_ordinary l m
      | Err e => Some (m, Err e)
      end
  end.

Definition model_outcome (script : Script) (m : CausalModel) :
    option (CausalModel * Result (Completion Empty_set) ModelEnd) :=
  let initial := initialization script in
  match turn_settlement initial, turn_decision initial with
  | Status_Rejected, _ => Some (m, Err (model_failure Failure_Rejected))
  | Status_Corrupt, _ => Some (m, Err (model_failure Failure_Corrupt))
  | Status_Accepted, Decide_Stop => Some (m, Err ModelEnd_Stopped)
  | Status_Accepted, Decide_Continue =>
      '(m, r) ← model_offer initial m;
      match r with
      | Err e => Some (m, Err e)
      | Ok () => model_ordinary (ordinary script) (model_push Published m)
      end
  | Status_Accepted, Decide_Fail => panic!
  end.

Definition expected (script : Script) : option (Disposition * list Ingress * list ExecutionEvent) :=
  let m := {| model_trace := []; model_inputs := []; pending := [] |} in
  let initial := initialization script in
  match turn_decision initial, script_activation script with
  | Decide_Fail, _ =>
      Some (Err (Error_Behavior DecisionFailed), model_inputs m, model_trace (model_push PreparedRetired m))
  | _, Choice_Fail =>
      Some (Err (Error_Activation ScriptActivationFailed), model_inputs m,
            model_trace (model_push ActivationFailed m))
  | _, Choice_Establish =>
      '(m, outcome) ← model_outcome script (model_commit initial m);
      let m := model_push (Retired (pending m)) m in
      Some (match outcome with
            | Ok completion => Ok completion
            | Err ModelEnd_Stopped => Ok Stopped
            | Err (ModelEnd_Failure error) => Err error
            end, model_inputs m, model_trace m)
  end.

(** ** The scripted behavior and environment *)

Record Directive := {
  directive_id : N;
  directive_settlement : SettlementStatus;
  directive_source : SourceChoice;
  directive_first : N
}.

Variant ScriptEvent := Event_Owned (turn : PlannedTurn) | Event_Inner (turn : PlannedTurn).

Section script.
(** [CreationSequence::issue]: the creation identities are opaque. *)
Context {Sequence CreationId : Type} (issue : Sequence → CreationId * Sequence).

Record ScriptActions := {
  owned : list Directive;
  inner : list N;
  creates : list (CreationId * N);
  script_step : Step
}.

Record ScriptBehavior := {
  script_initialization : PlannedTurn;
  creations : Sequence;
  delivered_inputs : list Ingress
}.

Definition script_actions (t : PlannedTurn) (b : ScriptBehavior) :
    ScriptBehavior * Folded ScriptActions ScriptError () :=
  match turn_decision t with
  | Decide_Fail => (b, Folded_Error DecisionFailed)
  | Decide_Continue | Decide_Stop =>
      let '(b, creates) :=
        match turn_child t with
        | Some child =>
            let '(id, sequence) := issue (creations b) in
            ({| script_initialization := script_initialization b; creations := sequence;
                delivered_inputs := delivered_inputs b |}, [(id, child)])
        | None => (b, [])
        end in
      (b, Folded_Actions
        {| owned := [{| directive_id := turn_id t; directive_settlement := turn_settlement t;
                        directive_source := turn_source t; directive_first := turn_first t |}];
           inner := [turn_second t]; creates := creates;
           script_step := match turn_decision t with Decide_Stop => Step_Stop | _ => Step_Continue end |})
  end.

Definition script_init (b : ScriptBehavior) : ScriptBehavior * Folded ScriptActions ScriptError () :=
  script_actions (script_initialization b) b.

Definition script_transition (b : ScriptBehavior) (event : ScriptEvent) :
    ScriptBehavior * Folded ScriptActions ScriptError () :=
  let '(ingress, t) :=
    match event with
    | Event_Owned t => (Ingress_Source (turn_id t), t)
    | Event_Inner t => (Ingress_Ordinary (turn_id t), t)
    end in
  script_actions t
    {| script_initialization := script_initialization b; creations := creations b;
       delivered_inputs := delivered_inputs b ++ [ingress] |}.

#[export] Instance script_behavior_port :
    BehaviorPort ScriptBehavior ScriptEvent ScriptActions ScriptError () :=
  {| initialize := script_init; delegate_transition := script_transition; become_ := script_step |}.

Record ScriptEnvironment := {
  env_activation : ActivationChoice;
  env_ordinary : list PlannedTurn;
  env_source : list PlannedTurn;
  execution_trace : list ExecutionEvent
}.

Record ScriptSettlement := {
  settlement_id : N;
  status : SettlementStatus;
  settlement_source : SourceChoice
}.

Variant ScriptInterpretation :=
  | Interpretation_Complete (settlement : ScriptSettlement)
  | Interpretation_Corrupt (settlement : ScriptSettlement).

Definition interpreted (i : ScriptInterpretation) : ScriptSettlement :=
  match i with Interpretation_Complete s | Interpretation_Corrupt s => s end.

Definition set_trace (l : list ExecutionEvent) (e : ScriptEnvironment) : ScriptEnvironment :=
  {| env_activation := env_activation e; env_ordinary := env_ordinary e;
     env_source := env_source e; execution_trace := l |}.
Definition env_push (event : ExecutionEvent) (e : ScriptEnvironment) : ScriptEnvironment :=
  set_trace (execution_trace e ++ [event]) e.

(** [None] is a panic of [expect] or [assert!]. *)
Definition commit (acts : ScriptActions) (e : ScriptEnvironment) :
    ScriptEnvironment * option ScriptInterpretation :=
  let e := set_trace (execution_trace e ++ map (λ c, Created c.2) (creates acts)) e in
  match owned acts with
  | [directive] =>
      let e := env_push (SentFirst (directive_first directive)) e in
      let e := set_trace (execution_trace e ++ map SentSecond (inner acts)) e in
      let settlement :=
        {| settlement_id := directive_id directive; status := directive_settlement directive;
           settlement_source := directive_source directive |} in
      (e, Some match directive_settlement directive with
               | Status_Accepted | Status_Rejected => Interpretation_Complete settlement
               | Status_Corrupt => Interpretation_Corrupt settlement
               end)
  | _ => (e, panic!)
  end.

Abbreviation ScriptResidual := (list ExecutionEvent * option ScriptActions)%type (only parsing).

Abbreviation ScriptActivated :=
  (Result (ScriptEnvironment * ScriptInterpretation)
    (ScriptActivationError * (list ExecutionEvent * option ScriptActions)))
  (only parsing).

Definition completes {R} (reply : R) : HostRun R () := Run_Polled (inl reply) None.
Definition panics {R} : HostRun R () := Run_Polled (inr ()) None.

Definition script_activate (w : ()) (environment : option ScriptEnvironment)
    (acts : option ScriptActions) (received : option ScriptActivated) :
    () * (option ScriptEnvironment * option ScriptActions * option ScriptActivated) * HostRun () () :=
  match received, environment with
  | Some _, _ | None, None => (w, (environment, acts, received), completes ())
  | None, Some original =>
      match env_activation original with
      | Choice_Establish =>
          match acts with
          | None => (w, (environment, None, received), completes ())
          | Some actions =>
              let '(original, settlement) := commit actions original in
              match settlement with
              | None => (w, (Some original, None, None), panics)
              | Some settlement => (w, (None, None, Some (Ok (original, settlement))), completes ())
              end
          end
      | Choice_Fail =>
          let original := env_push ActivationFailed original in
          (w, (None, None, Some (Err (ScriptActivationFailed, (execution_trace original, acts)))),
           completes ())
      end
  end.

Definition script_retire_prepared (w : ()) (environment : option ScriptEnvironment)
    (acts : option ScriptActions) (received : option ScriptResidual) :
    () * (option ScriptEnvironment * option ScriptActions * option ScriptResidual) * HostRun () () :=
  match received, environment with
  | Some _, _ | None, None => (w, (environment, acts, received), completes ())
  | None, Some original =>
      let original := env_push PreparedRetired original in
      (w, (None, None, Some (execution_trace original, acts)), completes ())
  end.

Definition script_next (w : ()) (e : ScriptEnvironment) :
    () * ScriptEnvironment * HostRun (ControlFlow Empty_set (option ScriptEvent)) () :=
  let e := env_push RequestedOrdinary e in
  match env_ordinary e with
  | [] => (w, e, completes (Continue None))
  | t :: l =>
      (w, {| env_activation := env_activation e; env_ordinary := l; env_source := env_source e;
             execution_trace := execution_trace e |}, completes (Continue (Some (Event_Inner t))))
  end.

Definition script_next_source (w : ()) (e : ScriptEnvironment) :
    () * ScriptEnvironment * HostRun (ControlFlow Empty_set (option ScriptEvent)) () :=
  let e := env_push RequestedSource e in
  match env_source e with
  | [] => (w, e, completes (Continue None))
  | t :: l =>
      (w, {| env_activation := env_activation e; env_ordinary := env_ordinary e; env_source := l;
             execution_trace := execution_trace e |}, completes (Continue (Some (Event_Owned t))))
  end.

Definition script_apply (w : ()) (e : ScriptEnvironment) (acts : option ScriptActions)
    (received : option ScriptInterpretation) :
    () * ScriptEnvironment * (option ScriptActions * option ScriptInterpretation) * HostRun () () :=
  match received, acts with
  | Some _, _ | None, None => (w, e, (acts, received), completes ())
  | None, Some actions =>
      let '(e, i) := commit actions e in
      match i with
      | None => (w, e, (None, None), panics)
      | Some i => (w, e, (None, Some i), completes ())
      end
  end.

Definition script_offer_next (w : ()) (e : ScriptEnvironment) (settlement : option ScriptSettlement)
    (received : option (SourceCustody ScriptSettlement)) :
    () * ScriptEnvironment * (option ScriptSettlement * option (SourceCustody ScriptSettlement)) *
    HostRun () () :=
  match received, settlement with
  | Some _, _ | None, None => (w, e, (settlement, received), completes ())
  | None, Some s =>
      let e := env_push (Offered (settlement_id s)) e in
      let rest := {| settlement_id := settlement_id s; status := status s;
                     settlement_source := Source_Exhaust |} in
      let '(e, offered) :=
        match settlement_source s with
        | Source_Exhaust => (e, Custody_Exhausted rest)
        | Source_Retain => (e, Custody_Retained rest)
        | Source_Admit t =>
            ({| env_activation := env_activation e; env_ordinary := env_ordinary e;
                env_source := env_source e ++ [t]; execution_trace := execution_trace e |},
             Custody_Admitted rest)
        | Source_AdmitMissing => (e, Custody_Admitted rest)
        | Source_Close => (e, Custody_Closed rest)
        end in
      (w, e, (None, Some offered), completes ())
  end.

Definition script_publish (w : ()) (e : ScriptEnvironment) :
    () * ScriptEnvironment * (ControlFlow Empty_set () + ()) :=
  (w, env_push Published e, inl (Continue ())).

Definition script_retire_active (w : ()) (environment : option ScriptEnvironment)
    (acts : option ScriptActions) (i : option ScriptInterpretation)
    (source : option (SourceCustody ScriptSettlement)) (index : option nat)
    (ingress : option (ControlFlow Empty_set (option ScriptEvent)))
    (settlements : option (list ScriptSettlement)) (received : option ScriptResidual) :
    () * (option ScriptEnvironment * option ScriptActions * option ScriptInterpretation *
          option (SourceCustody ScriptSettlement) * option nat *
          option (ControlFlow Empty_set (option ScriptEvent)) * option (list ScriptSettlement) *
          option ScriptResidual) * HostRun () () :=
  match received, i, source, index, ingress, environment, settlements with
  | None, None, None, None, None, Some original, Some rows =>
      let original := env_push (Retired (map settlement_id rows)) original in
      (w, (None, None, None, None, None, None, None, Some (execution_trace original, acts)),
       completes ())
  | _, _, _, _, _, _, _ =>
      (w, (environment, acts, i, source, index, ingress, settlements, received), completes ())
  end.

#[export] Instance script_environment_port :
    EnvironmentPort () ScriptEnvironment ScriptEnvironment ScriptActions ScriptEvent
      ScriptSettlement ScriptInterpretation Empty_set ScriptActivationError
      (list ExecutionEvent * option ScriptActions) () :=
  {| activate := script_activate;
     retire_prepared := script_retire_prepared;
     next := script_next;
     next_source := script_next_source;
     apply := script_apply;
     offer_next := script_offer_next;
     publish := script_publish;
     retire_active := script_retire_active;
     settlement_status := λ i, inl (status (interpreted i));
     interpretation_settlement := interpreted;
     drop_settlement := λ _, None |}.

Abbreviation ScriptDriver :=
  (Driver (B := ScriptBehavior) (Event := ScriptEvent) (Actions := ScriptActions)
     (BError := ScriptError) (Env := ScriptEnvironment) (Act := ScriptEnvironment)
     (S := ScriptSettlement) (I := ScriptInterpretation) (Request := Empty_set)
     (EError := ScriptActivationError) (Residual := (list ExecutionEvent * option ScriptActions))
     (P := ())) (only parsing).

Definition script_driver (sequence : Sequence) (script : Script) : ScriptDriver :=
  Driver_new
    {| script_initialization := initialization script; creations := sequence; delivered_inputs := [] |}
    {| env_activation := script_activation script; env_ordinary := ordinary script; env_source := [];
       execution_trace := [] |}.

(** Only a rejected activation leaves actions uncommitted, and they are the whole
    decision of the initialization. *)
Definition uncommitted_matches (script : Script) (uncommitted : option ScriptActions) : bool :=
  let initial := initialization script in
  match script_activation script, turn_decision initial, uncommitted with
  | Choice_Fail, (Decide_Continue | Decide_Stop) as decision, Some acts =>
      bool_decide (map snd (creates acts) = option_list (turn_child initial)) &&
      match owned acts with
      | [directive] =>
          bool_decide (directive_id directive = turn_id initial) &&
          status_eqb (directive_settlement directive) (turn_settlement initial) &&
          source_eqb (directive_source directive) (turn_source initial) &&
          bool_decide (directive_first directive = turn_first initial)
      | _ => false
      end &&
      bool_decide (inner acts = [turn_second initial]) &&
      match decision, script_step acts with
      | Decide_Continue, Step_Continue | Decide_Stop, Step_Stop => true
      | _, _ => false
      end
  | Choice_Establish, _, None | Choice_Fail, Decide_Fail, None => true
  | _, _, _ => false
  end.

(** [execute]: the disposition, the inputs the behavior received and the trace;
    [None] when the driver is not retired or an assertion fails. *)
Definition execute (fuel : nat) (sequence : Sequence) (script : Script) :
    option (Disposition * list Ingress * list ExecutionEvent) :=
  received ← run fuel (script_driver sequence script) ();
  match received with
  | Ok r =>
      if uncommitted_matches script (retired_residual r).2
      then Some (retired_disposition r, delivered_inputs (retired_behavior r), (retired_residual r).1)
      else panic!
  | Err _ => panic!
  end.
End script.

(** ** The driver executes the model *)

Scheme turn_mut := Induction for PlannedTurn Sort Prop
  with source_mut := Induction for SourceChoice Sort Prop.

Lemma source_eqb_refl source : source_eqb source source = true.
Proof.
  revert source. apply (source_mut (λ t, turn_eqb t t = true)); try done.
  intros id decision settlement source Hs first second child. simpl.
  rewrite !bool_decide_eq_true_2, Hs by done. by destruct settlement.
Qed.

Section refinement.
Context {Sequence CreationId : Type} (issue : Sequence → CreationId * Sequence).

Abbreviation Behav := (@ScriptBehavior Sequence) (only parsing).
Abbreviation Acts := (@ScriptActions CreationId) (only parsing).
Abbreviation SDriver :=
  (@Driver (@ScriptBehavior Sequence) ScriptEvent (@ScriptActions CreationId) ScriptError
     ScriptEnvironment ScriptEnvironment ScriptSettlement ScriptInterpretation Empty_set
     ScriptActivationError (list ExecutionEvent * option (@ScriptActions CreationId)) ())
  (only parsing).
Abbreviation Row := (SettlementTurn ScriptSettlement) (only parsing).

#[local] Instance behavior_port :
  BehaviorPort (@ScriptBehavior Sequence) ScriptEvent (@ScriptActions CreationId) ScriptError () :=
  script_behavior_port issue.
#[local] Existing Instance script_environment_port.

Implicit Types (b : @ScriptBehavior Sequence) (e : ScriptEnvironment) (q : list (SettlementTurn ScriptSettlement))
  (m : CausalModel).

(** The driver between two turns, with its queue; and past a terminal edge. *)
Definition at_rest b e (ph : ExecutionPhase) q : SDriver :=
  {| behavior := b; environment := None; active := Some e; phase := ph; actions := None;
     activation := None; interpretation := None; source_input := None; source_received := None;
     source_index := None; ingress := None; decision := None; settlements := q;
     retirement_input := None; residual := None; disposition := None; additional_failures := [] |}.

Definition retiring_at b e q (disposition : Disposition) : SDriver :=
  set_phase Retiring (set_disposition (Some disposition) (at_rest b e Active q)).

Definition row_id (row : Row) : N := settlement_id (into_settlement row).

(** What the model tracks. *)
Record related b e q m : Prop := {
  rel_trace : execution_trace e = model_trace m;
  rel_inputs : delivered_inputs b = model_inputs m;
  rel_pending : map row_id q = pending m
}.

Definition end_disposition (e : ModelEnd) : Disposition :=
  match e with ModelEnd_Stopped => Ok Stopped | ModelEnd_Failure error => Err error end.

(** From an iteration, the driver goes on the way the model ended a turn: back
    at rest with at most one more retained row, or on a terminal edge. *)
Definition goes_on (it : Iteration) (ph : ExecutionPhase) q (ordinary : list PlannedTurn)
    (outcome : option (CausalModel * Result () ModelEnd)) : Prop :=
  ∃ m r b e rows, outcome = Some (m, r) ∧ related b e (rows ++ q) m ∧
    match r with
    | Ok () => length rows ≤ 1 ∧ Forall (λ row, is_retained row = true) rows ∧
        env_source e = [] ∧ env_ordinary e = ordinary ∧ leads it (at_rest b e ph (rows ++ q)) ()
    | Err final => leads it (retiring_at b e (rows ++ q) (end_disposition final)) ()
    end.

Definition running (ph : ExecutionPhase) : Prop := ph = SettlingInitialization ∨ ph = Active.

Lemma next_row_retained (rows : list Row) q row :
  Forall (λ row, is_retained row = true) rows → is_retained row = false →
  list_find (λ row, is_retained row = false) (rows ++ row :: q) = Some (length rows, row).
Proof.
  intros Hr Hrow. apply list_find_Some. split_and!.
  - by apply list_lookup_middle.
  - done.
  - intros j y Hl Hlt. rewrite lookup_app_l in Hl by done.
    rewrite Forall_forall in Hr. apply list_elem_of_lookup_2, Hr in Hl. congruence.
Qed.

Lemma vec_remove_middle (rows : list Row) q row :
  vec_remove (length rows) (rows ++ row :: q) = Some (row, rows ++ q).
Proof.
  unfold vec_remove. rewrite list_lookup_middle by done. simpl. by rewrite delete_middle.
Qed.

Lemma vec_insert_middle (rows : list Row) q row :
  vec_insert (length rows) row (rows ++ q) = Some (rows ++ row :: q).
Proof.
  unfold vec_insert. rewrite length_app.
  destruct (Nat.leb_spec (length rows) (length rows + length q)); [|lia].
  by rewrite take_app_length, drop_app_length.
Qed.

Lemma running_step b e ph q : running ph → drive_step (at_rest b e ph q) () = settle_turn (at_rest b e ph q) () e.
Proof. by intros [-> | ->]. Qed.

(** Discharging the row of an offer that exhausted, behind at most one retained
    row. *)
Lemma discharge_row m rows id (rest : list N) :
  length rows ≤ 1 → pending m = rows ++ id :: rest →
  discharge id m = Some {| model_trace := model_trace m; model_inputs := model_inputs m;
                           pending := rows ++ rest |}.
Proof.
  intros Hlen Hp. unfold discharge. rewrite Hp.
  destruct rows as [|x [|y rows]]; simpl in *; [|destruct (decide (x = id)) as [->|Hne]|lia].
  - by rewrite decide_True.
  - done.
  - rewrite decide_True by done. done.
Qed.

Definition offered_rest (s : ScriptSettlement) : ScriptSettlement :=
  {| settlement_id := settlement_id s; status := status s; settlement_source := Source_Exhaust |}.

Definition with_source (l : list PlannedTurn) e : ScriptEnvironment :=
  {| env_activation := env_activation e; env_ordinary := env_ordinary e; env_source := l;
     execution_trace := execution_trace e |}.

(** Where the offer of a row leaves the driver. *)
Definition offered_at b e (ph : ExecutionPhase) (rows : list Row) q (s : ScriptSettlement) : SDriver :=
  let e := env_push (Offered (settlement_id s)) e in
  match settlement_source s with
  | Source_Exhaust => at_rest b e ph (rows ++ q)
  | Source_Retain => at_rest b e ph (rows ++ Turn_Retained (offered_rest s) :: q)
  | Source_Admit t =>
      at_rest b (with_source (env_source e ++ [t]) e) ph (rows ++ Turn_AwaitSource (offered_rest s) :: q)
  | Source_AdmitMissing => at_rest b e ph (rows ++ Turn_AwaitSource (offered_rest s) :: q)
  | Source_Close =>
      retiring_at b e (rows ++ Turn_Offer (offered_rest s) :: q)
        (Err (Error_Settlement Failure_SourceClosed))
  end.

Lemma offer_row b e ph (rows : list Row) q s :
  running ph → Forall (λ row, is_retained row = true) rows →
  leads (settle_turn (at_rest b e ph (rows ++ Turn_Offer s :: q)) () e) (offered_at b e ph rows q s) ().
Proof.
  intros Hph Hrows. unfold settle_turn, next_row. cbn [settlements at_rest].
  rewrite next_row_retained by done. cbn [snd fst]. rewrite vec_remove_middle.
  apply leads_iterate. apply leads_reaches.
  assert (∀ custody, vec_insert (length rows) custody (rows ++ q) = Some (rows ++ custody :: q)) as Hins.
  { intros custody. apply vec_insert_middle. }
  destruct Hph as [-> | ->]; unfold drive_step, running_turn, offer_turn, offer_operation, offered_at; cbn;
    unfold script_offer_next; cbn; destruct (settlement_source s); cbn; unfold insert_row; cbn;
    rewrite ?Hins; cbn; apply leads_iterate; eexists; apply reaches_refl.
Qed.

Definition with_ingress (event : ScriptEvent) (d : SDriver) : SDriver :=
  set_ingress (Some (Continue (Some event))) d.

Definition input_of (event : ScriptEvent) : Ingress * PlannedTurn :=
  match event with
  | Event_Owned t => (Ingress_Source (turn_id t), t)
  | Event_Inner t => (Ingress_Ordinary (turn_id t), t)
  end.

Definition model_input (input : Ingress) m : CausalModel :=
  {| model_trace := model_trace m; model_inputs := model_inputs m ++ [input]; pending := pending m |}.

(** The row a committed turn puts in the queue. *)
Definition committed_settlement (t : PlannedTurn) : ScriptSettlement :=
  {| settlement_id := turn_id t; status := turn_settlement t; settlement_source := turn_source t |}.

Lemma fold_failed b e ph q t event input m cs :
  related b e q m → input_of event = (input, t) → turn_decision t = Decide_Fail →
  ∃ b', related b' e q (model_input input m) ∧
    leads (fold_turn (with_ingress event (at_rest b e ph q)) () cs)
      (retiring_at b' e q (Err (Error_Behavior DecisionFailed))) ().
Proof.
  intros [R1 R2 R3] Hin Hd.
  set (b' := {| script_initialization := script_initialization b; creations := creations b;
                delivered_inputs := delivered_inputs b ++ [input] |}).
  assert (delegate_transition b event = (b', Folded_Error DecisionFailed)) as Ht.
  { change (script_transition issue b event = (b', Folded_Error DecisionFailed)). unfold script_transition, script_actions, b'.
    destruct event; simpl in Hin; injection Hin as <- <-; by rewrite Hd. }
  exists b'. split; [split; simpl; [done|by rewrite R2|done]|].
  rewrite (fold_turn_error (with_ingress event (at_rest b e ph q)) () cs event b' DecisionFailed eq_refl Ht).
  apply leads_iterate. eexists. apply reaches_refl.
Qed.

Definition decision_of (t : PlannedTurn) : ActionDecision :=
  match turn_decision t with Decide_Stop => Decision_Stop | _ => Decision_Continue end.

Definition interpretation_of (t : PlannedTurn) : ScriptInterpretation :=
  match turn_settlement t with
  | Status_Corrupt => Interpretation_Corrupt (committed_settlement t)
  | _ => Interpretation_Complete (committed_settlement t)
  end.

(** The actions of a turn that decided are committed, and wait for their
    classification. *)
Definition interpreted_at b e (ph : ExecutionPhase) q (t : PlannedTurn) : SDriver :=
  set_interpretation (Some (interpretation_of t))
    (set_decision (Some (decision_of t)) (at_rest b e ph q)).

Lemma commit_turn b t e :
  turn_decision t ≠ Decide_Fail →
  ∃ b' acts e', script_actions issue t b = (b', Folded_Actions acts) ∧
    delivered_inputs b' = delivered_inputs b ∧ from_step (script_step acts) = decision_of t ∧
    commit acts e = (e', Some (interpretation_of t)) ∧
    env_activation e' = env_activation e ∧ env_source e' = env_source e ∧
    env_ordinary e' = env_ordinary e ∧
    execution_trace e' = execution_trace e ++
      match turn_child t with Some child => [Created child] | None => [] end ++
      [SentFirst (turn_first t); SentSecond (turn_second t)].
Proof.
  intros Hd. unfold script_actions, decision_of, interpretation_of, committed_settlement, commit.
  destruct (turn_decision t); try done; destruct (turn_child t) as [child|]; try destruct (issue _);
    destruct (turn_settlement t); eexists _, _, _; split_and!; try reflexivity; simpl;
    rewrite ?app_nil_r, <-?app_assoc. all: done.
Qed.

Lemma fold_decided b e ph q t event input m cs :
  running ph → related b e q m → input_of event = (input, t) → turn_decision t ≠ Decide_Fail →
  ∃ b' e', env_source e' = env_source e ∧ env_ordinary e' = env_ordinary e ∧
    related b' e' (Turn_Offer (committed_settlement t) :: q) (model_commit t (model_input input m)) ∧
    ∀ d', leads (drive_step (interpreted_at b' e' ph q t) ()) d' () →
      leads (fold_turn (with_ingress event (at_rest b e ph q)) () cs) d' ().
Proof.
  intros Hph [R1 R2 R3] Hin Hd.
  set (b0 := {| script_initialization := script_initialization b; creations := creations b;
                delivered_inputs := delivered_inputs b ++ [input] |}).
  destruct (commit_turn b0 t e Hd) as (b' & acts & e' & Hacts & Hb & Hstep & Hcommit & _ & Hs & Ho & Ht).
  exists b', e'. split_and!; [done|done| |].
  { split; simpl.
    - rewrite Ht, R1. unfold model_commit. destruct (turn_child t); simpl; by rewrite <-!app_assoc.
    - rewrite Hb. simpl. rewrite R2. unfold model_commit. by destruct (turn_child t).
    - unfold model_commit. rewrite R3. by destruct (turn_child t). }
  assert (delegate_transition b event = (b', Folded_Actions acts)) as Hf.
  { change (script_transition issue b event = (b', Folded_Actions acts)). rewrite <-Hacts. unfold script_transition, b0. destruct event; simpl in Hin; by injection Hin as <- <-. }
  intros d' [cs' Hl]%leads_reaches. rewrite (fold_turn_actions (with_ingress event (at_rest b e ph q)) () cs event b' acts eq_refl Hf).
  rewrite (apply_turn_interpreted _ () () _ e e' (interpretation_of t)); [|reflexivity|..].
  - apply leads_iterate. exists cs'. cbn [become_ behavior_port script_behavior_port]. rewrite Hstep. exact Hl.
  - by destruct Hph as [-> | ->].
  - cbn [apply script_environment_port script_apply actions interpretation set_actions set_decision
      set_behavior set_ingress with_ingress at_rest]. by rewrite Hcommit.
Qed.

(** Classification of what a running driver committed. *)
Lemma classify_turn b e ph q t :
  running ph → turn_decision t ≠ Decide_Fail →
  let row := Turn_Offer (committed_settlement t) in
  match turn_settlement t, turn_decision t with
  | Status_Corrupt, _ =>
      leads (drive_step (interpreted_at b e ph q t) ())
        (retiring_at b e (row :: q) (Err (Error_Settlement Failure_Corrupt))) ()
  | _, Decide_Stop =>
      leads (drive_step (interpreted_at b e ph q t) ()) (retiring_at b e (row :: q) (Ok Stopped)) ()
  | _, _ => drive_step (interpreted_at b e ph q t) () = settle_turn (at_rest b e ph (row :: q)) () e
  end.
Proof.
  intros [-> | ->] Hd; cbv zeta; unfold drive_step, running_turn, classify, interpreted_at,
    interpretation_of, decision_of; cbn; destruct (turn_settlement t) eqn:Hs, (turn_decision t); try done; cbn;
    rewrite ?Hs; cbn; try reflexivity; apply leads_iterate; eexists; apply reaches_refl.
Qed.

Lemma goes_on_via it it' ph q l outcome :
  (∀ d', leads it d' () → leads it' d' ()) → goes_on it ph q l outcome → goes_on it' ph q l outcome.
Proof.
  intros Hvia (m & r & b & e & rows & Heq & Hrel & H). exists m, r, b, e, rows. split_and!; [done|done|].
  destruct r as [[]|final]; [|by apply Hvia].
  destruct H as (H1 & H2 & H3 & H4 & H5). split_and!; [done..|by apply Hvia].
Qed.

Lemma goes_on_failed it ph q l m b e rows final :
  related b e (rows ++ q) m → leads it (retiring_at b e (rows ++ q) (end_disposition final)) () →
  goes_on it ph q l (Some (m, Err final)).
Proof. intros Hrel Hl. by exists m, (Err final), b, e, rows. Qed.

Lemma related_push event b e q m :
  related b e q m → related b (env_push event e) q (model_push event m).
Proof. intros [R1 R2 R3]. split; simpl; [by rewrite R1|done|done]. Qed.

(** A row changes its state, not its identity. *)
Lemma related_rows b e q q' m : related b e q m → map row_id q' = map row_id q → related b e q' m.
Proof. intros [R1 R2 R3] Hq. split; [done|done|by rewrite Hq]. Qed.

Lemma await_source b e ph q s :
  running ph →
  drive_step (at_rest b e ph (Turn_AwaitSource s :: q)) () =
  match env_source e with
  | [] => iterate (retiring_at b (env_push RequestedSource e) (Turn_Offer s :: q)
            (Err (Error_Settlement Failure_SourceClosed))) () [Call_NextSource]
  | t :: l => fold_turn (with_ingress (Event_Owned t)
      (at_rest b (with_source l (env_push RequestedSource e)) ph (Turn_Offer s :: q))) () [Call_NextSource]
  end.
Proof.
  intros Hph. rewrite running_step by done. unfold settle_turn, next_row.
  cbn [settlements at_rest list_find is_retained]. rewrite decide_True by done.
  cbn [vec_remove lookup list_lookup delete list_delete mbind option_bind].
  unfold await_source_turn, insert_row, vec_insert.
  change (if 0 <=? length (settlements (set_settlements q (at_rest b e ph (Turn_AwaitSource s :: q))))
    then _ else _) with (Some (Turn_Offer s :: q)). cbn [mbind option_bind].
  set (d := set_settlements _ _).
  assert (request Call_NextSource next_source d () e =
    let e := env_push RequestedSource e in
    match env_source e with
    | [] => (set_ingress (Some (Continue None)) (set_active (Some e) d), (), [Call_NextSource], Some [])
    | t :: l => (set_ingress (Some (Continue (Some (Event_Owned t))))
        (set_active (Some (with_source l e)) d), (), [Call_NextSource], Some [])
    end) as ->.
  { unfold request. cbn. unfold script_next_source. cbn. by destruct (env_source e). }
  cbn [env_source env_push set_trace]. destruct (env_source e) as [|t l]; [reflexivity|].
  cbn [ingress set_ingress receive_execution_failures foldl].
  replace (phase _) with ph by reflexivity. by destruct Hph as [-> | ->].
Qed.

Definition turn_runs (t : PlannedTurn) : Prop := ∀ b e ph q m event input cs,
  running ph → related b e q m → input_of event = (input, t) → env_source e = [] →
  goes_on (fold_turn (with_ingress event (at_rest b e ph q)) () cs) ph q (env_ordinary e)
    (model_decision t input m).

Definition source_runs (source : SourceChoice) : Prop := ∀ b e ph q m id st,
  running ph → env_source e = [] →
  let row := Turn_Offer {| settlement_id := id; status := st; settlement_source := source |} in
  related b e (row :: q) m →
  goes_on (settle_turn (at_rest b e ph (row :: q)) () e) ph q (env_ordinary e) (offer_source id source m).

Lemma turn_runs_step id decision settlement source first second child :
  source_runs source → turn_runs (mk_PlannedTurn id decision settlement source first second child).
Proof.
  intros IH b e ph q m event input cs Hph Hrel Hin Hsrc. set (t := mk_PlannedTurn _ _ _ _ _ _ _) in *.
  destruct (decide (decision = Decide_Fail)) as [->|Hd].
  { destruct (fold_failed b e ph q t event input m cs Hrel Hin eq_refl) as (b' & Hrel' & Hl).
    by apply (goes_on_failed _ ph q _ (model_input input m) b' e []
      (ModelEnd_Failure (Error_Behavior DecisionFailed)) Hrel' Hl). }
  destruct (fold_decided b e ph q t event input m cs Hph Hrel Hin Hd)
    as (b' & e' & Hs' & Ho' & Hrel' & Hl).
  pose proof (classify_turn b' e' ph q t Hph Hd) as Hcl. cbv zeta in Hcl.
  assert (∀ final, leads (drive_step (interpreted_at b' e' ph q t) ())
      (retiring_at b' e' (Turn_Offer (committed_settlement t) :: q) (end_disposition final)) () →
    goes_on (fold_turn (with_ingress event (at_rest b e ph q)) () cs) ph q (env_ordinary e)
      (Some (model_commit t (model_input input m), Err final))) as Hfinal.
  { intros final Hr. by apply (goes_on_failed _ _ _ _ _ b' e' [_] _ Hrel'), Hl. }
  assert (drive_step (interpreted_at b' e' ph q t) () =
      settle_turn (at_rest b' e' ph (Turn_Offer (committed_settlement t) :: q)) () e' →
    goes_on (fold_turn (with_ingress event (at_rest b e ph q)) () cs) ph q (env_ordinary e)
      (offer_source id source (model_commit t (model_input input m)))) as Hgo.
  { intros Heq. eapply goes_on_via; [exact Hl|]. rewrite Heq, <-Ho'.
    apply IH; [done|congruence|exact Hrel']. }
  simpl in *. destruct settlement, decision; try done; by auto.
Qed.

Lemma source_runs_admit t : turn_runs t → source_runs (Source_Admit t).
Proof.
  intros IH b e ph q m id st Hph Hsrc row Hrel.
  set (s := {| settlement_id := id; status := st; settlement_source := Source_Admit t |}) in *.
  pose proof (offer_row b e ph [] q s Hph (Forall_nil_2 _)) as Hoffer. unfold offered_at in Hoffer. simpl in Hoffer.
  set (e1 := with_source [] (env_push RequestedSource (env_push (Offered id) e))).
  assert (related b e1 (Turn_Offer (offered_rest s) :: q)
    (model_push RequestedSource (model_push (Offered id) m))) as Hrel1.
  { destruct (related_push RequestedSource _ _ _ _ (related_push (Offered id) _ _ _ _ Hrel)) as [R1 R2 R3].
    by split. }
  pose proof (IH b e1 ph _ _ (Event_Owned t) _ [Call_NextSource] Hph Hrel1 eq_refl eq_refl) as Hgo.
  assert (∀ d', leads (fold_turn (with_ingress (Event_Owned t)
      (at_rest b e1 ph (Turn_Offer (offered_rest s) :: q))) () [Call_NextSource]) d' () →
    leads (settle_turn (at_rest b e ph (row :: q)) () e) d' ()) as Hvia.
  { intros d' Hl. eapply leads_trans; [exact Hoffer|]. rewrite await_source by done. simpl.
    rewrite Hsrc. exact Hl. }
  destruct Hgo as (m' & r & b' & e' & rows & Heq & Hrel' & Hr). simpl. rewrite Heq. simpl.
  destruct r as [[]|final].
  - destruct Hr as (Hlen & Hret & Hs' & Ho' & Hl).
    pose proof (rel_pending _ _ _ _ Hrel') as Hp. rewrite map_app in Hp. simpl in Hp.
    rewrite (discharge_row _ (map row_id rows) id (map row_id q)); [|by rewrite length_map|exact (eq_sym Hp)].
    exists {| model_trace := model_trace m' ++ [Offered id]; model_inputs := model_inputs m';
              pending := map row_id rows ++ map row_id q |}, (Ok ()), b', (env_push (Offered id) e'), rows.
    simpl. split_and!; [done| |done|done|done|done|].
    + destruct Hrel' as [R1 R2 R3]. split; simpl; [by rewrite R1|done|by rewrite map_app].
    + apply Hvia. eapply leads_trans; [exact Hl|]. rewrite running_step by done.
      exact (offer_row b' e' ph rows q (offered_rest s) Hph Hret).
  - apply (goes_on_failed _ _ _ _ _ b' e' (rows ++ [Turn_Offer (offered_rest s)])); rewrite <-app_assoc; [done|].
    by apply Hvia.
Qed.

Lemma source_runs_step source : source_runs source.
Proof.
  revert source. apply (source_mut turn_runs source_runs); [intros; by apply turn_runs_step|..].
  - intros b e ph q m id st Hph Hsrc row Hrel. simpl.
    pose proof (rel_pending _ _ _ _ Hrel) as Hp. simpl in Hp.
    rewrite (discharge_row _ [] id (map row_id q)); [|simpl; lia|exact (eq_sym Hp)]. simpl.
    eexists _, (Ok ()), b, (env_push (Offered id) e), []. simpl. split_and!; try done; try lia.
    + destruct Hrel as [R1 R2 R3]. split; simpl; [by rewrite R1|done|done].
    + exact (offer_row b e ph [] q _ Hph (Forall_nil_2 _)).
  - intros b e ph q m id st Hph Hsrc row Hrel. simpl.
    eexists _, (Ok ()), b, (env_push (Offered id) e), [Turn_Retained (offered_rest (into_settlement row))].
    split_and!; try done; try (simpl; lia).
    + apply (related_rows _ _ (row :: q)); [by apply related_push|done].
    + by constructor.
    + exact (offer_row b e ph [] q _ Hph (Forall_nil_2 _)).
  - intros t IH. by apply source_runs_admit.
  - intros b e ph q m id st Hph Hsrc row Hrel. simpl.
    apply (goes_on_failed _ _ _ _ _ b (env_push RequestedSource (env_push (Offered id) e))
      [Turn_Offer (offered_rest (into_settlement row))]).
    + apply (related_rows _ _ (row :: q)); [by repeat apply related_push|done].
    + eapply leads_trans; [exact (offer_row b e ph [] q _ Hph (Forall_nil_2 _))|].
      unfold offered_at. simpl. rewrite await_source by done. simpl. rewrite Hsrc.
      apply leads_iterate. eexists. apply reaches_refl.
  - intros b e ph q m id st Hph Hsrc row Hrel. simpl.
    apply (goes_on_failed _ _ _ _ _ b (env_push (Offered id) e)
      [Turn_Offer (offered_rest (into_settlement row))]).
    + apply (related_rows _ _ (row :: q)); [by apply related_push|done].
    + exact (offer_row b e ph [] q _ Hph (Forall_nil_2 _)).
Qed.

Lemma turn_runs_all t : turn_runs t.
Proof. destruct t. apply turn_runs_step, source_runs_step. Qed.

Lemma no_next_row (q : list Row) :
  Forall (λ row, is_retained row = true) q → list_find (λ row, is_retained row = false) q = None.
Proof. intros Hq. apply list_find_None. eapply Forall_impl; [exact Hq|]. by intros row ->. Qed.

(** Only retained rows: an active driver asks for ordinary ingress. *)
Lemma ordinary_step b e q :
  Forall (λ row, is_retained row = true) q →
  drive_step (at_rest b e Active q) () =
  let e := env_push RequestedOrdinary e in
  match env_ordinary e with
  | [] => iterate (retiring_at b e q (Ok Exhausted)) () [Call_Next]
  | t :: l => fold_turn (with_ingress (Event_Inner t)
      (at_rest b {| env_activation := env_activation e; env_ordinary := l; env_source := env_source e;
                    execution_trace := execution_trace e |} Active q)) () [Call_Next]
  end.
Proof.
  intros Hq. rewrite running_step by by right. unfold settle_turn, next_row. cbn [settlements at_rest].
  rewrite no_next_row by done. cbn [is_SettlingInitialization phase at_rest]. unfold ordinary_turn, request.
  cbn [ingress at_rest next script_environment_port script_next]. unfold script_next.
  cbn [env_ordinary env_push set_trace]. by destruct (env_ordinary e).
Qed.

Lemma publish_step b e q :
  Forall (λ row, is_retained row = true) q →
  drive_step (at_rest b e SettlingInitialization q) () =
    iterate (at_rest b (env_push Published e) Active q) () [Call_Publish].
Proof.
  intros Hq. rewrite running_step by by left. unfold settle_turn, next_row. cbn [settlements at_rest].
  by rewrite no_next_row.
Qed.

Lemma ordinary_runs l b e q m :
  related b e q m → env_source e = [] → env_ordinary e = l → Forall (λ row, is_retained row = true) q →
  ∃ m' r b' e' q', model_ordinary l m = Some (m', r) ∧ related b' e' q' m' ∧
    leads (drive_step (at_rest b e Active q) ())
      (retiring_at b' e' q' match r with Ok c => Ok c | Err final => end_disposition final end) ().
Proof.
  revert b e q m. induction l as [|t l IH]; intros b e q m Hrel Hs Ho Hq; rewrite ordinary_step by done;
    cbn [env_ordinary env_push set_trace]; rewrite Ho; simpl.
  - eexists _, (Ok Exhausted), b, _, q. split_and!; [done|by apply related_push|].
    apply leads_iterate. eexists. apply reaches_refl.
  - set (e1 := {| env_activation := _ |}).
    assert (related b e1 q (model_push RequestedOrdinary m)) as Hrel1.
    { destruct (related_push RequestedOrdinary _ _ _ _ Hrel) as [R1 R2 R3]. by split. }
    destruct (turn_runs_all t b e1 Active q _ (Event_Inner t) (Ingress_Ordinary (turn_id t)) [Call_Next]
      (or_intror eq_refl) Hrel1 eq_refl Hs) as (m' & r & b' & e' & rows & Heq & Hrel' & Hr).
    simpl in Heq. rewrite Heq. simpl. destruct r as [[]|final].
    + destruct Hr as (_ & Hret & Hs' & Ho' & Hl).
      destruct (IH b' e' (rows ++ q) m' Hrel' Hs' Ho') as (m2 & r2 & b2 & e2 & q2 & Heq2 & Hrel2 & Hl2).
      { by apply Forall_app. }
      rewrite Heq2. exists m2, r2, b2, e2, q2. split_and!; [done|done|]. by eapply leads_trans.
    + by exists m', (Err final), b', e', (rows ++ q).
Qed.

(** The retirement barrier of the script environment. *)
Lemma retirement_step b e q disposition :
  flow (drive_step (retiring_at b e q disposition) ()) = Loop_Return ∧
  receive_owner (after (drive_step (retiring_at b e q disposition) ())) =
    Ok {| retired_behavior := b;
          retired_residual := (execution_trace e ++ [Retired (map row_id q)], None);
          retired_disposition := disposition; retired_failures := [] |}.
Proof.
  split; [done|]. unfold row_id. rewrite <-(map_map into_settlement settlement_id). reflexivity.
Qed.

(** A run to an iteration that hands over a complete retirement. *)
Lemma execute_ends sequence script cs d r :
  reaches (script_driver sequence script) () cs d () → flow (drive_step d ()) = Loop_Return →
  receive_owner (after (drive_step d ())) = Ok r →
  uncommitted_matches script (retired_residual r).2 = true →
  ∃ fuel, ∀ fuel', fuel ≤ fuel' → execute issue fuel' sequence script =
    Some (retired_disposition r, delivered_inputs (retired_behavior r), (retired_residual r).1).
Proof.
  intros Hreach Hf Hr Hu. destruct (drive_reaches _ _ _ _ _ Hreach) as [fuel Hfuel]; [by rewrite Hf|].
  exists fuel. intros fuel' Hle. unfold execute, run, receive_run. rewrite Hfuel by done. simpl.
  rewrite Hf, Hr. cbn [mbind option_bind]. by rewrite Hu.
Qed.

(** A run to a terminal edge the model agrees with. *)
Lemma execute_terminal sequence script cs b e q m disposition :
  script_activation script = Choice_Establish →
  reaches (script_driver sequence script) () cs (retiring_at b e q disposition) () → related b e q m →
  ∃ fuel, ∀ fuel', fuel ≤ fuel' →
    execute issue fuel' sequence script =
      Some (disposition, model_inputs m, model_trace (model_push (Retired (pending m)) m)).
Proof.
  intros Hc Hreach [R1 R2 R3]. destruct (retirement_step b e q disposition) as [Hf Hr].
  destruct (execute_ends _ _ _ _ _ Hreach Hf Hr) as [fuel Hfuel];
    [unfold uncommitted_matches; by rewrite Hc|].
  exists fuel. intros fuel' Hle. rewrite Hfuel by done. simpl. by rewrite R1, R2, R3.
Qed.

(** Classification of the initialization. *)
Lemma classify_initialization b e t :
  turn_decision t ≠ Decide_Fail →
  let row := Turn_Offer (committed_settlement t) in
  let retires outcome :=
    leads (drive_step (interpreted_at b e Initializing [] t) ()) (retiring_at b e [row] outcome) () in
  match turn_settlement t, turn_decision t with
  | Status_Rejected, _ => retires (Err (Error_Settlement Failure_Rejected))
  | Status_Corrupt, _ => retires (Err (Error_Settlement Failure_Corrupt))
  | Status_Accepted, Decide_Stop => retires (Ok Stopped)
  | Status_Accepted, _ =>
      drive_step (interpreted_at b e Initializing [] t) () =
        settle_turn (at_rest b e SettlingInitialization [row]) () e
  end.
Proof.
  intros Hd; cbv zeta; unfold drive_step, running_turn, classify, interpreted_at,
    interpretation_of, decision_of; cbn; destruct (turn_settlement t) eqn:Hs, (turn_decision t); try done; cbn;
    rewrite ?Hs; cbn; try reflexivity; apply leads_iterate; eexists; apply reaches_refl.
Qed.

Definition initial_behavior (sequence : Sequence) (script : Script) : @ScriptBehavior Sequence :=
  {| script_initialization := initialization script; creations := sequence; delivered_inputs := [] |}.

Definition initial_environment (script : Script) : ScriptEnvironment :=
  {| env_activation := script_activation script; env_ordinary := ordinary script; env_source := [];
     execution_trace := [] |}.

Lemma failed_initialization_uncommitted script :
  turn_decision (initialization script) = Decide_Fail →
  uncommitted_matches (CreationId := CreationId) script None = true.
Proof. intros Hd. unfold uncommitted_matches. rewrite Hd. by destruct (script_activation script). Qed.

Lemma rejected_activation_uncommitted script b b' acts :
  turn_decision (initialization script) ≠ Decide_Fail → script_activation script = Choice_Fail →
  script_actions issue (initialization script) b = (b', Folded_Actions acts) →
  uncommitted_matches script (Some acts) = true.
Proof.
  intros Hd Hc Ha. unfold uncommitted_matches. rewrite Hc.
  destruct (initialization script) as [id decision settlement source first second child].
  unfold script_actions in Ha. cbn in *. revert Ha.
  destruct decision; [| |done]; destruct child as [c|]; try destruct (issue (creations b)) as [x y];
    intros [= <- <-]; cbn; rewrite source_eqb_refl, !bool_decide_eq_true_2 by done;
    by destruct settlement.
Qed.

(** The Prepared iteration. *)
Lemma prepared_step sequence script b folded :
  script_actions issue (initialization script) (initial_behavior sequence script) = (b, folded) →
  drive_step (script_driver sequence script) () =
    iterate
      match folded with
      | Folded_Actions a =>
          set_actions (Some a) (set_decision (Some (from_step (script_step a)))
            (set_behavior b (set_phase Activating (script_driver sequence script))))
      | Folded_Error error =>
          reject (Error_Behavior error)
            (set_behavior b (set_phase Activating (script_driver sequence script)))
      | Folded_Panicked payload =>
          reject (Error_InitializationPanicked payload)
            (set_behavior b (set_phase Activating (script_driver sequence script)))
      end () [Call_Initialize (decided folded)].
Proof.
  intros Ha. unfold drive_step. cbn [phase script_driver Driver_new]. unfold prepared_turn.
  cbn [behavior set_phase script_driver Driver_new initialize behavior_port script_behavior_port].
  unfold script_init. cbn [script_initialization]. unfold initial_behavior in Ha. by rewrite Ha.
Qed.

Lemma execute_failed_initialization sequence script :
  turn_decision (initialization script) = Decide_Fail →
  ∃ fuel, ∀ fuel', fuel ≤ fuel' → execute issue fuel' sequence script =
    Some (Err (Error_Behavior DecisionFailed), [], [PreparedRetired]).
Proof.
  intros Hd.
  assert (drive_step (script_driver sequence script) () =
    iterate (reject (Error_Behavior DecisionFailed)
      (set_phase Activating (script_driver sequence script))) () [Call_Initialize None]) as Hp.
  { rewrite (prepared_step sequence script (initial_behavior sequence script) (Folded_Error DecisionFailed));
      [done|]. unfold script_actions. by rewrite Hd. }
  assert (∃ cs, reaches (script_driver sequence script) () cs (reject (Error_Behavior DecisionFailed)
      (set_phase Activating (script_driver sequence script))) ()) as [cs Hreach].
  { eexists. eapply reaches_iterate, reaches_refl. exact Hp. }
  exact (execute_ends _ _ _ _ {| retired_behavior := initial_behavior sequence script;
    retired_residual := ([PreparedRetired], None);
    retired_disposition := Err (Error_Behavior DecisionFailed); retired_failures := [] |}
    Hreach eq_refl eq_refl (failed_initialization_uncommitted _ Hd)).
Qed.

Lemma execute_failed_activation sequence script :
  turn_decision (initialization script) ≠ Decide_Fail → script_activation script = Choice_Fail →
  ∃ fuel, ∀ fuel', fuel ≤ fuel' → execute issue fuel' sequence script =
    Some (Err (Error_Activation ScriptActivationFailed), [], [ActivationFailed]).
Proof.
  intros Hd Hc.
  destruct (commit_turn (initial_behavior sequence script) _ (initial_environment script) Hd)
    as (b' & acts & e' & Hacts & Hb & _).
  pose proof (prepared_step _ _ _ _ Hacts) as Hp. cbv beta iota in Hp.
  set (d := set_actions _ _) in Hp.
  set (w := reject (Error_Activation ScriptActivationFailed)
    (set_residual (Some ([ActivationFailed], Some acts))
      (set_actions None (set_environment None d)))).
  assert (drive_step d () = iterate w () [Call_Activate (Some acts)]) as Ha.
  { unfold drive_step, activating_turn. cbn. unfold script_activate. cbn. by rewrite Hc. }
  assert (∃ cs, reaches (script_driver sequence script) () cs w ()) as [cs Hreach].
  { eexists. eapply reaches_iterate, reaches_iterate, reaches_refl; [exact Hp|exact Ha]. }
  destruct (execute_ends _ _ _ _ {| retired_behavior := b'; retired_residual := ([ActivationFailed], Some acts);
      retired_disposition := Err (Error_Activation ScriptActivationFailed); retired_failures := [] |}
    Hreach eq_refl eq_refl (rejected_activation_uncommitted _ _ _ _ Hd Hc Hacts)) as [fuel Hfuel].
  exists fuel. intros fuel' Hle. rewrite Hfuel by done. simpl. by rewrite Hb.
Qed.

(** The committed initialization, before its classification. *)
Lemma initialization_reaches sequence script :
  turn_decision (initialization script) ≠ Decide_Fail → script_activation script = Choice_Establish →
  ∃ b e cs, env_source e = [] ∧ env_ordinary e = ordinary script ∧
    related b e [Turn_Offer (committed_settlement (initialization script))]
      (model_commit (initialization script) {| model_trace := []; model_inputs := []; pending := [] |}) ∧
    reaches (script_driver sequence script) () cs
      (interpreted_at b e Initializing [] (initialization script)) ().
Proof.
  intros Hd Hc. set (t := initialization script).
  destruct (commit_turn (initial_behavior sequence script) t (initial_environment script) Hd)
    as (b' & acts & e' & Hacts & Hb & Hstep & Hcommit & _ & Hs & Ho & Ht).
  exists b', e'. pose proof (prepared_step _ _ _ _ Hacts) as Hp. cbv beta iota in Hp.
  set (d := set_actions _ _) in Hp.
  assert (drive_step d () =
    iterate (interpreted_at b' e' Initializing [] t) () [Call_Activate (Some acts)]) as Ha.
  { unfold drive_step, activating_turn. cbn. unfold script_activate. cbn.
    rewrite Hc. unfold initial_environment in Hcommit. rewrite Hc in Hcommit. rewrite Hcommit.
    unfold interpreted_at. rewrite <-Hstep. reflexivity. }
  eexists. split_and!; [done|done| |eapply reaches_iterate, reaches_iterate, reaches_refl;
    [exact Hp|exact Ha]].
  unfold model_commit. split; simpl.
  - rewrite Ht. destruct (turn_child t); simpl; by rewrite <-?app_assoc.
  - rewrite Hb. by destruct (turn_child t).
  - by destruct (turn_child t).
Qed.

Lemma execute_established sequence script :
  turn_decision (initialization script) ≠ Decide_Fail → script_activation script = Choice_Establish →
  ∃ m outcome, model_outcome script
      (model_commit (initialization script) {| model_trace := []; model_inputs := []; pending := [] |}) =
      Some (m, outcome) ∧
    ∃ fuel, ∀ fuel', fuel ≤ fuel' → execute issue fuel' sequence script =
      Some (match outcome with Ok c => Ok c | Err final => end_disposition final end,
            model_inputs m, model_trace (model_push (Retired (pending m)) m)).
Proof.
  intros Hd Hc. set (t := initialization script).
  destruct (initialization_reaches sequence script Hd Hc) as (b & e & cs & Hs & Ho & Hrel & Hreach).
  set (m := model_commit _ _) in *.
  assert (∀ outcome, leads (drive_step (interpreted_at b e Initializing [] t) ())
      (retiring_at b e [Turn_Offer (committed_settlement t)] outcome) () →
    ∃ fuel, ∀ fuel', fuel ≤ fuel' → execute issue fuel' sequence script =
      Some (outcome, model_inputs m, model_trace (model_push (Retired (pending m)) m))) as Hend.
  { intros outcome Hl. destruct (reaches_leads _ _ _ _ _ _ _ Hreach Hl) as [cs' Hr].
    by eapply execute_terminal. }
  pose proof (classify_initialization b e t Hd) as Hcl. cbv zeta in Hcl. unfold model_outcome. fold t.
  destruct (turn_settlement t) eqn:Hst; [|eexists _, (Err _); split; [done|by apply Hend]..].
  destruct (turn_decision t) eqn:Htd; [|eexists _, (Err _); split; [done|by apply Hend]|by destruct Hd].
  pose proof (source_runs_step (turn_source t) b e SettlingInitialization [] m (turn_id t) (turn_settlement t)
    (or_introl eq_refl) Hs Hrel) as (m1 & r & b1 & e1 & rows & Heq & Hrel1 & Hr).
  unfold model_offer. rewrite Heq. simpl. rewrite app_nil_r in *.
  assert (∀ d', leads (settle_turn (at_rest b e SettlingInitialization
      [Turn_Offer {| settlement_id := turn_id t; status := turn_settlement t;
                     settlement_source := turn_source t |}]) () e) d' () →
    ∃ cs, reaches (script_driver sequence script) () cs d' ()) as Hgo.
  { intros d' Hl. eapply (reaches_leads _ _ _ (interpreted_at b e Initializing [] t) ()); [exact Hreach|]. rewrite Hcl. exact Hl. }
  destruct r as [[]|final].
  - destruct Hr as (_ & Hret & Hs1 & Ho1 & Hl).
    destruct (ordinary_runs (ordinary script) b1 (env_push Published e1) rows (model_push Published m1))
      as (m2 & r2 & b2 & e2 & q2 & Heq2 & Hrel2 & Hl2); [by apply related_push|done|cbn; congruence|done|].
    exists m2, r2. split; [done|]. destruct (Hgo _ Hl) as [cs1 Hr1].
    assert (leads (drive_step (at_rest b1 e1 SettlingInitialization rows) ())
      (at_rest b1 (env_push Published e1) Active rows) ()) as Hpub.
    { rewrite publish_step by done. apply leads_iterate. eexists. apply reaches_refl. }
    destruct (reaches_leads _ _ _ _ _ _ _ Hr1 Hpub) as [cs2 Hr2].
    destruct (reaches_leads _ _ _ _ _ _ _ Hr2 Hl2) as [cs3 Hr3].
    eapply execute_terminal; [exact Hc|exact Hr3|exact Hrel2].
  - exists m1, (Err final). split; [done|]. destruct (Hgo _ Hr) as [cs1 Hr1].
    eapply execute_terminal; [exact Hc|exact Hr1|exact Hrel1].
Qed.
End refinement.

(** ** Properties *)

(** C32: The driver refines the causal model: for every script, however its
    sources nest, the driver's execution of the scripted behavior and
    environment ends, with the disposition, the delivered inputs and the trace
    the model expects. *)
Theorem driver_refines_causal_model {Sequence CreationId : Type}
    (issue : Sequence → CreationId * Sequence) sequence script :
  ∃ result, expected script = Some result ∧
    ∃ fuel, ∀ fuel', fuel ≤ fuel' → execute issue fuel' sequence script = Some result.
Proof.
  unfold expected. cbv zeta.
  destruct (decide (turn_decision (initialization script) = Decide_Fail)) as [Hd|Hd].
  { rewrite Hd. eexists. split; [done|]. by apply execute_failed_initialization. }
  destruct (script_activation script) eqn:Hc.
  - destruct (execute_established issue sequence script Hd Hc) as (m & outcome & Heq & Hrun).
    rewrite Heq. eexists. split; [by destruct (turn_decision (initialization script))|].
    by destruct outcome as [c|[|error]].
  - eexists. split; [by destruct (turn_decision (initialization script))|].
    by apply execute_failed_activation.
Qed.

(** A source of the initialization admits a turn that admits another; an
    ordinary turn closes its source. *)
Definition nested_script : Script :=
  let turn id source := mk_PlannedTurn id Decide_Continue Status_Accepted source id id None in
  {| initialization := turn 1%N (Source_Admit (turn 2%N (Source_Admit (turn 3%N Source_Retain))));
     script_activation := Choice_Establish;
     ordinary := [turn 4%N Source_Exhaust; turn 5%N Source_Close] |}.

Example nested_script_agrees :
  execute (λ n : N, (n, n)) 100 0%N nested_script = expected nested_script ∧
  (snd <$> expected nested_script) = Some
    [SentFirst 1; SentSecond 1; Offered 1; RequestedSource; SentFirst 2; SentSecond 2; Offered 2;
     RequestedSource; SentFirst 3; SentSecond 3; Offered 3; Offered 2; Offered 1; Published;
     RequestedOrdinary; SentFirst 4; SentSecond 4; Offered 4; RequestedOrdinary; SentFirst 5;
     SentSecond 5; Offered 5; Retired [5%N; 3%N]].
Proof. by vm_compute. Qed.
