(* ===== verification/DriverLaw.v ===== *)
(** * The laws of the driver

    What the driver (Driver.v) guarantees whatever its behavior and environment
    do: one iteration as a relation on the slots ([turn]), every history of
    receiving, cancelling and receiving again ([driven]), and the laws of
    [docs/driver-law.md] over them. *)

From S2P Require Import Prelude Driver.

Section law.
Context {B Event Actions BError W Env Act S I Request EError Residual P : Type}.
Context `{!BehaviorPort B Event Actions BError P}.
Context `{!EnvironmentPort W Env Act Actions Event S I Request EError Residual P}.

Abbreviation driver := (@Driver B Event Actions BError Env Act S I Request EError Residual P)
  (only parsing).
Abbreviation call := (@Call Event Actions S) (only parsing).
Abbreviation iteration :=
  (@Iteration B Event Actions BError W Env Act S I Request EError Residual P) (only parsing).
Implicit Types (d : driver) (w : W) (cs : list call).

(** ** Verdicts *)

(** [reject] and [complete] touch nothing but the phase, the disposition and the
    failures; the first disposition stays and failures only accumulate. *)
Inductive verdict d : driver → Prop :=
  | verdict_refl : verdict d d
  | verdict_terminal disp added :
      (∀ first, disposition d = Some first → disp = first) →
      verdict d (set_additional_failures (additional_failures d ++ added)
        (set_disposition (Some disp) (set_phase Retiring d))).

Lemma verdict_reject d d' error : verdict d d' → verdict d (reject error d').
Proof.
  intros [|disp added Hfirst]; unfold reject.
  - destruct (disposition d) as [disp|] eqn:Hd.
    + replace (set_phase Retiring (set_additional_failures (additional_failures d ++ [error]) d))
        with (set_additional_failures (additional_failures d ++ [error])
          (set_disposition (Some disp) (set_phase Retiring d))) by (destruct d; simpl in *; by subst).
      constructor. congruence.
    + replace (set_phase Retiring (set_disposition (Some (Err error)) d))
        with (set_additional_failures (additional_failures d ++ [])
          (set_disposition (Some (Err error)) (set_phase Retiring d)))
        by (destruct d; simpl in *; by rewrite app_nil_r).
      constructor. congruence.
  - cbn [disposition set_additional_failures set_disposition].
    replace (set_phase Retiring _) with (set_additional_failures (additional_failures d ++ (added ++ [error]))
      (set_disposition (Some disp) (set_phase Retiring d)))
      by (destruct d; simpl in *; by rewrite app_assoc).
    by constructor.
Qed.

Lemma verdict_complete d d' completion : verdict d d' → verdict d (complete completion d').
Proof.
  intros [|disp added Hfirst]; unfold complete.
  - destruct (disposition d) as [disp|] eqn:Hd.
    + replace (set_phase Retiring d) with (set_additional_failures (additional_failures d ++ [])
        (set_disposition (Some disp) (set_phase Retiring d)))
        by (destruct d; simpl in *; by rewrite app_nil_r, Hd).
      constructor. congruence.
    + replace (set_phase Retiring _) with (set_additional_failures (additional_failures d ++ [])
        (set_disposition (Some (Ok completion)) (set_phase Retiring d)))
        by (destruct d; simpl in *; by rewrite app_nil_r).
      constructor. congruence.
  - by constructor.
Qed.

Lemma verdict_execution_failures d d' failures :
  verdict d d' → verdict d (receive_execution_failures failures d').
Proof.
  revert d'. induction failures as [|p l IH]; intros d' Hv; [done|]. apply IH. by apply verdict_reject.
Qed.

Lemma verdict_activation_failures d d' failures :
  verdict d d' → verdict d (receive_activation_failures failures d').
Proof.
  revert d'. induction failures as [|p l IH]; intros d' Hv; [done|]. apply IH. by apply verdict_reject.
Qed.

Lemma verdict_contract d d' : verdict d d' → verdict d (contract_failed d').
Proof. intros Hv. unfold contract_failed. destruct is_Retiring; [done|]. by apply verdict_reject. Qed.

(** A verdict that ends the execution. *)
Definition terminal d d' : Prop := verdict d d' ∧ phase d' = Retiring.

Lemma phase_reject error d : phase (reject error d) = Retiring.
Proof. unfold reject. by destruct (disposition d). Qed.
Lemma phase_complete c d : phase (complete c d) = Retiring.
Proof. unfold complete. by destruct (disposition d). Qed.
Lemma phase_contract d : phase (contract_failed d) = Retiring.
Proof.
  unfold contract_failed. destruct (is_Retiring (phase d)) eqn:H; [by destruct (phase d)|].
  apply phase_reject.
Qed.
Lemma phase_execution_failures failures d :
  phase d = Retiring → phase (receive_execution_failures failures d) = Retiring.
Proof.
  revert d. induction failures as [|p l IH]; intros d H; [done|]. simpl. apply IH, phase_reject.
Qed.
Lemma phase_activation_failures failures d :
  phase d = Retiring → phase (receive_activation_failures failures d) = Retiring.
Proof.
  revert d. induction failures as [|p l IH]; intros d H; [done|]. simpl. apply IH, phase_reject.
Qed.
Lemma is_Retiring_phase (p : ExecutionPhase) : is_Retiring p = true ↔ p = Retiring.
Proof. by destruct p. Qed.

Create HintDb verdict.
#[local] Hint Resolve verdict_refl verdict_reject verdict_complete verdict_execution_failures
  verdict_activation_failures verdict_contract phase_reject phase_complete phase_contract
  phase_execution_failures phase_activation_failures : verdict.
#[local] Hint Extern 1 (terminal _ _) => split : verdict.

(** ** One iteration, on the slots *)

(** The row on offer and its reply, acquired before or now. *)
Inductive offers d : list call → driver → Prop :=
  | offers_acquired : is_Some (source_received d) → offers d [] d
  | offers_now act input received :
      source_received d = None →
      offers d [Call_Offer (source_input d)]
        (set_source_received received (set_source_input input (set_active (Some act) d))).

Definition requeue (index : nat) (custody : SourceCustody S) (rows : list (SettlementTurn S)) :
    option (list (SettlementTurn S)) :=
  match custody with
  | Custody_Exhausted _ => Some rows
  | Custody_Retained settlement => vec_insert index (Turn_Retained settlement) rows
  | Custody_Admitted settlement => vec_insert index (Turn_AwaitSource settlement) rows
  | Custody_Closed settlement => vec_insert index (Turn_Offer settlement) rows
  end.

(** The event source, asked unless an ingress was acquired before. *)
Inductive requests (c : call) d : list call → driver → Prop :=
  | requests_acquired : is_Some (ingress d) → requests c d [] d
  | requests_now act input :
      ingress d = None → requests c d [c] (set_ingress input (set_active (Some act) d)).

(** Which source is asked, and with which queue. *)
Inductive asks d : call → driver → Prop :=
  | asks_source index settlement :
      next_row d = Some (index, Turn_AwaitSource settlement) →
      asks d Call_NextSource
        (set_settlements (<[index := Turn_Offer settlement]> (settlements d)) d)
  | asks_ordinary : next_row d = None → phase d ≠ SettlingInitialization → asks d Call_Next d.

Definition is_running (p : ExecutionPhase) : bool :=
  match p with Initializing | SettlingInitialization | Active => true | _ => false end.

(** The fold of an acquired event, and the application of what it decided. *)
Inductive folds d : list call → driver → LoopFlow → Prop :=
  | folds_nothing d' : (∀ event, ingress d ≠ Some (Continue (Some event))) →
      terminal (set_ingress None d) d' → folds d [] d' Loop_Again
  | folds_rejected event b d' :
      ingress d = Some (Continue (Some event)) →
      terminal (set_behavior b (set_ingress None d)) d' →
      folds d [Call_Fold event None] d' Loop_Again
  | folds_decided event b a acts act i d' fl :
      ingress d = Some (Continue (Some event)) →
      verdict (set_interpretation i (set_actions acts (set_active (Some act)
        (set_actions (Some a) (set_decision (Some (from_step (become_ a)))
          (set_behavior b (set_ingress None d))))))) d' →
      (fl = Loop_Suspended ∨
       fl = Loop_Again ∧ (phase d' = Retiring ∨ acts = None ∧ is_Some i)) →
      folds d [Call_Fold event (Some a); Call_Apply (Some a)] d' fl.

(** A running iteration once the interpretation is classified. *)
Inductive progresses d : list call → driver → LoopFlow → Prop :=
  | progress_broken d' : active d = None → terminal d d' → progresses d [] d' Loop_Again
  | progress_offer_pending index cs d' :
      source_index d = Some index → offers d cs d' → progresses d cs d' Loop_Suspended
  | progress_offer_broken index cs d1 d' :
      source_index d = Some index → offers d cs d1 → terminal d1 d' → progresses d cs d' Loop_Again
  | progress_offer index cs d1 custody q d' :
      source_index d = Some index → offers d cs d1 → source_input d1 = None →
      source_received d1 = Some custody → requeue index custody (settlements d) = Some q →
      verdict (set_settlements q (set_source_received None (set_source_index None d1))) d' →
      (∀ settlement, custody = Custody_Closed settlement → phase d' = Retiring) →
      progresses d cs d' Loop_Again
  | progress_offer_panic index cs custody d' :
      source_index d = Some index → requeue index custody (settlements d) = None →
      progresses d cs d' Loop_Panicked
  | progress_select index settlement :
      source_index d = None → next_row d = Some (index, Turn_Offer settlement) →
      progresses d []
        (set_source_input (Some settlement) (set_source_index (Some index)
          (set_settlements (delete index (settlements d)) d))) Loop_Again
  | progress_publish act d' :
      source_index d = None → next_row d = None → phase d = SettlingInitialization →
      (d' = set_phase Active (set_active (Some act) d) ∨ terminal (set_active (Some act) d) d') →
      progresses d [Call_Publish] d' Loop_Again
  | progress_ask_pending c d1 cs d' :
      source_index d = None → asks d c d1 → requests c d1 cs d' →
      progresses d cs d' Loop_Suspended
  | progress_ask_ended c d1 cs d2 d' ing :
      source_index d = None → asks d c d1 → requests c d1 cs d2 →
      (ing = ingress d2 ∨ ing = None) → terminal (set_ingress ing d2) d' →
      progresses d cs d' Loop_Again
  | progress_ask_fold c d1 cs d2 cs' d' fl :
      source_index d = None → asks d c d1 → requests c d1 cs d2 → folds d2 cs' d' fl →
      progresses d (cs ++ cs') d' fl.

(** The classification of an acquired interpretation. *)
Definition classified (i : I) d : driver :=
  set_decision None
    (set_settlements (Turn_Offer (interpretation_settlement i) :: settlements d)
      (set_interpretation None d)).

(** One iteration: the calls, the driver it leaves and how the loop goes on. *)
Inductive turn d : list call → driver → LoopFlow → Prop :=
  | turn_initialized b a :
      phase d = Prepared →
      turn d [Call_Initialize (Some a)]
        (set_actions (Some a) (set_decision (Some (from_step (become_ a)))
          (set_behavior b (set_phase Activating d)))) Loop_Again
  | turn_initialization_failed b d' :
      phase d = Prepared → terminal (set_behavior b (set_phase Activating d)) d' →
      turn d [Call_Initialize None] d' Loop_Again
  | turn_activation_pending env acts act :
      phase d = Activating →
      turn d [Call_Activate (actions d)]
        (set_activation act (set_actions acts (set_environment env d))) Loop_Suspended
  | turn_activation_failed env acts act r d' :
      phase d = Activating →
      terminal (set_residual r (set_activation act (set_actions acts (set_environment env d)))) d' →
      turn d [Call_Activate (actions d)] d' Loop_Again
  | turn_activated act i d' :
      phase d = Activating →
      verdict (set_phase Initializing (set_interpretation (Some i) (set_active (Some act)
        (set_activation None (set_actions None (set_environment None d)))))) d' →
      turn d [Call_Activate (actions d)] d' Loop_Again
  | turn_unclassified d' :
      is_running (phase d) = true → is_Some (interpretation d) → terminal d d' →
      turn d [] d' Loop_Again
  | turn_classified i d' :
      is_running (phase d) = true → interpretation d = Some i → terminal (classified i d) d' →
      turn d [] d' Loop_Again
  | turn_progresses d1 cs d' fl :
      is_running (phase d) = true →
      (interpretation d = None ∧ d1 = d ∨
       ∃ i, interpretation d = Some i ∧ decision d = Some Decision_Continue ∧
         d1 = set_phase (if is_Initializing (phase d) then SettlingInitialization else phase d)
                (classified i d)) →
      progresses d1 cs d' fl → turn d cs d' fl
  | turn_unretired d' :
      phase d = Retiring →
      (d' = d ∨ gather_retirement d = Some d') → turn d [] d' Loop_Return
  | turn_retire_panic d' :
      phase d = Retiring → gather_retirement d = None → turn d [] d' Loop_Panicked
  | turn_retires_prepared d1 env acts r failures fl :
      phase d = Retiring → gather_retirement d = Some d1 → fl ∈ [Loop_Return; Loop_Suspended] →
      turn d [Call_RetirePrepared]
        (receive_retirement_failures failures
          (set_residual r (set_actions acts (set_environment env (set_phase RetirementAttempted d1))))) fl
  | turn_retires_active d1 act acts i received index ing owned r failures fl :
      phase d = Retiring → gather_retirement d = Some d1 → is_Some (active d1) → fl ∈ [Loop_Return; Loop_Suspended] →
      turn d [Call_RetireActive (retirement_input d1)]
        (receive_retirement_failures failures
          (set_residual r (set_retirement_input owned (set_ingress ing (set_source_index index
            (set_source_received received (set_interpretation i (set_actions acts
              (set_active act (set_phase RetirementAttempted d1)))))))))) fl
  | turn_attempted : phase d = RetirementAttempted → turn d [] d Loop_Return.

Definition of_iteration (R : list call → driver → LoopFlow → Prop) (it : iteration) : Prop :=
  R (calls it) (after it) (flow it).

Lemma of_iterate (R : list call → driver → LoopFlow → Prop) d w cs :
  R cs d Loop_Again → of_iteration R (iterate d w cs).
Proof. done. Qed.
Lemma of_suspend (R : list call → driver → LoopFlow → Prop) d w cs :
  R cs d Loop_Suspended → of_iteration R (suspend d w cs).
Proof. done. Qed.
Lemma of_finish (R : list call → driver → LoopFlow → Prop) d w cs :
  R cs d Loop_Return → of_iteration R (finish d w cs).
Proof. done. Qed.
Lemma of_unwind (R : list call → driver → LoopFlow → Prop) d w cs :
  R cs d Loop_Panicked → of_iteration R (unwind d w cs).
Proof. done. Qed.

Lemma prepared_turn_law d w : phase d = Prepared → of_iteration (turn d) (prepared_turn d w).
Proof.
  intros Hp. unfold prepared_turn. destruct (initialize _) as [b folded] eqn:Hi.
  destruct folded as [a|error|payload]; apply of_iterate; cbn [decided].
  - by apply turn_initialized.
  - apply turn_initialization_failed with b; auto with verdict.
  - apply turn_initialization_failed with b; auto with verdict.
Qed.

Lemma activating_turn_law d w : phase d = Activating → of_iteration (turn d) (activating_turn d w).
Proof.
  intros Hp. unfold activating_turn.
  destruct (activate _ _ _ _) as [[w' [[env acts] act]] run].
  destruct (receive_operation run) as [[reply failures]|] eqn:Hr.
  2: { by apply of_suspend, turn_activation_pending. }
  destruct (is_some env || is_some acts || negb (is_some act)) eqn:Hm.
  { apply of_iterate, turn_activation_failed with env acts act (residual d); [done|].
    change (set_residual (residual d) (set_activation act (set_actions acts (set_environment env d))))
      with (set_activation act (set_actions acts (set_environment env d))). auto with verdict. }
  destruct env, acts, act as [[[act i]|[error r]]|]; try done; cbn [is_Retiring].
  - change (phase (set_interpretation _ _)) with (phase d). rewrite Hp. cbn [is_Retiring].
    apply of_iterate, turn_activated with act i; [done|]. apply verdict_activation_failures, verdict_refl.
  - apply of_iterate, turn_activation_failed with None None None (Some r); [done|].
    change (set_activation None (set_activation _ ?x)) with (set_activation None x).
    auto with verdict.
Qed.

Lemma offer_operation_law d w act d' w' cs failures :
  active d = Some act → offer_operation d w act = (d', w', cs, failures) → offers d cs d'.
Proof.
  intros Ha. unfold offer_operation. destruct (source_received d) as [c|] eqn:Hs.
  - intros [= <- <- <- <-]. constructor. by rewrite Hs.
  - destruct (offer_next _ _ _ _) as [[[w1 act1] [input received]] run]. intros [= <- <- <- <-].
    by apply offers_now.
Qed.

Lemma receive_custody_law index custody failures d :
  match receive_custody index custody failures d with
  | Some d' => ∃ q, requeue index custody (settlements d) = Some q ∧
      verdict (set_settlements q d) d' ∧
      (∀ settlement, custody = Custody_Closed settlement → phase d' = Retiring)
  | None => requeue index custody (settlements d) = None
  end.
Proof.
  unfold receive_custody, requeue, insert_row.
  destruct custody; [|destruct (vec_insert _ _ _) as [q|]; cbn [mbind option_bind]; [|done]..].
  - exists (settlements d). split_and!; [done| |done].
    replace (set_settlements (settlements d) d) with d by (by destruct d).
    destruct (drop_settlement _); auto with verdict.
  - exists q. split_and!; [done|auto with verdict|done].
  - exists q. split_and!; [done|auto with verdict|done].
  - exists q. split_and!; [done|auto with verdict|auto with verdict].
Qed.

Lemma offers_settlements d cs d' : offers d cs d' → settlements d' = settlements d.
Proof. by intros []. Qed.

Lemma offer_turn_law d w act index :
  active d = Some act → source_index d = Some index →
  of_iteration (progresses d) (offer_turn d w act index).
Proof.
  intros Ha Hi. unfold offer_turn.
  destruct (offer_operation d w act) as [[[d1 w1] cs] failures] eqn:Ho.
  apply (offer_operation_law _ _ _ _ _ _ _ Ha) in Ho.
  destruct failures as [failures|]; [|by eapply of_suspend, progress_offer_pending].
  assert (terminal d1 (contract_failed (receive_execution_failures failures d1))) by auto with verdict.
  destruct (source_input d1) eqn:Hin; [by eapply of_iterate, progress_offer_broken|].
  destruct (source_received d1) as [custody|] eqn:Hrec; [|by eapply of_iterate, progress_offer_broken].
  pose proof (receive_custody_law index custody failures
    (set_source_received None (set_source_index None d1))) as Hc.
  change (settlements (set_source_received _ _)) with (settlements d1) in Hc.
  rewrite (offers_settlements _ _ _ Ho) in Hc.
  destruct (receive_custody _ _ _ _) as [d2|].
  - destruct Hc as (q & Hq & Hv & Hcl). by eapply of_iterate, progress_offer.
  - by eapply of_unwind, progress_offer_panic.
Qed.

Lemma request_law c operation d w act d' w' cs failures :
  request c operation d w act = (d', w', cs, failures) →
  active d = Some act → requests c d cs d' ∧ is_Some (active d').
Proof.
  unfold request. destruct (ingress d) as [input|] eqn:Hi.
  - intros [= <- <- <- <-] ->. split; [|done]. constructor. by rewrite Hi.
  - destruct (operation w act) as [[w1 act1] run].
    destruct (receive_operation run) as [[reply failures']|]; intros [= <- <- <- <-] Ha.
    + split; [by apply requests_now|done].
    + split; [|done]. replace (set_active (Some act1) d) with (set_ingress None (set_active (Some act1) d))
        by (destruct d; simpl in *; by subst). by apply requests_now.
Qed.

Lemma fold_turn_law d w cs :
  is_Some (active d) →
  ∃ cs', calls (fold_turn d w cs) = cs ++ cs' ∧
    folds d cs' (after (fold_turn d w cs)) (flow (fold_turn d w cs)).
Proof.
  intros [act Ha]. unfold fold_turn. destruct (ingress d) as [[[event|]|request]|] eqn:Hi.
  - change (behavior (set_ingress None d)) with (behavior d).
    destruct (delegate_transition (behavior d) event) as [b folded].
    destruct folded as [a|error|payload]; cbn [decided].
    + unfold apply_turn. change (active (set_actions _ _)) with (active d). rewrite Ha.
      destruct (apply _ _ _ _) as [[[w1 act1] [acts i]] run].
      set (d1 := set_interpretation i _).
      destruct (receive_operation run) as [[reply failures]|].
      * eexists. split; [cbn [calls iterate]; by rewrite <-app_assoc|].
        apply (folds_decided d event b a acts act1 i); [done|fold d1|].
        -- cbn [after iterate]. destruct (_ && _); auto with verdict.
        -- right. split; [done|]. cbn [after iterate].
           destruct (is_some acts || negb (is_some i)) eqn:Hm; cbn [andb].
           ++ destruct (is_Retiring (phase (receive_execution_failures failures d1))) eqn:Hr; cbn [negb].
              ** left. by apply is_Retiring_phase.
              ** left. apply phase_reject.
           ++ right. by destruct acts, i.
      * eexists. split; [cbn [calls suspend]; by rewrite <-app_assoc|].
        apply (folds_decided d event b a acts act1 i); [done|apply verdict_refl|by left].
    + eexists. split; [done|]. cbn [after flow iterate].
      eapply folds_rejected; [done|auto with verdict].
    + eexists. split; [done|]. cbn [after flow iterate].
      eapply folds_rejected; [done|auto with verdict].
  - exists []. rewrite app_nil_r. split; [done|]. cbn [after flow iterate].
    apply folds_nothing; [by rewrite Hi|auto with verdict].
  - exists []. rewrite app_nil_r. split; [done|]. cbn [after flow iterate].
    apply folds_nothing; [by rewrite Hi|auto with verdict].
  - exists []. rewrite app_nil_r. split; [done|]. cbn [after flow iterate].
    apply folds_nothing; [by rewrite Hi|auto with verdict].
Qed.

Lemma next_row_offer d index row :
  next_row d = Some (index, row) →
  settlements d !! index = Some row ∧ is_retained row = false.
Proof. unfold next_row. intros (Hl & Hr & _)%list_find_Some. done. Qed.

Lemma vec_insert_removed (rows : list (SettlementTurn S)) index row old :
  rows !! index = Some old → vec_insert index row (delete index rows) = Some (<[index := row]> rows).
Proof.
  intros Hl. pose proof (lookup_lt_Some _ _ _ Hl). unfold vec_insert.
  destruct (Nat.leb_spec index (length (delete index rows))) as [_|Hlt].
  2: { rewrite length_delete in Hlt by (by eexists). lia. }
  f_equal. rewrite insert_take_drop by done. rewrite delete_take_drop.
  rewrite take_app_le, take_take, Nat.min_id by (rewrite length_take; lia).
  by rewrite drop_app_ge, length_take, Nat.min_l, Nat.sub_diag, drop_0 by (rewrite ?length_take; lia).
Qed.

Lemma verdict_cases d d' : verdict d d' → d' = d ∨ terminal d d'.
Proof.
  intros Hv. inversion Hv as [Heq|disp added Hf Heq]; [by left|]. right. subst d'. by split.
Qed.

Lemma running_verdict d d' :
  verdict d d' → is_Retiring (phase d) = false →
  if is_Retiring (phase d') then terminal d d' else d' = d.
Proof. intros [-> |[Hv Hp]]%verdict_cases Hr; [by rewrite Hr|]. by rewrite Hp. Qed.

Lemma set_ingress_same d : set_ingress (ingress d) d = d.
Proof. by destruct d. Qed.

Lemma asked_phase d c d1 cs d2 : asks d c d1 → requests c d1 cs d2 → phase d2 = phase d.
Proof. by intros [] []. Qed.

(** What follows an answered request, unless it ended the execution. *)
Lemma asked_law d w c d1 cs d2 :
  source_index d = None → asks d c d1 → requests c d1 cs d2 → is_Some (active d2) →
  of_iteration (progresses d) (fold_turn d2 w cs).
Proof.
  intros Hi Ha Hr Hact. destruct (fold_turn_law d2 w cs Hact) as (cs' & Hcs & Hf).
  unfold of_iteration. rewrite Hcs. by eapply progress_ask_fold.
Qed.

Lemma ordinary_turn_law d w act :
  active d = Some act → is_Retiring (phase d) = false → source_index d = None →
  next_row d = None → phase d ≠ SettlingInitialization →
  of_iteration (progresses d) (ordinary_turn d w act).
Proof.
  intros Hact Hrun Hi Hn Hp. unfold ordinary_turn.
  pose proof (asks_ordinary d Hn Hp) as Hask.
  destruct (request Call_Next next d w act) as [[[d1 w1] cs] failures] eqn:Hr.
  apply request_law in Hr as [Hr Hact1]; [|done].
  destruct failures as [failures|]; [|by eapply of_suspend, progress_ask_pending].
  pose proof (running_verdict d1 _ (verdict_execution_failures d1 d1 failures (verdict_refl d1))) as Hv.
  rewrite (asked_phase _ _ _ _ _ Hask Hr) in Hv. specialize (Hv Hrun).
  destruct (is_Retiring (phase (receive_execution_failures failures d1))) eqn:Hret.
  - eapply of_iterate, progress_ask_ended; [done|done|done|by left|by rewrite set_ingress_same].
  - rewrite Hv. by eapply asked_law.
Qed.

Lemma await_source_turn_law d w act index settlement :
  active d = Some act → is_Retiring (phase d) = false → source_index d = None →
  next_row d = Some (index, Turn_AwaitSource settlement) →
  of_iteration (progresses d)
    (await_source_turn index settlement (set_settlements (delete index (settlements d)) d) w act).
Proof.
  intros Hact Hrun Hi Hn. pose proof (asks_source d index settlement Hn) as Hask.
  destruct (next_row_offer _ _ _ Hn) as [Hl _].
  unfold await_source_turn, insert_row. cbn [settlements set_settlements].
  rewrite (vec_insert_removed _ _ _ _ Hl). cbn [mbind option_bind].
  change (set_settlements ?x (set_settlements _ d)) with (set_settlements x d).
  set (d0 := set_settlements _ d) in *.
  destruct (request Call_NextSource next_source d0 w act) as [[[d1 w1] cs] failures] eqn:Hr.
  apply request_law in Hr as [Hr Hact1]; [|done].
  destruct failures as [failures|]; [|by eapply of_suspend, progress_ask_pending].
  set (d2 := match ingress d1 with Some (Continue None) => _ | _ => _ end).
  assert (∃ ing, (ing = ingress d1 ∨ ing = None) ∧ verdict (set_ingress ing d1) d2 ∧
    (phase d2 ≠ Retiring → d2 = d1)) as (ing & Hing & Hv & Hsame).
  { unfold d2. destruct (ingress d1) as [[[event|]|request]|] eqn:Hin;
      [exists (ingress d1)|exists None|exists (ingress d1)|exists (ingress d1)];
      rewrite ?set_ingress_same; (split; [auto|]); (split; [auto with verdict|]); try done. }
  destruct (is_Retiring (phase (receive_execution_failures failures d2))) eqn:Hret.
  - eapply of_iterate, progress_ask_ended; [done|done|done|done|].
    split; [by apply verdict_execution_failures|by apply is_Retiring_phase].
  - assert (phase d2 ≠ Retiring) as Hne.
    { intros H. apply (phase_execution_failures failures) in H. by rewrite H in Hret. }
    rewrite (Hsame Hne) in *.
    pose proof (running_verdict d1 _ (verdict_execution_failures d1 d1 failures (verdict_refl d1))) as Hv1.
    rewrite (asked_phase _ _ _ _ _ Hask Hr), Hret in Hv1. rewrite (Hv1 Hrun).
    destruct (is_some (ingress d1)) eqn:Hs; [by eapply asked_law|].
    eapply of_iterate, progress_ask_ended; [done|done|done|by left|].
    rewrite set_ingress_same. auto with verdict.
Qed.

Lemma settle_turn_law d w act :
  active d = Some act → is_Retiring (phase d) = false → source_index d = None →
  of_iteration (progresses d) (settle_turn d w act).
Proof.
  intros Hact Hrun Hi. unfold settle_turn.
  destruct (next_row d) as [[index row]|] eqn:Hn.
  - destruct (next_row_offer _ _ _ Hn) as [Hl Hret].
    unfold vec_remove. rewrite Hl. cbn [mbind option_bind].
    destruct row as [settlement|settlement|settlement]; [| |done].
    + by apply of_iterate, progress_select.
    + by apply await_source_turn_law.
  - destruct (is_SettlingInitialization (phase d)) eqn:Hs.
    + unfold publish_turn. destruct (publish w act) as [[w1 act1] publication].
      apply of_iterate. apply progress_publish with act1; [done|done|by destruct (phase d)|].
      destruct publication as [[[]|request]|payload]; [by left|right; auto with verdict..].
    + apply ordinary_turn_law; [done..|]. by destruct (phase d).
Qed.

Lemma classify_law d :
  is_running (phase d) = true →
  let '(d', go) := classify d in
  if go then
    interpretation d = None ∧ d' = d ∨
    ∃ i, interpretation d = Some i ∧ decision d = Some Decision_Continue ∧
      d' = set_phase (if is_Initializing (phase d) then SettlingInitialization else phase d)
             (classified i d)
  else
    (is_Some (interpretation d) ∧ terminal d d') ∨
    (∃ i, interpretation d = Some i ∧ terminal (classified i d) d').
Proof.
  intros Hrun. unfold classify. destruct (interpretation d) as [i|] eqn:Hi; [|by left].
  destruct (settlement_status i) as [status|payload].
  2: { left. split; [by eexists|auto with verdict]. }
  change (decision (set_settlements _ _)) with (decision d).
  change (settlements (set_interpretation None d)) with (settlements d).
  fold (classified i d). change (phase (classified i d)) with (phase d).
  assert (set_phase (phase d) (classified i d) = classified i d) as Hsame by done.
  destruct status.
  - destruct (decision d) as [[]|] eqn:Hd; [|right; exists i; auto with verdict..].
    right. exists i. split_and!; [done|done|]. by destruct (is_Initializing (phase d)).
  - destruct (is_Initializing (phase d)) eqn:Hin; [right; exists i; auto with verdict|].
    destruct (decision d) as [[]|] eqn:Hd; [|right; exists i; auto with verdict..].
    right. by exists i.
  - right; exists i; auto with verdict.
Qed.

Lemma running_turn_law d w : is_running (phase d) = true → of_iteration (turn d) (running_turn d w).
Proof.
  intros Hrun. pose proof (classify_law d Hrun) as Hc. unfold running_turn.
  destruct (classify d) as [d1 []]; cbn [negb].
  2: { apply of_iterate. destruct Hc as [[Hi Ht] | (i & Hi & Ht)];
         [by apply turn_unclassified|by eapply turn_classified]. }
  assert (is_Retiring (phase d1) = false) as Hr.
  { destruct Hc as [[_ ->] | (i & _ & _ & ->)]; [by destruct (phase d)|]. by destruct (phase d). }
  assert (∀ it, of_iteration (progresses d1) it → of_iteration (turn d) it) as Hgo
    by (intros it; by apply turn_progresses).
  apply Hgo. destruct (active d1) as [act|] eqn:Ha.
  - destruct (source_index d1) as [index|] eqn:Hi; [by apply offer_turn_law|by apply settle_turn_law].
  - apply of_iterate. apply progress_broken; auto with verdict.
Qed.

Lemma receive_no_failures d : receive_retirement_failures [] d = d.
Proof. unfold receive_retirement_failures. cbn [map]. rewrite app_nil_r. by destruct d. Qed.

Lemma retiring_turn_law d w : phase d = Retiring → of_iteration (turn d) (retiring_turn d w).
Proof.
  intros Hp. unfold retiring_turn.
  destruct (is_some (source_input d) && is_some (source_received d)).
  { apply of_finish, turn_unretired; auto. }
  destruct (gather_retirement d) as [d1|] eqn:Hg; [|by apply of_unwind, turn_retire_panic].
  assert (of_iteration (turn d) (finish d1 w [])) as Hend.
  { apply of_finish, turn_unretired; auto. }
  destruct (environment d1) as [env|], (active d1) as [act|] eqn:Ha, (residual d1) as [r|]; try exact Hend.
  - unfold retire_prepared_turn.
    destruct (retire_prepared _ _ _ _) as [[w1 [[env1 acts1] r1]] run].
    destruct (receive_operation run) as [[reply failures]|].
    + apply of_finish, turn_retires_prepared; [done|done|set_solver].
    + pose proof (turn_retires_prepared d d1 env1 acts1 r1 [] Loop_Suspended Hp Hg) as H.
      rewrite receive_no_failures in H. apply of_suspend, H. set_solver.
  - unfold retire_active_turn. cbn [retirement_input active set_phase]. rewrite Ha.
    destruct (retire_active _ _ _ _ _ _ _ _ _) as [[w1 [[[[[[[act1 acts1] i1] rec1] ix1] ing1] own1] r1]] run].
    destruct (receive_operation run) as [[reply failures]|].
    + apply of_finish, turn_retires_active; [done|done|by rewrite Ha|set_solver].
    + pose proof (turn_retires_active d d1 act1 acts1 i1 rec1 ix1 ing1 own1 r1 [] Loop_Suspended Hp Hg) as H.
      rewrite receive_no_failures in H. apply of_suspend, H; [by rewrite Ha|set_solver].
Qed.

Lemma drive_step_turn d w : of_iteration (turn d) (drive_step d w).
Proof.
  unfold drive_step. destruct (phase d) eqn:Hp.
  - by apply prepared_turn_law.
  - by apply activating_turn_law.
  - apply running_turn_law. by rewrite Hp.
  - apply running_turn_law. by rewrite Hp.
  - apply running_turn_law. by rewrite Hp.
  - by apply retiring_turn_law.
  - by apply of_finish, turn_attempted.
Qed.

(** ** Histories *)

(** Iterations from a driver, whatever the world is at each: an operation may be
    cancelled while it is pending and the driver received again, and an owner
    that was handed back may be received again. *)
Inductive receives d : list call → driver → Prop :=
  | receives_nil : receives d [] d
  | receives_snoc cs d1 w :
      receives d cs d1 → flow (drive_step d1 w) ≠ Loop_Panicked →
      receives d (cs ++ calls (drive_step d1 w)) (after (drive_step d1 w)).

Lemma receives_step d w :
  flow (drive_step d w) ≠ Loop_Panicked → receives d (calls (drive_step d w)) (after (drive_step d w)).
Proof. intros Hf. exact (receives_snoc d [] d w (receives_nil d) Hf). Qed.

Lemma receives_app d cs d1 cs' d2 : receives d cs d1 → receives d1 cs' d2 → receives d (cs ++ cs') d2.
Proof.
  intros H1. induction 1 as [|cs' d2 w _ IH Hf]; [by rewrite app_nil_r|].
  rewrite app_assoc. by apply receives_snoc.
Qed.

(** Up to [n] iterations. *)
Fixpoint go (n : nat) d w : list call * driver :=
  match n with
  | 0 => ([], d)
  | Datatypes.S n =>
      let it := drive_step d w in
      match flow it with
      | Loop_Panicked => ([], d)
      | _ => let '(cs, d') := go n (after it) w in (calls it ++ cs, d')
      end
  end.

Lemma go_receives n d w : receives d (go n d w).1 (go n d w).2.
Proof.
  revert d. induction n as [|n IH]; intros d; [constructor|]. simpl.
  destruct (flow (drive_step d w)) eqn:Hf; try constructor;
    specialize (IH (after (drive_step d w))); destruct (go n _ w) as [cs d'];
    (eapply receives_app; [apply receives_step; by rewrite Hf|exact IH]).
Qed.

Definition driven (b : B) (env : Env) : list call → driver → Prop := receives (Driver_new b env).

Lemma receives_ind' d (R : list call → driver → Prop) :
  R [] d →
  (∀ cs d1 cs' d' fl, R cs d1 → turn d1 cs' d' fl → R (cs ++ cs') d') →
  ∀ cs d', receives d cs d' → R cs d'.
Proof.
  intros H0 Hs cs d' Hr. induction Hr as [|cs d1 w _ IH _]; [done|].
  eapply Hs; [done|apply drive_step_turn].
Qed.

(** *** The queue is indexed within its bounds *)

Definition bounded d : Prop :=
  ∀ index, source_index d = Some index → index ≤ length (settlements d).

(** Once the rows are gathered for retirement the index is not used again. *)
Definition index_ok d : Prop :=
  phase d = RetirementAttempted ∨ phase d = Retiring ∧ is_Some (retirement_input d) ∨ bounded d.

Lemma bounded_none d : source_index d = None → bounded d.
Proof. intros H index. by rewrite H. Qed.

Lemma verdict_bounded d d' : verdict d d' → bounded d → bounded d'.
Proof. by intros []. Qed.
Lemma terminal_bounded d d' : terminal d d' → bounded d → bounded d'.
Proof. intros [Hv _]. by apply verdict_bounded. Qed.

Lemma requeue_some index custody rows :
  index ≤ length rows → is_Some (requeue index custody rows).
Proof.
  intros Hle. unfold requeue, vec_insert. apply Nat.leb_le in Hle. rewrite Hle.
  destruct custody; by eexists.
Qed.

Lemma gather_some d :
  is_Some (retirement_input d) ∨ bounded d →
  ∃ d', gather_retirement d = Some d' ∧ phase d' = phase d ∧ (d' = d ∨ is_Some (retirement_input d')).
Proof.
  intros Hix. unfold gather_retirement.
  destruct (retirement_input d) as [l|] eqn:Hr; [by eexists; auto|].
  destruct Hix as [[l Hl]|Hix]; [done|].
  destruct (active d) as [act|] eqn:Ha; [|by eexists; auto].
  destruct (source_input d) as [settlement|] eqn:Hin.
  2: { eexists. split; [by destruct (source_index d)|]. split; [done|]. right. by eexists. }
  destruct (source_index d) as [index|] eqn:Hi.
  2: { eexists. split; [done|]. split; [done|]. right. by eexists. }
  unfold insert_row, vec_insert. cbn [settlements set_source_index set_source_input].
  specialize (Hix index Hi). apply Nat.leb_le in Hix. rewrite Hix.
  cbn [mbind option_bind]. eexists. split; [done|]. split; [done|]. right. by eexists.
Qed.

Lemma offers_bounded d cs d' : offers d cs d' → bounded d → bounded d'.
Proof. by intros []. Qed.
Lemma requests_bounded c d cs d' : requests c d cs d' → bounded d → bounded d'.
Proof. by intros []. Qed.
Lemma asks_bounded d c d' : asks d c d' → source_index d = None → bounded d'.
Proof. intros Ha Hi. apply bounded_none. by destruct Ha. Qed.
Lemma folds_bounded d cs d' fl : folds d cs d' fl → bounded d → bounded d' ∧ fl ≠ Loop_Panicked.
Proof.
  intros [d1 _ Ht|event b d1 _ Ht|event b a acts act i d1 fl' _ Hv Hfl] Hb.
  - split; [|done]. eapply terminal_bounded; [exact Ht|]. exact Hb.
  - split; [|done]. eapply terminal_bounded; [exact Ht|]. exact Hb.
  - split; [eapply verdict_bounded; [exact Hv|]; exact Hb|]. naive_solver.
Qed.

Lemma progresses_bounded d cs d' fl :
  progresses d cs d' fl → bounded d → bounded d' ∧ fl ≠ Loop_Panicked.
Proof.
  intros Hp Hb. destruct Hp as [d' _ Ht|index cs d' _ Ho|index cs d1 d' _ Ho Ht
    |index cs d1 custody q d' Hi Ho _ _ _ Hv _|index cs custody d' Hi Hq|index settlement _ Hn
    |act d' Hi _ _ Ht|c d1 cs d' Hi Ha Hr|c d1 cs d2 d' ing Hi Ha Hr _ Ht
    |c d1 cs d2 cs' d' fl Hi Ha Hr Hf].
  - split; [by eapply terminal_bounded|done].
  - split; [by eapply offers_bounded|done].
  - split; [|done]. eapply terminal_bounded; [done|]. by eapply offers_bounded.
  - split; [|done]. eapply verdict_bounded; [done|]. by apply bounded_none.
  - destruct (requeue_some index custody (settlements d)) as [q Hq']; [by apply Hb|congruence].
  - split; [|done]. intros i. cbn [source_index settlements set_source_input set_source_index set_settlements].
    intros [= <-]. destruct (next_row_offer _ _ _ Hn) as [Hl _].
    rewrite length_delete by (by eexists). apply lookup_lt_Some in Hl. lia.
  - split; [|done]. destruct Ht as [-> |Ht]; [done|]. by eapply terminal_bounded.
  - split; [|done]. eapply requests_bounded; [done|]. by eapply asks_bounded.
  - split; [|done]. eapply terminal_bounded; [done|]. apply (requests_bounded _ _ _ _ Hr).
    by eapply asks_bounded.
  - eapply folds_bounded; [done|]. eapply requests_bounded; [done|]. by eapply asks_bounded.
Qed.

Lemma index_ok_running d : is_Retiring (phase d) = false → phase d ≠ RetirementAttempted →
  index_ok d → bounded d.
Proof. intros Hr Ha [?|[[Hp _]|Hb]]; [done| |done]. by rewrite Hp in Hr. Qed.

Lemma classified_bounded i d : bounded d → bounded (classified i d).
Proof. intros Hb index Hi. specialize (Hb index Hi). cbn. lia. Qed.

Lemma turn_index d cs d' fl :
  turn d cs d' fl → index_ok d → index_ok d' ∧ fl ≠ Loop_Panicked.
Proof.
  intros Ht Hok.
  assert (∀ p, phase d = p → p ≠ Retiring → p ≠ RetirementAttempted → bounded d) as Hb.
  { intros p Hp H1 H2. apply index_ok_running; [by rewrite Hp; destruct p|by rewrite Hp|done]. }
  destruct Ht as [b a Hp|b d' Hp Ht|env acts act Hp|env acts act r d' Hp Ht|act i d' Hp Hv
    |d' Hp _ Ht|i d' Hp _ Ht|d1 cs d' fl Hp Hd1 Hpr|d' Hp Hg|d' Hp Hg
    |d1 env acts r failures fl Hp Hg Hfl|d1 act acts i received index ing owned r failures fl Hp Hg _ Hfl|Hp].
  - split; [|done]. right. right. exact (Hb _ Hp ltac:(done) ltac:(done)).
  - split; [|done]. right. right. eapply terminal_bounded; [done|]. exact (Hb _ Hp ltac:(done) ltac:(done)).
  - split; [|done]. right. right. exact (Hb _ Hp ltac:(done) ltac:(done)).
  - split; [|done]. right. right. eapply terminal_bounded; [done|]. exact (Hb _ Hp ltac:(done) ltac:(done)).
  - split; [|done]. right. right. eapply verdict_bounded; [done|]. exact (Hb _ Hp ltac:(done) ltac:(done)).
  - split; [|done]. right. right. eapply terminal_bounded; [done|]. by eapply Hb; [done|destruct (phase d)..].
  - split; [|done]. right. right. eapply terminal_bounded; [done|]. apply classified_bounded.
    by eapply Hb; [done|destruct (phase d)..].
  - assert (bounded d) as Hbd by (by eapply Hb; [done|destruct (phase d)..]).
    assert (bounded d1) as Hb1.
    { destruct Hd1 as [[_ ->] | (i & _ & _ & ->)]; [done|]. exact (classified_bounded i d Hbd). }
    destruct (progresses_bounded _ _ _ _ Hpr Hb1) as [Hb' Hfl]. split; [by right; right|done].
  - split; [|done]. destruct Hg as [-> |Hg]; [done|].
    destruct Hok as [?|Hok]; [congruence|].
    destruct (gather_some d) as (d1 & Hg1 & Hph & Hd1); [naive_solver|].
    rewrite Hg in Hg1. injection Hg1 as <-. destruct Hd1 as [-> |Hd1]; [by right|].
    right. left. split; [congruence|done].
  - destruct Hok as [?|Hok]; [congruence|].
    destruct (gather_some d) as (d1 & Hg1 & _); [naive_solver|congruence].
  - split; [by left|set_solver].
  - split; [by left|set_solver].
  - split; [by left|done].
Qed.
Lemma driven_index b env cs d : driven b env cs d → index_ok d.
Proof.
  revert cs d. refine (receives_ind' _ (λ _ d, index_ok d) _ _).
  - right. right. by apply bounded_none.
  - intros cs d1 cs' d' fl Hok Ht. by apply (turn_index _ _ _ _ Ht).
Qed.

Lemma driven_runs b env cs d w : driven b env cs d → flow (drive_step d w) ≠ Loop_Panicked.
Proof.
  intros Hd. apply (turn_index _ _ _ _ (drive_step_turn d w)). by eapply driven_index.
Qed.

(** An uninterrupted run is a history. *)
Lemma reaches_receives d w cs d' w' : reaches d w cs d' w' → receives d cs d'.
Proof.
  induction 1 as [d w|d w cs d' w' Hf _ IH]; [constructor|].
  eapply receives_app; [apply receives_step; by rewrite Hf|done].
Qed.

(** And a run of [drive] ends in one. *)
Lemma drive_reached fuel d w cs last :
  drive fuel d w = Some (cs, last) →
  ∃ cs' d' w', reaches d w cs' d' w' ∧ last = drive_step d' w' ∧ cs = cs' ++ calls last.
Proof.
  revert d w cs. induction fuel as [|fuel IH]; [done|]. intros d w cs. simpl.
  destruct (flow (drive_step d w)) eqn:Hf;
    try (intros [= <- <-]; by exists [], d, w; split; [constructor|]).
  destruct (drive fuel _ _) as [[cs1 last']|] eqn:Hd; [|done]. intros [= <- <-].
  destruct (IH _ _ _ Hd) as (cs' & d' & w' & Hr & Hl & ->).
  exists (calls (drive_step d w) ++ cs'), d', w'.
  split; [by constructor|]. split; [done|]. by rewrite app_assoc.
Qed.

(** *** What each phase may call *)

Definition is_initialize (c : call) : bool := match c with Call_Initialize _ => true | _ => false end.
Definition is_publish (c : call) : bool := match c with Call_Publish => true | _ => false end.
Definition is_retire (c : call) : bool :=
  match c with Call_RetirePrepared | Call_RetireActive _ => true | _ => false end.
Definition is_ordinary (c : call) : bool :=
  negb (is_initialize c || is_publish c || is_retire c).

Definition before_publication (p : ExecutionPhase) : bool :=
  match p with Prepared | Activating | Initializing | SettlingInitialization => true | _ => false end.
Definition is_executing (p : ExecutionPhase) : bool :=
  match p with Activating | Initializing | SettlingInitialization | Active => true | _ => false end.

(** The phase an executing iteration leads to. *)
Definition goes_to (p p' : ExecutionPhase) : Prop :=
  p' = Retiring ∨
  is_executing p' = true ∧ before_publication p' = before_publication p ∧
  (is_running p = true → is_running p' = true).

Lemma goes_to_same p : is_executing p = true → goes_to p p.
Proof. by right. Qed.
Lemma goes_to_verdict d d' p : verdict d d' → goes_to p (phase d) → goes_to p (phase d').
Proof. intros [-> |[_ Hp]]%verdict_cases H; [done|by left]. Qed.

Lemma offers_ordinary d cs d' :
  offers d cs d' → Forall (λ c, is_ordinary c = true) cs ∧ phase d' = phase d.
Proof. intros []; split; by repeat constructor. Qed.
Lemma requests_ordinary c d cs d' :
  requests c d cs d' → is_ordinary c = true → Forall (λ c, is_ordinary c = true) cs ∧ phase d' = phase d.
Proof. intros [] Hc; split; by repeat constructor. Qed.
Lemma asks_ordinary_call d c d' : asks d c d' → is_ordinary c = true ∧ phase d' = phase d.
Proof. by intros []. Qed.
Lemma folds_ordinary d cs d' fl p :
  folds d cs d' fl → goes_to p (phase d) → Forall (λ c, is_ordinary c = true) cs ∧ goes_to p (phase d').
Proof.
  intros [d1 _ [_ Hp]|event b d1 _ [_ Hp]|event b a acts act i d1 fl' _ Hv _] Hg.
  - split; [constructor|by left].
  - split; [by repeat constructor|by left].
  - split; [by repeat constructor|]. by eapply goes_to_verdict.
Qed.

Lemma progresses_calls d cs d' fl p :
  progresses d cs d' fl → fl ≠ Loop_Panicked → goes_to p (phase d) →
  Forall (λ c, is_ordinary c = true) cs ∧ goes_to p (phase d') ∨
  cs = [Call_Publish] ∧ phase d = SettlingInitialization ∧ (phase d' = Active ∨ phase d' = Retiring).
Proof.
  intros Hp Hfl Hg. destruct Hp as [d' _ [_ Hph]|index cs d' _ Ho|index cs d1 d' _ Ho [_ Hph]
    |index cs d1 custody q d' Hi Ho _ _ _ Hv _|index cs custody d' Hi Hq|index settlement _ Hn
    |act d' Hi _ Hs Ht|c d1 cs d' Hi Ha Hr|c d1 cs d2 d' ing Hi Ha Hr _ [_ Hph]
    |c d1 cs d2 cs' d' fl Hi Ha Hr Hf].
  - left. split; [constructor|by left].
  - left. destruct (offers_ordinary _ _ _ Ho) as [Hc ->]. done.
  - left. destruct (offers_ordinary _ _ _ Ho) as [Hc _]. split; [done|by left].
  - left. destruct (offers_ordinary _ _ _ Ho) as [Hc Hph]. split; [done|].
    eapply goes_to_verdict; [done|]. cbn. by rewrite Hph.
  - done.
  - left. by split; [constructor|].
  - right. split; [done|]. split; [done|]. destruct Ht as [-> |[_ Hph]]; [by left|by right].
  - left. destruct (asks_ordinary_call _ _ _ Ha) as [Hc Hph].
    destruct (requests_ordinary _ _ _ _ Hr Hc) as [Hcs Hph1]. split; [done|]. by rewrite Hph1, Hph.
  - left. destruct (asks_ordinary_call _ _ _ Ha) as [Hc _].
    destruct (requests_ordinary _ _ _ _ Hr Hc) as [Hcs _]. split; [done|by left].
  - left. destruct (asks_ordinary_call _ _ _ Ha) as [Hc Hph].
    destruct (requests_ordinary _ _ _ _ Hr Hc) as [Hcs Hph1].
    destruct (folds_ordinary _ _ _ _ p Hf) as [Hcs' Hg']; [by rewrite Hph1, Hph|].
    split; [|done]. by apply Forall_app.
Qed.

Lemma is_running_executing p : is_running p = true → is_executing p = true.
Proof. by destruct p. Qed.

Lemma gather_phase d d' : gather_retirement d = Some d' → phase d' = phase d.
Proof.
  unfold gather_retirement. destruct (retirement_input d); [by intros [= <-]|].
  destruct (active d); [|by intros [= <-]].
  destruct (source_input d), (source_index d); try (by intros [= <-]).
  unfold insert_row. destruct (vec_insert _ _ _); [by intros [= <-]|done].
Qed.

(** What one iteration may call, and where it leads, by phase. *)
Lemma turn_calls d cs d' fl :
  turn d cs d' fl → fl ≠ Loop_Panicked →
  match phase d with
  | Prepared => ∃ x, cs = [Call_Initialize x] ∧ (phase d' = Activating ∨ phase d' = Retiring)
  | Retiring => cs = [] ∧ phase d' = Retiring ∨
      ∃ r, cs = [r] ∧ is_retire r = true ∧ phase d' = RetirementAttempted
  | RetirementAttempted => cs = [] ∧ d' = d
  | p => Forall (λ c, is_ordinary c = true) cs ∧ goes_to p (phase d') ∨
      cs = [Call_Publish] ∧ before_publication p = true ∧ (phase d' = Active ∨ phase d' = Retiring)
  end.
Proof.
  intros Ht Hfl. destruct Ht as [b a Hp|b d' Hp [_ Ht]|env acts act Hp|env acts act r d' Hp [_ Ht]
    |act i d' Hp Hv|d' Hp _ [_ Ht]|i d' Hp _ [_ Ht]|d1 cs d' fl Hp Hd1 Hpr|d' Hp Hg|d' Hp Hg
    |d1 env acts r failures fl Hp Hg _|d1 act acts i received index ing owned r failures fl Hp Hg _ _|Hp];
    try rewrite Hp.
  - eexists. split; [done|by left].
  - eexists. split; [done|by right].
  - left. split; [by repeat constructor|]. cbn. rewrite Hp. by right.
  - left. split; [by repeat constructor|by left].
  - left. split; [by repeat constructor|]. eapply goes_to_verdict; [done|]. by right.
  - destruct (phase d); try done; left; (split; [constructor|by left]).
  - destruct (phase d); try done; left; (split; [constructor|by left]).
  - assert (goes_to (phase d) (phase d1)) as Hg.
    { destruct Hd1 as [[_ ->] | (i & _ & _ & ->)]; [by apply goes_to_same, is_running_executing|].
      right. by destruct (phase d). }
    destruct (progresses_calls _ _ _ _ _ Hpr Hfl Hg) as [Hc|(Hc & Hs & Hd')].
    + destruct (phase d); try done; by left.
    + assert (before_publication (phase d) = true) as Hb.
      { destruct Hg as [Hg|(_ & Hg & _)]; [congruence|]. by rewrite <-Hg, Hs. }
      destruct (phase d); try done; by right.
  - left. split; [done|]. destruct Hg as [-> |Hg]; [done|]. by rewrite (gather_phase _ _ Hg).
  - done.
  - right. by eexists.
  - right. by eexists.
  - done.
Qed.

(** What a history called, by the phase it is in. *)
Record called (cs : list call) (p : ExecutionPhase) : Prop := {
  called_first : match cs with
                 | [] => True
                 | c :: cs => is_initialize c = true ∧ Forall (λ c, is_initialize c = false) cs
                 end;
  called_prepared : p = Prepared → cs = [];
  called_started : p ≠ Prepared → cs ≠ [];
  called_published : length (filter (λ c, is_publish c = true) cs) ≤ 1;
  called_unpublished : before_publication p = true → filter (λ c, is_publish c = true) cs = [];
  called_last : if decide (p = RetirementAttempted)
                then ∃ cs' r, cs = cs' ++ [r] ∧ is_retire r = true ∧ Forall (λ c, is_retire c = false) cs'
                else Forall (λ c, is_retire c = false) cs
}.

Lemma ordinary_not c : is_ordinary c = true →
  is_initialize c = false ∧ is_publish c = false ∧ is_retire c = false.
Proof. by destruct c. Qed.
Lemma ordinary_calls cs : Forall (λ c, is_ordinary c = true) cs →
  Forall (λ c, is_initialize c = false) cs ∧ filter (λ c, is_publish c = true) cs = [] ∧
  Forall (λ c, is_retire c = false) cs.
Proof.
  induction 1 as [|c cs Hc _ IH]; [done|].
  apply ordinary_not in Hc as (H1 & H2 & H3). destruct IH as (I1 & I2 & I3).
  split_and!; [by constructor| |by constructor].
  rewrite filter_cons_False; [done|congruence].
Qed.

Lemma called_app cs cs' p p' :
  called cs p → p ≠ Prepared → p ≠ RetirementAttempted → p' ≠ Prepared → p' ≠ RetirementAttempted →
  Forall (λ c, is_initialize c = false) cs' → Forall (λ c, is_retire c = false) cs' →
  (filter (λ c, is_publish c = true) cs' = [] ∧ (before_publication p' = true → before_publication p = true) ∨
   length (filter (λ c, is_publish c = true) cs') ≤ 1 ∧ before_publication p = true ∧ before_publication p' = false) →
  called (cs ++ cs') p'.
Proof.
  intros [C1 C2 C3 C4 C5 C6] Hp Ha Hp' Ha' Hi Hr Hpub. rewrite decide_False in C6 by done.
  specialize (C3 Hp). split.
  - destruct cs as [|c cs]; [done|]. destruct C1 as [H1 H2]. split; [done|]. by apply Forall_app.
  - done.
  - by destruct cs.
  - rewrite filter_app, length_app. destruct Hpub as [[-> _]|(Hl & Hb & _)]; [cbn; lia|].
    rewrite (C5 Hb). cbn. lia.
  - intros Hb. rewrite filter_app. destruct Hpub as [[-> H]|(_ & _ & Hb')]; [|congruence].
    by rewrite (C5 (H Hb)).
  - rewrite decide_False by done. by apply Forall_app.
Qed.

Lemma called_initialized x p : p = Activating ∨ p = Retiring → called [Call_Initialize x] p.
Proof.
  intros Hp. assert (filter (λ c, is_publish c = true) [Call_Initialize x : call] = []) as Hf
    by by rewrite filter_cons_False.
  split; [by split|by destruct Hp as [-> | ->]|done|rewrite Hf; cbn; lia|done|].
  rewrite decide_False by (by destruct Hp as [-> | ->]). by repeat constructor.
Qed.

Lemma turn_called cs d cs' d' fl :
  called cs (phase d) → turn d cs' d' fl → fl ≠ Loop_Panicked → called (cs ++ cs') (phase d').
Proof.
  intros Hc Ht Hfl. pose proof (turn_calls _ _ _ _ Ht Hfl) as Hcalls.
  assert (∀ p, phase d = p → is_executing p = true →
    Forall (λ c, is_ordinary c = true) cs' ∧ goes_to p (phase d') ∨
      cs' = [Call_Publish] ∧ before_publication p = true ∧ (phase d' = Active ∨ phase d' = Retiring) →
    called (cs ++ cs') (phase d')) as Hexec.
  { intros p Hp He [[Ho Hg]|(-> & Hb & Hd')].
    - apply ordinary_calls in Ho as (H1 & H2 & H3).
      eapply called_app; [done| | | | |done|done|left; split; [done|]];
        try (rewrite Hp; by destruct p);
        destruct Hg as [Hg|(Hg & Hg' & _)]; try (by rewrite Hg); try (by destruct (phase d')).
      by rewrite Hp, Hg'.
    - eapply called_app; [done| | | | |by repeat constructor|by repeat constructor|right; split_and!; [done| |]];
        try (rewrite Hp; by destruct p); destruct Hd' as [Hg|Hg]; try (by rewrite Hg). }
  destruct (phase d) eqn:Hp; try exact (Hexec _ eq_refl eq_refl Hcalls).
  - destruct Hcalls as (x & -> & Hd'). rewrite (called_prepared _ _ Hc eq_refl). simpl.
    by apply called_initialized.
  - destruct Hcalls as [[-> ->]|(r & -> & Hr & ->)]; [by rewrite app_nil_r|].
    destruct Hc as [C1 C2 C3 C4 C5 C6]. rewrite decide_False in C6 by done.
    split; [|done| | |done|].
    + destruct cs as [|c cs]; [by destruct C3|]. destruct C1 as [H1 H2]. split; [done|].
      apply Forall_app. split; [done|]. constructor; [by destruct r|constructor].
    + by destruct cs.
    + rewrite filter_app, length_app, filter_cons_False by (by destruct r). cbn. lia.
    + rewrite decide_True by done. by exists cs, r.
  - destruct Hcalls as [-> ->]. by rewrite app_nil_r, Hp.
Qed.
(** *** Terminal edges *)

(** The first disposition stays, and failures are only appended. *)
Definition extends d d' : Prop :=
  (∀ first, disposition d = Some first → disposition d' = Some first) ∧
  additional_failures d `prefix_of` additional_failures d'.

Lemma extends_refl d : extends d d.
Proof. by split. Qed.
Lemma extends_trans d1 d2 d3 : extends d1 d2 → extends d2 d3 → extends d1 d3.
Proof. intros [H1 H2] [H3 H4]. split; [by auto|]. by trans (additional_failures d2). Qed.
Lemma verdict_extends d d' : verdict d d' → extends d d'.
Proof.
  intros [|disp added Hf]; [apply extends_refl|]. split; [|by eexists].
  intros first Hd. cbn. by rewrite (Hf first Hd).
Qed.
Lemma terminal_extends d d' : terminal d d' → extends d d'.
Proof. intros [Hv _]. by apply verdict_extends. Qed.

Lemma offers_extends d cs d' : offers d cs d' → extends d d'.
Proof. by intros []. Qed.
Lemma requests_extends c d cs d' : requests c d cs d' → extends d d'.
Proof. by intros []. Qed.
Lemma asks_extends d c d' : asks d c d' → extends d d'.
Proof. by intros []. Qed.
Lemma folds_extends d cs d' fl : folds d cs d' fl → extends d d'.
Proof.
  intros [d1 _ Ht|event b d1 _ Ht|event b a acts act i d1 fl' _ Hv _].
  - exact (terminal_extends _ _ Ht).
  - exact (terminal_extends _ _ Ht).
  - exact (verdict_extends _ _ Hv).
Qed.

Lemma progresses_extends d cs d' fl : progresses d cs d' fl → fl ≠ Loop_Panicked → extends d d'.
Proof.
  intros Hp Hfl. destruct Hp as [d' _ Ht|index cs d' _ Ho|index cs d1 d' _ Ho Ht
    |index cs d1 custody q d' Hi Ho _ _ _ Hv _|index cs custody d' Hi Hq|index settlement _ Hn
    |act d' Hi _ Hs Ht|c d1 cs d' Hi Ha Hr|c d1 cs d2 d' ing Hi Ha Hr _ Ht
    |c d1 cs d2 cs' d' fl Hi Ha Hr Hf].
  - by apply terminal_extends.
  - by eapply offers_extends.
  - eapply extends_trans; [by eapply offers_extends|by apply terminal_extends].
  - eapply extends_trans; [by eapply offers_extends|exact (verdict_extends _ _ Hv)].
  - done.
  - done.
  - destruct Ht as [-> |Ht]; [done|]. exact (terminal_extends _ _ Ht).
  - eapply extends_trans; [by eapply asks_extends|by eapply requests_extends].
  - eapply extends_trans; [by eapply asks_extends|].
    eapply extends_trans; [by eapply requests_extends|exact (terminal_extends _ _ Ht)].
  - eapply extends_trans; [by eapply asks_extends|].
    eapply extends_trans; [by eapply requests_extends|by eapply folds_extends].
Qed.

Lemma gather_slots d d' :
  gather_retirement d = Some d' →
  disposition d' = disposition d ∧ additional_failures d' = additional_failures d ∧ phase d' = phase d.
Proof.
  unfold gather_retirement. destruct (retirement_input d); [by intros [= <-]|].
  destruct (active d); [|by intros [= <-]].
  destruct (source_input d), (source_index d); try (by intros [= <-]).
  unfold insert_row. destruct (vec_insert _ _ _); [by intros [= <-]|done].
Qed.

Lemma turn_extends d cs d' fl : turn d cs d' fl → fl ≠ Loop_Panicked → extends d d'.
Proof.
  intros Ht Hfl. destruct Ht as [b a Hp|b d' Hp Ht|env acts act Hp|env acts act r d' Hp Ht
    |act i d' Hp Hv|d' Hp _ Ht|i d' Hp _ Ht|d1 cs d' fl Hp Hd1 Hpr|d' Hp Hg|d' Hp Hg
    |d1 env acts r failures fl Hp Hg _|d1 act acts i received index ing owned r failures fl Hp Hg _ _|Hp].
  - done.
  - exact (terminal_extends _ _ Ht).
  - done.
  - exact (terminal_extends _ _ Ht).
  - exact (verdict_extends _ _ Hv).
  - exact (terminal_extends _ _ Ht).
  - exact (terminal_extends _ _ Ht).
  - apply extends_trans with d1; [|by eapply progresses_extends].
    by destruct Hd1 as [[_ ->] | (i & _ & _ & ->)].
  - destruct Hg as [-> |Hg]; [done|]. destruct (gather_slots _ _ Hg) as (H1 & H2 & _).
    unfold extends. by rewrite H1, H2.
  - done.
  - destruct (gather_slots _ _ Hg) as (H1 & H2 & _). split; cbn.
    + by rewrite H1.
    + rewrite H2. by eexists.
  - destruct (gather_slots _ _ Hg) as (H1 & H2 & _). split; cbn.
    + by rewrite H1.
    + rewrite H2. by eexists.
  - done.
Qed.

(** A disposition is selected exactly past a terminal edge. *)
Definition past_edge (p : ExecutionPhase) : bool :=
  match p with Retiring | RetirementAttempted => true | _ => false end.

Definition edge_ok d : Prop := is_Some (disposition d) → past_edge (phase d) = true.

Lemma verdict_edge d d' :
  verdict d d' → disposition d = None → is_Some (disposition d') → phase d' = Retiring.
Proof. intros [-> |[_ ?]]%verdict_cases; [|done]. intros -> [? ?]. done. Qed.

Lemma offers_disposition d cs d' : offers d cs d' → disposition d' = disposition d.
Proof. by intros []. Qed.
Lemma requests_disposition c d cs d' : requests c d cs d' → disposition d' = disposition d.
Proof. by intros []. Qed.
Lemma asks_disposition d c d' : asks d c d' → disposition d' = disposition d.
Proof. by intros []. Qed.

Lemma progresses_edge d cs d' fl :
  progresses d cs d' fl → fl ≠ Loop_Panicked →
  disposition d = None → is_Some (disposition d') → phase d' = Retiring.
Proof.
  intros Hp Hfl Hd Hs. destruct Hp as [d' _ [_ Ht]|index cs d' _ Ho|index cs d1 d' _ Ho [_ Ht]
    |index cs d1 custody q d' Hi Ho _ _ _ Hv _|index cs custody d' Hi Hq|index settlement _ Hn
    |act d' Hi _ Hst Ht|c d1 cs d' Hi Ha Hr|c d1 cs d2 d' ing Hi Ha Hr _ [_ Ht]
    |c d1 cs d2 cs' d' fl Hi Ha Hr Hf]; try done.
  - rewrite (offers_disposition _ _ _ Ho), Hd in Hs. by destruct Hs.
  - apply (verdict_edge _ _ Hv); [|done]. cbn. by rewrite (offers_disposition _ _ _ Ho).
  - change (is_Some (disposition d)) in Hs. rewrite Hd in Hs. by destruct Hs.
  - destruct Ht as [-> |[_ Ht]]; [|done]. change (is_Some (disposition d)) in Hs.
    rewrite Hd in Hs. by destruct Hs.
  - rewrite (requests_disposition _ _ _ _ Hr), (asks_disposition _ _ _ Ha), Hd in Hs. by destruct Hs.
  - rewrite <-(asks_disposition _ _ _ Ha), <-(requests_disposition _ _ _ _ Hr) in Hd.
    destruct Hf as [d1' _ [_ Ht]|event b d1' _ [_ Ht]|event b a acts act i d1' fl' _ Hv _]; [done..|].
    by apply (verdict_edge _ _ Hv).
Qed.

Lemma turn_edge d cs d' fl : turn d cs d' fl → fl ≠ Loop_Panicked → edge_ok d → edge_ok d'.
Proof.
  intros Ht Hfl Hok Hs. pose proof (turn_calls _ _ _ _ Ht Hfl) as Hc.
  destruct (past_edge (phase d)) eqn:Hp.
  { destruct (phase d) eqn:Hph; try done.
    - by destruct Hc as [[_ ->]|(r & _ & _ & ->)].
    - destruct Hc as [_ ->]. by rewrite Hph. }
  assert (disposition d = None) as Hd.
  { destruct (disposition d) as [x|] eqn:Hx; [|done].
    assert (past_edge (phase d) = true) as H by (apply Hok; rewrite Hx; by eexists). congruence. }
  assert (phase d' = Retiring → past_edge (phase d') = true) as Hret by (by intros ->). clear Hc Hok.
  assert (∀ d1, disposition d1 = None → verdict d1 d' → past_edge (phase d') = true) as Hver.
  { intros d1 Hd1 Hv. apply Hret. by apply (verdict_edge _ _ Hv). }
  destruct Ht as [b a _|b d' _ [_ Ht]|env acts act _|env acts act r d' _ [_ Ht]
    |act i d' _ Hv|d' _ _ [_ Ht]|i d' _ _ [_ Ht]|d1 cs d' fl _ Hd1 Hpr|d' Hph _|d' Hph _
    |d1 env acts r failures fl Hph _ _|d1 act acts i received index ing owned r failures fl Hph _ _ _|Hph];
    try (by apply Hret); try (by rewrite Hph in Hp).
  - change (is_Some (disposition d)) in Hs. rewrite Hd in Hs. by destruct Hs.
  - change (is_Some (disposition d)) in Hs. rewrite Hd in Hs. by destruct Hs.
  - eapply Hver; [|exact Hv]. done.
  - apply Hret. apply (progresses_edge _ _ _ _ Hpr Hfl); [|done].
    by destruct Hd1 as [[_ ->] | (i & _ & _ & ->)].
Qed.

Lemma driven_edge b env cs d : driven b env cs d → edge_ok d.
Proof.
  induction 1 as [|cs d w _ IH Hfl]; [intros Hs; by destruct Hs|].
  exact (turn_edge _ _ _ _ (drive_step_turn d w) Hfl IH).
Qed.

(** *** Receiving an owner again *)

Lemma progresses_goes_on d cs d' fl : progresses d cs d' fl → fl ≠ Loop_Return.
Proof. intros []; try done. destruct H2 as [| |? ? ? ? ? ? ? ? ? ? [->|[-> _]]]; done. Qed.

Lemma turn_returns d cs d' : turn d cs d' Loop_Return → past_edge (phase d) = true.
Proof.
  intros Ht. inversion Ht as [| | | | | | |d1 cs' d2 fl Hp Hd1 Hpr|d2 Hp|d2 Hp
    |d1 env acts r failures fl Hp|d1 act acts i received index ing owned r failures fl Hp|Hp]; subst;
    try (by rewrite Hp).
  by apply progresses_goes_on in Hpr.
Qed.

Lemma gather_again d d' : gather_retirement d = Some d' → gather_retirement d' = Some d'.
Proof.
  unfold gather_retirement at 1. destruct (retirement_input d) as [l|] eqn:Hr.
  { intros [= <-]. unfold gather_retirement. by rewrite Hr. }
  destruct (active d) as [act|] eqn:Ha.
  2: { intros [= <-]. unfold gather_retirement. by rewrite Hr, Ha. }
  destruct (source_input d), (source_index d); try (by intros [= <-]).
  unfold insert_row. destruct (vec_insert _ _ _); [by intros [= <-]|done].
Qed.

Lemma gather_input d d' :
  gather_retirement d = Some d' →
  (source_input d' = source_input d ∨ source_input d' = None) ∧ source_received d' = source_received d.
Proof.
  unfold gather_retirement. destruct (retirement_input d); [intros [= <-]; auto|].
  destruct (active d); [|intros [= <-]; auto].
  destruct (source_input d) eqn:Hi, (source_index d); try (intros [= <-]; auto).
  unfold insert_row. destruct (vec_insert _ _ _); [intros [= <-]; auto|done].
Qed.

Lemma drive_step_attempted d w : phase d = RetirementAttempted → drive_step d w = finish d w [].
Proof. intros Hp. unfold drive_step. by rewrite Hp. Qed.

Lemma drive_step_again d w w' :
  flow (drive_step d w) = Loop_Return →
  drive_step (after (drive_step d w)) w' = finish (after (drive_step d w)) w' [].
Proof.
  intros Hf. assert (past_edge (phase d) = true) as Hp.
  { pose proof (drive_step_turn d w) as Ht. unfold of_iteration in Ht. rewrite Hf in Ht.
    by eapply turn_returns. }
  assert (∀ w, drive_step d w = if is_Retiring (phase d) then retiring_turn d w else finish d w []) as Hd.
  { intros w1. unfold drive_step. by destruct (phase d). }
  revert Hf. rewrite Hd. destruct (phase d) eqn:Hph; try done; cbn [is_Retiring].
  cbn [is_Retiring] in Hd. unfold retiring_turn.
  destruct (is_some (source_input d) && is_some (source_received d)) eqn:Hm.
  { intros _. cbn [after finish]. rewrite Hd. unfold retiring_turn. by rewrite Hm. }
  destruct (gather_retirement d) as [d1|] eqn:Hg; [|done].
  assert (drive_step d1 w' = retiring_turn d1 w') as Hs.
  { unfold drive_step. destruct (gather_slots _ _ Hg) as (_ & _ & ->). by rewrite Hph. }
  assert (is_some (source_input d1) && is_some (source_received d1) = false) as Hm1.
  { destruct (gather_input _ _ Hg) as [[-> | ->] ->]; done. }
  unfold retiring_turn in Hs. rewrite Hm1, (gather_again _ _ Hg) in Hs.
  destruct (environment d1), (active d1), (residual d1); try (intros _; exact Hs).
  - unfold retire_prepared_turn. destruct (retire_prepared _ _ _ _) as [[w1 [[env1 acts1] r1]] run].
    destruct (receive_operation run) as [[reply failures]|]; [|discriminate].
    intros _. cbn [after finish]. by apply drive_step_attempted.
  - unfold retire_active_turn.
    destruct (retire_active _ _ _ _ _ _ _ _ _) as [[w1 [[[[[[[act1 acts1] i1] rec1] ix1] ing1] own1] r1]] run].
    destruct (receive_operation run) as [[reply failures]|]; [|discriminate].
    intros _. cbn [after finish]. by apply drive_step_attempted.
Qed.

Lemma receive_owner_err d d' : receive_owner d = Err d' → d' = d.
Proof.
  unfold receive_owner. destruct (ready d); [|by intros [= <-]].
  by destruct (residual d), (disposition d); intros [= <-].
Qed.

Lemma drive_ends fuel d w cs last :
  drive fuel d w = Some (cs, last) → ∃ d' w', last = drive_step d' w'.
Proof.
  revert d w cs. induction fuel as [|fuel IH]; [done|]. intros d w cs. simpl.
  destruct (flow (drive_step d w)) eqn:Hf; try (intros [= <- <-]; by eexists _, _).
  destruct (drive fuel _ _) as [[cs' last']|] eqn:Hd; [|done]. intros [= <- <-]. by eapply IH.
Qed.

Lemma called_nil : called [] Prepared.
Proof. split; try done; [cbn; lia|by rewrite decide_False]. Qed.

(** A retirement is the last of the calls. *)
Lemma last_only (p : ExecutionPhase) before c rest :
  is_retire c = true →
  (if decide (p = RetirementAttempted)
   then ∃ cs' r, before ++ c :: rest = cs' ++ [r] ∧ is_retire r = true ∧
     Forall (λ c, is_retire c = false) cs'
   else Forall (λ c, is_retire c = false) (before ++ c :: rest)) → rest = [].
Proof.
  intros Hc. destruct (decide _) as [_|_].
  - intros (cs' & r & Heq & _ & HF). destruct rest as [|x rest _] using rev_ind; [done|].
    change (before ++ c :: rest ++ [x]) with (before ++ (c :: rest) ++ [x]) in Heq.
    rewrite app_assoc in Heq. apply app_inj_tail in Heq as [<- _].
    apply Forall_app in HF as [_ HF]. apply Forall_cons in HF as [HF _]. congruence.
  - intros HF. apply Forall_app in HF as [_ HF]. apply Forall_cons in HF as [HF _]. congruence.
Qed.

Lemma receives_extends d cs d' : receives d cs d' → extends d d'.
Proof.
  induction 1 as [|cs d1 w _ IH Hfl]; [apply extends_refl|].
  eapply extends_trans; [exact IH|]. exact (turn_extends _ _ _ _ (drive_step_turn d1 w) Hfl).
Qed.

Lemma past_edge_calls d cs d' :
  receives d cs d' → past_edge (phase d) = true →
  cs = [] ∧ past_edge (phase d') = true ∨
  phase d' = RetirementAttempted ∧ (cs = [] ∨ ∃ c, cs = [c] ∧ is_retire c = true).
Proof.
  induction 1 as [|cs d1 w _ IH Hfl]; intros Hp; [by left|].
  pose proof (turn_calls _ _ _ _ (drive_step_turn d1 w) Hfl) as Hc.
  destruct (IH Hp) as [[-> Hp1] | [Hp1 Hcs]].
  - destruct (phase d1) eqn:Hph; try done.
    + destruct Hc as [[-> ->] | (r & -> & Hr & ->)]; [by left|]. right. split; [done|]. right. by exists r.
    + destruct Hc as [-> ->]. left. by rewrite Hph.
  - rewrite Hp1 in Hc. destruct Hc as [-> ->]. right. by rewrite app_nil_r.
Qed.
End law.

(** ** A concrete host

    Numbers as events, decisions, interpretations and settlements: an even
    settlement admits the next source event, event 5 stops.  The world says where
    an operation stays pending. *)
Module Stalling.

Variant World := Nowhere | In_Apply | In_NextSource | In_Retire.

Record Host := { ordinary_events : list nat; source_events : list nat }.

Definition fold_number (b : list nat) (e : nat) : list nat * Folded (nat * Step) () () :=
  (b ++ [e], Folded_Actions (e, if e =? 5 then Step_Stop else Step_Continue)).

#[export] Instance numbers : BehaviorPort (list nat) nat (nat * Step) () () :=
  {| initialize := λ b, fold_number b 1; delegate_transition := fold_number; become_ := snd |}.

Definition done_with {R} (reply : R) : HostRun R () := Run_Polled (inl reply) None.

Definition stall (at_ : World) (w : World) : bool :=
  match at_, w with
  | In_Apply, In_Apply | In_NextSource, In_NextSource | In_Retire, In_Retire => true
  | _, _ => false
  end.

#[export] Instance host_port :
    EnvironmentPort World Host Host (nat * Step) nat nat nat () () (list nat) () :=
  {| activate w env acts act :=
       match env, acts with
       | Some env, Some (n, _) => (w, (None, None, Some (Ok (env, n))), done_with ())
       | _, _ => (w, (env, acts, act), done_with ())
       end;
     retire_prepared w env acts r := (w, (None, None, Some []), done_with ());
     next w act :=
       match ordinary_events act with
       | [] => (w, act, done_with (Continue None))
       | e :: l => (w, {| ordinary_events := l; source_events := source_events act |},
                    done_with (Continue (Some e)))
       end;
     next_source w act :=
       if stall In_NextSource w then (w, act, Run_Pending)
       else
         match source_events act with
         | [] => (w, act, done_with (Continue None))
         | e :: l => (w, {| ordinary_events := ordinary_events act; source_events := l |},
                      done_with (Continue (Some e)))
         end;
     apply w act acts i :=
       if stall In_Apply w then (w, act, (acts, i), Run_Pending)
       else (w, act, (None, fst <$> acts), done_with ());
     offer_next w act input received :=
       match input with
       | Some s => (w, act, (None, Some (if Nat.even s then Custody_Admitted (Datatypes.S s)
                                         else Custody_Exhausted s)), done_with ())
       | None => (w, act, (input, received), done_with ())
       end;
     publish w act := (w, act, inl (Continue ()));
     retire_active w act acts i received index ing owned r :=
       if stall In_Retire w then (w, (act, acts, i, received, index, ing, owned, r), Run_Pending)
       else (w, (None, None, None, None, None, None, None, owned), done_with ());
     settlement_status := λ _, inl Status_Accepted;
     interpretation_settlement := λ i, i;
     drop_settlement := λ _, None |}.

Abbreviation Owner :=
  (@Driver (list nat) nat (nat * Step) () Host Host nat nat () () (list nat) ()) (only parsing).
Abbreviation NCall := (@Call nat (nat * Step) nat) (only parsing).

Definition start (ordinary source : list nat) : Owner :=
  Driver_new [] {| ordinary_events := ordinary; source_events := source |}.

(** Where an uninterrupted run leaves the owner, and its calls. *)
Definition left_by (w : World) (d : Owner) : Owner :=
  default d (after <$> (snd <$> drive 40 d w)).
Definition calls_of (w : World) (d : Owner) : list NCall :=
  default [] (fst <$> drive 40 d w).

Example completes :
  calls_of Nowhere (start [3; 4] [7]) =
    [Call_Initialize (Some (1, Step_Continue)); Call_Activate (Some (1, Step_Continue));
     Call_Offer (Some 1); Call_Publish; Call_Next; Call_Fold 3 (Some (3, Step_Continue));
     Call_Apply (Some (3, Step_Continue)); Call_Offer (Some 3); Call_Next;
     Call_Fold 4 (Some (4, Step_Continue)); Call_Apply (Some (4, Step_Continue)); Call_Offer (Some 4);
     Call_NextSource; Call_Fold 7 (Some (7, Step_Continue)); Call_Apply (Some (7, Step_Continue));
     Call_Offer (Some 7); Call_Offer (Some 5); Call_Next; Call_RetireActive (Some [])].
Proof. vm_compute. reflexivity. Qed.
End Stalling.

(** ** Properties *)

Section properties.
Context {B Event Actions BError W Env Act S I Request EError Residual P : Type}.
Context `{!BehaviorPort B Event Actions BError P}.
Context `{!EnvironmentPort W Env Act Actions Event S I Request EError Residual P}.

(** C31: No index, [expect] or [unreachable!] of the driver is ever hit: whatever
    the behavior and the environment do, and however often the driver is
    cancelled and received again, no iteration panics. *)
Theorem driver_never_panics (b : B) (env : Env) cs d (w : W) :
  driven b env cs d → flow (drive_step d w) ≠ Loop_Panicked.
Proof. apply driven_runs. Qed.

(** In every history initialization is the first call and is made once, the
    incarnation is published at most once, and retirement is attempted at most
    once and is the last call. *)
Lemma driver_attempts_once (b : B) (env : Env) cs d :
  driven b env cs d →
  (∀ before c rest, cs = before ++ c :: rest →
    (is_initialize c = true ↔ before = []) ∧ (is_retire c = true → rest = [])) ∧
  length (filter (λ c, is_publish c = true) cs) ≤ 1.
Proof.
  intros Hd. assert (called cs (phase d)) as [C1 _ _ C4 _ C6].
  { induction Hd as [|cs d w _ IH Hfl]; [apply called_nil|].
    exact (turn_called _ _ _ _ _ IH (drive_step_turn d w) Hfl). }
  split; [|done]. intros before c rest ->. split.
  - split; [|intros ->; by destruct C1].
    destruct before as [|c0 before]; [done|]. destruct C1 as [_ HF]. intros Hc.
    apply Forall_app in HF as [_ HF]. apply Forall_cons in HF as [HF _]. congruence.
  - intros Hc. eapply last_only; [exact Hc|exact C6].
Qed.

(** A terminal edge is final: once a disposition is selected no later
    history replaces it or drops a failure, and the only call that can follow is
    one attempt of retirement. *)
Lemma terminal_edge_is_final (b : B) (env : Env) cs d cs' d' selected :
  driven b env cs d → disposition d = Some selected → receives d cs' d' →
  disposition d' = Some selected ∧ additional_failures d `prefix_of` additional_failures d' ∧
  (cs' = [] ∨ ∃ c, cs' = [c] ∧ is_retire c = true).
Proof.
  intros Hd Hs Hr.
  assert (past_edge (phase d) = true) as Hp by (apply (driven_edge _ _ _ _ Hd); by rewrite Hs).
  pose proof (receives_extends _ _ _ Hr) as [He1 He2]. split_and!; [by apply He1|done|].
  destruct (past_edge_calls _ _ _ Hr Hp) as [[-> _] | [_ H]]; [by left|done].
Qed.

(** An owner that was handed back is inert: receiving it again makes no call
    at all and hands the same owner back. *)
Lemma receiving_again_is_inert fuel (d d' : @Driver B Event Actions BError Env Act S I Request
    EError Residual P) (w w' : W) cs :
  receive_run fuel (Some d) None w = Some (None, Some (Err d'), cs, w') →
  ∀ fuel' w2, receive_run (Datatypes.S fuel') (Some d') None w2 = Some (None, Some (Err d'), [], w2).
Proof.
  unfold receive_run at 1. destruct (drive fuel d w) as [[cs1 last]|] eqn:Hd; [|done]. simpl.
  destruct (drive_ends _ _ _ _ _ Hd) as (d1 & w1 & ->).
  destruct (flow (drive_step d1 w1)) eqn:Hf; try done. intros [= Ho <- <-] fuel' w2.
  assert (d' = after (drive_step d1 w1)) as ->.
  { by apply receive_owner_err. }
  unfold receive_run. simpl. rewrite (drive_step_again _ _ _ Hf). simpl. by rewrite Ho.
Qed.
End properties.

Import Stalling.

(** ** What cancelling and receiving again does not preserve

    [receive_run] is dropped while an operation is pending and the surviving
    owner is received again. *)

(** Cancelled while [apply] is pending: the decided actions were not taken, yet
    the next event is requested and folded, and its actions take their place.
    The decision, a stop, is lost. *)
Lemma cancelled_apply_drops_decision :
  let stalled := left_by In_Apply (start [5; 3] []) in
  calls_of In_Apply (start [5; 3] []) =
    [Call_Initialize (Some (1, Step_Continue)); Call_Activate (Some (1, Step_Continue));
     Call_Offer (Some 1); Call_Publish; Call_Next; Call_Fold 5 (Some (5, Step_Stop));
     Call_Apply (Some (5, Step_Stop))] ∧
  actions stalled = Some (5, Step_Stop) ∧
  calls_of Nowhere stalled =
    [Call_Next; Call_Fold 3 (Some (3, Step_Continue)); Call_Apply (Some (3, Step_Continue));
     Call_Offer (Some 3); Call_Next; Call_RetireActive (Some [])] ∧
  disposition (left_by Nowhere stalled) = Some (Ok Exhausted).
Proof. vm_compute. done. Qed.

(** Cancelled while [next_source] is pending: the admitting row is offered again
    before the source event it admitted is requested. *)
Lemma cancelled_source_reoffers :
  let stalled := left_by In_NextSource (start [4] [7]) in
  calls_of In_NextSource (start [4] [7]) =
    [Call_Initialize (Some (1, Step_Continue)); Call_Activate (Some (1, Step_Continue));
     Call_Offer (Some 1); Call_Publish; Call_Next; Call_Fold 4 (Some (4, Step_Continue));
     Call_Apply (Some (4, Step_Continue)); Call_Offer (Some 4); Call_NextSource] ∧
  take 2 (calls_of Nowhere stalled) = [Call_Offer (Some 5); Call_Next].
Proof. vm_compute. done. Qed.

(** ** Witnesses *)

(** The owner of [start], some iterations on. *)
Abbreviation reached n w ordinary source := (go n (start ordinary source) w) (only parsing).

Lemma driver_never_panics_witness :
  driven [] {| ordinary_events := [4]; source_events := [7] |}
    (reached 12 In_NextSource [4] [7]).1 (reached 12 In_NextSource [4] [7]).2 ∧
  source_index (reached 10 In_NextSource [4] [7]).2 = Some 0 ∧
  flow (drive_step (reached 10 In_NextSource [4] [7]).2 Nowhere) ≠ Loop_Panicked.
Proof.
  split; [apply go_receives|]. split; [by vm_compute|].
  eapply (driver_never_panics [] {| ordinary_events := [4]; source_events := [7] |}).
  apply (go_receives 10 (start [4] [7]) In_NextSource).
Defined.
