(* ===== verification/DriverOrder.v ===== *)
(** * The causal order of the driver

    The order laws of [docs/driver-law.md] over the driver (Driver.v) and its
    iterations (DriverLaw.v): an abstract automaton of the calls an
    uninterrupted execution may make, and the order in which settlements stay in
    custody up to retirement. *)

From S2P Require Import Prelude Driver DriverLaw.

Section order.
Context {B Event Actions BError W Env Act S I Request EError Residual P : Type}.
Context `{!BehaviorPort B Event Actions BError P}.
Context `{!EnvironmentPort W Env Act Actions Event S I Request EError Residual P}.

Abbreviation driver := (@Driver B Event Actions BError Env Act S I Request EError Residual P)
  (only parsing).
Abbreviation call := (@Call Event Actions S) (only parsing).
Implicit Types (d : driver) (w : W) (cs : list call).

(** ** The law *)

(** Where an execution is: before initialization; having decided it; between two
    calls of a turn, published or not, after an offer or not; having asked for an
    event; having decided the actions to apply; past a terminal edge; retired. *)
Inductive Law :=
  | Law_Start
  | Law_Commit (a : Actions)
  | Law_Turn (published offered : bool)
  | Law_Acquired (published : bool)
  | Law_Apply (published : bool) (a : Actions)
  | Law_Terminal
  | Law_Retired.

(** A stop decision is terminal once its actions are applied. *)
Definition after_apply (published : bool) (a : Actions) : Law :=
  match become_ a with
  | Step_Stop => Law_Terminal
  | Step_Continue => Law_Turn published false
  end.

Definition may_retire (law : Law) : bool :=
  match law with Law_Turn _ _ | Law_Acquired _ | Law_Terminal => true | _ => false end.

Inductive allows : Law → call → Law → Prop :=
  | allows_rejected_initialization : allows Law_Start (Call_Initialize None) Law_Terminal
  | allows_initialization a : allows Law_Start (Call_Initialize (Some a)) (Law_Commit a)
  | allows_activation a : allows (Law_Commit a) (Call_Activate (Some a)) (after_apply false a)
  | allows_offer published offered settlement :
      allows (Law_Turn published offered) (Call_Offer (Some settlement)) (Law_Turn published true)
  | allows_source published :
      allows (Law_Turn published true) Call_NextSource (Law_Acquired published)
  | allows_publication offered : allows (Law_Turn false offered) Call_Publish (Law_Turn true false)
  | allows_ordinary offered : allows (Law_Turn true offered) Call_Next (Law_Acquired true)
  | allows_fold published event a :
      allows (Law_Acquired published) (Call_Fold event (Some a)) (Law_Apply published a)
  | allows_failed_fold published event :
      allows (Law_Acquired published) (Call_Fold event None) Law_Terminal
  | allows_apply published a :
      allows (Law_Apply published a) (Call_Apply (Some a)) (after_apply published a)
  | allows_retirement law c :
      may_retire law = true → is_retire c = true → allows law c Law_Retired.

Inductive allows_all : Law → list call → Law → Prop :=
  | allows_nil law : allows_all law [] law
  | allows_cons law c law1 cs law2 :
      allows law c law1 → allows_all law1 cs law2 → allows_all law (c :: cs) law2.

Lemma allows_app law cs law1 cs' law2 :
  allows_all law cs law1 → allows_all law1 cs' law2 → allows_all law (cs ++ cs') law2.
Proof. induction 1; [done|]. simpl. intros. econstructor; eauto. Qed.

Lemma allows_one law c law' : allows law c law' → allows_all law [c] law'.
Proof. intros H. econstructor; [done|constructor]. Qed.

(** ** Where the law stands, from the slots *)

Definition awaits (turn : SettlementTurn S) : bool :=
  match turn with Turn_AwaitSource _ => true | _ => false end.

(** Only the next row can await its source. *)
Definition await_first (rows : list (SettlementTurn S)) : Prop :=
  ∀ j row, rows !! j = Some row → awaits row = true →
    Forall (λ row, is_retained row = true) (take j rows).
Definition no_await (rows : list (SettlementTurn S)) : Prop :=
  Forall (λ row, awaits row = false) rows.

Definition is_active (p : ExecutionPhase) : bool := match p with Active => true | _ => false end.

(** Between two iterations of an uninterrupted execution. *)
Inductive turning d : Law → Prop :=
  | turning_interpreted i a :
      interpretation d = Some i → decision d = Some (from_step (become_ a)) →
      source_index d = None → no_await (settlements d) →
      turning d (after_apply (is_active (phase d)) a)
  | turning_offering index settlement offered :
      phase d ≠ Initializing → interpretation d = None → source_index d = Some index → source_input d = Some settlement →
      source_received d = None → no_await (settlements d) →
      Forall (λ row, is_retained row = true) (take index (settlements d)) →
      turning d (Law_Turn (is_active (phase d)) offered)
  | turning_idle offered :
      phase d ≠ Initializing → interpretation d = None → source_index d = None → await_first (settlements d) →
      (offered = true ∨ no_await (settlements d)) →
      turning d (Law_Turn (is_active (phase d)) offered).

Definition clean d : Prop :=
  interpretation d = None ∧ source_index d = None ∧ source_received d = None ∧
  settlements d = [] ∧ ingress d = None.

Definition tracks (law : Law) d : Prop :=
  match phase d with
  | Prepared => law = Law_Start ∧ clean d
  | Activating => ∃ a, law = Law_Commit a ∧ actions d = Some a ∧
      decision d = Some (from_step (become_ a)) ∧ clean d
  | Initializing | SettlingInitialization | Active =>
      ingress d = None ∧ source_received d = None ∧ turning d law
  | Retiring => may_retire law = true
  | RetirementAttempted => law = Law_Retired
  end.

Lemma tracks_retiring law d : phase d = Retiring → may_retire law = true → tracks law d.
Proof. unfold tracks. by intros ->. Qed.

Lemma may_retire_after published a : may_retire (after_apply published a) = true.
Proof. unfold after_apply. by destruct (become_ a). Qed.

Lemma no_await_first rows : no_await rows → await_first rows.
Proof.
  intros Hn j row Hl Ha. unfold no_await in Hn. rewrite Forall_lookup in Hn.
  rewrite (Hn j row Hl) in Ha. done.
Qed.

(** The next row: everything before it is retained. *)
Lemma next_row_first d index row :
  next_row d = Some (index, row) →
  settlements d !! index = Some row ∧ is_retained row = false ∧
  Forall (λ row, is_retained row = true) (take index (settlements d)).
Proof.
  unfold next_row. intros (Hl & Hr & Hb)%list_find_Some. split_and!; [done|done|].
  apply Forall_lookup. intros j y Hj. apply lookup_take_Some in Hj as [Hj Hlt].
  apply not_false_is_true. by eapply Hb.
Qed.

Lemma next_row_await d j row :
  await_first (settlements d) → settlements d !! j = Some row → awaits row = true →
  next_row d = Some (j, row).
Proof.
  intros Hf Hl Ha. pose proof (Hf j row Hl Ha) as Hr. unfold next_row. apply list_find_Some.
  split_and!; [done|by destruct row|]. intros k y Hk Hlt. rewrite Forall_lookup in Hr.
  rewrite (Hr k y); [done|]. by rewrite lookup_take_lt.
Qed.

(** Without its next row, or with it back on offer, no row awaits. *)
Lemma no_await_but_next d index row :
  await_first (settlements d) → next_row d = Some (index, row) →
  ∀ j y, j ≠ index → settlements d !! j = Some y → awaits y = false.
Proof.
  intros Hf Hn j y Hne Hl. destruct (awaits y) eqn:Ha; [|done].
  rewrite (next_row_await _ _ _ Hf Hl Ha) in Hn. congruence.
Qed.

Lemma no_await_delete d index row :
  await_first (settlements d) → next_row d = Some (index, row) →
  no_await (delete index (settlements d)).
Proof.
  intros Hf Hn. apply Forall_lookup. intros j y Hl.
  destruct (decide (j < index)) as [Hlt|Hge].
  - rewrite list_lookup_delete_lt in Hl by done.
    eapply (no_await_but_next d index row Hf Hn j); [lia|done].
  - rewrite list_lookup_delete_ge in Hl by lia.
    eapply (no_await_but_next d index row Hf Hn (Datatypes.S j)); [lia|done].
Qed.

Lemma no_await_insert d index row new :
  await_first (settlements d) → next_row d = Some (index, row) → awaits new = false →
  no_await (<[index := new]> (settlements d)).
Proof.
  intros Hf Hn Hnew. apply Forall_lookup. intros j y Hl.
  apply list_lookup_insert_Some in Hl as [(-> & <- & _)|[Hne Hl]]; [done|].
  by eapply (no_await_but_next d index row Hf Hn j).
Qed.

Lemma no_await_none d : await_first (settlements d) → next_row d = None → no_await (settlements d).
Proof.
  intros Hf Hn. apply Forall_lookup. intros j y Hl. destruct (awaits y) eqn:Ha; [|done].
  rewrite (next_row_await _ _ _ Hf Hl Ha) in Hn. congruence.
Qed.

Lemma tracks_running law d :
  is_running (phase d) = true → ingress d = None → source_received d = None → turning d law →
  tracks law d.
Proof. intros Hp Hi Hr Ht. unfold tracks. by destruct (phase d). Qed.

(** A verdict keeps the law or ends the execution. *)
Lemma verdict_tracks law d d' :
  verdict d d' → may_retire law = true → (phase d ≠ Retiring → tracks law d) → tracks law d'.
Proof.
  intros [-> |[_ Hp]]%verdict_cases Hm Ht; [|by apply tracks_retiring].
  destruct (decide (phase d = Retiring)) as [Hp|Hp]; [by apply tracks_retiring|by apply Ht].
Qed.
Lemma terminal_tracks law d d' : terminal d d' → may_retire law = true → tracks law d'.
Proof. intros [_ Hp]. by apply tracks_retiring. Qed.

Lemma no_await_lookup rows j row : no_await rows → rows !! j = Some row → awaits row = false.
Proof. intros Hn. unfold no_await in Hn. rewrite Forall_lookup in Hn. apply Hn. Qed.

Lemma requeue_await_first index custody rows q :
  requeue index custody rows = Some q → no_await rows →
  Forall (λ row, is_retained row = true) (take index rows) → await_first q.
Proof.
  intros Hq Hn Hret.
  assert (∀ new, vec_insert index new rows = Some q → await_first q) as Hins.
  { intros new. unfold vec_insert. destruct (Nat.leb_spec index (length rows)) as [Hle|]; [|done].
    intros [= <-] j row Hl Ha.
    assert (length (take index rows) = index) as Hlen by (rewrite length_take; lia).
    apply lookup_app_Some in Hl as [Hl|[Hge Hl]].
    { apply lookup_take_Some in Hl as [Hl _]. by rewrite (no_await_lookup _ _ _ Hn Hl) in Ha. }
    rewrite Hlen in Hge, Hl. destruct (j - index) as [|k] eqn:Hk; simpl in Hl.
    - replace j with (length (take index rows)) by lia. by rewrite take_app_length.
    - rewrite lookup_drop in Hl. by rewrite (no_await_lookup _ _ _ Hn Hl) in Ha. }
  destruct custody; simpl in Hq; [|by eapply Hins..]. injection Hq as <-. by apply no_await_first.
Qed.

(** The fold of the event that was asked for. *)
Lemma folds_law d cs d' fl :
  folds d cs d' fl → is_running (phase d) = true → source_index d = None →
  source_received d = None → no_await (settlements d) →
  ∃ law, allows_all (Law_Acquired (is_active (phase d))) cs law ∧ (fl = Loop_Again → tracks law d').
Proof.
  intros Hf Hrun Hix Hrec Hna.
  destruct Hf as [d' _ Ht|event b d' _ Ht|event b a acts act i d' fl _ Hv Hfl].
  - eexists. split; [constructor|]. intros _. by eapply terminal_tracks.
  - eexists. split; [apply allows_one; constructor|]. intros _. by eapply terminal_tracks.
  - exists (after_apply (is_active (phase d)) a).
    split; [repeat econstructor|]. intros ->. destruct Hfl as [?|[_ Hfl]]; [done|].
    destruct Hfl as [Hret|[-> [i' ->]]]; [by apply tracks_retiring; [|apply may_retire_after]|].
    eapply verdict_tracks; [exact Hv|apply may_retire_after|]. intros _.
    match goal with |- tracks _ ?x => set (d1 := x) end.
    apply tracks_running; [done..|]. by apply (turning_interpreted d1 i' a).
Qed.

Lemma requests_slots c d cs d' :
  requests c d cs d' → ingress d = None →
  cs = [c] ∧ phase d' = phase d ∧ source_index d' = source_index d ∧
  source_received d' = source_received d ∧ settlements d' = settlements d.
Proof. intros [Hi|act input _] Hn; [|done]. rewrite Hn in Hi. by destruct Hi. Qed.

Lemma asks_law d c d1 offered :
  asks d c d1 → phase d ≠ Initializing → is_running (phase d) = true →
  await_first (settlements d) → offered = true ∨ no_await (settlements d) →
  allows (Law_Turn (is_active (phase d)) offered) c (Law_Acquired (is_active (phase d))) ∧
  no_await (settlements d1).
Proof.
  intros [index settlement Hn|Hn Hs] Hp Hrun Hf Ho.
  - split; [|by eapply no_await_insert]. destruct (next_row_first _ _ _ Hn) as (Hl & _ & _).
    destruct Ho as [-> |Hna]; [constructor|]. by apply (no_await_lookup _ _ _ Hna) in Hl.
  - split; [|by apply no_await_none]. destruct (phase d); try done. constructor.
Qed.

Lemma progresses_law d cs d' fl law :
  progresses d cs d' fl → fl ≠ Loop_Panicked → is_running (phase d) = true → ingress d = None →
  source_received d = None → interpretation d = None → turning d law →
  ∃ law', allows_all law cs law' ∧ (fl = Loop_Again → tracks law' d').
Proof.
  intros Hp Hfl Hrun Hing Hrec Hint Hturn.
  assert (may_retire law = true) as Hmay by (destruct Hturn; [apply may_retire_after|done..]).
  assert (∀ index, source_index d = Some index → ∃ settlement offered,
    law = Law_Turn (is_active (phase d)) offered ∧ source_input d = Some settlement ∧
    phase d ≠ Initializing ∧ no_await (settlements d) ∧
    Forall (λ row, is_retained row = true) (take index (settlements d))) as Hoff.
  { intros index Hi. destruct Hturn as [| ? s o|]; [congruence| |congruence].
    exists s, o. simplify_eq. done. }
  assert (source_index d = None → ∃ offered, law = Law_Turn (is_active (phase d)) offered ∧
    phase d ≠ Initializing ∧ await_first (settlements d) ∧
    (offered = true ∨ no_await (settlements d))) as Hidle.
  { intros Hi. destruct Hturn as [| |o]; [congruence|congruence|]. by exists o. }
  assert (∀ index cs d1, source_index d = Some index → offers d cs d1 →
    allows_all law cs (Law_Turn (is_active (phase d)) true)) as Hoffers.
  { intros index cs1 d1 Hi Ho. destruct (Hoff index Hi) as (s & o & -> & Hs & _).
    destruct Ho as [Ho|act input received _]; [rewrite Hrec in Ho; by destruct Ho|].
    apply allows_one. rewrite Hs. constructor. }
  assert (∀ c d1 cs d2, source_index d = None → asks d c d1 → requests c d1 cs d2 →
    allows_all law cs (Law_Acquired (is_active (phase d))) ∧ phase d2 = phase d ∧
    source_index d2 = None ∧ source_received d2 = None ∧ no_await (settlements d2)) as Hasks.
  { intros c d1 cs1 d2 Hi Ha Hr. destruct (Hidle Hi) as (o & -> & Hp1 & Hf & Ho).
    destruct (asks_law _ _ _ _ Ha Hp1 Hrun Hf Ho) as [Hall Hna].
    assert (ingress d1 = None ∧ phase d1 = phase d ∧ source_index d1 = None ∧
      source_received d1 = None) as (Hi1 & Hph1 & Hix1 & Hr1) by by destruct Ha.
    destruct (requests_slots _ _ _ _ Hr Hi1) as (-> & -> & -> & -> & ->).
    split_and!; [by apply allows_one|done..]. }
  destruct Hp as [d' _ Ht|index cs d' Hi Ho|index cs d1 d' Hi Ho Ht
    |index cs d1 custody q d' Hi Ho Hin1 Hrec1 Hq Hv _|index cs custody d' Hi Hq|index settlement Hi Hn
    |act d' Hi Hn Hs Ht|c d1 cs d' Hi Ha Hr|c d1 cs d2 d' ing Hi Ha Hr _ Ht
    |c d1 cs d2 cs' d' fl Hi Ha Hr Hf].
  - exists law. split; [constructor|]. intros _. by eapply terminal_tracks.
  - eexists. split; [by eapply Hoffers|done].
  - eexists. split; [by eapply Hoffers|]. intros _. by eapply terminal_tracks.
  - eexists. split; [by eapply Hoffers|]. intros _.
    destruct (Hoff index Hi) as (s & o & _ & _ & Hne & Hna & Hret).
    pose proof (requeue_await_first _ _ _ _ Hq Hna Hret) as Haf.
    assert (phase d1 = phase d ∧ ingress d1 = ingress d ∧ interpretation d1 = interpretation d)
      as (Hph1 & Hing1 & Hint1) by by destruct Ho.
    eapply verdict_tracks; [exact Hv|done|]. intros _.
    apply tracks_running; [by rewrite <-Hph1 in Hrun|by rewrite <-Hing1 in Hing|done|].
    rewrite <-Hph1 in Hne |- *.
    eapply (turning_idle (set_settlements q (set_source_received None (set_source_index None d1))));
      [done|by rewrite <-Hint1 in Hint|done|done|by left].
  - done.
  - destruct (Hidle Hi) as (o & -> & Hne & Haf & _). eexists. split; [constructor|]. intros _.
    destruct (next_row_first _ _ _ Hn) as (Hl & _ & Hret).
    apply tracks_running; [done..|].
    eapply (turning_offering (set_source_input (Some settlement) (set_source_index (Some index)
      (set_settlements (delete index (settlements d)) d)))); try done.
    + by eapply no_await_delete.
    + cbn. rewrite delete_take_drop, take_app_le, take_take, Nat.min_id; [done|].
      rewrite length_take. apply lookup_lt_Some in Hl. lia.
  - destruct (Hidle Hi) as (o & -> & Hne & Haf & _). exists (Law_Turn true false).
    split; [apply allows_one; rewrite Hs; constructor|]. intros _.
    destruct Ht as [-> |Ht]; [|by eapply terminal_tracks].
    apply tracks_running; [done..|].
    eapply (turning_idle (set_phase Active (set_active (Some act) d))); try done.
    right. by apply no_await_none.
  - eexists. split; [by eapply Hasks|done].
  - eexists. split; [by eapply Hasks|]. intros _. by eapply terminal_tracks.
  - destruct (Hasks _ _ _ _ Hi Ha Hr) as (Hall & Hph & Hix & Hrc & Hna).
    rewrite <-Hph in Hrun. destruct (folds_law _ _ _ _ Hf Hrun Hix Hrc Hna) as (law' & Hall' & Ht).
    exists law'. split; [|done]. eapply allows_app; [exact Hall|by rewrite <-Hph].
Qed.

Lemma turn_law d cs d' fl law :
  turn d cs d' fl → fl ≠ Loop_Panicked → tracks law d →
  ∃ law', allows_all law cs law' ∧ (fl = Loop_Again → tracks law' d').
Proof.
  intros Ht Hfl Htr.
  destruct Ht as [b a Hp|b d' Hp Ht|env acts act Hp|env acts act r d' Hp Ht
    |act i d' Hp Hv|d' Hp _ Ht|i d' Hp Hi Ht|d1 cs d' fl Hp Hd1 Hpr|d' Hp Hg|d' Hp Hg
    |d1 env acts r failures fl Hp Hg Hr|d1 act acts i received index ing owned r failures fl Hp Hg _ Hr|Hp];
    unfold tracks in Htr; try (rewrite Hp in Htr).
  - destruct Htr as [-> Hc]. eexists. split; [apply allows_one; constructor|]. intros _. by exists a.
  - destruct Htr as [-> _]. eexists. split; [apply allows_one; constructor|]. intros _.
    by eapply terminal_tracks.
  - destruct Htr as (a & -> & -> & _). eexists. split; [apply allows_one; constructor|done].
  - destruct Htr as (a & -> & -> & _). eexists. split; [apply allows_one; constructor|]. intros _.
    eapply terminal_tracks; [done|apply may_retire_after].
  - destruct Htr as (a & -> & -> & Hd & Hc1 & Hc2 & Hc3 & Hc4 & Hc5). eexists.
    split; [apply allows_one; constructor|]. intros _.
    eapply verdict_tracks; [exact Hv|apply may_retire_after|]. intros _.
    match goal with |- tracks _ ?x => set (d1 := x) end.
    apply tracks_running; [done..|]. apply (turning_interpreted d1 i a); [done..|].
    change (no_await (settlements d)). rewrite Hc4. constructor.
  - assert (turning d law) as Htu by (by destruct (phase d); try done; destruct Htr as (_ & _ & ?)).
    exists law. split; [constructor|]. intros _. eapply terminal_tracks; [done|].
    destruct Htu; [apply may_retire_after|done..].
  - assert (turning d law) as Htu by (by destruct (phase d); try done; destruct Htr as (_ & _ & ?)).
    exists law. split; [constructor|]. intros _. eapply terminal_tracks; [done|].
    destruct Htu; [apply may_retire_after|done..].
  - assert (ingress d = None ∧ source_received d = None ∧ turning d law) as (Hing & Hrec & Htu)
      by (by destruct (phase d)).
    destruct Hd1 as [[Hi ->]|(i & Hi & Hdec & ->)]; [by eapply progresses_law|].
    destruct Htu as [i' a _ Hd Hix Hna| |]; [|congruence..].
    rewrite Hd in Hdec. injection Hdec as Hstep.
    assert (become_ a = Step_Continue) as Hb by (by destruct (become_ a)).
    match type of Hpr with progresses ?x _ _ _ => set (d1 := x) in * end.
    assert (is_running (phase d1) = true ∧ phase d1 ≠ Initializing ∧
      is_active (phase d1) = is_active (phase d)) as (Hr1 & Hp1 & Ha1).
    { cbn. by destruct (phase d). }
    eapply progresses_law; [done..|]. unfold after_apply. rewrite Hb, <-Ha1.
    assert (no_await (settlements d1)) as Hna1 by (by constructor).
    apply turning_idle; [done|done|done|by apply no_await_first|by right].
  - exists law. split; [constructor|done].
  - done.
  - eexists. split; [apply allows_one, allows_retirement; [exact Htr|done]|].
    intros ->. set_solver.
  - eexists. split; [apply allows_one, allows_retirement; [exact Htr|done]|].
    intros ->. set_solver.
  - exists law. split; [constructor|done].
Qed.

Lemma tracks_new b env : tracks Law_Start (Driver_new b env).
Proof. by split. Qed.

Lemma reaches_law law d w cs d' w' :
  reaches d w cs d' w' → tracks law d → ∃ law', allows_all law cs law' ∧ tracks law' d'.
Proof.
  intros Hr. revert law. induction Hr as [d w|d w cs d' w' Hf _ IH]; intros law Ht.
  { exists law. split; [constructor|done]. }
  destruct (turn_law _ _ _ _ law (drive_step_turn d w)) as (law1 & Hall & Ht1);
    [by rewrite Hf|done|].
  destruct (IH law1) as (law2 & Hall2 & Ht2); [by apply Ht1|].
  exists law2. split; [by eapply allows_app|done].
Qed.

(** ** Custody *)

Definition custody_settlement (custody : SourceCustody S) : S :=
  match custody with
  | Custody_Exhausted s | Custody_Retained s | Custody_Admitted s | Custody_Closed s => s
  end.

(** The row on offer: its reply once acquired, the input otherwise; [None] while
    the host holds it. *)
Definition on_offer d : option S :=
  match source_received d with
  | Some custody => Some (custody_settlement custody)
  | None => source_input d
  end.

(** The settlements of the queue in order, the given one at the index on offer. *)
Definition queue_with (current : option S) d : list (option S) :=
  let rows := map (λ row, Some (into_settlement row)) (settlements d) in
  match source_index d with
  | Some index => take index rows ++ current :: drop index rows
  | None => rows
  end.

Definition custody d : list (option S) := queue_with (on_offer d) d.

(** What an iteration may do to the queue. *)
Inductive moves d : list (option S) → Prop :=
  | moves_stay : moves d (custody d)
  | moves_push i :
      interpretation d = Some i → moves d (Some (interpretation_settlement i) :: custody d)
  | moves_reply index current :
      source_index d = Some index → moves d (<[index := current]> (custody d))
  | moves_exhausted index : source_index d = Some index → moves d (delete index (custody d)).

Lemma verdict_custody d d' : verdict d d' → custody d' = custody d.
Proof. by intros []. Qed.
Lemma terminal_custody d d' : terminal d d' → custody d' = custody d.
Proof. intros [Hv _]. by apply verdict_custody. Qed.

Lemma insert_offered {A} (l : list A) index x y :
  index ≤ length l → <[index := y]> (take index l ++ x :: drop index l) = take index l ++ y :: drop index l.
Proof.
  intros Hle. assert (length (take index l) = index) as Hlen by (rewrite length_take; lia).
  rewrite insert_app_r_alt by lia. by rewrite Hlen, Nat.sub_diag.
Qed.
Lemma delete_offered {A} (l : list A) index x :
  index ≤ length l → delete index (take index l ++ x :: drop index l) = l.
Proof.
  intros Hle. assert (length (take index l) = index) as Hlen by (rewrite length_take; lia).
  rewrite <-Hlen at 1. rewrite delete_middle. apply take_drop.
Qed.

(** The host's operation on the row on offer. *)
Lemma offers_moves d cs d' index :
  offers d cs d' → source_index d = Some index → index ≤ length (settlements d) →
  moves d (custody d') ∧ custody d' = <[index := on_offer d']> (custody d).
Proof.
  intros Ho Hi Hle.
  assert (custody d' = <[index := on_offer d']> (custody d)) as Heq.
  { unfold custody, queue_with. assert (source_index d' = source_index d ∧
      settlements d' = settlements d) as [-> ->] by by destruct Ho.
    rewrite Hi. rewrite insert_offered; [done|]. by rewrite length_map. }
  split; [|done]. rewrite Heq. by apply moves_reply.
Qed.

Lemma requeue_custody index custody' rows q d :
  requeue index custody' rows = Some q → index ≤ length rows →
  settlements d = q → source_index d = None →
  custody d = match custody' with
              | Custody_Exhausted _ => map (λ row, Some (into_settlement row)) rows
              | _ => take index (map (λ row, Some (into_settlement row)) rows) ++
                     Some (custody_settlement custody') ::
                     drop index (map (λ row, Some (into_settlement row)) rows)
              end.
Proof.
  intros Hq Hle Hs Hi. unfold custody, queue_with. rewrite Hi, Hs.
  unfold requeue, vec_insert in Hq. apply Nat.leb_le in Hle. rewrite Hle in Hq.
  destruct custody'; injection Hq as <-; [done|by rewrite map_app, firstn_map, skipn_map..].
Qed.

Lemma offered_removed {A} (l : list A) index x :
  l !! index = Some x → take index (delete index l) ++ x :: drop index (delete index l) = l.
Proof.
  intros Hl. pose proof (lookup_lt_Some _ _ _ Hl) as Hlt.
  assert (length (take index l) = index) as Hlen by (rewrite length_take; lia).
  rewrite delete_take_drop, take_app_le, take_take, Nat.min_id, drop_app_ge, Hlen, Nat.sub_diag,
    drop_0 by lia.
  by apply take_drop_middle.
Qed.

Lemma map_delete {A C} (f : A → C) l index : map f (delete index l) = delete index (map f l).
Proof. revert index. induction l as [|x l IH]; intros [|index]; simpl; [done..|]. by rewrite IH. Qed.

Lemma map_lookup {A C} (f : A → C) l index x : l !! index = Some x → map f l !! index = Some (f x).
Proof. intros Hl. change (map f l) with (f <$> l). by rewrite list_lookup_fmap, Hl. Qed.

Lemma select_custody d index settlement :
  source_index d = None → settlements d !! index = Some (Turn_Offer settlement) →
  source_received d = None →
  custody (set_source_input (Some settlement) (set_source_index (Some index)
    (set_settlements (delete index (settlements d)) d))) = custody d.
Proof.
  intros Hi Hl Hr. unfold custody, queue_with, on_offer.
  cbn [source_index source_received source_input settlements set_source_input set_source_index
    set_settlements]. rewrite Hi, Hr.
  rewrite map_delete. apply offered_removed. apply (map_lookup (λ row, Some (into_settlement row)) _ _ _ Hl).
Qed.

Lemma asks_custody d c d' : asks d c d' → source_index d = None → custody d' = custody d.
Proof.
  intros [index settlement Hn|] Hi; [|done].
  destruct (next_row_first _ _ _ Hn) as (Hl & _ & _).
  unfold custody, queue_with. cbn [source_index settlements set_settlements]. rewrite Hi.
  change (map ?f ?l) with (f <$> l). rewrite list_fmap_insert. simpl.
  apply list_insert_id. by rewrite list_lookup_fmap, Hl.
Qed.
Lemma requests_custody c d cs d' : requests c d cs d' → custody d' = custody d.
Proof. by intros []. Qed.
Lemma folds_custody d cs d' fl : folds d cs d' fl → custody d' = custody d.
Proof.
  intros [d1 _ Ht|event b d1 _ Ht|event b a acts act i d1 fl' _ Hv _].
  - exact (terminal_custody _ _ Ht).
  - exact (terminal_custody _ _ Ht).
  - exact (verdict_custody _ _ Hv).
Qed.

(** What the slots of an offer keep. *)
Definition offer_slots d : Prop :=
  (is_Some (interpretation d) → source_index d = None) ∧
  (source_index d = None → source_input d = None ∧ source_received d = None).

Lemma verdict_offer_slots d d' : verdict d d' → offer_slots d → offer_slots d'.
Proof. by intros []. Qed.
Lemma terminal_offer_slots d d' : terminal d d' → offer_slots d → offer_slots d'.
Proof. intros [Hv _]. by apply verdict_offer_slots. Qed.

Lemma asks_requests_slots d c d1 cs d2 :
  asks d c d1 → requests c d1 cs d2 →
  source_index d2 = source_index d ∧ source_input d2 = source_input d ∧
  source_received d2 = source_received d ∧ interpretation d2 = interpretation d.
Proof. by intros [] []. Qed.

Lemma offers_slots d cs d' index :
  offers d cs d' → source_index d = Some index → interpretation d = None → offer_slots d'.
Proof.
  intros Ho Hi Hint.
  assert (source_index d' = Some index ∧ interpretation d' = None) as [H1 H2] by by destruct Ho.
  unfold offer_slots. rewrite H1, H2. split; [|done]. intros Hs. by destruct Hs.
Qed.

Lemma progresses_custody d cs d' fl :
  progresses d cs d' fl → fl ≠ Loop_Panicked → bounded d → offer_slots d → interpretation d = None →
  moves d (custody d') ∧ offer_slots d'.
Proof.
  intros Hp Hfl Hb Hs Hint. destruct Hp as [d' _ Ht|index cs d' Hi Ho|index cs d1 d' Hi Ho Ht
    |index cs d1 custody' q d' Hi Ho Hin1 Hrec1 Hq Hv _|index cs custody' d' Hi Hq|index settlement Hi Hn
    |act d' Hi Hn _ Ht|c d1 cs d' Hi Ha Hr|c d1 cs d2 d' ing Hi Ha Hr _ Ht
    |c d1 cs d2 cs' d' fl Hi Ha Hr Hf].
  - rewrite (terminal_custody _ _ Ht). split; [exact (moves_stay d)|by eapply terminal_offer_slots].
  - split; [by eapply offers_moves; [| |apply Hb]|].
    by eapply offers_slots.
  - rewrite (terminal_custody _ _ Ht). split; [by eapply offers_moves; [| |apply Hb]|].
    eapply terminal_offer_slots; [exact Ht|]. by eapply offers_slots.
  - pose proof (Hb index Hi) as Hle. rewrite (verdict_custody _ _ Hv). split.
    + erewrite requeue_custody; [|exact Hq|exact Hle|done|done].
      assert (∀ current, moves d (take index (map (λ row, Some (into_settlement row)) (settlements d)) ++
        current :: drop index (map (λ row, Some (into_settlement row)) (settlements d)))) as Hreply.
      { intros current. rewrite <-(insert_offered _ _ (on_offer d)) by (by rewrite length_map).
        replace (take index _ ++ _ :: _) with (custody d); [by apply moves_reply|].
        unfold custody, queue_with. by rewrite Hi. }
      destruct custody'; [|apply Hreply..].
      rewrite <-(delete_offered (map _ (settlements d)) index (on_offer d)) by (by rewrite length_map).
      replace (take index _ ++ _ :: _) with (custody d); [by apply moves_exhausted|].
      unfold custody, queue_with. by rewrite Hi.
    + eapply verdict_offer_slots; [exact Hv|]. split; [done|]. cbn. by rewrite Hin1.
  - done.
  - destruct (next_row_first _ _ _ Hn) as (Hl & _ & _). destruct (proj2 Hs Hi) as [_ Hrec].
    rewrite select_custody by done. split; [exact (moves_stay d)|].
    split; [|done]. cbn. rewrite Hint. intros Hsome. by destruct Hsome.
  - destruct Ht as [-> |Ht]; [split; [exact (moves_stay d)|exact Hs]|].
    rewrite (terminal_custody _ _ Ht). split; [exact (moves_stay d)|].
    eapply terminal_offer_slots; [exact Ht|exact Hs].
  - rewrite (requests_custody _ _ _ _ Hr), (asks_custody _ _ _ Ha Hi). split; [exact (moves_stay d)|].
    destruct (asks_requests_slots _ _ _ _ _ Ha Hr) as (H1 & H2 & H3 & H4).
    unfold offer_slots. by rewrite H1, H2, H3, H4.
  - rewrite (terminal_custody _ _ Ht).
    change (custody (set_ingress ing d2)) with (custody d2).
    rewrite (requests_custody _ _ _ _ Hr), (asks_custody _ _ _ Ha Hi).
    split; [exact (moves_stay d)|]. eapply terminal_offer_slots; [exact Ht|].
    destruct (asks_requests_slots _ _ _ _ _ Ha Hr) as (H1 & H2 & H3 & H4).
    unfold offer_slots. cbn. by rewrite H1, H2, H3, H4.
  - rewrite (folds_custody _ _ _ _ Hf), (requests_custody _ _ _ _ Hr), (asks_custody _ _ _ Ha Hi).
    split; [exact (moves_stay d)|].
    destruct (asks_requests_slots _ _ _ _ _ Ha Hr) as (H1 & H2 & H3 & H4).
    assert (source_index d2 = None ∧ source_input d2 = None ∧ source_received d2 = None)
      as (G1 & G2 & G3) by (destruct (proj2 Hs Hi); by rewrite H1, H2, H3, Hi).
    destruct Hf as [d' _ Ht|event b d' _ Ht|event b a acts act i d' fl' _ Hv _].
    + eapply terminal_offer_slots; [exact Ht|]. by split.
    + eapply terminal_offer_slots; [exact Ht|]. by split.
    + eapply verdict_offer_slots; [exact Hv|]. by split.
Qed.

Lemma verdict_input d d' : verdict d d' → retirement_input d' = retirement_input d.
Proof. by intros []. Qed.

Lemma progresses_input d cs d' fl :
  progresses d cs d' fl → fl ≠ Loop_Panicked → retirement_input d' = retirement_input d.
Proof.
  intros Hp Hfl.
  assert (∀ d0 cs0 d1, offers d0 cs0 d1 → retirement_input d1 = retirement_input d0) as Hoff
    by (by intros ? ? ? []).
  assert (∀ c d0 d1, asks d0 c d1 → retirement_input d1 = retirement_input d0) as Hask
    by (by intros ? ? ? []).
  assert (∀ c d0 cs0 d1, requests c d0 cs0 d1 → retirement_input d1 = retirement_input d0) as Hreq
    by (by intros ? ? ? ? []).
  destruct Hp as [d' _ [Hv _]|index cs d' Hi Ho|index cs d1 d' Hi Ho [Hv _]
    |index cs d1 custody' q d' Hi Ho Hin1 Hrec1 Hq Hv _|index cs custody' d' Hi Hq|index settlement Hi Hn
    |act d' Hi Hn _ Ht|c d1 cs d' Hi Ha Hr|c d1 cs d2 d' ing Hi Ha Hr _ [Hv _]
    |c d1 cs d2 cs' d' fl Hi Ha Hr Hf].
  - exact (verdict_input _ _ Hv).
  - by eapply Hoff.
  - rewrite (verdict_input _ _ Hv). by eapply Hoff.
  - rewrite (verdict_input _ _ Hv). change (retirement_input d1 = retirement_input d). by eapply Hoff.
  - done.
  - done.
  - destruct Ht as [-> |[Hv _]]; [done|]. exact (verdict_input _ _ Hv).
  - by rewrite (Hreq _ _ _ _ Hr), (Hask _ _ _ Ha).
  - rewrite (verdict_input _ _ Hv). change (retirement_input d2 = retirement_input d).
    by rewrite (Hreq _ _ _ _ Hr), (Hask _ _ _ Ha).
  - rewrite <-(Hask _ _ _ Ha), <-(Hreq _ _ _ _ Hr).
    destruct Hf as [d' _ [Hv _]|event b d' _ [Hv _]|event b a acts act i d' fl' _ Hv _];
      exact (verdict_input _ _ Hv).
Qed.

(** Before a terminal edge, custody moves; nothing was gathered yet. *)
Record custodial d : Prop := {
  custodial_slots : offer_slots d;
  custodial_start :
    before_publication (phase d) = true → is_running (phase d) = false →
    interpretation d = None ∧ source_index d = None;
  custodial_input : retirement_input d = None
}.

Lemma classified_custody i d :
  source_index d = None →
  custody (classified i d) = Some (interpretation_settlement i) :: custody d.
Proof.
  intros Hi. unfold custody, queue_with.
  change (source_index (classified i d)) with (source_index d). by rewrite Hi.
Qed.

Lemma verdict_custodial d d' :
  verdict d d' → custodial d → custodial d'.
Proof.
  intros Hv [H1 H2 H3]. split.
  - by eapply verdict_offer_slots.
  - destruct (verdict_cases _ _ Hv) as [-> |[_ Hp]]; [done|]. by rewrite Hp.
  - by rewrite (verdict_input _ _ Hv).
Qed.

Lemma turn_custody d cs d' fl :
  turn d cs d' fl → fl ≠ Loop_Panicked → past_edge (phase d) = false → bounded d → custodial d →
  moves d (custody d') ∧ custodial d'.
Proof.
  intros Ht Hfl He Hb Hc. pose proof Hc as [Hs Hst Hin].
  assert (∀ d1, custody d1 = custody d → verdict d1 d' → moves d (custody d')) as Hmv.
  { intros d1 Heq Hv. rewrite (verdict_custody _ _ Hv), Heq. exact (moves_stay d). }
  destruct Ht as [b a Hp|b d' Hp [Ht Hr]|env acts act Hp|env acts act r d' Hp [Ht Hr]
    |act i d' Hp Hv|d' Hp _ [Ht Hr]|i d' Hp Hi [Ht Hr]|d1 cs d' fl Hp Hd1 Hpr|d' Hp Hg|d' Hp Hg
    |d1 env acts r failures fl Hp Hg _|d1 act acts i received index ing owned r failures fl Hp Hg _ _|Hp];
    try (by rewrite Hp in He).
  - rewrite Hp in Hst. split; [exact (moves_stay d)|]. split; [exact Hs|intros _ _; exact (Hst eq_refl eq_refl)|exact Hin].
  - rewrite Hp in Hst. split; [by refine (Hmv _ _ Ht)|]. apply (verdict_custodial _ _ Ht).
    split; [exact Hs|intros _ _; exact (Hst eq_refl eq_refl)|exact Hin].
  - split; [exact (moves_stay d)|]. rewrite Hp in Hst.
    split; [exact Hs|intros _ _; exact (Hst eq_refl eq_refl)|exact Hin].
  - rewrite Hp in Hst. split; [by refine (Hmv _ _ Ht)|]. apply (verdict_custodial _ _ Ht).
    split; [exact Hs|intros _ _; exact (Hst eq_refl eq_refl)|exact Hin].
  - rewrite Hp in Hst. destruct (Hst eq_refl eq_refl) as [Hint Hix].
    split; [by refine (Hmv _ _ Hv)|]. apply (verdict_custodial _ _ Hv).
    split; [|done|exact Hin]. split; [intros _; exact Hix|exact (proj2 Hs)].
  - split; [by refine (Hmv _ _ Ht)|]. by apply (verdict_custodial _ _ Ht).
  - assert (source_index d = None) as Hix by (apply Hs; by rewrite Hi).
    rewrite (verdict_custody _ _ Ht), classified_custody by done.
    split; [by apply moves_push|]. apply (verdict_custodial _ _ Ht).
    split; [|intros _ Hn; change (is_running (phase d) = false) in Hn; congruence|exact Hin].
    split; [intros Hx; by destruct Hx|exact (proj2 Hs)].
  - assert (bounded d1 ∧ offer_slots d1 ∧ interpretation d1 = None ∧ retirement_input d1 = None ∧
      (source_index d1 = None → moves d (custody d1)) ∧
      (∀ c, moves d1 c → source_index d1 = None → c = custody d1) ∧
      (is_Some (source_index d1) → d1 = d)) as (Hb1 & Hs1 & Hint1 & Hin1 & Hm1 & Hn1 & Hsame).
    { destruct Hd1 as [[Hint ->]|(i & Hi & _ & ->)].
      - split_and!; [done..|intros _; exact (moves_stay d)| |done].
        intros c Hm Hix. destruct Hm; [done|congruence..].
      - assert (source_index d = None) as Hix by (apply Hs; by rewrite Hi).
        match goal with |- bounded ?x ∧ _ => change (custody x) with (custody (classified i d)); set (d1 := x) in * end.
        split_and!.
        + apply bounded_none. exact Hix.
        + split; [intros Hx; by destruct Hx|exact (proj2 Hs)].
        + done.
        + exact Hin.
        + intros _. rewrite classified_custody by done. by apply moves_push.
        + intros c Hm Hx. destruct Hm; [done|done|change (source_index d = Some index) in H; congruence..].
        + intros Hx. change (is_Some (source_index d)) in Hx. rewrite Hix in Hx. by destruct Hx. }
    destruct (progresses_custody _ _ _ _ Hpr Hfl Hb1 Hs1 Hint1) as [Hm Hs'].
    split.
    + destruct (source_index d1) as [index|] eqn:Hix.
      * rewrite Hsame in Hm by (by eexists). exact Hm.
      * rewrite (Hn1 _ Hm eq_refl). by apply Hm1.
    + split; [exact Hs'| |by rewrite (progresses_input _ _ _ _ Hpr Hfl)].
      assert (is_running (phase d1) = true) as Hr1.
      { destruct Hd1 as [[_ ->]|(i & _ & _ & ->)]; [done|]. cbn. by destruct (phase d). }
      intros Hbp Hnr.
      destruct (progresses_calls _ _ _ _ (phase d1) Hpr Hfl) as [[_ Hg]|(_ & _ & Hg)].
      * by apply goes_to_same, is_running_executing.
      * destruct Hg as [Hg|(_ & _ & Hg)]; [by rewrite Hg in Hbp|]. specialize (Hg Hr1). congruence.
      * by destruct Hg as [Hg|Hg]; rewrite Hg in Hbp.
Qed.

(** A retiring iteration suspends only once the retirement is attempted. *)
Lemma retiring_flow d w :
  phase d = Retiring →
  flow (drive_step d w) = Loop_Return ∨ flow (drive_step d w) = Loop_Panicked ∨
  phase (after (drive_step d w)) = RetirementAttempted.
Proof.
  intros Hp. pose proof (drive_step_turn d w) as Ht. unfold of_iteration in Ht.
  inversion Ht as [| | | | | | |d1 cs d' fl Hr| |d' _ _ H1 H2 Hfl|d1 env acts r failures fl _ Hg _ H1 H2
    |d1 act acts i received index ing owned r failures fl _ Hg _ _ H1 H2|]; try congruence.
  - by rewrite Hp in H.
  - by rewrite Hp in H.
  - by rewrite Hp in Hr.
  - by left.
  - by right; left.
  - by right; right.
  - by right; right.
Qed.

Lemma retire_call d w owned :
  calls (drive_step d w) = [Call_RetireActive owned] → flow (drive_step d w) ≠ Loop_Panicked →
  ∃ d1, phase d = Retiring ∧ gather_retirement d = Some d1 ∧ is_Some (active d1) ∧
    owned = retirement_input d1.
Proof.
  intros Hcalls Hfl. pose proof (drive_step_turn d w) as Ht. unfold of_iteration in Ht.
  rewrite Hcalls in Ht. inversion Ht as [| | | | | | |d1 cs d' fl Hr Hd1 Hpr| | |
    |d1 act acts i received index ing owned' r failures fl Hp Hg Ha _|]; subst.
  - destruct (progresses_calls _ _ _ _ (phase d1) Hpr Hfl) as [[HF _]|[Heq _]]; [|by inversion HF|done].
    apply goes_to_same, is_running_executing.
    destruct Hd1 as [[_ ->]|(i & _ & _ & ->)]; [done|]. cbn. by destruct (phase d).
  - by eexists.
Qed.

Lemma driven_custodial b env cs d :
  driven b env cs d →
  phase d = RetirementAttempted ∨ custodial d ∧ bounded d ∨
  phase d = Retiring ∧ ∀ w, drive_step d w = finish d w [].
Proof.
  intros Hd. assert (index_ok d) as Hok by (by eapply driven_index).
  enough (phase d = RetirementAttempted ∨ custodial d ∨
    phase d = Retiring ∧ ∀ w, drive_step d w = finish d w []) as [H|[H|H]]; [by left| |by right; right|].
  { destruct Hok as [Hok|[[_ Hok]|Hok]]; [by left| |by right; left].
    rewrite (custodial_input _ H) in Hok. by destruct Hok. }
  clear Hok. induction Hd as [|cs d w Hd IH Hfl].
  { right. left. split; [by split|by intros|done]. }
  assert (index_ok d) as Hok by (by eapply driven_index).
  pose proof (drive_step_turn d w) as Ht. unfold of_iteration in Ht.
  destruct IH as [Hp|[Hc|[Hp Hi]]].
  - pose proof (turn_calls _ _ _ _ Ht Hfl) as Hcalls. rewrite Hp in Hcalls.
    destruct Hcalls as [_ ->]. by left.
  - assert (bounded d ∨ phase d = RetirementAttempted) as [Hb|Hp].
    { destruct Hok as [?|[[_ Hok]|Hok]]; [by right| |by left].
      rewrite (custodial_input _ Hc) in Hok. by destruct Hok. }
    + destruct (past_edge (phase d)) eqn:He; [|right; left; by eapply turn_custody].
      destruct (phase d) eqn:Hp; try done.
      * pose proof (turn_calls _ _ _ _ Ht Hfl) as Hcalls. rewrite Hp in Hcalls.
        destruct Hcalls as [[_ Hp']|(r & _ & _ & Hp')]; [|by left]. right. right. split; [done|].
        intros w'. apply drive_step_again.
        by destruct (retiring_flow d w Hp) as [Hfl'|[Hfl'|Hp'']]; [|done|congruence].
      * pose proof (turn_calls _ _ _ _ Ht Hfl) as Hcalls. rewrite Hp in Hcalls.
        destruct Hcalls as [_ ->]. by left.
    + pose proof (turn_calls _ _ _ _ Ht Hfl) as Hcalls. rewrite Hp in Hcalls.
      destruct Hcalls as [_ ->]. by left.
  - right. right. rewrite Hi. by split.
Qed.

(** What is gathered for retirement. *)
Lemma gather_queue d d1 :
  custodial d → bounded d → gather_retirement d = Some d1 → is_Some (active d1) →
  retirement_input d1 = Some (omap id (queue_with (source_input d) d)).
Proof.
  intros [[_ Hs] _ Hin] Hb. unfold gather_retirement. rewrite Hin.
  destruct (active d) as [act|] eqn:Ha.
  2: { intros [= <-] Hx. rewrite Ha in Hx. by destruct Hx. }
  intros Hg _. unfold queue_with.
  assert (∀ l : list (SettlementTurn S), omap id (map (λ row, Some (into_settlement row)) l) = map into_settlement l)
    as Hmap by (intros l; induction l as [|x l IH]; [done|]; simpl; f_equal; exact IH).
  destruct (source_index d) as [index|] eqn:Hi.
  - specialize (Hb index Hi).
    rewrite firstn_map, skipn_map, omap_app, Hmap. simpl. rewrite Hmap.
    destruct (source_input d) as [s|] eqn:Hsi.
    + revert Hg. unfold insert_row, vec_insert.
      cbn [settlements set_source_index set_source_input]. apply Nat.leb_le in Hb. rewrite Hb.
      intros [= <-]. cbn. by rewrite map_app.
    + injection Hg as <-. cbn. by rewrite <-map_app, take_drop.
  - destruct (Hs eq_refl) as [-> _] in Hg. injection Hg as <-. cbn. by rewrite Hmap.
Qed.
End order.

(** ** Properties *)

Section properties.
Context {B Event Actions BError W Env Act S I Request EError Residual P : Type}.
Context `{!BehaviorPort B Event Actions BError P}.
Context `{!EnvironmentPort W Env Act Actions Event S I Request EError Residual P}.

(** C30: Every uninterrupted execution obeys the execution law, for any behavior
    and environment: initialize once; activate with exactly the decided actions;
    publish once, before the first ordinary event; a source event only right
    after an offer; each event folded once and exactly its actions applied before
    anything else; after a stop decision, a failure or an end of input nothing
    but one retirement. *)
Theorem driver_obeys_law (b : B) (env : Env) w cs d (w' : W) :
  reaches (Driver_new b env) w cs d w' →
  ∃ law, allows_all Law_Start (cs ++ calls (drive_step d w')) law.
Proof.
  intros Hr. destruct (reaches_law Law_Start _ _ _ _ _ Hr (tracks_new b env)) as (law & Hall & Htr).
  destruct (turn_law _ _ _ _ law (drive_step_turn d w')) as (law' & Hall' & _);
    [|done|exists law'; by eapply allows_app].
  apply (driven_runs b env cs). by eapply reaches_receives.
Qed.

(** Custody is kept in order: before a terminal edge one iteration, whatever
    the host does and wherever it is cancelled, pushes an acquired settlement in
    front of the queue, replaces the row on offer at its own position, or removes
    it; no other row is lost, replaced or reordered. *)
Lemma custody_keeps_order (b : B) (env : Env) cs d (w : W) :
  driven b env cs d → past_edge (phase d) = false → moves d (custody (after (drive_step d w))).
Proof.
  intros Hd Hp. destruct (driven_custodial _ _ _ _ Hd) as [Hr|[[Hc Hb]|[Hr _]]];
    [by rewrite Hr in Hp| |by rewrite Hr in Hp].
  eapply turn_custody; [apply drive_step_turn|by eapply driven_runs|done..].
Qed.

(** Retirement receives the whole queue: the active environment is retired
    with every settlement still owned, in order, the one on offer at its
    original position. *)
Lemma retirement_receives_queue (b : B) (env : Env) cs d (w : W) owned :
  driven b env cs d → calls (drive_step d w) = [Call_RetireActive owned] →
  owned = Some (omap id (queue_with (source_input d) d)).
Proof.
  intros Hd Hcalls. pose proof (driven_runs _ _ _ _ w Hd) as Hfl.
  destruct (retire_call d w owned Hcalls Hfl) as (d1 & Hp & Hg & Ha & ->).
  destruct (driven_custodial _ _ _ _ Hd) as [Hr|[[Hc Hb]|[_ Hi]]]; [congruence| |].
  - by apply gather_queue.
  - by rewrite Hi in Hcalls.
Qed.
End properties.

(** ** Witnesses *)

Import Stalling.

(** The run of [Stalling.completes]. *)
Lemma driver_obeys_law_witness :
  ∃ cs d (w : World), reaches (start [3; 4] [7]) Nowhere cs d w ∧
    length (cs ++ calls (drive_step d w)) = 19 ∧
    ∃ law, allows_all Law_Start (cs ++ calls (drive_step d w)) law.
Proof.
  destruct (drive 40 (start [3; 4] [7]) Nowhere) as [[cs last]|] eqn:Hd; [|by vm_compute in Hd].
  destruct (drive_reached _ _ _ _ _ Hd) as (cs' & d & w & Hr & Hl & Hcs).
  exists cs', d, w. split; [exact Hr|]. split.
  - rewrite <-Hl, <-Hcs. vm_compute in Hd. by injection Hd as <- _.
  - exact (driver_obeys_law [] {| ordinary_events := [3; 4]; source_events := [7] |} _ _ _ _ Hr).
Defined.

