(* ===== verification/EntityRuntime.v ===== *)
(** * The entity runtime: admission, effects and shutdown over the directory

    [crates/bombay/src/entity/runtime.rs]: the calls of [EntityRuntime], the
    interpretation of slot effects as lifecycle tasks and the family shutdown,
    on top of the directory.

    A thread (a caller that holds the admission lock, a lifecycle task or the
    shutdown claimant) is the list of the statements it has left, [Code]; one
    [Action] is one critical section or one call of the port.  [perform] runs
    an action and returns the statements that come next and the tasks it
    schedules; [runtime_step] interleaves the threads.  The actor runtime
    behind [LocalEntityRuntime] is a class of operations on an arbitrary state:
    an asynchronous call acts when its future resolves.

    The futures returned by [admit] are named by their publishers, numbered by
    [issued]; the ledger records what became of each command and each lease. *)

From S2P Require Import Prelude Lifecycle DirectorySlot Directory.

(** ** The port and its results *)

Record Activated {E L : Type} := { endpoint : E; lease : L }.
Arguments Activated : clear implicits.

Variant FenceFailure := FenceFailure_Enqueue | FenceFailure_Acknowledgement.

Variant Passivation :=
  | Passivation_Begun
  | Passivation_NotActive
  | Passivation_AlreadyPassivating
  | Passivation_Superseded
  | Passivation_ShuttingDown.

(** [P] is the state of the port; every call may unwind. *)
Class LocalEntityRuntime (P I C O E L X F : Type) := {
  port_activate : I → ActivationId → Op P (Result (Activated E L) X);
  port_activation_failed : I → ActivationId → X → Op P ();
  port_deliver : E → O → C → Op P (Result () C);
  port_fence : E → Op P (Result () FenceFailure);
  port_retire : I → ActivationId → L → RetirementMode → Op P (Result () F)
}.

(** ** Data *)

Variant AdmissionFailure {C : Type} :=
  | AdmissionFailure_Refused (command : C) (reason : Refusal)
  | AdmissionFailure_ActivationIdsExhausted (command : C)
  | AdmissionFailure_DispatchIdsExhausted (command : C).
Arguments AdmissionFailure : clear implicits.

Variant EntityAdmission := Admission_Open | Admission_Closed.

(** The publisher of an affine pair is its name. *)
Record PendingCommand {O C : Type} := {
  origin : O;
  command : C;
  publisher : positive
}.
Arguments PendingCommand : clear implicits.

(** What must not be lost or duplicated: the publisher of an admitted command,
    the lease of an activated incarnation. *)
Variant Item {L : Type} :=
  | Item_command (publisher : positive)
  | Item_lease (lease : L).
Arguments Item : clear implicits.

Section data.
Context {I C O E L X F : Type}.
Local Abbreviation Pending := (PendingCommand O C).

(** What a caller asks of the slot of an entity. *)
Variant Request :=
  | Request_Dispatch (dispatch_id : DispatchId) (pending : Pending)
  | Request_CancelWaiter (activation_id : ActivationId) (dispatch_id : DispatchId)
  | Request_Passivate (activation_id : ActivationId).

(** The statements of the threads.  A [slot] that is an [option] is the
    [Option<DirectoryArc<Slot>>] an effect is interpreted with; [closed] tells
    [interpret_closed_slot] from [interpret_slot]. *)
Variant Action :=
  | Dispatch (k : I) (pending : Pending)
  | Locate (k : I) (request : Request)
  | Submit_to (k : I) (slot : SlotRef) (request : Request)
  | Passivate (k : I)
  | Read_activation (k : I) (slot : SlotRef)
  | Retire_entity (k : I)
  | Begin_retirement (k : I) (slot : SlotRef)
  | Activate (k : I) (slot : option SlotRef) (activation_id : ActivationId)
  | Diagnose (k : I) (activation_id : ActivationId) (error : X)
  | Deliver (k : I) (slot : option SlotRef) (activation_id : ActivationId)
      (dispatch_id : DispatchId) (endpoint : E) (pending : Pending)
  | Fence (k : I) (slot : option SlotRef) (activation_id : ActivationId) (endpoint : E)
  | Retire (k : I) (slot : option SlotRef) (activation_id : ActivationId) (lease : L)
      (mode : RetirementMode)
  | Close_fence (k : I) (slot : SlotRef) (activation_id : ActivationId) (endpoint : E) (lease : L)
      (fence : Result () DrainFailure)
  | Submit_owned (k : I) (slot : SlotRef) (event : SlotEvent Pending E L)
  | Complete_retirement (slot : SlotRef) (mode : RetirementMode)
  | Interpret_slot (closed : bool) (k : I) (slot : SlotRef)
  | Next_effect (closed : bool) (k : I) (slot : SlotRef)
  | Interpret_effect (closed : bool) (k : I) (slot : option SlotRef)
      (effect : SlotEffect Pending E L)
  | Close_row (k : I) (slot : SlotRef)
  | Spawn_retirement (k : I) (slot : SlotRef) (activation_id : ActivationId) (endpoint : E)
      (lease : L) (fence : Result () DrainFailure).

(** Ghost: the items handed in, and what became of them. *)
Record Ledger := {
  issued : list (Item L);
  outcomes : list (positive * Result () (AdmissionFailure C));
  cancelled : list positive;
  returned : list (ActivationId * L * RetirementMode);
  lost : list (Item L);
  unwound : bool
}.

(** Results of [passivate] and [retire_entity], and retirements published. *)
Variant Answer :=
  | Answer_Passivation (k : I) (passivation : Passivation)
  | Answer_Retirement (k : I) (result : Result RetirementCell EntityRetirementError)
  | Answer_Retired (cell : RetirementCell) (mode : RetirementMode).
End data.
Arguments Request : clear implicits.
Arguments Action : clear implicits.
Arguments Ledger : clear implicits.
Arguments Answer : clear implicits.

(** The runtime ([Runtime] of the source): the directory, the port, the
    admission flag and, of the task group, the rows removed with a failed
    retirement and the failures; with the names [pair] gives to cells and the
    ghosts. *)
Record Runtime {P I C O E L F : Type} `{Countable I} := {
  routes : LocalDirectory I (PendingCommand O C) E L;
  port : P;
  admission : EntityAdmission;
  retired_rows : list (I * SlotRef);
  retirement_failures : list (I * option SlotRef * ActivationId * RetirementMode * F);
  next_cell : positive;
  answers : list (Answer I);
  ledger : Ledger C L
}.
Arguments Runtime P I C O E L F {_ _}.

(** ** What a value holds *)

Section items.
Context {O C E L : Type}.
Local Abbreviation Pending := (PendingCommand O C).

Definition command_items (l : list Pending) : list (Item L) := Item_command ∘ publisher <$> l.
Definition machine_items (machine : EntitySlot Pending E L) : list (Item L) :=
  command_items (slot_commands machine) ++ (Item_lease <$> slot_leases machine).
Definition event_items (event : SlotEvent Pending E L) : list (Item L) :=
  command_items (event_commands event) ++ (Item_lease <$> event_leases event).
Definition effect_items (effect : SlotEffect Pending E L) : list (Item L) :=
  command_items (effect_commands effect) ++ (Item_lease <$> effect_leases effect).

Definition state_items (s : SlotState Pending E L) : list (Item L) :=
  match s with SlotState_Ready machine => machine_items machine | SlotState_Poisoned => [] end.
Definition execution_items (x : SlotExecution Pending E L) : list (Item L) :=
  state_items (slot_state x) ++ (pending x ≫= effect_items).

(** The machine a transition took and did not give back. *)
Definition poisoned_items (x x' : SlotExecution Pending E L) : list (Item L) :=
  match slot_state x' with SlotState_Ready _ => [] | SlotState_Poisoned => state_items (slot_state x) end.
End items.

(** ** Operations *)

Section operations.
Context {P I C O E L X F : Type} `{Countable I} `{LocalEntityRuntime P I C O E L X F}
  (clone : E → option E) (hash_one : I → N).
Local Abbreviation Pending := (PendingCommand O C).
Local Abbreviation Rt := (Runtime P I C O E L F).
Local Abbreviation Act := (Action I C O E L X).
Local Abbreviation Code := (list Act).
Implicit Types (k : I) (slot : SlotRef) (r : Rt).

Definition set_routes (d : LocalDirectory I Pending E L) r : Rt :=
  {| routes := d; port := port r; admission := admission r; retired_rows := retired_rows r;
     retirement_failures := retirement_failures r; next_cell := next_cell r;
     answers := answers r; ledger := ledger r |}.
Definition set_port (p : P) r : Rt :=
  {| routes := routes r; port := p; admission := admission r; retired_rows := retired_rows r;
     retirement_failures := retirement_failures r; next_cell := next_cell r;
     answers := answers r; ledger := ledger r |}.
Definition set_admission (a : EntityAdmission) r : Rt :=
  {| routes := routes r; port := port r; admission := a; retired_rows := retired_rows r;
     retirement_failures := retirement_failures r; next_cell := next_cell r;
     answers := answers r; ledger := ledger r |}.
Definition set_retirements rows failures r : Rt :=
  {| routes := routes r; port := port r; admission := admission r; retired_rows := rows;
     retirement_failures := failures; next_cell := next_cell r;
     answers := answers r; ledger := ledger r |}.
Definition set_answers cell (l : list (Answer I)) r : Rt :=
  {| routes := routes r; port := port r; admission := admission r; retired_rows := retired_rows r;
     retirement_failures := retirement_failures r; next_cell := cell;
     answers := l; ledger := ledger r |}.
Definition set_ledger (g : Ledger C L) r : Rt :=
  {| routes := routes r; port := port r; admission := admission r; retired_rows := retired_rows r;
     retirement_failures := retirement_failures r; next_cell := next_cell r;
     answers := answers r; ledger := g |}.

(** Entries of the ledger. *)
Definition issue (item : Item L) (g : Ledger C L) : Ledger C L :=
  {| issued := issued g ++ [item]; outcomes := outcomes g; cancelled := cancelled g;
     returned := returned g; lost := lost g; unwound := unwound g |}.
Definition resolve_with (p : positive) (result : Result () (AdmissionFailure C))
    (g : Ledger C L) : Ledger C L :=
  {| issued := issued g; outcomes := outcomes g ++ [(p, result)]; cancelled := cancelled g;
     returned := returned g; lost := lost g; unwound := unwound g |}.
Definition cancel (l : list positive) (g : Ledger C L) : Ledger C L :=
  {| issued := issued g; outcomes := outcomes g; cancelled := cancelled g ++ l;
     returned := returned g; lost := lost g; unwound := unwound g |}.
Definition return_lease a (lease : L) mode (g : Ledger C L) : Ledger C L :=
  {| issued := issued g; outcomes := outcomes g; cancelled := cancelled g;
     returned := returned g ++ [(a, lease, mode)]; lost := lost g; unwound := unwound g |}.
Definition lose (l : list (Item L)) (g : Ledger C L) : Ledger C L :=
  {| issued := issued g; outcomes := outcomes g; cancelled := cancelled g;
     returned := returned g; lost := lost g ++ l; unwound := unwound g |}.
Definition unwinding (g : Ledger C L) : Ledger C L :=
  {| issued := issued g; outcomes := outcomes g; cancelled := cancelled g;
     returned := returned g; lost := lost g; unwound := true |}.

Definition record (f : Ledger C L → Ledger C L) : Op Rt () :=
  modify (λ r, set_ledger (f (ledger r)) r).
Definition answer (a : Answer I) : Op Rt () :=
  modify (λ r, set_answers (next_cell r) (answers r ++ [a]) r).

Definition on_routes {A} (op : Op (LocalDirectory I Pending E L) A) : Op Rt A :=
  λ r, let '(d, result) := op (routes r) in (set_routes d r, result).
Definition on_port {A} (op : Op P A) : Op Rt A :=
  λ r, let '(p, result) := op (port r) in (set_port p r, result).

(** An operation of a slot, under its mutex; a machine it poisons is lost. *)
Definition on_slot {A} slot
    (op : SlotExecution Pending E L → SlotExecution Pending E L * option A) :
    Op Rt A :=
  λ r,
    match arena (routes r) !! slot with
    | None => (r, None)
    | Some x =>
        let '(x', result) := op x in
        (set_ledger (lose (poisoned_items x x') (ledger r))
           (set_routes (set_arena (<[slot := x']> (arena (routes r))) (routes r)) r), result)
    end.

(** [pair()]. *)
Definition new_cell : Op Rt RetirementCell :=
  λ r, (set_answers (Pos.succ (next_cell r)) (answers r) r, Some (RetirementCell_new (next_cell r))).

(** [self.tasks.retirement_failed]. *)
Definition retirement_failed k (slot : option SlotRef) (activation_id : ActivationId)
    (mode : RetirementMode) (failure : F) : Op Rt () :=
  modify (λ r, set_retirements (retired_rows r)
    (retirement_failures r ++ [(k, slot, activation_id, mode, failure)]) r).

(** [self.tasks.retain_retired], keeping the rows whose slot has a failure. *)
Definition names_slot slot
    (failure : I * option SlotRef * ActivationId * RetirementMode * F) : bool :=
  let '(_, original, _, _, _) := failure in bool_decide (original = Some slot).

Definition retain_retired (row : I * SlotRef) slot : Op Rt () :=
  modify (λ r, set_retirements
    (if existsb (names_slot slot) (retirement_failures r) then retired_rows r ++ [row]
     else retired_rows r)
    (retirement_failures r) r).

Definition fence_failed (failure : FenceFailure) : DrainFailure :=
  {| stage := match failure with
              | FenceFailure_Enqueue => DrainStage_FenceEnqueue
              | FenceFailure_Acknowledgement => DrainStage_FenceAcknowledgement
              end;
     outstanding_reservations := 0 |}.

Definition complete (pending : Pending) (result : Result () (AdmissionFailure C)) : Op Rt () :=
  record (resolve_with (publisher pending) result).

(** [Self::reject]. *)
Definition reject (_ : DispatchId) (pending : Pending) (reason : Refusal) : Op Rt () :=
  complete pending (Err (AdmissionFailure_Refused (command pending) reason)).

Definition admission_error (error : DirectoryError Pending) : Pending * AdmissionFailure C :=
  match error with
  | ActivationIdsExhausted pending =>
      (pending, AdmissionFailure_ActivationIdsExhausted (command pending))
  | DispatchIdsExhausted pending =>
      (pending, AdmissionFailure_DispatchIdsExhausted (command pending))
  end.

Definition request_event (request : Request C O) : SlotEvent Pending E L :=
  match request with
  | Request_Dispatch dispatch_id pending => Event_Dispatch dispatch_id pending
  | Request_CancelWaiter activation_id dispatch_id => Event_CancelWaiter activation_id dispatch_id
  | Request_Passivate activation_id => Event_BeginDrain activation_id
  end.

(** The end of [passivate]. *)
Definition passivation_of (installed : InstalledSlotEvidence) : Passivation :=
  match installed_evidence installed with
  | Traversed Edge_BeginDrain => Passivation_Begun
  | Traversed _ | SelfLoop | Ignored =>
      match installed_phase installed with
      | Phase_Active => Passivation_Superseded
      | Phase_Draining | Phase_Retiring => Passivation_AlreadyPassivating
      | Phase_Inactive | Phase_Activating => Passivation_NotActive
      end
  end.

Definition answer_request k (request : Request C O) (installed : InstalledSlotEvidence) : Op Rt
    () :=
  match request with
  | Request_Passivate _ => answer (Answer_Passivation k (passivation_of installed))
  | Request_Dispatch _ _ | Request_CancelWaiter _ _ => mret ()
  end.

(** The commands a request drops with the waiters it cancels. *)
Definition cancels (x : option (SlotExecution Pending E L))
    (request : Request C O) : list positive :=
  match slot_state <$> x with
  | Some (SlotState_Ready machine) =>
      publisher <$> cancelled_commands machine (request_event request)
  | _ => []
  end.

(** ** Threads *)

(** What an action leaves to do: the statements that come next in the thread
    and the tasks it schedules with [spawn_owned]. *)
Definition continue (code : Code) : Op Rt (Code * list Code) := mret (code, []).
Definition stop : Op Rt (Code * list Code) := continue [].
Definition spawn_owned (task : Code) : Op Rt (Code * list Code) := mret ([], [task]).

(** [self.interpret(decision)]. *)
Definition interpret_code (decision : InstalledSlotDecision I Pending E L) : Code :=
  let k := entity_id decision in
  match target decision with
  | Mapped slot => [Interpret_slot false k slot]
  | Transient effects => map (Interpret_effect false k None) effects
  end.

Definition perform_effect (closed : bool) k (slot : option SlotRef)
    (effect : SlotEffect Pending E L) : Op Rt (Code * list Code) :=
  match effect with
  | Effect_StartActivation activation_id =>
      if closed then stop else spawn_owned [Activate k slot activation_id]
  | Effect_Deliver activation_id dispatch_id endpoint pending =>
      spawn_owned [Deliver k slot activation_id dispatch_id endpoint pending]
  | Effect_Reject dispatch_id pending reason => _ ← reject dispatch_id pending reason; stop
  | Effect_EnqueueFence activation_id endpoint =>
      spawn_owned [Fence k slot activation_id endpoint]
  | Effect_Retire activation_id lease mode =>
      spawn_owned [Retire k slot activation_id lease mode]
  | Effect_Remove _ =>
      match slot with
      | None => stop
      | Some slot =>
          row ← on_routes (take_slot slot);
          match row with
          | None => stop
          | Some row => _ ← retain_retired row slot; stop
          end
      end
  end.

(** A caller's way from the entity to its slot. *)
Definition locate k (request : Request C O) : Op Rt (Code * list Code) :=
  entry ← on_routes (get hash_one k);
  match entry, request with
  | Some slot, _ => continue [Submit_to k slot request]
  | None, Request_Dispatch dispatch_id pending =>
      claimed ← on_routes (claim clone hash_one k dispatch_id pending);
      match claimed with
      | Err error =>
          let '(pending, failure) := admission_error error in
          _ ← complete pending (Err failure); stop
      | Ok (slot, installed) =>
          continue (interpret_code (installed_slot_decision k installed (Mapped slot)))
      end
  | None, _ =>
      decision ← expect (submit_absent clone k (request_event request));
      _ ← answer_request k request (decided decision);
      continue (interpret_code decision)
  end.

Definition submit_to k slot (request : Request C O) : Op Rt (Code * list Code) :=
  before ← gets (λ r, arena (routes r) !! slot);
  installed ← on_slot slot (λ x, submit clone x (request_event request));
  _ ← record (cancel (cancels before request));
  _ ← answer_request k request installed;
  continue (interpret_code (installed_slot_decision k installed (Mapped slot))).

(** The identity of a dispatch, under the admission lock. *)
Definition dispatch_command k (pending : Pending) : Op Rt (Code * list Code) :=
  sequence ← on_routes allocate_dispatch;
  match sequence with
  | None =>
      let '(pending, failure) := admission_error (DispatchIdsExhausted pending) in
      _ ← complete pending (Err failure); stop
  | Some sequence => continue [Locate k (Request_Dispatch (DispatchId_new sequence) pending)]
  end.

(** [passivate]: the slot of the entity, then its incarnation. *)
Definition passivate k : Op Rt (Code * list Code) :=
  entry ← on_routes (get hash_one k);
  match entry with
  | None => _ ← answer (Answer_Passivation k Passivation_NotActive); stop
  | Some slot => continue [Read_activation k slot]
  end.

Definition current_incarnation k slot : Op Rt (Code * list Code) :=
  current ← on_slot slot (λ x, (x, activation_id x));
  match current with
  | None => _ ← answer (Answer_Passivation k Passivation_NotActive); stop
  | Some activation_id => continue [Locate k (Request_Passivate activation_id)]
  end.

(** [retire_entity]. *)
Definition retire_entity k : Op Rt (Code * list Code) :=
  entry ← on_routes (get hash_one k);
  match entry with
  | None => _ ← answer (Answer_Retirement k (Err NotActive)); stop
  | Some slot => continue [Begin_retirement k slot]
  end.

Definition begin_entity_retirement k slot : Op Rt (Code * list Code) :=
  cell ← new_cell;
  began ← on_slot slot (λ x, begin_retirement clone x cell);
  match began with
  | Err error => _ ← answer (Answer_Retirement k (Err error)); stop
  | Ok (installed, observation) =>
      _ ← answer (Answer_Retirement k (Ok observation));
      continue (interpret_code (installed_slot_decision k installed (Mapped slot)))
  end.

(** The task of a [StartActivation]. *)
Definition activate_task k (slot : option SlotRef) (activation_id : ActivationId) :
    Op Rt (Code * list Code) :=
  result ← on_port (port_activate k activation_id);
  match slot, result with
  | None, Ok activated =>
      _ ← record (lose [Item_lease (lease activated)] ∘ issue (Item_lease (lease activated)));
      panic
  | None, Err _ => panic
  | Some slot, Ok activated =>
      _ ← record (issue (Item_lease (lease activated)));
      continue [Submit_owned k slot
        (Event_ActivationSucceeded activation_id (endpoint activated) (lease activated))]
  | Some slot, Err error =>
      continue [Submit_owned k slot (Event_ActivationFailed activation_id);
                Diagnose k activation_id error]
  end.

Definition diagnose k (activation_id : ActivationId) (error : X) : Op Rt (Code * list Code) :=
  _ ← on_port (port_activation_failed k activation_id error); stop.

(** The task of a [Deliver]. *)
Definition deliver_task k (slot : option SlotRef) (activation_id : ActivationId)
    (dispatch_id : DispatchId) (endpoint : E) (pending : Pending) :
    Op Rt (Code * list Code) :=
  result ← on_port (port_deliver endpoint (origin pending) (command pending));
  failure ← match result with
            | Ok () => _ ← complete pending (Ok ()); mret None
            | Err command =>
                mret (Some (dispatch_id, {| origin := origin pending; command := command;
                                            publisher := publisher pending |}))
            end;
  match slot, failure with
  | Some slot, _ => continue [Submit_owned k slot (Event_DeliveryResolved activation_id failure)]
  | None, Some (dispatch_id, pending) =>
      _ ← reject dispatch_id pending Refusal_Unavailable; stop
  | None, None => stop
  end.

(** The task of an [EnqueueFence]. *)
Definition fence_task k (slot : option SlotRef) (activation_id : ActivationId) (endpoint : E) :
    Op Rt (Code * list Code) :=
  result ← on_port (port_fence endpoint);
  let event := match result with
               | Ok () => Event_FenceAcknowledged activation_id
               | Err failure => Event_ForceDrain activation_id (fence_failed failure)
               end in
  match slot with
  | Some slot => continue [Submit_owned k slot event]
  | None => stop
  end.

(** [retire_owned], and the task of a [Retire] without a slot. *)
Definition retire_owned k (slot : option SlotRef) (activation_id : ActivationId) (lease : L)
    (mode : RetirementMode) :
    Op Rt (Code * list Code) :=
  result ← on_port (port_retire k activation_id lease mode);
  _ ← record (return_lease activation_id lease mode);
  _ ← match result with
      | Err failure => retirement_failed k slot activation_id mode failure
      | Ok () => mret ()
      end;
  match slot with
  | Some slot => continue [Submit_owned k slot (Event_Terminated activation_id);
                           Complete_retirement slot mode]
  | None => stop
  end.

(** The task [shutdown] starts for an incarnation that was idle. *)
Definition closed_fence_task k slot (activation_id : ActivationId) (endpoint : E) (lease : L)
    (fence : Result () DrainFailure) :
    Op Rt (Code * list Code) :=
  mode ← match fence with
         | Ok () =>
             result ← on_port (port_fence endpoint);
             mret match result with
                  | Ok () => RetirementMode_Graceful
                  | Err failure => RetirementMode_Forced (fence_failed failure)
                  end
         | Err failure => mret (RetirementMode_Forced failure)
         end;
  continue [Retire k (Some slot) activation_id lease mode].

(** [slot.submit_owned], then [interpret_slot]. *)
Definition submit_fact k slot (event : SlotEvent Pending E L) : Op Rt (Code * list Code) :=
  _ ← on_slot slot (λ x, submit_owned clone x event);
  continue [Interpret_slot false k slot].

Definition publish_retirement slot (mode : RetirementMode) : Op Rt (Code * list Code) :=
  published ← on_slot slot (λ x, let '(x, published) := complete_retirement x mode in
                                 (x, Some published));
  match published with
  | Some (cell, mode) => _ ← answer (Answer_Retired cell mode); stop
  | None => stop
  end.

(** [slot.dispatch_pending]: take the guard, then one effect after the other. *)
Definition interpret_slot (closed : bool) k slot : Op Rt (Code * list Code) :=
  taken ← on_slot slot (λ x, let '(x, taken) := acquire x in (x, Some taken));
  continue (if taken : bool then [Next_effect closed k slot] else []).

Definition next_effect (closed : bool) k slot : Op Rt (Code * list Code) :=
  effect ← on_slot slot (λ x, let '(x, effect) := next x in (x, Some effect));
  match effect with
  | Some effect =>
      continue [Interpret_effect closed k (Some slot) effect; Next_effect closed k slot]
  | None => stop
  end.

(** The claimant's loop over the rows. *)
Definition close_row k slot : Op Rt (Code * list Code) :=
  retirement ← on_slot slot (λ x, let '(x, retirement) := slot_close_family x in
                                  (x, Some retirement));
  continue (Interpret_slot true k slot ::
    match retirement with
    | Some (activation_id, endpoint, lease, fence) =>
        [Spawn_retirement k slot activation_id endpoint lease fence]
    | None => []
    end).

(** What each statement does. *)
Definition perform (action : Act) : Op Rt (Code * list Code) :=
  match action with
  | Dispatch k pending => dispatch_command k pending
  | Locate k request => locate k request
  | Submit_to k slot request => submit_to k slot request
  | Passivate k => passivate k
  | Read_activation k slot => current_incarnation k slot
  | Retire_entity k => retire_entity k
  | Begin_retirement k slot => begin_entity_retirement k slot
  | Activate k slot activation_id => activate_task k slot activation_id
  | Diagnose k activation_id error => diagnose k activation_id error
  | Deliver k slot activation_id dispatch_id endpoint pending => deliver_task k slot activation_id dispatch_id endpoint pending
  | Fence k slot activation_id endpoint => fence_task k slot activation_id endpoint
  | Retire k slot activation_id lease mode => retire_owned k slot activation_id lease mode
  | Close_fence k slot activation_id endpoint lease fence => closed_fence_task k slot activation_id endpoint lease fence
  | Submit_owned k slot event => submit_fact k slot event
  | Complete_retirement slot mode => publish_retirement slot mode
  | Interpret_slot closed k slot => interpret_slot closed k slot
  | Next_effect closed k slot => next_effect closed k slot
  | Interpret_effect closed k slot effect => perform_effect closed k slot effect
  | Close_row k slot => close_row k slot
  | Spawn_retirement k slot activation_id endpoint lease fence =>
      spawn_owned [Close_fence k slot activation_id endpoint lease fence]
  end.

(** What a thread holds in a statement it has left. *)
Definition request_items (request : Request C O) : list (Item L) :=
  event_items (request_event request).

Definition action_items (action : Act) : list (Item L) :=
  match action with
  | Dispatch _ pending => [Item_command (publisher pending)]
  | Locate _ request | Submit_to _ _ request => request_items request
  | Deliver _ _ _ _ _ pending => [Item_command (publisher pending)]
  | Retire _ _ _ lease _ | Close_fence _ _ _ _ lease _ | Spawn_retirement _ _ _ _ lease _ =>
      [Item_lease lease]
  | Submit_owned _ _ event => event_items event
  | Interpret_effect _ _ _ effect => effect_items effect
  | _ => []
  end.

(** Unwinding drops what the thread holds, its dispatch guard included. *)
Definition drop_guard (action : Act) (d : LocalDirectory I Pending E L) :
    LocalDirectory I Pending E L :=
  match action with
  | Next_effect _ _ slot => update_slot (λ x, drop_dispatch x true) slot d
  | _ => d
  end.

Definition unwind (code : Code) r : Rt :=
  set_ledger (unwinding (lose (code ≫= action_items) (ledger r)))
    (set_routes (foldr drop_guard (routes r) code) r).
End operations.

(** Unfold one statement. *)
Tactic Notation "open_perform" :=
  cbv beta iota zeta delta [perform dispatch_command passivate current_incarnation retire_entity begin_entity_retirement
    activate_task diagnose deliver_task fence_task retire_owned closed_fence_task submit_fact
    publish_retirement interpret_slot next_effect close_row].
Tactic Notation "open_perform" "in" hyp(Hp) :=
  cbv beta iota zeta delta [perform dispatch_command passivate current_incarnation retire_entity begin_entity_retirement
    activate_task diagnose deliver_task fence_task retire_owned closed_fence_task submit_fact
    publish_retirement interpret_slot next_effect close_row] in Hp.

(** ** The family shutdown and the threads *)

Variant EntityShutdown {TF F I : Type} :=
  | Shutdown_Settled (represented : N) (entities : list I)
  | Shutdown_AlreadyClaimed
  | Shutdown_Unsettled (represented : N)
      (entities : list (I * Result () (option ActivationId) *
                        list (ActivationId * RetirementMode * F)))
      (failures : list TF).
Arguments EntityShutdown : clear implicits.

(** Whose thread it is: only a caller holds the admission lock. *)
Variant Owner := ByCaller | ByTask | ByClaimant.

#[export] Instance Owner_eq_dec : EqDecision Owner.
Proof. solve_decision. Defined.

(** Where the claimed [shutdown] stands: waiting for idle before or after the
    rows were drained, in its loops over the rows, or returned. *)
Variant ShutdownStage {Outcome : Type} :=
  | Stage_Unclaimed
  | Stage_Waiting (drained : bool)
  | Stage_Interpreting
  | Stage_Returned (outcome : Outcome).
Arguments ShutdownStage : clear implicits.

Section shutdown.
Context {P I C O E L X F TF : Type} `{Countable I} `{LocalEntityRuntime P I C O E L X F}
  (clone : E → option E) (hash_one : I → N).
Local Abbreviation Pending := (PendingCommand O C).
Local Abbreviation Rt := (Runtime P I C O E L F).
Local Abbreviation Act := (Action I C O E L X).
Local Abbreviation Code := (list Act).
Local Abbreviation Receipt := (I * option SlotRef * ActivationId * RetirementMode * F)%type.

(** The end of [shutdown], when no thread is left: each row takes its own failures,
    and then its key must have no other owner, or [try_unwrap] panics.  Taking a
    slot out of the map allocates its key anew, so that allocation is owned by the
    rows of the slot, and by the receipts of the tasks they started, which name the
    slot and were taken before.  A failure that is left must come from an effect
    without a slot, or the assertion panics; the effects of such a decision share
    the key of their entity, so a later receipt of that entity is another owner. *)
Definition receipts_of (slot : SlotRef) (failures : list Receipt) :
    list (ActivationId * RetirementMode * F) :=
  (λ '(_, _, activation_id, mode, failure), (activation_id, mode, failure)) <$>
    filter (λ failure, names_slot slot failure = true) failures.

Definition receipts_left (slot : SlotRef) (failures : list Receipt) : list Receipt :=
  filter (λ failure, names_slot slot failure ≠ true) failures.

Definition disposition (d : LocalDirectory I Pending E L) (slot : SlotRef) :
    Result () (option ActivationId) :=
  match arena d !! slot with
  | Some x => retirement_disposition x
  | None => Err None
  end.

Local Abbreviation Entity :=
  (I * Result () (option ActivationId) * list (ActivationId * RetirementMode * F))%type.

Fixpoint row_entities (d : LocalDirectory I Pending E L) (rows : list (I * SlotRef))
    (failures : list Receipt) : option (list Entity * list Receipt) :=
  match rows with
  | [] => Some ([], failures)
  | (k, slot) :: rows =>
      let entity := (k, disposition d slot, receipts_of slot failures) in
      if bool_decide (slot ∈ rows.*2) then panic!
      else
        rest ← row_entities d rows (receipts_left slot failures);
        Some (entity :: rest.1, rest.2)
  end.

Definition owns_key (k : I) (receipt : Receipt) : bool :=
  let '(key, original, _, _, _) := receipt in bool_decide (key = k ∧ original = None).

Fixpoint left_entities (receipts : list Receipt) : option (list Entity) :=
  match receipts with
  | [] => Some []
  | (_, Some _, _, _, _) :: _ => panic!
  | (k, None, activation_id, mode, failure) :: receipts =>
      if existsb (owns_key k) receipts then panic!
      else
        entities ← left_entities receipts;
        Some ((k, Ok (), [(activation_id, mode, failure)]) :: entities)
  end.

Definition settled_entity (entity : Entity) : bool :=
  let '(_, disposition, receipts) := entity in
  is_Ok disposition && match receipts with [] => true | _ => false end.

Definition shutdown_result (r : Rt) (rows : list (I * SlotRef)) (task_failures : list TF) :
    option (EntityShutdown TF F I) :=
  let represented := len rows in
  rest ← row_entities (routes r) (rows ++ retired_rows r) (retirement_failures r);
  transient ← left_entities rest.2;
  let entities := rest.1 ++ transient in
  match task_failures with
  | [] => if forallb settled_entity entities
          then Some (Shutdown_Settled represented ((λ entity, entity.1.1) <$> entities))
          else Some (Shutdown_Unsettled represented entities [])
  | _ => Some (Shutdown_Unsettled represented entities task_failures)
  end.

Definition row_pending (r : Rt) (row : I * SlotRef) : bool :=
  match arena (routes r) !! row.2 with Some x => has_pending x | None => false end.

(** The claimant's two loops over the rows. *)
Definition close_rows (rows : list (I * SlotRef)) : Code :=
  map (λ row, Close_row row.1 row.2) rows.
Definition interpret_rows (rows : list (I * SlotRef)) : Code :=
  map (λ row, Interpret_slot true row.1 row.2) rows.

(** The runtime, its threads, the stage of shutdown and the rows drained. *)
Record RuntimeWorld := {
  runtime : Rt;
  threads : list (Owner * Code);
  stage : ShutdownStage (option (EntityShutdown TF F I));
  family : option (list (I * SlotRef))
}.

Definition with_threads (r : Rt) (l : list (Owner * Code)) (w : RuntimeWorld) : RuntimeWorld :=
  {| runtime := r; threads := l; stage := stage w; family := family w |}.
Definition with_stage (s : ShutdownStage (option (EntityShutdown TF F I))) (l : list (Owner * Code))
    (w : RuntimeWorld) : RuntimeWorld :=
  {| runtime := runtime w; threads := l; stage := s; family := family w |}.

Definition unlocked (w : RuntimeWorld) : Prop := ∀ code, (ByCaller, code) ∉ threads w.

Definition tasks_of (spawned : list Code) : list (Owner * Code) := map (pair ByTask) spawned.

Definition admitted (p : positive) (r : Rt) : Rt :=
  set_ledger (issue (Item_command p) (ledger r)) r.

(** What [Dispatch], [Passivate] and [Retire_entity] start; a [DispatchWait]
    that is dropped cancels its waiter. *)
Inductive call : Act → Prop :=
  | call_passivate k : call (Passivate k)
  | call_retire k : call (Retire_entity k)
  | call_cancel k activation_id dispatch_id :
      call (Locate k (Request_CancelWaiter activation_id dispatch_id)).

Definition closed_answer (action : Act) : list (Answer I) :=
  match action with
  | Passivate k => [Answer_Passivation k Passivation_ShuttingDown]
  | Retire_entity k => [Answer_Retirement k (Err ShuttingDown)]
  | _ => []
  end.

(** The family the claimant works on: drained by the first claim only. *)
Definition record_drain (w : RuntimeWorld) : Rt * list (I * SlotRef) :=
  match family w with
  | Some rows => (runtime w, rows)
  | None =>
      let '(d, rows) := take_family (routes (runtime w)) in
      (set_routes d (runtime w), default [] rows)
  end.

(** One critical section, one call of the port or one await of [shutdown]. *)
Inductive runtime_step : RuntimeWorld → RuntimeWorld → Prop :=
  (** calls that found admission open, holding its lock until they return *)
  | step_admit w k (pending : Pending) :
      admission (runtime w) = Admission_Open → unlocked w →
      Item_command (publisher pending) ∉ issued (ledger (runtime w)) →
      runtime_step w (with_threads (admitted (publisher pending) (runtime w))
        ((ByCaller, [Dispatch k pending]) :: threads w) w)
  | step_call w action :
      admission (runtime w) = Admission_Open → unlocked w → call action →
      runtime_step w (with_threads (runtime w) ((ByCaller, [action]) :: threads w) w)
  (** calls that found it closed *)
  | step_admit_closed w (pending : Pending) :
      admission (runtime w) = Admission_Closed → unlocked w →
      Item_command (publisher pending) ∉ issued (ledger (runtime w)) →
      runtime_step w (with_threads
        (set_ledger (resolve_with (publisher pending)
             (Err (AdmissionFailure_Refused (command pending) Refusal_Shutdown))
             (issue (Item_command (publisher pending)) (ledger (runtime w)))) (runtime w))
        (threads w) w)
  | step_call_closed w action :
      admission (runtime w) = Admission_Closed → unlocked w → call action →
      runtime_step w (with_threads
        (set_answers (next_cell (runtime w)) (answers (runtime w) ++ closed_answer action) (runtime w))
        (threads w) w)
  (** a thread performs its next statement *)
  | step_perform w pre o action code post r next spawned :
      threads w = pre ++ (o, action :: code) :: post →
      perform clone hash_one action (runtime w) = (r, Some (next, spawned)) →
      runtime_step w (with_threads r (pre ++ (o, next ++ code) :: post ++ tasks_of spawned) w)
  (** the statement panics; or code of the user or of the port that runs in it *)
  | step_panic w pre o action code post r :
      threads w = pre ++ (o, action :: code) :: post →
      perform clone hash_one action (runtime w) = (r, None) →
      runtime_step w {| runtime := unwind (action :: code) r; threads := pre ++ post;
        stage := if decide (o = ByClaimant) then Stage_Unclaimed else stage w; family := family w |}
  | step_unwind w pre o action code post :
      threads w = pre ++ (o, action :: code) :: post →
      runtime_step w {| runtime := unwind (action :: code) (runtime w); threads := pre ++ post;
        stage := if decide (o = ByClaimant) then Stage_Unclaimed else stage w; family := family w |}
  | step_finish w pre o post :
      threads w = pre ++ (o, []) :: post →
      runtime_step w (with_stage (if decide (o = ByClaimant) then Stage_Waiting true else stage w)
        (pre ++ post) w)
  (** [shutdown] *)
  | step_close_admission w :
      unlocked w →
      runtime_step w (with_threads (set_admission Admission_Closed (runtime w)) (threads w) w)
  | step_claim w :
      admission (runtime w) = Admission_Closed → stage w = Stage_Unclaimed →
      runtime_step w (with_stage (Stage_Waiting false) (threads w) w)
  | step_drain w r rows :
      stage w = Stage_Waiting false → threads w = [] → record_drain w = (r, rows) →
      runtime_step w {| runtime := r; threads := [(ByClaimant, close_rows rows)];
        stage := Stage_Interpreting; family := Some rows |}
  | step_again w rows :
      stage w = Stage_Waiting true → threads w = [] → family w = Some rows →
      existsb (row_pending (runtime w)) rows = true →
      runtime_step w (with_stage Stage_Interpreting [(ByClaimant, interpret_rows rows)] w)
  | step_return w rows task_failures :
      stage w = Stage_Waiting true → threads w = [] → family w = Some rows →
      existsb (row_pending (runtime w)) rows = false →
      runtime_step w (with_stage (Stage_Returned (shutdown_result (runtime w) rows task_failures))
        [] w)
  | step_drop_claim w drained :
      stage w = Stage_Waiting drained →
      runtime_step w (with_stage Stage_Unclaimed (threads w) w).

(** [EntityRuntime::new]. *)
Definition runtime_new (d : LocalDirectory I Pending E L) (p : P) : Rt :=
  {| routes := d; port := p; admission := Admission_Open; retired_rows := [];
     retirement_failures := []; next_cell := 1; answers := [];
     ledger := {| issued := []; outcomes := []; cancelled := []; returned := []; lost := [];
                  unwound := false |} |}.

Definition runtime_init (d : LocalDirectory I Pending E L) (p : P) : RuntimeWorld :=
  {| runtime := runtime_new d p; threads := []; stage := Stage_Unclaimed; family := None |}.

Definition runtime_reachable (config : DirectoryConfig) (w : RuntimeWorld) : Prop :=
  ∃ d p, with_hasher config = Some d ∧ rtc runtime_step (runtime_init d p) w.
End shutdown.
Arguments RuntimeWorld P I C O E L X F TF {_ _}.
