(* ===== verification/EntityExample.v ===== *)
(** * A concrete entity runtime

    A port on numbers, an executable scheduler that always runs the first thread
    ([drive]), and the worlds of one scenario, on which the theorems about the
    runtime are applied: two commands wait for one activation, are delivered
    side by side, and the family is shut down. *)

From S2P Require Import Prelude Lifecycle DirectorySlot Directory EntityRuntime.

(** ** Driving the first thread *)

Section drive.
Context {P I C O E L X F TF : Type} `{Countable I} `{LocalEntityRuntime P I C O E L X F}
  (clone : E → option E) (hash_one : I → N).
Local Abbreviation RtWorld := (RuntimeWorld P I C O E L X F TF).
Implicit Types (w : RtWorld).

Definition drive_once w : RtWorld :=
  match threads w with
  | [] => w
  | (o, []) :: post =>
      with_stage (if decide (o = ByClaimant) then Stage_Waiting true else stage w) post w
  | (o, action :: code) :: post =>
      match perform clone hash_one action (runtime w) with
      | (r, Some (next, spawned)) => with_threads r ((o, next ++ code) :: post ++ tasks_of spawned) w
      | (_, None) => w
      end
  end.

Fixpoint drive (fuel : nat) w : RtWorld :=
  match fuel with 0%nat => w | S fuel => drive fuel (drive_once w) end.

Lemma drive_once_steps w : rtc (runtime_step clone hash_one) w (drive_once w).
Proof.
  unfold drive_once. destruct (threads w) as [|[o [|action code]] post] eqn:Ht; [done|..].
  - by apply rtc_once, (step_finish _ _ w [] o post).
  - destruct (perform clone hash_one action (runtime w)) as [r [[next spawned]|]] eqn:Hp; [|done].
    by apply rtc_once, (step_perform _ _ w [] o action code post r next spawned).
Qed.

Lemma drive_steps fuel w : rtc (runtime_step clone hash_one) w (drive fuel w).
Proof.
  revert w. induction fuel as [|fuel IH]; intros w; [done|]. simpl.
  etrans; [apply drive_once_steps|apply IH].
Qed.
End drive.

(** ** The scenario *)

(** The port counts its calls: entities from 100 on do not activate, command 0
    is refused, command 255 panics, odd endpoints cannot be fenced, and the
    retirement of entity 13 fails. *)
#[export] Instance counting_port : LocalEntityRuntime N N N N N N N N := {
  port_activate k _ := λ p, ((p + 1)%N, Some (if (k <? 100)%N then Ok (Build_Activated _ _ k p) else Err k));
  port_activation_failed _ _ _ := λ p, ((p + 1)%N, Some ());
  port_deliver _ _ command := λ p,
    ((p + 1)%N, if (command =? 255)%N then None else Some (if (command =? 0)%N then Err command else Ok ()));
  port_fence endpoint := λ p,
    ((p + 1)%N, Some (if N.even endpoint then Ok () else Err FenceFailure_Enqueue));
  port_retire k _ _ _ := λ p, ((p + 1)%N, Some (if (k =? 13)%N then Err p else Ok ()))
}.

Local Abbreviation NWorld := (RuntimeWorld N N N N N N N N N).
Local Abbreviation nstep := (runtime_step (TF := N) copy_endpoint identity_hash).

Definition small_directory : LocalDirectory N (PendingCommand N N) N N :=
  {| shards := [∅; ∅; ∅; ∅]; mask := 3; directory_waiter_limit := 2; next_activation := 1;
     next_dispatch := 1; arena := ∅ |}.

Definition start : NWorld := runtime_init small_directory 0%N.

(** A caller admits [c] for [k]. *)
Definition arrive (k c : N) (p : positive) (w : NWorld) : NWorld :=
  with_threads (admitted p (runtime w))
    ((ByCaller, [Dispatch k {| origin := 0%N; command := c; publisher := p |}]) :: threads w) w.

Definition ndrive (fuel : nat) : NWorld → NWorld := drive copy_endpoint identity_hash fuel.

(** Admission closes, the claimant drains the family. *)
Definition close_and_claim (w : NWorld) : NWorld :=
  with_stage (Stage_Waiting false) (threads w)
    (with_threads (set_admission Admission_Closed (runtime w)) (threads w) w).
Definition begin_shutdown (w : NWorld) : NWorld :=
  let '(r, rows) := record_drain (close_and_claim w) in
  {| runtime := r; threads := [(ByClaimant, close_rows rows)]; stage := Stage_Interpreting;
     family := Some rows |}.

(** Two commands for entity 6 wait for its activation; they are delivered side
    by side; both have been delivered and an entity [k] is active as well; the
    family is drained and nothing runs any more. *)
Definition waiting_world : NWorld := Eval vm_compute in
  ndrive 6 (arrive 6 0 2 (ndrive 7 (arrive 6 1 1 start))).
Definition delivering_world : NWorld := Eval vm_compute in ndrive 7 waiting_world.
Definition served_world : NWorld := Eval vm_compute in ndrive 40 delivering_world.
Definition busy_world (k : N) : NWorld := ndrive 40 (arrive k 1 3 served_world).
Definition drained_world (k : N) : NWorld := ndrive 80 (begin_shutdown (busy_world k)).

(** The delivery of command 255 is about to panic. *)
Definition panicking_world : NWorld := Eval vm_compute in ndrive 13 (arrive 6 255 1 start).

(** Entity 7 retires; entity 13 leaves a receipt. *)
Definition settled_world : NWorld := Eval vm_compute in drained_world 7.

Lemma arrive_steps k c p (w : NWorld) :
  admission (runtime w) = Admission_Open → unlocked w →
  Item_command p ∉ issued (ledger (runtime w)) → rtc nstep w (arrive k c p w).
Proof. intros Ho Hu Hp. apply rtc_once. by apply (step_admit _ _ w k (Build_PendingCommand _ _ 0%N c p)). Qed.

Lemma begin_shutdown_steps (w : NWorld) :
  stage w = Stage_Unclaimed → threads w = [] → rtc nstep w (begin_shutdown w).
Proof.
  intros Hs Ht. eapply rtc_l; [apply step_close_admission; intros code; rewrite Ht; apply not_elem_of_nil|].
  eapply rtc_l; [by apply step_claim|]. apply rtc_once.
  change (nstep (close_and_claim w) (begin_shutdown w)). unfold begin_shutdown.
  destruct (record_drain (close_and_claim w)) as [r rows] eqn:Hr. by apply step_drain.
Qed.

Definition scenario (w : NWorld) : Prop := rtc nstep start w.

Lemma scenario_reachable w :
  scenario w → runtime_reachable copy_endpoint identity_hash small_config w.
Proof. intros Hw. by exists small_directory, 0%N. Qed.

Lemma ndrive_steps fuel (w : NWorld) : rtc nstep w (ndrive fuel w).
Proof. apply drive_steps. Qed.

#[local] Opaque ndrive begin_shutdown.

Lemma waiting_scenario : scenario waiting_world.
Proof.
  set (w := ndrive 7 (arrive 6 1 1 start)).
  assert (rtc nstep start w) as Hw.
  { etrans; [|apply ndrive_steps]. apply arrive_steps; [done|intros c; apply not_elem_of_nil..|].
    apply not_elem_of_nil. }
  assert (waiting_world = ndrive 6 (arrive 6 0 2 w)) as -> by by vm_compute.
  unfold scenario. etrans; [exact Hw|]. etrans; [|apply ndrive_steps].
  apply arrive_steps; [by vm_compute|intros c; vm_compute; set_solver|vm_compute; set_solver].
Qed.

Lemma delivering_scenario : scenario delivering_world.
Proof.
  assert (delivering_world = ndrive 7 waiting_world) as -> by by vm_compute.
  unfold scenario. etrans; [apply waiting_scenario|apply ndrive_steps].
Qed.

Lemma panicking_scenario : scenario panicking_world.
Proof.
  assert (panicking_world = ndrive 13 (arrive 6 255 1 start)) as -> by by vm_compute.
  unfold scenario. etrans; [|apply ndrive_steps].
  apply arrive_steps; [done|intros c; apply not_elem_of_nil|apply not_elem_of_nil].
Qed.

Lemma served_scenario : scenario served_world.
Proof.
  assert (served_world = ndrive 40 delivering_world) as -> by by vm_compute.
  unfold scenario. etrans; [apply delivering_scenario|apply ndrive_steps].
Qed.

Lemma drained_scenario k :
  stage (busy_world k) = Stage_Unclaimed → threads (busy_world k) = [] → scenario (drained_world k).
Proof.
  intros Hs Ht. unfold scenario, drained_world.
  trans (begin_shutdown (busy_world k)); [|apply ndrive_steps].
  trans (busy_world k); [|by apply begin_shutdown_steps].
  trans (arrive k 1 3 served_world); [|apply ndrive_steps].
  trans served_world; [apply served_scenario|].
  apply arrive_steps; [done|intros c; apply not_elem_of_nil|]. cbn. set_solver.
Qed.

Lemma settled_scenario : scenario settled_world.
Proof.
  assert (settled_world = drained_world 7) as -> by by vm_compute.
  apply drained_scenario; by vm_compute.
Qed.

