(* ===== verification/EntityCustody.v ===== *)
(** * Custody: no command and no lease of the entity runtime is lost or doubled

    Every command admitted and every lease activated by the runtime of
    [EntityRuntime] is in exactly one place: in a machine, in a queued effect,
    with a thread, resolved (or cancelled, or returned to the port), or lost to
    a panic.  One law, [conserves_at], is proved of every operation and
    composed along the runtime's own composition of them. *)

From S2P Require Import Prelude Lifecycle DirectorySlot Directory EntityRuntime EntityExample.

Section items.
Context {O C E L : Type} (clone : E → option E).
Local Abbreviation Pending := (PendingCommand O C).
Implicit Types (x : SlotExecution Pending E L) (machine : EntitySlot Pending E L)
  (event : SlotEvent Pending E L).

Lemma command_items_app (l k : list Pending) :
  command_items (L := L) (l ++ k) = command_items l ++ command_items k.
Proof. apply fmap_app. Qed.

Lemma command_items_perm (l k : list Pending) :
  l ≡ₚ k → command_items (L := L) l ≡ₚ command_items k.
Proof. intros Hl. unfold command_items. by rewrite Hl. Qed.

Lemma effects_items (l : list (SlotEffect Pending E L)) :
  l ≫= effect_items ≡ₚ
    command_items (l ≫= effect_commands) ++ (Item_lease <$> (l ≫= effect_leases)).
Proof.
  induction l as [|e l IH]; [done|]. csimpl. rewrite IH, command_items_app, fmap_app.
  unfold effect_items. solve_Permutation.
Qed.

(** A transition keeps what it is given, but for the waiters it cancels. *)
Lemma decide_items machine event d :
  EntitySlot_decide clone machine event = Some d →
  machine_items machine ++ event_items event ≡ₚ
  machine_items (state d) ++ (into_vec (effects d) ≫= effect_items) ++
    command_items (cancelled_commands machine event).
Proof.
  intros Hd. rewrite effects_items. unfold machine_items, event_items.
  pose proof (command_items_perm _ _ (decide_commands _ _ _ _ Hd)) as Hc.
  pose proof (fmap_Permutation (@Item_lease L) _ _ (decide_leases _ _ _ _ Hd)) as Hl.
  rewrite !command_items_app in Hc. rewrite !fmap_app in Hl.
  unfold batch_commands, batch_leases in *.
  apply (permutation_with _ _ _ _ Hc), (permutation_with _ _ _ _ Hl). solve_Permutation.
Qed.

Lemma poisoned_none x x' :
  slot_state x' = slot_state x → poisoned_items x x' = [].
Proof. unfold poisoned_items. intros ->. by destruct (slot_state x). Qed.

Lemma submit_items x event :
  match submit clone x event with
  | (x', Some _) =>
      poisoned_items x x' = [] ∧
      execution_items x ++ event_items event ≡ₚ
        execution_items x' ++ match slot_state x with
                              | SlotState_Ready machine =>
                                  command_items (cancelled_commands machine event)
                              | SlotState_Poisoned => []
                              end
  | (x', None) => execution_items x' ++ poisoned_items x x' ≡ₚ execution_items x
  end.
Proof.
  pose proof (submit_spec clone x event) as Hs. unfold execution_items, poisoned_items.
  destruct (slot_state x) as [machine|] eqn:Hx.
  - destruct (EntitySlot_decide clone machine event) as [d|] eqn:Hd; rewrite Hs; simpl.
    + split; [done|]. apply decide_items in Hd. rewrite bind_app.
      apply (permutation_with _ _ _ _ Hd). solve_Permutation.
    + solve_Permutation.
  - rewrite Hs, Hx. simpl. by rewrite app_nil_r.
Qed.

Lemma close_family_items machine :
  let '(machine', batch, retired) := close_family machine in
  machine_items machine ≡ₚ
    machine_items machine' ++ (into_vec batch ≫= effect_items) ++
    match retired with Some (_, _, lease, _) => [Item_lease lease] | None => [] end.
Proof.
  destruct machine as [|st|st|st|a]; unfold machine_items; simpl; try done.
  rewrite app_nil_r, into_vec_push, into_vec_from_iter, bind_app. csimpl.
  unfold command_items. rewrite <- list_fmap_compose, app_nil_r.
  induction (waiters st) as [|w ws IH]; csimpl; [done|]. by rewrite IH.
Qed.

Lemma slot_close_items x :
  let '(x', retired) := slot_close_family x in
  poisoned_items x x' = [] ∧
  execution_items x ≡ₚ
    execution_items x' ++
    match retired with Some (_, _, lease, _) => [Item_lease lease] | None => [] end.
Proof.
  unfold slot_close_family, execution_items, poisoned_items.
  destruct (slot_state x) as [machine|]; simpl; [|by rewrite app_nil_r].
  pose proof (close_family_items machine) as Hc.
  destruct (close_family machine) as [[machine' batch] retired]. simpl.
  rewrite for_each_push_back. simpl. split; [done|]. rewrite bind_app.
  apply (permutation_with _ _ _ _ Hc). solve_Permutation.
Qed.

Lemma begin_retirement_items x cell :
  let '(x', result) := begin_retirement clone x cell in
  execution_items x' ++ poisoned_items x x' ≡ₚ execution_items x ∧
  (is_Some result → poisoned_items x x' = []).
Proof.
  rewrite begin_retirement_spec. destruct (slot_state x) as [machine|] eqn:Hx;
    [|rewrite poisoned_none by done; rewrite app_nil_r; by split].
  assert (∀ a cell', match submit clone (set_retirement (Some cell') x) (Event_BeginDrain a) with
    | (x', result) => execution_items x' ++ poisoned_items x x' ≡ₚ execution_items x ∧
        (is_Some result → poisoned_items x x' = []) end) as Hs.
  { intros a cell'. pose proof (submit_items (set_retirement (Some cell') x) (Event_BeginDrain a)) as Hs.
    destruct (submit _ _ _) as [x' [i|]]; unfold poisoned_items in *; simpl in *.
    - destruct Hs as [Hp Hs]. rewrite Hp. split; [|done]. rewrite Hx in Hs.
      rewrite !app_nil_r in Hs. unfold execution_items in *. simpl in Hs. rewrite Hs.
      destruct machine; simpl; by rewrite app_nil_r.
    - unfold execution_items in *. simpl in *. split; [done|]. by intros []. }
  destruct machine as [|st|st|st|b]; cbn [slot_activation_id];
    try (rewrite poisoned_none by done; rewrite app_nil_r; by split).
  all: cbv zeta; match goal with
    | H : ∀ _ _, _ |- context [submit _ (set_retirement (Some ?c) _) (Event_BeginDrain ?a)] =>
        specialize (H a c); destruct (submit _ _ _) as [x' [i|]]; simpl in *
    end.
  all: destruct_and?; split; [done|naive_solver].
Qed.

Lemma acquire_items (x : SlotExecution Pending E L) : execution_items (acquire x).1 = execution_items x ∧
  slot_state (acquire x).1 = slot_state x.
Proof. unfold acquire. by destruct (DirectorySlot.dispatch x). Qed.

Lemma next_items (x : SlotExecution Pending E L) :
  execution_items x ≡ₚ
    execution_items (next x).1 ++ default [] (effect_items <$> (next x).2) ∧
  slot_state (next x).1 = slot_state x.
Proof.
  unfold next, execution_items. destruct (pending x) as [|e q] eqn:Hq; csimpl; rewrite ?Hq;
    (split; [|done]); csimpl; [by rewrite !app_nil_r|]. solve_Permutation.
Qed.

End items.

(** ** The law of one operation *)

Section account.
Context {P I C O E L F : Type} `{Countable I}.
Local Abbreviation Pending := (PendingCommand O C).
Local Abbreviation Rt := (Runtime P I C O E L F).
Implicit Types (r : Rt) (slot : SlotRef) (x : SlotExecution Pending E L).

Definition arena_items (a : gmap SlotRef (SlotExecution Pending E L)) : list (Item L) :=
  map_to_list a ≫= λ entry, execution_items entry.2.

(** What is over: resolved, cancelled or returned. *)
Definition settled (g : Ledger C L) : list (Item L) :=
  (Item_command ∘ fst <$> outcomes g) ++ (Item_command <$> cancelled g) ++
  ((λ entry, Item_lease entry.1.2) <$> returned g).

Definition account r : list (Item L) :=
  settled (ledger r) ++ lost (ledger r) ++ arena_items (arena (routes r)).

Lemma arena_items_delete a slot x :
  a !! slot = Some x → arena_items a ≡ₚ execution_items x ++ arena_items (delete slot a).
Proof. intros Hx. unfold arena_items. by rewrite <- (map_to_list_delete _ _ _ Hx). Qed.

Lemma arena_items_insert a slot x :
  arena_items (<[slot := x]> a) ≡ₚ execution_items x ++ arena_items (delete slot a).
Proof.
  rewrite <- insert_delete_eq. unfold arena_items.
  rewrite map_to_list_insert by apply lookup_delete_eq. done.
Qed.

(** The operation, run in [r], turns what is put in ([given]) and newly issued
    items into what it yields ([yields]) and the account; when it panics what
    was put in is still with the thread. *)
Definition conserves_at {A} r (m : Op Rt A) (given : list (Item L)) (yields : A → list (Item L)) :
    Prop :=
  let '(r', result) := m r in
  (unwound (ledger r') = unwound (ledger r) ∧
   (is_Some result → lost (ledger r') = lost (ledger r))) ∧
  ∃ fresh, issued (ledger r') = issued (ledger r) ++ (Item_lease <$> fresh) ∧
    account r' ++ match result with Some a => yields a | None => given end ≡ₚ
    account r ++ given ++ (Item_lease <$> fresh).

Definition never_panics {A} r (m : Op Rt A) : Prop := is_Some (m r).2.

Lemma conserves_quiet {A} r (m : Op Rt A) given :
  ledger (m r).1 = ledger r → arena (routes (m r).1) = arena (routes r) →
  conserves_at r m given (λ _, given).
Proof.
  unfold conserves_at, account. destruct (m r) as [r' result]. simpl. intros -> ->.
  split; [done|]. exists []. split; [by rewrite app_nil_r|].
  destruct result; solve_Permutation.
Qed.

Lemma conserves_ret {A} r (a : A) yields given :
  given ≡ₚ yields a → conserves_at r (mret a) given yields.
Proof.
  intros Hg. unfold conserves_at, mret, Op_ret. split; [done|]. exists [].
  rewrite app_nil_r. split; [done|]. rewrite Hg. by rewrite app_nil_r.
Qed.

(** An operation that only moves items among the owners outside the thread,
    followed by any other. *)
Lemma conserves_bind {A B} r (m : Op Rt A) (k : A → Op Rt B) given yields :
  conserves_at r m given (λ _, given) →
  (∀ r1 a, m r = (r1, Some a) → conserves_at r1 (k a) given yields) →
  conserves_at r (m ≫= k) given yields.
Proof.
  unfold conserves_at. rewrite Op_bind_eq. destruct (m r) as [r1 [a|]];
    [|intros [[Hu _] Hm] _; split; [split; [done|by intros []]|done]].
  intros ([Hu Hl] & l1 & Hi & Ha) Hk. specialize (Hk r1 a eq_refl). destruct (k a r1) as [r2 b].
  destruct Hk as ([Hu2 Hl2] & l2 & Hi2 & Ha2).
  split; [split; [congruence|intros Hb; rewrite (Hl2 Hb); apply Hl; by eexists]|]. exists (l1 ++ l2).
  rewrite Hi2, Hi, fmap_app, <- app_assoc. split; [done|].
  apply (permutation_with _ _ _ _ Ha), (permutation_with _ _ _ _ Ha2). solve_Permutation.
Qed.

(** An operation that takes what it is given, followed by one that cannot
    panic. *)
Lemma conserves_then {A B} r (m : Op Rt A) (k : A → Op Rt B) given between yields :
  conserves_at r m given between →
  (∀ r1 a, m r = (r1, Some a) → never_panics r1 (k a) ∧ conserves_at r1 (k a) (between a) yields) →
  conserves_at r (m ≫= k) given yields.
Proof.
  unfold conserves_at, never_panics. rewrite Op_bind_eq. destruct (m r) as [r1 [a|]];
    [|intros [[Hu _] Hm] _; split; [split; [done|by intros []]|done]].
  intros ([Hu Hl] & l1 & Hi & Ha) Hk. destruct (Hk r1 a eq_refl) as [[b Hb] Hk'].
  destruct (k a r1) as [r2 b']. simpl in Hb. subst b'.
  destruct Hk' as ([Hu2 Hl2] & l2 & Hi2 & Ha2).
  split; [split; [congruence|intros Hb; rewrite (Hl2 Hb); apply Hl; by eexists]|]. exists (l1 ++ l2).
  rewrite Hi2, Hi, fmap_app, <- app_assoc. split; [done|].
  apply (permutation_with _ _ _ _ Ha), (permutation_with _ _ _ _ Ha2). solve_Permutation.
Qed.

Lemma conserves_perm {A} r (m : Op Rt A) given given' yields :
  given ≡ₚ given' → conserves_at r m given' yields → conserves_at r m given yields.
Proof.
  unfold conserves_at. intros Hg. destruct (m r) as [r1 [a|]]; setoid_rewrite Hg; done.
Qed.

Lemma conserves_gets {A B} r (f : Rt → A) (k : A → Op Rt B) given yields :
  conserves_at r (k (f r)) given yields → conserves_at r (gets f ≫= k) given yields.
Proof. done. Qed.

Lemma conserves_on_routes {A} r (op : Op (LocalDirectory I Pending E L) A) given :
  arena (op (routes r)).1 = arena (routes r) →
  conserves_at r (on_routes op) given (λ _, given).
Proof.
  intros Ha. apply conserves_quiet; unfold on_routes; by destruct (op (routes r)).
Qed.

Lemma conserves_on_port {A} r (op : Op P A) given :
  conserves_at r (on_port op) given (λ _, given).
Proof. apply conserves_quiet; unfold on_port; by destruct (op (port r)). Qed.

(** A slot operation moves what its slot operation moves. *)
Lemma conserves_on_slot {A} r slot op given (yields : A → list (Item L)) :
  (∀ x, arena (routes r) !! slot = Some x →
     let '(x', result) := op x in
     execution_items x' ++ poisoned_items x x' ++
       match result with Some a => yields a | None => given end ≡ₚ execution_items x ++ given ∧
     (is_Some result → poisoned_items x x' = [])) →
  conserves_at r (on_slot slot op) given yields.
Proof.
  intros Hop. unfold conserves_at, on_slot.
  destruct (arena (routes r) !! slot) as [x|] eqn:Hx.
  - specialize (Hop x eq_refl). destruct (op x) as [x' result].
    destruct Hop as [Hop Hp]. split; [split; [done|]|].
    { intros Hr. cbn [ledger set_ledger lost lose]. rewrite Hp, app_nil_r; done. }
    exists []. split; [by rewrite app_nil_r|].
    unfold account. cbn [settled ledger set_ledger lose lost routes set_routes arena set_arena].
    change (settled (lose ?l ?g)) with (settled g).
    rewrite arena_items_insert, (arena_items_delete _ _ _ Hx).
    apply (permutation_with _ _ _ _ Hop). solve_Permutation.
  - split; [done|]. exists []. split; [by rewrite app_nil_r|]. simpl. solve_Permutation.
Qed.

Lemma conserves_record r f given :
  (∀ g, (unwound (f g) = unwound g ∧ lost (f g) = lost g) ∧ issued (f g) = issued g ∧
     settled (f g) ++ lost (f g) ≡ₚ settled g ++ lost g ++ given) →
  conserves_at r (record f) given (λ _, []).
Proof.
  intros Hf. destruct (Hf (ledger r)) as ([Hu Hl] & Hi & Hs). unfold conserves_at, record, modify.
  split; [split; [exact Hu|intros _; exact Hl]|]. exists []. split; [rewrite app_nil_r; done|].
  unfold account. cbn [ledger set_ledger routes]. apply (permutation_with _ _ _ _ Hs).
  solve_Permutation.
Qed.
End account.

(** ** The law of every action *)

Section actions.
Context {P I C O E L X F : Type} `{Countable I} `{LocalEntityRuntime P I C O E L X F}
  (clone : E → option E) (hash_one : I → N).
Local Abbreviation Pending := (PendingCommand O C).
Local Abbreviation Rt := (Runtime P I C O E L F).
Local Abbreviation Act := (Action I C O E L X).
Local Abbreviation Code := (list Act).
Implicit Types (r : Rt) (slot : SlotRef) (x : SlotExecution Pending E L) (action : Act).

Definition code_items (code : Code) : list (Item L) := code ≫= action_items.

(** What an action yields: the statements it leaves and the tasks it starts. *)
Definition left_items (left : Code * list Code) : list (Item L) :=
  code_items left.1 ++ (left.2 ≫= code_items).

Lemma conserves_continue r (code : Code) given :
  given ≡ₚ code_items code → conserves_at r (continue code) given left_items.
Proof. intros Hg. apply conserves_ret. unfold left_items. simpl. by rewrite app_nil_r. Qed.

Lemma conserves_stop r : conserves_at r (stop (X := X)) [] left_items.
Proof. by apply conserves_continue. Qed.

Lemma conserves_spawn r (task : Code) given :
  given ≡ₚ code_items task → conserves_at r (spawn_owned task) given left_items.
Proof. intros Hg. apply conserves_ret. unfold left_items. csimpl. by rewrite app_nil_r. Qed.

Lemma continue_total r (code : Code) : never_panics r (continue code).
Proof. by eexists. Qed.

Lemma conserves_answer {B} r a (k : () → Op Rt B) given yields :
  (∀ r1, conserves_at r1 (k ()) given yields) → conserves_at r (answer a ≫= k) given yields.
Proof.
  intros Hk. apply conserves_bind; [by apply conserves_quiet|]. intros r1 [] _. apply Hk.
Qed.

Lemma conserves_complete r (pending : Pending) result :
  conserves_at r (complete pending result) [Item_command (publisher pending)] (λ _, []).
Proof.
  apply conserves_record. intros g. split_and!; [done..|]. unfold settled. csimpl.
  rewrite fmap_app. csimpl. solve_Permutation.
Qed.

(** Completing a command and stopping. *)
Lemma conserves_complete_stop r (pending : Pending) result given :
  given ≡ₚ [Item_command (publisher pending)] →
  conserves_at r (_ ← complete pending result; stop (X := X)) given left_items.
Proof.
  intros Hg. apply (conserves_perm _ _ _ _ _ Hg).
  apply (conserves_then _ _ _ _ (λ _, [])); [apply conserves_complete|].
  intros r1 [] _. split; [apply continue_total|apply conserves_stop].
Qed.

Lemma get_routes k (d : LocalDirectory I Pending E L) : (get hash_one k d).1 = d.
Proof. unfold get, gets, expect, mret, mbind, Op_bind, Op_ret. by destruct (shard_of _ _ _). Qed.

Lemma conserves_get {B} r k (cont : option SlotRef → Op Rt B) given yields :
  (∀ entry, conserves_at r (cont entry) given yields) →
  conserves_at r (entry ← on_routes (get hash_one k); cont entry) given yields.
Proof.
  intros Hk. apply conserves_bind; [apply conserves_on_routes; by rewrite get_routes|].
  intros r1 entry. unfold on_routes. pose proof (get_routes k (routes r)) as Hg.
  destruct (get hash_one k (routes r)) as [d o]. simpl in Hg. subst d.
  intros [= <- ->]. unfold set_routes. destruct r; simpl. apply Hk.
Qed.

(** Claiming an absent entity puts the command in a fresh slot. *)
Lemma conserves_claim r k dispatch_id (pending : Pending) :
  conserves_at r (on_routes (claim clone hash_one k dispatch_id pending))
    [Item_command (publisher pending)]
    (λ claimed, match claimed with
                | Ok _ => []
                | Err error => [Item_command (publisher (admission_error error).1)]
                end) ∧
  never_panics r (on_routes (claim clone hash_one k dispatch_id pending)).
Proof.
  unfold conserves_at, never_panics, on_routes. rewrite claim_spec.
  destruct (allocate (next_activation (routes r))) as [n [sequence|]]; cbv zeta.
  - rewrite claimed_slot_ok. split; [|by eexists]. split; [done|]. exists [].
    split; [by rewrite app_nil_r|]. unfold account.
    cbn [ledger set_routes routes arena put_entry set_shards set_arena set_next_activation].
    rewrite arena_items_insert, delete_id by apply fresh_slot. unfold execution_items. csimpl.
    solve_Permutation.
  - split; [|by eexists]. split; [done|]. exists []. split; [by rewrite app_nil_r|]. done.
Qed.

(** An absent entity ignores what a caller asks of its slot. *)
Lemma submit_absent_ignored k (request : Request C O) (decision : InstalledSlotDecision I Pending E L) :
  (∀ id p, request ≠ Request_Dispatch id p) →
  submit_absent clone k (request_event request) = Some decision →
  target decision = Transient [] ∧ request_items (E := E) (L := L) request = [].
Proof. destruct request as [id p|a id|a]; intros Hr [= <-]; [by destruct (Hr id p)|done..]. Qed.

Lemma conserves_effect r closed k (slot : option SlotRef) (effect : SlotEffect Pending E L) :
  conserves_at r (perform_effect (X := X) closed k slot effect) (effect_items effect) left_items.
Proof.
  destruct effect as [a|a id e p|id p reason|a e|a l mode|a]; cbn [perform_effect].
  - destruct closed; [apply conserves_stop|by apply conserves_spawn].
  - by apply conserves_spawn.
  - by apply conserves_complete_stop.
  - by apply conserves_spawn.
  - by apply conserves_spawn.
  - destruct slot as [slot|]; [|apply conserves_stop].
    apply conserves_bind; [apply conserves_on_routes, take_slot_arena|].
    intros r1 [row|] _; [|apply conserves_stop].
    apply conserves_bind; [by apply conserves_quiet|]. intros r2 [] _. apply conserves_stop.
Qed.

Lemma conserves_submit_to r k slot (request : Request C O) :
  conserves_at r (submit_to (X := X) clone k slot request) (request_items (E := E) request) left_items.
Proof.
  unfold submit_to. apply conserves_gets.
  set (before := arena (routes r) !! slot).
  apply (conserves_then _ _ _ _ (λ _, Item_command <$> cancels before request)).
  - apply conserves_on_slot. intros x Hx. pose proof (submit_items clone x (request_event request)) as Hs.
    destruct (submit _ _ _) as [x' [i|]];
      [|split; [rewrite <- Hs; unfold request_items; solve_Permutation|by intros []]].
    destruct Hs as [-> Hs]. split; [|done]. unfold before, cancels. rewrite Hx. simpl.
    unfold request_items. rewrite Hs. destruct (slot_state x); simpl; [|by rewrite !app_nil_r].
    unfold command_items. by rewrite <- list_fmap_compose.
  - intros r1 installed _. split.
    { unfold never_panics. rewrite Op_bind_eq. cbn. destruct request; by eexists. }
    apply (conserves_then _ _ _ _ (λ _, [])).
    + apply conserves_record. intros g. split_and!; [done..|]. unfold settled. simpl.
      rewrite fmap_app. solve_Permutation.
    + intros r2 [] _. split; [destruct request; by eexists|].
      apply conserves_bind; [destruct request; by apply conserves_quiet|].
      intros r3 [] _. by apply conserves_continue.
Qed.

Lemma conserves_locate r k (request : Request C O) :
  conserves_at r (locate (X := X) clone hash_one k request) (request_items (E := E) request) left_items.
Proof.
  unfold locate. apply conserves_get. intros [slot|].
  { apply conserves_continue. unfold code_items. csimpl. by rewrite app_nil_r. }
  assert ((∀ id p, request ≠ Request_Dispatch id p) →
    conserves_at r (decision ← expect (submit_absent (I := I) (L := L) clone k (request_event request));
      _ ← answer_request k request (decided decision);
      continue (X := X) (interpret_code decision)) (request_items (E := E) request) left_items) as Hignored.
  { intros Hr. apply conserves_bind; [by apply conserves_quiet|]. intros r1 d Hd.
    apply (f_equal snd) in Hd. cbn [expect snd] in Hd. apply submit_absent_ignored in Hd as [Ht Hi]; [|done]. rewrite Hi.
    apply conserves_bind; [destruct request; by apply conserves_quiet|].
    intros r2 [] _. apply conserves_continue. unfold interpret_code. by rewrite Ht. }
  destruct request as [id pending|a id|a]; [|by apply Hignored..]. clear Hignored.
  apply (conserves_then _ _ _ _ (λ claimed, match claimed with
    | Ok _ => [] | Err error => [Item_command (publisher (admission_error error).1)] end)).
  - apply conserves_claim.
  - intros r1 [[slot i]|error] _; [split; [by eexists|by apply conserves_continue]|].
    destruct (admission_error error) as [p failure]. split; [by eexists|].
    by apply conserves_complete_stop.
Qed.

Lemma conserves_deliver r k (slot : option SlotRef) a id endpoint (pending : Pending) :
  conserves_at r (perform (X := X) clone hash_one (Deliver k slot a id endpoint pending))
    [Item_command (publisher pending)] left_items.
Proof.
  open_perform. apply conserves_bind; [apply conserves_on_port|]. intros r1 result _.
  apply (conserves_then _ _ _ _ (λ failure : option (DispatchId * Pending),
    command_items (option_list (snd <$> failure)))).
  - destruct result as [[]|c]; [|by apply conserves_ret].
    apply (conserves_then _ _ _ _ (λ _, [])); [apply conserves_complete|].
    intros r2 [] _. split; [by eexists|by apply conserves_ret].
  - intros r2 failure _.
    destruct slot as [slot|], failure as [[id' p]|]; (split; [by eexists|]);
      [by apply conserves_continue..|by apply conserves_complete_stop|apply conserves_stop].
Qed.

Lemma conserves_retire r k (slot : option SlotRef) a (lease : L) mode :
  conserves_at r (perform (X := X) clone hash_one (Retire k slot a lease mode))
    [Item_lease lease] left_items.
Proof.
  open_perform. apply conserves_bind; [apply conserves_on_port|]. intros r1 result _.
  apply (conserves_then _ _ _ _ (λ _, [])).
  - apply conserves_record. intros g. split_and!; [done..|]. unfold settled. simpl.
    rewrite fmap_app. csimpl. solve_Permutation.
  - intros r2 [] _. split; [destruct result as [[]|], slot; by eexists|].
    apply conserves_bind; [destruct result as [[]|]; by apply conserves_quiet|]. intros r3 [] _.
    destruct slot; by apply conserves_continue.
Qed.

Lemma conserves_activate r k (slot : option SlotRef) a :
  conserves_at r (perform (X := X) clone hash_one (Activate k slot a)) [] left_items.
Proof.
  open_perform. apply conserves_bind; [apply conserves_on_port|]. intros r1 result _.
  destruct slot as [slot|], result as [[e l]|error]; cbn [endpoint lease].
  - unfold conserves_at. cbn. split; [done|]. exists [l]. split; [done|]. done.
  - by apply conserves_continue.
  - unfold conserves_at. cbn. split; [done|]. exists [l]. split; [done|].
    unfold account. cbn. solve_Permutation.
  - split; [done|]. exists []. split; [by rewrite app_nil_r|]. done.
Qed.

(** A slot operation that keeps what the slot holds. *)
Lemma conserves_slot_only {A} r slot (op : SlotExecution Pending E L → SlotExecution Pending E L * A) given :
  (∀ x, execution_items (op x).1 = execution_items x ∧ slot_state (op x).1 = slot_state x) →
  conserves_at r (on_slot slot (λ x, let '(x, a) := op x in (x, Some a))) given (λ _, given).
Proof.
  intros Hop. apply conserves_on_slot. intros x _. specialize (Hop x).
  destruct (op x) as [x' a]. simpl in Hop. destruct Hop as [-> Hs].
  rewrite poisoned_none by done. split; done.
Qed.

(** The facts a task submits: no claim, no request of a caller. *)
Definition owned_event (event : SlotEvent Pending E L) : bool :=
  match event with
  | Event_ActivationSucceeded _ _ _ | Event_ActivationFailed _ | Event_DeliveryResolved _ _
  | Event_FenceAcknowledged _ | Event_ForceDrain _ _ | Event_Terminated _ => true
  | Event_ClaimActivation _ _ _ _ | Event_Dispatch _ _ | Event_CancelWaiter _ _
  | Event_BeginDrain _ => false
  end.

Definition action_wf action : Prop :=
  match action with Submit_owned _ _ event => owned_event event | _ => True end.

Lemma owned_event_cancels machine (event : SlotEvent Pending E L) :
  owned_event event → cancelled_commands machine event = [].
Proof. by destruct machine, event. Qed.

(** Every action puts what its thread holds where it says. *)
Lemma perform_conserves r action :
  action_wf action → conserves_at r (perform clone hash_one action) (action_items action) left_items.
Proof.
  intros Hwf. destruct action as [k p|k q|k slot q|k|k slot|k|k slot|k slot a|k a e|k slot a id e p|k slot a e
    |k slot a l mode|k slot a e l f|k slot ev|slot mode|c k slot|c k slot|c k slot e|k slot|k slot a e l f].
  - open_perform. apply conserves_bind.
    { apply conserves_on_routes. unfold allocate_dispatch. by destruct (allocate _). }
    intros r1 [s|] _; [by apply conserves_continue|]. cbn [admission_error].
    by apply conserves_complete_stop.
  - apply conserves_locate.
  - apply conserves_submit_to.
  - apply conserves_get. intros [slot|]; [by apply conserves_continue|].
    apply conserves_answer. intros. apply conserves_stop.
  - open_perform. apply conserves_bind.
    { apply conserves_on_slot. intros x _. rewrite poisoned_none by done.
      by destruct (activation_id x). }
    intros r1 [a|] _; [by apply conserves_continue|]. apply conserves_answer.
    intros. apply conserves_stop.
  - apply conserves_get. intros [slot|]; [by apply conserves_continue|].
    apply conserves_answer. intros. apply conserves_stop.
  - open_perform. apply conserves_bind; [by apply conserves_quiet|]. intros r1 cell _.
    apply conserves_bind.
    { apply conserves_on_slot. intros x _. pose proof (begin_retirement_items clone x cell) as Hb.
      destruct (begin_retirement clone x cell) as [x' result]. destruct Hb as [Hb Hp].
      split; [|done]. rewrite <- Hb. destruct result; solve_Permutation. }
    intros r2 [[installed cell']|error] _; apply conserves_answer; intros r3;
      [by apply conserves_continue|apply conserves_stop].
  - apply conserves_activate.
  - open_perform. apply conserves_bind; [apply conserves_on_port|]. intros r1 [] _. apply conserves_stop.
  - apply conserves_deliver.
  - open_perform. apply conserves_bind; [apply conserves_on_port|]. intros r1 result _.
    destruct slot; [|apply conserves_stop]. apply conserves_continue. by destruct result as [[]|].
  - apply conserves_retire.
  - open_perform. apply conserves_bind.
    { destruct f as [[]|]; [|by apply conserves_quiet].
      apply conserves_bind; [apply conserves_on_port|]. intros r1 result _. by apply conserves_ret. }
    intros r1 mode _. by apply conserves_continue.
  - open_perform. apply (conserves_then _ _ _ _ (λ _, [])).
    + apply conserves_on_slot. intros x _. pose proof (submit_items clone x ev) as Hs.
      unfold submit_owned. cbn [action_items].
      destruct (submit clone x ev) as [x' [i|]]; cbn [mbind option_bind].
      * destruct Hs as [-> Hs]. split; [|done].
        rewrite Hs. destruct (slot_state x); [rewrite owned_event_cancels by done|];
          solve_Permutation.
      * split; [|by intros []]. rewrite <- Hs. solve_Permutation.
    + intros r1 [] _. split; [by eexists|by apply conserves_continue].
  - open_perform. apply conserves_bind.
    { apply (conserves_slot_only r slot (λ x, complete_retirement x mode)). done. }
    intros r1 [[cell mode']|] _; [|apply conserves_stop]. apply conserves_answer.
    intros. apply conserves_stop.
  - open_perform. apply conserves_bind; [apply (conserves_slot_only r slot acquire), acquire_items|].
    intros r1 [] _; by apply conserves_continue.
  - open_perform. apply (conserves_then _ _ _ _ (λ e, default [] (effect_items <$> e))).
    + apply conserves_on_slot. intros x _. destruct (next_items x) as [Hn Hs].
      destruct (next x) as [x' e]. simpl in *. rewrite poisoned_none by done. split; [|done].
      rewrite Hn.
      solve_Permutation.
    + intros r1 [e|] _; (split; [by eexists|]); [|apply conserves_stop].
      apply conserves_continue. unfold code_items. csimpl. by rewrite app_nil_r.
  - apply conserves_effect.
  - open_perform. apply (conserves_then _ _ _ _ (λ retired : option (ActivationId * E * L * Result () DrainFailure),
      match retired with Some (_, _, lease, _) => [Item_lease lease] | None => [] end)).
    + apply conserves_on_slot. intros x _. pose proof (slot_close_items x) as Hc.
      destruct (slot_close_family x) as [x' retired]. destruct Hc as [-> ->]. split; [|done].
      solve_Permutation.
    + intros r1 [[[[a e] l] f]|] _; (split; [by eexists|]); by apply conserves_continue.
  - by apply conserves_spawn.
Qed.
End actions.

(** ** What an action may leave, whatever the state *)

Section returns.
Context {S : Type}.

(** Every result of the operation satisfies [Q]. *)
Definition returns {A} (m : Op S A) (Q : A → Prop) : Prop :=
  ∀ s, match (m s).2 with Some a => Q a | None => True end.

Lemma returns_ret {A} (a : A) (Q : A → Prop) : Q a → returns (mret a) Q.
Proof. intros Hq s. exact Hq. Qed.

Lemma returns_bind {A B} (m : Op S A) (k : A → Op S B) Q :
  (∀ a, returns (k a) Q) → returns (m ≫= k) Q.
Proof. intros Hk s. rewrite Op_bind_eq. destruct (m s) as [s' [a|]]; [apply Hk|done]. Qed.
End returns.

(** Follow the operation to its ends. *)
Ltac returns_all :=
  intros; unfold stop, continue, spawn_owned, panic;
  repeat first
    [ apply returns_bind; intros
    | apply returns_ret
    | match goal with |- returns (match ?x with _ => _ end) _ => destruct x end
    | match goal with |- returns (λ _, (_, None)) _ => by intros ? end ].

Section custody.
Context {P I C O E L X F TF : Type} `{Countable I} `{LocalEntityRuntime P I C O E L X F}
  (clone : E → option E) (hash_one : I → N).
Local Abbreviation Pending := (PendingCommand O C).
Local Abbreviation Rt := (Runtime P I C O E L F).
Local Abbreviation Act := (Action I C O E L X).
Local Abbreviation Code := (list Act).
Local Abbreviation World := (RuntimeWorld P I C O E L X F TF).
Implicit Types (r : Rt) (w : World) (action : Act) (code : Code).

Definition code_wf code : Prop := Forall action_wf code.

Lemma interpret_code_wf (decision : InstalledSlotDecision I Pending E L) :
  code_wf (interpret_code decision).
Proof.
  unfold interpret_code. destruct (target decision) as [|l]; [by constructor|].
  induction l; constructor; done.
Qed.

Lemma perform_wf action :
  returns (perform clone hash_one action) (λ '(next, spawned), code_wf next ∧ Forall code_wf spawned).
Proof.
  destruct action; open_perform; unfold locate, submit_to, perform_effect; returns_all;
    split; try apply interpret_code_wf; unfold code_wf; rewrite ?Forall_cons, ?Forall_nil; cbn;
    repeat case_match; rewrite ?Forall_cons, ?Forall_nil; cbn; tauto.
Qed.

(** What the threads hold, and all there is. *)
Definition threads_items (l : list (Owner * Code)) : list (Item L) := l ≫= λ t, code_items t.2.
Definition held w : list (Item L) :=
  arena_items (arena (routes (runtime w))) ++ threads_items (threads w).

Lemma threads_items_app l k : threads_items (l ++ k) = threads_items l ++ threads_items k.
Proof. apply bind_app. Qed.

Lemma threads_items_tasks (spawned : list Code) :
  threads_items (tasks_of spawned) = spawned ≫= code_items.
Proof. induction spawned as [|c l IH]; [done|]. unfold threads_items in *. csimpl. by rewrite IH. Qed.

Definition item_publisher (item : Item L) : option positive :=
  match item with Item_command p => Some p | Item_lease _ => None end.

Record custody_inv w : Prop := {
  custody_items : issued (ledger (runtime w)) ≡ₚ
    settled (ledger (runtime w)) ++ lost (ledger (runtime w)) ++ held w;
  custody_fresh : NoDup (omap item_publisher (issued (ledger (runtime w))));
  custody_lost : unwound (ledger (runtime w)) = false → lost (ledger (runtime w)) = [];
  custody_wf : Forall (λ t, code_wf t.2) (threads w)
}.

Lemma alter_items (f : SlotExecution Pending E L → SlotExecution Pending E L) slot a :
  (∀ x, execution_items (f x) = execution_items x) → arena_items (alter f slot a) ≡ₚ arena_items a.
Proof.
  intros Hf. destruct (a !! slot) as [x|] eqn:Hx; [|by rewrite alter_id by naive_solver].
  erewrite <- (insert_delete_id a slot x Hx) at 2. rewrite insert_delete_eq.
  assert (alter f slot a = <[slot := f x]> a) as ->.
  { apply map_eq. intros i. rewrite lookup_alter, lookup_insert. case_decide; [|done].
    subst. by rewrite Hx. }
  by rewrite !arena_items_insert, Hf.
Qed.

Lemma drop_guards_items code (d : LocalDirectory I Pending E L) :
  arena_items (arena (foldr drop_guard d code)) ≡ₚ arena_items (arena d).
Proof.
  induction code as [|a code IH]; [done|]. simpl. rewrite <- IH.
  destruct a; try done. cbn [drop_guard]. unfold update_slot. cbn [arena set_arena].
  by apply alter_items.
Qed.

(** Losing a thread moves what it holds to what is lost. *)
Lemma unwind_account code r : account (unwind code r) ≡ₚ account r ++ code_items code.
Proof.
  unfold account, unwind. cbn [ledger set_ledger routes set_routes].
  change (settled (unwinding (lose ?l ?g))) with (settled g).
  cbn [lost unwinding lose]. rewrite drop_guards_items. solve_Permutation.
Qed.

Lemma omap_leases (l : list L) : omap item_publisher (Item_lease <$> l) = [].
Proof. by induction l. Qed.

Lemma custody_account w :
  issued (ledger (runtime w)) ≡ₚ account (runtime w) ++ threads_items (threads w) ↔
  issued (ledger (runtime w)) ≡ₚ
    settled (ledger (runtime w)) ++ lost (ledger (runtime w)) ++ held w.
Proof. unfold account, held. by rewrite <- !app_assoc. Qed.

(** A step that moves items within one runtime and its threads. *)
Lemma custody_step w w' fresh :
  custody_inv w →
  issued (ledger (runtime w')) = issued (ledger (runtime w)) ++ (Item_lease <$> fresh) →
  account (runtime w') ++ threads_items (threads w') ≡ₚ
    account (runtime w) ++ threads_items (threads w) ++ (Item_lease <$> fresh) →
  (unwound (ledger (runtime w')) = false →
     unwound (ledger (runtime w)) = false ∧
     (lost (ledger (runtime w)) = [] → lost (ledger (runtime w')) = [])) →
  Forall (λ t, code_wf t.2) (threads w') → custody_inv w'.
Proof.
  intros [Hi Hf Hl _] Hfresh Ha Hu Hwf. apply custody_account in Hi. split.
  - apply custody_account. rewrite Hfresh, Ha, Hi. solve_Permutation.
  - by rewrite Hfresh, omap_app, omap_leases, app_nil_r.
  - naive_solver.
  - done.
Qed.

(** A step that leaves every item where it is. *)
Lemma custody_quiet w w' :
  custody_inv w →
  issued (ledger (runtime w')) = issued (ledger (runtime w)) →
  account (runtime w') ++ threads_items (threads w') ≡ₚ
    account (runtime w) ++ threads_items (threads w) →
  (unwound (ledger (runtime w')) = false →
     unwound (ledger (runtime w)) = false ∧
     (lost (ledger (runtime w)) = [] → lost (ledger (runtime w')) = [])) →
  Forall (λ t, code_wf t.2) (threads w') → custody_inv w'.
Proof.
  intros Hw Hi Ha. apply (custody_step w w' []); [done|by rewrite Hi, app_nil_r|].
  rewrite Ha. solve_Permutation.
Qed.

(** A call of [admit] issues its publisher. *)
Lemma custody_admit w w' p :
  custody_inv w → Item_command p ∉ issued (ledger (runtime w)) →
  issued (ledger (runtime w')) = issued (ledger (runtime w)) ++ [Item_command p] →
  account (runtime w') ++ threads_items (threads w') ≡ₚ
    account (runtime w) ++ threads_items (threads w) ++ [Item_command p] →
  unwound (ledger (runtime w')) = unwound (ledger (runtime w)) →
  lost (ledger (runtime w')) = lost (ledger (runtime w)) →
  Forall (λ t, code_wf t.2) (threads w') → custody_inv w'.
Proof.
  intros [Hi Hf Hl _] Hfresh Hi' Ha Hu Hlost Hwf. apply custody_account in Hi. split.
  - apply custody_account. rewrite Hi', Ha, Hi. solve_Permutation.
  - rewrite Hi', omap_app. csimpl. apply NoDup_app. split_and!; [done| |apply NoDup_singleton].
    intros q Hq ->%list_elem_of_singleton. apply list_elem_of_omap in Hq as ([q|l] & Hin & [= ->]).
    done.
  - by rewrite Hu, Hlost.
  - done.
Qed.

Lemma threads_items_cons t l : threads_items (t :: l) = code_items t.2 ++ threads_items l.
Proof. done. Qed.

Lemma perform_custody w pre o action code post r next spawned :
  custody_inv w → threads w = pre ++ (o, action :: code) :: post →
  perform clone hash_one action (runtime w) = (r, Some (next, spawned)) →
  custody_inv (with_threads r (pre ++ (o, next ++ code) :: post ++ tasks_of spawned) w).
Proof.
  intros Hw Ht Hp. pose proof (custody_wf _ Hw) as Hwf. rewrite Ht in Hwf.
  apply Forall_app in Hwf as [Hpre [[Ha Hcode]%Forall_cons Hpost]%Forall_cons].
  pose proof (perform_conserves clone hash_one (runtime w) action Ha) as Hc.
  unfold conserves_at in Hc. rewrite Hp in Hc. destruct Hc as ([Hu Hl] & fresh & Hi & Hacc).
  pose proof (perform_wf action (runtime w)) as Hpw. rewrite Hp in Hpw. destruct Hpw as [Hn Hs].
  apply (custody_step w _ fresh); [done|done| | |].
  - cbn [runtime threads with_threads]. rewrite Ht, !threads_items_app, !threads_items_cons,
      threads_items_app, threads_items_tasks. cbn [snd]. unfold left_items in Hacc. simpl in Hacc.
    unfold code_items. rewrite bind_app. csimpl.
    apply (permutation_with _ _ _ _ Hacc). unfold code_items. solve_Permutation.
  - cbn [runtime with_threads]. intros Hun. split; [congruence|]. intros <-. apply Hl. by eexists.
  - cbn [threads with_threads]. rewrite Forall_app, Forall_cons, Forall_app. split_and!; try done.
    + by apply Forall_app.
    + unfold tasks_of. by apply Forall_map.
Qed.

(** A thread that unwinds takes with it what it held. *)
Lemma unwind_custody w pre o action code post r s fresh :
  custody_inv w → threads w = pre ++ (o, action :: code) :: post →
  issued (ledger r) = issued (ledger (runtime w)) ++ (Item_lease <$> fresh) →
  account r ++ action_items action ≡ₚ
    account (runtime w) ++ action_items action ++ (Item_lease <$> fresh) →
  custody_inv {| runtime := unwind (action :: code) r; threads := pre ++ post; stage := s;
    family := family w |}.
Proof.
  intros Hw Ht Hi Hacc. pose proof (custody_wf _ Hw) as Hwf. rewrite Ht in Hwf.
  apply Forall_app in Hwf as [Hpre [_ Hpost]%Forall_cons].
  apply (custody_step w _ fresh); [done|done| | |].
  - cbn [runtime threads]. rewrite unwind_account, Ht, !threads_items_app, threads_items_cons.
    unfold code_items at 1 2. csimpl. apply (permutation_with _ _ _ _ Hacc). solve_Permutation.
  - done.
  - by apply Forall_app.
Qed.

Lemma close_rows_items rows : code_items (close_rows rows : Code) = [].
Proof. unfold code_items. induction rows; csimpl; done. Qed.

Lemma interpret_rows_items rows : code_items (interpret_rows rows : Code) = [].
Proof. unfold code_items. induction rows; csimpl; done. Qed.

Lemma runtime_step_custody w w' :
  custody_inv w → runtime_step clone hash_one w w' → custody_inv w'.
Proof.
  intros Hw Hstep. pose proof (custody_wf _ Hw) as Hwf. destruct Hstep.
  - apply (custody_admit w _ (publisher pending)); try done.
    + cbn. solve_Permutation.
    + by repeat constructor.
  - apply (custody_quiet w); try done.
    + cbn [runtime threads with_threads]. rewrite threads_items_cons. by destruct H3.
    + constructor; [|done]. destruct H3; by repeat constructor.
  - apply (custody_admit w _ (publisher pending)); try done. cbn [runtime threads with_threads].
    unfold account, settled. csimpl. rewrite fmap_app. csimpl. solve_Permutation.
  - by apply (custody_quiet w).
  - by eapply perform_custody.
  - pose proof (custody_wf _ Hw) as Hwf'. rewrite H1 in Hwf'.
    apply Forall_app in Hwf' as [_ [[Ha _]%Forall_cons _]%Forall_cons].
    pose proof (perform_conserves clone hash_one (runtime w) action Ha) as Hc.
    unfold conserves_at in Hc. rewrite H2 in Hc. destruct Hc as (_ & fresh & Hi & Hacc).
    by eapply unwind_custody.
  - eapply (unwind_custody _ _ _ _ _ _ _ _ []); [done..| |]; by rewrite ?app_nil_r.
  - apply (custody_quiet w); try done; cbn [runtime threads with_stage]; rewrite H1 in *.
    + rewrite !threads_items_app. done.
    + apply Forall_app in Hwf as [? [_ ?]%Forall_cons]. by apply Forall_app.
  - by apply (custody_quiet w).
  - by apply (custody_quiet w).
  - apply (custody_quiet w); try done; cbn [runtime threads]; rewrite ?H2.
    + unfold record_drain, take_family in H3. by destruct (family w); simplify_eq/=.
    + rewrite threads_items_cons. cbn [snd]. rewrite close_rows_items. csimpl.
      unfold record_drain, take_family in H3. by destruct (family w); simplify_eq/=.
    + unfold record_drain, take_family in H3. by destruct (family w); simplify_eq/=.
    + constructor; [|done]. apply Forall_map, Forall_true. done.
  - apply (custody_quiet w); try done; cbn [runtime threads with_stage]; rewrite ?H2.
    + rewrite threads_items_cons. cbn [snd]. by rewrite interpret_rows_items.
    + constructor; [|done]. apply Forall_map, Forall_true. done.
  - apply (custody_quiet w); try done; cbn [runtime threads with_stage]. by rewrite H2.
  - by apply (custody_quiet w).
Qed.

Lemma reachable_custody config w :
  runtime_reachable clone hash_one config w → custody_inv w.
Proof.
  intros (d & p & Hd & Hrun). revert Hrun.
  apply rtc_ind_r; [|intros; by eapply runtime_step_custody].
  unfold with_hasher in Hd. case_match; [done|]. injection Hd as <-.
  split; [done|constructor|done|constructor].
Qed.

(** C5: every call of [admit] and every activated lease is in exactly one
    place, whatever the threads interleave and whatever panics: resolved,
    cancelled or returned, lost to a panic, or still held by a slot or a thread.
    No call is resolved twice, and without a panic nothing is lost. *)
Theorem entity_custody config w :
  runtime_reachable clone hash_one config w →
  issued (ledger (runtime w)) ≡ₚ settled (ledger (runtime w)) ++ lost (ledger (runtime w)) ++ held w ∧
  NoDup (outcomes (ledger (runtime w))).*1 ∧
  (unwound (ledger (runtime w)) = false → lost (ledger (runtime w)) = []).
Proof.
  intros [Hi Hf Hl _]%reachable_custody. split_and!; [done| |done].
  rewrite Hi in Hf. unfold settled in Hf. rewrite !omap_app in Hf.
  rewrite <- app_assoc in Hf. apply NoDup_app in Hf as [Hf _].
  assert (omap item_publisher (Item_command ∘ fst <$> outcomes (ledger (runtime w))) =
    (outcomes (ledger (runtime w))).*1) as <-; [|done].
  generalize (outcomes (ledger (runtime w))) as l. induction l as [|x l IH]; [done|].
  csimpl. by rewrite IH.
Qed.
End custody.

(** At the end of the scenario: three commands and two leases, all settled. *)
Lemma entity_custody_witness :
  length (issued (ledger (runtime settled_world))) = 5%nat ∧ held settled_world = [] ∧
  issued (ledger (runtime settled_world)) ≡ₚ settled (ledger (runtime settled_world)) ++
    lost (ledger (runtime settled_world)) ++ held settled_world ∧
  NoDup (outcomes (ledger (runtime settled_world))).*1 ∧
  (unwound (ledger (runtime settled_world)) = false → lost (ledger (runtime settled_world)) = []).
Proof.
  split; [done|]. split; [by vm_compute|].
  apply (entity_custody copy_endpoint identity_hash small_config).
  apply scenario_reachable, settled_scenario.
Defined.
