(* ===== verification/EntityRefinement.v ===== *)
(** * Refinement: the entity runtime drives the directory by its own steps

    Whatever the threads of [EntityRuntime] do, the directory they share goes
    through critical sections of [Directory.World]; so what is proved of the
    threads around a directory holds of the runtime.  The relation also says
    what the threads hold: an effect in a thread's hand is in hand in the
    directory's world, a slot a thread names was claimed for the entity the
    thread names, and a slot taken out of the map is terminal or one of the
    rows that shutdown drained. *)

From S2P Require Import Prelude Lifecycle DirectorySlot Directory EntityRuntime EntityExample.
From S2P Require Import EntityCustody.

Section worlds.
Context {I C E L : Type} `{Countable I} (clone : E → option E) (hash_one : I → N).
Implicit Types (w : World I C E L).

Lemma world_steps_inv w w' :
  world_inv hash_one w → rtc (world_step clone hash_one) w w' → world_inv hash_one w'.
Proof.
  intros Hw Hrun. revert Hw. induction Hrun as [|w w1 w2 Hstep _ IH]; [done|].
  intros Hw. eapply IH, world_step_inv, Hstep. exact Hw.
Qed.

(** What one step of the directory keeps: nothing is put back in the map, no
    claim is forgotten, a terminal slot stays terminal. *)
Definition terminal_at w slot : Prop :=
  ∃ x, arena (directory w) !! slot = Some x ∧ terminal x.

Lemma world_step_terminal w w' slot :
  world_inv hash_one w → world_step clone hash_one w w' → terminal_at w slot → terminal_at w' slot.
Proof.
  intros Hinv Hstep (x & Hx & Ht).
  assert (∀ f s, (∀ y, terminal y → terminal (f y)) →
    ∃ y, arena (update_slot f s (directory w)) !! slot = Some y ∧ terminal y) as Hup.
  { intros f s Hf. simpl. rewrite lookup_alter. case_decide; subst; rewrite Hx; simpl; eauto. }
  unfold terminal_at. destruct Hstep; cbn [directory with_directory].
  - unfold allocate_dispatch. destruct (allocate _). simpl. eauto.
  - rewrite claim_spec in H2. destruct (allocate _) as [n [s|]]; cbv zeta in H2; [|done].
    rewrite claimed_slot_ok in H2. injection H2 as <- <- <-. cbn [arena put_entry set_shards set_arena].
    rewrite lookup_insert_ne; [simpl; eauto|]. intros Heq. subst slot.
    by rewrite fresh_slot in Hx.
  - rewrite claim_spec in H0. destruct (allocate _) as [n [s|]]; cbv zeta in H0;
      [by rewrite claimed_slot_ok in H0|]. injection H0 as <- <-. simpl. eauto.
  - apply Hup. intros. by eapply slot_op_terminal.
  - apply Hup, next_terminal.
  - apply Hup. intros y Hy. case_match; [done|]. by apply next_terminal.
  - destruct effect; subst; eauto. rewrite remove_matching_spec in H1 by apply Hinv.
    injection H1 as <-. case_decide; simpl; eauto.
  - rewrite take_slot_arena. eauto.
  - simpl. eauto.
Qed.

Lemma world_steps_terminal w w' slot :
  world_inv hash_one w → rtc (world_step clone hash_one) w w' → terminal_at w slot → terminal_at w' slot.
Proof.
  intros Hw Hrun. revert Hw. induction Hrun as [|w w1 w2 Hstep _ IH]; [done|].
  intros Hw Ht. apply IH; [by eapply world_step_inv|by eapply world_step_terminal].
Qed.

Lemma update_slot_id f slot (d : LocalDirectory I C E L) :
  (∀ x, arena d !! slot = Some x → f x = x) → update_slot f slot d = d.
Proof.
  intros Hf. unfold update_slot, set_arena. destruct d; simpl in *. f_equal.
  apply map_eq. intros i. rewrite lookup_alter. case_decide; [|done]. subst.
  destruct (arena !! i) eqn:Hx; simpl; [|done]. by rewrite Hf.
Qed.
End worlds.

(** ** One operation *)

Section operations.
Context {P I C O E L F : Type} `{Countable I} (clone : E → option E) (hash_one : I → N).
Local Abbreviation Pending := (PendingCommand O C).
Local Abbreviation Rt := (Runtime P I C O E L F).
Local Abbreviation DirWorld := (World I Pending E L).
Implicit Types (r : Rt) (dw : DirWorld) (slot : SlotRef) (allowed : gset SlotRef).

(** Nothing is forgotten, and only the slots [allowed] leave the map. *)
Record extends (allowed : gset SlotRef) dw dw' : Prop := {
  extends_run : rtc (world_step clone hash_one) dw dw';
  extends_hand : ∀ e, e ∈ in_hand dw → e ∈ in_hand dw';
  extends_taken : taken dw' ⊆ allowed ∪ taken dw;
  extends_claims : claims dw ⊆ claims dw'
}.

Lemma extension_refl allowed dw : extends allowed dw dw.
Proof. split; [done|done|set_solver|done]. Qed.

Lemma extension_trans allowed dw1 dw2 dw3 :
  extends allowed dw1 dw2 → extends allowed dw2 dw3 → extends allowed dw1 dw3.
Proof.
  intros [R1 H1 T1 C1] [R2 H2 T2 C2].
  split; [by etrans|auto|set_solver|by etrans].
Qed.

Definition simulated_at {A} allowed r (m : Op Rt A) : Prop :=
  ∀ dw, world_inv hash_one dw → directory dw = routes r →
    ∃ dw', extends allowed dw dw' ∧ directory dw' = routes (m r).1.

Lemma simulated_quiet {A} allowed r (m : Op Rt A) :
  routes (m r).1 = routes r → simulated_at allowed r m.
Proof. intros Hr dw _ Hd. exists dw. split; [apply extension_refl|congruence]. Qed.

Lemma simulated_step {A} allowed r (m : Op Rt A) :
  (∀ dw, world_inv hash_one dw → directory dw = routes r →
     ∃ dw', world_step clone hash_one dw dw' ∧ directory dw' = routes (m r).1 ∧
       (∀ e, e ∈ in_hand dw → e ∈ in_hand dw') ∧ taken dw' ⊆ allowed ∪ taken dw ∧
       claims dw ⊆ claims dw') →
  simulated_at allowed r m.
Proof.
  intros Hs dw Hinv Hd. destruct (Hs dw Hinv Hd) as (dw' & Hstep & Hd' & Hh & Ht & Hc).
  exists dw'. split; [|done]. split; [by apply rtc_once|done..].
Qed.

Lemma simulated_bind {A B} allowed r (m : Op Rt A) (k : A → Op Rt B) :
  simulated_at allowed r m →
  (∀ r1 a, m r = (r1, Some a) → simulated_at allowed r1 (k a)) →
  simulated_at allowed r (m ≫= k).
Proof.
  intros Hm Hk dw Hinv Hd. destruct (Hm dw Hinv Hd) as (dw1 & He1 & Hd1).
  rewrite Op_bind_eq. destruct (m r) as [r1 [a|]] eqn:Hr; [|by exists dw1].
  assert (world_inv hash_one dw1) as Hinv1 by (eapply world_steps_inv, extends_run; done).
  destruct (Hk r1 a eq_refl dw1 Hinv1 Hd1) as (dw2 & He2 & Hd2).
  exists dw2. split; [by eapply extension_trans|done].
Qed.

Lemma on_slot_routes {A} r slot (op : SlotExecution Pending E L → SlotExecution Pending E L * option A) :
  routes (on_slot slot op r).1 = update_slot (λ x, (op x).1) slot (routes r).
Proof.
  unfold on_slot, update_slot. destruct (arena (routes r) !! slot) as [x|] eqn:Hx.
  - destruct (op x) as [x' result] eqn:Hop. cbn [fst routes set_ledger set_routes]. unfold set_arena.
    f_equal. apply map_eq. intros i. rewrite lookup_alter, lookup_insert.
    case_decide; [|done]. subst. rewrite Hx. simpl. by rewrite Hop.
  - symmetry. apply update_slot_id. intros y Hy. simpl in Hy. congruence.
Qed.

(** An operation of a slot that any thread may run. *)
Lemma simulated_slot {A} allowed r slot (op : SlotExecution Pending E L → SlotExecution Pending E L * option A) :
  slot_op clone (λ x, (op x).1) → simulated_at allowed r (on_slot slot op).
Proof.
  intros Hop. apply simulated_step. intros dw _ Hd.
  exists (with_directory dw (update_slot (λ x, (op x).1) slot (directory dw))).
  split; [by constructor|]. rewrite on_slot_routes, Hd. split_and!; [done..|set_solver|done].
Qed.

Lemma slot_op_ext (f g : SlotExecution Pending E L → SlotExecution Pending E L) dw slot :
  (∀ x, f x = g x) → update_slot f slot (directory dw) = update_slot g slot (directory dw).
Proof. intros Hfg. unfold update_slot. f_equal. apply alter_ext. auto. Qed.

Lemma simulated_slot_ext {A} allowed r slot (op : SlotExecution Pending E L → SlotExecution Pending E L * option A) f :
  slot_op clone f → (∀ x, (op x).1 = f x) → simulated_at allowed r (on_slot slot op).
Proof.
  intros Hop Hf. apply simulated_step. intros dw _ Hd.
  exists (with_directory dw (update_slot f slot (directory dw))).
  split; [by constructor|]. rewrite on_slot_routes, <- Hd. cbn [directory with_directory].
  split_and!; [by apply slot_op_ext|done|set_solver|done].
Qed.

(** A claim, which names a fresh slot for the entity. *)
Lemma simulated_claim r dw k dispatch_id (pending : Pending) d result :
  world_inv hash_one dw → directory dw = routes r →
  get hash_one k (routes r) = (routes r, Some None) →
  claim clone hash_one k dispatch_id pending (routes r) = (d, Some result) →
  ∃ dw', extends ∅ dw dw' ∧ directory dw' = d ∧
    match result with
    | Ok (slot, _) => ∃ a, claims dw' !! slot = Some (k, a)
    | Err _ => True
    end.
Proof.
  intros Hinv Hd Hget Hclaim. rewrite <- Hd in *.
  pose proof Hclaim as Hspec. rewrite claim_spec in Hspec.
  destruct (allocate (next_activation (directory dw))) as [n [sequence|]] eqn:Halloc; cbv zeta in Hspec.
  - rewrite claimed_slot_ok in Hspec. injection Hspec as <- <-.
    eexists {| directory := _; in_hand := in_hand dw; claims := <[_ := (k, ActivationId_new sequence)]> (claims dw);
               taken := taken dw |}.
    split; [split|split; [reflexivity|]].
    + apply rtc_once. eapply (world_claim _ _ dw k dispatch_id pending);
        [done|by rewrite Halloc|exact Hclaim].
    + done.
    + set_solver.
    + apply insert_subseteq, eq_None_not_Some.
      intros Hc%(inv_arena _ _ Hinv). rewrite fresh_slot in Hc. by destruct Hc.
    + eexists. apply lookup_insert_eq.
  - injection Hspec as <- <-. eexists (with_directory dw _).
    split; [split|split; [reflexivity|done]]; [|done|set_solver|done].
    apply rtc_once. eapply world_claim_exhausted, Hclaim.
Qed.
End operations.

(** ** One action *)

Section actions.
Context {P I C O E L X F : Type} `{Countable I} `{LocalEntityRuntime P I C O E L X F}
  (clone : E → option E) (hash_one : I → N).
Local Abbreviation Pending := (PendingCommand O C).
Local Abbreviation Rt := (Runtime P I C O E L F).
Local Abbreviation DirWorld := (World I Pending E L).
Local Abbreviation Act := (Action I C O E L X).
Local Abbreviation Code := (list Act).
Implicit Types (r : Rt) (dw : DirWorld) (slot : SlotRef) (action : Act) (code : Code).

(** The slot an action is about, with the entity it takes it for. *)
Definition named action : option (I * SlotRef) :=
  match action with
  | Dispatch _ _ | Locate _ _ | Passivate _ | Retire_entity _ | Diagnose _ _ _
  | Complete_retirement _ _ => None
  | Submit_to k slot _ | Read_activation k slot | Begin_retirement k slot
  | Close_fence k slot _ _ _ _ | Submit_owned k slot _ | Interpret_slot _ k slot
  | Next_effect _ k slot | Close_row k slot | Spawn_retirement k slot _ _ _ _ => Some (k, slot)
  | Activate k slot _ | Deliver k slot _ _ _ _ | Fence k slot _ _ | Retire k slot _ _ _
  | Interpret_effect _ k slot _ => slot ← slot; Some (k, slot)
  end.

Definition effect_in_hand action : option (I * SlotRef * SlotEffect Pending E L) :=
  match action with
  | Interpret_effect _ k (Some slot) effect => Some (k, slot, effect)
  | _ => None
  end.

(** The slots an action may take out of the map. *)
Definition removes action : gset SlotRef :=
  match action with Interpret_effect _ _ (Some slot) (Effect_Remove _) => {[slot]} | _ => ∅ end.

Record action_ok dw action : Prop := {
  ok_named : ∀ k slot, named action = Some (k, slot) → ∃ a, claims dw !! slot = Some (k, a);
  ok_hand : ∀ e, effect_in_hand action = Some e → e ∈ in_hand dw
}.

Lemma action_ok_extends allowed dw dw' action :
  extends clone hash_one allowed dw dw' → action_ok dw action → action_ok dw' action.
Proof.
  intros [_ Hh _ Hc] [Hn Hand]. split; [|by auto].
  intros k slot Hk. destruct (Hn k slot Hk) as [a Ha]. exists a. by eapply lookup_weaken.
Qed.

(** What an action leaves is about the slot it is about itself, but for the
    actions that look one up; and an effect is taken in hand only by
    [Next_effect]. *)
Definition looks_up action : bool :=
  match action with Locate _ _ | Passivate _ | Retire_entity _ => true | _ => false end.

Definition follows action action' : Prop :=
  (named action' = named action ∨ named action' = None) ∧
  match effect_in_hand action' with
  | Some (k, slot, effect) => ∃ closed, action = Next_effect closed k slot
  | None => True
  end.

Lemma perform_follows action :
  looks_up action = false →
  returns (perform (F := F) clone hash_one action) (λ '(next, spawned),
    Forall (follows action) next ∧ Forall (Forall (follows action)) spawned).
Proof.
  intros Hl. destruct action; try done; open_perform; unfold submit_to, perform_effect;
    returns_all; try destruct slot; unfold follows; cbn;
    repeat case_match; rewrite ?Forall_cons, ?Forall_nil; cbn; eauto 10.
Qed.

(** The result of one action of a thread, in the directory's world. *)
Definition performs dw action r' (result : option (Code * list Code)) : Prop :=
  ∃ dw', extends clone hash_one (removes action) dw dw' ∧ directory dw' = routes r' ∧
    match result with
    | Some (next, spawned) => Forall (action_ok dw') next ∧ Forall (Forall (action_ok dw')) spawned
    | None => True
    end.

Lemma follows_ok allowed dw dw' action action' :
  extends clone hash_one allowed dw dw' → action_ok dw action →
  (∀ closed k slot, action ≠ Next_effect closed k slot) → follows action action' → action_ok dw' action'.
Proof.
  intros He [Hn _] Hnext [Hname Hhand]. split.
  - intros k slot Hk. destruct Hname as [Hname|Hname]; [|congruence].
    rewrite Hname in Hk. destruct (Hn k slot Hk) as [a Ha]. exists a.
    eapply lookup_weaken; [done|apply He].
  - intros e Heq. rewrite Heq in Hhand. destruct e as [[k slot] e].
    destruct Hhand as [closed ->]. by destruct (Hnext closed k slot).
Qed.

(** An action that is one critical section of the directory, or none. *)
Lemma performs_simulated dw r action r' result :
  world_inv hash_one dw → directory dw = routes r → action_ok dw action →
  looks_up action = false → (∀ closed k slot, action ≠ Next_effect closed k slot) →
  simulated_at clone hash_one (removes action) r (perform clone hash_one action) →
  perform clone hash_one action r = (r', result) → performs dw action r' result.
Proof.
  intros Hinv Hd Hok Hl Hnext Hsim Hp. destruct (Hsim dw Hinv Hd) as (dw' & He & Hd').
  rewrite Hp in Hd'. exists dw'. split_and!; [done..|].
  pose proof (perform_follows action Hl r) as Hf. rewrite Hp in Hf. simpl in Hf.
  destruct result as [[next spawned]|]; [|done]. destruct Hf as [Hn Hs]. split.
  - eapply Forall_impl; [exact Hn|]. intros. by eapply follows_ok.
  - eapply Forall_impl; [exact Hs|]. intros code Hcode.
    eapply Forall_impl; [exact Hcode|]. intros. by eapply follows_ok.
Qed.

(** Operations that do not touch the directory. *)
Ltac quiet := apply simulated_quiet; cbn; done.

Lemma simulated_effect r closed k (slot : option SlotRef) (effect : SlotEffect Pending E L) :
  simulated_at clone hash_one (removes (Interpret_effect closed k slot effect)) r
    (perform_effect (X := X) closed k slot effect).
Proof.
  destruct effect; cbn [perform_effect]; try (destruct closed; quiet); try quiet.
  destruct slot as [slot|]; [|quiet]. apply simulated_bind.
  - apply simulated_step. intros dw _ Hd. eexists. split; [apply (world_take_slot _ _ dw slot)|].
    cbn [directory in_hand taken claims removes]. unfold on_routes. rewrite Hd.
    pose proof (take_slot_from_spec slot [] (shards (routes r))) as Ht.
    unfold take_slot. destruct (take_slot_from _ _ _) as [s [[k' s']|]]; cbn;
      (split_and!; [done|done| |done]); [destruct Ht as [-> _]|]; set_solver.
  - intros r1 [row|] _; [|quiet]. apply simulated_bind; [quiet|]. intros r2 [] _. quiet.
Qed.

Lemma request_not_claim (request : Request C O) : ¬ is_claim (request_event (E := E) (L := L) request).
Proof. destruct request; unfold is_claim; naive_solver. Qed.

Lemma owned_not_claim (event : SlotEvent Pending E L) : owned_event event → ¬ is_claim event.
Proof. destruct event; unfold is_claim; naive_solver. Qed.

Lemma simulated_submit allowed r slot (event : SlotEvent Pending E L) :
  ¬ is_claim event → simulated_at clone hash_one allowed r (on_slot slot (λ x, submit clone x event)).
Proof. intros He. apply simulated_slot. by constructor. Qed.

Lemma perform_simulated r action :
  action_wf action → looks_up action = false → (∀ closed k slot, action ≠ Next_effect closed k slot) →
  simulated_at clone hash_one (removes action) r (perform clone hash_one action).
Proof.
  intros Hwf Hl Hnext.
  destruct action as [k p|k q|k slot q|k|k slot|k|k slot|k slot a|k a e|k slot a id e p|k slot a e
    |k slot a l mode|k slot a e l f|k slot ev|slot mode|c k slot|c k slot|c k slot e|k slot|k slot a e l f];
    try done; open_perform; clear Hl.
  - apply simulated_bind; [|intros r1 [s|] _; quiet].
    apply simulated_step. intros dw _ Hd. eexists. split; [apply world_allocate_dispatch|].
    unfold on_routes. rewrite Hd. destruct (allocate_dispatch (routes r)). cbn.
    split_and!; [done|done|set_solver|done].
  - unfold submit_to. apply simulated_bind; [quiet|]. intros r1 before _.
    apply simulated_bind; [apply simulated_submit, request_not_claim|]. intros r2 i _.
    apply simulated_bind; [quiet|]. intros r3 [] _. apply simulated_bind; [destruct q; quiet|].
    intros r4 [] _. quiet.
  - apply simulated_bind; [|intros r1 [a|] _; quiet].
    apply simulated_quiet. rewrite on_slot_routes. by apply update_slot_id.
  - apply simulated_bind; [quiet|]. intros r1 cell _. apply simulated_bind.
    { apply simulated_slot. constructor. }
    intros r2 [[i c]|error] _; quiet.
  - apply simulated_bind; [apply simulated_quiet; unfold on_port; by destruct (port_activate _ _ _)|].
    intros r1 result _. destruct slot, result; quiet.
  - apply simulated_bind; [apply simulated_quiet; unfold on_port; by destruct (port_activation_failed _ _ _ _)|].
    intros r1 [] _. quiet.
  - apply simulated_bind; [apply simulated_quiet; unfold on_port; by destruct (port_deliver _ _ _ _)|].
    intros r1 result _. apply simulated_bind; [destruct result as [[]|]; quiet|].
    intros r2 failure _. destruct slot, failure as [[]|]; quiet.
  - apply simulated_bind; [apply simulated_quiet; unfold on_port; by destruct (port_fence _ _)|].
    intros r1 result _. destruct slot; quiet.
  - apply simulated_bind; [apply simulated_quiet; unfold on_port; by destruct (port_retire _ _ _ _ _)|].
    intros r1 result _. apply simulated_bind; [quiet|]. intros r2 [] _.
    apply simulated_bind; [destruct result as [[]|]; quiet|]. intros r3 [] _. destruct slot; quiet.
  - apply simulated_bind; [destruct f as [[]|]; [|quiet]|intros; quiet].
    apply simulated_bind; [apply simulated_quiet; unfold on_port; by destruct (port_fence _ _)|].
    intros r1 result _. quiet.
  - apply simulated_bind; [|intros r1 [] _; quiet].
    apply (simulated_slot_ext _ _ _ _ _ _ (λ x, (submit clone x ev).1)).
    + constructor. by apply owned_not_claim.
    + intros x. unfold submit_owned. by destruct (submit clone x ev).
  - apply simulated_bind; [|intros r1 [[]|] _; quiet].
    apply (simulated_slot_ext _ _ _ _ _ _ (λ x, (complete_retirement x mode).1)); [constructor|done].
  - apply simulated_bind; [|intros r1 t _; quiet].
    apply (simulated_slot_ext _ _ _ _ _ _ (λ x, (acquire x).1)); [constructor|].
    intros x. by destruct (acquire x).
  - by destruct (Hnext c k slot).
  - apply simulated_effect.
  - apply simulated_bind; [|intros r1 t _; quiet].
    apply (simulated_slot_ext _ _ _ _ _ _ (λ x, (slot_close_family x).1)); [constructor|].
    intros x. by destruct (slot_close_family x).
  - quiet.
Qed.

(** Looking up the entity: nothing changes, and a slot found was claimed for it. *)
Lemma get_bind {B} dw r k (cont : option SlotRef → Op Rt B) r' result :
  world_inv hash_one dw → directory dw = routes r →
  (entry ← on_routes (get hash_one k); cont entry) r = (r', result) →
  ∃ entry, get hash_one k (routes r) = (routes r, Some entry) ∧ cont entry r = (r', result) ∧
    ∀ slot, entry = Some slot → ∃ a, claims dw !! slot = Some (k, a).
Proof.
  intros Hinv Hd. rewrite Op_bind_eq. unfold on_routes. rewrite <- Hd.
  rewrite get_entries by apply Hinv.
  assert (set_routes (directory dw) r = r) as -> by (rewrite Hd; by destruct r).
  intros Hc. eexists. split_and!; [done|exact Hc|]. apply Hinv.
Qed.

Lemma performs_still dw r action next :
  directory dw = routes r → Forall (action_ok dw) next →
  performs dw action r (Some (next, [])).
Proof. intros Hd Hn. exists dw. split_and!; [apply extension_refl|done..|constructor]. Qed.

Lemma found_ok dw k slot action' :
  (∃ a, claims dw !! slot = Some (k, a)) → named action' = Some (k, slot) →
  effect_in_hand action' = None → Forall (action_ok dw) [action'].
Proof.
  intros Hc Hn Hh. constructor; [|done]. split; [|by rewrite Hh].
  intros k' slot' Heq. rewrite Hn in Heq. by injection Heq as <- <-.
Qed.

(** A lookup ends in the slot it found, or in an answer. *)
Lemma performs_lookup dw r r' result action k (found : SlotRef → Act) (absent : Op Rt (Code * list Code)) :
  world_inv hash_one dw → directory dw = routes r →
  (∀ slot, named (found slot) = Some (k, slot) ∧ effect_in_hand (found slot) = None) →
  (∀ r1 o, absent r = (r1, o) → directory dw = routes r1 ∧ o = Some ([], [])) →
  (entry ← on_routes (get hash_one k);
   match entry with None => absent | Some slot => continue [found slot] end) r = (r', result) →
  performs dw action r' result.
Proof.
  intros Hinv Hd Hf Habs Hp. apply (get_bind dw) in Hp as ([slot|] & _ & Hc & Hclaim); [| |done..].
  - injection Hc as <- <-. apply performs_still; [done|].
    apply (found_ok dw k slot); [by apply Hclaim|apply Hf..].
  - apply Habs in Hc as [Hd' ->]. by apply performs_still.
Qed.

Lemma performs_locate dw r k (request : Request C O) r' result :
  world_inv hash_one dw → directory dw = routes r →
  locate clone hash_one k request r = (r', result) → performs dw (Locate k request) r' result.
Proof.
  intros Hinv Hd Hp. unfold locate in Hp.
  apply (get_bind dw) in Hp as ([slot|] & Hget & Hp & Hclaim); [| |done..].
  - injection Hp as <- <-. apply performs_still; [done|].
    apply (found_ok dw k slot); [by apply Hclaim|done..].
  - destruct request as [id p|a id|a].
    2,3: injection Hp as <- <-; by apply performs_still.
    rewrite Op_bind_eq in Hp. unfold on_routes in Hp.
    destruct (claim clone hash_one k id p (routes r)) as [d o] eqn:Hcl.
    destruct o as [claimed|].
    + pose proof (simulated_claim clone hash_one r dw k id p d claimed Hinv Hd Hget Hcl)
        as (dw' & He & Hd' & Hc).
      destruct claimed as [[slot i]|error].
      * injection Hp as <- <-. exists dw'. split_and!; [done|done|by apply (found_ok dw' k slot)|done].
      * destruct (admission_error error) as [p' failure]. injection Hp as <- <-.
        by exists dw'.
    + injection Hp as <- <-. exfalso. rewrite claim_spec in Hcl.
      destruct (allocate _) as [n [s|]]; cbv zeta in Hcl; [by rewrite claimed_slot_ok in Hcl|done].
Qed.

(** Taking the next effect in hand. *)
Lemma performs_next dw r closed k slot r' result :
  directory dw = routes r → action_ok dw (Next_effect closed k slot) →
  perform clone hash_one (Next_effect closed k slot) r = (r', result) →
  performs dw (Next_effect closed k slot) r' result.
Proof.
  intros Hd [Hn _] Hp. open_perform in Hp. rewrite Op_bind_eq in Hp.
  set (op := λ x : SlotExecution Pending E L, let '(x, effect) := next x in (x, Some effect)) in Hp.
  pose proof (on_slot_routes r slot op) as Hr. unfold on_slot in *.
  destruct (arena (routes r) !! slot) as [x|] eqn:Hx.
  2: { injection Hp as <- <-. exists dw. split; [apply extension_refl|done]. }
  unfold op in Hp at 1. unfold op in Hr at 1. cbn beta in *.
  destruct (next x) as [x' effect] eqn:Hnext. cbn [fst] in Hr.
  assert (update_slot (λ x, (op x).1) slot (routes r) = update_slot (λ x, (next x).1) slot (routes r)) as Hup.
  { unfold update_slot. f_equal. apply alter_ext. intros y _. unfold op. by destruct (next y). }
  destruct effect as [effect|]; injection Hp as <- <-.
  - exists {| directory := update_slot (λ x, (next x).1) slot (directory dw);
      in_hand := (k, slot, effect) :: in_hand dw; claims := claims dw; taken := taken dw |}.
    split_and!; [split|..].
    + apply rtc_once. eapply world_next; [by rewrite Hd|by rewrite Hnext].
    + intros e He. by right.
    + set_solver.
    + done.
    + cbn [directory]. by rewrite Hd, Hr, Hup.
    + apply Forall_cons; split; [|apply Forall_cons; split; [|done]].
      * split; [intros k' s' [= <- <-]; by apply Hn|intros e [= <-]; by left].
      * split; [intros k' s' [= <- <-]; by apply Hn|done].
    + constructor.
  - exists (with_directory dw (update_slot
      (λ x, match (next x).2 with None => (next x).1 | Some _ => x end) slot (directory dw))).
    split_and!; [split|..]; try done.
    + apply rtc_once. apply world_next_done.
    + set_solver.
    + cbn [directory with_directory]. rewrite Hd, Hr, Hup. unfold update_slot, set_arena. f_equal.
      apply map_eq. intros i. rewrite !lookup_alter. case_decide; [|done]. subst. rewrite Hx. simpl.
      by rewrite Hnext.
Qed.

Lemma perform_performs dw r action r' result :
  world_inv hash_one dw → directory dw = routes r → action_wf action → action_ok dw action →
  perform clone hash_one action r = (r', result) → performs dw action r' result.
Proof.
  intros Hinv Hd Hwf Hok Hp. destruct (looks_up action) eqn:Hl.
  - destruct action; try done; open_perform in Hp.
    + by apply (performs_locate dw r).
    + eapply (performs_lookup dw r _ _ _ k (Read_activation k)); [done|done|done| |exact Hp].
      intros r1 o [= <- <-]. done.
    + eapply (performs_lookup dw r _ _ _ k (Begin_retirement k)); [done|done|done| |exact Hp].
      intros r1 o [= <- <-]. done.
  - destruct action; try (eapply performs_simulated; [done..|by apply perform_simulated|done]).
    by apply (performs_next dw r).
Qed.
End actions.

(** ** Every run *)

Section runs.
Context {P I C O E L X F TF : Type} `{Countable I} `{LocalEntityRuntime P I C O E L X F}
  (clone : E → option E) (hash_one : I → N).
Local Abbreviation Pending := (PendingCommand O C).
Local Abbreviation Rt := (Runtime P I C O E L F).
Local Abbreviation DirWorld := (World I Pending E L).
Local Abbreviation Act := (Action I C O E L X).
Local Abbreviation Code := (list Act).
Local Abbreviation RtWorld := (RuntimeWorld P I C O E L X F TF).
Implicit Types (r : Rt) (dw : DirWorld) (w : RtWorld) (slot : SlotRef) (action : Act) (code : Code).

(** The rows shutdown drained. *)
Definition drained_rows w : list (I * SlotRef) := default [] (family w).

Record simulates dw w : Prop := {
  sim_inv : world_inv hash_one dw;
  sim_directory : directory dw = routes (runtime w);
  sim_actions : Forall (λ t, Forall (action_ok dw) t.2) (threads w);
  sim_taken : ∀ slot, slot ∈ taken dw → terminal_at dw slot ∨ slot ∈ (drained_rows w).*2;
  sim_rows : ∀ k slot, (k, slot) ∈ drained_rows w → ∃ a, claims dw !! slot = Some (k, a)
}.

Lemma simulates_extends dw dw' w w' allowed :
  simulates dw w → extends clone hash_one allowed dw dw' →
  (∀ slot, slot ∈ allowed → terminal_at dw slot) →
  directory dw' = routes (runtime w') → family w' = family w →
  Forall (λ t, Forall (action_ok dw') t.2) (threads w') → simulates dw' w'.
Proof.
  intros [Hinv Hd Ha Ht Hr] He Hall Hd' Hf Hact.
  assert (world_inv hash_one dw') as Hinv' by (eapply world_steps_inv, extends_run; done).
  split; [done..| |].
  - unfold drained_rows. rewrite Hf. intros slot Hs. apply (extends_taken _ _ _ _ _ He) in Hs.
    apply elem_of_union in Hs as [Hs|Hs].
    + left. by apply (world_steps_terminal clone hash_one dw dw' slot Hinv (extends_run _ _ _ _ _ He)), Hall.
    + destruct (Ht slot Hs) as [?|?]; [left|by right].
      by apply (world_steps_terminal clone hash_one dw dw' slot Hinv (extends_run _ _ _ _ _ He)).
  - unfold drained_rows. rewrite Hf. intros k slot Hin. destruct (Hr k slot Hin) as [a Hc].
    exists a. eapply lookup_weaken; [done|apply He].
Qed.

(** A step that leaves the directory as it is. *)
Lemma simulates_quiet dw w w' :
  simulates dw w → routes (runtime w') = routes (runtime w) → family w' = family w →
  Forall (λ t, Forall (action_ok dw) t.2) (threads w') → simulates dw w'.
Proof.
  intros Hs Hr Hf Ha. apply (simulates_extends dw dw w w' ∅); try done.
  - apply extension_refl.
  - rewrite Hr. apply Hs.
Qed.

Lemma actions_extends allowed dw dw' (l : list (Owner * Code)) :
  extends clone hash_one allowed dw dw' →
  Forall (λ t, Forall (action_ok dw) t.2) l → Forall (λ t, Forall (action_ok dw') t.2) l.
Proof.
  intros He Hl. eapply Forall_impl; [exact Hl|]. intros t Ht.
  eapply Forall_impl; [exact Ht|]. intros a. by apply (action_ok_extends clone hash_one allowed).
Qed.

(** Only a removal in hand takes a slot out of the map. *)
Lemma removes_terminal dw action slot :
  world_inv hash_one dw → action_ok dw action → slot ∈ removes action → terminal_at dw slot.
Proof.
  intros Hinv [_ Hh] Hin. destruct action as [| | | | | | | | | | | | | | | | |closed k [s|] e| |]; try done.
  destruct e; try done. simpl in Hin. apply elem_of_singleton in Hin as ->.
  eapply (inv_in_hand _ _ Hinv). by apply Hh.
Qed.

(** Unwinding gives the guards back. *)
Lemma simulates_unwind dw w code l s :
  simulates dw w → Forall (λ t, Forall (action_ok dw) t.2) l →
  ∃ dw', rtc (world_step clone hash_one) dw dw' ∧
    simulates dw' {| runtime := unwind code (runtime w); threads := l; stage := s; family := family w |}.
Proof.
  intros Hs Hl.
  assert (∃ dw', extends clone hash_one ∅ dw dw' ∧
    directory dw' = foldr drop_guard (routes (runtime w)) code) as (dw' & He & Hd).
  { destruct Hs as [_ Hd _ _ _]. induction code as [|a code (dw1 & He1 & Hd1)].
    - exists dw. split; [apply extension_refl|done].
    - destruct a; try (exists dw1; by split).
      exists (with_directory dw1 (update_slot (λ x, drop_dispatch x true) slot (directory dw1))).
      split; [|simpl; by rewrite Hd1].
      eapply extension_trans; [exact He1|]. split; [|done|set_solver|done].
      apply rtc_once. by apply world_slot, (op_drop _ true). }
  exists dw'. split; [apply He|]. eapply simulates_extends; [done|exact He|set_solver|done|done|].
  by eapply actions_extends.
Qed.

Lemma taken_rows (d : LocalDirectory I Pending E L) k slot :
  directory_wf hash_one d →
  (k, slot) ∈ shards d ≫= map_to_list ↔ entries d !! k = Some slot.
Proof.
  intros Hwf. rewrite (entries_permutation hash_one) by done. apply elem_of_map_to_list.
Qed.

Lemma simulates_drain dw w r rows :
  simulates dw w → record_drain w = (r, rows) →
  ∃ dw', rtc (world_step clone hash_one) dw dw' ∧
    simulates dw' {| runtime := r; threads := [(ByClaimant, close_rows rows)];
                     stage := Stage_Interpreting; family := Some rows |}.
Proof.
  intros [Hinv Hd Ha Ht Hr] Hrec. unfold record_drain in Hrec.
  assert (∀ dw', claims dw' = claims dw →
    (∀ k slot, (k, slot) ∈ rows → ∃ a, claims dw !! slot = Some (k, a)) →
    Forall (λ t, Forall (action_ok dw') t.2) [(ByClaimant, close_rows rows : Code)]) as Hclose.
  { intros dw' Hc Hrows. constructor; [|done]. apply Forall_map, Forall_forall.
    intros [k slot] Hin. split; [|done]. intros ?? [= <- <-]. rewrite Hc. by apply Hrows. }
  destruct (family w) as [rows'|] eqn:Hf.
  - injection Hrec as <- <-. exists dw. split; [done|].
    unfold drained_rows in *. rewrite Hf in *. split; try done. by apply Hclose.
  - unfold take_family in Hrec. injection Hrec as <- <-.
    assert (∀ k slot, (k, slot) ∈ shards (routes (runtime w)) ≫= map_to_list →
      ∃ a, claims dw !! slot = Some (k, a)) as Hrows.
    { intros k slot. rewrite <- Hd, taken_rows by apply Hinv. apply Hinv. }
    eexists. split; [apply rtc_once, (world_take_family _ _ dw)|].
    split; cbn [directory taken claims runtime threads routes set_routes].
    + by apply take_family_inv.
    + by rewrite <- Hd.
    + by apply Hclose.
    + intros slot [Hs|Hs]%elem_of_union.
      * right. apply elem_of_list_to_set in Hs. by rewrite Hd in Hs.
      * destruct (Ht slot Hs) as [(x & Hx & Hterm)|Hin]; [left; by exists x|].
        unfold drained_rows in Hin. rewrite Hf in Hin. by apply elem_of_nil in Hin.
    + done.
Qed.

Lemma runtime_step_simulates dw w w' :
  custody_inv w → simulates dw w → runtime_step clone hash_one w w' →
  ∃ dw', rtc (world_step clone hash_one) dw dw' ∧ simulates dw' w'.
Proof.
  intros Hcust Hs Hstep. pose proof (sim_actions _ _ Hs) as Hact.
  destruct Hstep.
  - exists dw. split; [done|]. apply (simulates_quiet dw w); try done.
    constructor; [|done]. constructor; [|done]. by split.
  - exists dw. split; [done|]. apply (simulates_quiet dw w); try done.
    constructor; [|done]. constructor; [|done]. destruct H3; by split.
  - exists dw. split; [done|]. by apply (simulates_quiet dw w).
  - exists dw. split; [done|]. by apply (simulates_quiet dw w).
  - pose proof (custody_wf _ Hcust) as Hwf. rewrite H1 in Hact, Hwf.
    apply Forall_app in Hact as [Hpre [[Ha Hcode]%Forall_cons Hpost]%Forall_cons].
    apply Forall_app in Hwf as [_ [[Hwf _]%Forall_cons _]%Forall_cons].
    destruct (perform_performs clone hash_one dw (runtime w) action r _ (sim_inv _ _ Hs)
      (sim_directory _ _ Hs) Hwf Ha H2) as (dw' & He & Hd & Hn & Hsp).
    exists dw'. split; [apply He|].
    eapply simulates_extends; [done|exact He| |done|done|].
    + intros slot. by apply removes_terminal; [apply Hs|].
    + cbn [threads with_threads]. rewrite Forall_app, Forall_cons, Forall_app. cbn [snd].
      rewrite Forall_app. split_and!.
      * by eapply actions_extends.
      * done.
      * eapply Forall_impl; [exact Hcode|]. intros a. by eapply action_ok_extends.
      * by eapply actions_extends.
      * by apply Forall_map.
  - pose proof (custody_wf _ Hcust) as Hwf. rewrite H1 in Hact, Hwf.
    apply Forall_app in Hact as [Hpre [[Ha Hcode]%Forall_cons Hpost]%Forall_cons].
    apply Forall_app in Hwf as [_ [[Hwf _]%Forall_cons _]%Forall_cons].
    destruct (perform_performs clone hash_one dw (runtime w) action r _ (sim_inv _ _ Hs)
      (sim_directory _ _ Hs) Hwf Ha H2) as (dw' & He & Hd & _).
    assert (simulates dw' (with_threads r (pre ++ post) w)) as Hs'.
    { eapply simulates_extends; [done|exact He| |done|done|].
      - intros slot. by apply removes_terminal; [apply Hs|].
      - cbn [threads with_threads]. rewrite Forall_app. split; by eapply actions_extends. }
    destruct (simulates_unwind dw' _ (action :: code) (pre ++ post)
      (if decide (o = ByClaimant) then Stage_Unclaimed else stage w) Hs' (sim_actions _ _ Hs'))
      as (dw2 & Hrun & Hs2).
    exists dw2. split; [etrans; [apply He|exact Hrun]|done].
  - rewrite H1 in Hact. apply Forall_app in Hact as [Hpre [_ Hpost]%Forall_cons].
    apply simulates_unwind; [done|]. by apply Forall_app.
  - rewrite H1 in Hact. apply Forall_app in Hact as [Hpre [_ Hpost]%Forall_cons].
    exists dw. split; [done|]. apply (simulates_quiet dw w); try done. by apply Forall_app.
  - exists dw. split; [done|]. by apply (simulates_quiet dw w).
  - exists dw. split; [done|]. by apply (simulates_quiet dw w).
  - by eapply simulates_drain.
  - exists dw. split; [done|]. apply (simulates_quiet dw w); try done.
    constructor; [|done]. apply Forall_map, Forall_forall. intros [k slot] Hin.
    split; [|done]. intros ?? [= <- <-]. apply (sim_rows _ _ Hs). unfold drained_rows. by rewrite H3.
  - exists dw. split; [done|]. apply (simulates_quiet dw w); try done.
  - exists dw. split; [done|]. by apply (simulates_quiet dw w).
Qed.

Lemma reachable_simulates p limit config w :
  DirectoryConfig_new p limit = Ok config → runtime_reachable clone hash_one config w →
  ∃ dw, world_reachable clone hash_one config dw ∧ simulates dw w.
Proof.
  intros Hc (d & port & Hd & Hrun).
  assert (simulates (world_of d) (runtime_init d port : RtWorld)) as H0'.
  { assert (world_reachable clone hash_one config (world_of d)) as Hr by (exists d; done).
    pose proof (reachable_inv _ _ _ _ _ _ Hc Hr) as Hinv.
    split; [done|done|constructor|intros s Hs; by apply not_elem_of_empty in Hs|].
    intros k s Hs. by apply elem_of_nil in Hs. }
  assert (∀ w', rtc (runtime_step clone hash_one) (runtime_init d port) w' →
    custody_inv w' ∧ ∃ dw, rtc (world_step clone hash_one) (world_of d) dw ∧ simulates dw w') as Hall.
  { intros w' Hrun'. pattern w'. revert w' Hrun'. apply rtc_ind_r.
    - split; [by apply (reachable_custody clone hash_one config); exists d, port|]. eauto using rtc_refl.
    - intros w1 w2 _ Hstep [Hcust (dw & Hrun1 & Hs)].
      split; [by eapply runtime_step_custody|].
      destruct (runtime_step_simulates _ _ _ Hcust Hs Hstep) as (dw2 & Hrun2 & Hs2).
      exists dw2. split; [by etrans|done]. }
  destruct (Hall w Hrun) as [_ (dw & Hrun' & Hs)]. exists dw. split; [by exists d|done].
Qed.

(** C33: the runtime refines the directory's threads: the directory of any
    reachable runtime is that of a reachable [Directory.World], in which every
    effect a thread interprets is in hand, every slot a thread names was claimed
    for the entity it names, and a slot taken out of the map is terminal or one
    of the rows shutdown drained. *)
Theorem runtime_refines_directory p limit config w :
  DirectoryConfig_new p limit = Ok config → runtime_reachable clone hash_one config w →
  ∃ dw, world_reachable clone hash_one config dw ∧ directory dw = routes (runtime w) ∧
    (∀ t action, t ∈ threads w → action ∈ t.2 →
       (∀ k slot, named action = Some (k, slot) → ∃ a, claims dw !! slot = Some (k, a)) ∧
       (∀ e, effect_in_hand action = Some e → e ∈ in_hand dw)) ∧
    (∀ slot, slot ∈ taken dw → slot ∉ (drained_rows w).*2 →
       ∃ x, arena (routes (runtime w)) !! slot = Some x ∧ terminal x).
Proof.
  intros Hc Hr. destruct (reachable_simulates _ _ _ _ Hc Hr) as (dw & Hdw & [Hinv Hd Ha Ht Hrows]).
  exists dw. split_and!; [done..| |].
  - intros t action Hin Hact. rewrite Forall_forall in Ha. specialize (Ha t Hin).
    rewrite Forall_forall in Ha. destruct (Ha action Hact). by split.
  - intros slot Hs Hn. destruct (Ht slot Hs) as [Hterm|]; [|done]. by rewrite <- Hd.
Qed.
End runs.

(** Two deliveries in flight: the directory is that of a reachable world. *)
Lemma runtime_refines_directory_witness :
  ∃ dw, world_reachable copy_endpoint identity_hash small_config dw ∧
    directory dw = routes (runtime delivering_world) ∧
    (∀ t action, t ∈ threads delivering_world → action ∈ t.2 →
       (∀ k slot, named action = Some (k, slot) → ∃ a, claims dw !! slot = Some (k, a)) ∧
       (∀ e, effect_in_hand action = Some e → e ∈ in_hand dw)) ∧
    (∀ slot, slot ∈ taken dw → slot ∉ (drained_rows delivering_world).*2 →
       ∃ x, arena (routes (runtime delivering_world)) !! slot = Some x ∧ terminal x).
Proof.
  apply (runtime_refines_directory copy_endpoint identity_hash 4 2 small_config); [done|].
  apply scenario_reachable, delivering_scenario.
Defined.
