(* ===== verification/EntityDuties.v ===== *)
(** * Duties: every incarnation that must make progress has a task that will

    A machine that is activating, has deliveries in flight, waits for its fence
    or for its termination relies on somebody to submit the fact it waits for.
    [machine_duties] lists what a machine waits for, [effect_duties] and
    [action_duties] what the queued effects and the threads are about to
    submit; as long as no thread has unwound the two are the same multiset,
    for every slot of the directory. *)

From S2P Require Import Prelude Lifecycle DirectorySlot Directory EntityRuntime EntityCustody.
From S2P Require Import EntityRefinement.

Variant Duty :=
  | Duty_activate (a : ActivationId)
  | Duty_deliver (a : ActivationId)
  | Duty_fence (a : ActivationId)
  | Duty_retire (a : ActivationId).

Section machine.
Context {C E L : Type} (clone : E → option E).
Implicit Types (machine : EntitySlot C E L) (event : SlotEvent C E L) (x : SlotExecution C E L).

Definition effect_duties (effect : SlotEffect C E L) : list Duty :=
  match effect with
  | Effect_StartActivation a => [Duty_activate a]
  | Effect_Deliver a _ _ _ => [Duty_deliver a]
  | Effect_EnqueueFence a _ => [Duty_fence a]
  | Effect_Retire a _ _ => [Duty_retire a]
  | Effect_Reject _ _ _ | Effect_Remove _ => []
  end.

Definition event_duties event : list Duty :=
  match event with
  | Event_ActivationSucceeded a _ _ | Event_ActivationFailed a => [Duty_activate a]
  | Event_DeliveryResolved a _ => [Duty_deliver a]
  | Event_FenceAcknowledged a | Event_ForceDrain a _ => [Duty_fence a]
  | Event_Terminated a => [Duty_retire a]
  | Event_ClaimActivation _ _ _ _ | Event_Dispatch _ _ | Event_CancelWaiter _ _
  | Event_BeginDrain _ => []
  end.

Definition deliveries (n : N) (a : ActivationId) : list Duty := replicate (N.to_nat n) (Duty_deliver a).

Definition machine_duties machine : list Duty :=
  match machine with
  | Slot_Inactive => []
  | Slot_Activating st => [Duty_activate (activating_id st)]
  | Slot_Active st => deliveries (count_value (reservations st)) (active_id st)
  | Slot_Draining st =>
      match progress st with
      | Progress_Reservations n => deliveries (Npos n) (draining_id st)
      | Progress_FenceAcknowledgement => [Duty_fence (draining_id st)]
      end
  | Slot_Retiring a => [Duty_retire a]
  end.

Lemma deliveries_succ n a : deliveries (n + 1) a = Duty_deliver a :: deliveries n a.
Proof. unfold deliveries. by rewrite N2Nat.inj_add, Nat.add_comm. Qed.

Lemma deliveries_other n a duty rest :
  deliveries n a ≡ₚ duty :: rest → duty = Duty_deliver a ∧ (n ≠ 0)%N ∧ rest ≡ₚ deliveries (n - 1) a.
Proof.
  intros Hp. assert (duty ∈ deliveries n a) as Hin by (rewrite Hp; by left).
  apply elem_of_replicate in Hin as [-> Hn]. split_and!; [done|lia|].
  replace n with (n - 1 + 1)%N in Hp by lia. rewrite deliveries_succ in Hp.
  by apply Permutation_cons_inv in Hp.
Qed.

(** What a machine must be that waits for a given fact. *)
Lemma duty_machine machine duty rest :
  machine_duties machine ≡ₚ duty :: rest →
  match duty with
  | Duty_activate a => ∃ st, machine = Slot_Activating st ∧ activating_id st = a ∧ rest = []
  | Duty_deliver a =>
      (∃ st, machine = Slot_Active st ∧ active_id st = a ∧ count_value (reservations st) ≠ 0%N ∧
         rest ≡ₚ deliveries (count_value (reservations st) - 1) a) ∨
      (∃ st n, machine = Slot_Draining st ∧ draining_id st = a ∧
         progress st = Progress_Reservations n ∧ rest ≡ₚ deliveries (Npos n - 1) a)
  | Duty_fence a => ∃ st, machine = Slot_Draining st ∧ draining_id st = a ∧
      progress st = Progress_FenceAcknowledgement ∧ rest = []
  | Duty_retire a => machine = Slot_Retiring a ∧ rest = []
  end.
Proof.
  intros Hm. destruct machine as [|st|st|st|b]; simpl in Hm.
  - by apply Permutation_nil_cons in Hm.
  - apply Permutation_singleton_l in Hm. injection Hm as <- <-. eauto.
  - apply deliveries_other in Hm as (-> & ? & ?). left. eauto.
  - destruct (progress st) as [n|] eqn:Hp.
    + apply deliveries_other in Hm as (-> & ? & ?). right. eauto 10.
    + apply Permutation_singleton_l in Hm. injection Hm as <- <-. eauto.
  - apply Permutation_singleton_l in Hm. injection Hm as <- <-. eauto.
Qed.

Lemma delivers_duties a endpoint (ws : list (ActivationWaiter C)) (ds : list (SlotEffect C E L)) :
  mapM (λ w, copy ← clone endpoint;
    Some (Effect_Deliver a (waiter_dispatch_id w) copy (waiter_command w))) ws = Some ds →
  ds ≫= effect_duties = deliveries (len ws) a.
Proof.
  intros H%delivers_spec. unfold deliveries, len. rewrite Nat2N.id.
  induction H as [|w d ws ds (copy & _ & ->) _ IH]; [done|]. csimpl. by rewrite IH.
Qed.

Lemma rejects_duties (reason : Refusal) (ws : list (ActivationWaiter C)) :
  map (λ w, @Effect_Reject C E L (waiter_dispatch_id w) (waiter_command w) reason) ws
    ≫= effect_duties = [].
Proof. induction ws; done. Qed.

(** A request of a caller adds what it makes the machine wait for. *)
Lemma decide_request_duties machine event d :
  EntitySlot_decide clone machine event = Some d → event_duties event = [] → ¬ is_claim event →
  machine_duties (state d) ≡ₚ machine_duties machine ++ (into_vec (effects d) ≫= effect_duties).
Proof.
  intros H He Hc. destruct machine, event; try done; try (by destruct Hc); transition_cases H;
    autorewrite with bombay_batch; simpl; rewrite ?app_nil_r; try done; try lia.
  - match goal with H : reserve _ = Some _ |- _ => apply reserve_Some in H as [-> _] end.
    rewrite deliveries_succ. apply Permutation_cons_append.
Qed.

(** A fact the machine waits for discharges it. *)
Lemma decide_fact_duties machine event duty rest d :
  EntitySlot_decide clone machine event = Some d → event_duties event = [duty] →
  machine_duties machine ≡ₚ duty :: rest →
  machine_duties (state d) ≡ₚ rest ++ (into_vec (effects d) ≫= effect_duties).
Proof.
  intros H He Hm%duty_machine. destruct event; simplify_eq/=.
  - destruct Hm as (st & -> & <- & ->). transition_cases H. autorewrite with bombay_batch.
    match goal with H : mapM _ _ = Some _ |- _ => apply delivers_duties in H as -> end.
    by rewrite count_value_from_len.
  - destruct Hm as (st & -> & <- & ->). transition_cases H. autorewrite with bombay_batch.
    by rewrite bind_app, rejects_duties.
  - destruct Hm as [(st & -> & <- & Hn & Hr)|(st & n & -> & <- & Hp & Hr)]; rewrite Hr; clear Hr.
    + transition_cases H; try match goal with Hx : resolve ?c = _ |- _ =>
        pose proof (resolve_spec c) as Hs; rewrite Hx in Hs; simpl in *; try lia end;
        simpl; rewrite ?app_nil_r; f_equal; try lia.
      all: first [by rewrite Hs|destruct Hs as [-> _]; f_equiv; f_equal; lia].
    + transition_cases H; autorewrite with bombay_batch; simpl; rewrite ?app_nil_r;
      try match goal with
      | Hn : nonzero _ = Some _ |- _ => apply nonzero_Some in Hn; rewrite Hn
      | Hn : nonzero _ = None |- _ => apply nonzero_None in Hn; rewrite Hn
      end; try done.
  - destruct Hm as (st & -> & <- & Hp & ->). transition_cases H; done.
  - destruct Hm as (st & -> & <- & Hp & ->). transition_cases H; done.
  - destruct Hm as [-> ->]. transition_cases H; done.
Qed.
End machine.

(** ** What an action does to the slots *)

Section performed.
Context {P I C O E L X F : Type} `{Countable I} `{LocalEntityRuntime P I C O E L X F}
  (clone : E → option E) (hash_one : I → N).
Local Abbreviation Pending := (PendingCommand O C).
Local Abbreviation Rt := (Runtime P I C O E L F).
Local Abbreviation Act := (Action I C O E L X).
Local Abbreviation Code := (list Act).
Local Abbreviation Slots := (gmap SlotRef (SlotExecution Pending E L)).
Implicit Types (r : Rt) (slot : SlotRef) (action : Act) (code : Code) (a : Slots).

Definition installed_slot (x : SlotExecution Pending E L) (d : SlotDecision Pending E L) :
    SlotExecution Pending E L :=
  set_pending (pending x ++ into_vec (effects d)) (set_slot_state (SlotState_Ready (state d)) x).

(** The slot took the fact, having its retirement observed or not. *)
Definition submitted (event : SlotEvent Pending E L) slot a a' : Prop :=
  ∃ x machine d cell, a !! slot = Some x ∧ slot_state x = SlotState_Ready machine ∧
    EntitySlot_decide clone machine event = Some d ∧
    a' = <[slot := installed_slot (set_retirement cell x) d]> a.

(** Statements that only a caller runs before it reaches a slot. *)
Definition is_request action : bool :=
  match action with
  | Dispatch _ _ | Locate _ _ | Submit_to _ _ _ | Passivate _ | Read_activation _ _
  | Retire_entity _ | Begin_retirement _ _ => true
  | _ => false
  end.

(** The tasks an effect is interpreted as. *)
Definition effect_tasks (closed : bool) (k : I) (slot : option SlotRef)
    (effect : SlotEffect Pending E L) : list Code :=
  match effect with
  | Effect_StartActivation b => if closed then [] else [[Activate k slot b]]
  | Effect_Deliver b id endpoint pending => [[Deliver k slot b id endpoint pending]]
  | Effect_EnqueueFence b endpoint => [[Fence k slot b endpoint]]
  | Effect_Retire b lease mode => [[Retire k slot b lease mode]]
  | Effect_Reject _ _ _ | Effect_Remove _ => []
  end.

Definition performed action a a' (left : Code * list Code) : Prop :=
  let '(next, spawned) := left in
  match action with
  | Dispatch _ _ | Passivate _ | Read_activation _ _ | Retire_entity _ =>
      a' = a ∧ Forall is_request next ∧ spawned = []
  | Diagnose _ _ _ => a' = a ∧ next = [] ∧ spawned = []
  | Locate k request =>
      spawned = [] ∧
      ((a' = a ∧ Forall is_request next) ∨
       ∃ slot b id pending limit, a !! slot = None ∧
         a' = <[slot := (submit clone Slot_new (Event_ClaimActivation b id pending limit)).1]> a ∧
         next = [Interpret_slot false k slot])
  | Submit_to k slot request =>
      submitted (request_event request) slot a a' ∧ next = [Interpret_slot false k slot] ∧ spawned = []
  | Begin_retirement k slot =>
      spawned = [] ∧
      ((a' = a ∧ next = []) ∨
       ∃ b, submitted (Event_BeginDrain b) slot a a' ∧ next = [Interpret_slot false k slot])
  | Activate k slot b =>
      a' = a ∧ spawned = [] ∧ ∃ s event rest, slot = Some s ∧ next = Submit_owned k s event :: rest ∧
        event_duties event = [Duty_activate b] ∧ Forall (λ action, ∃ k b e, action = Diagnose k b e) rest
  | Deliver k slot b _ _ _ =>
      a' = a ∧ spawned = [] ∧ match slot with
      | Some s => ∃ failure, next = [Submit_owned k s (Event_DeliveryResolved b failure)]
      | None => next = []
      end
  | Fence k slot b _ =>
      a' = a ∧ spawned = [] ∧ match slot with
      | Some s => ∃ event, next = [Submit_owned k s event] ∧ event_duties event = [Duty_fence b]
      | None => next = []
      end
  | Retire k slot b _ mode =>
      a' = a ∧ spawned = [] ∧ match slot with
      | Some s => next = [Submit_owned k s (Event_Terminated b); Complete_retirement s mode]
      | None => next = []
      end
  | Close_fence k slot b _ lease _ =>
      a' = a ∧ spawned = [] ∧ ∃ mode, next = [Retire k (Some slot) b lease mode]
  | Submit_owned k slot event =>
      submitted event slot a a' ∧ next = [Interpret_slot false k slot] ∧ spawned = []
  | Complete_retirement slot _ =>
      next = [] ∧ spawned = [] ∧
      ∃ x, a !! slot = Some x ∧ a' = <[slot := set_retirement None x]> a
  | Interpret_slot closed k slot =>
      spawned = [] ∧ ∃ x, a !! slot = Some x ∧ a' = <[slot := (acquire x).1]> a ∧
        next = if (acquire x).2 then [Next_effect closed k slot] else []
  | Next_effect closed k slot =>
      spawned = [] ∧ ∃ x, a !! slot = Some x ∧ a' = <[slot := (DirectorySlot.next x).1]> a ∧
        next = match (DirectorySlot.next x).2 with
               | Some effect => [Interpret_effect closed k (Some slot) effect; Next_effect closed k slot]
               | None => []
               end
  | Interpret_effect closed k slot effect =>
      a' = a ∧ next = [] ∧ spawned = effect_tasks closed k slot effect
  | Close_row k slot =>
      spawned = [] ∧ ∃ x, a !! slot = Some x ∧ a' = <[slot := (slot_close_family x).1]> a ∧
        next = Interpret_slot true k slot ::
          match (slot_close_family x).2 with
          | Some (b, endpoint, lease, fence) => [Spawn_retirement k slot b endpoint lease fence]
          | None => []
          end
  | Spawn_retirement k slot b endpoint lease fence =>
      a' = a ∧ next = [] ∧ spawned = [[Close_fence k slot b endpoint lease fence]]
  end.

Definition slots r : Slots := arena (routes r).

Lemma on_slot_Some {A} slot (op : SlotExecution Pending E L → SlotExecution Pending E L * option A) r r' b :
  on_slot slot op r = (r', Some b) →
  ∃ x x', slots r !! slot = Some x ∧ op x = (x', Some b) ∧ slots r' = <[slot := x']> (slots r).
Proof.
  unfold on_slot, slots. destruct (arena (routes r) !! slot) as [x|]; [|done].
  destruct (op x) as [x' result] eqn:Hop. intros [= <- ->]. by exists x, x'.
Qed.

Lemma submit_Some x (event : SlotEvent Pending E L) x' i :
  submit clone x event = (x', Some i) →
  ∃ machine d, slot_state x = SlotState_Ready machine ∧
    EntitySlot_decide clone machine event = Some d ∧ x' = installed_slot x d.
Proof.
  pose proof (submit_spec clone x event) as Hs. intros Hsub. rewrite Hsub in Hs.
  destruct (slot_state x) as [machine|]; [|done].
  destruct (EntitySlot_decide clone machine event) as [d|] eqn:Hd; [|done].
  injection Hs as -> _. by exists machine, d.
Qed.

Lemma on_routes_Some {A} (op : Op (LocalDirectory I Pending E L) A) r r' b :
  on_routes op r = (r', Some b) →
  ∃ d, op (routes r) = (d, Some b) ∧ slots r' = arena d.
Proof. unfold on_routes. destruct (op (routes r)) as [d o]. intros [= <- ->]. by exists d. Qed.

Lemma on_port_Some {A} (op : Op P A) r r' b :
  on_port op r = (r', Some b) → slots r' = slots r.
Proof. unfold on_port. destruct (op (port r)) as [p o]. by intros [= <- _]. Qed.

Lemma set_retirement_id (x : SlotExecution Pending E L) : set_retirement (retirement x) x = x.
Proof. by destruct x. Qed.

Lemma submitted_Some slot (event : SlotEvent Pending E L) a a' x x' i :
  a !! slot = Some x → submit clone x event = (x', Some i) → a' = <[slot := x']> a →
  submitted event slot a a'.
Proof.
  intros Hx (m & d & Hm & Hd & ->)%submit_Some ->.
  exists x, m, d, (retirement x). by rewrite set_retirement_id.
Qed.

Lemma get_Some k r r' entry :
  on_routes (get hash_one k) r = (r', Some entry) → slots r' = slots r.
Proof.
  intros (d & Hg & ->)%on_routes_Some. pose proof (get_routes hash_one k (routes r)) as Hr.
  rewrite Hg in Hr. simpl in Hr. by subst d.
Qed.

Lemma begin_retirement_Err (x : SlotExecution Pending E L) cell x' error :
  begin_retirement clone x cell = (x', Some (Err error)) → x' = x.
Proof.
  rewrite begin_retirement_spec. destruct (slot_state x) as [machine|]; [|by intros [= <-]].
  destruct machine; simpl; try (by intros [= <-]); destruct (submit _ _ _) as [y [i|]]; done.
Qed.

Lemma answer_request_Some k (request : Request C O) i r r' b :
  answer_request k request i r = (r', Some b) → slots r' = slots r.
Proof. by destruct request; intros [= <- _]. Qed.

(** Peel the statements of an operation that returned. *)
Ltac peel Hp :=
  repeat match type of Hp with
  | (_ ≫= _) _ = (_, Some _) =>
      let r := fresh "r" in let b := fresh "b" in let Hm := fresh "Hm" in
      apply Op_bind_Some in Hp as (r & b & Hm & Hp)
  end.
Ltac settle :=
  repeat match goal with
  | Hm : on_port _ _ = (_, Some _) |- _ => apply on_port_Some in Hm
  | Hm : record _ _ = (_, Some _) |- _ => injection Hm as <- <-
  | Hm : answer _ _ = (_, Some _) |- _ => injection Hm as <- <-
  | Hm : continue _ _ = (_, Some _) |- _ => injection Hm as <- <-
  | Hm : stop _ = (_, Some _) |- _ => injection Hm as <- <-
  | Hm : spawn_owned _ _ = (_, Some _) |- _ => injection Hm as <- <-
  | Hm : mret _ _ = (_, Some _) |- _ => injection Hm as <- <-
  | Hm : complete _ _ _ = (_, Some _) |- _ => injection Hm as <- <-
  | Hm : reject _ _ _ _ = (_, Some _) |- _ => injection Hm as <- <-
  | Hm : retirement_failed _ _ _ _ _ _ = (_, Some _) |- _ => injection Hm as <- <-
  | Hm : on_routes (get _ _) _ = (_, Some _) |- _ => apply get_Some in Hm
  | Hm : retain_retired _ _ _ = (_, Some _) |- _ => injection Hm as <- <-
  | Hm : answer_request _ _ _ _ = (_, Some _) |- _ => apply answer_request_Some in Hm
  end.

Lemma locate_performed k (request : Request C O) r r' left :
  locate clone hash_one k request r = (r', Some left) →
  performed (Locate k request) (slots r) (slots r') left.
Proof.
  unfold locate. intros Hp. apply Op_bind_Some in Hp as (r1 & entry & Hg & Hp).
  apply get_Some in Hg. rewrite <- Hg. clear Hg. destruct entry as [slot|].
  { injection Hp as <- <-. simpl. split; [done|]. left. by repeat constructor. }
  destruct request as [id pending|b id|b].
  2,3: peel Hp; settle; injection Hm as <- <-; simpl; split; [done|]; left; split;
    [done|by constructor].
  apply Op_bind_Some in Hp as (r2 & claimed & Hc & Hp).
  apply on_routes_Some in Hc as (d & Hc & Ha). rewrite claim_spec in Hc.
  destruct (allocate _) as [n [sequence|]]; cbv zeta in Hc.
  - rewrite claimed_slot_ok in Hc. injection Hc as <- <-. injection Hp as <- <-.
    simpl. split; [done|]. right. eexists _, (ActivationId_new sequence), id, pending, _.
    split_and!; [apply fresh_slot| |done]. rewrite Ha. simpl. reflexivity.
  - injection Hc as <- <-. cbn [admission_error] in Hp. peel Hp. settle. simpl. split; [done|].
    left. split; [exact Ha|constructor].
Qed.

Lemma perform_performed action r r' left :
  perform clone hash_one action r = (r', Some left) → performed action (slots r) (slots r') left.
Proof.
  intros Hp.
  destruct action as [k p|k q|k slot q|k|k slot|k|k slot|k slot a|k a e|k slot a id e p|k slot a e
    |k slot a l mode|k slot a e l f|k slot ev|slot mode|c k slot|c k slot|c k slot e|k slot|k slot a e l f];
    open_perform in Hp.
  - peel Hp. apply on_routes_Some in Hm as (d & Ha & Hs). unfold allocate_dispatch in Ha.
    destruct (allocate _) as [n s]. injection Ha as <- <-. simpl in Hs.
    destruct s; cbn [admission_error] in Hp; peel Hp; settle; simpl; rewrite ?Hs; (split_and!; [done|by repeat constructor|done]).
  - by apply locate_performed.
  - unfold submit_to in Hp. peel Hp. settle. injection Hm as <- <-.
    apply on_slot_Some in Hm0 as (x & x' & Hx & Hsub & Ha).
    rewrite Hm2. simpl. split_and!; [|done..]. by eapply submitted_Some.
  - peel Hp. settle. simpl. destruct b; peel Hp; settle; simpl; rewrite ?Hm;
      (split_and!; [done|by repeat constructor|done]).
  - peel Hp. apply on_slot_Some in Hm as (x & x' & Hx & Hop & Ha). injection Hop as <- Hid.
    rewrite insert_id in Ha by done.
    destruct b; peel Hp; settle; simpl; (split_and!; [done|by repeat constructor|done]).
  - peel Hp. settle. simpl. destruct b; peel Hp; settle; simpl; rewrite ?Hm;
      (split_and!; [done|by repeat constructor|done]).
  - peel Hp. injection Hm as <- <-. apply on_slot_Some in Hm0 as (x & x' & Hx & Hop & Ha).
    change (slots (set_answers _ _ _)) with (slots r) in *.
    destruct b0 as [[i cell]|error]; peel Hp; settle; simpl; (split; [done|]).
    + right. apply begin_retirement_Ok in Hop as (m & b & Hm & Hb & _ & _ & _ & Hsub).
      exists b. split; [|done]. apply submit_Some in Hsub as (m' & d & Hm' & Hd & ->).
      exists x, m', d, (Some cell). split_and!; try done. 
    + left. split; [|done].
      assert (x' = x) as -> by by eapply begin_retirement_Err.
      by rewrite insert_id in Ha.
  - peel Hp. settle. destruct slot as [slot|], b as [[e l]|error]; peel Hp; settle; try done; simpl.
    + split_and!; [done..|]. by eexists _, _, [].
    + split_and!; [done..|]. eexists _, _, _. split_and!; [done..|]. repeat constructor. eauto.
  - peel Hp. settle. simpl. done.
  - peel Hp. settle. assert (slots r1 = slots r0) as Hr.
    { destruct b as [[]|c]; peel Hm0; settle; done. }
    destruct slot as [s|], b0 as [[id' p']|]; peel Hp; settle; simpl; rewrite <- Hm, <- Hr; eauto.
  - peel Hp. settle. destruct slot as [s|]; settle; simpl; split_and!; try done.
    eexists. split; [done|]. by destruct b as [[]|].
  - peel Hp. settle. assert (slots r2 = slots r0) as Hr.
    { destruct b as [[]|c]; settle; done. }
    destruct slot as [s|]; settle; simpl; rewrite <- Hm, <- Hr; eauto.
  - peel Hp. settle. simpl. split_and!; [|done|by eexists].
    destruct f as [[]|]; peel Hm; settle; done.
  - peel Hp. settle. apply on_slot_Some in Hm as (x & x' & Hx & Hop & Ha). unfold submit_owned in Hop.
    destruct (submit clone x ev) as [y [i|]] eqn:Hsub; simplify_eq/=.
    split_and!; [|done..]. by eapply submitted_Some.
  - peel Hp. apply on_slot_Some in Hm as (x & x' & Hx & Hop & Ha). simplify_eq/=.
    assert (slots r' = slots r0 ∧ left = ([], [])) as [-> ->].
    { destruct (retirement x); simplify_eq/=; peel Hp; settle; done. }
    simpl. split_and!; [done..|]. by exists x.
  - peel Hp. settle. apply on_slot_Some in Hm as (x & x' & Hx & Hop & Ha). simpl. split; [done|].
    exists x. destruct (acquire x). simplify_eq/=. done.
  - peel Hp. apply on_slot_Some in Hm as (x & x' & Hx & Hop & Ha).
    destruct (DirectorySlot.next x) as [y e] eqn:Hn. simplify_eq/=.
    destruct b as [e|]; settle; simpl; (split; [done|]); exists x; by rewrite Hn.
  - unfold perform_effect in Hp. destruct e as [act|act id e p|id p reason|act e|act l mode|act].
    1-5: try destruct c; peel Hp; settle; done.
    destruct slot as [s|]; [peel Hp|by settle].
    apply on_routes_Some in Hm as (d & Ht & Ha). pose proof (take_slot_arena (routes r) s) as Hd.
    rewrite Ht in Hd. simpl in Hd. rewrite Hd in Ha. destruct b; peel Hp; settle; simpl; try done.
  - peel Hp. settle. apply on_slot_Some in Hm as (x & x' & Hx & Hop & Ha). simpl. split; [done|].
    exists x. destruct (slot_close_family x). simplify_eq/=. done.
  - settle. done.
Qed.
End performed.
