(* ===== verification/EntityFamily.v ===== *)
(** * The family: no incarnation is forgotten

    On top of the duties of [EntityDuties]: as long as no thread has unwound,
    every slot's machine, queue and guard agree with what the threads are about
    to do ([slot_fact]), whatever they interleave.  [performed_fact] is the law
    of one action at one slot, [family_inv] and [runtime_step_family] those of a
    whole runtime. *)

From S2P Require Import Prelude Lifecycle DirectorySlot Directory EntityRuntime EntityExample.
From S2P Require Import EntityCustody EntityRefinement EntityDuties.

Section facts.
Context {I C O E L X : Type}.
Local Abbreviation Pending := (PendingCommand O C).
Local Abbreviation Act := (Action I C O E L X).
Local Abbreviation Code := (list Act).
Implicit Types (action : Act) (slot : SlotRef) (x : SlotExecution Pending E L).

(** What a statement is about to submit, or to have submitted by its tasks. *)
Definition owed action : list Duty :=
  match action with
  | Activate _ _ a => [Duty_activate a]
  | Deliver _ _ a _ _ _ => [Duty_deliver a]
  | Fence _ _ a _ => [Duty_fence a]
  | Retire _ _ a _ _ | Close_fence _ _ a _ _ _ | Spawn_retirement _ _ a _ _ _ => [Duty_retire a]
  | Submit_owned _ _ event => event_duties event
  | Interpret_effect _ _ _ effect => effect_duties effect
  | _ => []
  end.

Definition about action : option SlotRef := snd <$> named action.

Definition duties_at slot action : list Duty :=
  if decide (about action = Some slot) then owed action else [].

(** Statements counted at a slot: guards held, interpretations still to run,
    rows still to close, statements of the closed family. *)
Variant Statement := Guard | Interpretation | Closing | ClosedFamily.

Definition states (s : Statement) action : bool :=
  match s, action with
  | Guard, Next_effect _ _ _ => true
  | Interpretation, Interpret_slot _ _ _ => true
  | Closing, Close_row _ _ => true
  | ClosedFamily, (Interpret_slot closed _ _ | Next_effect closed _ _ | Interpret_effect closed _ _ _) => closed
  | _, _ => false
  end.

Definition counted s slot action : nat :=
  if decide (about action = Some slot) then (if states s action then 1 else 0) else 0.

Definition duties_of slot (l : list Code) : list Duty := l ≫= λ code, code ≫= duties_at slot.
Definition count_of s slot (l : list Code) : nat := sum_list_with (sum_list_with (counted s slot)) l.

Definition is_closed (machine : EntitySlot Pending E L) : Prop :=
  machine = Slot_Inactive ∨ ∃ a, machine = Slot_Retiring a.

(** What one slot and the statements about it agree on: the machine waits for
    exactly what is about to be submitted, the guard is held by one thread, a
    queue that is not empty will be interpreted, a row still to close waits for
    nothing, and a closed family stays closed. *)
Record machine_fact x (machine : EntitySlot Pending E L) (duties : list Duty)
    (count : Statement → nat) (row : Prop) : Prop := {
  fact_state : slot_state x = SlotState_Ready machine;
  fact_duties : machine_duties machine ≡ₚ (pending x ≫= effect_duties) ++ duties;
  fact_guard : count Guard = match DirectorySlot.dispatch x with Idle => 0%nat | Dispatching => 1%nat end;
  fact_pending : pending x = [] ∨ count Guard ≠ 0%nat ∨ count Interpretation ≠ 0%nat;
  fact_closing : count Closing ≠ 0%nat → count Closing = 1%nat ∧ machine_duties machine = [];
  fact_closed : count ClosedFamily ≠ 0%nat → is_closed machine;
  fact_row : row → count Closing ≠ 0%nat ∨ is_closed machine
}.

Definition slot_fact x duties count row : Prop := ∃ machine, machine_fact x machine duties count row.

Lemma slot_fact_weaken x duties duties' (count count' : Statement → nat) row :
  duties ≡ₚ duties' → (∀ s, s ≠ ClosedFamily → count s = count' s) →
  (count' ClosedFamily ≠ 0%nat → count ClosedFamily ≠ 0%nat) →
  slot_fact x duties count row → slot_fact x duties' count' row.
Proof.
  intros Hd Hc Hcl [m [H1 H2 H3 H4 H5 H6 H7]]. exists m.
  split; rewrite <- ?Hc, <- ?Hd by done; auto.
Qed.

Lemma slot_fact_perm x duties duties' (count count' : Statement → nat) (row row' : Prop) :
  duties ≡ₚ duties' → (∀ s, count s = count' s) → (row' → row) →
  slot_fact x duties count row → slot_fact x duties' count' row'.
Proof.
  intros Hd Hc Hr [m [H1 H2 H3 H4 H5 H6 H7]]. exists m.
  split; rewrite <- ?Hc, <- ?Hd; auto.
Qed.

Lemma counted_elsewhere s slot action : about action ≠ Some slot → counted s slot action = 0%nat.
Proof. intros Ha. unfold counted. by rewrite decide_False. Qed.
Lemma duties_elsewhere slot action : about action ≠ Some slot → duties_at slot action = [].
Proof. intros Ha. unfold duties_at. by rewrite decide_False. Qed.

Lemma counted_here s slot action :
  about action = Some slot → counted s slot action = if states s action then 1%nat else 0%nat.
Proof. intros Ha. unfold counted. by rewrite decide_True. Qed.
Lemma duties_here slot action : about action = Some slot → duties_at slot action = owed action.
Proof. intros Ha. unfold duties_at. by rewrite decide_True. Qed.
End facts.

Arguments counted : simpl never.
Arguments duties_at : simpl never.

Section local.
Context {P I C O E L X F : Type} `{Countable I} `{LocalEntityRuntime P I C O E L X F}
  (clone : E → option E) (hash_one : I → N).
Local Abbreviation Pending := (PendingCommand O C).
Local Abbreviation Act := (Action I C O E L X).
Local Abbreviation Code := (list Act).
Local Abbreviation Slots := (gmap SlotRef (SlotExecution Pending E L)).
Implicit Types (action : Act) (slot : SlotRef) (x : SlotExecution Pending E L) (a : Slots)
  (left : Code * list Code) (n : Statement → nat) (D : list Duty) (row : Prop).

Definition left_codes left : list Code := left.1 :: left.2.

Definition tally s slot left : nat := count_of s slot (left_codes left).
Definition dues slot left : list Duty := duties_of slot (left_codes left).

(** *** One slot *)

Lemma decide_closed (machine : EntitySlot Pending E L) (event : SlotEvent Pending E L) d :
  EntitySlot_decide clone machine event = Some d → ¬ is_claim event → is_closed machine →
  is_closed (state d).
Proof.
  intros Hd Hc [->|[b ->]]; destruct event; try done; transition_cases Hd; try (by destruct Hc);
    by (left + (right; eexists)).
Qed.

Lemma event_duties_cases (event : SlotEvent Pending E L) :
  event_duties event = [] ∨ ∃ duty, event_duties event = [duty].
Proof. destruct event; simpl; eauto. Qed.

Lemma closed_duties (machine : EntitySlot Pending E L) :
  is_closed machine → machine_duties machine = [] ∨ ∃ b, machine_duties machine = [Duty_retire b].
Proof. intros [->|[b ->]]; simpl; eauto. Qed.

(** A fact or a request installed in a slot. *)
Lemma fact_submitted x machine d cell event D n row :
  slot_fact x (event_duties event ++ D) n row → slot_state x = SlotState_Ready machine →
  EntitySlot_decide clone machine event = Some d → ¬ is_claim event →
  (event_duties event = [] → n Closing = 0%nat ∧ ¬ row) →
  slot_fact (installed_slot (set_retirement cell x) d) D
    (λ s, (match s with Interpretation => 1 | _ => 0 end + n s)%nat) row.
Proof.
  intros [m [Hs Hdu Hg Hp Hc Hcl Hr]] Hs' Hd Hclaim Hreq. rewrite Hs in Hs'. injection Hs' as ->.
  exists (state d). split; cbn [slot_state pending DirectorySlot.dispatch installed_slot set_pending
    set_slot_state set_retirement]; try done.
  - rewrite bind_app. destruct (event_duties_cases event) as [He|[duty He]]; rewrite He in Hdu.
    + rewrite (decide_request_duties clone _ _ _ Hd He Hclaim), Hdu. simpl. solve_Permutation.
    + simpl in Hdu. rewrite (decide_fact_duties clone machine event duty
        ((pending x ≫= effect_duties) ++ D) d Hd He) by (rewrite Hdu; solve_Permutation).
      solve_Permutation.
  - right; right. lia.
  - simpl. intros Hn. destruct (event_duties_cases event) as [He|[duty He]].
    + destruct (Hreq He) as [Hz _]. lia.
    + destruct (Hc Hn) as [_ Hm]. rewrite Hm, He in Hdu. exfalso.
      assert (duty ∈ []) as Hin by (rewrite Hdu; set_solver). by apply elem_of_nil in Hin.
  - simpl. intros Hn. by eapply decide_closed; [|done|apply Hcl].
  - simpl. intros Hrow. destruct (Hr Hrow) as [?|?]; [by left|right]. by eapply decide_closed.
Qed.

Lemma fact_acquire x D n row :
  slot_fact x D (λ s, (match s with Interpretation => 1 | _ => 0 end + n s)%nat) row →
  slot_fact (acquire x).1 D
    (λ s, (match s with Guard => if (acquire x).2 then 1 else 0 | _ => 0 end + n s)%nat) row.
Proof.
  intros [m [Hs Hdu Hg Hp Hc Hcl Hr]]. exists m. unfold acquire.
  destruct (DirectorySlot.dispatch x) eqn:Hdi; simpl in *; split; simpl; rewrite ?Hdi; auto; lia.
Qed.

Lemma fact_next_effect x effect D n row :
  (next x).2 = Some effect →
  slot_fact x D (λ s, (match s with Guard => 1 | _ => 0 end + n s)%nat) row →
  slot_fact (next x).1 (effect_duties effect ++ D)
    (λ s, (match s with Guard => 1 | _ => 0 end + n s)%nat) row.
Proof.
  unfold next. destruct (pending x) as [|e q] eqn:Hq; [done|]. intros [= ->].
  intros [m [Hs Hdu Hg Hp Hc Hcl Hr]]. exists m. split; simpl in *; auto.
  rewrite Hdu, Hq. csimpl. solve_Permutation.
Qed.

Lemma fact_next_done x D n row :
  (next x).2 = None →
  slot_fact x D (λ s, (match s with Guard => 1 | _ => 0 end + n s)%nat) row →
  slot_fact (next x).1 D n row.
Proof.
  unfold next. destruct (pending x) as [|e q] eqn:Hq; [|done]. intros _.
  intros [m [Hs Hdu Hg Hp Hc Hcl Hr]]. exists m. split; simpl in *; auto; rewrite ?Hq; auto.
  destruct (DirectorySlot.dispatch x); lia.
Qed.

Lemma deliveries_nil (k : N) b : deliveries k b = [] → k = 0%N.
Proof. intros Hn%(f_equal length). unfold deliveries in Hn. rewrite length_replicate in Hn. simpl in Hn. lia. Qed.

(** The closed family keeps nothing but the retirement of an idle incarnation. *)
Lemma close_family_duties (machine : EntitySlot Pending E L) :
  machine_duties machine = [] →
  let '(machine', batch, retired) := close_family machine in
  is_closed machine' ∧ into_vec batch = [] ∧
  machine_duties machine' = match retired with Some (b, _, _, _) => [Duty_retire b] | None => [] end.
Proof.
  destruct machine as [|st|[b e l []]|[b e l []]|b]; simpl; intros Hm; try done; unfold is_closed.
  - eauto.
  - eauto 6.
  - apply deliveries_nil in Hm. lia.
  - apply deliveries_nil in Hm. lia.
Qed.

Lemma fact_close x D n row :
  slot_fact x D (λ s, (match s with Closing => 1 | _ => 0 end + n s)%nat) row →
  slot_fact (slot_close_family x).1
    (match (slot_close_family x).2 with Some (b, _, _, _) => [Duty_retire b] | None => [] end ++ D)
    (λ s, (match s with Interpretation | ClosedFamily => 1 | _ => 0 end + n s)%nat) row.
Proof.
  intros [m [Hs Hdu Hg Hp Hc Hcl Hr]]. destruct Hc as [Hone Hm]; [simpl; lia|].
  pose proof (close_family_duties m Hm) as Hclose. unfold slot_close_family. rewrite Hs.
  destruct (close_family m) as [[m' batch] retired]. destruct Hclose as (Hclosed & Hb & Hm').
  rewrite Hm in Hdu. simpl in Hdu. symmetry in Hdu. apply Permutation_nil_r, app_nil in Hdu as [Hq ->].
  exists m'. rewrite for_each_push_back. simpl in *. rewrite Hb, app_nil_r.
  split; cbn [slot_state pending DirectorySlot.dispatch set_pending set_slot_state]; auto.
  - rewrite Hq, Hm'. simpl. by rewrite app_nil_r.
  - lia.
Qed.

(** Handing an effect to its task; the start of an activation is never handed
    to a closed family. *)
Lemma fact_effect x (effect : SlotEffect Pending E L) (closed : bool) D n row :
  slot_fact x (effect_duties effect ++ D)
    (λ s, (match s with ClosedFamily => if closed then 1 else 0 | _ => 0 end + n s)%nat) row →
  (∀ b, effect = Effect_StartActivation b → closed = false) ∧
  slot_fact x (effect_duties effect ++ D) n row.
Proof.
  intros [m [Hs Hdu Hg Hp Hc Hcl Hr]]. split.
  - intros b ->. destruct closed; [|done]. exfalso.
    destruct (closed_duties m) as [Hm|[b' Hm]]; [apply Hcl; simpl; lia|..]; rewrite Hm in Hdu; simpl in Hdu.
    + assert (Duty_activate b ∈ []) as Hin by (rewrite Hdu; set_solver). by apply elem_of_nil in Hin.
    + assert (Duty_activate b ∈ [Duty_retire b']) as Hin by (rewrite Hdu; set_solver).
      by apply list_elem_of_singleton in Hin.
  - exists m. split; simpl in *; auto. intros Hn. apply Hcl. destruct closed; lia.
Qed.

(** *** One action *)

(** A statement that no slot counts. *)
Definition uncounted slot action : Prop :=
  duties_at slot action = [] ∧ ∀ s, counted s slot action = 0%nat.

Lemma uncounted_elsewhere slot action : about action ≠ Some slot → uncounted slot action.
Proof. intros Ha. split; [by apply duties_elsewhere|]. intros s. by apply counted_elsewhere. Qed.

Lemma uncounted_request slot action : is_request action → uncounted slot action.
Proof.
  intros Hr. unfold uncounted, duties_at, counted. destruct action; try done;
    (split; [by case_decide|intros []; by case_decide]).
Qed.

Lemma uncounted_left slot left :
  Forall (Forall (uncounted slot)) (left_codes left) →
  dues slot left = [] ∧ ∀ s, tally s slot left = 0%nat.
Proof.
  unfold dues, tally. generalize (left_codes left) as l. clear left. intros l Hl.
  induction Hl as [|code l Hcode _ [IHd IHn]]; [done|].
  assert (code ≫= duties_at slot = [] ∧ ∀ s, sum_list_with (counted s slot) code = 0%nat) as [Hd Hn].
  { clear IHd IHn. induction Hcode as [|action code [Hd Hn] _ [IHd IHn]]; [done|]. csimpl.
    rewrite Hd, IHd. split; [done|]. intros s. by rewrite Hn, IHn. }
  unfold duties_of, count_of in *. csimpl. rewrite Hd, IHd. split; [done|].
  intros s. by rewrite Hn, IHn.
Qed.

(** The slot is untouched and the action is replaced by statements that are
    counted as it was. *)
Lemma fact_same x action left slot D n row :
  slot_fact x (duties_at slot action ++ D) (λ s, (counted s slot action + n s)%nat) row →
  dues slot left ≡ₚ duties_at slot action → (∀ s, tally s slot left = counted s slot action) →
  slot_fact x (dues slot left ++ D) (λ s, (tally s slot left + n s)%nat) row.
Proof.
  intros Hf Hd Hc. eapply slot_fact_perm; [by rewrite Hd| |intros Hr; exact Hr|exact Hf].
  intros s. by rewrite Hc.
Qed.

Lemma uncounted_fact x action left slot D n row :
  uncounted slot action → Forall (Forall (uncounted slot)) (left_codes left) →
  slot_fact x (duties_at slot action ++ D) (λ s, (counted s slot action + n s)%nat) row →
  slot_fact x (dues slot left ++ D) (λ s, (tally s slot left + n s)%nat) row.
Proof.
  intros [Hd Hn] [Hd' Hn']%uncounted_left Hf.
  apply (fact_same _ action); [done|by rewrite Hd, Hd'|]. intros s. by rewrite Hn, Hn'.
Qed.

Lemma request_fact x action (code : Code) slot D n row :
  is_request action → Forall is_request code →
  slot_fact x (duties_at slot action ++ D) (λ s, (counted s slot action + n s)%nat) row →
  slot_fact x (dues slot (code, []) ++ D) (λ s, (tally s slot (code, []) + n s)%nat) row.
Proof.
  intros Ha Hc Hf. apply (uncounted_fact _ action); [by apply uncounted_request| |done].
  constructor; [|done]. eapply Forall_impl; [exact Hc|]. intros. by apply uncounted_request.
Qed.

(** The slot is untouched: what the action owed, its successors owe. *)
Lemma handed_fact x action left slot D n row :
  (∀ s, states s action = false) → (∀ action', action' ∈ mjoin (left_codes left) → ∀ s, states s action' = false) →
  dues slot left = duties_at slot action →
  slot_fact x (duties_at slot action ++ D) (λ s, (counted s slot action + n s)%nat) row →
  slot_fact x (dues slot left ++ D) (λ s, (tally s slot left + n s)%nat) row.
Proof.
  assert (∀ s action', states s action' = false → counted s slot action' = 0%nat) as Hz.
  { intros s action' Hst. unfold counted. rewrite Hst. by case_decide. }
  intros Ha Hl Hd Hf. apply (fact_same _ action); [done|by rewrite Hd|].
  intros s. rewrite Hz by done. unfold tally. revert Hl. clear -Hz.
  generalize (left_codes left) as l. intros l Hl. unfold count_of.
  induction l as [|code l IH]; [done|]. csimpl in *. rewrite IH by set_solver. rewrite Nat.add_0_r.
  assert (∀ action', action' ∈ code → ∀ s, states s action' = false) as Hc by set_solver.
  clear -Hz Hc. induction code as [|action code IH]; [done|]. csimpl.
  rewrite IH, Hz; [done|apply Hc; by left|]. intros a' Hin. apply Hc. by right.
Qed.

Ltac here := unfold dues, tally, duties_of, count_of, left_codes; cbn [fst snd];
  csimpl; rewrite ?app_nil_r.

(** A submission, in its own slot and elsewhere. *)
Lemma submitted_fact action event slot a a' k x slot' D n row :
  submitted clone event slot a a' → ¬ is_claim event → about action = Some slot →
  owed action = event_duties event → (∀ s, states s action = false) →
  (event_duties event = [] → n Closing = 0%nat ∧ ¬ row) → a !! slot' = Some x →
  slot_fact x (duties_at slot' action ++ D) (λ s, (counted s slot' action + n s)%nat) row →
  ∃ x', a' !! slot' = Some x' ∧
    slot_fact x' (dues slot' ([Interpret_slot false k slot], []) ++ D)
      (λ s, (tally s slot' ([Interpret_slot false k slot], []) + n s)%nat) row.
Proof.
  intros (y & m & d & cell & Hy & Hm & Hd & ->) Hc Ha Ho Hst Hreq Hx Hf.
  destruct (decide (slot' = slot)) as [->|Hne].
  - rewrite Hx in Hy. injection Hy as <-. rewrite lookup_insert_eq. eexists. split; [done|].
    rewrite duties_here, Ho in Hf by done.
    eapply (slot_fact_perm _ D _ (λ s, (match s with Interpretation => 1 | _ => 0 end + n s)%nat));
      [|intros s|intros Hr; exact Hr|].
    + here. by rewrite duties_here.
    + here. rewrite counted_here by done. by destruct s.
    + eapply (fact_submitted _ m _ _ event); [|done..]. eapply slot_fact_perm; [| | |exact Hf]; [done| |done].
      intros s. cbn beta. by rewrite counted_here, Hst.
  - rewrite lookup_insert_ne by done. exists x. split; [done|].
    apply (uncounted_fact _ action); [apply uncounted_elsewhere; congruence| |done].
    repeat constructor; apply uncounted_elsewhere; cbn; congruence.
Qed.

Lemma performed_fact action a a' left slot x D n row :
  performed clone action a a' left → action_wf action →
  (is_request action → n Closing = 0%nat ∧ ¬ row) → a !! slot = Some x →
  slot_fact x (duties_at slot action ++ D) (λ s, (counted s slot action + n s)%nat) row →
  ∃ x', a' !! slot = Some x' ∧
    slot_fact x' (dues slot left ++ D) (λ s, (tally s slot left + n s)%nat) row.
Proof.
  destruct left as [code spawned]. intros Hp Hwf Hreq Hx Hf.
  destruct action as [k p|k q|k s0 q|k|k s0|k|k s0|k s0 b|k b e|k s0 b id e p|k s0 b e
    |k s0 b l mode|k s0 b e l f|k s0 ev|s0 mode|c k s0|c k s0|c k s0 e|k s0|k s0 b e l f]; simpl in Hp.
  - destruct Hp as (-> & Hc & ->). exists x. split; [done|]. by eapply request_fact; [| |exact Hf].
  - destruct Hp as (-> & [[-> Hc]|(s1 & b & id & p & limit & Hn & -> & ->)]).
    + exists x. split; [done|]. by eapply request_fact; [| |exact Hf].
    + assert (s1 ≠ slot) as Hne by congruence. exists x. rewrite lookup_insert_ne by done.
      split; [done|]. eapply uncounted_fact; [|
|exact Hf]; [by apply uncounted_elsewhere|].
      repeat constructor; apply uncounted_elsewhere; cbn; congruence.
  - destruct Hp as (Hs & -> & ->). eapply submitted_fact; [exact Hs| | | | | |exact Hx|exact Hf];
      [apply request_not_claim|done|by destruct q|by intros []|by intros _; apply Hreq].
  - destruct Hp as (-> & Hc & ->). exists x. split; [done|]. by eapply request_fact; [| |exact Hf].
  - destruct Hp as (-> & Hc & ->). exists x. split; [done|]. by eapply request_fact; [| |exact Hf].
  - destruct Hp as (-> & Hc & ->). exists x. split; [done|]. by eapply request_fact; [| |exact Hf].
  - destruct Hp as (-> & [[-> ->]|(b & Hs & ->)]).
    + exists x. split; [done|]. by eapply request_fact; [| |exact Hf].
    + eapply submitted_fact; [exact Hs| | | | | |exact Hx|exact Hf];
        [by intros []|done|done|by intros []|by intros _; apply Hreq].
  - destruct Hp as (-> & -> & s1 & ev & rest & -> & -> & Hev & Hrest). exists x. split; [done|].
    eapply handed_fact; [| | |exact Hf]; [by intros []| |].
    + intros action' Hin s. simpl in Hin. rewrite app_nil_r in Hin.
      apply elem_of_cons in Hin as [->|Hin]; [by destruct s|].
      rewrite Forall_forall in Hrest. destruct (Hrest _ Hin) as (? & ? & ? & ->). by destruct s.
    + unfold dues, duties_of, left_codes. csimpl.
      assert (rest ≫= duties_at slot = []) as ->.
      { clear -Hrest. induction Hrest as [|? ? (? & ? & ? & ->)]; done. }
      rewrite !app_nil_r. unfold duties_at. cbn [about named owed]. by rewrite Hev.
  - destruct Hp as (-> & -> & ->). exists x. split; [done|]. by eapply fact_same.
  - destruct Hp as (-> & -> & Hc). exists x. split; [done|].
    destruct s0 as [s0|]; [destruct Hc as [failure ->]|subst code];
      (eapply handed_fact; [| | |exact Hf]; [by intros []| |by here]);
      intros action' Hin s; [|by apply elem_of_nil in Hin].
    simpl in Hin. apply list_elem_of_singleton in Hin as ->. by destruct s.
  - destruct Hp as (-> & -> & Hc). exists x. split; [done|].
    destruct s0 as [s0|]; [destruct Hc as (ev & -> & Hev)|subst code];
      (eapply handed_fact; [| | |exact Hf]; [by intros []| |]).
    + intros action' Hin s. simpl in Hin. apply list_elem_of_singleton in Hin as ->. by destruct s.
    + here. unfold duties_at. cbn [about named owed]. by rewrite Hev.
    + intros action' Hin. by apply elem_of_nil in Hin.
    + done.
  - destruct Hp as (-> & -> & Hc). exists x. split; [done|].
    destruct s0 as [s0|]; subst code;
      (eapply handed_fact; [| | |exact Hf]; [by intros []| |]).
    + intros action' Hin s. simpl in Hin. rewrite !elem_of_cons in Hin.
      destruct Hin as [->|[->|?%elem_of_nil]]; by destruct s.
    + here. done.
    + intros action' Hin. by apply elem_of_nil in Hin.
    + done.
  - destruct Hp as (-> & -> & mode & ->). exists x. split; [done|].
    eapply handed_fact; [| | |exact Hf]; [by intros []| |by here].
    intros action' Hin s. simpl in Hin. apply list_elem_of_singleton in Hin as ->. by destruct s.
  - destruct Hp as (Hs & -> & ->). eapply submitted_fact; [exact Hs| | | | | |exact Hx|exact Hf];
      [by apply owned_not_claim|done|done|by intros []|]. intros He. by destruct ev.
  - destruct Hp as (-> & -> & y & Hy & ->). destruct (decide (slot = s0)) as [->|Hne].
    + rewrite lookup_insert_eq. rewrite Hx in Hy. injection Hy as <-. eexists. split; [done|].
      apply (fact_same _ (Complete_retirement s0 mode)); [|done|done]. by destruct Hf as [m []]; exists m.
    + rewrite lookup_insert_ne by done. exists x. split; [done|].
      by apply (fact_same _ (Complete_retirement s0 mode)).
  - destruct Hp as (-> & y & Hy & -> & ->). destruct (decide (slot = s0)) as [->|Hne].
    + rewrite lookup_insert_eq. rewrite Hx in Hy. injection Hy as <-. eexists. split; [done|].
      rewrite duties_here in Hf by done.
      eapply (slot_fact_weaken _ D _ (λ s, (match s with
          Guard => if (acquire x).2 then 1 else 0 | _ => 0 end +
          (match s with ClosedFamily => if c then 1 else 0 | _ => 0 end + n s))%nat)).
      * destruct (acquire x).2; here; [by rewrite duties_here|done].
      * intros s Hs. destruct (acquire x).2; here; rewrite ?counted_here by done; by destruct s.
      * destruct (acquire x).2; here; rewrite ?counted_here by done; destruct c; simpl; lia.
      * apply fact_acquire. eapply slot_fact_perm; [| | |exact Hf]; [done| |done].
        intros s. cbn beta. rewrite counted_here by done. by destruct s.
    + rewrite lookup_insert_ne by done. exists x. split; [done|].
      eapply uncounted_fact; [| |exact Hf]; [apply uncounted_elsewhere; cbn; congruence|].
      destruct (acquire y).2; repeat constructor; apply uncounted_elsewhere; cbn; congruence.
  - destruct Hp as (-> & y & Hy & -> & ->). destruct (decide (slot = s0)) as [->|Hne].
    + rewrite lookup_insert_eq. rewrite Hx in Hy. injection Hy as <-. eexists. split; [done|].
      rewrite duties_here in Hf by done.
      assert (slot_fact x D (λ s, (match s with Guard => 1 | _ => 0 end +
        (match s with ClosedFamily => if c then 1 else 0 | _ => 0 end + n s))%nat) row) as Hf'.
      { eapply slot_fact_perm; [| | |exact Hf]; [done| |done].
        intros s. cbn beta. rewrite counted_here by done. by destruct s. }
      destruct (next x).2 as [e|] eqn:He.
      * eapply slot_fact_weaken; [| | |eapply fact_next_effect; [exact He|exact Hf']].
        -- here. by rewrite !duties_here, app_nil_r.
        -- intros s Hs. here. rewrite !counted_here by done. by destruct s.
        -- here. rewrite !counted_here by done. destruct c; simpl; lia.
      * eapply slot_fact_weaken; [| | |eapply fact_next_done; [exact He|exact Hf']].
        -- done.
        -- intros s Hs. here. by destruct s.
        -- here. destruct c; simpl; lia.
    + rewrite lookup_insert_ne by done. exists x. split; [done|].
      eapply uncounted_fact; [| |exact Hf]; [apply uncounted_elsewhere; cbn; congruence|].
      destruct (next y).2; repeat constructor; apply uncounted_elsewhere; cbn; congruence.
  - destruct Hp as (-> & -> & ->). exists x. split; [done|].
    destruct (decide (about (Interpret_effect c k s0 e : Act) = Some slot)) as [Ha|Ha].
    + destruct s0 as [s0|]; [|done]. cbn in Ha. injection Ha as ->.
      rewrite duties_here in Hf by done. cbn [owed] in Hf.
      destruct (fact_effect x e c D n row) as [Hstart Hf'].
      { eapply slot_fact_perm; [| | |exact Hf]; [done| |done].
        intros s. cbn beta. rewrite counted_here by done. by destruct s, c. }
      eapply slot_fact_perm; [| | |exact Hf']; [|intros s|done].
      * destruct e; try rewrite (Hstart _ eq_refl); cbn [effect_tasks]; here;
          by rewrite ?duties_here.
      * here. destruct e; cbn [effect_tasks]; try destruct c; here; rewrite ?counted_here by done; by destruct s.
    + eapply uncounted_fact; [| |exact Hf]; [by apply uncounted_elsewhere|].
      constructor; [done|]. destruct e; cbn [effect_tasks]; try destruct c; repeat constructor;
        by apply uncounted_elsewhere.
  - destruct Hp as (-> & y & Hy & -> & ->). destruct (decide (slot = s0)) as [->|Hne].
    + rewrite lookup_insert_eq. rewrite Hx in Hy. injection Hy as <-. eexists. split; [done|].
      rewrite duties_here in Hf by done.
      assert (slot_fact x D (λ s, (match s with Closing => 1 | _ => 0 end + n s)%nat) row) as Hf'.
      { eapply slot_fact_perm; [| | |exact Hf]; [done| |done].
        intros s. cbn beta. rewrite counted_here by done. by destruct s. }
      eapply slot_fact_perm; [| | |apply fact_close, Hf'].
      * destruct (slot_close_family x).2 as [[[[b e] l] f]|]; here; by rewrite !duties_here.
      * intros s. destruct (slot_close_family x).2 as [[[[b e] l] f]|]; here;
          rewrite !counted_here by done; by destruct s.
      * done.
    + rewrite lookup_insert_ne by done. exists x. split; [done|].
      eapply uncounted_fact; [| |exact Hf]; [apply uncounted_elsewhere; cbn; congruence|].
      destruct (slot_close_family y).2 as [[[[b e] l] f]|];
        repeat constructor; apply uncounted_elsewhere; cbn; congruence.
  - destruct Hp as (-> & -> & ->). exists x. split; [done|].
    eapply handed_fact; [| | |exact Hf]; [by intros []| |by here].
    intros action' Hin s. simpl in Hin. apply list_elem_of_singleton in Hin as ->. by destruct s.
Qed.
End local.

(** ** Every slot, every run without unwinding *)

(** Read the tallies of a few statements. *)
Ltac here := unfold dues, tally, duties_of, count_of, left_codes; cbn [fst snd];
  csimpl; rewrite ?app_nil_r.

Section family.
Context {P I C O E L X F TF : Type} `{Countable I} `{LocalEntityRuntime P I C O E L X F}
  (clone : E → option E) (hash_one : I → N).
Local Abbreviation Pending := (PendingCommand O C).
Local Abbreviation Rt := (Runtime P I C O E L F).
Local Abbreviation DirWorld := (World I Pending E L).
Local Abbreviation Act := (Action I C O E L X).
Local Abbreviation Code := (list Act).
Local Abbreviation RtWorld := (RuntimeWorld P I C O E L X F TF).
Implicit Types (w : RtWorld) (dw : DirWorld) (action : Act) (slot : SlotRef)
  (x : SlotExecution Pending E L) (l : list (Owner * Code)).

Definition world_duties w slot : list Duty := duties_of slot (threads w).*2.
Definition world_count w slot : Statement → nat := λ s, count_of s slot (threads w).*2.

Definition rest_duties slot (pre : list (Owner * Code)) (code : Code)
    (post : list (Owner * Code)) : list Duty :=
  duties_of slot pre.*2 ++ (code ≫= duties_at slot) ++ duties_of slot post.*2.
Definition rest_count slot (pre : list (Owner * Code)) (code : Code)
    (post : list (Owner * Code)) : Statement → nat :=
  λ s, (count_of s slot pre.*2 + sum_list_with (counted s slot) code + count_of s slot post.*2)%nat.

Lemma duties_of_app slot (l k : list Code) : duties_of slot (l ++ k) = duties_of slot l ++ duties_of slot k.
Proof. apply bind_app. Qed.
Lemma count_of_app s slot (l k : list Code) :
  count_of s slot (l ++ k) = (count_of s slot l + count_of s slot k)%nat.
Proof. apply sum_list_with_app. Qed.

Lemma tasks_of_codes (spawned : list Code) : (tasks_of spawned).*2 = spawned.
Proof. unfold tasks_of. induction spawned as [|c l IH]; [done|]. csimpl. by rewrite IH. Qed.

Lemma duties_before slot pre o action (code : Code) post :
  duties_of slot (pre ++ (o, action :: code) :: post : list (Owner * Code)).*2 ≡ₚ
    duties_at slot action ++ rest_duties slot pre code post.
Proof.
  unfold rest_duties. rewrite fmap_app, fmap_cons, duties_of_app. unfold duties_of at 2. csimpl.
  unfold duties_of. solve_Permutation.
Qed.

Lemma duties_after slot pre o (code : Code) post left :
  duties_of slot (pre ++ (o, left.1 ++ code) :: post ++ tasks_of left.2 : list (Owner * Code)).*2 ≡ₚ
    dues slot left ++ rest_duties slot pre code post.
Proof.
  unfold rest_duties, dues, left_codes.
  rewrite fmap_app, fmap_cons, fmap_app, tasks_of_codes, duties_of_app.
  unfold duties_of. csimpl. rewrite !bind_app. solve_Permutation.
Qed.

Lemma count_before s slot pre o action (code : Code) post :
  count_of s slot (pre ++ (o, action :: code) :: post : list (Owner * Code)).*2 =
    (counted s slot action + rest_count slot pre code post s)%nat.
Proof.
  unfold rest_count. rewrite fmap_app, fmap_cons, count_of_app. unfold count_of. csimpl. lia.
Qed.

Lemma count_after s slot pre o (code : Code) post left :
  count_of s slot (pre ++ (o, left.1 ++ code) :: post ++ tasks_of left.2 : list (Owner * Code)).*2 =
    (tally s slot left + rest_count slot pre code post s)%nat.
Proof.
  unfold rest_count, tally, left_codes.
  rewrite fmap_app, fmap_cons, fmap_app, tasks_of_codes, count_of_app.
  unfold count_of. csimpl. rewrite !sum_list_with_app. lia.
Qed.

Lemma uncounted_codes slot (l : list Code) :
  Forall (Forall (uncounted slot)) l → duties_of slot l = [] ∧ ∀ s, count_of s slot l = 0%nat.
Proof.
  intros Hl. pose proof (uncounted_left slot ([], l)) as Hu. unfold dues, tally, left_codes in Hu.
  destruct Hu as [Hd Hn]; [by constructor|]. split; [exact Hd|exact Hn].
Qed.

Record family_inv w : Prop := {
  fam_requests : ∀ t action, t ∈ threads w → action ∈ t.2 → is_request action → t.1 = ByCaller;
  fam_unlocked : admission (runtime w) = Admission_Closed → unlocked w;
  fam_stage : stage w ≠ Stage_Unclaimed → admission (runtime w) = Admission_Closed;
  fam_family : family w ≠ None → admission (runtime w) = Admission_Closed;
  fam_closing : ∀ t k slot, t ∈ threads w → Close_row k slot ∈ t.2 →
    admission (runtime w) = Admission_Closed;
  fam_claimant : ∀ code, (ByClaimant, code) ∈ threads w →
    admission (runtime w) = Admission_Closed;
  fam_slots : ∀ slot x, slots (runtime w) !! slot = Some x →
    slot_fact x (world_duties w slot) (world_count w slot) (slot ∈ (drained_rows w).*2);
  fam_rows : NoDup (drained_rows w).*2
}.

(** A slot that does not exist is in nobody's hands. *)
Lemma unknown_slot dw w slot :
  simulates hash_one dw w → slots (runtime w) !! slot = None →
  Forall (λ t, Forall (uncounted slot) t.2) (threads w) ∧ slot ∉ (drained_rows w).*2.
Proof.
  intros Hs Hn. assert (∀ k a, claims dw !! slot = Some (k, a) → False) as Hno.
  { intros k a Hc. pose proof (inv_arena _ _ (sim_inv _ _ _ Hs) slot (mk_is_Some _ _ Hc)) as Ha.
    rewrite (sim_directory _ _ _ Hs) in Ha. unfold slots in Hn. rewrite Hn in Ha. by destruct Ha. }
  split.
  - eapply Forall_impl; [apply Hs|]. intros t Ht. eapply Forall_impl; [exact Ht|].
    intros action [Hname _]. apply uncounted_elsewhere. unfold about.
    destruct (named action) as [[k s]|] eqn:Hk; [|done]. intros [= ->].
    destruct (Hname k slot eq_refl) as [a Ha]. by eapply Hno.
  - intros ([k s] & Heq & Hin)%list_elem_of_fmap. simpl in Heq. subst s.
    destruct (sim_rows _ _ _ Hs k slot Hin) as [a Ha]. by eapply Hno.
Qed.

Lemma action_requests action r r' next spawned :
  perform clone hash_one action r = (r', Some (next, spawned)) →
  (∀ action', action' ∈ next → is_request action' → is_request action) ∧
  (∀ action', action' ∈ mjoin spawned → ¬ is_request action') ∧
  (∀ k slot, Close_row k slot ∉ mjoin (next :: spawned)).
Proof.
  intros Hp. assert (returns (perform (F := F) (C := C) (L := L) clone hash_one action) (λ '(next, spawned),
    Forall (λ action', (is_request action' → is_request action) ∧ ∀ k slot, action' ≠ Close_row k slot) next ∧
    Forall (λ action', ¬ is_request action' ∧ ∀ k slot, action' ≠ Close_row k slot) (mjoin spawned))) as Hr.
  { clear. destruct action; open_perform; unfold locate, submit_to, perform_effect, interpret_code;
      returns_all; cbn; repeat case_match; rewrite ?Forall_app, ?Forall_cons, ?Forall_nil; cbn;
      try done; try split_and!; try done; try (apply Forall_map, Forall_true; done);
      try (by repeat constructor); by intros []. }
  specialize (Hr r). rewrite Hp in Hr. simpl in Hr. rewrite !Forall_forall in Hr.
  destruct Hr as [Hn Hs]. split_and!.
  - intros a Ha. by apply Hn.
  - intros a Ha. by apply Hs.
  - intros k slot. simpl. intros [Hin|Hin]%elem_of_app; [by destruct (Hn _ Hin) as [_ Hc]; destruct (Hc k slot)|].
    by destruct (Hs _ Hin) as [_ Hc]; destruct (Hc k slot).
Qed.

(** *** What no action changes *)

Definition keeps {A B} (f : Rt → B) (m : Op Rt A) : Prop := ∀ r, f (m r).1 = f r.

Lemma keeps_bind {A A' B} (f : Rt → B) (m : Op Rt A) (k : A → Op Rt A') :
  keeps f m → (∀ a, keeps f (k a)) → keeps f (m ≫= k).
Proof.
  intros Hm Hk r. rewrite Op_bind_eq. specialize (Hm r). destruct (m r) as [r' [a|]]; [|done].
  simpl in Hm. by rewrite Hk.
Qed.

Lemma keeps_admission_slot {A} slot (op : SlotExecution Pending E L → SlotExecution Pending E L * option A) :
  keeps admission (on_slot slot op).
Proof. intros r. unfold on_slot. destruct (_ !! _); [by destruct (op _)|done]. Qed.
Lemma keeps_admission_routes {A} (op : Op (LocalDirectory I Pending E L) A) :
  keeps admission (on_routes op).
Proof. intros r. unfold on_routes. by destruct (op _). Qed.
Lemma keeps_admission_port {A} (op : Op P A) : keeps admission (on_port op).
Proof. intros r. unfold on_port. by destruct (op _). Qed.

Lemma perform_admission action r : admission (perform clone hash_one action r).1 = admission r.
Proof.
  revert r. change (keeps admission (perform clone hash_one action)).
  destruct action; open_perform; unfold locate, submit_to, perform_effect, answer_request;
    repeat first
      [ apply keeps_bind; [|intros]
      | apply keeps_admission_slot | apply keeps_admission_routes | apply keeps_admission_port
      | match goal with |- keeps _ (match ?x with _ => _ end) => destruct x end
      | by intros ? ].
Qed.

(** *** The steps *)

(** A step that changes no slot, no row and no statement. *)
Lemma family_quiet w w' :
  family_inv w → slots (runtime w') = slots (runtime w) → threads w' = threads w →
  family w' = family w →
  (admission (runtime w') = admission (runtime w) ∨
   (admission (runtime w') = Admission_Closed ∧ unlocked w)) →
  (stage w' ≠ Stage_Unclaimed → admission (runtime w') = Admission_Closed) →
  family_inv w'.
Proof.
  intros [Hr Hu Hst Hf Hc Ho Hs Hn] Hsl Ht Hfam Ha Hst'.
  assert (admission (runtime w) = Admission_Closed → admission (runtime w') = Admission_Closed) as Hmono.
  { destruct Ha as [->|[-> _]]; done. }
  split; unfold world_duties, world_count, drained_rows, unlocked in *; rewrite ?Hsl, ?Ht, ?Hfam; auto.
  - destruct Ha as [->|[_ Hunl]]; auto.
  - intros t k slot Hin Hcl. by eapply Hmono, Hc.
  - intros code Hin. by eapply Hmono, Ho.
Qed.

Lemma codes_uncounted slot l :
  Forall (λ t, Forall (uncounted slot) t.2) l → Forall (Forall (uncounted slot)) l.*2.
Proof. by rewrite Forall_fmap. Qed.

(** A caller arrives with a request. *)
Lemma family_call w w' action :
  family_inv w → admission (runtime w) = Admission_Open → is_request action →
  slots (runtime w') = slots (runtime w) → admission (runtime w') = admission (runtime w) →
  threads w' = (ByCaller, [action]) :: threads w → stage w' = stage w → family w' = family w →
  family_inv w'.
Proof.
  intros [Hr Hu Hst Hf Hc Ho Hs Hn] Hopen Hreq Hsl Ha Ht Hstage Hfam.
  split; rewrite ?Hstage, ?Hfam, ?Ha; auto.
  - rewrite Ht. intros t a [->|Hin]%elem_of_cons Hact Ha'; [done|by eapply Hr].
  - congruence.
  - rewrite Ht. intros t k slot [->|Hin]%elem_of_cons Hact; [|by eapply Hc].
    apply list_elem_of_singleton in Hact as <-. done.
  - rewrite Ht. intros code [?|Hin]%elem_of_cons; [done|by eapply Ho].
  - intros slot x. rewrite Hsl. intros Hx. specialize (Hs slot x Hx).
    unfold world_duties, world_count, drained_rows in *. rewrite Ht, Hfam.
    destruct (uncounted_request slot action Hreq) as [Hd Hz].
    eapply slot_fact_perm; [| | |exact Hs]; [|intros s|done].
    + unfold duties_of. csimpl. by rewrite Hd.
    + unfold count_of. csimpl. by rewrite Hz.
  - unfold drained_rows in *. by rewrite Hfam.
Qed.

(** Counted statements are there. *)
Lemma counted_somewhere s slot (l : list Code) :
  count_of s slot l ≠ 0%nat → ∃ code action, code ∈ l ∧ action ∈ code ∧
    about action = Some slot ∧ states s action = true.
Proof.
  unfold count_of. induction l as [|code l IH]; csimpl; [done|]. intros Hn.
  destruct (decide (sum_list_with (counted s slot) code = 0%nat)) as [Hz|Hnz].
  - destruct IH as (c & a & Hc & Ha & Hs); [lia|]. exists c, a. split_and!; [by right|done|apply Hs..].
  - clear IH Hn. induction code as [|a code IH]; csimpl in *; [done|].
    destruct (decide (counted s slot a = 0%nat)) as [Hz|Ha].
    + destruct IH as (c & a' & Hc & Ha' & Hs); [lia|].
      apply elem_of_cons in Hc as [->|Hc]; [exists (a :: code), a'|exists c, a'];
        (split_and!; [set_solver|set_solver|apply Hs..]).
    + unfold counted in Ha. case_decide; [|done]. destruct (states s a) eqn:Hs; [|done].
      exists (a :: code), a. split_and!; [by left|by left|done..].
Qed.

Lemma closing_admission w slot :
  family_inv w → admission (runtime w) = Admission_Open →
  world_count w slot Closing = 0%nat ∧ slot ∉ (drained_rows w).*2.
Proof.
  intros Hinv Hopen. split.
  - destruct (decide (world_count w slot Closing = 0%nat)) as [|Hn]; [done|].
    apply counted_somewhere in Hn as (code & a & Hin & Ha & _ & Hs).
    apply list_elem_of_fmap in Hin as (t & -> & Hin). destruct a; try done.
    by rewrite (fam_closing _ Hinv t k slot0 Hin Ha) in Hopen.
  - unfold drained_rows. pose proof (fam_family _ Hinv) as Hf.
    destruct (family w); [by rewrite Hf in Hopen|]. intros Hin. by apply elem_of_nil in Hin.
Qed.

(** Only a claim makes a slot. *)
Lemma performed_new action (a a' : gmap SlotRef (SlotExecution Pending E L)) left slot x' :
  performed clone action a a' left → a !! slot = None → a' !! slot = Some x' →
  ∃ k b id p limit, x' = (submit clone Slot_new (Event_ClaimActivation b id p limit)).1 ∧
    left = ([Interpret_slot false k slot], []).
Proof.
  destruct left as [code spawned]. intros Hp Hn Hs.
  assert (∀ s y, a !! s = Some y → ∀ z, a' ≠ <[s := z]> a) as Hold.
  { intros s y Hy z ->. apply lookup_insert_Some in Hs as [[<- _]|[_ ?]]; congruence. }
  assert (a' ≠ a) as Hne by (intros ->; congruence).
  assert (∀ event s, ¬ submitted clone event s a a') as Hsub.
  { intros event s (y & m & d & cell & Hy & _ & _ & ->). by eapply Hold. }
  destruct action as [k p|k q|k s0 q|k|k s0|k|k s0|k s0 b|k b e|k s0 b id e p|k s0 b e
    |k s0 b l mode|k s0 b e l f|k s0 ev|s0 mode|c k s0|c k s0|c k s0 e|k s0|k s0 b e l f]; simpl in Hp.
  1,3-20: exfalso; naive_solver.
  destruct Hp as [-> [[-> _]|(s1 & b & id & p & limit & Hs1 & -> & ->)]]; [done|].
  apply lookup_insert_Some in Hs as [[-> <-]|[_ ?]]; [|congruence]. eauto 10.
Qed.

Lemma fresh_fact (k : I) b id (p : Pending) limit slot (n : Statement → nat) (row : Prop) :
  (∀ s, n s = 0%nat) → ¬ row →
  slot_fact (L := L) (submit clone Slot_new (Event_ClaimActivation b id p limit)).1
    (dues slot ([Interpret_slot false k slot : Act], []) ++ [])
    (λ s, (tally s slot ([Interpret_slot false k slot : Act], []) + n s)%nat) row.
Proof.
  intros Hn Hrow. rewrite claimed_slot_ok. cbn [fst].
  exists (Slot_Activating (Build_ActivatingSlot b [Build_ActivationWaiter id p] limit)).
  assert (∀ s, tally s slot ([Interpret_slot false k slot : Act], []) =
    match s with Interpretation => 1 | _ => 0 end) as Ht.
  { intros s. here. rewrite counted_here by done. by destruct s. }
  split; cbn [slot_state pending DirectorySlot.dispatch set_pending set_slot_state Slot_new];
    rewrite ?Ht, ?Hn; try done.
  - here. by rewrite duties_here.
  - right; right; lia.
Qed.

Lemma family_perform dw w pre o action (code : Code) post r next spawned :
  custody_inv w → simulates hash_one dw w → family_inv w →
  threads w = pre ++ (o, action :: code) :: post →
  perform clone hash_one action (runtime w) = (r, Some (next, spawned)) →
  family_inv (with_threads r (pre ++ (o, next ++ code) :: post ++ tasks_of spawned) w).
Proof.
  intros Hcust Hsim Hinv Ht Hp. pose proof (custody_wf _ Hcust) as Hwf. rewrite Ht in Hwf.
  apply Forall_app in Hwf as [_ [[Hwf _]%Forall_cons _]%Forall_cons].
  pose proof (perform_admission action (runtime w)) as Hadm. rewrite Hp in Hadm. simpl in Hadm.
  pose proof (action_requests _ _ _ _ _ Hp) as (Hreq & Htask & Hclosing).
  pose proof (perform_performed clone hash_one _ _ _ _ Hp) as Hperf.
  pose proof Hinv as [Hr Hu Hst Hf Hc Ho Hs Hn].
  assert (Hold : ∀ t, t ∈ pre ∨ t ∈ post → t ∈ threads w) by (rewrite Ht; set_solver).
  assert (Hme : (o, action :: code) ∈ threads w) by (rewrite Ht; set_solver).
  assert (Hnew : ∀ t a, t ∈ pre ++ (o, next ++ code) :: post ++ tasks_of spawned → a ∈ t.2 →
    (∃ t', t' ∈ threads w ∧ a ∈ t'.2 ∧ t'.1 = t.1) ∨
    t.1 = o ∧ a ∈ next ∨ t.1 = ByTask ∧ a ∈ mjoin spawned).
  { intros t a Hin Ha. rewrite !elem_of_app, elem_of_cons, elem_of_app in Hin.
    destruct Hin as [Hin|[->|[Hin|Hin]]]; [left; exists t; auto| |left; exists t; auto|].
    - simpl in Ha. apply elem_of_app in Ha as [Ha|Ha]; [by right; left|].
      left. exists (o, action :: code). split_and!; [done|by right|done].
    - right; right. unfold tasks_of in Hin. apply list_elem_of_fmap in Hin as (c & -> & Hin).
      simpl in Ha. split; [done|]. apply list_elem_of_join; eauto. }
  split; cbn [runtime threads stage family with_threads]; rewrite ?Hadm; auto.
  - intros t a Hin Ha Hra. destruct (Hnew t a Hin Ha) as [(t' & Hin' & Ha' & <-)|[[-> Hj]|[_ Hj]]].
    + by eapply Hr.
    + eapply (Hr _ action Hme); [by left|]. by apply (Hreq a).
    + by destruct (Htask a Hj).
  - intros Hcl c. cbn [threads with_threads]. rewrite !elem_of_app, elem_of_cons, elem_of_app.
    intros [Hin|[[= <- _]|[Hin|Hin]]]; [by apply (Hu Hcl c), Hold; left|by apply (Hu Hcl (action :: code))
      |by apply (Hu Hcl c), Hold; right|].
    unfold tasks_of in Hin. apply list_elem_of_fmap in Hin as (? & ? & _). done.
  - intros t k slot Hin Ha. destruct (Hnew t _ Hin Ha) as [(t' & Hin' & Ha' & _)|Hj]; [by eapply Hc|].
    exfalso. apply (Hclosing k slot). simpl. apply elem_of_app. naive_solver.
  - intros c. rewrite !elem_of_app, elem_of_cons, elem_of_app.
    intros [Hin|[[= <- _]|[Hin|Hin]]]; [by apply (Ho c), Hold; left|by apply (Ho (action :: code))
      |by apply (Ho c), Hold; right|].
    unfold tasks_of in Hin. apply list_elem_of_fmap in Hin as (? & ? & _). done.
  - intros slot x' Hx'. unfold world_duties, world_count. cbn [threads with_threads].
    assert (Hslot : ∃ x', slots r !! slot = Some x' ∧ slot_fact x' (dues slot (next, spawned) ++ rest_duties slot pre code post)
      (λ s, (tally s slot (next, spawned) + rest_count slot pre code post s)%nat) (slot ∈ (drained_rows w).*2)).
    { destruct (slots (runtime w) !! slot) as [x|] eqn:Hx.
      - eapply performed_fact; [exact Hperf|exact Hwf| |exact Hx|].
        + intros Hra. assert (o = ByCaller) as -> by (eapply (Hr _ action Hme); [by left|done]).
          destruct (admission (runtime w)) eqn:Hopen; [|by destruct (Hu eq_refl (action :: code))].
          destruct (closing_admission w slot Hinv Hopen) as [Hz Hrow]. split; [|done].
          unfold world_count in Hz. rewrite Ht, count_before in Hz. lia.
        + eapply slot_fact_perm; [| | |exact (Hs slot x Hx)]; [|intros s|done].
          * unfold world_duties. rewrite Ht. apply duties_before.
          * unfold world_count. rewrite Ht. apply count_before.
      - exists x'. split; [done|].
        destruct (unknown_slot dw w slot Hsim Hx) as [Hunc Hrow].
        destruct (uncounted_codes slot (threads w).*2) as [Hd Hz]; [by apply codes_uncounted|].
        destruct (performed_new _ _ _ _ _ _ Hperf Hx Hx') as (k & b & id & p & limit & -> & Hleft).
        rewrite Hleft. assert (rest_duties slot pre code post = []) as ->.
        { rewrite Ht in Hd. pose proof (duties_before slot pre o action code post) as Hb.
          rewrite Hd in Hb. symmetry in Hb. by apply Permutation_nil_r, app_nil in Hb as [_ ?]. }
        apply fresh_fact; [|done]. intros s. specialize (Hz s). rewrite Ht, count_before in Hz. lia. }
    destruct Hslot as (y & Hy & Hfact). rewrite Hx' in Hy. injection Hy as <-.
    eapply slot_fact_perm; [| | |exact Hfact]; [|intros s|done].
    + symmetry. apply (duties_after slot pre o code post (next, spawned)).
    + symmetry. apply (count_after s slot pre o code post (next, spawned)).
Qed.

(** Nobody runs: the slots wait for nothing. *)
Lemma idle_slot w slot x :
  family_inv w → threads w = [] → slots (runtime w) !! slot = Some x →
  ∃ machine, slot_state x = SlotState_Ready machine ∧ machine_duties machine = [] ∧ pending x = [] ∧
    DirectorySlot.dispatch x = Idle ∧ (slot ∈ (drained_rows w).*2 → is_closed machine).
Proof.
  intros Hinv Ht Hx. destruct (fam_slots _ Hinv slot x Hx) as [m [Hs Hd Hg Hp _ _ Hr]].
  unfold world_duties, world_count in *. rewrite Ht in *. simpl in *.
  destruct Hp as [Hp|[?|?]]; [|done..]. rewrite Hp in Hd. exists m. split_and!; try done.
  - by apply Permutation_nil_r.
  - by destruct (DirectorySlot.dispatch x).
  - intros Hin. by destruct (Hr Hin).
Qed.

Lemma close_rows_count rows slot :
  NoDup rows.*2 →
  duties_of slot [close_rows rows : Code] = [] ∧
  (∀ s, count_of s slot [close_rows rows : Code] =
     match s with Closing => if decide (slot ∈ rows.*2) then 1 else 0 | _ => 0 end).
Proof.
  intros Hnd. unfold duties_of, count_of. csimpl. rewrite app_nil_r. setoid_rewrite Nat.add_0_r.
  induction rows as [|[k s0] rows IH]; csimpl in *.
  - split; [done|]. by intros [].
  - apply NoDup_cons in Hnd as [Hni Hnd]. destruct (IH Hnd) as [IHd IHc]. clear IH.
    destruct (decide (slot = s0)) as [->|Hne].
    + rewrite duties_here, IHd by done. split; [done|]. intros s. specialize (IHc s).
      rewrite counted_here by done. rewrite decide_True by set_solver.
      destruct s; simpl in *; rewrite ?decide_False in IHc by done; lia.
    + rewrite duties_elsewhere, IHd by (cbn; congruence). split; [done|]. intros s. specialize (IHc s).
      rewrite counted_elsewhere by (cbn; congruence).
      rewrite IHc. destruct s; try done. by repeat case_decide; set_solver.
Qed.

Lemma drained_nodup dw w r rows :
  simulates hash_one dw w → family_inv w → record_drain w = (r, rows) → NoDup rows.*2.
Proof.
  intros Hs Hinv Hrec. pose proof (fam_rows _ Hinv) as Hn. unfold record_drain, drained_rows in *.
  destruct (family w); [by injection Hrec as <- <-|]. unfold take_family in Hrec.
  injection Hrec as <- <-. rewrite <- (sim_directory _ _ _ Hs).
  pose proof (sim_inv _ _ _ Hs) as Hi.
  rewrite (entries_permutation hash_one) by apply Hi.
  apply NoDup_fmap_2_strong; [|apply NoDup_map_to_list].
  intros [k1 s1] [k2 s2] H1%elem_of_map_to_list H2%elem_of_map_to_list Heq. simpl in Heq. subst s2.
  destruct (inv_mapped _ _ Hi _ _ H1) as [a1 Ha1], (inv_mapped _ _ Hi _ _ H2) as [a2 Ha2]. congruence.
Qed.

Lemma family_drain dw w r rows :
  simulates hash_one dw w → family_inv w → stage w = Stage_Waiting false → threads w = [] →
  record_drain w = (r, rows) →
  family_inv {| runtime := r; threads := [(ByClaimant, close_rows rows)];
    stage := Stage_Interpreting; family := Some rows |}.
Proof.
  intros Hsim Hinv Hst Ht Hrec. pose proof (drained_nodup _ _ _ _ Hsim Hinv Hrec) as Hnd.
  pose proof (fam_stage _ Hinv) as Hadm. rewrite Hst in Hadm. specialize (Hadm ltac:(done)).
  assert (slots r = slots (runtime w) ∧ admission r = admission (runtime w)) as [Hsl Ha].
  { unfold record_drain, take_family in Hrec. destruct (family w); by injection Hrec as <- _. }
  split; cbn [runtime threads stage family]; rewrite ?Ha; try done.
  - intros t a ->%list_elem_of_singleton Hin. simpl in Hin.
    apply list_elem_of_fmap in Hin as (row & -> & _). done.
  - intros _ code. cbn. by intros ?%list_elem_of_singleton.
  - rewrite Hsl. intros slot x Hx.
    destruct (idle_slot w slot x Hinv Ht Hx) as (m & Hm & Hd & Hp & Hi & _).
    destruct (close_rows_count rows slot Hnd) as [Hdu Hco].
    exists m. unfold world_duties, world_count, drained_rows. cbn [threads family fmap list_fmap snd default].
    split; rewrite ?Hco; try done.
    + by rewrite Hd, Hp, Hdu.
    + by rewrite Hi.
    + by left.
    + intros Hin. split; [|done]. by case_decide.
    + intros Hin. left. by rewrite decide_True.
Qed.

Lemma runtime_step_family dw w w' :
  custody_inv w → simulates hash_one dw w → family_inv w → runtime_step clone hash_one w w' →
  unwound (ledger (runtime w')) = false → family_inv w'.
Proof.
  intros Hcust Hsim Hinv Hstep Hun. destruct Hstep.
  - by apply (family_call w _ (Dispatch k pending)).
  - apply (family_call w _ action); try done. by destruct H3.
  - apply (family_quiet w); [done..|by left|apply Hinv].
  - apply (family_quiet w); [done..|by left|apply Hinv].
  - by eapply family_perform.
  - done.
  - done.
  - assert (∀ t, t ∈ pre ++ post → t ∈ threads w) as Hold by (rewrite H1; set_solver).
    assert (∀ slot, duties_of slot (pre ++ post).*2 = world_duties w slot) as Hd.
    { intros slot. unfold world_duties. rewrite H1, !fmap_app, fmap_cons, !duties_of_app. done. }
    assert (∀ slot s, count_of s slot (pre ++ post).*2 = world_count w slot s) as Hc.
    { intros slot s. unfold world_count. rewrite H1, !fmap_app, fmap_cons, !count_of_app. done. }
    destruct Hinv as [Hr Hu Hst Hf Hcl Hbc Hs Hn]. split; cbn [runtime threads stage family with_stage]; auto.
    + intros t action Hin. by apply Hr, Hold.
    + intros Hclosed code Hin. by apply (Hu Hclosed code), Hold.
    + case_decide as Ho; [|done]. intros _. apply (Hbc []). rewrite H1, <- Ho. set_solver.
    + intros t k slot Hin. by apply Hcl, Hold.
    + intros code Hin. by apply (Hbc code), Hold.
    + intros slot x Hx. unfold world_duties, world_count. cbn [threads with_stage].
      eapply slot_fact_perm; [| | |exact (Hs slot x Hx)]; [by rewrite Hd|intros s; by rewrite Hc|done].
  - apply (family_quiet w); [done..|by right|done].
  - apply (family_quiet w); [done..|by left|done].
  - by eapply family_drain.
  - exfalso. apply existsb_exists in H4 as ([k slot] & Hin & Hp). unfold row_pending in Hp. simpl in Hp.
    destruct (arena (routes (runtime w)) !! slot) as [x|] eqn:Hx; [|done].
    destruct (idle_slot w slot x Hinv H2 Hx) as (m & _ & _ & Hq & _). unfold has_pending in Hp.
    by rewrite Hq in Hp.
  - apply (family_quiet w); [done|done|by rewrite H2|done|by left|]. intros _. apply Hinv. by rewrite H1.
  - apply (family_quiet w); [done..|by left|done].
Qed.

(** *** Runs *)

Lemma unwound_step w w' :
  custody_inv w → runtime_step clone hash_one w w' →
  unwound (ledger (runtime w')) = false → unwound (ledger (runtime w)) = false.
Proof.
  intros Hcust Hstep. revert Hcust.
  destruct Hstep as [| | | |w0 pre o action code post r next spawned Ht Hp| | | | | |w0 r rows _ _ Hrec| | |];
    intros Hcust; try done.
  - pose proof (custody_wf _ Hcust) as Hwf. rewrite Ht in Hwf.
    apply Forall_app in Hwf as [_ [[Hwf _]%Forall_cons _]%Forall_cons].
    pose proof (perform_conserves clone hash_one (runtime w0) action Hwf) as Hc.
    unfold conserves_at in Hc. rewrite Hp in Hc. destruct Hc as [[Hu _] _]. simpl. by rewrite Hu.
  - unfold record_drain, take_family in Hrec. by destruct (family w0); injection Hrec as <- _.
Qed.

Lemma family_init config d p :
  with_hasher config = Some d → family_inv (runtime_init d p : RtWorld).
Proof.
  intros Hd. split; try done; cbn [threads runtime_init].
  - intros t action Ht. by apply elem_of_nil in Ht.
  - intros t k slot Ht. by apply elem_of_nil in Ht.
  - intros code Ht. by apply elem_of_nil in Ht.
  - intros slot x. unfold with_hasher in Hd. case_match; [done|]. by injection Hd as <-.
  - constructor.
Qed.

(** What every run without a panic satisfies. *)
Definition orderly dw w : Prop := custody_inv w ∧ simulates hash_one dw w ∧ family_inv w.

(** Induction on the runs in which nobody unwinds. *)
Lemma orderly_ind p limit config (Q : RtWorld → Prop) w :
  DirectoryConfig_new p limit = Ok config → runtime_reachable clone hash_one config w →
  unwound (ledger (runtime w)) = false →
  (∀ d port, with_hasher config = Some d → Q (runtime_init d port)) →
  (∀ dw w1 w2, orderly dw w1 → runtime_step clone hash_one w1 w2 →
     unwound (ledger (runtime w2)) = false → Q w1 → Q w2) →
  (∃ dw, orderly dw w) ∧ Q w.
Proof.
  intros Hc (d & port & Hd & Hrun) Hun H0' Hstep.
  assert (∀ w', rtc (runtime_step clone hash_one) (runtime_init d port) w' →
    unwound (ledger (runtime w')) = false → (∃ dw, orderly dw w') ∧ Q w') as Hall.
  { intros w' Hrun'. pattern w'. revert w' Hrun'. apply rtc_ind_r.
    - intros _. split; [|by eauto].
      assert (runtime_reachable clone hash_one config (runtime_init d port : RtWorld)) as Hr by by exists d, port.
      destruct (reachable_simulates _ _ _ _ _ _ Hc Hr) as (dw & _ & Hs).
      exists dw. split_and!; [by eapply reachable_custody|done|by eapply family_init].
    - intros w1 w2 Hrun1 Hs12 IH Hun2.
      assert (custody_inv w1) as Hcust by (eapply reachable_custody; by exists d, port).
      destruct (IH (unwound_step _ _ Hcust Hs12 Hun2)) as [(dw & Ho) HQ].
      split; [|by eapply Hstep]. destruct Ho as (_ & Hsim & Hfam).
      destruct (runtime_step_simulates _ _ _ _ _ Hcust Hsim Hs12) as (dw2 & _ & Hsim2).
      exists dw2. split_and!; [by eapply runtime_step_custody|done|by eapply runtime_step_family]. }
  by apply Hall.
Qed.

Lemma reachable_orderly p limit config w :
  DirectoryConfig_new p limit = Ok config → runtime_reachable clone hash_one config w →
  unwound (ledger (runtime w)) = false → ∃ dw, orderly dw w.
Proof. intros Hc Hr Hun. by eapply (orderly_ind _ _ _ (λ _, True)). Qed.

(** C29: no incarnation is forgotten.  As long as no task and no caller has
    unwound, what the machine of any slot waits for (its activation, its
    deliveries, its fence, its termination) is exactly, each one once, what its
    queue still holds and what the threads are about to submit to it, whatever
    they interleave; and a queue that is not empty is being interpreted, or will
    be by a thread that is on its way. *)
Theorem duties_are_covered p limit config w :
  DirectoryConfig_new p limit = Ok config → runtime_reachable clone hash_one config w →
  unwound (ledger (runtime w)) = false →
  ∀ slot x, arena (routes (runtime w)) !! slot = Some x →
  ∃ machine, slot_state x = SlotState_Ready machine ∧
    machine_duties machine ≡ₚ (pending x ≫= effect_duties) ++ world_duties w slot ∧
    (pending x = [] ∨ ∃ t action, t ∈ threads w ∧ action ∈ t.2 ∧ about action = Some slot ∧
       (states Guard action ∨ states Interpretation action)).
Proof.
  intros Hc Hr Hun slot x Hx. destruct (reachable_orderly _ _ _ _ Hc Hr Hun) as (dw & _ & _ & Hfam).
  destruct (fam_slots _ Hfam slot x Hx) as [m [Hs Hd _ Hp _ _ _]]. exists m. split_and!; [done..|].
  destruct Hp as [Hp|Hp]; [by left|right].
  destruct Hp as [Hp|Hp]; apply counted_somewhere in Hp as (code & a & Hin & Ha & Hab & Hst);
    apply list_elem_of_fmap in Hin as (t & -> & Hin); exists t, a; rewrite Hst; eauto.
Qed.
End family.

(** Two deliveries in flight: the machine waits for both. *)
Lemma duties_are_covered_witness :
  world_duties delivering_world 1 = [Duty_deliver (ActivationId_new 1); Duty_deliver (ActivationId_new 1)] ∧
  ∀ slot x, arena (routes (runtime delivering_world)) !! slot = Some x →
  ∃ machine, slot_state x = SlotState_Ready machine ∧
    machine_duties machine ≡ₚ (pending x ≫= effect_duties) ++ world_duties delivering_world slot ∧
    (pending x = [] ∨ ∃ t action, t ∈ threads delivering_world ∧ action ∈ t.2 ∧
       about action = Some slot ∧ (states Guard action ∨ states Interpretation action)).
Proof.
  split; [by vm_compute|].
  apply (duties_are_covered copy_endpoint identity_hash 4 2 small_config); [done| |done].
  apply scenario_reachable, delivering_scenario.
Defined.
