(* ===== verification/EntityProgress.v ===== *)
(** * Progress of the entity runtime: nothing of its own panics

    In a run in which no thread has unwound, a statement can only panic where it
    calls the user's code or where a slot counts [usize::MAX] reservations: none
    of the indices, [expect]s and [unreachable]s of [entity/runtime.rs] and
    [entity/directory.rs] is hit, and effects always have their slot. *)

From S2P Require Import Prelude Lifecycle DirectorySlot Directory EntityRuntime EntityExample.
From S2P Require Import EntityCustody EntityRefinement EntityDuties EntityFamily.

Section placed.
Context {P I C O E L X F TF : Type} `{Countable I} `{LocalEntityRuntime P I C O E L X F}
  (clone : E → option E) (hash_one : I → N).
Local Abbreviation Pending := (PendingCommand O C).
Local Abbreviation Rt := (Runtime P I C O E L F).
Local Abbreviation Act := (Action I C O E L X).
Local Abbreviation Code := (list Act).
Local Abbreviation Slots := (gmap SlotRef (SlotExecution Pending E L)).
Local Abbreviation RtWorld := (RuntimeWorld P I C O E L X F TF).
Implicit Types (action : Act) (slot : SlotRef) (x : SlotExecution Pending E L) (a : Slots)
  (r : Rt) (w : RtWorld).

(** An effect and its tasks have their slot. *)
Definition placed a action : Prop :=
  match action with
  | Activate _ slot _ | Deliver _ slot _ _ _ _ | Fence _ slot _ _ | Retire _ slot _ _ _
  | Interpret_effect _ _ slot _ => is_Some slot
  | Complete_retirement slot _ => is_Some (a !! slot)
  | _ => True
  end.

Lemma placed_grows a a' action :
  (∀ slot, is_Some (a !! slot) → is_Some (a' !! slot)) → placed a action → placed a' action.
Proof. intros Hg. destruct action; simpl; auto. Qed.

Lemma performed_grows action a a' left slot :
  performed clone action a a' left → is_Some (a !! slot) → is_Some (a' !! slot).
Proof.
  assert (∀ s y (b : Slots), is_Some (b !! slot) → is_Some (<[s := y]> b !! slot)) as Hins.
  { intros s y b Hb. destruct (decide (s = slot)) as [->|Hne]; [rewrite lookup_insert_eq; eauto|].
    by rewrite lookup_insert_ne. }
  assert (∀ event s, submitted clone event s a a' → is_Some (a !! slot) → is_Some (a' !! slot)) as Hsub.
  { intros event s (y & m & d & cell & _ & _ & _ & ->). apply Hins. }
  destruct left as [next spawned]. destruct action; simpl; naive_solver.
Qed.

Lemma performed_placed action a a' next spawned :
  performed clone action a a' (next, spawned) → placed a action →
  (∀ k slot, named action = Some (k, slot) → is_Some (a !! slot)) →
  Forall (placed a') next ∧ Forall (Forall (placed a')) spawned.
Proof.
  intros Hp Hpl Hn. assert (∀ code : Code, Forall is_request code → Forall (placed a') code) as Hreq.
  { intros code Hc. eapply Forall_impl; [exact Hc|]. by intros []. }
  destruct action as [k p|k q|k s0 q|k|k s0|k|k s0|k s0 b|k b e|k s0 b id e p|k s0 b e
    |k s0 b l mode|k s0 b e l f|k s0 ev|s0 mode|c k s0|c k s0|c k s0 e|k s0|k s0 b e l f]; simpl in Hp, Hpl.
  - destruct Hp as (_ & Hc & ->). auto.
  - destruct Hp as (-> & [[_ Hc]|(? & ? & ? & ? & ? & _ & _ & ->)]); [auto|]. by repeat constructor.
  - destruct Hp as (_ & -> & ->). by repeat constructor.
  - destruct Hp as (_ & Hc & ->). auto.
  - destruct Hp as (_ & Hc & ->). auto.
  - destruct Hp as (_ & Hc & ->). auto.
  - destruct Hp as (-> & [[_ ->]|(b & _ & ->)]); by repeat constructor.
  - destruct Hp as (_ & -> & s & ev & rest & _ & -> & _ & Hrest). split; [|done].
    constructor; [done|]. eapply Forall_impl; [exact Hrest|]. by intros ? (? & ? & ? & ->).
  - destruct Hp as (_ & -> & ->). done.
  - destruct Hp as (_ & -> & Hc). destruct s0 as [s0|]; [destruct Hc as [f ->]|subst next];
      by repeat constructor.
  - destruct Hp as (_ & -> & Hc). destruct s0 as [s0|]; [destruct Hc as (ev & -> & _)|subst next];
      by repeat constructor.
  - destruct Hp as (Ha & -> & Hc). destruct s0 as [s0|]; [|by destruct Hpl]. subst next a'.
    split; [|done]. repeat constructor. simpl. by apply (Hn k).
  - destruct Hp as (_ & -> & mode & ->). split; [|done]. repeat constructor. by eexists.
  - destruct Hp as (_ & -> & ->). by repeat constructor.
  - destruct Hp as (-> & -> & _). done.
  - destruct Hp as (-> & y & _ & _ & ->). destruct (acquire y).2; by repeat constructor.
  - destruct Hp as (-> & y & _ & _ & ->). destruct (DirectorySlot.next y).2; [|done].
    split; [|done]. repeat constructor. by eexists.
  - destruct Hp as (_ & -> & ->). split; [done|]. destruct e; simpl; try destruct c; by repeat constructor.
  - destruct Hp as (-> & y & _ & _ & ->). destruct (slot_close_family y).2 as [[[[? ?] ?] ?]|];
      by repeat constructor.
  - destruct Hp as (_ & -> & ->). split; [done|]. by repeat constructor.
Qed.

(** ** Where a statement can panic *)

Definition full x : Prop :=
  ∃ st, slot_state x = SlotState_Ready (Slot_Active st) ∧ (usize_max ≤ count_value (reservations st))%N.

(** The user's code the statement runs panics. *)
Definition port_panics action (p : P) : Prop :=
  match action with
  | Activate k _ b => (port_activate k b p).2 = None
  | Diagnose k b error => (port_activation_failed k b error p).2 = None
  | Deliver _ _ _ _ endpoint pending => (port_deliver endpoint (origin pending) (command pending) p).2 = None
  | Fence _ _ _ endpoint | Close_fence _ _ _ endpoint _ (Ok ()) => (port_fence endpoint p).2 = None
  | Retire k _ b lease mode => (port_retire k b lease mode p).2 = None
  | _ => False
  end.

Lemma on_port_None {A} (op : Op P A) r r' : on_port op r = (r', None) → (op (port r)).2 = None.
Proof. unfold on_port. destruct (op (port r)). by intros [= _ ->]. Qed.

Lemma on_slot_None {A} slot (op : SlotExecution Pending E L → SlotExecution Pending E L * option A) r r' :
  on_slot slot op r = (r', None) → is_Some (slots r !! slot) →
  ∃ x, slots r !! slot = Some x ∧ (op x).2 = None.
Proof.
  unfold on_slot, slots. intros Hp [x Hx]. rewrite Hx in Hp. exists x. split; [done|].
  destruct (op x). by injection Hp.
Qed.

Lemma submit_None x (event : SlotEvent Pending E L) machine :
  slot_state x = SlotState_Ready machine → (submit clone x event).2 = None →
  EntitySlot_decide clone machine event = None.
Proof.
  intros Hm Hs. pose proof (submit_spec clone x event) as Hspec. rewrite Hm in Hspec.
  destruct (EntitySlot_decide clone machine event); [|done]. by rewrite Hspec in Hs.
Qed.

Context (Hclone : ∀ e, is_Some (clone e)).

Lemma submit_panics x (event : SlotEvent Pending E L) machine :
  slot_state x = SlotState_Ready machine → (submit clone x event).2 = None →
  full x ∧ ∃ id command, event = Event_Dispatch id command.
Proof.
  intros Hm Hs. apply (submit_None _ _ machine) in Hs; [|done].
  apply (decide_panics clone) in Hs as (st & id & command & -> & -> & Hfull); [|done].
  split; [by exists st|by eexists _, _].
Qed.

Lemma begin_retirement_total x cell machine :
  slot_state x = SlotState_Ready machine → (begin_retirement clone x cell).2 ≠ None.
Proof.
  intros Hm Hs. rewrite begin_retirement_spec, Hm in Hs.
  assert (∀ c b, (submit clone (set_retirement c x) (Event_BeginDrain b)).2 ≠ None) as Hsub.
  { intros c b Hn. by apply (submit_panics _ _ machine) in Hn as (_ & ? & ? & ?). }
  destruct machine as [|st|st|st|b]; try done; cbn [slot_activation_id] in Hs; cbv zeta in Hs;
    (destruct (submit clone _ _) as [y [i|]] eqn:Hn; [done|by eapply Hsub; rewrite Hn]).
Qed.

Ltac peel_panic Hp :=
  repeat match type of Hp with
  | (_ ≫= _) _ = (_, None) =>
      let r := fresh "r" in let b := fresh "b" in let Hm := fresh "Hm" in
      apply Op_bind_None in Hp as [Hp|(r & b & Hm & Hp)]
  end.

Lemma perform_panics dw action r r' :
  world_inv hash_one dw → directory dw = routes r → action_wf action → action_ok dw action →
  placed (slots r) action →
  (∀ slot x, slots r !! slot = Some x → ∃ machine, slot_state x = SlotState_Ready machine) →
  perform clone hash_one action r = (r', None) →
  port_panics action (port r) ∨
  ∃ k slot id (pending : Pending) x, action = Submit_to k slot (Request_Dispatch id pending) ∧
    slots r !! slot = Some x ∧ full x.
Proof.
  intros Hinv Hdir Hwf [Hname _] Hpl Hready Hp.
  assert (∀ k slot, named action = Some (k, slot) → is_Some (slots r !! slot)) as Hslot.
  { intros k slot Hk. destruct (Hname k slot Hk) as [a Ha]. unfold slots. rewrite <- Hdir.
    apply (inv_arena _ _ Hinv). by eexists. }
  assert (∀ k, get hash_one k (routes r) = (routes r, Some (entries (routes r) !! k))) as Hget.
  { intros k. apply get_entries. rewrite <- Hdir. apply Hinv. }
  destruct action as [k p|k q|k s0 q|k|k s0|k|k s0|k s0 b|k b e|k s0 b id e p|k s0 b e
    |k s0 b l mode|k s0 b e l f|k s0 ev|s0 mode|c k s0|c k s0|c k s0 e|k s0|k s0 b e l f];
    open_perform in Hp; cbn [named placed port_panics] in *.
  - peel_panic Hp.
    + unfold on_routes, allocate_dispatch in Hp. by destruct (allocate _).
    + destruct b; [done|]. cbn [admission_error] in Hp. by peel_panic Hp.
  - exfalso. unfold locate in Hp. peel_panic Hp.
    { unfold on_routes in Hp. by rewrite Hget in Hp. }
    destruct b as [slot|]; [done|]. destruct q as [id p|b id|b].
    2,3: by peel_panic Hp.
    peel_panic Hp; [|destruct b as [[slot i]|error]; [done|]; destruct error; cbn [admission_error] in Hp;
      by peel_panic Hp].
    unfold on_routes in Hp. rewrite claim_spec in Hp.
    destruct (allocate _) as [n [sequence|]]; cbv zeta in Hp; [|done].
    by rewrite claimed_slot_ok in Hp.
  - unfold submit_to in Hp. peel_panic Hp; try done; [|by destruct q].
    injection Hm as <- <-. apply on_slot_None in Hp as (x & Hx & Hs); [|by apply (Hslot k)].
    destruct (Hready _ _ Hx) as [m Hm]. apply (submit_panics _ _ m Hm) in Hs as (Hfull & id & c & He).
    right. destruct q as [id' p|b id'|b]; try done. by exists k, s0, id', p, x.
  - exfalso. peel_panic Hp; [by unfold on_routes in Hp; rewrite Hget in Hp|].
    destruct b; [done|by peel_panic Hp].
  - exfalso. peel_panic Hp; [|destruct b; [done|by peel_panic Hp]].
    apply on_slot_None in Hp as (x & Hx & Hs); [|by apply (Hslot k)].
    destruct (Hready _ _ Hx) as [m Hm]. simpl in Hs. unfold activation_id in Hs. by rewrite Hm in Hs.
  - exfalso. peel_panic Hp; [by unfold on_routes in Hp; rewrite Hget in Hp|].
    destruct b; [done|by peel_panic Hp].
  - exfalso. peel_panic Hp; [done| |destruct b0 as [[i c]|e]; by peel_panic Hp].
    injection Hm as <- <-. apply on_slot_None in Hp as (x & Hx & Hs); [|by apply (Hslot k)].
    destruct (Hready s0 x Hx) as [m Hm]. by eapply begin_retirement_total.
  - destruct Hpl as [s ->]. peel_panic Hp; [by left; apply on_port_None in Hp|].
    exfalso. destruct b0 as [act|error]; by peel_panic Hp.
  - peel_panic Hp; [by left; apply on_port_None in Hp|done].
  - destruct Hpl as [s ->]. peel_panic Hp; [by left; apply on_port_None in Hp| |done].
    exfalso. destruct b0 as [[]|c]; by peel_panic Hp.
  - destruct Hpl as [s ->]. peel_panic Hp; [by left; apply on_port_None in Hp|done].
  - destruct Hpl as [s ->]. peel_panic Hp; [by left; apply on_port_None in Hp|done| |done].
    exfalso. by destruct b0 as [[]|c].
  - peel_panic Hp; [|done]. left. destruct f as [[]|d]; [|done].
    peel_panic Hp; [by apply on_port_None in Hp|done].
  - exfalso. peel_panic Hp; [|done]. apply on_slot_None in Hp as (x & Hx & Hs); [|by apply (Hslot k)].
    destruct (Hready _ _ Hx) as [m Hm]. unfold submit_owned in Hs.
    destruct (submit clone x ev) as [y i] eqn:Hsub. destruct i; [done|].
    assert ((submit clone x ev).2 = None) as Hn by by rewrite Hsub.
    apply (submit_panics _ _ m Hm) in Hn as (_ & id & c & ->). by destruct Hwf.
  - exfalso. peel_panic Hp; [|by destruct b as [[]|]; peel_panic Hp].
    apply on_slot_None in Hp as (x & Hx & Hs); [|done]. by destruct (complete_retirement x mode).
  - exfalso. peel_panic Hp; [|done]. apply on_slot_None in Hp as (x & Hx & Hs); [|by apply (Hslot k)].
    by destruct (acquire x).
  - exfalso. peel_panic Hp; [|by destruct b].
    apply on_slot_None in Hp as (x & Hx & Hs); [|by apply (Hslot k)]. by destruct (DirectorySlot.next x).
  - exfalso. unfold perform_effect in Hp. destruct Hpl as [s ->].
    destruct e as [act|act id e p|id p reason|act e|act l mode|act]; try done.
    + by destruct c.
    + peel_panic Hp; [|destruct b; by peel_panic Hp]. unfold on_routes, take_slot in Hp.
      by destruct (take_slot_from _ _ _).
  - exfalso. peel_panic Hp; [|done]. apply on_slot_None in Hp as (x & Hx & Hs); [|by apply (Hslot k)].
    by destruct (slot_close_family x).
  - done.
Qed.

(** ** Runs *)

Definition placed_world w : Prop := Forall (λ t, Forall (placed (slots (runtime w))) t.2) (threads w).

Lemma orderly_slots dw w slot x :
  orderly hash_one dw w → slots (runtime w) !! slot = Some x →
  ∃ machine, slot_state x = SlotState_Ready machine.
Proof. intros (_ & _ & Hfam) Hx. destruct (fam_slots _ Hfam slot x Hx) as [m []]. by exists m. Qed.

Lemma orderly_action dw w t action :
  orderly hash_one dw w → t ∈ threads w → action ∈ t.2 →
  action_wf action ∧ action_ok dw action ∧
  ∀ k slot, named action = Some (k, slot) → is_Some (slots (runtime w) !! slot).
Proof.
  intros (Hcust & Hsim & _) Ht Ha. pose proof (custody_wf _ Hcust) as Hwf.
  pose proof (sim_actions _ _ _ Hsim) as Hok. rewrite Forall_forall in Hwf, Hok.
  specialize (Hwf t Ht). specialize (Hok t Ht). unfold code_wf in Hwf. rewrite Forall_forall in Hwf, Hok.
  split_and!; [by apply Hwf|by apply Hok|]. intros k slot Hk.
  destruct (ok_named _ _ (Hok action Ha) k slot Hk) as [a Hc].
  unfold slots. rewrite <- (sim_directory _ _ _ Hsim). apply (inv_arena _ _ (sim_inv _ _ _ Hsim)). by eexists.
Qed.

Lemma placed_quiet w w' :
  placed_world w → slots (runtime w') = slots (runtime w) →
  (∀ t, t ∈ threads w' → t ∈ threads w ∨ Forall (λ action, ∀ a, placed a action) t.2) →
  placed_world w'.
Proof.
  unfold placed_world. rewrite !Forall_forall. intros Hw -> Ht t Hin.
  destruct (Ht t Hin) as [?|Hall]; [by apply Hw|]. eapply Forall_impl; [exact Hall|]. auto.
Qed.

Lemma runtime_step_placed dw w w' :
  orderly hash_one dw w → runtime_step clone hash_one w w' →
  unwound (ledger (runtime w')) = false → placed_world w → placed_world w'.
Proof.
  clear Hclone. intros Hord Hstep Hun Hw. destruct Hstep.
  - apply (placed_quiet w); [done..|]. intros t [->|?]%elem_of_cons; [right|by left]. by repeat constructor.
  - apply (placed_quiet w); [done..|]. intros t [->|?]%elem_of_cons; [right|by left].
    destruct H3; by repeat constructor.
  - apply (placed_quiet w); auto.
  - apply (placed_quiet w); auto.
  - destruct (orderly_action dw w (o, action :: code) action Hord) as (_ & _ & Hn);
      [rewrite H1; set_solver|by left|].
    pose proof (perform_performed clone hash_one _ _ _ _ H2) as Hp.
    unfold placed_world in *. cbn [threads with_threads runtime]. rewrite H1 in Hw.
    apply Forall_app in Hw as [Hpre [[Ha Hcode]%Forall_cons Hpost]%Forall_cons].
    destruct (performed_placed _ _ _ _ _ Hp Ha Hn) as [Hnext Hsp].
    assert (∀ action', placed (slots (runtime w)) action' → placed (slots r) action') as Hg.
    { intros action'. apply placed_grows. intros slot. by apply (performed_grows _ _ _ _ _ Hp). }
    assert (∀ l : list (Owner * Code), Forall (λ t, Forall (placed (slots (runtime w))) t.2) l →
      Forall (λ t, Forall (placed (slots r)) t.2) l) as Hgs.
    { intros l Hl. eapply Forall_impl; [exact Hl|]. intros t Hin. eapply Forall_impl; [exact Hin|apply Hg]. }
    rewrite !Forall_app, Forall_cons, Forall_app. cbn [snd]. rewrite Forall_app.
    split_and!; [by apply Hgs|done|by eapply Forall_impl; [exact Hcode|apply Hg]|by apply Hgs|].
    by apply Forall_map.
  - done.
  - done.
  - apply (placed_quiet w); [done..|]. intros t Hin. left. rewrite H1. set_solver.
  - apply (placed_quiet w); auto.
  - apply (placed_quiet w); auto.
  - apply (placed_quiet w); [done| |].
    + unfold record_drain, take_family in H3. by destruct (family w); injection H3 as <- _.
    + intros t ->%list_elem_of_singleton. right. apply Forall_map, Forall_true. by intros ? ?.
  - apply (placed_quiet w); [done..|]. intros t ->%list_elem_of_singleton. right. simpl.
    apply Forall_map, Forall_true. by intros ? ?.
  - apply (placed_quiet w); [done..|]. intros t Hin. by apply elem_of_nil in Hin.
  - apply (placed_quiet w); auto.
Qed.

Lemma reachable_placed p limit config w :
  DirectoryConfig_new p limit = Ok config → runtime_reachable clone hash_one config w →
  unwound (ledger (runtime w)) = false → (∃ dw, orderly hash_one dw w) ∧ placed_world w.
Proof.
  intros Hc Hr Hun. eapply orderly_ind; try done; [by constructor|].
  intros dw w1 w2. apply runtime_step_placed.
Qed.

(** C34: the runtime itself never panics.  As long as nothing has unwound, and
    with an endpoint whose clone does not panic, the next statement of any thread
    panics in two cases only: the user's port panics in the call it makes, or a
    dispatch finds [usize::MAX] deliveries in flight.  No index, [expect],
    assertion or [unreachable] of the runtime or of the directory is hit. *)
Theorem runtime_never_panics p limit config w pre o action code post r :
  DirectoryConfig_new p limit = Ok config → runtime_reachable clone hash_one config w →
  unwound (ledger (runtime w)) = false → threads w = pre ++ (o, action :: code) :: post →
  perform clone hash_one action (runtime w) = (r, None) →
  port_panics action (port (runtime w)) ∨
  ∃ k slot id (pending : Pending) x, action = Submit_to k slot (Request_Dispatch id pending) ∧
    arena (routes (runtime w)) !! slot = Some x ∧ full x.
Proof.
  intros Hc Hr Hun Ht Hp. destruct (reachable_placed _ _ _ _ Hc Hr Hun) as [(dw & Hord) Hpl].
  assert ((o, action :: code) ∈ threads w) as Hin by (rewrite Ht; set_solver).
  destruct (orderly_action dw w _ action Hord Hin) as (Hwf & Hok & _); [by left|].
  pose proof Hord as (_ & Hsim & _).
  eapply perform_panics; [apply Hsim|apply Hsim|done|done| | |done].
  - unfold placed_world in Hpl. rewrite Ht in Hpl.
    apply Forall_app in Hpl as [_ [[Ha _]%Forall_cons _]%Forall_cons]. exact Ha.
  - intros slot x. by eapply orderly_slots.
Qed.
End placed.

(** The port panics when it is asked to deliver command 255, and nothing else. *)
Lemma runtime_never_panics_witness :
  let deliver : Action N N N N N N :=
    Deliver 6%N (Some 1%positive) (ActivationId_new 1) (DispatchId_new 1) 6%N
      {| origin := 0%N; command := 255%N; publisher := 1 |} in
  (perform copy_endpoint identity_hash deliver (runtime panicking_world)).2 = None ∧
  (port_panics deliver (port (runtime panicking_world)) ∨
   ∃ k slot id (pending : PendingCommand N N) x, deliver = Submit_to k slot (Request_Dispatch id pending) ∧
     arena (routes (runtime panicking_world)) !! slot = Some x ∧ full x).
Proof.
  intros deliver. split; [by vm_compute|].
  eapply (runtime_never_panics copy_endpoint identity_hash) with
    (p := 4%positive) (limit := 2%positive) (config := small_config)
    (pre := [(ByTask, [])]) (o := ByTask) (code := []) (post := []).
  - intros e. by exists e.
  - done.
  - apply scenario_reachable, panicking_scenario.
  - done.
  - done.
  - vm_compute. reflexivity.
Defined.
