(* ===== verification/EntityShutdown.v ===== *)
(** * Shutdown: one incarnation per entity, and a family that is settled

    On top of [EntityFamily]: the rows shutdown drains and the receipts of
    failed retirements ([rows_inv]).  It follows that the tasks of one entity
    act for one incarnation, that shutdown never loses a receipt, and that when
    it finds nothing running every slot is inactive, every queue empty and every
    command and lease settled. *)

From S2P Require Import Prelude Lifecycle DirectorySlot Directory EntityRuntime EntityExample.
From S2P Require Import EntityCustody EntityRefinement EntityDuties EntityFamily EntityProgress.

(** ** The rows and the receipts *)

Section result.
Context {P I C O E L F TF : Type} `{Countable I}.
Local Abbreviation Rt := (Runtime P I C O E L F).
Local Abbreviation Receipt := (I * option SlotRef * ActivationId * RetirementMode * F)%type.
Local Abbreviation Entity :=
  (I * Result () (option ActivationId) * list (ActivationId * RetirementMode * F))%type.
Implicit Types (receipt : Receipt) (entity : Entity) (slot : SlotRef) (rows : list (I * SlotRef)).

Definition receipt_slot receipt : option SlotRef := receipt.1.1.1.2.
Definition receipt_failure receipt : ActivationId * RetirementMode * F :=
  (receipt.1.1.2, receipt.1.2, receipt.2).

Lemma receipts_split slot (failures : list Receipt) :
  receipt_failure <$> failures ≡ₚ
    receipts_of slot failures ++ (receipt_failure <$> receipts_left slot failures).
Proof.
  unfold receipts_of, receipts_left. induction failures as [|[[[[k s] a] m] f] l IH]; [done|].
  rewrite !filter_cons. csimpl. repeat case_decide; try done; csimpl; rewrite IH; solve_Permutation.
Qed.

(** What the rows take and what they leave: each row has its disposition, a
    receipt goes to one row or is left, and what is left names no row. *)
Lemma row_entities_spec d rows (failures : list Receipt) entities others :
  row_entities (C := C) (O := O) (E := E) (L := L) d rows failures = Some (entities, others) →
  (λ entity, entity.1) <$> entities = (λ row, (row.1, disposition d row.2)) <$> rows ∧
  receipt_failure <$> failures ≡ₚ (entities ≫= snd) ++ (receipt_failure <$> others) ∧
  ∀ receipt, receipt ∈ others →
    receipt ∈ failures ∧ ∀ slot, receipt_slot receipt = Some slot → slot ∉ rows.*2.
Proof.
  revert failures entities. induction rows as [|[k slot] rows IH]; intros failures entities; simpl.
  { intros [= <- <-]. split_and!; [done..|]. intros receipt Hin. split; [done|].
    intros slot _. by apply not_elem_of_nil. }
  case_bool_decide; [done|].
  destruct (row_entities d rows _) as [[rest left]|] eqn:Hr; [|done]. intros [= <- <-].
  destruct (IH _ _ Hr) as (Hrows & Hall & Hleft). csimpl. rewrite Hrows. split_and!; [done| |].
  - rewrite (receipts_split slot), Hall. by rewrite app_assoc.
  - intros receipt [Hl Hs]%Hleft. apply list_elem_of_filter in Hl as [Hn Hl].
    split; [done|]. intros slot' Hr'. rewrite not_elem_of_cons. split; [|by apply Hs]. intros ->.
    apply Hn. destruct receipt as [[[[? ?] ?] ?] ?]. simpl in *. by apply bool_decide_eq_true.
Qed.

(** Rows of distinct slots own their keys alone. *)
Lemma row_entities_Some d rows (failures : list Receipt) :
  NoDup rows.*2 → is_Some (row_entities (C := C) (O := O) (E := E) (L := L) d rows failures).
Proof.
  revert failures. induction rows as [|[k slot] rows IH]; intros failures; csimpl; [by eexists|].
  intros [Hn [rest Hrest]%(IH (receipts_left slot failures))]%NoDup_cons.
  rewrite bool_decide_false by done. rewrite Hrest. by eexists.
Qed.

Lemma row_entities_none d rows :
  NoDup rows.*2 →
  row_entities (C := C) (O := O) (E := E) (L := L) d rows ([] : list Receipt) =
    Some ((λ row, (row.1, disposition d row.2, [])) <$> rows, []).
Proof.
  induction rows as [|[k slot] rows IH]; csimpl; [done|]. intros [Hn Hnd]%NoDup_cons.
  rewrite bool_decide_false by done. change (receipts_left slot []) with ([] : list Receipt).
  by rewrite IH.
Qed.

Lemma left_entities_spec (others : list Receipt) entities :
  left_entities others = Some entities →
  entities ≫= snd = receipt_failure <$> others ∧
  (forallb settled_entity entities = true → entities = []).
Proof.
  revert entities. induction others as [|[[[[k [s|]] a] m] f] others IH]; intros entities Hm; [|done|].
  - by injection Hm as <-.
  - simpl in Hm. destruct (existsb _ _); [done|].
    destruct (left_entities others) as [rest|]; [|done]. injection Hm as <-.
    destruct (IH rest eq_refl) as [Hs _]. csimpl. by rewrite Hs.
Qed.

Lemma settled_entities (entities : list Entity) :
  forallb settled_entity entities = true →
  entities ≫= snd = [] ∧ Forall (λ entity, entity.1.2 = Ok ()) entities.
Proof.
  induction entities as [|[[k d] receipts] entities IH]; simpl; [by constructor|].
  rewrite !andb_true_iff. intros [[Hd Hr] He]. destruct (IH He) as [Hs Hf].
  destruct d as [[]|], receipts; try done. csimpl. rewrite Hs. split; [done|by constructor].
Qed.

(** What [shutdown] returns accounts for everything it was given.  It is
    settled only without a task failure, without a receipt of a failed
    retirement and with every row inactive, and then names the entity of each
    row once, in order; otherwise it carries all task failures, the disposition
    of every row and each receipt exactly once. *)
Definition accounted (r : Rt) rows (task_failures : list TF) (result : EntityShutdown TF F I) : Prop :=
  match result with
  | Shutdown_Settled represented entities =>
      represented = len rows ∧ task_failures = [] ∧ retirement_failures r = [] ∧
      entities = (rows ++ retired_rows r).*1 ∧
      Forall (λ row, disposition (routes r) row.2 = Ok ()) (rows ++ retired_rows r)
  | Shutdown_AlreadyClaimed => False
  | Shutdown_Unsettled represented entities failures =>
      represented = len rows ∧ failures = task_failures ∧
      (λ row, (row.1, disposition (routes r) row.2)) <$> rows ++ retired_rows r
        `prefix_of` (λ entity, entity.1) <$> entities ∧
      entities ≫= snd ≡ₚ receipt_failure <$> retirement_failures r
  end.

Lemma shutdown_accounts (r : Rt) rows (task_failures : list TF) result :
  shutdown_result r rows task_failures = Some result → accounted r rows task_failures result.
Proof.
  unfold shutdown_result, accounted. set (all := rows ++ retired_rows r). intros Hr.
  destruct (row_entities _ _ _) as [[entities others]|] eqn:Hre; simpl in Hr; [|done].
  apply row_entities_spec in Hre as (Hrows & Hreceipts & _).
  destruct (left_entities others) as [transient|] eqn:Hm; simpl in Hr; [|done].
  apply left_entities_spec in Hm as [Hm Hset]. rewrite <- Hm in Hreceipts.
  assert ((λ row, (row.1, disposition (routes r) row.2)) <$> all
    `prefix_of` (λ entity, entity.1) <$> entities ++ transient) as Hprefix.
  { rewrite fmap_app, Hrows. by apply prefix_app_r. }
  assert ((entities ++ transient) ≫= snd ≡ₚ receipt_failure <$> retirement_failures r) as Hall.
  { by rewrite bind_app, Hreceipts. }
  destruct task_failures; [|by injection Hr as <-].
  destruct (forallb settled_entity (entities ++ transient)) eqn:Hs; injection Hr as <-; [|done].
  pose proof Hs as [Hnone Hok]%settled_entities. rewrite forallb_app in Hs.
  apply andb_true_iff in Hs as [_ Ht]. rewrite (Hset Ht), app_nil_r in *.
  rewrite Hnone in Hall. symmetry in Hall. apply Permutation_nil_r, fmap_nil_inv in Hall.
  split_and!; try done.
  - trans (((λ entity : Entity, entity.1) <$> entities).*1); [by rewrite <- list_fmap_compose|].
    by rewrite Hrows, <- list_fmap_compose.
  - apply (Forall_fmap (λ row, (row.1, disposition (routes r) row.2)) (λ p, p.2 = Ok ())).
    rewrite <- Hrows. by apply Forall_fmap.
Qed.
End result.

(** ** What an action does to the map, the rows and the receipts *)

Section rows.
Context {P I C O E L X F TF : Type} `{Countable I} `{LocalEntityRuntime P I C O E L X F}
  (clone : E → option E) (hash_one : I → N).
Local Abbreviation Pending := (PendingCommand O C).
Local Abbreviation Rt := (Runtime P I C O E L F).
Local Abbreviation DirWorld := (World I Pending E L).
Local Abbreviation Act := (Action I C O E L X).
Local Abbreviation Code := (list Act).
Local Abbreviation RtWorld := (RuntimeWorld P I C O E L X F TF).
Implicit Types (w : RtWorld) (dw : DirWorld) (action : Act) (slot : SlotRef)
  (x : SlotExecution Pending E L) (r : Rt).

(** The map and the rows, as far as an action sees them. *)
Definition rows_of r : list (gmap I SlotRef) * list (I * SlotRef) *
    list (I * option SlotRef * ActivationId * RetirementMode * F) :=
  (shards (routes r), retired_rows r, retirement_failures r).

Lemma keeps_rows_slot {A} slot (op : SlotExecution Pending E L → SlotExecution Pending E L * option A) :
  keeps rows_of (on_slot slot op).
Proof. intros r. unfold on_slot. destruct (_ !! _); [by destruct (op _)|done]. Qed.
Lemma keeps_rows_port {A} (op : Op P A) : keeps rows_of (on_port op : Op Rt A).
Proof. intros r. unfold on_port. by destruct (op _). Qed.
Lemma keeps_rows_get k : keeps rows_of (on_routes (get hash_one k) : Op Rt (option SlotRef)).
Proof.
  intros r. unfold on_routes. pose proof (get_routes hash_one k (routes r)) as Hg.
  destruct (get hash_one k (routes r)). simpl in *. by subst.
Qed.
Lemma keeps_rows_allocate : keeps rows_of (on_routes allocate_dispatch : Op Rt _).
Proof. intros r. unfold on_routes, allocate_dispatch. by destruct (allocate _). Qed.

Definition touches_rows action : bool :=
  match action with
  | Locate _ (Request_Dispatch _ _) | Retire _ _ _ _ _
  | Interpret_effect _ _ (Some _) (Effect_Remove _) => true
  | _ => false
  end.

Lemma perform_rows_of action r :
  touches_rows action = false → rows_of (perform clone hash_one action r).1 = rows_of r.
Proof.
  intros Ha. revert r. change (keeps rows_of (perform clone hash_one action)).
  destruct action; open_perform; unfold locate, submit_to, perform_effect, answer_request; try done;
    repeat first
      [ done
      | apply keeps_bind; [|intros]
      | apply keeps_rows_slot | apply keeps_rows_get | apply keeps_rows_port | apply keeps_rows_allocate
      | match goal with |- keeps _ (match ?x with _ => _ end) => destruct x end
      | by intros ? ].
Qed.

Lemma entries_shards (d d' : LocalDirectory I Pending E L) :
  shards d' = shards d → entries d' = entries d.
Proof. unfold entries. by intros ->. Qed.

(** The map, the rows and the receipts before and after an action. *)
Variant rows_change action r r' : Prop :=
  | change_none :
      entries (routes r') = entries (routes r) → retired_rows r' = retired_rows r →
      retirement_failures r' = retirement_failures r → rows_change action r r'
  | change_claim k slot :
      is_request action → entries (routes r) !! k = None → slots r !! slot = None →
      entries (routes r') = <[k := slot]> (entries (routes r)) →
      retired_rows r' = retired_rows r → retirement_failures r' = retirement_failures r →
      rows_change action r r'
  | change_receipt k target a lease mode failure :
      action = Retire k target a lease mode →
      entries (routes r') = entries (routes r) → retired_rows r' = retired_rows r →
      retirement_failures r' = retirement_failures r ++ [(k, target, a, mode, failure)] →
      rows_change action r r'
  | change_remove k slot :
      entries (routes r) !! k = Some slot → entries (routes r') = delete k (entries (routes r)) →
      retired_rows r' = (if existsb (names_slot slot) (retirement_failures r)
                         then retired_rows r ++ [(k, slot)] else retired_rows r) →
      retirement_failures r' = retirement_failures r → rows_change action r r'.

Lemma rows_of_none action r r' : rows_of r' = rows_of r → rows_change action r r'.
Proof. intros [= Hs Hr Hf]. apply change_none; [by apply entries_shards|done..]. Qed.

Lemma locate_rows k id (pending : Pending) r :
  directory_wf hash_one (routes r) →
  rows_change (Locate k (Request_Dispatch id pending) : Act) r
    (perform (F := F) (X := X) clone hash_one (Locate k (Request_Dispatch id pending)) r).1.
Proof.
  intros Hwf. open_perform. unfold locate. rewrite Op_bind_eq. unfold on_routes at 1.
  rewrite get_entries by done. destruct (entries (routes r) !! k) as [slot|] eqn:Hk.
  { by apply change_none. }
  rewrite Op_bind_eq. unfold on_routes.
  rewrite claim_spec. destruct (allocate _) as [n [sequence|]] eqn:Halloc; cbv zeta.
  - rewrite claimed_slot_ok. apply (change_claim _ _ _ k (fresh (dom (arena (routes r))))); try done.
    + apply fresh_slot.
    + simpl. by rewrite put_entry_entries by by destruct Hwf.
  - by apply change_none.
Qed.

Lemma retire_rows k target a (lease : L) mode r :
  rows_change (Retire k target a lease mode) r
    (perform clone hash_one (Retire k target a lease mode) r).1.
Proof.
  open_perform. rewrite Op_bind_eq. unfold on_port.
  destruct (port_retire k a lease mode (port r)) as [p [[[]|failure]|]]; [| |by apply change_none].
  - destruct target; by apply change_none.
  - destruct target as [slot|];
      (eapply (change_receipt _ _ _ k _ a lease mode failure); [reflexivity|done..]).
Qed.

Lemma remove_rows closed k slot b r :
  directory_wf hash_one (routes r) →
  rows_change (Interpret_effect closed k (Some slot) (Effect_Remove b)) r
    (perform clone hash_one (Interpret_effect closed k (Some slot) (Effect_Remove b)) r).1.
Proof.
  intros Hwf. open_perform; cbn [perform_effect]. rewrite Op_bind_eq. unfold on_routes.
  pose proof (take_slot_spec hash_one (routes r) slot Hwf) as Ht.
  destruct (take_slot slot (routes r)) as [d [[[k' slot']|]|]]; [| |done].
  - destruct Ht as (-> & Hk & ->). apply (change_remove _ _ _ k' slot); try done.
    simpl. by apply remove_entry_entries.
  - destruct Ht as [-> _]. by apply change_none.
Qed.

Lemma perform_rows action r r' left :
  directory_wf hash_one (routes r) → perform clone hash_one action r = (r', left) →
  rows_change action r r'.
Proof.
  intros Hwf Hp. assert (r' = (perform clone hash_one action r).1) as -> by by rewrite Hp. clear Hp.
  destruct (touches_rows action) eqn:Ha; [|by apply rows_of_none, perform_rows_of].
  destruct action; try done.
  - destruct request; try done. by apply locate_rows.
  - apply retire_rows.
  - destruct slot as [slot|]; [|done]. destruct effect; try done. by apply remove_rows.
Qed.

(** *** The rows of a run *)

(** The rows whose keys the claim owns at its end. *)
Definition claimed_rows w : list (I * SlotRef) := drained_rows w ++ retired_rows (runtime w).

Record rows_inv w : Prop := {
  rows_stage : stage w = Stage_Waiting true → family w ≠ None;
  rows_claimant : ∀ code, (ByClaimant, code) ∈ threads w → family w ≠ None;
  rows_entries : family w ≠ None → entries (routes (runtime w)) = ∅;
  rows_keys : NoDup (drained_rows w).*1;
  rows_retired : retirement_failures (runtime w) = [] → retired_rows (runtime w) = [];
  rows_receipts : ∀ receipt, receipt ∈ retirement_failures (runtime w) →
    ∃ slot, receipt_slot receipt = Some slot ∧
      (slot ∈ (claimed_rows w).*2 ∨ ∃ k, entries (routes (runtime w)) !! k = Some slot);
  (** no slot is in two rows, or both in a row and in the map *)
  rows_unique : NoDup (claimed_rows w).*2;
  rows_unmapped : ∀ k slot, entries (routes (runtime w)) !! k = Some slot → slot ∉ (claimed_rows w).*2;
  rows_known : ∀ slot, slot ∈ (claimed_rows w).*2 → is_Some (slots (runtime w) !! slot)
}.

Lemma rows_quiet w w' :
  rows_inv w → routes (runtime w') = routes (runtime w) →
  retired_rows (runtime w') = retired_rows (runtime w) →
  retirement_failures (runtime w') = retirement_failures (runtime w) → family w' = family w →
  (stage w' = Stage_Waiting true → family w ≠ None) →
  (∀ code, (ByClaimant, code) ∈ threads w' → family w ≠ None) → rows_inv w'.
Proof.
  intros [Hs Hc He Hk Hr Hf Hu Hm Hkn] Hro Hre Hfa Hfam Hs' Hc'.
  split; unfold claimed_rows, drained_rows, slots in *; rewrite ?Hro, ?Hre, ?Hfa, ?Hfam; done.
Qed.

(** A thread that owes a fact acts for the slot the entity is mapped to, or for
    the row it was drained with. *)
Lemma owed_mapped dw w t action k slot :
  orderly hash_one dw w → t ∈ threads w → action ∈ t.2 →
  named action = Some (k, slot) → owed action ≠ [] →
  entries (routes (runtime w)) !! k = Some slot ∨ (k, slot) ∈ drained_rows w.
Proof.
  intros (_ & Hs & Hfam) Ht Ha Hk Ho. pose proof (sim_inv _ _ _ Hs) as Hinv.
  pose proof (sim_actions _ _ _ Hs) as Hact. rewrite Forall_forall in Hact. specialize (Hact t Ht).
  rewrite Forall_forall in Hact. destruct (Hact action Ha) as [Hname _].
  destruct (Hname k slot Hk) as [a Hc]. clear Hact Hname.
  destruct (inv_arena _ _ Hinv slot (mk_is_Some _ _ Hc)) as [x Hx].
  assert (¬ terminal x) as Hterm.
  { intros Hterm. pose proof Hx as Hx'. rewrite (sim_directory _ _ _ Hs) in Hx'.
    destruct (fam_slots _ Hfam slot x Hx') as [m [Hm Hd _ _ _ _ _]].
    rewrite Hterm in Hm. injection Hm as <-. simpl in Hd.
    apply Permutation_nil_l, eq_sym, app_nil in Hd as [_ Hd].
    destruct (owed action) as [|duty rest] eqn:Hown; [done|].
    assert (duty ∈ world_duties w slot) as Hin; [|rewrite Hd in Hin; by apply elem_of_nil in Hin].
    unfold world_duties, duties_of. apply list_elem_of_bind. exists t.2.
    split; [|apply list_elem_of_fmap; by exists t]. apply list_elem_of_bind. exists action.
    split; [|done]. rewrite duties_here by (unfold about; by rewrite Hk). rewrite Hown. by left. }
  destruct (inv_claimed _ _ Hinv slot x Hx) as (k' & a' & Hc' & _ & Hwhere).
  rewrite Hc in Hc'. injection Hc' as <- <-. rewrite <- (sim_directory _ _ _ Hs).
  destruct Hwhere as [?|[Hk'|Htaken]]; [done|by left|right].
  destruct (sim_taken _ _ _ Hs slot Htaken) as [(y & Hy & Hyt)|Hrow].
  - rewrite Hx in Hy. by injection Hy as <-.
  - apply list_elem_of_fmap in Hrow as ([k' s] & -> & Hrow).
    destruct (sim_rows _ _ _ Hs _ _ Hrow) as [b Hb]. simpl in Hc. rewrite Hc in Hb. by injection Hb as <-.
Qed.

(** An action keeps the slots of the rows and of the map apart. *)
Lemma change_apart action r r' (drained : list (I * SlotRef)) :
  rows_change action r r' →
  (∀ k1 k2 slot, entries (routes r) !! k1 = Some slot → entries (routes r) !! k2 = Some slot → k1 = k2) →
  (∀ slot, is_Some (slots r !! slot) → is_Some (slots r' !! slot)) →
  (∀ k slot, entries (routes r) !! k = Some slot → is_Some (slots r !! slot)) →
  NoDup (drained ++ retired_rows r).*2 →
  (∀ k slot, entries (routes r) !! k = Some slot → slot ∉ (drained ++ retired_rows r).*2) →
  (∀ slot, slot ∈ (drained ++ retired_rows r).*2 → is_Some (slots r !! slot)) →
  NoDup (drained ++ retired_rows r').*2 ∧
  (∀ k slot, entries (routes r') !! k = Some slot → slot ∉ (drained ++ retired_rows r').*2) ∧
  ∀ slot, slot ∈ (drained ++ retired_rows r').*2 → is_Some (slots r' !! slot).
Proof.
  intros Hch Hinj Hgrow Hmap Hu Hm Hk.
  destruct Hch as [Hen Hre _|k slot _ _ Hnew Hen Hre _|k target a lease mode failure _ Hen Hre _
    |k slot Hin Hen Hre _]; rewrite Hen, Hre.
  1,3: by auto.
  - split_and!; [done| |by auto]. intros k' slot' [[<- <-]|[_ Hk']]%lookup_insert_Some; [|by eapply Hm].
    intros [x Hx]%Hk. by rewrite Hnew in Hx.
  - assert (∀ k' slot', delete k (entries (routes r)) !! k' = Some slot' →
      slot' ≠ slot ∧ slot' ∉ (drained ++ retired_rows r).*2) as Hdel.
    { intros k' slot' [Hne Hk']%lookup_delete_Some. split; [|by eapply Hm].
      intros ->. apply Hne. by eapply Hinj. }
    destruct (existsb _ _); [|by split_and!; [done|intros ? ? [_ ?]%Hdel|auto]].
    rewrite (app_assoc drained), fmap_app. cbn [fmap list_fmap snd]. split_and!.
    + apply NoDup_app. split_and!; [done| |by apply NoDup_singleton].
      intros s Hs ->%list_elem_of_singleton. by eapply Hm.
    + intros k' slot' [Hne Hn]%Hdel. rewrite elem_of_app, list_elem_of_singleton. tauto.
    + intros s [Hs| ->%list_elem_of_singleton]%elem_of_app; [by auto|]. eapply Hgrow, Hmap, Hin.
Qed.

Lemma mapped_alone dw w :
  orderly hash_one dw w →
  (∀ k1 k2 slot, entries (routes (runtime w)) !! k1 = Some slot →
     entries (routes (runtime w)) !! k2 = Some slot → k1 = k2) ∧
  ∀ k slot, entries (routes (runtime w)) !! k = Some slot → is_Some (slots (runtime w) !! slot).
Proof.
  intros (_ & Hsim & _). pose proof (sim_inv _ _ _ Hsim) as Hinv.
  unfold slots. rewrite <- (sim_directory _ _ _ Hsim). split.
  - intros k1 k2 slot [a Ha]%(inv_mapped _ _ Hinv) [b Hb]%(inv_mapped _ _ Hinv). congruence.
  - intros k slot [a Ha]%(inv_mapped _ _ Hinv). apply (inv_arena _ _ Hinv). by eexists.
Qed.

(** A receipt names a row, or a slot that is mapped. *)
Lemma change_receipts dw w t action r (receipt : I * option SlotRef * ActivationId * RetirementMode * F) :
  orderly hash_one dw w → placed_world w → rows_inv w → t ∈ threads w → action ∈ t.2 →
  rows_change action (runtime w) r → receipt ∈ retirement_failures r →
  ∃ slot, receipt_slot receipt = Some slot ∧
    (slot ∈ (drained_rows w ++ retired_rows r).*2 ∨ ∃ k, entries (routes r) !! k = Some slot).
Proof.
  intros Hord Hpl Hinv Ht Ha Hch. pose proof (rows_receipts _ Hinv receipt) as Hf. unfold claimed_rows in Hf.
  destruct Hch as [Hen Hre Hrec|k slot _ Hnone _ Hen Hre Hrec
    |k target a lease mode failure -> Hen Hre Hrec|k slot Hm Hen Hre Hrec];
    rewrite Hrec, Hen, Hre; [done|intros Hin..].
  - destruct (Hf Hin) as (slot' & Hs & [?|[k' Hk']]); exists slot'; split; auto.
    right. exists k'. rewrite lookup_insert_ne; [done|]. congruence.
  - apply elem_of_app in Hin as [Hin| ->%list_elem_of_singleton]; [by apply Hf|].
    unfold placed_world in Hpl. rewrite Forall_forall in Hpl. specialize (Hpl t Ht).
    rewrite Forall_forall in Hpl. destruct (Hpl _ Ha) as [slot ->]. exists slot. split; [done|].
    destruct (owed_mapped dw w _ _ k slot Hord Ht Ha eq_refl ltac:(done)) as [?|Hrow]; [right; by exists k|left].
    rewrite fmap_app. apply elem_of_app. left. apply list_elem_of_fmap. by exists (k, slot).
  - destruct (Hf Hin) as (slot' & Hs & Hwhere). exists slot'. split; [done|].
    destruct Hwhere as [Hrow|[k' Hk']].
    + left. rewrite fmap_app in *. apply elem_of_app in Hrow as [?|?]; apply elem_of_app; [by left|right].
      case_match; [|done]. rewrite fmap_app. apply elem_of_app. by left.
    + destruct (decide (k' = k)) as [->|Hne]; [|right; exists k'; by rewrite lookup_delete_ne].
      rewrite Hm in Hk'. injection Hk' as <-. left.
      assert (existsb (names_slot slot) (retirement_failures (runtime w)) = true) as ->.
      { apply existsb_exists. exists receipt. split; [by apply list_elem_of_In|].
        destruct receipt as [[[[? ?] ?] ?] ?]. cbn in Hs. subst. by apply bool_decide_eq_true. }
      rewrite !fmap_app, !elem_of_app. right; right. by apply list_elem_of_singleton.
Qed.

Lemma rows_perform dw w pre o action (code : Code) post r next spawned :
  orderly hash_one dw w → placed_world w → rows_inv w →
  threads w = pre ++ (o, action :: code) :: post →
  perform clone hash_one action (runtime w) = (r, Some (next, spawned)) →
  rows_inv (with_threads r (pre ++ (o, next ++ code) :: post ++ tasks_of spawned) w).
Proof.
  intros Hord Hpl Hinv Ht Hp. pose proof Hord as (_ & Hsim & Hfam).
  pose proof Hinv as [Hs Hc He Hk Hr Hf Hu Hun Hkn].
  assert (Hme : (o, action :: code) ∈ threads w) by (rewrite Ht; set_solver).
  assert (directory_wf hash_one (routes (runtime w))) as Hwf.
  { rewrite <- (sim_directory _ _ _ Hsim). apply Hsim. }
  pose proof (perform_rows action _ _ _ Hwf Hp) as Hch.
  pose proof (perform_performed clone hash_one _ _ _ _ Hp) as Hperf.
  destruct (mapped_alone dw w Hord) as [Hinj Hmap].
  destruct (change_apart action (runtime w) r (drained_rows w) Hch Hinj) as (Hu' & Hun' & Hkn'); try done.
  { intros slot. by eapply performed_grows. }
  split; unfold claimed_rows, drained_rows in *; cbn [runtime threads stage family with_threads]; auto.
  - intros c. rewrite !elem_of_app, elem_of_cons, elem_of_app.
    intros [Hin|[[= <- _]|[Hin|Hin]]]; [apply (Hc c)|by apply (Hc (action :: code))|apply (Hc c)|];
      [rewrite Ht; set_solver..|].
    unfold tasks_of in Hin. apply list_elem_of_fmap in Hin as (? & ? & _). done.
  - intros Hn. specialize (He Hn). destruct Hch as [He' _ _|k slot Hreq _ _ _ _ _
      |k target a lease mode failure _ He' _ _|k slot Hm _ _ _].
    + by rewrite He'.
    + assert (o = ByCaller) as -> by (eapply (fam_requests _ Hfam _ action Hme); [by left|done]).
      by destruct (fam_unlocked _ Hfam (fam_family _ Hfam Hn) (action :: code)).
    + by rewrite He'.
    + by rewrite He in Hm.
  - destruct Hch as [_ Hre Hfa|k slot _ _ _ _ Hre Hfa|k target a lease mode failure _ _ _ Hfa
      |k slot _ _ Hre Hfa]; rewrite Hfa, ?Hre; auto.
    + by intros Hn%app_nil; destruct Hn.
    + intros Hn. rewrite Hn. simpl. by apply Hr.
  - intros receipt. eapply (change_receipts dw w _ action r); try done. by left.
Qed.

Lemma rows_drain dw w r rows :
  orderly hash_one dw w → rows_inv w → record_drain w = (r, rows) →
  rows_inv {| runtime := r; threads := [(ByClaimant, close_rows rows)];
    stage := Stage_Interpreting; family := Some rows |}.
Proof.
  intros Hord Hinv Hrec. pose proof Hord as (_ & Hsim & Hfi). pose proof (drained_nodup _ dw w r rows Hsim Hfi Hrec) as Hnd.
  destruct Hinv as [Hs Hc He Hk Hr Hf Hu Hun Hkn]. unfold record_drain, claimed_rows, drained_rows in *.
  destruct (family w) as [rows'|] eqn:Hfam.
  { injection Hrec as <- <-. split; cbn [runtime threads stage family];
      unfold claimed_rows, drained_rows; cbn [family]; auto. }
  unfold take_family in Hrec. injection Hrec as <- <-. pose proof (sim_inv _ _ _ Hsim) as Hinv.
  assert (directory_wf hash_one (routes (runtime w))) as Hwf.
  { rewrite <- (sim_directory _ _ _ Hsim). apply Hinv. }
  assert (∀ slot, slot ∈ (shards (routes (runtime w)) ≫= map_to_list).*2 ↔
    ∃ k, entries (routes (runtime w)) !! k = Some slot) as Hrows.
  { intros slot. rewrite list_elem_of_fmap. split.
    - intros ([k s] & -> & Hin%(taken_rows hash_one)); [by exists k|done].
    - intros [k Hm]. exists (k, slot). split; [done|]. by apply (taken_rows hash_one). }
  pose proof (take_family_entries (routes (runtime w))) as Hempty.
  split; unfold claimed_rows, drained_rows; cbn [runtime threads stage family default]; try done.
  - rewrite (entries_permutation hash_one) by done. apply NoDup_fst_map_to_list.
  - intros receipt Hin. destruct (Hf receipt Hin) as (slot & Hslot & Hwhere). exists slot. split; [done|].
    left. rewrite fmap_app. apply elem_of_app. destruct Hwhere; [by right|left]. by apply Hrows.
  - rewrite fmap_app. apply NoDup_app. split_and!; [done| |done].
    intros slot [k Hm]%Hrows. by apply (Hun k).
  - intros k slot. cbn [routes set_routes]. simpl in Hempty. unfold set_routes; simpl. rewrite Hempty. done.
  - intros slot. rewrite fmap_app, elem_of_app. intros [[k Hm]%Hrows|Hin].
    + destruct (mapped_alone dw w Hord) as [_ Hmap]. by eapply Hmap.
    + by apply Hkn.
Qed.

Lemma runtime_step_rows dw w w' :
  orderly hash_one dw w → runtime_step clone hash_one w w' →
  unwound (ledger (runtime w')) = false → placed_world w → rows_inv w → rows_inv w'.
Proof.
  intros Hord Hstep Hun Hpl Hinv. pose proof (rows_claimant _ Hinv) as Hc. destruct Hstep.
  - apply (rows_quiet w); try done; try apply Hinv.
    intros code [?|Hin]%elem_of_cons; [done|by apply (Hc code)].
  - apply (rows_quiet w); try done; try apply Hinv.
    intros code [?|Hin]%elem_of_cons; [done|by apply (Hc code)].
  - by apply (rows_quiet w); try apply Hinv.
  - by apply (rows_quiet w); try apply Hinv.
  - by eapply rows_perform.
  - done.
  - done.
  - apply (rows_quiet w); try done; cbn [stage threads with_stage].
    + case_decide as Ho; [|apply Hinv]. intros _. apply (Hc []). rewrite H1, <- Ho. set_solver.
    + intros code Hin. apply (Hc code). rewrite H1. set_solver.
  - by apply (rows_quiet w); try apply Hinv.
  - by apply (rows_quiet w).
  - by eapply rows_drain.
  - apply (rows_quiet w); try done. intros code _. by rewrite H3.
  - apply (rows_quiet w); try done. intros code Hin. by apply elem_of_nil in Hin.
  - by apply (rows_quiet w).
Qed.

Lemma reachable_rows p limit config w :
  DirectoryConfig_new p limit = Ok config → runtime_reachable clone hash_one config w →
  unwound (ledger (runtime w)) = false → (∃ dw, orderly hash_one dw w) ∧ rows_inv w.
Proof.
  intros Hc Hr Hun.
  destruct (orderly_ind clone hash_one p limit config (λ w, placed_world w ∧ rows_inv w) w) as (? & _ & ?);
    try done.
  - intros d port Hd. split; [by constructor|].
    split; unfold claimed_rows, drained_rows; cbn; try done; try apply NoDup_nil_2;
      first [by intros ? ?%elem_of_nil|intros ? ? _; apply not_elem_of_nil].
  - intros dw w1 w2 Ho Hstep Hun2 [Hpl Hrows]. split; [exact (runtime_step_placed clone hash_one dw w1 w2 Ho Hstep Hun2 Hpl)|].
    by eapply runtime_step_rows.
Qed.

(** Whatever unwinds, the claimant only works, and only waits for the end, after it
    has drained its rows. *)
Lemma claimed_family config w :
  runtime_reachable clone hash_one config w →
  (stage w = Stage_Waiting true → family w ≠ None) ∧
  ∀ code, (ByClaimant, code) ∈ threads w → family w ≠ None.
Proof.
  intros (d & port & _ & Hrun). pattern w. revert w Hrun. apply rtc_ind_r.
  - split; [done|]. intros code Hin. by apply elem_of_nil in Hin.
  - intros w w' _ Hstep [Hs Hc].
    assert (∀ pre post o code, threads w = pre ++ (o, code) :: post →
      (∀ code', (ByClaimant, code') ∈ pre ++ post → family w ≠ None) ∧
      (o = ByClaimant → family w ≠ None)) as Hrest.
    { intros pre post o code Ht. split; [intros code' Hin; apply (Hc code')|intros ->; apply (Hc code)];
        rewrite Ht; set_solver. }
    destruct Hstep; cbn [runtime threads stage family with_threads with_stage]; try done.
    1,2: split; [done|]; intros c [?|?]%elem_of_cons; [done|by eapply Hc].
    1: { destruct (Hrest _ _ _ _ H1) as [Hpp Ho]. split; [done|].
         intros c. rewrite !elem_of_app, elem_of_cons, elem_of_app. unfold tasks_of.
         intros [?|[[= <- _]|[?|Hin]]]; [apply (Hpp c)|by apply Ho|apply (Hpp c)|]; [set_solver..|].
         apply list_elem_of_fmap in Hin as (? & ? & _). done. }
    1-3: destruct (Hrest _ _ _ _ H1) as [Hpp Ho]; split; [|done]; case_decide; auto; done.
    + split; [done|]. intros c _. congruence.
    + split; [done|]. by intros c ?%elem_of_nil.
Qed.

(** ** What holds of every run without a panic *)

Lemma machine_duties_alike (machine : EntitySlot Pending E L) duty1 duty2 :
  duty1 ∈ machine_duties machine → duty2 ∈ machine_duties machine → duty1 = duty2.
Proof.
  destruct machine as [|st|st|[b e l []]|b]; simpl; unfold deliveries;
    rewrite ?elem_of_replicate, ?list_elem_of_singleton; try (by intros ?%elem_of_nil); naive_solver.
Qed.

Lemma owed_by_machine w t action k slot duty :
  family_inv w → t ∈ threads w → action ∈ t.2 → named action = Some (k, slot) → duty ∈ owed action →
  ∀ x, slots (runtime w) !! slot = Some x →
  ∃ machine, slot_state x = SlotState_Ready machine ∧ duty ∈ machine_duties machine.
Proof.
  intros Hfam Ht Ha Hk Ho x Hx. destruct (fam_slots _ Hfam slot x Hx) as [m [Hm Hd _ _ _ _ _]].
  exists m. split; [done|]. rewrite Hd. apply elem_of_app. right.
  unfold world_duties, duties_of. apply list_elem_of_bind. exists t.2.
  split; [|apply list_elem_of_fmap; by exists t]. apply list_elem_of_bind. exists action.
  split; [|done]. by rewrite duties_here by (unfold about; by rewrite Hk).
Qed.

(** C28: one incarnation per entity.  Without a panic, any two facts that threads
    are about to submit for the same entity go to the same slot and are the same
    fact of the same incarnation: no two incarnations of an entity are ever
    activated, delivered to, fenced or retired at a time, no fence is awaited
    beside a delivery, and none is retired while it is fenced or delivered to. *)
Theorem one_incarnation_per_entity p limit config w :
  DirectoryConfig_new p limit = Ok config → runtime_reachable clone hash_one config w →
  unwound (ledger (runtime w)) = false →
  ∀ t1 t2 action1 action2 k slot1 slot2 duty1 duty2,
  t1 ∈ threads w → action1 ∈ t1.2 → named action1 = Some (k, slot1) → duty1 ∈ owed action1 →
  t2 ∈ threads w → action2 ∈ t2.2 → named action2 = Some (k, slot2) → duty2 ∈ owed action2 →
  slot1 = slot2 ∧ duty1 = duty2.
Proof.
  intros Hc Hr Hun t1 t2 action1 action2 k slot1 slot2 duty1 duty2 Ht1 Ha1 Hk1 Hd1 Ht2 Ha2 Hk2 Hd2.
  destruct (reachable_rows _ _ _ _ Hc Hr Hun) as [(dw & Hord) Hrows].
  assert (slot1 = slot2) as ->.
  { assert (∀ action duty, duty ∈ owed action → owed action ≠ []) as Hne.
    { intros action duty Hin Hnil. rewrite Hnil in Hin. by apply elem_of_nil in Hin. }
    assert (∀ slot, (k, slot) ∈ drained_rows w → family w ≠ None) as Hfam.
    { intros slot Hin Hn. unfold drained_rows in Hin. rewrite Hn in Hin. by apply elem_of_nil in Hin. }
    destruct (owed_mapped _ _ _ _ _ _ Hord Ht1 Ha1 Hk1 (Hne _ _ Hd1)) as [Hm1|Hm1],
      (owed_mapped _ _ _ _ _ _ Hord Ht2 Ha2 Hk2 (Hne _ _ Hd2)) as [Hm2|Hm2].
    - congruence.
    - by rewrite (rows_entries _ Hrows (Hfam _ Hm2)) in Hm1.
    - by rewrite (rows_entries _ Hrows (Hfam _ Hm1)) in Hm2.
    - pose proof (elem_of_list_to_map_1 (M := gmap I) _ _ _ (rows_keys _ Hrows) Hm1) as He1.
      pose proof (elem_of_list_to_map_1 (M := gmap I) _ _ _ (rows_keys _ Hrows) Hm2) as He2.
      congruence. }
  split; [done|]. destruct Hord as (_ & Hsim & Hfam).
  destruct (slots (runtime w) !! slot2) as [x|] eqn:Hx.
  - destruct (owed_by_machine w _ _ _ _ _ Hfam Ht1 Ha1 Hk1 Hd1 x Hx) as (m1 & Hm1 & Hin1).
    destruct (owed_by_machine w _ _ _ _ _ Hfam Ht2 Ha2 Hk2 Hd2 x Hx) as (m2 & Hm2 & Hin2).
    rewrite Hm1 in Hm2. injection Hm2 as <-. by eapply machine_duties_alike.
  - destruct (unknown_slot _ _ _ _ Hsim Hx) as [Hunc _]. rewrite Forall_forall in Hunc.
    specialize (Hunc t1 Ht1). rewrite Forall_forall in Hunc. destruct (Hunc action1 Ha1) as [Hd _].
    rewrite duties_here in Hd by (unfold about; by rewrite Hk1).
    rewrite Hd in Hd1. by apply elem_of_nil in Hd1.
Qed.

(** Nobody runs and the rows are drained: every slot is inactive and empty. *)
Lemma settled_slot dw w slot x :
  orderly hash_one dw w → rows_inv w → threads w = [] → family w ≠ None →
  slots (runtime w) !! slot = Some x →
  slot_state x = SlotState_Ready Slot_Inactive ∧ pending x = [].
Proof.
  intros (_ & Hsim & Hfam) Hrows Ht Hn Hx.
  destruct (idle_slot w slot x Hfam Ht Hx) as (m & Hm & Hd & Hp & _ & Hrow). split; [|done].
  pose proof (sim_inv _ _ _ Hsim) as Hinv. unfold slots in Hx. rewrite <- (sim_directory _ _ _ Hsim) in Hx.
  destruct (inv_claimed _ _ Hinv slot x Hx) as (k & a & Hc & _ & [?|[Hk|Htaken]]); [done|..].
  - rewrite (sim_directory _ _ _ Hsim), (rows_entries _ Hrows Hn) in Hk. done.
  - destruct (sim_taken _ _ _ Hsim slot Htaken) as [(y & Hy & Hyt)|Hin].
    + rewrite Hx in Hy. by injection Hy as <-.
    + destruct (Hrow Hin) as [->|[b ->]]; [done|by simpl in Hd].
Qed.

Lemma settled_items (a : gmap SlotRef (SlotExecution Pending E L)) :
  (∀ slot x, a !! slot = Some x → slot_state x = SlotState_Ready Slot_Inactive ∧ pending x = []) →
  arena_items a = [].
Proof.
  intros Hall. apply Permutation_nil_r. symmetry. revert Hall.
  induction a as [|slot x a Hx IH] using map_ind; intros Hall.
  - unfold arena_items. by rewrite map_to_list_empty.
  - rewrite arena_items_insert, delete_id by done.
    destruct (Hall slot x) as [Hs Hp]; [apply lookup_insert_eq|].
    unfold execution_items. rewrite Hs, Hp. apply IH. intros s y Hy. apply (Hall s).
    rewrite lookup_insert_ne; [done|]. congruence.
Qed.

(** Rows whose slots are inactive own their keys alone and make a result. *)
Lemma settled_result w rows (task_failures : list TF) :
  rows_inv w → family w = Some rows →
  (∀ slot x, slots (runtime w) !! slot = Some x → slot_state x = SlotState_Ready Slot_Inactive) →
  is_Some (shutdown_result (runtime w) rows task_failures) ∧
  (retirement_failures (runtime w) = [] →
     shutdown_result (runtime w) rows ([] : list TF) = Some (Shutdown_Settled (len rows) rows.*1)).
Proof.
  intros Hrows Hf Hslots. assert (entries (routes (runtime w)) = ∅) as Hempty by (apply rows_entries; [done|by rewrite Hf]).
  pose proof (rows_unique _ Hrows) as Hu. pose proof (rows_receipts _ Hrows) as Hrec.
  pose proof (rows_known _ Hrows) as Hknown. unfold claimed_rows, drained_rows in *. rewrite Hf in *.
  change (default [] (Some rows)) with rows in *. split.
  - unfold shutdown_result.
    destruct (row_entities_Some (E := E) (L := L) (C := C) (O := O) (routes (runtime w)) _
      (retirement_failures (runtime w)) Hu) as [[entities others] Hre]. rewrite Hre. simpl.
    apply row_entities_spec in Hre as (_ & _ & Hleft).
    destruct others as [|receipt others].
    { simpl. destruct task_failures; [case_match|]; by eexists. }
    destruct (Hleft receipt ltac:(by left)) as [Hin Hno]. destruct (Hrec receipt Hin) as (slot & Hs & [?|[k Hk]]).
    + by destruct (Hno slot Hs).
    + by rewrite Hempty in Hk.
  - intros Hnone. unfold shutdown_result. rewrite Hnone.
    rewrite (rows_retired _ Hrows Hnone), app_nil_r in *. rewrite row_entities_none by done.
    simpl. rewrite app_nil_r.
    assert (forallb settled_entity ((λ row, (row.1, disposition (routes (runtime w)) row.2, [])) <$> rows :
      list (I * Result () (option ActivationId) * list (ActivationId * RetirementMode * F))) = true) as ->.
    { apply forallb_forall. intros entity Hin%list_elem_of_In.
      apply list_elem_of_fmap in Hin as ([k slot] & -> & Hin).
      destruct (Hknown slot) as [x Hx]; [apply list_elem_of_fmap; by exists (k, slot)|].
      simpl. unfold disposition. unfold slots in Hx. rewrite Hx. unfold retirement_disposition.
      by rewrite (Hslots slot x Hx). }
    by rewrite <- list_fmap_compose.
Qed.

(** C4: shutdown accounts for everything, and leaves nothing behind when nothing
    unwinds.  When the claimant waits for the end and no task or caller runs, in a
    run with whatever panics, it has drained its rows, and any result it computes
    is settled only without a task failure, without a failed retirement and with
    every row inactive, and otherwise carries all task failures, the disposition of
    every row and every receipt once; so a row that a lost completion leaves
    pending or retiring is reported and not forgotten.  Moreover, if no thread has
    unwound, no row is pending (so the loop ends), every slot ever made is inactive
    with an empty queue, the map is empty, every command and every lease ever
    issued is settled, and no assertion and no [try_unwrap] of the end panics: a
    result is computed for any task failures, and without a task failure and
    without a failed retirement it is settled, with the entity of every row. *)
Theorem shutdown_settles p limit config w :
  DirectoryConfig_new p limit = Ok config → runtime_reachable clone hash_one config w →
  stage w = Stage_Waiting true → threads w = [] →
  ∃ rows, family w = Some rows ∧
    (∀ (task_failures : list TF) result,
       shutdown_result (runtime w) rows task_failures = Some result →
       accounted (runtime w) rows task_failures result) ∧
    (unwound (ledger (runtime w)) = false →
     existsb (row_pending (runtime w)) rows = false ∧
     (∀ slot x, arena (routes (runtime w)) !! slot = Some x →
        slot_state x = SlotState_Ready Slot_Inactive ∧ pending x = []) ∧
     entries (routes (runtime w)) = ∅ ∧
     held w = [] ∧ issued (ledger (runtime w)) ≡ₚ EntityCustody.settled (ledger (runtime w)) ∧
     (∀ task_failures : list TF, is_Some (shutdown_result (runtime w) rows task_failures)) ∧
     (retirement_failures (runtime w) = [] →
        shutdown_result (runtime w) rows ([] : list TF) =
          Some (Shutdown_Settled (len rows) rows.*1))).
Proof.
  intros Hc Hr Hstage Ht. destruct (claimed_family _ _ Hr) as [Hn _]. specialize (Hn Hstage).
  destruct (family w) as [rows|] eqn:Hf; [|done]. exists rows. split; [done|].
  split; [intros tf result; apply shutdown_accounts|]. intros Hun.
  destruct (reachable_rows _ _ _ _ Hc Hr Hun) as [(dw & Hord) Hrows].
  assert (family w ≠ None) as Hfam by (by rewrite Hf).
  assert (∀ slot x, slots (runtime w) !! slot = Some x →
    slot_state x = SlotState_Ready Slot_Inactive ∧ pending x = []) as Hslots.
  { intros slot x. by apply (settled_slot dw w). }
  split_and!; [|done|by apply rows_entries| | | |].
  - apply not_true_is_false. intros ((k & slot) & _ & Hp)%existsb_exists. unfold row_pending in Hp.
    simpl in Hp. destruct (arena _ !! slot) as [x|] eqn:Hx; [|done].
    destruct (Hslots slot x Hx) as [_ Hq]. unfold has_pending in Hp. by rewrite Hq in Hp.
  - unfold held. rewrite Ht. by rewrite settled_items.
  - destruct Hord as (Hcust & _ & _). rewrite (custody_items _ Hcust), (custody_lost _ Hcust Hun).
    unfold held. rewrite Ht, settled_items by done. by rewrite app_nil_r.
  - intros tf. apply (settled_result w); try done. intros slot x Hx. by apply (Hslots slot x).
  - apply (settled_result w rows []); try done. intros slot x Hx. by apply (Hslots slot x).
Qed.
End rows.

(** ** Concrete instances *)

(** Two deliveries for entity 6 in flight. *)
Lemma one_incarnation_per_entity_witness :
  let deliver (id : positive) (c : N) (p : positive) : Action N N N N N N :=
    Deliver 6%N (Some 1%positive) (ActivationId_new 1) (DispatchId_new id) 6%N
      {| origin := 0%N; command := c; publisher := p |} in
  (ByTask, [deliver 1%positive 1%N 1%positive]) ∈ threads delivering_world ∧
  (ByTask, [deliver 2%positive 0%N 2%positive]) ∈ threads delivering_world ∧
  1%positive = 1%positive ∧ Duty_deliver (ActivationId_new 1) = Duty_deliver (ActivationId_new 1).
Proof.
  intros deliver.
  assert ((ByTask, [deliver 1%positive 1%N 1%positive]) ∈ threads delivering_world) as H1.
  { apply list_elem_of_In. vm_compute. tauto. }
  assert ((ByTask, [deliver 2%positive 0%N 2%positive]) ∈ threads delivering_world) as H2.
  { apply list_elem_of_In. vm_compute. tauto. }
  split; [exact H1|]. split; [exact H2|].
  eapply (one_incarnation_per_entity copy_endpoint identity_hash 4 2 small_config delivering_world);
    [done|apply scenario_reachable, delivering_scenario|done|exact H1|by left|done|by left
    |exact H2|by left|done|by left].
Defined.

(** Entities 6 and 7 settle. *)
Lemma shutdown_settles_witness :
  unwound (ledger (runtime settled_world)) = false ∧
  ∃ rows, family settled_world = Some rows ∧
    (∀ (task_failures : list N) result,
       shutdown_result (runtime settled_world) rows task_failures = Some result →
       accounted (runtime settled_world) rows task_failures result) ∧
    (unwound (ledger (runtime settled_world)) = false →
     existsb (row_pending (runtime settled_world)) rows = false ∧
     (∀ slot x, arena (routes (runtime settled_world)) !! slot = Some x →
        slot_state x = SlotState_Ready Slot_Inactive ∧ pending x = []) ∧
     entries (routes (runtime settled_world)) = ∅ ∧
     held settled_world = [] ∧
     issued (ledger (runtime settled_world)) ≡ₚ EntityCustody.settled (ledger (runtime settled_world)) ∧
     (∀ task_failures : list N, is_Some (shutdown_result (runtime settled_world) rows task_failures)) ∧
     (retirement_failures (runtime settled_world) = [] →
        shutdown_result (runtime settled_world) rows ([] : list N) =
          Some (Shutdown_Settled (len rows) rows.*1))).
Proof.
  split; [done|]. apply (shutdown_settles copy_endpoint identity_hash 4 2 small_config); try done.
  apply scenario_reachable, settled_scenario.
Defined.
