(* ===== verification/DriverContract.v ===== *)
(** * What the driver relies on

    The contract between the driver (Driver.v) and its environment, as classes:
    [EnvironmentTyping], what every operation preserves even when it is dropped
    or unwinds, and [EnvironmentContract], what an operation that returns hands
    over.  The driver is proved against them; LocalDriver.v discharges them for
    the local environment. *)

From S2P Require Import Prelude Driver DriverLaw.

(** ** Typing *)

Section typing.
Context {B Event Actions BError W Env Act S I Request EError Residual P : Type}.
Context `{!BehaviorPort B Event Actions BError P}.
Context `{!EnvironmentPort W Env Act Actions Event S I Request EError Residual P}.

Abbreviation driver := (@Driver B Event Actions BError Env Act S I Request EError Residual P)
  (only parsing).
Implicit Types (d : driver) (w : W).

(** [live true] is an incarnation that is not published yet; no later operation
    needs more than [live false]. *)
Class EnvironmentTyping := {
  prepared : Env → Prop;
  live : bool → Act → Prop;
  live_weaken a : live true a → live false a;
  activate_typed w env acts act w' env' acts' act' run :
    activate w env acts act = (w', (env', acts', act'), run) →
    (∀ e, env = Some e → prepared e) → (∀ a i, act = Some (Ok (a, i)) → live true a) →
    (∀ e, env' = Some e → prepared e) ∧ (∀ a i, act' = Some (Ok (a, i)) → live true a);
  next_typed unpublished w a w' a' run :
    live unpublished a → next w a = (w', a', run) → live unpublished a';
  next_source_typed unpublished w a w' a' run :
    live unpublished a → next_source w a = (w', a', run) → live unpublished a';
  apply_typed unpublished w a acts i w' a' slots run :
    live unpublished a → apply w a acts i = (w', a', slots, run) → live unpublished a';
  offer_next_typed unpublished w a input received w' a' slots run :
    live unpublished a → offer_next w a input received = (w', a', slots, run) →
    live unpublished a';
  publish_typed w a w' a' flow :
    live true a → publish w a = (w', a', flow) → live false a'
}.

Context {typing : EnvironmentTyping}.

Definition holds d : Prop :=
  ∀ a, active d = Some a → live (before_publication (phase d)) a.

(** The slots of a driver. *)
Record typed d : Prop := {
  typed_environment e : environment d = Some e → prepared e;
  typed_activation a i : activation d = Some (Ok (a, i)) → live true a;
  typed_active : holds d
}.

Lemma holds_slots d d' :
  active d' = active d → phase d' = phase d → holds d → holds d'.
Proof. intros Ha Hp H a. rewrite Ha, Hp. apply H. Qed.

Lemma live_any unpublished a : live unpublished a → live false a.
Proof. destruct unpublished; [apply live_weaken|done]. Qed.

Lemma holds_verdict d d' : verdict d d' → holds d → holds d'.
Proof. intros [|disp added _] H; [done|]. intros a Ha. eapply live_any, H. exact Ha. Qed.

Lemma holds_phase p d :
  (before_publication p = true → before_publication (phase d) = true) → holds d →
  holds (set_phase p d).
Proof.
  intros Hp H a Ha. specialize (H a Ha). cbn [phase set_phase].
  destruct (before_publication p); [by rewrite Hp in H|by eapply live_any].
Qed.

Lemma holds_active a d : live (before_publication (phase d)) a → holds (set_active (Some a) d).
Proof. by intros H a' [= <-]. Qed.

(** Nothing but the active environment changes, and it stays live. *)
Definition keeps d d' : Prop :=
  holds d' ∧ environment d' = environment d ∧ activation d' = activation d.

Lemma keeps_slots d d' :
  active d' = active d → phase d' = phase d → environment d' = environment d →
  activation d' = activation d → holds d → keeps d d'.
Proof. intros Ha Hp He Hc H. split; [by eapply holds_slots|done]. Qed.

Lemma keeps_verdict d d1 d2 : keeps d d1 → verdict d1 d2 → keeps d d2.
Proof. intros [Hh [He Ha]] Hv. split; [by eapply holds_verdict|]. by destruct Hv. Qed.

Lemma keeps_trans d d1 d2 : keeps d d1 → keeps d1 d2 → keeps d d2.
Proof. intros [_ [He Ha]] [Hh [He' Ha']]. split; [done|]. by rewrite He', Ha'. Qed.

Lemma classify_holds d d' go :
  classify d = (d', go) → holds d →
  keeps d d'.
Proof.
  unfold classify. intros Hc Hd.
  assert (∀ d2, verdict (match interpretation d with Some i => classified i d | None => d end) d2 →
    keeps d d2) as Hend.
  { intros d2 Hv. eapply keeps_verdict; [|exact Hv]. destruct (interpretation d); by apply keeps_slots. }
  destruct (interpretation d) as [i|] eqn:Hi; [|injection Hc as <- <-; by auto].
  destruct (settlement_status i) as [status|payload].
  2: { injection Hc as <- <-. by eapply keeps_verdict; [apply keeps_slots|apply verdict_reject, verdict_refl]. }
  change (settlements (set_interpretation None d)) with (settlements d) in Hc.
  change (decision (set_settlements _ _)) with (decision d) in Hc.
  fold (classified i d) in Hc. change (phase (classified i d)) with (phase d) in Hc.
  assert (∀ p, (before_publication p = true → before_publication (phase d) = true) →
    holds (set_phase p (classified i d))) as Hset.
  { intros p Hp. apply holds_phase; [done|]. by eapply holds_slots; [..|exact Hd]. }
  assert (keeps d (classified i d)) as Hsame by by apply keeps_slots.
  destruct status; [destruct (decision d) as [[]|]| |].
  - destruct (is_Initializing (phase d)) eqn:Hin; injection Hc as <- <-; [|done].
    split; [apply Hset; by destruct (phase d)|done].
  - injection Hc as <- <-. apply Hend, verdict_complete, verdict_refl.
  - injection Hc as <- <-. apply Hend, verdict_reject, verdict_refl.
  - destruct (is_Initializing (phase d)).
    { injection Hc as <- <-. apply Hend, verdict_reject, verdict_refl. }
    destruct (decision d) as [[]|]; injection Hc as <- <-; [done| |].
    + apply Hend, verdict_complete, verdict_refl.
    + apply Hend, verdict_reject, verdict_refl.
  - injection Hc as <- <-. apply Hend, verdict_reject, verdict_refl.
Qed.

(** One operation on the active environment, then what the driver makes of it. *)
Lemma offer_operation_keeps d w act d' w' cs failures :
  active d = Some act → holds d → offer_operation d w act = (d', w', cs, failures) → keeps d d'.
Proof.
  intros Ha Hd. unfold offer_operation. destruct (source_received d).
  { intros [= <- <- <- <-]. by apply keeps_slots. }
  destruct (offer_next _ _ _ _) as [[[w1 act1] [input received]] run] eqn:Ho.
  intros [= <- <- <- <-]. split; [|done].
  apply (holds_active act1 d). eapply offer_next_typed; [by apply Hd|exact Ho].
Qed.

Lemma request_keeps c operation d w act d' w' cs failures :
  (∀ unpublished w a w' a' run, live unpublished a → operation w a = (w', a', run) →
     live unpublished a') →
  active d = Some act → holds d → request c operation d w act = (d', w', cs, failures) →
  keeps d d'.
Proof.
  intros Hop Ha Hd. unfold request. destruct (ingress d).
  { intros [= <- <- <- <-]. by apply keeps_slots. }
  destruct (operation w act) as [[w1 act1] run] eqn:Ho.
  assert (keeps d (set_active (Some act1) d)) as Hk.
  { split; [|done]. apply holds_active. eapply Hop; [by apply Hd|exact Ho]. }
  by destruct (receive_operation run) as [[reply failures']|]; intros [= <- <- <- <-].
Qed.

Lemma apply_turn_keeps d w cs : holds d → keeps d (after (apply_turn d w cs)).
Proof.
  intros Hd. unfold apply_turn. destruct (active d) as [act|] eqn:Ha.
  2: { eapply keeps_verdict; [by apply keeps_slots|apply verdict_reject, verdict_refl]. }
  destruct (apply _ _ _ _) as [[[w1 act1] [acts i]] run] eqn:Ho.
  assert (keeps d (set_interpretation i (set_actions acts (set_active (Some act1) d)))) as Hk.
  { split; [|done]. apply (holds_active act1 d). eapply apply_typed; [by apply Hd|exact Ho]. }
  destruct (receive_operation run) as [[reply failures]|]; [|done]. cbn [after iterate].
  eapply keeps_verdict; [exact Hk|].
  destruct (_ && _); [apply verdict_reject|]; apply verdict_execution_failures, verdict_refl.
Qed.

Lemma fold_turn_keeps d w cs : holds d → keeps d (after (fold_turn d w cs)).
Proof.
  intros Hd. unfold fold_turn.
  assert (∀ d2, verdict (set_ingress None d) d2 → keeps d d2) as Hend
    by (intros d2 Hv; by eapply keeps_verdict; [apply keeps_slots|exact Hv]).
  destruct (ingress d) as [[[event|]|req]|];
    [|apply Hend, verdict_complete, verdict_refl..|apply Hend, verdict_reject, verdict_refl].
  destruct (delegate_transition _ _) as [b folded].
  destruct folded as [acts|error|payload].
  - match goal with |- keeps _ (after (apply_turn ?d1 _ _)) =>
      apply (keeps_trans d d1); [by apply keeps_slots|apply apply_turn_keeps]; exact Hd end.
  - by eapply keeps_verdict; [apply keeps_slots|apply verdict_reject, verdict_refl].
  - by eapply keeps_verdict; [apply keeps_slots|apply verdict_reject, verdict_refl].
Qed.

Lemma offer_turn_keeps d w act index :
  active d = Some act → holds d → keeps d (after (offer_turn d w act index)).
Proof.
  intros Ha Hd. unfold offer_turn.
  destruct (offer_operation d w act) as [[[d1 w1] cs] failures] eqn:Ho.
  pose proof (offer_operation_keeps _ _ _ _ _ _ _ Ha Hd Ho) as Hk.
  destruct failures as [failures|]; [|done].
  assert (keeps d (contract_failed (receive_execution_failures failures d1))) as Hbroken.
  { eapply keeps_verdict; [exact Hk|]. apply verdict_contract, verdict_execution_failures, verdict_refl. }
  destruct (source_input d1); [done|]. destruct (source_received d1) as [custody|]; [|done].
  pose proof (receive_custody_law index custody failures
    (set_source_received None (set_source_index None d1))) as Hc.
  destruct (receive_custody _ _ _ _) as [d2|]; [|by eapply keeps_trans; [exact Hk|apply keeps_slots; [..|apply Hk]]].
  destruct Hc as (q & _ & Hv & _). eapply keeps_verdict; [|exact Hv].
  eapply keeps_trans; [exact Hk|]. apply keeps_slots; [..|apply Hk]; done.
Qed.

Lemma settle_turn_keeps d w act :
  active d = Some act → holds d → keeps d (after (settle_turn d w act)).
Proof.
  intros Ha Hd. unfold settle_turn. destruct (next_row d) as [[index row]|].
  - destruct (vec_remove _ _) as [[removed rest]|]; [|by apply keeps_slots].
    destruct row as [settlement|settlement|settlement]; [by apply keeps_slots| |by apply keeps_slots].
    unfold await_source_turn, insert_row.
    destruct (vec_insert _ _ _) as [q|]; cbn [mbind option_bind]; [|by apply keeps_slots].
    match goal with |- context [request _ _ ?d1 w act] => set (d0 := d1) end.
    assert (keeps d d0) as H0 by by apply keeps_slots.
    destruct (request Call_NextSource next_source d0 w act) as [[[d1 w1] cs] failures] eqn:Hr.
    apply request_keeps in Hr as Hk; [|apply next_source_typed|done|apply H0].
    apply (keeps_trans _ _ _ H0) in Hk. destruct failures as [failures|]; [|done].
    set (d2 := match ingress d1 with Some (Continue None) => _ | _ => _ end).
    assert (keeps d (receive_execution_failures failures d2)) as H2.
    { eapply keeps_verdict; [|apply verdict_execution_failures, verdict_refl].
      unfold d2. destruct (ingress d1) as [[[event|]|req]|]; [done| |done..].
      eapply keeps_verdict; [|apply verdict_reject, verdict_refl].
      eapply keeps_trans; [exact Hk|]. apply keeps_slots; [..|apply Hk]; done. }
    destruct (is_Retiring _); [done|]. destruct (negb _).
    + eapply keeps_verdict; [exact H2|apply verdict_reject, verdict_refl].
    + eapply keeps_trans; [exact H2|apply fold_turn_keeps, H2].
  - destruct (is_SettlingInitialization (phase d)) eqn:Hs.
    + unfold publish_turn. destruct (publish w act) as [[w1 act1] publication] eqn:Ho.
      assert (live false act1) as Hl.
      { eapply publish_typed; [|exact Ho]. specialize (Hd act Ha). by destruct (phase d). }
      cbn [after iterate]. split; [|by destruct publication as [[]|]; cbn; unfold complete, reject;
        cbn [disposition set_active]; try destruct (disposition d)].
      intros a. destruct publication as [[[]|req]|payload].
      * by intros [= <-].
      * rewrite phase_complete. intros Hact. unfold complete in Hact. cbn [disposition set_active] in Hact.
        by destruct (disposition d); injection Hact as <-.
      * rewrite phase_reject. intros Hact. unfold reject in Hact. cbn [disposition set_active] in Hact.
        by destruct (disposition d); injection Hact as <-.
    + unfold ordinary_turn.
      destruct (request Call_Next next d w act) as [[[d1 w1] cs] failures] eqn:Hr.
      apply request_keeps in Hr as Hk; [|apply next_typed|done|done].
      destruct failures as [failures|]; [|done].
      assert (keeps d (receive_execution_failures failures d1)) as H2
        by (eapply keeps_verdict; [exact Hk|apply verdict_execution_failures, verdict_refl]).
      destruct (is_Retiring _); [done|].
      eapply keeps_trans; [exact H2|apply fold_turn_keeps, H2].
Qed.

Lemma running_turn_keeps d w : holds d → keeps d (after (running_turn d w)).
Proof.
  intros Hd. unfold running_turn. destruct (classify d) as [d1 go] eqn:Hc.
  apply classify_holds in Hc as Hk; [|done].
  destruct go; [|done]. cbn [negb]. destruct (active d1) as [act|] eqn:Ha.
  - eapply keeps_trans; [exact Hk|]. destruct (source_index d1).
    + apply offer_turn_keeps; [done|apply Hk].
    + apply settle_turn_keeps; [done|apply Hk].
  - eapply keeps_verdict; [exact Hk|apply verdict_reject, verdict_refl].
Qed.

Lemma typed_keeps d d' : typed d → keeps d d' → typed d'.
Proof.
  intros [He Ha _] [Hh [Hk1 Hk2]]. split; [by rewrite Hk1|by rewrite Hk2|done].
Qed.

Lemma activating_turn_typed d w :
  phase d = Activating → typed d → typed (after (activating_turn d w)).
Proof.
  intros Hp Hd. unfold activating_turn.
  destruct (activate _ _ _ _) as [[w1 [[env1 acts1] act1]] run] eqn:Ho.
  apply activate_typed in Ho as [He Ha]; [|apply Hd..].
  assert (typed (set_activation act1 (set_actions acts1 (set_environment env1 d)))) as Hslots.
  { split; [done|done|]. intros a Hact. by apply Hd. }
  destruct (receive_operation run) as [[reply failures]|]; [|done].
  assert (∀ d1 d2, typed d1 → verdict d1 d2 → typed d2) as Hend.
  { intros d1 d2 H1 Hv. eapply typed_keeps; [exact H1|].
    eapply keeps_verdict; [|exact Hv]. apply keeps_slots; try done. by apply H1. }
  destruct (is_some env1 || is_some acts1 || negb (is_some act1)) eqn:Hm.
  { eapply Hend; [exact Hslots|]. apply verdict_contract, verdict_activation_failures, verdict_refl. }
  destruct env1, acts1, act1 as [[[act i]|[error r]]|]; try done; cbn [after iterate].
  - change (phase (set_interpretation _ _)) with (phase d). rewrite Hp. cbn [is_Retiring].
    eapply Hend; [|apply verdict_activation_failures, verdict_refl].
    split; [done|done|]. intros a [= <-]. by eapply Ha.
  - eapply Hend; [|apply verdict_activation_failures, verdict_reject, verdict_refl].
    split; [done|done|]. intros a Hact. by apply Hd.
Qed.

(** One iteration that does not attempt retirement. *)
Lemma drive_step_typed d w :
  typed d → phase (after (drive_step d w)) ≠ RetirementAttempted → typed (after (drive_step d w)).
Proof.
  intros Hd. pose proof (typed_active d Hd) as Hh. unfold drive_step. destruct (phase d) eqn:Hp.
  - intros _. unfold prepared_turn. destruct (initialize _) as [b folded].
    eapply typed_keeps; [exact Hd|].
    assert (keeps d (set_behavior b (set_phase Activating d))) as Hk.
    { split; [|done]. eapply holds_slots; [..|apply (holds_phase Activating d)]; [done|done| |done].
      by rewrite Hp. }
    destruct folded; cbn [after iterate].
    + eapply keeps_trans; [exact Hk|]. by apply keeps_slots; [..|apply Hk].
    + eapply keeps_verdict; [exact Hk|apply verdict_reject, verdict_refl].
    + eapply keeps_verdict; [exact Hk|apply verdict_reject, verdict_refl].
  - intros _. by apply activating_turn_typed.
  - intros _. by eapply typed_keeps, running_turn_keeps.
  - intros _. by eapply typed_keeps, running_turn_keeps.
  - intros _. by eapply typed_keeps, running_turn_keeps.
  - unfold retiring_turn. destruct (_ && _); [done|].
    destruct (gather_retirement d) as [d1|] eqn:Hg; [|done].
    assert (keeps d d1) as Hk.
    { unfold gather_retirement in Hg. destruct (retirement_input d); [injection Hg as <-; by apply keeps_slots|].
      destruct (active d) eqn:Ha; [|injection Hg as <-; by apply keeps_slots].
      destruct (source_input d), (source_index d);
        unfold insert_row in Hg; try destruct (vec_insert _ _ _); try done;
        injection Hg as <-; apply keeps_slots; try done; cbn; by rewrite Ha. }
    assert (typed d1) as Hd1 by by eapply typed_keeps.
    destruct (environment d1), (active d1), (residual d1); try (by intros _).
    + unfold retire_prepared_turn. destruct (retire_prepared _ _ _ _) as [[w1 [[env1 acts1] r1]] run].
      by destruct (receive_operation run) as [[reply failures]|].
    + unfold retire_active_turn.
      destruct (retire_active _ _ _ _ _ _ _ _ _) as [[w1 [[[[[[[act1 acts1] i1] rec1] ix1] ing1] own1] r1]] run].
      by destruct (receive_operation run) as [[reply failures]|].
  - by intros [].
Qed.

(** Every history keeps the environments it has typed, until it attempts
    retirement. *)
Lemma driven_typed b env cs d :
  prepared env → driven b env cs d → phase d ≠ RetirementAttempted → typed d.
Proof.
  intros Hp Hd. induction Hd as [|cs d w Hd IH Hf]; intros Hne.
  - split; [by intros e [= <-]|done|done].
  - destruct (decide (phase d = RetirementAttempted)) as [Ha|Ha].
    + contradict Hne. unfold drive_step. by rewrite Ha.
    + apply drive_step_typed; auto.
Qed.
End typing.

(** ** Handing over *)

Section contract.
Context {B Event Actions BError W Env Act S I Request EError Residual P : Type}.
Context `{!BehaviorPort B Event Actions BError P}.
Context `{!EnvironmentPort W Env Act Actions Event S I Request EError Residual P}.

Abbreviation driver := (@Driver B Event Actions BError Env Act S I Request EError Residual P)
  (only parsing).
Implicit Types (d : driver) (w : W) (cs : list (@Call Event Actions S)).

(** What an operation that was not dropped leaves: [returned] when it replied,
    [unwound] when it unwound after its construction. *)
Definition completes (returned unwound : Prop) (run : HostRun () P) : Prop :=
  match run with
  | Run_Constructor _ => False
  | Run_Pending => True
  | Run_Polled (inl _) _ => returned
  | Run_Polled (inr _) _ => unwound
  end.

(** [fresh] is an environment that was not activated, [held] one with the
    actions still outside it that retires completely; [idle] is an incarnation
    between two turns, [leavable] one that retires completely. *)
Class EnvironmentContract := {
  fresh : Env → Prop;
  held : Env → option Actions → Prop;
  idle : Act → Prop;
  leavable : Act → Prop;
  fresh_held e : fresh e → held e None;
  idle_leavable a : idle a → leavable a;
  activate_completes w e acts w' env acts' act run :
    fresh e → activate w (Some e) (Some acts) None = (w', (env, acts', act), run) →
    completes
      (env = None ∧ acts' = None ∧
       ((∃ a i, act = Some (Ok (a, i)) ∧ idle a) ∨ ∃ error r, act = Some (Err (error, r))))
      (∃ e', env = Some e' ∧ held e' acts' ∧ act = None) run;
  next_completes w a w' a' run : idle a → next w a = (w', a', run) → idle a';
  next_source_completes w a w' a' run : idle a → next_source w a = (w', a', run) → idle a';
  apply_completes w a acts w' a' acts' i run :
    idle a → apply w a (Some acts) None = (w', a', (acts', i), run) →
    completes (idle a' ∧ acts' = None ∧ is_Some i) (leavable a' ∧ acts' = None ∧ i = None) run;
  offer_next_completes w a s w' a' input received run :
    idle a → offer_next w a (Some s) None = (w', a', (input, received), run) →
    completes (idle a' ∧ input = None ∧ is_Some received)
      (leavable a' ∧ input = None ∧ received = None) run;
  publish_completes w a w' a' flow : idle a → publish w a = (w', a', flow) → idle a';
  retire_prepared_completes w e acts w' env acts' r run :
    held e acts → retire_prepared w (Some e) acts None = (w', (env, acts', r), run) →
    completes (env = None ∧ acts' = None ∧ is_Some r) True run;
  retire_active_completes w a i custody index ing rows w' slots run :
    leavable a → retire_active w (Some a) None i custody index ing (Some rows) None = (w', slots, run) →
    completes (∃ r, slots = (None, None, None, None, None, None, None, Some r)) True run
}.

Context {contract : EnvironmentContract}.

(** No failure says that the environment broke its contract. *)
Definition honoured (error : DriverError BError EError P) : Prop :=
  error ≠ Error_InterpreterContractFailed.
Definition quiet d : Prop :=
  disposition d ≠ Some (Err Error_InterpreterContractFailed) ∧
  Forall honoured (additional_failures d).

Lemma quiet_slots d d' :
  disposition d' = disposition d → additional_failures d' = additional_failures d → quiet d → quiet d'.
Proof. unfold quiet. by intros -> ->. Qed.

Lemma quiet_reject error d : honoured error → quiet d → quiet (reject error d).
Proof.
  unfold quiet, reject. intros He [Hd Hf]. destruct (disposition d) eqn:Hs.
  - split; [cbn; congruence|]. cbn. apply Forall_app. by repeat constructor.
  - split; [|done]. cbn. by intros [= ->].
Qed.

Lemma quiet_complete completion d : quiet d → quiet (complete completion d).
Proof. unfold quiet, complete. intros [Hd Hf]. destruct (disposition d) eqn:Hs; cbn; [by rewrite Hs|done]. Qed.

Lemma quiet_execution_failures failures d : quiet d → quiet (receive_execution_failures failures d).
Proof. revert d. induction failures as [|p l IH]; intros d Hq; [done|]. by apply IH, quiet_reject. Qed.
Lemma quiet_activation_failures failures d : quiet d → quiet (receive_activation_failures failures d).
Proof. revert d. induction failures as [|p l IH]; intros d Hq; [done|]. by apply IH, quiet_reject. Qed.
Lemma quiet_retirement_failures failures d : quiet d → quiet (receive_retirement_failures failures d).
Proof.
  intros [Hd Hf]. split; [done|]. apply Forall_app. split; [done|].
  apply Forall_map. by apply Forall_true.
Qed.

(** The slots of a running incarnation: what is on offer is outside the queue. *)
Record carries (a : Act) d : Prop := {
  carries_environment : environment d = None;
  carries_active : active d = Some a;
  carries_actions : actions d = None;
  carries_activation : activation d = None;
  carries_source : is_Some (source_input d) → is_Some (source_index d) ∧ source_received d = None;
  carries_retirement : retirement_input d = None;
  carries_residual : residual d = None
}.

Record runs a d : Prop := {
  runs_carries : carries a d;
  runs_idle : idle a;
  runs_received : source_received d = None;
  runs_offered : is_Some (source_index d) → is_Some (source_input d);
  runs_ingress : ingress d = None;
  runs_decision : is_Some (interpretation d) → is_Some (decision d)
}.

(** Nothing is in a slot of the driver but in its environment. *)
Record empty d : Prop := {
  empty_active : active d = None;
  empty_activation : activation d = None;
  empty_interpretation : interpretation d = None;
  empty_source : source_input d = None ∧ source_received d = None ∧ source_index d = None;
  empty_ingress : ingress d = None;
  empty_settlements : settlements d = [];
  empty_retirement : retirement_input d = None
}.

(** Where an uninterrupted run can be. *)
Inductive abides d : Prop :=
  | abides_prepared e :
      phase d = Prepared → empty d → environment d = Some e → fresh e → actions d = None →
      residual d = None → disposition d = None → abides d
  | abides_activating e a :
      phase d = Activating → empty d → environment d = Some e → fresh e → actions d = Some a →
      is_Some (decision d) → residual d = None → disposition d = None → abides d
  | abides_running a : DriverLaw.is_running (phase d) = true → runs a d → abides d
  | abides_retiring_prepared e :
      phase d = Retiring → empty d → environment d = Some e → held e (actions d) →
      residual d = None → is_Some (disposition d) → abides d
  | abides_retiring_active a :
      phase d = Retiring → carries a d → leavable a → is_Some (disposition d) → abides d
  | abides_rejected :
      phase d = Retiring → empty d → environment d = None → actions d = None →
      is_Some (residual d) → is_Some (disposition d) → abides d.

(** An operation changed the incarnation and slots that do not matter. *)
Lemma carries_with a a' d d' :
  active d' = Some a' → environment d' = environment d → actions d' = actions d →
  activation d' = activation d → source_input d' = source_input d →
  source_index d' = source_index d → source_received d' = source_received d →
  retirement_input d' = retirement_input d → residual d' = residual d →
  carries a d → carries a' d'.
Proof. intros H1 H2 H3 H4 H5 H6 H7 H8 H9 []. split; try congruence. by rewrite H5, H6, H7. Qed.

Lemma carries_slots a d d' :
  active d' = active d → environment d' = environment d → actions d' = actions d →
  activation d' = activation d → source_input d' = source_input d →
  source_index d' = source_index d → source_received d' = source_received d →
  retirement_input d' = retirement_input d → residual d' = residual d →
  carries a d → carries a d'.
Proof.
  intros H1 H2 H3 H4 H5 H6 H7 H8 H9 Hc. apply (carries_with a a d); try done.
  rewrite H1. apply Hc.
Qed.

Lemma carries_verdict a d d' : verdict d d' → carries a d → carries a d'.
Proof. intros []; [done|]. by apply carries_slots. Qed.

Lemma disposition_reject error d : is_Some (disposition (reject error d)).
Proof. unfold reject. by destruct (disposition d) eqn:Hd; cbn; [rewrite Hd|]. Qed.
Lemma disposition_complete completion d : is_Some (disposition (complete completion d)).
Proof. unfold complete. by destruct (disposition d) eqn:Hd; cbn; [rewrite Hd|]. Qed.
Lemma disposition_verdict d d' : verdict d d' → is_Some (disposition d) → is_Some (disposition d').
Proof. by intros []. Qed.

(** The owner after a turn: in order, and ready for the next one. *)
Definition proceeds d : Prop := abides d ∧ quiet d.

Lemma proceeds_running a d :
  DriverLaw.is_running (phase d) = true → runs a d → quiet d → proceeds d.
Proof. intros Hp Hr Hq. split; [by eapply abides_running|done]. Qed.

Lemma proceeds_reject a d error :
  carries a d → leavable a → quiet d → honoured error → proceeds (reject error d).
Proof.
  intros Hc Hl Hq He. split; [|by apply quiet_reject].
  eapply abides_retiring_active; [apply phase_reject| |done|apply disposition_reject].
  eapply carries_verdict; [apply verdict_reject, verdict_refl|done].
Qed.

Lemma proceeds_complete a d completion :
  carries a d → leavable a → quiet d → proceeds (complete completion d).
Proof.
  intros Hc Hl Hq. split; [|by apply quiet_complete].
  eapply abides_retiring_active; [apply phase_complete| |done|apply disposition_complete].
  eapply carries_verdict; [apply verdict_complete, verdict_refl|done].
Qed.

(** Failures caught around an operation that left the owner as it should. *)
Lemma proceeds_failures a d failures :
  carries a d → leavable a → quiet d →
  is_Retiring (phase (receive_execution_failures failures d)) = true →
  (phase d = Retiring → is_Some (disposition d)) →
  proceeds (receive_execution_failures failures d).
Proof.
  intros Hc Hl Hq Hr Hd. split; [|by apply quiet_execution_failures].
  eapply abides_retiring_active; [by destruct (phase _)| |done|].
  - eapply carries_verdict; [apply verdict_execution_failures, verdict_refl|done].
  - destruct failures as [|p l]; [apply Hd; cbn in Hr; by destruct (phase d)|].
    eapply disposition_verdict; [|apply disposition_reject].
    apply (verdict_execution_failures _ _ l), verdict_refl.
Qed.

Lemma no_failures_running d failures :
  is_Retiring (phase d) = false →
  is_Retiring (phase (receive_execution_failures failures d)) = false →
  failures = [].
Proof.
  destruct failures as [|p l]; [done|]. intros _ Hr. cbn in Hr.
  assert (phase (receive_execution_failures l (reject (Error_HostExecutionPanicked p) d)) = Retiring)
    as Hp by apply phase_execution_failures, phase_reject.
  unfold receive_execution_failures in Hp. by rewrite Hp in Hr.
Qed.

Lemma classify_proceeds a d d' go :
  DriverLaw.is_running (phase d) = true → runs a d → quiet d → classify d = (d', go) →
  if go then DriverLaw.is_running (phase d') = true ∧ runs a d' ∧ quiet d' ∧ interpretation d' = None
  else proceeds d'.
Proof.
  intros Hp Hr Hq. pose proof (runs_carries _ _ Hr) as Hc.
  pose proof (idle_leavable _ (runs_idle _ _ Hr)) as Hl. unfold classify.
  destruct (interpretation d) as [i|] eqn:Hi; [|by intros [= <- <-]].
  destruct (settlement_status i) as [status|payload].
  2: { intros [= <- <-]. by eapply proceeds_reject. }
  change (settlements (set_interpretation None d)) with (settlements d).
  change (decision (set_settlements _ _)) with (decision d). fold (classified i d).
  change (phase (classified i d)) with (phase d).
  destruct (runs_decision _ _ Hr) as [chosen Hdec]; [by rewrite Hi|]. rewrite Hdec.
  assert (carries a (classified i d)) as Hc' by by eapply carries_slots; [..|exact Hc].
  assert (quiet (classified i d)) as Hq' by by eapply quiet_slots; [..|exact Hq].
  assert (∀ p, runs a (set_phase p (classified i d))) as Hr'.
  { intros p. destruct Hr. split; try done; [by eapply carries_slots; [..|exact Hc]|by intros []]. }
  assert (∀ p, DriverLaw.is_running p = true →
    DriverLaw.is_running (phase (set_phase p (classified i d))) = true ∧
    runs a (set_phase p (classified i d)) ∧ quiet (set_phase p (classified i d)) ∧
    interpretation (set_phase p (classified i d)) = None) as Hgo.
  { intros p Hrun. split_and!; [done|done| |done]. by eapply quiet_slots; [..|exact Hq]. }
  assert (set_phase (phase d) (classified i d) = classified i d) as Hsame by done.
  pose proof (Hgo (phase d) Hp) as Hstay. rewrite Hsame in Hstay.
  pose proof (Hgo SettlingInitialization eq_refl) as Hsettle.
  destruct status; [destruct chosen|destruct (is_Initializing (phase d)); [|destruct chosen]|].
  - by destruct (is_Initializing (phase d)); intros [= <- <-].
  - intros [= <- <-]. by eapply proceeds_complete.
  - intros [= <- <-]. by eapply proceeds_reject.
  - by intros [= <- <-].
  - intros [= <- <-]. by eapply proceeds_complete.
  - intros [= <- <-]. by eapply proceeds_reject.
Qed.

(** The reply of an operation that was not dropped. *)
Lemma completes_received returned unwound (run : HostRun () P) reply failures :
  completes returned unwound run → receive_operation run = Some (reply, failures) →
  returned ∨ unwound ∧ failures ≠ [].
Proof.
  destruct run as [payload| |[x|payload] disposal]; cbn; try done; intros Hr; [by left|].
  intros [= <- <-]. by right.
Qed.

Lemma apply_proceeds a d w cs acts :
  DriverLaw.is_running (phase d) = true → actions d = Some acts → is_Some (decision d) →
  interpretation d = None → runs a (set_actions None d) → quiet d →
  flow (apply_turn d w cs) = Loop_Again → proceeds (after (apply_turn d w cs)).
Proof.
  intros Hp Ha Hdec Hi Hr Hq. unfold apply_turn.
  change (active d) with (active (set_actions None d)).
  rewrite (carries_active _ _ (runs_carries _ _ Hr)), Ha, Hi.
  destruct (apply w a (Some acts) None) as [[[w1 a1] [acts1 i1]] run] eqn:Ho.
  apply apply_completes in Ho; [|apply Hr].
  destruct (receive_operation run) as [[reply failures]|] eqn:Hrun; [|done]. intros _.
  cbn [after iterate]. destruct (completes_received _ _ _ _ _ Ho Hrun) as
    [(Hidle & -> & Hsome) | ((Hl & -> & ->) & Hne)].
  - set (d1 := set_interpretation i1 (set_actions None (set_active (Some a1) d))).
    assert (runs a1 d1) as Hr1.
    { destruct Hr as [Hc ? ? Ho' ? ?].
      split; [by eapply carries_with; [..|exact Hc]|done|done|exact Ho'|done|by intros _]. }
    assert (quiet d1) as Hq1 by by eapply quiet_slots; [..|exact Hq].
    destruct i1 as [i|]; [|by destruct Hsome]. cbn [is_some negb orb andb].
    destruct (is_Retiring (phase (receive_execution_failures failures d1))) eqn:Hret.
    + eapply proceeds_failures; [apply Hr1|by apply idle_leavable|done|done|].
      intros Hph. by change (phase d = Retiring) in Hph; rewrite Hph in Hp.
    + rewrite (no_failures_running d1 failures); [|change (is_Retiring (phase d) = false); by destruct (phase d)|done].
      eapply proceeds_running; [|exact Hr1|done]. done.
  - set (d1 := set_interpretation None (set_actions None (set_active (Some a1) d))).
    assert (carries a1 d1) as Hc1.
    { destruct Hr as [Hc ? ? ? ? ?]. by eapply carries_with; [..|exact Hc]. }
    assert (phase (receive_execution_failures failures d1) = Retiring) as Hret.
    { destruct failures as [|p l]; [done|].
      apply (phase_execution_failures l), phase_reject. }
    rewrite Hret. cbn [is_Retiring negb andb is_some orb].
    eapply proceeds_failures; [exact Hc1|done|by eapply quiet_slots; [..|exact Hq]|by rewrite Hret|].
    intros Hph. by change (phase d = Retiring) in Hph; rewrite Hph in Hp.
Qed.

(** A running owner that acquired an ingress. *)
Record folding a d : Prop := {
  folding_phase : DriverLaw.is_running (phase d) = true;
  folding_carries : carries a d;
  folding_idle : idle a;
  folding_received : source_received d = None;
  folding_offered : source_index d = None;
  folding_interpretation : interpretation d = None;
  folding_quiet : quiet d
}.

Lemma fold_proceeds a d w cs :
  folding a d → is_Some (ingress d) →
  flow (fold_turn d w cs) = Loop_Again → proceeds (after (fold_turn d w cs)).
Proof.
  intros [Hp Hc Hid Hrec Hix Hi Hq] [input Hin]. unfold fold_turn. rewrite Hin.
  assert (carries a (set_ingress None d)) as Hc0 by by eapply carries_slots; [..|exact Hc].
  assert (quiet (set_ingress None d)) as Hq0 by by eapply quiet_slots; [..|exact Hq].
  pose proof (idle_leavable _ Hid) as Hl.
  destruct input as [[event|]|req].
  - destruct (delegate_transition _ _) as [b folded].
    assert (carries a (set_behavior b (set_ingress None d))) as Hc1
      by by eapply carries_slots; [..|exact Hc].
    assert (quiet (set_behavior b (set_ingress None d))) as Hq1 by by eapply quiet_slots; [..|exact Hq].
    destruct folded as [acts|error|payload].
    + apply (apply_proceeds a _ _ _ acts); [done|done|done|done| |by eapply quiet_slots; [..|exact Hq]].
      split; [|done|done|cbn; by rewrite Hix; intros []|done|done].
      destruct Hc. by split.
    + intros _. by eapply proceeds_reject.
    + intros _. by eapply proceeds_reject.
  - intros _. by eapply proceeds_complete.
  - intros _. by eapply proceeds_complete.
Qed.

Lemma offer_operation_proceeds a d w index d' w' cs failures :
  runs a d → source_index d = Some index → quiet d →
  offer_operation d w a = (d', w', cs, Some failures) →
  phase d' = phase d ∧ quiet d' ∧ source_input d' = None ∧ settlements d' = settlements d ∧
  ((∃ a' custody, source_received d' = Some custody ∧ idle a' ∧
      carries a' (set_source_received None (set_source_index None d')) ∧ ingress d' = None ∧
      (is_Some (interpretation d') → is_Some (decision d'))) ∨
   ∃ a', source_received d' = None ∧ leavable a' ∧ carries a' d' ∧ failures ≠ []).
Proof.
  intros Hr Hix Hq. unfold offer_operation. rewrite (runs_received _ _ Hr).
  destruct (runs_offered _ _ Hr) as [s Hs]; [by rewrite Hix|]. rewrite Hs.
  destruct (offer_next w a (Some s) None) as [[[w1 a1] [input received]] run] eqn:Ho.
  apply offer_next_completes in Ho; [|apply Hr]. pose proof (runs_carries _ _ Hr) as Hc.
  intros Heq. injection Heq as Hd' _ _ Hrun.
  destruct (receive_operation run) as [[reply failures']|] eqn:Hrun'; [|done].
  cbn in Hrun. injection Hrun as ->.
  destruct (completes_received _ _ _ _ _ Ho Hrun') as
    [(Hidle & -> & [custody ->]) | ((Hl & -> & ->) & Hne)]; subst d';
    (split; [done|]); (split; [by eapply quiet_slots; [..|exact Hq]|]); (split; [done|]);
    (split; [done|]).
  - left. exists a1, custody. split_and!; [done|done| |apply Hr|apply Hr].
    destruct Hc. split; try done. by intros [].
  - right. exists a1. split_and!; [done|done| |done].
    destruct Hc. by split.
Qed.

Lemma receive_custody_quiet index custody failures d d' :
  receive_custody index custody failures d = Some d' → quiet d → quiet d'.
Proof.
  unfold receive_custody, insert_row. intros Hc Hq.
  destruct custody as [s|s|s|s];
    [|destruct (vec_insert _ _ _) as [q|]; cbn [mbind option_bind] in Hc; [|done]..].
  - injection Hc as <-. destruct (drop_settlement s); [apply quiet_reject; [done|]|];
      by apply quiet_execution_failures.
  - injection Hc as <-. apply quiet_execution_failures. by eapply quiet_slots; [..|exact Hq].
  - injection Hc as <-. apply quiet_execution_failures. by eapply quiet_slots; [..|exact Hq].
  - injection Hc as <-. apply quiet_execution_failures, quiet_reject; [done|].
    by eapply quiet_slots; [..|exact Hq].
Qed.

(** A verdict on an owner that could go on. *)
Lemma proceeds_verdict a d d' :
  DriverLaw.is_running (phase d) = true → runs a d → verdict d d' → quiet d' → proceeds d'.
Proof.
  intros Hp Hr [|disp added _] Hq; [by eapply proceeds_running|].
  split; [|done]. eapply (abides_retiring_active _ a); [done| |apply idle_leavable, Hr|done].
  eapply carries_slots; [..|apply (runs_carries _ _ Hr)]; done.
Qed.

Lemma offer_proceeds a d w index :
  DriverLaw.is_running (phase d) = true → runs a d → source_index d = Some index → quiet d →
  flow (offer_turn d w a index) = Loop_Again → proceeds (after (offer_turn d w a index)).
Proof.
  intros Hp Hr Hix Hq. unfold offer_turn.
  destruct (offer_operation d w a) as [[[d1 w1] cs] [failures|]] eqn:Ho; [|done].
  destruct (offer_operation_proceeds _ _ _ _ _ _ _ _ Hr Hix Hq Ho) as (Hp1 & Hq1 & -> & _ & Hcase).
  destruct Hcase as [(a' & custody & -> & Hid & Hc & Hing & Hdec)|(a' & -> & Hl & Hc & Hne)].
  - pose proof (receive_custody_law index custody failures
      (set_source_received None (set_source_index None d1))) as Hlaw.
    destruct (receive_custody _ _ _ _) as [d2|] eqn:Hrc; [|done]. intros _.
    destruct Hlaw as (q & _ & Hv & _).
    apply receive_custody_quiet in Hrc as Hq2; [|by eapply quiet_slots; [..|exact Hq1]].
    eapply (proceeds_verdict a'); [| |exact Hv|exact Hq2].
    + change (DriverLaw.is_running (phase d1) = true). by rewrite Hp1.
    + split; [by eapply carries_slots; [..|exact Hc]|done|done|by intros []|done|done].
  - intros _. destruct failures as [|p l]; [done|].
    assert (phase (receive_execution_failures (p :: l) d1) = Retiring) as Hret
      by (apply (phase_execution_failures l), phase_reject).
    unfold contract_failed. cbn [after iterate]. rewrite Hret. cbn [is_Retiring].
    eapply proceeds_failures; [exact Hc|done|done|by rewrite Hret|].
    rewrite Hp1. by intros Hph; rewrite Hph in Hp.
Qed.

(** An event is asked of an idle incarnation. *)
Lemma request_proceeds call operation a d w d' w' cs failures :
  (∀ w a w' a' run, idle a → operation w a = (w', a', run) → idle a') →
  DriverLaw.is_running (phase d) = true → runs a d → source_index d = None → interpretation d = None →
  quiet d → request call operation d w a = (d', w', cs, Some failures) →
  (∃ a', folding a' d') ∧ (is_Some (ingress d') ∨ failures ≠ []) ∧ phase d' = phase d.
Proof.
  intros Hop Hp Hr Hix Hi Hq. unfold request. rewrite (runs_ingress _ _ Hr).
  destruct (operation w a) as [[w1 a1] run] eqn:Ho. apply Hop in Ho as Hid; [|apply Hr].
  destruct (receive_operation run) as [[reply failures']|] eqn:Hrun; [|done].
  intros [= <- <- <- <-]. split_and!; [|  |done].
  - exists a1. destruct Hr as [Hc _ Hrec _ _ _].
    split; [done|by eapply carries_with; [..|exact Hc]|done|done|done|done|].
    by eapply quiet_slots; [..|exact Hq].
  - destruct run as [payload| |[x|payload] disposal]; cbn in Hrun; try done;
      injection Hrun as <- <-; by eauto.
Qed.

Lemma asked_proceeds a d w cs failures :
  folding a d → is_Some (ingress d) ∨ failures ≠ [] →
  let d' := receive_execution_failures failures d in
  (is_Retiring (phase d') = true → proceeds d') ∧
  (is_Retiring (phase d') = false → is_Some (ingress d) ∧ d' = d ∧
     (flow (fold_turn d w cs) = Loop_Again → proceeds (after (fold_turn d w cs)))).
Proof.
  intros Hf Hin d'. pose proof (folding_phase _ _ Hf) as Hp. split.
  - intros Hret. eapply proceeds_failures; [apply Hf|apply idle_leavable, Hf|apply Hf|done|].
    by intros Hph; rewrite Hph in Hp.
  - intros Hret. assert (failures = []) as ->.
    { apply (no_failures_running d); [by destruct (phase d)|done]. }
    destruct Hin as [Hin|]; [|done]. split; [done|]. split; [done|]. by eapply fold_proceeds.
Qed.

Lemma settle_proceeds a d w :
  DriverLaw.is_running (phase d) = true → runs a d → source_index d = None → interpretation d = None →
  quiet d → flow (settle_turn d w a) = Loop_Again → proceeds (after (settle_turn d w a)).
Proof.
  intros Hp Hr Hix Hi Hq. unfold settle_turn.
  destruct (next_row d) as [[index row]|] eqn:Hn.
  - destruct (next_row_offer _ _ _ Hn) as [Hl _].
    unfold vec_remove. rewrite Hl. cbn [mbind option_bind].
    destruct row as [s|s|s]; [| |done].
    + intros _. eapply (proceeds_running a); [done| |by eapply quiet_slots; [..|exact Hq]].
      destruct Hr as [[] ? ? ? ? ?]. by split; [split|..].
    + unfold await_source_turn, insert_row. cbn [settlements set_settlements].
      rewrite (vec_insert_removed _ _ _ _ Hl). cbn [mbind option_bind].
      change (set_settlements ?x (set_settlements _ d)) with (set_settlements x d).
      set (d0 := set_settlements _ d).
      assert (runs a d0) as Hr0.
      { destruct Hr as [Hc ? ? Hoff ? ?].
        split; [by eapply carries_slots; [..|exact Hc]|done|done|exact Hoff|done|done]. }
      destruct (request Call_NextSource next_source d0 w a) as [[[d1 w1] cs] [failures|]] eqn:Hreq; [|done].
      apply request_proceeds in Hreq as ((a1 & Hf) & Hin & Hph);
        [|apply next_source_completes|done|done|done|done|by eapply quiet_slots; [..|exact Hq]].
      pose proof (asked_proceeds _ _ w1 cs failures Hf Hin) as [Hret Hgo].
      destruct (ingress d1) as [[[event|]|req]|] eqn:Hing.
      2: { intros _.
        assert (proceeds (receive_execution_failures failures
          (reject (Error_Settlement Failure_SourceClosed) (set_ingress None d1)))) as Hend.
        { eapply (proceeds_failures a1).
          - eapply carries_verdict; [apply verdict_reject, verdict_refl|].
            eapply carries_slots; [..|apply (folding_carries _ _ Hf)]; done.
          - apply idle_leavable, Hf.
          - apply quiet_reject; [done|]. eapply quiet_slots; [..|apply (folding_quiet _ _ Hf)]; done.
          - rewrite phase_execution_failures; [done|apply phase_reject].
          - intros _. apply disposition_reject. }
        rewrite phase_execution_failures in * by apply phase_reject. done. }
      all: destruct (is_Retiring (phase (receive_execution_failures failures d1))) eqn:Hr1;
        [by intros _; apply Hret|];
        destruct (Hgo eq_refl) as (Hs & Heq & Hfold).
      1: { rewrite Heq, Hing. exact Hfold. }
      1: { rewrite Heq, Hing. exact Hfold. }
      by destruct Hs.
  - destruct (is_SettlingInitialization (phase d)) eqn:Hs.
    + unfold publish_turn. destruct (publish w a) as [[w1 a1] publication] eqn:Ho.
      apply publish_completes in Ho as Hid; [|apply Hr]. intros _. cbn [after iterate].
      destruct Hr as [Hc ? Hrec Hoff Hing Hdec].
      assert (carries a1 (set_active (Some a1) d)) as Hc1 by by eapply carries_with; [..|exact Hc].
      assert (quiet (set_active (Some a1) d)) as Hq1 by by eapply quiet_slots; [..|exact Hq].
      destruct publication as [[[]|req]|payload].
      * eapply (proceeds_running a1); [done| |by eapply quiet_slots; [..|exact Hq]].
        split; [by eapply carries_with; [..|exact Hc]|done|done|exact Hoff|done|exact Hdec].
      * eapply proceeds_complete; [done|by apply idle_leavable|done].
      * eapply proceeds_reject; [done|by apply idle_leavable|done|done].
    + unfold ordinary_turn.
      destruct (request Call_Next next d w a) as [[[d1 w1] cs] [failures|]] eqn:Hreq; [|done].
      apply request_proceeds in Hreq as ((a1 & Hf) & Hin & Hph); [|apply next_completes|done..].
      pose proof (asked_proceeds _ _ w1 cs failures Hf Hin) as [Hret Hgo].
      destruct (is_Retiring (phase (receive_execution_failures failures d1))) eqn:Hr1;
        [by intros _; apply Hret|].
      destruct (Hgo eq_refl) as (Hsome & Heq & Hfold). rewrite Heq. exact Hfold.
Qed.

Lemma running_proceeds a d w :
  DriverLaw.is_running (phase d) = true → runs a d → quiet d →
  flow (running_turn d w) = Loop_Again → proceeds (after (running_turn d w)).
Proof.
  intros Hp Hr Hq. unfold running_turn. destruct (classify d) as [d1 go] eqn:Hc.
  pose proof (classify_proceeds _ _ _ _ Hp Hr Hq Hc) as Hcp.
  destruct go; [|done]. destruct Hcp as (Hp1 & Hr1 & Hq1 & Hi1). cbn [negb].
  rewrite (carries_active _ _ (runs_carries _ _ Hr1)).
  destruct (source_index d1) as [index|] eqn:Hix.
  - by apply offer_proceeds.
  - by apply settle_proceeds.
Qed.

Lemma empty_slots d d' :
  active d' = active d → activation d' = activation d → interpretation d' = interpretation d →
  source_input d' = source_input d → source_received d' = source_received d →
  source_index d' = source_index d → ingress d' = ingress d → settlements d' = settlements d →
  retirement_input d' = retirement_input d → empty d → empty d'.
Proof. intros H1 H2 H3 H4 H5 H6 H7 H8 H9 []. split; try congruence. Qed.

Lemma empty_verdict d d' : verdict d d' → empty d → empty d'.
Proof. intros []; [done|]. by apply empty_slots. Qed.

Lemma prepared_proceeds d w :
  abides d → quiet d → phase d = Prepared → proceeds (after (prepared_turn d w)).
Proof.
  intros Ha Hq Hp.
  inversion Ha as [e _ Hem He Hf Hacts Hres Hdisp| | a Hrun | | |]; try congruence.
  2: { by rewrite Hp in Hrun. }
  unfold prepared_turn. destruct (initialize _) as [b folded].
  set (d1 := set_behavior b (set_phase Activating d)).
  assert (∀ error, honoured error → proceeds (reject error d1)) as Hrej.
  { intros error He'. pose proof (verdict_reject d1 d1 error (verdict_refl d1)) as Hv. split.
    - apply (abides_retiring_prepared _ e); [apply phase_reject| | | | |apply disposition_reject].
      + eapply empty_verdict; [exact Hv|]. by eapply empty_slots; [..|exact Hem].
      + by destruct Hv.
      + replace (actions (reject error d1)) with (@None Actions); [by apply fresh_held|by destruct Hv].
      + by destruct Hv.
    - apply quiet_reject; [done|]. by eapply quiet_slots; [..|exact Hq]. }
  destruct folded as [acts|error|payload]; [|by apply Hrej..].
  split; [|by eapply quiet_slots; [..|exact Hq]].
  eapply (abides_activating _ e acts); try done. by eapply empty_slots; [..|exact Hem].
Qed.

Lemma activating_proceeds d w :
  abides d → quiet d → phase d = Activating →
  flow (activating_turn d w) = Loop_Again → proceeds (after (activating_turn d w)).
Proof.
  intros Ha Hq Hp.
  inversion Ha as [|e a _ Hem He Hf Hacts Hdec Hres Hdisp|a Hrun| | |]; try congruence.
  2: { by rewrite Hp in Hrun. }
  unfold activating_turn. rewrite He, Hacts, (empty_activation _ Hem).
  destruct (activate w (Some e) (Some a) None) as [[w1 [[env1 acts1] act1]] run] eqn:Ho.
  apply activate_completes in Ho; [|done].
  destruct (receive_operation run) as [[reply failures]|] eqn:Hrun; [|done]. intros _.
  destruct (completes_received _ _ _ _ _ Ho Hrun) as
    [(-> & -> & [(a1 & i & -> & Hid) | (error & r & ->)]) | ((e' & -> & Hh & ->) & Hne)];
    cbn [is_some orb negb].
  - change (phase (set_interpretation _ _)) with (phase d). rewrite Hp. cbn [is_Retiring after iterate].
    match goal with |- proceeds (receive_activation_failures _ ?d1) => set (d2 := d1) end.
    assert (runs a1 d2) as Hr.
    { destruct Hem as [? ? ? (? & ? & ?) ? ? ?]. split; try done.
      - split; try done. intros [x Hx]. cbn in Hx. congruence.
      - intros [x Hx]. cbn in Hx. congruence. }
    assert (quiet d2) as Hq2 by by eapply quiet_slots; [..|exact Hq].
    eapply (proceeds_verdict a1 d2); [done|exact Hr| |by apply quiet_activation_failures].
    apply verdict_activation_failures, verdict_refl.
  - cbn [after iterate].
    match goal with |- proceeds (receive_activation_failures _ (reject _ ?d1)) => set (d2 := d1) end.
    assert (verdict d2 (receive_activation_failures failures (reject (Error_Activation error) d2))) as Hv
      by apply verdict_activation_failures, verdict_reject, verdict_refl.
    split.
    + apply abides_rejected.
      * apply phase_activation_failures, phase_reject.
      * eapply empty_verdict; [exact Hv|]. destruct Hem. by split.
      * by destruct Hv.
      * by destruct Hv.
      * by destruct Hv.
      * eapply disposition_verdict; [|apply disposition_reject].
        apply verdict_activation_failures, verdict_refl.
    + apply quiet_activation_failures, quiet_reject; [done|]. by eapply quiet_slots; [..|exact Hq].
  - match goal with |- proceeds (after (iterate (contract_failed (receive_activation_failures _ ?d1)) _ _)) =>
      set (d2 := d1) end.
    destruct failures as [|p l]; [done|].
    pose proof (verdict_activation_failures d2 d2 (p :: l) (verdict_refl d2)) as Hv.
    assert (phase (receive_activation_failures (p :: l) d2) = Retiring) as Hret
      by apply (phase_activation_failures l), phase_reject.
    unfold contract_failed. rewrite Hret. cbn [is_Retiring after iterate].
    assert (quiet d2) as Hq2 by by eapply quiet_slots; [..|exact Hq].
    split; [|by apply quiet_activation_failures].
    apply (abides_retiring_prepared _ e'); [done| | | | |].
    + eapply empty_verdict; [exact Hv|]. destruct Hem. by split.
    + by destruct Hv.
    + by destruct Hv.
    + by destruct Hv.
    + eapply disposition_verdict; [|apply (disposition_reject (Error_ActivationPanicked p) d2)].
      apply (verdict_activation_failures _ _ l), verdict_refl.
Qed.

(** An uninterrupted run stays in order. *)
Lemma drive_step_proceeds d w :
  proceeds d → flow (drive_step d w) = Loop_Again → proceeds (after (drive_step d w)).
Proof.
  intros [Ha Hq]. unfold drive_step.
  destruct (phase d) eqn:Hp.
  - intros _. by apply prepared_proceeds.
  - by apply activating_proceeds.
  - inversion Ha as [| |a Hrun Hr| | |]; try congruence. by eapply running_proceeds.
  - inversion Ha as [| |a Hrun Hr| | |]; try congruence. by eapply running_proceeds.
  - inversion Ha as [| |a Hrun Hr| | |]; try congruence. by eapply running_proceeds.
  - unfold retiring_turn. destruct (_ && _); [done|].
    destruct (gather_retirement d) as [d1|]; [|done].
    destruct (environment d1), (active d1), (residual d1); try done.
    + unfold retire_prepared_turn. destruct (retire_prepared _ _ _ _) as [[? [[? ?] ?]] run].
      by destruct (receive_operation run) as [[? ?]|].
    + unfold retire_active_turn.
      destruct (retire_active _ _ _ _ _ _ _ _ _) as [[? [[[[[[[? ?] ?] ?] ?] ?] ?] ?]] run].
      by destruct (receive_operation run) as [[? ?]|].
  - done.
Qed.

(** What the driver hands over at the end of an uninterrupted run: the complete
    retirement, or an owner whose retirement unwound. *)
Definition retired_or_unwound d : Prop :=
  quiet d ∧
  ((∃ retirement, receive_owner d = Ok retirement) ∨
   ∃ payload, Error_RetirementPanicked payload ∈ additional_failures d).

Lemma receive_owner_ready d r disp :
  environment d = None → active d = None → actions d = None → activation d = None →
  interpretation d = None → source_input d = None → source_received d = None →
  source_index d = None → settlements d = [] → ingress d = None → retirement_input d = None →
  residual d = Some r → disposition d = Some disp → ∃ retirement, receive_owner d = Ok retirement.
Proof.
  intros H1 H2 H3 H4 H5 H6 H7 H8 H9 H10 H11 H12 H13. unfold receive_owner, ready.
  rewrite H1, H2, H3, H4, H5, H6, H7, H8, H9, H10, H11, H12, H13. cbn. eauto.
Qed.

Lemma unwound_failures d p l :
  quiet d → retired_or_unwound (receive_retirement_failures (p :: l) d).
Proof.
  intros Hq. split; [by apply quiet_retirement_failures|]. right. exists p.
  cbn. apply elem_of_app. right. apply list_elem_of_here.
Qed.

Lemma retires_prepared e d w :
  empty d → environment d = Some e → held e (actions d) → residual d = None →
  is_Some (disposition d) → quiet d → flow (retire_prepared_turn d w) = Loop_Return →
  retired_or_unwound (after (retire_prepared_turn d w)).
Proof.
  intros Hem He Hh Hres [disp Hdisp] Hq. unfold retire_prepared_turn.
  cbn [environment actions residual set_phase]. rewrite He, Hres.
  destruct (retire_prepared w (Some e) (actions d) None) as [[w1 [[env1 acts1] r1]] run] eqn:Ho.
  apply retire_prepared_completes in Ho; [|done].
  destruct (receive_operation run) as [[reply failures]|] eqn:Hrun; [|done]. intros _.
  cbn [after finish]. match goal with |- retired_or_unwound (_ _ ?d1) => set (d2 := d1) end.
  assert (quiet d2) as Hq2 by by eapply quiet_slots; [..|exact Hq].
  destruct failures as [|p l]; [|by apply unwound_failures].
  destruct (completes_received _ _ _ _ _ Ho Hrun) as [(-> & -> & [r ->]) | [_ Hne]]; [|done].
  split; [by apply quiet_retirement_failures|]. left.
  destruct Hem as [? ? ? (? & ? & ?) ? ? ?]. by apply (receive_owner_ready _ r disp).
Qed.

Lemma retires_active a d w rows :
  carries a (set_retirement_input None d) → leavable a → retirement_input d = Some rows →
  source_input d = None → settlements d = [] → is_Some (disposition d) → quiet d →
  flow (retire_active_turn d w) = Loop_Return →
  retired_or_unwound (after (retire_active_turn d w)).
Proof.
  intros Hc Hl Hrows Hin Hset [disp Hdisp] Hq. unfold retire_active_turn.
  destruct Hc as [He Ha Hacts Hact _ _ Hres].
  cbn [active environment actions activation residual set_retirement_input] in He, Ha, Hacts, Hact, Hres.
  cbn [active actions interpretation source_received source_index ingress retirement_input residual set_phase].
  rewrite Ha, Hacts, Hrows, Hres.
  destruct (retire_active _ _ _ _ _ _ _ _ _) as [[w1 slots] run] eqn:Ho.
  apply retire_active_completes in Ho; [|done].
  destruct slots as [[[[[[[act1 acts1] i1] rec1] ix1] ing1] own1] r1].
  destruct (receive_operation run) as [[reply failures]|] eqn:Hrun; [|done]. intros _.
  cbn [after finish]. match goal with |- retired_or_unwound (_ _ ?d1) => set (d2 := d1) end.
  assert (quiet d2) as Hq2 by by eapply quiet_slots; [..|exact Hq].
  destruct failures as [|p l]; [|by apply unwound_failures].
  destruct (completes_received _ _ _ _ _ Ho Hrun) as [[r Heq] | [_ Hne]]; [|done].
  injection Heq as -> -> -> -> -> -> -> ->.
  split; [by apply quiet_retirement_failures|]. left. by apply (receive_owner_ready _ r disp).
Qed.

Lemma drive_step_returns d w :
  proceeds d → flow (drive_step d w) = Loop_Return → retired_or_unwound (after (drive_step d w)).
Proof.
  intros [Ha Hq] Hf. pose proof (drive_step_turn d w) as Ht. unfold of_iteration in Ht.
  rewrite Hf in Ht. apply turn_returns in Ht. unfold drive_step in *.
  assert (phase d ≠ RetirementAttempted) as Hna.
  { inversion Ha as [| |a Hrun| | |]; try congruence. intros Hp. by rewrite Hp in Hrun. }
  destruct (phase d) eqn:Hp; try done. unfold retiring_turn in *.
  assert (∀ d1, empty d1 → gather_retirement d1 = Some d1) as Hgather.
  { intros d1 Hem. unfold gather_retirement. by rewrite (empty_retirement _ Hem), (empty_active _ Hem). }
  inversion Ha as [| |a Hrun|e _ Hem He Hh Hres Hdisp|a _ Hc Hl Hdisp|_ Hem He Hacts [r Hres] [disp Hdisp]];
    try congruence.
  - by rewrite Hp in Hrun.
  - destruct (empty_source _ Hem) as (Hs1 & Hs2 & Hs3). rewrite Hs1 in *. cbn [is_some andb] in *.
    rewrite (Hgather d Hem), He, (empty_active _ Hem), Hres in *. by apply (retires_prepared e).
  - assert (is_some (source_input d) && is_some (source_received d) = false) as Hoffer.
    { destruct (source_input d) as [s|] eqn:Hs; [|done].
      destruct (carries_source _ _ Hc) as [_ ->]; [by rewrite Hs|done]. }
    rewrite Hoffer in *. destruct (gather_retirement d) as [d1|] eqn:Hg; [|done].
    assert (carries a (set_retirement_input None d1) ∧ source_input d1 = None ∧ settlements d1 = [] ∧
      is_Some (retirement_input d1) ∧ disposition d1 = disposition d ∧
      additional_failures d1 = additional_failures d) as (Hc1 & Hin1 & Hset1 & [rows Hrows] & Hd1 & Hf1).
    { unfold gather_retirement in Hg. rewrite (carries_retirement _ _ Hc), (carries_active _ _ Hc) in Hg.
      destruct (source_input d) as [s|] eqn:Hs.
      - destruct (carries_source _ _ Hc) as [[index Hix] Hrec]; [by rewrite Hs|]. rewrite Hix in Hg.
        unfold insert_row in Hg. cbn [settlements set_source_index set_source_input] in Hg.
        destruct (vec_insert _ _ _) as [q|]; cbn [mbind option_bind] in Hg; [|done].
        injection Hg as <-. split_and!; try done.
        destruct Hc. split; try done. by intros [].
      - injection Hg as <-. split_and!; try done. destruct Hc. by split. }
    pose proof (carries_environment _ _ Hc1) as He1. pose proof (carries_active _ _ Hc1) as Ha1.
    pose proof (carries_residual _ _ Hc1) as Hres1.
    cbn [environment active residual set_retirement_input] in He1, Ha1, Hres1.
    rewrite He1, Ha1, Hres1 in *.
    apply (retires_active a d1 w rows); try done; [by rewrite Hd1|by eapply quiet_slots; [..|exact Hq]].
  - destruct (empty_source _ Hem) as (Hs1 & Hs2 & Hs3). rewrite Hs1 in *. cbn [is_some andb] in *.
    rewrite (Hgather d Hem), He, (empty_active _ Hem) in *. cbn [after finish] in *.
    split; [done|]. left. destruct Hem. by apply (receive_owner_ready _ r disp).
Qed.

Lemma proceeds_new b env : fresh env → proceeds (Driver_new b env).
Proof. intros Hf. split; [by eapply abides_prepared|by split]. Qed.

Lemma reaches_proceeds d w cs d' w' : reaches d w cs d' w' → proceeds d → proceeds d'.
Proof. induction 1 as [|d w cs d' w' Hf _ IH]; [done|]. intros Hd. by apply IH, drive_step_proceeds. Qed.

(** A bounded run is a run of iterations and one more. *)
Lemma drive_follows fuel d w cs last :
  drive fuel d w = Some (cs, last) →
  ∃ cs' d' w', reaches d w cs' d' w' ∧ last = drive_step d' w' ∧ flow last ≠ Loop_Again.
Proof.
  revert d w cs. induction fuel as [|fuel IH]; intros d w cs; cbn; [done|].
  destruct (flow (drive_step d w)) eqn:Hf.
  - destruct (drive fuel (after (drive_step d w)) (host (drive_step d w))) as [[cs1 last1]|] eqn:Hd;
      cbn; [|done].
    intros [= _ <-]. destruct (IH _ _ _ Hd) as (cs' & d' & w' & Hr & Hl & Hn).
    do 3 eexists. split; [by apply (reaches_step d w)|done].
  - intros [= _ <-]. eexists [], d, w. split; [constructor|]. by rewrite Hf.
  - intros [= _ <-]. eexists [], d, w. split; [constructor|]. by rewrite Hf.
  - intros [= _ <-]. eexists [], d, w. split; [constructor|]. by rewrite Hf.
Qed.

(** What [receive_run] hands over. *)
Definition handed_over
    (result : Result (@DriverRetirement B BError Request EError Residual P) driver) : Prop :=
  match result with
  | Ok retirement =>
      retired_disposition retirement ≠ Err Error_InterpreterContractFailed ∧
      Forall honoured (retired_failures retirement)
  | Err owner => ∃ payload, Error_RetirementPanicked payload ∈ additional_failures owner
  end.

Lemma receive_run_hands_over fuel b env w result cs w' :
  fresh env → receive_run fuel (Some (Driver_new b env)) None w = Some (None, Some result, cs, w') →
  handed_over result.
Proof.
  intros Hf. unfold receive_run.
  destruct (drive fuel (Driver_new b env) w) as [[cs1 last]|] eqn:Hd; cbn [mbind option_bind]; [|done].
  destruct (flow last) eqn:Hfl; try done. intros [= <- _ _].
  destruct (drive_follows _ _ _ _ _ Hd) as (cs' & d' & w1 & Hr & -> & _).
  pose proof (reaches_proceeds _ _ _ _ _ Hr (proceeds_new b env Hf)) as Hp.
  destruct (drive_step_returns _ _ Hp Hfl) as [[Hq1 Hq2] [[retirement Hok]|Hun]].
  - rewrite Hok. unfold receive_owner in Hok. destruct (ready _); [|done].
    destruct (residual _), (disposition _) as [disp|]; try done. injection Hok as <-. cbn.
    split; [|done]. intros Heq. by rewrite Heq in Hq1.
  - destruct (receive_owner _) as [retirement|owner] eqn:Ho.
    + unfold receive_owner in Ho. destruct (ready _); [|done].
      destruct (residual _), (disposition _) as [disp|]; try done. injection Ho as <-. cbn.
      split; [|done]. intros Heq. by rewrite Heq in Hq1.
    + unfold receive_owner in Ho. destruct (ready _); [|by injection Ho as <-].
      destruct (residual _), (disposition _); try done; by injection Ho as <-.
Qed.
End contract.
