(* ===== verification/Assessment.v ===== *)
(** * Retirement reports

    The assessment algebra of [crates/bombay/src/terminal.rs]: whether the owned
    subtree of an actor retired, and what failure evidence its owners kept.
    Reports of several owners are combined; the combination is the join of an
    order on evidence, so the order in which owners report does not matter. *)

From S2P Require Import Prelude.

Variant RetirementAssessment := Established | NotEstablished.

Variant ActorFailureAssessment := FailuresFound | NoFailuresFound | Incomplete.

#[export] Instance RetirementAssessment_eq_dec : EqDecision RetirementAssessment.
Proof. solve_decision. Defined.
#[export] Instance ActorFailureAssessment_eq_dec : EqDecision ActorFailureAssessment.
Proof. solve_decision. Defined.

(** [ActorFailureAssessment::combine]. *)
Definition combine_failures (self later : ActorFailureAssessment) : ActorFailureAssessment :=
  match self, later with
  | FailuresFound, _ | _, FailuresFound => FailuresFound
  | Incomplete, _ | _, Incomplete => Incomplete
  | NoFailuresFound, NoFailuresFound => NoFailuresFound
  end.

Record ActorRetirementReport := Report_new {
  retirement : RetirementAssessment;
  failures : ActorFailureAssessment
}.

#[export] Instance ActorRetirementReport_eq_dec : EqDecision ActorRetirementReport.
Proof. solve_decision. Defined.

(** [ActorRetirementReport::combine]. *)
Definition combine (self later : ActorRetirementReport) : ActorRetirementReport :=
  let retirement :=
    match retirement self, retirement later with
    | Established, Established => Established
    | NotEstablished, _ | _, NotEstablished => NotEstablished
    end in
  Report_new retirement (combine_failures (failures self) (failures later)).

(** [ActorRetirementReport::with_failures]. *)
Definition with_failures (self : ActorRetirementReport) (found : ActorFailureAssessment) :
    ActorRetirementReport :=
  Report_new (retirement self) (combine_failures (failures self) found).

(** ** The algebra *)

#[export] Instance combine_failures_comm : Comm (=) combine_failures.
Proof. by intros [] []. Qed.
#[export] Instance combine_failures_assoc : Assoc (=) combine_failures.
Proof. by intros [] [] []. Qed.
#[export] Instance combine_failures_left_id : LeftId (=) NoFailuresFound combine_failures.
Proof. by intros []. Qed.
#[export] Instance combine_failures_idemp : IdemP (=) combine_failures.
Proof. by intros []. Qed.

#[export] Instance combine_comm : Comm (=) combine.
Proof. by intros [[] []] [[] []]. Qed.
#[export] Instance combine_assoc : Assoc (=) combine.
Proof. by intros [[] []] [[] []] [[] []]. Qed.
#[export] Instance combine_left_id : LeftId (=) (Report_new Established NoFailuresFound) combine.
Proof. by intros [[] []]. Qed.
#[export] Instance combine_idemp : IdemP (=) combine.
Proof. by intros [[] []]. Qed.

(** When each verdict is reached. *)
Lemma combine_failures_found a b :
  combine_failures a b = FailuresFound ↔ a = FailuresFound ∨ b = FailuresFound.
Proof. destruct a, b; naive_solver. Qed.

Lemma combine_failures_none a b :
  combine_failures a b = NoFailuresFound ↔ a = NoFailuresFound ∧ b = NoFailuresFound.
Proof. destruct a, b; naive_solver. Qed.

Lemma combine_retirement a b :
  retirement (combine a b) = Established ↔ retirement a = Established ∧ retirement b = Established.
Proof. destruct a as [[] []], b as [[] []]; naive_solver. Qed.

Create Rewrite HintDb assessment.
#[export] Hint Rewrite combine_failures_found combine_failures_none combine_retirement : assessment.

(** The order on evidence: a report that covers another one. *)
Definition covered (r r' : ActorRetirementReport) : Prop := combine r r' = r'.

#[export] Instance covered_preorder : PreOrder covered.
Proof.
  split; [intros r; apply combine_idemp|]. intros r1 r2 r3 H1 H2. unfold covered.
  by rewrite <- H2, (assoc_L combine), H1.
Qed.

Definition clean : ActorRetirementReport := Report_new Established NoFailuresFound.

Lemma covered_combine r x : covered r (combine r x).
Proof. unfold covered. by rewrite (assoc_L combine), (idemp_L combine). Qed.
Lemma covered_part r x : covered x (combine r x).
Proof. unfold covered. by rewrite (comm_L combine r), (assoc_L combine), (idemp_L combine). Qed.
Lemma covered_with_failures r f : covered r (with_failures r f).
Proof. by destruct r as [[] []], f. Qed.
Lemma covered_clean r : covered r clean → r = clean.
Proof. by destruct r as [[] []]. Qed.
