(* ===== verification/Host.v ===== *)
(** * Asynchronous operations

    An asynchronous operation of the local environment, as its caller sees it:
    polled until it is ready, dropped while it is pending, or unwinding.  The
    state it borrows survives each of these the way the code leaves it.  [wp]
    reasons about every outcome at once. *)

From S2P Require Import Prelude Driver.

(** How an operation went.  [Violated] is an [expect] or [unreachable!] of the
    modelled code itself; [Panicked] is a panic of what it calls. *)
Variant Outcome (P A : Type) :=
  | Ready (value : A)
  | Pending
  | Panicked (payload : P)
  | Violated.
Arguments Ready {_ _} _.
Arguments Pending {_ _}.
Arguments Panicked {_ _} _.
Arguments Violated {_ _}.

Definition Async (P S A : Type) : Type := S → S * Outcome P A.

#[export] Instance Async_ret P S : MRet (Async P S) := λ A x s, (s, Ready x).
#[export] Instance Async_bind P S : MBind (Async P S) := λ A B k m s,
  match m s with
  | (s, Ready x) => k x s
  | (s, Pending) => (s, Pending)
  | (s, Panicked payload) => (s, Panicked payload)
  | (s, Violated) => (s, Violated)
  end.

Lemma bind_eq {P S A B} (m : Async P S A) (k : A → Async P S B) s :
  (m ≫= k) s =
    match m s with
    | (s, Ready x) => k x s
    | (s, Pending) => (s, Pending)
    | (s, Panicked payload) => (s, Panicked payload)
    | (s, Violated) => (s, Violated)
    end.
Proof. done. Qed.

Section operations.
Context {P : Type}.

Definition stay_pending {S A} : Async P S A := λ s, (s, Pending).
Definition unwinds {S A} (payload : P) : Async P S A := λ s, (s, Panicked payload).
Definition violated {S A} : Async P S A := λ s, (s, Violated).
Definition update {S} (f : S → S) : Async P S () := λ s, (f s, Ready ()).

(** A synchronous operation of the host, which does not unwind. *)
Definition perform {W T A} (f : W → W * A) : Async P (W * T) A :=
  λ '(w, t), let '(w, x) := f w in ((w, t), Ready x).

(** An update of the owner next to the host. *)
Definition change {W T} (f : T → T) : Async P (W * T) () := λ '(w, t), ((w, f t), Ready ()).
Definition look {W T A} (f : T → A) : Async P (W * T) A := λ '(w, t), ((w, t), Ready (f t)).

(** An operation on the host and one part of the owner. *)
Definition focus {W T U A} (part : T → U) (put : U → T → T) (m : Async P (W * U) A) :
    Async P (W * T) A :=
  λ '(w, t), let '((w, u), o) := m (w, part t) in ((w, put u t), o).

(** What the driver observes of it; an assertion is caught as a panic too. *)
Definition host_run {A} (assertion : P) (o : Outcome P A) : HostRun A P :=
  match o with
  | Ready x => Run_Polled (inl x) None
  | Pending => Run_Pending
  | Panicked payload => Run_Polled (inr payload) None
  | Violated => Run_Polled (inr assertion) None
  end.

Definition is_Ready {A} (o : Outcome P A) : bool := match o with Ready _ => true | _ => false end.
Definition is_Violated {A} (o : Outcome P A) : bool :=
  match o with Violated => true | _ => false end.

(** ** Reasoning *)

(** What holds of the state and the outcome. *)
Definition wp {S A} (m : Async P S A) (Q : S → Outcome P A → Prop) (s : S) : Prop :=
  Q (m s).1 (m s).2.

(** A predicate on the state and the outcome that only an early end must meet. *)
Definition wp_then {S A B} (k : A → S → Prop) (Q : S → Outcome P B → Prop) (s : S)
    (o : Outcome P A) : Prop :=
  match o with
  | Ready x => k x s
  | Pending => Q s Pending
  | Panicked payload => Q s (Panicked payload)
  | Violated => Q s Violated
  end.

Lemma wp_bind {S A B} (m : Async P S A) (k : A → Async P S B) Q s :
  wp m (wp_then (λ x, wp (k x) Q) Q) s → wp (m ≫= k) Q s.
Proof.
  unfold wp, mbind, Async_bind. destruct (m s) as [s1 [x| |payload|]]; by cbn.
Qed.

Lemma wp_mono {S A} (m : Async P S A) (Q R : S → Outcome P A → Prop) s :
  wp m Q s → (∀ s o, Q s o → R s o) → wp m R s.
Proof. unfold wp. auto. Qed.

Lemma wp_ret {S A} (x : A) Q (s : S) : Q s (Ready x) → wp (mret x) Q s.
Proof. done. Qed.

Lemma wp_update {S} (f : S → S) Q s : Q (f s) (Ready ()) → wp (update f) Q s.
Proof. done. Qed.

Lemma wp_change {W T} (f : T → T) Q (w : W) t : Q (w, f t) (Ready ()) → wp (change f) Q (w, t).
Proof. done. Qed.

Lemma wp_look {W T A} (f : T → A) Q (w : W) t : Q (w, t) (Ready (f t)) → wp (look f) Q (w, t).
Proof. done. Qed.

Lemma wp_perform {W T A} (f : W → W * A) Q (w : W) (t : T) :
  (∀ w' x, f w = (w', x) → Q (w', t) (Ready x)) → wp (perform f) Q (w, t).
Proof. unfold wp, perform. destruct (f w) as [w' x] eqn:Hf. intros H. by apply H. Qed.

Lemma wp_focus {W T U A} (part : T → U) (put : U → T → T) (m : Async P (W * U) A) Q w t :
  wp m (λ '(w', u) o, Q (w', put u t) o) (w, part t) → wp (focus part put m) Q (w, t).
Proof. unfold wp, focus. by destruct (m (w, part t)) as [[w' u] o]. Qed.
End operations.

(** *** Operations that keep the owner in a relation *)

Section keeping.
Context {P W T : Type} (R : T → T → Prop) `{!PreOrder R}.

(** Whatever the outcome, the owner it leaves is related to the one it took. *)
Definition keeping {A} (m : Async P (W * T) A) : Prop := ∀ w t, R t (m (w, t)).1.2.

Lemma wp_keeping {A} (m : Async P (W * T) A) w t :
  keeping m → wp m (λ '(w', t') _, R t t') (w, t).
Proof. intros Hm. specialize (Hm w t). unfold wp. by destruct (m (w, t)) as [[w' t'] o]. Qed.

Lemma keeping_ret {A} (x : A) : keeping (mret x).
Proof. intros w t. reflexivity. Qed.

Lemma keeping_bind {A B} (m : Async P (W * T) A) (k : A → Async P (W * T) B) :
  keeping m → (∀ x, keeping (k x)) → keeping (m ≫= k).
Proof.
  intros Hm Hk w t. specialize (Hm w t). unfold mbind, Async_bind.
  destruct (m (w, t)) as [[w1 t1] [x| |payload|]]; cbn in *; try done.
  by transitivity t1; [|apply Hk].
Qed.

Lemma keeping_look {A} (f : T → A) : keeping (look f).
Proof. intros w t. reflexivity. Qed.
Lemma keeping_perform {A} (f : W → W * A) : keeping (perform f).
Proof. intros w t. unfold perform. destruct (f w). reflexivity. Qed.
Lemma keeping_change (f : T → T) : (∀ t, R t (f t)) → keeping (change f).
Proof. intros Hf w t. apply Hf. Qed.
Lemma keeping_pending {A} : keeping (@stay_pending P (W * T) A).
Proof. intros w t. reflexivity. Qed.
Lemma keeping_violated {A} : keeping (@violated P (W * T) A).
Proof. intros w t. reflexivity. Qed.
Lemma keeping_unwinds {A} payload : keeping (@unwinds P (W * T) A payload).
Proof. intros w t. reflexivity. Qed.
Lemma keeping_focus {U A} (part : T → U) (put : U → T → T) (m : Async P (W * U) A) :
  (∀ t u, R t (put u t)) → keeping (focus part put m).
Proof. intros Hp w t. unfold focus. destruct (m (w, part t)) as [[w' u] o]. apply Hp. Qed.
End keeping.

#[export] Hint Resolve keeping_ret keeping_bind keeping_look keeping_perform keeping_pending
  keeping_violated keeping_unwinds : bombay.

(** *** Operations that break no assertion of the modelled code *)

Section quiet.
Context {P : Type}.
Definition quiet {S A} (m : Async P S A) : Prop := ∀ s, is_Violated (m s).2 = false.

Lemma quiet_ret {S A} (x : A) : quiet (S := S) (mret x).
Proof. done. Qed.
Lemma quiet_bind {S A B} (m : Async P S A) (k : A → Async P S B) :
  quiet m → (∀ x, quiet (k x)) → quiet (m ≫= k).
Proof.
  intros Hm Hk s. specialize (Hm s). rewrite bind_eq. destruct (m s) as [s1 [x| |payload|]]; try done.
  apply Hk.
Qed.
Lemma quiet_look {W T A} (f : T → A) : quiet (look (W := W) f).
Proof. by intros [w t]. Qed.
Lemma quiet_change {W T} (f : T → T) : quiet (change (W := W) f).
Proof. by intros [w t]. Qed.
Lemma quiet_perform {W T A} (f : W → W * A) : quiet (perform (T := T) f).
Proof. intros [w t]. unfold perform. by destruct (f w). Qed.
Lemma quiet_pending {S A} : quiet (@stay_pending P S A).
Proof. done. Qed.
Lemma quiet_focus {W T U A} (part : T → U) (put : U → T → T) (m : Async P (W * U) A) :
  quiet m → quiet (focus part put m).
Proof. intros Hm [w t]. specialize (Hm (w, part t)). unfold focus. by destruct (m _) as [[w' u] o]. Qed.

(** A quiet operation keeps what its outcome does not violate. *)
Lemma wp_quiet {S A} (m : Async P S A) (Q : S → Outcome P A → Prop) s :
  quiet m → wp m Q s → wp m (λ s' o, Q s' o ∧ is_Violated o = false) s.
Proof. intros Hm HQ. by split; [|apply Hm]. Qed.
End quiet.

#[export] Hint Resolve quiet_ret quiet_bind quiet_look quiet_change quiet_perform quiet_pending
  quiet_focus : bombay.

(** One step of a composed operation. *)
Ltac wp_step :=
  lazymatch goal with
  | |- wp (mbind _ _) _ _ => apply wp_bind
  | |- wp (mret _) _ _ => apply wp_ret; cbn [wp_then]
  | |- wp (update _) _ _ => apply wp_update; cbn [wp_then]
  | |- wp (change _) _ (_, _) => apply wp_change; cbn [wp_then]
  | |- wp (look _) _ (_, _) => apply wp_look; cbn [wp_then]
  | |- wp (perform _) _ (_, _) =>
      let w' := fresh "w" in let x := fresh "x" in let H := fresh "Hw" in
      apply wp_perform; intros w' x H; cbn [wp_then]
  | |- wp (focus _ _ _) _ (_, _) => apply wp_focus
  end.
