(* ===== verification/LocalIngress.v ===== *)
(** * Local ingress

    [crates/bombay/src/local/ingress.rs] and [local/execution.rs]: the inbox of
    one actor with its two ingress modes, the admission owner that the
    environment and every actor reference can close, the tasks an actor spawns
    and the closing of its owner's cancellation channel.

    The mailbox, the oneshot channels and the task set are third-party values;
    their operations are a class on an arbitrary host state [W], which also
    holds the cell of [Arc<Admission>]. *)

From S2P Require Import Prelude Driver Host.

(** ** Third-party data, as the code matches on it *)

Variant Received {E U : Type} :=
  | Received_Control (event : E)
  | Received_User (item : U)
  | Received_UserLaneClosed.
Arguments Received : clear implicits.

Record Drained {E U : Type} := { control : list E; user : list U }.
Arguments Drained : clear implicits.

Record User {A M : Type} := { from : A; message : M }.
Arguments User : clear implicits.

Variant TryRecvError := TryRecvError_Empty | TryRecvError_Closed.

(** ** Data *)

(** The content of the mutex of [Admission], while a strong reference lives. *)
Definition Admission (Owner : Type) : Type := option (option Owner).

Variant AdmissionClosure := Admission_Closed | Admission_AlreadyClosed.

#[export] Instance AdmissionClosure_eq_dec : EqDecision AdmissionClosure.
Proof. solve_decision. Defined.

Variant FenceFailure := Fence_Enqueue | Fence_Acknowledgement.

(** The mailbox of an actor reference; its weak admission names the one cell. *)
Variant EndpointMailbox {MailboxRef : Type} :=
  | Endpoint_Standard (mailbox : MailboxRef)
  | Endpoint_Entity (mailbox : MailboxRef).
Arguments EndpointMailbox : clear implicits.

Variant LocalIngress {A M Publisher : Type} :=
  | Ingress_Message (user : User A M)
  | Ingress_Fence (publisher : Publisher).
Arguments LocalIngress : clear implicits.

(** Affine fact that the owner of the actor's task requested retirement. *)
Variant OwnerCancellation := OwnerCancelled.

Variant LocalRetirementRequest {JoinError : Type} :=
  | Request_OwnerCancellation (cancellation : OwnerCancellation)
  | Request_CapabilityFailed (failure : JoinError).
Arguments LocalRetirementRequest : clear implicits.

(** ** The host *)

(** The mailbox of one actor.  A poll is [None] while it is pending. *)
Class Communication (W Owner Consumer Event Item : Type) := {
  poll_recv : Consumer → W → W * (Consumer * option (option (Received Event Item)));
  poll_recv_control : Consumer → W → W * (Consumer * option (option Event));
  consumer_drain : Consumer → W → W * Drained Event Item;
  close_admission : Owner → W → W;
  admission : W → Admission Owner;
  set_admission : Admission Owner → W → W
}.

(** The receiver of the owner's cancellation: [await] with [ok], [close] and
    [try_recv]. *)
Class CancellationChannel (W Cancel : Type) := {
  poll_cancellation : Cancel → W → W * option (option OwnerCancellation);
  cancellation_close : Cancel → W → W;
  cancellation_try_recv : Cancel → W → W * Result OwnerCancellation TryRecvError
}.

(** [JoinSet]: its next joined task, [None] while it is pending. *)
Class TaskSet (W Tasks Event JoinError : Type) := {
  join_next : Tasks → W → W * (Tasks * option (option (Result (Result () Event) JoinError)));
  tasks_is_empty : Tasks → bool
}.

(** [Publisher::complete] of the observe module, which may resume the panic of
    a waker. *)
Class FencePublisher (P W Publisher : Type) := {
  publisher_complete : Publisher → Result () FenceFailure → Async P W ()
}.

(** ** Ingress modes *)

(** The trait [IngressMode]. *)
Class IngressMode (P W Event Item Retired MailboxRef : Type) := {
  mode_endpoint : MailboxRef → EndpointMailbox MailboxRef;
  into_event : Item → Async P W (option Event);
  retain_at_retirement : Item → Async P W (option Retired)
}.

Section modes.
Context {P W Event A M Publisher MailboxRef : Type} `{!FencePublisher P W Publisher}
  (user_event : A → M → Event).

(** [UserEvent::user] on the fields of one message. *)
Definition message_event (user : User A M) : Event := user_event (from user) (message user).

Definition StandardIngress : IngressMode P W Event (User A M) (User A M) MailboxRef :=
  {| mode_endpoint := Endpoint_Standard;
     into_event user := mret (Some (message_event user));
     retain_at_retirement item := mret (Some item) |}.

Definition EntityIngress :
    IngressMode P W Event (LocalIngress A M Publisher) (User A M) MailboxRef :=
  {| mode_endpoint := Endpoint_Entity;
     into_event item :=
       match item with
       | Ingress_Message user => mret (Some (message_event user))
       | Ingress_Fence publisher => publisher_complete publisher (Ok ());; mret None
       end;
     retain_at_retirement item :=
       match item with
       | Ingress_Message user => mret (Some user)
       | Ingress_Fence publisher =>
           publisher_complete publisher (Err Fence_Acknowledgement);; mret None
       end |}.

(** Retaining an item never unwinds in the standard mode, and in the entity mode only
    with a waker of the fence's publisher. *)
Lemma standard_retains item w :
  is_Ready (retain_at_retirement (IngressMode := StandardIngress) item w).2 = true.
Proof. done. Qed.

Lemma entity_retains :
  (∀ publisher (w : W), is_Ready (publisher_complete publisher (Err Fence_Acknowledgement) w).2 = true) →
  ∀ item w, is_Ready (retain_at_retirement (IngressMode := EntityIngress) item w).2 = true.
Proof.
  intros Hp [user|publisher] w; cbn; [done|]. specialize (Hp publisher w). rewrite bind_eq.
  by destruct (publisher_complete publisher _ w) as [w' [[]| | |]].
Qed.
End modes.

(** ** The inbox and admission *)

Section inbox.
Context {P W Owner Consumer Event Item Retired MailboxRef : Type}.
Context `{!Communication W Owner Consumer Event Item}.
Context `{!IngressMode P W Event Item Retired MailboxRef}.
Implicit Types (w : W) (items : list Item).

(** [filter_map] over the drained items, in order. *)
Fixpoint retain_all items : Async P W (list Retired) :=
  match items with
  | [] => mret []
  | item :: items =>
      kept ← retain_at_retirement item;
      rest ← retain_all items;
      mret (option_list kept ++ rest)
  end.

Definition collect_retired_ingress (consumer : Consumer) : Async P W (Drained Event Retired) :=
  λ w,
    let '(w, drained) := consumer_drain consumer w in
    (user ← retain_all (user drained); mret {| control := control drained; user := user |}) w.

(** [Admission::close]. *)
Definition Admission_close w : W * AdmissionClosure :=
  match admission w with
  | Some (Some owner) =>
      (close_admission owner (set_admission (Some None) w), Admission_Closed)
  | Some None | None => (w, Admission_AlreadyClosed)
  end.

(** [Admission::close_from_endpoint]: a [Weak] that does not upgrade. *)
Definition close_from_endpoint w : W * AdmissionClosure :=
  match admission w with
  | Some _ => Admission_close w
  | None => (w, Admission_AlreadyClosed)
  end.

(** The final strong reference is dropped; [MailboxOwner] closes on drop. *)
Definition drop_admission w : W :=
  match admission w with
  | Some (Some owner) => close_admission owner (set_admission None w)
  | Some None => set_admission None w
  | None => w
  end.

(** [LocalInbox]: the consumer until it is drained. *)
Definition LocalInbox : Type := option Consumer.

Definition LocalInbox_recv : Async P (W * LocalInbox) (option (option (Received Event Item))) :=
  λ '(w, inbox),
    match inbox with
    | None => ((w, None), Violated)
    | Some consumer =>
        let '(w, (consumer, received)) := poll_recv consumer w in
        ((w, Some consumer), Ready received)
    end.

Definition LocalInbox_recv_source : Async P (W * LocalInbox) (option (option Event)) :=
  λ '(w, inbox),
    match inbox with
    | None => ((w, None), Violated)
    | Some consumer =>
        let '(w, (consumer, received)) := poll_recv_control consumer w in
        ((w, Some consumer), Ready received)
    end.

Definition LocalInbox_drain : Async P (W * LocalInbox) (option (Drained Event Retired)) :=
  λ '(w, inbox),
    match inbox with
    | None => ((w, None), Ready None)
    | Some consumer =>
        let '(w, o) := collect_retired_ingress consumer w in
        ((w, None),
         match o with
         | Ready drained => Ready (Some drained)
         | Pending => Pending
         | Panicked payload => Panicked payload
         | Violated => Violated
         end)
    end.
End inbox.

(** [close_owner_cancellation]. *)
Definition close_owner_cancellation {W Cancel} `{!CancellationChannel W Cancel}
    (receiver : Cancel) (w : W) : W * option () :=
  let w := cancellation_close receiver w in
  let '(w, received) := cancellation_try_recv receiver w in
  (w, match received with
      | Ok OwnerCancelled => Some ()
      | Err (TryRecvError_Empty | TryRecvError_Closed) => None
      end).

(** ** Activation tasks *)

Section tasks.
Context {P W Tasks Event JoinError : Type} `{!TaskSet W Tasks Event JoinError}.
Implicit Types w : W.

(** [ActivationTasks::next_event], polled once: tasks that end with nothing are
    skipped, [fuel] bounds how many; an empty set stays pending. *)
Fixpoint next_event (fuel : nat) (tasks : Tasks) w :
    W * (Tasks * option (Result Event JoinError)) :=
  match fuel with
  | 0 => (w, (tasks, None))
  | S fuel =>
      let '(w, (tasks, joined)) := join_next tasks w in
      match joined with
      | Some (Some (Ok (Ok _))) => next_event fuel tasks w
      | Some (Some (Ok (Err event))) => (w, (tasks, Some (Ok event)))
      | Some (Some (Err failure)) => (w, (tasks, Some (Err failure)))
      | Some None | None => (w, (tasks, None))
      end
  end.

(** [ActivationTasks::receive_settlement]: every joined result in its lane. *)
Fixpoint receive_settlement (fuel : nat) :
    Async P (W * (Tasks * list Event * list JoinError)) () :=
  match fuel with
  | 0 => stay_pending
  | S fuel => λ '(w, (tasks, control, failures)),
      let '(w, (tasks, joined)) := join_next tasks w in
      match joined with
      | None => ((w, (tasks, control, failures)), Pending)
      | Some None => ((w, (tasks, control, failures)), Ready ())
      | Some (Some (Ok (Ok _))) => receive_settlement fuel (w, (tasks, control, failures))
      | Some (Some (Ok (Err event))) =>
          receive_settlement fuel (w, (tasks, control ++ [event], failures))
      | Some (Some (Err failure)) =>
          receive_settlement fuel (w, (tasks, control, failures ++ [failure]))
      end
  end.
End tasks.
