(* ===== verification/LocalEnvironment.v ===== *)
(** * The local environment

    [crates/bombay/src/local/environment.rs]: the environment the driver runs
    for every mailbox-backed actor.  [activate] reserves an address, binds the
    actor privately and commits the initial actions; [next] and [next_source]
    choose the next event among the owner's cancellation, the mailbox, the
    tasks of the actor and its timers; [apply] and [offer_next] loan actions and
    settlements to the interpreter; [publish] installs the actor; [retire]
    collects what is left.

    Every operation is an [Async] on the host next to the environment: it may be
    dropped while it waits and received again, and a panic leaves the
    environment the way the code does.  An instance of [EnvironmentPort] makes
    it the environment of Driver.v.  Third-party types and operations (mailbox,
    oneshot channels, address space, timers, task sets) are [LocalTypes] and
    [LocalHost]; the interpreter is [CommitActions], the trait of
    [local/effects/mod.rs]. *)

From S2P Require Import Prelude Driver Host Assessment LocalIngress.

(** ** Third-party data, as the code matches on it *)

Variant Interpretation {S : Type} :=
  | Interpretation_Complete (settlement : S)
  | Interpretation_Corrupt (settlement : S).
Arguments Interpretation : clear implicits.

Variant InterpretationProgress {A C S : Type} :=
  | Progress_Original (actions : A)
  | Progress_Interpreting (custody : C)
  | Progress_Completed (interpretation : Interpretation S).
Arguments InterpretationProgress : clear implicits.

Variant SourceProgress {S C : Type} :=
  | Source_Original (settlement : S)
  | Source_Offering (custody : C)
  | Source_Completed (source : SourceCustody S).
Arguments SourceProgress : clear implicits.

(** ** Types *)

(** The types the environment is generic in, and those of its host. *)
Class LocalTypes := {
  World : Type; Panic : Type;
  Event : Type; Item : Type; Retired : Type;
  Actions : Type; InterpretationCustody : Type; OfferCustody : Type; Settlements : Type;
  Interpreter : Type; Descendants : Type; Notice : Type;
  Addr : Type; AddressSpace : Type; ClaimError : Type; Reservation : Type; Lease : Type;
  Owner : Type; Consumer : Type; MailboxRef : Type; ControlSender : Type;
  Cancel : Type; CommitmentSender : Type; AckSender : Type; AckReceiver : Type; RecvError : Type;
  Tasks : Type; JoinError : Type; Instant : Type;
  TerminationObservation : Type; Termination : Type
}.

Section data.
Context `{!LocalTypes}.

(** [ActorRef] of [local/endpoint.rs]. *)
Record ActorRef := ActorRef_new {
  ref_address : Addr;
  ref_endpoint : EndpointMailbox MailboxRef;
  ref_termination : TerminationObservation
}.

Definition Progress : Type := InterpretationProgress Actions InterpretationCustody Settlements.
Definition SourceStage : Type := SourceProgress Settlements OfferCustody.
Definition Request : Type := LocalRetirementRequest JoinError.
Definition Ingress : Type := ControlFlow Request (option Event).
Definition Inbox : Type := @LocalInbox Consumer.

Record CapabilityRetirement := {
  retired_tasks : Tasks;
  retired_descendants : Descendants;
  retired_operation_failures : ActorFailureAssessment;
  retired_descendant_report : ActorRetirementReport;
  retired_terminal_report : option (Result () Termination);
  retired_failures : list Panic
}.

(** The fields that every variant of [LocalResidual] repeats. *)
Record ResidualLanes := {
  lane_interpretation : option (Interpretation Settlements);
  lane_source : option (SourceCustody Settlements);
  lane_source_index : option nat;
  lane_acquired_ingress : option Ingress;
  lane_ingress : Drained Event Retired;
  lane_activation_tasks : Tasks;
  lane_descendants : Descendants;
  lane_operation_failures : ActorFailureAssessment;
  lane_descendant_report : ActorRetirementReport;
  lane_capability_failures : list JoinError;
  lane_terminal_report : option (Result () Termination);
  lane_retirement_failures : list Panic;
  lane_unread_owner_cancellation : option ()
}.

Variant LocalResidual :=
  | Residual_Prepared (lanes : ResidualLanes)
  | Residual_Uncommitted (initialization : Progress) (lanes : ResidualLanes)
  | Residual_Retired (interpretation : option Progress) (source : option SourceStage)
      (settlements : list Settlements) (lanes : ResidualLanes).

Definition residual_lanes (r : LocalResidual) : ResidualLanes :=
  match r with
  | Residual_Prepared lanes | Residual_Uncommitted _ lanes | Residual_Retired _ _ _ lanes => lanes
  end.

Variant LocalActivationRejection :=
  | Rejection_Address (error : ClaimError)
  | Rejection_BindingAbandoned
  | Rejection_HostCommitPanicked (payload : Panic).

Variant PublicationNotice := Notice_Unobserved | Notice_Notify (notice : Notice).

Variant Publication :=
  | Publication_Pending (reservation : Reservation) (notice : PublicationNotice)
      (endpoint : ActorRef)
  | Publication_Published.

Variant EventSource := Source_Mailbox | Source_Local | Source_Timer.

(** [EventSource::order]. *)
Definition event_order (source : EventSource) : list EventSource :=
  match source with
  | Source_Mailbox => [Source_Mailbox; Source_Local; Source_Timer]
  | Source_Local => [Source_Local; Source_Timer; Source_Mailbox]
  | Source_Timer => [Source_Timer; Source_Mailbox; Source_Local]
  end.

Variant SettlementSource := Settlement_Control | Settlement_Local.

(** [SettlementSource::order]. *)
Definition settlement_order (source : SettlementSource) : list SettlementSource :=
  match source with
  | Settlement_Control => [Settlement_Control; Settlement_Local]
  | Settlement_Local => [Settlement_Local; Settlement_Control]
  end.

(** The prepared half; its [Arc<Admission>] names the cell of the host. *)
Record LocalEnvironment := {
  env_address : Addr;
  env_addresses : AddressSpace;
  env_endpoint : ActorRef;
  env_consumer : option Consumer;
  env_control_liveness : option ControlSender;
  env_interpreter : option Interpreter;
  env_owner_cancellation : option Cancel;
  env_commitment : option CommitmentSender;
  env_publication_notice : PublicationNotice;
  env_reservation : option Reservation;
  env_acknowledgement : option AckReceiver;
  env_acknowledged : option (Result () RecvError);
  env_initialization : option Progress;
  env_activation_rejection : option LocalActivationRejection;
  env_retirement : option CapabilityRetirement;
  env_retired_ingress : option (Drained Event Retired);
  env_unread_owner_cancellation : option ();
  env_residual : option LocalResidual
}.

Definition env_set_consumer (x : option Consumer) (e : LocalEnvironment) : LocalEnvironment :=
  Build_LocalEnvironment (env_address e) (env_addresses e) (env_endpoint e) x
    (env_control_liveness e) (env_interpreter e) (env_owner_cancellation e) (env_commitment e)
    (env_publication_notice e) (env_reservation e) (env_acknowledgement e) (env_acknowledged e)
    (env_initialization e) (env_activation_rejection e) (env_retirement e) (env_retired_ingress e)
    (env_unread_owner_cancellation e) (env_residual e).
Definition env_set_control_liveness (x : option ControlSender) (e : LocalEnvironment) : LocalEnvironment :=
  Build_LocalEnvironment (env_address e) (env_addresses e) (env_endpoint e) (env_consumer e) x
    (env_interpreter e) (env_owner_cancellation e) (env_commitment e) (env_publication_notice e)
    (env_reservation e) (env_acknowledgement e) (env_acknowledged e) (env_initialization e)
    (env_activation_rejection e) (env_retirement e) (env_retired_ingress e)
    (env_unread_owner_cancellation e) (env_residual e).
Definition env_set_interpreter (x : option Interpreter) (e : LocalEnvironment) : LocalEnvironment :=
  Build_LocalEnvironment (env_address e) (env_addresses e) (env_endpoint e) (env_consumer e)
    (env_control_liveness e) x (env_owner_cancellation e) (env_commitment e)
    (env_publication_notice e) (env_reservation e) (env_acknowledgement e) (env_acknowledged e)
    (env_initialization e) (env_activation_rejection e) (env_retirement e) (env_retired_ingress e)
    (env_unread_owner_cancellation e) (env_residual e).
Definition env_set_owner_cancellation (x : option Cancel) (e : LocalEnvironment) : LocalEnvironment :=
  Build_LocalEnvironment (env_address e) (env_addresses e) (env_endpoint e) (env_consumer e)
    (env_control_liveness e) (env_interpreter e) x (env_commitment e) (env_publication_notice e)
    (env_reservation e) (env_acknowledgement e) (env_acknowledged e) (env_initialization e)
    (env_activation_rejection e) (env_retirement e) (env_retired_ingress e)
    (env_unread_owner_cancellation e) (env_residual e).
Definition env_set_commitment (x : option CommitmentSender) (e : LocalEnvironment) : LocalEnvironment :=
  Build_LocalEnvironment (env_address e) (env_addresses e) (env_endpoint e) (env_consumer e)
    (env_control_liveness e) (env_interpreter e) (env_owner_cancellation e) x
    (env_publication_notice e) (env_reservation e) (env_acknowledgement e) (env_acknowledged e)
    (env_initialization e) (env_activation_rejection e) (env_retirement e) (env_retired_ingress e)
    (env_unread_owner_cancellation e) (env_residual e).
Definition env_set_publication_notice (x : PublicationNotice) (e : LocalEnvironment) : LocalEnvironment :=
  Build_LocalEnvironment (env_address e) (env_addresses e) (env_endpoint e) (env_consumer e)
    (env_control_liveness e) (env_interpreter e) (env_owner_cancellation e) (env_commitment e) x
    (env_reservation e) (env_acknowledgement e) (env_acknowledged e) (env_initialization e)
    (env_activation_rejection e) (env_retirement e) (env_retired_ingress e)
    (env_unread_owner_cancellation e) (env_residual e).
Definition env_set_reservation (x : option Reservation) (e : LocalEnvironment) : LocalEnvironment :=
  Build_LocalEnvironment (env_address e) (env_addresses e) (env_endpoint e) (env_consumer e)
    (env_control_liveness e) (env_interpreter e) (env_owner_cancellation e) (env_commitment e)
    (env_publication_notice e) x (env_acknowledgement e) (env_acknowledged e)
    (env_initialization e) (env_activation_rejection e) (env_retirement e) (env_retired_ingress e)
    (env_unread_owner_cancellation e) (env_residual e).
Definition env_set_acknowledgement (x : option AckReceiver) (e : LocalEnvironment) : LocalEnvironment :=
  Build_LocalEnvironment (env_address e) (env_addresses e) (env_endpoint e) (env_consumer e)
    (env_control_liveness e) (env_interpreter e) (env_owner_cancellation e) (env_commitment e)
    (env_publication_notice e) (env_reservation e) x (env_acknowledged e) (env_initialization e)
    (env_activation_rejection e) (env_retirement e) (env_retired_ingress e)
    (env_unread_owner_cancellation e) (env_residual e).
Definition env_set_acknowledged (x : option (Result () RecvError)) (e : LocalEnvironment) : LocalEnvironment :=
  Build_LocalEnvironment (env_address e) (env_addresses e) (env_endpoint e) (env_consumer e)
    (env_control_liveness e) (env_interpreter e) (env_owner_cancellation e) (env_commitment e)
    (env_publication_notice e) (env_reservation e) (env_acknowledgement e) x
    (env_initialization e) (env_activation_rejection e) (env_retirement e) (env_retired_ingress e)
    (env_unread_owner_cancellation e) (env_residual e).
Definition env_set_initialization (x : option Progress) (e : LocalEnvironment) : LocalEnvironment :=
  Build_LocalEnvironment (env_address e) (env_addresses e) (env_endpoint e) (env_consumer e)
    (env_control_liveness e) (env_interpreter e) (env_owner_cancellation e) (env_commitment e)
    (env_publication_notice e) (env_reservation e) (env_acknowledgement e) (env_acknowledged e) x
    (env_activation_rejection e) (env_retirement e) (env_retired_ingress e)
    (env_unread_owner_cancellation e) (env_residual e).
Definition env_set_activation_rejection (x : option LocalActivationRejection) (e : LocalEnvironment) : LocalEnvironment :=
  Build_LocalEnvironment (env_address e) (env_addresses e) (env_endpoint e) (env_consumer e)
    (env_control_liveness e) (env_interpreter e) (env_owner_cancellation e) (env_commitment e)
    (env_publication_notice e) (env_reservation e) (env_acknowledgement e) (env_acknowledged e)
    (env_initialization e) x (env_retirement e) (env_retired_ingress e)
    (env_unread_owner_cancellation e) (env_residual e).
Definition env_set_retirement (x : option CapabilityRetirement) (e : LocalEnvironment) : LocalEnvironment :=
  Build_LocalEnvironment (env_address e) (env_addresses e) (env_endpoint e) (env_consumer e)
    (env_control_liveness e) (env_interpreter e) (env_owner_cancellation e) (env_commitment e)
    (env_publication_notice e) (env_reservation e) (env_acknowledgement e) (env_acknowledged e)
    (env_initialization e) (env_activation_rejection e) x (env_retired_ingress e)
    (env_unread_owner_cancellation e) (env_residual e).
Definition env_set_retired_ingress (x : option (Drained Event Retired)) (e : LocalEnvironment) : LocalEnvironment :=
  Build_LocalEnvironment (env_address e) (env_addresses e) (env_endpoint e) (env_consumer e)
    (env_control_liveness e) (env_interpreter e) (env_owner_cancellation e) (env_commitment e)
    (env_publication_notice e) (env_reservation e) (env_acknowledgement e) (env_acknowledged e)
    (env_initialization e) (env_activation_rejection e) (env_retirement e) x
    (env_unread_owner_cancellation e) (env_residual e).
Definition env_set_unread_owner_cancellation (x : option ()) (e : LocalEnvironment) : LocalEnvironment :=
  Build_LocalEnvironment (env_address e) (env_addresses e) (env_endpoint e) (env_consumer e)
    (env_control_liveness e) (env_interpreter e) (env_owner_cancellation e) (env_commitment e)
    (env_publication_notice e) (env_reservation e) (env_acknowledgement e) (env_acknowledged e)
    (env_initialization e) (env_activation_rejection e) (env_retirement e) (env_retired_ingress e)
    x (env_residual e).
Definition env_set_residual (x : option LocalResidual) (e : LocalEnvironment) : LocalEnvironment :=
  Build_LocalEnvironment (env_address e) (env_addresses e) (env_endpoint e) (env_consumer e)
    (env_control_liveness e) (env_interpreter e) (env_owner_cancellation e) (env_commitment e)
    (env_publication_notice e) (env_reservation e) (env_acknowledgement e) (env_acknowledged e)
    (env_initialization e) (env_activation_rejection e) (env_retirement e) (env_retired_ingress e)
    (env_unread_owner_cancellation e) x.

(** The only local value with mailbox ingress and address ownership. *)
Record ActiveLocalEnvironment := {
  act_inbox : Inbox;
  act_next_event_source : EventSource;
  act_next_settlement_source : SettlementSource;
  act_control_liveness : option ControlSender;
  act_interpreter : option Interpreter;
  act_owner_cancellation : option Cancel;
  act_publication : option Publication;
  act_lease : option Lease;
  act_interpretation : option Progress;
  act_source : option SourceStage;
  act_received_interpretation : option (Interpretation Settlements);
  act_received_source : option (SourceCustody Settlements);
  act_source_index : option nat;
  act_acquired_ingress : option (ControlFlow Request (option Event));
  act_retirement : option CapabilityRetirement;
  act_retired_ingress : option (Drained Event Retired);
  act_unread_owner_cancellation : option ()
}.

Definition act_set_inbox (x : Inbox) (e : ActiveLocalEnvironment) : ActiveLocalEnvironment :=
  Build_ActiveLocalEnvironment x (act_next_event_source e) (act_next_settlement_source e)
    (act_control_liveness e) (act_interpreter e) (act_owner_cancellation e) (act_publication e)
    (act_lease e) (act_interpretation e) (act_source e) (act_received_interpretation e)
    (act_received_source e) (act_source_index e) (act_acquired_ingress e) (act_retirement e)
    (act_retired_ingress e) (act_unread_owner_cancellation e).
Definition act_set_next_event_source (x : EventSource) (e : ActiveLocalEnvironment) : ActiveLocalEnvironment :=
  Build_ActiveLocalEnvironment (act_inbox e) x (act_next_settlement_source e)
    (act_control_liveness e) (act_interpreter e) (act_owner_cancellation e) (act_publication e)
    (act_lease e) (act_interpretation e) (act_source e) (act_received_interpretation e)
    (act_received_source e) (act_source_index e) (act_acquired_ingress e) (act_retirement e)
    (act_retired_ingress e) (act_unread_owner_cancellation e).
Definition act_set_next_settlement_source (x : SettlementSource) (e : ActiveLocalEnvironment) : ActiveLocalEnvironment :=
  Build_ActiveLocalEnvironment (act_inbox e) (act_next_event_source e) x (act_control_liveness e)
    (act_interpreter e) (act_owner_cancellation e) (act_publication e) (act_lease e)
    (act_interpretation e) (act_source e) (act_received_interpretation e) (act_received_source e)
    (act_source_index e) (act_acquired_ingress e) (act_retirement e) (act_retired_ingress e)
    (act_unread_owner_cancellation e).
Definition act_set_control_liveness (x : option ControlSender) (e : ActiveLocalEnvironment) : ActiveLocalEnvironment :=
  Build_ActiveLocalEnvironment (act_inbox e) (act_next_event_source e)
    (act_next_settlement_source e) x (act_interpreter e) (act_owner_cancellation e)
    (act_publication e) (act_lease e) (act_interpretation e) (act_source e)
    (act_received_interpretation e) (act_received_source e) (act_source_index e)
    (act_acquired_ingress e) (act_retirement e) (act_retired_ingress e)
    (act_unread_owner_cancellation e).
Definition act_set_interpreter (x : option Interpreter) (e : ActiveLocalEnvironment) : ActiveLocalEnvironment :=
  Build_ActiveLocalEnvironment (act_inbox e) (act_next_event_source e)
    (act_next_settlement_source e) (act_control_liveness e) x (act_owner_cancellation e)
    (act_publication e) (act_lease e) (act_interpretation e) (act_source e)
    (act_received_interpretation e) (act_received_source e) (act_source_index e)
    (act_acquired_ingress e) (act_retirement e) (act_retired_ingress e)
    (act_unread_owner_cancellation e).
Definition act_set_owner_cancellation (x : option Cancel) (e : ActiveLocalEnvironment) : ActiveLocalEnvironment :=
  Build_ActiveLocalEnvironment (act_inbox e) (act_next_event_source e)
    (act_next_settlement_source e) (act_control_liveness e) (act_interpreter e) x
    (act_publication e) (act_lease e) (act_interpretation e) (act_source e)
    (act_received_interpretation e) (act_received_source e) (act_source_index e)
    (act_acquired_ingress e) (act_retirement e) (act_retired_ingress e)
    (act_unread_owner_cancellation e).
Definition act_set_publication (x : option Publication) (e : ActiveLocalEnvironment) : ActiveLocalEnvironment :=
  Build_ActiveLocalEnvironment (act_inbox e) (act_next_event_source e)
    (act_next_settlement_source e) (act_control_liveness e) (act_interpreter e)
    (act_owner_cancellation e) x (act_lease e) (act_interpretation e) (act_source e)
    (act_received_interpretation e) (act_received_source e) (act_source_index e)
    (act_acquired_ingress e) (act_retirement e) (act_retired_ingress e)
    (act_unread_owner_cancellation e).
Definition act_set_lease (x : option Lease) (e : ActiveLocalEnvironment) : ActiveLocalEnvironment :=
  Build_ActiveLocalEnvironment (act_inbox e) (act_next_event_source e)
    (act_next_settlement_source e) (act_control_liveness e) (act_interpreter e)
    (act_owner_cancellation e) (act_publication e) x (act_interpretation e) (act_source e)
    (act_received_interpretation e) (act_received_source e) (act_source_index e)
    (act_acquired_ingress e) (act_retirement e) (act_retired_ingress e)
    (act_unread_owner_cancellation e).
Definition act_set_interpretation (x : option Progress) (e : ActiveLocalEnvironment) : ActiveLocalEnvironment :=
  Build_ActiveLocalEnvironment (act_inbox e) (act_next_event_source e)
    (act_next_settlement_source e) (act_control_liveness e) (act_interpreter e)
    (act_owner_cancellation e) (act_publication e) (act_lease e) x (act_source e)
    (act_received_interpretation e) (act_received_source e) (act_source_index e)
    (act_acquired_ingress e) (act_retirement e) (act_retired_ingress e)
    (act_unread_owner_cancellation e).
Definition act_set_source (x : option SourceStage) (e : ActiveLocalEnvironment) : ActiveLocalEnvironment :=
  Build_ActiveLocalEnvironment (act_inbox e) (act_next_event_source e)
    (act_next_settlement_source e) (act_control_liveness e) (act_interpreter e)
    (act_owner_cancellation e) (act_publication e) (act_lease e) (act_interpretation e) x
    (act_received_interpretation e) (act_received_source e) (act_source_index e)
    (act_acquired_ingress e) (act_retirement e) (act_retired_ingress e)
    (act_unread_owner_cancellation e).
Definition act_set_received_interpretation (x : option (Interpretation Settlements)) (e : ActiveLocalEnvironment) : ActiveLocalEnvironment :=
  Build_ActiveLocalEnvironment (act_inbox e) (act_next_event_source e)
    (act_next_settlement_source e) (act_control_liveness e) (act_interpreter e)
    (act_owner_cancellation e) (act_publication e) (act_lease e) (act_interpretation e)
    (act_source e) x (act_received_source e) (act_source_index e) (act_acquired_ingress e)
    (act_retirement e) (act_retired_ingress e) (act_unread_owner_cancellation e).
Definition act_set_received_source (x : option (SourceCustody Settlements)) (e : ActiveLocalEnvironment) : ActiveLocalEnvironment :=
  Build_ActiveLocalEnvironment (act_inbox e) (act_next_event_source e)
    (act_next_settlement_source e) (act_control_liveness e) (act_interpreter e)
    (act_owner_cancellation e) (act_publication e) (act_lease e) (act_interpretation e)
    (act_source e) (act_received_interpretation e) x (act_source_index e) (act_acquired_ingress e)
    (act_retirement e) (act_retired_ingress e) (act_unread_owner_cancellation e).
Definition act_set_source_index (x : option nat) (e : ActiveLocalEnvironment) : ActiveLocalEnvironment :=
  Build_ActiveLocalEnvironment (act_inbox e) (act_next_event_source e)
    (act_next_settlement_source e) (act_control_liveness e) (act_interpreter e)
    (act_owner_cancellation e) (act_publication e) (act_lease e) (act_interpretation e)
    (act_source e) (act_received_interpretation e) (act_received_source e) x
    (act_acquired_ingress e) (act_retirement e) (act_retired_ingress e)
    (act_unread_owner_cancellation e).
Definition act_set_acquired_ingress (x : option (ControlFlow Request (option Event))) (e : ActiveLocalEnvironment) : ActiveLocalEnvironment :=
  Build_ActiveLocalEnvironment (act_inbox e) (act_next_event_source e)
    (act_next_settlement_source e) (act_control_liveness e) (act_interpreter e)
    (act_owner_cancellation e) (act_publication e) (act_lease e) (act_interpretation e)
    (act_source e) (act_received_interpretation e) (act_received_source e) (act_source_index e) x
    (act_retirement e) (act_retired_ingress e) (act_unread_owner_cancellation e).
Definition act_set_retirement (x : option CapabilityRetirement) (e : ActiveLocalEnvironment) : ActiveLocalEnvironment :=
  Build_ActiveLocalEnvironment (act_inbox e) (act_next_event_source e)
    (act_next_settlement_source e) (act_control_liveness e) (act_interpreter e)
    (act_owner_cancellation e) (act_publication e) (act_lease e) (act_interpretation e)
    (act_source e) (act_received_interpretation e) (act_received_source e) (act_source_index e)
    (act_acquired_ingress e) x (act_retired_ingress e) (act_unread_owner_cancellation e).
Definition act_set_retired_ingress (x : option (Drained Event Retired)) (e : ActiveLocalEnvironment) : ActiveLocalEnvironment :=
  Build_ActiveLocalEnvironment (act_inbox e) (act_next_event_source e)
    (act_next_settlement_source e) (act_control_liveness e) (act_interpreter e)
    (act_owner_cancellation e) (act_publication e) (act_lease e) (act_interpretation e)
    (act_source e) (act_received_interpretation e) (act_received_source e) (act_source_index e)
    (act_acquired_ingress e) (act_retirement e) x (act_unread_owner_cancellation e).
Definition act_set_unread_owner_cancellation (x : option ()) (e : ActiveLocalEnvironment) : ActiveLocalEnvironment :=
  Build_ActiveLocalEnvironment (act_inbox e) (act_next_event_source e)
    (act_next_settlement_source e) (act_control_liveness e) (act_interpreter e)
    (act_owner_cancellation e) (act_publication e) (act_lease e) (act_interpretation e)
    (act_source e) (act_received_interpretation e) (act_received_source e) (act_source_index e)
    (act_acquired_ingress e) (act_retirement e) (act_retired_ingress e) x.
End data.

#[export] Instance EventSource_eq_dec : EqDecision EventSource.
Proof. solve_decision. Defined.
#[export] Instance SettlementSource_eq_dec : EqDecision SettlementSource.
Proof. solve_decision. Defined.

(** ** The host and the interpreter *)

(** What the host disposes of when an owner drops it. *)
Variant HostOwner `{!LocalTypes} :=
  | Own_Reservation (reservation : Reservation)
  | Own_Lease (lease : Lease)
  | Own_Publication (publication : Publication)
  | Own_Commitment (commitment : CommitmentSender)
  | Own_AckSender (acknowledge : AckSender)
  | Own_AckReceiver (acknowledged : AckReceiver)
  | Own_Control (control : ControlSender).

Class LocalHost `{!LocalTypes} := {
  mailbox_channel : World → World * (ControlSender * Owner * MailboxRef * Consumer);
  try_reserve : AddressSpace → Addr → World → World * Result Reservation ClaimError;
  reservation_publish : Reservation → ActorRef → World → World * Lease;
  oneshot_channel : World → World * (AckSender * AckReceiver);
  commitment_send : CommitmentSender → ActorRef * AckSender → World →
    World * Result () (ActorRef * AckSender);
  await_acknowledgement : AckReceiver → World → World * option (Result () RecvError);
  poll_sleep : Instant → World → World * bool;
  now : World → Instant;
  notify : Notice → ActorRef → World → World * option Panic;
  dispose : HostOwner → World → World;
  wait : World → World
}.

(** The trait [CommitActions].  [poll_local_event] is one poll of
    [next_local_event], [None] while it is pending. *)
Class CommitActions `{!LocalTypes} := {
  interpreter_initialize : Async Panic (World * Interpreter) ();
  interpreter_commit : Async Panic (World * (Interpreter * option Progress)) ();
  interpreter_offer_next : Async Panic (World * (Interpreter * option SourceStage)) ();
  poll_local_event : Async Panic (World * Interpreter) (option (Result Event JoinError));
  next_deadline : Interpreter → Interpreter * option Instant;
  pop_due : Interpreter → Instant → Interpreter * option Event;
  interpreter_receive_retirement :
    Async Panic (World * (option Interpreter * option CapabilityRetirement)) ()
}.

(** The settlements of the behavior crate, as the driver classifies them, and
    the payload of the environment's own assertions. *)
Class SettlementClass `{!LocalTypes} := {
  interpretation_status : Interpretation Settlements → SettlementStatus + Panic;
  into_settlements : Interpretation Settlements → Settlements;
  settlement_drop : Settlements → option Panic;
  assertion : Panic
}.

(** ** Operations on the prepared environment *)

Section operations.
Context {TY : LocalTypes} {HO : LocalHost} {CA : CommitActions}.
Context `{!Communication World Owner Consumer Event Item}.
Context `{!CancellationChannel World Cancel}.
Context `{!IngressMode Panic World Event Item Retired MailboxRef}.
Implicit Types (e : LocalEnvironment) (a : ActiveLocalEnvironment) (w : World).

Local Abbreviation Prepare := (Async Panic (World * LocalEnvironment)).
Local Abbreviation Run := (Async Panic (World * ActiveLocalEnvironment)).

(** [LocalEnvironment::prepare]. *)
Definition prepare (address : Addr) (addresses : AddressSpace)
    (termination : TerminationObservation) (owner_cancellation : Cancel)
    (make_interpreter : ControlSender → Interpreter) w : World * LocalEnvironment :=
  let '(w, (control, owner, mailbox, consumer)) := mailbox_channel w in
  let w := set_admission (Some (Some owner)) w in
  (w, {| env_address := address; env_addresses := addresses;
         env_endpoint := ActorRef_new address (mode_endpoint mailbox) termination;
         env_consumer := Some consumer; env_control_liveness := Some control;
         env_interpreter := Some (make_interpreter control);
         env_owner_cancellation := Some owner_cancellation; env_commitment := None;
         env_publication_notice := Notice_Unobserved; env_reservation := None;
         env_acknowledgement := None; env_acknowledged := None; env_initialization := None;
         env_activation_rejection := None; env_retirement := None; env_retired_ingress := None;
         env_unread_owner_cancellation := None; env_residual := None |}).

Definition with_private_commitment (commitment : CommitmentSender) e : LocalEnvironment :=
  env_set_commitment (Some commitment) e.
Definition publish_with (notice : Notice) e : LocalEnvironment :=
  env_set_publication_notice (Notice_Notify notice) e.

(** [drop(field.take())]. *)
Definition discard {T X} (part : T → option X) (put : option X → T → T) (own : X → HostOwner) :
    Async Panic (World * T) () :=
  λ '(w, t),
    match part t with
    | Some x => ((dispose (own x) w, put None t), Ready ())
    | None => ((w, t), Ready ())
    end.

(** An operation on the host that may unwind. *)
Definition on_host {T A} (m : Async Panic World A) : Async Panic (World * T) A :=
  λ '(w, t), let '(w, o) := m w in ((w, t), o).

(** The owner's cancellation is closed and read once. *)
Definition close_cancellation {T} (part : T → option Cancel) (put : option Cancel → T → T)
    (unread : option () → T → T) : Async Panic (World * T) () :=
  receiver ← look part;
  match receiver with
  | None => mret ()
  | Some receiver =>
      change (put None);;
      request ← perform (close_owner_cancellation receiver);
      change (unread request)
  end.

Definition is_none {A} (o : option A) : bool := negb (is_some o).

(** The lanes of a residual of a prepared environment. *)
Definition prepared_lanes (r : CapabilityRetirement) (ingress : Drained Event Retired)
    (unread : option ()) : ResidualLanes :=
  {| lane_interpretation := None; lane_source := None; lane_source_index := None;
     lane_acquired_ingress := None; lane_ingress := ingress;
     lane_activation_tasks := retired_tasks r; lane_descendants := retired_descendants r;
     lane_operation_failures := retired_operation_failures r;
     lane_descendant_report := retired_descendant_report r; lane_capability_failures := [];
     lane_terminal_report := retired_terminal_report r;
     lane_retirement_failures := retired_failures r; lane_unread_owner_cancellation := unread |}.

(** The end of [receive_retirement]: the residual, from what was collected. *)
Definition settle_retirement e : LocalEnvironment :=
  match env_retirement e, env_retired_ingress e with
  | Some r, Some ingress =>
      let lanes := prepared_lanes r ingress (env_unread_owner_cancellation e) in
      let residual :=
        match env_initialization e with
        | Some initialization => Residual_Uncommitted initialization lanes
        | None => Residual_Prepared lanes
        end in
      env_set_residual (Some residual) (env_set_initialization None
        (env_set_unread_owner_cancellation None (env_set_retirement None
          (env_set_retired_ingress None e))))
  | _, _ => e
  end.

(** The mailbox is taken and drained once. *)
Definition drain_mailbox : Prepare () :=
  e ← look id;
  match env_retired_ingress e, env_consumer e with
  | None, Some consumer =>
      change (env_set_consumer None);;
      drained ← on_host (collect_retired_ingress consumer);
      change (env_set_retired_ingress (Some drained))
  | _, _ => mret ()
  end.

(** [LocalEnvironment::receive_retirement]. *)
Definition receive_retirement : Prepare () :=
  retired ← look env_residual;
  if is_some retired then mret () else
  close_cancellation env_owner_cancellation env_set_owner_cancellation
    env_set_unread_owner_cancellation;;
  _ ← perform Admission_close;
  drain_mailbox;;
  focus (λ e, (env_interpreter e, env_retirement e))
    (λ '(interpreter, retirement) e,
       env_set_retirement retirement (env_set_interpreter interpreter e))
    interpreter_receive_retirement;;
  interpreter ← look env_interpreter;
  if is_some interpreter then mret () else
  discard env_reservation env_set_reservation Own_Reservation;;
  discard env_acknowledgement env_set_acknowledgement Own_AckReceiver;;
  discard env_commitment env_set_commitment Own_Commitment;;
  discard env_control_liveness env_set_control_liveness Own_Control;;
  change settle_retirement.

(** *** [activate], statement by statement *)

Definition initialize_interpreter : Prepare () :=
  λ '(w, e),
    match env_interpreter e with
    | None => ((w, e), Ready ())
    | Some interpreter =>
        let '((w, interpreter), o) := interpreter_initialize (w, interpreter) in
        ((w, env_set_interpreter (Some interpreter) e), o)
    end.

Definition reserve_address : Prepare () :=
  e ← look id;
  if is_none (env_activation_rejection e) && is_none (env_reservation e) then
    reserved ← perform (try_reserve (env_addresses e) (env_address e));
    change
      match reserved with
      | Ok reservation => env_set_reservation (Some reservation)
      | Err error => env_set_activation_rejection (Some (Rejection_Address error))
      end
  else mret ().

Definition offer_commitment : Prepare () :=
  e ← look id;
  match env_commitment e with
  | None => mret ()
  | Some commitment =>
      change (env_set_commitment None);;
      '(acknowledge, acknowledged) ← perform oneshot_channel;
      change (env_set_acknowledgement (Some acknowledged));;
      sent ← perform (commitment_send commitment (env_endpoint e, acknowledge));
      match sent with
      | Ok _ => mret ()
      | Err (_, acknowledge) =>
          change (env_set_activation_rejection (Some Rejection_BindingAbandoned));;
          perform (λ w, (dispose (Own_AckSender acknowledge) w, ()))
      end
  end.

Definition is_Err {T E} (r : Result T E) : bool := negb (is_Ok r).

Definition receive_acknowledgement : Prepare () :=
  e ← look id;
  match env_activation_rejection e, env_acknowledgement e with
  | None, Some acknowledgement =>
      answer ← perform (await_acknowledgement acknowledgement);
      match answer with
      | None => stay_pending
      | Some answer =>
          change (env_set_acknowledged (Some answer));;
          discard env_acknowledgement env_set_acknowledgement Own_AckReceiver;;
          if is_Err answer
          then change (env_set_activation_rejection (Some Rejection_BindingAbandoned))
          else mret ()
      end
  | _, _ => mret ()
  end.

Definition commit_initialization : Prepare () :=
  λ '(w, e),
    match env_interpreter e with
    | None => ((w, e), Ready ())
    | Some interpreter =>
        let '((w, (interpreter, progress)), o) :=
          interpreter_commit (w, (interpreter, env_initialization e)) in
        ((w, env_set_initialization progress (env_set_interpreter (Some interpreter) e)), o)
    end.

(** Up to the end that moves the environment out; [true] when it was rejected. *)
Definition bind_and_commit : Prepare bool :=
  initialize_interpreter;;
  reserve_address;;
  e ← look id;
  (if is_none (env_activation_rejection e)
   then offer_commitment;; receive_acknowledgement else mret ());;
  e ← look id;
  if is_some (env_activation_rejection e)
  then receive_retirement;; mret true
  else commit_initialization;; mret false.

Local Abbreviation Activation :=
  (Result (ActiveLocalEnvironment * Interpretation Settlements)
     (LocalActivationRejection * LocalResidual)).

(** A rejected environment that retired completely. *)
Definition reject_activation e : option LocalEnvironment * option Activation :=
  match env_activation_rejection e, env_residual e, env_consumer e, env_interpreter e,
        env_retirement e, env_retired_ingress e with
  | Some error, Some residual, None, None, None, None => (None, Some (Err (error, residual)))
  | _, _, _, _, _, _ => (Some e, None)
  end.

(** A committed environment becomes active. *)
Definition install_activation e : option LocalEnvironment * option Activation :=
  match env_consumer e, env_interpreter e, env_initialization e, env_reservation e,
        env_control_liveness e, env_owner_cancellation e, env_acknowledgement e with
  | Some consumer, Some interpreter, Some (Progress_Completed interpretation), Some reservation,
    Some control_liveness, Some owner_cancellation, None =>
      if is_none (env_activation_rejection e) && is_none (env_retirement e)
         && is_none (env_retired_ingress e) && is_none (env_residual e)
      then
        (None,
         Some (Ok
           ({| act_inbox := Some consumer; act_next_event_source := Source_Mailbox;
               act_next_settlement_source := Settlement_Control;
               act_control_liveness := Some control_liveness;
               act_interpreter := Some interpreter;
               act_owner_cancellation := Some owner_cancellation;
               act_publication :=
                 Some (Publication_Pending reservation (env_publication_notice e)
                         (env_endpoint e));
               act_lease := None; act_interpretation := None; act_source := None;
               act_received_interpretation := None; act_received_source := None;
               act_source_index := None; act_acquired_ingress := None; act_retirement := None;
               act_retired_ingress := None; act_unread_owner_cancellation := None |},
            interpretation)))
      else (Some e, None)
  | _, _, _, _, _, _, _ => (Some e, None)
  end.

(** The original actions enter the environment, unless it already holds some. *)
Definition take_initialization e (actions : option Actions) :
    option (LocalEnvironment * option Actions) :=
  match env_initialization e, actions with
  | Some _, Some _ | None, None => None
  | None, Some original => Some (env_set_initialization (Some (Progress_Original original)) e, None)
  | Some _, None => Some (e, None)
  end.

(** [Environment::activate] on its three borrowed slots. *)
Definition local_activate w (environment : option LocalEnvironment) (actions : option Actions)
    (received : option Activation) :
    World * (option LocalEnvironment * option Actions * option Activation) * Outcome Panic () :=
  match received, environment with
  | Some _, _ | _, None => (w, (environment, actions, received), Ready ())
  | None, Some e =>
      match take_initialization e actions with
      | None => (w, (environment, actions, None), Ready ())
      | Some (e, actions) =>
          if is_some (env_residual e) then (w, (Some e, actions, None), Ready ()) else
          let '((w, e), o) := bind_and_commit (w, e) in
          match o with
          | Ready rejected =>
              let '(environment, received) :=
                if rejected then reject_activation e else install_activation e in
              (w, (environment, actions, received), Ready ())
          | Pending => (w, (Some e, actions, None), Pending)
          | Panicked payload => (w, (Some e, actions, None), Panicked payload)
          | Violated => (w, (Some e, actions, None), Violated)
          end
      end
  end.

(** The residual of a prepared environment that retired completely. *)
Definition release_residual e : option LocalEnvironment * option LocalResidual :=
  match env_residual e, env_consumer e, env_interpreter e, env_retirement e,
        env_retired_ingress e with
  | Some residual, None, None, None, None => (None, Some residual)
  | _, _, _, _, _ => (Some e, None)
  end.

(** [Environment::retire]. *)
Definition local_retire_prepared w (environment : option LocalEnvironment)
    (actions : option Actions) (received : option LocalResidual) :
    World * (option LocalEnvironment * option Actions * option LocalResidual) * Outcome Panic () :=
  match received, environment with
  | Some _, _ | _, None => (w, (environment, actions, received), Ready ())
  | None, Some e =>
      if is_some actions && (is_some (env_initialization e) || is_some (env_residual e))
      then (w, (environment, actions, None), Ready ()) else
      let e :=
        match actions with
        | Some original => env_set_initialization (Some (Progress_Original original)) e
        | None => e
        end in
      let '((w, e), o) := receive_retirement (w, e) in
      match o with
      | Ready _ =>
          let '(environment, received) := release_residual e in
          (w, (environment, None, received), Ready ())
      | Pending => (w, (Some e, None, None), Pending)
      | Panicked payload => (w, (Some e, None, None), Panicked payload)
      | Violated => (w, (Some e, None, None), Violated)
      end
  end.

(** ** Operations on the active environment *)

(** An operation of the interpreter the incarnation owns ([expect]). *)
Definition with_interpreter {A} (m : Async Panic (World * Interpreter) A) : Run A :=
  λ '(w, a),
    match act_interpreter a with
    | None => ((w, a), Violated)
    | Some interpreter =>
        let '((w, interpreter), o) := m (w, interpreter) in
        ((w, act_set_interpreter (Some interpreter) a), o)
    end.

(** One poll of the cancellation future; without a receiver it is pending. *)
Definition poll_owner_cancellation : Run (option (option OwnerCancellation)) :=
  receiver ← look act_owner_cancellation;
  match receiver with
  | Some receiver => perform (poll_cancellation receiver)
  | None => mret None
  end.

Variant Acquired :=
  | Acquired_Mailbox (received : option (Received Event Item))
  | Acquired_Local (result : Result Event JoinError)
  | Acquired_Deadline
  | Acquired_OwnerCancellation (request : option OwnerCancellation).

(** One poll of one source of [next]. *)
Definition poll_event_source (deadline : option Instant) (source : EventSource) :
    Run (option Acquired) :=
  match source with
  | Source_Mailbox =>
      received ← focus act_inbox act_set_inbox LocalInbox_recv;
      mret (Acquired_Mailbox <$> received)
  | Source_Local => result ← with_interpreter poll_local_event; mret (Acquired_Local <$> result)
  | Source_Timer =>
      match deadline with
      | None => mret None
      | Some deadline =>
          due ← perform (poll_sleep deadline);
          mret (if due : bool then Some Acquired_Deadline else None)
      end
  end.

(** The first source of the list that is ready; the later ones are not polled. *)
Fixpoint first_ready {Src A} (poll : Src → Run (option A)) (sources : list Src) :
    Run (option (Src * A)) :=
  match sources with
  | [] => mret None
  | source :: sources =>
      acquired ← poll source;
      match acquired with
      | Some acquired => mret (Some (source, acquired))
      | None => first_ready poll sources
      end
  end.

(** One poll of the future [next] waits on. *)
Definition poll_events (deadline : option Instant) : Run (option Acquired) :=
  request ← poll_owner_cancellation;
  match request with
  | Some request => mret (Some (Acquired_OwnerCancellation request))
  | None =>
      a ← look id;
      acquired ← first_ready (poll_event_source deadline) (event_order (act_next_event_source a));
      mret (snd <$> acquired)
  end.

(** What [next] makes of it; [None] is a [continue] of its loop. *)
Definition receive_acquired (acquired : Acquired) : Run (option Ingress) :=
  match acquired with
  | Acquired_OwnerCancellation (Some cancellation) =>
      change (act_set_owner_cancellation None);;
      mret (Some (Break (Request_OwnerCancellation cancellation)))
  | Acquired_OwnerCancellation None => change (act_set_owner_cancellation None);; mret None
  | Acquired_Local (Ok event) =>
      change (act_set_next_event_source Source_Timer);; mret (Some (Continue (Some event)))
  | Acquired_Local (Err failure) => mret (Some (Break (Request_CapabilityFailed failure)))
  | Acquired_Deadline =>
      event ← with_interpreter (λ '(w, i),
        let '(i, event) := pop_due i (now w) in ((w, i), Ready event));
      match event with
      | Some event =>
          change (act_set_next_event_source Source_Mailbox);; mret (Some (Continue (Some event)))
      | None => mret None
      end
  | Acquired_Mailbox None => mret (Some (Continue None))
  | Acquired_Mailbox (Some received) =>
      change (act_set_next_event_source Source_Local);;
      match received with
      | Received_Control event => mret (Some (Continue (Some event)))
      | Received_User item =>
          event ← on_host (into_event item);
          mret (match event with Some event => Some (Continue (Some event)) | None => None end)
      | Received_UserLaneClosed => mret None
      end
  end.

Definition deadline_of : Run (option Instant) :=
  with_interpreter (λ '(w, i), let '(i, deadline) := next_deadline i in ((w, i), Ready deadline)).

(** [next] with [polls] polls left before it is dropped: between two polls the
    host goes on; a [continue] polls again with a new deadline. *)
Fixpoint next_polls (polls : nat) (deadline : option Instant) : Run Ingress :=
  match polls with
  | 0 => stay_pending
  | S polls =>
      acquired ← poll_events deadline;
      match acquired with
      | None => perform (λ w, (wait w, ()));; next_polls polls deadline
      | Some acquired =>
          reply ← receive_acquired acquired;
          match reply with
          | Some reply => mret reply
          | None => deadline ← deadline_of; next_polls polls deadline
          end
      end
  end.

Definition local_next (polls : nat) : Run Ingress :=
  deadline ← deadline_of; next_polls polls deadline.

(** One poll of one source of [next_source]. *)
Definition poll_settlement_source (source : SettlementSource) :
    Run (option (Result (option Event) JoinError)) :=
  match source with
  | Settlement_Control =>
      received ← focus act_inbox act_set_inbox LocalInbox_recv_source;
      mret (Ok <$> received)
  | Settlement_Local =>
      result ← with_interpreter poll_local_event;
      mret ((λ r, match r with Ok event => Ok (Some event) | Err failure => Err failure end)
              <$> result)
  end.

Definition after_settlement (source : SettlementSource) : SettlementSource :=
  match source with
  | Settlement_Control => Settlement_Local
  | Settlement_Local => Settlement_Control
  end.

(** [next_source], in the same way. *)
Fixpoint next_source_polls (polls : nat) : Run Ingress :=
  match polls with
  | 0 => stay_pending
  | S polls =>
      request ← poll_owner_cancellation;
      match request with
      | Some request =>
          change (act_set_owner_cancellation None);;
          match request with
          | Some cancellation => mret (Break (Request_OwnerCancellation cancellation))
          | None => next_source_polls polls
          end
      | None =>
          a ← look id;
          acquired ←
            first_ready poll_settlement_source (settlement_order (act_next_settlement_source a));
          match acquired with
          | None => perform (λ w, (wait w, ()));; next_source_polls polls
          | Some (source, event) =>
              change (act_set_next_settlement_source (after_settlement source));;
              mret
                match event with
                | Ok event => Continue event
                | Err failure => Break (Request_CapabilityFailed failure)
                end
          end
      end
  end.

(** The original actions enter the incarnation, unless it already holds some. *)
Definition take_actions a (actions : option Actions) :
    option (ActiveLocalEnvironment * option Actions) :=
  match act_interpretation a, actions with
  | Some _, Some _ | None, None => None
  | None, Some original => Some (act_set_interpretation (Some (Progress_Original original)) a, None)
  | Some _, None => Some (a, None)
  end.

(** The loan to the interpreter; [false] without one. *)
Definition commit_interpretation : Run bool :=
  λ '(w, a),
    match act_interpreter a with
    | None => ((w, a), Ready false)
    | Some interpreter =>
        let '((w, (interpreter, progress)), o) :=
          interpreter_commit (w, (interpreter, act_interpretation a)) in
        ((w, act_set_interpretation progress (act_set_interpreter (Some interpreter) a)),
         match o with
         | Ready _ => Ready true
         | Pending => Pending
         | Panicked payload => Panicked payload
         | Violated => Violated
         end)
    end.

Definition release_interpretation a :
    ActiveLocalEnvironment * option (Interpretation Settlements) :=
  match act_interpretation a with
  | Some (Progress_Completed interpretation) => (act_set_interpretation None a, Some interpretation)
  | _ => (a, None)
  end.

(** [ActiveEnvironment::apply] on its two borrowed slots. *)
Definition local_apply w a (actions : option Actions)
    (received : option (Interpretation Settlements)) :
    World * ActiveLocalEnvironment * (option Actions * option (Interpretation Settlements)) *
    Outcome Panic () :=
  match received, take_actions a actions with
  | Some _, _ | _, None => (w, a, (actions, received), Ready ())
  | None, Some (a, actions) =>
      let '((w, a), o) := commit_interpretation (w, a) in
      match o with
      | Ready true =>
          let '(a, received) := release_interpretation a in (w, a, (actions, received), Ready ())
      | Ready false => (w, a, (actions, None), Ready ())
      | Pending => (w, a, (actions, None), Pending)
      | Panicked payload => (w, a, (actions, None), Panicked payload)
      | Violated => (w, a, (actions, None), Violated)
      end
  end.

(** The same three steps for a settlement on offer. *)
Definition take_settlement a (settlement : option Settlements) :
    option (ActiveLocalEnvironment * option Settlements) :=
  match act_source a, settlement with
  | Some _, Some _ | None, None => None
  | None, Some original => Some (act_set_source (Some (Source_Original original)) a, None)
  | Some _, None => Some (a, None)
  end.

Definition offer_source : Run bool :=
  λ '(w, a),
    match act_interpreter a with
    | None => ((w, a), Ready false)
    | Some interpreter =>
        let '((w, (interpreter, stage)), o) :=
          interpreter_offer_next (w, (interpreter, act_source a)) in
        ((w, act_set_source stage (act_set_interpreter (Some interpreter) a)),
         match o with
         | Ready _ => Ready true
         | Pending => Pending
         | Panicked payload => Panicked payload
         | Violated => Violated
         end)
    end.

Definition release_source a : ActiveLocalEnvironment * option (SourceCustody Settlements) :=
  match act_source a with
  | Some (Source_Completed source) => (act_set_source None a, Some source)
  | _ => (a, None)
  end.

(** [ActiveEnvironment::offer_next] on its two borrowed slots. *)
Definition local_offer_next w a (settlement : option Settlements)
    (received : option (SourceCustody Settlements)) :
    World * ActiveLocalEnvironment * (option Settlements * option (SourceCustody Settlements)) *
    Outcome Panic () :=
  match received, take_settlement a settlement with
  | Some _, _ | _, None => (w, a, (settlement, received), Ready ())
  | None, Some (a, settlement) =>
      let '((w, a), o) := offer_source (w, a) in
      match o with
      | Ready true =>
          let '(a, received) := release_source a in (w, a, (settlement, received), Ready ())
      | Ready false => (w, a, (settlement, None), Ready ())
      | Pending => (w, a, (settlement, None), Pending)
      | Panicked payload => (w, a, (settlement, None), Panicked payload)
      | Violated => (w, a, (settlement, None), Violated)
      end
  end.

(** The owner's request, tried before publication. *)
Definition try_owner_cancellation : Run (option OwnerCancellation) :=
  receiver ← look act_owner_cancellation;
  match receiver with
  | None => mret None
  | Some receiver =>
      request ← perform (cancellation_try_recv receiver);
      match request with
      | Ok request => change (act_set_owner_cancellation None);; mret (Some request)
      | Err TryRecvError_Closed => change (act_set_owner_cancellation None);; mret None
      | Err TryRecvError_Empty => mret None
      end
  end.

(** [ActiveEnvironment::publish]; the address is published before the notice,
    whose panic leaves it published. *)
Definition local_publish : Run (ControlFlow Request ()) :=
  request ← try_owner_cancellation;
  match request with
  | Some request => mret (Break (Request_OwnerCancellation request))
  | None =>
      publication ← look act_publication;
      change (act_set_publication None);;
      match publication with
      | Some (Publication_Pending reservation notice endpoint) =>
          lease ← perform (reservation_publish reservation endpoint);
          change (act_set_lease (Some lease));;
          change (act_set_publication (Some Publication_Published));;
          match notice with
          | Notice_Unobserved => mret (Continue ())
          | Notice_Notify notice =>
              panicked ← perform (notify notice endpoint);
              match panicked with
              | None => mret (Continue ())
              | Some payload => unwinds payload
              end
          end
      | Some Publication_Published =>
          change (act_set_publication (Some Publication_Published));; violated
      | None => violated
      end
  end.

(** *** Retirement *)

(** The slots the driver loans to [retire], and what it receives. *)
Record RetireSlots := {
  slot_actions : option Actions;
  slot_interpretation : option (Interpretation Settlements);
  slot_source : option (SourceCustody Settlements);
  slot_source_index : option nat;
  slot_ingress : option Ingress;
  slot_settlements : option (list Settlements)
}.

(** A lane that both the environment and the driver hold. *)
Definition coexist (l : RetireSlots) a : bool :=
  (is_some (act_interpretation a) && is_some (slot_actions l))
  || (is_some (act_received_interpretation a) && is_some (slot_interpretation l))
  || (is_some (act_received_source a) && is_some (slot_source l))
  || (is_some (act_source_index a) && is_some (slot_source_index l))
  || (is_some (act_acquired_ingress a) && is_some (slot_ingress l)).

(** [if self.is_none() { self = slot.take() }]. *)
Definition or_take {A} (own slot : option A) : option A * option A :=
  match own with Some _ => (own, slot) | None => (slot, None) end.

(** The driver's lanes enter the environment. *)
Definition take_lanes (l : RetireSlots) a : ActiveLocalEnvironment * RetireSlots :=
  let a :=
    match slot_actions l with
    | Some original => act_set_interpretation (Some (Progress_Original original)) a
    | None => a
    end in
  let '(i, slot_i) := or_take (act_received_interpretation a) (slot_interpretation l) in
  let '(s, slot_s) := or_take (act_received_source a) (slot_source l) in
  let '(n, slot_n) := or_take (act_source_index a) (slot_source_index l) in
  let '(g, slot_g) := or_take (act_acquired_ingress a) (slot_ingress l) in
  (act_set_acquired_ingress g (act_set_source_index n (act_set_received_source s
     (act_set_received_interpretation i a))),
   {| slot_actions := None; slot_interpretation := slot_i; slot_source := slot_s;
      slot_source_index := slot_n; slot_ingress := slot_g;
      slot_settlements := slot_settlements l |}).

Definition drain_inbox : Run () :=
  a ← look id;
  match act_retired_ingress a with
  | Some _ => mret ()
  | None =>
      drained ← focus act_inbox act_set_inbox LocalInbox_drain;
      change (act_set_retired_ingress drained)
  end.

(** From the closed cancellation to the disposal of the standard owners;
    [false] when the interpreter has not retired. *)
Definition collect_retirement : Run bool :=
  close_cancellation act_owner_cancellation act_set_owner_cancellation
    act_set_unread_owner_cancellation;;
  _ ← perform Admission_close;
  drain_inbox;;
  focus (λ a, (act_interpreter a, act_retirement a))
    (λ '(interpreter, retirement) a,
       act_set_retirement retirement (act_set_interpreter interpreter a))
    interpreter_receive_retirement;;
  interpreter ← look act_interpreter;
  if is_some interpreter then mret false else
  discard act_control_liveness act_set_control_liveness Own_Control;;
  discard act_lease act_set_lease Own_Lease;;
  discard act_publication act_set_publication Own_Publication;;
  mret true.

Definition active_lanes a (r : CapabilityRetirement) (ingress : Drained Event Retired) :
    ResidualLanes :=
  {| lane_interpretation := act_received_interpretation a;
     lane_source := act_received_source a;
     lane_source_index := act_source_index a;
     lane_acquired_ingress := act_acquired_ingress a; lane_ingress := ingress;
     lane_activation_tasks := retired_tasks r; lane_descendants := retired_descendants r;
     lane_operation_failures := retired_operation_failures r;
     lane_descendant_report := retired_descendant_report r; lane_capability_failures := [];
     lane_terminal_report := retired_terminal_report r;
     lane_retirement_failures := retired_failures r;
     lane_unread_owner_cancellation := act_unread_owner_cancellation a |}.

(** [ActiveEnvironment::retire]. *)
Definition local_retire_active w (environment : option ActiveLocalEnvironment) (l : RetireSlots)
    (received : option LocalResidual) :
    World * (option ActiveLocalEnvironment * RetireSlots * option LocalResidual) *
    Outcome Panic () :=
  match received, environment, slot_settlements l with
  | Some _, _, _ | _, None, _ | _, _, None => (w, (environment, l, received), Ready ())
  | None, Some a, Some settlements =>
      if coexist l a then (w, (environment, l, None), Ready ()) else
      let '(a, l) := take_lanes l a in
      let '((w, a), o) := collect_retirement (w, a) in
      match o with
      | Ready true =>
          match act_interpreter a, act_retirement a, act_retired_ingress a with
          | None, Some r, Some ingress =>
              (w, (None,
                   {| slot_actions := slot_actions l; slot_interpretation := slot_interpretation l;
                      slot_source := slot_source l; slot_source_index := slot_source_index l;
                      slot_ingress := slot_ingress l; slot_settlements := None |},
                   Some (Residual_Retired (act_interpretation a) (act_source a) settlements
                           (active_lanes a r ingress))), Ready ())
          | _, _, _ => (w, (Some a, l, None), Ready ())
          end
      | Ready false => (w, (Some a, l, None), Ready ())
      | Pending => (w, (Some a, l, None), Pending)
      | Panicked payload => (w, (Some a, l, None), Panicked payload)
      | Violated => (w, (Some a, l, None), Violated)
      end
  end.

(** ** The environment of the driver *)

Context {SC : SettlementClass}.

(** [publish] as the driver catches it. *)
Definition publication_result (o : Outcome Panic (ControlFlow Request ())) :
    ControlFlow Request () + Panic :=
  match o with
  | Ready flow => inl flow
  | Panicked payload => inr payload
  | Pending | Violated => inr assertion
  end.

(** [polls w] is how often the executor polls before it drops a waiting turn. *)
Definition local_environment_port (polls : World → nat) :
    EnvironmentPort World LocalEnvironment ActiveLocalEnvironment Actions Event Settlements
      (Interpretation Settlements) Request LocalActivationRejection LocalResidual Panic :=
  {| activate w environment actions received :=
       let '(w, slots, o) := local_activate w environment actions received in
       (w, slots, host_run assertion o);
     retire_prepared w environment actions received :=
       let '(w, slots, o) := local_retire_prepared w environment actions received in
       (w, slots, host_run assertion o);
     next w a := let '((w', a), o) := local_next (polls w) (w, a) in (w', a, host_run assertion o);
     next_source w a :=
       let '((w', a), o) := next_source_polls (polls w) (w, a) in (w', a, host_run assertion o);
     apply w a actions received :=
       let '(w, a, slots, o) := local_apply w a actions received in
       (w, a, slots, host_run assertion o);
     offer_next w a settlement received :=
       let '(w, a, slots, o) := local_offer_next w a settlement received in
       (w, a, slots, host_run assertion o);
     publish w a :=
       let '((w, a), o) := local_publish (w, a) in (w, a, publication_result o);
     retire_active w environment actions interpretation source index ingress settlements received :=
       let '(w, (environment, l, received), o) :=
         local_retire_active w environment
           {| slot_actions := actions; slot_interpretation := interpretation;
              slot_source := source; slot_source_index := index; slot_ingress := ingress;
              slot_settlements := settlements |} received in
       (w, (environment, slot_actions l, slot_interpretation l, slot_source l,
            slot_source_index l, slot_ingress l, slot_settlements l, received),
        host_run assertion o);
     settlement_status := interpretation_status;
     interpretation_settlement := into_settlements;
     drop_settlement := settlement_drop |}.
End operations.
