(* ===== verification/LocalExample.v ===== *)
(** * A concrete local host

    An instance of the host of LocalEnvironment.v: a mailbox of numbers in
    entity mode, an owner that may have requested cancellation, one claimed
    address, a binding that answers or not, an interpreter whose tasks hand in
    events and that completes what it is loaned unless it is told to panic.  The
    witnesses of the theorems run actors on it. *)

From S2P Require Import Prelude Driver DriverLaw Host Assessment LocalIngress LocalEnvironment.

Record Bench := {
  bench_control : list nat;
  bench_user : list (LocalIngress nat nat nat);
  bench_admission : Admission ();
  bench_request : option OwnerCancellation;
  bench_claimed : list nat;
  bench_answers : option bool;
  bench_fences : list (nat * Result () FenceFailure);
  bench_published : list nat;
  bench_disposed : nat
}.

(** An interpreter: the events of its tasks, and whether it panics. *)
Record Machine := { machine_events : list nat; machine_panics : bool }.

#[export] Instance bench_types : LocalTypes := {|
  World := Bench; Panic := (); Event := nat; Item := LocalIngress nat nat nat;
  Retired := User nat nat; Actions := nat * Step; InterpretationCustody := (); OfferCustody := ();
  Settlements := nat; Interpreter := Machine; Descendants := (); Notice := ();
  Addr := nat; AddressSpace := (); ClaimError := nat; Reservation := nat; Lease := nat;
  Owner := (); Consumer := (); MailboxRef := (); ControlSender := (); Cancel := ();
  CommitmentSender := (); AckSender := (); AckReceiver := (); RecvError := ();
  Tasks := list (Result (Result () nat) nat); JoinError := nat; Instant := nat;
  TerminationObservation := (); Termination := nat
|}.

Definition set_queues (control : list nat) (user : list (LocalIngress nat nat nat)) (w : Bench) : Bench :=
  {| bench_control := control; bench_user := user; bench_admission := bench_admission w;
     bench_request := bench_request w; bench_claimed := bench_claimed w;
     bench_answers := bench_answers w; bench_fences := bench_fences w;
     bench_published := bench_published w; bench_disposed := bench_disposed w |}.
Definition bench_set_admission (x : Admission ()) (w : Bench) : Bench :=
  {| bench_control := bench_control w; bench_user := bench_user w; bench_admission := x;
     bench_request := bench_request w; bench_claimed := bench_claimed w;
     bench_answers := bench_answers w; bench_fences := bench_fences w;
     bench_published := bench_published w; bench_disposed := bench_disposed w |}.
Definition set_claims (claimed published : list nat) (w : Bench) : Bench :=
  {| bench_control := bench_control w; bench_user := bench_user w;
     bench_admission := bench_admission w; bench_request := bench_request w;
     bench_claimed := claimed; bench_answers := bench_answers w; bench_fences := bench_fences w;
     bench_published := published; bench_disposed := bench_disposed w |}.
Definition set_fences (fences : list (nat * Result () FenceFailure)) (w : Bench) : Bench :=
  {| bench_control := bench_control w; bench_user := bench_user w;
     bench_admission := bench_admission w; bench_request := bench_request w;
     bench_claimed := bench_claimed w; bench_answers := bench_answers w; bench_fences := fences;
     bench_published := bench_published w; bench_disposed := bench_disposed w |}.
Definition count_disposal (w : Bench) : Bench :=
  {| bench_control := bench_control w; bench_user := bench_user w;
     bench_admission := bench_admission w; bench_request := bench_request w;
     bench_claimed := bench_claimed w; bench_answers := bench_answers w;
     bench_fences := bench_fences w; bench_published := bench_published w;
     bench_disposed := S (bench_disposed w) |}.

#[export] Instance bench_mailbox :
    Communication Bench () () nat (LocalIngress nat nat nat) := {|
  poll_recv _ w :=
    match bench_control w, bench_user w with
    | event :: rest, _ => (set_queues rest (bench_user w) w, (tt, Some (Some (Received_Control event))))
    | [], item :: rest => (set_queues [] rest w, (tt, Some (Some (Received_User item))))
    | [], [] => (w, (tt, Some None))
    end;
  poll_recv_control _ w :=
    match bench_control w with
    | event :: rest => (set_queues rest (bench_user w) w, (tt, Some (Some event)))
    | [] => (w, (tt, None))
    end;
  consumer_drain _ w :=
    (set_queues [] [] w, {| control := bench_control w; user := bench_user w |});
  close_admission _ w := w;
  admission := bench_admission;
  set_admission := bench_set_admission
|}.

#[export] Instance bench_cancellation : CancellationChannel Bench () := {|
  poll_cancellation _ w := (w, Some <$> bench_request w);
  cancellation_close _ w := w;
  cancellation_try_recv _ w :=
    (w, match bench_request w with Some request => Ok request | None => Err TryRecvError_Empty end)
|}.

#[export] Instance bench_publisher : FencePublisher () Bench nat := {|
  publisher_complete fence result w := (set_fences (bench_fences w ++ [(fence, result)]) w, Ready ())
|}.

#[export] Instance bench_mode : IngressMode () Bench nat (LocalIngress nat nat nat) (User nat nat) () :=
  EntityIngress (λ _ message, message).

#[export] Instance bench_tasks : TaskSet Bench (list (Result (Result () nat) nat)) nat nat := {|
  join_next tasks w :=
    match tasks with
    | joined :: tasks => (w, (tasks, Some (Some joined)))
    | [] => (w, ([], Some None))
    end;
  tasks_is_empty tasks := match tasks with [] => true | _ => false end
|}.

#[export] Instance bench_host : LocalHost := {|
  mailbox_channel w := (w, (tt, tt, tt, tt));
  try_reserve _ address w :=
    if bool_decide (address ∈ bench_claimed w) then (w, Err address)
    else (set_claims (address :: bench_claimed w) (bench_published w) w, Ok address);
  reservation_publish address _ w :=
    (set_claims (bench_claimed w) (address :: bench_published w) w, address);
  oneshot_channel w := (w, (tt, tt));
  commitment_send _ _ w :=
    (w, match bench_answers w with
        | Some true => Ok ()
        | _ => Err (ActorRef_new 0 (Endpoint_Standard tt) tt, tt)
        end);
  await_acknowledgement _ w := (w, Some (Ok ()));
  poll_sleep _ w := (w, false);
  now _ := 0;
  notify _ _ w := (w, None);
  dispose _ := count_disposal;
  wait w := w
|}.

#[export] Instance bench_commits : CommitActions := {|
  interpreter_initialize s := (s, Ready ());
  interpreter_commit '(w, (m, progress)) :=
    if machine_panics m then ((w, (m, progress)), Panicked ()) else
    match progress with
    | Some (Progress_Original (n, _)) =>
        ((w, (m, Some (Progress_Completed (Interpretation_Complete n)))), Ready ())
    | Some (Progress_Interpreting _) =>
        ((w, (m, Some (Progress_Completed (Interpretation_Complete 0)))), Ready ())
    | progress => ((w, (m, progress)), Ready ())
    end;
  interpreter_offer_next '(w, (m, stage)) :=
    match stage with
    | Some (Source_Original n) =>
        ((w, (m, Some (Source_Completed (Custody_Exhausted n)))), Ready ())
    | Some (Source_Offering _) =>
        ((w, (m, Some (Source_Completed (Custody_Exhausted 0)))), Ready ())
    | stage => ((w, (m, stage)), Ready ())
    end;
  poll_local_event '(w, m) :=
    match machine_events m with
    | event :: rest => ((w, {| machine_events := rest; machine_panics := machine_panics m |}),
                        Ready (Some (Ok event)))
    | [] => ((w, m), Ready None)
    end;
  next_deadline m := (m, None);
  pop_due m _ := (m, None);
  interpreter_receive_retirement '(w, (m, received)) :=
    match m, received with
    | Some m, None =>
        ((w, (None, Some
          {| retired_tasks := (λ event, Ok (Err event)) <$> machine_events m;
             retired_descendants := (); retired_operation_failures := NoFailuresFound;
             retired_descendant_report := Report_new Established NoFailuresFound;
             retired_terminal_report := None; retired_failures := [] |})), Ready ())
    | Some m, Some r => ((w, (None, Some r)), Ready ())
    | None, received => ((w, (None, received)), Ready ())
    end
|}.

#[export] Instance bench_settlements : SettlementClass := {|
  interpretation_status i :=
    inl (match i with Interpretation_Complete _ => Status_Accepted | Interpretation_Corrupt _ => Status_Corrupt end);
  into_settlements i :=
    match i with Interpretation_Complete n | Interpretation_Corrupt n => n end;
  settlement_drop _ := None;
  assertion := ()
|}.

(** A host with queued ingress, and the actor prepared at an address of it. *)
Definition bench (control : list nat) (user : list (LocalIngress nat nat nat))
    (request : option OwnerCancellation) (claimed : list nat) (answers : option bool) : World :=
  {| bench_control := control; bench_user := user; bench_admission := None;
     bench_request := request; bench_claimed := claimed; bench_answers := answers;
     bench_fences := []; bench_published := []; bench_disposed := 0 |}.

Definition machine (events : list nat) : Machine := {| machine_events := events; machine_panics := false |}.

Definition bench_prepare (m : Machine) (w : World) : World * LocalEnvironment :=
  prepare (2 : Addr) (tt : AddressSpace) (tt : TerminationObservation) (tt : Cancel) (λ _, m) w.
