(* ===== verification/LocalNext.v ===== *)
(** * Choosing the next event

    How [next], [next_source] and [publish] of LocalEnvironment.v choose among
    the owner's cancellation, the mailbox, the tasks and the timers: the owner
    first, then the sources in rotation, so that a source which is ready is not
    passed over more than twice. *)

From S2P Require Import Prelude Driver Host LocalIngress LocalEnvironment LocalExample.

Section order.
Context {TY : LocalTypes} {HO : LocalHost} {CA : CommitActions}.
Context `{!Communication World Owner Consumer Event Item}.
Context `{!CancellationChannel World Cancel}.
Context `{!IngressMode Panic World Event Item Retired MailboxRef}.
Implicit Types (a : ActiveLocalEnvironment) (w : World).
Local Abbreviation State := (World * ActiveLocalEnvironment)%type.

(** ** Polling in order *)

(** The sources that were polled and found pending. *)
Fixpoint polled_pending {Src A} (poll : Src → Async Panic State (option A)) (sources : list Src)
    (st : State) : list Src :=
  match sources with
  | [] => []
  | source :: sources =>
      match poll source st with
      | (st, Ready None) => source :: polled_pending poll sources st
      | _ => []
      end
  end.

Lemma first_ready_order {Src A} (poll : Src → Async Panic State (option A)) sources st st' source x :
  first_ready poll sources st = (st', Ready (Some (source, x))) →
  ∃ later, sources = polled_pending poll sources st ++ source :: later.
Proof.
  revert st. induction sources as [|s sources IH]; intros st; cbn; [done|].
  rewrite bind_eq. destruct (poll s st) as [st1 [[y|]| | |]]; try done.
  - intros [= -> -> ->]. by exists sources.
  - intros Hr. destruct (IH _ Hr) as [later Hl]. exists later. cbn. by rewrite <-Hl.
Qed.

(** ** Rotation *)

(** The source entitled after one was served. *)
Definition after_event (source : EventSource) : EventSource :=
  match source with
  | Source_Mailbox => Source_Local
  | Source_Local => Source_Timer
  | Source_Timer => Source_Mailbox
  end.

(** The source that handed something over, given what [next] made of it. *)
Definition service (acquired : Acquired) (reply : option Ingress) : option EventSource :=
  match acquired, reply with
  | Acquired_Mailbox (Some _), _ => Some Source_Mailbox
  | Acquired_Local (Ok _), _ => Some Source_Local
  | Acquired_Deadline, Some _ => Some Source_Timer
  | _, _ => None
  end.

Lemma service_rotates acquired st st' reply source :
  receive_acquired acquired st = (st', Ready reply) → service acquired reply = Some source →
  act_next_event_source st'.2 = after_event source.
Proof.
  destruct st as [w a], acquired as [[[event|item|]|]|[event|failure]| |[cancellation|]];
    cbn; try done.
  - by intros [= <- <-] [= <-].
  - rewrite !bind_eq. cbn. rewrite bind_eq. unfold on_host. cbn.
    destruct (into_event item w) as [w1 [[event|]| | |]]; try done;
      by intros [= <- <-] [= <-].
  - by intros [= <- <-] [= <-].
  - by intros [= <- <-] [= <-].
  - rewrite bind_eq. unfold with_interpreter. destruct (act_interpreter a) as [i|]; [|done].
    destruct (pop_due i (now w)) as [i' [event|]]; intros [= <- <-]; [|done]. by intros [= <-].
Qed.

(** The place of a source in an order. *)
Definition rank (source first : EventSource) : nat :=
  match first, source with
  | Source_Mailbox, Source_Mailbox | Source_Local, Source_Local | Source_Timer, Source_Timer => 0
  | Source_Mailbox, Source_Local | Source_Local, Source_Timer | Source_Timer, Source_Mailbox => 1
  | Source_Mailbox, Source_Timer | Source_Local, Source_Mailbox | Source_Timer, Source_Local => 2
  end.

Lemma rank_bound source first : rank source first ≤ 2.
Proof. destruct source, first; cbn; lia. Qed.

(** Serving another source brings one that was not pending closer. *)
Lemma rank_decreases source served first earlier later :
  event_order first = earlier ++ served :: later → source ∉ earlier → source ≠ served →
  rank source (after_event served) < rank source first.
Proof.
  intros Ho Hn Hne. destruct earlier as [|s1 [|s2 [|s3 earlier]]].
  - destruct first; injection Ho as <- _; by destruct source; cbn in *; try lia.
  - assert (source ≠ s1) by (intros ->; apply Hn, list_elem_of_here).
    destruct first; injection Ho as <- <- _; by destruct source; cbn in *; try lia.
  - assert (source ≠ s1 ∧ source ≠ s2) as [? ?]
      by (split; intros ->; apply Hn; repeat constructor).
    destruct first; injection Ho as <- <- <- _; by destruct source; cbn in *; try lia.
  - destruct first; cbn in Ho; injection Ho as _ _ _ Ho; by destruct earlier.
Qed.

(** What an incarnation goes through: acquisitions that [next] receives, which
    never found [source] pending, and anything else that leaves the rotation. *)
Inductive services (source : EventSource) : State → list EventSource → State → Prop :=
  | services_nil st : services source st [] st
  | services_served deadline st st0 st1 acquired reply st2 served l st3 :
      poll_owner_cancellation st = (st0, Ready None) →
      poll_events deadline st = (st1, Ready (Some acquired)) →
      source ∉ polled_pending (poll_event_source deadline)
                 (event_order (act_next_event_source st.2)) st0 →
      receive_acquired acquired st1 = (st2, Ready reply) →
      service acquired reply = Some served →
      services source st2 l st3 →
      services source st (served :: l) st3
  | services_other st st1 l st2 :
      act_next_event_source st1.2 = act_next_event_source st.2 →
      services source st1 l st2 → services source st l st2.

Lemma poll_cancellation_rotation st st0 o :
  poll_owner_cancellation st = (st0, o) → st0.2 = st.2.
Proof.
  destruct st as [w a]. unfold poll_owner_cancellation. rewrite bind_eq. cbn.
  destruct (act_owner_cancellation a) as [receiver|]; [|by intros [= <- _]].
  unfold perform. destruct (poll_cancellation receiver w). by intros [= <- _].
Qed.

Lemma first_ready_served deadline sources st st' source x reply served :
  first_ready (poll_event_source deadline) sources st = (st', Ready (Some (source, x))) →
  service x reply = Some served → source = served.
Proof.
  intros Hf Hs. revert st Hf. induction sources as [|s1 sources IH]; intros st; cbn; [done|].
  rewrite bind_eq.
  destruct (poll_event_source deadline s1 st) as [st3 [[y|]| | |]] eqn:Hp; try done; [|apply IH].
  intros [= -> -> ->]. destruct st as [w a], source; cbn in Hp.
  - rewrite bind_eq in Hp. destruct (focus _ _ _ _) as [st4 [[received|]| | |]]; try done.
    injection Hp as _ <-. by destruct received; simplify_eq/=.
  - rewrite bind_eq in Hp. destruct (with_interpreter _ _) as [st4 [[[event|failure]|]| | |]]; try done;
      injection Hp as _ <-; by simplify_eq/=.
  - destruct deadline as [instant|]; [|done]. rewrite bind_eq in Hp. unfold perform in Hp.
    destruct (poll_sleep instant w) as [w1 []]; [|done]. injection Hp as _ <-.
    by destruct reply; simplify_eq/=.
Qed.

Lemma poll_events_source deadline st st0 st1 acquired reply served :
  poll_owner_cancellation st = (st0, Ready None) →
  poll_events deadline st = (st1, Ready (Some acquired)) → service acquired reply = Some served →
  ∃ later, event_order (act_next_event_source st.2) =
    polled_pending (poll_event_source deadline) (event_order (act_next_event_source st.2)) st0 ++
    served :: later.
Proof.
  intros Hc. unfold poll_events. rewrite bind_eq, Hc.
  pose proof (poll_cancellation_rotation _ _ _ Hc) as Hrot. destruct st0 as [w0 a0]. cbn in Hrot.
  rewrite bind_eq. cbn. rewrite <-Hrot, bind_eq.
  destruct (first_ready _ _ _) as [st2 [[[s x]|]| | |]] eqn:Hf; try done.
  intros [= <- <-] Hs. apply first_ready_order in Hf as Hl.
  by rewrite (first_ready_served _ _ _ _ _ _ _ _ Hf Hs) in Hl.
Qed.

Lemma services_bounded source st l st' :
  services source st l st' → source ∉ l → length l ≤ rank source (act_next_event_source st.2).
Proof.
  induction 1 as [st|deadline st st0 st1 acquired reply st2 served l st3 Hc Hp Hn Hr Hs _ IH
    |st st1 l st2 Hrot _ IH]; intros Hl.
  - cbn. lia.
  - apply not_elem_of_cons in Hl as [Hne Hl]. specialize (IH Hl).
    rewrite (service_rotates _ _ _ _ _ Hr Hs) in IH.
    destruct (poll_events_source _ _ _ _ _ _ _ Hc Hp Hs) as [later Ho].
    pose proof (rank_decreases _ _ _ _ _ Ho Hn Hne). cbn. lia.
  - rewrite <-Hrot. auto.
Qed.

(** ** Properties *)

(** C8: A source of events that is ready whenever it is polled is passed over at
    most twice: however the incarnation is run, if none of the events received
    came from it, at most two events were received, as few as its place in the
    rotation. *)
Theorem ready_source_waits_for_two source st served st' :
  services source st served st' → source ∉ served →
  length served ≤ rank source (act_next_event_source st.2) ∧ length served ≤ 2.
Proof.
  intros Hs Hl. pose proof (services_bounded _ _ _ _ Hs Hl).
  pose proof (rank_bound source (act_next_event_source st.2)). lia.
Qed.

(** The owner's request precedes everything else: when it is there, [next]
    and [next_source] return it after polling nothing but it, and [publish] after
    trying nothing but it; mailbox, tasks, timers and the pending publication
    stay as they are. *)
Lemma owner_request_precedes polls w a receiver i w' w'' request :
  act_owner_cancellation a = Some receiver → act_interpreter a = Some i →
  poll_cancellation receiver w = (w', Some (Some request)) →
  cancellation_try_recv receiver w = (w'', Ok request) →
  local_next (S polls) (w, a) =
    ((w', act_set_owner_cancellation None (act_set_interpreter (Some (next_deadline i).1) a)),
     Ready (Break (Request_OwnerCancellation request))) ∧
  next_source_polls (S polls) (w, a) =
    ((w', act_set_owner_cancellation None a), Ready (Break (Request_OwnerCancellation request))) ∧
  local_publish (w, a) =
    ((w'', act_set_owner_cancellation None a), Ready (Break (Request_OwnerCancellation request))).
Proof.
  intros Hr Hi Hp Ht.
  assert (∀ a, act_owner_cancellation a = Some receiver →
    poll_owner_cancellation (w, a) = ((w', a), Ready (Some (Some request)))) as Hpoll.
  { intros a1 H1. unfold poll_owner_cancellation. rewrite bind_eq. cbn. rewrite H1.
    unfold perform. by rewrite Hp. }
  split_and!.
  - unfold local_next, deadline_of, with_interpreter. rewrite bind_eq, Hi.
    destruct (next_deadline i) as [i' deadline]. cbn. unfold poll_events.
    rewrite !bind_eq, Hpoll by done. reflexivity.
  - cbn. rewrite bind_eq, Hpoll by done. reflexivity.
  - unfold local_publish, try_owner_cancellation. rewrite !bind_eq. cbn. rewrite Hr, bind_eq.
    unfold perform. rewrite Ht. reflexivity.
Qed.
End order.

(** ** Witnesses *)

(** An incarnation with two control events, two events of its tasks and an owner
    that asks for nothing, or for retirement. *)
Definition waiting_incarnation : ActiveLocalEnvironment :=
  {| act_inbox := Some tt; act_next_event_source := Source_Mailbox;
     act_next_settlement_source := Settlement_Control; act_control_liveness := Some tt;
     act_interpreter := Some (machine [5; 6]); act_owner_cancellation := Some tt;
     act_publication := Some Publication_Published; act_lease := Some 2;
     act_interpretation := None; act_source := None; act_received_interpretation := None;
     act_received_source := None; act_source_index := None; act_acquired_ingress := None;
     act_retirement := None; act_retired_ingress := None; act_unread_owner_cancellation := None |}.
Definition waiting_bench (request : option OwnerCancellation) : World :=
  bench [7; 8] [] request [] None.

Lemma ready_source_waits_for_two_witness :
  ∃ st, services Source_Local (waiting_bench None, waiting_incarnation) [Source_Mailbox] st ∧
    (Source_Local ∉ [Source_Mailbox]) ∧ length [Source_Mailbox] ≤ 2.
Proof.
  assert (∃ st, services Source_Local (waiting_bench None, waiting_incarnation) [Source_Mailbox] st)
    as [st Hst].
  { eexists. eapply (services_served _ None); [reflexivity|reflexivity| |reflexivity|reflexivity|].
    - cbn. by intros ?%elem_of_nil.
    - constructor. }
  assert (Source_Local ∉ [Source_Mailbox]) as Hn by (by intros ?%list_elem_of_singleton).
  exists st. split; [exact Hst|]. split; [exact Hn|].
  apply (ready_source_waits_for_two _ _ _ _ Hst Hn).
Defined.

