(* ===== verification/LocalLaw.v ===== *)
(** * The local environment keeps the driver's contract

    Every operation of LocalEnvironment.v keeps an incarnation well typed,
    however it ends; with an interpreter that finishes what it is loaned, the
    operations hand over what the driver relies on (DriverContract.v).  So the
    laws proved there hold of every actor the local runtime runs. *)

From S2P Require Import Prelude Driver DriverLaw DriverContract Host Assessment.
From S2P Require Import LocalIngress LocalEnvironment.

(** What an interpreter keeps while it is in use. *)
Class Serving `{!LocalTypes, !CommitActions} := {
  serving : Interpreter → Prop;
  initialize_serves w i : serving i → serving (interpreter_initialize (w, i)).1.2;
  commit_serves w i p : serving i → serving (interpreter_commit (w, (i, p))).1.2.1;
  offer_serves w i s : serving i → serving (interpreter_offer_next (w, (i, s))).1.2.1;
  local_event_serves w i : serving i → serving (poll_local_event (w, i)).1.2;
  deadline_serves i : serving i → serving (next_deadline i).1;
  due_serves i t : serving i → serving (pop_due i t).1
}.
#[export] Hint Resolve initialize_serves commit_serves offer_serves local_event_serves
  deadline_serves due_serves : bombay.

Section law.
Context {TY : LocalTypes} {HO : LocalHost} {CA : CommitActions} {SV : Serving}.
Context `{!Communication World Owner Consumer Event Item}.
Context `{!CancellationChannel World Cancel}.
Context `{!IngressMode Panic World Event Item Retired MailboxRef}.
Context {SC : SettlementClass}.
Implicit Types (e : LocalEnvironment) (a : ActiveLocalEnvironment) (w : World).

(** ** Typing of an incarnation *)

Definition publication_typed (unpublished : bool) a : Prop :=
  (∃ reservation notice endpoint,
     act_publication a = Some (Publication_Pending reservation notice endpoint)) ∧
  act_lease a = None ∨
  unpublished = false ∧ act_publication a = Some Publication_Published ∧ is_Some (act_lease a).

(** An incarnation that owns its lanes, none of which has been collected. *)
Record live_incarnation (unpublished : bool) a : Prop := {
  live_inbox : is_Some (act_inbox a);
  live_interpreter : ∃ i, act_interpreter a = Some i ∧ serving i;
  live_control : is_Some (act_control_liveness a);
  live_publication : publication_typed unpublished a;
  live_retirement : act_retirement a = None ∧ act_retired_ingress a = None;
  live_received : act_received_interpretation a = None ∧ act_received_source a = None ∧
    act_source_index a = None ∧ act_acquired_ingress a = None;
  live_unread : act_unread_owner_cancellation a = None
}.

(** What a turn may change: the lanes it reads and the interpreter stay owned and
    the interpreter in service, everything else stays the same. *)
Record turned a a' : Prop := {
  turned_inbox : is_Some (act_inbox a) → is_Some (act_inbox a');
  turned_interpreter : (∃ i, act_interpreter a = Some i ∧ serving i) →
    ∃ i, act_interpreter a' = Some i ∧ serving i;
  turned_control : act_control_liveness a' = act_control_liveness a;
  turned_publication : act_publication a' = act_publication a;
  turned_lease : act_lease a' = act_lease a;
  turned_interpretation : act_interpretation a' = act_interpretation a;
  turned_source : act_source a' = act_source a;
  turned_received : act_received_interpretation a' = act_received_interpretation a ∧
    act_received_source a' = act_received_source a ∧ act_source_index a' = act_source_index a ∧
    act_acquired_ingress a' = act_acquired_ingress a;
  turned_retirement : act_retirement a' = act_retirement a ∧
    act_retired_ingress a' = act_retired_ingress a;
  turned_unread : act_unread_owner_cancellation a' = act_unread_owner_cancellation a
}.

#[local] Instance turned_preorder : PreOrder turned.
Proof.
  split.
  - intros a. by split.
  - intros a b c [? ? ? ? ? ? ? (? & ? & ? & ?) [? ?] ?] [? ? ? ? ? ? ? (? & ? & ? & ?) [? ?] ?].
    split; try congruence; [auto|auto|split_and!; congruence|split; congruence].
Qed.

Lemma turned_live unpublished a a' :
  turned a a' → live_incarnation unpublished a → live_incarnation unpublished a'.
Proof.
  intros [? ? ? Hp Hl ? ? (? & ? & ? & ?) [? ?] ?] [? ? ? Hpub [? ?] (? & ? & ? & ?) ?].
  split; [by auto|by auto|congruence| |split; congruence|split_and!; congruence|congruence].
  unfold publication_typed. by rewrite Hp, Hl.
Qed.

Local Abbreviation keep := (keeping (P:=Panic) (W:=World) turned).

Lemma keep_with_interpreter {A} (m : Async Panic (World * Interpreter) A) :
  (∀ w i, serving i → serving (m (w, i)).1.2) → keep (with_interpreter m).
Proof.
  intros Hm w a. unfold with_interpreter. destruct (act_interpreter a) as [i|] eqn:Hi; [|reflexivity].
  pose proof (Hm w i) as Hs. destruct (m (w, i)) as [[w' i'] o]. split; try done.
  rewrite Hi. intros (? & [= <-] & ?). by eexists; split; [|apply Hs].
Qed.

Lemma keep_local_event : keep (with_interpreter poll_local_event).
Proof. apply keep_with_interpreter. auto with bombay. Qed.
Lemma keep_deadline : keep deadline_of.
Proof.
  apply keep_with_interpreter. intros w i Hs. pose proof (deadline_serves i Hs).
  by destruct (next_deadline i).
Qed.
Lemma keep_due : keep (with_interpreter (λ '(w, i),
  let '(i, event) := pop_due i (now w) in ((w, i), Ready event))).
Proof.
  apply keep_with_interpreter. intros w i Hs. pose proof (due_serves i (now w) Hs).
  by destruct (pop_due i (now w)).
Qed.

Lemma keep_inbox {A} (m : Async Panic (World * Inbox) A) :
  (∀ w (inbox : Inbox), is_Some inbox → is_Some (m (w, inbox)).1.2) → keep (focus act_inbox act_set_inbox m).
Proof.
  intros Hm w a. pose proof (Hm w (act_inbox a)) as Hin. unfold focus. revert Hin.
  destruct (m (w, act_inbox a)) as [[w' inbox] o]. by split.
Qed.

Lemma keep_recv : keep (focus act_inbox act_set_inbox LocalInbox_recv).
Proof.
  apply keep_inbox. intros w inbox [consumer ->]. unfold LocalInbox_recv.
  by destruct (poll_recv consumer w) as [w' [consumer' received]].
Qed.

Lemma keep_recv_source : keep (focus act_inbox act_set_inbox LocalInbox_recv_source).
Proof.
  apply keep_inbox. intros w inbox [consumer ->]. unfold LocalInbox_recv_source.
  by destruct (poll_recv_control consumer w) as [w' [consumer' received]].
Qed.

Lemma keep_on_host {A} (m : Async Panic World A) : keep (on_host m).
Proof. intros w a. unfold on_host. destruct (m w) as [w' o]. reflexivity. Qed.

Lemma keep_change (f : ActiveLocalEnvironment → ActiveLocalEnvironment) :
  (∀ a, turned a (f a)) → keep (change f).
Proof. by apply keeping_change. Qed.

Hint Resolve keep_local_event keep_due keep_deadline keep_recv keep_recv_source keep_on_host : bombay.

(** Every statement of a turn. *)
Ltac keep_step :=
  match goal with
  | |- keeping _ (mbind _ _) => apply keeping_bind; [apply _| |intros ?]
  | |- keeping _ (change _) => apply keep_change; by split
  | |- keeping _ (match ?x with _ => _ end) => destruct x
  | |- keeping _ _ => by auto with bombay typeclass_instances
  end.

Lemma keep_poll_cancellation : keep poll_owner_cancellation.
Proof. unfold poll_owner_cancellation. repeat keep_step. Qed.

Lemma keep_first_ready {Src A} (poll : Src → Async Panic (World * ActiveLocalEnvironment) (option A))
    sources :
  (∀ source, keep (poll source)) → keep (first_ready poll sources).
Proof. intros Hp. induction sources as [|source sources IH]; cbn; repeat keep_step. Qed.

Lemma keep_poll_event_source deadline source : keep (poll_event_source deadline source).
Proof. destruct source; cbn; repeat keep_step. Qed.

Hint Resolve keep_poll_cancellation keep_first_ready keep_poll_event_source : bombay.

Lemma keep_poll_events deadline : keep (poll_events deadline).
Proof. unfold poll_events. repeat keep_step. Qed.

Lemma keep_receive_acquired acquired : keep (receive_acquired acquired).
Proof. destruct acquired; cbn; repeat keep_step. Qed.

Hint Resolve keep_poll_events keep_receive_acquired : bombay.

Lemma keep_next_polls polls deadline : keep (next_polls polls deadline).
Proof. revert deadline. induction polls as [|polls IH]; intros deadline; cbn; repeat keep_step. Qed.

Lemma keep_next polls : keep (local_next polls).
Proof. unfold local_next. pose proof (keep_next_polls polls). repeat keep_step. Qed.

Lemma keep_settlement_source source : keep (poll_settlement_source source).
Proof. destruct source; cbn; repeat keep_step. Qed.

Hint Resolve keep_settlement_source : bombay.

Lemma keep_next_source polls : keep (next_source_polls polls).
Proof. induction polls as [|polls IH]; cbn; repeat keep_step. Qed.

(** *** [apply] and [offer_next] *)

(** Also the loan to the interpreter may change. *)
Definition loaned a a' : Prop :=
  turned a (act_set_source (act_source a) (act_set_interpretation (act_interpretation a) a')).

Lemma loaned_live unpublished a a' :
  loaned a a' → live_incarnation unpublished a → live_incarnation unpublished a'.
Proof. intros Ht Hl. apply (turned_live unpublished) in Ht; [|done]. by destruct Ht; split. Qed.

#[local] Instance loaned_preorder : PreOrder loaned.
Proof.
  split.
  - intros a. by split.
  - intros a b c [] []. split; cbn in *; intuition congruence.
Qed.

Lemma loaned_commit : keeping (P:=Panic) (W:=World) loaned commit_interpretation.
Proof.
  intros w a. unfold commit_interpretation.
  destruct (act_interpreter a) as [i|] eqn:Hi; [|reflexivity].
  pose proof (commit_serves w i (act_interpretation a)) as Hs.
  destruct (interpreter_commit _) as [[w1 [i1 progress]] o]. split; try done.
  rewrite Hi. intros (? & [= <-] & ?). by eexists; split; [|apply Hs].
Qed.

Lemma loaned_offer : keeping (P:=Panic) (W:=World) loaned offer_source.
Proof.
  intros w a. unfold offer_source. destruct (act_interpreter a) as [i|] eqn:Hi; [|reflexivity].
  pose proof (offer_serves w i (act_source a)) as Hs.
  destruct (interpreter_offer_next _) as [[w1 [i1 progress]] o]. split; try done.
  rewrite Hi. intros (? & [= <-] & ?). by eexists; split; [|apply Hs].
Qed.

Lemma loaned_apply w a actions received :
  loaned a (local_apply w a actions received).1.1.2.
Proof.
  unfold local_apply. destruct received; [reflexivity|].
  destruct (take_actions a actions) as [[a1 actions1]|] eqn:Ht; [|reflexivity].
  assert (loaned a a1) as H1.
  { unfold take_actions in Ht. destruct (act_interpretation a), actions; try done;
      injection Ht as <- <-; [reflexivity|by split]. }
  pose proof (loaned_commit w a1) as H2. destruct (commit_interpretation (w, a1)) as [[w2 a2] o].
  assert (loaned a a2) as H3 by by transitivity a1.
  destruct o as [[]| |payload|]; try done. unfold release_interpretation.
  destruct (act_interpretation a2) as [[]|]; done.
Qed.

Lemma loaned_offer_next w a settlement received :
  loaned a (local_offer_next w a settlement received).1.1.2.
Proof.
  unfold local_offer_next. destruct received; [reflexivity|].
  destruct (take_settlement a settlement) as [[a1 settlement1]|] eqn:Ht; [|reflexivity].
  assert (loaned a a1) as H1.
  { unfold take_settlement in Ht. destruct (act_source a), settlement; try done;
      injection Ht as <- <-; [reflexivity|by split]. }
  pose proof (loaned_offer w a1) as H2. destruct (offer_source (w, a1)) as [[w2 a2] o].
  assert (loaned a a2) as H3 by by transitivity a1.
  destruct o as [[]| |payload|]; try done. unfold release_source.
  destruct (act_source a2) as [[]|]; done.
Qed.

(** *** [publish] and [activate] *)

Lemma keep_try_cancellation : keep try_owner_cancellation.
Proof. unfold try_owner_cancellation. repeat keep_step. Qed.

Lemma publish_live unpublished w a :
  live_incarnation unpublished a →
  wp local_publish (λ '(_, a') _, live_incarnation false a' ∧
    act_interpretation a' = act_interpretation a ∧ act_source a' = act_source a) (w, a).
Proof.
  intros Hl. unfold local_publish. wp_step.
  eapply wp_mono; [apply wp_keeping, keep_try_cancellation|]. intros [w1 a1] o Ht.
  rewrite <-(turned_interpretation _ _ Ht), <-(turned_source _ _ Ht).
  apply (turned_live unpublished) in Ht; [|done].
  assert (live_incarnation false a1) as Hf.
  { destruct Ht as [? ? ? [[Hp Hn]|(? & ? & ?)] ? ? ?]; split; try done; [by left|by right]. }
  destruct o as [[request|]| |payload|]; cbn [wp_then]; [done| |done..].
  destruct (live_publication _ _ Ht) as [[(r & notice & endpoint & Hp) _]|(_ & Hp & Hlease)].
  - repeat wp_step. rewrite Hp. wp_step. wp_step.
    destruct Hf. repeat wp_step.
    assert (∀ p, publication_typed false (act_set_publication (Some Publication_Published)
      (act_set_lease (Some x) (act_set_publication p a1)))) as Hpub by (intros p; right; by split_and!).
    destruct notice as [|notice]; [by split; [split|]|]. repeat wp_step.
    by destruct x0; (split; [split|]).
  - repeat wp_step. rewrite Hp. repeat wp_step. unfold wp. cbn. split; [|done].
    destruct Hf. split; try done. by right.
Qed.

(** The interpreter of an environment that may still become active is in
    service. *)
Definition serviceable e : Prop :=
  env_activation_rejection e = None → ∀ i, env_interpreter e = Some i → serving i.

Definition prepares e e' : Prop :=
  (serviceable e → serviceable e') ∧
  (is_Some (env_activation_rejection e) → is_Some (env_activation_rejection e')).

#[local] Instance prepares_preorder : PreOrder prepares.
Proof. split; [by intros e|]. intros e1 e2 e3 [] []. split; auto. Qed.

(** A committed environment is installed with everything it needs. *)
Lemma install_live e a i :
  serviceable e → (install_activation e).2 = Some (Ok (a, i)) → live_incarnation true a.
Proof.
  unfold install_activation, serviceable.
  destruct (env_consumer e), (env_interpreter e) as [interpreter|], (env_initialization e) as [[]|],
    (env_reservation e), (env_control_liveness e), (env_owner_cancellation e),
    (env_acknowledgement e); try done.
  destruct (env_activation_rejection e); cbn [is_none is_some negb andb]; [done|].
  destruct (_ && _); [|done]. intros Hs [= <- <-]. split; try done; [by eexists; split; [|apply Hs]|].
  left. split; [|done]. by do 3 eexists.
Qed.

Local Abbreviation prepare_keep := (keeping (P:=Panic) (W:=World) prepares).

Lemma prepares_discard {X} (part : LocalEnvironment → option X) put own :
  (∀ e, prepares e (put None e)) → prepare_keep (discard part put own).
Proof. intros Hp w e. unfold discard. destruct (part e); [apply Hp|reflexivity]. Qed.

Lemma prepares_initialize : prepare_keep initialize_interpreter.
Proof.
  intros w e. unfold initialize_interpreter. destruct (env_interpreter e) as [i|] eqn:Hi; [|reflexivity].
  pose proof (initialize_serves w i) as Hs. destruct (interpreter_initialize (w, i)) as [[w' i'] o].
  split; [|done]. intros He Hr ? [= <-]. by apply Hs, (He Hr).
Qed.

Lemma prepares_commit : prepare_keep commit_initialization.
Proof.
  intros w e. unfold commit_initialization. destruct (env_interpreter e) as [i|] eqn:Hi; [|reflexivity].
  pose proof (commit_serves w i (env_initialization e)) as Hs.
  destruct (interpreter_commit _) as [[w' [i' p]] o].
  split; [|done]. intros He Hr ? [= <-]. by apply Hs, (He Hr).
Qed.

Ltac prepare_step :=
  match goal with
  | |- keeping _ (mbind _ _) => apply keeping_bind; [apply _| |intros ?]
  | |- keeping _ (change (match ?x with _ => _ end)) => destruct x
  | |- keeping _ (change (env_set_activation_rejection _)) =>
      apply keeping_change; intros ?; split; cbn; [by intros _|done]
  | |- keeping _ (change _) => apply keeping_change; by split
  | |- keeping _ (discard _ _ _) => apply prepares_discard; by split
  | |- keeping _ (let '(_, _) := ?x in _) => destruct x
  | |- keeping _ (match ?x with _ => _ end) => destruct x
  | |- keeping _ _ => by auto with bombay typeclass_instances
  end.

Lemma prepares_reserve : prepare_keep reserve_address.
Proof. unfold reserve_address. repeat prepare_step. Qed.
Lemma prepares_offer : prepare_keep offer_commitment.
Proof. unfold offer_commitment. repeat prepare_step. Qed.
Lemma prepares_acknowledgement : prepare_keep receive_acknowledgement.
Proof. unfold receive_acknowledgement. repeat prepare_step. Qed.

(** Retirement keeps the rejection. *)
Definition rejection_kept e e' : Prop := env_activation_rejection e' = env_activation_rejection e.
#[local] Instance rejection_kept_preorder : PreOrder rejection_kept.
Proof. split; [done|]. intros e1 e2 e3 H1 H2. by transitivity (env_activation_rejection e2). Qed.

Lemma rejection_discard {X} (part : LocalEnvironment → option X) put own :
  (∀ e, rejection_kept e (put None e)) →
  keeping (P:=Panic) (W:=World) rejection_kept (discard part put own).
Proof. intros Hp w e. unfold discard. destruct (part e); [apply Hp|reflexivity]. Qed.

Lemma retirement_keeps_rejection : keeping (P:=Panic) (W:=World) rejection_kept receive_retirement.
Proof.
  unfold receive_retirement, close_cancellation, drain_mailbox.
  assert (∀ consumer, keeping (P:=Panic) (W:=World) rejection_kept
    (on_host (collect_retired_ingress (W:=World) (Retired:=Retired) consumer))) as Hdrain.
  { intros consumer w e. unfold on_host. destruct (collect_retired_ingress _ w). reflexivity. }
  assert (keeping (P:=Panic) (W:=World) rejection_kept (change settle_retirement)) as Hsettle.
  { apply keeping_change. intros e. unfold settle_retirement.
    by destruct (env_retirement e), (env_retired_ingress e). }
  repeat match goal with
  | |- keeping _ (mbind _ _) => apply keeping_bind; [apply _| |intros ?]
  | |- keeping _ (change settle_retirement) => exact Hsettle
  | |- keeping _ (change _) => by apply keeping_change
  | |- keeping _ (focus _ _ _) => apply keeping_focus; by intros ? []
  | |- keeping _ (discard _ _ _) => by apply rejection_discard
  | |- keeping _ (match ?x with _ => _ end) => destruct x
  | |- keeping _ _ => by auto with bombay typeclass_instances
  end.
Qed.

(** The last part of an activation, once the binding decided. *)
Lemma bind_and_commit_prepares : prepare_keep bind_and_commit.
Proof.
  unfold bind_and_commit.
  pose proof prepares_initialize. pose proof prepares_reserve. pose proof prepares_offer.
  pose proof prepares_acknowledgement. pose proof prepares_commit.
  apply keeping_bind; [apply _|done|intros _]. apply keeping_bind; [apply _|done|intros _].
  apply keeping_bind; [apply _|by auto with bombay typeclass_instances|intros e].
  apply keeping_bind; [apply _| |intros _].
  { destruct (is_none _); [|by auto with bombay typeclass_instances].
    apply keeping_bind; [apply _|done|by intros _]. }
  intros w e1. rewrite bind_eq. cbn [look id].
  destruct (env_activation_rejection e1) as [error|] eqn:Hr; cbn [is_some].
  - assert (rejection_kept e1 ((receive_retirement;; mret true) (w, e1)).1.2) as Hk.
    { apply (keeping_bind (P:=Panic) rejection_kept); [apply retirement_keeps_rejection|].
      intros _. apply keeping_ret, _. }
    unfold rejection_kept in Hk. split; [|by rewrite Hk]. intros _ Hn. congruence.
  - apply (keeping_bind (P:=Panic) prepares); [done|]. intros _. apply keeping_ret, _.
Qed.

Lemma activate_live w environment actions received :
  (∀ e, environment = Some e → serviceable e) →
  let '(_, (environment', _, received'), _) := local_activate w environment actions received in
  (∀ e, environment' = Some e → serviceable e) ∧
  ∀ a i, received' = Some (Ok (a, i)) → received = Some (Ok (a, i)) ∨ live_incarnation true a.
Proof.
  intros He. unfold local_activate. destruct received as [received|]; [by eauto|].
  destruct environment as [e|]; [|done]. specialize (He e eq_refl).
  destruct (take_initialization e actions) as [[e1 actions1]|] eqn:Ht; [|by split; [intros ? [= <-]|]].
  assert (serviceable e1) as He1.
  { unfold take_initialization in Ht. destruct (env_initialization e), actions; try done;
      by injection Ht as <- <-. }
  destruct (is_some (env_residual e1)); [by split; [intros ? [= <-]|]|].
  pose proof (bind_and_commit_prepares w e1) as [Hp _]. specialize (Hp He1).
  destruct (bind_and_commit (w, e1)) as [[w2 e2] o]. cbn [fst snd] in Hp.
  destruct o as [rejected| |payload|]; try by split; [intros ? [= <-]|].
  destruct rejected.
  - unfold reject_activation.
    destruct (env_activation_rejection e2), (env_residual e2), (env_consumer e2),
      (env_interpreter e2), (env_retirement e2), (env_retired_ingress e2);
      by split; [intros ? [= <-]|].
  - pose proof (install_live e2) as Hl. destruct (install_activation e2) as [env received] eqn:Hin.
    split; [|intros a i ->; right; by eapply Hl].
    unfold install_activation in Hin. intros e' ->. assert (e' = e2) as ->; [|done].
    case_matches_in Hin; congruence.
Qed.

(** ** The local environment is typed *)

Context (polls : World → nat).

#[local] Instance local_port : EnvironmentPort World LocalEnvironment ActiveLocalEnvironment Actions
    Event Settlements (Interpretation Settlements) Request LocalActivationRejection LocalResidual
    Panic := local_environment_port polls.

Lemma port_next_source_turned w a w' a' run :
  next_source w a = (w', a', run) → turned a a'.
Proof.
  unfold next_source, local_port, local_environment_port.
  pose proof (keep_next_source (polls w) w a) as Ht.
  destruct (next_source_polls (polls w) (w, a)) as [[w1 a1] o]. by intros [= _ <- _].
Qed.

Lemma port_next_turned w a w' a' run : next w a = (w', a', run) → turned a a'.
Proof.
  unfold next, local_port, local_environment_port. pose proof (keep_next (polls w) w a) as Ht.
  destruct (local_next (polls w) (w, a)) as [[w1 a1] o]. by intros [= _ <- _].
Qed.

Lemma port_publish_live unpublished w a w' a' flow :
  live_incarnation unpublished a → publish w a = (w', a', flow) →
  live_incarnation false a' ∧ act_interpretation a' = act_interpretation a ∧
  act_source a' = act_source a.
Proof.
  intros Hl. unfold publish, local_port, local_environment_port.
  pose proof (publish_live unpublished w a Hl) as Hp.
  unfold wp in Hp. destruct (local_publish (w, a)) as [[w1 a1] o]. by intros [= _ <- _].
Qed.

#[export, refine] Instance local_typing : EnvironmentTyping :=
  {| prepared := serviceable; live := live_incarnation |}.
Proof.
  - intros a [? ? ? [[? ?]|[? _]] ? ? ?]; [|done]. split; try done. by left.
  - intros w environment actions received w' environment' actions' received' run.
    unfold activate, local_port, local_environment_port.
    pose proof (activate_live w environment actions received) as Hl.
    destruct (local_activate w environment actions received) as [[w1 [[e1 acts1] r1]] o].
    intros [= <- <- <- <- <-] He Ha. destruct (Hl He) as [He1 Hr1]. split; [done|]. intros a i Hr.
    destruct (Hr1 a i Hr) as [->|]; [by eapply Ha|done].
  - intros unpublished w a w' a' run Hl Ht%port_next_turned. by eapply turned_live.
  - intros unpublished w a w' a' run Hl Ht%port_next_source_turned. by eapply turned_live.
  - intros unpublished w a acts i w' a' slots run Hl. unfold apply, local_port, local_environment_port.
    pose proof (loaned_apply w a acts i) as Ht.
    destruct (local_apply w a acts i) as [[[w1 a1] slots1] o]. intros [= _ <- _ _].
    by eapply loaned_live.
  - intros unpublished w a input received w' a' slots run Hl.
    unfold offer_next, local_port, local_environment_port.
    pose proof (loaned_offer_next w a input received) as Ht.
    destruct (local_offer_next w a input received) as [[[w1 a1] slots1] o]. intros [= _ <- _ _].
    by eapply loaned_live.
  - intros w a w' a' flow Hl Hp. by eapply port_publish_live.
Defined.

(** ** What the environment hands over *)

(** An interpreter that finishes what it is loaned whenever it returns:
    [retiring] are the states its retirement goes through when it unwinds. *)
Class InterpreterContract := {
  retiring : Interpreter → option CapabilityRetirement → Prop;
  retiring_serving i : serving i → retiring i None;
  commit_completes w i p :
    serving i →
    wp interpreter_commit (λ '(_, (_, p')) o,
      o = Ready () → ∃ c, p' = Some (Progress_Completed c)) (w, (i, Some p));
  offer_completes w i p :
    serving i →
    wp interpreter_offer_next (λ '(_, (_, p')) o,
      o = Ready () → ∃ c, p' = Some (Source_Completed c)) (w, (i, Some p));
  retirement_completes w i r :
    retiring i r →
    wp interpreter_receive_retirement (λ '(_, (i', r')) o,
      match o with
      | Ready _ => i' = None ∧ is_Some r'
      | Pending => True
      | Panicked _ | Violated => ∃ i'', i' = Some i'' ∧ retiring i'' r'
      end) (w, (Some i, r));
  retain_returns item w : is_Ready (retain_at_retirement item w).2 = true
}.

Context {IC : InterpreterContract}.

(** An interpreter whose retirement can be dropped while it waits, and received
    again. *)
Definition retirement_resumes : Prop := ∀ w i r,
  retiring i r →
  wp interpreter_receive_retirement (λ '(_, (i', r')) o,
    o = Pending → ∃ i'', i' = Some i'' ∧ retiring i'' r') (w, (Some i, r)).

(** The outcomes of one attempt of the interpreter. *)
Lemma retirement_left w i r :
  retiring i r →
  wp interpreter_receive_retirement (λ '(_, (i', r')) o,
    match o with
    | Ready _ => i' = None ∧ is_Some r'
    | Pending => retirement_resumes → ∃ i'', i' = Some i'' ∧ retiring i'' r'
    | Panicked _ | Violated => ∃ i'', i' = Some i'' ∧ retiring i'' r'
    end) (w, (Some i, r)).
Proof.
  intros Hr. pose proof (retirement_completes w i r Hr) as Hc.
  assert (retirement_resumes → wp interpreter_receive_retirement (λ '(_, (i', r')) o,
    o = Pending → ∃ i'', i' = Some i'' ∧ retiring i'' r') (w, (Some i, r))) as Hp by (intros HR; by apply HR).
  unfold wp in *. destruct (interpreter_receive_retirement _) as [[w' [i' r']] [[]| |payload|]]; [done| |done..].
  intros HR. by apply Hp.
Qed.

Lemma collect_returns consumer w : ∃ w' drained, collect_retired_ingress consumer w = (w', Ready drained).
Proof.
  unfold collect_retired_ingress. destruct (consumer_drain consumer w) as [w1 [control items]].
  cbn [user LocalIngress.control].
  assert (∃ w' kept, retain_all items w1 = (w', Ready kept)) as (w' & kept & Hk).
  { revert w1. induction items as [|item items IH]; intros w1; cbn; [by eauto|].
    pose proof (retain_returns item w1) as Hr. rewrite bind_eq.
    destruct (retain_at_retirement item w1) as [w2 [kept| | |]]; try done.
    rewrite bind_eq. destruct (IH w2) as (w3 & rest & ->). cbn. by eauto. }
  rewrite bind_eq, Hk. cbn. by eauto.
Qed.

(** A prepared environment that retires completely: its mailbox is drained or
    still to drain, its interpreter still to retire. *)
Record retirable e : Prop := {
  retirable_residual : env_residual e = None;
  retirable_mailbox : is_Some (env_consumer e) ∧ env_retired_ingress e = None ∨
    env_consumer e = None ∧ is_Some (env_retired_ingress e);
  retirable_interpreter : ∃ i, env_interpreter e = Some i ∧ retiring i (env_retirement e)
}.

(** What retirement collects of the environment it started with. *)
Definition collected e e' : Prop :=
  env_consumer e' = None ∧ env_interpreter e' = None ∧ env_retirement e' = None ∧
  env_retired_ingress e' = None ∧ env_activation_rejection e' = env_activation_rejection e ∧
  ∃ lanes, env_residual e' = Some
    match env_initialization e with
    | Some initialization => Residual_Uncommitted initialization lanes
    | None => Residual_Prepared lanes
    end.

Definition still_retirable e e' : Prop :=
  retirable e' ∧ env_initialization e' = env_initialization e ∧
  env_activation_rejection e' = env_activation_rejection e.

(** Statements before the interpreter retires. *)
Record sealed e e' : Prop := {
  sealed_residual : env_residual e' = env_residual e;
  sealed_interpreter : env_interpreter e' = env_interpreter e;
  sealed_retirement : env_retirement e' = env_retirement e;
  sealed_initialization : env_initialization e' = env_initialization e;
  sealed_rejection : env_activation_rejection e' = env_activation_rejection e
}.

Lemma discard_eq {T X} (part : T → option X) put own w (t : T) :
  ∃ w', (discard part put own : Async Panic (World * T) ()) (w, t) =
    ((w', match part t with Some _ => put None t | None => t end), Ready ()).
Proof. unfold discard. destruct (part t); by eexists. Qed.

Lemma wp_discard {T X} (part : T → option X) put own Q w (t : T) :
  (∀ w', Q (w', match part t with Some _ => put None t | None => t end) (Ready ())) →
  wp (discard part put own : Async Panic (World * T) ()) Q (w, t).
Proof. intros HQ. unfold wp. destruct (discard_eq part put own w t) as [w' ->]. apply HQ. Qed.

(** Closing the cancellation touches neither the mailbox nor the interpreter. *)
Definition unclosed e e' : Prop :=
  sealed e e' ∧ env_consumer e' = env_consumer e ∧
  env_retired_ingress e' = env_retired_ingress e.

#[local] Instance unclosed_preorder : PreOrder unclosed.
Proof.
  split.
  - by intros e.
  - intros e1 e2 e3 [[] [? ?]] [[] [? ?]]. split_and!; [split|..]; congruence.
Qed.

Lemma keep_close_cancellation :
  keeping (P:=Panic) (W:=World) unclosed
    (close_cancellation env_owner_cancellation env_set_owner_cancellation
       env_set_unread_owner_cancellation).
Proof.
  unfold close_cancellation. apply keeping_bind; [apply _|by auto with bombay|].
  intros [receiver|]; [|apply keeping_ret, _].
  apply keeping_bind; [apply _|by apply keeping_change|]. intros _.
  apply keeping_bind; [apply _|by auto with bombay typeclass_instances|]. intros unread.
  by apply keeping_change.
Qed.

Lemma drain_mailbox_collects w e :
  retirable e →
  wp drain_mailbox (λ '(_, e') o, o = Ready () ∧ sealed e e' ∧
    env_consumer e' = None ∧ is_Some (env_retired_ingress e')) (w, e).
Proof.
  intros [_ Hbox _]. unfold drain_mailbox. repeat wp_step. cbn [id].
  destruct Hbox as [([consumer Hc] & Hr) | (Hc & [ingress Hr])]; rewrite ?Hr, ?Hc.
  - repeat wp_step. unfold wp, on_host. destruct (collect_returns consumer w) as (w' & drained & ->).
    cbn. by split_and!.
  - wp_step. rewrite Hr. by split_and!.
Qed.

Lemma settle_collects e e0 r ingress :
  env_retirement e = Some r → env_retired_ingress e = Some ingress → env_consumer e = None →
  env_interpreter e = None → env_initialization e = env_initialization e0 →
  env_activation_rejection e = env_activation_rejection e0 → collected e0 (settle_retirement e).
Proof.
  intros Hr Hin Hc Hi Hini Hrej. unfold settle_retirement. rewrite Hr, Hin.
  split_and!; try done. rewrite Hini. by eexists.
Qed.

(** The owners disposed of before the residual is settled. *)
Lemma wp_discard_unclosed {X} (part : LocalEnvironment → option X) put own Q w e :
  (∀ e, unclosed e (put None e)) → (∀ w' e', unclosed e e' → Q (w', e') (Ready ())) →
  wp (discard part put own : Async Panic (World * LocalEnvironment) ()) Q (w, e).
Proof.
  intros Hput HQ. apply wp_discard. intros w'. apply HQ. destruct (part e); [apply Hput|reflexivity].
Qed.

Lemma receive_retirement_collects w e :
  retirable e →
  wp receive_retirement (λ '(_, e') o,
    match o with
    | Ready _ => collected e e'
    | Pending => retirement_resumes → still_retirable e e'
    | Panicked _ | Violated => still_retirable e e'
    end) (w, e).
Proof.
  intros He. pose proof (retirable_residual _ He) as Hres. unfold receive_retirement.
  wp_step. wp_step. rewrite Hres. cbn [is_some].
  wp_step. eapply wp_mono; [apply wp_keeping, keep_close_cancellation|].
  intros [w1 e1] o (Hs1 & Hc1 & Hr1).
  assert (retirable e1) as He1.
  { destruct He as [? Hbox (i & Hi & Hri)], Hs1. split; [congruence|by rewrite Hc1, Hr1|].
    exists i. split; congruence. }
  assert (still_retirable e e1) as Hstill by (destruct Hs1; by split_and!).
  destruct o as [[]| |payload|]; cbn [wp_then]; try done.
  wp_step. wp_step. wp_step.
  eapply wp_mono; [by apply drain_mailbox_collects|].
  intros [w3 e2] o (-> & Hs2 & Hc2 & [ingress Hr2]). cbn [wp_then is_Ready].
  wp_step. wp_step. destruct He as [_ _ (i & Hi & Hri)].
  rewrite (sealed_interpreter _ _ Hs2), (sealed_interpreter _ _ Hs1), Hi.
  rewrite (sealed_retirement _ _ Hs2), (sealed_retirement _ _ Hs1).
  eapply wp_mono; [by apply retirement_left|].
  intros [w4 [i' r']] o Ho. destruct Hs1, Hs2.
  assert ((∃ i'', i' = Some i'' ∧ retiring i'' r') →
    still_retirable e (env_set_retirement r' (env_set_interpreter i' e2))) as Hleft.
  { intros (i'' & -> & Hri'). split_and!; [split|cbn; congruence..]; try done;
      cbn; [congruence|by right; rewrite Hc2, Hr2|by exists i'']. }
  destruct o as [[]| |payload|]; cbn [wp_then] in *; [|by auto..].
  destruct Ho as [-> [r ->]]. wp_step. wp_step.
  cbn [is_some env_interpreter env_set_interpreter env_set_retirement].
  set (e3 := env_set_retirement (Some r) (env_set_interpreter None e2)).
  do 4 (wp_step; apply wp_discard_unclosed; [done|];
    let H := fresh "Hd" in intros ? ? H; cbn [wp_then]).
  wp_step.
  assert (unclosed e3 e'2) as ([] & Hc3 & Hr3) by (do 3 (etransitivity; [eassumption|]); done).
  apply (settle_collects _ e r ingress); cbn in *; congruence.
Qed.

(** *** Activation *)

(** A prepared environment whose actions entered it. *)
Record activating (p : Progress) e : Prop := {
  activating_residual : env_residual e = None;
  activating_consumer : is_Some (env_consumer e);
  activating_interpreter : ∃ i, env_interpreter e = Some i ∧ serving i;
  activating_control : is_Some (env_control_liveness e);
  activating_cancellation : is_Some (env_owner_cancellation e);
  activating_retirement : env_retirement e = None ∧ env_retired_ingress e = None;
  activating_initialization : env_initialization e = Some p
}.

(** The binding decided: a reservation, or the rejection. *)
Definition decided_binding e : Prop :=
  env_activation_rejection e = None ∧ is_Some (env_reservation e) ∨
  is_Some (env_activation_rejection e).

Lemma activating_retirable p e : activating p e → retirable e.
Proof.
  intros [? ? (i & Hi & Hs) ? ? [Hr ?] ?]. split; [done|by left|]. exists i. split; [done|].
  rewrite Hr. by apply retiring_serving.
Qed.

Lemma wp_initialize p w e :
  activating p e →
  wp initialize_interpreter (λ '(_, e') _, activating p e' ∧
    env_activation_rejection e' = env_activation_rejection e ∧
    env_acknowledgement e' = env_acknowledgement e) (w, e).
Proof.
  intros [? ? (i & Hi & Hs) ? ? ? ?]. unfold wp, initialize_interpreter. rewrite Hi.
  pose proof (initialize_serves w i Hs). destruct (interpreter_initialize (w, i)) as [[w' i'] o].
  split; [|done]. split; try done. by eexists.
Qed.

Lemma wp_reserve p w e :
  activating p e → env_activation_rejection e = None →
  wp reserve_address (λ '(_, e') o, o = Ready () ∧ activating p e' ∧ decided_binding e' ∧
    env_acknowledgement e' = env_acknowledgement e) (w, e).
Proof.
  intros [? ? ? ? ? ? ?] Hr. unfold reserve_address. wp_step. wp_step. cbn [id]. rewrite Hr.
  destruct (env_reservation e) as [reservation|] eqn:He; cbn [is_none is_some negb andb].
  - wp_step. split_and!; [done|by split| |done]. left. by rewrite Hr, He.
  - repeat wp_step. split_and!; [done|by destruct x; split| |by destruct x].
    destruct x as [reservation|error]; [left|right]; cbn; [by rewrite Hr|done].
Qed.

Lemma wp_offer_commitment p w e :
  activating p e → env_activation_rejection e = None → is_Some (env_reservation e) →
  wp offer_commitment (λ '(_, e') o, o = Ready () ∧ activating p e' ∧ decided_binding e') (w, e).
Proof.
  intros [? ? ? ? ? ? ?] Hr Hres. unfold offer_commitment. wp_step. wp_step. cbn [id].
  destruct (env_commitment e) as [commitment|].
  - repeat wp_step. destruct x as [acknowledge acknowledged]. repeat wp_step.
    destruct x as [|[endpoint returned]]; repeat wp_step.
    + split_and!; [done|by split|by left].
    + destruct x. split_and!; [done|by split|by right; eexists].
  - wp_step. split_and!; [done|by split|by left].
Qed.

Lemma wp_acknowledgement p w e :
  activating p e → decided_binding e →
  wp receive_acknowledgement (λ '(_, e') o, activating p e' ∧
    (o = Ready () → decided_binding e' ∧
       (env_activation_rejection e' = None → env_acknowledgement e' = None))) (w, e).
Proof.
  intros Ha Hb. pose proof Ha as [? ? ? ? ? ? ?]. unfold receive_acknowledgement.
  wp_step. wp_step. cbn [id].
  destruct (env_activation_rejection e) as [error|] eqn:Hr.
  { wp_step. split; [done|]. intros _. split; [done|]. by rewrite Hr. }
  destruct Hb as [[_ Hres]|[? ?]]; [|congruence].
  destruct (env_acknowledgement e) as [acknowledgement|] eqn:Hack.
  - repeat wp_step. destruct x as [answer|]; [|by split].
    repeat wp_step. apply wp_discard. intros w1. cbn [wp_then].
    cbn [env_acknowledgement env_set_acknowledged]. rewrite Hack.
    destruct (is_Err answer); repeat wp_step.
    + split; [by split|]. intros _. split; [by right|done].
    + split; [by split|]. intros _. split; [by left|done].
  - wp_step. split; [done|]. intros _. split; [by left|done].
Qed.

(** What a committed environment has to become active. *)
Definition installable e : Prop :=
  (∃ c, activating (Progress_Completed c) e) ∧ is_Some (env_reservation e) ∧
  env_acknowledgement e = None ∧ env_activation_rejection e = None.

(** A rejected environment retired with its original actions uncommitted. *)
Definition rejected_with (acts : Actions) e : Prop :=
  ∃ error lanes, env_activation_rejection e = Some error ∧ env_consumer e = None ∧
    env_interpreter e = None ∧ env_retirement e = None ∧ env_retired_ingress e = None ∧
    env_residual e = Some (Residual_Uncommitted (Progress_Original acts) lanes).

Lemma wp_commit p w e :
  activating p e →
  wp commit_initialization (λ '(_, e') o, retirable e' ∧
    env_reservation e' = env_reservation e ∧ env_acknowledgement e' = env_acknowledgement e ∧
    env_activation_rejection e' = env_activation_rejection e ∧
    (o = Ready () → ∃ c, activating (Progress_Completed c) e')) (w, e).
Proof.
  intros [? ? (i & Hi & Hs) ? ? [Hr1 Hr2] Hp]. unfold wp, commit_initialization. rewrite Hi, Hp.
  pose proof (commit_completes w i p Hs) as Hc. unfold wp in Hc.
  pose proof (commit_serves w i (Some p) Hs) as Hs'.
  destruct (interpreter_commit (w, (i, Some p))) as [[w' [i' p']] o]. cbn in *.
  split_and!; try done.
  - split; [done|by left|]. exists i'. split; [done|]. cbn. rewrite Hr1. by apply retiring_serving.
  - intros Ho. destruct (Hc Ho) as [c ->]. exists c. split; try done. by eexists.
Qed.

Lemma wp_bind_and_commit acts w e :
  activating (Progress_Original acts) e → env_activation_rejection e = None →
  env_acknowledgement e = None →
  wp bind_and_commit (λ '(_, e') o,
    match o with
    | Ready true => rejected_with acts e'
    | Ready false => installable e'
    | Pending => retirement_resumes → retirable e'
    | Panicked _ | Violated => retirable e'
    end) (w, e).
Proof.
  intros Ha Hrej Hack. unfold bind_and_commit.
  wp_step. eapply wp_mono; [by apply wp_initialize|]. intros [w1 e1] o (H1 & Hrej1 & Hack1).
  assert (retirable e1) by by eapply activating_retirable.
  destruct o as [[]| |payload|]; cbn [wp_then]; try done.
  wp_step. eapply wp_mono; [apply wp_reserve; [done|congruence]|].
  intros [w2 e2] o (-> & H2 & Hb2 & Hack2). cbn [wp_then].
  wp_step. wp_step. cbn [id].
  assert (wp (if is_none (env_activation_rejection e2)
    then offer_commitment;; receive_acknowledgement else mret ())
    (λ '(_, e3) o, activating (Progress_Original acts) e3 ∧ (o = Ready () → decided_binding e3 ∧
       (env_activation_rejection e3 = None → env_acknowledgement e3 = None))) (w2, e2)) as Hbind.
  { destruct Hb2 as [[Hr2 Hres2]|Hr2].
    - rewrite Hr2. cbn [is_none is_some negb]. wp_step.
      eapply wp_mono; [by apply wp_offer_commitment|]. intros [w3 e3] o (-> & H3 & Hb3).
      cbn [wp_then]. by apply wp_acknowledgement.
    - destruct Hr2 as [error Hr2]. rewrite Hr2. cbn [is_none is_some negb]. wp_step.
      split; [done|]. intros _. split; [right; by rewrite Hr2|congruence]. }
  wp_step. eapply wp_mono; [exact Hbind|]. intros [w3 e3] o (H3 & Ho).
  assert (retirable e3) as Hret3 by by eapply activating_retirable.
  destruct o as [[]| |payload|]; cbn [wp_then]; try done.
  destruct (Ho eq_refl) as [Hb3 Hack3]. wp_step. wp_step. cbn [id].
  destruct Hb3 as [[Hr3 Hres3]|[error Hr3]]; rewrite Hr3; cbn [is_some].
  - wp_step. eapply wp_mono; [by eapply wp_commit|].
    intros [w4 e4] o (Hret & Hres4 & Hack4 & Hrej4 & Hdone).
    destruct o as [[]| |payload|]; cbn [wp_then]; try done. wp_step.
    destruct (Hdone eq_refl) as [c Hc]. split_and!; [by exists c| |rewrite Hack4; auto|congruence].
    by rewrite Hres4.
  - wp_step. eapply wp_mono; [by apply receive_retirement_collects|]. intros [w4 e4] o Hc.
    destruct o as [[]| |payload|]; cbn [wp_then] in *; try apply Hc.
    wp_step. destruct Hc as (? & ? & ? & ? & Hrej4 & lanes & Hres4).
    exists error, lanes. rewrite (activating_initialization _ _ H3) in Hres4.
    split_and!; try done. congruence.
Qed.

(** A prepared environment before its activation. *)
Record fresh_environment e : Prop := {
  fresh_residual : env_residual e = None;
  fresh_consumer : is_Some (env_consumer e);
  fresh_interpreter : ∃ i, env_interpreter e = Some i ∧ serving i;
  fresh_control : is_Some (env_control_liveness e);
  fresh_cancellation : is_Some (env_owner_cancellation e);
  fresh_retirement : env_retirement e = None ∧ env_retired_ingress e = None;
  fresh_initialization : env_initialization e = None;
  fresh_rejection : env_activation_rejection e = None;
  fresh_acknowledgement : env_acknowledgement e = None
}.

Lemma prepare_fresh address addresses termination cancellation make w :
  (∀ control, serving (make control)) →
  fresh_environment (prepare address addresses termination cancellation make w).2.
Proof.
  intros Hs. unfold prepare. destruct (mailbox_channel w) as [w' [[[control owner] mailbox] consumer]].
  split; try done. by eexists.
Qed.

Lemma fresh_retirable e : fresh_environment e → retirable e.
Proof.
  intros [? ? (i & Hi & Hs) ? ? [Hr ?] ? ? ?]. split; [done|by left|]. exists i. split; [done|].
  rewrite Hr. by apply retiring_serving.
Qed.

Local Abbreviation Activation :=
  (Result (ActiveLocalEnvironment * Interpretation Settlements)
     (LocalActivationRejection * LocalResidual)).

(** The outcomes of one uninterrupted activation. *)
Variant activation_outcome (acts : Actions) :
    option LocalEnvironment * option Actions * option Activation → Outcome Panic () → Prop :=
  | activation_installed a c :
      live_incarnation true a → act_interpretation a = None → act_source a = None →
      activation_outcome acts (None, None, Some (Ok (a, c))) (Ready ())
  | activation_rejected error lanes :
      activation_outcome acts
        (None, None, Some (Err (error, Residual_Uncommitted (Progress_Original acts) lanes)))
        (Ready ())
  | activation_interrupted e o :
      retirable e → is_Ready o = false → activation_outcome acts (Some e, None, None) o.

Lemma install_installable e :
  installable e →
  ∃ a c, install_activation e = (None, Some (Ok (a, c))) ∧ live_incarnation true a ∧
    act_interpretation a = None ∧ act_source a = None.
Proof.
  intros ([c Hc] & [reservation Hr] & Hack & Hrej).
  destruct Hc as [Hres [consumer Hcon] (i & Hi & Hs) [control Hctl] [cancel Hcan] [Hret Hing] Hini].
  assert (serviceable e) as Hserv by (intros _ ?; rewrite Hi; by intros [= <-]).
  pose proof (λ a i, install_live e a i Hserv) as Hl. clear Hserv. unfold install_activation in *.
  rewrite Hcon, Hi, Hini, Hr, Hctl, Hcan, Hack, Hrej, Hret, Hing, Hres in *. cbn in *.
  eexists _, _. split_and!; [done|by eapply Hl|done|done].
Qed.

Lemma local_activate_outcome w e acts :
  fresh_environment e →
  let '(_, slots, o) := local_activate w (Some e) (Some acts) None in
  (o = Pending → retirement_resumes) → activation_outcome acts slots o.
Proof.
  intros [? ? ? ? ? ? Hini Hrej Hack]. unfold local_activate, take_initialization. rewrite Hini.
  set (e1 := env_set_initialization (Some (Progress_Original acts)) e).
  assert (activating (Progress_Original acts) e1) as H1 by by split.
  rewrite (activating_residual _ _ H1). cbn [is_some].
  pose proof (wp_bind_and_commit acts w e1 H1 Hrej Hack) as Hwp. unfold wp in Hwp.
  destruct (bind_and_commit (w, e1)) as [[w2 e2] o]. cbn [fst snd] in Hwp.
  destruct o as [[]| |payload|].
  - destruct Hwp as (error & lanes & H2 & H3 & H4 & H5 & H6 & H7).
    unfold reject_activation. rewrite H2, H3, H4, H5, H6, H7. by constructor.
  - destruct (install_installable e2 Hwp) as (a & c & -> & Hl & Hi & Hs). by constructor.
  - intros HR. constructor; [by apply Hwp, HR|done].
  - by constructor.
  - by constructor.
Qed.

(** *** Retirement of an incarnation *)

(** Everything retirement collects but the interpreter. *)
Record lanes_kept a a' : Prop := {
  kept_interpreter : act_interpreter a' = act_interpreter a;
  kept_retirement : act_retirement a' = act_retirement a;
  kept_interpretation : act_interpretation a' = act_interpretation a;
  kept_source : act_source a' = act_source a;
  kept_received : act_received_interpretation a' = act_received_interpretation a ∧
    act_received_source a' = act_received_source a ∧ act_source_index a' = act_source_index a ∧
    act_acquired_ingress a' = act_acquired_ingress a
}.

#[local] Instance lanes_kept_preorder : PreOrder lanes_kept.
Proof.
  split.
  - intros a. by split.
  - intros a b c [? ? ? ? (? & ? & ? & ?)] [? ? ? ? (? & ? & ? & ?)].
    split; try congruence. split_and!; congruence.
Qed.

Definition box_kept a a' : Prop :=
  lanes_kept a a' ∧ act_inbox a' = act_inbox a ∧ act_retired_ingress a' = act_retired_ingress a.

#[local] Instance box_kept_preorder : PreOrder box_kept.
Proof.
  split.
  - intros a. by split.
  - intros a b c (? & ? & ?) (? & ? & ?). split; [by etransitivity|split; congruence].
Qed.

Lemma keep_act_cancellation :
  keeping (P:=Panic) (W:=World) box_kept
    (close_cancellation act_owner_cancellation act_set_owner_cancellation
       act_set_unread_owner_cancellation).
Proof.
  unfold close_cancellation. apply keeping_bind; [apply _|by auto with bombay|].
  intros [receiver|]; [|apply keeping_ret, _].
  apply keeping_bind; [apply _|by apply keeping_change|]. intros _.
  apply keeping_bind; [apply _|by auto with bombay typeclass_instances|]. intros unread.
  by apply keeping_change.
Qed.

Lemma wp_drain_inbox w a :
  is_Some (act_inbox a) → act_retired_ingress a = None →
  wp drain_inbox (λ '(_, a') o, o = Ready () ∧ lanes_kept a a' ∧ is_Some (act_retired_ingress a'))
    (w, a).
Proof.
  intros [consumer Hbox] Hr. unfold drain_inbox. wp_step. wp_step. cbn [id]. rewrite Hr.
  wp_step. wp_step. rewrite Hbox. unfold wp at 1, LocalInbox_drain.
  destruct (collect_returns consumer w) as (w' & drained & ->).
  cbn. by split_and!; [|split|].
Qed.

Definition collected_active a a' : Prop :=
  act_interpreter a' = None ∧ is_Some (act_retirement a') ∧ is_Some (act_retired_ingress a') ∧
  act_interpretation a' = act_interpretation a ∧ act_source a' = act_source a ∧
  act_received_interpretation a' = act_received_interpretation a ∧
  act_received_source a' = act_received_source a ∧ act_source_index a' = act_source_index a ∧
  act_acquired_ingress a' = act_acquired_ingress a.

Lemma wp_discard_collected {X} (part : ActiveLocalEnvironment → option X) put own Q w a0 a :
  (∀ a1 a2, collected_active a1 a2 → collected_active a1 (put None a2)) →
  collected_active a0 a → (∀ w' a', collected_active a0 a' → Q (w', a') (Ready ())) →
  wp (discard part put own : Async Panic (World * ActiveLocalEnvironment) ()) Q (w, a).
Proof.
  intros Hput Ha HQ. apply wp_discard. intros w'. apply HQ. destruct (part a); [by apply Hput|done].
Qed.

Lemma wp_collect_retirement w a i :
  is_Some (act_inbox a) → act_retired_ingress a = None → act_interpreter a = Some i →
  retiring i (act_retirement a) →
  wp collect_retirement (λ '(_, a') o, is_Ready o = true → o = Ready true ∧ collected_active a a')
    (w, a).
Proof.
  intros Hbox Hr Hi Hri. unfold collect_retirement. wp_step.
  eapply wp_mono; [apply wp_keeping, keep_act_cancellation|]. intros [w1 a1] o (Hk1 & Hb1 & Hr1).
  destruct o as [[]| |payload|]; cbn [wp_then]; try done.
  wp_step. wp_step. wp_step.
  eapply wp_mono; [apply wp_drain_inbox; [by rewrite Hb1|congruence]|].
  intros [w3 a2] o (-> & Hk2 & Hr2). cbn [wp_then].
  pose proof (transitivity Hk1 Hk2) as Hk.
  wp_step. wp_step. rewrite (kept_interpreter _ _ Hk), (kept_retirement _ _ Hk), Hi.
  eapply wp_mono; [by apply retirement_left|]. intros [w4 [i' r']] o Ho.
  destruct o as [[]| |payload|]; cbn [wp_then is_Ready] in *; try done.
  destruct Ho as [-> Hr']. wp_step. wp_step.
  cbn [is_some act_interpreter act_set_retirement act_set_interpreter].
  set (a3 := act_set_retirement r' (act_set_interpreter None a2)).
  assert (collected_active a a3) as H3.
  { destruct Hk as [_ _ Hin Hs (? & ? & ? & ?)]. by split_and!. }
  clearbody a3. wp_step. eapply wp_discard_collected; [done|exact H3|]. clear a3 H3.
  intros w5 a5 H5. cbn [wp_then]. wp_step. eapply wp_discard_collected; [done|exact H5|].
  intros w6 a6 H6. cbn [wp_then]. wp_step. eapply wp_discard_collected; [done|exact H6|].
  intros w7 a7 H7. cbn [wp_then]. by wp_step.
Qed.

(** One attempt to retire an incarnation: what the driver still owned and what
    the incarnation holds make up the residual. *)
Lemma local_retire_active_outcome w a l settlements :
  live_incarnation false a → slot_actions l = None → slot_settlements l = Some settlements →
  let '(_, (environment, l', received), o) := local_retire_active w (Some a) l None in
  is_Ready o = true →
  environment = None ∧
  l' = {| slot_actions := None; slot_interpretation := None; slot_source := None;
          slot_source_index := None; slot_ingress := None; slot_settlements := None |} ∧
  ∃ lanes, received = Some (Residual_Retired (act_interpretation a) (act_source a) settlements lanes) ∧
    lane_interpretation lanes = slot_interpretation l ∧ lane_source lanes = slot_source l ∧
    lane_source_index lanes = slot_source_index l ∧ lane_acquired_ingress lanes = slot_ingress l.
Proof.
  intros [Hbox (i & Hi & Hs) Hctl Hpub [Hret Hing] (Hg1 & Hg2 & Hg3 & Hg4) Hun] Hacts Hrows.
  unfold local_retire_active, coexist, take_lanes. rewrite Hrows, Hacts, Hg1, Hg2, Hg3, Hg4.
  cbn [is_some andb orb]. rewrite andb_false_r. cbn [orb or_take].
  match goal with |- context [collect_retirement (w, ?a1)] => set (a0 := a1) end.
  pose proof (wp_collect_retirement w a0 i Hbox Hing Hi) as Hwp. unfold wp in Hwp.
  assert (retiring i (act_retirement a0)) as Hri by (cbn; rewrite Hret; by apply retiring_serving).
  specialize (Hwp Hri). destruct (collect_retirement (w, a0)) as [[w2 a2] o]. cbn [fst snd] in Hwp.
  destruct o as [done_| |payload|]; try done.
  destruct (Hwp eq_refl) as ([= ->] & Hni & [r Hr] & [ingress Hin] & H1 & H2 & H3 & H4 & H5 & H6).
  rewrite Hni, Hr, Hin. intros _. split_and!; [done|done|]. rewrite H1, H2.
  eexists. split; [done|]. cbn. by rewrite H3, H4, H5, H6.
Qed.

(** ** The contract *)

Definition idle_incarnation a : Prop :=
  live_incarnation false a ∧ act_interpretation a = None ∧ act_source a = None.

Lemma turned_idle a a' : turned a a' → idle_incarnation a → idle_incarnation a'.
Proof.
  intros Ht (Hl & Hi & Hs). split_and!; [by eapply turned_live| |].
  - by rewrite (turned_interpretation _ _ Ht).
  - by rewrite (turned_source _ _ Ht).
Qed.

(** One application to an idle incarnation. *)
Lemma local_apply_outcome w a acts :
  idle_incarnation a →
  let '(_, a', (acts', i), o) := local_apply w a (Some acts) None in
  live_incarnation false a' ∧ act_source a' = None ∧ acts' = None ∧
  if is_Ready o then act_interpretation a' = None ∧ is_Some i else i = None.
Proof.
  intros (Hl & Hi & Hs). pose proof (loaned_apply w a (Some acts) None) as Hloan.
  apply (loaned_live false) in Hloan; [|done]. revert Hloan.
  unfold local_apply, take_actions. rewrite Hi.
  set (a1 := act_set_interpretation (Some (Progress_Original acts)) a).
  unfold commit_interpretation. destruct (live_interpreter _ _ Hl) as (i0 & Hi0 & Hs0).
  change (act_interpreter a1) with (act_interpreter a). rewrite Hi0.
  pose proof (commit_completes w i0 (Progress_Original acts) Hs0) as Hc. unfold wp in Hc.
  cbn [act_interpretation a1 act_set_interpretation].
  destruct (interpreter_commit _) as [[w2 [i2 p2]] o]. cbn [fst snd] in Hc.
  destruct o as [[]| |payload|]; cbn [fst snd is_Ready]; try (intros Hl'; by split_and!).
  destruct (Hc eq_refl) as [c ->]. cbn. intros Hl'. by split_and!.
Qed.

Lemma local_offer_outcome w a s :
  idle_incarnation a →
  let '(_, a', (s', custody), o) := local_offer_next w a (Some s) None in
  live_incarnation false a' ∧ act_interpretation a' = None ∧ s' = None ∧
  if is_Ready o then act_source a' = None ∧ is_Some custody else custody = None.
Proof.
  intros (Hl & Hi & Hs). pose proof (loaned_offer_next w a (Some s) None) as Hloan.
  apply (loaned_live false) in Hloan; [|done]. revert Hloan.
  unfold local_offer_next, take_settlement. rewrite Hs.
  set (a1 := act_set_source (Some (Source_Original s)) a).
  unfold offer_source. destruct (live_interpreter _ _ Hl) as (i0 & Hi0 & Hs0).
  change (act_interpreter a1) with (act_interpreter a). rewrite Hi0.
  pose proof (offer_completes w i0 (Source_Original s) Hs0) as Hc. unfold wp in Hc.
  cbn [act_source a1 act_set_source].
  destruct (interpreter_offer_next _) as [[w2 [i2 p2]] o]. cbn [fst snd] in Hc.
  destruct o as [[]| |payload|]; cbn [fst snd is_Ready]; try (intros Hl'; by split_and!).
  destruct (Hc eq_refl) as [c ->]. cbn. intros Hl'. by split_and!.
Qed.

(** One attempt to retire a prepared environment. *)
Lemma local_retire_prepared_outcome w e acts :
  retirable e → (is_Some acts → env_initialization e = None) →
  let '(_, (environment, acts', received), o) := local_retire_prepared w (Some e) acts None in
  is_Ready o = true → environment = None ∧ acts' = None ∧
    ∃ lanes, received = Some
      match acts, env_initialization e with
      | Some original, _ => Residual_Uncommitted (Progress_Original original) lanes
      | None, Some initialization => Residual_Uncommitted initialization lanes
      | None, None => Residual_Prepared lanes
      end.
Proof.
  intros He Hacts. unfold local_retire_prepared.
  assert (is_some acts && (is_some (env_initialization e) || is_some (env_residual e)) = false) as ->.
  { destruct acts as [original|]; [|done]. by rewrite Hacts, (retirable_residual _ He). }
  match goal with |- context [receive_retirement (w, ?e1)] => set (e0 := e1) end.
  assert (retirable e0) as He0 by (destruct He, acts; by split).
  pose proof (receive_retirement_collects w e0 He0) as Hwp. unfold wp in Hwp.
  destruct (receive_retirement (w, e0)) as [[w2 e2] o]. cbn [fst snd] in Hwp.
  destruct o as [[]| |payload|]; try done.
  destruct Hwp as (H1 & H2 & H3 & H4 & _ & lanes & H5).
  unfold release_residual. rewrite H1, H2, H3, H4, H5. intros _. split_and!; [done|done|].
  exists lanes. unfold e0. by destruct acts, (env_initialization e).
Qed.

Lemma host_run_completes (returned unwound : Prop) (o : Outcome Panic ()) :
  (is_Ready o = true → returned) → (is_Ready o = false → unwound) →
  completes returned unwound (host_run assertion o).
Proof. intros Hr Hu. destruct o; cbn; auto. Qed.

#[export, refine] Instance local_contract : EnvironmentContract :=
  {| fresh := fresh_environment;
     held e acts := retirable e ∧ (is_Some acts → env_initialization e = None);
     idle := idle_incarnation; leavable := live_incarnation false |}.
Proof.
  - intros e He. split; [by apply fresh_retirable|]. by intros [].
  - by intros a [? _].
  - intros w e acts w' env acts' act run He. unfold activate, local_port, local_environment_port.
    pose proof (local_activate_outcome w e acts He) as Ho.
    destruct (local_activate w (Some e) (Some acts) None) as [[w1 [[e1 acts1] r1]] o].
    intros [= <- <- <- <- <-]. assert (o = Pending ∨ o ≠ Pending) as [->|Hn] by (destruct o; auto); [done|].
    specialize (Ho (λ Hp, False_ind _ (Hn Hp))). inversion Ho as [a c Hl Hi Hs|error lanes|e2 o2 Hret Hnr]; subst.
    + cbn. split_and!; [done|done|]. left. exists a, c. split; [done|].
      split; [|done]. by apply (live_weaken (EnvironmentTyping := local_typing)).
    + cbn. split_and!; [done|done|]. right. by eexists _, _.
    + apply host_run_completes; [congruence|]. intros _. eexists.
      split_and!; [done|done|by intros []|done].
  - intros w a w' a' run Hidle Ht%port_next_turned. by eapply turned_idle.
  - intros w a w' a' run Hidle Ht%port_next_source_turned. by eapply turned_idle.
  - intros w a acts w' a' acts' i run Hidle. unfold apply, local_port, local_environment_port.
    pose proof (local_apply_outcome w a acts Hidle) as Ho.
    destruct (local_apply w a (Some acts) None) as [[[w1 a1] [acts1 i1]] o].
    intros [= <- <- <- <- <-]. destruct Ho as (Hl & Hs & -> & Ho).
    apply host_run_completes; intros Hr; rewrite Hr in Ho.
    + destruct Ho as [Hi Hsome]. by split_and!.
    + by split_and!.
  - intros w a s w' a' input received run Hidle. unfold offer_next, local_port, local_environment_port.
    pose proof (local_offer_outcome w a s Hidle) as Ho.
    destruct (local_offer_next w a (Some s) None) as [[[w1 a1] [s1 c1]] o].
    intros [= <- <- <- <- <-]. destruct Ho as (Hl & Hi & -> & Ho).
    apply host_run_completes; intros Hr; rewrite Hr in Ho.
    + destruct Ho as [Hs Hsome]. by split_and!.
    + by split_and!.
  - intros w a w' a' flow (Hl & Hi & Hs) Hp.
    destruct (port_publish_live _ _ _ _ _ _ Hl Hp) as (Hl' & Hi' & Hs').
    split_and!; [done|congruence|congruence].
  - intros w e acts w' e' acts' r run [He Hacts].
    unfold retire_prepared, local_port, local_environment_port.
    pose proof (local_retire_prepared_outcome w e acts He Hacts) as Ho.
    destruct (local_retire_prepared w (Some e) acts None) as [[w1 [[e1 acts1] r1]] o].
    intros [= <- <- <- <- <-]. apply host_run_completes; [|done]. intros Hr.
    destruct (Ho Hr) as (-> & -> & lanes & ->). split_and!; [done|done|by eexists].
  - intros w a i custody index ing rows w' slots run Hl.
    unfold retire_active, local_port, local_environment_port.
    match goal with |- context [local_retire_active w (Some a) ?l None] =>
      pose proof (local_retire_active_outcome w a l rows Hl eq_refl eq_refl) as Ho;
      destruct (local_retire_active w (Some a) l None) as [[w1 [[e1 l1] r1]] o] end.
    intros [= <- <- <-]. apply host_run_completes; [|done]. intros Hr.
    destruct (Ho Hr) as (-> & -> & lanes & -> & _). by eexists.
Defined.
End law.

(** ** Automation for the files that build on the turns *)

#[export] Existing Instance turned_preorder.
#[export] Hint Resolve keep_local_event keep_due keep_recv keep_recv_source keep_on_host
  keep_poll_cancellation keep_first_ready keep_poll_event_source keep_poll_events
  keep_receive_acquired keep_deadline keep_next_polls keep_settlement_source
  keep_next_source keep_try_cancellation : bombay.

Ltac keep_turn :=
  repeat match goal with
  | |- keeping _ (mbind _ _) => apply keeping_bind; [apply _| |intros ?]
  | |- keeping _ (change _) => apply keep_change; by split
  | |- keeping _ (match ?x with _ => _ end) => destruct x
  | |- keeping _ _ => by auto with bombay typeclass_instances
  end.
