(* ===== verification/LocalDriver.v ===== *)
(** * Actors of the local runtime

    The driver over the local environment: the laws of LocalLaw.v and
    DriverContract.v composed, for every behavior, host and interpreter. *)

From S2P Require Import Prelude Driver DriverLaw DriverContract Host Assessment.
From S2P Require Import LocalIngress LocalEnvironment LocalLaw LocalExample.

Section actors.
Context {TY : LocalTypes} {HO : LocalHost} {CA : CommitActions} {SV : Serving}.
Context `{!Communication World Owner Consumer Event Item}.
Context `{!CancellationChannel World Cancel}.
Context `{!IngressMode Panic World Event Item Retired MailboxRef}.
Context {SC : SettlementClass}.
Context {B BError : Type} `{!BehaviorPort B Event Actions BError Panic} (polls : World → nat).
Implicit Types (e : LocalEnvironment) (a : ActiveLocalEnvironment) (w : World) (b : B).

#[local] Instance port : EnvironmentPort World LocalEnvironment ActiveLocalEnvironment Actions Event
    Settlements (Interpretation Settlements) Request LocalActivationRejection LocalResidual Panic :=
  local_environment_port polls.

Local Abbreviation Actor :=
  (@Driver B Event Actions BError LocalEnvironment ActiveLocalEnvironment Settlements
     (Interpretation Settlements) Request LocalActivationRejection LocalResidual Panic).

(** *** Assertions *)

(** Ingress and tasks do not trip an assertion of their own. *)
Definition quiet_sources : Prop :=
  (∀ w i, serving i → is_Violated (poll_local_event (w, i)).2 = false) ∧
  (∀ item w, is_Violated (into_event item w).2 = false).

Definition unviolated {A} (m : Async Panic (World * ActiveLocalEnvironment) A) : Prop :=
  ∀ w a, is_Some (act_inbox a) → (∃ i, act_interpreter a = Some i ∧ serving i) → is_Violated (m (w, a)).2 = false.

Lemma unviolated_bind {A C} (m : Async Panic (World * ActiveLocalEnvironment) A)
    (k : A → Async Panic (World * ActiveLocalEnvironment) C) :
  keeping turned m → unviolated m → (∀ x, unviolated (k x)) → unviolated (m ≫= k).
Proof.
  intros Ht Hm Hk w a Hb Hi. specialize (Ht w a). specialize (Hm w a Hb Hi). rewrite bind_eq.
  destruct (m (w, a)) as [[w1 a1] [x| |payload|]]; try done.
  destruct Ht as [Hb' Hi' _ _ _ _ _ _ _ _]. by apply Hk; auto.
Qed.

Lemma unviolated_plain {A} (m : Async Panic (World * ActiveLocalEnvironment) A) :
  (∀ st, is_Violated (m st).2 = false) → unviolated m.
Proof. intros Hm w a _ _. apply Hm. Qed.

Lemma unviolated_perform {A} (f : World → World * A) :
  unviolated (perform f : Async Panic (World * ActiveLocalEnvironment) A).
Proof. apply unviolated_plain. intros [w a]. unfold perform. by destruct (f w). Qed.

Lemma unviolated_interpreter {A} (m : Async Panic (World * Interpreter) A) :
  (∀ w i, serving i → is_Violated (m (w, i)).2 = false) → unviolated (with_interpreter m).
Proof.
  intros Hm w a _ (i & Hi & Hs). unfold with_interpreter. rewrite Hi. specialize (Hm w i Hs).
  by destruct (m (w, i)) as [[w' i'] o].
Qed.

Lemma unviolated_recv : unviolated (focus act_inbox act_set_inbox LocalInbox_recv).
Proof.
  intros w a [consumer Hc] _. unfold focus. rewrite Hc. unfold LocalInbox_recv.
  by destruct (poll_recv consumer w) as [w' [consumer' received]].
Qed.

Lemma unviolated_recv_source : unviolated (focus act_inbox act_set_inbox LocalInbox_recv_source).
Proof.
  intros w a [consumer Hc] _. unfold focus. rewrite Hc. unfold LocalInbox_recv_source.
  by destruct (poll_recv_control consumer w) as [w' [consumer' received]].
Qed.

Context (Hquiet : quiet_sources).

Lemma unviolated_local : unviolated (with_interpreter poll_local_event).
Proof. apply unviolated_interpreter, Hquiet. Qed.

Lemma unviolated_into item :
  unviolated (on_host (into_event item) : Async Panic (World * ActiveLocalEnvironment) (option Event)).
Proof.
  intros w a _ _. unfold on_host. pose proof (proj2 Hquiet item w) as Hi.
  by destruct (into_event item w).
Qed.

Hint Resolve unviolated_perform unviolated_recv unviolated_recv_source unviolated_local
  unviolated_into : bombay.

Ltac unviolated_turn :=
  repeat match goal with
  | |- unviolated (mbind _ _) => apply unviolated_bind; [by keep_turn| |intros ?]
  | |- unviolated (mret _) => by apply unviolated_plain
  | |- unviolated (look _) => by apply unviolated_plain; intros []
  | |- unviolated (change _) => by apply unviolated_plain; intros []
  | |- unviolated stay_pending => by apply unviolated_plain
  | |- unviolated (match ?x with _ => _ end) => destruct x
  | |- unviolated _ => by auto with bombay
  end.

Lemma unviolated_first_ready {Src A}
    (poll : Src → Async Panic (World * ActiveLocalEnvironment) (option A)) sources :
  (∀ source, keeping turned (poll source)) → (∀ source, unviolated (poll source)) →
  unviolated (first_ready poll sources).
Proof.
  intros Hk Hp. induction sources as [|source sources IH]; cbn; [by apply unviolated_plain|].
  apply unviolated_bind; [done|done|]. intros [x|]; [by apply unviolated_plain|done].
Qed.

Lemma unviolated_deadline : unviolated deadline_of.
Proof. apply unviolated_interpreter. intros w i _. by destruct (next_deadline i). Qed.

Lemma unviolated_event_source deadline source : unviolated (poll_event_source deadline source).
Proof. destruct source; cbn; unviolated_turn. Qed.

Lemma unviolated_poll_events deadline : unviolated (poll_events deadline).
Proof.
  unfold poll_events, poll_owner_cancellation. unviolated_turn.
  apply unviolated_first_ready; auto using unviolated_event_source with bombay.
Qed.

Lemma unviolated_receive acquired : unviolated (receive_acquired acquired).
Proof.
  destruct acquired; cbn; unviolated_turn. apply unviolated_interpreter.
  intros w i _. by destruct (pop_due i (now w)).
Qed.

Lemma unviolated_next n : unviolated (local_next n).
Proof.
  unfold local_next.
  assert (∀ deadline, unviolated (next_polls n deadline)) as Hn.
  { induction n as [|n IH]; intros deadline; cbn; [by apply unviolated_plain|].
    pose proof unviolated_poll_events. pose proof unviolated_receive. pose proof unviolated_deadline.
    unviolated_turn. }
  pose proof unviolated_deadline. unviolated_turn.
Qed.

Lemma unviolated_settlement_source source : unviolated (poll_settlement_source source).
Proof. destruct source; cbn; unviolated_turn. Qed.

Lemma unviolated_next_source n : unviolated (next_source_polls n).
Proof.
  induction n as [|n IH]; cbn; [by apply unviolated_plain|].
  assert (∀ a, unviolated (first_ready poll_settlement_source (settlement_order (act_next_settlement_source a))))
    by (intros a; apply unviolated_first_ready; auto using unviolated_settlement_source with bombay).
  unfold poll_owner_cancellation. unviolated_turn.
Qed.

Lemma publish_unviolated w a :
  live_incarnation true a → is_Violated (local_publish (w, a)).2 = false.
Proof.
  intros Hl. change (wp local_publish (λ _ o, is_Violated o = false) (w, a)).
  destruct (live_publication _ _ Hl) as [[(r & notice & endpoint & Hp) _]|[? _]]; [|done].
  assert (∀ w1 a1, act_publication a1 = act_publication a →
    wp (publication ← look act_publication;
        change (act_set_publication None);;
        match publication with
        | Some (Publication_Pending reservation notice endpoint) =>
            lease ← perform (reservation_publish reservation endpoint);
            change (act_set_lease (Some lease));;
            change (act_set_publication (Some Publication_Published));;
            match notice with
            | Notice_Unobserved => mret (Continue ())
            | Notice_Notify notice =>
                panicked ← perform (notify notice endpoint);
                match panicked with None => mret (Continue ()) | Some payload => unwinds payload end
            end
        | Some Publication_Published =>
            change (act_set_publication (Some Publication_Published));; violated
        | None => violated
        end) (λ _ (o : Outcome Panic (ControlFlow Request ())), is_Violated o = false) (w1, a1)) as Hpub.
  { intros w1 a1 H1. repeat wp_step. rewrite H1, Hp. repeat wp_step.
    destruct notice as [|notice]; repeat wp_step; [done|]. by destruct x0. }
  unfold local_publish, try_owner_cancellation. repeat wp_step.
  destruct (act_owner_cancellation a) as [receiver|]; repeat wp_step; [|by apply Hpub].
  destruct x as [request|[|]]; repeat wp_step; [done|by apply Hpub..].
Qed.

(** ** Properties *)

(** C2: In every history of an actor, cancellations included, the incarnation is
    well typed until its retirement: it owns its mailbox, an interpreter in service
    and its control lane, nothing was collected from it, and it is unpublished before the driver
    publishes it.  So no [expect] or [unreachable!] of [next], [next_source] or
    [publish] is ever hit. *)
Theorem local_incarnation_is_typed b e cs (d : Actor) a :
  serviceable e → driven b e cs d → phase d ≠ RetirementAttempted → active d = Some a →
  live_incarnation (before_publication (phase d)) a ∧
  (∀ n w, is_Violated (local_next n (w, a)).2 = false ∧
     is_Violated (next_source_polls n (w, a)).2 = false) ∧
  (before_publication (phase d) = true → ∀ w, is_Violated (local_publish (w, a)).2 = false).
Proof.
  intros He Hd Hp Ha. pose proof (typed_active _ (driven_typed b e cs d He Hd Hp) a Ha) as Hl.
  change (live_incarnation (before_publication (phase d)) a) in Hl.
  pose proof (live_inbox _ _ Hl). pose proof (live_interpreter _ _ Hl).
  split_and!; [done| |].
  - intros n w. split; [by apply unviolated_next|by apply unviolated_next_source].
  - intros Hb w. rewrite Hb in Hl. by apply publish_unviolated.
Qed.

(** C1: With an interpreter that finishes what it is loaned, an actor that was
    not interrupted hands over its complete retirement, in which no failure says
    that its environment broke the contract of the driver; an owner is only
    handed back when its retirement unwound. *)
Theorem local_actor_hands_over `{!InterpreterContract} fuel b e w result cs w' :
  fresh_environment e →
  receive_run fuel (Some (Driver_new b e : Actor)) None w = Some (None, Some result, cs, w') →
  handed_over result.
Proof.
  intros Hf Hr. exact (receive_run_hands_over (contract := local_contract polls) fuel b e w result cs w' Hf Hr).
Qed.

(** C6: Activation is all or nothing: an uninterrupted one installs a typed,
    unpublished incarnation, or is rejected with a residual that still holds the
    original actions uncommitted; one that unwinds leaves an environment that
    retires completely, and so does one that is dropped, if the retirement of the
    interpreter can be dropped and received again. *)
Theorem activation_is_all_or_nothing `{!InterpreterContract} w e acts :
  fresh_environment e →
  let '(_, slots, o) := local_activate w (Some e) (Some acts) None in
  (o = Pending → retirement_resumes) → activation_outcome acts slots o.
Proof. apply local_activate_outcome. Qed.

(** C7: Retirement keeps every lane: one attempt that returns empties every slot
    of the driver into the residual, the settlements in order, next to the
    interpretation and the source the incarnation was working on. *)
Theorem retirement_keeps_lanes `{!InterpreterContract} w a l settlements :
  live_incarnation false a → slot_actions l = None → slot_settlements l = Some settlements →
  let '(_, (environment, l', received), o) := local_retire_active w (Some a) l None in
  is_Ready o = true →
  environment = None ∧
  l' = {| slot_actions := None; slot_interpretation := None; slot_source := None;
          slot_source_index := None; slot_ingress := None; slot_settlements := None |} ∧
  ∃ lanes, received = Some (Residual_Retired (act_interpretation a) (act_source a) settlements lanes) ∧
    lane_interpretation lanes = slot_interpretation l ∧ lane_source lanes = slot_source l ∧
    lane_source_index lanes = slot_source_index l ∧ lane_acquired_ingress lanes = slot_ingress l.
Proof. apply local_retire_active_outcome. Qed.
End actors.

(** ** Witnesses *)

#[export] Instance bench_serving : Serving.
Proof. by refine {| serving _ := True |}. Defined.

#[export] Instance bench_contract : InterpreterContract.
Proof.
  refine {| retiring _ _ := True |}.
  - done.
  - intros w [events panics] p _. unfold wp. cbn. destruct panics; [done|].
    destruct p as [[n step]|custody|c]; cbn; eauto.
  - intros w m p _. unfold wp. destruct p as [n|custody|c]; cbn; eauto.
  - intros w m [r|] _; unfold wp; cbn; split; eauto.
  - intros [message|fence] w; reflexivity.
Defined.

Lemma bench_resumes : retirement_resumes.
Proof. by intros w m [r|] _. Qed.

Lemma bench_quiet : quiet_sources.
Proof. split; [intros w [[|event events] panics] _|intros [message|fence] w]; reflexivity. Qed.

#[local] Existing Instance Stalling.numbers.
#[local] Instance bench_port : EnvironmentPort World LocalEnvironment ActiveLocalEnvironment Actions
    Event Settlements (Interpretation Settlements) Request LocalActivationRejection LocalResidual
    Panic := port (λ _ : World, 8).

(** An actor with a message, a fence and a stopping message queued. *)
Definition bench_actor : World * LocalEnvironment :=
  bench_prepare (machine [6])
    (bench [3] [Ingress_Message {| from := 1; message := 7 |}; Ingress_Fence 9;
                Ingress_Message {| from := 1; message := 5 |}; Ingress_Fence 10] None [] None).

Local Abbreviation bench_run :=
  (receive_run (W := World) (EnvironmentPort0 := port (λ _ : World, 8)) 60
     (Some (Driver_new ([] : list nat) bench_actor.2)) None bench_actor.1).

Example bench_run_stops :
  match bench_run with
  | Some (None, Some (Ok r), _, w) =>
      retired_behavior r = [1; 3; 6; 7; 5] ∧
      bench_fences w = [(9, Ok ()); (10, Err Fence_Acknowledgement)]
  | _ => False
  end.
Proof. vm_compute. by split. Qed.

Lemma bench_actor_fresh : fresh_environment bench_actor.2.
Proof. by apply (prepare_fresh (TY := bench_types)). Qed.

(** The actor after its publication and one event. *)
Definition bench_active :=
  go (W := World) 6 (Driver_new ([] : list nat) bench_actor.2) bench_actor.1.

Lemma local_incarnation_is_typed_witness :
  ∃ a, active bench_active.2 = Some a ∧ phase bench_active.2 = Active ∧
    live_incarnation false a ∧ is_Violated (local_next 3 (bench_actor.1, a)).2 = false.
Proof.
  assert (is_Some (active bench_active.2)) as [a Ha] by (vm_compute; by eexists).
  exists a. split; [exact Ha|]. split; [by vm_compute|].
  destruct (local_incarnation_is_typed (λ _ : World, 8) bench_quiet [] bench_actor.2
    bench_active.1 bench_active.2 a) as (Hl & Hn & _).
  - by intros _ i _.
  - apply go_receives.
  - by vm_compute.
  - exact Ha.
  - split; [|apply (Hn 3 bench_actor.1)].
    assert (before_publication (phase bench_active.2) = false) as Hp by by vm_compute.
    exact (eq_ind _ (λ p, live_incarnation p a) Hl _ Hp).
Defined.

Lemma local_actor_hands_over_witness :
  ∃ result cs w, bench_run = Some (None, Some result, cs, w) ∧ handed_over result.
Proof.
  assert (∃ result cs w, bench_run = Some (None, Some result, cs, w)) as (result & cs & w & Hr)
    by (vm_compute; by do 3 eexists).
  exists result, cs, w. split; [exact Hr|].
  exact (local_actor_hands_over (λ _ : World, 8) 60 [] bench_actor.2 bench_actor.1 result cs w
    bench_actor_fresh Hr).
Defined.

Lemma activation_is_all_or_nothing_witness :
  let '(_, slots, o) := local_activate bench_actor.1 (Some bench_actor.2) (Some (1, Step_Continue)) None in
  activation_outcome (1, Step_Continue) slots o.
Proof.
  pose proof (activation_is_all_or_nothing bench_actor.1 bench_actor.2 (1, Step_Continue) bench_actor_fresh) as Ho.
  destruct (local_activate _ _ _ _) as [[w slots] o]. apply Ho. intros _. exact bench_resumes.
Defined.

Definition bench_slots : RetireSlots :=
  {| slot_actions := None; slot_interpretation := None; slot_source := Some (Custody_Exhausted 4);
     slot_source_index := Some 0; slot_ingress := None; slot_settlements := Some [1; 3] |}.

Lemma retirement_keeps_lanes_witness :
  ∃ a, active bench_active.2 = Some a ∧
    let '(_, (environment, l', received), o) :=
      local_retire_active bench_actor.1 (Some a) bench_slots None in
    is_Ready o = true → environment = None ∧ slot_settlements l' = None.
Proof.
  assert (is_Some (active bench_active.2)) as [a Ha] by (vm_compute; by eexists).
  exists a. split; [exact Ha|].
  assert (live_incarnation false a) as Hl.
  { pose proof (typed_active _ (driven_typed (typing := local_typing (λ _ : World, 8)) [] bench_actor.2
      bench_active.1 bench_active.2 (λ _ _ _, I) (go_receives _ _ _) ltac:(by vm_compute)) a Ha) as Hl.
    assert (before_publication (phase bench_active.2) = false) as Hp by by vm_compute.
    exact (eq_ind _ (λ p, live_incarnation p a) Hl _ Hp). }
  pose proof (retirement_keeps_lanes bench_actor.1 a bench_slots [1; 3] Hl eq_refl eq_refl) as Hk.
  destruct (local_retire_active bench_actor.1 (Some a) bench_slots None)
    as [[w' [[environment l'] received]] o].
  intros Ho. destruct (Hk Ho) as (-> & -> & _). by split.
Defined.
