(* ===== verification/DriverEnding.v ===== *)
(** * How a driver ends

    What the driver hands over fits: the class [ResidualLaw] says which residuals
    an environment produces where, and the driver's disposition then determines
    which of them its retirement holds.  It holds of every history, whatever is
    dropped or unwinds on the way. *)

From S2P Require Import Prelude Driver DriverLaw.

Section ending.
Context {B Event Actions BError W Env Act S I Request EError Residual P : Type}.
Context `{!BehaviorPort B Event Actions BError P}.
Context `{!EnvironmentPort W Env Act Actions Event S I Request EError Residual P}.

Abbreviation driver := (@Driver B Event Actions BError Env Act S I Request EError Residual P)
  (only parsing).
Abbreviation disposed := (Result (Completion Request) (DriverError BError EError P)) (only parsing).
Implicit Types (d : driver) (w : W).

(** ** What a running driver changes *)

(** Dispositions of a driver whose incarnation was installed. *)
Definition lively (x : disposed) : Prop :=
  match x with
  | Err (Error_InitializationPanicked _) | Err (Error_Activation _) => False
  | _ => True
  end.

(** Environments and residual stay where they are, and a disposition that is
    selected is lively. *)
Record moves d d' : Prop := {
  moves_environment : environment d' = environment d;
  moves_residual : residual d' = residual d;
  moves_activation : activation d' = activation d;
  moves_active : is_Some (active d) → is_Some (active d');
  moves_disposition : disposition d' = disposition d ∨
    disposition d = None ∧ ∃ x, disposition d' = Some x ∧ lively x
}.

Lemma moves_slots d d' :
  environment d' = environment d → residual d' = residual d → activation d' = activation d →
  active d' = active d → disposition d' = disposition d → moves d d'.
Proof. intros He Hr Ha Hact Hd. split; try done; [by rewrite Hact|by left]. Qed.

Lemma moves_active_slots a d d' :
  environment d' = environment d → residual d' = residual d → activation d' = activation d →
  active d' = Some a → disposition d' = disposition d → moves d d'.
Proof. intros He Hr Ha Hact Hd. split; try done; by left. Qed.

#[local] Instance moves_preorder : PreOrder moves.
Proof.
  split; [intros d; by apply moves_slots|].
  intros d1 d2 d3 [H1 H2 H3 H4 H5] [J1 J2 J3 J4 J5].
  split; [congruence..|auto|].
  destruct H5 as [H5|(H5 & x & H6 & H7)], J5 as [J5|(J5 & y & J6 & J7)].
  - left. congruence.
  - right. split; [congruence|by exists y].
  - right. split; [done|]. exists x. split; [congruence|done].
  - congruence.
Qed.

Lemma moves_reject d d' error : lively (Err error) → moves d d' → moves d (reject error d').
Proof.
  intros Hl Hm. trans d'; [done|]. unfold reject.
  destruct (disposition d') eqn:Hd; [by apply moves_slots|].
  split; try done. right. split; [done|]. by eexists.
Qed.

Lemma moves_complete d d' completion : moves d d' → moves d (complete completion d').
Proof.
  intros Hm. trans d'; [done|]. unfold complete.
  destruct (disposition d') eqn:Hd; [by apply moves_slots|].
  split; try done. right. split; [done|]. by eexists.
Qed.

Lemma moves_execution_failures d d' failures :
  moves d d' → moves d (receive_execution_failures failures d').
Proof. revert d'. induction failures as [|p l IH]; intros d' Hm; [done|]. by apply IH, moves_reject. Qed.

Lemma moves_activation_failures d d' failures :
  moves d d' → moves d (receive_activation_failures failures d').
Proof. revert d'. induction failures as [|p l IH]; intros d' Hm; [done|]. by apply IH, moves_reject. Qed.

Lemma moves_contract d d' : moves d d' → moves d (contract_failed d').
Proof. intros Hm. unfold contract_failed. destruct (is_Retiring _); [done|by apply moves_reject]. Qed.

Create HintDb moves.
#[local] Hint Resolve moves_reject moves_complete moves_execution_failures
  moves_activation_failures moves_contract : moves.
#[local] Hint Extern 4 (lively _) => exact Logic.I : moves.
#[local] Hint Extern 5 (moves _ _) => (by apply moves_slots) : moves.

Lemma classify_moves d : moves d (classify d).1.
Proof.
  unfold classify. destruct (interpretation d) as [i|]; [|by apply moves_slots].
  destruct (settlement_status i) as [status|payload]; [|cbn [fst]; by auto with moves].
  match goal with |- context [set_decision None ?x] => set (d1 := set_decision None x) end.
  assert (moves d d1) as H1 by by apply moves_slots.
  destruct status; [destruct (decision _) as [[]|]|destruct (is_Initializing _); [|destruct (decision _) as [[]|]]|];
    cbn [fst]; try (by auto with moves).
  destruct (is_Initializing _); [|done]. trans d1; [done|by apply moves_slots].
Qed.

Lemma offer_operation_moves d w act : moves d (offer_operation d w act).1.1.1.
Proof.
  unfold offer_operation. destruct (source_received d); [by apply moves_slots|].
  destruct (offer_next _ _ _ _) as [[[w1 act1] [input received]] run].
  by apply (moves_active_slots act1).
Qed.

Lemma request_moves c operation d w act : moves d (request c operation d w act).1.1.1.
Proof.
  unfold request. destruct (ingress d); [by apply moves_slots|].
  destruct (operation w act) as [[w1 act1] run].
  by destruct (receive_operation run) as [[reply failures]|]; apply (moves_active_slots act1).
Qed.

Lemma apply_turn_moves d w cs : moves d (after (apply_turn d w cs)).
Proof.
  unfold apply_turn. destruct (active d) as [act|]; [|cbn; by auto with moves].
  destruct (apply _ _ _ _) as [[[w1 act1] [acts i]] run].
  assert (moves d (set_interpretation i (set_actions acts (set_active (Some act1) d)))) as Hk
    by by apply (moves_active_slots act1).
  destruct (receive_operation run) as [[reply failures]|]; [|done]. cbn [after iterate].
  destruct (_ && _); auto with moves.
Qed.

Lemma fold_turn_moves d w cs : moves d (after (fold_turn d w cs)).
Proof.
  unfold fold_turn. assert (moves d (set_ingress None d)) as H0 by by apply moves_slots.
  destruct (ingress d) as [[[event|]|req]|]; [|cbn [after iterate]; by auto with moves..].
  destruct (delegate_transition _ _) as [b folded]. destruct folded as [acts|error|payload].
  - match goal with |- moves _ (after (apply_turn ?d1 _ _)) =>
      trans d1; [by apply moves_slots|apply apply_turn_moves] end.
  - cbn [after iterate]. by auto with moves.
  - cbn [after iterate]. by auto with moves.
Qed.

Lemma receive_custody_moves index custody failures d d' :
  receive_custody index custody failures d = Some d' → moves d d'.
Proof.
  destruct custody as [s|s|s|s]; cbn; unfold insert_row.
  - destruct (drop_settlement s); intros [= <-]; by auto with moves.
  - destruct (vec_insert _ _ _); cbn; [|done]. intros [= <-]. auto with moves.
  - destruct (vec_insert _ _ _); cbn; [|done]. intros [= <-]. auto with moves.
  - destruct (vec_insert _ _ _); cbn; [|done]. intros [= <-]. auto with moves.
Qed.

Lemma offer_turn_moves d w act index : moves d (after (offer_turn d w act index)).
Proof.
  unfold offer_turn. pose proof (offer_operation_moves d w act) as Hk.
  destruct (offer_operation d w act) as [[[d1 w1] cs] failures]. cbn [fst] in Hk.
  destruct failures as [failures|]; [|done].
  destruct (source_input d1); [cbn [after iterate]; by auto with moves|].
  destruct (source_received d1) as [custody|]; [|cbn [after iterate]; by auto with moves].
  match goal with |- context [receive_custody _ _ _ ?x] => set (d2 := x) end.
  assert (moves d d2) as H2 by (trans d1; [done|by apply moves_slots]).
  destruct (receive_custody _ _ _ _) as [d3|] eqn:Hc; [|done].
  cbn [after iterate]. trans d2; [done|]. by eapply receive_custody_moves.
Qed.

Lemma await_source_turn_moves index settlement d w act :
  moves d (after (await_source_turn index settlement d w act)).
Proof.
  unfold await_source_turn, insert_row.
  destruct (vec_insert _ _ _) as [q|]; cbn [mbind option_bind]; [|by apply moves_slots].
  match goal with |- context [request _ _ ?d1 w act] => set (d0 := d1) end.
  assert (moves d d0) as H0 by by apply moves_slots.
  pose proof (request_moves Call_NextSource next_source d0 w act) as Hr.
  destruct (request Call_NextSource next_source d0 w act) as [[[d1 w1] cs] failures].
  cbn [fst] in Hr. assert (moves d d1) as H1 by by trans d0.
  destruct failures as [failures|]; [|done].
  set (d2 := match ingress d1 with Some (Continue None) => _ | _ => _ end).
  assert (moves d (receive_execution_failures failures d2)) as H2.
  { apply moves_execution_failures. unfold d2.
    destruct (ingress d1) as [[[event|]|req]|]; try done. apply moves_reject; [done|].
    trans d1; [done|by apply moves_slots]. }
  destruct (is_Retiring _); [done|]. destruct (negb _); [cbn [after iterate]; by auto with moves|].
  etrans; [exact H2|apply fold_turn_moves].
Qed.

Lemma settle_turn_moves d w act : moves d (after (settle_turn d w act)).
Proof.
  unfold settle_turn. destruct (next_row d) as [[index row]|].
  - destruct (vec_remove _ _) as [[removed rest]|]; [|by apply moves_slots].
    destruct row; [by apply moves_slots| |by apply moves_slots].
    etrans; [|apply await_source_turn_moves]. by apply moves_slots.
  - destruct (is_SettlingInitialization _).
    + unfold publish_turn. destruct (publish w act) as [[w1 act1] publication].
      assert (moves d (set_active (Some act1) d)) as H1 by by apply (moves_active_slots act1).
      cbn [after iterate]. destruct publication as [[]|]; [|by auto with moves..].
      by apply (moves_active_slots act1).
    + unfold ordinary_turn. pose proof (request_moves Call_Next next d w act) as Hr.
      destruct (request Call_Next next d w act) as [[[d1 w1] cs] failures]. cbn [fst] in Hr.
      destruct failures as [failures|]; [|done].
      destruct (is_Retiring _); [cbn [after iterate]; by auto with moves|].
      etrans; [|apply fold_turn_moves]. by auto with moves.
Qed.

Lemma running_turn_moves d w : moves d (after (running_turn d w)).
Proof.
  unfold running_turn. pose proof (classify_moves d) as Hk.
  destruct (classify d) as [d1 go]. cbn [fst] in Hk. destruct go; [|done]. cbn [negb].
  destruct (active d1) as [act|]; [|cbn [after iterate]; by auto with moves].
  etrans; [exact Hk|]. destruct (source_index d1); [apply offer_turn_moves|apply settle_turn_moves].
Qed.

Lemma gather_moves d d' :
  gather_retirement d = Some d' → moves d d' ∧ actions d' = actions d ∧ active d' = active d.
Proof.
  unfold gather_retirement, insert_row.
  destruct (retirement_input d); [intros [= <-]; by split; [apply moves_slots|]|].
  destruct (active d) eqn:Ha; [|intros [= <-]; by split; [apply moves_slots|]].
  destruct (source_input d), (source_index d); try destruct (vec_insert _ _ _); cbn; try done;
    intros [= <-]; by split; [apply moves_slots|].
Qed.

(** ** Residuals *)

(** [untouched] is a prepared environment that was never given actions;
    [prepared_residual] what it retires to, [active_residual] what an
    incarnation retires to, [rejected] what a rejected activation returns. *)
Class ResidualLaw := {
  untouched : Env → Prop;
  prepared_residual : Residual → Prop;
  active_residual : Residual → Prop;
  rejected : EError → Residual → Prop;
  activate_rejected w env acts act w' env' acts' act' run :
    activate w env acts act = (w', (env', acts', act'), run) →
    (∀ error r, act = Some (Err (error, r)) → rejected error r) →
    ∀ error r, act' = Some (Err (error, r)) → rejected error r;
  retire_prepared_residual w e w' env' acts' r run :
    untouched e → retire_prepared w (Some e) None None = (w', (env', acts', Some r), run) →
    prepared_residual r;
  retire_active_residual w a acts i custody index ing rows w' act' acts' i' custody' index' ing' rows'
      r run :
    retire_active w (Some a) acts i custody index ing rows None =
      (w', (act', acts', i', custody', index', ing', rows', Some r), run) →
    active_residual r
}.

Context {law : ResidualLaw}.

(** The residual a disposition is handed over with. *)
Definition ends (x : disposed) (r : Residual) : Prop :=
  match x with
  | Ok _ | Err (Error_TransitionPanicked _ | Error_HostExecutionPanicked _) => active_residual r
  | Err (Error_Behavior _) => active_residual r ∨ prepared_residual r
  | Err (Error_InitializationPanicked _) => prepared_residual r
  | Err (Error_Activation error) => rejected error r
  | Err (Error_ActivationPanicked _ | Error_RetirementPanicked _ | Error_InterpreterContractFailed
      | Error_Settlement _) => True
  end.

Definition installed d : Prop :=
  environment d = None ∧ is_Some (active d) ∧ residual d = None.
Definition unactivated d : Prop :=
  active d = None ∧ residual d = None ∧ actions d = None ∧
  ∀ e, environment d = Some e → untouched e.

(** Where the residual of a disposition will come from. *)
Definition retires_as d (x : disposed) : Prop :=
  match x with
  | Ok _ | Err (Error_TransitionPanicked _ | Error_HostExecutionPanicked _) => installed d
  | Err (Error_Behavior _) => installed d ∨ unactivated d
  | Err (Error_InitializationPanicked _) => unactivated d
  | Err (Error_Activation error) => ∃ r, residual d = Some r ∧ rejected error r
  | Err (Error_ActivationPanicked _ | Error_RetirementPanicked _ | Error_InterpreterContractFailed
      | Error_Settlement _) => True
  end.

(** The disposition fits the slots, phase by phase. *)
Definition fits d : Prop :=
  (∀ error r, activation d = Some (Err (error, r)) → rejected error r) ∧
  match phase d with
  | Prepared => unactivated d
  | Activating => active d = None ∧ residual d = None
  | Initializing | SettlingInitialization | Active => installed d
  | Retiring => ∀ x, disposition d = Some x → retires_as d x
  | RetirementAttempted => ∀ r x, residual d = Some r → disposition d = Some x → ends x r
  end.

Lemma installed_moves d d' : moves d d' → installed d → installed d'.
Proof. intros [He Hr _ Ha _] (? & ? & ?). split_and!; [congruence|auto|congruence]. Qed.

Lemma retires_as_lively d x : lively x → installed d → retires_as d x.
Proof. destruct x as [|[]]; try done; cbn; auto. Qed.

Lemma reject_slots error d :
  disposition d = None →
  active (reject error d) = active d ∧ residual (reject error d) = residual d ∧
  actions (reject error d) = actions d ∧ environment (reject error d) = environment d ∧
  activation (reject error d) = activation d ∧ disposition (reject error d) = Some (Err error).
Proof. unfold reject. by intros ->. Qed.

Lemma fits_prepared d w :
  phase d = Prepared → disposition d = None → fits d → fits (after (prepared_turn d w)).
Proof.
  unfold fits. intros Hp Hd [Ha Hf]. rewrite Hp in Hf. unfold prepared_turn.
  cbn [behavior set_phase]. destruct (initialize (behavior d)) as [b folded].
  destruct Hf as (H1 & H2 & H3 & H4). destruct folded as [acts|error|payload]; cbn [after iterate].
  - by split.
  - rewrite phase_reject.
    match goal with |- context [reject ?er ?d1] => destruct (reject_slots er d1) as (J1 & J2 & J3 & J4 & J5 & J6) end;
      [done|]. split; [by rewrite J5|]. rewrite J6. intros x [= <-]. right. unfold unactivated.
    by rewrite J1, J2, J3, J4.
  - rewrite phase_reject.
    match goal with |- context [reject ?er ?d1] => destruct (reject_slots er d1) as (J1 & J2 & J3 & J4 & J5 & J6) end;
      [done|]. split; [by rewrite J5|]. rewrite J6. intros x [= <-]. cbn. unfold unactivated.
    by rewrite J1, J2, J3, J4.
Qed.

Lemma failures_disposition failures d d' :
  d' = receive_activation_failures failures d →
  is_Some (disposition d) → disposition d' = disposition d.
Proof.
  intros -> [x Hx]. pose proof (verdict_activation_failures d d failures (verdict_refl d)) as Hv.
  destruct Hv as [|disp added Hfirst]; [done|]. cbn. rewrite Hx. f_equal. by apply Hfirst.
Qed.

(** An activation that failed ends in a disposition any residual fits. *)
Lemma fits_failed d :
  disposition d = None → phase d = Activating →
  (∀ error r, activation d = Some (Err (error, r)) → rejected error r) →
  active d = None ∧ residual d = None →
  ∀ failures, fits (contract_failed (receive_activation_failures failures d)).
Proof.
  intros Hd Hp Ha Hs failures. split.
  { intros error r. rewrite (moves_activation d); [apply Ha|]. by auto with moves. }
  rewrite phase_contract. intros x. destruct failures as [|p l].
  - cbn. unfold contract_failed. rewrite Hp. cbn. unfold reject. rewrite Hd. cbn. by intros [= <-].
  - set (d1 := receive_activation_failures (p :: l) d).
    assert (disposition d1 = Some (Err (Error_ActivationPanicked p))) as H1.
    { unfold d1. cbn. rewrite (failures_disposition l (reject (Error_ActivationPanicked p) d));
        [|done|]; unfold reject; rewrite Hd; [done|by eexists]. }
    unfold contract_failed. replace (is_Retiring (phase d1)) with true.
    + rewrite H1. by intros [= <-].
    + unfold d1. cbn. symmetry. apply is_Retiring_phase, (phase_activation_failures l), phase_reject.
Qed.

Lemma fits_activating d w :
  phase d = Activating → disposition d = None → fits d → fits (after (activating_turn d w)).
Proof.
  intros Hp Hd [Ha Hf]. rewrite Hp in Hf. unfold activating_turn.
  destruct (activate _ _ _ _) as [[w1 [[env1 acts1] act1]] run] eqn:Ho.
  pose proof (activate_rejected _ _ _ _ _ _ _ _ _ Ho Ha) as Ha1.
  set (d1 := set_activation act1 (set_actions acts1 (set_environment env1 d))).
  destruct (receive_operation run) as [[reply failures]|].
  2: { split; [done|]. cbn [after suspend]. change (phase d1) with (phase d). by rewrite Hp. }
  destruct (is_some env1 || is_some acts1 || negb (is_some act1)) eqn:Hm; cbn [after iterate].
  { by apply fits_failed. }
  destruct env1, acts1, act1 as [[[act i]|[error r]]|]; try done.
  - change (phase (set_interpretation _ _)) with (phase d). rewrite Hp. cbn [is_Retiring].
    match goal with |- fits (receive_activation_failures _ ?x) => set (d2 := x) end.
    assert (installed d2) as Hi by (split_and!; [done|by eexists|by destruct Hf]).
    assert (moves d2 (receive_activation_failures failures d2)) as Hm2 by by auto with moves.
    split; [by rewrite (moves_activation _ _ Hm2)|].
    destruct failures as [|p l]; [done|].
    assert (phase (receive_activation_failures (p :: l) d2) = Retiring) as ->
      by apply (phase_activation_failures l), phase_reject.
    intros x. cbn. rewrite (failures_disposition l (reject (Error_ActivationPanicked p) d2));
      [|done|]; unfold reject; cbn [disposition d2 set_phase set_interpretation set_active set_activation];
      change (disposition d1) with (disposition d); rewrite Hd; cbn; [by intros [= <-]|by eexists].
  - set (d2 := set_residual (Some r) (set_activation None d1)).
    destruct (reject_slots (Error_Activation error) d2) as (J1 & J2 & J3 & J4 & J5 & J6); [done|].
    set (d3 := receive_activation_failures failures (reject (Error_Activation error) d2)).
    assert (moves (reject (Error_Activation error) d2) d3) as Hm3 by by apply moves_activation_failures.
    split; [by rewrite (moves_activation _ _ Hm3), J5|].
    assert (phase d3 = Retiring) as -> by apply phase_activation_failures, phase_reject.
    intros x. rewrite (failures_disposition failures _ d3 eq_refl); rewrite J6; [|by eexists].
    intros [= <-]. exists r. rewrite (moves_residual _ _ Hm3), J2. split; [done|by apply Ha1].
Qed.

Lemma fits_running d w :
  is_running (phase d) = true → disposition d = None → flow (drive_step d w) ≠ Loop_Panicked →
  fits d → fits (after (drive_step d w)).
Proof.
  intros Hp Hd Hfl [Ha Hf]. pose proof (turn_calls _ _ _ _ (drive_step_turn d w) Hfl) as Hc.
  assert (moves d (after (drive_step d w))) as Hm.
  { unfold drive_step. destruct (phase d); try done; apply running_turn_moves. }
  assert (installed d) as Hi by by destruct (phase d).
  apply (installed_moves _ _ Hm) in Hi as Hi'.
  assert (phase (after (drive_step d w)) = Retiring ∨ is_running (phase (after (drive_step d w))) = true)
    as Hph.
  { destruct (phase d) eqn:Hpd; try done; destruct Hc as [[_ [?|(_ & _ & Hr)]]|(_ & _ & [?|?])]; try (by left);
      right; try (by apply Hr); by match goal with H : phase _ = Active |- _ => rewrite H end. }
  split; [by rewrite (moves_activation _ _ Hm)|].
  destruct Hph as [-> |Hr]; [|by destruct (phase (after _))].
  intros x Hx. apply retires_as_lively; [|done].
  destruct (moves_disposition _ _ Hm) as [He|(_ & y & Hy & Hl)]; congruence.
Qed.

Lemma fits_retiring d w :
  phase d = Retiring → fits d → fits (after (retiring_turn d w)).
Proof.
  intros Hp [Ha Hf]. rewrite Hp in Hf. unfold retiring_turn.
  destruct (is_some (source_input d) && is_some (source_received d)).
  { split; [done|]. cbn [after finish]. by rewrite Hp. }
  destruct (gather_retirement d) as [d1|] eqn:Hg; [|split; [done|cbn [after unwind]; by rewrite Hp]].
  pose proof (gather_slots _ _ Hg) as (Hdisp & _ & Hp1).
  apply gather_moves in Hg as (Hm & Hacts & Hact).
  assert (∀ x, retires_as d x → retires_as d1 x) as Hkeep.
  { assert (installed d → installed d1) as Hi by by apply installed_moves.
    assert (unactivated d → unactivated d1) as Hu.
    { intros (? & ? & ? & ?). unfold unactivated.
      by rewrite Hact, Hacts, (moves_environment _ _ Hm), (moves_residual _ _ Hm). }
    intros [|[]]; cbn; rewrite ?(moves_residual _ _ Hm); tauto. }
  assert (fits d1) as Hend.
  { split; [by rewrite (moves_activation _ _ Hm)|]. rewrite Hp1, Hp, Hdisp. auto. }
  destruct (environment d1) as [env|] eqn:He, (active d1) as [act|] eqn:Ha1, (residual d1) as [r|] eqn:Hr;
    try exact Hend.
  - unfold retire_prepared_turn. cbn [environment actions residual set_phase]. rewrite He, Hr.
    destruct (retire_prepared _ _ _ _) as [[w1 [[env1 acts1] r1]] run] eqn:Ho.
    assert (∀ r x, r1 = Some r → disposition d1 = Some x → ends x r) as Hends.
    { intros r x -> Hx. rewrite Hdisp in Hx. specialize (Hkeep x (Hf x Hx)).
      assert (installed d1 → False) as Hni by (intros (? & _); congruence).
      assert (unactivated d1 → prepared_residual r) as Hu.
      { intros (_ & _ & H3 & H4). rewrite H3 in Ho. eapply retire_prepared_residual; [by apply H4|exact Ho]. }
      destruct x as [|[]]; cbn in *; try tauto. by destruct Hkeep as (? & ? & _); congruence. }
    destruct (receive_operation run) as [[reply failures]|];
      (split; [by rewrite <-(moves_activation _ _ Hm) in Ha|exact Hends]).
  - unfold retire_active_turn.
    cbn [active actions interpretation source_received source_index ingress retirement_input residual set_phase].
    rewrite Ha1, Hr.
    destruct (retire_active _ _ _ _ _ _ _ _ _) as
      [[w1 [[[[[[[act1 acts1] i1] rec1] ix1] ing1] own1] r1]] run] eqn:Ho.
    assert (∀ r x, r1 = Some r → disposition d1 = Some x → ends x r) as Hends.
    { intros r x -> Hx. rewrite Hdisp in Hx. specialize (Hkeep x (Hf x Hx)).
      assert (active_residual r) as Hres by by eapply retire_active_residual.
      assert (unactivated d1 → False) as Hnu by (intros (? & _); congruence).
      destruct x as [|[]]; cbn in *; try tauto. by destruct Hkeep as (? & ? & _); congruence. }
    destruct (receive_operation run) as [[reply failures]|];
      (split; [by rewrite <-(moves_activation _ _ Hm) in Ha|exact Hends]).
Qed.

Lemma fits_step d w :
  edge_ok d → flow (drive_step d w) ≠ Loop_Panicked → fits d → fits (after (drive_step d w)).
Proof.
  intros Hok Hfl Hf.
  assert (past_edge (phase d) = false → disposition d = None) as Hd.
  { intros Hp. destruct (disposition d) eqn:Hx; [|done].
    assert (past_edge (phase d) = true) by (apply Hok; by rewrite Hx). congruence. }
  destruct (phase d) eqn:Hp; try (by apply fits_running; [rewrite Hp|apply Hd|..]); unfold drive_step; rewrite Hp.
  - by apply fits_prepared; [|apply Hd|].
  - by apply fits_activating; [|apply Hd|].
  - by apply fits_retiring.
  - done.
Qed.

Lemma driven_fits b env cs d : untouched env → driven b env cs d → fits d.
Proof.
  intros Hu Hd. induction Hd as [|cs d w Hd IH Hfl].
  - split; [done|]. cbn. split_and!; try done. by intros e [= <-].
  - apply fits_step; [by eapply driven_edge|done|exact IH].
Qed.

(** What a driver hands over fits its disposition, in every history. *)
Lemma receive_owner_ends b env cs d retirement :
  untouched env → driven b env cs d → receive_owner d = Ok retirement →
  ends (retired_disposition retirement) (retired_residual retirement).
Proof.
  intros Hu Hd. destruct (driven_fits _ _ _ _ Hu Hd) as [_ Hf]. pose proof (driven_edge _ _ _ _ Hd) as Hok.
  unfold receive_owner. destruct (ready d); [|done].
  destruct (residual d) as [r|] eqn:Hr, (disposition d) as [x|] eqn:Hx; try done. intros [= <-].
  cbn [retired_disposition retired_residual].
  assert (past_edge (phase d) = true) as Hp by (apply Hok; by rewrite Hx).
  destruct (phase d); try done; [|by apply Hf].
  specialize (Hf x eq_refl). destruct x as [|[]]; cbn in *; try done;
    unfold installed, unactivated in Hf; try (destruct_and?; congruence).
  - destruct Hf as [Hf|Hf]; destruct_and?; congruence.
  - destruct Hf as (r' & Hr' & Hj). rewrite Hr in Hr'. by injection Hr' as ->.
Qed.
End ending.
