(* ===== verification/LocalTerminal.v ===== *)
(** * Residuals of the local environment

    Which residual the local environment produces where: the instance of
    DriverEnding.v's [ResidualLaw].  Nothing is assumed of the interpreter. *)

From S2P Require Import Prelude Driver DriverLaw Host Assessment DriverEnding.
From S2P Require Import LocalIngress LocalEnvironment DriverContract LocalLaw.

Section residuals.
Context {TY : LocalTypes} {HO : LocalHost} {CA : CommitActions} {SC : SettlementClass}.
Context `{!Communication World Owner Consumer Event Item}.
Context `{!CancellationChannel World Cancel}.
Context `{!IngressMode Panic World Event Item Retired MailboxRef}.
Context (polls : World → nat).
Implicit Types (e : LocalEnvironment) (a : ActiveLocalEnvironment) (w : World).

(** A residual with, or without, an initialization that was begun. *)
Definition residual_of (begun : bool) (r : LocalResidual) : Prop :=
  if begun then ∃ initialization lanes, r = Residual_Uncommitted initialization lanes
  else ∃ lanes, r = Residual_Prepared lanes.

(** An environment not retired yet, with or without an initialization. *)
Record binding (begun : bool) e : Prop := {
  binding_residual : env_residual e = None;
  binding_initialization : is_some (env_initialization e) = begun
}.

Definition binds (begun : bool) e e' : Prop := binding begun e → binding begun e'.

#[local] Instance binds_preorder begun : PreOrder (binds begun).
Proof. split; [by intros e ?|]. unfold binds. intros e1 e2 e3. auto. Qed.

Lemma binds_slots begun e e' :
  env_residual e' = env_residual e → env_initialization e' = env_initialization e → binds begun e e'.
Proof. intros Hr Hi [? ?]. split; by rewrite ?Hr, ?Hi. Qed.

Lemma keeping_discard {T X} (R : T → T → Prop) `{!PreOrder R} (part : T → option X) put own :
  (∀ t, R t (put None t)) →
  keeping R (discard part put own : Async Panic (World * T) ()).
Proof. intros Hp w t. unfold discard. destruct (part t); cbn; [apply Hp|reflexivity]. Qed.

Lemma binds_initialize begun : keeping (binds begun) initialize_interpreter.
Proof.
  intros w e. unfold initialize_interpreter. destruct (env_interpreter e); [|reflexivity].
  destruct (interpreter_initialize _) as [[w1 i1] o]. by apply binds_slots.
Qed.
Lemma binds_close_cancellation begun :
  keeping (P:=Panic) (W:=World) (binds begun)
    (close_cancellation env_owner_cancellation env_set_owner_cancellation
       env_set_unread_owner_cancellation).
Proof.
  intros w e. pose proof (keep_close_cancellation w e) as [[] _]. by apply binds_slots.
Qed.
Lemma binds_drain begun : keeping (binds begun) drain_mailbox.
Proof.
  intros w e. unfold drain_mailbox. rewrite bind_eq. cbn.
  destruct (env_retired_ingress e), (env_consumer e) as [consumer|]; try reflexivity.
  rewrite bind_eq. cbn. rewrite bind_eq. unfold on_host.
  destruct (collect_retired_ingress consumer w) as [w1 [drained| | |]]; by apply binds_slots.
Qed.

Ltac binds_step :=
  repeat match goal with
  | |- keeping _ (mbind _ _) => apply keeping_bind; [apply _| |intros ?]
  | |- keeping _ (match ?x with _ => _ end) => destruct x
  | |- keeping _ (change _) => apply keeping_change; intros ?; by apply binds_slots
  | |- keeping _ (discard _ _ _) => apply keeping_discard; [apply _|intros ?; by apply binds_slots]
  | |- keeping _ (focus _ _ _) => apply keeping_focus; intros ? []; by apply binds_slots
  | |- keeping _ (mret _) => apply keeping_ret, _
  | |- keeping _ (look _) => apply keeping_look, _
  | |- keeping _ (perform _) => apply keeping_perform, _
  | |- keeping _ stay_pending => apply keeping_pending, _
  end.

Lemma binds_reserve begun : keeping (binds begun) reserve_address.
Proof.
  unfold reserve_address. binds_step. apply keeping_change. intros e. destruct x0; by apply binds_slots.
Qed.
Lemma binds_offer begun : keeping (binds begun) offer_commitment.
Proof. unfold offer_commitment. binds_step. Qed.
Lemma binds_acknowledgement begun : keeping (binds begun) receive_acknowledgement.
Proof. unfold receive_acknowledgement. binds_step. Qed.

(** What retirement leaves of an environment. *)
Definition retired_as (begun : bool) e : Prop :=
  ∀ r, env_residual e = Some r → residual_of begun r.

Lemma binding_retired begun e : binding begun e → retired_as begun e.
Proof. intros [Hr ?] r. by rewrite Hr. Qed.

Lemma settle_retired begun e : binding begun e → retired_as begun (settle_retirement e).
Proof.
  intros Hb. unfold settle_retirement.
  destruct (env_retirement e) as [r|], (env_retired_ingress e) as [ingress|]; try by apply binding_retired.
  destruct Hb as [_ Hi]. cbn. intros r' [= <-].
  destruct (env_initialization e), begun; try done; cbn; eauto.
Qed.

Lemma receive_retirement_retires begun w e :
  binding begun e → wp receive_retirement (λ '(_, e') _, retired_as begun e') (w, e).
Proof.
  intros Hb. unfold receive_retirement. wp_step. wp_step. rewrite (binding_residual _ _ Hb).
  cbn [is_some].
  assert (∀ {A} (m : Async Panic (World * LocalEnvironment) A)
      (k : A → Async Panic (World * LocalEnvironment) ()) w e,
    keeping (binds begun) m → binding begun e →
    (∀ x w' e', binding begun e' → wp (k x) (λ '(_, e') _, retired_as begun e') (w', e')) →
    wp (m ≫= k) (λ '(_, e') _, retired_as begun e') (w, e)) as Hstep.
  { intros A m k w1 e1 Hm H1 Hk. wp_step. eapply wp_mono; [by apply wp_keeping|].
    intros [w2 e2] o H2. specialize (H2 H1).
    destruct o as [x| |payload|]; cbn [wp_then]; [by apply Hk|by apply binding_retired..]. }
  apply Hstep; [apply binds_close_cancellation|done|]. intros _ w1 e1 H1.
  apply Hstep; [apply keeping_perform, _|done|]. intros _ w2 e2 H2.
  apply Hstep; [apply binds_drain|done|]. intros _ w3 e3 H3.
  apply Hstep; [binds_step|done|]. intros _ w4 e4 H4.
  apply Hstep; [binds_step|done|]. intros interpreter w5 e5 H5.
  destruct (is_some interpreter); [by apply binding_retired|].
  do 4 (apply Hstep; [binds_step|done|]; intros _ ? ? ?).
  wp_step. by apply settle_retired.
Qed.

(** A rejected activation retires with the initialization it began. *)
Lemma bind_and_commit_rejects w e :
  binding true e →
  wp bind_and_commit (λ '(_, e') o, o = Ready true → retired_as true e') (w, e).
Proof.
  intros Hb. unfold bind_and_commit.
  assert (∀ {A} (m : Async Panic (World * LocalEnvironment) A)
      (k : A → Async Panic (World * LocalEnvironment) bool) w e,
    keeping (binds true) m → binding true e →
    (∀ x w' e', binding true e' → wp (k x) (λ '(_, e') o, o = Ready true → retired_as true e') (w', e')) →
    wp (m ≫= k) (λ '(_, e') o, o = Ready true → retired_as true e') (w, e)) as Hstep.
  { intros A m k w1 e1 Hm H1 Hk. wp_step. eapply wp_mono; [by apply wp_keeping|].
    intros [w2 e2] o H2. specialize (H2 H1). destruct o as [x| |payload|]; cbn [wp_then]; [by apply Hk|done..]. }
  apply Hstep; [apply binds_initialize|done|]. intros _ w1 e1 H1.
  apply Hstep; [apply binds_reserve|done|]. intros _ w2 e2 H2.
  apply Hstep; [apply keeping_look, _|done|]. intros e3 w3 e3' H3.
  apply Hstep; [|done|].
  { destruct (is_none _); [|apply keeping_ret, _].
    apply keeping_bind; [apply _|apply binds_offer|]. intros _. apply binds_acknowledgement. }
  intros _ w4 e4 H4. apply Hstep; [apply keeping_look, _|done|]. intros e5 w5 e5' H5.
  destruct (is_some _); wp_step.
  - eapply wp_mono; [by apply (receive_retirement_retires true)|].
    intros [w6 e6] o H6. destruct o as [x| |payload|]; cbn [wp_then]; try done. by intros _.
  - unfold wp, commit_initialization. destruct (env_interpreter e5') as [i|]; [|done].
    destruct (interpreter_commit _) as [[w6 [i6 p6]] o].
    destruct o as [x| |payload|]; cbn; done.
Qed.

(** *** The law *)

#[local] Instance local_port : EnvironmentPort World LocalEnvironment ActiveLocalEnvironment Actions
    Event Settlements (Interpretation Settlements) Request LocalActivationRejection LocalResidual
    Panic := local_environment_port polls.

Lemma local_activate_rejects w environment actions received :
  let '(_, (_, _, received'), _) := local_activate w environment actions received in
  (∀ error r, received = Some (Err (error, r)) → residual_of true r) →
  ∀ error r, received' = Some (Err (error, r)) → residual_of true r.
Proof.
  unfold local_activate. destruct received as [received|]; [by auto|].
  destruct environment as [e|]; [|by auto].
  destruct (take_initialization e actions) as [[e1 actions1]|] eqn:Ht; [|by auto].
  assert (is_some (env_initialization e1) = true) as Hi.
  { unfold take_initialization in Ht.
    destruct (env_initialization e) eqn:Hini, actions; try done; injection Ht as <- <-; by rewrite ?Hini. }
  destruct (env_residual e1) eqn:Hres; cbn [is_some]; [done|].
  pose proof (bind_and_commit_rejects w e1) as Hwp. unfold wp in Hwp.
  destruct (bind_and_commit (w, e1)) as [[w2 e2] o]. cbn [fst snd] in Hwp.
  destruct o as [[]| |payload|]; try done.
  - unfold reject_activation.
    destruct (env_activation_rejection e2), (env_residual e2) as [r|] eqn:Hr, (env_consumer e2),
      (env_interpreter e2), (env_retirement e2), (env_retired_ingress e2); try done.
    assert (retired_as true e2) as H2 by (apply Hwp; [by split|done]).
    intros _ error r' [= <- <-]. by apply H2.
  - unfold install_activation. by repeat case_match; simplify_eq; try intros _ error r.
Qed.

Lemma local_retire_prepared_untouched w e :
  env_initialization e = None → env_residual e = None →
  let '(_, (_, _, r), _) := local_retire_prepared w (Some e) None None in
  ∀ r', r = Some r' → residual_of false r'.
Proof.
  intros Hi Hr. unfold local_retire_prepared. cbn [is_some andb].
  pose proof (receive_retirement_retires false w e) as Hwp. unfold wp in Hwp.
  destruct (receive_retirement (w, e)) as [[w1 e1] o]. cbn [fst snd] in Hwp.
  assert (retired_as false e1) as H1 by (apply Hwp; by split; rewrite ?Hi).
  destruct o as [[]| |payload|]; try done. unfold release_residual.
  destruct (env_residual e1) as [r|] eqn:Hr1; [|done].
  destruct (env_consumer e1), (env_interpreter e1), (env_retirement e1), (env_retired_ingress e1);
    try done.
  intros r' [= <-]. by apply H1.
Qed.

Lemma local_retire_active_retired w a l :
  let '(_, (_, _, r), _) := local_retire_active w (Some a) l None in
  ∀ r', r = Some r' → ∃ i s rows lanes, r' = Residual_Retired i s rows lanes.
Proof.
  unfold local_retire_active. destruct (slot_settlements l) as [rows|]; [|done].
  destruct (coexist l a); [done|]. destruct (take_lanes l a) as [a1 l1].
  destruct (collect_retirement (w, a1)) as [[w2 a2] [[]| |payload|]]; try done.
  destruct (act_interpreter a2), (act_retirement a2), (act_retired_ingress a2); try done.
  intros r' [= <-]. by do 4 eexists.
Qed.

#[export, refine] Instance local_residuals : ResidualLaw :=
  {| untouched e := env_initialization e = None ∧ env_residual e = None;
     prepared_residual := residual_of false;
     active_residual r := ∃ i s rows lanes, r = Residual_Retired i s rows lanes;
     rejected _ := residual_of true |}.
Proof.
  - intros w environment actions received w' environment' actions' received' run.
    unfold activate, local_port, local_environment_port.
    pose proof (local_activate_rejects w environment actions received) as Hl.
    destruct (local_activate w environment actions received) as [[w1 [[e1 acts1] r1]] o].
    by intros [= <- <- <- <- <-].
  - intros w e w' environment' actions' r run [Hi Hr].
    unfold retire_prepared, local_port, local_environment_port.
    pose proof (local_retire_prepared_untouched w e Hi Hr) as Hl.
    destruct (local_retire_prepared w (Some e) None None) as [[w1 [[e1 acts1] r1]] o].
    intros [= <- <- <- -> <-]. by apply Hl.
  - intros w a acts i custody index ing rows w' act' acts' i' custody' index' ing' rows' r run.
    unfold retire_active, local_port, local_environment_port.
    match goal with |- context [local_retire_active w (Some a) ?l None] =>
      pose proof (local_retire_active_retired w a l) as Hl;
      destruct (local_retire_active w (Some a) l None) as [[w1 [[e1 l1] r1]] o] end.
    intros [= <- <- <- <- <- <- <- <- -> <-]. by apply Hl.
Defined.
End residuals.
