(* ===== verification/ActorOutcome.v ===== *)
(** * The end of an actor

    [crates/bombay/src/actor_outcome.rs] (the terminal classification of one
    execution), [actor_execution.rs] (one driver and one terminal capability,
    retired exactly once), [termination.rs] (publication of the termination),
    the terminal reports of [local/effects/reports.rs], the projection of a
    local residual into a report ([environment.rs], [terminal.rs]) and the
    terminal capability of [launch.rs].

    Publishers, oneshot channels and the termination values of the behavior
    crates are the host's: class [LaunchHost]. *)

From S2P Require Import Prelude Driver Host Assessment LocalIngress LocalEnvironment.

(** ** Classification *)

Variant ActorExecutionOutcome {B R BError AError Request P : Type} :=
  | Exec_Completed (behavior : B) (residual : R)
      (additional_failures : list (DriverError BError AError P)) (completion : Completion Request)
  | Exec_BehaviorFailed (behavior : B) (residual : R)
      (additional_failures : list (DriverError BError AError P)) (error : BError)
  | Exec_InitializationPanicked (behavior : B) (residual : R)
      (additional_failures : list (DriverError BError AError P)) (payload : P)
  | Exec_TransitionPanicked (behavior : B) (residual : R)
      (additional_failures : list (DriverError BError AError P)) (payload : P)
  | Exec_HostExecutionPanicked (behavior : B) (residual : R)
      (additional_failures : list (DriverError BError AError P)) (payload : P)
  | Exec_ActivationPanicked (behavior : B) (residual : R)
      (additional_failures : list (DriverError BError AError P)) (payload : P)
  | Exec_RetirementPanicked (behavior : B) (residual : R)
      (additional_failures : list (DriverError BError AError P)) (payload : P)
  | Exec_InterpreterContractFailed (behavior : B) (residual : R)
      (additional_failures : list (DriverError BError AError P))
  | Exec_ActivationFailed (behavior : B) (residual : R)
      (additional_failures : list (DriverError BError AError P)) (error : AError)
  | Exec_SettlementFailed (behavior : B) (residual : R)
      (additional_failures : list (DriverError BError AError P)) (error : SettlementFailure)
  | Exec_Panicked
  | Exec_Cancelled.
Arguments ActorExecutionOutcome : clear implicits.

Section outcome.
Context {B R BError AError Request P : Type}.

(** [impl From<DriverRetirement<..>> for ActorExecutionOutcome]. *)
Definition outcome_from
    (retirement : @DriverRetirement B BError Request AError R P) :
    ActorExecutionOutcome B R BError AError Request P :=
  let b := retired_behavior retirement in
  let r := retired_residual retirement in
  let l := Driver.retired_failures retirement in
  match retired_disposition retirement with
  | Ok completion => Exec_Completed b r l completion
  | Err (Error_Behavior error) => Exec_BehaviorFailed b r l error
  | Err (Error_InitializationPanicked payload) => Exec_InitializationPanicked b r l payload
  | Err (Error_TransitionPanicked payload) => Exec_TransitionPanicked b r l payload
  | Err (Error_HostExecutionPanicked payload) => Exec_HostExecutionPanicked b r l payload
  | Err (Error_ActivationPanicked payload) => Exec_ActivationPanicked b r l payload
  | Err (Error_RetirementPanicked payload) => Exec_RetirementPanicked b r l payload
  | Err Error_InterpreterContractFailed => Exec_InterpreterContractFailed b r l
  | Err (Error_Activation error) => Exec_ActivationFailed b r l error
  | Err (Error_Settlement failure) => Exec_SettlementFailed b r l failure
  end.

(** The residual an outcome owns. *)
Definition outcome_residual (o : ActorExecutionOutcome B R BError AError Request P) : option R :=
  match o with
  | Exec_Completed _ r _ _ | Exec_BehaviorFailed _ r _ _ | Exec_InitializationPanicked _ r _ _
  | Exec_TransitionPanicked _ r _ _ | Exec_HostExecutionPanicked _ r _ _
  | Exec_ActivationPanicked _ r _ _ | Exec_RetirementPanicked _ r _ _
  | Exec_InterpreterContractFailed _ r _ | Exec_ActivationFailed _ r _ _
  | Exec_SettlementFailed _ r _ _ => Some r
  | Exec_Panicked | Exec_Cancelled => None
  end.

(** The same outcome with another residual. *)
Definition with_residual (r : R) (o : ActorExecutionOutcome B R BError AError Request P) :
    ActorExecutionOutcome B R BError AError Request P :=
  match o with
  | Exec_Completed b _ l x => Exec_Completed b r l x
  | Exec_BehaviorFailed b _ l x => Exec_BehaviorFailed b r l x
  | Exec_InitializationPanicked b _ l x => Exec_InitializationPanicked b r l x
  | Exec_TransitionPanicked b _ l x => Exec_TransitionPanicked b r l x
  | Exec_HostExecutionPanicked b _ l x => Exec_HostExecutionPanicked b r l x
  | Exec_ActivationPanicked b _ l x => Exec_ActivationPanicked b r l x
  | Exec_RetirementPanicked b _ l x => Exec_RetirementPanicked b r l x
  | Exec_InterpreterContractFailed b _ l => Exec_InterpreterContractFailed b r l
  | Exec_ActivationFailed b _ l x => Exec_ActivationFailed b r l x
  | Exec_SettlementFailed b _ l x => Exec_SettlementFailed b r l x
  | Exec_Panicked => Exec_Panicked
  | Exec_Cancelled => Exec_Cancelled
  end.
End outcome.

(** ** One execution and its terminal capability *)

Section execution.
Context {B Event Actions BError W Env Act S I Request EError Residual P : Type}.
Context `{!BehaviorPort B Event Actions BError P}.
Context `{!EnvironmentPort W Env Act Actions Event S I Request EError Residual P}.

Local Abbreviation driver := (@Driver B Event Actions BError Env Act S I Request EError Residual P)
  (only parsing).
Local Abbreviation outcome := (ActorExecutionOutcome B Residual BError EError Request P)
  (only parsing).

(** The trait [Retirement]: its one operation consumes the capability. *)
Context {R Output : Type} (retire : R → outcome → W → W * Output).

Record ActorExecution := ActorExecution_new { exec_driver : driver; exec_retirement : R }.

(** [Terminal]: the capability until it is retired. *)
Definition Terminal : Type := option R.

Definition Terminal_complete (terminal : Terminal) (o : outcome) (w : W) :
    option (W * Terminal * option Output) :=
  capability ← terminal;
  let '(w, output) := retire capability o w in Some (w, None, Some output).

(** [Drop for Terminal]; [panicking] is [thread::panicking()]. *)
Definition drop_Terminal (panicking : bool) (terminal : Terminal) (w : W) : W * Terminal :=
  match terminal with
  | None => (w, None)
  | Some capability =>
      ((retire capability (if panicking then Exec_Panicked else Exec_Cancelled) w).1, None)
  end.

(** [ActorExecution::run]: the output, or none when the future was dropped
    ([panicking] by an unwinding thread) or unwound.  A driver that hands its
    owner back leaves the future pending. *)
Definition ActorExecution_run (fuel : nat) (panicking : bool) (execution : ActorExecution) (w : W) :
    option (W * Terminal * option Output) :=
  let terminal := Some (exec_retirement execution) in
  '(_, last) ← drive fuel (exec_driver execution) w;
  let dropped panicking :=
    let '(w, terminal) := drop_Terminal panicking terminal (host last) in (w, terminal, None) in
  match flow last with
  | Loop_Return =>
      match receive_owner (after last) with
      | Ok retirement => Terminal_complete terminal (outcome_from retirement) (host last)
      | Err _ => Some (dropped panicking)
      end
  | Loop_Suspended | Loop_Again => Some (dropped panicking)
  | Loop_Panicked => Some (dropped true)
  end.

(** An output is the retirement of what the driver handed over. *)
Lemma ActorExecution_run_output fuel panicking execution w w' terminal output :
  ActorExecution_run fuel panicking execution w = Some (w', terminal, Some output) →
  ∃ cs last retirement,
    drive fuel (exec_driver execution) w = Some (cs, last) ∧ flow last = Loop_Return ∧
    receive_owner (after last) = Ok retirement ∧
    retire (exec_retirement execution) (outcome_from retirement) (host last) = (w', output).
Proof.
  unfold ActorExecution_run.
  destruct (drive fuel (exec_driver execution) w) as [[cs last]|]; cbn; [|done].
  destruct (flow last) eqn:Hf; try done.
  destruct (receive_owner (after last)) as [retirement|] eqn:Ho; [|done].
  unfold Terminal_complete. cbn.
  destruct (retire _ _ _) as [w1 out] eqn:Hr. intros [= -> _ ->]. by do 3 eexists.
Qed.
End execution.

(** ** Local data *)

Variant TerminalReportDisposition := Report_Retain | Report_Discard.

(** The terminations that the runtime itself names. *)
Variant TerminalFact :=
  | Exit_Normal | Exit_Collected
  | Crash_Failed | Crash_Panicked | Crash_EnvironmentFailed | Crash_Cancelled
  | Crash_CapabilityFailed.

Class LaunchHost `{!LocalTypes} := {
  TerminationPublisher : Type; ReportSender : Type; ReportReceiver : Type;
  NotificationSender : Type;
  termination_of : TerminalFact → Termination;
  (** [Publisher::complete], which may resume the panic of a waker. *)
  termination_complete : TerminationPublisher → Termination → World → World * option Panic;
  report_try_recv : ReportReceiver → World → World * Result Termination TryRecvError;
  report_send : ReportSender → Termination → World → World * Result () Termination;
  report_drop : ReportSender → World → World
}.

Section local.
Context {TY : LocalTypes} {LH : LaunchHost}.

Variant RetirementNotificationError :=
  | Notification_Panicked (payload : Panic)
  | Notification_ReceiptClosed (error : RecvError).

(** *** The selected report *)

Variant TerminationSelection := Unselected | Selected (outcome : Termination).

Definition selection_begin (self : TerminationSelection) : TerminationSelection := Unselected.
Definition selection_select (outcome : Termination) (self : TerminationSelection) :
    TerminationSelection :=
  match self with Unselected => Selected outcome | Selected _ => self end.
Definition selection_finish (disposition : TerminalReportDisposition)
    (self : TerminationSelection) : TerminationSelection :=
  match disposition with Report_Retain => self | Report_Discard => selection_begin self end.

Record LocalTerminalReports := {
  selection : TerminationSelection;
  report : option ReportSender
}.

Definition LocalTerminalReports_new (sender : ReportSender) : LocalTerminalReports :=
  {| selection := Unselected; report := Some sender |}.
Definition reports_finish (disposition : TerminalReportDisposition)
    (self : LocalTerminalReports) : LocalTerminalReports :=
  {| selection := selection_finish disposition (selection self); report := report self |}.
Definition report_outcome (outcome : Termination) (self : LocalTerminalReports) :
    LocalTerminalReports :=
  {| selection := selection_select outcome (selection self); report := report self |}.

Definition is_Selected (s : TerminationSelection) : bool :=
  match s with Selected _ => true | Unselected => false end.

(** [LocalTerminalReports::receive_retirement] on the publication it loans. *)
Definition reports_receive_retirement :
    Async Panic (World * (LocalTerminalReports * option (Result () Termination))) () :=
  λ '(w, (self, publication)),
    let keep := ((w, (self, publication)), Ready ()) in
    match publication, selection self, report self with
    | Some _, _, _ => keep
    | None, Selected _, None => keep
    | None, Unselected, None => keep
    | None, Unselected, Some sender =>
        ((report_drop sender w, ({| selection := Unselected; report := None |}, None)), Ready ())
    | None, Selected outcome, Some sender =>
        let '(w, sent) := report_send sender outcome w in
        ((w, ({| selection := Unselected; report := None |}, Some sent)),
         match sent with Ok _ => Ready () | Err _ => Violated end)
    end.

Definition reports_retirement_complete (self : LocalTerminalReports) : bool :=
  is_none (report self) && negb (is_Selected (selection self)).

(** *** The residual *)

Context `{!TaskSet World Tasks Event JoinError}.
Context {B BError : Type}.

Definition LocalOutcome : Type :=
  ActorExecutionOutcome B LocalResidual BError LocalActivationRejection Request Panic.

(** What the progress of an interpretation says about failures. *)
Definition progress_failures (progress : option Progress) : ActorFailureAssessment :=
  match progress with
  | Some (Progress_Original _ | Progress_Interpreting _) => Incomplete
  | Some (Progress_Completed (Interpretation_Corrupt _)) => FailuresFound
  | Some (Progress_Completed (Interpretation_Complete _)) | None => NoFailuresFound
  end.

Definition source_stage_failures (source : option SourceStage) : ActorFailureAssessment :=
  match source with
  | Some (Source_Original _ | Source_Offering _ | Source_Completed (Custody_Admitted _)) =>
      Incomplete
  | Some (Source_Completed (Custody_Closed _)) => FailuresFound
  | Some (Source_Completed (Custody_Exhausted _ | Custody_Retained _)) | None => NoFailuresFound
  end.

Definition received_source_failures (source : option (SourceCustody Settlements)) :
    ActorFailureAssessment :=
  match source with
  | Some (Custody_Closed _) => FailuresFound
  | Some (Custody_Admitted _) => Incomplete
  | Some (Custody_Exhausted _ | Custody_Retained _) | None => NoFailuresFound
  end.

(** The native failures of the lanes. *)
Definition lane_failed (lanes : ResidualLanes) : bool :=
  negb (bool_decide (length (lane_capability_failures lanes) = 0))
  || negb (bool_decide (length (lane_retirement_failures lanes) = 0))
  || match lane_terminal_report lanes with Some (Err _) => true | _ => false end
  || match lane_interpretation lanes with Some (Interpretation_Corrupt _) => true | _ => false end
  || match lane_acquired_ingress lanes with
     | Some (Break (Request_CapabilityFailed _)) => true
     | _ => false
     end.

(** [LocalResidual::retirement_report]. *)
Definition retirement_report (residual : LocalResidual) : ActorRetirementReport :=
  let progress :=
    match residual with
    | Residual_Prepared _ => NoFailuresFound
    | Residual_Uncommitted initialization _ => progress_failures (Some initialization)
    | Residual_Retired interpretation source _ _ =>
        combine_failures (progress_failures interpretation) (source_stage_failures source)
    end in
  let lanes := residual_lanes residual in
  let tasks_done := tasks_is_empty (lane_activation_tasks lanes) in
  let native :=
    if lane_failed lanes then FailuresFound
    else if negb tasks_done then Incomplete else NoFailuresFound in
  combine
    (Report_new (if tasks_done then Established else NotEstablished)
       (combine_failures (combine_failures (combine_failures (lane_operation_failures lanes) progress)
          native) (received_source_failures (lane_source lanes))))
    (lane_descendant_report lanes).

(** The residual with other lanes. *)
Definition with_lanes (lanes : ResidualLanes) (residual : LocalResidual) : LocalResidual :=
  match residual with
  | Residual_Prepared _ => Residual_Prepared lanes
  | Residual_Uncommitted initialization _ => Residual_Uncommitted initialization lanes
  | Residual_Retired interpretation source settlements _ =>
      Residual_Retired interpretation source settlements lanes
  end.

(** The two lanes that joined tasks reach, and the tasks. *)
Definition with_tasks (tasks : Tasks) (events : list Event) (failures : list JoinError)
    (lanes : ResidualLanes) : ResidualLanes :=
  {| lane_interpretation := lane_interpretation lanes; lane_source := lane_source lanes;
     lane_source_index := lane_source_index lanes;
     lane_acquired_ingress := lane_acquired_ingress lanes;
     lane_ingress := {| control := events; user := user (lane_ingress lanes) |};
     lane_activation_tasks := tasks; lane_descendants := lane_descendants lanes;
     lane_operation_failures := lane_operation_failures lanes;
     lane_descendant_report := lane_descendant_report lanes;
     lane_capability_failures := failures; lane_terminal_report := lane_terminal_report lanes;
     lane_retirement_failures := lane_retirement_failures lanes;
     lane_unread_owner_cancellation := lane_unread_owner_cancellation lanes |}.

(** [LocalResidual::receive_activation_tasks]. *)
Definition receive_activation_tasks (fuel : nat) : Async Panic (World * LocalResidual) () :=
  λ '(w, residual),
    let lanes := residual_lanes residual in
    let '((w, (tasks, events, failures)), o) :=
      receive_settlement (P:=Panic) fuel
        (w, (lane_activation_tasks lanes, control (lane_ingress lanes),
             lane_capability_failures lanes)) in
    ((w, with_lanes (with_tasks tasks events failures lanes) residual), o).

(** [settle_local_outcome]; dropping it drops the outcome. *)
Definition settle_local_outcome (fuel : nat) (outcome : LocalOutcome) : Async Panic World LocalOutcome :=
  match outcome_residual outcome with
  | None => mret outcome
  | Some residual =>
      λ w,
        let '((w, residual), o) := receive_activation_tasks fuel (w, residual) in
        (w, match o with
            | Ready _ => Ready (with_residual residual outcome)
            | Pending => Pending
            | Panicked payload => Panicked payload
            | Violated => Violated
            end)
  end.

(** *** Publication of the termination *)

Record TerminationPublication := TerminationPublication_new {
  publisher : TerminationPublisher;
  selected_report : ReportReceiver
}.

Definition complete_publication (self : TerminationPublication) (fact : Termination) :
    Async Panic World () :=
  λ w, let '(w, panicked) := termination_complete (publisher self) fact w in
       (w, match panicked with None => Ready () | Some payload => Panicked payload end).

(** The termination an outcome stands for, without a selected report. *)
Definition termination_fact (outcome : LocalOutcome) : Async Panic World TerminalFact :=
  match outcome with
  | Exec_Completed _ _ _ Stopped => mret Exit_Normal
  | Exec_Completed _ _ _ Exhausted => mret Exit_Collected
  | Exec_Completed _ _ _ (RetirementRequested _) => violated
  | Exec_BehaviorFailed _ _ _ _ => mret Crash_Failed
  | Exec_InitializationPanicked _ _ _ _ | Exec_TransitionPanicked _ _ _ _
  | Exec_HostExecutionPanicked _ _ _ _ | Exec_ActivationPanicked _ _ _ _
  | Exec_RetirementPanicked _ _ _ _ | Exec_Panicked => mret Crash_Panicked
  | Exec_ActivationFailed _ _ _ _ | Exec_InterpreterContractFailed _ _ _
  | Exec_SettlementFailed _ _ _ _ => mret Crash_EnvironmentFailed
  | Exec_Cancelled => mret Crash_Cancelled
  end.

(** [TerminationPublication::publish]. *)
Definition publish_termination (self : TerminationPublication) (outcome : LocalOutcome) :
    Async Panic World () :=
  fact ← termination_fact outcome;
  let termination := termination_of fact in
  selected ←
    match outcome with
    | Exec_Completed _ _ _ Stopped => λ w,
        let '(w, received) := report_try_recv (selected_report self) w in
        (w, match received with
            | Ok selected => Ready selected
            | Err TryRecvError_Closed => Ready termination
            | Err TryRecvError_Empty => Violated
            end)
    | _ => mret termination
    end;
  complete_publication self selected.

Definition publish_host_panic (self : TerminationPublication) : Async Panic World () :=
  complete_publication self (termination_of Crash_Panicked).
Definition publish_capability_failure (self : TerminationPublication) : Async Panic World () :=
  complete_publication self (termination_of Crash_CapabilityFailed).
Definition publish_owner_cancellation (self : TerminationPublication) : Async Panic World () :=
  complete_publication self (termination_of Crash_Cancelled).

(** *** The terminal capability of a local actor *)

Context {SC : SettlementClass}.
(** The notification channel: sending hands the value back when the receiver is
    gone. *)
Context (notification_send : NotificationSender → Result () RetirementNotificationError →
  World → World * Result () (Result () RetirementNotificationError)).

Record LocalRetirement := LocalRetirement_new {
  termination : TerminationPublication;
  termination_notification : NotificationSender
}.

(** The publication of an outcome, chosen by its cause. *)
Definition retirement_publication (self : TerminationPublication) (outcome : LocalOutcome) :
    Async Panic World () :=
  match outcome with
  | Exec_Completed _ _ _ (RetirementRequested (Request_OwnerCancellation _)) =>
      publish_owner_cancellation self
  | Exec_Completed _ _ _ (RetirementRequested (Request_CapabilityFailed _)) =>
      publish_capability_failure self
  | Exec_ActivationFailed _ _ _ (Rejection_HostCommitPanicked _) => publish_host_panic self
  | _ => publish_termination self outcome
  end.

(** [catch_unwind]. *)
Definition caught (o : Outcome Panic ()) : Result () RetirementNotificationError :=
  match o with
  | Ready _ => Ok ()
  | Panicked payload => Err (Notification_Panicked payload)
  | Pending | Violated => Err (Notification_Panicked assertion)
  end.

(** [Retirement::retire for LocalRetirement]. *)
Definition LocalRetirement_retire (self : LocalRetirement) (outcome : LocalOutcome) (w : World) :
    World * (LocalOutcome * option RetirementNotificationError) :=
  let '(w, publication) := retirement_publication (termination self) outcome w in
  let '(w, sent) := notification_send (termination_notification self) (caught publication) w in
  (w, (outcome, match sent with Ok _ | Err (Ok _) => None | Err (Err error) => Some error end)).

(** *** The report of a joined actor *)

(** [ActorRetirementReport::from_joined]. *)
Definition from_joined (joined : Result LocalOutcome JoinError)
    (notification : Result () RetirementNotificationError) : ActorRetirementReport :=
  let report :=
    match joined with
    | Ok (Exec_Completed _ residual additional completion) =>
        let completion_failures :=
          match completion with
          | RetirementRequested (Request_CapabilityFailed _) => FailuresFound
          | Stopped | Exhausted | RetirementRequested (Request_OwnerCancellation _) =>
              NoFailuresFound
          end in
        let additional_failures :=
          if bool_decide (length additional = 0) then NoFailuresFound else FailuresFound in
        with_failures (retirement_report residual)
          (combine_failures completion_failures additional_failures)
    | Ok outcome =>
        match outcome_residual outcome with
        | Some residual => with_failures (retirement_report residual) FailuresFound
        | None => Report_new NotEstablished FailuresFound
        end
    | Err _ => Report_new NotEstablished FailuresFound
    end in
  match notification with Err _ => with_failures report FailuresFound | Ok _ => report end.
End local.
