(* ===== verification/TerminalProjection.v ===== *)
(** * The terminal projection

    [crates/bombay/src/terminal.rs]: [ActorRetirement], the native result of a
    local actor, and its projection from the outcome of an execution; and
    [SpawnError] of [launch.rs], the same facts before the actor is published.

    The fields that the variants repeat are records ([ActorCustody] as in the
    code, [SpawnCustody] for the fields of [SpawnError]).  [assert!] and
    [unreachable!] are a panic: [None]. *)

From S2P Require Import Prelude Driver Host Assessment LocalIngress LocalEnvironment ActorOutcome.

Section projection.
Context {TY : LocalTypes} {LH : LaunchHost} `{!TaskSet World Tasks Event JoinError}.
Context {B BError AllocationRejection Root ChildFailures : Type}.
(** The descendants of a local actor are its children and their failures. *)
Context (descendants_of : Descendants → list Root * ChildFailures).

Local Abbreviation outcome := (LocalOutcome (B := B) (BError := BError)) (only parsing).
Local Abbreviation failure := (DriverError BError LocalActivationRejection Panic) (only parsing).

(** *** Data *)

Record ActorCustody := {
  custody_behavior : B;
  custody_control : list Event;
  custody_user : list Retired;
  custody_descendants : list Root;
  custody_child_failures : ChildFailures;
  custody_capability_failures : list JoinError;
  custody_additional_failures : list failure;
  custody_received_interpretation : option (Interpretation Settlements);
  custody_received_source : option (SourceCustody Settlements);
  custody_source_index : option nat;
  custody_acquired_ingress : option (ControlFlow (Result () JoinError) (option Event));
  custody_retirement_failures : list Panic;
  custody_terminal_report : option (Result () Termination);
  custody_unread_owner_cancellation : option ()
}.

Variant ActorRetirement :=
  | Retirement_AllocationRejected (behavior : B) (reason : AllocationRejection)
  | Retirement_InitializationRejected (custody : ActorCustody) (error : BError)
  | Retirement_InitializationPanicked (custody : ActorCustody) (payload : Panic)
  | Retirement_HostCommitPanicked (custody : ActorCustody) (initialization : option Progress)
      (payload : Panic)
  | Retirement_TransitionPanicked (custody : ActorCustody) (payload : Panic)
      (interpretation : option Progress) (source : option SourceStage)
      (settlements : list Settlements)
  | Retirement_HostExecutionPanicked (custody : ActorCustody) (payload : Panic)
      (interpretation : option Progress) (source : option SourceStage)
      (settlements : list Settlements)
  | Retirement_HostRejected (custody : ActorCustody) (initialization : Progress)
      (error : ClaimError)
  | Retirement_BindingAbandoned (custody : ActorCustody) (initialization : Progress)
  | Retirement_Completed (custody : ActorCustody) (interpretation : option Progress)
      (source : option SourceStage) (settlements : list Settlements)
      (completion : Completion Empty_set)
  | Retirement_BehaviorFailed (custody : ActorCustody) (interpretation : option Progress)
      (source : option SourceStage) (settlements : list Settlements) (error : BError)
  | Retirement_EffectsFailed (custody : ActorCustody) (initialization : option Progress)
      (interpretation : option Progress) (source : option SourceStage)
      (settlements : list Settlements) (error : SettlementFailure)
  | Retirement_OwnerCancelled (custody : ActorCustody) (interpretation : option Progress)
      (source : option SourceStage) (settlements : list Settlements)
  | Retirement_CapabilityFailed (custody : ActorCustody) (interpretation : option Progress)
      (source : option SourceStage) (settlements : list Settlements) (error : JoinError)
  | Retirement_PreparedRetirementPanicked (custody : ActorCustody) (payload : Panic)
  | Retirement_PreparedInterpreterContractFailed (custody : ActorCustody)
  | Retirement_InitializationRetirementPanicked (custody : ActorCustody)
      (initialization : Progress) (payload : Panic)
  | Retirement_InitializationInterpreterContractFailed (custody : ActorCustody)
      (initialization : Progress)
  | Retirement_ActiveRetirementPanicked (custody : ActorCustody)
      (interpretation : option Progress) (source : option SourceStage)
      (settlements : list Settlements) (payload : Panic)
  | Retirement_ActiveActivationPanicked (custody : ActorCustody)
      (interpretation : option Progress) (source : option SourceStage)
      (settlements : list Settlements) (payload : Panic)
  | Retirement_ActiveInterpreterContractFailed (custody : ActorCustody)
      (interpretation : option Progress) (source : option SourceStage)
      (settlements : list Settlements)
  | Retirement_PreparedEffectsFailed (custody : ActorCustody) (error : SettlementFailure)
  | Retirement_ActorTaskFailed (error : JoinError)
  | Retirement_Panicked
  | Retirement_Cancelled.

(** [retirement_ingress]. *)
Definition retirement_ingress (ingress : option Ingress) :
    option (ControlFlow (Result () JoinError) (option Event)) :=
  (λ flow, match flow with
           | Continue event => Continue event
           | Break (Request_OwnerCancellation _) => Break (Ok ())
           | Break (Request_CapabilityFailed error) => Break (Err error)
           end) <$> ingress.

(** *** Inspection *)

Definition completion (self : ActorRetirement) : option (Completion Empty_set) :=
  match self with Retirement_Completed _ _ _ _ completion => Some completion | _ => None end.

Definition custody (self : ActorRetirement) : option ActorCustody :=
  match self with
  | Retirement_InitializationRejected c _ | Retirement_InitializationPanicked c _
  | Retirement_HostCommitPanicked c _ _ | Retirement_TransitionPanicked c _ _ _ _
  | Retirement_HostExecutionPanicked c _ _ _ _ | Retirement_HostRejected c _ _
  | Retirement_BindingAbandoned c _ | Retirement_Completed c _ _ _ _
  | Retirement_BehaviorFailed c _ _ _ _ | Retirement_EffectsFailed c _ _ _ _ _
  | Retirement_OwnerCancelled c _ _ _ | Retirement_CapabilityFailed c _ _ _ _
  | Retirement_PreparedRetirementPanicked c _ | Retirement_PreparedInterpreterContractFailed c
  | Retirement_InitializationRetirementPanicked c _ _
  | Retirement_InitializationInterpreterContractFailed c _
  | Retirement_ActiveRetirementPanicked c _ _ _ _ | Retirement_ActiveActivationPanicked c _ _ _ _
  | Retirement_ActiveInterpreterContractFailed c _ _ _ | Retirement_PreparedEffectsFailed c _ =>
      Some c
  | Retirement_AllocationRejected _ _ | Retirement_ActorTaskFailed _ | Retirement_Panicked
  | Retirement_Cancelled => None
  end.

Definition behavior (self : ActorRetirement) : option B :=
  match self with
  | Retirement_AllocationRejected b _ => Some b
  | _ => custody_behavior <$> custody self
  end.

(** *** The projection *)

(** The custody every arm builds. *)
Definition custody_of (b : B) (lanes : ResidualLanes) (additional : list failure) : ActorCustody :=
  let '(children, failures) := descendants_of (lane_descendants lanes) in
  {| custody_behavior := b; custody_control := control (lane_ingress lanes);
     custody_user := user (lane_ingress lanes); custody_descendants := children;
     custody_child_failures := failures;
     custody_capability_failures := lane_capability_failures lanes;
     custody_additional_failures := additional;
     custody_received_interpretation := lane_interpretation lanes;
     custody_received_source := lane_source lanes; custody_source_index := lane_source_index lanes;
     custody_acquired_ingress := retirement_ingress (lane_acquired_ingress lanes);
     custody_retirement_failures := lane_retirement_failures lanes;
     custody_terminal_report := lane_terminal_report lanes;
     custody_unread_owner_cancellation := lane_unread_owner_cancellation lanes |}.

(** [assert!(activation_tasks.is_empty(), ..)] before an arm builds its variant. *)
Definition joined_custody (b : B) (lanes : ResidualLanes) (additional : list failure)
    (build : ActorCustody → ActorRetirement) : option ActorRetirement :=
  if tasks_is_empty (lane_activation_tasks lanes)
  then Some (build (custody_of b lanes additional)) else panic!.

(** [from_completed]. *)
Definition from_completed (b : B) (residual : LocalResidual) (l : list failure)
    (completed : Completion Request) : option ActorRetirement :=
  match residual with
  | Residual_Retired i s rows lanes =>
      joined_custody b lanes l (λ c,
        match completed with
        | RetirementRequested (Request_OwnerCancellation _) => Retirement_OwnerCancelled c i s rows
        | RetirementRequested (Request_CapabilityFailed error) =>
            Retirement_CapabilityFailed c i s rows error
        | Stopped => Retirement_Completed c i s rows Stopped
        | Exhausted => Retirement_Completed c i s rows Exhausted
        end)
  | Residual_Prepared _ | Residual_Uncommitted _ _ => panic!
  end.

Definition from_behavior_failed (b : B) (residual : LocalResidual) (l : list failure)
    (error : BError) : option ActorRetirement :=
  match residual with
  | Residual_Prepared lanes =>
      joined_custody b lanes l (λ c, Retirement_InitializationRejected c error)
  | Residual_Retired i s rows lanes =>
      joined_custody b lanes l (λ c, Retirement_BehaviorFailed c i s rows error)
  | Residual_Uncommitted _ _ => panic!
  end.

Definition from_initialization_panicked (b : B) (residual : LocalResidual) (l : list failure)
    (payload : Panic) : option ActorRetirement :=
  match residual with
  | Residual_Prepared lanes =>
      joined_custody b lanes l (λ c, Retirement_InitializationPanicked c payload)
  | Residual_Uncommitted _ _ | Residual_Retired _ _ _ _ => panic!
  end.

Definition from_transition_panicked (b : B) (residual : LocalResidual) (l : list failure)
    (payload : Panic) : option ActorRetirement :=
  match residual with
  | Residual_Retired i s rows lanes =>
      joined_custody b lanes l (λ c, Retirement_TransitionPanicked c payload i s rows)
  | Residual_Prepared _ | Residual_Uncommitted _ _ => panic!
  end.

Definition from_host_execution_panicked (b : B) (residual : LocalResidual) (l : list failure)
    (payload : Panic) : option ActorRetirement :=
  match residual with
  | Residual_Retired i s rows lanes =>
      joined_custody b lanes l (λ c, Retirement_HostExecutionPanicked c payload i s rows)
  | Residual_Prepared _ | Residual_Uncommitted _ _ => panic!
  end.

(** Two arms shared by [ActivationPanicked] and a rejected host commit. *)
Definition from_host_commit_prepared (b : B) (lanes : ResidualLanes) (l : list failure)
    (payload : Panic) : option ActorRetirement :=
  joined_custody b lanes l (λ c, Retirement_HostCommitPanicked c None payload).
Definition from_host_commit_uncommitted (b : B) (initialization : Progress) (lanes : ResidualLanes)
    (l : list failure) (payload : Panic) : option ActorRetirement :=
  joined_custody b lanes l (λ c, Retirement_HostCommitPanicked c (Some initialization) payload).

Definition from_activation_panicked (b : B) (residual : LocalResidual) (l : list failure)
    (payload : Panic) : option ActorRetirement :=
  match residual with
  | Residual_Prepared lanes => from_host_commit_prepared b lanes l payload
  | Residual_Uncommitted initialization lanes =>
      from_host_commit_uncommitted b initialization lanes l payload
  | Residual_Retired i s rows lanes =>
      joined_custody b lanes l (λ c, Retirement_ActiveActivationPanicked c i s rows payload)
  end.

Definition from_activation_failed (b : B) (residual : LocalResidual) (l : list failure)
    (error : LocalActivationRejection) : option ActorRetirement :=
  match residual, error with
  | Residual_Prepared lanes, Rejection_HostCommitPanicked payload =>
      from_host_commit_prepared b lanes l payload
  | Residual_Uncommitted initialization lanes, Rejection_HostCommitPanicked payload =>
      from_host_commit_uncommitted b initialization lanes l payload
  | Residual_Uncommitted initialization lanes, Rejection_Address error =>
      joined_custody b lanes l (λ c, Retirement_HostRejected c initialization error)
  | Residual_Uncommitted initialization lanes, Rejection_BindingAbandoned =>
      joined_custody b lanes l (λ c, Retirement_BindingAbandoned c initialization)
  | _, _ => panic!
  end.

Definition from_settlement_failed (b : B) (residual : LocalResidual) (l : list failure)
    (error : SettlementFailure) : option ActorRetirement :=
  match residual with
  | Residual_Retired i s rows lanes =>
      joined_custody b lanes l (λ c, Retirement_EffectsFailed c None i s rows error)
  | Residual_Uncommitted initialization lanes =>
      joined_custody b lanes l
        (λ c, Retirement_EffectsFailed c (Some initialization) None None [] error)
  | Residual_Prepared lanes =>
      joined_custody b lanes l (λ c, Retirement_PreparedEffectsFailed c error)
  end.

Definition from_contract_failed (b : B) (residual : LocalResidual) (l : list failure) :
    option ActorRetirement :=
  match residual with
  | Residual_Prepared lanes =>
      joined_custody b lanes l Retirement_PreparedInterpreterContractFailed
  | Residual_Uncommitted initialization lanes =>
      joined_custody b lanes l
        (λ c, Retirement_InitializationInterpreterContractFailed c initialization)
  | Residual_Retired i s rows lanes =>
      joined_custody b lanes l (λ c, Retirement_ActiveInterpreterContractFailed c i s rows)
  end.

Definition from_retirement_panicked (b : B) (residual : LocalResidual) (l : list failure)
    (payload : Panic) : option ActorRetirement :=
  match residual with
  | Residual_Prepared lanes =>
      joined_custody b lanes l (λ c, Retirement_PreparedRetirementPanicked c payload)
  | Residual_Uncommitted initialization lanes =>
      joined_custody b lanes l
        (λ c, Retirement_InitializationRetirementPanicked c initialization payload)
  | Residual_Retired i s rows lanes =>
      joined_custody b lanes l (λ c, Retirement_ActiveRetirementPanicked c i s rows payload)
  end.

(** [ActorRetirement::from_local]. *)
Definition from_local (o : outcome) : option ActorRetirement :=
  match o with
  | Exec_Completed b residual l completed => from_completed b residual l completed
  | Exec_BehaviorFailed b residual l error => from_behavior_failed b residual l error
  | Exec_InitializationPanicked b residual l payload => from_initialization_panicked b residual l payload
  | Exec_TransitionPanicked b residual l payload => from_transition_panicked b residual l payload
  | Exec_HostExecutionPanicked b residual l payload => from_host_execution_panicked b residual l payload
  | Exec_ActivationPanicked b residual l payload => from_activation_panicked b residual l payload
  | Exec_RetirementPanicked b residual l payload => from_retirement_panicked b residual l payload
  | Exec_InterpreterContractFailed b residual l => from_contract_failed b residual l
  | Exec_ActivationFailed b residual l error => from_activation_failed b residual l error
  | Exec_SettlementFailed b residual l error => from_settlement_failed b residual l error
  | Exec_Panicked => Some Retirement_Panicked
  | Exec_Cancelled => Some Retirement_Cancelled
  end.

(** *** Before publication *)

(** The fields that four variants of [SpawnError] repeat. *)
Record SpawnCustody := {
  spawn_behavior : B;
  spawn_control : list Event;
  spawn_user : list Retired;
  spawn_descendants : Descendants;
  spawn_capability_failures : list JoinError;
  spawn_additional_failures : list failure;
  spawn_terminal_report : option (Result () Termination);
  spawn_retirement_failures : list Panic;
  spawn_received_interpretation : option (Interpretation Settlements);
  spawn_received_source : option (SourceCustody Settlements);
  spawn_source_index : option nat;
  spawn_acquired_ingress : option Ingress;
  spawn_unread_owner_cancellation : option ()
}.

(** The two receipts that every started variant carries. *)
Record SpawnReceipts := {
  spawn_termination_notification : Result () RetirementNotificationError;
  spawn_retirement_report : ActorRetirementReport
}.

Variant SpawnError :=
  | Spawn_AllocationRejected (behavior : B) (reason : AllocationRejection)
  | Spawn_InitializationRejected (custody : SpawnCustody) (error : BError) (receipts : SpawnReceipts)
  | Spawn_InitializationPanicked (custody : SpawnCustody) (payload : Panic)
      (receipts : SpawnReceipts)
  | Spawn_HostRejected (custody : SpawnCustody) (initialization : Progress) (error : ClaimError)
      (receipts : SpawnReceipts)
  | Spawn_BindingAbandoned (custody : SpawnCustody) (initialization : Progress)
      (receipts : SpawnReceipts)
  | Spawn_Unpublished (unpublished : outcome) (receipts : SpawnReceipts)
  | Spawn_ActorTaskFailed (error : JoinError) (receipts : SpawnReceipts)
  | Spawn_Panicked (receipts : SpawnReceipts)
  | Spawn_Cancelled (receipts : SpawnReceipts).

(** [Error::source]. *)
Definition spawn_source (self : SpawnError) : option JoinError :=
  match self with Spawn_ActorTaskFailed error _ => Some error | _ => None end.

Definition spawn_custody (b : B) (lanes : ResidualLanes) (additional : list failure) : SpawnCustody :=
  {| spawn_behavior := b; spawn_control := control (lane_ingress lanes);
     spawn_user := user (lane_ingress lanes); spawn_descendants := lane_descendants lanes;
     spawn_capability_failures := lane_capability_failures lanes;
     spawn_additional_failures := additional; spawn_terminal_report := lane_terminal_report lanes;
     spawn_retirement_failures := lane_retirement_failures lanes;
     spawn_received_interpretation := lane_interpretation lanes;
     spawn_received_source := lane_source lanes; spawn_source_index := lane_source_index lanes;
     spawn_acquired_ingress := lane_acquired_ingress lanes;
     spawn_unread_owner_cancellation := lane_unread_owner_cancellation lanes |}.

(** The tasks of the three outcomes with a variant of their own. *)
Definition startup_tasks (o : outcome) : option Tasks :=
  match o with
  | Exec_BehaviorFailed _ (Residual_Prepared lanes) _ _
  | Exec_InitializationPanicked _ (Residual_Prepared lanes) _ _
  | Exec_ActivationFailed _ (Residual_Uncommitted _ lanes) _ _ => Some (lane_activation_tasks lanes)
  | _ => None
  end.

(** [SpawnError::from_local]. *)
Definition spawn_from_local (o : outcome) (receipts : SpawnReceipts) : SpawnError :=
  if match startup_tasks o with Some tasks => negb (tasks_is_empty tasks) | None => false end
  then Spawn_Unpublished o receipts
  else
    match o with
    | Exec_BehaviorFailed b (Residual_Prepared lanes) l error =>
        Spawn_InitializationRejected (spawn_custody b lanes l) error receipts
    | Exec_InitializationPanicked b (Residual_Prepared lanes) l payload =>
        Spawn_InitializationPanicked (spawn_custody b lanes l) payload receipts
    | Exec_ActivationFailed b (Residual_Uncommitted initialization lanes) l (Rejection_Address error) =>
        Spawn_HostRejected (spawn_custody b lanes l) initialization error receipts
    | Exec_ActivationFailed b (Residual_Uncommitted initialization lanes) l Rejection_BindingAbandoned =>
        Spawn_BindingAbandoned (spawn_custody b lanes l) initialization receipts
    | Exec_Panicked => Spawn_Panicked receipts
    | Exec_Cancelled => Spawn_Cancelled receipts
    | o => Spawn_Unpublished o receipts
    end.

Definition retired_custody (c : SpawnCustody) : ActorCustody :=
  let '(children, failures) := descendants_of (spawn_descendants c) in
  {| custody_behavior := spawn_behavior c; custody_control := spawn_control c;
     custody_user := spawn_user c; custody_descendants := children;
     custody_child_failures := failures;
     custody_capability_failures := spawn_capability_failures c;
     custody_additional_failures := spawn_additional_failures c;
     custody_received_interpretation := spawn_received_interpretation c;
     custody_received_source := spawn_received_source c;
     custody_source_index := spawn_source_index c;
     custody_acquired_ingress := retirement_ingress (spawn_acquired_ingress c);
     custody_retirement_failures := spawn_retirement_failures c;
     custody_terminal_report := spawn_terminal_report c;
     custody_unread_owner_cancellation := spawn_unread_owner_cancellation c |}.

(** [SpawnError::into_retirement]. *)
Definition into_retirement (self : SpawnError) :
    option (Result (ActorRetirement * SpawnReceipts) (B * AllocationRejection)) :=
  match self with
  | Spawn_AllocationRejected b reason => Some (Err (b, reason))
  | Spawn_InitializationRejected c error receipts =>
      Some (Ok (Retirement_InitializationRejected (retired_custody c) error, receipts))
  | Spawn_InitializationPanicked c payload receipts =>
      Some (Ok (Retirement_InitializationPanicked (retired_custody c) payload, receipts))
  | Spawn_HostRejected c initialization error receipts =>
      Some (Ok (Retirement_HostRejected (retired_custody c) initialization error, receipts))
  | Spawn_BindingAbandoned c initialization receipts =>
      Some (Ok (Retirement_BindingAbandoned (retired_custody c) initialization, receipts))
  | Spawn_Unpublished o receipts =>
      retirement ← from_local o; Some (Ok (retirement, receipts))
  | Spawn_ActorTaskFailed error receipts => Some (Ok (Retirement_ActorTaskFailed error, receipts))
  | Spawn_Panicked receipts => Some (Ok (Retirement_Panicked, receipts))
  | Spawn_Cancelled receipts => Some (Ok (Retirement_Cancelled, receipts))
  end.

(** ** What the projections keep *)

(** The disposition a retirement stands for. *)
Definition disposition_of (self : ActorRetirement) : option (Result (Completion Request) failure) :=
  match self with
  | Retirement_Completed _ _ _ _ Stopped => Some (Ok Stopped)
  | Retirement_Completed _ _ _ _ Exhausted => Some (Ok Exhausted)
  | Retirement_Completed _ _ _ _ (RetirementRequested never) => match never with end
  | Retirement_OwnerCancelled _ _ _ _ =>
      Some (Ok (RetirementRequested (Request_OwnerCancellation OwnerCancelled)))
  | Retirement_CapabilityFailed _ _ _ _ error =>
      Some (Ok (RetirementRequested (Request_CapabilityFailed error)))
  | Retirement_InitializationRejected _ error | Retirement_BehaviorFailed _ _ _ _ error =>
      Some (Err (Error_Behavior error))
  | Retirement_InitializationPanicked _ payload => Some (Err (Error_InitializationPanicked payload))
  | Retirement_TransitionPanicked _ payload _ _ _ => Some (Err (Error_TransitionPanicked payload))
  | Retirement_HostExecutionPanicked _ payload _ _ _ =>
      Some (Err (Error_HostExecutionPanicked payload))
  | Retirement_HostCommitPanicked _ _ payload | Retirement_ActiveActivationPanicked _ _ _ _ payload =>
      Some (Err (Error_ActivationPanicked payload))
  | Retirement_HostRejected _ _ error => Some (Err (Error_Activation (Rejection_Address error)))
  | Retirement_BindingAbandoned _ _ => Some (Err (Error_Activation Rejection_BindingAbandoned))
  | Retirement_EffectsFailed _ _ _ _ _ error | Retirement_PreparedEffectsFailed _ error =>
      Some (Err (Error_Settlement error))
  | Retirement_PreparedRetirementPanicked _ payload
  | Retirement_InitializationRetirementPanicked _ _ payload
  | Retirement_ActiveRetirementPanicked _ _ _ _ payload => Some (Err (Error_RetirementPanicked payload))
  | Retirement_PreparedInterpreterContractFailed _
  | Retirement_InitializationInterpreterContractFailed _ _
  | Retirement_ActiveInterpreterContractFailed _ _ _ _ => Some (Err Error_InterpreterContractFailed)
  | Retirement_AllocationRejected _ _ | Retirement_ActorTaskFailed _ | Retirement_Panicked
  | Retirement_Cancelled => None
  end.

(** A commitment that unwound is an activation that panicked. *)
Definition as_projected (d : Result (Completion Request) failure) :
    Result (Completion Request) failure :=
  match d with
  | Err (Error_Activation (Rejection_HostCommitPanicked payload)) =>
      Err (Error_ActivationPanicked payload)
  | d => d
  end.

(** The work in progress: initialization, interpretation, source and settlements. *)
Definition work_of (self : ActorRetirement) :
    option Progress * option Progress * option SourceStage * list Settlements :=
  match self with
  | Retirement_HostCommitPanicked _ initialization _ => (initialization, None, None, [])
  | Retirement_HostRejected _ initialization _ | Retirement_BindingAbandoned _ initialization
  | Retirement_InitializationRetirementPanicked _ initialization _
  | Retirement_InitializationInterpreterContractFailed _ initialization =>
      (Some initialization, None, None, [])
  | Retirement_TransitionPanicked _ _ i s rows | Retirement_HostExecutionPanicked _ _ i s rows
  | Retirement_Completed _ i s rows _ | Retirement_BehaviorFailed _ i s rows _
  | Retirement_OwnerCancelled _ i s rows | Retirement_CapabilityFailed _ i s rows _
  | Retirement_ActiveRetirementPanicked _ i s rows _ | Retirement_ActiveActivationPanicked _ i s rows _
  | Retirement_ActiveInterpreterContractFailed _ i s rows => (None, i, s, rows)
  | Retirement_EffectsFailed _ initialization i s rows _ => (initialization, i, s, rows)
  | _ => (None, None, None, [])
  end.

Definition residual_work (residual : LocalResidual) :
    option Progress * option Progress * option SourceStage * list Settlements :=
  match residual with
  | Residual_Prepared _ => (None, None, None, [])
  | Residual_Uncommitted initialization _ => (Some initialization, None, None, [])
  | Residual_Retired i s rows _ => (None, i, s, rows)
  end.

Lemma joined_custody_Some b lanes l build r :
  joined_custody b lanes l build = Some r →
  tasks_is_empty (lane_activation_tasks lanes) = true ∧ r = build (custody_of b lanes l).
Proof. unfold joined_custody. destruct (tasks_is_empty _); [|done]. by intros [= <-]. Qed.

Lemma joined_custody_done b lanes l build :
  tasks_is_empty (lane_activation_tasks lanes) = true →
  joined_custody b lanes l build = Some (build (custody_of b lanes l)).
Proof. unfold joined_custody. by intros ->. Qed.

Lemma retired_spawn_custody b lanes l : retired_custody (spawn_custody b lanes l) = custody_of b lanes l.
Proof. reflexivity. Qed.

(** Every residual that [from_local] takes. *)
Definition fitting (o : outcome) : Prop :=
  match o with
  | Exec_Completed _ r _ _ | Exec_TransitionPanicked _ r _ _ | Exec_HostExecutionPanicked _ r _ _ =>
      ∃ i s rows lanes, r = Residual_Retired i s rows lanes
  | Exec_BehaviorFailed _ r _ _ =>
      (∃ i s rows lanes, r = Residual_Retired i s rows lanes) ∨ ∃ lanes, r = Residual_Prepared lanes
  | Exec_InitializationPanicked _ r _ _ => ∃ lanes, r = Residual_Prepared lanes
  | Exec_ActivationFailed _ r _ _ => ∃ initialization lanes, r = Residual_Uncommitted initialization lanes
  | _ => True
  end.

Definition tasks_joined (o : outcome) : Prop :=
  ∀ r, outcome_residual o = Some r →
    tasks_is_empty (lane_activation_tasks (residual_lanes r)) = true.

Lemma from_local_total o : fitting o → tasks_joined o → is_Some (from_local o).
Proof.
  intros Hf Ht.
  assert (∀ b r l build, outcome_residual o = Some r →
    joined_custody b (residual_lanes r) l build = Some (build (custody_of b (residual_lanes r) l))) as Hj.
  { intros b r l build Hr. by apply joined_custody_done, Ht. }
  destruct o as [b r l c|b r l e|b r l p|b r l p|b r l p|b r l p|b r l p|b r l|b r l e|b r l e| |];
    cbn [from_local fitting outcome_residual] in *; try by eexists.
  - destruct Hf as (i & s & rows & lanes & ->). eexists. by apply (Hj _ (Residual_Retired i s rows lanes)).
  - destruct Hf as [(i & s & rows & lanes & ->)|[lanes ->]]; eexists;
      [by apply (Hj _ (Residual_Retired i s rows lanes))|by apply (Hj _ (Residual_Prepared lanes))].
  - destruct Hf as [lanes ->]. eexists. by apply (Hj _ (Residual_Prepared lanes)).
  - destruct Hf as (i & s & rows & lanes & ->). eexists. by apply (Hj _ (Residual_Retired i s rows lanes)).
  - destruct Hf as (i & s & rows & lanes & ->). eexists. by apply (Hj _ (Residual_Retired i s rows lanes)).
  - destruct r as [lanes|i lanes|i s rows lanes]; eexists; by apply (Hj _ _ _ _ eq_refl).
  - destruct r as [lanes|i lanes|i s rows lanes]; eexists; by apply (Hj _ _ _ _ eq_refl).
  - destruct r as [lanes|i lanes|i s rows lanes]; eexists; by apply (Hj _ _ _ _ eq_refl).
  - destruct Hf as (i & lanes & ->).
    destruct e; eexists; by apply (Hj _ (Residual_Uncommitted i lanes)).
  - destruct r as [lanes|i lanes|i s rows lanes]; eexists; by apply (Hj _ _ _ _ eq_refl).
Qed.

(** The projection of an outcome loses nothing: the native retirement stands
    for the driver's disposition, its custody holds the behavior, every lane of
    the residual and every additional failure, and the work in progress is the
    residual's. *)
Lemma projection_retains retirement r :
  from_local (outcome_from retirement) = Some r →
  disposition_of r = Some (as_projected (retired_disposition retirement)) ∧
  custody r = Some (custody_of (retired_behavior retirement)
                      (residual_lanes (retired_residual retirement))
                      (Driver.retired_failures retirement)) ∧
  work_of r = residual_work (retired_residual retirement).
Proof.
  destruct retirement as [b residual d l].
  cbn [retired_behavior retired_residual retired_disposition Driver.retired_failures].
  destruct d as [[| |[[]|]]|[| | | | | | |[]|]]; cbn [outcome_from from_local retired_disposition];
    destruct residual; cbn; try done; by intros [_ ->]%joined_custody_Some.
Qed.

(** A startup failure and the actor's outcome project to the same native
    retirement, with the receipts it carries; it panics exactly when the
    projection of the outcome does. *)
Lemma startup_projection_agrees o receipts :
  into_retirement (spawn_from_local o receipts) = (λ r, Ok (r, receipts)) <$> from_local o.
Proof.
  unfold spawn_from_local.
  assert (into_retirement (Spawn_Unpublished o receipts) = (λ r, Ok (r, receipts)) <$> from_local o)
    as Hun by (cbn; by destruct (from_local o)).
  destruct o as [| b [lanes|i lanes|i s rows lanes] l e| b [lanes|i lanes|i s rows lanes] l p| | | | | |
    b [lanes|i lanes|i s rows lanes] l e| | |]; cbn [startup_tasks]; try exact Hun; try done;
    (destruct (tasks_is_empty (lane_activation_tasks lanes)) eqn:Ht; cbn [negb]; [|exact Hun]).
  - cbn. by rewrite (joined_custody_done _ _ _ _ Ht).
  - cbn. by rewrite (joined_custody_done _ _ _ _ Ht).
  - destruct e; cbn; unfold from_host_commit_uncommitted; by rewrite (joined_custody_done _ _ _ _ Ht).
Qed.
End projection.
