(* ===== verification/ActorOwner.v ===== *)
(** * The owner of a task

    [OwnedTask], [ProjectedTask] and [OwnerCancellationAuthority] of
    [crates/bombay/src/launch.rs]: the owner of an actor's task acquires its
    result and the receipt of its notification in slots outside the futures that
    wait for them, and asks the actor to retire when it goes away.

    The definitions are over any join handle and receipt; the protocol runs them
    on the documented behaviour of tokio's [JoinHandle] and oneshot receiver,
    which panic when they are polled after they completed. *)

From S2P Require Import Prelude Driver Host LocalIngress LocalEnvironment ActorOutcome.

(** ** The operations *)

Section owner.
Context {P W Handle Receiver Sender O N : Type}.
(** A poll of the join, a poll of the receipt, with what is kept of it, and the
    sender of the cancellation. *)
Context (poll_join : Handle → Async P W (option O)) (poll_notice : Receiver → Async P W (option N)).
Context (cancel_send cancel_drop : Sender → W → W) (join_drop : Handle → W → W) (wait : W → W).
Implicit Types w : W.

(** [OwnerCancellationAuthority::request], also its [Drop]; [disarm]. *)
Definition authority_request w (authority : option Sender) : W * option Sender :=
  match authority with Some sender => (cancel_send sender w, None) | None => (w, None) end.
Definition authority_disarm w (authority : option Sender) : W * option Sender :=
  match authority with Some sender => (cancel_drop sender w, None) | None => (w, None) end.

(** [OwnerCancellationAuthority::finish], polled [polls] times: [None] when it is
    dropped first, which requests the cancellation. *)
Fixpoint authority_finish (polls : nat) (authority : option Sender) (task : Handle) w :
    W * Outcome P (option O) :=
  match polls with
  | 0 => (join_drop task (authority_request w authority).1, Pending)
  | S polls =>
      let '(w, o) := poll_join task w in
      match o with
      | Ready (Some joined) => ((authority_disarm w authority).1, Ready (Some joined))
      | Ready None => authority_finish polls authority task (wait w)
      | Pending => (w, Pending)
      | Panicked payload => ((authority_request w authority).1, Panicked payload)
      | Violated => ((authority_request w authority).1, Violated)
      end
  end.

(** [OwnedTask], and [ProjectedTask]. *)
Record OwnedTask := {
  owned_task : option Handle;
  owned_notification : Receiver;
  owned_cancellation : option Sender
}.

Record OwnerSlots := {
  slot_owned : option OwnedTask;
  slot_received : option O;
  slot_notification : option N
}.

Definition request_retirement (t : OwnedTask) w : W * OwnedTask :=
  let '(w, cancellation) := authority_request w (owned_cancellation t) in
  (w, {| owned_task := owned_task t; owned_notification := owned_notification t;
         owned_cancellation := cancellation |}).

(** Dropping an owner detaches its task and drops its authority. *)
Definition drop_owned (t : OwnedTask) w : W :=
  let w := match owned_task t with Some task => join_drop task w | None => w end in
  (authority_request w (owned_cancellation t)).1.

(** An operation on the host alone. *)
Definition aside {S A} (m : Async P W A) : Async P (W * S) A :=
  λ '(w, s), let '(w, o) := m w in ((w, s), o).

Local Abbreviation owning := (Async P (W * OwnerSlots)) (only parsing).

(** The join is outside before its handle is dropped and the authority disarmed. *)
Definition take_joined (t : OwnedTask) (task : Handle) (joined : O) : owning () := λ '(w, s),
  let w := join_drop task w in
  let '(w, cancellation) := authority_disarm w (owned_cancellation t) in
  ((w, {| slot_owned := Some {| owned_task := None; owned_notification := owned_notification t;
                                owned_cancellation := cancellation |};
          slot_received := Some joined; slot_notification := slot_notification s |}), Ready ()).

(** [drop(owned.take())]. *)
Definition drop_owner : owning () := λ '(w, s),
  (match slot_owned s with Some t => drop_owned t w | None => w end,
   {| slot_owned := None; slot_received := slot_received s;
      slot_notification := slot_notification s |}, Ready ()).

(** The join, in the closure that both owners poll: [None] when it goes on to
    the receipt; otherwise whether the closure is ready. *)
Definition poll_task (t : OwnedTask) : owning (option bool) :=
  match owned_task t with
  | None => mret None
  | Some task =>
      s ← look (λ s, s);
      if is_some (slot_received s) || is_some (slot_notification s) then mret (Some true)
      else
        joined ← aside (poll_join task);
        match joined with
        | None => mret (Some false)
        | Some joined => take_joined t task joined;; mret None
        end
  end.

(** The receipt, once the join is outside. *)
Definition poll_receipt (t : OwnedTask) : owning bool :=
  known ← look slot_notification;
  received ← match known with
             | Some notification => mret (Some notification)
             | None => aside (poll_notice (owned_notification t))
             end;
  match received with
  | None => mret false
  | Some notification =>
      change (λ s, {| slot_owned := slot_owned s; slot_received := slot_received s;
                      slot_notification := Some notification |});;
      drop_owner;; mret true
  end.

(** The closure of [poll_fn] in [receive_finish]: whether it is ready. *)
Definition poll_owner : owning bool :=
  owned ← look slot_owned;
  match owned with
  | None => mret true
  | Some t =>
      ended ← poll_task t;
      match ended with Some ready => mret ready | None => poll_receipt t end
  end.

(** [poll_fn(..).await], polled [polls] times before it is dropped. *)
Fixpoint poll_finish (polls : nat) : owning () :=
  match polls with
  | 0 => stay_pending
  | S polls =>
      ready ← poll_owner;
      match ready with
      | true => mret ()
      | false => perform (λ w, (wait w, ()));; poll_finish polls
      end
  end.

Definition settled (s : OwnerSlots) : bool :=
  is_some (slot_received s) && is_some (slot_notification s).

Definition receive_finish (polls : nat) : owning () :=
  done ← look settled;
  match done with true => mret () | false => poll_finish polls end.

(** The request of [receive_retirement]; [false] when it returns before. *)
Definition begin_retirement : owning bool := λ '(w, s),
  match slot_owned s with
  | Some t =>
      if is_some (owned_task t) then
        if is_some (slot_received s) || is_some (slot_notification s) then ((w, s), Ready false)
        else
          let '(w, t) := request_retirement t w in
          ((w, {| slot_owned := Some t; slot_received := slot_received s;
                  slot_notification := slot_notification s |}), Ready true)
      else ((w, s), Ready true)
  | None => ((w, s), Ready true)
  end.

(** [OwnedTask::receive_retirement]. *)
Definition owner_receive_retirement (polls : nat) : owning () :=
  goes_on ← begin_retirement;
  match goes_on with true => receive_finish polls | false => mret () end.

(** [ProjectedTask::receive_retirement]. *)
Definition projected_receive_retirement (polls : nat) : owning () :=
  done ← look settled;
  match done with
  | true => mret ()
  | false =>
      goes_on ← begin_retirement;
      match goes_on with true => poll_finish polls | false => mret () end
  end.

(** [OwnedTask::retire]: the two results, which the code expects; when it is
    dropped or unwinds, what it still owns is dropped. *)
Definition retire_owned (polls : nat) (t : OwnedTask) : Async P W (O * N) := λ w,
  let '((w, s), o) :=
    owner_receive_retirement polls
      (w, {| slot_owned := Some t; slot_received := None; slot_notification := None |}) in
  let dropped := match slot_owned s with Some t => drop_owned t w | None => w end in
  match o with
  | Ready _ =>
      match slot_received s, slot_notification s with
      | Some joined, Some notification => (w, Ready (joined, notification))
      | _, _ => (dropped, Violated)
      end
  | Pending => (dropped, Pending)
  | Panicked payload => (dropped, Panicked payload)
  | Violated => (dropped, Violated)
  end.

(** *** The slots *)

(** The join is outside exactly when its handle is gone; the receipt is taken
    last, with the owner. *)
Definition slots_ok (s : OwnerSlots) : Prop :=
  match slot_owned s with
  | None => is_Some (slot_received s) ∧ is_Some (slot_notification s)
  | Some t => slot_notification s = None ∧ (owned_task t = None ↔ is_Some (slot_received s))
  end.

(** Nothing that was received is replaced. *)
Definition slots_kept (s s' : OwnerSlots) : Prop :=
  (∀ o, slot_received s = Some o → slot_received s' = Some o) ∧
  (∀ n, slot_notification s = Some n → slot_notification s' = Some n).

#[export] Instance slots_kept_preorder : PreOrder slots_kept.
Proof.
  split; [by intros s|]. intros s1 s2 s3 [H1 H2] [H3 H4]. split; naive_solver.
Qed.

(** What every operation leaves, whatever its outcome. *)
Definition slots_after (s : OwnerSlots) {A} (ready : A → OwnerSlots → Prop) (st : W * OwnerSlots)
    (o : Outcome P A) : Prop :=
  slots_ok st.2 ∧ slots_kept s st.2 ∧ match o with Ready x => ready x st.2 | _ => True end.

Lemma wp_aside {S A} (m : Async P W A) (Q : W * S → Outcome P A → Prop) w (x : S) :
  (∀ w' o, m w = (w', o) → Q (w', x) o) → wp (aside m) Q (w, x).
Proof. unfold wp, aside. destruct (m w) as [w' o] eqn:Hm. intros H. by apply H. Qed.

Lemma poll_receipt_slots t t' w s :
  slot_owned s = Some t' → owned_task t' = None → slots_ok s →
  wp (poll_receipt t) (slots_after s (λ ready s', ready = true → slot_owned s' = None)) (w, s).
Proof.
  destruct s as [owned received notification]. cbn. intros -> Ht [Hn Hr]. cbn in Hn, Hr. subst notification.
  apply Hr in Ht as Hx. unfold wp, poll_receipt. rewrite bind_eq. cbn. rewrite bind_eq. unfold aside.
  destruct (poll_notice (owned_notification t) w) as [w' [[n|]| |payload|]]; cbn;
    (split; [|split; [split; cbn; naive_solver|done]]); by cbn.
Qed.

Lemma poll_owner_slots w s :
  slots_ok s → wp poll_owner (slots_after s (λ ready s', ready = true → slot_owned s' = None)) (w, s).
Proof.
  intros Hok. unfold poll_owner. wp_step. wp_step. destruct (slot_owned s) as [t|] eqn:Hs.
  2: { wp_step. split; [done|]. by split. }
  wp_step. unfold poll_task. destruct (owned_task t) as [task|] eqn:Ht.
  2: { wp_step. by eapply poll_receipt_slots. }
  pose proof Hok as Hok'. unfold slots_ok in Hok'. rewrite Hs, Ht in Hok'. destruct Hok' as [Hn Hr].
  destruct (slot_received s) as [x|] eqn:Hx; [discriminate (proj2 Hr (mk_is_Some _ _ eq_refl))|].
  wp_step. wp_step. rewrite Hx, Hn. cbn [is_some orb]. wp_step. apply wp_aside.
  intros w' [[joined|]| |payload|] _; cbn [fst snd wp_then]; try by split.
  wp_step. unfold wp at 1, take_joined. destruct (authority_disarm _ _) as [w1 c]. cbn [fst snd wp_then].
  wp_step. eapply wp_mono; [by eapply poll_receipt_slots; [| |split; cbn]; eauto|].
  intros [w2 s2] o (Hok2 & [Hk1 Hk2] & Ho). split; [done|]. split; [|done].
  split; [congruence|]. intros n. by rewrite Hn.
Qed.

Lemma poll_finish_slots polls w s :
  slots_ok s → wp (poll_finish polls) (slots_after s (λ _ s', slot_owned s' = None)) (w, s).
Proof.
  revert w s. induction polls as [|polls IH]; intros w s Hok; cbn [poll_finish]; [by split|].
  wp_step. eapply wp_mono; [by apply poll_owner_slots|].
  intros [w1 s1] [ready| |payload|] (Hok1 & Hk & Ho); cbn [wp_then fst snd] in *; try by split.
  destruct ready; [wp_step; by split; [|split; [|apply Ho]]|].
  wp_step. wp_step. eapply wp_mono; [by apply IH|].
  intros [w2 s2] o (Hok2 & Hk2 & Ho2). by split; [|split; [etransitivity|]].
Qed.

Lemma begin_retirement_slots w s :
  slots_ok s → wp begin_retirement (slots_after s (λ goes_on _, goes_on = true)) (w, s).
Proof.
  intros Hok. unfold wp, begin_retirement. destruct (slot_owned s) as [t|] eqn:Hs; [|by split].
  pose proof Hok as Hok'. unfold slots_ok in Hok'. rewrite Hs in Hok'. destruct Hok' as [Hn Hr].
  destruct (owned_task t) as [task|] eqn:Ht; cbn [is_some]; [|by split].
  destruct (slot_received s) as [x|] eqn:Hx; [discriminate (proj2 Hr (mk_is_Some _ _ eq_refl))|].
  rewrite Hn. cbn [orb is_some]. unfold request_retirement. destruct (authority_request w _) as [w1 c].
  split; [|split; [split; cbn; [by rewrite Hx|by rewrite Hn]|done]].
  split; cbn; [done|]. by rewrite Ht.
Qed.

(** A retirement that returns has everything; one that does not lost nothing. *)
Lemma settled_owned s : slots_ok s → settled s = true → slot_owned s = None.
Proof.
  unfold slots_ok, settled. destruct (slot_owned s) as [t|]; [|done].
  intros [-> _]. by rewrite andb_false_r.
Qed.

Lemma owner_retirement_slots polls w s :
  slots_ok s → wp (owner_receive_retirement polls) (slots_after s (λ _ s', slot_owned s' = None)) (w, s).
Proof.
  intros Hok. unfold owner_receive_retirement. wp_step. eapply wp_mono; [by apply begin_retirement_slots|].
  intros [w1 s1] [go| |payload|] (Hok1 & Hk & Ho); cbn [wp_then fst snd] in *; try by split.
  subst go. unfold receive_finish. wp_step. wp_step. destruct (settled s1) eqn:Hd.
  { wp_step. split; [done|]. split; [done|]. by apply settled_owned. }
  eapply wp_mono; [by apply poll_finish_slots|].
  intros [w2 s2] o (Hok2 & Hk2 & Ho2). by split; [|split; [etransitivity|]].
Qed.

Lemma projected_retirement_slots polls w s :
  slots_ok s →
  wp (projected_receive_retirement polls) (slots_after s (λ _ s', slot_owned s' = None)) (w, s).
Proof.
  intros Hok. unfold projected_receive_retirement. wp_step. wp_step. destruct (settled s) eqn:Hd.
  { wp_step. split; [done|]. split; [done|]. by apply settled_owned. }
  wp_step. eapply wp_mono; [by apply begin_retirement_slots|].
  intros [w1 s1] [go| |payload|] (Hok1 & Hk & Ho); cbn [wp_then fst snd] in *; try by split.
  subst go. eapply wp_mono; [by apply poll_finish_slots|].
  intros [w2 s2] o (Hok2 & Hk2 & Ho2). by split; [|split; [etransitivity|]].
Qed.

(** *** A receipt that is not awaited *)

(** No owner is left with a result and without its receipt. *)
Definition unawaited (s : OwnerSlots) : Prop := is_Some (slot_received s) → slot_owned s = None.

(** Awaiting a receipt does not unwind. *)
Definition calm_notice : Prop := ∀ receiver w payload, (poll_notice receiver w).2 ≠ Panicked payload.

(** A retirement that unwinds did so before it had the result. *)
Definition unwinds_unawaited {A} (st : W * OwnerSlots) (o : Outcome P A) : Prop :=
  ∀ payload, o = Panicked payload → unawaited st.2.

Lemma poll_receipt_calm t w s : calm_notice → wp (poll_receipt t) unwinds_unawaited (w, s).
Proof.
  intros Hc. unfold poll_receipt. wp_step. wp_step. destruct (slot_notification s); [by repeat wp_step|].
  wp_step. apply wp_aside. intros w1 o Ho. pose proof (Hc (owned_notification t) w) as Hn. rewrite Ho in Hn.
  destruct o as [[n|]| |payload|]; cbn [wp_then]; [..|by destruct (Hn payload)|done];
    unfold wp, unwinds_unawaited; cbn; repeat (rewrite bind_eq; cbn); done.
Qed.

Lemma poll_owner_calm w s : calm_notice → slots_ok s → wp poll_owner unwinds_unawaited (w, s).
Proof.
  intros Hc Hok. unfold poll_owner. wp_step. wp_step. destruct (slot_owned s) as [t|] eqn:Hs; [|by wp_step].
  wp_step. unfold poll_task. destruct (owned_task t) as [task|] eqn:Ht.
  2: { wp_step. by apply poll_receipt_calm. }
  assert (unawaited s) as Hu.
  { unfold slots_ok in Hok. rewrite Hs in Hok. destruct Hok as [_ Hr]. intros Hrec%Hr. congruence. }
  wp_step. wp_step. destruct (_ || _); [by wp_step; wp_step|]. wp_step. apply wp_aside.
  intros w1 [[joined|]| |payload|] _; cbn [wp_then]; [|by wp_step; wp_step|done|by intros ? _|done].
  wp_step. unfold wp at 1, take_joined. destruct (authority_disarm _ _) as [w2 c]. cbn [fst snd wp_then].
  wp_step. by apply poll_receipt_calm.
Qed.

Lemma poll_finish_calm polls w s : calm_notice → slots_ok s → wp (poll_finish polls) unwinds_unawaited (w, s).
Proof.
  intros Hc. revert w s. induction polls as [|polls IH]; intros w s Hok; cbn [poll_finish]; [done|].
  wp_step. pose proof (poll_owner_slots w s Hok) as Hs. pose proof (poll_owner_calm w s Hc Hok) as Hu.
  unfold wp in Hs, Hu |- * at 1. destruct (poll_owner (w, s)) as [[w1 s1] o]. destruct Hs as (Hok1 & _).
  cbn [fst snd] in *. destruct o as [[]| |payload|]; cbn [wp_then]; try done.
  - wp_step. wp_step. by apply IH.
  - intros ? [= <-]. by apply (Hu payload).
Qed.

Lemma projected_retirement_calm polls w s :
  calm_notice → slots_ok s → wp (projected_receive_retirement polls) unwinds_unawaited (w, s).
Proof.
  intros Hc Hok. unfold projected_receive_retirement. wp_step. wp_step.
  destruct (settled s); [by wp_step|]. wp_step.
  pose proof (begin_retirement_slots w s Hok) as Hs. unfold wp in Hs |- * at 1.
  assert (∀ payload, (begin_retirement (w, s)).2 ≠ Panicked payload) as Hq.
  { intros payload. unfold begin_retirement. destruct (slot_owned s) as [t|]; [|done].
    destruct (is_some (owned_task t)); [|done]. destruct (_ || _); [done|].
    by destruct (request_retirement t w). }
  destruct (begin_retirement (w, s)) as [[w1 s1] o]. destruct Hs as (Hok1 & _ & Ho). cbn [fst snd] in *.
  destruct o as [go| |payload|]; cbn [wp_then]; try done; [|by destruct (Hq payload)].
  subst go. by apply poll_finish_calm.
Qed.

(** *** No assertion of an owner is broken *)

Lemma quiet_aside {S A} (m : Async P W A) : quiet m → quiet (aside (S := S) m).
Proof. intros Hm [w s]. specialize (Hm w). unfold aside. by destruct (m w). Qed.
#[local] Hint Resolve quiet_aside : bombay.

Context (quiet_join : ∀ task, quiet (poll_join task)) (quiet_notice : ∀ r, quiet (poll_notice r)).

Lemma poll_owner_quiet : quiet poll_owner.
Proof using quiet_join quiet_notice.
  assert (quiet drop_owner) as Hd by (intros [w s]; done).
  assert (∀ t task joined, quiet (take_joined t task joined)) as Ht.
  { intros t task joined [w s]. unfold take_joined. by destruct (authority_disarm _ _). }
  unfold poll_owner, poll_task, poll_receipt.
  repeat first [progress eauto with bombay | apply quiet_bind; [|intros ?] | case_match].
Qed.

Lemma poll_finish_quiet polls : quiet (poll_finish polls).
Proof using quiet_join quiet_notice.
  induction polls; cbn [poll_finish]; [done|]. apply quiet_bind; [apply poll_owner_quiet|].
  intros []; eauto with bombay.
Qed.

Lemma begin_retirement_quiet : quiet begin_retirement.
Proof using.
  intros [w s]. unfold begin_retirement. destruct (slot_owned s) as [t|]; [|done].
  destruct (is_some _); [|done]. destruct (_ || _); [done|]. by destruct (request_retirement t w).
Qed.

Lemma owner_retirement_quiet polls : quiet (owner_receive_retirement polls).
Proof using quiet_join quiet_notice.
  apply quiet_bind; [apply begin_retirement_quiet|]. intros []; [|done].
  apply quiet_bind; [apply quiet_look|]. intros []; [done|apply poll_finish_quiet].
Qed.

Lemma projected_retirement_quiet polls : quiet (projected_receive_retirement polls).
Proof using quiet_join quiet_notice.
  apply quiet_bind; [apply quiet_look|]. intros []; [done|].
  apply quiet_bind; [apply begin_retirement_quiet|]. intros []; [apply poll_finish_quiet|done].
Qed.
End owner.

(** ** The protocol *)

Section protocol.
Context {P O N : Type}.

(** The actor's task, in the order of its body: it runs until its terminal
    capability is retired, which resolves the notification; it settles; its
    result is joined once. *)
Variant ActorState := Actor_Running | Actor_Settling | Actor_Finished (o : O) | Actor_Joined (o : O).
Variant NoticeState := Notice_Open | Notice_Resolved (n : N) | Notice_Received (n : N).
Variant RequestState := Request_Armed | Request_Sent | Request_Disarmed.

Record TaskWorld := { actor : ActorState; notice : NoticeState; request : RequestState }.
Implicit Types w : TaskWorld.

(** The host of the definitions above. *)
Definition join_poll (_ : ()) : Async P TaskWorld (option O) := λ w,
  match actor w with
  | Actor_Running | Actor_Settling => (w, Ready None)
  | Actor_Finished o =>
      ({| actor := Actor_Joined o; notice := notice w; request := request w |}, Ready (Some o))
  | Actor_Joined _ => (w, Violated)
  end.
Definition receipt_poll (_ : ()) : Async P TaskWorld (option N) := λ w,
  match notice w with
  | Notice_Open => (w, Ready None)
  | Notice_Resolved n =>
      ({| actor := actor w; notice := Notice_Received n; request := request w |}, Ready (Some n))
  | Notice_Received _ => (w, Violated)
  end.
Definition request_to (x : RequestState) w : TaskWorld :=
  {| actor := actor w; notice := notice w;
     request := match request w with Request_Armed => x | r => r end |}.
Definition send_request (_ : ()) : TaskWorld → TaskWorld := request_to Request_Sent.
Definition drop_request (_ : ()) : TaskWorld → TaskWorld := request_to Request_Disarmed.

Local Abbreviation Slots := (@OwnerSlots () () () O N).
Local Abbreviation Task := (@OwnedTask () () ()).
Local Abbreviation poll :=
  (poll_owner (P := P) join_poll receipt_poll send_request drop_request (λ _ w, w)).
Implicit Types (s : Slots) (t : Task).

Definition with_owned (t : option Task) s : Slots :=
  {| slot_owned := t; slot_received := slot_received s; slot_notification := slot_notification s |}.

(** Steps of the actor, and of its owner: a poll of the future that waits, which
    may be dropped at any time; a request; the request of [receive_retirement];
    the owner is dropped. *)
Inductive owner_step : TaskWorld * Slots → TaskWorld * Slots → Prop :=
  | step_retires w s n :
      actor w = Actor_Running → notice w = Notice_Open →
      owner_step (w, s) ({| actor := Actor_Settling; notice := Notice_Resolved n;
                            request := request w |}, s)
  | step_finishes w s o :
      actor w = Actor_Settling →
      owner_step (w, s) ({| actor := Actor_Finished o; notice := notice w; request := request w |}, s)
  | step_polls w s w' s' ready :
      poll (w, s) = ((w', s'), Ready ready) → owner_step (w, s) (w', s')
  | step_requests w s t w' t' :
      slot_owned s = Some t → request_retirement send_request t w = (w', t') →
      owner_step (w, s) (w', with_owned (Some t') s)
  | step_begins w s w' s' goes_on :
      begin_retirement (P := P) send_request (w, s) = ((w', s'), Ready goes_on) → owner_step (w, s) (w', s')
  | step_drops w s t :
      slot_owned s = Some t →
      owner_step (w, s) (drop_owned send_request (λ _ w, w) t w, with_owned None s).

(** A launched actor and its owner. *)
Definition launched : TaskWorld * Slots :=
  ({| actor := Actor_Running; notice := Notice_Open; request := Request_Armed |},
   {| slot_owned := Some {| owned_task := Some (); owned_notification := ();
                            owned_cancellation := Some () |};
      slot_received := None; slot_notification := None |}).

Definition owner_reachable : TaskWorld * Slots → Prop := rtc owner_step launched.

(** *** Its invariant *)

(** The authority still holds its sender exactly while nothing was sent. *)
Definition authority_ok (x : option ()) (r : RequestState) : Prop :=
  match x with Some _ => r = Request_Armed | None => r ≠ Request_Armed end.

Definition running_ok (x : ActorState) (y : NoticeState) : Prop :=
  match x with
  | Actor_Running => y = Notice_Open
  | Actor_Settling | Actor_Finished _ => ∃ n, y = Notice_Resolved n
  | Actor_Joined _ => False
  end.

Record owner_ok w s : Prop := {
  ok_received o : slot_received s = Some o → actor w = Actor_Joined o;
  ok_notification n : slot_notification s = Some n → notice w = Notice_Received n;
  ok_owned t :
    slot_owned s = Some t →
    authority_ok (owned_cancellation t) (request w) ∧ slot_notification s = None ∧
    match owned_task t with
    | Some _ => slot_received s = None ∧ request w ≠ Request_Disarmed ∧
        running_ok (actor w) (notice w)
    | None => is_Some (slot_received s) ∧ request w ≠ Request_Armed ∧
        owned_cancellation t = None ∧ ∃ n, notice w = Notice_Resolved n
    end;
  ok_dropped : slot_owned s = None → is_Some (slot_received s) ∨ request w = Request_Sent
}.

Local Ltac run_async := repeat progress (rewrite ?bind_eq; cbn).

Lemma poll_owner_ok w s :
  owner_ok w s →
  ∃ w' s' ready, poll (w, s) = ((w', s'), Ready ready) ∧ owner_ok w' s' ∧
    (∀ o, actor w = Actor_Finished o → is_Some (slot_owned s) →
       ready = true ∧ slot_received s' = Some o ∧ is_Some (slot_notification s')).
Proof.
  intros [Hrec Hnot Hown Hdrop]. destruct s as [owned received notification].
  cbn [slot_owned slot_received slot_notification] in *.
  destruct owned as [t|]; [|do 3 eexists; split; [done|]; split; [by split|by intros o _ [? ?]]].
  destruct (Hown t eq_refl) as (Hauth & -> & Ht). destruct t as [[[]|] [] cancellation];
    cbn [owned_task owned_cancellation] in *.
  - destruct Ht as (-> & Hreq & Hrun). unfold poll_owner, poll_task, poll_receipt, join_poll.
    run_async. destruct (actor w) as [| |o|o] eqn:Ha; cbn in Hrun; [..|done].
    1-2: do 3 eexists; split; [reflexivity|]; split; [|done]; split; cbn; try done;
      intros t [= <-]; cbn; by rewrite Ha.
    destruct Hrun as [n Hn]. unfold take_joined, receipt_poll, drop_request, request_to.
    destruct cancellation as [[]|]; cbn in Hauth; run_async; rewrite ?Hn; run_async;
      (do 3 eexists; split; [reflexivity|]; split; [|by intros ? [= ->] _; cbn; eauto]);
      (split; cbn; [by intros ? [= <-]|by intros ? [= <-]|done|by left; eexists]).
  - destruct Ht as (Hsome & Harm & -> & n & Hn). unfold poll_owner, poll_task, poll_receipt, receipt_poll.
    run_async. rewrite Hn. run_async. do 3 eexists. split; [reflexivity|]. split.
    + split; cbn; [done|by intros ? [= <-]|done|by left].
    + intros o Ho _. destruct Hsome as [o' ->]. by rewrite (Hrec o' eq_refl) in Ho.
Qed.

Lemma request_ok x w :
  authority_ok x (request w) →
  let '(w', x') := authority_request send_request w x in
  actor w' = actor w ∧ notice w' = notice w ∧ x' = None ∧ request w' ≠ Request_Armed ∧
  (request w' = Request_Sent ∨ x = None ∧ request w' = request w).
Proof.
  destruct x as [[]|]; cbn; intros Ha.
  - rewrite Ha. by split_and!; [| | | |left].
  - by split_and!; [| | | |right].
Qed.

Lemma request_owner_ok w s t w' t' :
  slot_owned s = Some t → request_retirement send_request t w = (w', t') →
  owner_ok w s → owner_ok w' (with_owned (Some t') s).
Proof.
  intros Ht Hq [Hrec Hnot Hown Hdrop]. destruct (Hown t Ht) as (Hauth & Hsl & Hst).
  apply request_ok in Hauth. unfold request_retirement in Hq.
  destruct (authority_request send_request w (owned_cancellation t)) as [w1 x].
  destruct Hauth as (Ha & Hn & -> & Hr & Hsent). injection Hq as <- <-.
  split; cbn; [by rewrite Ha|by rewrite Hn| |done].
  intros ? [= <-]. cbn. split_and!; [done|done|].
  destruct (owned_task t); rewrite ?Ha, Hn.
  - destruct Hst as (? & Hreq & ?). split_and!; [done| |done].
    by destruct Hsent as [->|[_ ->]].
  - by destruct Hst as (? & _ & _ & ?).
Qed.

Lemma begin_owner_ok w s w' s' go :
  begin_retirement (P := P) send_request (w, s) = ((w', s'), Ready go) → owner_ok w s → owner_ok w' s'.
Proof.
  unfold begin_retirement. destruct (slot_owned s) as [t|] eqn:Ht.
  2: { by intros [= <- <- _]. }
  destruct (is_some (owned_task t)); [|by intros [= <- <- _]].
  destruct (_ || _); [by intros [= <- <- _]|].
  destruct (request_retirement send_request t w) as [w1 t1] eqn:Hq. intros [= <- <- _] Hok.
  by eapply (request_owner_ok w s t).
Qed.

Lemma drop_owner_ok w s t :
  slot_owned s = Some t → owner_ok w s →
  owner_ok (drop_owned send_request (λ _ w, w) t w) (with_owned None s).
Proof.
  intros Ht [Hrec Hnot Hown Hdrop]. destruct (Hown t Ht) as (Hauth & Hsl & Hst).
  pose proof Hauth as Hauth'. apply request_ok in Hauth. unfold drop_owned.
  assert (match owned_task t with Some _ | None => w end = w) as -> by by destruct (owned_task t).
  destruct (authority_request send_request w (owned_cancellation t)) as [w1 x].
  destruct Hauth as (Ha & Hn & _ & Hr & Hsent). cbn.
  split; cbn; [by rewrite Ha|by rewrite Hn|done|]. intros _.
  destruct Hsent as [?|[Hnone Hsame]]; [by right|].
  destruct (owned_task t); [|by left; destruct Hst].
  right. rewrite Hnone in Hauth'. cbn in Hauth'. rewrite Hsame. destruct Hst as (_ & Hreq & _).
  by destruct (request w).
Qed.

Lemma owner_step_ok st st' : owner_step st st' → owner_ok st.1 st.2 → owner_ok st'.1 st'.2.
Proof.
  destruct 1 as [w s n Ha Hn|w s o Ha|w s w' s' ready Hp|w s t w' t' Ht Hq|w s w' s' go Hb|w s t Ht];
    cbn; intros Hok.
  - destruct Hok as [Hrec Hnot Hown Hdrop]. split; cbn; [| |intros t Ht|done].
    + intros o Ho. apply Hrec in Ho. congruence.
    + intros m Hm. apply Hnot in Hm. congruence.
    + destruct (Hown t Ht) as (? & ? & Hst). split_and!; [done..|].
      destruct (owned_task t); [by naive_solver|].
      destruct Hst as ([? Ho] & _). apply Hrec in Ho. congruence.
  - destruct Hok as [Hrec Hnot Hown Hdrop]. split; cbn; [|done|intros t Ht|done].
    + intros o' Ho. apply Hrec in Ho. congruence.
    + destruct (Hown t Ht) as (? & ? & Hst). split_and!; [done..|].
      destruct (owned_task t); [|done]. by rewrite Ha in Hst.
  - destruct (poll_owner_ok w s Hok) as (? & ? & ? & Hp' & ? & _). rewrite Hp in Hp'. by simplify_eq.
  - by eapply request_owner_ok.
  - by eapply begin_owner_ok.
  - by apply drop_owner_ok.
Qed.

Lemma owner_reachable_ok w s : owner_reachable (w, s) → owner_ok w s.
Proof.
  intros Hr. cut (∀ st, rtc owner_step launched st → owner_ok st.1 st.2); [by intros H; apply (H (w, s))|].
  clear. intros st. revert st. apply rtc_ind_r.
  - split; cbn; [done|done| |done]. intros t [= <-]. by cbn.
  - intros st st' _ Hs Hok. by eapply owner_step_ok.
Qed.

(** C27: Whatever the actor, its requests, the polls, the dropped futures and the
    end of its owner interleave: a poll never polls a join or a receipt after it
    completed and never panics; what the slots hold is what the actor returned
    and what its notification resolved to; the poll after the actor's end takes
    both and is ready; and an owner that is gone either took the actor's result
    or requested the actor's cancellation. *)
Theorem owner_acquires_once w s :
  owner_reachable (w, s) →
  ∃ w' s' ready, poll (w, s) = ((w', s'), Ready ready) ∧
    (∀ o, slot_received s = Some o → actor w = Actor_Joined o) ∧
    (∀ n, slot_notification s = Some n → notice w = Notice_Received n) ∧
    (∀ o, actor w = Actor_Finished o → is_Some (slot_owned s) →
       ready = true ∧ slot_received s' = Some o ∧ is_Some (slot_notification s')) ∧
    (slot_owned s = None → is_Some (slot_received s) ∨ request w = Request_Sent).
Proof.
  intros Hr. pose proof (owner_reachable_ok _ _ Hr) as Hok.
  destruct (poll_owner_ok w s Hok) as (w' & s' & ready & Hp & _ & Hend).
  exists w', s', ready. split; [done|]. destruct Hok as [Hrec Hnot _ Hdrop]. by split_and!.
Qed.
End protocol.

(** A poll before the end, the request, the retirement and the end. *)
Lemma owner_acquires_once_witness :
  ∃ w s w' s' ready,
    owner_reachable (P := ()) (w, s) ∧ actor w = Actor_Finished 7 ∧ request w = Request_Sent ∧
    poll_owner (P := ()) join_poll receipt_poll send_request drop_request (λ _ w, w) (w, s)
      = ((w', s'), Ready ready) ∧
    slot_received s' = Some 7 ∧ slot_notification s' = Some true.
Proof.
  set (t := {| owned_task := Some (); owned_notification := (); owned_cancellation := None |}
       : @OwnedTask () () ()).
  set (s := {| slot_owned := Some t; slot_received := None; slot_notification := None |}
       : @OwnerSlots () () () nat bool).
  set (w := {| actor := Actor_Finished 7; notice := Notice_Resolved true; request := Request_Sent |}).
  assert (owner_reachable (P := ()) (w, s)) as Hr.
  { eapply rtc_l; [by eapply step_polls|]. eapply rtc_l; [by eapply step_begins|].
    eapply rtc_l; [by eapply step_retires|]. eapply rtc_l; [by eapply step_polls|].
    eapply rtc_l; [by eapply (step_finishes _ _ 7)|]. apply rtc_refl. }
  destruct (owner_acquires_once w s Hr) as (w' & s' & ready & Hp & _ & _ & Hend & _).
  destruct (Hend 7 eq_refl (mk_is_Some _ _ eq_refl)) as (_ & Hs & _).
  exists w, s, w', s', ready. split_and!; [done..|]. cbn in Hp. by injection Hp as _ <- _.
Defined.
