(* ===== verification/ActorLaunch.v ===== *)
(** * Launching an actor

    [crates/bombay/src/launch.rs]: [spawn_local_execution] builds the environment
    and the task of one actor; its owner holds the actor's join, the receipt of
    its termination notification and the authority to cancel it.  Nothing that
    the task returns fails to project into a native retirement. *)

From S2P Require Import Prelude Driver DriverLaw Host Assessment DriverEnding.
From S2P Require Import LocalIngress LocalEnvironment ActorOutcome TerminalProjection ActorOwner.
From S2P Require Import DriverContract LocalLaw LocalTerminal LocalDriver LocalExample.

(** The channels a launch creates. *)
Class LaunchChannels `{!LocalTypes, !LaunchHost} := {
  CancelSender : Type; NotificationReceiver : Type;
  termination_pair : World → World * (TerminationPublisher * TerminationObservation);
  report_channel : World → World * (ReportSender * ReportReceiver);
  cancellation_channel : World → World * (CancelSender * Cancel);
  CommitmentReceiver : Type;
  commitment_channel : World → World * (CommitmentSender * CommitmentReceiver);
  notification_channel : World → World * (NotificationSender * NotificationReceiver);
  notification_send : NotificationSender → Result () RetirementNotificationError →
    World → World * Result () (Result () RetirementNotificationError)
}.

Section launch.
Context {TY : LocalTypes} {LH : LaunchHost} {LC : LaunchChannels}.
Context {HO : LocalHost} {CA : CommitActions} {SC : SettlementClass}.
Context `{!Communication World Owner Consumer Event Item}.
Context `{!CancellationChannel World Cancel}.
Context `{!IngressMode Panic World Event Item Retired MailboxRef}.
Context `{!TaskSet World Tasks Event JoinError}.
Context {B BError : Type} `{!BehaviorPort B Event Actions BError Panic}.
Context (polls : World → nat).
Implicit Types (w : World) (e : LocalEnvironment) (b : B).

#[local] Instance port : EnvironmentPort World LocalEnvironment ActiveLocalEnvironment Actions Event
    Settlements (Interpretation Settlements) Request LocalActivationRejection LocalResidual Panic :=
  local_environment_port polls.

Local Abbreviation Execution :=
  (ActorExecution (B := B) (Event := Event) (Actions := Actions) (BError := BError)
     (Env := LocalEnvironment) (Act := ActiveLocalEnvironment) (S := Settlements)
     (I := Interpretation Settlements) (Request := Request) (EError := LocalActivationRejection)
     (Residual := LocalResidual) (P := Panic) (R := LocalRetirement)).

(** [OwnerCancellationAuthority]: its sender until it requests or is disarmed. *)
Definition OwnerCancellationAuthority : Type := option CancelSender.

(** What a launch transfers before activation: the authority, the startup
    receipt, the control, the execution and the notification receipt. *)
Record Launch {Start Control : Type} := {
  launch_cancellation : OwnerCancellationAuthority;
  launch_startup : Start;
  launch_control : Control;
  launch_execution : Execution;
  launch_notification : NotificationReceiver
}.
Arguments Launch : clear implicits.

(** [spawn_local_execution] up to the spawned task. *)
Definition spawn_local_execution {Start Control : Type} (addresses : AddressSpace) (address : Addr)
    (b : B) (make_interpreter : ControlSender → LocalTerminalReports → Interpreter)
    (publish : LocalEnvironment → World → World * (LocalEnvironment * Start * Control)) w :
    World * Launch Start Control :=
  let '(w, (termination_publisher, termination)) := termination_pair w in
  let '(w, (report_sender, selected_report)) := report_channel w in
  let '(w, (cancellation, cancellation_request)) := cancellation_channel w in
  let '(w, environment) :=
    prepare address addresses termination cancellation_request
      (λ control, make_interpreter control (LocalTerminalReports_new report_sender)) w in
  let '(w, (environment, startup, control)) := publish environment w in
  let '(w, (notification_publication, notification)) := notification_channel w in
  (w, {| launch_cancellation := Some cancellation; launch_startup := startup;
         launch_control := control;
         launch_execution :=
           ActorExecution_new (Driver_new b environment)
             (LocalRetirement_new (TerminationPublication_new termination_publisher selected_report)
                notification_publication);
         launch_notification := notification |}).

(** [LocalEnvironment::control]. *)
Definition env_control e : option ControlSender := env_control_liveness e.

(** The closure of [spawn_owned_execution] and [spawn_owned_with_mode]. *)
Definition owned_publication e w :
    World * (LocalEnvironment * CommitmentReceiver * option ControlSender) :=
  let '(w, (commitment, committed)) := commitment_channel w in
  (w, (with_private_commitment commitment e, committed, env_control e)).

(** [spawn_owned_execution]: the spawned task is its execution. *)
Definition spawn_owned_execution (addresses : AddressSpace) (address : Addr) (b : B)
    (make_interpreter : ControlSender → LocalTerminalReports → Interpreter) w :
    World * (CommitmentReceiver * option ControlSender *
             @OwnedTask Execution NotificationReceiver CancelSender) :=
  let '(w, l) := spawn_local_execution addresses address b make_interpreter owned_publication w in
  (w, (launch_startup l, launch_control l,
       {| owned_task := Some (launch_execution l); owned_notification := launch_notification l;
          owned_cancellation := launch_cancellation l |})).

(** The body of the spawned task: the outcome it returns, or none when it was
    dropped or unwound. *)
Definition actor_task (fuel joins : nat) (panicking : bool) (execution : Execution) w :
    option (World * option LocalOutcome) :=
  '(w, _, output) ←
    ActorExecution_run (LocalRetirement_retire notification_send) fuel panicking execution w;
  match output with
  | None => Some (w, None)
  | Some (outcome, _) =>
      let '(w, settled) := settle_local_outcome joins outcome w in
      Some (w, match settled with Ready outcome => Some outcome | _ => None end)
  end.

(** *** A startup that failed *)

Section startup.
Context {Handle AllocationRejection : Type}.
Context (poll_join : Handle → Async Panic World (option (Result (LocalOutcome (B:=B) (BError:=BError)) JoinError)))
  (receive : NotificationReceiver →
    Async Panic World (Result (Result () RetirementNotificationError) RecvError))
  (cancel_send cancel_drop : CancelSender → World → World) (join_drop : Handle → World → World)
  (idle : World → World).

(** The two receipts, with their report. *)
Definition receipts_of (joined : Result (LocalOutcome (B:=B) (BError:=BError)) JoinError)
    (received : Result (Result () RetirementNotificationError) RecvError) : SpawnReceipts :=
  let notification :=
    match received with
    | Ok notification => notification
    | Err error => Err (Notification_ReceiptClosed error)
    end in
  {| spawn_termination_notification := notification;
     spawn_retirement_report := from_joined joined notification |}.

(** [startup_failure], from the two results. *)
Definition failed_startup (joined : Result (LocalOutcome (B:=B) (BError:=BError)) JoinError)
    (received : Result (Result () RetirementNotificationError) RecvError) :
    SpawnError (AllocationRejection := AllocationRejection) :=
  match joined with
  | Ok outcome => spawn_from_local outcome (receipts_of joined received)
  | Err error => Spawn_ActorTaskFailed error (receipts_of joined received)
  end.

(** [startup_failure]. *)
Definition startup_failure (polls : nat) (task : Handle) (cancellation : OwnerCancellationAuthority)
    (notification : NotificationReceiver) : Async Panic World SpawnError :=
  joined ← authority_finish poll_join cancel_send cancel_drop join_drop idle polls cancellation task;
  match joined with
  | Some joined => received ← receive notification; mret (failed_startup joined received)
  | None => λ w, (w, Pending)
  end.
End startup.

(** *** The projection of a child's task *)

Record ActorNotificationReceipts := {
  notified_termination : Result () RetirementNotificationError;
  notified_retirement : Result () RetirementNotificationError
}.

Definition is_Err {A E} (r : Result A E) : bool := match r with Err _ => true | Ok _ => false end.
Definition has_failures (self : ActorNotificationReceipts) : bool :=
  is_Err (notified_termination self) || is_Err (notified_retirement self).

Section project.
Context {AllocationRejection Root ChildFailures Projected : Type}.
Context (descendants_of : Descendants → list Root * ChildFailures)
  (project : ActorRetirement (B := B) (BError := BError)
     (AllocationRejection := AllocationRejection) (Root := Root) (ChildFailures := ChildFailures) →
     Projected)
  (report_complete : ActorRetirementReport → Async Panic World ())
  (receipts_send : ActorNotificationReceipts → World → World).

Definition publish_retirement_report (report : ActorRetirementReport) w :
    World * Result () RetirementNotificationError :=
  let '(w, o) := report_complete report w in (w, caught o).

(** The task of [ProjectedTask::project], from the two results of the actor;
    [None] where the projection panics. *)
Definition project_joined (joined : Result (LocalOutcome (B:=B) (BError:=BError)) JoinError)
    (received : Result (Result () RetirementNotificationError) RecvError) w :
    World * option (Result Projected JoinError) :=
  let receipts := receipts_of joined received in
  let '(w, retirement) := publish_retirement_report (spawn_retirement_report receipts) w in
  let w := receipts_send {| notified_termination := spawn_termination_notification receipts;
                            notified_retirement := retirement |} w in
  (w, match joined with
      | Ok outcome => (λ r, Ok (project r)) <$> from_local descendants_of outcome
      | Err error => Some (Err error)
      end).
End project.

(** ** What the task returns *)

(** [JoinSet::join_next] returns [None] exactly for an empty set. *)
Class TaskSetLaw := {
  join_next_empty tasks w w' tasks' :
    join_next tasks w = (w', (tasks', Some None)) → tasks_is_empty tasks' = true
}.

Context {law : TaskSetLaw}.

Lemma receive_settlement_joins fuel w tasks events failures :
  let '((_, (tasks', _, _)), o) := receive_settlement (P:=Panic) fuel (w, (tasks, events, failures)) in
  is_Ready o = true → tasks_is_empty tasks' = true.
Proof.
  revert w tasks events failures. induction fuel as [|fuel IH]; intros w tasks events failures; [done|].
  cbn [receive_settlement]. destruct (join_next tasks w) as [w1 [tasks1 joined]] eqn:Hj.
  destruct joined as [[[[[]|event]|failure]|]|]; [apply IH..| |done].
  intros _. by eapply join_next_empty.
Qed.

Lemma settle_joins joins (o o' : LocalOutcome (B:=B) (BError:=BError)) w w' :
  settle_local_outcome joins o w = (w', Ready o') → fitting o → tasks_joined o' ∧ fitting o'.
Proof.
  unfold settle_local_outcome.
  destruct (outcome_residual o) as [r|] eqn:Hr.
  2: { intros [= _ <-] Hf. split; [|done]. intros r. by rewrite Hr. }
  unfold receive_activation_tasks.
  pose proof (receive_settlement_joins joins w (lane_activation_tasks (residual_lanes r))
    (control (lane_ingress (residual_lanes r))) (lane_capability_failures (residual_lanes r))) as Hj.
  destruct (receive_settlement _ _) as [[w1 [[tasks events] failures]] out].
  destruct out as [[]| |payload|]; try done. intros [= _ <-] Hf. specialize (Hj eq_refl).
  set (lanes := with_tasks tasks events failures (residual_lanes r)).
  assert (residual_lanes (with_lanes lanes r) = lanes) as Hl by by destruct r.
  split.
  - intros r' Hr'. assert (r' = with_lanes lanes r) as ->.
    { destruct o; cbn in Hr, Hr'; by simplify_eq. }
    by rewrite Hl.
  - destruct o as [b r0 l c|b r0 l p|b r0 l p|b r0 l p|b r0 l p|b r0 l p|b r0 l p|b r0 l|b r0 l p|b r0 l p| |];
      cbn in Hr; try done; injection Hr as ->; cbn in *; try done.
    + destruct Hf as (i & s & rows & lanes' & ->). by do 4 eexists.
    + destruct Hf as [(i & s & rows & lanes' & ->)|[lanes' ->]]; [left; by do 4 eexists|right; by eexists].
    + destruct Hf as (lanes' & ->). by eexists.
    + destruct Hf as (i & s & rows & lanes' & ->). by do 4 eexists.
    + destruct Hf as (i & s & rows & lanes' & ->). by do 4 eexists.
    + destruct Hf as (i & lanes' & ->). by do 2 eexists.
Qed.

Lemma ends_fitting (retirement : @DriverRetirement B BError Request LocalActivationRejection
    LocalResidual Panic) :
  ends (law := local_residuals polls) (retired_disposition retirement) (retired_residual retirement) →
  fitting (outcome_from retirement).
Proof.
  destruct retirement as [b r d l]. cbn [retired_disposition retired_residual].
  destruct d as [c|[]]; cbn; auto.
Qed.

(** A driver that returned is one of its histories. *)
Lemma drive_returned fuel b e w cs last :
  drive fuel (Driver_new b e) w = Some (cs, last) → flow last = Loop_Return →
  ∃ cs', driven b e cs' (after last).
Proof.
  intros Hd Hf. destruct (drive_reached _ _ _ _ _ Hd) as (cs' & d' & w' & Hr & -> & _).
  eexists. eapply receives_snoc; [by eapply reaches_receives|]. by rewrite Hf.
Qed.

Lemma actor_task_fitting fuel joins panicking b e retirement w w' o :
  env_initialization e = None → env_residual e = None →
  actor_task fuel joins panicking (ActorExecution_new (Driver_new b e) retirement) w = Some (w', Some o) →
  tasks_joined o ∧ fitting o.
Proof.
  intros Hi Hr. unfold actor_task.
  destruct (ActorExecution_run _ _ _ _ _) as [[[w1 terminal] [[outcome refused]|]]|] eqn:Hrun; try done.
  cbn [mbind option_bind].
  destruct (settle_local_outcome joins outcome w1) as [w2 settled] eqn:Hs.
  destruct settled as [o'| |payload|]; try done. intros [= _ <-].
  apply ActorExecution_run_output in Hrun as (cs & last & handed & Hd & Hf & Ho & Hret).
  destruct (drive_returned _ _ _ _ _ _ Hd Hf) as [cs' Hdr].
  assert (outcome = outcome_from handed) as ->.
  { unfold LocalRetirement_retire in Hret. destruct (retirement_publication _ _ _) as [w3 publication].
    destruct (notification_send _ _ w3) as [w4 sent]. by injection Hret. }
  eapply settle_joins; [exact Hs|]. apply ends_fitting.
  by eapply (receive_owner_ends (law := local_residuals polls)); [|exact Hdr|exact Ho].
Qed.

Lemma prepare_untouched address addresses termination cancellation make w :
  let e := (prepare address addresses termination cancellation make w).2 in
  env_initialization e = None ∧ env_residual e = None.
Proof. unfold prepare. by destruct (mailbox_channel w) as [w' [[[control owner] mailbox] consumer]]. Qed.

Lemma spawn_owned_task addresses address b make w0 w1 startup control owned execution :
  spawn_owned_execution addresses address b make w0 = (w1, (startup, control, owned)) →
  owned_task owned = Some execution →
  ∃ e retirement, execution = ActorExecution_new (Driver_new b e) retirement ∧
    env_initialization e = None ∧ env_residual e = None.
Proof.
  unfold spawn_owned_execution, spawn_local_execution.
  destruct (termination_pair w0) as [w2 [tp t]]. destruct (report_channel w2) as [w3 [rs rr]].
  destruct (cancellation_channel w3) as [w4 [cs cr]].
  pose proof (prepare_untouched address addresses t cr
    (λ control, make control (LocalTerminalReports_new rs)) w4) as [Hi Hr].
  destruct (prepare _ _ _ _ _ w4) as [w5 e]. unfold owned_publication.
  destruct (commitment_channel w5) as [w6 [commitment committed]].
  destruct (notification_channel w6) as [w7 [np nr]].
  intros [= _ _ _ <-] [= <-]. by do 2 eexists.
Qed.

(** C9: Whatever a launched actor's task returns when it is joined, the
    projections into a native retirement find what they expect and never panic:
    the task of a child hands over the projected retirement, and when the actor
    ended before its publication the caller gets the very same retirement with
    the notification and the report. *)
Theorem joined_outcome_projects {AllocationRejection Root ChildFailures Projected : Type}
    (descendants_of : Descendants → list Root * ChildFailures) project report_complete receipts_send
    addresses address b make w0 w1 startup control owned execution fuel joins panicking w w' o received :
  spawn_owned_execution addresses address b make w0 = (w1, (startup, control, owned)) →
  owned_task owned = Some execution →
  actor_task fuel joins panicking execution w = Some (w', Some o) →
  ∃ r : ActorRetirement (AllocationRejection := AllocationRejection),
    from_local descendants_of o = Some r ∧
    (∀ w, (project_joined (Projected := Projected) descendants_of project report_complete receipts_send
             (Ok o) received w).2 = Some (Ok (project r))) ∧
    into_retirement descendants_of (failed_startup (Ok o) received)
      = Some (Ok (r, receipts_of (Ok o) received)).
Proof.
  intros Hs Ho Ht. destruct (spawn_owned_task _ _ _ _ _ _ _ _ _ _ Hs Ho) as (e & retirement & -> & Hi & Hr).
  destruct (actor_task_fitting _ _ _ _ _ _ _ _ _ Hi Hr Ht) as [Hj Hf].
  destruct (from_local_total (AllocationRejection := AllocationRejection) descendants_of o Hf Hj) as [r Hp].
  exists r. split; [exact Hp|]. split.
  { intros w2. unfold project_joined. destruct (publish_retirement_report _ _ _). cbn. by rewrite Hp. }
  cbn [failed_startup]. by rewrite startup_projection_agrees, Hp.
Qed.

(** *** Clean reports *)

(** Nothing in progress, nothing lost and no task left in a residual. *)
Definition quiet_progress (progress : option Progress) : Prop :=
  match progress with
  | None | Some (Progress_Completed (Interpretation_Complete _)) => True
  | _ => False
  end.
Definition quiet_source (source : option (SourceCustody Settlements)) : Prop :=
  match source with
  | None | Some (Custody_Exhausted _ | Custody_Retained _) => True
  | _ => False
  end.
Definition quiet_stage (source : option SourceStage) : Prop :=
  match source with
  | None => True
  | Some (Source_Completed custody) => quiet_source (Some custody)
  | _ => False
  end.

Record clean_residual (r : LocalResidual) : Prop := {
  clean_tasks : tasks_is_empty (lane_activation_tasks (residual_lanes r)) = true;
  clean_operations : lane_operation_failures (residual_lanes r) = NoFailuresFound;
  clean_descendants :
    lane_descendant_report (residual_lanes r) = Report_new Established NoFailuresFound;
  clean_capabilities : lane_capability_failures (residual_lanes r) = [];
  clean_retirement : lane_retirement_failures (residual_lanes r) = [];
  clean_report t : lane_terminal_report (residual_lanes r) ≠ Some (Err t);
  clean_interpretation n : lane_interpretation (residual_lanes r) ≠ Some (Interpretation_Corrupt n);
  clean_ingress error :
    lane_acquired_ingress (residual_lanes r) ≠ Some (Break (Request_CapabilityFailed error));
  clean_source : quiet_source (lane_source (residual_lanes r));
  clean_progress :
    match r with
    | Residual_Prepared _ => True
    | Residual_Uncommitted initialization _ => quiet_progress (Some initialization)
    | Residual_Retired interpretation source _ _ => quiet_progress interpretation ∧ quiet_stage source
    end
}.

Lemma progress_failures_quiet p : progress_failures p = NoFailuresFound ↔ quiet_progress p.
Proof. destruct p as [[|c|[]]|]; cbn; naive_solver. Qed.
Lemma received_source_failures_quiet x : received_source_failures x = NoFailuresFound ↔ quiet_source x.
Proof. destruct x as [[]|]; cbn; naive_solver. Qed.
Lemma source_stage_failures_quiet x : source_stage_failures x = NoFailuresFound ↔ quiet_stage x.
Proof. destruct x as [[| |[]]|]; cbn; naive_solver. Qed.

Lemma lane_failed_false lanes :
  lane_failed lanes = false ↔
  lane_capability_failures lanes = [] ∧ lane_retirement_failures lanes = [] ∧
  (∀ t, lane_terminal_report lanes ≠ Some (Err t)) ∧
  (∀ n, lane_interpretation lanes ≠ Some (Interpretation_Corrupt n)) ∧
  (∀ error, lane_acquired_ingress lanes ≠ Some (Break (Request_CapabilityFailed error))).
Proof.
  unfold lane_failed. destruct lanes as [i ? ? g ? ? ? ? ? c t f ?]. cbn.
  rewrite !orb_false_iff, !negb_false_iff, !bool_decide_eq_true, !length_zero_iff_nil.
  assert (match t with Some (Err _) => true | _ => false end = false ↔ ∀ x, t ≠ Some (Err x)) as ->
    by (destruct t as [[]|]; naive_solver).
  assert (match i with Some (Interpretation_Corrupt _) => true | _ => false end = false
    ↔ ∀ x, i ≠ Some (Interpretation_Corrupt x)) as -> by (destruct i as [[]|]; naive_solver).
  assert (match g with Some (Break (Request_CapabilityFailed _)) => true | _ => false end = false
    ↔ ∀ x, g ≠ Some (Break (Request_CapabilityFailed x))) as -> by (destruct g as [[|[]]|]; naive_solver).
  tauto.
Qed.

Lemma report_clean (x : ActorRetirementReport) :
  x = Report_new Established NoFailuresFound ↔
  Assessment.retirement x = Established ∧ failures x = NoFailuresFound.
Proof. destruct x; cbn. naive_solver. Qed.

Lemma retirement_report_clean r :
  retirement_report r = Report_new Established NoFailuresFound ↔ clean_residual r.
Proof.
  rewrite report_clean. unfold retirement_report. rewrite combine_retirement. cbn [failures combine].
  rewrite !combine_failures_none, received_source_failures_quiet. cbn [Assessment.retirement failures].
  assert (lane_descendant_report (residual_lanes r) = Report_new Established NoFailuresFound ↔ 
    Assessment.retirement (lane_descendant_report (residual_lanes r)) = Established ∧
    failures (lane_descendant_report (residual_lanes r)) = NoFailuresFound) as Hd by apply report_clean.
  pose proof (lane_failed_false (residual_lanes r)) as Hl.
  assert (match r with
    | Residual_Prepared _ => NoFailuresFound
    | Residual_Uncommitted initialization _ => progress_failures (Some initialization)
    | Residual_Retired interpretation source _ _ =>
        combine_failures (progress_failures interpretation) (source_stage_failures source)
    end = NoFailuresFound ↔
    match r with
    | Residual_Prepared _ => True
    | Residual_Uncommitted initialization _ => quiet_progress (Some initialization)
    | Residual_Retired interpretation source _ _ => quiet_progress interpretation ∧ quiet_stage source
    end) as Hp.
  { destruct r; [done|apply progress_failures_quiet|].
    by rewrite combine_failures_none, progress_failures_quiet, source_stage_failures_quiet. }
  rewrite Hp. clear Hp. destruct (lane_failed (residual_lanes r)).
  - split; [naive_solver|]. intros []. exfalso. destruct Hl as [_ Hl]. ospecialize (Hl _); [|done].
    by split_and!.
  - destruct Hl as [Hl _]. destruct (Hl eq_refl) as (? & ? & ? & ? & ?).
    destruct (tasks_is_empty _) eqn:Ht; cbn; [|split; [naive_solver|intros []; congruence]].
    split; [|intros []; naive_solver]. intros. split; naive_solver.
Qed.

(** A joined actor is reported as established and without failures exactly
    when it completed by itself or by its owner's request, published its
    termination, failed in nothing, has nothing in progress, and its residual
    kept no failure, no task and no unfinished descendant. *)
Lemma clean_report_is_earned (joined : Result (LocalOutcome (B:=B) (BError:=BError)) JoinError)
    (notification : Result () RetirementNotificationError) :
  from_joined joined notification = Report_new Established NoFailuresFound ↔
  notification = Ok () ∧
  ∃ b r completion, joined = Ok (Exec_Completed b r [] completion) ∧
    (∀ error, completion ≠ RetirementRequested (Request_CapabilityFailed error)) ∧ clean_residual r.
Proof.
  assert (∀ x, with_failures x FailuresFound ≠ Report_new Established NoFailuresFound) as Hfail.
  { intros [[] []] [=]. }
  unfold from_joined. destruct notification as [[]|error].
  2: { split; [by intros ?%Hfail|by intros [? _]]. }
  destruct joined as [o|error]; [|split; [done|naive_solver]].
  destruct o as [b r l c| | | | | | | | | | |]; cbn [outcome_residual];
    try (split; [by intros ?%Hfail|naive_solver]); try (split; [done|naive_solver]).
  rewrite report_clean. cbn [with_failures Assessment.retirement failures].
  rewrite !combine_failures_none.
  pose proof (retirement_report_clean r) as Hr. rewrite report_clean in Hr.
  destruct l as [|failure l]; cbn.
  - destruct c as [| |[|error]]; split; try naive_solver.
  - split; naive_solver.
Qed.
End launch.

(** ** A concrete launch *)

#[export] Instance bench_launch : LaunchHost := {|
  TerminationPublisher := (); ReportSender := (); ReportReceiver := (); NotificationSender := ();
  termination_of fact := match fact with Exit_Normal => 0 | Exit_Collected => 1 | _ => 2 end;
  termination_complete _ fact w := (set_claims (bench_claimed w) (bench_published w ++ [fact]) w, None);
  report_try_recv _ w := (w, Err TryRecvError_Closed);
  report_send _ _ w := (w, Ok ());
  report_drop _ w := w
|}.

#[export] Instance bench_channels : LaunchChannels := {|
  CancelSender := (); NotificationReceiver := (); CommitmentReceiver := ();
  termination_pair w := (w, (tt, tt)); report_channel w := (w, (tt, tt));
  cancellation_channel w := (w, (tt, tt)); commitment_channel w := (w, (tt, tt));
  notification_channel w := (w, (tt, tt)); notification_send _ _ w := (w, Ok ())
|}.

#[export] Instance bench_task_law : TaskSetLaw.
Proof. split. intros [|joined tasks] w w' tasks'; cbn; [by intros [= _ <-]|done]. Qed.

#[local] Existing Instance Stalling.numbers.

(** Two messages are accepted; the second one stops the actor, whose tasks still
    hand in two events. *)
Local Abbreviation bench_spawned answers :=
  (spawn_owned_execution (TY := bench_types) (BError := ()) tt 2 ([] : list nat)
     (λ _ _, machine [6; 8])
     (bench [3] [Ingress_Message {| from := 1; message := 7 |};
                 Ingress_Message {| from := 1; message := 5 |}] None [] answers)).
Local Abbreviation bench_joined answers :=
  (match owned_task (bench_spawned answers).2.2 with
   | Some execution => actor_task (λ _ : World, 8) 60 10 false execution (bench_spawned answers).1
   | None => None
   end).

Lemma joined_outcome_projects_witness :
  ∃ w o r, bench_joined (Some true) = Some (w, Some o) ∧
    from_local (AllocationRejection := ()) (λ _, ([] : list (), ())) o = Some r ∧
    completion r = Some Stopped ∧
    into_retirement (λ _, ([] : list (), ())) (failed_startup (Ok o) (Ok (Ok ())))
      = Some (Ok (r, receipts_of (Ok o) (Ok (Ok ())))).
Proof.
  assert (∃ w o, bench_joined (Some true) = Some (w, Some o) ∧
    (completion <$> from_local (AllocationRejection := ()) (λ _, ([] : list (), ())) o)
      = Some (Some Stopped)) as (w & o & Hj & Hc) by (vm_compute; by do 2 eexists).
  exists w, o.
  destruct (bench_spawned (Some true)) as [w1 [[startup control] owned]] eqn:Hs.
  cbn [fst snd] in Hj |- *. destruct (owned_task owned) as [execution|] eqn:Ho; [|done].
  destruct (joined_outcome_projects (AllocationRejection := ()) _
    (λ _, ([] : list (), ())) completion (λ _, mret ()) (λ _ w, w) _ _ _ _ _ _ _ _ _ _ _ _ _ _ _ _ (Ok (Ok ())) Hs Ho Hj) as (r & Hr & _ & Hi).
  exists r. rewrite Hr in Hc. injection Hc as Hc. by split_and!.
Defined.

(** The lanes of a prepared actor whose mailbox held one event. *)
Definition bench_lanes : ResidualLanes :=
  {| lane_interpretation := None; lane_source := None; lane_source_index := None;
     lane_acquired_ingress := None; lane_ingress := {| control := [4]; user := [] |};
     lane_activation_tasks := []; lane_descendants := tt; lane_operation_failures := NoFailuresFound;
     lane_descendant_report := Report_new Established NoFailuresFound;
     lane_capability_failures := [9]; lane_terminal_report := None; lane_retirement_failures := [];
     lane_unread_owner_cancellation := None |}.

Definition bench_rejected :
    @DriverRetirement (list nat) () Request LocalActivationRejection LocalResidual Panic :=
  {| retired_behavior := [1]; Driver.retired_failures := [];
     retired_residual :=
       Residual_Uncommitted (Progress_Original ((1, Step_Continue) : Actions)) bench_lanes;
     retired_disposition := Err (Error_Activation (Rejection_Address (5 : ClaimError))) |}.

