(* ===== verification/ChildRetirement.v ===== *)
(** * Children of an actor

    [crates/bombay/src/local/children.rs]: the registry of one child occurrence
    of a creator, with the custody of every child it created, and its retirement:
    every child is asked to retire, then joined in the order of creation, its
    native result or failure pushed to the caller's lanes before the next one.

    The product of occurrences is a list type: [ChildBinding] holds its tail, and
    the class [RetireChildTasks] is the trait that the two kinds of node
    implement.  The operation is an [Async]: it may be dropped or unwind at every
    wait and call, and be received again. *)

From stdpp Require Import gmap.
From S2P Require Import Prelude Driver Host Assessment LocalIngress LocalEnvironment ActorOutcome.
From S2P Require Import TerminalProjection ActorOwner.
From S2P Require Import ActorLaunch.

(** ** The trait *)

(** [RetireChildTasks], for one kind of node.  Its receiving operation loans the
    bindings, the retired children, the failures and the report. *)
Record ChildLanes {Root Failure : Type} := {
  retired_children : list Root;
  child_failures : list Failure;
  descendants_report : ActorRetirementReport
}.
Arguments ChildLanes : clear implicits.

Class RetireChildTasks (P W Root Failure Bindings : Type) := {
  request_children : Async P (W * Bindings) ();
  receive_children : Async P (W * (option Bindings * ChildLanes Root Failure)) ()
}.

(** The end of the product. *)
Variant NoChildBindings := NoChildBindings_new.

#[export] Instance no_children {P W Root Failure} :
    RetireChildTasks P W Root Failure NoChildBindings := {|
  request_children := mret ();
  receive_children := change (λ x, (None, x.2))
|}.

(** What a kind of node promises to the node in front of it.  [handed b c r f]:
    the attempts so far turned [b] into [c] and pushed [r] and [f].  [stopped]
    bindings end an attempt without being retired; [going] ones do not, and an
    attempt that is not dropped leaves them so. *)
Class ChildTasksLaw {P W Root Failure Bindings : Type}
    `{!RetireChildTasks P W Root Failure Bindings} := {
  bindings_ok : Bindings → Prop;
  unrejected : Bindings → Prop;
  stopped : Bindings → Prop;
  going : Bindings → Prop;
  going_on b : bindings_ok b → going b → ¬ stopped b;
  handed : Bindings → option Bindings → list Root → list Failure → Prop;
  handed_refl b : bindings_ok b → handed b (Some b) [] [];
  handed_trans b b' c roots failures roots' failures' :
    handed b (Some b') roots failures → handed b' c roots' failures' →
    handed b c (roots ++ roots') (failures ++ failures');
  handed_unrejected b b' roots failures :
    handed b (Some b') roots failures → unrejected b → unrejected b';
  request_law w b :
    bindings_ok b →
    wp request_children
      (λ st o, is_Violated o = false ∧ bindings_ok st.2 ∧ (going b → going st.2) ∧
         handed b (Some st.2) [] []) (w, b);
  receive_none w (l : ChildLanes Root Failure) :
    receive_children (w, (None, l)) = ((w, (None, l)), Ready ());
  receive_law w b l :
    bindings_ok b →
    wp receive_children
      (λ '(_, (c, l')) o,
         is_Violated o = false ∧ covered (descendants_report l) (descendants_report l') ∧
         (∀ b', c = Some b' → bindings_ok b') ∧
         (is_Ready o = true → ∀ b', c = Some b' → stopped b') ∧
         (o ≠ Pending → going b → ∀ b', c = Some b' → going b') ∧
         ∃ roots failures, handed b c roots failures ∧
           retired_children l' = retired_children l ++ roots ∧
           child_failures l' = child_failures l ++ failures ∧
           (descendants_report l' = clean → unrejected b → failures = [])) (w, (Some b, l))
}.

#[export] Instance no_children_law {P W Root Failure} :
    ChildTasksLaw (P := P) (W := W) (Root := Root) (Failure := Failure) (Bindings := NoChildBindings).
Proof.
  refine {| bindings_ok _ := True; unrejected _ := True; stopped _ := False; going _ := True;
            handed _ _ roots failures := roots = [] ∧ failures = [] |}; try done.
  - by intros b _ _ H.
  - by intros ? ? ? ? ? ? ? [-> ->] [-> ->].
  - intros w b l _. unfold wp. cbn. split_and!; try done. exists [], []. by rewrite !app_nil_r.
Defined.

(** An operation on one part of a value that the caller has matched on. *)
Definition hosted {P W U T A} (u : U) (build : U → T) (m : Async P (W * U) A) : Async P (W * T) A :=
  λ '(w, _), let '((w, u), o) := m (w, u) in ((w, build u), o).

Lemma wp_hosted {P W U T A} (u : U) (build : U → T) (m : Async P (W * U) A) Q w t :
  wp m (λ '(w', u') o, Q (w', build u') o) (w, u) → wp (hosted u build m) Q (w, t).
Proof. unfold wp, hosted. by destruct (m (w, u)) as [[w' u'] o]. Qed.

(** ** Data *)

(** The child's host: its tasks, receipts and policy. *)
Class ChildHost `{!LocalTypes, !LaunchHost} (B BError Root CreationId CreationKind Origin : Type) := {
  RawHandle : Type; RawReceiver : Type; ProjectedHandle : Type; ProjectedReceiver : Type;
  ChildCancel : Type; Projection : Type; RetirementObservation : Type; StartupReceiver : Type;
  raw_join : RawHandle → Async Panic World
    (option (Result (LocalOutcome (B := B) (BError := BError)) JoinError));
  raw_receipt : RawReceiver → Async Panic World
    (option (Result (Result () RetirementNotificationError) RecvError));
  raw_drop : RawHandle → World → World;
  projected_join : ProjectedHandle → Async Panic World (option (Result (Result Root JoinError) JoinError));
  projected_receipt : ProjectedReceiver → Async Panic World
    (option (Result ActorNotificationReceipts RecvError));
  projected_drop : ProjectedHandle → World → World;
  projection_join : Projection → Async Panic World (option (Result Root JoinError));
  projection_drop : Projection → World → World;
  (** [tokio::spawn] of a projection; [None] is a body that panics. *)
  spawn_projection : option Root → World → World * Projection;
  child_cancel_send : ChildCancel → World → World;
  child_cancel_drop : ChildCancel → World → World;
  (** [Observation::try_get] of the published report. *)
  retirement_try_get : RetirementObservation → World → option ActorRetirementReport;
  (** [Origins::origin], application policy. *)
  make_origin : Addr → N → CreationId → CreationKind → Async Panic World Origin;
  idle : World → World;
  (** How often a wait is polled before it is dropped. *)
  child_polls : World → nat
}.

(** Its waits and its policy break no assertion of this crate. *)
Class ChildHostLaw `{!LocalTypes, !LaunchHost, !ChildHost B BError Root CreationId CreationKind Origin} := {
  raw_join_quiet task : quiet (raw_join task);
  raw_receipt_quiet receiver : quiet (raw_receipt receiver);
  projected_join_quiet task : quiet (projected_join task);
  projected_receipt_quiet receiver : quiet (projected_receipt receiver);
  projection_join_quiet task : quiet (projection_join task);
  make_origin_quiet address route id kind : quiet (make_origin address route id kind)
}.

Section children.
Context {TY : LocalTypes} {LH : LaunchHost} `{!TaskSet World Tasks Event JoinError}.
Context {B BError AllocationRejection Root CreationId CreationKind Origin Failure : Type}.
Context `{!EqDecision CreationId, !Countable CreationId}.
Context {CH : ChildHost B BError Root CreationId CreationKind Origin}.
Context {Grandchild ChildFailures : Type}.
Context (descendants_of : Descendants → list Grandchild * ChildFailures).

Local Abbreviation failure := (DriverError BError LocalActivationRejection Panic) (only parsing).
Local Abbreviation Raw := (Result (LocalOutcome (B := B) (BError := BError)) JoinError) (only parsing).
Local Abbreviation RawNotice := (Result () RetirementNotificationError) (only parsing).
Local Abbreviation Projected := (Result (Result Root JoinError) JoinError) (only parsing).
Local Abbreviation Receipts := (Result ActorNotificationReceipts RecvError) (only parsing).

(** The three slots of a raw task, and of a projected one. *)
Definition RawSlots : Type := @OwnerSlots RawHandle RawReceiver ChildCancel Raw RawNotice.
Definition ProjectedSlots : Type :=
  @OwnerSlots ProjectedHandle ProjectedReceiver ChildCancel Projected Receipts.

Variant StartupRetirementCustody :=
  | Startup_Raw (slots : RawSlots)
  | Startup_Projection (task : option Projection) (received : option (Result Root JoinError))
      (termination_notification : RawNotice) (report : ActorRetirementReport).

(** The fields of a rejected startup. *)
Record StartupFacts := {
  primary_failure : option failure;
  additional_failures : list failure;
  terminal_report : option (Result () Termination);
  startup_retirement_failures : list Panic;
  startup_notification : RawNotice;
  startup_report : ActorRetirementReport
}.

Variant CreationBinding :=
  | Creation_Starting (kind : CreationKind) (address : Addr) (route : N)
      (startup : StartupReceiver) (control : ControlSender)
      (task : option (@OwnedTask RawHandle RawReceiver ChildCancel))
  | Creation_RetiringStartup (kind : CreationKind) (address : Addr) (route : N)
      (custody : StartupRetirementCustody)
  | Creation_Established (kind : CreationKind) (route : N) (endpoint : ActorRef)
      (control : ControlSender) (slots : ProjectedSlots) (retirement : RetirementObservation)
  | Creation_Rejected
  | Creation_StartupRejected (kind : CreationKind) (address : Addr) (route : N)
      (facts : StartupFacts).

(** [InstalledActor], as issued to a failure. *)
Record InstalledActor := InstalledActor_new {
  installed_recipient : ActorRef;
  installed_control : ControlSender;
  installed_retirement : RetirementObservation
}.

Variant ChildFailure :=
  | Child_InitializationPanicked (origin : Origin) (payload : Panic) (facts : StartupFacts)
  | Child_StartupRetirementFailed (origin : Origin) (facts : StartupFacts)
  | Child_StartupActorTaskFailed (origin : Origin) (error : JoinError)
      (termination_notification : RawNotice)
  | Child_StartupProjectionTaskFailed (origin : Origin) (error : JoinError)
      (termination_notification : RawNotice)
  | Child_StartupTerminationNotificationFailed (origin : Origin)
      (error : RetirementNotificationError)
  | Child_ActorTaskFailed (origin : Origin) (actor : InstalledActor) (error : JoinError)
      (notifications : Receipts)
  | Child_ProjectionTaskFailed (origin : Origin) (actor : InstalledActor) (error : JoinError)
      (notifications : Receipts)
  | Child_NotificationsFailed (id : CreationId) (kind : CreationKind) (origin : Origin)
      (actor : InstalledActor) (notifications : Receipts).

(** [Root::project] of a child's retirement, and [Root::Failure: From]. *)
Context (project : Origin →
  ActorRetirement (B := B) (BError := BError) (AllocationRejection := AllocationRejection)
    (Root := Grandchild) (ChildFailures := ChildFailures) → Root)
  (into_failure : ChildFailure → Failure).

(** *** The registry *)

Local Abbreviation Registry := (gmap CreationId CreationBinding * list CreationId)%type (only parsing).

(** Whether a row owns a task or a fact of its startup. *)
Definition owns_facts (binding : CreationBinding) : bool :=
  match binding with
  | Creation_Starting _ _ _ _ _ _ | Creation_RetiringStartup _ _ _ _
  | Creation_Established _ _ _ _ _ _ => true
  | Creation_StartupRejected _ _ _ facts =>
      is_some (primary_failure facts)
      || negb (bool_decide (length (additional_failures facts) = 0))
      || is_some (terminal_report facts)
      || negb (bool_decide (length (startup_retirement_failures facts) = 0))
      || is_Err (startup_notification facts)
  | Creation_Rejected => false
  end.

(** [record_child_creation]; [None] is its panic. *)
Definition record_child_creation (id : CreationId) (binding : CreationBinding) (r : Registry) :
    option Registry :=
  match r.1 !! id with
  | Some _ => panic!
  | None =>
      let order :=
        if owns_facts binding then
          if bool_decide (id ∈ r.2) then r.2 else r.2 ++ [id]
        else filter (λ owned, owned ≠ id) r.2 in
      Some (<[id := binding]> r.1, order)
  end.

Variant ChildAuthority :=
  | Authority_Established (endpoint : ActorRef) (control : ControlSender)
      (retirement : RetirementObservation) (kind : CreationKind)
  | Authority_Unavailable (id : CreationId).

(** [creation_at] of a head. *)
Definition creation_at (id : CreationId) (creations : gmap CreationId CreationBinding) :
    option ChildAuthority :=
  (λ binding,
     match binding with
     | Creation_Established kind _ endpoint control _ retirement =>
         Authority_Established endpoint control retirement kind
     | Creation_Starting _ _ _ _ _ _ | Creation_RetiringStartup _ _ _ _ | Creation_Rejected
     | Creation_StartupRejected _ _ _ _ => Authority_Unavailable id
     end) <$> creations !! id.

(** One node of the product and its tail. *)
Record ChildBinding {Tail : Type} := {
  creations : gmap CreationId CreationBinding;
  creation_order : list CreationId;
  actors : AddressSpace;
  tail : option Tail
}.
Arguments ChildBinding : clear implicits.

Section node.
Context {Tail : Type} `{!RetireChildTasks Panic World Root Failure Tail}.
Local Abbreviation Node := (ChildBinding Tail) (only parsing).
Local Abbreviation Lanes := (ChildLanes Root Failure) (only parsing).

Definition with_creations (creations : gmap CreationId CreationBinding) (n : Node) : Node :=
  {| creations := creations; creation_order := creation_order n; actors := actors n; tail := tail n |}.
Definition with_tail (tail : option Tail) (n : Node) : Node :=
  {| creations := creations n; creation_order := creation_order n; actors := actors n; tail := tail |}.

(** *** [request_retirement] *)

Definition request_task {Handle Receiver : Type} (task : option (@OwnedTask Handle Receiver ChildCancel))
    (w : World) : World * option (@OwnedTask Handle Receiver ChildCancel) :=
  match task with
  | Some task => let '(w, task) := ActorOwner.request_retirement child_cancel_send task w in (w, Some task)
  | None => (w, None)
  end.

Definition with_slot {Handle Receiver O N : Type} (task : option (@OwnedTask Handle Receiver ChildCancel))
    (s : @OwnerSlots Handle Receiver ChildCancel O N) : OwnerSlots :=
  {| slot_owned := task; slot_received := slot_received s; slot_notification := slot_notification s |}.

Definition request_row (binding : CreationBinding) (w : World) : World * CreationBinding :=
  match binding with
  | Creation_Starting kind address route startup control task =>
      let '(w, task) := request_task task w in
      (w, Creation_Starting kind address route startup control task)
  | Creation_RetiringStartup kind address route (Startup_Raw slots) =>
      let '(w, task) := request_task (slot_owned slots) w in
      (w, Creation_RetiringStartup kind address route (Startup_Raw (with_slot task slots)))
  | Creation_Established kind route endpoint control slots retirement =>
      let '(w, task) := request_task (slot_owned slots) w in
      (w, Creation_Established kind route endpoint control (with_slot task slots) retirement)
  | Creation_RetiringStartup _ _ _ (Startup_Projection _ _ _ _) | Creation_Rejected
  | Creation_StartupRejected _ _ _ _ => (w, binding)
  end.

Fixpoint request_rows (ids : list CreationId) : Async Panic (World * Node) () :=
  match ids with
  | [] => mret ()
  | id :: ids =>
      row ← look (λ n, creations n !! id);
      match row with
      | None => violated
      | Some row =>
          row ← perform (request_row row);
          change (λ n, with_creations (<[id := row]> (creations n)) n);; request_rows ids
      end
  end.

Definition request_node : Async Panic (World * Node) () :=
  order ← look creation_order;
  request_rows order;;
  node ← look (λ n, n);
  match tail node with
  | Some rest => hosted rest (λ rest, with_tail (Some rest) node) request_children
  | None => mret ()
  end.

(** *** The retirement of one row *)

(** Both results are outside and their owner is gone. *)
Definition complete {Handle Receiver O N : Type} (s : @OwnerSlots Handle Receiver ChildCancel O N) : bool :=
  is_none (slot_owned s) && is_some (slot_received s) && is_some (slot_notification s).

Definition projected_failed (s : ProjectedSlots) : bool :=
  match slot_received s with Some (Err _ | Ok (Err _)) => true | _ => false end
  || match slot_notification s with
     | Some (Err _) => true
     | Some (Ok receipts) => has_failures receipts
     | None => false
     end.

Definition wait_projected : Async Panic (World * ProjectedSlots) () := λ '(w, s),
  projected_receive_retirement projected_join projected_receipt child_cancel_send child_cancel_drop
    projected_drop idle (child_polls w) (w, s).

(** The receipt of a raw task, as its owner keeps it. *)
Definition raw_notice (receiver : RawReceiver) : Async Panic World (option RawNotice) :=
  received ← raw_receipt receiver;
  mret ((λ received,
           match received with
           | Ok notification => notification
           | Err error => Err (Notification_ReceiptClosed error)
           end) <$> received).

Definition wait_raw : Async Panic (World * RawSlots) () := λ '(w, s),
  owner_receive_retirement raw_join raw_notice child_cancel_send child_cancel_drop raw_drop idle
    (child_polls w) (w, s).

Definition receive_established (id : CreationId) (kind : CreationKind) (route : N)
    (endpoint : ActorRef) (retirement : RetirementObservation) :
    Async Panic (World * (ProjectedSlots * ActorRetirementReport)) (option Origin) :=
  focus fst (λ s x, (s, x.2)) wait_projected;;
  slots ← look fst;
  match complete slots with
  | false => mret None
  | true =>
      published ← perform (λ w, (w, retirement_try_get retirement w));
      let report := default (Report_new NotEstablished Incomplete) published in
      change (λ x, (x.1, combine x.2 report));;
      change (λ x, (x.1, if projected_failed slots then with_failures x.2 FailuresFound else x.2));;
      origin ← aside (make_origin (ref_address endpoint) route id kind);
      mret (Some origin)
  end.

Local Abbreviation startup := (World * (StartupRetirementCustody * ActorRetirementReport))%type
  (only parsing).

(** The raw task of a startup; its outcome goes to a projection. *)
Definition receive_raw (origin : Origin) : Async Panic startup bool :=
  custody ← look (λ x, x);
  match custody.1 with
  | Startup_Projection _ _ _ _ => mret true
  | Startup_Raw slots =>
      hosted slots (λ slots, (Startup_Raw slots, custody.2)) wait_raw;;
      custody ← look (λ x, x);
      match custody.1 with
      | Startup_Projection _ _ _ _ => mret true
      | Startup_Raw slots =>
          match complete slots, slot_received slots, slot_notification slots with
          | true, Some joined, Some notification =>
              let report := from_joined joined notification in
              change (λ x, (x.1, combine x.2 report));;
              match joined with
              | Ok outcome =>
                  task ← perform
                    (spawn_projection (project origin <$> from_local descendants_of outcome));
                  change (λ x, (Startup_Projection (Some task) None notification report, x.2));;
                  mret true
              | Err _ => mret true
              end
          | _, _, _ => mret false
          end
      end
  end.

(** One poll of the projection, which is outside before its handle is dropped. *)
Definition poll_projection : Async Panic startup bool :=
  custody ← look fst;
  match custody with
  | Startup_Projection (Some task) None notification report =>
      joined ← aside (projection_join task);
      match joined with
      | None => mret false
      | Some joined =>
          perform (λ w, (projection_drop task w, ()));;
          change (λ x, (Startup_Projection None (Some joined) notification report, x.2));;
          mret true
      end
  | _ => mret true
  end.

Fixpoint wait_projection (polls : nat) : Async Panic startup () :=
  match polls with
  | 0 => stay_pending
  | S polls =>
      done ← poll_projection;
      match done with
      | true => mret ()
      | false => perform (λ w, (idle w, ()));; wait_projection polls
      end
  end.

(** The projection of a startup. *)
Definition receive_projection : Async Panic startup bool :=
  custody ← look fst;
  match custody with
  | Startup_Raw _ => mret true
  | Startup_Projection _ received _ _ =>
      match received with
      | None => λ '(w, x), wait_projection (child_polls w) (w, x)
      | Some _ => mret ()
      end;;
      custody ← look fst;
      match custody with
      | Startup_Projection None (Some received) _ report =>
          change (λ x, (x.1, combine x.2 report));;
          match received with
          | Err _ => change (λ x, (x.1, with_failures x.2 FailuresFound))
          | Ok _ => mret ()
          end;;
          mret true
      | _ => mret false
      end
  end.

Definition receive_startup (id : CreationId) (kind : CreationKind) (address : Addr) (route : N) :
    Async Panic startup (option Origin) :=
  origin ← aside (make_origin address route id kind);
  goes_on ← receive_raw origin;
  match goes_on with
  | false => mret None
  | true =>
      goes_on ← receive_projection;
      match goes_on with
      | false => mret None
      | true => origin ← aside (make_origin address route id kind); mret (Some origin)
      end
  end.

Local Abbreviation row_state := (World * (CreationBinding * ActorRetirementReport))%type (only parsing).

(** The part of the loop that waits for one row; [None] returns. *)
Definition receive_row (id : CreationId) : Async Panic row_state (option Origin) :=
  row ← look (λ x, x);
  match row.1 with
  | Creation_Established kind route endpoint control slots retirement =>
      hosted (slots, row.2)
        (λ x, (Creation_Established kind route endpoint control x.1 retirement, x.2))
        (receive_established id kind route endpoint retirement)
  | Creation_RetiringStartup kind address route custody =>
      hosted (custody, row.2) (λ x, (Creation_RetiringStartup kind address route x.1, x.2))
        (receive_startup id kind address route)
  | Creation_StartupRejected kind address route _ =>
      origin ← aside (make_origin address route id kind); mret (Some origin)
  | Creation_Starting _ _ _ _ _ _ | Creation_Rejected => violated
  end.

(** The structural transfer of one complete row, [None] where it is unreachable. *)
Definition settle_row (id : CreationId) (origin : Origin) (row : CreationBinding) :
    option (list Root * list ChildFailure) :=
  match row with
  | Creation_Established kind route endpoint control slots retirement =>
      let actor := InstalledActor_new endpoint control retirement in
      joined ← slot_received slots; notifications ← slot_notification slots;
      Some
        match joined with
        | Ok (Ok terminal) =>
            ([terminal],
             match notifications with
             | Ok receipts =>
                 if has_failures receipts
                 then [Child_NotificationsFailed id kind origin actor notifications] else []
             | Err _ => [Child_NotificationsFailed id kind origin actor notifications]
             end)
        | Ok (Err error) => ([], [Child_ActorTaskFailed origin actor error notifications])
        | Err error => ([], [Child_ProjectionTaskFailed origin actor error notifications])
        end
  | Creation_RetiringStartup _ _ _ (Startup_Raw slots) =>
      match slot_received slots, slot_notification slots with
      | Some (Err error), Some notification =>
          Some ([], [Child_StartupActorTaskFailed origin error notification])
      | _, _ => panic!
      end
  | Creation_RetiringStartup _ _ _ (Startup_Projection _ received notification _) =>
      received ← received;
      Some
        match received with
        | Ok terminal =>
            ([terminal],
             match notification with
             | Err error => [Child_StartupTerminationNotificationFailed origin error]
             | Ok _ => []
             end)
        | Err error => ([], [Child_StartupProjectionTaskFailed origin error notification])
        end
  | Creation_StartupRejected _ _ _ facts =>
      Some
        ([], [match primary_failure facts with
              | Some (Error_InitializationPanicked payload) =>
                  Child_InitializationPanicked origin payload facts
              | _ => Child_StartupRetirementFailed origin facts
              end])
  | Creation_Starting _ _ _ _ _ _ | Creation_Rejected => panic!
  end.

(** *** [receive_retirement] *)

(** Startup custody is transferred to raw retirement. *)
Definition begin_row (row : CreationBinding) : CreationBinding :=
  match row with
  | Creation_Starting kind address route _ _ task =>
      Creation_RetiringStartup kind address route
        (Startup_Raw {| slot_owned := task; slot_received := None; slot_notification := None |})
  | row => row
  end.

Definition lanes_report (report : ActorRetirementReport) (l : Lanes) : Lanes :=
  {| retired_children := retired_children l; child_failures := child_failures l;
     descendants_report := report |}.

(** The row leaves the registry and its results enter the lanes. *)
Definition push_row (id : CreationId) (roots : list Root) (failures : list ChildFailure)
    (x : Node * Lanes) : Node * Lanes :=
  ({| creations := delete id (creations x.1); creation_order := List.tl (creation_order x.1);
      actors := actors x.1; tail := tail x.1 |},
   {| retired_children := retired_children x.2 ++ roots;
      child_failures := child_failures x.2 ++ (into_failure <$> failures);
      descendants_report := descendants_report x.2 |}).

(** One iteration; [false] returns. *)
Definition retire_row (id : CreationId) : Async Panic (World * (Node * Lanes)) bool :=
  change (λ x, (with_creations (alter begin_row id (creations x.1)) x.1, x.2));;
  x ← look (λ x, x);
  match creations x.1 !! id with
  | None => violated
  | Some row =>
      origin ←
        hosted (row, descendants_report x.2)
          (λ y, (with_creations (<[id := y.1]> (creations x.1)) x.1, lanes_report y.2 x.2))
          (receive_row id);
      match origin with
      | None => mret false
      | Some origin =>
          row ← look (λ x, creations x.1 !! id);
          match row ≫= settle_row id origin with
          | None => violated
          | Some (roots, failures) => change (push_row id roots failures);; mret true
          end
      end
  end.

Fixpoint retire_rows (fuel : nat) : Async Panic (World * (Node * Lanes)) bool :=
  order ← look (λ x, creation_order x.1);
  match order, fuel with
  | [], _ => mret true
  | _ :: _, 0 => violated
  | id :: _, S fuel =>
      goes_on ← retire_row id;
      match goes_on with true => retire_rows fuel | false => mret false end
  end.

(** The reports of the startups that were rejected. *)
Definition rejected_reports (creations : gmap CreationId CreationBinding)
    (report : ActorRetirementReport) : ActorRetirementReport :=
  map_fold (λ _ row report,
    match row with
    | Creation_StartupRejected _ _ _ facts => combine report (startup_report facts)
    | _ => report
    end) report creations.

(** The rows that end the operation before it requests anything. *)
Definition contradictory (row : CreationBinding) : bool :=
  match row with
  | Creation_Established _ _ _ _ slots _ =>
      match slot_owned slots, slot_received slots with
      | Some _, Some _ | None, None => true
      | _, _ => false
      end
  | _ => false
  end.

Definition contradicts (n : Node) : bool :=
  existsb (λ id, from_option contradictory false (creations n !! id)) (creation_order n).

(** The body on a node that is still owned: whether its owner is dropped. *)
Definition receive_node : Async Panic (World * (Node * Lanes)) bool :=
  change (λ x, (x.1, lanes_report (rejected_reports (creations x.1) (descendants_report x.2)) x.2));;
  stops ← look (λ x, contradicts x.1);
  match stops with
  | true => mret false
  | false =>
      focus fst (λ n x, (n, x.2)) request_node;;
      rows ← look (λ x, length (creation_order x.1));
      goes_on ← retire_rows rows;
      match goes_on with
      | false => mret false
      | true =>
          x ← look (λ x, x);
          hosted (tail x.1, x.2) (λ y, (with_tail y.1 x.1, y.2)) receive_children;;
          look (λ x, is_none (tail x.1))
      end
  end.

#[export] Instance child_binding : RetireChildTasks Panic World Root Failure (ChildBinding Tail) := {|
  request_children := request_node;
  receive_children :=
    x ← look (λ x, x);
    match x.1 with
    | None => mret ()
    | Some node =>
        done ← hosted (node, x.2) (λ y, (Some y.1, y.2)) receive_node;
        match done with
        | true => change (λ x, (None, x.2))
        | false => mret ()
        end
    end
|}.

(** ** What a retirement does with the rows *)

(** *** One row *)

Context {law : ChildHostLaw}.

(** What a row must hold to be retired. *)
Definition custody_ok (c : StartupRetirementCustody) : Prop :=
  match c with
  | Startup_Raw slots => slots_ok slots
  | Startup_Projection task received notification report =>
      (task = None ↔ is_Some received) ∧
      ∃ o, report = from_joined (B := B) (BError := BError) (Ok o) notification
  end.

Definition row_ok (row : CreationBinding) : Prop :=
  match row with
  | Creation_Starting _ _ _ _ _ task => ∃ t, task = Some t ∧ is_Some (owned_task t)
  | Creation_RetiringStartup _ _ _ custody => custody_ok custody
  | Creation_Established _ _ _ _ slots _ => slots_ok slots
  | Creation_Rejected => False
  | Creation_StartupRejected _ _ _ _ => True
  end.

(** A row that does not stop the next attempt. *)
Definition row_going (row : CreationBinding) : Prop :=
  match row with Creation_Established _ _ _ _ slots _ => unawaited slots | _ => True end.

(** Nothing that the custody of a startup acquired is lost. *)
Definition custody_after (c c' : StartupRetirementCustody) : Prop :=
  match c, c' with
  | Startup_Raw s, Startup_Raw s' => slots_kept s s'
  | Startup_Raw s, Startup_Projection _ _ notification report =>
      (∃ o, report = from_joined (B := B) (BError := BError) (Ok o) notification ∧ ∀ x, slot_received s = Some x → x = Ok o) ∧
      ∀ x, slot_notification s = Some x → x = notification
  | Startup_Projection _ r n x, Startup_Projection _ r' n' x' =>
      n = n' ∧ x = x' ∧ ∀ y, r = Some y → r' = Some y
  | Startup_Projection _ _ _ _, Startup_Raw _ => False
  end.

(** A row is the same child later: its identity and what it acquired are kept. *)
Definition row_after (r r' : CreationBinding) : Prop :=
  match r, r' with
  | Creation_Established k n e c s t, Creation_Established k' n' e' c' s' t' =>
      (k, n, e, c, t) = (k', n', e', c', t') ∧ slots_kept s s'
  | Creation_Starting k a n s c _, Creation_Starting k' a' n' s' c' _ =>
      (k, a, n, s, c) = (k', a', n', s', c')
  | Creation_Starting k a n _ _ _, Creation_RetiringStartup k' a' n' _ => (k, a, n) = (k', a', n')
  | Creation_RetiringStartup k a n c, Creation_RetiringStartup k' a' n' c' =>
      (k, a, n) = (k', a', n') ∧ custody_after c c'
  | Creation_Rejected, Creation_Rejected => True
  | Creation_StartupRejected k a n f, Creation_StartupRejected k' a' n' f' => (k, a, n, f) = (k', a', n', f')
  | _, _ => False
  end.

#[export] Instance custody_after_preorder : PreOrder custody_after.
Proof.
  split.
  - intros [s|t r n x]; cbn; [done|by split_and!].
  - intros [s1|t1 r1 n1 x1] [s2|t2 r2 n2 x2] [s3|t3 r3 n3 x3]; cbn; try done.
    + intros [H1 H2] [H3 H4]. split; naive_solver.
    + intros [H1 H2] [(o & -> & Ho) Hn]. split; [exists o|]; naive_solver.
    + intros [(o & -> & Ho) Hn] (<- & <- & _). split; [by exists o|done].
    + intros (-> & -> & H1) (-> & -> & H2). split_and!; naive_solver.
Qed.

#[export] Instance row_after_preorder : PreOrder row_after.
Proof.
  split.
  - intros [| | | |]; cbn; try done; by split.
  - intros [] [] []; cbn; try done; intros; destruct_and?; simplify_eq; try done;
      (split; [done|by etransitivity]).
Qed.

Lemma request_task_kept {Handle Receiver : Type} (t : option (@OwnedTask Handle Receiver ChildCancel)) w :
  let '(_, t') := request_task t w in
  (t = None ↔ t' = None) ∧ ∀ x', t' = Some x' → ∃ x, t = Some x ∧ owned_task x' = owned_task x.
Proof.
  destruct t as [t|]; cbn; [|by split; [done|naive_solver]]. unfold ActorOwner.request_retirement.
  destruct (authority_request _ _ _) as [w1 c]. split; [done|]. intros x' [= <-]. by exists t.
Qed.

Lemma with_slot_ok {Handle Receiver O N : Type} (t : option (@OwnedTask Handle Receiver ChildCancel)) w
    (s : @OwnerSlots Handle Receiver ChildCancel O N) :
  slots_ok s → let '(_, t') := request_task (slot_owned s) w in
  slots_ok (with_slot t' s) ∧ slots_kept s (with_slot t' s).
Proof.
  intros Hok. pose proof (request_task_kept (slot_owned s) w) as Hk.
  destruct (request_task (slot_owned s) w) as [w' t']. destruct Hk as [Hn Hx].
  split; [|by split]. unfold slots_ok, with_slot in *. cbn.
  destruct t' as [x'|].
  - destruct (Hx x' eq_refl) as (x & Hs & ->). by rewrite Hs in Hok.
  - by rewrite (proj2 Hn eq_refl) in Hok.
Qed.

Lemma request_row_ok row w :
  row_ok row → let '(_, row') := request_row row w in row_ok row' ∧ row_after row row'.
Proof.
  destruct row as [k a n st c task|k a n [slots|t r nt rp]|k n e c slots t| |k a n f]; cbn; intros Hok; try done.
  - destruct Hok as (t & -> & Ht). cbn. unfold ActorOwner.request_retirement.
    destruct (authority_request _ _ _) as [w1 x]. cbn. split; [by eexists|done].
  - pose proof (with_slot_ok None w slots Hok) as Hs.
    destruct (request_task (slot_owned slots) w) as [w' t']. cbn. by destruct Hs.
  - pose proof (with_slot_ok None w slots Hok) as Hs.
    destruct (request_task (slot_owned slots) w) as [w' t']. cbn. by destruct Hs.
Qed.

Lemma request_row_going row w : row_going row → row_going (request_row row w).2.
Proof.
  destruct row as [k a n st c task|k a n [slots|t r nt rp]|k n e c slots t| |k a n f]; cbn; intros Hu; try done.
  - by destruct (request_task task w).
  - by destruct (request_task (slot_owned slots) w).
  - pose proof (request_task_kept (slot_owned slots) w) as Hk.
    destruct (request_task (slot_owned slots) w) as [w' t']. destruct Hk as [Hk _].
    intros Hr. cbn in *. by apply Hk, Hu.
Qed.

Lemma begin_row_ok row : row_ok row → row_ok (begin_row row) ∧ row_after row (begin_row row).
Proof.
  destruct row as [k a n st c task|k a n custody|k n e c slots t| |k a n f]; cbn; intros Hok.
  - destruct Hok as (t & -> & Ht). split; [|done]. split; cbn; [done|].
    destruct Ht as [h ->]. by split; [|intros [? [=]]].
  - split; [done|]. split; [done|]. by destruct custody.
  - by split.
  - done.
  - by split.
Qed.

(** What an operation on a row leaves: the row, in order and later than before,
    under a report that covers the report before. *)
Definition row_left {T A} (ok : T → Prop) (after : T → T → Prop) (t : T) (report : ActorRetirementReport)
    (ready : A → T → ActorRetirementReport → Prop)
    (st : World * (T * ActorRetirementReport)) (o : Outcome Panic A) : Prop :=
  ok st.2.1 ∧ after t st.2.1 ∧ covered report st.2.2 ∧ is_Violated o = false ∧
  match o with Ready x => ready x st.2.1 st.2.2 | _ => True end.

Lemma wait_projected_left w slots :
  slots_ok slots →
  wp wait_projected (λ st o, (slots_after slots (λ _ s', slot_owned s' = None) st o ∧
    is_Violated o = false) ∧ (calm_notice projected_receipt → o ≠ Pending → unawaited st.2)) (w, slots).
Proof using law.
  intros Hok. assert (wp wait_projected (λ st o, slots_after slots (λ _ s', slot_owned s' = None) st o ∧
    is_Violated o = false) (w, slots)) as Hleft.
  { apply (wp_quiet wait_projected).
    - intros [w1 s1]. apply projected_retirement_quiet; [apply projected_join_quiet|apply projected_receipt_quiet].
    - by apply projected_retirement_slots. }
  split; [exact Hleft|]. intros Hc. destruct Hleft as [(_ & _ & Hgone) Hv].
  pose proof (projected_retirement_calm (N := Receipts) projected_join projected_receipt child_cancel_send
    child_cancel_drop projected_drop idle (child_polls w) w slots Hc Hok) as Hu.
  unfold wp, unwinds_unawaited in Hu. change (projected_receive_retirement _ _ _ _ _ _ _ (w, slots))
    with (wait_projected (w, slots)) in Hu.
  destruct (wait_projected (w, slots)) as [[w1 s1] [[]| |payload|]]; cbn in *; try done.
  - by intros _ _.
  - intros _. by apply (Hu payload).
Qed.

Lemma wait_raw_left w slots :
  slots_ok slots →
  wp wait_raw (λ st o, slots_after slots (λ _ s', slot_owned s' = None) st o ∧
    is_Violated o = false) (w, slots).
Proof using law.
  intros Hok. apply (wp_quiet wait_raw).
  - intros [w1 s1]. apply owner_retirement_quiet; [apply raw_join_quiet|].
    intros r. apply quiet_bind; [apply raw_receipt_quiet|done].
  - by apply owner_retirement_slots.
Qed.

Lemma gone_complete {Handle Receiver O N : Type} (s : @OwnerSlots Handle Receiver ChildCancel O N) :
  slots_ok s → slot_owned s = None →
  complete s = true ∧ is_Some (slot_received s) ∧ is_Some (slot_notification s).
Proof.
  unfold slots_ok, complete. intros Hok Hs. rewrite Hs in Hok |- *. by destruct Hok as [[? ->] [? ->]].
Qed.

Lemma origin_left {T} ok after (t0 t : T) report0 report w a r id kind (Q : Origin → T → ActorRetirementReport → Prop) :
  ok t → after t0 t → covered report0 report → (∀ origin, Q origin t report) →
  wp (origin ← aside (make_origin a r id kind); mret (Some origin))
    (row_left ok after t0 report0 (λ x t' report', ∃ origin, x = Some origin ∧ Q origin t' report'))
    (w, (t, report)).
Proof using law.
  intros Hok Ha Hc HQ. wp_step. apply wp_aside. intros w' o Ho.
  pose proof (make_origin_quiet a r id kind w) as Hq. rewrite Ho in Hq.
  destruct o as [origin| |payload|]; cbn [wp_then] in *; try done; [|by split_and!..].
  wp_step. split_and!; try done. exists origin. by split.
Qed.

Lemma receive_established_left id kind route endpoint retirement w slots report :
  slots_ok slots →
  wp (receive_established id kind route endpoint retirement)
    (row_left slots_ok slots_kept slots report (λ x s' report', ∃ origin, x = Some origin ∧
       complete s' = true ∧ (projected_failed s' = true → report' ≠ clean)))
    (w, (slots, report)).
Proof using law.
  intros Hok. unfold receive_established. wp_step. wp_step.
  eapply wp_mono; [by apply wait_projected_left|].
  intros [w1 s1] [[]| |payload|] [[(Hok1 & Hk & Ho) Hv] _]; cbn [fst snd wp_then] in *; try done;
    try by split_and!.
  destruct (gone_complete s1 Hok1 Ho) as (Hc & _ & _).
  wp_step. wp_step. cbn [fst]. rewrite Hc. wp_step. wp_step. wp_step. wp_step. wp_step. wp_step.
  cbn [fst snd]. apply origin_left; [done|done| |].
  - destruct (projected_failed s1); [|apply covered_combine].
    etransitivity; [apply covered_combine|apply covered_with_failures].
  - intros _. split; [done|]. intros ->. by destruct (combine _ _) as [[] []].
Qed.

(** The reports of tasks that failed or did not publish. *)
Lemma from_joined_failed (joined : Raw) notification :
  is_Err joined = true ∨ is_Err notification = true → from_joined joined notification ≠ clean.
Proof.
  assert (∀ x, with_failures x FailuresFound ≠ clean) as Hf by by intros [[] []].
  unfold from_joined. destruct notification as [[]|error]; [|by intros _ ?%Hf].
  destruct joined as [o|error]; by intros [].
Qed.

Lemma covered_not_clean r r' : covered r r' → r ≠ clean → r' ≠ clean.
Proof. intros Hc Hr ->. by apply Hr, covered_clean. Qed.

(** A raw task that returned an error stays where it is. *)
Definition raw_failed (s : RawSlots) (report : ActorRetirementReport) : Prop :=
  ∃ error notification, slot_received s = Some (Err error) ∧
    slot_notification s = Some notification ∧ report ≠ clean.

Lemma receive_raw_left origin w c report :
  custody_ok c →
  wp (receive_raw origin)
    (row_left custody_ok custody_after c report (λ goes_on c' report', goes_on = true ∧
       match c' with Startup_Raw s => raw_failed s report' | Startup_Projection _ _ _ _ => True end))
    (w, (c, report)).
Proof using law.
  intros Hok. unfold receive_raw. wp_step. wp_step. cbn [fst snd].
  destruct c as [slots|task received notification published].
  2: { wp_step. by split_and!. }
  wp_step. apply wp_hosted. eapply wp_mono; [by apply wait_raw_left|].
  intros [w1 s1] [[]| |payload|] [(Hok1 & Hk & Ho) Hv]; cbn [fst snd wp_then] in *; try done;
    try by split_and!.
  destruct (gone_complete s1 Hok1 Ho) as (Hc & [joined Hj] & [notification Hn]).
  wp_step. wp_step. cbn [fst snd]. rewrite Hc, Hj, Hn. wp_step. wp_step. cbn [fst snd].
  destruct joined as [o|error].
  - wp_step. wp_step. wp_step. wp_step. wp_step. cbn [fst snd].
    destruct Hk as [Hk1 Hk2].
    split_and!; [by split; [split; [|intros [? [=]]]|by eexists]| |apply covered_combine|done|done|done].
    cbn. split; [exists o; split; [done|]|]; intros y Hy.
    + apply Hk1 in Hy. congruence.
    + apply Hk2 in Hy. congruence.
  - wp_step. split_and!; [done|done|apply covered_combine|done|done|].
    exists error, notification. split_and!; [done..|].
    eapply covered_not_clean; [apply covered_part|]. apply from_joined_failed. by left.
Qed.

(** The end of a projection. *)
Definition projection_ended (c : StartupRetirementCustody) (report : ActorRetirementReport) : Prop :=
  match c with
  | Startup_Raw _ => False
  | Startup_Projection task received _ published =>
      task = None ∧ ∃ x, received = Some x ∧ covered published report ∧
        (is_Err x = true → report ≠ clean)
  end.

Definition awaited (c : StartupRetirementCustody) : Prop :=
  match c with Startup_Projection None (Some _) _ _ => True | _ => False end.

Lemma poll_projection_left w task received notification published report :
  custody_ok (Startup_Projection task received notification published) →
  wp poll_projection
    (row_left custody_ok custody_after (Startup_Projection task received notification published)
       report (λ done c' report', report' = report ∧ (done = true → awaited c')))
    (w, (Startup_Projection task received notification published, report)).
Proof using law.
  intros Hok. unfold poll_projection. wp_step. wp_step. cbn [fst snd].
  destruct Hok as [Hiff Hp]. destruct task as [task|], received as [received|].
  - discriminate (proj2 Hiff (mk_is_Some _ _ eq_refl)).
  - wp_step. apply wp_aside. intros w1 o Ho. pose proof (projection_join_quiet task w) as Hq.
    rewrite Ho in Hq. destruct o as [[joined|]| |payload|]; cbn [wp_then] in *; [| | | |done].
    + wp_step. wp_step. wp_step. wp_step. wp_step. cbn [fst snd].
      split_and!; [by split; [by split; [by eexists|]|]|by split_and!|done|done|done|done].
    + wp_step. by split_and!.
    + by split_and!.
    + by split_and!.
  - wp_step. by split_and!.
  - destruct (proj1 Hiff eq_refl) as [? [=]].
Qed.

Lemma custody_after_projection c task received notification published :
  custody_after (Startup_Projection task received notification published) c →
  ∃ task' received', c = Startup_Projection task' received' notification published.
Proof. destruct c as [|t r n x]; cbn; [done|]. intros (<- & <- & _). by do 2 eexists. Qed.

Lemma wait_projection_left polls w task received notification published report :
  custody_ok (Startup_Projection task received notification published) →
  wp (wait_projection polls)
    (row_left custody_ok custody_after (Startup_Projection task received notification published)
       report (λ _ c' report', report' = report ∧ awaited c'))
    (w, (Startup_Projection task received notification published, report)).
Proof using law.
  revert w task received. induction polls as [|polls IH]; intros w task received Hok; cbn [wait_projection].
  { by split_and!. }
  wp_step. eapply wp_mono; [by apply poll_projection_left|].
  intros [w1 [c1 report1]] [ended| |payload|] (Hok1 & Ha & Hc & Hv & Hd); cbn [fst snd wp_then] in *;
    [|by split_and!..|done].
  destruct Hd as [-> Hd]. destruct ended; [wp_step; split_and!; auto; by apply Hd|].
  wp_step. wp_step. destruct (custody_after_projection _ _ _ _ _ Ha) as (task1 & received1 & ->).
  eapply wp_mono; [by apply IH|].
  intros [w2 [c2 report2]] o (Hok2 & Ha2 & Hc2 & Hv2 & Ho2). cbn [fst snd] in *.
  split_and!; [done|by etransitivity|done|done|done].
Qed.

Lemma receive_projection_left w task received notification published report :
  custody_ok (Startup_Projection task received notification published) →
  wp receive_projection
    (row_left custody_ok custody_after (Startup_Projection task received notification published)
       report (λ goes_on c' report', goes_on = true ∧ projection_ended c' report'))
    (w, (Startup_Projection task received notification published, report)).
Proof using law.
  intros Hok. unfold receive_projection. wp_step. wp_step. cbn [fst snd].
  apply (wp_bind (match received with None => _ | Some _ => _ end)).
  apply (wp_mono _ (row_left custody_ok custody_after (Startup_Projection task received notification published)
       report (λ _ c' report', report' = report ∧ awaited c'))).
  { destruct received as [received|].
    - wp_step. split_and!; try done. cbn. destruct Hok as [Hiff _].
      by rewrite (proj2 Hiff (mk_is_Some _ _ eq_refl)).
    - by apply wait_projection_left. }
  intros [w1 [c1 report1]] [[]| |payload|] (Hok1 & Ha & Hc & Hv & Hd); cbn [fst snd wp_then] in *;
    [|by split_and!..|done].
  destruct Hd as [-> Hd].
  destruct (custody_after_projection _ _ _ _ _ Ha) as (task1 & received1 & ->).
  destruct task1 as [task1|]; [done|]. destruct received1 as [joined|]; [|done].
  wp_step. wp_step. cbn [fst snd]. wp_step. wp_step. cbn [fst snd].
  apply (wp_bind (match joined with Err _ => _ | Ok _ => _ end)).
  destruct joined as [terminal|error]; wp_step; wp_step; cbn [fst snd];
    (split_and!; [done|done| |done|done|]);
    [apply covered_combine|split; [done|exists (Ok terminal)]| |split; [done|exists (Err error)]].
  - split_and!; [done|apply covered_part|done].
  - etransitivity; [apply covered_combine|apply covered_with_failures].
  - split_and!; [done| |by destruct (combine _ _) as [[] []]].
    etransitivity; [apply covered_part|apply covered_with_failures].
Qed.

(** A startup whose retirement is complete. *)
Definition startup_ended (c : StartupRetirementCustody) (report : ActorRetirementReport) : Prop :=
  match c with
  | Startup_Raw s => raw_failed s report
  | Startup_Projection _ _ _ _ => projection_ended c report
  end.

Lemma receive_startup_left id kind address route w c report :
  custody_ok c →
  wp (receive_startup id kind address route)
    (row_left custody_ok custody_after c report
       (λ x c' report', ∃ origin, x = Some origin ∧ startup_ended c' report'))
    (w, (c, report)).
Proof using law.
  intros Hok. unfold receive_startup. wp_step. apply wp_aside. intros w1 o Ho.
  pose proof (make_origin_quiet address route id kind w) as Hq. rewrite Ho in Hq.
  destruct o as [origin| |payload|]; cbn [wp_then] in *; [|by split_and!..|done].
  wp_step. eapply wp_mono; [by apply receive_raw_left|].
  intros [w2 [c2 report2]] [go| |payload|] (Hok2 & Ha & Hc & Hv & Hd); cbn [fst snd wp_then] in *;
    [|by split_and!..|done].
  destruct Hd as [-> Hd]. wp_step. destruct c2 as [slots|task received notification published].
  - unfold receive_projection. wp_step. wp_step. cbn [fst snd]. wp_step.
    by apply origin_left.
  - eapply wp_mono; [by apply receive_projection_left|].
    intros [w3 [c3 report3]] [go| |payload|] (Hok3 & Ha3 & Hc3 & Hv3 & Hd3); cbn [fst snd wp_then] in *;
      [|by split_and!; [|etransitivity..|]..|done].
    destruct Hd3 as [-> Hd3].
    apply origin_left; [done|by etransitivity|by etransitivity|]. intros _.
    destruct (custody_after_projection _ _ _ _ _ Ha3) as (task3 & received3 & ->). done.
Qed.

Definition startup_rejected (row : CreationBinding) : Prop :=
  match row with Creation_StartupRejected _ _ _ _ => True | _ => False end.

(** A row that can be transferred: its results, which are no failure under a
    clean report unless its startup was rejected. *)
Definition row_done (id : CreationId) (origin : Origin) (row : CreationBinding)
    (report : ActorRetirementReport) : Prop :=
  ∃ roots failures, settle_row id origin row = Some (roots, failures) ∧
    (report = clean → failures = [] ∨ startup_rejected row).

Lemma established_done id origin kind route endpoint control slots retirement report :
  complete slots = true → (projected_failed slots = true → report ≠ clean) →
  row_done id origin (Creation_Established kind route endpoint control slots retirement) report.
Proof.
  intros Hc Hf. unfold complete in Hc. unfold row_done. cbn [settle_row]. unfold projected_failed in Hf.
  destruct (slot_received slots) as [[[terminal|error]|error]|], (slot_notification slots) as [[receipts|error']|];
    try by destruct (slot_owned slots).
  all: cbn in Hf |- *; do 2 eexists; (split; [reflexivity|]); intros Hr; try by destruct Hf.
  left. destruct (has_failures receipts); [by destruct Hf|done].
Qed.

Lemma startup_done id origin kind address route c report :
  custody_ok c → startup_ended c report →
  row_done id origin (Creation_RetiringStartup kind address route c) report.
Proof.
  intros Hok Hs. unfold row_done. destruct c as [slots|task received notification published]; cbn in *.
  - destruct Hs as (error & notification & -> & -> & Hr). do 2 eexists. by split.
  - destruct Hs as (-> & x & -> & Hc & Hx). destruct x as [terminal|error]; cbn; do 2 eexists;
      (split; [reflexivity|]); intros ->; [|by destruct Hx]. left.
    apply covered_clean in Hc as ->. destruct Hok as [_ [o Hp]].
    destruct notification as [[]|error]; [done|]. symmetry in Hp.
    by apply from_joined_failed in Hp; [|right].
Qed.

Lemma receive_row_left id w row report :
  row_ok row → begin_row row = row →
  wp (receive_row id)
    (row_left row_ok row_after row report
       (λ x row' report', ∃ origin, x = Some origin ∧ row_done id origin row' report'))
    (w, (row, report)).
Proof using law.
  intros Hok Hb. unfold receive_row. wp_step. wp_step. cbn [fst snd].
  destruct row as [|kind address route custody|kind route endpoint control slots retirement| |kind address route facts];
    try done.
  - apply wp_hosted. eapply wp_mono; [by apply receive_startup_left|].
    intros [w1 [c1 report1]] o (Hok1 & Ha & Hc & Hv & Ho). cbn [fst snd] in *. split_and!; try done.
    destruct o as [x| |payload|]; try done. destruct Ho as (origin & -> & Hs). exists origin.
    split; [done|]. by apply startup_done.
  - apply wp_hosted. eapply wp_mono; [by apply receive_established_left|].
    intros [w1 [s1 report1]] o (Hok1 & Ha & Hc & Hv & Ho). cbn [fst snd] in *. split_and!; try done.
    destruct o as [x| |payload|]; try done. destruct Ho as (origin & -> & Hs & Hf). exists origin.
    split; [done|]. by apply established_done.
  - apply origin_left; [done|done|done|]. intros origin. unfold row_done. cbn [settle_row].
    do 2 eexists. split; [reflexivity|]. by right.
Qed.

(** *** What stops the next attempt *)

Lemma receive_established_going id kind route endpoint retirement w slots report :
  calm_notice projected_receipt → slots_ok slots →
  wp (receive_established id kind route endpoint retirement)
    (λ st o, o ≠ Pending → unawaited st.2.1) (w, (slots, report)).
Proof using law.
  intros Hc Hok. unfold receive_established. wp_step. wp_step.
  eapply wp_mono; [by apply wait_projected_left|].
  intros [w1 s1] [[]| |payload|] [[(Hok1 & Hk & Ho) Hv] Hu]; cbn [fst snd wp_then] in *; [|done|by auto..].
  specialize (Hu Hc ltac:(done)). wp_step. wp_step. cbn [fst]. destruct (complete s1); [|by wp_step].
  do 6 wp_step. apply wp_bind, wp_aside. cbn [fst snd]. intros w2 [origin| |payload|] _; cbn [wp_then]; try done.
  by wp_step.
Qed.

Lemma receive_row_going id w row report :
  calm_notice projected_receipt → row_ok row → begin_row row = row →
  wp (receive_row id) (λ st o, o ≠ Pending → row_going st.2.1) (w, (row, report)).
Proof using law.
  intros Hc Hok Hb. unfold receive_row. wp_step. wp_step. cbn [fst snd].
  destruct row as [|kind address route custody|kind route endpoint control slots retirement| |kind address route facts];
    try done.
  - apply wp_hosted. unfold wp. by destruct (receive_startup _ _ _ _ _) as [[w1 x] o].
  - apply wp_hosted. eapply wp_mono; [by apply receive_established_going|].
    by intros [w1 [slots1 report1]] o Hu.
  - wp_step. apply wp_aside. intros w2 [origin| |payload|] _; by cbn [wp_then].
Qed.

(** *** The node *)

Definition rows_going (n : Node) : Prop := ∀ id row, creations n !! id = Some row → row_going row.

(** Every ordered creation owns a row that can be retired. *)
Definition node_ok (n : Node) : Prop :=
  NoDup (creation_order n) ∧
  ∀ id, id ∈ creation_order n → ∃ row, creations n !! id = Some row ∧ row_ok row.

Definition row_at (n : Node) (id : CreationId) (P : CreationBinding → Prop) : Prop :=
  ∃ row, creations n !! id = Some row ∧ P row.

(** A row that was transferred, by what it was in the node. *)
Record Transfer := { transferred : CreationId; transferred_roots : list Root;
                     transferred_failures : list ChildFailure }.

Definition transfers (n : Node) (t : Transfer) : Prop :=
  row_at n (transferred t) (λ row, ∃ row' origin, row_after row row' ∧
    settle_row (transferred t) origin row' = Some (transferred_roots t, transferred_failures t)).

(** Rows were transferred from the front, one after the other; the rest are the
    same children. *)
Record rows_moved (n : Node) (ts : list Transfer) (n' : Node) : Prop := {
  moved_order : creation_order n = (transferred <$> ts) ++ creation_order n';
  moved_transfers : Forall (transfers n) ts;
  moved_rest : ∀ id, id ∈ creation_order n' →
    row_at n id (λ row, row_at n' id (λ row', row_after row row'))
}.

(** A transferred row is a failure under a clean report only if its startup was
    rejected. *)
Definition honest (n : Node) (t : Transfer) : Prop :=
  transferred_failures t = [] ∨ row_at n (transferred t) startup_rejected.

Record moved (n : Node) (l : Lanes) (ts : list Transfer) (n' : Node) (l' : Lanes) : Prop := {
  moved_rows : rows_moved n ts n';
  moved_roots : retired_children l' = retired_children l ++ (ts ≫= transferred_roots);
  moved_failures :
    child_failures l' = child_failures l ++ (into_failure <$> (ts ≫= transferred_failures));
  moved_report : covered (descendants_report l) (descendants_report l');
  moved_clean : descendants_report l' = clean → Forall (honest n) ts;
  moved_tail : tail n' = tail n;
  moved_ok : node_ok n'
}.

Lemma rows_moved_refl n : node_ok n → rows_moved n [] n.
Proof.
  intros Hok. split; [done|constructor|]. intros id Hid.
  destruct (proj2 Hok id Hid) as (row & Hrow & _). exists row. split; [done|]. by exists row.
Qed.

Lemma moved_refl n l l' :
  node_ok n → retired_children l' = retired_children l → child_failures l' = child_failures l →
  covered (descendants_report l) (descendants_report l') → moved n l [] n l'.
Proof.
  intros Hok Hr Hf Hc.
  split; cbn; try done; try by rewrite app_nil_r. by apply rows_moved_refl.
Qed.

Lemma row_after_rejected row row' : row_after row row' → startup_rejected row' → startup_rejected row.
Proof. by destruct row, row'. Qed.

(** What holds of a row later held of the row before. *)
Lemma row_back n ts n1 id (Q Q1 : CreationBinding → Prop) :
  rows_moved n ts n1 → id ∈ creation_order n1 → row_at n1 id Q1 →
  (∀ row row1, row_after row row1 → Q1 row1 → Q row) → row_at n id Q.
Proof.
  intros Hm Hid (row1 & Hrow1 & H1) HQ.
  destruct (moved_rest _ _ _ Hm id Hid) as (row & Hrow & row1' & Hrow1' & Ha). simplify_eq.
  exists row. split; [done|]. by eapply HQ.
Qed.

Lemma transferred_in n ts n' t : rows_moved n ts n' → t ∈ ts → transferred t ∈ creation_order n.
Proof.
  intros Hm Ht. rewrite (moved_order _ _ _ Hm). apply elem_of_app. left. by apply list_elem_of_fmap_2.
Qed.

Lemma rows_moved_trans n ts n1 ts' n2 :
  rows_moved n ts n1 → rows_moved n1 ts' n2 → rows_moved n (ts ++ ts') n2.
Proof.
  intros H1 H2. split.
  - rewrite (moved_order _ _ _ H1), (moved_order _ _ _ H2), fmap_app. by rewrite app_assoc.
  - apply Forall_app. split; [apply (moved_transfers _ _ _ H1)|].
    pose proof (moved_transfers _ _ _ H2) as Ht. rewrite Forall_forall in Ht |- *. intros t Hin.
    eapply row_back; [done|by eapply transferred_in|by apply Ht|].
    intros row row1 Ha (row' & origin & Ha1 & Hs). exists row', origin. split; [by etransitivity|done].
  - intros id Hid. eapply row_back; [done| |by apply (moved_rest _ _ _ H2)|].
    { rewrite (moved_order _ _ _ H2). apply elem_of_app. by right. }
    intros row row1 Ha (row2 & Hrow2 & Ha2). exists row2. split; [done|by etransitivity].
Qed.

Lemma moved_trans n l ts n1 l1 ts' n2 l2 :
  moved n l ts n1 l1 → moved n1 l1 ts' n2 l2 → moved n l (ts ++ ts') n2 l2.
Proof.
  intros H1 H2. split.
  - eapply rows_moved_trans; by eapply moved_rows.
  - rewrite (moved_roots _ _ _ _ _ H2), (moved_roots _ _ _ _ _ H1), bind_app. by rewrite app_assoc.
  - rewrite (moved_failures _ _ _ _ _ H2), (moved_failures _ _ _ _ _ H1), bind_app, fmap_app.
    by rewrite app_assoc.
  - etransitivity; [apply (moved_report _ _ _ _ _ H1)|apply (moved_report _ _ _ _ _ H2)].
  - intros Hclean. apply Forall_app. split.
    + apply (moved_clean _ _ _ _ _ H1). apply covered_clean. rewrite <- Hclean.
      apply (moved_report _ _ _ _ _ H2).
    + pose proof (moved_clean _ _ _ _ _ H2 Hclean) as Ht. rewrite Forall_forall in Ht |- *.
      intros t Hin. destruct (Ht t Hin) as [?|Hr]; [by left|right].
      eapply row_back; [by eapply moved_rows| |done|apply row_after_rejected].
      eapply transferred_in; [by eapply moved_rows|done].
  - rewrite (moved_tail _ _ _ _ _ H2). apply (moved_tail _ _ _ _ _ H1).
  - apply (moved_ok _ _ _ _ _ H2).
Qed.

Lemma moved_update n l l' id row row' :
  node_ok n → creations n !! id = Some row → row_ok row' → row_after row row' →
  retired_children l' = retired_children l → child_failures l' = child_failures l →
  covered (descendants_report l) (descendants_report l') →
  moved n l [] (with_creations (<[id := row']> (creations n)) n) l'.
Proof.
  intros Hok Hrow Hr' Ha Hroots Hf Hc. split; cbn; try done; try by rewrite app_nil_r.
  - split; [done|constructor|]. intros id' Hid.
    destruct (proj2 Hok id' Hid) as (row1 & Hrow1 & _). exists row1. split; [done|].
    unfold row_at. cbn. destruct (decide (id' = id)) as [->|Hne].
    + rewrite lookup_insert_eq. exists row'. split; [done|]. congruence.
    + rewrite lookup_insert_ne by done. by exists row1.
  - split; [apply Hok|]. cbn. intros id' Hid. destruct (decide (id' = id)) as [->|Hne].
    + rewrite lookup_insert_eq. by exists row'.
    + rewrite lookup_insert_ne by done. by apply Hok.
Qed.

Lemma rows_going_insert n id row :
  rows_going n → row_going row → rows_going (with_creations (<[id := row]> (creations n)) n).
Proof. intros Hn Hr id' row'. cbn. intros [[<- <-]|[_ Hrow]]%lookup_insert_Some; [done|by eapply Hn]. Qed.

Lemma request_rows_left ids w n :
  node_ok n → Forall (λ id, id ∈ creation_order n) ids →
  wp (request_rows ids) (λ st o, is_Violated o = false ∧ (rows_going n → rows_going st.2) ∧
    ∀ l, moved n l [] st.2 l) (w, n).
Proof.
  revert w n. induction ids as [|id ids IH]; intros w n Hok Hin; cbn [request_rows].
  { wp_step. split_and!; [done..|]. intros l. by apply moved_refl. }
  apply Forall_cons in Hin as [Hid Hin].
  destruct (proj2 Hok id Hid) as (row & Hrow & Hr). wp_step. wp_step. rewrite Hrow.
  wp_step. apply wp_perform. intros w1 row' Hreq. pose proof (request_row_ok row w Hr) as Hr'.
  pose proof (request_row_going row w) as Hg.
  rewrite Hreq in Hr', Hg. destruct Hr' as [Hr' Ha]. cbn [wp_then]. wp_step. wp_step.
  pose proof (λ l, moved_update n l l id row row' Hok Hrow Hr' Ha eq_refl eq_refl (reflexivity _)) as Hm.
  eapply wp_mono; [apply IH|].
  - by apply (moved_ok _ _ _ _ _ (Hm {| retired_children := []; child_failures := []; descendants_report := clean |})).
  - done.
  - intros st o (Hv & Hg2 & Hm2). split; [done|]. split.
    + intros Hgo. by apply Hg2, rows_going_insert; [|apply Hg, (Hgo id)].
    + intros l. exact (moved_trans _ _ _ _ _ _ _ _ (Hm l) (Hm2 l)).
Qed.

Lemma moved_push n l id rest origin row roots failures :
  node_ok n → creation_order n = id :: rest → creations n !! id = Some row →
  settle_row id origin row = Some (roots, failures) →
  (descendants_report l = clean → failures = [] ∨ startup_rejected row) →
  let x := push_row id roots failures (n, l) in
  moved n l [{| transferred := id; transferred_roots := roots; transferred_failures := failures |}] x.1 x.2.
Proof.
  intros Hok Ho Hrow Hs Hclean. pose proof Hok as [Hnd Hrows]. rewrite Ho in Hnd.
  apply NoDup_cons in Hnd as [Hnot Hnd]. cbn. split; cbn; rewrite ?Ho, ?app_nil_r; try done.
  - split; cbn; rewrite ?Ho; [done| |].
    + constructor; [|done]. exists row. split; [done|]. by exists row, origin.
    + intros id' Hid. destruct (Hrows id') as (row1 & Hrow1 & _). { rewrite Ho. by right. }
      exists row1. split; [done|]. exists row1. split; [|done]. cbn.
      rewrite lookup_delete_ne; [done|]. by intros ->.
  - intros Hc. constructor; [|done]. destruct (Hclean Hc) as [?|?]; [by left|right]. by exists row.
  - split; cbn; rewrite ?Ho; [done|]. intros id' Hid. rewrite lookup_delete_ne; [|by intros ->].
    apply Hrows. rewrite Ho. by right.
Qed.

Lemma retire_row_left id rest w n l :
  node_ok n → creation_order n = id :: rest →
  wp (retire_row id)
    (λ '(_, (n', l')) o, is_Violated o = false ∧
       (calm_notice projected_receipt → o ≠ Pending → rows_going n → rows_going n') ∧
       match o with
       | Ready goes_on => goes_on = true ∧ creation_order n' = rest ∧ ∃ t, moved n l [t] n' l'
       | _ => moved n l [] n' l'
       end) (w, (n, l)).
Proof using law.
  intros Hok Ho. pose proof Hok as [Hnd Hrows].
  destruct (Hrows id) as (row & Hrow & Hr). { rewrite Ho. by left. }
  destruct (begin_row_ok row Hr) as [Hr1 Ha1].
  unfold retire_row. wp_step. wp_step. cbn [fst snd].
  set (n1 := with_creations (alter begin_row id (creations n)) n).
  assert (creations n1 !! id = Some (begin_row row)) as Hrow1.
  { cbn. by rewrite lookup_alter_eq, Hrow. }
  assert (moved n l [] n1 l) as Hm1.
  { assert (n1 = with_creations (<[id := begin_row row]> (creations n)) n) as ->.
    { unfold n1. f_equal. apply map_eq. intros j. destruct (decide (j = id)) as [->|Hne].
      - by rewrite lookup_alter_eq, Hrow, lookup_insert_eq.
      - by rewrite lookup_alter_ne, lookup_insert_ne. }
    by eapply moved_update. }
  wp_step. wp_step. cbn [fst snd]. rewrite Hrow1. wp_step. apply wp_hosted.
  assert (begin_row (begin_row row) = begin_row row) as Hbegun by by destruct row.
  assert (calm_notice projected_receipt → wp (receive_row id) (λ st o, o ≠ Pending → row_going st.2.1)
    (w, (begin_row row, descendants_report l))) as Hgo by (intros Hc; by apply receive_row_going).
  pose proof (receive_row_left id w (begin_row row) (descendants_report l) Hr1 Hbegun) as Hl.
  unfold wp in Hgo, Hl |- * at 1. cbn [descendants_report lanes_report] in *.
  destruct (receive_row id (w, (begin_row row, descendants_report l))) as [[w2 [row2 report2]] o].
  destruct Hl as (Hr2 & Ha2 & Hc2 & Hv & Ho2). cbn [fst snd] in *.
  assert (rows_going n → rows_going n1) as Hg1.
  { intros Hn id' row'. cbn. intros Hrow'. destruct (decide (id' = id)) as [->|Hne].
    - rewrite lookup_alter_eq, Hrow in Hrow'. injection Hrow' as <-. specialize (Hn id row Hrow). by destruct row.
    - rewrite lookup_alter_ne in Hrow' by done. by eapply Hn. }
  set (n2 := with_creations (<[id := row2]> (creations n1)) n1).
  assert (moved n1 l [] n2 (lanes_report report2 l)) as Hm2.
  { eapply moved_update; try done. apply (moved_ok _ _ _ _ _ Hm1). }
  pose proof (moved_trans _ _ _ _ _ _ _ _ Hm1 Hm2) as Hm. cbn [app] in Hm.
  assert (calm_notice projected_receipt → o ≠ Pending → rows_going n → rows_going n2) as Hg2.
  { intros Hcalm Hp Hn. apply rows_going_insert; [by apply Hg1|by apply Hgo]. }
  destruct o as [x| |payload|]; cbn [wp_then]; [|by split_and!|split_and!; [done|by intros ? _; apply Hg2|done]|done].
  destruct Ho2 as (origin & -> & roots & failures & Hs & Hclean).
  wp_step. wp_step. cbn [fst snd].
  assert (creations n2 !! id = Some row2) as Hrow2 by apply lookup_insert_eq.
  rewrite Hrow2. cbn [mbind option_bind]. rewrite Hs. wp_step. wp_step. wp_step.
  assert (creation_order n2 = id :: rest) as Ho' by done.
  pose proof (moved_push n2 (lanes_report report2 l) id rest origin row2 roots failures
    (moved_ok _ _ _ _ _ Hm) Ho' Hrow2 Hs Hclean) as Hp.
  split; [done|]. split.
  { intros Hcalm _ Hn id' row'. cbn. intros [_ Hrow']%lookup_delete_Some. by eapply Hg2. }
  split; [done|]. split; [exact (f_equal List.tl Ho')|]. eexists.
  exact (moved_trans _ _ _ _ _ _ _ _ Hm Hp).
Qed.

Lemma retire_rows_left fuel w n l :
  node_ok n → fuel = length (creation_order n) →
  wp (retire_rows fuel)
    (λ '(_, (n', l')) o, is_Violated o = false ∧ (∃ ts, moved n l ts n' l') ∧
       (calm_notice projected_receipt → o ≠ Pending → rows_going n → rows_going n') ∧
       match o with Ready goes_on => goes_on = true ∧ creation_order n' = [] | _ => True end)
    (w, (n, l)).
Proof using law.
  revert w n l. induction fuel as [|fuel IH]; intros w n l Hok Hf; cbn [retire_rows]; wp_step; wp_step;
    cbn [fst]; destruct (creation_order n) as [|id rest] eqn:Ho; try done.
  { wp_step. split; [done|]. split; [|done]. eexists. by apply moved_refl. }
  injection Hf as Hf. wp_step. eapply wp_mono; [by eapply retire_row_left|].
  intros [w1 [n1 l1]] o (Hv & Hg & Hm). destruct o as [go| |payload|]; cbn [wp_then];
    [|by split_and!; [|by eexists|..]|split_and!; [done|by eexists|by intros ? _; apply Hg|done]|done].
  destruct Hm as (-> & Ho1 & t & Hm).
  eapply wp_mono; [apply IH; [apply (moved_ok _ _ _ _ _ Hm)|by rewrite Ho1]|].
  intros [w2 [n2 l2]] o (Hv2 & [ts Hm2] & Hg2 & Ho2). split; [done|]. split; [by eexists; eapply moved_trans|].
  split; [|done]. intros Hcalm Hp Hn. apply Hg2; [done..|]. by apply Hg.
Qed.

(** *** The product *)

Context {tail_law : ChildTasksLaw (P := Panic) (W := World) (Root := Root) (Failure := Failure)
  (Bindings := Tail)}.

Definition tail_handed (t t' : option Tail) (roots : list Root) (failures : list Failure) : Prop :=
  match t with
  | Some t => handed t t' roots failures
  | None => t' = None ∧ roots = [] ∧ failures = []
  end.

Definition all_ok (n : Node) : Prop :=
  node_ok n ∧ ∀ t, tail n = Some t → bindings_ok t.

Definition all_unrejected (n : Node) : Prop :=
  (∀ id, id ∈ creation_order n → ¬ row_at n id startup_rejected) ∧
  ∀ t, tail n = Some t → unrejected t.

(** Bindings that end an attempt before it does anything. *)
Definition node_stopped (n : Node) : Prop :=
  contradicts n = true ∨
  creation_order n = [] ∧ ∃ t, tail n = Some t ∧ stopped t.

(** Bindings that do not: no row awaits a receipt alone, and awaiting one does not
    unwind. *)
Definition node_going (n : Node) : Prop :=
  calm_notice projected_receipt ∧ rows_going n ∧ ∀ t, tail n = Some t → going t.

(** The rows of this occurrence come first, in the order of creation. *)
Definition node_handed (n : Node) (c : option Node) (roots : list Root) (failures : list Failure) : Prop :=
  ∃ ts roots' failures',
    roots = (ts ≫= transferred_roots) ++ roots' ∧
    failures = (into_failure <$> (ts ≫= transferred_failures)) ++ failures' ∧
    match c with
    | Some n' =>
        rows_moved n ts n' ∧ tail_handed (tail n) (tail n') roots' failures' ∧
        (creation_order n' ≠ [] → roots' = [] ∧ failures' = [])
    | None =>
        creation_order n = transferred <$> ts ∧ Forall (transfers n) ts ∧
        tail_handed (tail n) None roots' failures'
    end.

Lemma tail_handed_refl n : all_ok n → tail_handed (tail n) (tail n) [] [].
Proof. intros [_ Ht]. unfold tail_handed. destruct (tail n); [by apply handed_refl, Ht|done]. Qed.

Lemma tail_handed_trans t t' t'' roots failures roots' failures' :
  tail_handed t t' roots failures → tail_handed t' t'' roots' failures' →
  tail_handed t t'' (roots ++ roots') (failures ++ failures').
Proof.
  unfold tail_handed. destruct t as [t|].
  - destruct t' as [t'|]; [apply handed_trans|]. intros H (-> & -> & ->). by rewrite !app_nil_r.
  - by intros (-> & -> & ->).
Qed.

Lemma node_handed_refl n : all_ok n → node_handed n (Some n) [] [].
Proof.
  intros Hok. exists [], [], []. split_and!; try done; [by apply rows_moved_refl, Hok|by apply tail_handed_refl].
Qed.

Lemma node_handed_trans n n' c roots failures roots' failures' :
  node_handed n (Some n') roots failures → node_handed n' c roots' failures' →
  node_handed n c (roots ++ roots') (failures ++ failures').
Proof.
  intros (ts & r & f & -> & -> & Hm & Ht & Hfirst) (ts' & r' & f' & -> & -> & Hc).
  exists (ts ++ ts'), (r ++ r'), (f ++ f').
  assert (ts' ≠ [] → r = [] ∧ f = []) as Hts.
  { intros Hne. apply Hfirst. destruct c as [n''|].
    - destruct Hc as (Hm' & _). rewrite (moved_order _ _ _ Hm'). by destruct ts'.
    - destruct Hc as (-> & _). by destruct ts'. }
  split; [|split].
  - rewrite bind_app, <- !app_assoc. f_equal. destruct ts' as [|t ts']; [done|].
    by destruct Hts as [-> _].
  - rewrite bind_app, fmap_app, <- !app_assoc. f_equal. destruct ts' as [|t ts']; [done|].
    by destruct Hts as [_ ->].
  - destruct c as [n''|].
    + destruct Hc as (Hm' & Ht' & Hfirst'). split; [by eapply rows_moved_trans|].
      split; [by eapply tail_handed_trans|]. intros Hne. destruct (Hfirst' Hne) as [-> ->].
      destruct Hfirst as [-> ->]; [|done]. rewrite (moved_order _ _ _ Hm'). by destruct (transferred <$> ts').
    + destruct Hc as (Ho & Hts' & Ht'). split; [|split; [|by eapply tail_handed_trans]].
      * by rewrite (moved_order _ _ _ Hm), Ho, fmap_app.
      * apply Forall_app. split; [apply (moved_transfers _ _ _ Hm)|].
        rewrite Forall_forall in Hts' |- *. intros t Hin.
        eapply row_back; [done| |by apply Hts'|].
        { rewrite Ho. by apply list_elem_of_fmap_2. }
        intros row row1 Ha (row' & origin & Ha1 & Hs). exists row', origin. split; [by etransitivity|done].
Qed.

Lemma moved_all_ok n l ts n' l' : all_ok n → moved n l ts n' l' → all_ok n'.
Proof. intros [_ Ht] Hm. split; [apply (moved_ok _ _ _ _ _ Hm)|]. by rewrite (moved_tail _ _ _ _ _ Hm). Qed.

Lemma moved_handed n l ts n' l' :
  all_ok n → moved n l ts n' l' →
  node_handed n (Some n') (ts ≫= transferred_roots) (into_failure <$> (ts ≫= transferred_failures)).
Proof.
  intros Hok Hm. exists ts, [], []. rewrite !app_nil_r. split_and!; try done.
  - apply (moved_rows _ _ _ _ _ Hm).
  - rewrite (moved_tail _ _ _ _ _ Hm). by apply tail_handed_refl.
Qed.

Lemma node_handed_unrejected n n' roots failures :
  node_handed n (Some n') roots failures → all_unrejected n → all_unrejected n'.
Proof.
  intros (ts & r & f & -> & -> & Hm & Ht & _) [Hrows Htail]. split.
  - intros id Hid Hr. apply (Hrows id).
    + rewrite (moved_order _ _ _ Hm). apply elem_of_app. by right.
    + eapply row_back; [done..|]. apply row_after_rejected.
  - intros t' Ht'. unfold tail_handed in Ht. destruct (tail n) as [t|] eqn:Htn.
    + rewrite Ht' in Ht. eapply handed_unrejected; [done|by apply Htail].
    + destruct Ht as [Ht _]. congruence.
Qed.

Lemma honest_unrejected n ts :
  (∀ t, t ∈ ts → transferred t ∈ creation_order n) →
  (∀ id, id ∈ creation_order n → ¬ row_at n id startup_rejected) →
  Forall (honest n) ts → ts ≫= transferred_failures = [].
Proof.
  intros Hin Hrows Hh. induction ts as [|t ts IH]; [done|]. apply Forall_cons in Hh as [Ht Hh]. cbn.
  rewrite IH; [|intros t' Ht'; apply Hin; by right|done]. rewrite app_nil_r.
  destruct Ht as [->|Hr]; [done|]. exfalso. eapply Hrows; [|done]. apply Hin. by left.
Qed.

(** The tail of a node is replaced. *)
Lemma with_tail_handed n t' roots failures :
  all_ok n → tail_handed (tail n) t' roots failures → creation_order n = [] ∨ roots = [] ∧ failures = [] →
  node_handed n (Some (with_tail t' n)) roots failures.
Proof.
  intros Hok Ht He. exists [], roots, failures. split_and!; try done.
  - by destruct (rows_moved_refl n (proj1 Hok)).
  - cbn. intros Hne. by destruct He.
Qed.

Lemma request_node_law w n :
  all_ok n →
  wp request_node (λ st o, is_Violated o = false ∧ all_ok st.2 ∧ (node_going n → node_going st.2) ∧
    node_handed n (Some st.2) [] []) (w, n).
Proof.
  intros Hok. unfold request_node. wp_step. wp_step. wp_step.
  eapply wp_mono; [apply request_rows_left; [apply Hok|by apply Forall_forall]|].
  intros [w1 n1] o (Hv & Hg & Hm). cbn [snd] in Hm, Hg.
  pose proof (Hm {| retired_children := []; child_failures := []; descendants_report := clean |}) as Hm'.
  pose proof (moved_all_ok _ _ _ _ _ Hok Hm') as Hok1. pose proof (moved_handed _ _ _ _ _ Hok Hm') as Hh.
  assert (node_going n → node_going n1) as Hgo.
  { intros (Hc & Hn & Ht). split; [done|]. split; [by apply Hg|]. by rewrite (moved_tail _ _ _ _ _ Hm'). }
  cbn in Hh. destruct o as [[]| |payload|]; cbn [wp_then]; try by split_and!.
  wp_step. wp_step. destruct (tail n1) as [t|] eqn:Ht; [|by wp_step].
  apply wp_hosted. eapply wp_mono; [apply request_law, Hok1; done|].
  intros [w2 t2] o (Hv2 & Hok2 & Hgo2 & Hh2). cbn [snd] in *. split; [done|]. split_and!.
  - split; [apply Hok1|]. cbn. by intros ? [= <-].
  - intros (Hc & Hn & Htl)%Hgo. split; [done|]. split; [done|]. cbn. intros ? [= <-]. auto.
  - eapply (node_handed_trans n n1 _ [] [] [] []); [done|].
    apply with_tail_handed; [done|by rewrite Ht|by right].
Qed.

Lemma rejected_reports_covered (m : gmap CreationId CreationBinding) r : covered r (rejected_reports m r).
Proof.
  unfold rejected_reports. revert m.
  apply (map_fold_weak_ind (λ x _, covered r x)); [done|].
  intros i row m x Hi Hx. destruct row; try done. etransitivity; [done|apply covered_combine].
Qed.

(** What an attempt did so far. *)
Definition node_received (n : Node) (l : Lanes) (n' : Node) (l' : Lanes) : Prop :=
  all_ok n' ∧ covered (descendants_report l) (descendants_report l') ∧
  ∃ roots failures, node_handed n (Some n') roots failures ∧
    retired_children l' = retired_children l ++ roots ∧
    child_failures l' = child_failures l ++ failures ∧
    (descendants_report l' = clean → all_unrejected n → failures = []).

Lemma node_received_trans n l n1 l1 n2 l2 :
  node_received n l n1 l1 → node_received n1 l1 n2 l2 → node_received n l n2 l2.
Proof.
  intros (_ & Hc1 & r1 & f1 & Hh1 & Hr1 & Hf1 & Hu1) (Hok & Hc2 & r2 & f2 & Hh2 & Hr2 & Hf2 & Hu2).
  split; [done|]. split; [by etransitivity|]. exists (r1 ++ r2), (f1 ++ f2). split_and!.
  - by eapply node_handed_trans.
  - by rewrite Hr2, Hr1, app_assoc.
  - by rewrite Hf2, Hf1, app_assoc.
  - intros Hclean Hu. rewrite Hu1; [|apply covered_clean; by rewrite <- Hclean|done].
    rewrite Hu2; [done|done|]. by eapply node_handed_unrejected.
Qed.

Lemma node_received_same n l n' l' :
  all_ok n' → node_handed n (Some n') [] [] → retired_children l' = retired_children l →
  child_failures l' = child_failures l → covered (descendants_report l) (descendants_report l') →
  node_received n l n' l'.
Proof.
  intros Hok Hh Hr Hf Hc. split; [done|]. split; [done|]. exists [], []. by rewrite !app_nil_r.
Qed.

Lemma moved_received n l ts n' l' : all_ok n → moved n l ts n' l' → node_received n l n' l'.
Proof.
  intros Hok Hm. split; [by eapply moved_all_ok|]. split; [apply (moved_report _ _ _ _ _ Hm)|].
  do 2 eexists. split; [by eapply moved_handed|].
  split; [apply (moved_roots _ _ _ _ _ Hm)|]. split; [apply (moved_failures _ _ _ _ _ Hm)|].
  intros Hclean [Hu _]. rewrite (honest_unrejected n ts); [done| |done|].
  - intros t Ht. eapply transferred_in; [by eapply moved_rows|done].
  - by apply (moved_clean _ _ _ _ _ Hm).
Qed.

Lemma receive_tail_law w n l :
  all_ok n → creation_order n = [] →
  wp (hosted (tail n, l) (λ y, (with_tail y.1 n, y.2)) receive_children)
    (λ '(_, (n', l')) o, is_Violated o = false ∧ node_received n l n' l' ∧ creation_order n' = [] ∧
       (o ≠ Pending → node_going n → node_going n') ∧
       (is_Ready o = true → ∀ t, tail n' = Some t → stopped t)) (w, (n, l)).
Proof using law.
  intros Hok Ho. apply wp_hosted. destruct (tail n) as [t|] eqn:Ht.
  - eapply wp_mono; [apply receive_law, Hok; done|].
    intros [w1 [t' l']] o (Hv & Hc & Hok1 & Hs & Hgo & r & f & Hh & Hr & Hf & Hu). cbn [fst snd] in *.
    split_and!; try done.
    2: { intros Hp (Hcalm & Hn & Htl). split; [done|]. split; [done|]. cbn. by apply Hgo, Htl. }
    split; [|split; [done|]].
    { split; [apply Hok|]. cbn. exact Hok1. }
    exists r, f. split_and!; try done.
    + apply with_tail_handed; [done|by rewrite Ht|by left].
    + intros Hclean [_ Hut]. by apply Hu, Hut.
  - unfold wp. rewrite receive_none. cbn [fst snd]. split_and!; try done.
    2: { intros _ (Hcalm & Hn & _). by split. }
    apply node_received_same; try done; [by split; [apply Hok|]|].
    apply with_tail_handed; [done|by rewrite Ht|by left].
Qed.

Lemma receive_node_law w n l :
  all_ok n →
  wp receive_node
    (λ '(_, (n', l')) o,
       is_Violated o = false ∧ node_received n l n' l' ∧
       (o ≠ Pending → node_going n → node_going n') ∧
       match o with
       | Ready true => tail n' = None ∧ creation_order n' = []
       | Ready false => node_stopped n'
       | _ => True
       end) (w, (n, l)).
Proof using law.
  intros Hok. unfold receive_node. wp_step. wp_step. cbn [fst snd].
  set (l1 := lanes_report _ l).
  assert (node_received n l n l1) as Hr1.
  { apply node_received_same; try done; [by apply node_handed_refl|apply rejected_reports_covered]. }
  wp_step. wp_step. cbn [fst]. destruct (contradicts n) eqn:Hstop.
  { wp_step. split_and!; try done. by left. }
  wp_step. wp_step. eapply wp_mono; [by apply request_node_law|].
  intros [w1 n1] o (Hv1 & Hok1 & Hg1 & Hh1). cbn [fst snd] in *.
  assert (node_received n l n1 l1) as Hr2.
  { eapply node_received_trans; [exact Hr1|]. by apply node_received_same. }
  destruct o as [[]| |payload|]; cbn [wp_then]; [|by split_and!..|done].
  wp_step. wp_step. cbn [fst]. wp_step. eapply wp_mono; [by apply retire_rows_left; [apply Hok1|]|].
  intros [w2 [n2 l2]] o (Hv2 & [ts Hm] & Hg & Ho2).
  assert (o ≠ Pending → node_going n → node_going n2) as Hg2.
  { intros Hp (Hc & Hn & Ht)%Hg1. split; [done|]. split; [by apply Hg|]. by rewrite (moved_tail _ _ _ _ _ Hm). }
  pose proof (moved_received _ _ _ _ _ Hok1 Hm) as Hr3.
  pose proof (node_received_trans _ _ _ _ _ _ Hr2 Hr3) as Hr4.
  destruct o as [go| |payload|]; cbn [wp_then];
    [|by split_and!|split_and!; [done|done|by intros _; apply Hg2|done]|done].
  destruct Ho2 as [-> Ho2]. wp_step. wp_step. cbn [fst snd]. wp_step.
  eapply wp_mono; [apply receive_tail_law; [apply Hr3|done]|].
  intros [w3 [n3 l3]] o (Hv3 & Hr5 & Ho3 & Hg3 & Hs).
  assert (o ≠ Pending → node_going n → node_going n3) as Hg4 by (intros Hp Hn; by apply Hg3, Hg2).
  pose proof (node_received_trans _ _ _ _ _ _ Hr4 Hr5) as Hr6.
  destruct o as [[]| |payload|]; cbn [wp_then]; 
    [|by split_and!|split_and!; [done|done|by intros _; apply Hg4|done]|done].
  wp_step. cbn [fst]. split; [done|]. split; [done|]. split; [by intros _; apply Hg4|].
  destruct (tail n3) as [t|] eqn:Ht; [|done]. right. split; [done|]. exists t. split; [done|]. by apply Hs.
Qed.

(** What goes on is not stopped. *)
Lemma node_going_on n : all_ok n → node_going n → ¬ node_stopped n.
Proof using law.
  intros [[_ Hrows] Ht] (_ & Hn & Htl) [Hc|(_ & t & Htail & Hs)].
  - unfold contradicts in Hc. apply existsb_exists in Hc as (id & Hin & Hrow).
    destruct (Hrows id) as (row & Hlook & Hok); [by apply list_elem_of_In|]. rewrite Hlook in Hrow.
    cbn in Hrow. specialize (Hn id row Hlook).
    destruct row as [| |kind route endpoint control slots retirement| |]; try done.
    cbn in Hrow, Hok, Hn. unfold slots_ok in Hok. unfold unawaited in Hn.
    destruct (slot_owned slots), (slot_received slots); try done.
    + by discriminate (Hn (mk_is_Some _ _ eq_refl)).
    + by destruct Hok as [[? [=]] _].
  - by eapply going_on; [apply Ht|apply Htl|].
Qed.

#[export] Instance child_binding_law :
  ChildTasksLaw (P := Panic) (W := World) (Root := Root) (Failure := Failure)
    (Bindings := ChildBinding Tail).
Proof using law tail_law.
  refine {| bindings_ok := all_ok; unrejected := all_unrejected; stopped := node_stopped;
            handed := node_handed; going := node_going |}.
  - apply node_going_on.
  - apply node_handed_refl.
  - apply node_handed_trans.
  - apply node_handed_unrejected.
  - apply request_node_law.
  - intros w l. cbn. by rewrite bind_eq.
  - intros w n l Hok. cbn [receive_children child_binding]. wp_step. wp_step. cbn [fst snd].
    wp_step. apply wp_hosted. eapply wp_mono; [by apply receive_node_law|].
    intros [w1 [n1 l1]] o (Hv & (Hok1 & Hc & r & f & Hh & Hr & Hf & Hu) & Hg & Ho). cbn [fst snd] in *.
    destruct o as [ended| |payload|]; cbn [wp_then].
    + destruct ended; wp_step; cbn [fst snd].
      * split_and!; try done. exists r, f. split_and!; try done.
        destruct Hh as (ts & r' & f' & -> & -> & Hm & Ht & _). exists ts, r', f'. split_and!; try done.
        -- rewrite (moved_order _ _ _ Hm). destruct Ho as [_ ->]. by rewrite app_nil_r.
        -- apply (moved_transfers _ _ _ Hm).
        -- by destruct Ho as [<- _].
      * split_and!; try done; [by intros ? [= <-]|by intros _ ? [= <-]|intros _ Hn ? [= <-]; by apply Hg|].
        by exists r, f.
    + split_and!; try done; [by intros ? [= <-]|]. by exists r, f.
    + split_and!; try done; [by intros ? [= <-]|intros _ Hn ? [= <-]; by apply Hg|]. by exists r, f.
    + done.
Defined.

(** ** Theorems *)

(** One attempt: the operation is polled until it is ready, dropped or unwinds. *)
Definition attempt (s s' : option Node * Lanes) : Prop :=
  ∃ w w' o, receive_children (w, s) = ((w', s'), o).

Lemma attempts_handed n l s :
  all_ok n → rtc attempt (Some n, l) s →
  (∀ n', s.1 = Some n' → all_ok n') ∧ covered (descendants_report l) (descendants_report s.2) ∧
  ∃ roots failures, node_handed n s.1 roots failures ∧
    retired_children s.2 = retired_children l ++ roots ∧
    child_failures s.2 = child_failures l ++ failures ∧
    (descendants_report s.2 = clean → all_unrejected n → failures = []).
Proof using law tail_law.
  intros Hok. revert s. apply rtc_ind_r.
  - split; [by intros ? [= <-]|]. split; [done|]. exists [], []. rewrite !app_nil_r. split_and!; try done.
    by apply node_handed_refl.
  - intros [c l1] [c' l2] _ (w & w' & o & Hr) (Hok1 & Hc1 & r1 & f1 & Hh1 & Hr1 & Hf1 & Hu1).
    cbn [fst snd] in *. destruct c as [n1|].
    2: { rewrite receive_none in Hr. injection Hr as <- <- <- <-. split; [done|]. split; [done|]. by exists r1, f1. }
    pose proof (receive_law w n1 l1 (Hok1 n1 eq_refl)) as Hl. unfold wp in Hl. rewrite Hr in Hl.
    cbn [fst snd] in Hl. destruct Hl as (_ & Hc2 & Hok2 & _ & _ & r2 & f2 & Hh2 & Hr2 & Hf2 & Hu2).
    split; [done|]. split; [by etransitivity|]. exists (r1 ++ r2), (f1 ++ f2). split_and!.
    + by eapply node_handed_trans.
    + by rewrite Hr2, Hr1, app_assoc.
    + by rewrite Hf2, Hf1, app_assoc.
    + intros Hclean Hu. rewrite Hu1; [|apply covered_clean; by rewrite <- Hclean|done].
      rewrite Hu2; [done|done|]. by eapply node_handed_unrejected.
Qed.

(** C10: However many attempts to retire the children of an actor are dropped or
    unwind, the rows are transferred in the order of creation, each exactly once
    with the results of the very child it names, the remaining rows are kept with
    everything they acquired, and the next attempt breaks no assertion; one that
    returns has retired every child or stops in front of a row that it takes for
    contradictory.  Under a clean report no task is among the failures. *)
Theorem children_hand_over n l c l' :
  all_ok n → rtc attempt (Some n, l) (c, l') →
  (∃ roots failures, node_handed n c roots failures ∧
     retired_children l' = retired_children l ++ roots ∧
     child_failures l' = child_failures l ++ failures ∧
     (descendants_report l' = clean → all_unrejected n → failures = [])) ∧
  ∀ w, let '((_, (c', _)), o) := receive_children (w, (c, l')) in
    is_Violated o = false ∧ (is_Ready o = true → ∀ n', c' = Some n' → node_stopped n').
Proof using law tail_law.
  intros Hok Hr. destruct (attempts_handed n l (c, l') Hok Hr) as (Hok' & _ & Hh).
  split; [exact Hh|]. intros w. cbn [fst snd] in *. destruct c as [n'|].
  - pose proof (receive_law w n' l' (Hok' n' eq_refl)) as Hl. unfold wp in Hl.
    destruct (receive_children (w, (Some n', l'))) as [[w' [c' l'']] o]. by destruct Hl as (? & _ & _ & ? & _).
  - by rewrite receive_none.
Qed.

(** C26: An attempt that was dropped after it acquired a child's result and
    before the receipt of its notifications leaves a row that every later attempt
    takes for contradictory: it returns at once, without asking any child to
    retire and without waiting for the receipt. *)
Theorem awaited_receipt_stops_retirement n l w id kind route endpoint control slots retirement task joined :
  id ∈ creation_order n →
  creations n !! id = Some (Creation_Established kind route endpoint control slots retirement) →
  slot_owned slots = Some task → slot_received slots = Some joined →
  ∃ report, receive_children (w, (Some n, l)) = ((w, (Some n, lanes_report report l)), Ready ()).
Proof.
  intros Hin Hrow Ho Hr.
  assert (contradicts n = true) as Hc.
  { unfold contradicts. apply existsb_exists. exists id. split; [by apply list_elem_of_In|].
    rewrite Hrow. cbn. by rewrite Ho, Hr. }
  cbn [receive_children child_binding]. rewrite bind_eq. cbn [look fst]. rewrite bind_eq.
  unfold hosted, receive_node. rewrite bind_eq. cbn [change fst snd]. rewrite bind_eq. cbn [look fst].
  rewrite Hc. cbn. by eexists.
Qed.
End node.
End children.
