(* ===== verification/ChildExample.v ===== *)
(** * A creator with two children

    The host of LocalExample.v with tasks that carry their result, and the runs
    that the theorems of ChildRetirement.v are applied to. *)

From stdpp Require Import gmap.
From S2P Require Import Prelude Driver Host Assessment LocalIngress LocalEnvironment ActorOutcome.
From S2P Require Import TerminalProjection ActorOwner LocalExample ActorLaunch ChildRetirement.

Definition BenchOutcome : Type := LocalOutcome (TY := bench_types) (B := list nat) (BError := ()).
Definition BenchNotice : Type := Result () (RetirementNotificationError (TY := bench_types)).
Definition BenchReceipts : Type := ActorNotificationReceipts (TY := bench_types).

(** A receipt that is [None] is pending. *)
#[export] Instance bench_children : ChildHost (list nat) () nat nat () nat := {|
  RawHandle := Result BenchOutcome nat; RawReceiver := BenchNotice;
  ProjectedHandle := Result (Result nat nat) nat; ProjectedReceiver := option BenchReceipts;
  ChildCancel := (); Projection := option nat;
  RetirementObservation := option ActorRetirementReport; StartupReceiver := ();
  raw_join joined := mret (Some joined);
  raw_receipt notice := mret (Some (Ok notice));
  raw_drop _ w := w;
  projected_join joined := mret (Some joined);
  projected_receipt receipts := mret (Ok <$> receipts);
  projected_drop _ w := w;
  projection_join root := mret (Some (match root with Some root => Ok root | None => Err 0 end));
  projection_drop _ w := w;
  spawn_projection root w := (w, root);
  child_cancel_send _ := count_disposal; child_cancel_drop _ w := w;
  retirement_try_get report _ := report;
  make_origin address _ _ _ := mret (address : nat);
  idle w := w; child_polls _ := 2
|}.

#[export] Instance bench_children_law : ChildHostLaw (ChildHost0 := bench_children).
Proof. by split. Qed.

Definition bench_endpoint : ActorRef := ActorRef_new 2 (Endpoint_Standard tt) tt.

(** A child with its projected task, whose receipt may be pending, and one that
    is still starting. *)
Definition bench_established (receipts : option BenchReceipts) : CreationBinding (CH := bench_children) :=
  Creation_Established tt 0%N bench_endpoint tt
    {| slot_owned := Some {| owned_task := Some (Ok (Ok 7)); owned_notification := receipts;
                             owned_cancellation := Some tt |};
       slot_received := None; slot_notification := None |} (Some clean).

Definition bench_starting : CreationBinding (CH := bench_children) :=
  Creation_Starting tt 4 1%N tt tt
    (Some {| owned_task := Some (Ok (outcome_from bench_rejected)); owned_notification := Ok tt;
             owned_cancellation := Some tt |}).

Definition bench_node (receipts : option BenchReceipts) :
    @ChildBinding _ _ (list nat) () nat nat () nat _ _ bench_children NoChildBindings :=
  {| creations := {[ 1 := bench_established receipts; 2 := bench_starting ]};
     creation_order := [1; 2]; actors := tt; tail := Some NoChildBindings_new |}.

Definition bench_no_lanes : ChildLanes nat nat :=
  {| retired_children := []; child_failures := []; descendants_report := clean |}.

(** Projections keep the address, failures are told apart by their kind. *)
Definition bench_receive :=
  receive_children (RetireChildTasks := child_binding (AllocationRejection := ())
    (λ _, ([] : list (), ())) (λ origin _, origin)
    (λ failure, match failure with Child_NotificationsFailed _ _ _ _ _ => 1 | _ => 2 end)
    (Tail := NoChildBindings) (CH := bench_children)).

Definition bench_receipts : BenchReceipts :=
  {| notified_termination := Ok (); notified_retirement := Ok () |}.

Definition bench_world : World := bench [] [] None [] None.

Example both_children_retire :
  let '((w, (c, l)), _) := bench_receive (bench_world, (Some (bench_node (Some bench_receipts)), bench_no_lanes)) in
  c = None ∧ retired_children l = [7; 4] ∧ child_failures l = [] ∧ bench_disposed w = 2.
Proof. by vm_compute. Qed.

(** ** Witnesses *)

Lemma bench_node_ok receipts :
  all_ok (CH := bench_children) (Failure := nat) (bench_node receipts).
Proof.
  split; [split|].
  - apply NoDup_cons. split; [by intros ?%list_elem_of_singleton|apply NoDup_singleton].
  - intros id Hid. cbn in Hid. apply elem_of_cons in Hid as [->|Hid].
    + eexists. split; [reflexivity|]. by split; [|split; [|intros [? [=]]]].
    + apply list_elem_of_singleton in Hid as ->. eexists. split; [reflexivity|]. cbn. by eexists; split; [|eexists].
  - done.
Qed.

Local Abbreviation bench_attempt :=
  (attempt (CH := bench_children) (AllocationRejection := ()) (λ _, ([] : list (), ())) (λ origin _, origin)
     (λ failure, match failure with Child_NotificationsFailed _ _ _ _ _ => 1 | _ => 2 end)
     (Tail := NoChildBindings)).

(** One attempt that is dropped while the first child's receipt is pending. *)
Local Abbreviation bench_dropped :=
  (bench_receive (bench_world, (Some (bench_node None), bench_no_lanes))).

Lemma children_hand_over_witness :
  ∃ l roots, rtc bench_attempt (Some (bench_node (Some bench_receipts)), bench_no_lanes) (None, l) ∧
    retired_children l = retired_children bench_no_lanes ++ roots ∧ roots = [7; 4].
Proof.
  assert (∃ w l o, bench_receive (bench_world, (Some (bench_node (Some bench_receipts)), bench_no_lanes))
    = ((w, (None, l)), o) ∧ retired_children l = [7; 4]) as (w & l & o & Hr & Hl)
    by (vm_compute; by do 3 eexists).
  assert (rtc bench_attempt (Some (bench_node (Some bench_receipts)), bench_no_lanes) (None, l)) as Ha.
  { apply rtc_once. by exists bench_world, w, o. }
  destruct (children_hand_over (AllocationRejection := ()) (λ _, ([] : list (), ())) (λ origin _, origin) _
    _ _ _ _ (bench_node_ok (Some bench_receipts)) Ha) as [(roots & failures & _ & Hroots & _) _].
  exists l, roots. split; [exact Ha|]. split; [exact Hroots|]. rewrite Hl in Hroots. by cbn in Hroots.
Defined.

Lemma awaited_receipt_stops_retirement_witness :
  ∃ w n l report,
    rtc bench_attempt (Some (bench_node None), bench_no_lanes) (Some n, l) ∧ creation_order n = [1; 2] ∧
    bench_receive (w, (Some n, l)) = ((w, (Some n, lanes_report report l)), Ready ()).
Proof.
  assert (∃ w n l o kind route endpoint control slots retirement task joined,
    bench_dropped = ((w, (Some n, l)), o) ∧ creation_order n = [1; 2] ∧
    creations n !! 1 = Some (Creation_Established kind route endpoint control slots retirement) ∧
    slot_owned slots = Some task ∧ slot_received slots = Some joined)
    as (w & n & l & o & kind & route & endpoint & control & slots & retirement & task & joined &
        Hd & Ho & Hrow & Htask & Hjoined).
  { do 12 eexists. split; [vm_compute; reflexivity|]. by split_and!. }
  destruct (awaited_receipt_stops_retirement (AllocationRejection := ()) (λ _, ([] : list (), ()))
    (λ origin _, origin)
    (λ failure, match failure with Child_NotificationsFailed _ _ _ _ _ => 1 | _ => 2 end)
    n l w 1 kind route endpoint control slots retirement task joined) as [report Hr].
  { rewrite Ho. by left. }
  { exact Hrow. } { exact Htask. } { exact Hjoined. }
  exists w, n, l, report. split; [|by split]. apply rtc_once. by exists bench_world, w, o.
Defined.
