(* ===== verification/Endpoint.v ===== *)
(** * Actor endpoints and addresses

    [crates/bombay/src/local/endpoint.rs]: what a reference to an actor can do:
    deliver a message, wait for a fence, request an orderly shutdown; and
    [crates/bombay/src/address.rs]: the source of addresses of an application.

    A reference names the mailbox of another actor: the host has one admission
    cell per mailbox, so [endpoint_admission] is that actor's instance of
    LocalIngress.v's [Communication]. *)

From S2P Require Import Prelude Driver Host LocalIngress LocalEnvironment.

(** ** Addresses *)

Definition MailAddr : Type := N.
Definition APPLICATION_ROOT : MailAddr := 0%N.

Variant AllocationRejection := Exhausted.

(** The shared atomic, and one [try_update] of it. *)
Definition ApplicationAddresses : Type := N.
Definition ApplicationAddresses_new : ApplicationAddresses := 1%N.

Definition allocate (next : ApplicationAddresses) :
    ApplicationAddresses * Result MailAddr AllocationRejection :=
  match checked_add u64_max next 1 with
  | Some next' => (next', Ok next)
  | None => (next, Err Exhausted)
  end.

(** [n] allocations, by whoever holds a clone of the source. *)
Fixpoint allocations (n : nat) (next : ApplicationAddresses) :
    ApplicationAddresses * list (Result MailAddr AllocationRejection) :=
  match n with
  | 0 => (next, [])
  | S n =>
      let '(next, allocated) := allocate next in
      let '(next, rest) := allocations n next in
      (next, allocated :: rest)
  end.

(** ** References *)

(** [SendError]: the message that was rejected. *)
Variant SendError {M : Type} := SendError_new (message : M).
Arguments SendError : clear implicits.
Definition into_message {M} (error : SendError M) : M :=
  match error with SendError_new message => message end.

Variant TrySendError {M : Type} := TrySend_Full (message : M) | TrySend_Closed (message : M).
Arguments TrySendError : clear implicits.

Variant ShutdownRejection := AlreadyStopping | AlreadyStopped.

(** The mailboxes, observations and control lanes of other actors.  A send of the
    mailbox returns the very item it rejects. *)
Class EndpointHost `{!LocalTypes} (M Publisher : Type) := {
  user_send : MailboxRef → User Addr M → Async Panic World (Result () (User Addr M));
  user_try_send : MailboxRef → User Addr M → World → World * Result () (TrySendError (User Addr M));
  ingress_send : MailboxRef → LocalIngress Addr M Publisher →
    Async Panic World (Result () (LocalIngress Addr M Publisher));
  ingress_try_send : MailboxRef → LocalIngress Addr M Publisher → World →
    World * Result () (TrySendError (LocalIngress Addr M Publisher));
  FenceObservation : Type;
  affine_pair : World → World * (Publisher * FenceObservation);
  await_fence : FenceObservation → Async Panic World (Result () FenceFailure);
  termination_try_get : TerminationObservation → World → option Termination;
  endpoint_admission : MailboxRef → Communication World Owner Consumer Event Item
}.

(** [ControlSender::send], for the events of one actor: a closed lane returns the
    event. *)
Class ControlLane `{!LocalTypes} (E : Type) :=
  lane_send : ControlSender → E → World → World * Result () E.

Class EndpointLaw `{EndpointHost M Publisher} := {
  user_send_returns mailbox item w :
    wp (user_send mailbox item)
      (λ _ o, is_Violated o = false ∧ ∀ rejected, o = Ready (Err rejected) → rejected = item) w;
  ingress_send_returns mailbox item w :
    wp (ingress_send mailbox item)
      (λ _ o, is_Violated o = false ∧ ∀ rejected, o = Ready (Err rejected) → rejected = item) w;
  user_try_send_returns mailbox item w w' error :
    user_try_send mailbox item w = (w', Err error) →
    error = TrySend_Full item ∨ error = TrySend_Closed item;
  ingress_try_send_returns mailbox item w w' error :
    ingress_try_send mailbox item w = (w', Err error) →
    error = TrySend_Full item ∨ error = TrySend_Closed item
}.

Section endpoint.
Context {TY : LocalTypes} {M Publisher : Type} {EH : EndpointHost M Publisher}.
Implicit Types (w : World) (self : ActorRef) (message : M).

Definition from_standard_rejection (rejected : User Addr M) : SendError M :=
  SendError_new (LocalIngress.message rejected).
(** A fence is unreachable. *)
Definition from_entity_rejection (rejected : LocalIngress Addr M Publisher) : option (SendError M) :=
  match rejected with
  | Ingress_Message user => Some (SendError_new (LocalIngress.message user))
  | Ingress_Fence _ => panic!
  end.

(** [ActorRef::send_from]. *)
Definition send_from self (origin : Addr) message : Async Panic World (Result () (SendError M)) :=
  let user := {| from := origin; LocalIngress.message := message |} in
  match ref_endpoint self with
  | Endpoint_Standard mailbox =>
      sent ← user_send mailbox user; mret (map_err from_standard_rejection sent)
  | Endpoint_Entity mailbox =>
      sent ← ingress_send mailbox (Ingress_Message user);
      match sent with
      | Ok _ => mret (Ok ())
      | Err rejected =>
          match from_entity_rejection rejected with
          | Some error => mret (Err error)
          | None => violated
          end
      end
  end.

(** [ActorRef::try_send_from]; [None] is its unreachable arm. *)
Definition try_send_from self (origin : Addr) message w :
    World * option (Result () (TrySendError M)) :=
  let user := {| from := origin; LocalIngress.message := message |} in
  match ref_endpoint self with
  | Endpoint_Standard mailbox =>
      let '(w, sent) := user_try_send mailbox user w in
      (w, Some (map_err (λ rejected,
                  match rejected with
                  | TrySend_Full user => TrySend_Full (LocalIngress.message user)
                  | TrySend_Closed user => TrySend_Closed (LocalIngress.message user)
                  end) sent))
  | Endpoint_Entity mailbox =>
      let '(w, sent) := ingress_try_send mailbox (Ingress_Message user) w in
      (w, match sent with
          | Ok _ => Some (Ok ())
          | Err (TrySend_Full (Ingress_Message user)) =>
              Some (Err (TrySend_Full (LocalIngress.message user)))
          | Err (TrySend_Closed (Ingress_Message user)) =>
              Some (Err (TrySend_Closed (LocalIngress.message user)))
          | Err (TrySend_Full (Ingress_Fence _) | TrySend_Closed (Ingress_Fence _)) => panic!
          end)
  end.

(** [ActorRef::fence]. *)
Definition fence self : Async Panic World (Result () FenceFailure) := λ w,
  let '(w, (publisher, observation)) := affine_pair w in
  match ref_endpoint self with
  | Endpoint_Standard _ => (w, Ready (Err Fence_Enqueue))
  | Endpoint_Entity mailbox =>
      (sent ← ingress_send mailbox (Ingress_Fence publisher);
       match sent with
       | Ok _ => await_fence observation
       | Err _ => mret (Err Fence_Enqueue)
       end) w
  end.

(** [ActorRef::shutdown_rejection]. *)
Definition shutdown_rejection self w : ShutdownRejection :=
  match termination_try_get (ref_termination self) w with
  | Some _ => AlreadyStopped
  | None => AlreadyStopping
  end.

Definition endpoint_mailbox self : MailboxRef :=
  match ref_endpoint self with Endpoint_Standard mailbox | Endpoint_Entity mailbox => mailbox end.

(** [EndpointMailbox::close_admission] of the referenced actor. *)
Definition close_admission_of self w : World * AdmissionClosure :=
  @close_from_endpoint _ _ _ _ _ (endpoint_admission (endpoint_mailbox self)) w.

Definition send_shutdown {E : Type} `{!ControlLane E} (recipient : ActorRef)
    (control : ControlSender) (event : E) : Async Panic World (Result () ShutdownRejection) := λ w,
  let '(w, sent) := lane_send control event w in
  (w, Ready match sent with Ok _ => Ok () | Err _ => Err (shutdown_rejection recipient w) end).

(** [request_actor_shutdown]; [ingress] makes the shutdown event and may unwind. *)
Definition request_actor_shutdown {E : Type} `{!ControlLane E} (recipient : ActorRef)
    (control : ControlSender) (ingress : Async Panic World E) :
    Async Panic World (Result () ShutdownRejection) := λ w,
  match termination_try_get (ref_termination recipient) w with
  | Some _ => (w, Ready (Err AlreadyStopped))
  | None =>
      let '(w, closure) := close_admission_of recipient w in
      match closure with
      | Admission_AlreadyClosed => (w, Ready (Err (shutdown_rejection recipient w)))
      | Admission_Closed =>
          (event ← ingress; send_shutdown recipient control event) w
      end
  end.

(** ** Proofs *)

Context {law : EndpointLaw}.

Lemma wp_send_from self origin message w :
  wp (send_from self origin message)
    (λ _ o, is_Violated o = false ∧ ∀ error, o = Ready (Err error) → into_message error = message) w.
Proof.
  unfold send_from. destruct (ref_endpoint self) as [mailbox|mailbox]; wp_step.
  - eapply wp_mono; [apply user_send_returns|].
    intros w' o [Hv Hr]. destruct o as [[|rejected]| |payload|]; cbn [wp_then]; try done; wp_step.
    split; [done|]. intros error [= <-]. by rewrite (Hr rejected eq_refl).
  - eapply wp_mono; [apply ingress_send_returns|].
    intros w' o [Hv Hr]. destruct o as [[|rejected]| |payload|]; cbn [wp_then]; try done.
    rewrite (Hr rejected eq_refl). cbn. wp_step. split; [done|]. by intros error [= <-].
Qed.

Lemma try_send_from_returns self origin message w :
  match (try_send_from self origin message w).2 with
  | Some (Ok _) => True
  | Some (Err (TrySend_Full returned | TrySend_Closed returned)) => returned = message
  | None => False
  end.
Proof.
  unfold try_send_from. destruct (ref_endpoint self) as [mailbox|mailbox].
  - destruct (user_try_send _ _ w) as [w' [|error]] eqn:Hs; [done|]. cbn.
    by destruct (user_try_send_returns _ _ _ _ _ Hs) as [-> | ->].
  - destruct (ingress_try_send _ _ w) as [w' [|error]] eqn:Hs; [done|]. cbn.
    by destruct (ingress_try_send_returns _ _ _ _ _ Hs) as [-> | ->].
Qed.
End endpoint.

(** *** Allocations *)

Lemma allocate_eq next :
  (next ≤ u64_max)%N →
  allocate next = if bool_decide (next = u64_max) then (next, Err Exhausted) else ((next + 1)%N, Ok next).
Proof.
  intros Hn. unfold allocate. case_bool_decide as He.
  - destruct (checked_add _ _ _) as [n|] eqn:Hc; [|done]. apply checked_add_Some in Hc. lia.
  - destruct (checked_add _ _ _) as [n|] eqn:Hc.
    + apply checked_add_Some in Hc as [-> _]. done.
    + apply checked_add_None in Hc. unfold u64_max in *. lia.
Qed.

(** What [n] allocations return: the successors of [next] that remain below the
    limit, then exhaustion. *)
Definition allocated (n : nat) (next : N) : list (Result MailAddr AllocationRejection) :=
  (λ i, let a := (next + N.of_nat i)%N in if (a <? u64_max)%N then Ok a else Err Exhausted) <$> seq 0 n.

Lemma allocations_eq n next :
  (next ≤ u64_max)%N → allocations n next = (N.min (next + N.of_nat n) u64_max, allocated n next).
Proof.
  revert next. induction n as [|n IH]; intros next Hn.
  { cbn. f_equal. unfold u64_max in *. lia. }
  cbn [allocations]. rewrite allocate_eq by done. unfold allocated. cbn [seq].
  rewrite fmap_cons, <- fmap_S_seq, <- list_fmap_compose, N.add_0_r. case_bool_decide as He.
  - rewrite IH by done. destruct (N.ltb_spec next u64_max); [lia|]. f_equal; [lia|]. f_equal.
    unfold allocated. apply list_fmap_ext. intros _ i _. cbn.
    destruct (N.ltb_spec (next + N.of_nat i) u64_max), (N.ltb_spec (next + N.of_nat (S i)) u64_max); (done || lia).
  - destruct (N.ltb_spec next u64_max); [|lia]. rewrite IH by lia. f_equal; [lia|]. f_equal.
    unfold allocated. apply list_fmap_ext. intros _ i _. cbn.
    by replace (next + 1 + N.of_nat i)%N with (next + N.of_nat (S i))%N by lia.
Qed.

(** However many clones of the source allocate, and however often, every
    address is handed out once, in increasing order from 1, the application root
    is never among them, and once the source is exhausted it stays so: the
    counter never wraps. *)
Lemma addresses_are_unique n :
  let '(next, l) := allocations n ApplicationAddresses_new in
  (next ≤ u64_max)%N ∧
  (∀ i j a, l !! i = Some (Ok a) → l !! j = Some (Ok a) → i = j) ∧
  (∀ i a, l !! i = Some (Ok a) → a = N.of_nat (S i) ∧ a ≠ APPLICATION_ROOT) ∧
  (∀ i, l !! i = Some (Err Exhausted) → ∀ j, i ≤ j → j < n → l !! j = Some (Err Exhausted)).
Proof.
  rewrite allocations_eq by (unfold ApplicationAddresses_new, u64_max; lia).
  assert (∀ i x, allocated n ApplicationAddresses_new !! i = Some x → i < n ∧
    x = if (1 + N.of_nat i <? u64_max)%N then Ok (1 + N.of_nat i)%N else Err Exhausted) as Hl.
  { intros i x. unfold allocated. rewrite list_lookup_fmap. intros Hx. apply fmap_Some in Hx as (k & Hk & ->).
    apply lookup_seq in Hk as [-> ?]. by split. }
  split; [lia|]. split_and!.
  - intros i j a [Hi Hx]%Hl [Hj Hy]%Hl. case_matches_in Hx; case_matches_in Hy; simplify_eq. lia.
  - intros i a [Hi Hx]%Hl. case_matches_in Hx; simplify_eq. unfold APPLICATION_ROOT. split; lia.
  - intros i [Hi Hx]%Hl j Hij Hj. case_matches_in Hx; [done|]. unfold allocated.
    rewrite list_lookup_fmap, (lookup_seq_lt 0 n j) by done. cbn.
    unfold ApplicationAddresses_new.
    destruct (N.ltb_spec (1 + N.of_nat i) u64_max); [done|].
    by destruct (N.ltb_spec (1 + N.of_nat j) u64_max); [lia|].
Qed.
