(* ===== verification/ExactObservation.v ===== *)
(** * Exact observations

    [crates/bombay/src/local/effects/observation.rs]: an actor observes the
    termination of an exact incarnation, under an identifier of its own.  The
    interpreter registers and cancels relationships, a task per relationship
    waits for the termination, and retirement revokes what is left; all of them
    share one map under a mutex ([exact_observations] of the capabilities).

    The first part are the operations under the lock; the second part is the
    protocol of interpreter, tasks and retirement ([exact_step]), where
    identities, which the code compares by pointer, are the numbers of the
    relationships. *)

From stdpp Require Import gmap.
From S2P Require Import Prelude.

(** ** Under the lock *)

Section lock.
Context {Id Identity Revocation : Type} `{!EqDecision Id, !Countable Id, !EqDecision Identity}.

(** [Option<HashMap<..>>]: [None] once retirement took it. *)
Definition ExactMap : Type := option (gmap Id (Identity * Revocation)).
Implicit Types (id : Id) (exact : ExactMap).

(** The guard of [observe]; [false] is an identifier that is already bound,
    [None] the unreachable arm. *)
Definition exact_observe id (identity : Identity) (revocation : Revocation) exact :
    option (ExactMap * bool) :=
  match exact with
  | None => panic!
  | Some observations =>
      Some match observations !! id with
           | Some _ => (exact, false)
           | None => (Some (<[id := (identity, revocation)]> observations), true)
           end
  end.

(** Whether this very relationship is registered. *)
Definition exact_registered id (identity : Identity) (observations : gmap Id (Identity * Revocation)) : bool :=
  match observations !! id with
  | Some (registered, _) => bool_decide (registered = identity)
  | None => false
  end.

(** The guard of [cancel]: the revocation of a matching relationship. *)
Definition exact_cancel id (identity : Identity) exact : option (ExactMap * option Revocation) :=
  match exact with
  | None => panic!
  | Some observations =>
      Some (if exact_registered id identity observations
            then (Some (delete id observations), snd <$> observations !! id)
            else (exact, None))
  end.

(** One poll of a completion: [None] is pending, [Some None] gives up. *)
Definition exact_poll {O : Type} id (identity : Identity) (termination : option O) exact :
    ExactMap * option (option O) :=
  match exact with
  | None => (exact, Some None)
  | Some observations =>
      if exact_registered id identity observations then
        match termination with
        | None => (exact, None)
        | Some outcome => (Some (delete id observations), Some (Some outcome))
        end
      else (exact, Some None)
  end.

(** Retirement takes the map; every revocation is sent. *)
Definition exact_retire exact : ExactMap * list Revocation :=
  (None, match exact with
         | Some observations => (λ '(_, (_, cancel)), cancel) <$> map_to_list observations
         | None => []
         end).

Definition is_retired exact : bool := match exact with None => true | Some _ => false end.
End lock.
Arguments ExactMap _ _ _ {_ _}.

(** ** The protocol *)

Section protocol.
Context {Id O : Type} `{!EqDecision Id, !Countable Id}.

(** What the actor is told, by relationship. *)
Variant Fact :=
  | Fact_Started (r : nat)
  | Fact_Rejected (id : Id)
  | Fact_Stopped (r : nat) (outcome : O)
  | Fact_Cancelled (r : nat)
  | Fact_CancelRejected (r : nat).

(** The task of one relationship. *)
Variant Watch := Watch_Waiting (id : Id) | Watch_Acquired (outcome : O) | Watch_Ended.

Record ExactWorld := {
  exact : ExactMap Id nat nat;
  in_service : bool;
  drained : bool;
  control_lane : list Fact;
  returned_lane : list Fact;
  watches : list Watch;
  published : gmap nat O;
  revoked : gset nat;
  retired : gset nat;
  unwound_watches : gset nat
}.
Implicit Types (w : ExactWorld) (r : nat).

Definition with_exact (x : ExactMap Id nat nat) w : ExactWorld :=
  {| exact := x; in_service := in_service w; drained := drained w; control_lane := control_lane w;
     returned_lane := returned_lane w; watches := watches w; published := published w;
     revoked := revoked w; retired := retired w; unwound_watches := unwound_watches w |}.
Definition tell (fact : Fact) w : ExactWorld :=
  {| exact := exact w; in_service := in_service w; drained := drained w;
     control_lane := control_lane w ++ [fact]; returned_lane := returned_lane w;
     watches := watches w; published := published w; revoked := revoked w; retired := retired w;
     unwound_watches := unwound_watches w |}.
Definition return_fact (fact : Fact) w : ExactWorld :=
  {| exact := exact w; in_service := in_service w; drained := drained w;
     control_lane := control_lane w; returned_lane := returned_lane w ++ [fact];
     watches := watches w; published := published w; revoked := revoked w; retired := retired w;
     unwound_watches := unwound_watches w |}.
Definition with_watches (x : list Watch) w : ExactWorld :=
  {| exact := exact w; in_service := in_service w; drained := drained w;
     control_lane := control_lane w; returned_lane := returned_lane w; watches := x;
     published := published w; revoked := revoked w; retired := retired w;
     unwound_watches := unwound_watches w |}.
Definition publish r (outcome : O) w : ExactWorld :=
  {| exact := exact w; in_service := in_service w; drained := drained w;
     control_lane := control_lane w; returned_lane := returned_lane w; watches := watches w;
     published := <[r := outcome]> (published w); revoked := revoked w; retired := retired w;
     unwound_watches := unwound_watches w |}.
Definition revoke (l : list nat) w : ExactWorld :=
  {| exact := exact w; in_service := in_service w; drained := drained w;
     control_lane := control_lane w; returned_lane := returned_lane w; watches := watches w;
     published := published w; revoked := list_to_set l ∪ revoked w; retired := retired w;
     unwound_watches := unwound_watches w |}.
Definition with_phase (service closed : bool) w : ExactWorld :=
  {| exact := exact w; in_service := service; drained := closed; control_lane := control_lane w;
     returned_lane := returned_lane w; watches := watches w; published := published w;
     revoked := revoked w; retired := retired w; unwound_watches := unwound_watches w |}.
Definition mark_retired (l : list nat) w : ExactWorld :=
  {| exact := exact w; in_service := in_service w; drained := drained w;
     control_lane := control_lane w; returned_lane := returned_lane w; watches := watches w;
     published := published w; revoked := revoked w; retired := list_to_set l ∪ retired w;
     unwound_watches := unwound_watches w |}.
Definition mark_unwound r w : ExactWorld :=
  {| exact := exact w; in_service := in_service w; drained := drained w;
     control_lane := control_lane w; returned_lane := returned_lane w; watches := watches w;
     published := published w; revoked := revoked w; retired := retired w;
     unwound_watches := {[r]} ∪ unwound_watches w |}.

Definition watch_to r (x : Watch) w : ExactWorld := with_watches (<[r := x]> (watches w)) w.

(** [EstablishedObservationInterpreter::observe]: the new relationship is told
    before its task is spawned. *)
Definition interpret_observe (id : Id) w : option ExactWorld :=
  let r := length (watches w) in
  '(x, started) ← exact_observe id r r (exact w);
  Some (if started : bool
        then let w := tell (Fact_Started r) (with_exact x w) in
             with_watches (watches w ++ [Watch_Waiting id]) w
        else tell (Fact_Rejected id) (with_exact x w)).

(** [EstablishedObservationInterpreter::cancel]. *)
Definition interpret_cancel (id : Id) r w : option ExactWorld :=
  '(x, cancellation) ← exact_cancel id r (exact w);
  Some match cancellation with
       | Some revocation => tell (Fact_Cancelled r) (revoke [revocation] (with_exact x w))
       | None => tell (Fact_CancelRejected r) (with_exact x w)
       end.

(** The completion of the task, polled once. *)
Definition poll_completion r w : ExactWorld :=
  match watches w !! r with
  | Some (Watch_Waiting id) =>
      let '(x, completed) := exact_poll id r (published w !! r) (exact w) in
      match completed with
      | None => with_exact x w
      | Some None => watch_to r Watch_Ended (with_exact x w)
      | Some (Some outcome) => watch_to r (Watch_Acquired outcome) (with_exact x w)
      end
  | _ => w
  end.

(** The end of the task: its event goes to the control lane, or is what the task
    returns once retirement took the map or the lane is closed. *)
Definition deliver r w : ExactWorld :=
  match watches w !! r with
  | Some (Watch_Acquired outcome) =>
      let w := watch_to r Watch_Ended w in
      if is_retired (exact w) || drained w then return_fact (Fact_Stopped r outcome) w
      else tell (Fact_Stopped r outcome) w
  | _ => w
  end.

Definition take_exact w : ExactWorld :=
  let '(x, cancellations) := exact_retire (exact w) in
  mark_retired cancellations (revoke cancellations (with_exact x w)).

(** The interpreter, the tasks and retirement interleave at the lock; the
    conversion of an outcome may unwind its task. *)
Inductive exact_step : ExactWorld → ExactWorld → Prop :=
  | step_observe id w w' :
      in_service w = true → interpret_observe id w = Some w' → exact_step w w'
  | step_cancel id r w w' :
      in_service w = true → r < length (watches w) → interpret_cancel id r w = Some w' →
      exact_step w w'
  | step_terminate r outcome w :
      published w !! r = None → exact_step w (publish r outcome w)
  | step_poll r w : exact_step w (poll_completion r w)
  | step_revoked r id w :
      watches w !! r = Some (Watch_Waiting id) → r ∈ revoked w →
      exact_step w (watch_to r Watch_Ended w)
  | step_deliver r w : exact_step w (deliver r w)
  | step_unwind r outcome w :
      watches w !! r = Some (Watch_Acquired outcome) →
      exact_step w (mark_unwound r (watch_to r Watch_Ended w))
  | step_retire w : exact_step w (with_phase false (drained w) w)
  | step_drain w : in_service w = false → exact_step w (with_phase false true w)
  | step_take w : in_service w = false → exact_step w (take_exact w).

Definition fresh_exact : ExactWorld :=
  {| exact := Some ∅; in_service := true; drained := false; control_lane := [];
     returned_lane := []; watches := []; published := ∅; revoked := ∅; retired := ∅;
     unwound_watches := ∅ |}.

Definition exact_reachable : ExactWorld → Prop := rtc exact_step fresh_exact.

(** *** The invariant *)

(** The relationship whose end a fact tells. *)
Definition ended_by (fact : Fact) : option nat :=
  match fact with
  | Fact_Stopped r _ | Fact_Cancelled r => Some r
  | Fact_Started _ | Fact_Rejected _ | Fact_CancelRejected _ => None
  end.

Definition facts w : list Fact := control_lane w ++ returned_lane w.
Definition endings r (l : list Fact) : list Fact := filter (λ fact, ended_by fact = Some r) l.
Arguments endings : simpl never.

Definition registered_as w (id : Id) r : Prop :=
  ∃ observations, exact w = Some observations ∧ observations !! id = Some (r, r).

(** What the task of a relationship says about its end. *)
Definition watch_ok w r (x : Watch) : Prop :=
  match x with
  | Watch_Waiting id =>
      (registered_as w id r ∧ endings r (facts w) = [] ∧ r ∉ revoked w ∧ r ∉ retired w) ∨
      (r ∈ revoked w ∧ endings r (facts w) = [Fact_Cancelled r] ∧ r ∉ retired w) ∨
      (r ∈ revoked w ∧ endings r (facts w) = [] ∧ r ∈ retired w)
  | Watch_Acquired outcome =>
      published w !! r = Some outcome ∧ endings r (facts w) = [] ∧ r ∉ retired w
  | Watch_Ended =>
      (endings r (facts w) = [Fact_Cancelled r] ∧ r ∉ retired w) ∨
      (∃ outcome, published w !! r = Some outcome ∧
         endings r (facts w) = [Fact_Stopped r outcome] ∧ r ∉ retired w) ∨
      (endings r (facts w) = [] ∧ (r ∈ retired w ∨ r ∈ unwound_watches w))
  end.

(** Every end is told after the start of a relationship that exists. *)
Record told_ok (l l' : list Fact) (n : nat) : Prop := {
  told_started r : r < n → Fact_Started r ∈ l;
  told_ended r fact : fact ∈ l ++ l' → ended_by fact = Some r → r < n;
  told_order a fact b r : l = a ++ fact :: b → ended_by fact = Some r → Fact_Started r ∈ a
}.

Record exact_ok w : Prop := {
  ok_map observations id x : exact w = Some observations → observations !! id = Some x →
    ∃ r, x = (r, r) ∧ watches w !! r = Some (Watch_Waiting id) ∧ r ∉ revoked w;
  ok_revoked r : r ∈ revoked w ∨ r ∈ retired w → r < length (watches w);
  ok_watch r x : watches w !! r = Some x → watch_ok w r x;
  ok_told : told_ok (control_lane w) (returned_lane w) (length (watches w));
  ok_service : in_service w = true → is_Some (exact w) ∧ drained w = false
}.

(** Nothing that concerns a relationship changed. *)
Record agree r w w' : Prop := {
  agree_registered id : registered_as w id r → registered_as w' id r;
  agree_endings : endings r (facts w') = endings r (facts w);
  agree_revoked : r ∈ revoked w' ↔ r ∈ revoked w;
  agree_retired : r ∈ retired w' ↔ r ∈ retired w;
  agree_published outcome : published w !! r = Some outcome → published w' !! r = Some outcome;
  agree_unwound : r ∈ unwound_watches w → r ∈ unwound_watches w'
}.

Lemma watch_agree r x w w' : agree r w w' → watch_ok w r x → watch_ok w' r x.
Proof.
  intros [Hr He Hv Ht Hp Hu]. destruct x; cbn; rewrite ?He, ?Hv, ?Ht; [naive_solver..|].
  intros [?|[(outcome & ? & ?)|?]]; [by left|right; left; exists outcome; naive_solver|naive_solver].
Qed.

Lemma endings_app r l l' : endings r (l ++ l') = endings r l ++ endings r l'.
Proof. apply filter_app. Qed.

Lemma endings_one r fact : endings r [fact] = if decide (ended_by fact = Some r) then [fact] else [].
Proof. unfold endings. rewrite filter_cons, filter_nil. by destruct (decide _). Qed.

Lemma facts_tell r fact w :
  endings r (facts (tell fact w)) ≡ₚ
    endings r (facts w) ++ (if decide (ended_by fact = Some r) then [fact] else []).
Proof.
  unfold facts. cbn. rewrite !endings_app, endings_one.
  destruct (decide _); [|by rewrite !app_nil_r]. by rewrite <- !app_assoc, (Permutation_app_comm [fact]).
Qed.

Lemma facts_return r fact w :
  endings r (facts (return_fact fact w)) =
    endings r (facts w) ++ (if decide (ended_by fact = Some r) then [fact] else []).
Proof.
  unfold facts. cbn. by rewrite app_assoc, endings_app, endings_one.
Qed.

Lemma tell_none r fact w : ended_by fact ≠ Some r → endings r (facts (tell fact w)) = endings r (facts w).
Proof.
  intros Hn. unfold facts. cbn. by rewrite !endings_app, endings_one, decide_False, app_nil_r.
Qed.

Lemma tell_end r fact w :
  endings r (facts w) = [] → ended_by fact = Some r → endings r (facts (tell fact w)) = [fact].
Proof.
  intros He Hf. pose proof (facts_tell r fact w) as Hp. rewrite He, decide_True in Hp by done.
  by apply Permutation_singleton_r in Hp.
Qed.

Lemma return_end r fact w :
  endings r (facts w) = [] → ended_by fact = Some r → endings r (facts (return_fact fact w)) = [fact].
Proof. intros He Hf. by rewrite facts_return, He, decide_True. Qed.

Lemma return_none r fact w :
  ended_by fact ≠ Some r → endings r (facts (return_fact fact w)) = endings r (facts w).
Proof. intros Hf. by rewrite facts_return, decide_False, app_nil_r. Qed.

(** *** The lanes *)

Lemma told_append l l' n fact :
  (∀ r, ended_by fact = Some r → r < n) → told_ok l l' n → told_ok (l ++ [fact]) l' n.
Proof.
  intros Hf [Hs He Ho]. split.
  - intros r Hr. apply elem_of_app. left. auto.
  - intros r f Hin Hr. rewrite !elem_of_app in Hin. destruct Hin as [[Hin|Hin]|Hin].
    + eapply He; [apply elem_of_app; by left|done].
    + apply list_elem_of_singleton in Hin as ->. auto.
    + eapply He; [apply elem_of_app; by right|done].
  - intros a f b r Heq Hr. destruct b as [|x b] using rev_ind.
    + apply app_inj_tail in Heq as [<- <-]. auto.
    + rewrite app_comm_cons, app_assoc in Heq. apply app_inj_tail in Heq as [-> _]. by eapply Ho.
Qed.

Lemma told_return l l' n fact :
  (∀ r, ended_by fact = Some r → r < n) → told_ok l l' n → told_ok l (l' ++ [fact]) n.
Proof.
  intros Hf [Hs He Ho]. split; [done| |done]. intros r f Hin Hr.
  rewrite app_assoc, elem_of_app, list_elem_of_singleton in Hin. destruct Hin as [Hin | ->]; eauto.
Qed.

Lemma told_start l l' n : told_ok l l' n → told_ok (l ++ [Fact_Started n]) l' (S n).
Proof.
  intros Ht. assert (told_ok (l ++ [Fact_Started n]) l' n) as [Hs He Ho] by by apply told_append.
  split; [|intros r f Hin Hr; specialize (He r f Hin Hr); lia|done].
  intros r Hr. destruct (decide (r = n)) as [->|]; [|apply Hs; lia]. apply elem_of_app. right.
  by apply list_elem_of_singleton.
Qed.

(** *** Preservation *)

(** A step that concerns one relationship. *)
Lemma exact_ok_at r w w' :
  exact_ok w →
  (∀ q, q ≠ r → watches w' !! q = watches w !! q ∧ agree q w w') →
  (∀ observations id x, exact w' = Some observations → observations !! id = Some x →
     ∃ q, x = (q, q) ∧ watches w' !! q = Some (Watch_Waiting id) ∧ q ∉ revoked w') →
  (∀ q, q ∈ revoked w' ∨ q ∈ retired w' → q < length (watches w')) →
  (∀ x, watches w' !! r = Some x → watch_ok w' r x) →
  told_ok (control_lane w') (returned_lane w') (length (watches w')) →
  (in_service w' = true → is_Some (exact w') ∧ drained w' = false) →
  exact_ok w'.
Proof.
  intros Hok Hq Hm Hv Hr Ht Hs. split; try done. intros q x Hx.
  destruct (decide (q = r)) as [->|Hn]; [by apply Hr|]. destruct (Hq q Hn) as [Hw Ha].
  rewrite Hw in Hx. eapply watch_agree; [done|]. by eapply ok_watch.
Qed.

Lemma endings_fresh w r : exact_ok w → length (watches w) ≤ r → endings r (facts w) = [].
Proof.
  intros Hok Hr. apply elem_of_nil_inv. intros fact [He Hin]%list_elem_of_filter.
  pose proof (told_ended _ _ _ (ok_told _ Hok) r fact Hin He). lia.
Qed.

Lemma observe_ok id w w' : exact_ok w → interpret_observe id w = Some w' → exact_ok w'.
Proof.
  intros Hok. unfold interpret_observe, exact_observe. destruct (exact w) as [m|] eqn:Hm; [|done].
  set (r := length (watches w)). cbn [mbind option_bind]. destruct (m !! id) as [x|] eqn:Hid.
  - intros [= <-]. apply (exact_ok_at r w); [done|..]; cbn.
    + intros q _. split; [done|]. split; cbn; try done.
      * intros i. unfold registered_as. cbn. by rewrite Hm.
      * by apply (tell_none q (Fact_Rejected id) (with_exact (Some m) w)).
    + intros observations i x' [= <-]. by apply (ok_map _ Hok).
    + apply (ok_revoked _ Hok).
    + intros y Hy%lookup_lt_Some. unfold r in Hy. lia.
    + apply told_append; [done|apply Hok].
    + intros Hs. split; [done|]. by apply (ok_service _ Hok).
  - intros [= <-]. apply (exact_ok_at r w); [done|..]; cbn.
    + intros q Hq. split.
      { destruct (decide (q < r)); [by rewrite lookup_app_l by done|].
        rewrite !lookup_ge_None_2; [done|unfold r in *; lia|]. rewrite length_app. cbn. unfold r in *. lia. }
      split; cbn; try done.
      * intros i (observations & Hobs & Hi). exists (<[id:=(r, r)]> m). cbn. split; [done|].
        assert (m = observations) as -> by congruence. rewrite lookup_insert_ne; [done|congruence].
      * apply (tell_none q (Fact_Started r) w). done.
    + intros observations i x [= <-]. destruct (decide (i = id)) as [->|Hi].
      * rewrite lookup_insert_eq. intros [= <-]. exists r. split; [done|]. split; [by apply list_lookup_middle|].
        intros Hr. pose proof (ok_revoked _ Hok r (or_introl Hr)). unfold r in *. lia.
      * rewrite lookup_insert_ne by done. intros Hx.
        destruct (ok_map _ Hok m i x Hm Hx) as (q & -> & Hw & Hv). exists q. split; [done|]. split; [|done].
        by apply lookup_app_l_Some.
    + intros q Hq. rewrite length_app. cbn. pose proof (ok_revoked _ Hok q Hq). lia.
    + intros x Hx. unfold r in Hx. rewrite list_lookup_middle in Hx by done. injection Hx as <-. left.
      split_and!.
      * exists (<[id:=(r, r)]> m). split; [done|]. by rewrite lookup_insert_eq.
      * etransitivity; [by apply (tell_none r (Fact_Started r) w)|]. by apply endings_fresh.
      * intros Hr. pose proof (ok_revoked _ Hok r (or_introl Hr)). unfold r in *. lia.
      * intros Hr. pose proof (ok_revoked _ Hok r (or_intror Hr)). unfold r in *. lia.
    + rewrite length_app, Nat.add_comm. apply told_start, Hok.
    + intros Hs. split; [by eexists|]. by apply (ok_service _ Hok).
Qed.

Lemma registered_eq id r (m : gmap Id (nat * nat)) w :
  exact_ok w → exact w = Some m → exact_registered id r m = true →
  m !! id = Some (r, r) ∧ watches w !! r = Some (Watch_Waiting id) ∧ r ∉ revoked w.
Proof.
  intros Hok Hm. unfold exact_registered. destruct (m !! id) as [[q c]|] eqn:Hid; [|done].
  intros ->%bool_decide_eq_true. destruct (ok_map _ Hok m id _ Hm Hid) as (? & [= <- ->] & ? & ?). done.
Qed.

(** Removing a registered relationship leaves the others registered. *)
Lemma delete_agree r id (m : gmap Id (nat * nat)) w w' :
  exact w = Some m → m !! id = Some (r, r) → exact w' = Some (delete id m) →
  (∀ q, q ≠ r → endings q (facts w') = endings q (facts w)) →
  (∀ q, q ≠ r → q ∈ revoked w' ↔ q ∈ revoked w) → retired w' = retired w →
  published w' = published w → unwound_watches w' = unwound_watches w →
  ∀ q, q ≠ r → agree q w w'.
Proof.
  intros Hm Hid Hm' He Hv Ht Hp Hu q Hq. split; rewrite ?Ht, ?Hp, ?Hu; auto.
  intros i (m0 & Hm0 & Hi). exists (delete id m). split; [done|].
  rewrite lookup_delete_ne; congruence.
Qed.

(** The map after a relationship left it. *)
Lemma delete_map r id (m : gmap Id (nat * nat)) w w' :
  exact_ok w → exact w = Some m → m !! id = Some (r, r) → exact w' = Some (delete id m) →
  (∀ q, q ≠ r → watches w' !! q = watches w !! q) → (∀ q, q ∈ revoked w' → q = r ∨ q ∈ revoked w) →
  ∀ observations i x, exact w' = Some observations → observations !! i = Some x →
    ∃ q, x = (q, q) ∧ watches w' !! q = Some (Watch_Waiting i) ∧ q ∉ revoked w'.
Proof.
  intros Hok Hm Hid Hm' Hw Hv observations i x Ho Hx. assert (observations = delete id m) as -> by congruence.
  apply lookup_delete_Some in Hx as [Hi Hx]. destruct (ok_map _ Hok m i x Hm Hx) as (q & -> & Hwq & Hvq).
  exists q. split; [done|].
  assert (q ≠ r) as Hqr.
  { intros ->. destruct (ok_map _ Hok m id _ Hm Hid) as (? & [= <-] & Hwr & _). congruence. }
  rewrite Hw by done. split; [done|]. intros [?|?]%Hv; done.
Qed.

Lemma cancel_ok id r w w' :
  exact_ok w → r < length (watches w) → interpret_cancel id r w = Some w' → exact_ok w'.
Proof.
  intros Hok Hlt. unfold interpret_cancel, exact_cancel. destruct (exact w) as [m|] eqn:Hm; [|done].
  cbn [mbind option_bind]. destruct (exact_registered id r m) eqn:Hreg.
  - destruct (registered_eq id r m w Hok Hm Hreg) as (Hid & Hw & Hv). rewrite Hid. cbn.
    intros [= <-]. set (w1 := revoke [r] (with_exact (Some (delete id m)) w)).
    assert (∀ q, q ≠ r → endings q (facts (tell (Fact_Cancelled r) w1)) = endings q (facts w)) as He.
    { intros q Hq. rewrite tell_none; [done|]. cbn. congruence. }
    assert (∀ q, q ∈ revoked w1 → q = r ∨ q ∈ revoked w) as Hrev by (cbn; set_solver).
    apply (exact_ok_at r w); [done|..].
    + intros q Hq. split; [done|]. apply (delete_agree r id m); try done. cbn. set_solver.
    + apply (delete_map r id m w); try done.
    + cbn. intros q Hq. destruct (decide (q = r)) as [->|]; [done|]. apply (ok_revoked _ Hok). set_solver.
    + cbn. rewrite Hw. intros x [= <-]. right; left.
      destruct (ok_watch _ Hok r _ Hw) as [(_ & Hend & _ & Ht)|[[? _]|[? _]]]; [|done..].
      split_and!; [cbn; set_solver|by apply tell_end|done].
    + apply told_append; [by intros ? [= <-]|apply Hok].
    + intros Hs. split; [by eexists|]. by apply (ok_service _ Hok).
  - intros [= <-]. apply (exact_ok_at (length (watches w)) w); [done|..]; cbn.
    + intros q _. split; [done|]. split; cbn; try done.
      * intros i. unfold registered_as. cbn. by rewrite Hm.
      * by apply (tell_none q (Fact_CancelRejected r) (with_exact (Some m) w)).
    + intros observations i x' [= <-]. by apply (ok_map _ Hok).
    + apply (ok_revoked _ Hok).
    + intros y Hy%lookup_lt_Some. lia.
    + apply told_append; [done|apply Hok].
    + intros Hs. split; [done|]. by apply (ok_service _ Hok).
Qed.

(** The task of a relationship goes on; the lanes stay the same. *)
Lemma watch_to_ok r id x y w :
  exact_ok w → watches w !! r = Some y →
  (∀ observations, exact w = Some observations → observations !! id = Some (r, r) → False) →
  (∀ i, y = Watch_Waiting i → i = id) →
  watch_ok w r x → exact_ok (watch_to r x w).
Proof.
  intros Hok Hy Hno Hyid Hx. pose proof (lookup_lt_Some _ _ _ Hy) as Hlt.
  apply (exact_ok_at r w); [done|..]; cbn.
  - intros q Hq. by rewrite list_lookup_insert_ne by done.
  - intros observations i z Ho Hz. destruct (ok_map _ Hok observations i z Ho Hz) as (q & -> & Hw & Hv).
    exists q. split; [done|]. destruct (decide (q = r)) as [->|]; [|by rewrite list_lookup_insert_ne].
    rewrite Hy in Hw. injection Hw as ->. rewrite (Hyid i eq_refl) in Hz. by destruct (Hno _ Ho Hz).
  - rewrite length_insert. apply (ok_revoked _ Hok).
  - rewrite list_lookup_insert_eq by done. by intros ? [= <-].
  - rewrite length_insert. apply Hok.
  - apply (ok_service _ Hok).
Qed.

(** The end of a task whose relationship is not registered any more. *)
Lemma ended_ok r id w :
  exact_ok w → watches w !! r = Some (Watch_Waiting id) →
  (∀ m, exact w = Some m → m !! id ≠ Some (r, r)) → exact_ok (watch_to r Watch_Ended w).
Proof.
  intros Hok Hw Hno. eapply (watch_to_ok r id); [done|exact Hw|exact Hno|by intros i [= ->]|].
  destruct (ok_watch _ Hok r _ Hw) as [((m & Hm & Hid) & _)|[(_ & He & Ht)|(_ & He & Ht)]].
  - by destruct (Hno m Hm).
  - by left.
  - right; right. auto.
Qed.

Lemma with_exact_eq w : with_exact (exact w) w = w.
Proof. by destruct w. Qed.

Lemma poll_ok r w : exact_ok w → exact_ok (poll_completion r w).
Proof.
  intros Hok. unfold poll_completion. destruct (watches w !! r) as [[id| |]|] eqn:Hw; try done.
  unfold exact_poll. destruct (exact w) as [m|] eqn:Hm.
  - destruct (exact_registered id r m) eqn:Hreg.
    + destruct (registered_eq id r m w Hok Hm Hreg) as (Hid & _ & Hv).
      destruct (published w !! r) as [outcome|] eqn:Hp; [|by rewrite <- Hm, with_exact_eq].
      apply (exact_ok_at r w); [done|..].
      * intros q Hq. split; [cbn; by rewrite list_lookup_insert_ne|]. by apply (delete_agree r id m).
      * apply (delete_map r id m w); try done; [|by right]. intros q Hq. cbn. by rewrite list_lookup_insert_ne.
      * cbn. rewrite length_insert. apply (ok_revoked _ Hok).
      * cbn. rewrite list_lookup_insert_eq by by eapply lookup_lt_Some. intros x [= <-].
        destruct (ok_watch _ Hok r _ Hw) as [(_ & He & _ & Ht)|[[? _]|[? _]]]; done.
      * cbn. rewrite length_insert. apply Hok.
      * intros Hs. split; [by eexists|]. by apply (ok_service _ Hok).
    + rewrite <- Hm, with_exact_eq. apply (ended_ok r id); [done..|]. intros m' Hm' Hid.
      assert (m' = m) as -> by congruence. unfold exact_registered in Hreg. rewrite Hid in Hreg.
      by rewrite bool_decide_true in Hreg.
  - rewrite <- Hm, with_exact_eq. apply (ended_ok r id); [done..|]. intros m' Hm'. congruence.
Qed.

Lemma revoked_ok r id w :
  exact_ok w → watches w !! r = Some (Watch_Waiting id) → r ∈ revoked w →
  exact_ok (watch_to r Watch_Ended w).
Proof.
  intros Hok Hw Hr. apply (ended_ok r id); [done..|]. intros m Hm Hid.
  by destruct (ok_map _ Hok m id _ Hm Hid) as (? & [= <-] & _ & ?).
Qed.

Lemma acquired_ok r outcome w x :
  exact_ok w → watches w !! r = Some (Watch_Acquired outcome) → watch_ok w r x →
  exact_ok (watch_to r x w).
Proof.
  intros Hok Hw Hx.
  assert (∀ i m, exact w = Some m → m !! i = Some (r, r) → False) as Hno.
  { intros i m Hm Hi. destruct (ok_map _ Hok m i _ Hm Hi) as (? & [= <-] & Hw' & _). congruence. }
  apply (exact_ok_at r w); [done|..]; cbn.
  - intros q Hq. by rewrite list_lookup_insert_ne by done.
  - intros observations i z Ho Hz. destruct (ok_map _ Hok observations i z Ho Hz) as (q & -> & Hwq & Hv).
    exists q. split; [done|]. destruct (decide (q = r)) as [->|]; [by destruct (Hno i _ Ho Hz)|].
    by rewrite list_lookup_insert_ne.
  - rewrite length_insert. apply (ok_revoked _ Hok).
  - rewrite list_lookup_insert_eq by by eapply lookup_lt_Some. by intros ? [= <-].
  - rewrite length_insert. apply Hok.
  - apply (ok_service _ Hok).
Qed.

(** What the end of an acquired task tells, and where. *)
Lemma acquired_at r outcome w w' :
  exact_ok w → watches w !! r = Some (Watch_Acquired outcome) →
  exact w' = exact w → watches w' = <[r := Watch_Ended]> (watches w) → revoked w' = revoked w →
  retired w' = retired w → published w' = published w → in_service w' = in_service w →
  drained w' = drained w → unwound_watches w ⊆ unwound_watches w' →
  (∀ q, q ≠ r → endings q (facts w') = endings q (facts w)) → watch_ok w' r Watch_Ended →
  told_ok (control_lane w') (returned_lane w') (length (watches w)) → exact_ok w'.
Proof.
  intros Hok Hw Hx Hwat Hv Ht Hp Hs Hd Hu He Hr Htold.
  apply (exact_ok_at r w); [done|..]; rewrite ?Hwat, ?length_insert, ?Hv, ?Ht, ?Hs, ?Hd, ?Hx; try done.
  - intros q Hq. split; [by rewrite list_lookup_insert_ne|]. split; rewrite ?Hv, ?Ht, ?Hp; auto.
    intros i. unfold registered_as. by rewrite Hx.
  - intros observations i z Ho Hz. destruct (ok_map _ Hok observations i z Ho Hz) as (q & -> & Hwq & Hvq).
    exists q. split; [done|]. rewrite list_lookup_insert_ne; [done|congruence].
  - apply (ok_revoked _ Hok).
  - rewrite list_lookup_insert_eq by by eapply lookup_lt_Some. by intros ? [= <-].
  - apply (ok_service _ Hok).
Qed.

Lemma deliver_ok r w : exact_ok w → exact_ok (deliver r w).
Proof.
  intros Hok. unfold deliver. destruct (watches w !! r) as [[|outcome|]|] eqn:Hw; try done.
  pose proof (lookup_lt_Some _ _ _ Hw) as Hlt.
  destruct (ok_watch _ Hok r _ Hw) as (Hp & He & Ht).
  set (w1 := watch_to r Watch_Ended w).
  destruct (is_retired (exact w1) || drained w1); (eapply (acquired_at r outcome w); try done).
  - intros q Hq. rewrite return_none; [done|]. cbn. congruence.
  - right; left. exists outcome. split; [done|]. split; [by apply return_end|done].
  - apply told_return; [by intros ? [= <-]|apply Hok].
  - intros q Hq. rewrite tell_none; [done|]. cbn. congruence.
  - right; left. exists outcome. split; [done|]. split; [by apply tell_end|done].
  - apply told_append; [by intros ? [= <-]|apply Hok].
Qed.

Lemma unwind_ok r outcome w :
  exact_ok w → watches w !! r = Some (Watch_Acquired outcome) →
  exact_ok (mark_unwound r (watch_to r Watch_Ended w)).
Proof.
  intros Hok Hw. destruct (ok_watch _ Hok r _ Hw) as (Hp & He & Ht).
  eapply (acquired_at r outcome w); try done; [cbn; set_solver| |apply Hok].
  right; right. split; [done|]. right. cbn. set_solver.
Qed.

(** Nothing of the relationships changes. *)
Lemma phase_ok service closed w :
  exact_ok w → (service = true → in_service w = true ∧ closed = drained w) →
  exact_ok (with_phase service closed w).
Proof.
  intros [Hm Hv Hw Ht Hs] Hserv. split; try done; cbn.
  intros [Hin ->]%Hserv. by apply Hs.
Qed.

Lemma terminate_ok r outcome w :
  exact_ok w → published w !! r = None → exact_ok (publish r outcome w).
Proof.
  intros [Hm Hv Hw Ht Hs] Hp. split; try done. intros q x Hx. eapply watch_agree; [|by apply Hw].
  split; try done. intros o Ho. cbn. rewrite lookup_insert_ne; [done|congruence].
Qed.

Lemma take_ok w : exact_ok w → in_service w = false → exact_ok (take_exact w).
Proof.
  intros Hok Hs. unfold take_exact, exact_retire.
  set (l := match exact w with Some m => _ <$> map_to_list m | None => [] end).
  assert (∀ q, q ∈ l ↔ ∃ id, registered_as w id q) as Hl.
  { intros q. unfold l, registered_as. destruct (exact w) as [m|] eqn:Hm.
    - rewrite list_elem_of_fmap. split.
      + intros ([id [i c]] & -> & Hin%elem_of_map_to_list). exists id, m. split; [done|].
        by destruct (ok_map _ Hok m id _ Hm Hin) as (? & [= -> ->] & _).
      + intros (id & m' & [= <-] & Hin). exists (id, (q, q)). split; [done|].
        by apply elem_of_map_to_list.
    - split; [by intros ?%elem_of_nil|by intros (? & ? & ? & _)]. }
  clearbody l. split; cbn; try done.
  - intros q Hq. destruct (decide (q ∈ l)) as [Hin|].
    + apply Hl in Hin as (id & m & Hm & Hid). destruct (ok_map _ Hok m id _ Hm Hid) as (? & [= <-] & Hw & _).
      by eapply lookup_lt_Some.
    + apply (ok_revoked _ Hok). set_solver.
  - intros q x Hx. destruct (decide (q ∈ l)) as [Hin|Hnin].
    + pose proof Hin as (id & m & Hm & Hid)%Hl.
      destruct (ok_map _ Hok m id _ Hm Hid) as (? & [= <-] & Hw & Hv). assert (x = Watch_Waiting id) as -> by congruence.
      destruct (ok_watch _ Hok q _ Hx) as [(_ & He & _ & Ht)|[[? _]|[? _]]]; [|done..].
      right; right. cbn. split_and!; [set_solver|done|set_solver].
    + eapply watch_agree; [|by eapply ok_watch]. split; cbn; try done; [|set_solver..].
      intros id Hreg. destruct Hnin. apply Hl. by eexists.
  - apply Hok.
  - congruence.
Qed.

Lemma exact_reachable_ok w : exact_reachable w → exact_ok w.
Proof.
  revert w. apply (rtc_ind_r (λ w, exact_ok w)).
  { split; cbn; try done.
    - intros observations id x [= <-]. by rewrite lookup_empty.
    - set_solver.
    - split; [lia|by intros ? ? ?%elem_of_nil|by intros [] ? ? ? ?]. }
  intros w w' _ Hstep Hok. destruct Hstep.
  - by eapply observe_ok.
  - by eapply cancel_ok.
  - by apply terminate_ok.
  - by apply poll_ok.
  - by eapply revoked_ok.
  - by apply deliver_ok.
  - by eapply unwind_ok.
  - by apply phase_ok.
  - by apply phase_ok.
  - by apply take_ok.
Qed.

(** *** The theorem *)

(** C19: However the interpreter, the tasks and retirement interleave, and
    whether retirement takes the map before or after the control lane is drained,
    the end of an exact observation is told at most once: as a cancellation, or as
    the very outcome of the observed incarnation, and after its start.  One whose
    task ended without telling anything was revoked by retirement or its
    conversion unwound; one that retirement revoked is never told to have ended. *)
Theorem exact_observation_ends_once w r :
  exact_reachable w →
  (endings r (facts w) = [] ∨ ∃ fact, endings r (facts w) = [fact]) ∧
  (∀ outcome, Fact_Stopped r outcome ∈ facts w → published w !! r = Some outcome) ∧
  (∀ a fact b, control_lane w = a ++ fact :: b → ended_by fact = Some r → Fact_Started r ∈ a) ∧
  (watches w !! r = Some Watch_Ended → endings r (facts w) = [] →
   r ∈ retired w ∨ r ∈ unwound_watches w) ∧
  (r ∈ retired w → endings r (facts w) = []).
Proof.
  intros Hok%exact_reachable_ok.
  assert (∀ outcome, Fact_Stopped r outcome ∈ facts w →
    Fact_Stopped r outcome ∈ endings r (facts w)) as Hin.
  { intros outcome Hf. by apply list_elem_of_filter. }
  assert (∀ a fact b, control_lane w = a ++ fact :: b → ended_by fact = Some r → Fact_Started r ∈ a) as Ho.
  { intros a fact b. apply (told_order _ _ _ (ok_told _ Hok)). }
  destruct (watches w !! r) as [x|] eqn:Hx.
  - pose proof (ok_watch _ Hok r x Hx) as Hw. destruct x as [id|outcome|]; cbn in Hw.
    + destruct Hw as [(_ & He & _ & Ht)|[(_ & He & Ht)|(_ & He & Ht)]]; rewrite He in *; split_and!; try done; auto.
      * by intros outcome Hf%Hin%elem_of_nil.
      * right. by eexists.
      * by intros outcome Hf%Hin%list_elem_of_singleton.
      * by intros outcome Hf%Hin%elem_of_nil.
    + destruct Hw as (Hp & He & Ht). rewrite He in *. split_and!; try done; auto.
      by intros o Hf%Hin%elem_of_nil.
    + destruct Hw as [(He & Ht)|[(outcome & Hp & He & Ht)|(He & Ht)]]; rewrite He in *; split_and!; try done; auto.
      * right. by eexists.
      * by intros outcome Hf%Hin%list_elem_of_singleton.
      * right. by eexists.
      * intros o Hf%Hin%list_elem_of_singleton. by injection Hf as ->.
      * by intros outcome Hf%Hin%elem_of_nil.
  - apply lookup_ge_None in Hx. rewrite (endings_fresh _ _ Hok Hx) in *. split_and!; try done; auto.
    by intros outcome Hf%Hin%elem_of_nil.
Qed.
End protocol.

(** ** A run *)

(** Three observations: the second is cancelled, the first is told after the lane
    was drained, the third is revoked by retirement. *)
Local Abbreviation observing id w := (default w (interpret_observe (id : nat) w)).
Local Abbreviation run_observing := (observing 9 (observing 8 (observing 7 (fresh_exact (O := nat))))).
Local Abbreviation run_acquired := (poll_completion 0 (publish 0 42 run_observing)).
Local Abbreviation run_cancelled := (default run_acquired (interpret_cancel 8 1 run_acquired)).
Local Abbreviation run_retired :=
  (poll_completion 2 (deliver 0 (take_exact (with_phase false true (with_phase false false run_cancelled))))).

Example observed_facts :
  facts run_retired =
    [Fact_Started 0; Fact_Started 1; Fact_Started 2; Fact_Cancelled 1; Fact_Stopped 0 42].
Proof. by vm_compute. Qed.

Lemma default_step (m : option (ExactWorld (Id := nat) (O := nat))) w :
  is_Some m → (∀ w', m = Some w' → exact_step w w') → exact_step w (default w m).
Proof. intros [w' ->] Hm. by apply Hm. Qed.

Lemma observed_run_reachable : exact_reachable run_retired.
Proof.
  assert (∀ id w, in_service w = true → is_Some (interpret_observe (Id := nat) (O := nat) id w) →
    exact_step w (observing id w)) as Ho.
  { intros id w Hs Hm. apply default_step; [done|]. intros w' Hw'. by eapply step_observe. }
  eapply rtc_l; [apply (Ho 7); [done|by vm_compute; eexists]|].
  eapply rtc_l; [apply (Ho 8); [done|by vm_compute; eexists]|].
  eapply rtc_l; [apply (Ho 9); [done|by vm_compute; eexists]|].
  eapply rtc_l; [apply (step_terminate 0 42); by vm_compute|].
  eapply rtc_l; [apply (step_poll 0)|].
  eapply rtc_l.
  { apply (default_step (interpret_cancel 8 1 run_acquired)); [by vm_compute; eexists|].
    intros w' Hw'. apply (step_cancel 8 1); [done|vm_compute; lia|exact Hw']. }
  eapply rtc_l; [apply step_retire|]. eapply rtc_l; [apply step_drain; by vm_compute|].
  eapply rtc_l; [apply step_take; by vm_compute|]. eapply rtc_l; [apply (step_deliver 0)|].
  eapply rtc_l; [apply (step_poll 2)|]. apply rtc_refl.
Qed.

Lemma exact_observation_ends_once_witness :
  endings 0 (facts run_retired) = [Fact_Stopped 0 42] ∧ published run_retired !! 0 = Some 42 ∧
  2 ∈ retired run_retired ∧ endings 2 (facts run_retired) = [].
Proof.
  destruct (exact_observation_ends_once run_retired 0 observed_run_reachable) as (_ & Hs & _).
  destruct (exact_observation_ends_once run_retired 2 observed_run_reachable) as (_ & _ & _ & _ & Ht).
  assert (2 ∈ retired run_retired) as H2 by (apply (bool_decide_unpack _); by vm_compute).
  split; [by vm_compute|]. split; [|by split; [|apply Ht]].
  apply Hs. rewrite observed_facts. by do 4 right; left.
Defined.
