(* ===== verification/Capabilities.v ===== *)
(** * Capabilities of a local actor

    [crates/bombay/src/local/effects/mod.rs] with [TerminationObservations] of
    [observation.rs] and the timers of [timers.rs]: what the interpreter of one
    actor owns besides its behavior.  The events of its observations and tasks
    are acquired in turns; its retirement hands over the tasks, revokes the
    exact observations, retires the children, sends the selected terminal report
    and disposes of the rest.

    Third-party values are [CapabilityHost].  The type of the interpreter is part
    of [LocalTypes], so [native_types] puts this one in the place of an arbitrary
    one. *)

From stdpp Require Import gmap.
From S2P Require Import Prelude Driver Host Assessment LocalIngress LocalEnvironment ActorOutcome.
From S2P Require Import ChildRetirement Endpoint ExactObservation.

(** ** The host *)

Class CapabilityHost `{!LocalTypes} := {
  Scope : Type; Services : Type; Parent : Type; Timers : Type; Allocations : Type;
  Capacity : Type; TerminationFuture : Type;
  ExactRef : Type; ObservationId : Type; Identity : Type; Revocation : Type;
  observation_id_eq_dec :: EqDecision ObservationId;
  observation_id_countable :: Countable ObservationId;
  identity_eq_dec :: EqDecision Identity;
  own_lane :: ControlLane Event;
  (** One poll of [observation.into_future()]. *)
  poll_termination : TerminationFuture → World → World * (TerminationFuture * option Termination);
  (** Whether the task's budget lets [coop::cooperative] poll what it wraps. *)
  coop_proceed : World → World * bool;
  (** The map behind [exact_observations]. *)
  exact_of : ExactRef → World → ExactMap ObservationId Identity Revocation;
  set_exact : ExactRef → ExactMap ObservationId Identity Revocation → World → World;
  revocation_send : Revocation → World → World;
  (** [TimerQueue]. *)
  queue_next_deadline : Timers → Timers * option Instant;
  queue_pop_due : Timers → Instant → Timers * option Event;
  (** [JoinSet::len]. *)
  task_count : Tasks → nat;
  (** Application policy: the service of an actor, and its destructor. *)
  services_initialize : Scope → Async Panic (World * Services) ();
  services_drop : Services → World → World * option Panic
}.

(** A joined task leaves its set. *)
Class CapabilityLaw `{!LocalTypes, !CapabilityHost, !TaskSet World Tasks Event JoinError} := {
  join_removes w tasks w' tasks' joined :
    join_next tasks w = (w', (tasks', Some (Some joined))) → task_count tasks = S (task_count tasks')
}.

(** ** Facts of observed terminations *)

Section observations.
Context {TY : LocalTypes} {CH : CapabilityHost} {CreationId : Type}.
Implicit Types w : World.

Variant TerminationSource :=
  | Termination_Peer (address : Addr)
  | Termination_Child (creation : CreationId).

(** [InjectTermination]: a mapper of the application's, which may unwind. *)
Definition InjectTermination : Type := TerminationSource → Termination → Async Panic World Event.

Record PendingTermination := {
  future : TerminationFuture;
  source : TerminationSource;
  inject : InjectTermination
}.

(** [TerminationObservations::pending]. *)
Definition TerminationObservations : Type := list PendingTermination.

(** [inject_peer] and [inject_child] over [E::inject_at] of one route. *)
Definition inject_peer (inject_at : Addr → Termination → Async Panic World Event) : InjectTermination :=
  λ source outcome,
    match source with
    | Termination_Peer address => inject_at address outcome
    | Termination_Child _ => violated
    end.
Definition inject_child (now : World → Instant)
    (inject_at : CreationId → Termination → Instant → Async Panic World Event) : InjectTermination :=
  λ source outcome,
    match source with
    | Termination_Child creation => λ w, inject_at creation outcome (now w) w
    | Termination_Peer _ => violated
    end.

Definition insert (observation : TerminationFuture) (source : TerminationSource)
    (inject : InjectTermination) (pending : TerminationObservations) : TerminationObservations :=
  pending ++ [{| future := observation; source := source; inject := inject |}].
Definition insert_peer inject_at (address : Addr) (observation : TerminationFuture) :=
  insert observation (Termination_Peer address) (inject_peer inject_at).
Definition insert_child now inject_at (creation : CreationId) (observation : TerminationFuture) :=
  insert observation (Termination_Child creation) (inject_child now inject_at).

Variant TerminationEvent := Event_Peer (event : Event) | Event_Child (event : Event).

(** The loop over the indices: the first ready one is removed. *)
Fixpoint poll_pending (before pending : TerminationObservations) w :
    World * (TerminationObservations * option (PendingTermination * Termination)) :=
  match pending with
  | [] => (w, (before, None))
  | x :: pending =>
      let '(w, (future, outcome)) := poll_termination (future x) w in
      match outcome with
      | Some outcome => (w, (before ++ pending, Some (x, outcome)))
      | None =>
          poll_pending (before ++ [{| future := future; source := source x; inject := inject x |}])
            pending w
      end
  end.

(** One poll of [TerminationObservations::next]. *)
Definition observations_next :
    Async Panic (World * TerminationObservations) (option TerminationEvent) :=
  λ '(w, pending),
    let '(w, (pending, ready)) := poll_pending [] pending w in
    match ready with
    | None => ((w, pending), Ready None)
    | Some (x, outcome) =>
        (event ← on_host (inject x (source x) outcome);
         mret (Some match source x with
                    | Termination_Peer _ => Event_Peer event
                    | Termination_Child _ => Event_Child event
                    end)) (w, pending)
    end.

(** [TerminationEvent::into_local]. *)
Definition into_local (event : TerminationEvent) (control : ControlSender) w : World * option Event :=
  match event with
  | Event_Peer event => (w, Some event)
  | Event_Child event =>
      let '(w, sent) := lane_send control event w in
      (w, match sent with Ok _ => None | Err event => Some event end)
  end.
End observations.

(** ** The capabilities *)

Section capabilities.
Context {TY : LocalTypes} {LH : LaunchHost} {CH : CapabilityHost} {CreationId : Type}.
Context `{!TaskSet World Tasks Event JoinError}.
Context {Root Failure Bindings : Type} `{!RetireChildTasks Panic World Root Failure Bindings}.
Implicit Types w : World.

Variant LocalSource := Local_Observation | Local_Startup.

Record ApplicationCapabilityInputs := {
  input_address : Addr;
  input_actor_spaces : Scope;
  input_allocations : Allocations;
  input_mailbox_capacity : Capacity;
  input_control : ControlSender;
  input_timers : Timers;
  input_observations : TerminationObservations (CreationId := CreationId);
  input_terminal_reports : LocalTerminalReports
}.

Record ApplicationCapabilities := {
  actor_spaces : Scope;
  services : Services;
  allocations : Allocations;
  mailbox_capacity : Capacity;
  address : Addr;
  control : ControlSender;
  timers : Timers;
  observations : TerminationObservations (CreationId := CreationId);
  next_local_source : LocalSource;
  next_child_route : N;
  operation_failures : ActorFailureAssessment;
  child_bindings : option Bindings;
  activation_tasks : option Tasks;
  exact_observations : ExactRef;
  terminal_reports : LocalTerminalReports;
  parent_reports : option Parent
}.
Implicit Types c : ApplicationCapabilities.

(** [new_with_services]; [tasks] is the empty set and [exact] the fresh map. *)
Definition new_with_services (inputs : ApplicationCapabilityInputs) (bindings : Bindings)
    (services : Services) (tasks : Tasks) (exact : ExactRef) : ApplicationCapabilities :=
  {| actor_spaces := input_actor_spaces inputs; services := services;
     allocations := input_allocations inputs; mailbox_capacity := input_mailbox_capacity inputs;
     address := input_address inputs; control := input_control inputs;
     timers := input_timers inputs; observations := input_observations inputs;
     next_local_source := Local_Observation; next_child_route := 0;
     operation_failures := NoFailuresFound; child_bindings := Some bindings;
     activation_tasks := Some tasks; exact_observations := exact;
     terminal_reports := input_terminal_reports inputs; parent_reports := None |}.

Definition with_parent (parent : Parent) c : ApplicationCapabilities :=
  {| actor_spaces := actor_spaces c; services := services c; allocations := allocations c;
     mailbox_capacity := mailbox_capacity c; address := address c; control := control c;
     timers := timers c; observations := observations c;
     next_local_source := next_local_source c; next_child_route := next_child_route c;
     operation_failures := operation_failures c; child_bindings := child_bindings c;
     activation_tasks := activation_tasks c; exact_observations := exact_observations c;
     terminal_reports := terminal_reports c; parent_reports := Some parent |}.

Definition set_services (x : Services) c : ApplicationCapabilities :=
  Build_ApplicationCapabilities (actor_spaces c) x (allocations c) (mailbox_capacity c) (address c)
    (control c) (timers c) (observations c) (next_local_source c) (next_child_route c)
    (operation_failures c) (child_bindings c) (activation_tasks c) (exact_observations c)
    (terminal_reports c) (parent_reports c).
Definition set_timers (x : Timers) c : ApplicationCapabilities :=
  Build_ApplicationCapabilities (actor_spaces c) (services c) (allocations c) (mailbox_capacity c)
    (address c) (control c) x (observations c) (next_local_source c) (next_child_route c)
    (operation_failures c) (child_bindings c) (activation_tasks c) (exact_observations c)
    (terminal_reports c) (parent_reports c).
Definition set_observations (x : TerminationObservations) c : ApplicationCapabilities :=
  Build_ApplicationCapabilities (actor_spaces c) (services c) (allocations c) (mailbox_capacity c)
    (address c) (control c) (timers c) x (next_local_source c) (next_child_route c)
    (operation_failures c) (child_bindings c) (activation_tasks c) (exact_observations c)
    (terminal_reports c) (parent_reports c).
Definition set_next_local_source (x : LocalSource) c : ApplicationCapabilities :=
  Build_ApplicationCapabilities (actor_spaces c) (services c) (allocations c) (mailbox_capacity c)
    (address c) (control c) (timers c) (observations c) x (next_child_route c)
    (operation_failures c) (child_bindings c) (activation_tasks c) (exact_observations c)
    (terminal_reports c) (parent_reports c).
Definition set_next_child_route (x : N) c : ApplicationCapabilities :=
  Build_ApplicationCapabilities (actor_spaces c) (services c) (allocations c) (mailbox_capacity c)
    (address c) (control c) (timers c) (observations c) (next_local_source c) x
    (operation_failures c) (child_bindings c) (activation_tasks c) (exact_observations c)
    (terminal_reports c) (parent_reports c).
Definition set_operation_failures (x : ActorFailureAssessment) c : ApplicationCapabilities :=
  Build_ApplicationCapabilities (actor_spaces c) (services c) (allocations c) (mailbox_capacity c)
    (address c) (control c) (timers c) (observations c) (next_local_source c) (next_child_route c)
    x (child_bindings c) (activation_tasks c) (exact_observations c) (terminal_reports c)
    (parent_reports c).
Definition set_child_bindings (x : option Bindings) c : ApplicationCapabilities :=
  Build_ApplicationCapabilities (actor_spaces c) (services c) (allocations c) (mailbox_capacity c)
    (address c) (control c) (timers c) (observations c) (next_local_source c) (next_child_route c)
    (operation_failures c) x (activation_tasks c) (exact_observations c) (terminal_reports c)
    (parent_reports c).
Definition set_activation_tasks (x : option Tasks) c : ApplicationCapabilities :=
  Build_ApplicationCapabilities (actor_spaces c) (services c) (allocations c) (mailbox_capacity c)
    (address c) (control c) (timers c) (observations c) (next_local_source c) (next_child_route c)
    (operation_failures c) (child_bindings c) x (exact_observations c) (terminal_reports c)
    (parent_reports c).
Definition set_terminal_reports (x : LocalTerminalReports) c : ApplicationCapabilities :=
  Build_ApplicationCapabilities (actor_spaces c) (services c) (allocations c) (mailbox_capacity c)
    (address c) (control c) (timers c) (observations c) (next_local_source c) (next_child_route c)
    (operation_failures c) (child_bindings c) (activation_tasks c) (exact_observations c) x
    (parent_reports c).

Local Abbreviation Run := (Async Panic (World * ApplicationCapabilities)).

(** [inject_control_event]; [event] is [C::Event::inject_at], which may unwind. *)
Definition inject_control_event (event : Async Panic World Event) : Run () :=
  event ← on_host event;
  control ← look control;
  sent ← perform (lane_send control event);
  match sent with Ok _ => mret () | Err _ => violated end.

(** *** [next_local_event] *)

(** [coop::cooperative(self.observations.next())], polled once. *)
Definition poll_observation : Run (option TerminationEvent) :=
  proceed ← perform coop_proceed;
  if proceed : bool then focus observations set_observations observations_next else mret None.

Definition observation_branch : Run (option (LocalSource * Result (option Event) JoinError)) :=
  polled ← poll_observation;
  match polled with
  | None => mret None
  | Some event =>
      control ← look control;
      local ← perform (into_local event control);
      mret (Some (Local_Startup, Ok local))
  end.

(** [ActivationTasks::next_event]: every task that ended with nothing is skipped. *)
Definition startup_branch : Run (option (LocalSource * Result (option Event) JoinError)) :=
  tasks ← look activation_tasks;
  match tasks with
  | None => violated
  | Some tasks =>
      polled ← perform (λ w,
        let '(w, (tasks, event)) := next_event (S (task_count tasks)) tasks w in (w, (tasks, event)));
      change (set_activation_tasks (Some polled.1));;
      mret match polled.2 with
           | None => None
           | Some (Ok event) => Some (Local_Observation, Ok (Some event))
           | Some (Err failure) => Some (Local_Observation, Err failure)
           end
  end.

(** The biased selection in the order of the source whose turn it is. *)
Definition select_local : Run (option (LocalSource * Result (option Event) JoinError)) :=
  turn ← look next_local_source;
  let '(first, second) :=
    match turn with
    | Local_Observation => (observation_branch, startup_branch)
    | Local_Startup => (startup_branch, observation_branch)
    end in
  selected ← first;
  match selected with Some _ => mret selected | None => second end.

(** One poll of [next_local_event].  Every round but the last removes an
    observation, so [fuel] is how many there are. *)
Fixpoint local_rounds (fuel : nat) : Run (option (Result Event JoinError)) :=
  tasks ← look activation_tasks;
  match tasks with
  | None => violated
  | Some _ =>
      selected ← select_local;
      match selected with
      | None => mret None
      | Some (next, event) =>
          change (set_next_local_source next);;
          match event, fuel with
          | Ok (Some event), _ => mret (Some (Ok event))
          | Err failure, _ => mret (Some (Err failure))
          | Ok None, S fuel => local_rounds fuel
          | Ok None, 0 => mret None
          end
      end
  end.

Definition next_local_event : Run (option (Result Event JoinError)) := λ '(w, c),
  local_rounds (length (observations c)) (w, c).

(** *** Timers *)

Definition capabilities_next_deadline c : ApplicationCapabilities * option Instant :=
  let '(timers, deadline) := queue_next_deadline (timers c) in (set_timers timers c, deadline).
Definition capabilities_pop_due c (now : Instant) : ApplicationCapabilities * option Event :=
  let '(timers, due) := queue_pop_due (timers c) now in (set_timers timers c, due).

(** ** Retirement *)

(** The types of an actor whose interpreter owns these capabilities. *)
Definition native_types : LocalTypes :=
  {| World := World; Panic := Panic; Event := Event; Item := Item; Retired := Retired;
     Actions := Actions; InterpretationCustody := InterpretationCustody;
     OfferCustody := OfferCustody; Settlements := Settlements;
     Interpreter := option ApplicationCapabilities; Descendants := list Root * list Failure;
     Notice := Notice; Addr := Addr; AddressSpace := AddressSpace; ClaimError := ClaimError;
     Reservation := Reservation; Lease := Lease; Owner := Owner; Consumer := Consumer;
     MailboxRef := MailboxRef; ControlSender := ControlSender; Cancel := Cancel;
     CommitmentSender := CommitmentSender; AckSender := AckSender; AckReceiver := AckReceiver;
     RecvError := RecvError; Tasks := Tasks; JoinError := JoinError; Instant := Instant;
     TerminationObservation := TerminationObservation; Termination := Termination |}.

Local Abbreviation Retirement := (@CapabilityRetirement native_types).

(** The lanes that the children are retired into. *)
Definition retired_lanes (r : Retirement) : ChildLanes Root Failure :=
  {| retired_children := (retired_descendants r).1; child_failures := (retired_descendants r).2;
     descendants_report := retired_descendant_report r |}.
Definition with_lanes (lanes : ChildLanes Root Failure) (r : Retirement) : Retirement :=
  @Build_CapabilityRetirement native_types (retired_tasks r)
    (retired_children lanes, child_failures lanes) (retired_operation_failures r)
    (descendants_report lanes) (retired_terminal_report r) (retired_failures r).
Definition with_report (publication : option (Result () Termination)) (payloads : list Panic)
    (r : Retirement) : Retirement :=
  @Build_CapabilityRetirement native_types (retired_tasks r) (retired_descendants r)
    (retired_operation_failures r) (retired_descendant_report r) publication
    (retired_failures r ++ payloads).

(** What is acquired with the activation tasks. *)
Definition acquire_retirement (tasks : Tasks) c : Retirement :=
  @Build_CapabilityRetirement native_types tasks ([], []) (operation_failures c) clean None [].

(** The payload of the runtime's own [unreachable!]s, and the destructors of
    everything but the services. *)
Context (assertion : Panic) (drop_rest : ApplicationCapabilities → World → World * option Panic).

(** What [catch_unwind] makes of an outcome. *)
Definition caught {A} (o : Outcome Panic A) : list Panic :=
  match o with Ready _ | Pending => [] | Panicked payload => [payload] | Violated => [assertion] end.

(** Every revocation left in the map is sent. *)
Definition revoke_exact c w : World * () :=
  let '(emptied, cancellations) := exact_retire (exact_of (exact_observations c) w) in
  (foldl (λ w cancellation, revocation_send cancellation w)
     (set_exact (exact_observations c) emptied w) cancellations, ()).

Definition dispose_capabilities c w : World * list Panic :=
  let '(w, services) := services_drop (services c) w in
  let '(w, rest) := drop_rest c w in
  (w, option_list services ++ option_list rest).

Local Abbreviation Retire := (Async Panic (World * (ApplicationCapabilities * Retirement))).

Definition receive_report : Retire () := λ '(w, (c, r)),
  let '((w, (reports, publication)), o) :=
    reports_receive_retirement (w, (terminal_reports c, retired_terminal_report r)) in
  ((w, (set_terminal_reports reports c, with_report publication (caught o) r)), Ready ()).

(** The acquired lanes from the revocations to the report: whether the owner is
    ready to be disposed of. *)
Definition receive_owner_retirement : Retire bool :=
  c ← look fst;
  perform (revoke_exact c);;
  focus (λ '(c, r), (child_bindings c, retired_lanes r))
    (λ '(bindings, lanes) '(c, r), (set_child_bindings bindings c, with_lanes lanes r))
    receive_children;;
  c ← look (fst (A := ApplicationCapabilities) (B := Retirement));
  if is_some (child_bindings c) then mret false else
  receive_report;;
  c ← look (fst (A := ApplicationCapabilities) (B := Retirement));
  mret (reports_retirement_complete (terminal_reports c)).

(** The rest of [receive_retirement]: the owner is disposed of once it is complete. *)
Definition retire_owner c (r : Retirement) w :
    (World * (option ApplicationCapabilities * option Retirement)) * Outcome Panic () :=
  let '((w, (c, r)), o) := receive_owner_retirement (w, (c, r)) in
  match o with
  | Ready true =>
      let '(w, payloads) := dispose_capabilities c w in
      ((w, (None, Some (with_report (retired_terminal_report r) payloads r))), Ready ())
  | Ready false => ((w, (Some c, Some r)), Ready ())
  | Pending => ((w, (Some c, Some r)), Pending)
  | Panicked payload => ((w, (Some c, Some r)), Panicked payload)
  | Violated => ((w, (Some c, Some r)), Violated)
  end.

(** [RetireCapabilities::receive_retirement]. *)
Definition receive_capability_retirement :
    Async Panic (World * (option ApplicationCapabilities * option Retirement)) () :=
  λ '(w, (capabilities, received)),
    match capabilities with
    | None => ((w, (None, received)), Ready ())
    | Some c =>
        match activation_tasks c, received with
        | Some _, Some _ | None, None => ((w, (Some c, received)), Ready ())
        | None, Some r => retire_owner c r w
        | Some tasks, None =>
            retire_owner (set_activation_tasks None c) (acquire_retirement tasks c) w
        end
    end.

(** ** Proofs *)

Context {law : ChildTasksLaw (P := Panic) (W := World) (Root := Root) (Failure := Failure)
                 (Bindings := Bindings)}.

(** Capabilities in service: they own their tasks, well-formed children and the
    sender of the terminal report. *)
Record served c : Prop := {
  served_tasks : is_Some (activation_tasks c);
  served_bindings : ∃ b, child_bindings c = Some b ∧ bindings_ok b;
  served_report : is_Some (report (terminal_reports c))
}.

(** *** Acquisition of local events *)

(** What it may change. *)
Record polled c c' : Prop := {
  polled_bindings : child_bindings c' = child_bindings c;
  polled_reports : terminal_reports c' = terminal_reports c;
  polled_tasks : is_Some (activation_tasks c) → is_Some (activation_tasks c');
  polled_failures : operation_failures c' = operation_failures c;
  polled_route : next_child_route c' = next_child_route c;
  polled_owner : control c' = control c ∧ exact_observations c' = exact_observations c ∧
    services c' = services c ∧ parent_reports c' = parent_reports c
}.

#[local] Instance polled_preorder : PreOrder polled.
Proof.
  split; [by intros c; split|]. intros a b c [? ? ? ? ? (? & ? & ? & ?)] [? ? ? ? ? (? & ? & ? & ?)].
  split; try congruence; [auto|split_and!; congruence].
Qed.

Lemma polled_served c c' : polled c c' → served c → served c'.
Proof. intros [Hb Hr Ht _ _ _] [? ? ?]. split; [auto|by rewrite Hb|by rewrite Hr]. Qed.

Local Abbreviation keep := (keeping (P := Panic) (W := World) polled).

Ltac keep_local :=
  match goal with
  | |- keeping _ (mbind _ _) => apply keeping_bind; [apply _| |intros ?]
  | |- keeping _ (change (set_activation_tasks (Some _))) =>
      apply keeping_change; intros ?; split; try done; cbn; by eexists
  | |- keeping _ (change _) => apply keeping_change; by split
  | |- keeping _ (focus _ _ _) => apply keeping_focus; by split
  | |- keeping _ (match ?x with _ => _ end) => destruct x
  | |- keeping _ _ => by auto with bombay typeclass_instances
  end.

Lemma keep_observation : keep observation_branch.
Proof. unfold observation_branch, poll_observation. repeat keep_local. Qed.
Lemma keep_startup : keep startup_branch.
Proof. unfold startup_branch. repeat keep_local. Qed.
Hint Resolve keep_observation keep_startup : bombay.

Lemma keep_select : keep select_local.
Proof.
  unfold select_local. apply keeping_bind; [apply _|by auto with bombay typeclass_instances|].
  intros []; repeat keep_local.
Qed.
Hint Resolve keep_select : bombay.

Lemma keep_rounds fuel : keep (local_rounds fuel).
Proof. induction fuel as [|fuel IH]; cbn; repeat keep_local. Qed.

Lemma keep_next_local_event : keep next_local_event.
Proof. intros w c. apply keep_rounds. Qed.

(** Only a mapper that is given the source of the other kind breaks an assertion. *)
Definition mapped (x : PendingTermination (CreationId := CreationId)) : Prop := ∀ outcome, quiet (inject x (source x) outcome).

Lemma poll_pending_mapped before pending w :
  Forall mapped before → Forall mapped pending →
  let '(_, (pending', ready)) := poll_pending before pending w in
  Forall mapped pending' ∧
  match ready with
  | None => length pending' = length before + length pending
  | Some (x, _) => mapped x ∧ S (length pending') = length before + length pending
  end.
Proof.
  revert before w. induction pending as [|x pending IH]; intros before w Hb Hp; cbn; [split; [done|lia]|].
  apply Forall_cons in Hp as [Hx Hp].
  destruct (poll_termination _ _) as [w' [f [outcome|]]].
  - split; [by apply Forall_app|]. split; [done|]. rewrite length_app. cbn. lia.
  - specialize (IH (before ++ [{| future := f; source := source x; inject := inject x |}]) w').
    destruct (poll_pending _ _ _) as [w2 [pending' ready]]. destruct IH as [H1 H2]; [|done|].
    { apply Forall_app. split; [done|]. by apply Forall_singleton. }
    split; [done|]. rewrite length_app in H2. cbn in H2.
    destruct ready as [[y outcome]|]; [destruct H2; split; [done|]|]; lia.
Qed.

(** What an acquisition needs to break no assertion, and keeps. *)
Definition acquiring c : Prop := is_Some (activation_tasks c) ∧ Forall mapped (observations c).

Lemma wp_on_host {T A} (m : Async Panic World A) (Q : World * T → Outcome Panic A → Prop) w t :
  wp m (λ w' o, Q (w', t) o) w → wp (on_host m) Q (w, t).
Proof. unfold wp, on_host. by destruct (m w). Qed.

Lemma wp_observations_next w pending :
  Forall mapped pending →
  wp observations_next (λ '(_, pending') o,
    Forall mapped pending' ∧ is_Violated o = false ∧
    match o with
    | Ready (Some _) => S (length pending') = length pending
    | _ => length pending' ≤ length pending
    end) (w, pending).
Proof.
  intros Hm. unfold observations_next, wp. pose proof (poll_pending_mapped [] pending w (Forall_nil_2 _) Hm) as Hp.
  destruct (poll_pending [] pending w) as [w1 [pending' ready]]. destruct Hp as [Hp' Hr].
  destruct ready as [[x outcome]|]; cbn in *; [|split_and!; [done|done|lia]].
  destruct Hr as [Hx Hl]. rewrite bind_eq. unfold on_host. specialize (Hx outcome w1).
  destruct (inject x (source x) outcome w1) as [w2 [event| |payload|]]; cbn in *; try done;
    (split_and!; [done|done|lia]).
Qed.

Lemma wp_observation w c :
  acquiring c →
  wp observation_branch (λ '(_, c') o,
    acquiring c' ∧ is_Violated o = false ∧
    match o with
    | Ready (Some _) => S (length (observations c')) = length (observations c)
    | _ => length (observations c') ≤ length (observations c)
    end) (w, c).
Proof.
  intros [Ht Hm]. unfold observation_branch, poll_observation. do 3 wp_step.
  destruct x; [|do 2 wp_step; by split_and!]. apply wp_focus.
  eapply wp_mono; [by apply (wp_observations_next _ (observations c))|]. intros [w1 pending'] o (Hp & Hv & Hl).
  destruct o as [[event|]| |payload|]; cbn [wp_then]; try (by split_and!).
  repeat wp_step. by split_and!.
Qed.

Lemma wp_startup w c :
  acquiring c →
  wp startup_branch (λ '(_, c') o,
    acquiring c' ∧ is_Violated o = false ∧ observations c' = observations c ∧
    ∀ next, o ≠ Ready (Some (next, Ok None))) (w, c).
Proof.
  intros [[tasks Ht] Hm]. unfold startup_branch. do 2 wp_step. rewrite Ht. repeat wp_step.
  split; [by split|]. split_and!; try done. intros next. by destruct x as [tasks' [[event|failure]|]].
Qed.

Lemma wp_select w c :
  acquiring c →
  wp select_local (λ '(_, c') o,
    acquiring c' ∧ is_Violated o = false ∧ length (observations c') ≤ length (observations c) ∧
    ∀ next, o = Ready (Some (next, Ok None)) → S (length (observations c')) = length (observations c))
    (w, c).
Proof.
  intros Hc. unfold select_local. do 2 wp_step. destruct (next_local_source c); wp_step.
  - eapply wp_mono; [by apply wp_observation|]. intros [w1 c1] o (Hc1 & Hv & Ho).
    destruct o as [[selected|]| |payload|]; cbn [wp_then]; try done.
    + wp_step. split_and!; try done. lia.
    + eapply wp_mono; [by apply wp_startup|]. intros [w2 c2] o2 (Hc2 & Hv2 & Heq & Hn).
      rewrite Heq. split_and!; try done. intros next ->. by destruct (Hn next).
  - eapply wp_mono; [by apply wp_startup|]. intros [w1 c1] o (Hc1 & Hv & Heq & Hn).
    destruct o as [[selected|]| |payload|]; cbn [wp_then]; try (split_and!; try done; by rewrite Heq).
    + wp_step. rewrite Heq. split_and!; try done. intros next [= ->]. by destruct (Hn next).
    + eapply wp_mono; [by apply wp_observation|]. intros [w2 c2] o2 (Hc2 & Hv2 & Ho2).
      rewrite Heq in Ho2. split_and!; try done.
      * destruct o2 as [[?|]| | |]; lia.
      * by intros next ->.
Qed.

Lemma wp_rounds fuel w c :
  acquiring c →
  wp (local_rounds fuel) (λ '(_, c') o, acquiring c' ∧ is_Violated o = false) (w, c).
Proof.
  revert w c. induction fuel as [|fuel IH]; intros w c Hc; cbn [local_rounds]; do 2 wp_step;
    (destruct (activation_tasks c) as [tasks|] eqn:Ht; [|by destruct Hc as [[? ?] _]; congruence]);
    wp_step; (eapply wp_mono; [by apply wp_select|]); intros [w1 c1] o (Hc1 & Hv & _);
    destruct o as [[[next event]|]| |payload|]; cbn [wp_then]; try done;
    do 2 wp_step; destruct event as [[event|]|failure]; try done.
  by apply IH.
Qed.

Lemma wp_next_local_event w c :
  acquiring c → wp next_local_event (λ '(_, c') o, acquiring c' ∧ is_Violated o = false) (w, c).
Proof. by apply wp_rounds. Qed.

(** The fuel of [next_local_event] is enough: more rounds change nothing. *)
Lemma rounds_enough fuel w c :
  acquiring c → length (observations c) ≤ fuel → local_rounds fuel (w, c) = next_local_event (w, c).
Proof.
  intros Hc Hf. unfold next_local_event.
  assert (∀ n w c, acquiring c → length (observations c) ≤ n →
    local_rounds (S n) (w, c) = local_rounds n (w, c)) as Hs.
  { clear. induction n as [|n IH]; intros w c Hc Hn.
    - cbn [local_rounds]. rewrite !bind_eq. cbn [look].
      destruct (activation_tasks c); [|done]. rewrite !bind_eq.
      pose proof (wp_select w c Hc) as Hw. unfold wp in Hw.
      destruct (select_local (w, c)) as [[w1 c1] [[[next event]|]| |payload|]]; try done.
      rewrite !bind_eq. cbn [change]. destruct event as [[event|]|failure]; try done.
      destruct Hw as (_ & _ & _ & Hl). specialize (Hl next eq_refl). lia.
    - change (local_rounds (S (S n)) (w, c) = local_rounds (S n) (w, c)).
      cbn [local_rounds]. rewrite !bind_eq. cbn [look].
      destruct (activation_tasks c); [|done]. rewrite !bind_eq.
      pose proof (wp_select w c Hc) as Hw. unfold wp in Hw.
      destruct (select_local (w, c)) as [[w1 c1] [[[next event]|]| |payload|]]; try done.
      rewrite !bind_eq. cbn [change]. destruct event as [[event|]|failure]; try done.
      destruct Hw as ([? ?] & _ & _ & Hl). specialize (Hl next eq_refl).
      apply (IH w1 (set_next_local_source next c1)); [by split|]. cbn. lia. }
  induction Hf as [|fuel Hf IH]; [done|]. by rewrite Hs.
Qed.

(** *** Retirement *)

(** What one attempt after another acquired of the capabilities they began with. *)
Record acquired c (bindings : option Bindings) (r : Retirement) : Prop := {
  acquired_tasks : activation_tasks c = Some (retired_tasks r);
  acquired_failures : retired_operation_failures r = operation_failures c;
  acquired_children : ∃ b, child_bindings c = Some b ∧
    handed b bindings (retired_descendants r).1 (retired_descendants r).2 ∧
    (retired_descendant_report r = clean → unrejected b → (retired_descendants r).2 = [])
}.

(** The selected report is sent once; a refused one is kept and noted. *)
Definition reported c (r : Retirement) : Prop :=
  match selection (terminal_reports c) with
  | Unselected => retired_terminal_report r = None
  | Selected _ => ∃ sent, retired_terminal_report r = Some sent ∧
                    (is_Ok sent = false → assertion ∈ retired_failures r)
  end.

(** Between two attempts. *)
Record retiring_pair c c' (r : Retirement) : Prop := {
  retiring_acquired : acquired c (child_bindings c') r;
  retiring_tasks : activation_tasks c' = None;
  retiring_reports : terminal_reports c' = terminal_reports c;
  retiring_unreported : retired_terminal_report r = None ∧ retired_failures r = [];
  retiring_bindings b : child_bindings c' = Some b → bindings_ok b
}.

Definition retiring_from c (s : option ApplicationCapabilities * option Retirement) : Prop :=
  match s with
  | (Some c', None) => c' = c
  | (Some c', Some r) => retiring_pair c c' r
  | (None, Some r) => acquired c None r ∧ reported c r
  | (None, None) => False
  end.

Lemma retiring_begins tasks c :
  served c → activation_tasks c = Some tasks →
  retiring_pair c (set_activation_tasks None c) (acquire_retirement tasks c).
Proof.
  intros [_ (b & Hb & Hok) _] Ht. split; try done; cbn; [|by rewrite Hb; intros ? [= <-]].
  split; [done|done|]. exists b. split; [done|]. cbn. rewrite Hb. split; [by apply handed_refl|done].
Qed.

(** The children, from the lanes acquired so far. *)
Lemma acquired_trans c b b' r bindings lanes roots failures :
  acquired c (Some b) r → covered (retired_descendant_report r) (descendants_report lanes) →
  handed b bindings roots failures →
  retired_children lanes = (retired_descendants r).1 ++ roots →
  child_failures lanes = (retired_descendants r).2 ++ failures →
  (descendants_report lanes = clean → unrejected b → failures = []) →
  b' = bindings → acquired c b' (with_lanes lanes r).
Proof.
  intros [Ht Hf (b0 & Hb0 & Hh0 & Hu0)] Hc Hh Hr Hfl Hu ->. split; [done|done|]. exists b0. cbn.
  rewrite Hr, Hfl. split_and!; [done|by eapply handed_trans|]. intros Hclean Hun.
  rewrite Hu0; [|apply covered_clean; by rewrite <- Hclean|done].
  by rewrite Hu; [|done|by eapply handed_unrejected].
Qed.

Lemma wp_receive_report w c c' r :
  served c → terminal_reports c' = terminal_reports c → retired_terminal_report r = None →
  acquired c None r →
  wp receive_report (λ '(_, (c2, r2)) o,
    o = Ready () ∧ acquired c None r2 ∧ reported c r2 ∧
    reports_retirement_complete (terminal_reports c2) = true) (w, (c', r)).
Proof.
  intros [_ _ [sender Hs]] Hr Hn [Ht Hf Hch]. unfold wp, receive_report, reports_receive_retirement.
  rewrite Hr, Hn, Hs. unfold reported. destruct (selection (terminal_reports c)) as [|outcome].
  - cbn. by split_and!.
  - destruct (report_send sender outcome w) as [w' sent]. cbn. split_and!; try done.
    exists sent. split; [done|]. destruct sent; [done|]. intros _. apply elem_of_app. right. by left.
Qed.

(** The children may be gone already. *)
Lemma wp_receive_children c bindings r w :
  acquired c bindings r → (∀ b, bindings = Some b → bindings_ok b) →
  wp receive_children (λ '(_, (bindings', lanes)) o,
    is_Violated o = false ∧ acquired c bindings' (with_lanes lanes r) ∧
    (∀ b, bindings' = Some b → bindings_ok b) ∧
    (is_Ready o = true → ∀ b, bindings' = Some b → stopped b)) (w, (bindings, retired_lanes r)).
Proof.
  intros Ha Hok. destruct bindings as [b|].
  - eapply wp_mono; [by apply receive_law, Hok|].
    intros [w1 [bindings' lanes]] o (Hv & Hc & Hok' & Hst & _ & roots & failures & Hh & Hr & Hf & Hu).
    split_and!; try done. by eapply acquired_trans.
  - unfold wp. rewrite receive_none. cbn. split_and!; try done. by destruct Ha as [? ? ?]; split.
Qed.

Lemma wp_owner_retirement w c c' r :
  served c → retiring_pair c c' r →
  wp receive_owner_retirement (λ '(_, (c2, r2)) o,
    match o with
    | Ready true => acquired c None r2 ∧ reported c r2
    | Ready false => retiring_pair c c2 r2 ∧ ∃ b, child_bindings c2 = Some b ∧ stopped b
    | Pending | Panicked _ => retiring_pair c c2 r2
    | Violated => False
    end) (w, (c', r)).
Proof.
  intros Hserved [Hacq Hnone Hrep [Hun Hfail] Hok]. unfold receive_owner_retirement.
  do 4 wp_step. apply wp_bind, wp_focus. cbn [fst snd].
  eapply wp_mono; [apply (wp_receive_children c (child_bindings c') r _ Hacq Hok)|].
  intros [w1 [bindings lanes]] o (Hv & Hacq' & Hok' & Hst).
  assert (retiring_pair c (set_child_bindings bindings c') (with_lanes lanes r)) as Hpair by by split.
  destruct o as [[]| |payload|]; cbn [wp_then]; try done.
  do 2 wp_step. cbn [fst child_bindings set_child_bindings].
  destruct bindings as [b'|]; cbn [is_some]; [wp_step; split; [done|by exists b'; auto]|].
  apply wp_bind. eapply wp_mono; [apply (wp_receive_report _ c); done|].
  intros [w2 [c2 r2]] o (-> & Ha & Hrp & Hcomp). cbn [wp_then]. do 3 wp_step. cbn [fst].
  by rewrite Hcomp.
Qed.

Lemma retire_owner_left w c c' r :
  served c → retiring_pair c c' r →
  let '((_, s'), o) := retire_owner c' r w in
  retiring_from c s' ∧ is_Violated o = false ∧
  (is_Ready o = true → ∀ c', s'.1 = Some c' → ∃ b, child_bindings c' = Some b ∧ stopped b).
Proof.
  intros Hserved Hp. pose proof (wp_owner_retirement w c c' r Hserved Hp) as Ho. unfold wp in Ho.
  unfold retire_owner. destruct (receive_owner_retirement (w, (c', r))) as [[w1 [c2 r2]] [[]| |payload|]];
    cbn [fst snd] in Ho; try done.
  - destruct Ho as [[Ht Hf Hch] Hr]. destruct (dispose_capabilities c2 w1) as [w2 payloads].
    cbn. split_and!; try done. unfold reported in *. cbn.
    destruct (selection _); [done|]. destruct Hr as (sent & -> & Hs). exists sent. split; [done|].
    intros Hk. apply elem_of_app. left. by apply Hs.
  - destruct Ho as [Ho Hb]. split_and!; try done. by intros _ ? [= <-].
Qed.

Lemma wp_capability_retirement w c s :
  served c → retiring_from c s →
  wp receive_capability_retirement (λ '(_, s') o,
    retiring_from c s' ∧ is_Violated o = false ∧
    (is_Ready o = true → ∀ c', s'.1 = Some c' → ∃ b, child_bindings c' = Some b ∧ stopped b)) (w, s).
Proof.
  intros Hserved. destruct s as [[c'|] [r|]]; cbn [retiring_from]; [| | |done].
  - intros Hp. unfold receive_capability_retirement. unfold wp. rewrite (retiring_tasks _ _ _ Hp).
    pose proof (retire_owner_left w c c' r Hserved Hp) as Ho.
    by destruct (retire_owner c' r w) as [[w' s'] o].
  - intros ->. unfold receive_capability_retirement. unfold wp.
    destruct (activation_tasks c) as [tasks|] eqn:Ht; [|by destruct Hserved as [[? ?] _ _]; congruence].
    pose proof (retire_owner_left w c _ _ Hserved (retiring_begins tasks c Hserved Ht)) as Ho.
    by destruct (retire_owner _ _ w) as [[w' s'] o].
  - intros [Ha Hr]. unfold wp. by split_and!.
Qed.

(** *** Children that go on *)

(** The children do not stop the next attempt, and an attempt that is not dropped
    leaves them so. *)
Definition children_going c : Prop := ∀ b, child_bindings c = Some b → going b.

Lemma wp_owner_going w c c' r :
  retiring_pair c c' r → children_going c' →
  wp receive_owner_retirement (λ '(_, (c2, _)) o, o ≠ Pending → children_going c2) (w, (c', r)).
Proof.
  intros [_ _ _ _ Hok] Hg. unfold receive_owner_retirement, children_going in *.
  do 4 wp_step. apply wp_bind, wp_focus. cbn [fst snd].
  assert (∀ w3, wp receive_children (λ '(_, (bindings, _)) o, o ≠ Pending → ∀ b, bindings = Some b → going b)
    (w3, (child_bindings c', retired_lanes r))) as Hch.
  { intros w3. destruct (child_bindings c') as [b|].
    - eapply wp_mono; [by apply receive_law, Hok|].
      intros [w1 [bindings lanes]] o (_ & _ & _ & _ & Hgo & _) Hp. by apply Hgo, Hg.
    - unfold wp. by rewrite receive_none. }
  eapply wp_mono; [apply Hch|]. intros [w1 [bindings lanes]] [[]| |payload|] Hb; cbn [wp_then]; [|done| |].
  2,3: intros _; by apply Hb.
  specialize (Hb ltac:(done)). do 2 wp_step. cbn [fst child_bindings set_child_bindings].
  destruct bindings as [b'|]; cbn [is_some]; [by wp_step|].
  apply wp_bind. unfold wp at 1, receive_report. destruct (reports_receive_retirement _) as [[w2 [reports publication]] o].
  cbn [wp_then fst snd]. do 3 wp_step. by intros _ b [=].
Qed.

Lemma wp_capability_going w c s :
  served c → retiring_from c s → (∀ c', s.1 = Some c' → children_going c') →
  wp receive_capability_retirement (λ '(_, s') o,
    o ≠ Pending → ∀ c', s'.1 = Some c' → children_going c') (w, s).
Proof.
  intros Hserved Hs Hg.
  assert (∀ c' r, retiring_pair c c' r → children_going c' →
    let '((_, s'), o) := retire_owner c' r w in o ≠ Pending → ∀ c', s'.1 = Some c' → children_going c') as Hown.
  { intros c' r Hp Hc'. pose proof (wp_owner_going w c c' r Hp Hc') as Ho. unfold wp in Ho. unfold retire_owner.
    destruct (receive_owner_retirement (w, (c', r))) as [[w1 [c2 r2]] [[]| |payload|]]; cbn [fst snd] in *; try done.
    - by destruct (dispose_capabilities c2 w1).
    - intros _ ? [= <-]. by apply Ho.
    - intros _ ? [= <-]. by apply Ho.
    - intros _ ? [= <-]. by apply Ho. }
  unfold wp, receive_capability_retirement. destruct s as [[c'|] [r|]]; cbn [retiring_from fst] in *; [| | |done].
  - rewrite (retiring_tasks _ _ _ Hs). specialize (Hown c' r Hs (Hg c' eq_refl)).
    by destruct (retire_owner c' r w) as [[w' s'] o].
  - subst c'. destruct (activation_tasks c) as [tasks|] eqn:Ht; [|by destruct Hserved as [[? ?] _ _]; congruence].
    specialize (Hown _ _ (retiring_begins tasks c Hserved Ht) (Hg c eq_refl)).
    by destruct (retire_owner _ _ w) as [[w' s'] o].
  - by intros _ ?.
Qed.

(** One attempt: it is polled until it is ready, dropped or unwinds. *)
Definition retirement_attempt (s s' : option ApplicationCapabilities * option Retirement) : Prop :=
  ∃ w w' o, receive_capability_retirement (w, s) = ((w', s'), o).

Lemma attempts_retiring c s : served c → rtc retirement_attempt (Some c, None) s → retiring_from c s.
Proof.
  intros Hserved. revert s. apply rtc_ind_r; [done|]. intros s s' _ (w & w' & o & Hr) Hs.
  pose proof (wp_capability_retirement w c s Hserved Hs) as Hw. unfold wp in Hw.
  rewrite Hr in Hw. by destruct Hw.
Qed.

(** C11: However many attempts to retire the capabilities of an actor are dropped
    or unwind, none breaks an assertion; once begun, the original tasks and the
    failures of its operations are in the retirement, with the children retired so
    far, each exactly once.  When the capabilities are gone every child was handed
    over and the selected terminal report was sent, a refused one being kept and
    noted as a failure.  An attempt that returns leaves the capabilities only when
    its children stopped. *)
Theorem capabilities_hand_over c s :
  served c → rtc retirement_attempt (Some c, None) s →
  (∀ r, s.2 = Some r → acquired c (s.1 ≫= child_bindings) r) ∧
  (s.1 = None → ∃ r, s.2 = Some r ∧ reported c r) ∧
  ∀ w, let '((_, s'), o) := receive_capability_retirement (w, s) in
    is_Violated o = false ∧
    (is_Ready o = true → ∀ c', s'.1 = Some c' → ∃ b, child_bindings c' = Some b ∧ stopped b).
Proof.
  intros Hserved Hr. pose proof (attempts_retiring c s Hserved Hr) as Hs. split_and!.
  - destruct s as [[c'|] [r|]]; cbn in *; try done; intros ? [= <-]; [apply Hs|by destruct Hs].
  - destruct s as [[c'|] [r|]]; cbn in *; try done. intros _. exists r. by destruct Hs.
  - intros w. pose proof (wp_capability_retirement w c s Hserved Hs) as Hw. unfold wp in Hw.
    destruct (receive_capability_retirement (w, s)) as [[w' s'] o]. by destruct Hw as (_ & ? & ?).
Qed.
End capabilities.
