(* ===== verification/EffectItems.v ===== *)
(** * Interpretation of effect items

    [crates/bombay/src/local/effects/]{delivery,observation,reports,timers,
    services,creation}[.rs]: the [InterpretItem] implementations of an actor's
    capabilities (Capabilities.v).  An item is loaned next to the place of its
    settlement.  It is taken out of its slot before it is interpreted, unless the
    code says otherwise, so a dropped or unwound interpretation leaves neither;
    a refused item returns in its settlement.

    Conversions into the event type of the application ([inject_at], [ingress])
    are its code and may unwind; they are the [inject] arguments. *)

From stdpp Require Import gmap.
From S2P Require Import Prelude Driver Host Assessment LocalIngress LocalEnvironment ActorOutcome.
From S2P Require Import ChildRetirement Endpoint ExactObservation Capabilities.

(** ** Third-party data, as the code matches on it *)

Variant InterpreterFault := MissingCapability.

Variant ItemSettlement {Item Accepted Reason Prerequisite : Type} :=
  | Settled_Accepted (accepted : Accepted)
  | Settled_Rejected (item : Item) (reason : Reason)
  | Settled_Blocked (item : Item) (prerequisite : Prerequisite)
  | Settled_Corrupt (item : Item) (fault : InterpreterFault).
Arguments ItemSettlement : clear implicits.

Variant LogicalDeliveryReason := Logical_UnknownAddress | Logical_ClosedRecipient.
Variant ExactDeliveryReason := Exact_ClosedRecipient.
Variant ReplyDelivery := Reply_Logical (reason : LogicalDeliveryReason) | Reply_Established (reason : ExactDeliveryReason).
Variant ChildDeliveryReason := ChildDelivery_MissingBinding | ChildDelivery_ClosedRecipient.
Variant ChildInputReason := ChildInput_MissingBinding | ChildInput_ClosedControlLane.
Variant ParentReportReason := ClosedParentControlLane.
Variant PeerObservationRejection := Peer_UnknownAddress.
Variant ChildShutdownRejection := ChildShutdown_AlreadyStopping | ChildShutdown_NotEstablished.
Variant ScheduleAtRejection := At_GenerationExhausted | At_SequenceExhausted.
Variant ScheduleAfterRejection :=
  | After_DeadlineOverflow | After_GenerationExhausted | After_SequenceExhausted.
Variant ChildNamespaceExhausted := ChildNamespaceExhausted_new.
Variant ScheduleError := Queue_GenerationExhausted | Queue_SequenceExhausted.

(** [TimerError] of [timers.rs]. *)
Variant TimerError := Timer_DeadlineOverflow | Timer_GenerationExhausted | Timer_SequenceExhausted.

Record Delivery {M A : Type} := { to : A; delivered : M }.
Arguments Delivery : clear implicits.

Variant CustomerDelivery {Logical Established Customer : Type} :=
  | Customer_Logical (delivery : Logical)
  | Customer_Established (delivery : Established)
  | Customer_RejectedLogical (delivery : Logical) (customer : Customer)
  | Customer_RejectedEstablished (delivery : Established) (customer : Customer).
Arguments CustomerDelivery : clear implicits.

Variant DiagnosticAction {Route Diagnostic : Type} :=
  | Diagnostic_Terminal (diagnostic : Diagnostic)
  | Diagnostic_Deliver (route : Route) (diagnostic : Diagnostic).
Arguments DiagnosticAction : clear implicits.

Variant DiagnosticAccepted {Diagnostic : Type} :=
  | Accepted_Terminal (diagnostic : Diagnostic)
  | Accepted_Delivered.
Arguments DiagnosticAccepted : clear implicits.

(** A request to or about the child of one creation. *)
Record ChildRequest {Id Input : Type} := { creation : Id; child_payload : Input }.
Arguments ChildRequest : clear implicits.

(** ** The authority over children *)

(** [ChildBindingAt]: the authority a creation lends; [None] is a tail that is
    gone. *)
Class ChildBindingAt (Id Authority Bindings : Type) :=
  authority_at : Id → Bindings → option (option Authority).

Section cursors.
Context {TY : LocalTypes} {LH : LaunchHost}.
Context {B BError Root CreationId CreationKind Origin Tail : Type} `{!EqDecision CreationId, !Countable CreationId}.
Context {KH : ChildHost B BError Root CreationId CreationKind Origin}.
Local Abbreviation Authority := (ChildAuthority (CH := KH)) (only parsing).

(** The cursor at the head of the product, and in its tail. *)
Definition authority_at_head : ChildBindingAt CreationId Authority (@ChildBinding _ _ B BError Root CreationId CreationKind Origin _ _ KH Tail) :=
  λ id bindings, Some (creation_at id (creations bindings)).
Definition authority_at_tail `{!ChildBindingAt CreationId Authority Tail} :
    ChildBindingAt CreationId Authority (@ChildBinding _ _ B BError Root CreationId CreationKind Origin _ _ KH Tail) :=
  λ id bindings, match tail bindings with Some tail => authority_at id tail | None => panic! end.
End cursors.

(** ** Items *)

Section items.
Context {TY : LocalTypes} {LH : LaunchHost} {CH : CapabilityHost}.
Context {Publisher : Type}.
Context {B BError Root CreationId CreationKind Origin Failure Bindings : Type}.
Context {KH : ChildHost B BError Root CreationId CreationKind Origin}.
Implicit Types w : World.

Local Abbreviation Caps := (ApplicationCapabilities (CreationId := CreationId) (Bindings := Bindings)).
Local Abbreviation Run := (Async Panic (World * Caps)).
Local Abbreviation Item I R := (Async Panic (World * (Caps * (option I * option R))) ()).
Local Abbreviation Injected := (Async Panic World Event).
Local Abbreviation Authority := (ChildAuthority (CH := KH)) (only parsing).

(** The frame of [interpret_item] around one settlement. *)
Definition interpret_item {I R : Type} (settle : I → Run R) : Item I R :=
  λ '(w, (c, (input, received))),
    match received, input with
    | Some _, _ | None, None => ((w, (c, (input, received))), Ready ())
    | None, Some request =>
        let '((w, c), o) := settle request (w, c) in
        match o with
        | Ready settlement => ((w, (c, (None, Some settlement))), Ready ())
        | Pending => ((w, (c, (None, None))), Pending)
        | Panicked payload => ((w, (c, (None, None))), Panicked payload)
        | Violated => ((w, (c, (None, None))), Violated)
        end
    end.

(** *** Deliveries *)

Section delivery.
Context {M : Type} {EH : EndpointHost M Publisher}.
(** [self.actor_spaces.space().resolve(&address)]. *)
Context (resolve : Scope → Addr → World → option ActorRef).

Local Abbreviation Logical := (Delivery M Addr) (only parsing).
Local Abbreviation Exact := (Delivery M ActorRef) (only parsing).

Definition deliver (delivery : Logical) : Run (ItemSettlement Logical () LogicalDeliveryReason Empty_set) :=
  spaces ← look actor_spaces;
  found ← perform (λ w, (w, resolve spaces (to delivery) w));
  match found with
  | None => mret (Settled_Rejected delivery Logical_UnknownAddress)
  | Some actor =>
      from ← look address;
      sent ← on_host (send_from actor from (delivered delivery));
      mret match sent with
           | Ok _ => Settled_Accepted ()
           | Err error =>
               Settled_Rejected {| to := to delivery; delivered := into_message error |}
                 Logical_ClosedRecipient
           end
  end.

Definition deliver_established (delivery : Exact) :
    Run (ItemSettlement Exact () ExactDeliveryReason Empty_set) :=
  from ← look address;
  sent ← on_host (send_from (to delivery) from (delivered delivery));
  mret match sent with
       | Ok _ => Settled_Accepted ()
       | Err error =>
           Settled_Rejected {| to := to delivery; delivered := into_message error |} Exact_ClosedRecipient
       end.

Definition interpret_delivery := interpret_item deliver.
Definition interpret_established_delivery := interpret_item deliver_established.
(** [AssignWorker] is an established delivery. *)
Definition interpret_assign_worker := interpret_established_delivery.

(** [reunite_customer_delivery]. *)
Definition reunite {Leaf Whole Reason Reason' : Type} (restore : Leaf → Whole) (classify : Reason → Reason')
    (settlement : ItemSettlement Leaf () Reason Empty_set) : ItemSettlement Whole () Reason' Empty_set :=
  match settlement with
  | Settled_Accepted _ => Settled_Accepted ()
  | Settled_Rejected item reason => Settled_Rejected (restore item) (classify reason)
  | Settled_Blocked _ prerequisite => match prerequisite with end
  | Settled_Corrupt item fault => Settled_Corrupt (restore item) fault
  end.

(** A leaf is loaned a slot of its own; what it does not settle is restored. *)
Definition nested_customer {Leaf Whole R S : Type} (leaf : Item Leaf R) (request : Leaf)
    (restore : Leaf → Whole) (reunite : R → S) : Item Whole S := λ '(w, (c, (input, received))),
  let '((w, (c, (unsettled, settled))), o) := leaf (w, (c, (Some request, None))) in
  match o with
  | Ready _ =>
      ((w, (c, match settled with
               | Some settlement => (input, Some (reunite settlement))
               | None => (match unsettled with Some leaf => Some (restore leaf) | None => input end, received)
               end)), Ready ())
  | Pending => ((w, (c, (input, received))), Pending)
  | Panicked payload => ((w, (c, (input, received))), Panicked payload)
  | Violated => ((w, (c, (input, received))), Violated)
  end.

Context {Customer : Type}.
Local Abbreviation Customers := (CustomerDelivery Logical Exact Customer) (only parsing).

Definition interpret_customer_delivery :
    Item Customers (ItemSettlement Customers () ReplyDelivery Empty_set) :=
  λ '(w, (c, (input, received))),
    match received, input with
    | Some _, _ | None, None => ((w, (c, (input, received))), Ready ())
    | None, Some customer_delivery =>
        match customer_delivery with
        | Customer_Logical delivery =>
            nested_customer interpret_delivery delivery Customer_Logical
              (reunite Customer_Logical Reply_Logical)
        | Customer_Established delivery =>
            nested_customer interpret_established_delivery delivery Customer_Established
              (reunite Customer_Established Reply_Established)
        | Customer_RejectedLogical delivery customer =>
            nested_customer interpret_delivery delivery
              (λ delivery, Customer_RejectedLogical delivery customer)
              (reunite (λ delivery, Customer_RejectedLogical delivery customer) Reply_Logical)
        | Customer_RejectedEstablished delivery customer =>
            nested_customer interpret_established_delivery delivery
              (λ delivery, Customer_RejectedEstablished delivery customer)
              (reunite (λ delivery, Customer_RejectedEstablished delivery customer) Reply_Established)
        end (w, (c, (None, None)))
    end.

(** *** Diagnostics *)

Definition diagnosed {A Reason : Type} (settlement : ItemSettlement (Delivery M A) () Reason Empty_set) :
    ItemSettlement (DiagnosticAction A M) (DiagnosticAccepted M) Reason Empty_set :=
  match settlement with
  | Settled_Accepted _ => Settled_Accepted Accepted_Delivered
  | Settled_Rejected item reason => Settled_Rejected (Diagnostic_Deliver (to item) (delivered item)) reason
  | Settled_Blocked _ prerequisite => match prerequisite with end
  | Settled_Corrupt item fault => Settled_Corrupt (Diagnostic_Deliver (to item) (delivered item)) fault
  end.

Definition nested_diagnostic {A Reason : Type}
    (leaf : Item (Delivery M A) (ItemSettlement (Delivery M A) () Reason Empty_set)) (route : A)
    (diagnostic : M) :
    Item (DiagnosticAction A M) (ItemSettlement (DiagnosticAction A M) (DiagnosticAccepted M) Reason Empty_set) :=
  λ '(w, (c, (input, received))),
  let '((w, (c, (unsettled, settled))), o) :=
    leaf (w, (c, (Some {| to := route; delivered := diagnostic |}, None))) in
  match o with
  | Ready _ =>
      ((w, (c, (match unsettled with
                | Some leaf => Some (Diagnostic_Deliver (to leaf) (delivered leaf))
                | None => input
                end,
                match settled with Some settlement => Some (diagnosed settlement) | None => received end))),
       Ready ())
  | Pending => ((w, (c, (input, received))), Pending)
  | Panicked payload => ((w, (c, (input, received))), Panicked payload)
  | Violated => ((w, (c, (input, received))), Violated)
  end.

(** The two routed instances of [DiagnosticAction]; without a route only the
    terminal arm remains. *)
Definition interpret_diagnostic {A Reason : Type}
    (leaf : Item (Delivery M A) (ItemSettlement (Delivery M A) () Reason Empty_set)) :
    Item (DiagnosticAction A M) (ItemSettlement (DiagnosticAction A M) (DiagnosticAccepted M) Reason Empty_set) :=
  λ '(w, (c, (input, received))),
    match received, input with
    | Some _, _ | None, None => ((w, (c, (input, received))), Ready ())
    | None, Some (Diagnostic_Terminal diagnostic) =>
        ((w, (c, (None, Some (Settled_Accepted (Accepted_Terminal diagnostic))))), Ready ())
    | None, Some (Diagnostic_Deliver route diagnostic) =>
        nested_diagnostic leaf route diagnostic (w, (c, (None, None)))
    end.
Definition interpret_logical_diagnostic := interpret_diagnostic interpret_delivery.
Definition interpret_established_diagnostic := interpret_diagnostic interpret_established_delivery.
Definition settle_unrouted_diagnostic (action : DiagnosticAction Empty_set M) :
    Run (ItemSettlement (DiagnosticAction Empty_set M) (DiagnosticAccepted M) Empty_set Empty_set) :=
  match action with
  | Diagnostic_Deliver route _ => match route with end
  | Diagnostic_Terminal diagnostic => mret (Settled_Accepted (Accepted_Terminal diagnostic))
  end.
Definition interpret_unrouted_diagnostic := interpret_item settle_unrouted_diagnostic.
End delivery.

(** *** Children *)

Section children.
Context {CB : ChildBindingAt CreationId Authority Bindings}.

(** [self.child_bindings.as_ref().expect(..).creation(id)]. *)
Definition child_authority (id : CreationId) : Run (option Authority) :=
  bindings ← look child_bindings;
  match bindings with
  | None => violated
  | Some bindings =>
      match authority_at id bindings with None => violated | Some authority => mret authority end
  end.

(** [ObserveCreation] and [ObserveEstablishedCreation]. *)
Local Abbreviation Observation I := (ItemSettlement I () Empty_set CreationId) (only parsing).

Definition observe_creation (inject : CreationId → CreationKind → Addr → Injected)
    (request : ChildRequest CreationId ()) : Run (Observation (ChildRequest CreationId ())) :=
  authority ← child_authority (creation request);
  match authority with
  | Some (Authority_Established endpoint _ _ kind) =>
      inject_control_event (inject (creation request) kind (ref_address endpoint));;
      mret (Settled_Accepted ())
  | Some (Authority_Unavailable correlation) => mret (Settled_Blocked request correlation)
  | None => mret (Settled_Corrupt request MissingCapability)
  end.

Definition observe_established_creation
    (inject : CreationId → CreationKind → InstalledActor (CH := KH) → Injected)
    (request : ChildRequest CreationId ()) : Run (Observation (ChildRequest CreationId ())) :=
  authority ← child_authority (creation request);
  match authority with
  | Some (Authority_Established endpoint control retirement kind) =>
      inject_control_event
        (inject (creation request) kind (InstalledActor_new endpoint control retirement));;
      mret (Settled_Accepted ())
  | Some (Authority_Unavailable correlation) => mret (Settled_Blocked request correlation)
  | None => mret (Settled_Corrupt request MissingCapability)
  end.

(** [Observation::into_future]. *)
Context (into_future : TerminationObservation → TerminationFuture) (now : World → Instant).

(** [ObserveChild]. *)
Definition observe_child (inject_at : CreationId → Termination → Instant → Injected)
    (request : ChildRequest CreationId ()) : Run (Observation (ChildRequest CreationId ())) :=
  authority ← child_authority (creation request);
  match authority with
  | Some (Authority_Established endpoint _ _ _) =>
      change (λ c, set_observations
        (insert_child now inject_at (creation request) (into_future (ref_termination endpoint))
           (observations c)) c);;
      mret (Settled_Accepted ())
  | Some (Authority_Unavailable correlation) => mret (Settled_Blocked request correlation)
  | None => mret (Settled_Corrupt request MissingCapability)
  end.

(** [ShutdownChild]; [ingress] makes the shutdown event of the child. *)
Definition shutdown_child {M E : Type} {EH : EndpointHost M Publisher} `{!ControlLane E}
    (ingress : Async Panic World E) (inject_at : CreationId → Termination → Instant → Injected)
    (request : ChildRequest CreationId ()) :
    Run (ItemSettlement (ChildRequest CreationId ()) () ChildShutdownRejection CreationId) :=
  authority ← child_authority (creation request);
  match authority with
  | Some (Authority_Established endpoint control _ _) =>
      requested ← on_host (request_actor_shutdown endpoint control ingress);
      match requested with
      | Ok _ =>
          change (λ c, set_observations
            (insert_child now inject_at (creation request) (into_future (ref_termination endpoint))
               (observations c)) c);;
          mret (Settled_Accepted ())
      | Err AlreadyStopping => mret (Settled_Rejected request ChildShutdown_AlreadyStopping)
      | Err AlreadyStopped => mret (Settled_Rejected request ChildShutdown_NotEstablished)
      end
  | Some (Authority_Unavailable correlation) => mret (Settled_Blocked request correlation)
  | None => mret (Settled_Corrupt request MissingCapability)
  end.

(** [ChildDelivery]. *)
Definition deliver_to_child {M : Type} {EH : EndpointHost M Publisher} (delivery : ChildRequest CreationId M) :
    Run (ItemSettlement (ChildRequest CreationId M) () ChildDeliveryReason CreationId) :=
  authority ← child_authority (creation delivery);
  match authority with
  | Some (Authority_Established endpoint _ _ _) =>
      from ← look address;
      sent ← on_host (send_from endpoint from (child_payload delivery));
      mret match sent with
           | Ok _ => Settled_Accepted ()
           | Err error =>
               Settled_Rejected
                 {| creation := creation delivery; child_payload := into_message error |}
                 ChildDelivery_ClosedRecipient
           end
  | Some (Authority_Unavailable correlation) => mret (Settled_Blocked delivery correlation)
  | None => mret (Settled_Rejected delivery ChildDelivery_MissingBinding)
  end.

(** [ChildInputIngress]: the event of an input, and the input of a returned event. *)
Context {Input E : Type} `{!ControlLane E} (child_input : Input → Async Panic World E)
  (recover_child_input : E → World → World * Result Input E).

(** The input goes to the control lane of the child, or comes back. *)
Definition send_child_input (control : ControlSender) (input : Input) : Run (Result () Input) :=
  event ← on_host (child_input input);
  sent ← perform (lane_send control event);
  match sent with
  | Ok _ => mret (Ok ())
  | Err event =>
      recovered ← perform (recover_child_input event);
      match recovered with Ok input => mret (Err input) | Err _ => violated end
  end.

(** [ChildInput]. *)
Definition input_to_child (request : ChildRequest CreationId Input) :
    Run (ItemSettlement (ChildRequest CreationId Input) () ChildInputReason CreationId) :=
  authority ← child_authority (creation request);
  match authority with
  | Some (Authority_Established _ control _ _) =>
      sent ← send_child_input control (child_payload request);
      mret match sent with
           | Ok _ => Settled_Accepted ()
           | Err input =>
               Settled_Rejected {| creation := creation request; child_payload := input |}
                 ChildInput_ClosedControlLane
           end
  | Some (Authority_Unavailable correlation) => mret (Settled_Blocked request correlation)
  | None => mret (Settled_Rejected request ChildInput_MissingBinding)
  end.

(** [admit_proxy_control], and [ProxyOperation] around it. *)
Definition admit_proxy_control (id : CreationId) (request : Input) :
    Run (ItemSettlement Input (InstalledActor (CH := KH)) ChildInputReason Empty_set) :=
  authority ← child_authority id;
  match authority with
  | Some (Authority_Established endpoint control retirement _) =>
      sent ← send_child_input control request;
      mret match sent with
           | Ok _ => Settled_Accepted (InstalledActor_new endpoint control retirement)
           | Err request => Settled_Rejected request ChildInput_ClosedControlLane
           end
  | Some (Authority_Unavailable _) | None =>
      mret (Settled_Rejected request ChildInput_MissingBinding)
  end.
End children.

Definition interpret_observe_creation `{!ChildBindingAt CreationId Authority Bindings} inject :=
  interpret_item (observe_creation inject).
Definition interpret_observe_established_creation `{!ChildBindingAt CreationId Authority Bindings} inject :=
  interpret_item (observe_established_creation inject).
Definition interpret_observe_child `{!ChildBindingAt CreationId Authority Bindings} into_future now inject_at :=
  interpret_item (observe_child into_future now inject_at).
Definition interpret_shutdown_child `{!ChildBindingAt CreationId Authority Bindings}
    {M E : Type} {EH : EndpointHost M Publisher} `{!ControlLane E} into_future now
    (ingress : Async Panic World E) inject_at :=
  interpret_item (shutdown_child into_future now ingress inject_at).
Definition interpret_child_delivery `{!ChildBindingAt CreationId Authority Bindings}
    {M : Type} {EH : EndpointHost M Publisher} :=
  interpret_item (deliver_to_child (M := M)).
Definition interpret_child_input `{!ChildBindingAt CreationId Authority Bindings}
    {Input E : Type} `{!ControlLane E} (child_input : Input → Async Panic World E) recover :=
  interpret_item (input_to_child child_input recover).
Definition interpret_proxy_operation `{!ChildBindingAt CreationId Authority Bindings}
    {Input E : Type} `{!ControlLane E} (child_input : Input → Async Panic World E) recover id :=
  interpret_item (admit_proxy_control child_input recover id).

(** *** Observations *)

Section observation.
Context (into_future : TerminationObservation → TerminationFuture).

(** [observe_peer]; [None] is an unknown address. *)
Definition observe_peer (resolve : Scope → Addr → World → option ActorRef)
    (inject_at : Addr → Termination → Injected) (spaces : Scope) (peer : Addr)
    (pending : TerminationObservations (CreationId := CreationId)) w : option TerminationObservations :=
  actor ← resolve spaces peer w;
  Some (insert_peer inject_at peer (into_future (ref_termination actor)) pending).

Definition settle_observe_peer resolve inject_at (peer : Addr) :
    Run (ItemSettlement Addr () PeerObservationRejection Empty_set) :=
  spaces ← look actor_spaces;
  pending ← look observations;
  observed ← perform (λ w, (w, observe_peer resolve inject_at spaces peer pending w));
  match observed with
  | Some pending => change (set_observations pending);; mret (Settled_Accepted ())
  | None => mret (Settled_Rejected peer Peer_UnknownAddress)
  end.

(** The tasks an item spawns on the actor's task set. *)
Context {Spawned : Type} (spawn : Spawned → Tasks → World → World * Tasks).

(** [activation_tasks.as_mut().expect(..).spawn(..)]. *)
Definition spawn_activation (task : Spawned) : Run () :=
  tasks ← look activation_tasks;
  match tasks with
  | None => violated
  | Some tasks =>
      tasks ← perform (spawn task tasks);
      change (set_activation_tasks (Some tasks))
  end.

(** [EstablishedObservationInterpreter::observe]: [issue] makes the authority of a
    request with its identity, and the channel that revokes it. *)
Context {Request Grant Receiver : Type} (observed_id : Request → ObservationId)
  (issue : Request → World → World * (Grant * Identity * Revocation * Receiver))
  (watch : ObservationId → Grant → Receiver → ActorRef → Caps → Spawned)
  (inject_rejected : Request → Injected) (inject_started : Grant → Injected).

Definition observe_exact (request : Request) (endpoint : ActorRef) : Run () :=
  exact ← look exact_observations;
  registered ← perform (λ w, (w, exact_of exact w));
  match registered with
  | None => violated
  | Some observations =>
      match observations !! observed_id request with
      | Some _ => inject_control_event (inject_rejected request)
      | None =>
          '(grant, identity, revocation, revoked) ← perform (issue request);
          perform (λ w,
            (set_exact exact (Some (<[observed_id request := (identity, revocation)]> observations)) w, ()));;
          inject_control_event (inject_started grant);;
          c ← look (λ c, c);
          spawn_activation (watch (observed_id request) grant revoked endpoint c)
      end
  end.

(** [EstablishedObservationInterpreter::cancel]. *)
Context {Cancellation : Type} (cancelled_id : Cancellation → ObservationId)
  (cancelled_identity : Cancellation → Identity)
  (inject_cancelled inject_not_observed : Cancellation → Injected).

Definition cancel_exact (request : Cancellation) : Run () :=
  exact ← look exact_observations;
  registered ← perform (λ w, (w, exact_of exact w));
  match exact_cancel (cancelled_id request) (cancelled_identity request) registered with
  | None => violated
  | Some (registered, cancellation) =>
      perform (λ w, (set_exact exact registered w, ()));;
      match cancellation with
      | Some revocation =>
          perform (λ w, (revocation_send revocation w, ()));;
          inject_control_event (inject_cancelled request)
      | None => inject_control_event (inject_not_observed request)
      end
  end.

(** [ObserveEstablished] and [CancelObservation] are always accepted. *)
Definition interpret_observe_established :=
  interpret_item (λ '(request, endpoint),
    observe_exact request endpoint;; mret (Settled_Accepted () : ItemSettlement (Request * ActorRef) () Empty_set Empty_set)).
Definition interpret_cancel_observation :=
  interpret_item (λ request,
    cancel_exact request;; mret (Settled_Accepted () : ItemSettlement Cancellation () Empty_set Empty_set)).

(** *** Workers *)

(** [StartWorker]: the request leaves its slot once its start was told. *)
Definition interpret_start_worker {Start : Type} (inject_starting : Start → Injected)
    (starting : Start → Caps → Spawned) : Item Start (ItemSettlement Start () Empty_set Empty_set) :=
  λ '(w, (c, (input, received))),
    match received, input with
    | Some _, _ | None, None => ((w, (c, (input, received))), Ready ())
    | None, Some request =>
        let '((w, c), told) := inject_control_event (inject_starting request) (w, c) in
        match told with
        | Ready _ =>
            let '((w, c), o) := spawn_activation (starting request c) (w, c) in
            ((w, (c, (None, match o with Ready _ => Some (Settled_Accepted ()) | _ => None end))), o)
        | Pending => ((w, (c, (input, received))), Pending)
        | Panicked payload => ((w, (c, (input, received))), Panicked payload)
        | Violated => ((w, (c, (input, received))), Violated)
        end
    end.

(** [PrepareWorkers]; [start] splits the request into its receipt and its work. *)
Definition interpret_prepare_workers {Prepare Receipt Starting : Type}
    (start : Prepare → Receipt * Starting) (preparing : Starting → Caps → Spawned) :
    Item Prepare (ItemSettlement Prepare Receipt Empty_set Empty_set) :=
  interpret_item (λ request,
    let '(receipt, work) := start request in
    c ← look (λ c, c);
    spawn_activation (preparing work c);;
    mret (Settled_Accepted receipt)).
End observation.

Definition interpret_observe_peer into_future resolve inject_at :=
  interpret_item (settle_observe_peer into_future resolve inject_at).

Variant WorkerInitializationOutcome :=
  | Worker_Stopped (worker : CreationId) (outcome : Termination) (at_ : Instant)
  | Worker_ReadyForStartup.

(** [InitializeWorker]. *)
Definition interpret_initialize_worker {Worker M : Type} {EH : EndpointHost M Publisher}
    (now : World → Instant) (target : Worker → ActorRef) (worker_creation : Worker → CreationId)
    (inject : Worker → WorkerInitializationOutcome → Injected) :
    Item Worker (ItemSettlement Worker () Empty_set Empty_set) :=
  interpret_item (λ request,
    outcome ← perform (λ w,
      (w, match termination_try_get (ref_termination (target request)) w with
          | Some termination => Worker_Stopped (worker_creation request) termination (now w)
          | None => Worker_ReadyForStartup
          end));
    inject_control_event (inject request outcome);;
    mret (Settled_Accepted ())).

(** [ShutdownEstablished]: [settle] is the third-party conversion around
    [InstalledActor::request_shutdown]; its settlement is received before the event
    that resolves it is injected. *)
Definition interpret_shutdown_established {Request Id Reason : Type} (shutdown_id : Request → Id)
    (settle : Request → Async Panic World (ItemSettlement Request () Reason Empty_set))
    (inject_accepted : Id → Injected) (inject_rejected : Id → Reason → Injected) :
    Item Request (ItemSettlement Request () Reason Empty_set) :=
  λ '(w, (c, (input, received))),
    match received, input with
    | Some _, _ | None, None => ((w, (c, (input, received))), Ready ())
    | None, Some request =>
        let '(w, o) := settle request w in
        match o with
        | Ready settlement =>
            let '((w, c), o) :=
              match settlement with
              | Settled_Accepted _ => inject_control_event (inject_accepted (shutdown_id request)) (w, c)
              | Settled_Rejected _ reason =>
                  inject_control_event (inject_rejected (shutdown_id request) reason) (w, c)
              | Settled_Blocked _ prerequisite => match prerequisite with end
              | Settled_Corrupt _ _ => ((w, c), Violated)
              end in
            ((w, (c, (None, Some settlement))), o)
        | Pending => ((w, (c, (None, None))), Pending)
        | Panicked payload => ((w, (c, (None, None))), Panicked payload)
        | Violated => ((w, (c, (None, None))), Violated)
        end
    end.

(** [EntityAdmission]: the entity's caller takes the request out of its slot. *)
Definition interpret_entity_admission {Admission : Type}
    (admission_interpret : Addr → Async Panic (World * option Admission) ()) :
    Item Admission (ItemSettlement Admission () Empty_set Empty_set) :=
  λ '(w, (c, (input, received))),
    match received, input with
    | Some _, _ | None, None => ((w, (c, (input, received))), Ready ())
    | None, Some _ =>
        let '((w, input), o) := admission_interpret (address c) (w, input) in
        ((w, (c, (input, match o with Ready _ => Some (Settled_Accepted ()) | _ => None end))), o)
    end.

(** *** Reports *)

(** [LocalParentReports]: the child's name and its parent's control lane.
    [send_map] converts the report in the lane, and returns it when it is closed. *)
Record LocalParentReports := { reporting_child : CreationId; reporting_parent : ControlSender }.

Definition report_to_parent {Report E : Type}
    (send_map : ControlSender → Report → (Report → Async Panic World E) →
      Async Panic World (Result () Report))
    (ingress : CreationId → Report → Async Panic World E) (self : LocalParentReports) (report : Report) :
    Async Panic World (Result () Report) :=
  send_map (reporting_parent self) report (ingress (reporting_child self)).

(** [ReportToParent], for an actor that has a parent. *)
Definition interpret_report_to_parent {Report : Type}
    (reporting : Parent → Report → Async Panic World (Result () Report)) :
    Item Report (ItemSettlement Report () ParentReportReason Empty_set) :=
  interpret_item (λ request,
    parent ← look parent_reports;
    match parent with
    | None => violated
    | Some parent =>
        reported ← on_host (reporting parent request);
        mret match reported with
             | Ok _ => Settled_Accepted ()
             | Err report => Settled_Rejected report ClosedParentControlLane
             end
    end).

(** [ReportTerminalOutcome]. *)
Definition interpret_report_terminal_outcome :
    Item Termination (ItemSettlement Termination () Empty_set Empty_set) :=
  interpret_item (λ outcome,
    change (λ c, set_terminal_reports (report_outcome outcome (terminal_reports c)) c);;
    mret (Settled_Accepted ())).

(** [ReportShutdownPlan]. *)
Definition interpret_report_shutdown_plan {Plan : Type} (into_event : Plan → Injected) :
    Item Plan (ItemSettlement Plan () Empty_set Empty_set) :=
  interpret_item (λ plan, inject_control_event (into_event plan);; mret (Settled_Accepted ())).

(** *** Timers *)

Section timers.
Context {TimerId Generation Duration : Type}.

(** [TimerKey]: named timers, and those an occurrence owns by its position. *)
Variant TimerKey := Key_Named (id : TimerId) | Key_Owned (position : N).

(** [TimerQueue::schedule] and [Instant::checked_add]. *)
Context (queue_schedule : Timers → TimerKey → Instant → Event → Timers * Result () ScheduleError)
  (now : World → Instant) (instant_add : Instant → Duration → option Instant).

(** [TimerTarget]: what a request names, and the occurrence it is made at. *)
Variant TimerTarget := Target_Named (id : TimerId) | Target_Here.
Record TimerRequest {At : Type} := { target : TimerTarget; generation : Generation; when : At }.
Arguments TimerRequest : clear implicits.

Definition timer_key (position : N) (t : TimerTarget) : TimerKey :=
  match t with Target_Named id => Key_Named id | Target_Here => Key_Owned position end.

Definition timer_error (error : ScheduleError) : TimerError :=
  match error with
  | Queue_GenerationExhausted => Timer_GenerationExhausted
  | Queue_SequenceExhausted => Timer_SequenceExhausted
  end.

(** [schedule_at] and [schedule_owned_at]. *)
Definition schedule_at (inject : TimerTarget → Generation → Injected) (position : N)
    (schedule : TimerRequest Instant) : Run (Result () TimerError) :=
  event ← on_host (inject (target schedule) (generation schedule));
  queue ← look timers;
  let '(queue, scheduled) := queue_schedule queue (timer_key position (target schedule)) (when schedule) event in
  change (set_timers queue);;
  mret (map_err timer_error scheduled).

(** [schedule_after] and [schedule_owned_after]. *)
Definition schedule_after (inject : TimerTarget → Generation → Injected) (position : N)
    (schedule : TimerRequest Duration) : Run (Result () TimerError) :=
  deadline ← perform (λ w, (w, instant_add (now w) (when schedule)));
  match deadline with
  | None => mret (Err Timer_DeadlineOverflow)
  | Some deadline =>
      schedule_at inject position
        {| target := target schedule; generation := generation schedule; when := deadline |}
  end.

(** The frame of both: the request stays in its slot until it is settled. *)
Definition interpret_timer {I R : Type} (settle : I → Run R) : Item I R :=
  λ '(w, (c, (input, received))),
    match received, input with
    | Some _, _ | None, None => ((w, (c, (input, received))), Ready ())
    | None, Some request =>
        let '((w, c), o) := settle request (w, c) in
        match o with
        | Ready settlement => ((w, (c, (None, Some settlement))), Ready ())
        | Pending => ((w, (c, (input, received))), Pending)
        | Panicked payload => ((w, (c, (input, received))), Panicked payload)
        | Violated => ((w, (c, (input, received))), Violated)
        end
    end.

Definition settle_schedule_at inject position (request : TimerRequest Instant) :
    Run (ItemSettlement (TimerRequest Instant) (TimerTarget * Generation) ScheduleAtRejection Empty_set) :=
  scheduled ← schedule_at inject position request;
  match scheduled with
  | Ok _ => mret (Settled_Accepted (target request, generation request))
  | Err Timer_GenerationExhausted => mret (Settled_Rejected request At_GenerationExhausted)
  | Err Timer_SequenceExhausted => mret (Settled_Rejected request At_SequenceExhausted)
  | Err Timer_DeadlineOverflow => violated
  end.

Definition settle_schedule_after inject position (request : TimerRequest Duration) :
    Run (ItemSettlement (TimerRequest Duration) (TimerTarget * Generation) ScheduleAfterRejection Empty_set) :=
  scheduled ← schedule_after inject position request;
  mret match scheduled with
       | Ok _ => Settled_Accepted (target request, generation request)
       | Err Timer_DeadlineOverflow => Settled_Rejected request After_DeadlineOverflow
       | Err Timer_GenerationExhausted => Settled_Rejected request After_GenerationExhausted
       | Err Timer_SequenceExhausted => Settled_Rejected request After_SequenceExhausted
       end.

Definition interpret_schedule_at inject position := interpret_timer (settle_schedule_at inject position).
Definition interpret_schedule_after inject position :=
  interpret_timer (settle_schedule_after inject position).
End timers.

(** *** Creation routes and sources *)

(** [Creations]: every creation of the batch is given a route of its own. *)
Definition route_creations {C : Type} (creations : list C) :
    Run (ItemSettlement (list C) (list (C * N)) ChildNamespaceExhausted Empty_set) :=
  if (len creations <=? u64_max)%N then
    first ← look next_child_route;
    match checked_add u64_max first (len creations) with
    | None => mret (Settled_Rejected creations ChildNamespaceExhausted_new)
    | Some next =>
        change (set_next_child_route next);;
        mret (Settled_Accepted
          (imap (λ i creation, (creation, (first + N.of_nat i)%N)) creations))
    end
  else mret (Settled_Rejected creations ChildNamespaceExhausted_new).

Definition interpret_creations {C : Type} := interpret_item (route_creations (C := C)).

(** [SourceAdmission::admit_source]. *)
Definition admit_source {Input : Type} (ingress : Input → Injected) : Item Input (Result () Input) :=
  interpret_item (λ input, inject_control_event (ingress input);; mret (Ok ())).

(** *** Services *)

(** [InterpreterStartup] of an actor that has a service: it is made once. *)
Definition initialize_service {S : Type} (create : Async Panic World S) :
    Async Panic (World * option S) () :=
  existing ← look id;
  match existing with
  | Some _ => mret ()
  | None => service ← on_host create; change (λ _, Some service)
  end.

(** An external request is interpreted by the service of the actor. *)
Definition interpret_external {S I R : Type} (service : Services → option S)
    (put_service : S → Services → Services)
    (interpret : Async Panic (World * (S * (option I * option R))) ()) : Item I R :=
  λ '(w, (c, slots)),
    match service (services c) with
    | None => ((w, (c, slots)), Violated)
    | Some s =>
        let '((w, (s, slots)), o) := interpret (w, (s, slots)) in
        ((w, (set_services (put_service s (services c)) c, slots)), o)
    end.
End items.

(** ** What every item keeps *)

Section keeping.
Context {TY : LocalTypes} {LH : LaunchHost} {CH : CapabilityHost}.
Context {Publisher : Type}.
Context {B BError Root CreationId CreationKind Origin Failure Bindings : Type}.
Context {KH : ChildHost B BError Root CreationId CreationKind Origin}.
Implicit Types w : World.

Local Abbreviation Caps := (ApplicationCapabilities (CreationId := CreationId) (Bindings := Bindings)).
Local Abbreviation Run := (Async Panic (World * Caps)).
Local Abbreviation Item I R := (Async Panic (World * (Caps * (option I * option R))) ()).
Local Abbreviation Authority := (ChildAuthority (CH := KH)) (only parsing).

(** An item borrows the children, the lanes and the identity of the actor, and may
    only add tasks, facts, timers, routes and a selected report. *)
Record kept (c c' : Caps) : Prop := {
  kept_bindings : child_bindings c' = child_bindings c;
  kept_tasks : is_Some (activation_tasks c) → is_Some (activation_tasks c');
  kept_report : report (terminal_reports c') = report (terminal_reports c);
  kept_failures : operation_failures c' = operation_failures c;
  kept_route : (next_child_route c ≤ next_child_route c')%N;
  kept_bound : (next_child_route c ≤ u64_max)%N → (next_child_route c' ≤ u64_max)%N;
  kept_owner : control c' = control c ∧ exact_observations c' = exact_observations c ∧
    address c' = address c ∧ parent_reports c' = parent_reports c
}.

#[export] Instance kept_preorder : PreOrder kept.
Proof.
  split; [by intros c; split|].
  intros a b c [? ? ? ? ? ? (? & ? & ? & ?)] [? ? ? ? ? ? (? & ? & ? & ?)].
  split; try congruence; [auto|by etrans|auto|split_and!; congruence].
Qed.

Local Abbreviation keep := (keeping (P := Panic) (W := World) kept).

(** An item keeps it however it ends. *)
Definition item_keeps {I R : Type} (m : Item I R) : Prop := ∀ w c slots, kept c (m (w, (c, slots))).1.2.1.

Lemma keep_inject (event : Async Panic World Event) : keep (inject_control_event event).
Proof.
  unfold inject_control_event. apply keeping_bind; [apply _| |intros ?].
  - intros w c. unfold on_host. destruct (event w). reflexivity.
  - apply keeping_bind; [apply _|auto with bombay typeclass_instances|intros ?].
    apply keeping_bind; [apply _|auto with bombay typeclass_instances|intros [|]];
      auto with bombay typeclass_instances.
Qed.

Lemma keep_host {A} (m : Async Panic World A) : keep (on_host m).
Proof. intros w c. unfold on_host. destruct (m w). reflexivity. Qed.

Lemma keep_observe {A} (f : Caps → TerminationObservations) (k : Run A) :
  keep k → keep (change (λ c, set_observations (f c) c);; k).
Proof. intros Hk. apply keeping_bind; [apply _|by apply keeping_change; intros c; split|done]. Qed.

Hint Resolve keep_inject keep_host keep_observe : bombay.

Ltac keep_item :=
  match goal with
  | |- keeping _ (change _;; _) => by auto with bombay typeclass_instances
  | |- keeping _ (mbind _ _) => apply keeping_bind; [apply _| |intros ?]
  | |- keeping _ (change _) => apply keeping_change; intros ?; by split
  | |- keeping _ (let '(_, _) := ?x in _) => destruct x
  | |- keeping _ (match ?x with _ => _ end) => destruct x
  | |- keeping _ _ => by auto with bombay typeclass_instances
  end.

Lemma interpret_keeps {I R : Type} (settle : I → Run R) :
  (∀ request, keep (settle request)) → item_keeps (interpret_item settle).
Proof.
  intros Hs w c [[request|] [reply|]]; try reflexivity. cbn. specialize (Hs request w c).
  by destruct (settle request (w, c)) as [[w' c'] []].
Qed.

Lemma timer_keeps {I R : Type} (settle : I → Run R) :
  (∀ request, keep (settle request)) → item_keeps (interpret_timer settle).
Proof.
  intros Hs w c [[request|] [reply|]]; try reflexivity. cbn. specialize (Hs request w c).
  by destruct (settle request (w, c)) as [[w' c'] []].
Qed.

Lemma customer_keeps {Leaf Whole R S : Type} (leaf : Item Leaf R) (request : Leaf) (restore : Leaf → Whole)
    (reunite : R → S) :
  item_keeps leaf → item_keeps (nested_customer leaf request restore reunite).
Proof.
  intros Hl w c [input received]. unfold nested_customer. specialize (Hl w c (Some request, None)).
  by destruct (leaf _) as [[w' [c' [left settled]]] []].
Qed.

Lemma diagnostic_keeps {M A Reason : Type}
    (leaf : Item (Delivery M A) (ItemSettlement (Delivery M A) () Reason Empty_set)) :
  item_keeps leaf → item_keeps (interpret_diagnostic leaf).
Proof.
  intros Hl w c [[[diagnostic|route diagnostic]|] [reply|]]; try reflexivity. cbn.
  specialize (Hl w c (Some {| to := route; delivered := diagnostic |}, None)).
  by destruct (leaf _) as [[w' [c' [left settled]]] []].
Qed.

Hint Resolve interpret_keeps timer_keeps customer_keeps diagnostic_keeps : bombay.

Section delivery.
Context {M : Type} {EH : EndpointHost M Publisher} (resolve : Scope → Addr → World → option ActorRef).

Lemma delivery_keeps : item_keeps (interpret_delivery resolve).
Proof. apply interpret_keeps. intros d. unfold deliver. repeat keep_item. Qed.
Lemma established_delivery_keeps : item_keeps interpret_established_delivery.
Proof. apply interpret_keeps. intros d. unfold deliver_established. repeat keep_item. Qed.
Hint Resolve delivery_keeps established_delivery_keeps : bombay.

Lemma customer_delivery_keeps {Customer : Type} :
  item_keeps (interpret_customer_delivery resolve (Customer := Customer)).
Proof.
  intros w c [[customer|] [reply|]]; try reflexivity. unfold interpret_customer_delivery.
  destruct customer; apply customer_keeps; auto with bombay.
Qed.
End delivery.

Lemma authority_keeps `{!ChildBindingAt CreationId Authority Bindings} id : keep (child_authority id).
Proof. unfold child_authority. repeat keep_item. Qed.
Hint Resolve authority_keeps : bombay.

Section children.
Context `{!ChildBindingAt CreationId Authority Bindings}.
Context (into_future : TerminationObservation → TerminationFuture) (now : World → Instant).

Lemma observe_creation_keeps inject : item_keeps (interpret_observe_creation inject).
Proof. apply interpret_keeps. intros r. unfold observe_creation. repeat keep_item. Qed.
Lemma observe_established_creation_keeps inject : item_keeps (interpret_observe_established_creation inject).
Proof. apply interpret_keeps. intros r. unfold observe_established_creation. repeat keep_item. Qed.
Lemma observe_child_keeps inject_at : item_keeps (interpret_observe_child into_future now inject_at).
Proof. apply interpret_keeps. intros r. unfold observe_child. repeat keep_item. Qed.
Lemma shutdown_child_keeps {M E : Type} {EH : EndpointHost M Publisher} `{!ControlLane E}
    (ingress : Async Panic World E) inject_at :
  item_keeps (interpret_shutdown_child into_future now ingress inject_at).
Proof. apply interpret_keeps. intros r. unfold shutdown_child. repeat keep_item. Qed.
Lemma child_delivery_keeps {M : Type} {EH : EndpointHost M Publisher} :
  item_keeps (interpret_child_delivery (M := M)).
Proof. apply interpret_keeps. intros r. unfold deliver_to_child. repeat keep_item. Qed.

Lemma send_child_input_keeps {Input E : Type} `{!ControlLane E} (child_input : Input → Async Panic World E)
    recover control input : keep (send_child_input child_input recover control input).
Proof. unfold send_child_input. repeat keep_item. Qed.
Hint Resolve send_child_input_keeps : bombay.

Lemma child_input_keeps {Input E : Type} `{!ControlLane E} (child_input : Input → Async Panic World E) recover :
  item_keeps (interpret_child_input child_input recover).
Proof. apply interpret_keeps. intros r. unfold input_to_child. repeat keep_item. Qed.
Lemma proxy_operation_keeps {Input E : Type} `{!ControlLane E} (child_input : Input → Async Panic World E)
    recover id : item_keeps (interpret_proxy_operation child_input recover id).
Proof. apply interpret_keeps. intros r. unfold admit_proxy_control. repeat keep_item. Qed.
End children.

(** Observations, tasks, reports, timers and routes. *)

Lemma observe_peer_keeps into_future resolve inject_at :
  item_keeps (interpret_observe_peer into_future resolve inject_at).
Proof. apply interpret_keeps. intros r. unfold settle_observe_peer. repeat keep_item. Qed.

Lemma keep_spawn {Spawned : Type} (spawn : Spawned → Tasks → World → World * Tasks) task :
  keep (spawn_activation spawn task).
Proof.
  unfold spawn_activation. apply keeping_bind; [apply _|by auto with bombay typeclass_instances|intros [tasks|]];
    repeat keep_item.
Qed.
Hint Resolve keep_spawn : bombay.

Section spawning.
Context {Spawned : Type} (spawn : Spawned → Tasks → World → World * Tasks).

Lemma observe_established_keeps {Request Grant Receiver : Type} observed_id issue watch inject_rejected inject_started :
  item_keeps (interpret_observe_established spawn (Request := Request) (Grant := Grant)
    (Receiver := Receiver) observed_id issue watch inject_rejected inject_started).
Proof.
  apply interpret_keeps. intros [request endpoint]. unfold observe_exact.
  repeat keep_item.
Qed.
Lemma cancel_observation_keeps {Cancellation : Type} cancelled_id cancelled_identity inject_cancelled inject_not_observed :
  item_keeps (interpret_cancel_observation (Cancellation := Cancellation) cancelled_id cancelled_identity
    inject_cancelled inject_not_observed).
Proof. apply interpret_keeps. intros r. unfold cancel_exact. repeat keep_item. Qed.

Lemma start_worker_keeps {Start : Type} inject_starting starting :
  item_keeps (interpret_start_worker spawn (Start := Start) inject_starting starting).
Proof.
  intros w c [[request|] [reply|]]; try reflexivity. cbn.
  pose proof (keep_inject (inject_starting request) w c) as H1.
  destruct (inject_control_event _ _) as [[w1 c1] [[]| |payload|]]; try exact H1.
  pose proof (keep_spawn spawn (starting request c1) w1 c1) as H2.
  destruct (spawn_activation _ _ _) as [[w2 c2] o]. by transitivity c1.
Qed.
Lemma prepare_workers_keeps {Prepare Receipt Starting : Type} (start : Prepare → Receipt * Starting) preparing :
  item_keeps (interpret_prepare_workers spawn start preparing).
Proof. apply interpret_keeps. intros r. destruct (start r). repeat keep_item. Qed.
End spawning.

Lemma initialize_worker_keeps {Worker M : Type} {EH : EndpointHost M Publisher} now target worker_creation inject :
  item_keeps (interpret_initialize_worker (Worker := Worker) now target worker_creation inject).
Proof. apply interpret_keeps. intros r. repeat keep_item. Qed.

Lemma shutdown_established_keeps {Request Id Reason : Type} shutdown_id settle inject_accepted inject_rejected :
  item_keeps (interpret_shutdown_established (Request := Request) (Id := Id) (Reason := Reason)
    shutdown_id settle inject_accepted inject_rejected).
Proof.
  intros w c [[request|] [reply|]]; try reflexivity. cbn.
  destruct (settle request w) as [w1 [[accepted|item reason|item []|item fault]| |payload|]]; try reflexivity.
  - pose proof (keep_inject (inject_accepted (shutdown_id request)) w1 c) as H.
    by destruct (inject_control_event _ _) as [[w2 c2] o].
  - pose proof (keep_inject (inject_rejected (shutdown_id request) reason) w1 c) as H.
    by destruct (inject_control_event _ _) as [[w2 c2] o].
Qed.

Lemma entity_admission_keeps {Admission : Type} interpret :
  item_keeps (interpret_entity_admission (Admission := Admission) interpret).
Proof.
  intros w c [[request|] [reply|]]; try reflexivity. cbn.
  destruct (interpret _ _) as [[w1 input] o]. reflexivity.
Qed.

Lemma report_to_parent_keeps {Report : Type} reporting :
  item_keeps (interpret_report_to_parent (Report := Report) reporting).
Proof. apply interpret_keeps. intros r. repeat keep_item. Qed.
Lemma report_terminal_outcome_keeps : item_keeps interpret_report_terminal_outcome.
Proof. apply interpret_keeps. intros r. repeat keep_item. Qed.
Lemma report_shutdown_plan_keeps {Plan : Type} into_event :
  item_keeps (interpret_report_shutdown_plan (Plan := Plan) into_event).
Proof. apply interpret_keeps. intros r. repeat keep_item. Qed.

Section timers.
Context {TimerId Generation Duration : Type}.
Context (queue_schedule : Timers → TimerKey (TimerId := TimerId) → Instant → Event → Timers * Result () ScheduleError)
  (now : World → Instant) (instant_add : Instant → Duration → option Instant).

Lemma keep_schedule_at inject position schedule :
  keep (schedule_at (Generation := Generation) queue_schedule inject position schedule).
Proof. unfold schedule_at. repeat keep_item. Qed.
Hint Resolve keep_schedule_at : bombay.

Lemma schedule_at_keeps inject position :
  item_keeps (interpret_schedule_at (Generation := Generation) queue_schedule inject position).
Proof. apply timer_keeps. intros r. unfold settle_schedule_at. repeat keep_item. Qed.
Lemma schedule_after_keeps inject position :
  item_keeps (interpret_schedule_after (Generation := Generation) queue_schedule now instant_add inject position).
Proof. apply timer_keeps. intros r. unfold settle_schedule_after, schedule_after. repeat keep_item. Qed.
End timers.

Lemma creations_keep {C : Type} : item_keeps (interpret_creations (C := C)).
Proof.
  apply interpret_keeps. intros l w c. unfold route_creations.
  destruct (_ <=? _)%N; [|reflexivity]. rewrite bind_eq. cbn [look].
  destruct (checked_add _ _ _) as [next|] eqn:Hc; [|reflexivity]. cbn.
  apply checked_add_Some in Hc as [-> Hb]. split; try done; apply N.le_add_r.
Qed.

Lemma admit_source_keeps {Input : Type} ingress : item_keeps (admit_source (Input := Input) ingress).
Proof. apply interpret_keeps. intros r. repeat keep_item. Qed.

Lemma external_keeps {S I R : Type} service put_service interpret :
  item_keeps (interpret_external (S := S) (I := I) (R := R) service put_service interpret).
Proof.
  intros w c slots. unfold interpret_external. destruct (service _) as [s|]; [|reflexivity].
  destruct (interpret _) as [[w1 [s1 slots1]] o]. by split.
Qed.
End keeping.
