(* ===== verification/ItemLaws.v ===== *)
(** * Laws of the effect items

    What the interpretations of EffectItems.v promise to the behavior that emits
    the items.  The specification of an item is its verdict: what is asked of the
    host, and whether it grants it; a settlement is that verdict, with the item
    itself whenever it was not granted ([gives_back]).  The routes of children are
    never handed out twice, and whatever item is interpreted, and however it ends,
    the actor stays in service ([native_item]). *)

From stdpp Require Import gmap sorting.
From S2P Require Import Prelude Driver Host Assessment LocalIngress LocalEnvironment ActorOutcome.
From S2P Require Import ChildRetirement Endpoint ExactObservation Capabilities EffectItems.

Section laws.
Context {TY : LocalTypes} {LH : LaunchHost} {CH : CapabilityHost}.
Context {Publisher : Type}.
Context {B BError Root CreationId CreationKind Origin Failure Bindings : Type}.
Context {KH : ChildHost B BError Root CreationId CreationKind Origin}.
Implicit Types w : World.

Local Abbreviation Caps := (ApplicationCapabilities (CreationId := CreationId) (Bindings := Bindings)).
Local Abbreviation Run := (Async Panic (World * Caps)).
Local Abbreviation Item I R := (Async Panic (World * (Caps * (option I * option R))) ()).
Local Abbreviation Authority := (ChildAuthority (CH := KH)) (only parsing).

(** ** The verdict of the host *)

(** What the host answers to a request; it does not hold the request. *)
Variant Verdict {A R P : Type} :=
  | Granted (accepted : A)
  | Denied (reason : R)
  | Waits (prerequisite : P)
  | Corrupted (fault : InterpreterFault).
Arguments Verdict : clear implicits.

(** The settlement of a request: whatever the host did not grant holds it. *)
Definition settled_as {I A R P : Type} (request : I) (v : Verdict A R P) : ItemSettlement I A R P :=
  match v with
  | Granted accepted => Settled_Accepted accepted
  | Denied reason => Settled_Rejected request reason
  | Waits prerequisite => Settled_Blocked request prerequisite
  | Corrupted fault => Settled_Corrupt request fault
  end.

Definition judged {I A R P : Type} (request : I) (verdict : Run (Verdict A R P)) :
    Run (ItemSettlement I A R P) := v ← verdict; mret (settled_as request v).

(** A settling operation answers exactly as the host does, with the request that
    was made. *)
Definition settles {I A R P : Type} (settle : I → Run (ItemSettlement I A R P))
    (verdict : I → Run (Verdict A R P)) : Prop :=
  ∀ request st, settle request st = judged request (verdict request) st.

(** The interpretation of an item that was loaned: it does what the host is asked
    for, and settles with the host's verdict on the very item.  While it is not
    ready nothing is settled, and the item is gone unless it [stays] in its slot. *)
Definition gives_back {I A R P : Type} (stays : bool) (m : Item I (ItemSettlement I A R P))
    (verdict : I → Run (Verdict A R P)) : Prop := ∀ w c request,
  let left := if stays then Some request else None in
  m (w, (c, (Some request, None))) =
    let '((w', c'), o) := verdict request (w, c) in
    match o with
    | Ready v => ((w', (c', (None, Some (settled_as request v)))), Ready ())
    | Pending => ((w', (c', (left, None))), Pending)
    | Panicked payload => ((w', (c', (left, None))), Panicked payload)
    | Violated => ((w', (c', (left, None))), Violated)
    end.

Lemma settles_item {I A R P : Type} (settle : I → Run (ItemSettlement I A R P)) verdict :
  settles settle verdict → gives_back false (interpret_item settle) verdict.
Proof.
  intros Hs w c request. cbn. rewrite Hs. unfold judged. rewrite bind_eq.
  by destruct (verdict request (w, c)) as [[w' c'] [v| |payload|]].
Qed.

Lemma settles_timer {I A R P : Type} (settle : I → Run (ItemSettlement I A R P)) verdict :
  settles settle verdict → gives_back true (interpret_timer settle) verdict.
Proof.
  intros Hs w c request. cbn. rewrite Hs. unfold judged. rewrite bind_eq.
  by destruct (verdict request (w, c)) as [[w' c'] [v| |payload|]].
Qed.

(** An operation in front of both. *)
Lemma judged_before {I A R P X : Type} (m : Run X) (k : X → Run (ItemSettlement I A R P))
    (verdict : X → Run (Verdict A R P)) (request : I) st :
  (∀ x st, k x st = judged request (verdict x) st) →
  (m ≫= k) st = judged request (m ≫= verdict) st.
Proof.
  intros Hk. unfold judged. rewrite !bind_eq. destruct (m st) as [st' [x| |payload|]]; [|done..]. apply Hk.
Qed.

(** An operation of which something is known when it returns. *)
Lemma judged_after {I A R P X : Type} (m : Run X) (ok : X → Prop) (k : X → Run (ItemSettlement I A R P))
    (verdict : X → Run (Verdict A R P)) (request : I) st :
  wp m (λ _ o, ∀ x, o = Ready x → ok x) st →
  (∀ x st, ok x → k x st = judged request (verdict x) st) →
  (m ≫= k) st = judged request (m ≫= verdict) st.
Proof.
  unfold wp, judged. intros Hm Hk. rewrite !bind_eq.
  destruct (m st) as [st' [x| |payload|]]; [|done..]. by apply Hk, Hm.
Qed.

(** A message is offered to a recipient: a closed one denies it. *)
Definition asked {A E R P : Type} (m : Run (Result A E)) (denied : E → R) : Run (Verdict A R P) :=
  answer ← m; mret match answer with Ok a => Granted a | Err error => Denied (denied error) end.

(** What is asked of the child of a creation, through the authority it lends. *)
Definition of_child `{!ChildBindingAt CreationId Authority Bindings} {A R P : Type} (id : CreationId)
    (established : ActorRef → ControlSender → RetirementObservation → CreationKind → Run (Verdict A R P))
    (unavailable : CreationId → Verdict A R P) (missing : Verdict A R P) : Run (Verdict A R P) :=
  authority ← child_authority id;
  match authority with
  | Some (Authority_Established endpoint control retirement kind) =>
      established endpoint control retirement kind
  | Some (Authority_Unavailable correlation) => mret (unavailable correlation)
  | None => mret missing
  end.

Section delivery.
Context {M : Type} {EH : EndpointHost M Publisher} {law : EndpointLaw}.
Context (resolve : Scope → Addr → World → option ActorRef).

Definition message_to (actor : ActorRef) (message : M) : Run (Result () (SendError M)) :=
  from ← look address; on_host (send_from actor from message).

Definition delivery_verdict (delivery : Delivery M Addr) :
    Run (Verdict () LogicalDeliveryReason Empty_set) :=
  spaces ← look actor_spaces;
  found ← perform (λ w, (w, resolve spaces (to delivery) w));
  match found with
  | None => mret (Denied Logical_UnknownAddress)
  | Some actor => asked (message_to actor (delivered delivery)) (λ _, Logical_ClosedRecipient)
  end.

Definition established_verdict (delivery : Delivery M ActorRef) :
    Run (Verdict () ExactDeliveryReason Empty_set) :=
  asked (message_to (to delivery) (delivered delivery)) (λ _, Exact_ClosedRecipient).

(** A rejected message is the message that was sent. *)
Lemma judged_sent {I R P : Type} actor (message : M) (denied : R) (accept : ItemSettlement I () R P)
    (reject : SendError M → ItemSettlement I () R P) (request : I) st :
  accept = Settled_Accepted () → (∀ error, into_message error = message → reject error = Settled_Rejected request denied) →
  (from ← look address; sent ← on_host (send_from actor from message);
   mret match sent with Ok _ => accept | Err error => reject error end : Run _) st =
  judged request (asked (message_to actor message) (λ _, denied)) st.
Proof using law.
  intros -> Hr. unfold asked, message_to. destruct st as [w c].
  pose proof (wp_send_from actor (address c) message w) as Hw. unfold judged, wp in *.
  rewrite !bind_eq. cbn. rewrite !bind_eq. unfold on_host.
  destruct (send_from actor (address c) message w) as [w' [[[]|error]| |payload|]]; cbn in *; try done.
  destruct Hw as [_ Hw]. by rewrite (Hr error (Hw error eq_refl)).
Qed.

Lemma deliver_settles : settles (deliver resolve) delivery_verdict.
Proof using law.
  intros [address message] st. apply judged_before. intros spaces st1. apply judged_before.
  intros [actor|] st2; [|done]. apply judged_sent; [done|]. by intros error ->.
Qed.

Lemma deliver_established_settles : settles deliver_established established_verdict.
Proof using law. intros [actor message] st. apply judged_sent; [done|]. by intros error ->. Qed.

(** A nested delivery hands what it refuses to the item around it. *)
Definition reasoned {A R R' P : Type} (classify : R → R') (verdict : Run (Verdict A R P)) : Run (Verdict A R' P) :=
  v ← verdict;
  mret match v with
       | Granted accepted => Granted accepted
       | Denied reason => Denied (classify reason)
       | Waits prerequisite => Waits prerequisite
       | Corrupted fault => Corrupted fault
       end.

Context {Customer : Type}.
Definition customer_verdict (d : CustomerDelivery (Delivery M Addr) (Delivery M ActorRef) Customer) :
    Run (Verdict () ReplyDelivery Empty_set) :=
  match d with
  | Customer_Logical delivery | Customer_RejectedLogical delivery _ =>
      reasoned Reply_Logical (delivery_verdict delivery)
  | Customer_Established delivery | Customer_RejectedEstablished delivery _ =>
      reasoned Reply_Established (established_verdict delivery)
  end.

Lemma nested_customer_back {Leaf Whole R R' : Type} (leaf : Item Leaf (ItemSettlement Leaf () R Empty_set))
    verdict (request : Leaf) (restore : Leaf → Whole) (classify : R → R') w c :
  gives_back false leaf verdict →
  nested_customer leaf request restore (reunite restore classify) (w, (c, (None, None))) =
    let '((w', c'), o) := reasoned classify (verdict request) (w, c) in
    match o with
    | Ready v => ((w', (c', (None, Some (settled_as (restore request) v)))), Ready ())
    | Pending => ((w', (c', (None, None))), Pending)
    | Panicked payload => ((w', (c', (None, None))), Panicked payload)
    | Violated => ((w', (c', (None, None))), Violated)
    end.
Proof using.
  clear law. intros Hl. unfold nested_customer, reasoned. rewrite Hl, bind_eq.
  by destruct (verdict request (w, c)) as [[w' c'] [[[]|?|[]|?]| |payload|]].
Qed.

Lemma customer_gives_back : gives_back false (interpret_customer_delivery resolve) customer_verdict.
Proof using law.
  intros w c [delivery|delivery|delivery customer|delivery customer];
    unfold interpret_customer_delivery, customer_verdict.
  - apply (nested_customer_back _ _ delivery Customer_Logical), settles_item, deliver_settles.
  - apply (nested_customer_back _ _ delivery Customer_Established), settles_item, deliver_established_settles.
  - apply (nested_customer_back _ _ delivery (λ delivery, Customer_RejectedLogical delivery customer)),
      settles_item, deliver_settles.
  - apply (nested_customer_back _ _ delivery (λ delivery, Customer_RejectedEstablished delivery customer)),
      settles_item, deliver_established_settles.
Qed.

(** A terminal diagnostic is kept; a routed one is delivered. *)
Definition diagnostic_verdict {A Reason : Type} (leaf : Delivery M A → Run (Verdict () Reason Empty_set))
    (action : DiagnosticAction A M) : Run (Verdict (DiagnosticAccepted M) Reason Empty_set) :=
  match action with
  | Diagnostic_Terminal diagnostic => mret (Granted (Accepted_Terminal diagnostic))
  | Diagnostic_Deliver route diagnostic =>
      v ← leaf {| to := route; delivered := diagnostic |};
      mret match v with
           | Granted _ => Granted Accepted_Delivered
           | Denied reason => Denied reason
           | Waits prerequisite => Waits prerequisite
           | Corrupted fault => Corrupted fault
           end
  end.

Lemma diagnostic_gives_back {A Reason : Type}
    (leaf : Item (Delivery M A) (ItemSettlement (Delivery M A) () Reason Empty_set)) verdict :
  gives_back false leaf verdict → gives_back false (interpret_diagnostic leaf) (diagnostic_verdict verdict).
Proof using.
  clear law. intros Hl w c [diagnostic|route diagnostic]; [done|]. cbn. rewrite Hl, bind_eq.
  by destruct (verdict _ (w, c)) as [[w' c'] [[?|?|[]|?]| |payload|]].
Qed.
End delivery.

Section children.
Context `{!ChildBindingAt CreationId Authority Bindings}.
Context (into_future : TerminationObservation → TerminationFuture) (now : World → Instant).

Definition observe_creation_verdict inject (request : ChildRequest CreationId ()) :
    Run (Verdict () Empty_set CreationId) :=
  of_child (creation request)
    (λ endpoint _ _ kind,
       inject_control_event (inject (creation request) kind (ref_address endpoint));; mret (Granted ()))
    Waits (Corrupted MissingCapability).

Definition observe_established_verdict inject (request : ChildRequest CreationId ()) :
    Run (Verdict () Empty_set CreationId) :=
  of_child (creation request)
    (λ endpoint control retirement kind,
       inject_control_event (inject (creation request) kind (InstalledActor_new endpoint control retirement));;
       mret (Granted ()))
    Waits (Corrupted MissingCapability).

(** The termination of the child joins the observations of the actor. *)
Definition observe_termination inject_at (id : CreationId) (endpoint : ActorRef) : Run () :=
  change (λ c, set_observations
    (insert_child now inject_at id (into_future (ref_termination endpoint)) (observations c)) c).

Definition observe_child_verdict inject_at (request : ChildRequest CreationId ()) :
    Run (Verdict () Empty_set CreationId) :=
  of_child (creation request)
    (λ endpoint _ _ _, observe_termination inject_at (creation request) endpoint;; mret (Granted ()))
    Waits (Corrupted MissingCapability).

(** Only a granted shutdown is observed. *)
Definition shutdown_verdict {M E : Type} {EH : EndpointHost M Publisher} `{!ControlLane E}
    (ingress : Async Panic World E) inject_at (request : ChildRequest CreationId ()) :
    Run (Verdict () ChildShutdownRejection CreationId) :=
  of_child (creation request)
    (λ endpoint control _ _,
       requested ← on_host (request_actor_shutdown endpoint control ingress);
       match requested with
       | Ok _ => observe_termination inject_at (creation request) endpoint;; mret (Granted ())
       | Err AlreadyStopping => mret (Denied ChildShutdown_AlreadyStopping)
       | Err AlreadyStopped => mret (Denied ChildShutdown_NotEstablished)
       end)
    Waits (Corrupted MissingCapability).

Definition child_delivery_verdict {M : Type} {EH : EndpointHost M Publisher}
    (delivery : ChildRequest CreationId M) : Run (Verdict () ChildDeliveryReason CreationId) :=
  of_child (creation delivery)
    (λ endpoint _ _ _, asked (message_to endpoint (child_payload delivery)) (λ _, ChildDelivery_ClosedRecipient))
    Waits (Denied ChildDelivery_MissingBinding).

(** The arms of an authority, one by one. *)
Lemma child_judged {I A R P : Type} (id : CreationId)
    (k : option Authority → Run (ItemSettlement I A R P)) established unavailable missing (request : I) st :
  (∀ endpoint control retirement kind st,
     k (Some (Authority_Established endpoint control retirement kind)) st =
     judged request (established endpoint control retirement kind) st) →
  (∀ correlation st, k (Some (Authority_Unavailable correlation)) st =
     (mret (settled_as request (unavailable correlation)) : Run _) st) →
  (∀ st, k None st = (mret (settled_as request missing) : Run _) st) →
  (child_authority id ≫= k) st = judged request (of_child id established unavailable missing) st.
Proof.
  intros He Hu Hm. apply judged_before. intros [[endpoint control retirement kind|correlation]|] st';
    [apply He|apply Hu|apply Hm].
Qed.

Ltac observed := intros request st; apply child_judged; [|done..]; intros; apply judged_before; intros; done.

Lemma observe_creation_settles inject :
  settles (observe_creation inject) (observe_creation_verdict inject).
Proof. observed. Qed.
Lemma observe_established_settles inject :
  settles (observe_established_creation inject) (observe_established_verdict inject).
Proof. observed. Qed.
Lemma observe_child_settles inject_at :
  settles (observe_child into_future now inject_at) (observe_child_verdict inject_at).
Proof. observed. Qed.

Lemma shutdown_settles_item {M E : Type} {EH : EndpointHost M Publisher} `{!ControlLane E} ingress inject_at :
  settles (shutdown_child (M := M) (E := E) into_future now ingress inject_at)
    (shutdown_verdict (M := M) ingress inject_at).
Proof.
  intros request st. apply child_judged; [|done..]. intros endpoint control _ _ st'.
  apply judged_before. intros [|[|]] st''; [|done..]. apply judged_before. intros; done.
Qed.

Lemma child_delivery_settles {M : Type} {EH : EndpointHost M Publisher} {law : EndpointLaw} :
  settles (deliver_to_child (M := M)) child_delivery_verdict.
Proof.
  intros [id message] st. apply child_judged; [|done..]. intros endpoint _ _ _ st'.
  apply judged_sent; [done|]. by intros error ->.
Qed.

(** A lane returns the event it refuses, and an event of the port its input. *)
Class ChildInputLaw {Input E : Type} `{!ControlLane E} (child_input : Input → Async Panic World E)
    (recover : E → World → World * Result Input E) := {
  lane_returns control (event returned : E) w w' :
    lane_send control event w = (w', Err returned) → returned = event;
  input_recovers input w w' event w'' :
    child_input input w = (w', Ready event) → (recover event w'').2 = Ok input
}.

Context {Input E : Type} `{!ControlLane E} (child_input : Input → Async Panic World E)
  (recover : E → World → World * Result Input E).

(** The event of an input is offered to the control lane of the child; a closed
    lane has the input recovered from the event. *)
Definition input_to (control : ControlSender) (input : Input) : Run (Result () ()) :=
  event ← on_host (child_input input);
  sent ← perform (lane_send control event);
  match sent with
  | Ok _ => mret (Ok ())
  | Err event => perform (recover event);; mret (Err ())
  end.

Definition child_input_verdict (request : ChildRequest CreationId Input) :
    Run (Verdict () ChildInputReason CreationId) :=
  of_child (creation request)
    (λ _ control _ _, asked (input_to control (child_payload request)) (λ _, ChildInput_ClosedControlLane))
    Waits (Denied ChildInput_MissingBinding).

Definition proxy_verdict (id : CreationId) (input : Input) :
    Run (Verdict (InstalledActor (CH := KH)) ChildInputReason Empty_set) :=
  of_child id
    (λ endpoint control retirement _,
       asked (sent ← input_to control input;
              mret match sent with
                   | Ok _ => Ok (InstalledActor_new endpoint control retirement)
                   | Err refused => Err refused
                   end) (λ _, ChildInput_ClosedControlLane))
    (λ _, Denied ChildInput_MissingBinding) (Denied ChildInput_MissingBinding).

Context {law : ChildInputLaw child_input recover}.

(** What comes back from the lane is the input. *)
Lemma send_child_input_spec control input st :
  send_child_input child_input recover control input st =
    (sent ← input_to control input;
     mret match sent with Ok _ => Ok () | Err _ => Err input end) st.
Proof using law.
  destruct st as [w c]. unfold send_child_input, input_to. rewrite !bind_eq. unfold on_host.
  destruct (child_input input w) as [w1 [event| |payload|]] eqn:Hc; [|done..].
  rewrite !bind_eq. unfold perform at 1 3. destruct (lane_send control event w1) as [w2 [[]|event']] eqn:Hs; [done|].
  apply lane_returns in Hs as ->. pose proof (input_recovers _ _ _ _ w2 Hc) as Hi.
  rewrite !bind_eq. unfold perform. by destruct (recover event w2) as [w3 recovered]; cbn in Hi; subst recovered.
Qed.

(** An input that is offered in front of a settlement. *)
Lemma judged_input {I A R P : Type} control input (k : Result () Input → ItemSettlement I A R P)
    (v : Result () () → Verdict A R P) (request : I) st :
  k (Ok ()) = settled_as request (v (Ok ())) → k (Err input) = settled_as request (v (Err ())) →
  (sent ← send_child_input child_input recover control input; mret (k sent) : Run _) st =
  judged request (sent ← input_to control input; mret (v sent)) st.
Proof using law.
  intros Hok Herr. unfold judged. rewrite bind_eq, send_child_input_spec, !bind_eq.
  destruct (input_to control input st) as [st' [[[]|[]]| |payload|]]; cbn; rewrite ?Hok, ?Herr; done.
Qed.

Lemma child_input_settles : settles (input_to_child child_input recover) child_input_verdict.
Proof using law.
  intros [id input] st. apply child_judged; [|done..]. intros _ control _ _ st'. by apply judged_input.
Qed.

Lemma proxy_settles id : settles (admit_proxy_control child_input recover id) (proxy_verdict id).
Proof using law.
  intros input st. apply child_judged; [|done..]. intros endpoint control retirement _ st'.
  rewrite (judged_input control input _ (λ sent, match sent with
    | Ok _ => Granted (InstalledActor_new endpoint control retirement)
    | Err _ => Denied ChildInput_ClosedControlLane
    end) input) by done.
  unfold judged, asked. rewrite !bind_eq. by destruct (input_to control input st') as [st'' [[[]|[]]| |payload|]].
Qed.
End children.

Definition peer_verdict into_future resolve inject_at (peer : Addr) :
    Run (Verdict () PeerObservationRejection Empty_set) :=
  spaces ← look actor_spaces;
  found ← perform (λ w, (w, resolve spaces peer w));
  match found with
  | None => mret (Denied Peer_UnknownAddress)
  | Some actor =>
      change (λ c, set_observations
        (insert_peer inject_at peer (into_future (ref_termination actor)) (observations c)) c);;
      mret (Granted ())
  end.

Lemma peer_settles into_future resolve inject_at :
  settles (settle_observe_peer into_future resolve inject_at) (peer_verdict into_future resolve inject_at).
Proof.
  intros peer [w c]. unfold settle_observe_peer, peer_verdict, judged, observe_peer, look, perform, change, mbind,
    Async_bind. cbn. by destruct (resolve (actor_spaces c) peer w).
Qed.

Section timers.
Context {TimerId Generation Duration : Type}.
Context (queue_schedule : Timers → TimerKey (TimerId := TimerId) → Instant → Event → Timers * Result () ScheduleError)
  (now : World → Instant) (instant_add : Instant → Duration → option Instant).

(** The queue is offered the event of a request, once it was made; what it
    answers names the target and the generation back. *)
Definition scheduled_verdict {R : Type} inject position (target : TimerTarget (TimerId := TimerId)) (generation : Generation)
    (deadline : Instant) (denied : ScheduleError → R) : Run (Verdict (TimerTarget * Generation) R Empty_set) :=
  event ← on_host (inject target generation);
  queue ← look timers;
  let '(queue, scheduled) := queue_schedule queue (timer_key position target) deadline event in
  change (set_timers queue);;
  mret match scheduled with Ok _ => Granted (target, generation) | Err error => Denied (denied error) end.

Definition schedule_at_verdict inject position (request : TimerRequest (TimerId := TimerId) (Generation := Generation) (At := Instant)) :
    Run (Verdict (TimerTarget * Generation) ScheduleAtRejection Empty_set) :=
  scheduled_verdict inject position (target request) (generation request) (when request)
    (λ error, match error with
              | Queue_GenerationExhausted => At_GenerationExhausted
              | Queue_SequenceExhausted => At_SequenceExhausted
              end).

Definition schedule_after_verdict inject position (request : TimerRequest (TimerId := TimerId) (Generation := Generation) (At := Duration)) :
    Run (Verdict (TimerTarget * Generation) ScheduleAfterRejection Empty_set) :=
  deadline ← perform (λ w, (w, instant_add (now w) (when request)));
  match deadline with
  | None => mret (Denied After_DeadlineOverflow)
  | Some deadline =>
      scheduled_verdict inject position (target request) (generation request) deadline
        (λ error, match error with
                  | Queue_GenerationExhausted => After_GenerationExhausted
                  | Queue_SequenceExhausted => After_SequenceExhausted
                  end)
  end.

Lemma judged_schedule {I R : Type} inject position
    (schedule : TimerRequest (TimerId := TimerId) (Generation := Generation) (At := Instant)) (denied : ScheduleError → R)
    (k : Result () TimerError → Run (ItemSettlement I (TimerTarget * Generation) R Empty_set)) (request : I) st :
  (∀ st, k (Ok ()) st = (mret (Settled_Accepted (target schedule, generation schedule)) : Run _) st) →
  (∀ error st, k (Err (timer_error error)) st = (mret (Settled_Rejected request (denied error)) : Run _) st) →
  (schedule_at queue_schedule inject position schedule ≫= k) st =
  judged request (scheduled_verdict inject position (target schedule) (generation schedule) (when schedule) denied) st.
Proof.
  intros Hok Herr. destruct st as [w c]. unfold judged, schedule_at, scheduled_verdict. rewrite !bind_eq. unfold on_host.
  destruct (inject _ _ w) as [w1 [event| |payload|]]; [|done..]. rewrite !bind_eq. cbn.
  destruct (queue_schedule _ _ _ _) as [queue [[]|error]]; cbn; [apply Hok|apply Herr].
Qed.

Lemma schedule_at_settles inject position :
  settles (settle_schedule_at queue_schedule inject position) (schedule_at_verdict inject position).
Proof. intros request st. apply judged_schedule; [done|]. by intros []. Qed.

Lemma schedule_after_settles inject position :
  settles (settle_schedule_after queue_schedule now instant_add inject position)
    (schedule_after_verdict inject position).
Proof.
  intros request [w c]. unfold settle_schedule_after, schedule_after, schedule_after_verdict, judged.
  rewrite !bind_eq. cbn. destruct (instant_add (now w) (when request)) as [deadline|]; [|done].
  pose proof (judged_schedule inject position
    {| target := target request; generation := generation request; when := deadline |}
    (λ error, match error with
              | Queue_GenerationExhausted => After_GenerationExhausted
              | Queue_SequenceExhausted => After_SequenceExhausted
              end)
    (λ scheduled, mret match scheduled with
       | Ok _ => Settled_Accepted (target request, generation request)
       | Err Timer_DeadlineOverflow => Settled_Rejected request After_DeadlineOverflow
       | Err Timer_GenerationExhausted => Settled_Rejected request After_GenerationExhausted
       | Err Timer_SequenceExhausted => Settled_Rejected request After_SequenceExhausted
       end) request (w, c)) as H.
  unfold judged in H. rewrite !bind_eq in H. apply H; [done|]. by intros [].
Qed.
End timers.

(** A batch is granted routes of its own, from the next one on, as long as they
    fit below the limit. *)
Definition routes_verdict {C : Type} (batch : list C) :
    Run (Verdict (list (C * N)) ChildNamespaceExhausted Empty_set) :=
  first ← look next_child_route;
  if (first + len batch <=? u64_max)%N then
    change (set_next_child_route (first + len batch)%N);;
    mret (Granted (zip batch (map (λ i, first + N.of_nat i)%N (seq 0 (length batch)))))
  else mret (Denied ChildNamespaceExhausted_new).

Lemma imap_zip {A X : Type} (f : nat → X) (l : list A) n :
  imap (λ i x, (x, f (n + i))) l = zip l (map f (seq n (length l))).
Proof.
  revert n. induction l as [|x l IH]; intros n; [done|]. cbn. f_equal; [by rewrite Nat.add_0_r|].
  rewrite <- IH. apply imap_ext. intros i y _. cbn. by rewrite Nat.add_succ_r.
Qed.

Lemma creations_settle {C : Type} : settles (route_creations (C := C)) routes_verdict.
Proof.
  intros batch [w c]. unfold route_creations, routes_verdict, judged, look, change, mbind, Async_bind. cbn.
  destruct (checked_add u64_max (next_child_route c) (len batch)) as [next|] eqn:Ha.
  - apply checked_add_Some in Ha as [-> Hle].
    rewrite (proj2 (N.leb_le _ _) Hle), (proj2 (N.leb_le (len batch) u64_max)) by lia. cbn.
    rewrite (proj2 (checked_add_Some _ _ _ _)) by done. cbn.
    by rewrite <- (imap_zip (λ i, next_child_route c + N.of_nat i)%N batch 0).
  - pose proof Ha as Hn. apply checked_add_None in Hn. rewrite (proj2 (N.leb_gt _ _) Hn).
    destruct (_ <=? _)%N; [|done]. cbn. by rewrite Ha.
Qed.

(** [ControlSender::send_map] returns a report that its closed lane did not take. *)
Class ParentLaneLaw {Report E : Type}
    (send_map : ControlSender → Report → (Report → Async Panic World E) → Async Panic World (Result () Report)) :=
  send_map_returns control report convert w :
    wp (send_map control report convert) (λ _ o, ∀ returned, o = Ready (Err returned) → returned = report) w.

Section reports.
Context {Report E : Type} (local : Parent → LocalParentReports (CreationId := CreationId)).
Context (send_map : ControlSender → Report → (Report → Async Panic World E) → Async Panic World (Result () Report)).
Context (ingress : CreationId → Report → Async Panic World E).

(** The parent's control lane is offered the report, under the child's name. *)
Definition report_verdict (request : Report) : Run (Verdict () ParentReportReason Empty_set) :=
  parent ← look parent_reports;
  match parent with
  | None => violated
  | Some parent =>
      asked (on_host (send_map (reporting_parent (local parent)) request
                       (ingress (reporting_child (local parent))))) (λ _, ClosedParentControlLane)
  end.

Context {law : ParentLaneLaw send_map}.

Lemma report_gives_back :
  gives_back false (interpret_report_to_parent (λ parent, report_to_parent send_map ingress (local parent)))
    report_verdict.
Proof using law.
  apply settles_item. intros request st. apply judged_before. intros [parent|] [w c]; [|done].
  unfold asked, report_to_parent, judged. rewrite !bind_eq. unfold on_host.
  pose proof (send_map_returns (reporting_parent (local parent)) request (ingress (reporting_child (local parent))) w)
    as Hr. unfold wp in Hr.
  destruct (send_map _ _ _ w) as [w' [[[]|returned]| |payload|]]; cbn in *; try done.
  by rewrite (Hr returned eq_refl).
Qed.
End reports.

(** ** Routes *)

(** The life of an actor, as its routes see it: whatever keeps what every item
    keeps, and accepted batches with the routes they were given. *)
Inductive route_run {C : Type} : Caps → list (C * N) → Caps → Prop :=
  | route_done c : route_run c [] c
  | route_other c c' l c'' : kept c c' → route_run c' l c'' → route_run c l c''
  | route_batch c batch w w' c' routed l c'' :
      route_creations batch (w, c) = ((w', c'), Ready (Settled_Accepted routed)) →
      route_run c' l c'' → route_run c (routed ++ l) c''.

Lemma sorted_from_app (l k : list N) (a b c : N) :
  StronglySorted N.lt l → Forall (λ r, a ≤ r < b)%N l → StronglySorted N.lt k →
  Forall (λ r, b ≤ r < c)%N k → StronglySorted N.lt (l ++ k).
Proof.
  intros Hl Hal Hk Hak. induction Hl as [|x l Hl IH Hx]; [done|]. apply Forall_cons in Hal as [Hxa Hal].
  cbn. constructor; [by apply IH|]. apply Forall_app. split; [done|].
  eapply Forall_impl; [exact Hak|]. cbn. lia.
Qed.

Lemma routed_batch {C : Type} (l : list C) (a : N) :
  let routes := (imap (λ i x, (x, a + N.of_nat i)%N) l).*2 in
  StronglySorted N.lt routes ∧ Forall (λ r, a ≤ r < a + len l)%N routes ∧
  (imap (λ i x, (x, a + N.of_nat i)%N) l).*1 = l.
Proof.
  revert a. induction l as [|x l IH]; intros a; [split_and!; by constructor|]. cbn [imap].
  assert (imap ((λ i x, (x, a + N.of_nat i)%N) ∘ S) l = imap (λ i x, (x, (a + 1) + N.of_nat i)%N) l) as ->.
  { apply imap_ext. intros i y _. cbn. f_equal. lia. }
  destruct (IH (a + 1)%N) as (Hs & Hb & Hl). rewrite !fmap_cons, len_cons. cbn [fst snd]. rewrite N.add_0_r.
  split_and!; [|constructor; [lia|]|by f_equal].
  - constructor; [done|]. eapply Forall_impl; [exact Hb|]. cbn. lia.
  - eapply Forall_impl; [exact Hb|]. cbn. lia.
Qed.

(** The routes an actor gives to the children it creates, in whatever batches
    and between whatever other items, are strictly increasing, so no two children
    share one, and never wrap around; a batch is refused exactly when it does not
    fit below the limit, and comes back with the counter unchanged. *)
Lemma child_routes_are_unique {C : Type} (c c' : Caps) (l : list (C * N)) :
  (next_child_route c ≤ u64_max)%N → route_run c l c' →
  StronglySorted N.lt l.*2 ∧
  Forall (λ r, next_child_route c ≤ r < next_child_route c')%N l.*2 ∧
  (next_child_route c' ≤ u64_max)%N ∧
  ∀ w (batch : list C), (len batch ≤ u64_max)%N →
    ∃ c'' o, route_creations batch (w, c') = ((w, c''), Ready o) ∧
      match o with
      | Settled_Accepted routed =>
          (next_child_route c' + len batch ≤ u64_max)%N ∧ routed.*1 = batch
      | Settled_Rejected refused _ =>
          (u64_max < next_child_route c' + len batch)%N ∧ refused = batch ∧ c'' = c'
      | _ => False
      end.
Proof.
  intros Hc Hr. assert (StronglySorted N.lt l.*2 ∧
    Forall (λ r, next_child_route c ≤ r < next_child_route c')%N l.*2 ∧
    (next_child_route c ≤ next_child_route c' ≤ u64_max)%N) as (Hs & Hb & _ & Hu).
  { induction Hr as [c|c c1 l c2 Hk Hr IH|c batch w w' c1 routed l c2 Hb Hr IH].
    - split_and!; [by constructor..|lia|done].
    - destruct (IH (kept_bound _ _ Hk Hc)) as (Hs & Hf & Hl & Hu). pose proof (kept_route _ _ Hk).
      split_and!; [done| |lia|done]. eapply Forall_impl; [exact Hf|]. cbn. lia.
    - revert Hb. unfold route_creations. destruct (_ <=? _)%N; [|done]. rewrite bind_eq. cbn [look].
      destruct (checked_add _ _ _) as [next|] eqn:Ha; [|done]. intros [= <- <- <-].
      apply checked_add_Some in Ha as [-> Hle]. destruct (IH Hle) as (Hs & Hf & Hl & Hu). cbn [next_child_route set_next_child_route] in *.
      destruct (routed_batch batch (next_child_route c)) as (Hs' & Hf' & _).
      rewrite fmap_app. split_and!; [by eapply sorted_from_app| |lia|done].
      apply Forall_app. split; (eapply Forall_impl; [eassumption|]); cbn; lia. }
  split_and!; try done. intros w batch Hl. unfold route_creations. apply N.leb_le in Hl as ->.
  rewrite bind_eq. cbn [look]. destruct (checked_add _ _ _) as [next|] eqn:Ha.
  - apply checked_add_Some in Ha as [-> Hle]. do 2 eexists. split; [reflexivity|]. split; [done|].
    apply routed_batch.
  - apply checked_add_None in Ha. do 2 eexists. split; [reflexivity|]. by split_and!.
Qed.

(** ** The items of an actor *)

(** C18: Every item is answered by the host and by nobody else: what the host is
    asked for, and whether it grants it, is in the item's verdict, and the
    settlement is that verdict.  It is accepted exactly when the host granted the
    request (the recipient or lane took it, the address resolved, the queue or the
    route counter had room), and otherwise it holds the very request that was loaned,
    with the reason: deliveries to addresses, references and children, replies to
    customers, diagnostics, inputs and controls of children, observations,
    shutdowns, timers, reports to the parent and batches of creations.  The host of
    an endpoint or lane returns what it does not take ([EndpointLaw],
    [ChildInputLaw], [ParentLaneLaw]). *)
Theorem refused_items_come_back
    {M : Type} {EH : EndpointHost M Publisher} {endpoint_law : EndpointLaw}
    {CB : ChildBindingAt CreationId Authority Bindings}
    {Input E Shutdown : Type} {input_lane : ControlLane E} {shutdown_lane : ControlLane Shutdown}
    (child_input : Input → Async Panic World E) (recover : E → World → World * Result Input E)
    {input_law : ChildInputLaw child_input recover}
    {Report Reported Customer TimerId Generation Duration C : Type}
    (local : Parent → LocalParentReports (CreationId := CreationId))
    (send_map : ControlSender → Report → (Report → Async Panic World Reported) →
      Async Panic World (Result () Report))
    (ingress : CreationId → Report → Async Panic World Reported)
    {lane_law : ParentLaneLaw send_map}
    (queue_schedule : Timers → TimerKey (TimerId := TimerId) → Instant → Event → Timers * Result () ScheduleError)
    resolve into_future now instant_add shutdown inject_creation inject_established inject_stopped
    inject_peer inject_elapsed id position :
  gives_back false (interpret_delivery (EH := EH) resolve) (delivery_verdict resolve) ∧
  gives_back false (interpret_established_delivery (EH := EH)) established_verdict ∧
  gives_back false (interpret_customer_delivery (EH := EH) (Customer := Customer) resolve)
    (customer_verdict resolve) ∧
  gives_back false (interpret_logical_diagnostic (EH := EH) resolve)
    (diagnostic_verdict (delivery_verdict resolve)) ∧
  gives_back false (interpret_established_diagnostic (EH := EH)) (diagnostic_verdict established_verdict) ∧
  gives_back false (interpret_child_delivery (EH := EH)) child_delivery_verdict ∧
  gives_back false (interpret_child_input child_input recover) (child_input_verdict child_input recover) ∧
  gives_back false (interpret_proxy_operation child_input recover id) (proxy_verdict child_input recover id) ∧
  gives_back false (interpret_observe_creation inject_creation) (observe_creation_verdict inject_creation) ∧
  gives_back false (interpret_observe_established_creation inject_established)
    (observe_established_verdict inject_established) ∧
  gives_back false (interpret_observe_child into_future now inject_stopped)
    (observe_child_verdict into_future now inject_stopped) ∧
  gives_back false (interpret_shutdown_child (EH := EH) (E := Shutdown) into_future now shutdown inject_stopped)
    (shutdown_verdict into_future now shutdown inject_stopped) ∧
  gives_back false (interpret_observe_peer into_future resolve inject_peer)
    (peer_verdict into_future resolve inject_peer) ∧
  gives_back true (interpret_schedule_at (Generation := Generation) queue_schedule inject_elapsed position)
    (schedule_at_verdict queue_schedule inject_elapsed position) ∧
  gives_back true
    (interpret_schedule_after (Duration := Duration) queue_schedule now instant_add inject_elapsed position)
    (schedule_after_verdict queue_schedule now instant_add inject_elapsed position) ∧
  gives_back false (interpret_report_to_parent (λ parent, report_to_parent send_map ingress (local parent)))
    (report_verdict local send_map ingress) ∧
  gives_back false (interpret_creations (C := C)) routes_verdict.
Proof.
  split_and!; first
    [ apply settles_timer | apply diagnostic_gives_back, settles_item | apply report_gives_back
    | apply customer_gives_back | apply settles_item ];
    eauto using deliver_settles, deliver_established_settles, child_delivery_settles,
      child_input_settles, proxy_settles, observe_creation_settles, observe_established_settles,
      observe_child_settles, shutdown_settles_item, peer_settles, schedule_at_settles,
      schedule_after_settles, creations_settle.
Qed.

(** Every interpretation an actor's capabilities implement, creation of a child
    apart (ChildCreation.v). *)
Inductive native_item : ∀ {I R : Type}, Item I R → Prop :=
  | native_delivery M (EH : EndpointHost M Publisher) resolve :
      native_item (interpret_delivery (EH := EH) resolve)
  | native_established_delivery M (EH : EndpointHost M Publisher) :
      native_item (interpret_established_delivery (EH := EH))
  | native_assign_worker M (EH : EndpointHost M Publisher) :
      native_item (interpret_assign_worker (EH := EH))
  | native_customer_delivery M (EH : EndpointHost M Publisher) Customer resolve :
      native_item (interpret_customer_delivery (EH := EH) (Customer := Customer) resolve)
  | native_logical_diagnostic M (EH : EndpointHost M Publisher) resolve :
      native_item (interpret_logical_diagnostic (EH := EH) resolve)
  | native_established_diagnostic M (EH : EndpointHost M Publisher) :
      native_item (interpret_established_diagnostic (EH := EH))
  | native_unrouted_diagnostic M : native_item (interpret_unrouted_diagnostic (M := M))
  | native_observe_creation (CB : ChildBindingAt CreationId Authority Bindings) inject :
      native_item (interpret_observe_creation inject)
  | native_observe_established_creation (CB : ChildBindingAt CreationId Authority Bindings) inject :
      native_item (interpret_observe_established_creation inject)
  | native_observe_child (CB : ChildBindingAt CreationId Authority Bindings) into_future now inject_at :
      native_item (interpret_observe_child into_future now inject_at)
  | native_shutdown_child (CB : ChildBindingAt CreationId Authority Bindings) M
      (EH : EndpointHost M Publisher) E (CL : ControlLane E) into_future now ingress inject_at :
      native_item (interpret_shutdown_child (EH := EH) (E := E) into_future now ingress inject_at)
  | native_child_delivery (CB : ChildBindingAt CreationId Authority Bindings) M (EH : EndpointHost M Publisher) :
      native_item (interpret_child_delivery (EH := EH))
  | native_child_input (CB : ChildBindingAt CreationId Authority Bindings) Input E (CL : ControlLane E)
      (child_input : Input → Async Panic World E) recover :
      native_item (interpret_child_input child_input recover)
  | native_proxy_operation (CB : ChildBindingAt CreationId Authority Bindings) Input E (CL : ControlLane E)
      (child_input : Input → Async Panic World E) recover id :
      native_item (interpret_proxy_operation child_input recover id)
  | native_observe_peer into_future resolve inject_at :
      native_item (interpret_observe_peer into_future resolve inject_at)
  | native_observe_established Spawned (spawn : Spawned → Tasks → World → World * Tasks)
      Request Grant Receiver observed_id issue watch inject_rejected inject_started :
      native_item (interpret_observe_established spawn (Request := Request) (Grant := Grant)
        (Receiver := Receiver) observed_id issue watch inject_rejected inject_started)
  | native_cancel_observation Cancellation cancelled_id cancelled_identity inject_cancelled inject_not_observed :
      native_item (interpret_cancel_observation (Cancellation := Cancellation) cancelled_id
        cancelled_identity inject_cancelled inject_not_observed)
  | native_start_worker Spawned (spawn : Spawned → Tasks → World → World * Tasks) Start inject_starting starting :
      native_item (interpret_start_worker spawn (Start := Start) inject_starting starting)
  | native_prepare_workers Spawned (spawn : Spawned → Tasks → World → World * Tasks) Prepare Receipt Starting
      (start : Prepare → Receipt * Starting) preparing :
      native_item (interpret_prepare_workers spawn start preparing)
  | native_initialize_worker Worker M (EH : EndpointHost M Publisher) now target worker_creation inject :
      native_item (interpret_initialize_worker (Worker := Worker) (EH := EH) now target worker_creation inject)
  | native_shutdown_established Request Id Reason shutdown_id settle inject_accepted inject_rejected :
      native_item (interpret_shutdown_established (Request := Request) (Id := Id) (Reason := Reason)
        shutdown_id settle inject_accepted inject_rejected)
  | native_entity_admission Admission interpret :
      native_item (interpret_entity_admission (Admission := Admission) interpret)
  | native_report_to_parent Report reporting :
      native_item (interpret_report_to_parent (Report := Report) reporting)
  | native_report_terminal_outcome : native_item interpret_report_terminal_outcome
  | native_report_shutdown_plan Plan into_event :
      native_item (interpret_report_shutdown_plan (Plan := Plan) into_event)
  | native_schedule_at TimerId Generation
      (queue_schedule : Timers → TimerKey (TimerId := TimerId) → Instant → Event → Timers * Result () ScheduleError)
      inject position :
      native_item (interpret_schedule_at (Generation := Generation) queue_schedule inject position)
  | native_schedule_after TimerId Generation Duration
      (queue_schedule : Timers → TimerKey (TimerId := TimerId) → Instant → Event → Timers * Result () ScheduleError)
      now (instant_add : Instant → Duration → option Instant) inject position :
      native_item (interpret_schedule_after (Generation := Generation) queue_schedule now instant_add inject position)
  | native_creations C : native_item (interpret_creations (C := C))
  | native_source Input ingress : native_item (admit_source (Input := Input) ingress)
  | native_external S I R service put_service interpret :
      native_item (interpret_external (S := S) (I := I) (R := R) service put_service interpret).

(** Whatever item is interpreted, and however that ends. *)
Lemma native_item_keeps {I R : Type} (m : Item I R) : native_item m → item_keeps m.
Proof.
  destruct 1; eauto using delivery_keeps, established_delivery_keeps, customer_delivery_keeps,
    diagnostic_keeps, observe_creation_keeps, observe_established_creation_keeps, observe_child_keeps,
    shutdown_child_keeps, child_delivery_keeps, child_input_keeps, proxy_operation_keeps,
    observe_peer_keeps, observe_established_keeps, cancel_observation_keeps, start_worker_keeps,
    prepare_workers_keeps, initialize_worker_keeps, shutdown_established_keeps, entity_admission_keeps,
    report_to_parent_keeps, report_terminal_outcome_keeps, report_shutdown_plan_keeps, schedule_at_keeps,
    schedule_after_keeps, creations_keep, admit_source_keeps, external_keeps.
  apply interpret_keeps. intros [diagnostic|[] ?]. by auto with bombay typeclass_instances.
Qed.
End laws.
