(* ===== verification/ChildCreation.v ===== *)
(** * Creation of a child

    [crates/bombay/src/local/effects/creation.rs], [establish_native_child]: an
    address is allocated, the child is launched and its row recorded; when the child
    has committed privately its row becomes an established one and the child is
    acknowledged, otherwise its owner waits for the task and records why the startup
    failed.  Every wait may be dropped: the row then keeps what was acquired, for
    the retirement of ChildRetirement.v.

    The launch of the child ([spawn_owned_execution] of ActorLaunch.v, for the types
    of the child) and of its projection are in the class [CreationHost].  The second
    part selects the registry of an occurrence in the product of an actor's children. *)

From stdpp Require Import gmap.
From S2P Require Import Prelude Driver Host Assessment LocalIngress LocalEnvironment ActorOutcome.
From S2P Require Import TerminalProjection ActorOwner ActorLaunch ChildRetirement.
From S2P Require Import Endpoint ExactObservation Capabilities EffectItems.

(** ** What an owner receives *)

Section joining.
Context {P W Handle Receiver Sender O N : Type}.
Context (poll_join : Handle → Async P W (option O)) (poll_notice : Receiver → Async P W (option N)).
Context (cancel_send cancel_drop : Sender → W → W) (join_drop : Handle → W → W) (wait : W → W).

(** Every result in the slots is one that a poll of a join returned. *)
Definition joined_by (x : O) : Prop := ∃ task w w', poll_join task w = (w', Ready (Some x)).
Definition joined_slots (s : @OwnerSlots Handle Receiver Sender O N) : Prop :=
  ∀ x, slot_received s = Some x → joined_by x.

Lemma poll_receipt_received t w (s : OwnerSlots (O := O)) :
  wp (poll_receipt poll_notice cancel_send join_drop t)
    (λ st _, slot_received st.2 = slot_received s) (w, s).
Proof.
  unfold wp, poll_receipt. rewrite bind_eq. cbn. rewrite bind_eq.
  destruct (slot_notification s) as [n|]; cbn; [done|].
  destruct (poll_notice _ w) as [w' [[n|]| |payload|]]; done.
Qed.

Lemma poll_owner_joined w s :
  joined_slots s →
  wp (poll_owner poll_join poll_notice cancel_send cancel_drop join_drop) (λ st _, joined_slots st.2) (w, s).
Proof.
  intros Hs. unfold poll_owner. do 2 wp_step. destruct (slot_owned s) as [t|]; [|by wp_step].
  assert (∀ w s, joined_slots s →
    wp (poll_receipt poll_notice cancel_send join_drop t) (λ st _, joined_slots st.2) (w, s)) as Hr.
  { intros w1 s1 Hs1. eapply wp_mono; [apply poll_receipt_received|].
    intros [w2 s2] o Heq x. cbn in *. rewrite Heq. apply Hs1. }
  wp_step. unfold poll_task. destruct (owned_task t) as [task|]; [|wp_step; by apply Hr].
  do 2 wp_step. destruct (_ || _); [by do 2 wp_step|]. wp_step. apply wp_aside.
  intros w1 [[joined|]| |payload|] Hj; cbn [wp_then]; [|by do 2 wp_step|done..].
  wp_step. unfold wp at 1, take_joined. destruct (authority_disarm _ _ _) as [w2 c]. cbn [fst snd wp_then].
  wp_step. apply Hr. intros x [= <-]. by exists task, w, w1.
Qed.

Lemma receive_finish_joined polls w s :
  joined_slots s →
  wp (receive_finish poll_join poll_notice cancel_send cancel_drop join_drop wait polls)
    (λ st _, joined_slots st.2) (w, s).
Proof.
  intros Hs. unfold receive_finish. do 2 wp_step. destruct (settled s); [by wp_step|].
  revert w s Hs. induction polls as [|polls IH]; intros w s Hs; cbn [poll_finish]; [done|].
  wp_step. eapply wp_mono; [by apply poll_owner_joined|].
  intros [w1 s1] [[]| |payload|] Hs1; cbn [wp_then]; try done. do 2 wp_step. by apply IH.
Qed.
End joining.

(** ** Data *)

Variant CreationRejection {AllocationRejection : Type} :=
  | Creation_CorrelationAlreadyRecorded
  | Creation_Allocation (reason : AllocationRejection)
  | Creation_EnvironmentFailed.
Arguments CreationRejection : clear implicits.

Record RoutedCreation {CreationId CreationKind Child : Type} := {
  routed_id : CreationId;
  routed_kind : CreationKind;
  routed_route : N;
  routed_child : Child
}.
Arguments RoutedCreation : clear implicits.

(** What a creation calls: [ApplicationAddresses::allocate], the launch and the
    startup receipt of the child, its projected task and the acknowledgement of its
    binding. *)
Class CreationHost `{!LocalTypes, !LaunchHost} {B BError Root CreationId CreationKind Origin}
    (KH : ChildHost B BError Root CreationId CreationKind Origin) (AllocationRejection : Type) := {
  Binding : Type; RetirementPublisher : Type;
  allocate_address : World → World * Result Addr AllocationRejection;
  already_claimed : AllocationRejection;
  claim_in_use : ClaimError → bool;
  spawn_child : Addr → B → World →
    World * (StartupReceiver * ControlSender * @OwnedTask RawHandle RawReceiver ChildCancel);
  await_startup : StartupReceiver → Async Panic World (Result (ActorRef * Binding) RecvError);
  retirement_pair : World → World * (RetirementPublisher * RetirementObservation);
  project_task : @OwnedTask RawHandle RawReceiver ChildCancel → Origin → RetirementPublisher → World →
    World * @OwnedTask ProjectedHandle ProjectedReceiver ChildCancel;
  binding_send : Binding → World → World * Result () ()
}.

Section creation.
Context {TY : LocalTypes} {LH : LaunchHost} `{!TaskSet World Tasks Event JoinError}.
Context {B BError AllocationRejection Root CreationId CreationKind Origin : Type}.
Context `{!EqDecision CreationId, !Countable CreationId}.
Context {KH : ChildHost B BError Root CreationId CreationKind Origin} {NH : CreationHost KH AllocationRejection}.
Context {Grandchild ChildFailures : Type}.
Context (descendants_of : Descendants → list Grandchild * ChildFailures).
Implicit Types w : World.

Local Abbreviation Routed := (RoutedCreation CreationId CreationKind B) (only parsing).
Local Abbreviation Row := (CreationBinding (CH := KH)) (only parsing).
Local Abbreviation Registry := (gmap CreationId Row * list CreationId)%type (only parsing).
Local Abbreviation Outcome_ := (LocalOutcome (B := B) (BError := BError)) (only parsing).
Local Abbreviation RawTask := (@OwnedTask RawHandle RawReceiver ChildCancel) (only parsing).
Local Abbreviation ProjectedTask := (@OwnedTask ProjectedHandle ProjectedReceiver ChildCancel) (only parsing).

Variant ChildCreationOutcome :=
  | Creation_IsEstablished (id : CreationId) (kind : CreationKind) (actor : InstalledActor (CH := KH))
  | Creation_Unavailable (id : CreationId) (kind : CreationKind)
  | Creation_InitializationRejected (creation : Routed) (error : BError)
  | Creation_InitializationPanicked (creation : Routed)
  | Creation_HostRejected (creation : Routed) (initialization : Actions)
      (reason : CreationRejection AllocationRejection).

Local Abbreviation Settlement :=
  (ItemSettlement Routed ChildCreationOutcome (CreationRejection AllocationRejection) Empty_set)
  (only parsing).

Local Abbreviation Establish := (Async Panic (World * Registry)).

(** ** The operation *)

(** [record_child_creation], with its panic. *)
Definition record_row (id : CreationId) (row : Row) : Establish () := λ '(w, r),
  match record_child_creation id row r with
  | Some r => ((w, r), Ready ())
  | None => ((w, r), Violated)
  end.

(** [HashMap::remove] with its [expect]. *)
Definition remove_row (id : CreationId) : Establish Row := λ '(w, (rows, order)),
  match rows !! id with
  | Some row => ((w, (delete id rows, order)), Ready row)
  | None => ((w, (rows, order)), Violated)
  end.

(** The startup receipt is awaited in its row. *)
Definition startup_of (id : CreationId) : Establish (Result (ActorRef * Binding) RecvError) :=
  row ← look (λ r, r.1 !! id);
  match row with
  | Some (Creation_Starting _ _ _ startup _ _) => on_host (await_startup startup)
  | _ => violated
  end.

(** [OwnedTask::receive_finish] of a raw task. *)
Definition finish_raw : Async Panic (World * RawSlots) () := λ '(w, s),
  receive_finish raw_join raw_notice child_cancel_send child_cancel_drop raw_drop idle
    (child_polls w) (w, s).

(** The raw task is waited for in its row. *)
Definition finish_row (id : CreationId) : Establish RawSlots := λ '(w, (rows, order)),
  match rows !! id with
  | Some (Creation_RetiringStartup kind address route (Startup_Raw slots)) =>
      let '((w, slots), o) := finish_raw (w, slots) in
      ((w, (<[id := Creation_RetiringStartup kind address route (Startup_Raw slots)]> rows, order)),
       match o with
       | Ready _ => Ready slots
       | Pending => Pending
       | Panicked payload => Panicked payload
       | Violated => Violated
       end)
  | _ => ((w, (rows, order)), Violated)
  end.

(** What the assertions of a private startup demand of its lanes. *)
Definition nothing_received (received_interpretation : option (Interpretation Settlements))
    (received_source : option (SourceCustody Settlements)) (source_index : option nat)
    (acquired_ingress : option Ingress) : bool :=
  is_none received_interpretation && is_none received_source && is_none source_index &&
  is_none acquired_ingress.

Definition is_nil {A} (l : list A) : bool := match l with [] => true | _ :: _ => false end.

Definition private_lanes (capability_failures : list JoinError) (unread : option ())
    (control : list Event) (user : list Retired) (descendants : Descendants) : bool :=
  is_nil capability_failures && is_none unread && is_nil control && is_nil user &&
  is_nil (descendants_of descendants).1.

Definition private_custody (c : SpawnCustody (B := B) (BError := BError)) : bool :=
  nothing_received (spawn_received_interpretation c) (spawn_received_source c)
    (spawn_source_index c) (spawn_acquired_ingress c) &&
  private_lanes (spawn_capability_failures c) (spawn_unread_owner_cancellation c)
    (spawn_control c) (spawn_user c) (spawn_descendants c).

(** The row of a startup that failed. *)
Definition startup_facts primary (c : SpawnCustody (B := B) (BError := BError)) (receipts : SpawnReceipts) :
    StartupFacts (BError := BError) :=
  {| primary_failure := primary; additional_failures := spawn_additional_failures c;
     terminal_report := spawn_terminal_report c;
     startup_retirement_failures := spawn_retirement_failures c;
     startup_notification := spawn_termination_notification receipts;
     startup_report := spawn_retirement_report receipts |}.

(** [routed_creation]. *)
Definition routed_creation (request : Routed) (child : B) : Routed :=
  {| routed_id := routed_id request; routed_kind := routed_kind request;
     routed_route := routed_route request; routed_child := child |}.

Definition claim_rejection (error : ClaimError) : CreationRejection AllocationRejection :=
  if claim_in_use error then Creation_Allocation already_claimed else Creation_EnvironmentFailed.

(** The arms for a failed startup: the row that is recorded, and the settlement;
    [None] are the assertions and the arm for every other phase. *)
Definition rejected_startup (request : Routed) (address : Addr)
    (error : SpawnError (B := B) (BError := BError) (AllocationRejection := AllocationRejection)) :
    option (Row * Settlement) :=
  let row facts := Creation_StartupRejected (routed_kind request) address (routed_route request) facts in
  match error with
  | Spawn_AllocationRejected behavior reason =>
      Some (Creation_Rejected,
            Settled_Rejected (routed_creation request behavior) (Creation_Allocation reason))
  | Spawn_InitializationRejected c error receipts =>
      if private_custody c then
        Some (row (startup_facts None c receipts),
              Settled_Accepted (Creation_InitializationRejected
                (routed_creation request (spawn_behavior c)) error))
      else panic!
  | Spawn_InitializationPanicked c payload receipts =>
      if private_custody c then
        Some (row (startup_facts (Some (Error_InitializationPanicked payload)) c receipts),
              Settled_Accepted (Creation_InitializationPanicked
                (routed_creation request (spawn_behavior c))))
      else panic!
  | Spawn_HostRejected c (Progress_Original initialization) error receipts =>
      if private_custody c then
        Some (row (startup_facts (Some (Error_Activation (Rejection_Address error))) c receipts),
              Settled_Accepted (Creation_HostRejected
                (routed_creation request (spawn_behavior c)) initialization (claim_rejection error)))
      else panic!
  | Spawn_BindingAbandoned c (Progress_Original initialization) receipts =>
      if private_custody c then
        Some (row (startup_facts (Some (Error_Activation Rejection_BindingAbandoned)) c receipts),
              Settled_Accepted (Creation_HostRejected
                (routed_creation request (spawn_behavior c)) initialization Creation_EnvironmentFailed))
      else panic!
  | Spawn_Unpublished
      (Exec_ActivationPanicked behavior (Residual_Uncommitted (Progress_Original initialization) lanes)
         additional payload) receipts =>
      if tasks_is_empty (lane_activation_tasks lanes)
         && private_custody (spawn_custody behavior lanes additional) then
        Some (row (startup_facts (Some (Error_ActivationPanicked payload))
                     (spawn_custody behavior lanes additional) receipts),
              Settled_Accepted (Creation_HostRejected
                (routed_creation request behavior) initialization Creation_EnvironmentFailed))
      else panic!
  | _ => panic!
  end.

(** A startup that ended without its commitment: its task is waited for. *)
Definition failed_creation (request : Routed) (address : Addr) : Establish Settlement :=
  row ← remove_row (routed_id request);
  match row with
  | Creation_Starting _ _ _ _ _ task =>
      record_row (routed_id request)
        (Creation_RetiringStartup (routed_kind request) address (routed_route request)
           (Startup_Raw {| slot_owned := task; slot_received := None; slot_notification := None |}));;
      slots ← finish_row (routed_id request);
      match slot_received slots, slot_notification slots with
      | Some (Err _), _ =>
          mret (Settled_Accepted (Creation_Unavailable (routed_id request) (routed_kind request)))
      | Some (Ok outcome), Some notification =>
          let report := from_joined (Ok outcome : Result Outcome_ JoinError) notification in
          remove_row (routed_id request);;
          match rejected_startup request address
                  (spawn_from_local outcome
                     {| spawn_termination_notification := notification;
                        spawn_retirement_report := report |}) with
          | Some (row, settlement) => record_row (routed_id request) row;; mret settlement
          | None => violated
          end
      | _, _ => violated
      end
  | _ => violated
  end.

(** The child has committed: its row is established before it is acknowledged. *)
Definition installed_creation (request : Routed) (address : Addr) (actor : ActorRef) (binding : Binding) :
    Establish Settlement :=
  row ← remove_row (routed_id request);
  match row with
  | Creation_Starting _ _ _ _ control (Some task) =>
      '(publisher, retirement) ← perform retirement_pair;
      origin ← on_host (make_origin address (routed_route request) (routed_id request) (routed_kind request));
      task ← perform (project_task task origin publisher);
      record_row (routed_id request)
        (Creation_Established (routed_kind request) (routed_route request) actor control
           {| slot_owned := Some task; slot_received := None; slot_notification := None |} retirement);;
      acknowledged ← perform (binding_send binding);
      match acknowledged with
      | Ok _ =>
          mret (Settled_Accepted (Creation_IsEstablished (routed_id request) (routed_kind request)
            (InstalledActor_new actor control retirement)))
      | Err _ => violated
      end
  | _ => violated
  end.

(** [establish_native_child]. *)
Definition establish_native_child (request : Routed) : Establish Settlement :=
  recorded ← look (λ r, r.1 !! routed_id request);
  match recorded with
  | Some _ => mret (Settled_Rejected request Creation_CorrelationAlreadyRecorded)
  | None =>
      allocated ← perform allocate_address;
      match allocated with
      | Err reason =>
          record_row (routed_id request) Creation_Rejected;;
          mret (Settled_Rejected (routed_creation request (routed_child request)) (Creation_Allocation reason))
      | Ok address =>
          '(startup, control, task) ← perform (spawn_child address (routed_child request));
          record_row (routed_id request)
            (Creation_Starting (routed_kind request) address (routed_route request) startup control (Some task));;
          started ← startup_of (routed_id request);
          match started with
          | Ok (actor, binding) => installed_creation request address actor binding
          | Err _ => failed_creation request address
          end
      end
  end.

(** ** The registry *)

Context {law : ChildHostLaw}.
Implicit Types (id : CreationId) (row : Row) (r : Registry).

(** The order names exactly the rows that own a task or a fact, each once, and each
    of them is one that retirement can go on with. *)
Record registry_ok (r : Registry) : Prop := {
  registry_order : NoDup r.2;
  registry_rows id : id ∈ r.2 → ∃ row, r.1 !! id = Some row ∧ owns_facts row = true ∧ row_ok row;
  registry_owned id row : r.1 !! id = Some row → owns_facts row = true → id ∈ r.2
}.

(** The same while the row of [id] is taken out. *)
Record registry_but (id : CreationId) (r : Registry) : Prop := {
  but_order : NoDup r.2;
  but_gone : r.1 !! id = None;
  but_rows id' : id' ≠ id → id' ∈ r.2 →
    ∃ row, r.1 !! id' = Some row ∧ owns_facts row = true ∧ row_ok row;
  but_owned id' row : r.1 !! id' = Some row → owns_facts row = true → id' ∈ r.2
}.

Lemma registry_unrecorded id r : registry_ok r → r.1 !! id = None → registry_but id r.
Proof. intros [? ? ?] Hid. by split; eauto. Qed.

Lemma registry_removed id r : registry_ok r → registry_but id (delete id r.1, r.2).
Proof.
  intros [Ho Hr Hw]. split; cbn; [done|by rewrite lookup_delete_eq| |].
  - intros id' Hne Hid. rewrite lookup_delete_ne by done. by apply Hr.
  - intros id' row. rewrite lookup_delete_Some. intros [_ Hrow]. by eapply Hw.
Qed.

Lemma registry_recorded id row r :
  registry_but id r → (owns_facts row = true → row_ok row) →
  ∃ r', record_child_creation id row r = Some r' ∧ registry_ok r' ∧ r'.1 = <[id := row]> r.1.
Proof.
  intros [Ho Hg Hr Hw] Hrow. unfold record_child_creation. rewrite Hg. eexists. split; [done|].
  split; [|done]. destruct r as [rows order]. cbn [fst snd] in *. split; cbn [fst snd].
  - destruct (owns_facts row); [|by apply NoDup_filter]. case_bool_decide; [done|].
    apply NoDup_app. split_and!; [done| |apply NoDup_singleton]. by intros x Hx ->%list_elem_of_singleton.
  - intros id' Hid'. destruct (decide (id' = id)) as [->|Hne].
    + exists row. rewrite lookup_insert_eq. split; [done|]. destruct (owns_facts row) eqn:Hf; [by auto|].
      apply list_elem_of_filter in Hid' as [? _]. done.
    + rewrite lookup_insert_ne by done. apply Hr; [done|]. destruct (owns_facts row).
      * case_bool_decide; [done|]. apply elem_of_app in Hid' as [?|?%list_elem_of_singleton]; done.
      * by apply list_elem_of_filter in Hid' as [_ ?].
  - intros id' row'. destruct (decide (id' = id)) as [->|Hne].
    + rewrite lookup_insert_eq. intros [= <-] ->. case_bool_decide; [done|]. apply elem_of_app. right. by left.
    + rewrite lookup_insert_ne by done. intros Hl Hf. specialize (Hw _ _ Hl Hf).
      destruct (owns_facts row).
      * case_bool_decide; [done|]. apply elem_of_app. by left.
      * by apply list_elem_of_filter.
Qed.

(** A row that is replaced in place stays in the order. *)
Lemma registry_replaced id row row' r :
  registry_ok r → r.1 !! id = Some row → owns_facts row = true → owns_facts row' = true → row_ok row' →
  registry_ok (<[id := row']> r.1, r.2).
Proof.
  intros [Ho Hr Hw] Hrow Hf Hf' Hok. split; cbn; [done| |].
  - intros id' Hid. destruct (decide (id' = id)) as [->|Hne].
    + exists row'. by rewrite lookup_insert_eq.
    + rewrite lookup_insert_ne by done. by apply Hr.
  - intros id' row2. destruct (decide (id' = id)) as [->|Hne]; [by intros _ _; eapply Hw|].
    rewrite lookup_insert_ne by done. apply Hw.
Qed.

(** *** The operations on a row *)

Lemma wp_record_row id row w r :
  registry_but id r → (owns_facts row = true → row_ok row) →
  wp (record_row id row) (λ '(w', r') o,
    w' = w ∧ o = Ready () ∧ registry_ok r' ∧ r'.1 = <[id := row]> r.1) (w, r).
Proof.
  intros Hb Hrow. unfold wp, record_row. by destruct (registry_recorded id row r Hb Hrow) as (r' & -> & ? & ?).
Qed.

Lemma wp_remove_row id row w r :
  registry_ok r → r.1 !! id = Some row →
  wp (remove_row id) (λ '(w', r') o,
    w' = w ∧ o = Ready row ∧ registry_but id r' ∧ r'.1 = delete id r.1) (w, r).
Proof.
  intros Hok Hrow. destruct r as [rows order]. unfold wp, remove_row. cbn in *. rewrite Hrow.
  split_and!; try done. by apply (registry_removed id (rows, order)).
Qed.

(** The slots of a task that is waited for. *)
Definition awaiting (s : RawSlots) : Prop := slots_ok s ∧ joined_slots raw_join s.

Lemma wp_finish_raw w s :
  awaiting s →
  wp finish_raw (λ '(_, s') o,
    awaiting s' ∧ is_Violated o = false ∧ (is_Ready o = true → slot_owned s' = None)) (w, s).
Proof using law.
  intros [Hs Hj]. unfold finish_raw.
  assert (is_Violated (receive_finish raw_join raw_notice child_cancel_send child_cancel_drop raw_drop idle
    (child_polls w) (w, s)).2 = false) as Hq.
  { unfold receive_finish. rewrite bind_eq. cbn [look]. destruct (settled s); [done|].
    apply poll_finish_quiet; [apply raw_join_quiet|].
    intros receiver. apply quiet_bind; [apply raw_receipt_quiet|done]. }
  assert (wp (receive_finish raw_join raw_notice child_cancel_send child_cancel_drop raw_drop idle
    (child_polls w)) (slots_after s (λ _ s', slot_owned s' = None)) (w, s)) as Hw.
  { unfold receive_finish. do 2 wp_step. destruct (settled s) eqn:Hd; [|by apply poll_finish_slots].
    wp_step. split_and!; try done. by apply settled_owned. }
  pose proof (receive_finish_joined raw_join raw_notice child_cancel_send child_cancel_drop raw_drop idle
    (child_polls w) w s Hj) as Hj'.
  unfold wp in *. destruct (receive_finish _ _ _ _ _ _ _ _) as [[w' s'] o]. cbn in *.
  destruct Hw as (Hs' & _ & Ho). split_and!; try done. by destruct o.
Qed.

Lemma wp_finish_row id kind address route s w r :
  registry_ok r → r.1 !! id = Some (Creation_RetiringStartup kind address route (Startup_Raw s)) →
  awaiting s →
  wp (finish_row id) (λ '(_, r') o, ∃ s',
    registry_ok r' ∧ awaiting s' ∧ is_Violated o = false ∧
    r'.1 = <[id := Creation_RetiringStartup kind address route (Startup_Raw s')]> r.1 ∧
    ∀ x, o = Ready x → x = s' ∧ slot_owned s' = None) (w, r).
Proof using law.
  intros Hok Hrow Hs. destruct r as [rows order]. unfold wp, finish_row. cbn [fst] in Hrow. rewrite Hrow.
  pose proof (wp_finish_raw w s Hs) as Hf. unfold wp in Hf.
  destruct (finish_raw (w, s)) as [[w' s'] o]. cbn [fst snd] in *. destruct Hf as (Hs' & Hv & Ho).
  exists s'. split.
  { apply (registry_replaced id _ _ (rows, order) Hok Hrow); [done..|apply Hs']. }
  split_and!; [done|by destruct o|done|]. destruct o as [[]| |payload|]; try done. intros ? [= <-]. auto.
Qed.

(** *** What a startup may end with *)

(** The phases in which the child of a closed startup ends: it never became active
    and its lanes are empty. *)
Definition private_outcome (outcome : Outcome_) : bool :=
  match outcome with
  | Exec_BehaviorFailed b (Residual_Prepared lanes) l _
  | Exec_InitializationPanicked b (Residual_Prepared lanes) l _
  | Exec_ActivationFailed b (Residual_Uncommitted (Progress_Original _) lanes) l
      (Rejection_Address _ | Rejection_BindingAbandoned)
  | Exec_ActivationPanicked b (Residual_Uncommitted (Progress_Original _) lanes) l _ =>
      tasks_is_empty (lane_activation_tasks lanes) && private_custody (spawn_custody b lanes l)
  | _ => false
  end.

(** What the settlement says is what the row records. *)
Definition agrees (request : Routed) (row : Row) (settlement : Settlement) : Prop :=
  let returned creation :=
    (routed_id creation, routed_kind creation, routed_route creation)
      = (routed_id request, routed_kind request, routed_route request) in
  let rejected primary := ∃ address facts,
    row = Creation_StartupRejected (routed_kind request) address (routed_route request) facts ∧
    primary (primary_failure facts) in
  match settlement with
  | Settled_Rejected item (Creation_Allocation _) => row = Creation_Rejected ∧ item = request
  | Settled_Accepted (Creation_IsEstablished id kind actor) =>
      (id, kind) = (routed_id request, routed_kind request) ∧
      ∃ slots task,
        row = Creation_Established kind (routed_route request) (installed_recipient actor)
          (installed_control actor) slots (installed_retirement actor) ∧
        slot_owned slots = Some task ∧ is_Some (owned_task task)
  | Settled_Accepted (Creation_Unavailable id kind) =>
      (id, kind) = (routed_id request, routed_kind request) ∧
      ∃ address slots error,
        row = Creation_RetiringStartup kind address (routed_route request) (Startup_Raw slots) ∧
        slot_received slots = Some (Err error)
  | Settled_Accepted (Creation_InitializationRejected creation _) =>
      returned creation ∧ rejected (λ primary, primary = None)
  | Settled_Accepted (Creation_InitializationPanicked creation) =>
      returned creation ∧ rejected (λ primary, ∃ payload, primary = Some (Error_InitializationPanicked payload))
  | Settled_Accepted (Creation_HostRejected creation _ _) =>
      returned creation ∧ rejected (λ primary,
        (∃ error, primary = Some (Error_Activation error)) ∨
        ∃ payload, primary = Some (Error_ActivationPanicked payload))
  | _ => False
  end.

(** Exactly these phases have an arm, and its row agrees with its settlement. *)
Lemma rejected_startup_private request address outcome receipts :
  match rejected_startup request address (spawn_from_local outcome receipts) with
  | Some (row, settlement) =>
      private_outcome outcome = true ∧ agrees request row settlement ∧ (owns_facts row = true → row_ok row)
  | None => private_outcome outcome = false
  end.
Proof.
  destruct outcome; try done; unfold spawn_from_local, private_outcome, startup_tasks.
  all: repeat first
    [ progress cbn
    | match goal with
      | |- context [match ?x with _ => _ end] => is_var x; destruct x
      | |- context [tasks_is_empty ?t] => destruct (tasks_is_empty t) eqn:?
      | |- context [private_custody ?c] => destruct (private_custody c) eqn:?
      end
    | done ].
  all: split_and!; try done; do 2 eexists; split; [reflexivity|]; cbn; eauto.
Qed.

(** ** The operation *)

(** What this crate launches is an owner of its task, and a startup receipt and an
    origin break nothing: they are the receiver of a channel, and a record. *)
Class CreationLaw := {
  spawned_live address child w : is_Some (owned_task (spawn_child address child w).2.2);
  projected_live task origin publisher w : is_Some (owned_task (project_task task origin publisher w).2);
  startup_quiet startup : quiet (await_startup startup);
  origin_returns address route id kind w : ∃ w' origin, make_origin address route id kind w = (w', Ready origin)
}.

(** What an assertion of the operation is broken by: a child that does not wait for
    its binding any more, or one whose task ended in another phase. *)
Definition startup_broken : Prop :=
  (∃ binding w w', binding_send binding w = (w', Err ())) ∨
  ∃ outcome, joined_by raw_join (Ok outcome) ∧ private_outcome outcome = false.

(** A row whose startup is not decided. *)
Definition startup_row (row : Row) : bool :=
  match row with Creation_Starting _ _ _ _ _ _ | Creation_RetiringStartup _ _ _ _ => true | _ => false end.

(** What holds after an attempt to create the unrecorded child of a request. *)
Definition created (request : Routed) r r' (o : Outcome Panic Settlement) : Prop :=
  (∀ id, id ≠ routed_id request → r'.1 !! id = r.1 !! id) ∧
  match o with
  | Ready settlement => registry_ok r' ∧ ∃ row, r'.1 !! routed_id request = Some row ∧ agrees request row settlement
  | Pending | Panicked _ =>
      registry_ok r' ∧ ∃ row, r'.1 !! routed_id request = Some row ∧ startup_row row = true
  | Violated => startup_broken
  end.

Context {creation_law : CreationLaw}.

Lemma wp_failed_creation request address w r kind startup control task route n :
  registry_ok r → r.1 !! routed_id request = Some (Creation_Starting kind n route startup control (Some task)) →
  is_Some (owned_task task) →
  wp (failed_creation request address) (λ '(_, r') o, created request r r' o) (w, r).
Proof.
  intros Hok Hrow Ht. unfold failed_creation. wp_step.
  eapply wp_mono; [by eapply wp_remove_row|]. intros [w1 r1] o (-> & -> & Hb & Hr1). cbn [wp_then].
  wp_step. eapply wp_mono; [apply (wp_record_row _ _ _ _ Hb)|].
  { intros _. cbn. split; [done|]. cbn. destruct Ht as [? ->]. by split; [|intros [? [=]]]. }
  intros [w2 r2] o (-> & -> & Hok2 & Hr2). cbn [wp_then]. wp_step.
  eapply wp_mono; [eapply wp_finish_row; [exact Hok2|by rewrite Hr2, lookup_insert_eq|]|].
  { split; [|by intros ?]. cbn. destruct Ht as [? ->]. by split; [|split; [|intros [? [=]]]]. }
  intros [w3 r3] o (s3 & Hok3 & [Hs3 Hj3] & Hv3 & Hr3 & Ho3).
  assert (∀ id, id ≠ routed_id request → r3.1 !! id = r.1 !! id) as Hothers.
  { intros id Hne. by rewrite Hr3, lookup_insert_ne, Hr2, lookup_insert_ne, Hr1, lookup_delete_ne. }
  assert (r3.1 !! routed_id request =
    Some (Creation_RetiringStartup (routed_kind request) address (routed_route request) (Startup_Raw s3)))
    as Hrow3 by by rewrite Hr3, lookup_insert_eq.
  destruct o as [slots| |payload|]; cbn [wp_then]; [|split; [done|]; by eauto..|done].
  destruct (Ho3 slots eq_refl) as [-> Howner]. unfold slots_ok in Hs3. rewrite Howner in Hs3.
  destruct Hs3 as [[joined Hjoined] [notification ->]]. rewrite Hjoined. destruct joined as [outcome|error].
  2: { wp_step. split; [done|]. split; [done|]. eexists. split; [done|]. split; [done|]. by do 3 eexists. }
  wp_step. eapply wp_mono; [by eapply wp_remove_row|]. intros [w4 r4] o (-> & -> & Hb4 & Hr4). cbn [wp_then].
  match goal with |- context [rejected_startup ?q ?a (spawn_from_local ?o ?n)] =>
    pose proof (rejected_startup_private q a o n) as Hp; destruct (rejected_startup _ _ _) as [[row settlement]|] end.
  - destruct Hp as (_ & Ha & Hrow'). wp_step. eapply wp_mono; [by apply (wp_record_row _ _ _ _ Hb4)|].
    intros [w5 r5] o (-> & -> & Hok5 & Hr5). cbn [wp_then]. wp_step. split.
    + intros id Hne. rewrite Hr5, lookup_insert_ne, Hr4, lookup_delete_ne by done. by apply Hothers.
    + split; [done|]. exists row. by rewrite Hr5, lookup_insert_eq.
  - split.
    + intros id Hne. rewrite Hr4, lookup_delete_ne by done. by apply Hothers.
    + right. exists outcome. split; [|done]. by apply Hj3.
Qed.

Lemma wp_installed_creation request address actor binding w r kind startup control task route n :
  registry_ok r → r.1 !! routed_id request = Some (Creation_Starting kind n route startup control (Some task)) →
  wp (installed_creation request address actor binding) (λ '(_, r') o, created request r r' o) (w, r).
Proof.
  intros Hok Hrow. unfold installed_creation. wp_step.
  eapply wp_mono; [by eapply wp_remove_row|]. intros [w1 r1] o (-> & -> & Hb & Hr1). cbn [wp_then].
  do 2 wp_step. destruct x as [publisher retirement]. wp_step. apply wp_on_host.
  destruct (origin_returns address (routed_route request) (routed_id request) (routed_kind request) w0)
    as (w2 & origin & Ho). unfold wp at 1. rewrite Ho. cbn [fst snd wp_then].
  do 2 wp_step. rename x into projected. pose proof (projected_live task origin publisher w2) as Hlive.
  rewrite Hw0 in Hlive. cbn [snd] in Hlive. wp_step.
  eapply wp_mono; [apply (wp_record_row _ _ _ _ Hb)|].
  { intros _. cbn. destruct Hlive as [? ->]. by split; [|split; [|intros [? [=]]]]. }
  intros [w4 r4] o (-> & -> & Hok4 & Hr4). cbn [wp_then]. do 2 wp_step.
  assert (∀ id, id ≠ routed_id request → r4.1 !! id = r.1 !! id) as Hothers.
  { intros id Hne. by rewrite Hr4, lookup_insert_ne, Hr1, lookup_delete_ne. }
  destruct x as [[]|[]].
  - wp_step. split; [done|]. split; [done|]. eexists. split; [by rewrite Hr4, lookup_insert_eq|].
    split; [done|]. by do 2 eexists.
  - split; [done|]. left. by do 3 eexists.
Qed.

Lemma wp_establish request w r :
  registry_ok r →
  wp (establish_native_child request) (λ '(_, r') o,
    match r.1 !! routed_id request with
    | Some _ => r' = r ∧ o = Ready (Settled_Rejected request Creation_CorrelationAlreadyRecorded)
    | None => created request r r' o
    end) (w, r).
Proof.
  intros Hok.
  unfold establish_native_child. do 2 wp_step. destruct (r.1 !! routed_id request) as [row|] eqn:Hg; [by wp_step|].
  pose proof (registry_unrecorded _ _ Hok Hg) as Hb. do 2 wp_step. destruct x as [address|reason].
  2: { wp_step. eapply wp_mono; [by apply (wp_record_row _ _ _ _ Hb)|].
    intros [w1 r1] o (-> & -> & Hok1 & Hr1). cbn [wp_then]. wp_step. split.
    - intros id Hne. by rewrite Hr1, lookup_insert_ne.
    - split; [done|]. exists Creation_Rejected. rewrite Hr1, lookup_insert_eq. by destruct request. }
  do 2 wp_step. pose proof (spawned_live address (routed_child request) w0) as Hlive. rewrite Hw0 in Hlive.
  destruct x as [[startup control] task]. cbn [snd] in Hlive. wp_step.
  eapply wp_mono; [apply (wp_record_row _ _ _ _ Hb); intros _; by exists task|].
  intros [w2 r2] o (-> & -> & Hok2 & Hr2). cbn [wp_then]. wp_step.
  assert (r2.1 !! routed_id request = Some (Creation_Starting (routed_kind request) address
    (routed_route request) startup control (Some task))) as Hrow by by rewrite Hr2, lookup_insert_eq.
  assert (∀ r' o, created request r2 r' o → created request r r' o) as Hcreated.
  { intros r' o [Hothers Ho]. split; [|done]. intros id Hne. by rewrite Hothers, Hr2, lookup_insert_ne. }
  unfold startup_of. do 2 wp_step. rewrite Hrow. apply wp_on_host. unfold wp at 1.
  pose proof (startup_quiet startup w1) as Hq.
  destruct (await_startup startup w1) as [w3 [[[actor binding]|error]| |payload|]]; cbn [fst snd wp_then]; try done.
  - eapply wp_mono; [by eapply wp_installed_creation|]. intros [w4 r4] o. apply Hcreated.
  - eapply wp_mono; [by eapply wp_failed_creation|]. intros [w4 r4] o. apply Hcreated.
  - apply Hcreated. split; [done|]. split; [done|]. by eexists.
  - apply Hcreated. split; [done|]. split; [done|]. by eexists.
Qed.

(** No row awaits a receipt alone. *)
Definition registry_going (r : Registry) : Prop := ∀ id row, r.1 !! id = Some row → row_going row.

Lemma created_going request r r' o :
  created request r r' o → is_Violated o = false → registry_going r → registry_going r'.
Proof.
  intros [Hothers Ho] Hv Hg id row Hrow. destruct (decide (id = routed_id request)) as [->|Hne].
  2: { eapply Hg. by rewrite <- Hothers. }
  assert ((∃ row, r'.1 !! routed_id request = Some row ∧ startup_row row = true) → row_going row) as Hst.
  { intros (row' & Hrow' & Hs). assert (row' = row) as -> by congruence. by destruct row. }
  destruct o as [settlement| |payload|]; [|by apply Hst, Ho..|done].
  destruct Ho as [Hok (row' & Hrow' & Ha)]. assert (row' = row) as -> by congruence.
  destruct row as [| |kind route endpoint control slots retirement| |]; try done.
  destruct (registry_rows _ Hok (routed_id request)) as (row2 & Hrow2 & _ & Hs); [by eapply registry_owned|].
  rewrite Hrow in Hrow2. injection Hrow2 as <-. cbn in Hs |- *.
  unfold agrees in Ha. destruct settlement as [[]|item []| |]; try done;
    try (by destruct Ha as [_ (? & ? & ? & ?)]); try (by destruct Ha); try (by destruct Ha as [_ (? & ? & ? & ? & ?)]).
  destruct Ha as (_ & slots' & task & [= _ _ _ _ <- _] & Hslot & Ht).
  unfold slots_ok in Hs. rewrite Hslot in Hs. intros Hr. apply Hs in Hr. rewrite Hr in Ht. by destruct Ht.
Qed.

(** C12: Creating a child never loses one: whether it is established, rejected,
    unwinds or is dropped at any wait (its row is then still that of its startup), no
    other row changes, and the registry keeps
    naming exactly the rows that own a task or a fact, each of which retirement can
    go on with.  What the settlement says is what the row records, a rejected request
    comes back, and a correlation that is recorded already changes nothing.  An
    assertion breaks only if the child stopped waiting for its binding or its task
    ended in a phase that no closed startup has. *)
Theorem creation_keeps_registry request w r :
  registry_ok r →
  let '((_, r'), o) := establish_native_child request (w, r) in
  match r.1 !! routed_id request with
  | Some _ => r' = r ∧ o = Ready (Settled_Rejected request Creation_CorrelationAlreadyRecorded)
  | None => created request r r' o
  end.
Proof.
  intros Hok. pose proof (wp_establish request w r Hok) as Hw. unfold wp in Hw.
  by destruct (establish_native_child request (w, r)) as [[w' r'] o].
Qed.
End creation.

(** ** In the product of occurrences *)

(** [ChildCreationAt]: the loan of one registry of the product; [None] is a tail
    that is gone. *)
Class ChildCreationAt (Bindings Registry : Type) := {
  creation_namespace : Bindings → option Registry;
  put_namespace : Registry → Bindings → Bindings
}.

(** A registry of an actor in service: well formed, with no row that awaits a
    receipt alone. *)
Definition registry_fit `{TY : LocalTypes, LH : LaunchHost, !TaskSet World Tasks Event JoinError}
    {B BError Root CreationId CreationKind Origin : Type} `{!EqDecision CreationId, !Countable CreationId}
    {KH : ChildHost B BError Root CreationId CreationKind Origin}
    (r : gmap CreationId (CreationBinding (CH := KH)) * list CreationId) : Prop :=
  registry_ok r ∧ registry_going r.

(** Bindings whose registries are all fit, and the actor's loan of one. *)
Class Registered (Bindings : Type) := registered : Bindings → Prop.

Class NamespaceLaw {Bindings Registry : Type} `{!ChildCreationAt Bindings Registry, !Registered Bindings}
    (ok : Registry → Prop) :=
  namespace_registered b : registered b → ∃ r, creation_namespace b = Some r ∧ ok r ∧
    ∀ r', ok r' → registered (put_namespace r' b).

#[export] Instance no_children_registered : Registered NoChildBindings := λ _, True.

Section cursors.
Context {TY : LocalTypes} {LH : LaunchHost} `{!TaskSet World Tasks Event JoinError}.
Context {B BError Root CreationId CreationKind Origin Failure Tail : Type}.
Context `{!EqDecision CreationId, !Countable CreationId}.
Context {KH : ChildHost B BError Root CreationId CreationKind Origin} {law : ChildHostLaw}.

Local Abbreviation Node := (@ChildBinding _ _ B BError Root CreationId CreationKind Origin _ _ KH Tail) (only parsing).
Local Abbreviation Registry := (gmap CreationId (CreationBinding (CH := KH)) * list CreationId)%type (only parsing).

#[local] Instance creation_at_head : ChildCreationAt Node Registry := {|
  creation_namespace n := Some (creations n, creation_order n);
  put_namespace r n :=
    {| creations := r.1; creation_order := r.2; actors := actors n; tail := tail n |}
|}.
#[local] Instance creation_at_tail {R : Type} `{!ChildCreationAt Tail R} : ChildCreationAt Node R := {|
  creation_namespace n := tail n ≫= creation_namespace;
  put_namespace r n := with_tail (put_namespace r <$> tail n) n
|}.

#[local] Instance child_binding_registered `{!Registered Tail} : Registered Node := λ n,
  registry_fit (creations n, creation_order n) ∧ ∃ t, tail n = Some t ∧ registered t.

Lemma head_namespace `{!Registered Tail} : NamespaceLaw (Bindings := Node) registry_fit.
Proof. intros n [Hok Ht]. eexists. split; [done|]. split; [done|]. intros [rows order] Hr. by split. Qed.

Lemma tail_namespace {R : Type} `{!ChildCreationAt Tail R, !Registered Tail} (ok : R → Prop) :
  NamespaceLaw (Bindings := Tail) ok → NamespaceLaw (Bindings := Node) ok.
Proof.
  intros Hl n [Hok (t & Ht & Hr)]. destruct (Hl t Hr) as (r & Hn & Hokr & Hput). exists r. cbn. rewrite Ht.
  split_and!; try done. intros r' Hr'. split; [done|]. exists (put_namespace r' t). split; [done|]. by apply Hput.
Qed.

(** Registered bindings are ones that retirement can go on with. *)
Lemma registered_all_ok `{!RetireChildTasks Panic World Root Failure Tail, !Registered Tail}
    `{!ChildTasksLaw (P := Panic) (W := World) (Root := Root) (Failure := Failure) (Bindings := Tail)} (n : Node) :
  (∀ t : Tail, registered t → bindings_ok t) → registered n → all_ok (Failure := Failure) n.
Proof.
  intros Hb [[[Ho Hr _] _] (t & Ht & Hreg)]. split.
  { split; [done|]. intros id Hid. destruct (Hr id Hid) as (row & ? & _ & ?). by exists row. }
  rewrite Ht. intros ? [= <-]. by apply Hb.
Qed.

Lemma registered_going `{!RetireChildTasks Panic World Root Failure Tail, !Registered Tail}
    `{!ChildTasksLaw (P := Panic) (W := World) (Root := Root) (Failure := Failure) (Bindings := Tail)} (n : Node) :
  calm_notice projected_receipt → (∀ t : Tail, registered t → going t) → registered n →
  node_going (Failure := Failure) n.
Proof.
  intros Hc Hg [[_ Hr] (t & Ht & Hreg)]. split_and!; [done|exact Hr|]. rewrite Ht. intros ? [= <-]. by apply Hg.
Qed.
End cursors.

Section establishing.
Context {TY : LocalTypes} {LH : LaunchHost} {CH : CapabilityHost} `{!TaskSet World Tasks Event JoinError}.
Context {B BError AllocationRejection Root CreationId CreationKind Origin Bindings : Type}.
Context `{!EqDecision CreationId, !Countable CreationId}.
Context {KH : ChildHost B BError Root CreationId CreationKind Origin} {NH : CreationHost KH AllocationRejection}.
Context {Grandchild ChildFailures : Type} (descendants_of : Descendants → list Grandchild * ChildFailures).
Local Abbreviation Registry := (gmap CreationId (CreationBinding (CH := KH)) * list CreationId)%type (only parsing).
Local Abbreviation Caps := (ApplicationCapabilities (CreationId := CreationId) (Bindings := Bindings)).
Context `{!ChildCreationAt Bindings Registry, !Registered Bindings}.

(** [EstablishChild::establish_child]. *)
Definition establish_child (request : RoutedCreation CreationId CreationKind B) :
    Async Panic (World * Caps)
      (ItemSettlement (RoutedCreation CreationId CreationKind B)
         (ChildCreationOutcome (KH := KH) (AllocationRejection := AllocationRejection))
         (CreationRejection AllocationRejection) Empty_set) := λ '(w, c),
  match child_bindings c with
  | None => ((w, c), Violated)
  | Some bindings =>
      match creation_namespace bindings with
      | None => ((w, c), Violated)
      | Some registry =>
          let '((w, registry), o) := establish_native_child descendants_of request (w, registry) in
          ((w, set_child_bindings (Some (put_namespace registry bindings)) c), o)
      end
  end.

Context {law : ChildHostLaw} {creation_law : CreationLaw}.

(** The bindings stay registered unless an assertion breaks. *)
Lemma establish_child_registers `{!NamespaceLaw (Bindings := Bindings) (Registry := Registry) registry_fit}
    request w c b :
  child_bindings c = Some b → registered b →
  let '((_, c'), o) := establish_child request (w, c) in
  is_Violated o = false →
  ∃ b', c' = set_child_bindings (Some b') c ∧ registered b'.
Proof.
  intros Hb Hreg. unfold establish_child. rewrite Hb.
  destruct (namespace_registered b Hreg) as (r & -> & [Hok Hgo] & Hput).
  pose proof (wp_establish descendants_of request w r Hok) as Hw. unfold wp in Hw.
  destruct (establish_native_child _ _ _) as [[w' r'] o]. intros Hv. exists (put_namespace r' b). split; [done|].
  apply Hput. destruct (r.1 !! routed_id request); [by destruct Hw as [-> _]|].
  split; [|exact (created_going descendants_of request r r' o Hw Hv Hgo)]. by destruct Hw as [_ Ho]; destruct o; destruct Ho.
Qed.

(** Only a broken startup breaks an assertion of the operation. *)
Lemma establish_child_unbroken `{!NamespaceLaw (Bindings := Bindings) (Registry := Registry) registry_fit}
    request w c b :
  child_bindings c = Some b → registered b → ¬ startup_broken descendants_of →
  is_Violated (establish_child request (w, c)).2 = false.
Proof.
  intros Hb Hreg Hun. unfold establish_child. rewrite Hb.
  destruct (namespace_registered b Hreg) as (r & -> & [Hok _] & _).
  pose proof (wp_establish descendants_of request w r Hok) as Hw. unfold wp in Hw.
  destruct (establish_native_child _ _ _) as [[w' r'] o]. cbn [fst snd] in *.
  destruct (r.1 !! routed_id request); [by destruct Hw as [_ ->]|].
  destruct Hw as [_ Ho]. by destruct o.
Qed.
End establishing.
