(* ===== verification/NativeInterpreter.v ===== *)
(** * The interpreter of a native actor

    [ActionInterpreter] of [crates/bombay/src/local/effects/mod.rs]: the
    [CommitActions] instance that local/environment.rs is run with.  It commits
    actions and offers settlements by the traversals of the behavior crate, which
    interpret one item after another on the actor's capabilities, and it retires
    them.

    An actor whose capabilities are served stays so whatever it does
    ([native_step]), so this interpreter keeps the contract of LocalLaw.v and a
    native actor hands over its complete retirement. *)

From stdpp Require Import gmap.
From S2P Require Import Prelude Driver DriverLaw DriverContract Host Assessment LocalIngress.
From S2P Require Import LocalEnvironment LocalLaw ActorOutcome ChildRetirement Endpoint ExactObservation.
From S2P Require Import Capabilities EffectItems ItemLaws ChildCreation.

Section interpreter.
Context {TY : LocalTypes} {LH : LaunchHost} {CH : CapabilityHost} {CreationId : Type}.
Context `{!TaskSet World Tasks Event JoinError}.
Context {Root Failure Bindings : Type} `{!RetireChildTasks Panic World Root Failure Bindings}.
Implicit Types w : World.

Local Abbreviation Caps := (ApplicationCapabilities (CreationId := CreationId) (Bindings := Bindings)).
Local Abbreviation native :=
  (native_types (CreationId := CreationId) (Root := Root) (Failure := Failure) (Bindings := Bindings)).
Local Abbreviation Retirement := (@CapabilityRetirement native) (only parsing).
Implicit Types (c : Caps) (i : option Caps).

(** ** The traversals of the behavior crate *)

(** [actions.become_] of actions and of their custody, [ActionSettlements::interpret]
    and [SourceSettlementCustody]. *)
Class Traversal := {
  actions_stop : Actions → bool;
  custody_stop : InterpretationCustody → bool;
  interpret_actions : Async Panic (World * (Caps * option Progress)) ();
  prepare_source : option SourceStage → option SourceStage;
  offer_next_to_source : Async Panic (World * (Caps * OfferCustody)) ();
  finish_source : option SourceStage → option SourceStage
}.

Context {TR : Traversal} {SC : @SettlementClass native}.
Context (assertion : Panic) (drop_rest : Caps → World → World * option Panic).

(** ** The instance *)

(** [ActionInterpreter]: [capabilities_mut] is its [expect]. *)
Definition capabilities_mut {A} (m : Async Panic (World * Caps) A) : Async Panic (World * option Caps) A :=
  λ '(w, i),
    match i with
    | None => ((w, None), Violated)
    | Some c => let '((w, c), o) := m (w, c) in ((w, Some c), o)
    end.

(** The service is created with the actor's spaces. *)
Definition native_initialize : Async Panic (World * option Caps) () :=
  capabilities_mut (λ '(w, c),
    let '((w, service), o) := services_initialize (actor_spaces c) (w, services c) in
    ((w, set_services service c), o)).

(** What the terminal report is kept for; [None] is a commitment that is done. *)
Definition terminal_disposition (progress : option Progress) : option TerminalReportDisposition :=
  let disposition (stop : bool) := Some (if stop then Report_Retain else Report_Discard) in
  match progress with
  | Some (Progress_Original actions) => disposition (actions_stop actions)
  | Some (Progress_Interpreting custody) => disposition (custody_stop custody)
  | Some (Progress_Completed _) | None => None
  end.

Definition status_failures (status : SettlementStatus) : ActorFailureAssessment :=
  match status with
  | Status_Accepted => NoFailuresFound
  | Status_Rejected | Status_Corrupt => FailuresFound
  end.

(** A completed interpretation is classified, which may unwind. *)
Definition assess_operations (progress : option Progress) c : Caps + Panic :=
  match progress with
  | Some (Progress_Completed settlement) =>
      match @interpretation_status native SC settlement with
      | inl status =>
          inl (set_operation_failures (combine_failures (operation_failures c) (status_failures status)) c)
      | inr payload => inr payload
      end
  | _ => inl c
  end.

(** [finish_terminal_reports]. *)
Definition finish_terminal_reports (disposition : TerminalReportDisposition) c : Caps :=
  set_terminal_reports (reports_finish disposition (terminal_reports c)) c.

Definition native_commit : Async Panic (World * (option Caps * option Progress)) () := λ '(w, (i, progress)),
  match terminal_disposition progress, i with
  | None, _ => ((w, (i, progress)), Ready ())
  | Some _, None => ((w, (None, progress)), Violated)
  | Some disposition, Some c =>
      let '((w, (c, progress)), o) := interpret_actions (w, (c, progress)) in
      match o with
      | Ready _ =>
          match assess_operations progress c with
          | inl c => ((w, (Some (finish_terminal_reports disposition c), progress)), Ready ())
          | inr payload => ((w, (Some c, progress)), Panicked payload)
          end
      | o => ((w, (Some c, progress)), o)
      end
  end.

Definition native_offer_next : Async Panic (World * (option Caps * option SourceStage)) () := λ '(w, (i, stage)),
  match prepare_source stage, i with
  | Some (Source_Offering custody), None => ((w, (None, Some (Source_Offering custody))), Violated)
  | Some (Source_Offering custody), Some c =>
      let '((w, (c, custody)), o) := offer_next_to_source (w, (c, custody)) in
      match o with
      | Ready _ => ((w, (Some c, finish_source (Some (Source_Offering custody)))), Ready ())
      | o => ((w, (Some c, Some (Source_Offering custody))), o)
      end
  | stage, _ => ((w, (i, finish_source stage)), Ready ())
  end.

(** The capabilities are there as long as the environment polls them; without them
    both would unwind. *)
Definition native_deadline i : option Caps * option Instant :=
  match i with
  | Some c => let '(c, deadline) := capabilities_next_deadline c in (Some c, deadline)
  | None => (None, None)
  end.
Definition native_pop_due i (now : Instant) : option Caps * option Event :=
  match i with
  | Some c => let '(c, due) := capabilities_pop_due c now in (Some c, due)
  | None => (None, None)
  end.

(** The interpreter goes away once its capabilities did and their retirement is
    outside. *)
Definition native_receive_retirement :
    Async Panic (World * (option (option Caps) * option Retirement)) () := λ '(w, (interpreter, received)),
  match interpreter with
  | None => ((w, (None, received)), Ready ())
  | Some i =>
      let '((w, (i, received)), o) := receive_capability_retirement assertion drop_rest (w, (i, received)) in
      ((w, (match o, i, received with Ready _, None, Some _ => None | _, _, _ => Some i end, received)), o)
  end.

#[export] Instance native_commits : @CommitActions native :=
  @Build_CommitActions native native_initialize native_commit native_offer_next
    (capabilities_mut next_local_event) native_deadline native_pop_due native_receive_retirement.

(** ** An actor in service *)

Context {children_law : ChildTasksLaw (P := Panic) (W := World) (Root := Root) (Failure := Failure)
                          (Bindings := Bindings)}.
Context `{!Registered Bindings} `{!EqDecision CreationId, !Countable CreationId}.

(** The registries are ones that retirement goes on with; [registered_all_ok] and
    [registered_going] show it of every product of occurrences whose receipts do not
    unwind while they are awaited. *)
Class RegisteredLaw := registered_ok (b : Bindings) : registered b → bindings_ok b ∧ going b.

(** Capabilities that own their tasks, their sender of the terminal report and
    registered children. *)
Record in_service c : Prop := {
  service_served : served c;
  service_registered b : child_bindings c = Some b → registered b
}.

(** What an actor does with its capabilities: it interprets an item, whatever its
    occurrence, creates a child unless an assertion breaks, acquires an event, polls
    its timers, notes a failure, finishes a commitment and keeps its service. *)
Inductive native_step c : Caps → Prop :=
  | step_item {Publisher B BError ChildRoot CreationKind Origin : Type}
      (KH : ChildHost B BError ChildRoot CreationId CreationKind Origin)
      {I R : Type} (m : Async Panic (World * (Caps * (option I * option R))) ()) w slots :
      native_item (Publisher := Publisher) (KH := KH) m → native_step c (m (w, (c, slots))).1.2.1
  | step_creation {B BError AllocationRejection ChildRoot CreationKind Origin Grandchild ChildFailures : Type}
      (KH : ChildHost B BError ChildRoot CreationId CreationKind Origin) (NH : CreationHost KH AllocationRejection)
      (CA : ChildCreationAt Bindings (gmap CreationId (CreationBinding (CH := KH)) * list CreationId))
      (law : ChildHostLaw) (creation_law : CreationLaw) (namespace_law : NamespaceLaw registry_fit)
      (descendants_of : Descendants → list Grandchild * ChildFailures) request w :
      is_Violated (establish_child descendants_of request (w, c)).2 = false →
      native_step c (establish_child descendants_of request (w, c)).1.2
  | step_local w : native_step c (next_local_event (w, c)).1.2
  | step_deadline : native_step c (capabilities_next_deadline c).1
  | step_due now : native_step c (capabilities_pop_due c now).1
  | step_failures failures : native_step c (set_operation_failures failures c)
  | step_report disposition : native_step c (finish_terminal_reports disposition c)
  | step_service service : native_step c (set_services service c).

Lemma in_service_kept c c' :
  child_bindings c' = child_bindings c → (is_Some (activation_tasks c) → is_Some (activation_tasks c')) →
  report (terminal_reports c') = report (terminal_reports c) → in_service c → in_service c'.
Proof.
  intros Hb Ht Hr [[? ? ?] Hreg]. split; [|by rewrite Hb]. split; [auto|by rewrite Hb|by rewrite Hr].
Qed.

Lemma in_service_step c c' : RegisteredLaw → native_step c c' → in_service c → in_service c'.
Proof.
  intros Hok Hs Hc. destruct Hs as [? ? ? ? ? ? KH I R m w slots Hm|? ? ? ? ? ? ? ? KH NH CA ? ? ? ? request w Hv|w| | | | | ].
  - destruct (native_item_keeps m Hm w c slots). by eapply in_service_kept.
  - destruct Hc as [[Ht (b & Hb & _) Hr] Hreg].
    pose proof (establish_child_registers descendants_of request w c b Hb (Hreg b Hb)) as He.
    destruct (establish_child descendants_of request (w, c)) as [[w' c'] o]. cbn [fst snd] in *.
    destruct (He Hv) as (b' & -> & Hreg'). split; [|by intros ? [= <-]].
    split; [done|exists b'; split; [done|by apply Hok]|done].
  - pose proof (keep_next_local_event w c) as Hp. split; [by eapply polled_served; [|apply Hc]|].
    rewrite (polled_bindings _ _ Hp). apply Hc.
  - unfold capabilities_next_deadline. destruct (queue_next_deadline _). by apply (in_service_kept c).
  - unfold capabilities_pop_due. destruct (queue_pop_due _ _). by apply (in_service_kept c).
  - by apply (in_service_kept c).
  - by apply (in_service_kept c).
  - by apply (in_service_kept c).
Qed.

Lemma in_service_steps c c' : RegisteredLaw → rtc native_step c c' → in_service c → in_service c'.
Proof. intros Hok Hs Hc. induction Hs; [done|]. eauto using in_service_step. Qed.

(** What the behavior crate's traversals do: they interpret items on the
    capabilities, they return only when everything is settled, and they end what
    they prepared. *)
Class TraversalLaw := {
  interpret_steps w c progress : in_service c → rtc native_step c (interpret_actions (w, (c, progress))).1.2.1;
  interpret_completes w c progress w' c' progress' :
    terminal_disposition (Some progress) ≠ None →
    interpret_actions (w, (c, Some progress)) = ((w', (c', progress')), Ready ()) →
    ∃ settlement, progress' = Some (Progress_Completed settlement);
  offer_steps w c custody : in_service c → rtc native_step c (offer_next_to_source (w, (c, custody))).1.2.1;
  prepare_settles stage :
    match prepare_source (Some stage) with
    | Some (Source_Offering _) => True
    | stage => ∃ source, finish_source stage = Some (Source_Completed source)
    end;
  offer_settles w c custody w' c' custody' :
    offer_next_to_source (w, (c, custody)) = ((w', (c', custody')), Ready ()) →
    ∃ source, finish_source (Some (Source_Offering custody')) = Some (Source_Completed source)
}.

Context {registered_law : RegisteredLaw} {traversal_law : TraversalLaw}.

(** ** The contract of LocalLaw.v *)

Definition native_serving i : Prop := ∃ c, i = Some c ∧ in_service c.

Lemma serving_steps c c' : rtc native_step c c' → in_service c → native_serving (Some c').
Proof. intros Hs Hc. exists c'. split; [done|]. by eapply in_service_steps. Qed.

Lemma commit_serving w i progress : native_serving i → native_serving (native_commit (w, (i, progress))).1.2.1.
Proof.
  intros (c & -> & Hc). unfold native_commit.
  destruct (terminal_disposition progress) as [disposition|]; [|by exists c].
  pose proof (interpret_steps w c progress Hc) as Hs.
  destruct (interpret_actions (w, (c, progress))) as [[w1 [c1 progress1]] o]. cbn [fst snd] in Hs.
  destruct o as [[]| |payload|]; try by eapply serving_steps.
  unfold assess_operations. destruct progress1 as [[actions|custody|settlement]|];
    try (eapply serving_steps; [|exact Hc]; eapply rtc_r; [exact Hs|]; constructor).
  destruct (@interpretation_status native SC settlement) as [status|payload]; [|by eapply serving_steps].
  eapply serving_steps; [|exact Hc]. eapply rtc_r; [eapply rtc_r; [exact Hs|apply step_failures]|constructor].
Qed.

Lemma offer_serving w i stage : native_serving i → native_serving (native_offer_next (w, (i, stage))).1.2.1.
Proof.
  intros (c & -> & Hc). unfold native_offer_next.
  destruct (prepare_source stage) as [[settlements|custody|source]|]; try by exists c.
  pose proof (offer_steps w c custody Hc) as Hs.
  destruct (offer_next_to_source (w, (c, custody))) as [[w1 [c1 custody1]] o]. cbn [fst snd] in Hs.
  destruct o as [[]| |payload|]; by eapply serving_steps.
Qed.

Lemma mut_serving {A} (m : Async Panic (World * Caps) A) w i :
  (∀ c, rtc native_step c (m (w, c)).1.2) → native_serving i → native_serving (capabilities_mut m (w, i)).1.2.
Proof.
  intros Hm (c & -> & Hc). unfold capabilities_mut. specialize (Hm c).
  destruct (m (w, c)) as [[w1 c1] o]. by eapply serving_steps.
Qed.

#[export] Instance native_serves : @Serving native native_commits.
Proof.
  refine (@Build_Serving native native_commits native_serving _ _ _ _ _ _).
  - intros w i Hi. apply mut_serving; [|exact Hi]. intros c.
    destruct (services_initialize _ _) as [[w1 service] o]. apply rtc_once, step_service.
  - intros w i progress Hi. by apply commit_serving.
  - intros w i stage Hi. by apply offer_serving.
  - intros w i Hi. apply (mut_serving next_local_event); [|exact Hi]. intros c. apply rtc_once, step_local.
  - intros i (c & -> & Hc). cbn. unfold native_deadline. pose proof (step_deadline c) as Hs.
    destruct (capabilities_next_deadline c) as [c1 deadline]. eapply serving_steps; [|exact Hc]. by apply rtc_once.
  - intros i due (c & -> & Hc). cbn. unfold native_pop_due. pose proof (step_due c due) as Hs.
    destruct (capabilities_pop_due c due) as [c1 event]. eapply serving_steps; [|exact Hc]. by apply rtc_once.
Defined.

(** Between the attempts of a retirement. *)
Definition native_retiring i (received : option Retirement) : Prop :=
  (∃ c, in_service c ∧ retiring_from assertion c (i, received)) ∧
  ∀ c', i = Some c' → children_going c'.

Lemma in_service_going c : in_service c → children_going c.
Proof. intros Hc b Hb. by apply registered_ok, (service_registered c Hc). Qed.

Lemma retirement_completes_native w i received :
  native_retiring i received →
  wp native_receive_retirement (λ '(_, (interpreter, received')) o,
    match o with
    | Ready _ => interpreter = None ∧ is_Some received'
    | Pending => True
    | Panicked _ | Violated => ∃ i', interpreter = Some i' ∧ native_retiring i' received'
    end) (w, (Some i, received)).
Proof.
  intros ((c & Hc & Hr) & Hg). unfold wp, native_receive_retirement.
  pose proof (wp_capability_retirement assertion drop_rest w c (i, received) (service_served c Hc) Hr) as Hw.
  pose proof (wp_capability_going assertion drop_rest w c (i, received) (service_served c Hc) Hr Hg) as Hw'.
  unfold wp in Hw, Hw'.
  destruct (receive_capability_retirement assertion drop_rest (w, (i, received))) as [[w1 [i1 received1]] o].
  destruct Hw as (Hr1 & Hv & Hstop). destruct o as [[]| |payload|]; cbn [fst snd] in *; [|done| |done].
  2: { exists i1. split; [done|]. split; [by exists c|by apply Hw']. }
  destruct i1 as [c1|].
  - destruct (Hstop eq_refl c1 eq_refl) as (b & Hb & Hs). exfalso. cbn [retiring_from] in Hr1.
    assert (bindings_ok b) as Hok; [|by eapply going_on; [|eapply (Hw' ltac:(done) c1 eq_refl)|]].
    destruct received1 as [r|].
    + by apply (retiring_bindings _ _ _ Hr1).
    + subst c1. destruct Hc as [[_ (b' & Hb' & Hok) _] _]. congruence.
  - cbn in Hr1. destruct received1 as [r|]; [|done]. by split.
Qed.

(** A commitment, or an offer, that returns has finished. *)
Lemma commit_completes_native w i progress :
  native_serving i →
  wp native_commit (λ '(_, (_, progress')) o,
    o = Ready () → ∃ settlement, progress' = Some (Progress_Completed settlement)) (w, (i, Some progress)).
Proof.
  intros (c & -> & Hc). unfold wp, native_commit.
  destruct (terminal_disposition (Some progress)) as [disposition|] eqn:Hd;
    [|destruct progress; [done|done|]; intros _; by eexists].
  destruct (interpret_actions (w, (c, Some progress))) as [[w1 [c1 p1]] o] eqn:Hi.
  destruct o as [[]| |payload|]; [|done..].
  destruct (interpret_completes w c progress w1 c1 p1) as [settlement ->]; [congruence|done|]. cbn.
  destruct (@interpretation_status native SC settlement) as [status|payload]; cbn; [by eexists|done].
Qed.

Lemma offer_completes_native w i stage :
  native_serving i →
  wp native_offer_next (λ '(_, (_, stage')) o,
    o = Ready () → ∃ source, stage' = Some (Source_Completed source)) (w, (i, Some stage)).
Proof.
  intros (c & -> & Hc). unfold wp, native_offer_next. pose proof (prepare_settles stage) as Hp.
  destruct (prepare_source (Some stage)) as [[settlements|custody|source]|]; try by cbn; intros _.
  destruct (offer_next_to_source (w, (c, custody))) as [[w1 [c1 custody1]] o] eqn:Ho.
  destruct o as [[]| |payload|]; [|done..]. intros _. by eapply offer_settles.
Qed.

Context {HO : @LocalHost native}.
Context `{!Communication World Owner Consumer Event Item}.
Context `{!CancellationChannel World Cancel}.
Context {IM : IngressMode Panic World Event Item Retired MailboxRef}.

(** Retaining an item at retirement does not unwind: [standard_retains] for a plain
    actor, [entity_retains] for an entity whose fences' wakers do not panic. *)
Definition retains : Prop := ∀ item w, is_Ready (retain_at_retirement (IngressMode := IM) item w).2 = true.

Context {retaining : retains}.

#[export] Instance native_contract : @InterpreterContract native native_commits native_serves IM.
Proof using retaining.
  refine (@Build_InterpreterContract native native_commits native_serves IM native_retiring _ _ _ _ retaining).
  - intros i (c & -> & Hc). split; [by exists c|]. intros ? [= <-]. by apply in_service_going.
  - intros w i p Hi. exact (commit_completes_native w i p Hi).
  - intros w i s Hi. exact (offer_completes_native w i s Hi).
  - intros w i r Hr. exact (retirement_completes_native w i r Hr).
Defined.

(** The interpreter that a launched actor is prepared with. *)
Definition native_interpreter (inputs : ControlSender → ApplicationCapabilityInputs) (bindings : Bindings)
    (services : Services) (tasks : Tasks) (exact : ExactRef) (parent : option Parent)
    (control : ControlSender) : option Caps :=
  let c := new_with_services (inputs control) bindings services tasks exact in
  Some (match parent with Some parent => with_parent parent c | None => c end).

Lemma native_interpreter_serves inputs bindings services tasks exact parent control :
  registered bindings → is_Some (report (input_terminal_reports (inputs control))) →
  native_serving (native_interpreter inputs bindings services tasks exact parent control).
Proof.
  intros Hb Hr. eexists. split; [done|]. destruct parent; (split; [split|by intros ? [= <-]]);
    first [by eexists|exists bindings; split; [done|by apply registered_ok]|done].
Qed.

Context {B BError : Type} `{!BehaviorPort B Event Actions BError Panic} (polls : World → nat).

#[local] Instance native_port : EnvironmentPort World (@LocalEnvironment native) (@ActiveLocalEnvironment native)
    Actions Event Settlements (Interpretation Settlements) (@Request native)
    (@LocalActivationRejection native) (@LocalResidual native) Panic :=
  @local_environment_port native HO native_commits _ _ IM SC polls.

(** C3: A native actor hands over.  Prepared with fresh capabilities, it may
    interpret the items its behavior emits, create children of any occurrence,
    acquire events and retire its children, and whatever of that unwinds, a run that
    was not dropped ends with the complete retirement, in which no failure says that
    its interpreter broke the contract of the driver.  It is assumed that the
    traversals of the behavior crate interpret items and create children whose
    startups break no assertion of the creator ([startup_broken] is what C12 leaves
    out), return only when everything is settled and end what they prepared
    ([TraversalLaw]); that the well-formed
    registries of the actor's product of occurrences are ones that retirement goes
    on with, which holds of every product whose receipts do not unwind while they are
    awaited ([RegisteredLaw]); that the host's waits break no assertion
    ([ChildTasksLaw]); and that no waker of a fence panics while the ingress is
    retained ([retains]).  Nothing is assumed of when a child's task or receipt is there: one
    that never is leaves the run waiting, and a run that is dropped while it waits,
    the case of C26, is not claimed. *)
Theorem native_actor_hands_over inputs bindings services tasks exact parent address addresses termination
    cancellation w1 fuel b w result cs w' :
  registered bindings → (∀ control, is_Some (report (input_terminal_reports (inputs control)))) →
  receive_run fuel (Some (Driver_new (b : B)
    (@prepare native HO _ IM address addresses termination cancellation
       (native_interpreter inputs bindings services tasks exact parent) w1).2)) None w
    = Some (None, Some result, cs, w') →
  handed_over result.
Proof.
  intros Hb Hr Hrun.
  refine (receive_run_hands_over (contract := @local_contract native HO native_commits native_serves _ _ IM SC
    polls native_contract) fuel b _ w result cs w' _ Hrun).
  apply (@prepare_fresh native HO native_commits native_serves _ IM). intros control. by apply native_interpreter_serves.
Qed.
End interpreter.
