(* ===== verification/NativeExample.v ===== *)
(** * An actor with native capabilities

    The host of ChildExample.v with the capabilities of Capabilities.v: nobody is
    observed, timers are a list, every mailbox is closed.  The witnesses of the
    theorems on capabilities and on effect items run on it. *)

From stdpp Require Import gmap sorting.
From S2P Require Import Prelude Driver Host Assessment LocalIngress LocalEnvironment ActorOutcome.
From S2P Require Import TerminalProjection ActorOwner LocalExample ActorLaunch ChildRetirement ChildExample.
From S2P Require Import Endpoint ExactObservation Capabilities EffectItems ItemLaws ChildCreation.

#[export] Instance bench_capabilities : CapabilityHost (H := bench_types) := {|
  Scope := (); Services := list nat; Parent := (); Timers := list nat; Allocations := N; Capacity := N;
  TerminationFuture := option nat;
  ExactRef := (); ObservationId := nat; Identity := nat; Revocation := nat;
  own_lane _ event w := (set_queues (bench_control w ++ [event]) (bench_user w) w, Ok tt);
  poll_termination future w := (w, (future, future));
  coop_proceed w := (w, true);
  exact_of _ _ := Some ∅; set_exact _ _ w := w; revocation_send _ w := w;
  queue_next_deadline timers := (timers, head timers);
  queue_pop_due timers _ := (List.tl timers, head timers);
  task_count tasks := length tasks;
  services_initialize _ := mret tt;
  services_drop _ w := (count_disposal w, None)
|}.

Definition BenchBindings : Type :=
  @ChildBinding _ _ (list nat) () nat nat () nat _ _ bench_children NoChildBindings.
Definition BenchCaps : Type := ApplicationCapabilities (CreationId := nat) (Bindings := BenchBindings).

#[export] Instance bench_retire : RetireChildTasks () Bench nat nat BenchBindings :=
  child_binding (AllocationRejection := ()) (λ _, ([] : list (), ())) (λ origin _, origin)
    (λ failure, match failure with Child_NotificationsFailed _ _ _ _ _ => 1 | _ => 2 end)
    (Tail := NoChildBindings) (CH := bench_children).
#[export] Instance bench_retire_law :
  ChildTasksLaw (P := ()) (W := Bench) (Root := nat) (Failure := nat) (Bindings := BenchBindings) :=
  child_binding_law (AllocationRejection := ()) (λ _, ([] : list (), ())) (λ origin _, origin)
    (λ failure, match failure with Child_NotificationsFailed _ _ _ _ _ => 1 | _ => 2 end)
    (Tail := NoChildBindings) (CH := bench_children).

(** An actor with two children, a task and a selected report. *)
Definition bench_inputs : ApplicationCapabilityInputs (TY := bench_types) (CreationId := nat) :=
  {| input_address := 9; input_actor_spaces := tt; input_allocations := 1%N;
     input_mailbox_capacity := 4%N; input_control := tt; input_timers := [];
     input_observations := []; input_terminal_reports := LocalTerminalReports_new tt |}.
Definition bench_caps (receipts : option BenchReceipts) : BenchCaps :=
  set_terminal_reports {| selection := Selected 3; report := Some tt |}
    (new_with_services bench_inputs (bench_node receipts) [] [Ok (Err 5)] tt).

Lemma bench_served receipts : served (bench_caps receipts).
Proof. split; [by eexists|eexists; split; [reflexivity|apply bench_node_ok]|by eexists]. Qed.

Local Abbreviation bench_retirement :=
  (receive_capability_retirement (TY := bench_types) (Bindings := BenchBindings) (Root := nat) (Failure := nat)
     tt (λ _ w, (w, None))).

Lemma capabilities_hand_over_witness :
  ∃ r, rtc (retirement_attempt (Bindings := BenchBindings) (Root := nat) (Failure := nat) tt (λ _ w, (w, None)))
      (Some (bench_caps (Some bench_receipts)), None) (None, Some r) ∧
    acquired (bench_caps (Some bench_receipts)) None r ∧ reported tt (bench_caps (Some bench_receipts)) r ∧
    (retired_descendants r).1 = [7; 4].
Proof.
  assert (∃ w r o, bench_retirement (bench_world, (Some (bench_caps (Some bench_receipts)), None))
    = ((w, (None, Some r)), o) ∧ (retired_descendants r).1 = [7; 4]) as (w & r & o & Hr & Hl)
    by (vm_compute; by do 3 eexists).
  assert (rtc (retirement_attempt (Bindings := BenchBindings) (Root := nat) (Failure := nat) tt (λ _ w, (w, None)))
    (Some (bench_caps (Some bench_receipts)), None) (None, Some r)) as Ha
    by (apply rtc_once; by exists bench_world, w, o).
  destruct (capabilities_hand_over (TY := bench_types) (Bindings := BenchBindings) (Root := nat) (Failure := nat) tt (λ _ w, (w, None)) _ _ (bench_served (Some bench_receipts)) Ha)
    as (Hacq & Hrep & _).
  exists r. split; [exact Ha|]. split; [by apply Hacq|]. destruct (Hrep eq_refl) as (r' & [= <-] & Hr').
  by split.
Defined.

(** A host whose mailboxes and lanes are closed. *)
#[export] Instance bench_endpoints : EndpointHost nat nat (H := bench_types) := {|
  user_send _ item := mret (Err item);
  user_try_send _ item w := (w, Err (TrySend_Closed item));
  ingress_send _ item := mret (Err item);
  ingress_try_send _ item w := (w, Err (TrySend_Closed item));
  FenceObservation := (); affine_pair w := (w, (0, tt));
  await_fence _ := mret (Ok tt);
  termination_try_get _ _ := None;
  endpoint_admission _ := bench_mailbox
|}.

#[export] Instance bench_endpoint_law : EndpointLaw (H0 := bench_endpoints).
Proof.
  split; try (intros ? ? w; split; [done|by intros ? [= <-]]);
    intros ? ? ? ? ? [= <- <-]; auto.
Qed.

#[local] Instance bench_lane : ControlLane nat (H := bench_types) := λ _ event w, (w, Err event).

#[local] Instance bench_authority : ChildBindingAt nat (ChildAuthority (CH := bench_children)) BenchBindings :=
  authority_at_head.

Definition bench_input : nat → Async () Bench nat := λ input, mret input.
Definition bench_recover : nat → Bench → Bench * Result nat nat := λ event w, (w, Ok event).

#[export] Instance bench_input_law : ChildInputLaw (TY := bench_types) bench_input bench_recover.
Proof. split; [by intros ? ? ? ? ? [= _ <-]|by intros ? ? ? ? ? [= _ <-]]. Qed.

Local Abbreviation bench_send_map := (λ (_ : ControlSender (LocalTypes := bench_types)) (report : nat)
  (_ : nat → Async () Bench nat), (λ w, (w, Ready (Err report))) : Async () Bench (Result () nat)).
Local Abbreviation bench_parent := (λ _ : Parent (H := bench_types),
  {| reporting_child := 1; reporting_parent := tt : ControlSender (LocalTypes := bench_types) |}).

Local Abbreviation bench_deliver :=
  (interpret_child_delivery (KH := bench_children) (EH := bench_endpoints) (Bindings := BenchBindings)).

(** The first child is established and its mailbox closed: the message comes back. *)
Lemma refused_items_come_back_witness :
  gives_back false bench_deliver (child_delivery_verdict (KH := bench_children) (EH := bench_endpoints)) ∧
  let '((_, (_, slots)), _) :=
    bench_deliver (bench_world, (bench_caps None, (Some {| creation := 1; child_payload := 6 |}, None))) in
  slots = (None, Some (Settled_Rejected {| creation := 1; child_payload := 6 |} ChildDelivery_ClosedRecipient)).
Proof.
  split; [|by vm_compute].
  assert (ParentLaneLaw (TY := bench_types) bench_send_map) as Hr by (by intros ? ? ? ? ? [= <-]).
  pose proof (refused_items_come_back (KH := bench_children) (CH := bench_capabilities) (EH := bench_endpoints)
    (Bindings := BenchBindings) bench_input bench_recover (Customer := ()) (C := ())
    (TimerId := ()) (Generation := ()) (Duration := ()) (shutdown_lane := bench_lane) bench_parent bench_send_map
    (λ _ report, mret report) (λ timers _ _ event, (timers, Ok tt)) (λ _ _ _, None) (λ _, None) (λ _, 0)
    (λ _ _, None) (mret 0) (λ _ _ _, mret 0) (λ _ _ _, mret 0) (λ _ _ _, mret 0) (λ _ _, mret 0)
    (λ _ _, mret 0) 1 0%N) as H.
  by apply H.
Defined.

(** A child whose address is claimed when it starts. *)
Definition bench_unbound : BenchOutcome :=
  Exec_ActivationFailed [1]
    (Residual_Uncommitted (Progress_Original ((1, Step_Continue) : Actions))
       {| lane_interpretation := None; lane_source := None; lane_source_index := None;
          lane_acquired_ingress := None; lane_ingress := {| LocalIngress.control := []; user := [] |};
          lane_activation_tasks := []; lane_descendants := tt; lane_operation_failures := NoFailuresFound;
          lane_descendant_report := clean; lane_capability_failures := []; lane_terminal_report := None;
          lane_retirement_failures := []; lane_unread_owner_cancellation := None |})
    [] (Rejection_Address (5 : ClaimError)).

#[export] Instance bench_creation : CreationHost bench_children () := {|
  Binding := (); RetirementPublisher := ();
  allocate_address w := (w, Ok 3); already_claimed := tt; claim_in_use error := bool_decide (error = 5);
  spawn_child _ _ w :=
    (w, (tt, tt, {| owned_task := Some (Ok bench_unbound); owned_notification := Ok tt;
                    owned_cancellation := Some tt |}));
  await_startup _ := mret (Err tt);
  retirement_pair w := (w, (tt, None));
  project_task _ origin _ w :=
    (w, {| owned_task := Some (Ok (Ok origin)); owned_notification := None; owned_cancellation := Some tt |});
  binding_send _ w := (w, Ok tt)
|}.

#[export] Instance bench_creation_law : CreationLaw (NH := bench_creation).
Proof. split; [by intros; eexists..|done|by intros; do 2 eexists]. Qed.

Definition bench_request : RoutedCreation nat () (list nat) :=
  {| routed_id := 4; routed_kind := tt; routed_route := 6%N; routed_child := [1] |}.
Definition bench_registry : gmap nat (CreationBinding (CH := bench_children)) * list nat :=
  (creations (bench_node None), creation_order (bench_node None)).

Lemma bench_registry_ok : registry_ok bench_registry.
Proof.
  pose proof (bench_node_ok None) as [[Ho Hr] _]. split; [exact Ho| |].
  { intros id Hid. destruct (Hr id Hid) as (row & Hrow & Hok). exists row. split_and!; try done.
    cbn in Hrow. apply lookup_insert_Some in Hrow as [[_ <-]|[_ Hrow]]; [done|].
    by apply lookup_singleton_Some in Hrow as [_ <-]. }
  intros id row. cbn.
  rewrite lookup_insert_Some. intros [[<- _] | [_ Hl]] _; [by left|].
  apply lookup_singleton_Some in Hl as [<- _]. right. by left.
Qed.

Local Abbreviation bench_establish :=
  (establish_native_child (NH := bench_creation) (λ _, ([] : list (), ())) bench_request).

(** The startup is rejected: its row keeps why, and the behavior comes back. *)
Lemma creation_keeps_registry_witness :
  ∃ r' row, (bench_establish (bench_world, bench_registry)).1.2 = r' ∧ registry_ok r' ∧
    r'.1 !! 4 = Some row ∧ r'.2 = [1; 2; 4] ∧
    (bench_establish (bench_world, bench_registry)).2 =
      Ready (Settled_Accepted (Creation_HostRejected bench_request ((1, Step_Continue) : Actions)
        (Creation_Allocation tt))).
Proof.
  pose proof (creation_keeps_registry (NH := bench_creation) (λ _, ([] : list (), ())) bench_request bench_world
    bench_registry bench_registry_ok) as H.
  assert ((bench_establish (bench_world, bench_registry)).1.2.2 = [1; 2; 4] ∧
    (bench_establish (bench_world, bench_registry)).2 =
      Ready (Settled_Accepted (Creation_HostRejected bench_request ((1, Step_Continue) : Actions)
        (Creation_Allocation tt)))) as [Horder Ho] by (vm_compute; by split).
  assert (bench_registry.1 !! routed_id bench_request = None) as Hg by (vm_compute; reflexivity).
  destruct (bench_establish (bench_world, bench_registry)) as [[w' r'] o]. cbn [fst snd] in *. subst o.
  rewrite Hg in H. destruct H as (_ & Hok & row & Hrow & _). by exists r', row.
Defined.
