(* ===== verification/NativeRun.v ===== *)
(** * A native actor runs

    The host of LocalExample.v with the interpreter of NativeInterpreter.v: the
    behavior of DriverLaw.v's example, whose every action creates a child; the
    children's tasks and receipts are there at once. *)

From stdpp Require Import gmap.
From S2P Require Import Prelude Driver DriverLaw DriverContract Host Assessment LocalIngress LocalEnvironment.
From S2P Require Import ActorOutcome TerminalProjection ActorOwner LocalExample ActorLaunch ChildRetirement.
From S2P Require Import ChildExample Endpoint ExactObservation Capabilities EffectItems ItemLaws ChildCreation.
From S2P Require Import NativeInterpreter NativeExample.

(** Children whose tasks and receipts are there at once. *)
#[export] Instance prompt_host : ChildHost (list nat) () nat nat () nat := {|
  RawHandle := (); RawReceiver := (); ProjectedHandle := nat; ProjectedReceiver := ();
  ChildCancel := (); Projection := nat; RetirementObservation := (); StartupReceiver := ();
  raw_join _ := mret (Some (Ok bench_unbound));
  raw_receipt _ := mret (Some (Ok (Ok tt)));
  raw_drop _ w := w;
  projected_join root := mret (Some (Ok (Ok root)));
  projected_receipt _ := mret (Some (Ok bench_receipts));
  projected_drop _ w := w;
  projection_join root := mret (Some (Ok root));
  projection_drop _ w := w;
  spawn_projection root w := (w, default 0 root);
  child_cancel_send _ := count_disposal; child_cancel_drop _ w := w;
  retirement_try_get _ _ := Some clean;
  make_origin address _ _ _ := mret (address : nat);
  idle w := w; child_polls _ := 2
|}.

#[export] Instance prompt_host_law : ChildHostLaw (ChildHost0 := prompt_host).
Proof. by split. Qed.

#[export] Instance prompt_creation : CreationHost prompt_host () := {|
  Binding := (); RetirementPublisher := ();
  allocate_address w := (w, Ok 3); already_claimed := tt; claim_in_use error := bool_decide (error = 5);
  spawn_child _ _ w :=
    (w, (tt, tt, {| owned_task := Some tt; owned_notification := tt; owned_cancellation := Some tt |}));
  await_startup _ := mret (Ok (bench_endpoint, tt));
  retirement_pair w := (w, (tt, tt));
  project_task _ origin _ w :=
    (w, {| owned_task := Some origin; owned_notification := tt; owned_cancellation := Some tt |});
  binding_send _ w := (w, Ok tt)
|}.

#[export] Instance prompt_creation_law : CreationLaw (NH := prompt_creation).
Proof. split; [by intros; eexists..|done|by intros; do 2 eexists]. Qed.

Definition PromptBindings : Type :=
  @ChildBinding _ _ (list nat) () nat nat () nat _ _ prompt_host NoChildBindings.
Definition PromptCaps : Type := ApplicationCapabilities (CreationId := nat) (Bindings := PromptBindings).

#[local] Instance prompt_retire : RetireChildTasks () Bench nat nat PromptBindings :=
  child_binding (AllocationRejection := ()) (λ _, ([] : list (), ())) (λ origin _, origin)
    (λ failure, match failure with Child_NotificationsFailed _ _ _ _ _ => 1 | _ => 2 end)
    (Tail := NoChildBindings) (CH := prompt_host).
#[local] Instance prompt_retire_law :
  ChildTasksLaw (P := ()) (W := Bench) (Root := nat) (Failure := nat) (Bindings := PromptBindings) :=
  child_binding_law (AllocationRejection := ()) (λ _, ([] : list (), ())) (λ origin _, origin)
    (λ failure, match failure with Child_NotificationsFailed _ _ _ _ _ => 1 | _ => 2 end)
    (Tail := NoChildBindings) (CH := prompt_host).
#[local] Instance prompt_registered : Registered PromptBindings := child_binding_registered.
#[local] Instance prompt_namespace : ChildCreationAt PromptBindings
    (gmap nat (CreationBinding (CH := prompt_host)) * list nat) := creation_at_head.

#[local] Instance prompt_namespace_law :
  NamespaceLaw (Bindings := PromptBindings) (registry_fit (KH := prompt_host)) := head_namespace.

Definition bench_native : LocalTypes :=
  native_types (TY := bench_types) (CreationId := nat) (Root := nat) (Failure := nat) (Bindings := PromptBindings).

(** Every action creates a child named by its number. *)
Definition prompt_establish (n : nat) :=
  establish_child (TY := bench_types) (Bindings := PromptBindings) (NH := prompt_creation)
    (λ _, ([] : list (), ()))
    {| routed_id := n; routed_kind := tt; routed_route := 0%N; routed_child := [n] |}.

#[local] Instance bench_traversal : Traversal (TY := bench_types) (CreationId := nat) (Bindings := PromptBindings) := {|
  actions_stop actions := match actions.2 with Step_Stop => true | Step_Continue => false end;
  custody_stop _ := false;
  interpret_actions '(w, (c, progress)) :=
    match progress with
    | Some (Progress_Original (n, _)) =>
        let '((w, c), o) := prompt_establish n (w, c) in
        match o with
        | Ready _ => ((w, (c, Some (Progress_Completed (Interpretation_Complete n)))), Ready ())
        | Pending => ((w, (c, progress)), Pending)
        | Panicked payload => ((w, (c, progress)), Panicked payload)
        | Violated => ((w, (c, progress)), Violated)
        end
    | Some (Progress_Interpreting _) =>
        ((w, (c, Some (Progress_Completed (Interpretation_Complete 0)))), Ready ())
    | progress => ((w, (c, progress)), Ready ())
    end;
  prepare_source stage := stage;
  offer_next_to_source st := (st, Ready ());
  finish_source stage :=
    match stage with
    | Some (Source_Original n) => Some (Source_Completed (Custody_Exhausted n))
    | Some (Source_Offering _) => Some (Source_Completed (Custody_Exhausted 0))
    | stage => stage
    end
|}.

#[local] Instance prompt_registered_law : RegisteredLaw (TY := bench_types) (Bindings := PromptBindings).
Proof. intros n Hn. split; [by apply (registered_all_ok n)|by apply (registered_going n)]. Qed.

Lemma prompt_unbroken : ¬ startup_broken (NH := prompt_creation) (λ _, ([] : list (), ())).
Proof.
  intros [(binding & w & w' & [=])|(outcome & (task & w & w' & [= _ <-]) & Hp)]. by vm_compute in Hp.
Qed.

#[local] Instance bench_traversal_law : TraversalLaw (TY := bench_types) (CreationId := nat)
  (Root := nat) (Failure := nat) (Bindings := PromptBindings).
Proof.
  split.
  - intros w c [[[n step]|custody|settled]|] Hc; cbn [interpret_actions bench_traversal]; try done.
    destruct Hc as [[_ (b & Hb & _) _] Hreg].
    pose proof (establish_child_unbroken (NH := prompt_creation) (λ _, ([] : list (), ()))
      {| routed_id := n; routed_kind := tt; routed_route := 0%N; routed_child := [n] |} w c b Hb (Hreg b Hb)
      prompt_unbroken) as Hv.
    pose proof (step_creation c prompt_host prompt_creation prompt_namespace prompt_host_law
      prompt_creation_law prompt_namespace_law (λ _, ([] : list (), ()))
      {| routed_id := n; routed_kind := tt; routed_route := 0%N; routed_child := [n] |} w Hv) as Hs.
    unfold prompt_establish. destruct (establish_child _ _ _) as [[w' c'] [settlement| |payload|]];
      by apply rtc_once.
  - intros w c [[n step]|custody|settled] w' c' progress' Hd; cbn [interpret_actions bench_traversal].
    + destruct (prompt_establish n (w, c)) as [[w1 c1] [settlement| |payload|]]; intros [=]; subst; by eexists.
    + intros [= _ _ <-]. by eexists.
    + done.
  - done.
  - intros [n|custody|source]; [by eexists|done|by eexists].
  - intros w c custody w' c' custody' _. by eexists.
Qed.

#[local] Instance native_host : @LocalHost bench_native := @Build_LocalHost bench_native
  (λ w, (w, (tt, tt, tt, tt)))
  (λ _ address w,
    if bool_decide (address ∈ bench_claimed w) then (w, Err address)
    else (set_claims (address :: bench_claimed w) (bench_published w) w, Ok address))
  (λ address _ w, (set_claims (bench_claimed w) (address :: bench_published w) w, address))
  (λ w, (w, (tt, tt)))
  (λ _ _ w, (w, Ok ()))
  (λ _ w, (w, Some (Ok ()))) (λ _ w, (w, false)) (λ _, 0) (λ _ _ w, (w, None)) (λ _, count_disposal) (λ w, w).

#[local] Instance native_settlements : @SettlementClass bench_native := @Build_SettlementClass bench_native
  (λ i, inl (match i with Interpretation_Complete _ => Status_Accepted | Interpretation_Corrupt _ => Status_Corrupt end))
  (λ i, match i with Interpretation_Complete n | Interpretation_Corrupt n => n end)
  (λ _, None) ().

#[local] Existing Instance Stalling.numbers.

Definition native_inputs (control : ()) : ApplicationCapabilityInputs (TY := bench_types) (CreationId := nat) :=
  bench_inputs.

Definition native_fresh : PromptBindings :=
  {| creations := ∅; creation_order := []; actors := tt; tail := Some NoChildBindings_new |}.

(** Two messages; the second one stops the actor. *)
Definition native_world : Bench :=
  bench [3] [Ingress_Message {| from := 1; message := 7 |}; Ingress_Message {| from := 1; message := 5 |}]
    None [] (Some true).

Local Abbreviation native_prepared :=
  (@prepare bench_native native_host bench_mailbox bench_mode 2 tt tt tt
     (native_interpreter (TY := bench_types) native_inputs native_fresh [] [] tt None) native_world).

Local Abbreviation native_commit_instance :=
  (native_commits (TY := bench_types) (Root := nat) (Failure := nat) (SC := native_settlements) tt (λ _ w, (w, None))).

Local Abbreviation native_run :=
  (receive_run (W := Bench) (EnvironmentPort0 := native_port (TY := bench_types) (HO := native_host)
      (SC := native_settlements) tt (λ _ w, (w, None)) (λ _ : Bench, 8)) 60
     (Some (Driver_new ([] : list nat) native_prepared.2)) None native_prepared.1).

(** The children of the two events and of the initialization are retired. *)
Example native_run_stops :
  match native_run with
  | Some (None, Some (Ok r), _, w) =>
      retired_behavior r = [1; 3; 7; 5] ∧
      lane_descendants (residual_lanes (retired_residual r)) = ([3; 3; 3; 3], [])
  | _ => False
  end.
Proof. vm_compute. by split. Qed.

Lemma native_fresh_registered : registered native_fresh.
Proof.
  split; [split; [split|]|exists NoChildBindings_new; by split].
  - apply NoDup_nil_2.
  - intros id Hid. by apply elem_of_nil in Hid.
  - intros id row. cbn. rewrite lookup_empty. intros [=].
  - intros id row. cbn. rewrite lookup_empty. intros [=].
Qed.
Lemma bench_retains : retains (TY := bench_types) (IM := bench_mode).
Proof. by intros [?|?] ?. Qed.

Lemma native_actor_hands_over_witness :
  ∃ result cs w, native_run = Some (None, Some result, cs, w) ∧ handed_over result.
Proof.
  assert (match native_run with Some (None, Some _, _, _) => true | _ => false end = true) as Hends
    by (vm_compute; reflexivity).
  destruct native_run as [[[[[owner|] [result|]] cs] w]|] eqn:Hr; try discriminate Hends.
  clear Hends. exists result, cs, w. split; [reflexivity|].
  refine (native_actor_hands_over (TY := bench_types) tt (λ _ w, (w, None)) 
    (retaining := bench_retains) (λ _ : Bench, 8) native_inputs native_fresh [] [] tt None 2 tt tt tt native_world
    60 [] _ result cs w native_fresh_registered _ Hr).
  intros control. eexists. reflexivity.
Defined.
