(* ===== verification/RemoteIngress.v ===== *)
(** * The remote boundary: framing, custody and verification

    What every remote request and response passes first: the bounded check of its
    protected JSON ([remote/json.rs]) over an event parser that is an interface,
    the transfer of an original under a count charge ([remote/ingress.rs]), and
    the polling of an identity provider whose result outlives its future
    ([remote/verification.rs]). *)

From stdpp Require Import strings.
From Stdlib Require Import Init.Byte.
From S2P Require Import Prelude.

Definition Bytes : Type := list byte.
#[export] Instance byte_eq_dec : EqDecision byte := Byte.byte_eq_dec.
(** The length of a token in bytes. *)
Definition str_len (token : string) : N := N.of_nat (String.length token).

(** ** Protected JSON *)

Module Json.
Record Limits := {
  input_bytes : positive;
  proof_bytes : positive;
  token_bytes : positive;
  nesting : positive;
  parser_states : positive
}.

(** The events of the parser the source distinguishes; [Scalar] is any other. *)
Variant JsonEvent :=
  | StringToken (token : string)
  | Number (token : string)
  | ObjectKey (key : string)
  | StartArray
  | EndArray
  | StartObject
  | EndObject
  | Scalar
  | Eof.

#[export] Instance JsonEvent_eq_dec : EqDecision JsonEvent.
Proof. solve_decision. Defined.

(** The low-level event parser: it consumes a number of bytes of its input and
    may produce an event or a syntax error. *)
Class JsonParser := {
  LowLevelJsonParser : Type;
  JsonSyntaxError : Type;
  with_max_stack_size : N → LowLevelJsonParser;
  parse_next : LowLevelJsonParser → Bytes → bool →
    LowLevelJsonParser * (N * option (Result JsonEvent JsonSyntaxError))
}.

Variant Error {Syntax : Type} :=
  | InputBytes
  | ProofBytes
  | OuterObject
  | MetadataObject
  | TokenBytes
  | Nesting
  | NoEvent
  | SyntaxRefused (cause : Syntax).
Arguments Error : clear implicits.

(** What the parser documents: a call consumes at most its input, an event other
    than the end consumes some of it, and containers are closed only after they
    were opened. *)
Class JsonParserLaw `{JsonParser} := {
  opened : LowLevelJsonParser → N;
  opened_new states : opened (with_max_stack_size states) = 0%N;
  consumes parser input parser' consumed event :
    parse_next parser input true = (parser', (consumed, event)) → (consumed ≤ len input)%N;
  advances parser input parser' consumed event :
    parse_next parser input true = (parser', (consumed, Some (Ok event))) → event ≠ Eof →
    (1 ≤ consumed)%N;
  nests parser input parser' consumed event :
    parse_next parser input true = (parser', (consumed, Some (Ok event))) →
    match event with
    | StartArray | StartObject => opened parser' = (opened parser + 1)%N
    | EndArray | EndObject => opened parser = (opened parser' + 1)%N
    | _ => opened parser' = opened parser
    end
}.

Section check.
Context `{JP : JsonParser}.
Implicit Types (parser : LowLevelJsonParser) (remaining : Bytes) (depth : N) (limits : Limits).

(** The token an event carries. *)
Definition event_token (event : JsonEvent) : option string :=
  match event with StringToken token | ObjectKey token | Number token => Some token | _ => None end.

(** [next_event]; [None] is the slice beyond the input. *)
Definition next_event parser remaining (token_bytes : positive) :
    option (LowLevelJsonParser * Bytes * Result JsonEvent (Error JsonSyntaxError)) :=
  let '(parser, (consumed, event)) := parse_next parser remaining true in
  if (consumed <=? len remaining)%N then
    Some (parser, drop (N.to_nat consumed) remaining,
      match event with
      | None => Err NoEvent
      | Some (Err cause) => Err (SyntaxRefused cause)
      | Some (Ok event) =>
          match event_token event with
          | Some token => if (Npos token_bytes <? str_len token)%N then Err TokenBytes else Ok event
          | None => Ok event
          end
      end)
  else panic!.

(** One turn of the loop of [check], and how it may end. *)
Variant Turn :=
  | Continues parser remaining depth
  | Returns (result : Result () (Error JsonSyntaxError))
  | Overflows.

(** The checks of [usize] arithmetic on the depth and the limit at the end of a turn. *)
Definition check_depth limits parser remaining (depth : option N) : Turn :=
  match depth with
  | None => Overflows
  | Some depth =>
      if (Npos (nesting limits) <? depth)%N then Returns (Err Nesting)
      else Continues parser remaining depth
  end.

Definition check_turn limits parser remaining depth : Turn :=
  match next_event parser remaining (token_bytes limits) with
  | None => Overflows
  | Some (_, _, Err cause) => Returns (Err cause)
  | Some (parser, remaining, Ok event) =>
      match event with
      | ObjectKey key =>
          if (depth =? 1)%N && bool_decide (key = "bombay"%string) then
            match next_event parser remaining (token_bytes limits) with
            | None => Overflows
            | Some (_, _, Err cause) => Returns (Err cause)
            | Some (parser, remaining, Ok StartObject) =>
                check_depth limits parser remaining (checked_add usize_max depth 1)
            | Some (_, _, Ok _) => Returns (Err MetadataObject)
            end
          else check_depth limits parser remaining (Some depth)
      | StartObject | StartArray => check_depth limits parser remaining (checked_add usize_max depth 1)
      | EndObject | EndArray => check_depth limits parser remaining (checked_sub depth 1)
      | Eof => Returns (Ok ())
      | StringToken _ | Number _ | Scalar => check_depth limits parser remaining (Some depth)
      end
  end.

(** [Some None] is a panic, [None] means the fuel did not suffice. *)
Fixpoint check_loop (fuel : nat) limits parser remaining depth :
    option (option (Result () (Error JsonSyntaxError))) :=
  match fuel with
  | 0 => None
  | S fuel =>
      match check_turn limits parser remaining depth with
      | Continues parser remaining depth => check_loop fuel limits parser remaining depth
      | Returns result => Some (Some result)
      | Overflows => Some None
      end
  end.

(** [json::check]; every turn consumes at least a byte. *)
Definition check (protected proof : Bytes) limits :
    option (option (Result () (Error JsonSyntaxError))) :=
  if (Npos (input_bytes limits) <? len protected)%N then Some (Some (Err InputBytes))
  else if (Npos (proof_bytes limits) <? len proof)%N then Some (Some (Err ProofBytes))
  else
    let parser := with_max_stack_size (Npos (parser_states limits) - 1) in
    match next_event parser protected (token_bytes limits) with
    | None => Some None
    | Some (_, _, Err cause) => Some (Some (Err cause))
    | Some (parser, remaining, Ok StartObject) =>
        check_loop (S (length protected)) limits parser remaining 1
    | Some (_, _, Ok _) => Some (Some (Err OuterObject))
    end.

(** ** What [check] accepts *)

(** The events of the complete input, up to the native end. *)
Inductive parses : LowLevelJsonParser → Bytes → list JsonEvent → Prop :=
  | parses_eof parser remaining parser' consumed :
      parse_next parser remaining true = (parser', (consumed, Some (Ok Eof))) →
      parses parser remaining []
  | parses_event parser remaining parser' consumed event events :
      parse_next parser remaining true = (parser', (consumed, Some (Ok event))) → event ≠ Eof →
      parses parser' (drop (N.to_nat consumed) remaining) events →
      parses parser remaining (event :: events).

(** The containers open after some events. *)
Definition deeper depth (event : JsonEvent) : N :=
  match event with
  | StartArray | StartObject => depth + 1
  | EndArray | EndObject => depth - 1
  | _ => depth
  end%N.
Definition depth_after depth (events : list JsonEvent) : N := foldl deeper depth events.

Definition fits limits (event : JsonEvent) : Prop :=
  ∀ token, event_token event = Some token → (str_len token ≤ Npos (token_bytes limits))%N.

(** Every token fits, no prefix is nested too deep, and every metadata key at the
    top is followed by an object. *)
Definition conforms limits depth (events : list JsonEvent) : Prop :=
  ∀ i event, events !! i = Some event →
    fits limits event ∧
    (depth_after depth (take (S i) events) ≤ Npos (nesting limits))%N ∧
    (event = ObjectKey "bombay" → depth_after depth (take i events) = 1%N →
     events !! S i = Some StartObject).

Definition acceptable (protected proof : Bytes) limits : Prop :=
  (len protected ≤ Npos (input_bytes limits))%N ∧ (len proof ≤ Npos (proof_bytes limits))%N ∧
  ∃ events,
    parses (with_max_stack_size (Npos (parser_states limits) - 1)) protected events ∧
    events !! 0 = Some StartObject ∧ conforms limits 0 events.
End check.

(** *** Proofs *)

Section laws.
Context `{JL : JsonParserLaw}.
Implicit Types (parser : LowLevelJsonParser) (remaining : Bytes) (depth : N) (limits : Limits).

Lemma conforms_nil limits depth : conforms limits depth [].
Proof. by intros i event Hi. Qed.

Lemma conforms_cons limits depth event events :
  conforms limits depth (event :: events) ↔
    (fits limits event ∧ (deeper depth event ≤ Npos (nesting limits))%N ∧
     (event = ObjectKey "bombay" → depth = 1%N → events !! 0 = Some StartObject)) ∧
    conforms limits (deeper depth event) events.
Proof.
  split.
  - intros Hc. split; [exact (Hc 0 event eq_refl)|]. intros i e Hi. exact (Hc (S i) e Hi).
  - intros [He Hes] [|i] e Hi; [by injection Hi as <-|exact (Hes i e Hi)].
Qed.

(** What one call of the parser makes of the events of the rest. *)
Lemma parses_inv parser remaining parser' consumed event events :
  parse_next parser remaining true = (parser', (consumed, event)) → parses parser remaining events →
  (event = Some (Ok Eof) ∧ events = []) ∨
  ∃ e es, event = Some (Ok e) ∧ e ≠ Eof ∧ events = e :: es ∧
    parses parser' (drop (N.to_nat consumed) remaining) es.
Proof. intros Hp. destruct 1 as [? ? ? ? Hq|? ? ? ? ? ? Hq]; rewrite Hp in Hq; injection Hq as -> -> ->; naive_solver. Qed.

Definition fits_b limits (event : JsonEvent) : bool :=
  match event_token event with
  | Some token => (str_len token <=? Npos (token_bytes limits))%N
  | None => true
  end.

Lemma fits_b_spec limits event : fits_b limits event = true ↔ fits limits event.
Proof.
  unfold fits_b, fits. destruct (event_token event) as [token|].
  - rewrite N.leb_le. naive_solver.
  - naive_solver.
Qed.

(** [next_event] never slices beyond its input. *)
Lemma next_event_eq parser remaining limits parser' consumed event :
  parse_next parser remaining true = (parser', (consumed, event)) →
  next_event parser remaining (token_bytes limits) =
    Some (parser', drop (N.to_nat consumed) remaining,
      match event with
      | None => Err NoEvent
      | Some (Err cause) => Err (SyntaxRefused cause)
      | Some (Ok e) => if fits_b limits e then Ok e else Err TokenBytes
      end).
Proof.
  intros Hp. unfold next_event. rewrite Hp. pose proof (consumes _ _ _ _ _ Hp) as Hc.
  destruct (N.leb_spec consumed (len remaining)); [|lia]. do 2 f_equal.
  destruct event as [[e|cause]|]; try done. unfold fits_b. destruct (event_token e) as [token|]; [|done].
  by destruct (N.ltb_spec (Npos (token_bytes limits)) (str_len token)),
    (N.leb_spec (str_len token) (Npos (token_bytes limits))); (done || lia).
Qed.

(** The bytes a parser leaves. *)
Lemma rest_shorter parser remaining parser' consumed e :
  parse_next parser remaining true = (parser', (consumed, Some (Ok e))) → e ≠ Eof →
  S (length (drop (N.to_nat consumed) remaining)) ≤ length remaining.
Proof.
  intros Hp He. pose proof (consumes _ _ _ _ _ Hp). pose proof (advances _ _ _ _ _ Hp He).
  rewrite length_drop. unfold len in *. lia.
Qed.

(** The rest of the input is acceptable. *)
Definition goes_on limits parser remaining depth : Prop :=
  ∃ events, parses parser remaining events ∧ conforms limits depth events.

(** What holds between the turns. *)
Definition ready limits parser remaining depth : Prop :=
  opened parser = depth ∧ (depth + len remaining ≤ usize_max)%N ∧ (depth ≤ Npos (nesting limits))%N.

Lemma goes_on_event limits parser remaining depth parser' consumed e :
  parse_next parser remaining true = (parser', (consumed, Some (Ok e))) → e ≠ Eof →
  goes_on limits parser remaining depth ↔
    ∃ events, parses parser' (drop (N.to_nat consumed) remaining) events ∧
      conforms limits depth (e :: events).
Proof.
  intros Hp He. split.
  - intros (events & Hps & Hc). destruct (parses_inv _ _ _ _ _ _ Hp Hps) as [[[= ->] _]|(e' & es & [= <-] & _ & -> & ?)]; [done|].
    by exists es.
  - intros (es & Hps & Hc). exists (e :: es). split; [|done]. by eapply parses_event.
Qed.

(** After an event that fits, and after which no key awaits its object. *)
Lemma goes_on_next limits parser remaining depth parser' consumed e :
  parse_next parser remaining true = (parser', (consumed, Some (Ok e))) → e ≠ Eof →
  fits limits e → (e ≠ ObjectKey "bombay" ∨ depth ≠ 1%N) →
  goes_on limits parser remaining depth ↔
    (deeper depth e ≤ Npos (nesting limits))%N ∧
    goes_on limits parser' (drop (N.to_nat consumed) remaining) (deeper depth e).
Proof.
  intros Hp He Hf Hk. rewrite goes_on_event by done. unfold goes_on.
  setoid_rewrite conforms_cons. naive_solver.
Qed.

Lemma refused_goes_nowhere limits parser remaining depth parser' consumed event :
  parse_next parser remaining true = (parser', (consumed, event)) →
  match event with Some (Ok e) => fits_b limits e = false ∧ e ≠ Eof | _ => True end →
  ¬ goes_on limits parser remaining depth.
Proof.
  intros Hp He (events & Hps & Hc).
  destruct (parses_inv _ _ _ _ _ _ Hp Hps) as [[-> ->]|(e & es & -> & _ & -> & _)]; [by destruct He|].
  destruct He as [He _]. apply conforms_cons in Hc as [[Hf _] _]. apply fits_b_spec in Hf. congruence.
Qed.

Lemma check_depth_spec limits parser remaining depth parser' consumed e depth' :
  parse_next parser remaining true = (parser', (consumed, Some (Ok e))) → e ≠ Eof →
  fits limits e → (e ≠ ObjectKey "bombay" ∨ depth ≠ 1%N) →
  ready limits parser remaining depth →
  (deeper depth e = depth')%N → opened parser' = depth' → (depth' ≤ depth + 1)%N →
  match check_depth limits parser' (drop (N.to_nat consumed) remaining) (Some depth') with
  | Overflows => False
  | Returns result => result = Ok () ↔ goes_on limits parser remaining depth
  | Continues parser'' remaining'' depth'' =>
      ready limits parser'' remaining'' depth'' ∧ S (length remaining'') ≤ length remaining ∧
      (goes_on limits parser'' remaining'' depth'' ↔ goes_on limits parser remaining depth)
  end.
Proof.
  intros Hp He Hf Hk (Ho & Hl & Hn) <- Ho' Hd. pose proof (rest_shorter _ _ _ _ _ Hp He) as Hs.
  pose proof (goes_on_next limits parser remaining depth _ _ _ Hp He Hf Hk) as Hg. cbn.
  destruct (N.ltb_spec (Npos (nesting limits)) (deeper depth e)) as [Hgt|Hle].
  - split; [done|]. intros [? _]%Hg. lia.
  - split_and!; [split_and!; [done| |done]|lia|naive_solver].
    unfold len in *. lia.
Qed.

(** A metadata key at the top: the next event must open its object. *)
Lemma metadata_goes_on limits parser remaining parser' consumed :
  parse_next parser remaining true = (parser', (consumed, Some (Ok (ObjectKey "bombay")))) →
  fits limits (ObjectKey "bombay") → (1 ≤ Npos (nesting limits))%N →
  goes_on limits parser remaining 1 ↔
    ∃ events, parses parser' (drop (N.to_nat consumed) remaining) events ∧
      events !! 0 = Some StartObject ∧ conforms limits 1 events.
Proof.
  intros Hp Hf Hn. rewrite goes_on_event by done. setoid_rewrite conforms_cons. cbn. naive_solver.
Qed.

Lemma metadata_turn_spec limits parser remaining parser' consumed :
  parse_next parser remaining true = (parser', (consumed, Some (Ok (ObjectKey "bombay")))) →
  fits limits (ObjectKey "bombay") → ready limits parser remaining 1 →
  match
    match next_event parser' (drop (N.to_nat consumed) remaining) (token_bytes limits) with
    | None => Overflows
    | Some (_, _, Err cause) => Returns (Err cause)
    | Some (parser, remaining, Ok StartObject) =>
        check_depth limits parser remaining (checked_add usize_max 1 1)
    | Some (_, _, Ok _) => Returns (Err MetadataObject)
    end
  with
  | Overflows => False
  | Returns result => result = Ok () ↔ goes_on limits parser remaining 1
  | Continues parser' remaining' depth' =>
      ready limits parser' remaining' depth' ∧ S (length remaining') ≤ length remaining ∧
      (goes_on limits parser' remaining' depth' ↔ goes_on limits parser remaining 1)
  end.
Proof.
  intros Hp Hf (Ho & Hl & Hn). pose proof (metadata_goes_on _ _ _ _ _ Hp Hf Hn) as Hg.
  pose proof (nests _ _ _ _ _ Hp) as Ho'. cbn in Ho'.
  assert (S (length (drop (N.to_nat consumed) remaining)) ≤ length remaining) as Hs
    by by eapply rest_shorter.
  set (rest := drop (N.to_nat consumed) remaining) in *.
  destruct (parse_next parser' rest true) as [parser'' [consumed' event]] eqn:Hp'.
  rewrite (next_event_eq _ _ _ _ _ _ Hp').
  pose proof (refused_goes_nowhere limits parser' rest 1 _ _ _ Hp') as Hrefused.
  assert (goes_on limits parser remaining 1 → goes_on limits parser' rest 1) as Hweak
    by (intros (es & ? & _ & ?)%Hg; by exists es).
  destruct event as [[e|cause]|]; [|split; [done|]; by intros ?%Hweak%Hrefused..].
  destruct (fits_b limits e) eqn:Hb.
  2: { split; [done|]. intros Hgo%Hweak. destruct (decide (e = Eof)) as [->|]; [done|]. by destruct Hrefused. }
  destruct (decide (e = StartObject)) as [->|Hne].
  - assert (checked_add usize_max 1 1 = Some 2%N) as -> by done.
    pose proof (check_depth_spec limits parser' rest 1 _ _ _ 2 Hp' ltac:(done) ltac:(done)
      ltac:(by left) ltac:(split_and!; unfold len in *; (done || congruence || lia)) ltac:(done)
      ltac:(by rewrite (nests _ _ _ _ _ Hp'), Ho', Ho) ltac:(lia)) as Hd.
    assert (goes_on limits parser remaining 1 ↔ goes_on limits parser' rest 1) as Heq.
    { split; [done|]. intros Hgo. apply Hg. destruct Hgo as (es & Hps & Hc). exists es. split_and!; [done| |done].
      destruct (parses_inv _ _ _ _ _ _ Hp' Hps) as [[[=] _]|(? & ? & [= <-] & _ & -> & _)]. done. }
    destruct (check_depth _ _ _ _); [|naive_solver|done].
    destruct Hd as (? & ? & ?). split_and!; [done|lia|naive_solver].
  - assert (¬ goes_on limits parser remaining 1) as Hno.
    { intros (es & Hps & Hhd & _)%Hg.
      destruct (parses_inv _ _ _ _ _ _ Hp' Hps) as [[_ ->]|(? & ? & [= <-] & _ & -> & _)]; [done|].
      by injection Hhd. }
    by destruct e; (done || (split; [done|]; intros ?)).
Qed.

Lemma check_turn_spec limits parser remaining depth :
  ready limits parser remaining depth →
  match check_turn limits parser remaining depth with
  | Overflows => False
  | Returns result => result = Ok () ↔ goes_on limits parser remaining depth
  | Continues parser' remaining' depth' =>
      ready limits parser' remaining' depth' ∧ S (length remaining') ≤ length remaining ∧
      (goes_on limits parser' remaining' depth' ↔ goes_on limits parser remaining depth)
  end.
Proof.
  intros Hr. destruct (parse_next parser remaining true) as [parser' [consumed event]] eqn:Hp.
  unfold check_turn. rewrite (next_event_eq _ _ _ _ _ _ Hp).
  pose proof (refused_goes_nowhere limits parser remaining depth _ _ _ Hp) as Hrefused.
  destruct event as [[e|cause]|]; [|split; [done|]; by intros ?%Hrefused..].
  destruct (decide (e = Eof)) as [->|Hne].
  { cbn. split; [|done]. intros _. exists []. split; [by eapply parses_eof|apply conforms_nil]. }
  destruct (fits_b limits e) eqn:Hb; [|split; [done|]; by intros []%Hrefused].
  apply fits_b_spec in Hb. pose proof (nests _ _ _ _ _ Hp) as Ho. clear Hrefused.
  pose proof (λ depth', check_depth_spec limits parser remaining depth parser' consumed e depth' Hp Hne Hb) as Hd.
  pose proof Hr as (Hop & Hl & Hn). pose proof (rest_shorter _ _ _ _ _ Hp Hne) as Hs.
  assert (checked_add usize_max depth 1 = Some (depth + 1)%N) as Hadd.
  { apply checked_add_Some. unfold len in *. split; [done|lia]. }
  assert (∀ depth', opened parser = (depth' + 1)%N → checked_sub depth 1 = Some depth') as Hsub.
  { intros depth' ?. apply checked_sub_Some. congruence. }
  destruct e as [token|token|key| | | | | |]; try done; try rewrite Hadd; try rewrite (Hsub _ Ho);
    try (apply Hd; cbn; first [done|lia|left; discriminate|congruence]).
  destruct (depth =? 1)%N eqn:Hone; cbn [andb].
  2: { apply N.eqb_neq in Hone. apply Hd; cbn; first [done|lia|by right|congruence]. }
  case_bool_decide as Hkey; [|apply Hd; cbn; first [done|lia|left; congruence|congruence]].
  apply N.eqb_eq in Hone. subst key depth. rewrite Hone in *.
  by apply metadata_turn_spec.
Qed.

(** Every turn leaves fewer bytes, so one more turn than bytes is enough. *)
Lemma check_loop_spec fuel limits parser remaining depth :
  ready limits parser remaining depth → length remaining < fuel →
  ∃ result, check_loop fuel limits parser remaining depth = Some (Some result) ∧
    (result = Ok () ↔ goes_on limits parser remaining depth).
Proof.
  revert parser remaining depth. induction fuel as [|fuel IH]; intros parser remaining depth Hr Hf; [lia|].
  cbn. pose proof (check_turn_spec _ _ _ _ Hr) as Ht.
  destruct (check_turn _ _ _ _) as [parser' remaining' depth'|result|]; [|by exists result|done].
  destruct Ht as (Hr' & Hs & Hg). destruct (IH _ _ _ Hr' ltac:(lia)) as (result & -> & Hresult).
  exists result. split; [done|]. by rewrite Hresult.
Qed.

(** The check returns on every input. *)
Lemma check_decides (protected proof : Bytes) limits :
  (Npos (input_bytes limits) ≤ usize_max)%N →
  ∃ result, check protected proof limits = Some (Some result) ∧
    (result = Ok () ↔ acceptable protected proof limits).
Proof.
  intros Hmax. unfold check, acceptable.
  destruct (N.ltb_spec (Npos (input_bytes limits)) (len protected)) as [Hi|Hi].
  { exists (Err InputBytes). split; [done|]. split; [done|]. intros (? & _). lia. }
  destruct (N.ltb_spec (Npos (proof_bytes limits)) (len proof)) as [Hp|Hp].
  { exists (Err ProofBytes). split; [done|]. split; [done|]. intros (_ & ? & _). lia. }
  set (parser := with_max_stack_size _). pose proof (opened_new _ : opened parser = 0%N) as Ho.
  destruct (parse_next parser protected true) as [parser' [consumed event]] eqn:Hnext.
  rewrite (next_event_eq _ _ _ _ _ _ Hnext).
  pose proof (refused_goes_nowhere limits parser protected 0 _ _ _ Hnext) as Hrefused.
  assert (acceptable protected proof limits → goes_on limits parser protected 0) as Hweak
    by (intros (_ & _ & es & ? & _ & ?); by exists es).
  destruct event as [[e|cause]|]; [|eexists; split; [done|]; split; [done|]; by intros ?%Hweak%Hrefused..].
  destruct (fits_b limits e) eqn:Hb.
  2: { eexists; split; [done|]. split; [done|]. intros Hgo. destruct (decide (e = Eof)) as [->|]; [done|].
       by destruct Hrefused; [|apply Hweak]. }
  destruct (decide (e = StartObject)) as [->|Hne].
  - assert (deeper 0 StartObject = 1%N) as Hone by done.
    pose proof (rest_shorter _ _ _ _ _ Hnext ltac:(done)) as Hs.
    set (rest := drop (N.to_nat consumed) protected) in *.
    destruct (check_loop_spec (S (length protected)) limits parser' rest 1) as (result & -> & Hresult).
    { split_and!; [by rewrite (nests _ _ _ _ _ Hnext), Ho|unfold len in *; lia|lia]. }
    { lia. }
    exists result. split; [done|]. rewrite Hresult. split.
    + intros (es & Hps & Hc). split_and!; [done|done|]. exists (StartObject :: es).
      split_and!; [by eapply parses_event|done|]. apply conforms_cons. cbn. split_and!; (done || lia).
    + intros (_ & _ & es & Hps & _ & Hc).
      destruct (parses_inv _ _ _ _ _ _ Hnext Hps) as [[[=] _]|(? & es' & [= <-] & _ & -> & Hps')].
      exists es'. split; [done|]. by apply conforms_cons in Hc as [_ Hc].
  - assert (¬ acceptable protected proof limits) as Hno.
    { intros (_ & _ & es & Hps & Hhd & _).
      destruct (parses_inv _ _ _ _ _ _ Hnext Hps) as [[_ ->]|(? & ? & [= <-] & _ & -> & _)]; [done|].
      by injection Hhd. }
    by destruct e; (done || (eexists; split; [done|]; split; [done|]; intros ?)).
Qed.

Lemma check_returns (protected proof : Bytes) limits :
  (Npos (input_bytes limits) ≤ usize_max)%N → ∃ result, check protected proof limits = Some (Some result).
Proof. intros Hmax. destruct (check_decides protected proof limits Hmax) as (result & ? & _). by exists result. Qed.

(** C16: The bounded check of protected JSON returns on every input, without a
    panic: no slice leaves the input, no depth under- or overflows and the loop
    ends.  It accepts exactly the messages within the byte limits whose events
    start with an object, end with the native end, hold no token longer than
    selected, are never nested deeper than selected, and in which an object
    follows every metadata key of the outer object. *)
Theorem json_check_decides (protected proof : Bytes) limits :
  (Npos (input_bytes limits) ≤ usize_max)%N →
  ∃ result, check protected proof limits = Some (Some result) ∧
    (result = Ok () ↔ acceptable protected proof limits).
Proof.
  exact (check_decides protected proof limits).
Qed.
End laws.
End Json.

(** ** Custody of an original at the ingress *)

Module Ingress.
(** What the channel returns when it does not take an item. *)
Variant TrySendError {T : Type} := Full (item : T) | Closed (item : T).
Arguments TrySendError : clear implicits.

(** The semaphore that counts originals and the channel that carries them. *)
Class IngressHost (World Original : Type) := {
  Semaphore : Type;
  Permit : Type;
  TryAcquireError : Type;
  Sender : Type;
  try_acquire_owned : Semaphore → World → World * Result Permit TryAcquireError;
  try_send : Sender → Original * Permit → World → World * Result () (TrySendError (Original * Permit))
}.

Class IngressLaw {World Original} `{!IngressHost World Original} := try_send_returns sender item w w' error :
  try_send sender item w = (w', Err error) → error = Full item ∨ error = Closed item.

Section retain.
Context {World Original : Type} {IH : IngressHost World Original}.

(** A refused transfer keeps its original, and its charge once it has one. *)
Variant IngressError :=
  | Capacity (original : Original) (cause : TryAcquireError)
  | Queue (cause : TrySendError (Original * Permit)).

Definition try_retain (ingress : Sender) (capacity : Semaphore) (original : Original) (w : World) :
    World * Result () IngressError :=
  let '(w, acquired) := try_acquire_owned capacity w in
  match acquired with
  | Err cause => (w, Err (Capacity original cause))
  | Ok permit => let '(w, sent) := try_send ingress (original, permit) w in (w, map_err Queue sent)
  end.

(** What a refusal holds. *)
Definition refused_original (error : IngressError) : Original :=
  match error with
  | Capacity original _ => original
  | Queue (Full (original, _) | Closed (original, _)) => original
  end.

Lemma try_retain_returns `{!IngressLaw} ingress capacity original w w' error :
  try_retain ingress capacity original w = (w', Err error) → refused_original error = original.
Proof.
  unfold try_retain. destruct (try_acquire_owned capacity w) as [w1 [permit|cause]]; [|by intros [= <- <-]].
  destruct (try_send ingress (original, permit) w1) as [w2 [|refusal]] eqn:Hs; [done|].
  intros [= <- <-]. by destruct (try_send_returns _ _ _ _ _ Hs) as [-> | ->].
Qed.
End retain.
End Ingress.

(** ** A provider and its result *)

Module Verification.
(** What one poll of the provider's future does. *)
Variant Polled {Panic V : Type} := Polled_Ready (value : V) | Polled_Pending | Polled_Unwound (cause : Panic).
Arguments Polled : clear implicits.

(** The slots outside the provider's future. *)
Record Provision {Panic V : Type} := {
  retained : option V;
  construction : option Panic;
  polling : option Panic;
  disposal : option Panic
}.
Arguments Provision : clear implicits.

Section provide.
Context {Panic V : Type}.
Implicit Types (slots : Provision Panic V) (polled : Polled Panic V).

Definition no_provision : Provision Panic V :=
  {| retained := None; construction := None; polling := None; disposal := None |}.

(** [poll_verification]: an occupied slot keeps the future from being polled. *)
Definition poll_verification polled (slot : option V) : option V * Polled Panic () :=
  match slot with
  | Some value => (Some value, Polled_Ready ())
  | None =>
      match polled with
      | Polled_Pending => (None, Polled_Pending)
      | Polled_Ready value => (Some value, Polled_Ready ())
      | Polled_Unwound cause => (None, Polled_Unwound cause)
      end
  end.

(** [Provider::poll]: what unwinds is kept and ends the provider; true: ready. *)
Definition Provider_poll polled slots : Provision Panic V * bool :=
  let '(value, result) := poll_verification polled (retained slots) in
  let slots := {| retained := value; construction := construction slots; polling := polling slots;
                  disposal := disposal slots |} in
  match result with
  | Polled_Ready _ => (slots, true)
  | Polled_Pending => (slots, false)
  | Polled_Unwound cause =>
      ({| retained := value; construction := construction slots; polling := Some cause;
          disposal := disposal slots |}, true)
  end.

(** [Provider::drop]; [dropped] is the unwinding of the future's destructor. *)
Definition Provider_drop (dropped : option Panic) slots : Provision Panic V :=
  match dropped with
  | Some cause => {| retained := retained slots; construction := construction slots;
                     polling := polling slots; disposal := Some cause |}
  | None => slots
  end.

(** The beginning of [provide]: the factory makes the future or unwinds; true:
    the future is to be polled. *)
Definition provide_begin (made : option Panic) slots : Provision Panic V * bool :=
  match made with
  | None => (slots, true)
  | Some cause => ({| retained := retained slots; construction := Some cause;
                      polling := polling slots; disposal := disposal slots |}, false)
  end.

(** One poll of [provide]: its provider before the join; true: it has returned,
    and the provider is disposed. *)
Definition provide_poll polled (joined : bool) (dropped : option Panic) slots :
    Provision Panic V * bool :=
  let '(slots, ready) := Provider_poll polled slots in
  if ready || joined then (Provider_drop dropped slots, true) else (slots, false).

(** None of the three callbacks unwound. *)
Definition unharmed slots : bool :=
  match construction slots, polling slots, disposal slots with
  | None, None, None => true
  | _, _, _ => false
  end.

(** A result once acquired is never lost or replaced, not even by a destructor
    that unwinds. *)
Lemma provide_keeps polled joined dropped slots value :
  retained slots = Some value → retained (provide_poll polled joined dropped slots).1 = Some value.
Proof. intros Hr. unfold provide_poll, Provider_poll, Provider_drop. rewrite Hr. by destruct dropped. Qed.

(** What is newly acquired is what the future returned. *)
Lemma provide_acquires polled joined dropped slots value :
  retained slots = None → retained (provide_poll polled joined dropped slots).1 = Some value →
  polled = Polled_Ready value.
Proof.
  intros Hr. unfold provide_poll, Provider_poll, Provider_drop. rewrite Hr.
  destruct polled, joined, dropped; cbn; congruence.
Qed.
End provide.
End Verification.

(** ** Traces *)

Module Trace.
(** Events that need a permission directly follow it. *)
Definition licensed {E : Type} (license : E → option E) (events : list E) : Prop :=
  ∀ p event permission, events !! p = Some event → license event = Some permission →
    ∃ q, p = S q ∧ events !! q = Some permission.

Section licensed.
Context {E : Type} (license : E → option E).

Lemma licensed_nil : licensed license [].
Proof. by intros p event permission Hp. Qed.

Lemma licensed_one event : license event = None → licensed license [event].
Proof. intros He [|p] event' permission; [|done]. intros [= <-]. congruence. Qed.

Lemma licensed_two event permission :
  license permission = None → license event = Some permission → licensed license [permission; event].
Proof.
  intros Hp He [|[|p]] event' permission'; [| |done].
  - intros [= <-]. congruence.
  - intros [= <-]. rewrite He. intros [= <-]. by exists 0.
Qed.

Lemma licensed_app events more :
  licensed license events → licensed license more → licensed license (events ++ more).
Proof.
  intros He Hm p event permission Hp Hl. apply lookup_app_Some in Hp as [Hp|[Hle Hp]].
  - destruct (He _ _ _ Hp Hl) as (q & -> & Hq). exists q. split; [done|]. by apply lookup_app_l_Some.
  - destruct (Hm _ _ _ Hp Hl) as (q & Hq & Hpq). exists (length events + q). split; [lia|].
    rewrite lookup_app_r by lia. by replace (length events + q - length events) with q by lia.
Qed.
End licensed.

Section lists.
Context {A B : Type}.

(** What [omap] makes of one and of two elements of a list. *)
Lemma omap_one (f : A → option B) (l : list A) p x a :
  l !! p = Some x → f x = Some a → a ∈ omap f l.
Proof. intros Hp Ha. apply list_elem_of_omap. exists x. split; [by eapply list_elem_of_lookup_2|done]. Qed.

Lemma omap_two (f : A → option B) (l : list A) p q x y a b :
  l !! p = Some x → l !! q = Some y → p < q → f x = Some a → f y = Some b →
  ∃ l1 l2 l3, omap f l = l1 ++ a :: l2 ++ b :: l3.
Proof.
  intros Hp Hq Hpq Ha Hb. rewrite <- (take_drop_middle _ _ _ Hp).
  assert (drop (S p) l !! (q - S p) = Some y) as Hd by (rewrite lookup_drop; by replace (S p + (q - S p)) with q by lia).
  rewrite <- (take_drop_middle _ _ _ Hd). exists (omap f (take p l)), (omap f (take (q - S p) (drop (S p) l))).
  eexists. rewrite omap_app. cbn. rewrite Ha, omap_app. cbn. by rewrite Hb.
Qed.

(** The first of two elements of a list is before its last element, and the second
    after it. *)
Lemma two_before_last {C} (l1 l2 l3 k : list C) x y z :
  l1 ++ x :: l2 ++ y :: l3 = k ++ [z] → ∃ k', k = l1 ++ x :: k' ∧ y ∈ k' ++ [z].
Proof.
  intros Heq. destruct l3 as [|w l3 _] using rev_ind.
  - replace (l1 ++ x :: l2 ++ [y]) with ((l1 ++ x :: l2) ++ [y]) in Heq by by rewrite <- app_assoc.
    apply app_inj_tail in Heq as [<- ->]. exists l2. split; [done|]. set_solver.
  - replace (l1 ++ x :: l2 ++ y :: l3 ++ [w]) with ((l1 ++ x :: l2 ++ y :: l3) ++ [w]) in Heq
      by (rewrite <- app_assoc; cbn; by rewrite <- app_assoc).
    apply app_inj_tail in Heq as [<- _]. exists (l2 ++ y :: l3). split; [done|]. set_solver.
Qed.
End lists.
End Trace.
