(* ===== verification/RemoteDeclaration.v ===== *)
(** * Operations of an exported actor

    [crates/bombay/src/remote/export/declaration.rs]: how a decoded input
    becomes a native operation on the exported actor: a message with a reply
    endpoint ([Reply]), a message that is only acknowledged ([Submission]), an
    orderly shutdown ([Stop]), and the pair of two declarations.  The class
    [Commands] is what an export uses of a declaration; [CommandsLaw] is what it
    relies on, and every declaration of the source is an instance. *)

From S2P Require Import Prelude Assessment Endpoint RemoteIngress.

(** An attempted operation and what it returned. *)
Variant Attempt {A : Type} := Unattempted | Uncertain | Returned (value : A).
Arguments Attempt : clear implicits.

(** The types of an export and of the application it exports. *)
Class ExportTypes := {
  Input : Type;
  Receipt : Type;
  Message : Type;
  Client : Type;
  Recipient : Type;
  recipient : Client → Recipient;
  ReplyMessage : Type;
  ExternalActorError : Type;
  EncodingError : Type
}.

(** What the actor and its application answer to one segment of an operation. *)
Record Answers `{ExportTypes} := {
  new_client : Result Client ExternalActorError;
  try_send : Message → Result () (TrySendError Message);
  shutdown : Result () ShutdownRejection;
  reply_received : option ReplyMessage;
  queued_replies : list ReplyMessage;
  retirement_report : ActorRetirementReport
}.

(** [try_send] returns the message it does not take. *)
Definition honest `{ExportTypes} (a : Answers) : Prop :=
  ∀ message error, try_send a message = Err error →
    error = TrySend_Full message ∨ error = TrySend_Closed message.

(** The calls an operation makes to its actor. *)
Variant Call `{ExportTypes} :=
  | Call_Send (message : Message) (answer : Result () (TrySendError Message))
  | Call_Shutdown (answer : Result () ShutdownRejection).

Definition is_accepted `{ExportTypes} (call : Call) : bool :=
  match call with Call_Send _ answer => is_Ok answer | Call_Shutdown answer => is_Ok answer end.

(** What [prepare_attempt] returns: no attempt, an attempt, or a refusal for want
    of authority. *)
Variant Preparation := No_Attempt | An_Attempt | No_Authority.

(** An operation of an export: [Commands], [Delivery] and [Reception].  The
    callback [canonical] is a flag beside what each step returns: it was called. *)
Class Commands `{ExportTypes} (Native : Type) := {
  select : Input → Result Native Input;
  is_full : Native → bool;
  prepare : Answers → Native → Native * option (Result () ExternalActorError);
  prepare_attempt : Native → Native * bool * Preparation;
  attempt : Answers → Native → Native * bool * option Call;
  receives : Native → bool;
  received : Answers → Native → Native;
  encode : Receipt → Native → option (Result Bytes EncodingError);
  drain : Answers → Native → Native
}.

(** *** What an export relies on *)

(** Where an operation stands: its command is not constructed; constructed and not
    sent; returned by a full mailbox; or sent for good. *)
Variant Status `{ExportTypes} := Idle | Stalled | Held (message : Message) | Spent.

Definition status_after `{ExportTypes} (call : Call) : Status :=
  match call with Call_Send message (Err (TrySend_Full _)) => Held message | _ => Spent end.

(** Every attempt makes one call, the first one only with [canonical] called, and
    a retry sends the message that was returned. *)
Class CommandsLaw `{!ExportTypes} {Native} (commands : Commands Native) := {
  status : Native → Status;
  select_idle input native : select input = Ok native → status native = Idle;
  prepare_idle a native : status native = Idle → status (prepare a native).1 = Idle;
  spent_not_full native : status native = Spent → is_full native = false;
  first_attempt a native native' canonical :
    honest a → status native = Idle → prepare_attempt native = (native', canonical, An_Attempt) →
    ∃ native'' canonical' call,
      attempt a native' = (native'', canonical', Some call) ∧ canonical || canonical' = true ∧
      status native'' = status_after call;
  next_attempt a native native' canonical message :
    honest a → status native = Held message →
    prepare_attempt native = (native', canonical, An_Attempt) →
    ∃ native'' canonical' answer,
      attempt a native' = (native'', canonical', Some (Call_Send message answer)) ∧
      status native'' = status_after (Call_Send message answer)
}.

Section declarations.
Context {ET : ExportTypes}.
Implicit Types (a : Answers) (input : Input) (receipt : Receipt).

(** ** [Reply] and [Submission] *)

(** The part of an original that constructs the command and sends it; the
    recipient is the client's for [Reply]. *)
Record Delivering {Constructor : Type} := {
  construction : option (Constructor + Message);
  client : Attempt (Result Client ExternalActorError);
  admission : Attempt (Result () (TrySendError Message))
}.
Arguments Delivering : clear implicits.

Section delivering.
Context {Constructor : Type} (construct : Constructor → Client → Message).
Implicit Types (native : Delivering Constructor).

Definition new_delivering (constructor : Constructor) : Delivering Constructor :=
  {| construction := Some (inl constructor); client := Unattempted; admission := Unattempted |}.

Definition delivering_is_full native : bool :=
  match admission native with Returned (Err (TrySend_Full _)) => true | _ => false end.

Definition set_client (value : Attempt (Result Client ExternalActorError)) native : Delivering Constructor :=
  {| construction := construction native; client := value; admission := admission native |}.
Definition set_construction (value : option (Constructor + Message)) native : Delivering Constructor :=
  {| construction := value; client := client native; admission := admission native |}.
Definition set_admission (value : Attempt (Result () (TrySendError Message))) native :
    Delivering Constructor :=
  {| construction := construction native; client := client native; admission := value |}.

Definition delivering_prepare a native :
    Delivering Constructor * option (Result () ExternalActorError) :=
  (set_client (Returned (new_client a)) native,
   match new_client a with Ok _ => Some (Ok ()) | Err cause => Some (Err cause) end).

Definition delivering_prepare_attempt native : Delivering Constructor * bool * Preparation :=
  match client native with
  | Returned (Ok client) =>
      let '(native, canonical) :=
        match construction native with
        | Some (inl constructor) =>
            (set_construction (Some (inr (construct constructor client))) native, true)
        | Some (inr command) => (native, false)
        | None => (native, false)
        end in
      match construction native with
      | None => if delivering_is_full native then (native, canonical, An_Attempt)
                else (native, canonical, No_Attempt)
      | Some _ => (native, canonical, An_Attempt)
      end
  | _ => (native, false, No_Attempt)
  end.

(** The command of the attempt: constructed, or returned by a full mailbox;
    [None] is the unreachable arm. *)
Definition take_command native : option (Delivering Constructor * Message) :=
  match construction native with
  | Some (inr command) => Some (set_construction None native, command)
  | _ =>
      match admission native with
      | Returned (Err (TrySend_Full command)) =>
          Some (set_construction None (set_admission Uncertain native), command)
      | _ => None
      end
  end.

Definition delivering_attempt a native : Delivering Constructor * bool * option Call :=
  match take_command native with
  | None => (native, false, None)
  | Some (native, command) =>
      (set_admission (Returned (try_send a command)) native, false,
       Some (Call_Send command (try_send a command)))
  end.
End delivering.

(** [Reply]: the projection gives a constructor that takes the reply's recipient. *)
Record ReplyOriginal := {
  reply_delivering : Delivering (Recipient → Message);
  reply_slot : option (option ReplyMessage);
  reply_tail : list (option ReplyMessage)
}.

Definition set_reply_delivering (value : Delivering (Recipient → Message)) (native : ReplyOriginal) :
    ReplyOriginal :=
  {| reply_delivering := value; reply_slot := reply_slot native; reply_tail := reply_tail native |}.
Definition set_reply_slot (value : option (option ReplyMessage)) (native : ReplyOriginal) : ReplyOriginal :=
  {| reply_delivering := reply_delivering native; reply_slot := value; reply_tail := reply_tail native |}.

(** The loop of [Reply::drain] over what a closed endpoint still holds, up to its
    end. *)
Fixpoint drain_tail (queued : list ReplyMessage) (tail : list (option ReplyMessage)) :
    list (option ReplyMessage) :=
  match last tail with
  | Some None => tail
  | _ =>
      match queued with
      | [] => tail ++ [None]
      | reply :: queued => drain_tail queued (tail ++ [Some reply])
      end
  end.

Definition reply_drain (a : Answers) (native : ReplyOriginal) : ReplyOriginal :=
  match reply_slot native, client (reply_delivering native) with
  | Some None, _ => native
  | _, Returned (Ok _) =>
      {| reply_delivering := reply_delivering native; reply_slot := reply_slot native;
         reply_tail := drain_tail (queued_replies a) (reply_tail native) |}
  | _, _ => native
  end.

(** [Reply::receive] awaits a reply unless the command was certainly not taken. *)
Definition reply_receives (native : ReplyOriginal) : bool :=
  match admission (reply_delivering native), client (reply_delivering native) with
  | (Uncertain | Returned (Ok _)), Returned (Ok _) => true
  | _, _ => false
  end.

Section reply.
Context (projection : Input → Result (Recipient → Message) Input).
Context (encode_reply : Receipt → ReplyMessage → Result Bytes EncodingError).

Definition Reply : Commands ReplyOriginal := {|
  select input :=
    match projection input with
    | Ok constructor =>
        Ok {| reply_delivering := new_delivering constructor; reply_slot := None; reply_tail := [] |}
    | Err input => Err input
    end;
  is_full native := delivering_is_full (reply_delivering native);
  prepare a native :=
    let '(delivering, result) := delivering_prepare a (reply_delivering native) in
    (set_reply_delivering delivering native, result);
  prepare_attempt native :=
    let '(delivering, canonical, result) :=
      delivering_prepare_attempt (λ constructor client, constructor (recipient client))
        (reply_delivering native) in
    (set_reply_delivering delivering native, canonical, result);
  attempt a native :=
    let '(delivering, canonical, call) := delivering_attempt a (reply_delivering native) in
    (set_reply_delivering delivering native, canonical, call);
  receives := reply_receives;
  received a native := set_reply_slot (Some (reply_received a)) native;
  encode receipt native :=
    match reply_slot native with Some (Some reply) => Some (encode_reply receipt reply) | _ => None end;
  drain := reply_drain
|}.
End reply.

(** [Submission]: the constructor takes nothing and the admission is the reply. *)
Section submission.
Context (projection : Input → Result (() → Message) Input).
Context (encode_admission :
  Receipt → Attempt (Result () (TrySendError Message)) → Result Bytes EncodingError).

Definition Submission : Commands (Delivering (() → Message)) := {|
  select input :=
    match projection input with Ok constructor => Ok (new_delivering constructor) | Err input => Err input end;
  is_full := delivering_is_full;
  prepare := delivering_prepare;
  prepare_attempt := delivering_prepare_attempt (λ constructor _, constructor ());
  attempt := delivering_attempt;
  receives _ := false;
  received _ native := native;
  encode receipt native := Some (encode_admission receipt (admission native));
  drain _ native := native
|}.
End submission.

(** ** [Stop] *)

(** The admission, and the report of the target's retirement. *)
Definition StopOriginal : Type := Attempt (Result () ShutdownRejection) * option ActorRetirementReport.

(** [authority]: the target has its exact shutdown capability. *)
Section stop.
Context (authority : bool) (projection : Input → Result () Input).
Context (encode_stop : Receipt → StopOriginal → Result Bytes EncodingError).

Definition Stop : Commands StopOriginal := {|
  select input := match projection input with Ok _ => Ok (Unattempted, None) | Err input => Err input end;
  is_full _ := false;
  prepare _ native := (native, None);
  prepare_attempt native := (native, false, if authority then An_Attempt else No_Authority);
  attempt a native := ((Returned (shutdown a), native.2), true, Some (Call_Shutdown (shutdown a)));
  receives _ := authority;
  received a native := (native.1, Some (retirement_report a));
  encode receipt native := Some (encode_stop receipt native);
  drain _ native := native
|}.
End stop.

(** ** Two declarations: the first that selects the input *)

Section pair.
Context {L R : Type} (left : Commands L) (right : Commands R).

Definition Both : Commands (L + R) := {|
  select input :=
    match select (Commands := left) input with
    | Ok native => Ok (inl native)
    | Err input =>
        match select (Commands := right) input with
        | Ok native => Ok (inr native)
        | Err input => Err input
        end
    end;
  is_full native := match native with inl native => is_full native | inr native => is_full native end;
  prepare a native :=
    match native with
    | inl native => let '(native, result) := prepare a native in (inl native, result)
    | inr native => let '(native, result) := prepare a native in (inr native, result)
    end;
  prepare_attempt native :=
    match native with
    | inl native => let '(native, canonical, result) := prepare_attempt native in (inl native, canonical, result)
    | inr native => let '(native, canonical, result) := prepare_attempt native in (inr native, canonical, result)
    end;
  attempt a native :=
    match native with
    | inl native => let '(native, canonical, call) := attempt a native in (inl native, canonical, call)
    | inr native => let '(native, canonical, call) := attempt a native in (inr native, canonical, call)
    end;
  receives native := match native with inl native => receives native | inr native => receives native end;
  received a native :=
    match native with inl native => inl (received a native) | inr native => inr (received a native) end;
  encode receipt native :=
    match native with inl native => encode receipt native | inr native => encode receipt native end;
  drain a native :=
    match native with inl native => inl (drain a native) | inr native => inr (drain a native) end
|}.
End pair.

(** ** Proofs *)

(** The part of [CommandsLaw] of an original that sends. *)
Definition delivering_status {Constructor} (native : Delivering Constructor) : Status :=
  match construction native, admission native with
  | Some (inl _), _ => Idle
  | Some (inr _), _ => Stalled
  | None, Returned (Err (TrySend_Full message)) => Held message
  | None, _ => Spent
  end.

Section delivering_law.
Context {Constructor : Type} (construct : Constructor → Client → Message).
Implicit Types (native : Delivering Constructor).

Lemma delivering_spent native : delivering_status native = Spent → delivering_is_full native = false.
Proof.
  unfold delivering_is_full, delivering_status.
  destruct (construction native) as [[]|]; try done. by destruct (admission native) as [| |[|[message|]]].
Qed.

(** After the answer of the mailbox. *)
Lemma sent_status a message (cl : Attempt (Result Client ExternalActorError)) :
  honest a →
  delivering_status {| construction := @None (Constructor + Message); client := cl;
                       admission := Returned (try_send a message) |} =
    status_after (Call_Send message (try_send a message)).
Proof.
  intros Ha. unfold delivering_status. cbn. destruct (try_send a message) as [|error] eqn:Hs; [done|].
  by destruct (Ha _ _ Hs) as [-> | ->].
Qed.

Lemma delivering_first_attempt a native native' canonical :
  honest a → delivering_status native = Idle →
  delivering_prepare_attempt construct native = (native', canonical, An_Attempt) →
  canonical = true ∧ ∃ command native'',
    delivering_attempt a native' = (native'', false, Some (Call_Send command (try_send a command))) ∧
    delivering_status native'' = status_after (Call_Send command (try_send a command)).
Proof.
  intros Ha Hi. unfold delivering_prepare_attempt.
  destruct (client native) as [| |[cl|]]; try done.
  unfold delivering_status in Hi. destruct (construction native) as [[constructor|command]|]; try done.
  2: { by destruct (admission native) as [| |[|[]]]. }
  cbn. intros [= <- <-]. split; [done|]. exists (construct constructor cl). eexists. split; [done|].
  by apply sent_status.
Qed.

Lemma delivering_next_attempt a native native' canonical message :
  honest a → delivering_status native = Held message →
  delivering_prepare_attempt construct native = (native', canonical, An_Attempt) →
  ∃ native'',
    delivering_attempt a native' = (native'', false, Some (Call_Send message (try_send a message))) ∧
    delivering_status native'' = status_after (Call_Send message (try_send a message)).
Proof.
  intros Ha Hi. unfold delivering_prepare_attempt.
  destruct (client native) as [| |[cl|]] eqn:Hcl; try done.
  unfold delivering_status in Hi. destruct (construction native) as [[constructor|command]|] eqn:Hc; try done.
  destruct (admission native) as [| |[|[command|]]] eqn:Had; try done. injection Hi as ->.
  cbn. unfold delivering_is_full. rewrite Hc, Had. intros [= <- <-].
  eexists. unfold delivering_attempt, take_command. rewrite Hc, Had. split; [done|]. by apply sent_status.
Qed.
End delivering_law.

#[export] Instance Submission_law projection encode_admission :
  CommandsLaw (Submission projection encode_admission).
Proof.
  refine {| status := delivering_status |}.
  - intros input native. cbn. destruct (projection input); [by intros [= <-]|done].
  - done.
  - exact delivering_spent.
  - intros a native native' canonical Ha Hi Hp.
    destruct (delivering_first_attempt _ _ _ _ _ Ha Hi Hp) as (-> & command & native'' & Hat & Hs).
    by exists native'', false, (Call_Send command (try_send a command)).
  - intros a native native' canonical message Ha Hi Hp.
    destruct (delivering_next_attempt _ _ _ _ _ _ Ha Hi Hp) as (native'' & Hat & Hs).
    by exists native'', false, (try_send a message).
Defined.

#[export] Instance Reply_law projection encode_reply : CommandsLaw (Reply projection encode_reply).
Proof.
  refine {| status native := delivering_status (reply_delivering native) |}.
  - intros input native. cbn. destruct (projection input); [by intros [= <-]|done].
  - done.
  - intros native. apply delivering_spent.
  - intros a native native' canonical Ha Hi. cbn.
    destruct (delivering_prepare_attempt _ _) as [[delivering c] result] eqn:Hp. intros [= <- <- ->].
    destruct (delivering_first_attempt _ _ _ _ _ Ha Hi Hp) as (-> & command & native'' & Hat & Hs).
    cbn. rewrite Hat. by eexists _, false, (Call_Send command (try_send a command)).
  - intros a native native' canonical message Ha Hi. cbn.
    destruct (delivering_prepare_attempt _ _) as [[delivering c] result] eqn:Hp. intros [= <- <- ->].
    destruct (delivering_next_attempt _ _ _ _ _ _ Ha Hi Hp) as (native'' & Hat & Hs).
    cbn. rewrite Hat. by eexists _, false, (try_send a message).
Defined.

#[export] Instance Stop_law authority projection encode_stop :
  CommandsLaw (Stop authority projection encode_stop).
Proof.
  refine {| status native := match native.1 with Unattempted => Idle | _ => Spent end |}.
  - intros input native. cbn. destruct (projection input); [by intros [= <-]|done].
  - done.
  - done.
  - intros a native native' canonical _ _ Hp. eexists _, true, (Call_Shutdown (shutdown a)).
    split_and!; [done|by destruct canonical|done].
  - intros a native native' canonical message _ Hh. by destruct (native.1).
Defined.

(** The status of either part of a pair. *)
Section both_law.
Context {L R : Type} (left : Commands L) (right : Commands R).
Context {left_law : CommandsLaw left} {right_law : CommandsLaw right}.

#[export] Instance Both_law : CommandsLaw (Both left right).
Proof.
  refine {| status native := match native with
    | inl native => status (CommandsLaw := left_law) native
    | inr native => status (CommandsLaw := right_law) native
    end |}.
  - intros input native. cbn. destruct (select input) as [l|input'] eqn:Hl.
    + intros [= <-]. by eapply select_idle.
    + destruct (select input') as [r|] eqn:Hr; [|done]. intros [= <-]. by eapply select_idle.
  - intros a [native|native] Hi; cbn; destruct (prepare a native) eqn:Hp; cbn;
      apply (prepare_idle a) in Hi; by rewrite Hp in Hi.
  - intros [native|native] Hs; cbn in *; by eapply spent_not_full.
  - intros a [native|native] native' canonical Ha Hi; cbn;
      destruct (prepare_attempt native) as [[native1 c1] result] eqn:Hp; intros [= <- <- ->];
      destruct (first_attempt _ _ _ _ Ha Hi Hp) as (native'' & c' & call & Hat & ?); rewrite Hat;
      by eexists _, c', call.
  - intros a [native|native] native' canonical message Ha Hi; cbn;
      destruct (prepare_attempt native) as [[native1 c1] result] eqn:Hp; intros [= <- <- ->];
      destruct (next_attempt _ _ _ _ _ Ha Hi Hp) as (native'' & c' & answer & Hat & ?); rewrite Hat;
      by eexists _, c', answer.
Defined.
End both_law.
End declarations.
Arguments Delivering {_} _.
