(* ===== verification/RemoteExport.v ===== *)
(** * The export of an actor

    [crates/bombay/src/remote/export/{mod,request,query}.rs]: queries arrive at a
    bounded ingress, become retained requests, are verified, compared with the
    requests already known, submitted to the actor at most once, and answered.

    All request operations of an export are polled by one task, so what runs
    between two of their waits is atomic.  The fields of [Request] are the cells
    of [Custody]; [producer] is the wait its operation is at, and also the lease
    on the custody.  A segment is a function of the other rows, of the row and of
    what the host answers ([Host]), and returns the row and its trace of events;
    the interleavings are those of [export_step], which also lets other rows run
    between two waits that were both ready. *)

From S2P Require Import Prelude Endpoint RemoteIngress RemoteDeclaration.
Import Verification.

(** ** Types *)

Class RemoteTypes := {
  export_types :: ExportTypes;
  json_parser :: Json.JsonParser;
  Native : Type;
  Panic : Type;
  Query : Type;
  query_payload : Query → option Bytes;
  query_attachment : Query → option Bytes;
  QueryError : Type;
  VerificationError : Type;
  DecodingError : Type;
  ProtectionError : Type;
  RequestError : Type;
  ReplyError : Type;
  TryAcquireError : Type;
  StorageError : Type;
  DeclarationError : Type;
  Issuer : Type
}.

Variant RefusalRetention := Retain | Discharge.

Record ExportLimits := {
  queued_queries : positive;
  retained_queries : positive;
  retained_requests : positive;
  diagnostics : positive;
  refusals : RefusalRetention
}.

Section export.
Context {RT : RemoteTypes}.

Variant ExportError :=
  | UnownedTarget
  | Error_Endpoint (cause : ExternalActorError)
  | QueryCapacity
  | Error_Storage (cause : StorageError)
  | Error_Declaration (cause : DeclarationError)
  | Conflict
  | RetentionCapacity
  | DuplicateTarget
  | StopAuthority
  | Error_Json (cause : Json.Error Json.JsonSyntaxError)
  | IngressCapacity (cause : TryAcquireError)
  | IngressFull
  | IngressClosed.

Record RequestKey := { key_issuer : Issuer; key_row : nat }.

Variant Identity := Unassigned | Canonical (key : RequestKey) | Duplicate (key : RequestKey).

(** The waits of the operation of a request. *)
Variant Stage :=
  | Stage_Start
  | Stage_Verifying
  | Stage_Waiting
  | Stage_Receiving
  | Stage_Protecting.

(** [Request] and its [Custody]. *)
Record Request := {
  identity : Identity;
  original : Bytes * Bytes;
  query : option Query;
  verification : Provision Panic (Result Receipt VerificationError);
  decoded : option (Result Input DecodingError);
  native : option Native;
  encoding : option (Result Bytes EncodingError);
  protection : Provision Panic (Result Bytes ProtectionError);
  publications : list (Result () QueryError);
  request_refusal : option RequestError;
  reply_refusal : option ReplyError;
  refusal : option ExportError;
  completed : bool;
  producer : option Stage
}.

Definition set_identity (x : Identity) (r : Request) : Request :=
  {| identity := x; original := original r; query := query r; verification := verification r;
     decoded := decoded r; native := native r; encoding := encoding r; protection := protection
     r; publications := publications r; request_refusal := request_refusal r; reply_refusal :=
     reply_refusal r; refusal := refusal r; completed := completed r; producer := producer r |}.
Definition set_query (x : option Query) (r : Request) : Request :=
  {| identity := identity r; original := original r; query := x; verification := verification r;
     decoded := decoded r; native := native r; encoding := encoding r; protection := protection
     r; publications := publications r; request_refusal := request_refusal r; reply_refusal :=
     reply_refusal r; refusal := refusal r; completed := completed r; producer := producer r |}.
Definition set_verification (x : Provision Panic (Result Receipt VerificationError)) (r : Request) : Request :=
  {| identity := identity r; original := original r; query := query r; verification := x;
     decoded := decoded r; native := native r; encoding := encoding r; protection := protection
     r; publications := publications r; request_refusal := request_refusal r; reply_refusal :=
     reply_refusal r; refusal := refusal r; completed := completed r; producer := producer r |}.
Definition set_decoded (x : option (Result Input DecodingError)) (r : Request) : Request :=
  {| identity := identity r; original := original r; query := query r; verification :=
     verification r; decoded := x; native := native r; encoding := encoding r; protection :=
     protection r; publications := publications r; request_refusal := request_refusal r;
     reply_refusal := reply_refusal r; refusal := refusal r; completed := completed r; producer
     := producer r |}.
Definition set_native (x : option Native) (r : Request) : Request :=
  {| identity := identity r; original := original r; query := query r; verification :=
     verification r; decoded := decoded r; native := x; encoding := encoding r; protection :=
     protection r; publications := publications r; request_refusal := request_refusal r;
     reply_refusal := reply_refusal r; refusal := refusal r; completed := completed r; producer
     := producer r |}.
Definition set_encoding (x : option (Result Bytes EncodingError)) (r : Request) : Request :=
  {| identity := identity r; original := original r; query := query r; verification :=
     verification r; decoded := decoded r; native := native r; encoding := x; protection :=
     protection r; publications := publications r; request_refusal := request_refusal r;
     reply_refusal := reply_refusal r; refusal := refusal r; completed := completed r; producer
     := producer r |}.
Definition set_protection (x : Provision Panic (Result Bytes ProtectionError)) (r : Request) : Request :=
  {| identity := identity r; original := original r; query := query r; verification :=
     verification r; decoded := decoded r; native := native r; encoding := encoding r;
     protection := x; publications := publications r; request_refusal := request_refusal r;
     reply_refusal := reply_refusal r; refusal := refusal r; completed := completed r; producer
     := producer r |}.
Definition set_publications (x : list (Result () QueryError)) (r : Request) : Request :=
  {| identity := identity r; original := original r; query := query r; verification :=
     verification r; decoded := decoded r; native := native r; encoding := encoding r;
     protection := protection r; publications := x; request_refusal := request_refusal r;
     reply_refusal := reply_refusal r; refusal := refusal r; completed := completed r; producer
     := producer r |}.
Definition set_request_refusal (x : option RequestError) (r : Request) : Request :=
  {| identity := identity r; original := original r; query := query r; verification :=
     verification r; decoded := decoded r; native := native r; encoding := encoding r;
     protection := protection r; publications := publications r; request_refusal := x;
     reply_refusal := reply_refusal r; refusal := refusal r; completed := completed r; producer
     := producer r |}.
Definition set_reply_refusal (x : option ReplyError) (r : Request) : Request :=
  {| identity := identity r; original := original r; query := query r; verification :=
     verification r; decoded := decoded r; native := native r; encoding := encoding r;
     protection := protection r; publications := publications r; request_refusal :=
     request_refusal r; reply_refusal := x; refusal := refusal r; completed := completed r;
     producer := producer r |}.
Definition set_refusal (x : option ExportError) (r : Request) : Request :=
  {| identity := identity r; original := original r; query := query r; verification :=
     verification r; decoded := decoded r; native := native r; encoding := encoding r;
     protection := protection r; publications := publications r; request_refusal :=
     request_refusal r; reply_refusal := reply_refusal r; refusal := x; completed := completed
     r; producer := producer r |}.
Definition set_completed (x : bool) (r : Request) : Request :=
  {| identity := identity r; original := original r; query := query r; verification :=
     verification r; decoded := decoded r; native := native r; encoding := encoding r;
     protection := protection r; publications := publications r; request_refusal :=
     request_refusal r; reply_refusal := reply_refusal r; refusal := refusal r; completed := x;
     producer := producer r |}.
Definition set_producer (x : option Stage) (r : Request) : Request :=
  {| identity := identity r; original := original r; query := query r; verification :=
     verification r; decoded := decoded r; native := native r; encoding := encoding r;
     protection := protection r; publications := publications r; request_refusal :=
     request_refusal r; reply_refusal := reply_refusal r; refusal := refusal r; completed :=
     completed r; producer := x |}.

Definition new_request (original : Bytes * Bytes) (query : Query) : Request :=
  {| identity := Unassigned; original := original; query := Some query;
     verification := no_provision; decoded := None; native := None; encoding := None;
     protection := no_provision; publications := []; request_refusal := None;
     reply_refusal := None; refusal := None; completed := false; producer := Some Stage_Start |}.

(** What an export does that its host can see. *)
Variant Event :=
  | Ev_Request (row : nat) (granted : bool)
  | Ev_Call (row : nat) (call : Call)
  | Ev_Reply (row : nat) (granted : bool)
  | Ev_Published (row source : nat) (encoded proof : Bytes).

(** What the host answers to one segment: the provider futures, the permissions,
    the actor, the publications. *)
Record Host := {
  verify_made : option Panic;
  verify_polled : Polled Panic (Result Receipt VerificationError);
  protect_made : option Panic;
  protect_polled : Polled Panic (Result Bytes ProtectionError);
  provider_dropped : option Panic;
  joined : bool;
  request_permission : Result () RequestError;
  attempt_permission : Result () RequestError;
  reply_permission : Result () ReplyError;
  target_ended : bool;
  target : Answers;
  publish_permission : nat → Result () ReplyError;
  publish_result : nat → Result () QueryError
}.

(** ** The inputs of an export *)

Record Inputs := {
  limits : ExportLimits;
  json : Json.Limits;
  decode : Bytes → Result Input DecodingError;
  same_request : Receipt → Receipt → bool;
  issuer : Issuer;
  commands : Commands Native
}.

Section operations.
Context (inputs : Inputs).
#[local] Hint Extern 0 (Commands Native) => exact (commands inputs) : typeclass_instances.
Implicit Types (rows : list (option Request)) (r : Request) (h : Host) (i : nat).

(** A segment: the row it leaves and its events; [None] is a panic of the code. *)
Definition Segment : Type := option (Request * list Event).

(** The operation returns, or waits. *)
Definition leaves r (events : list Event) : Segment := Some (set_producer None r, events).
Definition waits (stage : Stage) r (events : list Event) : Segment :=
  Some (set_producer (Some stage) r, events).
(** What follows the events of a segment. *)
Definition after (events : list Event) (segment : Segment) : Segment :=
  '(r, more) ← segment; Some (r, events ++ more).

Definition row_at rows i : option Request := mjoin (rows !! i).

(** The key of the row of an export. *)
Definition key_at i : RequestKey := {| key_issuer := issuer inputs; key_row := i |}.

(** The first canonical request that a receipt repeats. *)
Definition repeats (receipt : Receipt) (row : option Request) : option RequestKey :=
  r ← row;
  match identity r, retained (verification r) with
  | Canonical key, Some (Ok original) =>
      if same_request inputs original receipt then Some key else None
  | _, _ => None
  end.
Fixpoint canonical_of (receipt : Receipt) rows : option RequestKey :=
  match rows with
  | [] => None
  | row :: rows =>
      match repeats receipt row with Some key => Some key | None => canonical_of receipt rows end
  end.

Definition with_canonical (called : bool) i r : Request :=
  if called then set_identity (Canonical (key_at i)) r else r.

(** *** The segments of [Export::request] *)

(** From the reply permission on. *)
Definition reply_request i h (n : Native) r : Segment :=
  match retained (verification r) with
  | Some (Ok receipt) =>
      match reply_permission h with
      | Err cause => leaves (set_reply_refusal (Some cause) r) [Ev_Reply i false]
      | Ok _ =>
          let r := set_encoding (encode receipt n) r in
          match encoding r with
          | Some (Ok _) =>
              let '(slots, running) := provide_begin (protect_made h) (protection r) in
              let r := set_protection slots r in
              if running then waits Stage_Protecting r [Ev_Reply i true]
              else leaves r [Ev_Reply i true]
          | _ => leaves r [Ev_Reply i true]
          end
      end
  | _ => leaves r []
  end.

(** After an attempt: a full mailbox is awaited, then a reply where there is one. *)
Definition attempted i h (n : Native) r : Segment :=
  if is_full n then waits Stage_Waiting r []
  else if receives n then waits Stage_Receiving r []
  else reply_request i h n r.

(** An attempt under its own fresh permission; [first]: it may call [canonical]. *)
Definition attempt_request (first : bool) i h (n : Native) r : Segment :=
  match attempt_permission h with
  | Err cause => leaves (set_request_refusal (Some cause) r) [Ev_Request i false]
  | Ok _ =>
      let '(n, canonical, call) := attempt (target h) n in
      match call with
      | None => panic!
      | Some call =>
          let r := with_canonical (first && canonical) i (set_native (Some n) r) in
          after [Ev_Request i true; Ev_Call i call] (attempted i h n r)
      end
  end.

Definition prepared_request (first : bool) i h (n : Native) r : Segment :=
  let '(n, canonical, result) := prepare_attempt n in
  let r := with_canonical (first && canonical) i (set_native (Some n) r) in
  match result with
  | No_Attempt => leaves r []
  | No_Authority => leaves (set_refusal (Some StopAuthority) r) []
  | An_Attempt => attempt_request first i h n r
  end.

(** A request no canonical one precedes. *)
Definition fresh_request i h r : Segment :=
  match decode inputs (original r).1 with
  | Err cause => leaves (set_decoded (Some (Err cause)) r) []
  | Ok input =>
      match select input with
      | Err input => leaves (set_decoded (Some (Ok input)) r) []
      | Ok n =>
          let '(n, prepared) := prepare (target h) n in
          let r := set_native (Some n) (set_decoded None r) in
          match prepared with
          | Some (Err _) => leaves r []
          | _ => prepared_request true i h n r
          end
      end
  end.

(** A request whose canonical one is known. *)
Definition repeated_request rows (key : RequestKey) i h r : Segment :=
  o ← row_at rows (key_row key);
  if bool_decide ((original o).1 = (original r).1) then
    match retained (verification o), reply_permission h with
    | Some (Ok _), Err cause => leaves (set_reply_refusal (Some cause) r) [Ev_Reply i false]
    | Some (Ok _), Ok _ => leaves (set_identity (Duplicate key) r) [Ev_Reply i true]
    | _, _ => leaves (set_identity (Duplicate key) r) []
    end
  else leaves (set_refusal (Some Conflict) r) [].

(** From the verified receipt to the first attempt. *)
Definition authorize rows i h (receipt : Receipt) r : Segment :=
  match request_permission h with
  | Err cause => leaves (set_request_refusal (Some cause) r) [Ev_Request i false]
  | Ok _ =>
      after [Ev_Request i true]
        (match canonical_of receipt rows with
         | Some key => repeated_request rows key i h r
         | None => fresh_request i h r
         end)
  end.

Definition verify_request rows i h r : Segment :=
  let '(slots, returned) :=
    provide_poll (verify_polled h) (joined h) (provider_dropped h) (verification r) in
  let r := set_verification slots r in
  if returned then
    if unharmed slots then
      match retained slots with
      | Some (Ok receipt) => authorize rows i h receipt r
      | _ => leaves r []
      end
    else leaves r []
  else waits Stage_Verifying r [].

Definition begin_request h r : Segment :=
  match Json.check (original r).1 (original r).2 (json inputs) with
  | Some (Some (Err cause)) => leaves (set_refusal (Some (Error_Json cause)) r) []
  | Some (Some (Ok _)) =>
      let '(slots, running) := provide_begin (verify_made h) (verification r) in
      let r := set_verification slots r in
      if running then waits Stage_Verifying r [] else leaves r []
  | _ => panic!
  end.

(** The end of a wait for capacity: the target or the application ended, or the
    capacity was observed. *)
Definition retry_request i h r : Segment :=
  match native r with
  | None => leaves r []
  | Some n => if target_ended h then leaves r [] else prepared_request false i h n r
  end.

Definition receive_request i h r : Segment :=
  match native r with
  | None => leaves r []
  | Some n => let n := received (target h) n in reply_request i h n (set_native (Some n) r)
  end.

Definition protect_request h r : Segment :=
  let '(slots, returned) :=
    provide_poll (protect_polled h) (joined h) (provider_dropped h) (protection r) in
  let r := set_protection slots r in
  if returned then leaves r [] else waits Stage_Protecting r [].

Definition request_segment rows i h (stage : Stage) r : Segment :=
  match stage with
  | Stage_Start => begin_request h r
  | Stage_Verifying => verify_request rows i h r
  | Stage_Waiting => retry_request i h r
  | Stage_Receiving => receive_request i h r
  | Stage_Protecting => protect_request h r
  end.

(** ** The export *)

Variant Phase := Serving | Closing | Closed.

Record Export := {
  entries : list (option Request);
  ingress : list ExportError;
  phase : Phase;
  trace : list Event
}.

Definition new_export : Export := {| entries := []; ingress := []; phase := Serving; trace := [] |}.

Implicit Types e : Export.

(** A row takes what a segment leaves. *)
Definition put i r (events : list Event) e : Export :=
  {| entries := <[i := Some r]> (entries e); ingress := ingress e; phase := phase e;
     trace := trace e ++ events |}.
Definition set_entries rows e : Export :=
  {| entries := rows; ingress := ingress e; phase := phase e; trace := trace e |}.
Definition set_phase (x : Phase) e : Export :=
  {| entries := entries e; ingress := ingress e; phase := x; trace := trace e |}.

Definition retain_diagnostic (cause : ExportError) e : Export :=
  {| entries := entries e;
     ingress := if (len (ingress e) <? Npos (diagnostics (limits inputs)))%N
                then ingress e ++ [cause] else ingress e;
     phase := phase e; trace := trace e |}.

(** *** Arrival of a query *)

Fixpoint vacancy rows : option nat :=
  match rows with
  | [] => None
  | None :: _ => Some 0
  | Some _ :: rows => S <$> vacancy rows
  end.

Definition exceeds (bytes : option Bytes) (limit : positive) : bool :=
  match bytes with Some bytes => (Npos limit <? len bytes)%N | None => false end.

Definition accept (query : Query) e : Export :=
  let vacant := vacancy (entries e) in
  if bool_decide (vacant = None) && (len (entries e) =? Npos (retained_requests (limits inputs)))%N then
    retain_diagnostic RetentionCapacity e
  else if exceeds (query_payload query) (Json.input_bytes (json inputs)) then
    retain_diagnostic (Error_Json Json.InputBytes) e
  else if exceeds (query_attachment query) (Json.proof_bytes (json inputs)) then
    retain_diagnostic (Error_Json Json.ProofBytes) e
  else
    let original := (default [] (query_payload query), default [] (query_attachment query)) in
    let row := Some (new_request original query) in
    match vacant with
    | Some i => set_entries (<[i := row]> (entries e)) e
    | None => set_entries (entries e ++ [row]) e
    end.

(** *** Publication *)

(** Row [i] answers its query with what row [source] retains. *)
Definition publish_from i source h (r o : Request) e : Export :=
  if completed o then
    match unharmed (protection o), retained (verification o), encoding o, retained (protection o) with
    | true, Some (Ok _), Some (Ok encoded), Some (Ok proof) =>
        match publish_permission h i with
        | Ok _ =>
            put i (set_query None (set_publications (publications r ++ [publish_result h i]) r))
              [Ev_Reply i true; Ev_Published i source encoded proof] e
        | Err cause => put i (set_query None (set_reply_refusal (Some cause) r)) [Ev_Reply i false] e
        end
    | _, _, _, _ => put i (set_query None r) [] e
    end
  else e.

Definition publish_row i h e : option Export :=
  match row_at (entries e) i with
  | None => Some e
  | Some r =>
      if completed r && bool_decide (is_Some (query r)) then
        match identity r with
        | Unassigned => Some (put i (set_query None r) [] e)
        | Canonical _ => Some (publish_from i i h r r e)
        | Duplicate key =>
            o ← row_at (entries e) (key_row key);
            Some (publish_from i (key_row key) h r o e)
        end
      else Some e
  end.

Fixpoint publish_rows (rows : list nat) h e : option Export :=
  match rows with
  | [] => Some e
  | i :: rows => e ← publish_row i h e; publish_rows rows h e
  end.

Definition publish h e : option Export := publish_rows (seq 0 (length (entries e))) h e.

(** *** Discharge of refusals *)

Definition dischargeable r : bool :=
  completed r && bool_decide (query r = None) &&
  match identity r with Unassigned => true | _ => false end &&
  unharmed (verification r) && unharmed (protection r).

(** [try_into_parts] keeps a request whose producer still holds its lease. *)
Definition discharge_row (row : option Request) : option Request :=
  match row with
  | Some r => if dischargeable r && bool_decide (producer r = None) then None else Some r
  | None => None
  end.

Definition discharge e : Export :=
  match refusals (limits inputs) with
  | Retain => e
  | Discharge => set_entries (discharge_row <$> entries e) e
  end.

(** *** The loop of [serving] *)

(** Once an operation returned: its completion, the publications and, unless the
    export is closing, the discharge. *)
Definition completes i h e : option Export :=
  r ← row_at (entries e) i;
  e ← publish h (put i (set_completed true r) [] e);
  Some (match phase e with Serving => discharge e | _ => e end).

Definition poll i h e : option Export :=
  match r ← row_at (entries e) i; stage ← producer r; Some (r, stage) with
  | None => Some e
  | Some (r, stage) =>
      '(r, events) ← request_segment (entries e) i h stage r;
      let e := put i r events e in
      match producer r with Some _ => Some e | None => completes i h e end
  end.

(** [drain]: the queries end, and so do the endpoints of the operations. *)
Definition drain_row (a : Answers) (row : option Request) : option Request :=
  r ← row; Some (set_query None (set_native (drain a <$> native r) r)).

(** An operation that is dropped at its wait disposes its provider. *)
Definition drop_producer (dropped : option Panic) (row : option Request) : option Request :=
  r ← row;
  Some (set_producer None
    match producer r with
    | Some Stage_Verifying => set_verification (Provider_drop dropped (verification r)) r
    | Some Stage_Protecting => set_protection (Provider_drop dropped (protection r)) r
    | _ => r
    end).

Definition idle e : bool := forallb (λ row, bool_decide (row ≫= producer = None)) (entries e).

(** Queries arrive, operations are polled, the loop ends, and the export is
    drained, by itself or by [withdraw] after [serving] was dropped. *)
Inductive export_step : Export → Export → Prop :=
  | step_accept query e : phase e = Serving → export_step e (accept query e)
  | step_poll i h e e' :
      phase e ≠ Closed → honest (target h) → poll i h e = Some e' → export_step e e'
  | step_break e : phase e = Serving → export_step e (set_phase Closing e)
  | step_drain a e :
      phase e = Closing → idle e = true →
      export_step e (set_phase Closed (set_entries (drain_row a <$> entries e) e))
  | step_withdraw a dropped e :
      export_step e
        (set_phase Closed
           (set_entries ((λ row, drain_row a (drop_producer dropped row)) <$> entries e) e)).

Definition reachable : Export → Prop := rtc export_step new_export.

(** A poll of a live operation that breaks an assertion of the code. *)
Definition export_panics e : Prop :=
  phase e ≠ Closed ∧ ∃ i h, honest (target h) ∧ poll i h e = None.
End operations.
End export.
