(* ===== verification/RemoteReplay.v ===== *)
(** * Replayed requests

    Invariants of RemoteExport.v: what the rows of an export, its keys and its
    trace satisfy in every reachable state, and the properties of the export that
    follow: a logical request reaches its actor at most once however often it is
    replayed, a query is answered at most once and with the answer of its
    canonical request, and no assertion of the code is hit. *)

From S2P Require Import Prelude Endpoint RemoteIngress RemoteDeclaration RemoteExport.
Import Verification Trace.

(** ** Segments *)

Section replay.
Context {RT : RemoteTypes} (inputs : Inputs).
#[local] Hint Extern 0 (Commands Native) => exact (commands inputs) : typeclass_instances.
Context {law : CommandsLaw (commands inputs)} {parser_law : Json.JsonParserLaw}.
Implicit Types (rows : list (option Request)) (r : Request) (h : Host) (i : nat)
  (events : list Event) (calls : list Call).

(** The calls and the publications of a row in a trace. *)
Definition call_of i (event : Event) : option Call :=
  match event with Ev_Call j call => if bool_decide (j = i) then Some call else None | _ => None end.
Definition calls_of i events : list Call := omap (call_of i) events.

Definition publication_of i (event : Event) : option (nat * Bytes * Bytes) :=
  match event with
  | Ev_Published j source encoded proof =>
      if bool_decide (j = i) then Some (source, encoded, proof) else None
  | _ => None
  end.
Definition published_of i events : list (nat * Bytes * Bytes) := omap (publication_of i) events.

(** Every call and every publication directly follows its own permission. *)
Definition license (event : Event) : option Event :=
  match event with
  | Ev_Call i _ => Some (Ev_Request i true)
  | Ev_Published i _ _ _ => Some (Ev_Reply i true)
  | _ => None
  end.
Abbreviation export_licensed := (licensed license).

(** A call that a full mailbox refused with message [m]. *)
Definition refused_full (m : Message) (call : Call) : Prop :=
  ∃ m', call = Call_Send m (Err (TrySend_Full m')).

(** What an operation calls: one message until the mailbox is not full, or one
    shutdown. *)
Inductive orderly : list Call → Prop :=
  | orderly_none : orderly []
  | orderly_sent m refused answer :
      Forall (refused_full m) refused → orderly (refused ++ [Call_Send m answer])
  | orderly_stopped answer : orderly [Call_Shutdown answer].

(** The status of an operation of the export. *)
Definition op_status (n : Native) : Status := @status _ _ _ law n.

(** The calls of an operation that waits for capacity. *)
Definition held_calls (n : Native) calls : Prop :=
  ∃ m last refused, op_status n = Held m ∧ calls = refused ++ [last] ∧ Forall (refused_full m) (refused ++ [last]).

Definition waiting_ok r calls : Prop :=
  producer r = Some Stage_Waiting → ∃ n, native r = Some n ∧ held_calls n calls.

(** What a segment leaves alone. *)
Record frame r r' : Prop := {
  frame_original : original r' = original r;
  frame_query : query r' = query r;
  frame_completed : completed r' = completed r;
  frame_verified receipt :
    retained (verification r) = Some receipt → retained (verification r') = Some receipt
}.

(** Events of row [i] in which calls follow their permission and nothing is
    published. *)
Record ours i events : Prop := {
  ours_licensed : export_licensed events;
  ours_published j : published_of j events = [];
  ours_calls j : j ≠ i → calls_of j events = []
}.

Definition begun r : Prop :=
  producer r ≠ Some Stage_Start ∧ producer r ≠ Some Stage_Verifying.

(** A segment does not panic and its row and events satisfy [Q]. *)
Definition segment_ok (segment : Segment) (Q : Request → list Event → Prop) : Prop :=
  match segment with Some (r, events) => Q r events | None => False end.

Lemma segment_leaves r events (Q : Request → list Event → Prop) :
  Q (set_producer None r) events → segment_ok (leaves r events) Q.
Proof. done. Qed.

Lemma segment_waits stage r events (Q : Request → list Event → Prop) :
  Q (set_producer (Some stage) r) events → segment_ok (waits stage r events) Q.
Proof. done. Qed.

Lemma segment_after events segment (Q : Request → list Event → Prop) :
  segment_ok segment (λ r more, Q r (events ++ more)) → segment_ok (after events segment) Q.
Proof. by destruct segment as [[r more]|]. Qed.

Lemma segment_mono segment (P Q : Request → list Event → Prop) :
  segment_ok segment P → (∀ r events, P r events → Q r events) → segment_ok segment Q.
Proof. destruct segment as [[r events]|]; [|done]. intros HP HQ. by apply HQ. Qed.

Lemma calls_of_app i events more : calls_of i (events ++ more) = calls_of i events ++ calls_of i more.
Proof. apply omap_app. Qed.
Lemma published_of_app i events more :
  published_of i (events ++ more) = published_of i events ++ published_of i more.
Proof. apply omap_app. Qed.

Lemma ours_nil i : ours i [].
Proof. split; [apply licensed_nil|done..]. Qed.

Lemma ours_app i events more : ours i events → ours i more → ours i (events ++ more).
Proof.
  intros [Hl Hp Hc] [Hl' Hp' Hc']. split.
  - by apply licensed_app.
  - intros j. by rewrite published_of_app, Hp, Hp'.
  - intros j Hj. by rewrite calls_of_app, Hc, Hc'.
Qed.

(** A permission asked, and a call under a granted one. *)
Lemma ours_request i granted : ours i [Ev_Request i granted].
Proof. split; [by apply licensed_one|done|done]. Qed.

Lemma ours_reply i granted : ours i [Ev_Reply i granted].
Proof. split; [by apply licensed_one|done|done]. Qed.

Lemma ours_call i call : ours i [Ev_Request i true; Ev_Call i call].
Proof.
  split; [by apply licensed_two|done|].
  intros j Hj. unfold calls_of. cbn. by rewrite bool_decide_eq_false_2.
Qed.

Lemma calls_of_call i call : calls_of i [Ev_Request i true; Ev_Call i call] = [call].
Proof. unfold calls_of. cbn. by rewrite bool_decide_eq_true_2. Qed.

Lemma frame_trans r1 r2 r3 : frame r1 r2 → frame r2 r3 → frame r1 r3.
Proof. intros [] []. split; [congruence..|auto]. Qed.

(** *** After the attempts *)

(** What follows the attempts of row [i] makes no call. *)
Record tail_ok i (n : Native) r r' events : Prop := {
  tail_frame : frame r r';
  tail_identity : identity r' = identity r;
  tail_ours : ours i events;
  tail_calls : calls_of i events = [];
  tail_begun : begun r';
  tail_waiting : producer r' = Some Stage_Waiting → native r' = native r ∧ @is_full _ _ (commands inputs) n = true
}.

Ltac solve_tail :=
  try (split; [|done]);
  split; [by split|done|first [apply ours_reply|apply ours_nil]|done|by split|done].

Lemma reply_ok i h n0 n r :
  segment_ok (reply_request inputs i h n r)
    (λ r' events, tail_ok i n0 r r' events ∧ producer r' ≠ Some Stage_Waiting).
Proof.
  unfold reply_request. destruct (retained (verification r)) as [[receipt|]|] eqn:Hv.
  2,3: apply segment_leaves; solve_tail.
  destruct (reply_permission h) as [|cause]; [|apply segment_leaves; solve_tail].
  cbn. destruct (encode receipt n) as [[encoded|]|].
  2,3: apply segment_leaves; solve_tail.
  destruct (protect_made h); [apply segment_leaves|apply segment_waits]; solve_tail.
Qed.

Lemma attempted_ok i h n r : segment_ok (attempted inputs i h n r) (tail_ok i n r).
Proof.
  unfold attempted. destruct (is_full n) eqn:Hf; [apply segment_waits; by split; [by split|done|apply ours_nil|done|by split|]|].
  destruct (receives n); [apply segment_waits; solve_tail|].
  eapply segment_mono; [apply reply_ok|]. by intros r' events [? _].
Qed.

(** *** The attempts *)

Lemma orderly_held n calls : held_calls n calls → orderly calls.
Proof.
  intros (m & last & refused & _ & -> & Hf). apply Forall_app in Hf as [Hf [(m' & ->) _]%Forall_cons].
  by constructor.
Qed.

(** One more call, after those of an operation that waits. *)
Lemma held_then_sent n calls m answer :
  op_status n = Held m → held_calls n calls → orderly (calls ++ [Call_Send m answer]).
Proof. intros Hs (m' & last & refused & Hs' & -> & Hf). rewrite Hs in Hs'. injection Hs' as <-. by constructor. Qed.

Lemma full_status_after n call :
  op_status n = status_after call → @is_full _ _ (commands inputs) n = true →
  ∃ m m', call = Call_Send m (Err (TrySend_Full m')) ∧ op_status n = Held m.
Proof.
  intros Hs Hf. assert (op_status n = Spent → False) as Hne.
  { intros He. pose proof (spent_not_full (CommandsLaw := law) n He). congruence. }
  destruct call as [m [|[m'|m']]|]; try by destruct (Hne Hs). exists m, m'. by split.
Qed.

Record attempts_ok (first : bool) i calls r r' events : Prop := {
  att_frame : frame r r';
  att_identity : identity r' = identity r ∨ first = true ∧ identity r' = Canonical (key_at inputs i);
  att_called : calls_of i events ≠ [] → first = true → identity r' = Canonical (key_at inputs i);
  att_ours : ours i events;
  att_calls : orderly (calls ++ calls_of i events);
  att_waiting : waiting_ok r' (calls ++ calls_of i events);
  att_begun : begun r'
}.

(** An attempt that makes [call] and leaves the operation at [n]. *)
Lemma called_ok first i h n call r0 r calls :
  op_status n = status_after call → orderly (calls ++ [call]) →
  (∀ m, op_status n = Held m → Forall (refused_full m) calls) →
  frame r0 r → native r = Some n →
  (identity r = identity r0 ∨ first = true ∧ identity r = Canonical (key_at inputs i)) →
  (first = true → identity r = Canonical (key_at inputs i)) →
  segment_ok (after [Ev_Request i true; Ev_Call i call] (attempted inputs i h n r))
    (attempts_ok first i calls r0).
Proof.
  intros Hs Ho Hheld Hfr Hn Hid Hfirst. apply segment_after. eapply segment_mono; [apply attempted_ok|].
  intros r' events [Hfr' Hid' Hours Hcalls Hb Hw].
  assert (calls_of i ([Ev_Request i true; Ev_Call i call] ++ events) = [call]) as Hcall
    by by rewrite calls_of_app, calls_of_call, Hcalls.
  split; rewrite ?Hcall, ?Hid'.
  - by eapply frame_trans.
  - done.
  - by intros _.
  - by apply ours_app; [apply ours_call|].
  - done.
  - intros [Hnat Hfull]%Hw. exists n. split; [congruence|].
    destruct (full_status_after _ _ Hs Hfull) as (m & m' & -> & Hm).
    exists m, (Call_Send m (Err (TrySend_Full m'))), calls. split_and!; [done|done|].
    apply Forall_app. split; [by apply Hheld|]. by apply Forall_singleton; exists m'.
  - done.
Qed.

Lemma quiet_attempts_ok first i calls r0 r events :
  frame r0 r → identity r = identity r0 ∨ first = true ∧ identity r = Canonical (key_at inputs i) →
  ours i events → calls_of i events = [] → orderly calls →
  attempts_ok first i calls r0 (set_producer None r) events.
Proof.
  intros [] Hid Hours Hc Ho. split; rewrite ?Hc, ?app_nil_r; first [done|by split|by intros []|by intros [=]].
Qed.

Lemma with_canonical_identity called i r :
  identity (with_canonical inputs called i r) = if called then Canonical (key_at inputs i) else identity r.
Proof. by destruct called. Qed.
Lemma with_canonical_frame called i r0 r : frame r0 r → frame r0 (with_canonical inputs called i r).
Proof. intros []. by destruct called; split. Qed.
Lemma with_canonical_native called i r : native (with_canonical inputs called i r) = native r.
Proof. by destruct called. Qed.

Lemma first_prepared_ok i h n r :
  honest (target h) → op_status n = Idle →
  segment_ok (prepared_request inputs true i h n r) (attempts_ok true i [] r).
Proof.
  intros Hh Hi. unfold prepared_request. destruct (prepare_attempt n) as [[n1 canonical] result] eqn:Hp.
  set (r1 := with_canonical inputs (true && canonical) i (set_native (Some n1) r)).
  assert (frame r r1) as Hfr by (apply with_canonical_frame; by split).
  assert (identity r1 = if canonical then Canonical (key_at inputs i) else identity r) as Hid
    by (unfold r1; by rewrite with_canonical_identity).
  assert (identity r1 = identity r ∨ true = true ∧ identity r1 = Canonical (key_at inputs i)) as Hid'
    by (rewrite Hid; destruct canonical; auto).
  destruct result.
  1,3: apply segment_leaves, quiet_attempts_ok; [eapply frame_trans; [exact Hfr|by split]|exact Hid'|apply ours_nil|done|apply orderly_none].
  unfold attempt_request. destruct (attempt_permission h) as [|cause].
  2: { apply segment_leaves, quiet_attempts_ok; [eapply frame_trans; [exact Hfr|by split]|exact Hid'|apply ours_request|done|apply orderly_none]. }
  destruct (first_attempt (CommandsLaw := law) _ _ _ _ Hh Hi Hp) as (n2 & canonical' & call & -> & Hc & Hs).
  apply called_ok; try done.
  - destruct call; [apply (orderly_sent _ [])|]; constructor.
  - eapply frame_trans; [exact Hfr|]. apply with_canonical_frame. by split.
  - by rewrite with_canonical_native.
  - rewrite with_canonical_identity. cbn. rewrite Hid. destruct canonical, canonical'; auto.
  - rewrite with_canonical_identity. cbn. rewrite Hid. by destruct canonical, canonical'.
Qed.

Lemma next_prepared_ok i h n r calls :
  honest (target h) → held_calls n calls →
  segment_ok (prepared_request inputs false i h n r) (attempts_ok false i calls r).
Proof.
  intros Hh Hheld. pose proof Hheld as (m & last & refused & Hm & Hcalls & Hfull).
  unfold prepared_request. destruct (prepare_attempt n) as [[n1 canonical] result] eqn:Hp. cbn [andb with_canonical].
  assert (frame r (set_native (Some n1) r)) as Hfr by by split.
  pose proof (orderly_held _ _ Hheld) as Ho.
  destruct result.
  1,3: apply segment_leaves, quiet_attempts_ok; [by split|by left|apply ours_nil|done|done].
  unfold attempt_request. destruct (attempt_permission h) as [|cause].
  2: { apply segment_leaves, quiet_attempts_ok; [by split|by left|apply ours_request|done|done]. }
  destruct (next_attempt (CommandsLaw := law) _ _ _ _ _ Hh Hm Hp) as (n2 & canonical' & answer & -> & Hs).
  apply called_ok; try done.
  - by eapply held_then_sent.
  - intros m1 Hm1. rewrite Hcalls. change (status n2) with (op_status n2) in Hs. rewrite Hm1 in Hs.
    destruct answer as [|[]]; try done. by injection Hs as ->.
  - by left.
Qed.

(** *** All segments *)

(** How the identity of a row may change: it repeats a canonical row with the same
    bytes, or no canonical row precedes it and it becomes one. *)
Variant identifies rows i r r' : Prop :=
  | identity_kept : identity r' = identity r → identifies rows i r r'
  | identity_repeats key o :
      identity r = Unassigned → identity r' = Duplicate key → row_at rows (key_row key) = Some o →
      identity o = Canonical key → (original o).1 = (original r).1 → identifies rows i r r'
  | identity_fresh receipt :
      identity r = Unassigned → identity r' = Canonical (key_at inputs i) →
      retained (verification r') = Some (Ok receipt) → canonical_of inputs receipt rows = None →
      identifies rows i r r'.

(** What holds of a row and its calls. *)
Record row_ok i r calls : Prop := {
  ok_canonical key : identity r = Canonical key →
    key = key_at inputs i ∧ ∃ receipt, retained (verification r) = Some (Ok receipt);
  ok_calls : (∀ key, identity r ≠ Canonical key) → calls = [];
  ok_orderly : orderly calls;
  ok_waiting : waiting_ok r calls;
  ok_unassigned : ¬ begun r → identity r = Unassigned
}.

(** The keys of canonical rows are their own. *)
Definition keyed rows : Prop :=
  ∀ j o key, row_at rows j = Some o → identity o = Canonical key →
    key = key_at inputs j ∧ ∃ receipt, retained (verification o) = Some (Ok receipt).

Record segment_post rows i calls r r' events : Prop := {
  post_frame : frame r r';
  post_identity : identifies rows i r r';
  post_ours : ours i events;
  post_ok : row_ok i r' (calls ++ calls_of i events)
}.

Lemma canonical_of_Some receipt rows key :
  canonical_of inputs receipt rows = Some key →
  ∃ j o original, row_at rows j = Some o ∧ identity o = Canonical key ∧
    retained (verification o) = Some (Ok original) ∧ same_request inputs original receipt = true.
Proof.
  induction rows as [|row rows IH]; [done|]. cbn. destruct (repeats inputs receipt row) as [key'|] eqn:Hr.
  - intros [= ->]. destruct row as [o|]; [|done]. cbn in Hr. exists 0, o.
    destruct (identity o) as [|key1|] eqn:Hi; try done. destruct (retained (verification o)) as [[x|]|]; try done.
    destruct (same_request inputs x receipt) eqn:Hs; [|done]. injection Hr as ->. by exists x.
  - intros (j & Hj)%IH. by exists (S j).
Qed.

Lemma canonical_of_None receipt rows j o key original :
  canonical_of inputs receipt rows = None → row_at rows j = Some o → identity o = Canonical key →
  retained (verification o) = Some (Ok original) → same_request inputs original receipt = false.
Proof.
  intros Hc Hj Hi Hv. revert j Hj. induction rows as [|row rows IH]; [done|]. cbn in Hc.
  destruct (repeats inputs receipt row) as [key'|] eqn:Hr; [done|].
  intros [|j] Hj; [|by eapply (IH Hc j)]. cbn in Hj. subst row. cbn in Hr. rewrite Hi, Hv in Hr.
  by destruct (same_request inputs original receipt).
Qed.

(** A segment that makes no call, on a row that made none. *)
Lemma post_unattempted rows i r r' events :
  frame r r' → identifies rows i r r' → (∀ key, identity r' ≠ Canonical key) → ours i events →
  calls_of i events = [] → begun r' ∨ identity r' = Unassigned → producer r' ≠ Some Stage_Waiting →
  segment_post rows i [] r r' events.
Proof.
  intros Hf Hid Hno Ho Hc Hb Hw. split; [done..|]. rewrite Hc. split.
  - intros key Hk. by destruct (Hno key).
  - done.
  - apply orderly_none.
  - by intros ?.
  - intros Hnb. by destruct Hb.
Qed.

(** A segment whose attempts are those of [prepared_request]. *)
Lemma post_attempts rows i r0 r r' events receipt :
  frame r0 r → identity r0 = Unassigned → identity r = Unassigned →
  retained (verification r) = Some (Ok receipt) → canonical_of inputs receipt rows = None →
  attempts_ok true i [] r r' events → segment_post rows i [] r0 r' events.
Proof.
  intros Hf Hu0 Hu Hv Hc [Hf' Hid Hcalled Ho Hord Hw Hb].
  pose proof (frame_verified _ _ Hf' _ Hv) as Hv'.
  split; [by eapply frame_trans| |done|].
  - destruct Hid as [Hid|[_ Hid]]; [apply identity_kept; congruence|by eapply identity_fresh].
  - split; [|..].
    + intros key Hk. split; [|by exists receipt].
      destruct Hid as [Hid|[_ Hid]]; [congruence|]. rewrite Hid in Hk. by injection Hk.
    + intros Hno. destruct (calls_of i events) eqn:He; [done|]. by destruct (Hno _ (Hcalled ltac:(done) eq_refl)).
    + done.
    + done.
    + by intros Hnb.
Qed.

(** A row whose operation returns without an identity. *)
Lemma leaves_ok rows i r0 r events :
  frame r0 r → identity r0 = Unassigned → identity r = Unassigned → ours i events →
  calls_of i events = [] → segment_ok (leaves r events) (segment_post rows i [] r0).
Proof.
  intros [] Hu0 Hu Ho Hc. apply segment_leaves, post_unattempted; try done.
  - apply identity_kept. cbn. congruence.
  - cbn. congruence.
  - by left.
Qed.

Lemma fresh_ok rows i h r0 r receipt :
  honest (target h) → frame r0 r → identity r0 = Unassigned → identity r = Unassigned →
  retained (verification r) = Some (Ok receipt) → canonical_of inputs receipt rows = None →
  segment_ok (fresh_request inputs i h r) (segment_post rows i [] r0).
Proof.
  intros Hh Hf Hu0 Hu Hv Hc. unfold fresh_request.
  assert (∀ r1, frame r r1 → identity r1 = Unassigned →
    segment_ok (leaves r1 []) (segment_post rows i [] r0)) as Hleaves.
  { intros r1 Hf1 Hu1. apply leaves_ok; [by eapply frame_trans|done|done|apply ours_nil|done]. }
  destruct (decode inputs _) as [input|cause]; [|by apply Hleaves].
  destruct (select input) as [n|input'] eqn:Hs; [|by apply Hleaves].
  pose proof (select_idle (CommandsLaw := law) _ _ Hs) as Hi.
  apply (prepare_idle (CommandsLaw := law) (target h)) in Hi.
  destruct (prepare (target h) n) as [n1 prepared] eqn:Hp. cbn in Hi.
  set (r1 := set_native (Some n1) (set_decoded None r)).
  assert (frame r r1) as Hf1 by by split.
  assert (segment_ok (prepared_request inputs true i h n1 r1) (segment_post rows i [] r0)).
  { eapply segment_mono; [by apply first_prepared_ok|]. intros r' events Ha.
    by eapply (post_attempts _ _ _ r1); [eapply frame_trans|..]. }
  destruct prepared as [[|cause]|]; try done. by apply Hleaves.
Qed.

Lemma repeated_ok rows i h r0 r key j o :
  frame r0 r → identity r0 = Unassigned → identity r = Unassigned → keyed rows →
  row_at rows j = Some o → identity o = Canonical key →
  segment_ok (repeated_request rows key i h r) (segment_post rows i [] r0).
Proof.
  intros Hf Hu0 Hu Hk Hj Hid. pose proof (Hk _ _ _ Hj Hid) as [-> [receipt Hv]].
  unfold repeated_request. cbn [key_row key_at]. rewrite Hj. cbn. case_bool_decide as Heq.
  2: { apply leaves_ok; [eapply frame_trans; [done|by split]|done|done|apply ours_nil|done]. }
  rewrite Hv. destruct (reply_permission h) as [|cause].
  - apply segment_leaves, post_unattempted.
    + eapply frame_trans; [done|by split].
    + eapply identity_repeats; [done|done|done|done|]. by rewrite Heq, (frame_original _ _ Hf).
    + done.
    + apply ours_reply.
    + done.
    + by left.
    + done.
  - apply leaves_ok; [eapply frame_trans; [done|by split]|done|done|apply ours_reply|done].
Qed.

Lemma post_prefixed rows i calls r r' granted events :
  segment_post rows i calls r r' events → segment_post rows i calls r r' (Ev_Request i granted :: events).
Proof.
  intros [Hf Hid Ho Hok]. split; [done|done| |done].
  change (Ev_Request i granted :: events) with ([Ev_Request i granted] ++ events).
  apply ours_app; [apply ours_request|done].
Qed.

Lemma authorize_ok rows i h r0 r receipt :
  honest (target h) → keyed rows → frame r0 r → identity r0 = Unassigned → identity r = Unassigned →
  retained (verification r) = Some (Ok receipt) →
  segment_ok (authorize inputs rows i h receipt r) (segment_post rows i [] r0).
Proof.
  intros Hh Hk Hf Hu0 Hu Hv. unfold authorize. destruct (request_permission h) as [|cause].
  2: { apply leaves_ok; [eapply frame_trans; [done|by split]|done|done|apply ours_request|done]. }
  apply segment_after. eapply segment_mono; [|intros r' events; apply post_prefixed].
  destruct (canonical_of inputs receipt rows) as [key|] eqn:Hc; [|by eapply fresh_ok].
  apply canonical_of_Some in Hc as (j & o & original & Hj & Hid & _). by eapply repeated_ok.
Qed.

Lemma verify_ok rows i h r :
  honest (target h) → keyed rows → identity r = Unassigned →
  segment_ok (verify_request inputs rows i h r) (segment_post rows i [] r).
Proof.
  intros Hh Hk Hu. unfold verify_request.
  pose proof (provide_keeps (verify_polled h) (joined h) (provider_dropped h) (verification r)) as Hkeep.
  destruct (provide_poll _ _ _ _) as [slots returned]. cbn in Hkeep.
  set (r1 := set_verification slots r).
  assert (frame r r1) as Hf by by split.
  assert (segment_ok (leaves r1 []) (segment_post rows i [] r)) as Hl
    by (apply leaves_ok; [done..|apply ours_nil|done]).
  destruct returned.
  - destruct (unharmed slots); [|done]. destruct (retained slots) as [[receipt|]|] eqn:Hv; [|done..].
    by eapply authorize_ok.
  - apply segment_waits, post_unattempted; [by split|by apply identity_kept| |apply ours_nil|done|by right|done].
    cbn. congruence.
Qed.

Context (json_bounded : (Npos (Json.input_bytes (json inputs)) ≤ usize_max)%N).

Lemma begin_ok rows i h r :
  identity r = Unassigned → segment_ok (begin_request inputs h r) (segment_post rows i [] r).
Proof.
  intros Hu. unfold begin_request.
  destruct (Json.check_returns (original r).1 (original r).2 (json inputs) json_bounded) as [result ->].
  destruct result as [|cause].
  2: { apply leaves_ok; [by split|done|done|apply ours_nil|done]. }
  destruct (verify_made h); cbn.
  - apply leaves_ok; [by split|done|done|apply ours_nil|done].
  - apply segment_waits, post_unattempted; [by split|by apply identity_kept| |apply ours_nil|done|by right|done].
    cbn. congruence.
Qed.

(** A segment that makes no call and keeps the identity. *)
Lemma post_quiet rows i calls r r' events :
  row_ok i r calls → begun r' → frame r r' → identity r' = identity r → ours i events →
  calls_of i events = [] → producer r' ≠ Some Stage_Waiting → segment_post rows i calls r r' events.
Proof.
  intros [Hcan Hno Ho Hw Hu] Hb Hfr Hid Hours Hc Hw'.
  split; [done|by apply identity_kept|done|]. rewrite Hc, app_nil_r. split.
  - intros key. rewrite Hid. intros Hk. destruct (Hcan key Hk) as [-> [receipt Hv]].
    split; [done|]. exists receipt. by apply (frame_verified _ _ Hfr).
  - by rewrite Hid.
  - done.
  - by intros ?.
  - by intros Hnb.
Qed.

Lemma leaves_quiet rows i calls r r' :
  row_ok i r calls → frame r r' → identity r' = identity r →
  segment_ok (leaves r' []) (segment_post rows i calls r).
Proof.
  intros Hok [] Hid. apply segment_leaves, post_quiet;
    [done|by split|by split|exact Hid|apply ours_nil|done|done].
Qed.

Lemma retry_ok rows i h r calls :
  honest (target h) → row_ok i r calls → producer r = Some Stage_Waiting →
  segment_ok (retry_request inputs i h r) (segment_post rows i calls r).
Proof.
  intros Hh Hok Hp. destruct (ok_waiting _ _ _ Hok Hp) as (n & Hn & Hheld). unfold retry_request. rewrite Hn.
  destruct (target_ended h); [by apply leaves_quiet|].
  eapply segment_mono; [by apply next_prepared_ok|]. intros r' events [Hf Hid _ Ho Hord Hw Hb].
  destruct Hid as [Hid|[[=] _]]. destruct Hok as [Hcan Hno _ _ _].
  split; [done|by apply identity_kept|done|]. split; [| |done|done|by intros Hnb].
  - intros key. rewrite Hid. intros Hk. destruct (Hcan key Hk) as [-> [receipt Hv]].
    split; [done|]. exists receipt. by apply (frame_verified _ _ Hf).
  - rewrite Hid. intros Hno'. destruct Hheld as (m & last & refused & _ & Hcalls & _).
    rewrite (Hno Hno') in Hcalls. by destruct refused.
Qed.

Lemma receive_ok rows i h r calls :
  row_ok i r calls → segment_ok (receive_request inputs i h r) (segment_post rows i calls r).
Proof.
  intros Hok. unfold receive_request. destruct (native r) as [n|]; [|by apply leaves_quiet].
  eapply segment_mono; [apply (reply_ok i h n)|].
  intros r' events [[[] Hid Ho Hc Hb _] Hw].
  apply post_quiet; [done|done|by split|exact Hid|done|done|done].
Qed.

Lemma protect_ok rows i h r calls :
  row_ok i r calls → segment_ok (protect_request h r) (segment_post rows i calls r).
Proof.
  intros Hok. unfold protect_request. destruct (provide_poll _ _ _ _) as [slots returned].
  destruct returned; [by apply leaves_quiet|].
  apply segment_waits, post_quiet; [done|by split|by split|done|apply ours_nil|done|done].
Qed.

(** Every segment of a live operation: no assertion breaks, and what it leaves. *)
Lemma request_segment_ok rows i h stage r calls :
  honest (target h) → keyed rows → row_ok i r calls → producer r = Some stage →
  segment_ok (request_segment inputs rows i h stage r) (segment_post rows i calls r).
Proof.
  intros Hh Hk Hok Hp.
  assert (¬ begun r → identity r = Unassigned ∧ calls = []) as Hnew.
  { intros Hb. pose proof (ok_unassigned _ _ _ Hok Hb) as Hu. split; [done|].
    apply (ok_calls _ _ _ Hok). congruence. }
  destruct stage; cbn [request_segment].
  - destruct Hnew as [Hu ->]; [by intros [[] _]|]. by apply begin_ok.
  - destruct Hnew as [Hu ->]; [by intros [_ []]|]. by apply verify_ok.
  - by apply retry_ok.
  - by apply receive_ok.
  - by apply protect_ok.
Qed.

(** ** The export *)

Implicit Types e : Export.

Lemma row_at_Some rows i r : row_at rows i = Some r ↔ rows !! i = Some (Some r).
Proof. unfold row_at. destruct (rows !! i) as [[?|]|]; naive_solver. Qed.

Lemma row_at_put rows i j r r' :
  row_at rows i = Some r →
  row_at (<[i := Some r']> rows) j = if decide (j = i) then Some r' else row_at rows j.
Proof.
  intros Hi. apply row_at_Some in Hi. unfold row_at. destruct (decide (j = i)) as [->|Hj].
  - by rewrite list_lookup_insert_eq by by eapply lookup_lt_Some.
  - by rewrite list_lookup_insert_ne.
Qed.

Lemma row_at_map (f : option Request → option Request) rows i :
  f None = None → row_at (f <$> rows) i = f (row_at rows i).
Proof. intros Hf. unfold row_at. rewrite list_lookup_fmap. by destruct (rows !! i). Qed.

(** What a row published: nothing while it holds its query or has no identity, at
    most one answer, which its canonical row retains. *)
Record published_ok rows r (published : list (nat * Bytes * Bytes)) : Prop := {
  pub_none : is_Some (query r) ∨ identity r = Unassigned → published = [];
  pub_once : length published ≤ 1;
  pub_source source encoded proof : (source, encoded, proof) ∈ published →
    ∃ key o, (identity r = Canonical key ∨ identity r = Duplicate key) ∧ key_row key = source ∧
      row_at rows source = Some o ∧ completed o = true ∧
      encoding o = Some (Ok encoded) ∧ retained (protection o) = Some (Ok proof)
}.

Record invariant e : Prop := {
  inv_row i r : row_at (entries e) i = Some r → row_ok i r (calls_of i (trace e));
  inv_ended i r : row_at (entries e) i = Some r → completed r = true → producer r = None;
  inv_vacant i : row_at (entries e) i = None →
    calls_of i (trace e) = [] ∧ published_of i (trace e) = [];
  inv_apart i j r r' key key' receipt receipt' :
    i ≠ j → row_at (entries e) i = Some r → identity r = Canonical key →
    retained (verification r) = Some (Ok receipt) →
    row_at (entries e) j = Some r' → identity r' = Canonical key' →
    retained (verification r') = Some (Ok receipt') → same_request inputs receipt receipt' = false;
  inv_keys i r key : row_at (entries e) i = Some r → identity r = Duplicate key →
    ∃ o, row_at (entries e) (key_row key) = Some o ∧ identity o = Canonical key ∧
      (original o).1 = (original r).1;
  inv_published i r : row_at (entries e) i = Some r →
    published_ok (entries e) r (published_of i (trace e));
  inv_licensed : export_licensed (trace e);
  inv_entries : (len (entries e) ≤ Npos (retained_requests (limits inputs)))%N;
  inv_ingress : (len (ingress e) ≤ Npos (diagnostics (limits inputs)))%N
}.

Lemma inv_keyed e : invariant e → keyed (entries e).
Proof. intros He j o key Hj. apply (ok_canonical _ _ _ (inv_row _ He _ _ Hj)). Qed.

Lemma invariant_new : invariant new_export.
Proof. split; try done; by intros ?. Qed.

Context (symmetric : ∀ receipt receipt', same_request inputs receipt receipt' = same_request inputs receipt' receipt).

(** What must be known of an update of row [i] from [r] to [r'] with [events]. *)
Record updates e i r r' events : Prop := {
  upd_original : original r' = original r;
  upd_verified receipt :
    retained (verification r) = Some receipt → retained (verification r') = Some receipt;
  upd_identity : identifies (entries e) i r r';
  upd_ok : row_ok i r' (calls_of i (trace e ++ events));
  upd_ended : completed r' = true → producer r' = None;
  upd_others j : j ≠ i → calls_of j events = [] ∧ published_of j events = [];
  upd_licensed : export_licensed events;
  upd_published :
    published_ok (<[i := Some r']> (entries e)) r' (published_of i (trace e ++ events));
  upd_source : completed r = true →
    completed r' = true ∧ encoding r' = encoding r ∧ retained (protection r') = retained (protection r)
}.

(** A row that has an identity keeps it. *)
Lemma identifies_kept rows i r r' : identifies rows i r r' → identity r ≠ Unassigned → identity r' = identity r.
Proof. by destruct 1. Qed.

Lemma identifies_duplicate e i r r' key :
  invariant e → row_at (entries e) i = Some r → original r' = original r →
  identifies (entries e) i r r' → identity r' = Duplicate key →
  ∃ o, row_at (entries e) (key_row key) = Some o ∧ identity o = Canonical key ∧
    (original o).1 = (original r').1.
Proof.
  intros He Hi -> Hid Hk. destruct Hid as [Hid|key' o Hu Hid Ho Hc Hb|receipt Hu Hid Hv Hc].
  - rewrite Hid in Hk. by eapply inv_keys.
  - rewrite Hid in Hk. injection Hk as <-. by exists o.
  - congruence.
Qed.

(** Canonical rows stay apart when row [i] is updated. *)
Lemma updates_apart e i r r' events j o key key' receipt receipt' :
  invariant e → row_at (entries e) i = Some r → updates e i r r' events → j ≠ i →
  row_at (entries e) j = Some o → identity o = Canonical key → retained (verification o) = Some (Ok receipt) →
  identity r' = Canonical key' → retained (verification r') = Some (Ok receipt') →
  same_request inputs receipt receipt' = false.
Proof.
  intros He Hi [_ Hver Hid _ _ _ _ _ _] Hj Ho Hc Hv Hc' Hv'.
  destruct Hid as [Hid|key1 o1 Hu Hid _ _ _|receipt1 Hu Hid Hv1 Hnone].
  - rewrite Hid in Hc'. destruct (ok_canonical _ _ _ (inv_row _ He _ _ Hi) _ Hc') as [_ [x Hx]].
    pose proof (Hver _ Hx) as Hx'. rewrite Hv' in Hx'. injection Hx' as <-.
    exact (inv_apart _ He j i o r _ _ _ _ Hj Ho Hc Hv Hi Hc' Hx).
  - congruence.
  - rewrite Hv' in Hv1. injection Hv1 as <-. by eapply canonical_of_None.
Qed.

Lemma published_put rows i r r' o published :
  row_at rows i = Some r →
  (completed r = true →
    completed r' = true ∧ encoding r' = encoding r ∧ retained (protection r') = retained (protection r)) →
  published_ok rows o published → published_ok (<[i := Some r']> rows) o published.
Proof.
  intros Hi Hs [Hn Ho Hsrc]. split; [done|done|].
  intros source encoded proof Hin. destruct (Hsrc _ _ _ Hin) as (key & o' & Hid & Hk & Hat & Hc & He & Hp).
  destruct (decide (source = i)) as [->|Hne].
  - rewrite Hi in Hat. injection Hat as <-. destruct (Hs Hc) as (Hc' & He' & Hp').
    exists key, r'. split_and!; [done|done| |done|congruence|congruence].
    rewrite (row_at_put _ _ _ _ _ Hi). by rewrite decide_True.
  - exists key, o'. split_and!; try done. rewrite (row_at_put _ _ _ _ _ Hi). by rewrite decide_False.
Qed.

Lemma put_invariant e i r r' events :
  invariant e → row_at (entries e) i = Some r → updates e i r r' events → invariant (put i r' events e).
Proof.
  intros He Hi Hu. pose proof (λ j, row_at_put (entries e) i j r r' Hi) as Hat.
  assert (∀ j, j ≠ i → calls_of j (trace e ++ events) = calls_of j (trace e) ∧
    published_of j (trace e ++ events) = published_of j (trace e)) as Hother.
  { intros j Hj. destruct (upd_others _ _ _ _ _ Hu j Hj) as [Hc Hp].
    by rewrite calls_of_app, published_of_app, Hc, Hp, !app_nil_r. }
  split; cbn [entries ingress trace put].
  - intros j o. rewrite Hat. destruct (decide (j = i)) as [->|Hj].
    + intros [= <-]. by destruct Hu.
    + intros Ho. destruct (Hother j Hj) as [-> _]. by apply (inv_row _ He).
  - intros j o. rewrite Hat. destruct (decide (j = i)) as [->|Hj].
    + intros [= <-]. by destruct Hu.
    + by apply (inv_ended _ He).
  - intros j. rewrite Hat. destruct (decide (j = i)) as [->|Hj]; [done|].
    intros Ho. destruct (Hother j Hj) as [-> ->]. by apply (inv_vacant _ He).
  - intros j k o o' key key' receipt receipt' Hjk. rewrite !Hat.
    destruct (decide (j = i)) as [->|Hj], (decide (k = i)) as [->|Hk]; try done.
    + intros [= <-] Hc Hv Ho Hc' Hv'. rewrite symmetric. by eapply (updates_apart e i r r' events k o').
    + intros Ho Hc Hv [= <-] Hc' Hv'. by eapply (updates_apart e i r r' events j o).
    + by apply (inv_apart _ He).
  - intros j o key. rewrite Hat. intros Ho Hk.
    assert (∃ c, row_at (entries e) (key_row key) = Some c ∧ identity c = Canonical key ∧
      (original c).1 = (original o).1) as (c & Hc & Hcan & Hb).
    { destruct (decide (j = i)) as [->|Hj].
      - injection Ho as <-. destruct Hu. by eapply identifies_duplicate.
      - by eapply (inv_keys _ He). }
    rewrite Hat. destruct (decide (key_row key = i)) as [Hki|Hki]; [|by exists c].
    rewrite Hki in Hc. rewrite Hi in Hc. injection Hc as <-. exists r'. split_and!; [done| |].
    + rewrite (identifies_kept _ _ _ _ (upd_identity _ _ _ _ _ Hu)); [done|congruence].
    + by rewrite (upd_original _ _ _ _ _ Hu).
  - intros j o. rewrite Hat. destruct (decide (j = i)) as [->|Hj].
    + intros [= <-]. by destruct Hu.
    + intros Ho. destruct (Hother j Hj) as [_ ->].
      eapply published_put; [done|apply (upd_source _ _ _ _ _ Hu)|]. by apply (inv_published _ He).
  - apply licensed_app; [by destruct He|by destruct Hu].
  - unfold len. rewrite length_insert. by destruct He.
  - by destruct He.
Qed.

(** A segment keeps the invariant. *)
Lemma segment_updates e i r r' events :
  invariant e → row_at (entries e) i = Some r → is_Some (producer r) →
  segment_post (entries e) i (calls_of i (trace e)) r r' events → updates e i r r' events.
Proof.
  intros He Hi [stage Hstage] [[Ho Hq Hc Hv] Hid Hours Hok].
  assert (completed r = true → False) as Hlive.
  { intros Hdone. pose proof (inv_ended _ He _ _ Hi Hdone). congruence. }
  split; [done|done|done| | |intros j Hj; destruct Hours; auto|by destruct Hours| |by intros ?%Hlive].
  - by rewrite calls_of_app.
  - rewrite Hc. by intros ?%Hlive.
  - rewrite published_of_app, (ours_published _ _ Hours), app_nil_r.
    pose proof (inv_published _ He _ _ Hi) as [Hnone Honce Hsrc].
    destruct (decide (published_of i (trace e) = [])) as [->|Hne].
    { split; [done|cbn; lia|]. by intros ? ? ? ?%elem_of_nil. }
    assert (identity r ≠ Unassigned) as Hu by (intros Hu; apply Hne, Hnone; by right).
    pose proof (identifies_kept _ _ _ _ Hid Hu) as Hsame.
    eapply published_put; [done|by intros ?%Hlive|]. split.
    + intros [Hs|Hs]; apply Hnone; [left; congruence|right; congruence].
    + done.
    + by rewrite Hsame.
Qed.

(** *** Publication *)

(** A row that returned takes its completion. *)
Lemma completed_updates e i r :
  invariant e → row_at (entries e) i = Some r → producer r = None →
  updates e i r (set_completed true r) [].
Proof.
  intros He Hi Hp. pose proof (inv_row _ He _ _ Hi) as [Hcan Hno Hord Hw Hun].
  split; [done|done|by apply identity_kept| |done|done|by intros ? ? ? ?| |done].
  - rewrite app_nil_r. split; [done|done|done| |].
    + by intros ?%(eq_trans (eq_sym Hp)).
    + intros Hb. by apply Hun.
  - rewrite app_nil_r. eapply published_put; [done|by split|].
    destruct (inv_published _ He _ _ Hi) as [Hn Ho Hs]. by split.
Qed.

Lemma bool_decide_is_Some {A} (x : option A) : bool_decide (is_Some x) = true → ∃ y, x = Some y.
Proof. intros [y Hy]%bool_decide_eq_true. by exists y. Qed.

(** What a publication does to a row that has completed and holds its query. *)
Lemma publication_updates e i r r' events :
  invariant e → row_at (entries e) i = Some r → completed r = true → is_Some (query r) →
  original r' = original r → identity r' = identity r → verification r' = verification r →
  producer r' = producer r → native r' = native r → completed r' = completed r →
  encoding r' = encoding r → protection r' = protection r → query r' = None →
  export_licensed events → (∀ j, calls_of j events = []) → (∀ j, j ≠ i → published_of j events = []) →
  published_ok (<[i := Some r']> (entries e)) r' (published_of i events) →
  updates e i r r' events.
Proof.
  intros He Hi Hc Hq Ho Hid Hv Hp Hn Hc' Henc Hprot Hq' Hl Hcalls Hothers Hpub.
  pose proof (inv_row _ He _ _ Hi) as [Hcan Hno Hord Hw Hun].
  pose proof (inv_ended _ He _ _ Hi Hc) as Hend.
  split; [done|by rewrite Hv|by apply identity_kept| |by rewrite Hp|by auto|done| |].
  - rewrite calls_of_app, Hcalls, app_nil_r. split; rewrite ?Hid, ?Hv; [done|done|done| |].
    + unfold waiting_ok. by rewrite Hp, Hend.
    + unfold begun. rewrite Hp, Hend. by intros [].
  - rewrite published_of_app. rewrite (pub_none _ _ _ (inv_published _ He _ _ Hi)) by by left. done.
  - intros _. by rewrite Hc', Henc, Hprot.
Qed.

(** A row that publishes nothing. *)
Lemma published_nothing rows r : published_ok rows r [].
Proof. split; [done|cbn; lia|]. by intros ? ? ? ?%elem_of_nil. Qed.

Lemma publish_from_invariant e i source h r o key :
  invariant e → row_at (entries e) i = Some r → completed r = true → is_Some (query r) →
  (identity r = Canonical key ∨ identity r = Duplicate key) → key_row key = source →
  row_at (entries e) source = Some o → invariant (publish_from i source h r o e).
Proof.
  intros He Hi Hc Hq Hkey Hsrc Ho. unfold publish_from. destruct (completed o) eqn:Hco; [|done].
  assert (∀ r' granted, original r' = original r → identity r' = identity r → verification r' = verification r →
    producer r' = producer r → native r' = native r → completed r' = completed r →
    encoding r' = encoding r → protection r' = protection r → query r' = None →
    invariant (put i r' (if granted : bool then [Ev_Reply i false] else []) e)) as Hquiet.
  { intros r' granted ?????????. apply (put_invariant _ _ r); [done..|].
    apply publication_updates; try done; destruct granted; try done.
    - by apply licensed_one.
    - apply published_nothing.
    - apply published_nothing. }
  destruct (unharmed (protection o)), (retained (verification o)) as [[receipt|]|],
    (encoding o) as [[encoded|]|] eqn:He', (retained (protection o)) as [[proof|]|] eqn:Hp;
    try by apply (Hquiet _ false).
  destruct (publish_permission h i) as [|cause]; [|by apply (Hquiet _ true)].
  apply (put_invariant _ _ r); [done..|]. apply publication_updates; try done.
  - by apply licensed_two.
  - intros j Hj. unfold published_of. cbn. by rewrite bool_decide_eq_false_2.
  - unfold published_of. cbn. rewrite bool_decide_eq_true_2 by done. split; [|cbn; lia|].
    + intros [[? [=]]|Hu]. destruct Hkey; cbn in Hu; congruence.
    + intros ? ? ? [= -> -> ->]%list_elem_of_singleton.
      destruct (decide (source = i)) as [Hsi|Hsi].
      * subst source. rewrite Hsi in Ho. rewrite Hi in Ho. injection Ho as <-.
        exists key. eexists. split_and!; [exact Hkey|done|by rewrite (row_at_put _ _ _ _ _ Hi), decide_True|..]; done.
      * exists key, o. split_and!; try done. by rewrite (row_at_put _ _ _ _ _ Hi), decide_False.
Qed.

Lemma publish_row_invariant e i h :
  invariant e → ∃ e', publish_row i h e = Some e' ∧ invariant e' ∧ phase e' = phase e.
Proof.
  intros He. unfold publish_row. destruct (row_at (entries e) i) as [r|] eqn:Hi; [|by exists e].
  destruct (completed r) eqn:Hc; [|by exists e]. destruct (bool_decide (is_Some (query r))) eqn:Hq; [|by exists e].
  apply bool_decide_is_Some in Hq as [q Hq]. cbn [andb].
  assert (∀ source o, phase (publish_from i source h r o e) = phase e) as Hphase.
  { intros source o. unfold publish_from. destruct (completed o); [|done].
    destruct (unharmed _), (retained (verification o)) as [[]|], (encoding o) as [[]|],
      (retained (protection o)) as [[]|]; try done. by destruct (publish_permission h i). }
  destruct (identity r) as [|key|key] eqn:Hid.
  - eexists. split; [done|]. split; [|done]. apply (put_invariant _ _ r); [done..|].
    apply publication_updates; try done. apply published_nothing.
  - eexists. split; [done|]. split; [|apply Hphase].
    destruct (inv_keyed _ He _ _ _ Hi Hid) as [-> _]. eapply publish_from_invariant; try done; [by left|done].
  - destruct (inv_keys _ He _ _ _ Hi Hid) as (o & Ho & _). rewrite Ho. cbn.
    eexists. split; [done|]. split; [|apply Hphase]. eapply publish_from_invariant; try done; by right.
Qed.

Lemma publish_invariant e h :
  invariant e → ∃ e', publish h e = Some e' ∧ invariant e' ∧ phase e' = phase e.
Proof.
  unfold publish. generalize (seq 0 (length (entries e))). intros l. revert e.
  induction l as [|i l IH]; intros e He; [by exists e|]. cbn.
  destruct (publish_row_invariant e i h He) as (e1 & -> & He1 & Hp1). cbn.
  destruct (IH e1 He1) as (e2 & -> & He2 & Hp2). exists e2. split_and!; [done|done|congruence].
Qed.

(** *** Arrival *)

Lemma vacancy_Some rows i : vacancy rows = Some i → rows !! i = Some None.
Proof.
  revert i. induction rows as [|[r|] rows IH]; intros i; cbn; [done| |by intros [= <-]].
  intros (j & Hj & ->)%fmap_Some. by apply IH.
Qed.

Lemma published_more rows rows' r published :
  (∀ j o, row_at rows j = Some o → row_at rows' j = Some o) →
  published_ok rows r published → published_ok rows' r published.
Proof.
  intros Hrows [Hn Ho Hs]. split; [done|done|]. intros source encoded proof Hin.
  destruct (Hs _ _ _ Hin) as (key & o & ? & ? & ? & ? & ? & ?). exists key, o. split_and!; auto.
Qed.

(** A row that held no request holds a new one. *)
Lemma new_row_invariant e i rows original query :
  invariant e → row_at (entries e) i = None →
  (∀ j, row_at rows j = if decide (j = i) then Some (new_request original query) else row_at (entries e) j) →
  (len rows ≤ Npos (retained_requests (limits inputs)))%N →
  invariant (set_entries rows e).
Proof.
  intros He Hi Hat Hlen. destruct (inv_vacant _ He _ Hi) as [Hcalls Hpub].
  assert (∀ j o, row_at (entries e) j = Some o → row_at rows j = Some o) as Hmore.
  { intros j o Hj. rewrite Hat. destruct (decide (j = i)) as [->|]; [congruence|done]. }
  split; cbn [entries ingress trace set_entries].
  - intros j o. rewrite Hat. destruct (decide (j = i)) as [->|Hj]; [|by apply (inv_row _ He)].
    intros [= <-]. rewrite Hcalls. split; try done. apply orderly_none.
  - intros j o. rewrite Hat. destruct (decide (j = i)) as [->|Hj]; [by intros [= <-]|by apply (inv_ended _ He)].
  - intros j. rewrite Hat. destruct (decide (j = i)) as [->|Hj]; [done|by apply (inv_vacant _ He)].
  - intros j k o o' key key' x x' Hjk. rewrite !Hat.
    destruct (decide (j = i)), (decide (k = i)); try (by intros [= <-]); try (by intros ??? [= <-]).
    by apply (inv_apart _ He).
  - intros j o key. rewrite Hat. destruct (decide (j = i)) as [->|Hj]; [by intros [= <-]|].
    intros Ho Hk. destruct (inv_keys _ He _ _ _ Ho Hk) as (c & Hc & ?). exists c. auto.
  - intros j o. rewrite Hat. destruct (decide (j = i)) as [->|Hj].
    + intros [= <-]. rewrite Hpub. apply published_nothing.
    + intros Ho. eapply published_more; [done|]. by apply (inv_published _ He).
  - apply (inv_licensed _ He).
  - done.
  - apply (inv_ingress _ He).
Qed.

Lemma diagnostic_invariant e cause : invariant e → invariant (retain_diagnostic inputs cause e).
Proof.
  intros He. split; try by destruct He. cbn.
  destruct (N.ltb_spec (len (ingress e)) (Npos (diagnostics (limits inputs)))); [|by destruct He].
  rewrite len_app, len_cons, len_nil. lia.
Qed.

Lemma accept_invariant e query : invariant e → invariant (accept inputs query e).
Proof.
  intros He. unfold accept. destruct (vacancy (entries e)) as [i|] eqn:Hv.
  - rewrite bool_decide_eq_false_2 by done. cbn [andb].
    repeat (case_match; [by apply diagnostic_invariant|]).
    apply vacancy_Some in Hv. eapply (new_row_invariant _ i); [done| | |].
    + unfold row_at. by rewrite Hv.
    + intros j. unfold row_at. destruct (decide (j = i)) as [->|Hj].
      * by rewrite list_lookup_insert_eq by by eapply lookup_lt_Some.
      * by rewrite list_lookup_insert_ne.
    + unfold len. rewrite length_insert. by destruct He.
  - rewrite bool_decide_eq_true_2 by done. cbn [andb].
    destruct (N.eqb_spec (len (entries e)) (Npos (retained_requests (limits inputs)))) as [Heq|Hne];
      [by apply diagnostic_invariant|].
    repeat (case_match; [by apply diagnostic_invariant|]).
    eapply (new_row_invariant _ (length (entries e))); [done| | |].
    + unfold row_at. by rewrite lookup_ge_None_2.
    + intros j. unfold row_at. destruct (decide (j = length (entries e))) as [->|Hj].
      * by rewrite list_lookup_middle.
      * destruct (decide (j < length (entries e))); [by rewrite lookup_app_l|].
        rewrite !lookup_ge_None_2; [done|lia|rewrite length_app; cbn; lia].
    + pose proof (inv_entries _ He). rewrite len_app, len_cons, len_nil. lia.
Qed.

(** *** Discharge and drain *)

Lemma dischargeable_spec r :
  dischargeable r = true → identity r = Unassigned.
Proof. unfold dischargeable. destruct (identity r); [done|..]; rewrite !andb_false_r; by intros [=]. Qed.

(** Every row is vacated that has no identity, or keeps what the invariant reads;
    then it keeps the invariant. *)
Record settles (f : option Request → option Request) : Prop := {
  settles_vacant : f None = None;
  settles_row r :
    (f (Some r) = None ∧ identity r = Unassigned) ∨
    ∃ r', f (Some r) = Some r' ∧ original r' = original r ∧ identity r' = identity r ∧
      retained (verification r') = retained (verification r) ∧ completed r' = completed r ∧
      encoding r' = encoding r ∧ retained (protection r') = retained (protection r) ∧
      (query r' = query r ∨ query r' = None) ∧ (r' = r ∨ producer r' = None)
}.

Lemma settled_row f r calls i :
  settles f → row_ok i r calls → ∀ r', f (Some r) = Some r' → row_ok i r' calls.
Proof.
  intros Hf [Hcan Hno Hord Hw Hun] r' Hr'. destruct (settles_row _ Hf r) as [[? _]|(r1 & Hr1 & _ & Hid & Hv & _ & _ & _ & _ & Hp)].
  { congruence. }
  rewrite Hr' in Hr1. injection Hr1 as <-. destruct Hp as [->|Hp]; [done|].
  split; rewrite ?Hid, ?Hv; try done.
  - unfold waiting_ok. by rewrite Hp.
  - unfold begun. rewrite Hp. by intros [].
Qed.

Lemma settle_invariant f e : settles f → invariant e → invariant (set_entries (f <$> entries e) e).
Proof.
  intros Hf He. pose proof (λ i, row_at_map f (entries e) i (settles_vacant _ Hf)) as Hat.
  assert (∀ i r', row_at (f <$> entries e) i = Some r' → ∃ r, row_at (entries e) i = Some r ∧ f (Some r) = Some r') as Hinv.
  { intros i r'. rewrite Hat. destruct (row_at (entries e) i) as [r|]; [by exists r|].
    by rewrite (settles_vacant _ Hf). }
  assert (∀ i r r', row_at (entries e) i = Some r → f (Some r) = Some r' →
    original r' = original r ∧ identity r' = identity r ∧ retained (verification r') = retained (verification r) ∧
    completed r' = completed r ∧ encoding r' = encoding r ∧ retained (protection r') = retained (protection r) ∧
    (query r' = query r ∨ query r' = None) ∧ (r' = r ∨ producer r' = None)) as Hsame.
  { intros i r r' Hi Hr. destruct (settles_row _ Hf r) as [[? _]|(r1 & Hr1 & ?)]; [congruence|].
    rewrite Hr in Hr1. by injection Hr1 as ->. }
  assert (∀ i o, row_at (entries e) i = Some o → identity o ≠ Unassigned →
    ∃ o', row_at (f <$> entries e) i = Some o' ∧ f (Some o) = Some o') as Hkept.
  { intros i o Hi Hid. rewrite Hat, Hi. destruct (settles_row _ Hf o) as [[_ ?]|(r1 & Hr1 & _)]; [done|by exists r1]. }
  split; cbn [entries ingress trace set_entries].
  - intros i r' (r & Hi & Hr)%Hinv. eapply settled_row; [done|by apply (inv_row _ He)|done].
  - intros i r' (r & Hi & Hr)%Hinv. destruct (Hsame _ _ _ Hi Hr) as (_ & _ & _ & -> & _ & _ & _ & Hp) .
    intros Hc. destruct Hp as [->|Hp]; [by apply (inv_ended _ He i)|done].
  - intros i. rewrite Hat. destruct (row_at (entries e) i) as [r|] eqn:Hi; [|by intros; apply (inv_vacant _ He)].
    intros Hr. destruct (settles_row _ Hf r) as [[_ Hu]|(r1 & Hr1 & _)]; [|congruence]. split.
    + apply (ok_calls _ _ _ (inv_row _ He _ _ Hi)). congruence.
    + apply (pub_none _ _ _ (inv_published _ He _ _ Hi)). by right.
  - intros i j r1 r2 key key' x x' Hij (o1 & Hi & H1)%Hinv Hc Hv (o2 & Hj & H2)%Hinv Hc' Hv'.
    destruct (Hsame _ _ _ Hi H1) as (_ & Hid1 & Hv1 & _), (Hsame _ _ _ Hj H2) as (_ & Hid2 & Hv2 & _).
    apply (inv_apart _ He i j o1 o2 key key'); congruence.
  - intros i r' key (r & Hi & Hr)%Hinv Hk. destruct (Hsame _ _ _ Hi Hr) as (Ho & Hid & _).
    rewrite Hid in Hk. destruct (inv_keys _ He _ _ _ Hi Hk) as (o & Hat' & Hc & Hb).
    destruct (Hkept _ _ Hat' ltac:(congruence)) as (o' & Ho' & Hf').
    destruct (Hsame _ _ _ Hat' Hf') as (Hoo & Hoid & _). exists o'. split_and!; congruence.
  - intros i r' (r & Hi & Hr)%Hinv. destruct (Hsame _ _ _ Hi Hr) as (_ & Hid & _ & _ & _ & _ & Hq & _).
    destruct (inv_published _ He _ _ Hi) as [Hn Hone Hs]. split; [|done|].
    + rewrite Hid. intros [Hq'|Hu]; apply Hn; [left|by right]. destruct Hq as [<-|Hq]; [done|]. rewrite Hq in Hq'. by destruct Hq'.
    + intros source encoded proof Hin. destruct (Hs _ _ _ Hin) as (key & o & Hkey & Hsrc & Hat' & Hc & Henc & Hp).
      assert (identity o ≠ Unassigned) as Hu.
      { destruct Hkey as [Hk|Hk].
        - destruct (inv_keyed _ He _ _ _ Hi Hk) as [-> _]. cbn in Hsrc. subst source. congruence.
        - destruct (inv_keys _ He _ _ _ Hi Hk) as (o1 & Ho1 & Hc1 & _). congruence. }
      destruct (Hkept _ _ Hat' Hu) as (o' & Ho' & Hf').
      destruct (Hsame _ _ _ Hat' Hf') as (_ & _ & _ & Hco & Heo & Hpo & _).
      exists key, o'. rewrite Hid. split_and!; try done; congruence.
  - apply (inv_licensed _ He).
  - unfold len. rewrite length_fmap. apply (inv_entries _ He).
  - apply (inv_ingress _ He).
Qed.

Lemma discharge_settles : settles discharge_row.
Proof.
  split; [done|]. intros r. cbn. destruct (dischargeable r) eqn:Hd; [|right; exists r; by split_and!; auto].
  cbn. destruct (bool_decide _) eqn:Hp; [left|right; exists r; by split_and!; auto].
  split; [done|by apply dischargeable_spec].
Qed.

Lemma withdraw_settles a dropped : settles (λ row, drain_row inputs a (drop_producer dropped row)).
Proof.
  split; [done|]. intros r. right. cbn. eexists. split; [done|].
  destruct (producer r) as [[]|], dropped; cbn; split_and!; auto.
Qed.

(** *** Reachable states *)

Lemma drain_settled a e :
  idle e = true → drain_row inputs a <$> entries e =
    (λ row, drain_row inputs a (drop_producer None row)) <$> entries e.
Proof.
  unfold idle. rewrite forallb_forall. intros Hidle. apply list_fmap_ext. intros i row Hi.
  specialize (Hidle row (proj1 (list_elem_of_In _ _) (list_elem_of_lookup_2 _ _ _ Hi))).
  apply bool_decide_eq_true in Hidle. destruct row as [r|]; [|done]. cbn in *. rewrite Hidle.
  by destruct r; cbn in *; subst.
Qed.

Lemma completes_invariant i h e r :
  invariant e → row_at (entries e) i = Some r → producer r = None →
  ∃ e', completes inputs i h e = Some e' ∧ invariant e'.
Proof.
  intros He Hi Hp. unfold completes. rewrite Hi. cbn [mbind option_bind].
  assert (invariant (put i (set_completed true r) [] e)) as He1.
  { apply (put_invariant _ _ r); [done..|]. by apply completed_updates. }
  destruct (publish_invariant _ h He1) as (e2 & -> & He2 & _).
  cbn [mbind option_bind]. eexists. split; [done|]. destruct (phase e2); try done.
  unfold discharge. destruct (refusals (limits inputs)); [done|]. apply settle_invariant; [apply discharge_settles|done].
Qed.

Lemma poll_invariant i h e :
  invariant e → honest (target h) → ∃ e', poll inputs i h e = Some e' ∧ invariant e'.
Proof.
  intros He Hh. unfold poll. destruct (row_at (entries e) i) as [r|] eqn:Hi; cbn; [|by exists e].
  destruct (producer r) as [stage|] eqn:Hp; cbn; [|by exists e].
  pose proof (request_segment_ok (entries e) i h stage r _ Hh (inv_keyed _ He) (inv_row _ He _ _ Hi) Hp) as Hseg.
  destruct (request_segment _ _ _ _ _ _) as [[r' events]|]; [|done]. cbn in Hseg |- *.
  assert (invariant (put i r' events e)) as He1.
  { apply (put_invariant _ _ r); [done..|]. apply segment_updates; [done|done|by exists stage|done]. }
  destruct (producer r') eqn:Hp'; [by eexists|].
  apply (completes_invariant _ _ _ r'); [done| |done]. cbn. by rewrite (row_at_put _ _ _ _ _ Hi), decide_True.
Qed.

Lemma step_invariant e e' : invariant e → export_step inputs e e' → invariant e'.
Proof.
  intros He. destruct 1 as [query e _|i h e e' _ Hh Hp|e _|a e _ Hidle|a dropped e].
  - by apply accept_invariant.
  - destruct (poll_invariant i h e He Hh) as (e1 & Hp1 & He1). congruence.
  - by destruct He.
  - rewrite (drain_settled _ _ Hidle). pose proof (settle_invariant _ _ (withdraw_settles a None) He) as He'.
    by destruct He'.
  - pose proof (settle_invariant _ _ (withdraw_settles a dropped) He) as He'. by destruct He'.
Qed.

Lemma reachable_invariant e : reachable inputs e → invariant e.
Proof.
  intros Hr. assert (invariant new_export) as Hn by apply invariant_new. revert Hn.
  induction Hr as [|e1 e2 e3 Hs _ IH]; [done|]. intros He. by apply IH, (step_invariant e1).
Qed.

(** *** The trace *)

(** Of two calls of an operation the first is refused, and both send one message. *)
Lemma orderly_two l1 call l2 call' l3 :
  orderly (l1 ++ call :: l2 ++ call' :: l3) →
  is_accepted call = false ∧ ∃ m answer answer', call = Call_Send m answer ∧ call' = Call_Send m answer'.
Proof.
  intros Ho. inversion Ho as [Heq|m refused answer Hf Heq|answer Heq].
  - by destruct l1.
  - assert (Forall (λ c, ∃ a, c = Call_Send m a) (refused ++ [Call_Send m answer])) as Hsend.
    { apply Forall_app. split; [|apply Forall_singleton; by exists answer].
      eapply Forall_impl; [exact Hf|]. by intros c [m' ->]; eexists. }
    destruct (two_before_last _ _ _ _ _ _ _ (eq_sym Heq)) as (k & -> & _).
    apply Forall_app in Hf as [_ [(m' & ->) _]%Forall_cons]. split; [done|].
    rewrite Heq in Hsend. apply Forall_app in Hsend as [_ [_ Hsend]%Forall_cons].
    apply Forall_app in Hsend as [_ [[a' ->] _]%Forall_cons]. by eexists m, _, a'.
  - destruct l1 as [|x l1]; [|by destruct l1]. injection Heq as _ Heq. by destruct l2.
Qed.

Lemma call_of_eq i call : call_of i (Ev_Call i call) = Some call.
Proof. cbn. by rewrite bool_decide_eq_true_2. Qed.

(** A row that made a call is canonical. *)
Lemma called_is_canonical e p i call :
  invariant e → trace e !! p = Some (Ev_Call i call) →
  ∃ r receipt, row_at (entries e) i = Some r ∧ identity r = Canonical (key_at inputs i) ∧
    retained (verification r) = Some (Ok receipt).
Proof.
  intros He Hp. pose proof (omap_one _ _ _ _ _ Hp (call_of_eq i call)) as Hin.
  change (omap _ _) with (calls_of i (trace e)) in Hin.
  destruct (row_at (entries e) i) as [r|] eqn:Hi.
  2: { destruct (inv_vacant _ He _ Hi) as [Hc _]. rewrite Hc in Hin. by apply not_elem_of_nil in Hin. }
  pose proof (inv_row _ He _ _ Hi) as [Hcan Hno _ _ _].
  destruct (identity r) as [|key|key] eqn:Hid.
  1,3: exfalso; rewrite Hno in Hin by congruence; by apply not_elem_of_nil in Hin.
  destruct (Hcan key eq_refl) as [-> [receipt Hv]]. by exists r, receipt.
Qed.

Lemma two_calls e p q i call call' :
  invariant e → trace e !! p = Some (Ev_Call i call) → trace e !! q = Some (Ev_Call i call') → p < q →
  is_accepted call = false ∧ ∃ m answer answer', call = Call_Send m answer ∧ call' = Call_Send m answer'.
Proof.
  intros He Hp Hq Hpq. destruct (called_is_canonical _ _ _ _ He Hp) as (r & _ & Hi & _ & _).
  pose proof (ok_orderly _ _ _ (inv_row _ He _ _ Hi)) as Ho. unfold calls_of in Ho.
  destruct (omap_two _ _ _ _ _ _ _ _ Hp Hq Hpq (call_of_eq i call) (call_of_eq i call')) as (l1 & l2 & l3 & Heq).
  rewrite Heq in Ho. by eapply orderly_two.
Qed.

Lemma publication_of_eq i source encoded proof :
  publication_of i (Ev_Published i source encoded proof) = Some (source, encoded, proof).
Proof. cbn. by rewrite bool_decide_eq_true_2. Qed.

(** A row that published is retained. *)
Lemma published_is_retained e p i source encoded proof :
  invariant e → trace e !! p = Some (Ev_Published i source encoded proof) →
  ∃ r, row_at (entries e) i = Some r ∧ published_ok (entries e) r (published_of i (trace e)) ∧
    (source, encoded, proof) ∈ published_of i (trace e).
Proof.
  intros He Hp. pose proof (omap_one _ _ _ _ _ Hp (publication_of_eq i source encoded proof)) as Hin.
  change (omap _ _) with (published_of i (trace e)) in Hin.
  destruct (row_at (entries e) i) as [r|] eqn:Hi.
  - exists r. split_and!; [done|by apply (inv_published _ He)|done].
  - destruct (inv_vacant _ He _ Hi) as [_ Hc]. rewrite Hc in Hin. by apply not_elem_of_nil in Hin.
Qed.

Lemma two_publications e p q i x y :
  invariant e → p < q →
  trace e !! p = Some (Ev_Published i x.1.1 x.1.2 x.2) → trace e !! q = Some (Ev_Published i y.1.1 y.1.2 y.2) → False.
Proof.
  intros He Hpq Hp Hq. destruct (published_is_retained _ _ _ _ _ _ He Hp) as (r & _ & Hok & _).
  destruct (omap_two _ _ _ _ _ _ _ _ Hp Hq Hpq (publication_of_eq i _ _ _) (publication_of_eq i _ _ _))
    as (l1 & l2 & l3 & Heq).
  pose proof (pub_once _ _ _ Hok) as Hlen. unfold published_of in Hlen. rewrite Heq in Hlen.
  rewrite length_app in Hlen. cbn in Hlen. rewrite length_app in Hlen. cbn in Hlen. lia.
Qed.

(** C13: However queries arrive, are polled, retried, cancelled and discharged, a
    logical request reaches the exported actor at most once.  Among all calls made
    for requests whose verified receipts name the same request, at most one is
    accepted, and it ends the calls of its request; every call directly follows a
    grant of its own by the current permission, is made for a verified canonical
    request that is still retained, and repeats the message of the calls before it. *)
Theorem replays_reach_actor_once e :
  reachable inputs e →
  (∀ p q i j c d ri rj x y,
    trace e !! p = Some (Ev_Call i c) → trace e !! q = Some (Ev_Call j d) →
    is_accepted c = true → is_accepted d = true →
    row_at (entries e) i = Some ri → retained (verification ri) = Some (Ok x) →
    row_at (entries e) j = Some rj → retained (verification rj) = Some (Ok y) →
    i = j ∨ same_request inputs x y = true → p = q) ∧
  (∀ p i c, trace e !! p = Some (Ev_Call i c) →
    (∃ q, p = S q ∧ trace e !! q = Some (Ev_Request i true)) ∧
    ∃ r x, row_at (entries e) i = Some r ∧ identity r = Canonical (key_at inputs i) ∧
      retained (verification r) = Some (Ok x)) ∧
  (∀ p q i c d, trace e !! p = Some (Ev_Call i c) → trace e !! q = Some (Ev_Call i d) → p < q →
    is_accepted c = false ∧ ∃ m answer answer', c = Call_Send m answer ∧ d = Call_Send m answer').
Proof.
  intros He%reachable_invariant. split_and!.
  - intros p q i j c d ri rj x y Hp Hq Hc Hd Hi Hx Hj Hy Hsame.
    destruct (decide (i = j)) as [<-|Hij].
    + destruct (lt_eq_lt_dec p q) as [[Hlt|Heq]|Hlt]; [|done|].
      * destruct (two_calls _ _ _ _ _ _ He Hp Hq Hlt) as [? _]. congruence.
      * destruct (two_calls _ _ _ _ _ _ He Hq Hp Hlt) as [? _]. congruence.
    + destruct Hsame as [?|Hsame]; [done|].
      destruct (called_is_canonical _ _ _ _ He Hp) as (? & ? & Hi' & Hci & _).
      destruct (called_is_canonical _ _ _ _ He Hq) as (? & ? & Hj' & Hcj & _).
      rewrite Hi in Hi'. injection Hi' as <-. rewrite Hj in Hj'. injection Hj' as <-.
      pose proof (inv_apart _ He _ _ _ _ _ _ _ _ Hij Hi Hci Hx Hj Hcj Hy). congruence.
  - intros p i c Hp. split.
    + by apply (inv_licensed _ He _ _ _ Hp).
    + destruct (called_is_canonical _ _ _ _ He Hp) as (r & x & ?). by exists r, x.
  - intros p q i c d Hp Hq Hpq. by eapply two_calls.
Qed.

(** C14: A query is answered at most once.  What is published for it directly
    follows a grant by the current reply permission, and is the encoded reply with
    its protection that the canonical request of the same protected bytes retains,
    after the operation of that request ended. *)
Theorem replies_come_from_canonical e :
  reachable inputs e →
  (∀ p i source encoded proof, trace e !! p = Some (Ev_Published i source encoded proof) →
    (∃ q, p = S q ∧ trace e !! q = Some (Ev_Reply i true)) ∧
    ∃ r o, row_at (entries e) i = Some r ∧ row_at (entries e) source = Some o ∧
      identity o = Canonical (key_at inputs source) ∧ (original r).1 = (original o).1 ∧
      query r = None ∧ completed o = true ∧ encoding o = Some (Ok encoded) ∧
      retained (protection o) = Some (Ok proof)) ∧
  (∀ p q i source encoded proof source' encoded' proof',
    trace e !! p = Some (Ev_Published i source encoded proof) →
    trace e !! q = Some (Ev_Published i source' encoded' proof') → p = q).
Proof.
  intros He%reachable_invariant. split.
  - intros p i source encoded proof Hp. split; [by apply (inv_licensed _ He _ _ _ Hp)|].
    destruct (published_is_retained _ _ _ _ _ _ He Hp) as (r & Hi & Hok & Hin).
    destruct (pub_source _ _ _ Hok _ _ _ Hin) as (key & o & Hkey & Hsrc & Ho & Hc & Henc & Hpr).
    assert (query r = None) as Hq.
    { destruct (query r) as [q|] eqn:Hq; [|done]. rewrite (pub_none _ _ _ Hok) in Hin by (left; by exists q).
      by apply not_elem_of_nil in Hin. }
    exists r, o. destruct Hkey as [Hk|Hk].
    + destruct (inv_keyed _ He _ _ _ Hi Hk) as [-> _]. cbn in Hsrc. subst source.
      rewrite Hi in Ho. by injection Ho as ->.
    + destruct (inv_keys _ He _ _ _ Hi Hk) as (o' & Ho' & Hco & Hb). rewrite Hsrc in Ho'.
      rewrite Ho in Ho'. injection Ho' as <-. destruct (inv_keyed _ He _ _ _ Ho Hco) as [-> _]. by split_and!.
  - intros p q i s1 e1 f1 s2 e2 f2 Hp Hq. destruct (lt_eq_lt_dec p q) as [[Hlt|Heq]|Hlt]; [|done|].
    + by destruct (two_publications _ _ _ _ (s1, e1, f1) (s2, e2, f2) He Hlt Hp Hq).
    + by destruct (two_publications _ _ _ _ (s2, e2, f2) (s1, e1, f1) He Hlt Hq Hp).
Qed.

(** No index, [expect] or [unreachable!] of an export is hit in any
    interleaving: issued keys keep their occupied positions whatever is discharged,
    and a retry always finds the message that a full mailbox returned.  The
    retained requests and the diagnostics stay within their selected maxima. *)
Lemma export_never_panics e :
  reachable inputs e →
  (export_panics inputs e → False) ∧
  (len (entries e) ≤ Npos (retained_requests (limits inputs)))%N ∧
  (len (ingress e) ≤ Npos (diagnostics (limits inputs)))%N.
Proof.
  intros He%reachable_invariant. split_and!; [|by destruct He..].
  intros (_ & i & h & Hh & Hp). destruct (poll_invariant i h e He Hh) as (e' & Hp' & _). congruence.
Qed.
End replay.
