(* ===== verification/RemoteExample.v ===== *)
(** * A replayed request on a concrete export

    A small event parser that keeps the laws of the boundary, and an export whose
    actor's mailbox is full at first: two queries carry the same request, one
    message is delivered and both queries are answered. *)

From stdpp Require Import strings.
From Stdlib Require Import Init.Byte.
From S2P Require Import Prelude Assessment Endpoint RemoteIngress RemoteDeclaration RemoteExport RemoteReplay.
Import Verification.

(** ** A parser: braces are objects, [b] is the metadata key *)

#[export] Instance brace_parser : Json.JsonParser := {|
  Json.LowLevelJsonParser := N;
  Json.JsonSyntaxError := ();
  Json.with_max_stack_size _ := 0%N;
  Json.parse_next opened input _ :=
    match input with
    | [] => (opened, (0%N, Some (if (opened =? 0)%N then Ok Json.Eof else Err ())))
    | x7b :: _ => ((opened + 1)%N, (1%N, Some (Ok Json.StartObject)))
    | x7d :: _ =>
        match opened with
        | 0%N => (0%N, (1%N, Some (Err ())))
        | _ => ((opened - 1)%N, (1%N, Some (Ok Json.EndObject)))
        end
    | x62 :: _ => (opened, (1%N, Some (Ok (Json.ObjectKey "bombay"))))
    | _ :: _ => (opened, (1%N, Some (Ok Json.Scalar)))
    end
|}.

#[export] Instance brace_parser_law : Json.JsonParserLaw.
Proof.
  refine {| Json.opened (parser : Json.LowLevelJsonParser) := (parser : N) |}.
  - done.
  - intros parser [|b input] parser' consumed event; cbn.
    + intros [= _ <- _]. unfold len. cbn. lia.
    + rewrite len_cons. destruct b; try destruct parser; intros [= _ <- _]; lia.
  - intros parser [|b input] parser' consumed event; cbn.
    + by destruct (parser =? 0)%N; intros [= _ <- <-].
    + destruct b; try destruct parser; intros [= _ <- _]; done.
  - intros parser [|b input] parser' consumed event; cbn.
    + by destruct (parser =? 0)%N; intros [= <- _ <-].
    + destruct b; try destruct parser; intros [= <- _ <-]; lia.
Defined.

Definition small_limits : Json.Limits :=
  {| Json.input_bytes := 8; Json.proof_bytes := 4; Json.token_bytes := 6; Json.nesting := 2;
     Json.parser_states := 8 |}.

(** The message [{b{}}]: its metadata key is followed by an object. *)
Definition framed : Bytes := [x7b; x62; x7b; x7d; x7d].

(** Two containers are accepted, and the check decides it. *)
Lemma json_check_decides_witness :
  Json.check framed [] small_limits = Some (Some (Ok ())) ∧
  ∃ result, Json.check framed [] small_limits = Some (Some result) ∧
    (result = Ok () ↔ Json.acceptable framed [] small_limits).
Proof. split; [reflexivity|]. apply Json.json_check_decides. unfold usize_max, u64_max. cbn. lia. Defined.

(** ** An export *)

#[export] Instance counter_types : ExportTypes := {|
  Input := N; Receipt := N; Message := N; Client := (); Recipient := (); recipient _ := ();
  ReplyMessage := N; ExternalActorError := (); EncodingError := ()
|}.

#[export] Instance counter_remote : RemoteTypes := {|
  Native := Delivering (() → N);
  Panic := (); Query := Bytes; query_payload := Some; query_attachment _ := None; QueryError := ();
  VerificationError := (); DecodingError := (); ProtectionError := (); RequestError := ();
  ReplyError := (); TryAcquireError := (); StorageError := (); DeclarationError := (); Issuer := ()
|}.

(** The input is sent as it is; the acknowledgement of its admission is one byte. *)
Definition counter_commands : Commands (Delivering (() → N)) :=
  Submission (λ input, Ok (λ _, input))
    (λ _ admission, match admission with Returned (Ok _) => Ok [x2b] | _ => Err () end).

Definition counter_inputs : Inputs := {|
  limits := {| queued_queries := 4; retained_queries := 4; retained_requests := 2; diagnostics := 1;
               refusals := Discharge |};
  json := small_limits;
  decode bytes := Ok (len bytes);
  same_request := N.eqb;
  issuer := ();
  commands := counter_commands
|}.

(** The host: providers answer at once and permissions are granted; the mailbox is
    full or not. *)
Definition host (full : bool) : Host := {|
  verify_made := None; verify_polled := Polled_Ready (Ok 7%N);
  protect_made := None; protect_polled := Polled_Ready (Ok [x2f]);
  provider_dropped := None; joined := false;
  request_permission := Ok (); attempt_permission := Ok (); reply_permission := Ok ();
  target_ended := false;
  target := {| new_client := Ok ();
               try_send message := if full then Err (TrySend_Full message) else Ok ();
               shutdown := Ok (); reply_received := None; queued_replies := [];
               retirement_report := Report_new Established NoFailuresFound |};
  publish_permission _ := Ok (); publish_result _ := Ok ()
|}.

Lemma host_honest full : honest (target (host full)).
Proof. intros message error. destruct full; cbn; intros [= <-]. by left. Qed.

Definition polled i full e : Export := default e (poll counter_inputs i (host full) e).

(** The first request waits for capacity while its replay arrives and finds it;
    then the mailbox has room. *)
Definition replayed : Export :=
  polled 0 false (polled 0 false
    (polled 1 false (polled 1 false (accept counter_inputs framed
      (polled 0 true (polled 0 true (accept counter_inputs framed new_export))))))).

(** The export may be polled, and takes queries. *)
Definition pollable i full e : bool :=
  match phase e, poll counter_inputs i (host full) e with
  | Closed, _ | _, None => false
  | _, Some _ => true
  end.
Definition serving e : bool := match phase e with Serving => true | _ => false end.

Lemma polled_reachable i full e :
  pollable i full e = true → reachable counter_inputs e → reachable counter_inputs (polled i full e).
Proof.
  unfold pollable, polled. destruct (poll _ _ _ _) as [e'|] eqn:Hp; [|by destruct (phase e)].
  intros Hphase Hr. eapply rtc_r; [done|].
  eapply step_poll; [by destruct (phase e)|apply host_honest|done].
Qed.

Lemma accepted_reachable query e :
  serving e = true → reachable counter_inputs e → reachable counter_inputs (accept counter_inputs query e).
Proof. unfold serving. intros Hs Hr. eapply rtc_r; [done|]. constructor. by destruct (phase e). Qed.

Lemma replayed_reachable : reachable counter_inputs replayed.
Proof.
  unfold replayed.
  do 2 (apply polled_reachable; [vm_compute; reflexivity|]).
  do 2 (apply polled_reachable; [vm_compute; reflexivity|]).
  apply accepted_reachable; [vm_compute; reflexivity|].
  do 2 (apply polled_reachable; [vm_compute; reflexivity|]).
  apply accepted_reachable; [vm_compute; reflexivity|]. apply rtc_refl.
Qed.

(** The two requests, what was called and what was published. *)
Lemma replayed_trace :
  trace replayed =
    [Ev_Request 0 true; Ev_Request 0 true; Ev_Call 0 (Call_Send 5%N (Err (TrySend_Full 5%N)));
     Ev_Request 1 true; Ev_Reply 1 true;
     Ev_Request 0 true; Ev_Call 0 (Call_Send 5%N (Ok ())); Ev_Reply 0 true;
     Ev_Reply 0 true; Ev_Published 0 0 [x2b] [x2f];
     Ev_Reply 1 true; Ev_Published 1 0 [x2b] [x2f]].
Proof. vm_compute. reflexivity. Qed.

Lemma small_limits_bounded : (Npos (Json.input_bytes (json counter_inputs)) ≤ usize_max)%N.
Proof. unfold usize_max, u64_max. cbn. lia. Qed.

Lemma same_request_symmetric (receipt receipt' : Receipt) :
  same_request counter_inputs receipt receipt' = same_request counter_inputs receipt' receipt.
Proof. apply N.eqb_sym. Qed.

#[export] Instance counter_law : CommandsLaw (commands counter_inputs) := Submission_law _ _.

(** The message was accepted at position 6: no other accepted call has its row or
    names its request. *)
Lemma replays_reach_actor_once_witness :
  trace replayed !! 6 = Some (Ev_Call 0 (Call_Send 5%N (Ok ()))) ∧
  ∀ q d, trace replayed !! q = Some (Ev_Call 0 d) → is_accepted d = true → 6 = q.
Proof.
  split; [rewrite replayed_trace; reflexivity|]. intros q d Hq Hd.
  destruct (replays_reach_actor_once counter_inputs small_limits_bounded same_request_symmetric
    replayed replayed_reachable) as (Honce & Hcalls & _).
  destruct (Hcalls _ _ _ Hq) as (_ & r & x & Hr & _ & Hx).
  apply (Honce 6 q 0 0 _ d r r x x) with (1 := eq_trans (f_equal (lookup 6) replayed_trace) eq_refl);
    [exact Hq|reflexivity|exact Hd|exact Hr|exact Hx|exact Hr|exact Hx|by left].
Defined.

(** The replay was answered from the canonical request in row 0. *)
Lemma replies_come_from_canonical_witness :
  trace replayed !! 11 = Some (Ev_Published 1 0 [x2b] [x2f]) ∧
  ∃ r o, row_at (entries replayed) 1 = Some r ∧ row_at (entries replayed) 0 = Some o ∧
    identity o = Canonical (key_at counter_inputs 0) ∧ (original r).1 = (original o).1 ∧
    query r = None ∧ completed o = true ∧ encoding o = Some (Ok [x2b]) ∧
    retained (protection o) = Some (Ok [x2f]).
Proof.
  assert (trace replayed !! 11 = Some (Ev_Published 1 0 [x2b] [x2f])) as Hp
    by (rewrite replayed_trace; reflexivity).
  split; [exact Hp|].
  destruct (replies_come_from_canonical counter_inputs small_limits_bounded same_request_symmetric
    replayed replayed_reachable) as [Hpub _].
  exact (proj2 (Hpub _ _ _ _ _ Hp)).
Defined.

(** Both rows are in use, and the export is at its maximum. *)
Lemma export_never_panics_witness :
  len (entries replayed) = 2%N ∧ (export_panics counter_inputs replayed → False).
Proof.
  split; [vm_compute; reflexivity|].
  exact (proj1 (export_never_panics counter_inputs small_limits_bounded same_request_symmetric
    replayed replayed_reachable)).
Defined.
