(* ===== verification/RemoteClient.v ===== *)
(** * Outgoing requests and their responses

    [crates/bombay/src/remote/client.rs]: a client takes the messages of an actor
    as rows, sends at most one native query for each, and delivers to the actor
    what verified responses decode to.

    An operation ([request]) and the processing of one response ([reply]) are cut
    at their waits; a segment is a function of what the host answers
    ([ClientHost]), and returns the row and the events the host sees.  Rows share
    nothing but the count of operations, whose semaphore is the host's. *)

From S2P Require Import Prelude Endpoint RemoteIngress RemoteDeclaration.
Import Verification.

Class ClientTypes := {
  client_parser :: Json.JsonParser;
  Outgoing : Type;
  from : Outgoing → MailAddr;
  Receipt : Type;
  Message : Type;
  Sample : Type;
  payload : Sample → Bytes;
  attachment : Sample → option Bytes;
  NativeReplyError : Type;
  Panic : Type;
  EncodingError : Type;
  ProtectionError : Type;
  VerificationError : Type;
  DecodingError : Type;
  RequestError : Type;
  ReplyError : Type;
  AcquireError : Type;
  QueryError : Type;
  CallbackError : Type
}.

Record ClientLimits := {
  concurrent_requests : positive;
  retained_requests : positive;
  retained_responses : positive
}.

Section client.
Context {CT : ClientTypes}.

Variant ClientError :=
  | Origin (expected : MailAddr)
  | ClientError_Json (cause : Json.Error Json.JsonSyntaxError)
  | MissingProof.

(** The waits of the processing of a response, and of the operation of a request. *)
Variant ReplyStage := Reply_Start | Reply_Verifying | Reply_Capacity.
Variant Stage :=
  | Stage_Start
  | Stage_Acquiring
  | Stage_Protecting
  | Stage_Visible
  | Stage_Receiving
  | Stage_Replying (position : nat).

Record Response := {
  native_reply : Result Sample NativeReplyError;
  wire : option (Bytes * Bytes);
  shape : option (Result () ClientError);
  verified : Provision Panic (Result Receipt VerificationError);
  decoded : option (Result (Message + Attempt (Result () (TrySendError Message))) DecodingError);
  reply_refusal : option ReplyError;
  reply_stage : option ReplyStage
}.

Record ClientRequest := {
  outgoing : Outgoing;
  refusal : option ClientError;
  encoded : option (Result (option Bytes) EncodingError);
  protected : Provision Panic (Result Bytes ProtectionError);
  permission : option RequestError;
  capacity : option AcquireError;
  query : Attempt (Result () QueryError);
  incoming : bool;
  callback_refusal : option CallbackError;
  replies : list Response;
  callback_eof : bool;
  stage : option Stage
}.

Definition set_wire (x : option (Bytes * Bytes)) (r : Response) : Response :=
  {| native_reply := native_reply r; wire := x; shape := shape r; verified := verified r;
     decoded := decoded r; reply_refusal := reply_refusal r; reply_stage := reply_stage r |}.
Definition set_shape (x : option (Result () ClientError)) (r : Response) : Response :=
  {| native_reply := native_reply r; wire := wire r; shape := x; verified := verified r; decoded
     := decoded r; reply_refusal := reply_refusal r; reply_stage := reply_stage r |}.
Definition set_verified (x : Provision Panic (Result Receipt VerificationError)) (r : Response) : Response :=
  {| native_reply := native_reply r; wire := wire r; shape := shape r; verified := x; decoded :=
     decoded r; reply_refusal := reply_refusal r; reply_stage := reply_stage r |}.
Definition set_decoded (x : option (Result (Message + Attempt (Result () (TrySendError Message))) DecodingError)) (r : Response) : Response :=
  {| native_reply := native_reply r; wire := wire r; shape := shape r; verified := verified r;
     decoded := x; reply_refusal := reply_refusal r; reply_stage := reply_stage r |}.
Definition set_reply_refusal (x : option ReplyError) (r : Response) : Response :=
  {| native_reply := native_reply r; wire := wire r; shape := shape r; verified := verified r;
     decoded := decoded r; reply_refusal := x; reply_stage := reply_stage r |}.
Definition set_reply_stage (x : option ReplyStage) (r : Response) : Response :=
  {| native_reply := native_reply r; wire := wire r; shape := shape r; verified := verified r;
     decoded := decoded r; reply_refusal := reply_refusal r; reply_stage := x |}.
Definition set_refusal (x : option ClientError) (r : ClientRequest) : ClientRequest :=
  {| outgoing := outgoing r; refusal := x; encoded := encoded r; protected := protected r;
     permission := permission r; capacity := capacity r; query := query r; incoming := incoming
     r; callback_refusal := callback_refusal r; replies := replies r; callback_eof :=
     callback_eof r; stage := stage r |}.
Definition set_encoded (x : option (Result (option Bytes) EncodingError)) (r : ClientRequest) : ClientRequest :=
  {| outgoing := outgoing r; refusal := refusal r; encoded := x; protected := protected r;
     permission := permission r; capacity := capacity r; query := query r; incoming := incoming
     r; callback_refusal := callback_refusal r; replies := replies r; callback_eof :=
     callback_eof r; stage := stage r |}.
Definition set_protected (x : Provision Panic (Result Bytes ProtectionError)) (r : ClientRequest) : ClientRequest :=
  {| outgoing := outgoing r; refusal := refusal r; encoded := encoded r; protected := x;
     permission := permission r; capacity := capacity r; query := query r; incoming := incoming
     r; callback_refusal := callback_refusal r; replies := replies r; callback_eof :=
     callback_eof r; stage := stage r |}.
Definition set_permission (x : option RequestError) (r : ClientRequest) : ClientRequest :=
  {| outgoing := outgoing r; refusal := refusal r; encoded := encoded r; protected := protected
     r; permission := x; capacity := capacity r; query := query r; incoming := incoming r;
     callback_refusal := callback_refusal r; replies := replies r; callback_eof := callback_eof
     r; stage := stage r |}.
Definition set_capacity (x : option AcquireError) (r : ClientRequest) : ClientRequest :=
  {| outgoing := outgoing r; refusal := refusal r; encoded := encoded r; protected := protected
     r; permission := permission r; capacity := x; query := query r; incoming := incoming r;
     callback_refusal := callback_refusal r; replies := replies r; callback_eof := callback_eof
     r; stage := stage r |}.
Definition set_query (x : Attempt (Result () QueryError)) (r : ClientRequest) : ClientRequest :=
  {| outgoing := outgoing r; refusal := refusal r; encoded := encoded r; protected := protected
     r; permission := permission r; capacity := capacity r; query := x; incoming := incoming r;
     callback_refusal := callback_refusal r; replies := replies r; callback_eof := callback_eof
     r; stage := stage r |}.
Definition set_incoming (x : bool) (r : ClientRequest) : ClientRequest :=
  {| outgoing := outgoing r; refusal := refusal r; encoded := encoded r; protected := protected
     r; permission := permission r; capacity := capacity r; query := query r; incoming := x;
     callback_refusal := callback_refusal r; replies := replies r; callback_eof := callback_eof
     r; stage := stage r |}.
Definition set_callback_refusal (x : option CallbackError) (r : ClientRequest) : ClientRequest :=
  {| outgoing := outgoing r; refusal := refusal r; encoded := encoded r; protected := protected
     r; permission := permission r; capacity := capacity r; query := query r; incoming :=
     incoming r; callback_refusal := x; replies := replies r; callback_eof := callback_eof r;
     stage := stage r |}.
Definition set_replies (x : list Response) (r : ClientRequest) : ClientRequest :=
  {| outgoing := outgoing r; refusal := refusal r; encoded := encoded r; protected := protected
     r; permission := permission r; capacity := capacity r; query := query r; incoming :=
     incoming r; callback_refusal := callback_refusal r; replies := x; callback_eof :=
     callback_eof r; stage := stage r |}.
Definition set_callback_eof (x : bool) (r : ClientRequest) : ClientRequest :=
  {| outgoing := outgoing r; refusal := refusal r; encoded := encoded r; protected := protected
     r; permission := permission r; capacity := capacity r; query := query r; incoming :=
     incoming r; callback_refusal := callback_refusal r; replies := replies r; callback_eof :=
     x; stage := stage r |}.
Definition set_stage (x : option Stage) (r : ClientRequest) : ClientRequest :=
  {| outgoing := outgoing r; refusal := refusal r; encoded := encoded r; protected := protected
     r; permission := permission r; capacity := capacity r; query := query r; incoming :=
     incoming r; callback_refusal := callback_refusal r; replies := replies r; callback_eof :=
     callback_eof r; stage := x |}.

Definition new_response (native : Result Sample NativeReplyError) : Response :=
  {| native_reply := native; wire := None; shape := None; verified := no_provision; decoded := None;
     reply_refusal := None; reply_stage := Some Reply_Start |}.
Definition new_client_request (original : Outgoing) : ClientRequest :=
  {| outgoing := original; refusal := None; encoded := None; protected := no_provision;
     permission := None; capacity := None; query := Unattempted; incoming := false;
     callback_refusal := None; replies := []; callback_eof := false; stage := None |}.

(** What the host of a client sees of one row. *)
Variant ClientEvent :=
  | Ev_Request (granted : bool)
  | Ev_Get (encoded proof : Bytes)
  | Ev_Reply (position : nat) (granted : bool)
  | Ev_Deliver (position : nat) (message : Message) (answer : Result () (TrySendError Message)).

(** What the host answers to one segment. *)
Record ClientHost := {
  select_permission : Result () RequestError;
  get_permission : Result () RequestError;
  reply_permission : Result () ReplyError;
  delivery_permission : Result () ReplyError;
  acquired : Result () AcquireError;
  protect_made : option Panic;
  protect_polled : Polled Panic (Result Bytes ProtectionError);
  verify_made : option Panic;
  verify_polled : Polled Panic (Result Receipt VerificationError);
  provider_dropped : option Panic;
  joined : bool;
  visible : option (Result () QueryError);
  get_returned : Result () QueryError;
  received : option (Result Sample NativeReplyError);
  try_send : Message → Result () (TrySendError Message)
}.

(** [try_send] returns the message it does not take. *)
Definition honest_host (h : ClientHost) : Prop :=
  ∀ message error, try_send h message = Err error →
    error = TrySend_Full message ∨ error = TrySend_Closed message.

(** The source's policies and limits. *)
Record ClientInputs := {
  client_limits : ClientLimits;
  json_limits : Json.Limits;
  encode : Outgoing → MailAddr → Result (option Bytes) EncodingError;
  decode : Receipt → Bytes → Outgoing → Result Message DecodingError
}.

Section operations.
Context (inputs : ClientInputs) (target : MailAddr).
Implicit Types (r : ClientRequest) (s : Response) (h : ClientHost).

(** ** Selection of an acquired row *)

(** [Client::select]: a row of another origin is refused before any policy. *)
Definition select h r : ClientRequest * list ClientEvent :=
  if bool_decide (from (outgoing r) = target) then
    match select_permission h with
    | Err cause => (set_permission (Some cause) r, [Ev_Request false])
    | Ok _ => (set_encoded (Some (encode inputs (outgoing r) target)) r, [Ev_Request true])
    end
  else (set_refusal (Some (Origin target)) r, []).

(** ** One response *)

Definition ReplySegment : Type := option (Response * list ClientEvent).
Definition reply_leaves s (events : list ClientEvent) : ReplySegment := Some (set_reply_stage None s, events).
Definition reply_waits (stage : ReplyStage) s (events : list ClientEvent) : ReplySegment :=
  Some (set_reply_stage (Some stage) s, events).

(** The message of an eligible slot: constructed, or returned by a full mailbox. *)
Definition eligible (slot : Message + Attempt (Result () (TrySendError Message))) : option Message :=
  match slot with
  | inl message => Some message
  | inr (Returned (Err (TrySend_Full message))) => Some message
  | inr _ => None
  end.

(** One turn of the delivery loop of [Client::reply], under fresh authority. *)
Definition deliver position h s (events : list ClientEvent) : ReplySegment :=
  match delivery_permission h with
  | Err cause => reply_leaves (set_reply_refusal (Some cause) s) (events ++ [Ev_Reply position false])
  | Ok _ =>
      let events := events ++ [Ev_Reply position true] in
      match decoded s with
      | Some (Ok slot) =>
          match eligible slot with
          | None => reply_leaves s events
          | Some message =>
              let answer := try_send h message in
              let s := set_decoded (Some (Ok (inr (Returned answer)))) s in
              let events := events ++ [Ev_Deliver position message answer] in
              match answer with
              | Err (TrySend_Full _) => reply_waits Reply_Capacity s events
              | _ => reply_leaves s events
              end
          end
      | _ => reply_leaves s events
      end
  end.

Definition begin_reply h s : ReplySegment :=
  match native_reply s with
  | Err _ => reply_leaves s []
  | Ok sample =>
      match attachment sample with
      | None => reply_leaves (set_shape (Some (Err MissingProof)) s) []
      | Some proof =>
          if (Npos (Json.input_bytes (json_limits inputs)) <? len (payload sample))%N then
            reply_leaves (set_shape (Some (Err (ClientError_Json Json.InputBytes))) s) []
          else if (Npos (Json.proof_bytes (json_limits inputs)) <? len proof)%N then
            reply_leaves (set_shape (Some (Err (ClientError_Json Json.ProofBytes))) s) []
          else
            match Json.check (payload sample) proof (json_limits inputs) with
            | Some (Some checked) =>
                let s := set_shape (Some (map_err ClientError_Json checked))
                           (set_wire (Some (payload sample, proof)) s) in
                match checked with
                | Err _ => reply_leaves s []
                | Ok _ =>
                    let '(slots, running) := provide_begin (verify_made h) (verified s) in
                    let s := set_verified slots s in
                    if running then reply_waits Reply_Verifying s [] else reply_leaves s []
                end
            | _ => panic!
            end
      end
  end.

Definition verify_reply position h (original : Outgoing) s : ReplySegment :=
  let '(slots, returned) := provide_poll (verify_polled h) (joined h) (provider_dropped h) (verified s) in
  let s := set_verified slots s in
  if returned then
    match unharmed slots, retained slots, wire s with
    | true, Some (Ok receipt), Some (protected, _) =>
        match reply_permission h with
        | Err cause => reply_leaves (set_reply_refusal (Some cause) s) [Ev_Reply position false]
        | Ok _ =>
            let message :=
              match decode inputs receipt protected original with
              | Ok message => Ok (inl message)
              | Err cause => Err cause
              end in
            deliver position h (set_decoded (Some message) s) [Ev_Reply position true]
        end
    | _, _, _ => reply_leaves s []
    end
  else reply_waits Reply_Verifying s [].

Definition reply_segment position h (original : Outgoing) (stage : ReplyStage) s : ReplySegment :=
  match stage with
  | Reply_Start => begin_reply h s
  | Reply_Verifying => verify_reply position h original s
  | Reply_Capacity => if joined h then reply_leaves s [] else deliver position h s []
  end.

(** ** One request *)

Definition ClientSegment : Type := option (ClientRequest * list ClientEvent).
Definition leaves r (events : list ClientEvent) : ClientSegment := Some (set_stage None r, events).
Definition waits (next : Stage) r (events : list ClientEvent) : ClientSegment :=
  Some (set_stage (Some next) r, events).

(** The bytes of a row that needs a query. *)
Definition encoded_bytes r : option Bytes :=
  match encoded r with Some (Ok (Some bytes)) => Some bytes | _ => None end.
Definition protected_proof r : option Bytes :=
  match retained (protected r) with Some (Ok proof) => Some proof | _ => None end.

Definition acquire_request h r : ClientSegment :=
  match acquired h with
  | Err cause => leaves (set_capacity (Some cause) r) []
  | Ok _ =>
      let '(slots, running) := provide_begin (protect_made h) (protected r) in
      let r := set_protected slots r in
      if running then waits Stage_Protecting r [] else leaves r []
  end.

Definition protect_request h r : ClientSegment :=
  let '(slots, returned) :=
    provide_poll (protect_polled h) (joined h) (provider_dropped h) (protected r) in
  let r := set_protected slots r in
  if returned then
    match unharmed slots, encoded_bytes r, protected_proof r with
    | true, Some bytes, Some proof =>
        match Json.check bytes proof (json_limits inputs) with
        | Some (Some (Err cause)) => leaves (set_refusal (Some (ClientError_Json cause)) r) []
        | Some (Some (Ok _)) => waits Stage_Visible r []
        | _ => panic!
        end
    | _, _, _ => leaves r []
    end
  else waits Stage_Protecting r [].

(** The query is entered under its own permission, after its state is uncertain. *)
Definition get_request h r : ClientSegment :=
  match visible h with
  | Some (Ok _) =>
      match get_permission h with
      | Err cause => leaves (set_permission (Some cause) r) [Ev_Request false]
      | Ok _ =>
          match encoded_bytes r, protected_proof r with
          | Some bytes, Some proof =>
              waits Stage_Receiving
                (set_query (Returned (get_returned h)) (set_query Uncertain (set_incoming true r)))
                [Ev_Request true; Ev_Get bytes proof]
          | _, _ => leaves r [Ev_Request true]
          end
      end
  | _ => leaves r []
  end.

Definition receive_response h r : ClientSegment :=
  match received h with
  | None => leaves (set_callback_eof true r) []
  | Some native =>
      waits (Stage_Replying (length (replies r)))
        (set_replies (replies r ++ [new_response native]) r) []
  end.

(** A response that is processed lets the next one be received. *)
Definition process_response position h r : ClientSegment :=
  s ← replies r !! position;
  match reply_stage s with
  | None => waits Stage_Receiving r []
  | Some current =>
      '(s, events) ← reply_segment position h (outgoing r) current s;
      let r := set_replies (<[position := s]> (replies r)) r in
      match reply_stage s with
      | None => waits Stage_Receiving r events
      | Some _ => waits (Stage_Replying position) r events
      end
  end.

(** [Client::request] *)
Definition request_segment h (current : Stage) r : ClientSegment :=
  match current with
  | Stage_Start =>
      match encoded_bytes r with Some _ => waits Stage_Acquiring r [] | None => leaves r [] end
  | Stage_Acquiring => acquire_request h r
  | Stage_Protecting => protect_request h r
  | Stage_Visible => get_request h r
  | Stage_Receiving => receive_response h r
  | Stage_Replying position => process_response position h r
  end.

(** The callback of the query keeps the first original it cannot charge. *)
Definition callback (refused : CallbackError) r : ClientRequest :=
  match callback_refusal r with None => set_callback_refusal (Some refused) r | Some _ => r end.

(** An operation dropped at its wait disposes the provider it polls. *)
Definition drop_operation (dropped : option Panic) r : ClientRequest :=
  set_stage None
    match stage r with
    | Some Stage_Protecting => set_protected (Provider_drop dropped (protected r)) r
    | Some (Stage_Replying position) =>
        match replies r !! position with
        | Some s =>
            match reply_stage s with
            | Some Reply_Verifying =>
                set_replies (<[position := set_reply_stage None
                  (set_verified (Provider_drop dropped (verified s)) s)]> (replies r)) r
            | _ => set_replies (<[position := set_reply_stage None s]> (replies r)) r
            end
        | None => r
        end
    | _ => r
    end.

(** [retire]: what the query still holds, up to its end. *)
Definition retire_row (rest : list (Result Sample NativeReplyError)) r : ClientRequest :=
  if callback_eof r then r
  else if incoming r then
    set_callback_eof true (set_replies (replies r ++ (new_response <$> rest)) r)
  else r.

(** ** The client *)

Record Row := { row_request : ClientRequest; row_events : list ClientEvent }.
Record Client := { requests : list Row; open : bool; serving : bool }.
Definition new_client : Client := {| requests := []; open := true; serving := true |}.
Implicit Types (c : Client) (i : nat).

(** A row is acquired: [live] while the loop serves, without an operation when the
    accepted prefix is retired; the last of the quota closes the source. *)
Definition acquire (live : bool) (original : Outgoing) h c : Client :=
  let '(r, events) := select h (new_client_request original) in
  let rows := requests c ++
    [{| row_request := if live then set_stage (Some Stage_Start) r else r; row_events := events |}] in
  {| requests := rows;
     open := open c && negb (len rows =? Npos (retained_requests (client_limits inputs)))%N;
     serving := serving c |}.

Definition has_budget c : bool :=
  (len (requests c) <? Npos (retained_requests (client_limits inputs)))%N.

Definition update_row i (row : Row) c : Client :=
  {| requests := <[i := row]> (requests c); open := open c; serving := serving c |}.
Definition update_rows (f : ClientRequest → ClientRequest) c : Client :=
  {| requests := (λ row, {| row_request := f (row_request row); row_events := row_events row |}) <$> requests c;
     open := false; serving := false |}.

Definition poll_row i h c : option Client :=
  match requests c !! i with
  | Some row =>
      match stage (row_request row) with
      | Some current =>
          '(r, events) ← request_segment h current (row_request row);
          Some (update_row i {| row_request := r; row_events := row_events row ++ events |} c)
      | None => Some c
      end
  | None => Some c
  end.

Inductive client_step : Client → Client → Prop :=
  | client_acquires original h c :
      serving c = true → has_budget c = true → client_step c (acquire true original h c)
  | client_polls i h c c' :
      serving c = true → honest_host h → poll_row i h c = Some c' → client_step c c'
  | client_calls_back i refused c row :
      requests c !! i = Some row → incoming (row_request row) = true →
      client_step c (update_row i {| row_request := callback refused (row_request row);
                                     row_events := row_events row |} c)
  | client_stops (dropped : ClientRequest → option Panic) c :
      client_step c (update_rows (λ r, drop_operation (dropped r) r) c)
  | client_takes_prefix original h c :
      serving c = false → has_budget c = true → client_step c (acquire false original h c)
  | client_retires (rest : ClientRequest → list (Result Sample NativeReplyError)) c :
      serving c = false → client_step c (update_rows (λ r, retire_row (rest r) r) c).

Definition client_reachable : Client → Prop := rtc client_step new_client.
End operations.
End client.
