(* ===== verification/RemoteClientLaw.v ===== *)
(** * What a client guarantees

    Invariants of RemoteClient.v: a row of a client makes at most one query, for a
    protected and checked encoding, and delivers to its actor at most one message
    of each response, which a verified receipt decodes to. *)

From S2P Require Import Prelude Endpoint RemoteIngress RemoteDeclaration RemoteClient.
Import Verification Trace.

Section law.
Context {CT : ClientTypes} {parser_law : Json.JsonParserLaw} (inputs : ClientInputs) (target : MailAddr).
Context (json_bounded : (Npos (Json.input_bytes (json_limits inputs)) ≤ usize_max)%N).
Implicit Types (r : ClientRequest) (s : Response) (h : ClientHost) (events : list ClientEvent) (k : nat).

Definition Delivery : Type := Message * Result () (TrySendError Message).

(** The deliveries of a response, and the queries, in the events of a row. *)
Definition delivery_of k (event : ClientEvent) : option Delivery :=
  match event with
  | Ev_Deliver j message answer => if bool_decide (j = k) then Some (message, answer) else None
  | _ => None
  end.
Definition deliveries_of k events : list Delivery := omap (delivery_of k) events.
Definition get_of (event : ClientEvent) : option (Bytes * Bytes) :=
  match event with Ev_Get encoded proof => Some (encoded, proof) | _ => None end.
Definition gets_of events : list (Bytes * Bytes) := omap get_of events.

(** Every delivery and every query directly follows a grant of its own. *)
Definition client_license (event : ClientEvent) : option ClientEvent :=
  match event with
  | Ev_Get _ _ => Some (Ev_Request true)
  | Ev_Deliver k _ _ => Some (Ev_Reply k true)
  | _ => None
  end.
Abbreviation client_licensed := (licensed client_license).

Lemma deliveries_of_app k events more :
  deliveries_of k (events ++ more) = deliveries_of k events ++ deliveries_of k more.
Proof. apply omap_app. Qed.
Lemma gets_of_app events more : gets_of (events ++ more) = gets_of events ++ gets_of more.
Proof. apply omap_app. Qed.

(** ** One response *)

(** A delivery that a full mailbox refused. *)
Definition refused_full (m : Message) (delivery : Delivery) : Prop :=
  ∃ m', delivery = (m, Err (TrySend_Full m')).

(** What the slot of message [m] says of the deliveries. *)
Definition slot_ok (m : Message) (slot : Message + Attempt (Result () (TrySendError Message)))
    (deliveries : list Delivery) : Prop :=
  match slot with
  | inl m' => m' = m ∧ deliveries = []
  | inr (Returned answer) =>
      (∃ refused, deliveries = refused ++ [(m, answer)] ∧ Forall (refused_full m) refused) ∧
      ∀ m', answer = Err (TrySend_Full m') → m' = m
  | inr _ => False
  end.

(** The facts a delivered message comes from. *)
Definition decodes (original : Outgoing) s (m : Message) : Prop :=
  ∃ receipt protected proof, wire s = Some (protected, proof) ∧ shape s = Some (Ok ()) ∧
    retained (verified s) = Some (Ok receipt) ∧ RemoteClient.decode inputs receipt protected original = Ok m.

Definition decoded_ok (original : Outgoing) s (deliveries : list Delivery) : Prop :=
  match decoded s with
  | Some (Ok slot) => ∃ m, decodes original s m ∧ slot_ok m slot deliveries
  | _ => deliveries = []
  end.

Record response_ok (original : Outgoing) s (deliveries : list Delivery) : Prop := {
  resp_decoded : decoded_ok original s deliveries;
  resp_early : reply_stage s = Some Reply_Start ∨ reply_stage s = Some Reply_Verifying → decoded s = None;
  resp_shaped : reply_stage s = Some Reply_Verifying → shape s = Some (Ok ())
}.

(** What a segment of response [k] leaves. *)
Record reply_post (original : Outgoing) k (deliveries : list Delivery) s' events : Prop := {
  reply_ok : response_ok original s' (deliveries ++ deliveries_of k events);
  reply_others j : j ≠ k → deliveries_of j events = [];
  reply_gets : gets_of events = [];
  reply_licensed : client_licensed events
}.

Definition reply_segment_ok (segment : ReplySegment) (Q : Response → list ClientEvent → Prop) : Prop :=
  match segment with Some (s, events) => Q s events | None => False end.

(** A response whose processing ends without a delivery. *)
Lemma reply_ends original k deliveries s' events :
  response_ok original s' deliveries → reply_stage s' = None →
  (∀ j, deliveries_of j events = []) → gets_of events = [] → client_licensed events →
  reply_post original k deliveries s' events.
Proof. intros Hok Hs Hd Hg Hl. split; [by rewrite Hd, app_nil_r|by intros|done|done]. Qed.

Lemma quiet_response original s s' deliveries :
  decoded_ok original s deliveries → decoded s' = decoded s → wire s' = wire s → shape s' = shape s →
  retained (verified s') = retained (verified s) → reply_stage s' = None → response_ok original s' deliveries.
Proof.
  intros Hd Hd' Hw Hsh Hv Hst. split; rewrite ?Hst; [|by intros [|]|done].
  unfold decoded_ok. rewrite Hd'. unfold decodes. by rewrite Hw, Hsh, Hv.
Qed.

(** Nothing is decoded yet. *)
Lemma undecoded_response original s : decoded s = None → reply_stage s = None → response_ok original s [].
Proof. intros Hd Hs. split; unfold decoded_ok; by rewrite ?Hd, ?Hs. Qed.

Lemma deliver_post original k h s events deliveries :
  honest_host h → decoded_ok original s deliveries →
  (∀ j, deliveries_of j events = []) → gets_of events = [] → client_licensed events →
  reply_segment_ok (deliver k h s events) (reply_post original k deliveries).
Proof.
  intros Hh Hok Hd Hg Hl. unfold deliver.
  assert (∀ granted, (∀ j, deliveries_of j (events ++ [Ev_Reply k granted]) = []) ∧
    gets_of (events ++ [Ev_Reply k granted]) = [] ∧ client_licensed (events ++ [Ev_Reply k granted])) as Hasked.
  { intros granted. split_and!.
    - intros j. by rewrite deliveries_of_app, Hd.
    - by rewrite gets_of_app, Hg.
    - apply licensed_app; [done|]. by apply licensed_one. }
  destruct (delivery_permission h) as [|cause].
  2: { destruct (Hasked false) as (? & ? & ?). apply reply_ends; try done. by eapply quiet_response. }
  destruct (Hasked true) as (Hd1 & Hg1 & Hl1).
  assert (reply_post original k deliveries (set_reply_stage None s) (events ++ [Ev_Reply k true])) as Hstop.
  { apply reply_ends; try done. by eapply quiet_response. }
  pose proof Hok as Hdec. unfold decoded_ok in Hdec. destruct (decoded s) as [[slot|]|] eqn:Hs; [|done..].
  destruct (eligible slot) as [message|] eqn:Hel; [|done].
  destruct Hdec as (m & Hm & Hslot).
  assert (message = m ∧ Forall (refused_full m) deliveries) as [-> Hrefused].
  { destruct slot as [m'|[| |[|[m'|m']]]]; cbn in Hel, Hslot; try done; injection Hel as <-.
    - destruct Hslot as [<- ->]. by split.
    - destruct Hslot as [(refused & -> & Hf) Hm']. split; [by apply Hm'|].
      apply Forall_app. split; [done|]. apply Forall_singleton. by exists m'. }
  set (s1 := set_decoded (Some (Ok (inr (Returned (try_send h m))))) s).
  set (events1 := (events ++ [Ev_Reply k true]) ++ [Ev_Deliver k m (try_send h m)]).
  assert (deliveries_of k events1 = [(m, try_send h m)]) as Hk.
  { unfold events1. rewrite deliveries_of_app, Hd1. cbn. by rewrite bool_decide_eq_true_2. }
  assert (∀ next, (next = None ∨ next = Some Reply_Capacity) →
    reply_post original k deliveries (set_reply_stage next s1) events1) as Hsent.
  { intros next Hnext. split.
    - rewrite Hk. split; unfold decoded_ok; cbn; [|by destruct Hnext as [-> | ->]; intros [|]|by destruct Hnext as [-> | ->]].
      exists m. split; [exact Hm|]. split; [by exists deliveries|].
      intros m' Hm'. by destruct (Hh _ _ Hm') as [[= ->]|].
    - intros j Hj. unfold events1. rewrite deliveries_of_app, Hd1. cbn. by rewrite bool_decide_eq_false_2.
    - unfold events1. by rewrite gets_of_app, Hg1.
    - unfold events1. rewrite <- app_assoc. apply licensed_app; [done|]. by apply licensed_two. }
  fold s1. fold events1. destruct (try_send h m) as [|[m'|m']]; [apply Hsent; by left|apply Hsent; by right|apply Hsent; by left].
Qed.

Lemma begin_reply_post original k h s deliveries :
  response_ok original s deliveries → reply_stage s = Some Reply_Start →
  reply_segment_ok (begin_reply inputs h s) (reply_post original k deliveries).
Proof.
  intros [Hd He _] Hs. pose proof (He (or_introl Hs)) as Hnone. unfold decoded_ok in Hd. rewrite Hnone in Hd. subst deliveries.
  assert (∀ s', decoded s' = None →
    reply_segment_ok (reply_leaves s' []) (reply_post original k [])) as Hends.
  { intros s' Hs'. by apply reply_ends; [apply undecoded_response| | | |apply licensed_nil]. }
  unfold begin_reply. destruct (native_reply s) as [sample|]; [|by apply Hends].
  destruct (attachment sample) as [proof|]; [|by apply Hends].
  destruct (_ <? _)%N; [by apply Hends|]. destruct (_ <? _)%N; [by apply Hends|].
  destruct (Json.check_returns (payload sample) proof (json_limits inputs) json_bounded) as [checked ->].
  destruct checked as [[]|cause]; [|by apply Hends].
  destruct (verify_made h); cbn; [by apply Hends|].
  split; [|done|done|apply licensed_nil]. split; [by unfold decoded_ok; cbn; rewrite Hnone|done|done].
Qed.

Lemma verify_reply_post original k h s deliveries :
  honest_host h → response_ok original s deliveries → reply_stage s = Some Reply_Verifying →
  reply_segment_ok (verify_reply inputs k h original s) (reply_post original k deliveries).
Proof.
  intros Hh [Hd He Hshape] Hs. pose proof (He (or_intror Hs)) as Hnone. unfold decoded_ok in Hd. rewrite Hnone in Hd. subst deliveries.
  specialize (Hshape Hs).
  assert (∀ s' events, decoded s' = None → (∀ j, deliveries_of j events = []) → gets_of events = [] →
    client_licensed events → reply_segment_ok (reply_leaves s' events) (reply_post original k [])) as Hends.
  { intros s' events Hs' ???. by apply reply_ends; [apply undecoded_response|..]. }
  unfold verify_reply. destruct (provide_poll _ _ _ _) as [slots returned].
  set (s1 := set_verified slots s).
  assert (reply_segment_ok (reply_leaves s1 []) (reply_post original k [])) as Hquiet
    by by apply Hends; [| | |apply licensed_nil].
  destruct returned.
  2: { split; [|done|done|apply licensed_nil]. split; [by unfold decoded_ok; cbn; rewrite Hnone|done|done]. }
  destruct (unharmed slots); [|done]. destruct (retained slots) as [[receipt|]|] eqn:Hv; [|done..].
  destruct (wire s1) as [[protected proof]|] eqn:Hw; [|done].
  destruct (reply_permission h) as [|cause]; [|by apply Hends; [| | |apply licensed_one]].
  apply deliver_post; [done| |done|done|by apply licensed_one].
  unfold decoded_ok. cbn. destruct (RemoteClient.decode inputs receipt protected original) as [m|] eqn:Hm; [|done].
  exists m. split; [|done]. by exists receipt, protected, proof.
Qed.

Lemma reply_segment_post original k h s current deliveries :
  honest_host h → response_ok original s deliveries → reply_stage s = Some current →
  reply_segment_ok (reply_segment inputs k h original current s) (reply_post original k deliveries).
Proof.
  intros Hh Hok Hs. destruct current; cbn [reply_segment].
  - by apply begin_reply_post.
  - by apply verify_reply_post.
  - destruct Hok as [Hd _ _]. destruct (joined h).
    + apply reply_ends; [by eapply quiet_response|done..|apply licensed_nil].
    + by apply deliver_post; [| | | |apply licensed_nil].
Qed.

(** ** One request *)

Record row_ok r events : Prop := {
  row_licensed : client_licensed events;
  row_responses k :
    match replies r !! k with
    | Some s => response_ok (outgoing r) s (deliveries_of k events)
    | None => deliveries_of k events = []
    end;
  row_gets : gets_of events = [] ∨ ∃ bytes proof, gets_of events = [(bytes, proof)] ∧
    encoded_bytes r = Some bytes ∧ protected_proof r = Some proof ∧
    Json.check bytes proof (json_limits inputs) = Some (Some (Ok ()));
  row_early : match stage r with
    | Some (Stage_Receiving | Stage_Replying _) | None => True
    | Some _ => gets_of events = []
    end;
  row_origin : is_Some (encoded_bytes r) → from (outgoing r) = target;
  row_visible : stage r = Some Stage_Visible → ∃ bytes proof,
    encoded_bytes r = Some bytes ∧ protected_proof r = Some proof ∧
    Json.check bytes proof (json_limits inputs) = Some (Some (Ok ()));
  row_replying k : stage r = Some (Stage_Replying k) → is_Some (replies r !! k)
}.

(** What a segment leaves: a good row, and the row's original. *)
Definition row_segment_ok (segment : ClientSegment) events : Prop :=
  match segment with Some (r', more) => row_ok r' (events ++ more) | None => False end.

(** A segment before the query, which changes nothing that was acquired. *)
Lemma early_leaves r r' events more :
  row_ok r events → gets_of events = [] → replies r' = replies r → outgoing r' = outgoing r →
  encoded r' = encoded r → stage r' = None → gets_of more = [] → (∀ k, deliveries_of k more = []) →
  client_licensed more → row_ok r' (events ++ more).
Proof.
  intros [Hl Hr Hg He Ho Hv Hk] Hnone Hrep Hout Henc Hst Hgm Hdm Hlm. split; rewrite ?Hst; try done.
  - by apply licensed_app.
  - intros k. rewrite Hrep, Hout, deliveries_of_app, Hdm, app_nil_r. apply Hr.
  - left. by rewrite gets_of_app, Hnone, Hgm.
  - unfold encoded_bytes. by rewrite Henc, Hout.
Qed.

(** A wait before the query. *)
Lemma early_waits r r' events next :
  row_ok r events → gets_of events = [] → replies r' = replies r → outgoing r' = outgoing r →
  encoded r' = encoded r → stage r' = Some next → next = Stage_Acquiring ∨ next = Stage_Protecting →
  row_ok r' (events ++ []).
Proof.
  intros [Hl Hr Hg He Ho Hv Hk] Hnone Hrep Hout Henc Hst Hnext. rewrite app_nil_r. split; rewrite ?Hst.
  - done.
  - intros k. rewrite Hrep, Hout. apply Hr.
  - by left.
  - by destruct Hnext as [-> | ->].
  - unfold encoded_bytes. by rewrite Henc, Hout.
  - by destruct Hnext as [-> | ->].
  - by destruct Hnext as [-> | ->].
Qed.

Lemma early_none r events current :
  row_ok r events → stage r = Some current →
  match current with Stage_Receiving | Stage_Replying _ => True | _ => gets_of events = [] end.
Proof. intros Hok Hs. pose proof (row_early _ _ Hok) as He. rewrite Hs in He. by destruct current. Qed.

Lemma protect_row r events h :
  row_ok r events → stage r = Some Stage_Protecting → row_segment_ok (protect_request inputs h r) events.
Proof.
  intros Hok Hs. pose proof (early_none _ _ _ Hok Hs) as Hnone. cbn in Hnone.
  unfold protect_request. destruct (provide_poll _ _ _ _) as [slots returned]. set (r1 := set_protected slots r).
  assert (∀ r', replies r' = replies r → outgoing r' = outgoing r → encoded r' = encoded r → stage r' = None →
    row_ok r' (events ++ [])) as Hleaves by (intros r' ????; by eapply early_leaves; [..|apply licensed_nil]).
  destruct returned; [|by eapply early_waits; try done; right].
  destruct (unharmed slots); [|by apply Hleaves].
  destruct (encoded_bytes r1) as [bytes|] eqn:Hb; [|by apply Hleaves].
  destruct (protected_proof r1) as [proof|] eqn:Hp; [|by apply Hleaves].
  destruct (Json.check_returns bytes proof (json_limits inputs) json_bounded) as [checked Hcheck].
  rewrite Hcheck. destruct checked as [[]|cause]; [|by apply Hleaves].
  cbn. rewrite app_nil_r. destruct Hok as [Hl Hr Hg He Ho Hv Hk]. split; try done; [by left|].
  intros _. by exists bytes, proof.
Qed.

Lemma get_row r events h :
  row_ok r events → stage r = Some Stage_Visible → row_segment_ok (get_request h r) events.
Proof.
  intros Hok Hs. pose proof (early_none _ _ _ Hok Hs) as Hnone. cbn in Hnone.
  destruct (row_visible _ _ Hok Hs) as (bytes & proof & Hb & Hp & Hcheck).
  unfold get_request.
  assert (∀ r', replies r' = replies r → outgoing r' = outgoing r → encoded r' = encoded r → stage r' = None →
    row_ok r' (events ++ [])) as Hleaves by (intros r' ????; by eapply early_leaves; [..|apply licensed_nil]).
  destruct (visible h) as [[|]|]; [|by apply Hleaves..].
  destruct (get_permission h) as [|cause].
  2: { by eapply early_leaves; [..|by apply licensed_one]. }
  rewrite Hb, Hp. cbn. destruct Hok as [Hl Hr Hg He Ho Hv Hk]. split; cbn; try done.
  - apply licensed_app; [done|]. by apply licensed_two.
  - intros k. rewrite deliveries_of_app. cbn. rewrite app_nil_r. apply Hr.
  - right. exists bytes, proof. rewrite gets_of_app, Hnone. by split_and!.
Qed.

Lemma receive_row r events h :
  row_ok r events → row_segment_ok (receive_response h r) events.
Proof.
  intros [Hl Hr Hg He Ho Hv Hk]. unfold receive_response.
  destruct (received h) as [native|]; cbn; rewrite app_nil_r; split; try done; cbn.
  - intros k. specialize (Hr k). destruct (replies r !! k) as [s|] eqn:Hs.
    + by rewrite (lookup_app_l_Some _ _ _ _ Hs).
    + destruct (decide (k = length (replies r))) as [->|Hne].
      * rewrite list_lookup_middle by done. rewrite Hr. by split.
      * apply lookup_ge_None in Hs. rewrite lookup_ge_None_2; [done|]. rewrite length_app. cbn. lia.
  - intros k [= <-]. rewrite list_lookup_middle by done. by eexists.
Qed.

Lemma process_row r events h k :
  honest_host h → row_ok r events → stage r = Some (Stage_Replying k) →
  row_segment_ok (process_response inputs k h r) events.
Proof.
  intros Hh [Hl Hr Hg He Ho Hv Hk] Hs. destruct (Hk k Hs) as [s Hat]. unfold process_response. rewrite Hat. cbn.
  destruct (reply_stage s) as [current|] eqn:Hst.
  2: { cbn. rewrite app_nil_r. by split. }
  pose proof (Hr k) as Hok. rewrite Hat in Hok.
  pose proof (reply_segment_post _ k h s current _ Hh Hok Hst) as Hpost.
  destruct (reply_segment _ _ _ _ _ _) as [[s' more]|]; [|done]. destruct Hpost as [Hok' Hothers Hgets Hlic]. cbn.
  assert (∀ next, next = Stage_Receiving ∨ next = Stage_Replying k →
    row_ok (set_stage (Some next) (set_replies (<[k := s']> (replies r)) r)) (events ++ more)) as Hrow.
  { intros next Hnext. split; cbn.
    - by apply licensed_app.
    - intros j. rewrite deliveries_of_app. destruct (decide (j = k)) as [->|Hj].
      + by rewrite list_lookup_insert_eq by by eapply lookup_lt_Some.
      + rewrite list_lookup_insert_ne, (Hothers j Hj), app_nil_r by done. apply Hr.
    - by rewrite gets_of_app, Hgets, app_nil_r.
    - by destruct Hnext as [-> | ->].
    - done.
    - by destruct Hnext as [-> | ->].
    - intros j Hj. destruct Hnext as [-> | ->]; [done|]. injection Hj as <-.
      by rewrite list_lookup_insert_eq by by eapply lookup_lt_Some. }
  destruct (reply_stage s'); apply Hrow; auto.
Qed.

(** Every segment of the operation of a row. *)
Lemma request_segment_row r events h current :
  honest_host h → row_ok r events → stage r = Some current →
  row_segment_ok (request_segment inputs h current r) events.
Proof.
  intros Hh Hok Hs. pose proof (early_none _ _ _ Hok Hs) as Hnone.
  destruct current; cbn [request_segment].
  - destruct (encoded_bytes r); [by eapply early_waits; try done; left|].
    by eapply early_leaves; [..|apply licensed_nil].
  - unfold acquire_request. destruct (acquired h).
    + destruct (protect_made h); cbn; [by eapply early_leaves; [..|apply licensed_nil]|].
      by eapply early_waits; try done; right.
    + by eapply early_leaves; [..|apply licensed_nil].
  - by apply protect_row.
  - by apply get_row.
  - by apply receive_row.
  - by apply process_row.
Qed.

(** ** The client *)

Implicit Types (c : Client) (i : nat).

(** A fresh row, selected. *)
Lemma select_row h original :
  row_ok (select inputs target h (new_client_request original)).1 (select inputs target h (new_client_request original)).2 ∧
  stage (select inputs target h (new_client_request original)).1 = None.
Proof.
  unfold select. cbn. case_bool_decide as Hfrom; [destruct (select_permission h)|]; cbn; (split; [|done]);
    split; cbn; try done; try (by apply licensed_one); try (by left); try apply licensed_nil.
  all: by intros [].
Qed.

Lemma started_row r events :
  row_ok r events → gets_of events = [] → row_ok (set_stage (Some Stage_Start) r) events.
Proof. intros [Hl Hr Hg He Ho Hv Hk] Hnone. by split. Qed.

(** A row whose operation is over, or was dropped. *)
Lemma stopped_row r r' events :
  row_ok r events → stage r' = None → outgoing r' = outgoing r → encoded r' = encoded r →
  retained (protected r') = retained (protected r) →
  (∀ k, match replies r' !! k with
        | Some s => response_ok (outgoing r) s (deliveries_of k events)
        | None => deliveries_of k events = []
        end) → row_ok r' events.
Proof.
  intros [Hl Hr Hg He Ho Hv Hk] Hst Hout Henc Hp Hrep. split; rewrite ?Hst; try done.
  - by rewrite Hout.
  - unfold encoded_bytes, protected_proof in *. by rewrite Henc, Hp.
  - unfold encoded_bytes in *. by rewrite Henc, Hout.
Qed.

Lemma drop_row r events dropped : row_ok r events → row_ok (drop_operation dropped r) events.
Proof.
  intros Hok. unfold drop_operation. pose proof (row_responses _ _ Hok) as Hr.
  assert (∀ k s s', replies r !! k = Some s → decoded s' = decoded s → wire s' = wire s → shape s' = shape s →
    retained (verified s') = retained (verified s) → reply_stage s' = None →
    row_ok (set_stage None (set_replies (<[k := s']> (replies r)) r)) events) as Hreply.
  { intros k s s' Hk ?????. eapply stopped_row; try done. intros j. cbn.
    destruct (decide (j = k)) as [->|Hj].
    - rewrite list_lookup_insert_eq by by eapply lookup_lt_Some. pose proof (Hr k) as Hs. rewrite Hk in Hs.
      eapply quiet_response; try done. by destruct Hs.
    - rewrite list_lookup_insert_ne by done. apply Hr. }
  assert (row_ok (set_stage None r) events) as Hidle by by eapply stopped_row.
  destruct (stage r) as [[| | | | |k]|]; try done.
  - eapply stopped_row; try done. by destruct dropped.
  - destruct (replies r !! k) as [s|] eqn:Hk; [|done].
    destruct (reply_stage s) as [[]|]; (eapply Hreply; [done|done..|by destruct dropped|done]) || by eapply Hreply.
Qed.

Lemma retire_row_ok r events rest :
  row_ok r events → stage r = None → row_ok (retire_row rest r) events.
Proof.
  intros Hok Hs. unfold retire_row. destruct (callback_eof r); [done|]. destruct (incoming r); [|done].
  eapply stopped_row; try done. cbn. intros k. pose proof (row_responses _ _ Hok k) as Hr.
  destruct (replies r !! k) as [s|] eqn:Hk.
  - by rewrite (lookup_app_l_Some _ _ _ _ Hk).
  - apply lookup_ge_None in Hk. rewrite lookup_app_r by done. rewrite list_lookup_fmap.
    destruct (rest !! _); [|done]. cbn. rewrite Hr. by split.
Qed.

Lemma callback_row r events refused : row_ok r events → row_ok (callback refused r) events.
Proof. intros Hok. unfold callback. destruct (callback_refusal r); [done|]. by destruct Hok. Qed.

(** The rows, their number and the source of a client. *)
Record client_ok c : Prop := {
  client_rows i row : requests c !! i = Some row → row_ok (row_request row) (row_events row);
  client_budget : (len (requests c) ≤ Npos (retained_requests (client_limits inputs)))%N;
  client_closed : len (requests c) = Npos (retained_requests (client_limits inputs)) → open c = false;
  client_stopped i row : serving c = false → requests c !! i = Some row → stage (row_request row) = None
}.

Lemma client_new : client_ok new_client.
Proof. by split. Qed.

Lemma update_row_ok c i row row' :
  client_ok c → requests c !! i = Some row → row_ok (row_request row') (row_events row') →
  (serving c = false → stage (row_request row') = None) → client_ok (update_row i row' c).
Proof.
  intros [Hr Hb Hc Hs] Hi Hok Hst. assert (i < length (requests c)) as Hlt by by eapply lookup_lt_Some.
  split; cbn.
  - intros j o. destruct (decide (j = i)) as [->|Hj].
    + rewrite list_lookup_insert_eq by done. by intros [= <-].
    + rewrite list_lookup_insert_ne by done. apply Hr.
  - unfold len. rewrite length_insert. done.
  - unfold len. rewrite length_insert. done.
  - intros j o Hserving. destruct (decide (j = i)) as [->|Hj].
    + rewrite list_lookup_insert_eq by done. intros [= <-]. auto.
    + rewrite list_lookup_insert_ne by done. by apply Hs.
Qed.

Lemma update_rows_ok c f :
  client_ok c →
  (∀ i row, requests c !! i = Some row → row_ok (f (row_request row)) (row_events row) ∧ stage (f (row_request row)) = None) →
  client_ok (update_rows f c).
Proof.
  intros [Hr Hb Hc Hs] Hf. split; cbn.
  - intros i row. rewrite list_lookup_fmap. intros (o & Ho & ->)%fmap_Some. by apply (Hf i o).
  - unfold len. by rewrite length_fmap.
  - done.
  - intros i row _. rewrite list_lookup_fmap. intros (o & Ho & ->)%fmap_Some. by apply (Hf i o).
Qed.

Lemma acquire_ok c live original h :
  client_ok c → has_budget inputs c = true → (live = true → serving c = true) →
  client_ok (acquire inputs target live original h c).
Proof.
  intros [Hr Hb Hc Hs] Hbud Hlive. unfold has_budget in Hbud. apply N.ltb_lt in Hbud. unfold acquire.
  pose proof (select_row h original) as [Hsel Hst].
  assert (gets_of (select inputs target h (new_client_request original)).2 = []) as Hnone.
  { unfold select. cbn. case_bool_decide; [|done]. by destruct (select_permission h). }
  destruct (select _ _ _ _) as [r events]. cbn in Hsel, Hst, Hnone.
  set (row := {| row_request := if live then set_stage (Some Stage_Start) r else r; row_events := events |}).
  assert (row_ok (row_request row) (row_events row)) as Hrow
    by (cbn; destruct live; [by apply started_row|done]).
  split; cbn.
  - intros i o [Hi|[_ Hi]]%lookup_app_Some; [by eapply Hr|].
    apply list_lookup_singleton_Some in Hi as [_ <-]. done.
  - rewrite len_app, len_cons, len_nil. lia.
  - intros Heq. by rewrite Heq, N.eqb_refl, andb_false_r.
  - intros i o Hserving [Hi|[_ Hi]]%lookup_app_Some; [by eapply Hs|].
    apply list_lookup_singleton_Some in Hi as [_ <-]. cbn. destruct live; [|done].
    rewrite Hlive in Hserving; done.
Qed.

Lemma poll_row_ok c i h :
  client_ok c → serving c = true → honest_host h → ∃ c', poll_row inputs i h c = Some c' ∧ client_ok c'.
Proof.
  intros Hc Hserving Hh. unfold poll_row. destruct (requests c !! i) as [row|] eqn:Hi; [|by exists c].
  destruct (stage (row_request row)) as [current|] eqn:Hs; [|by exists c].
  pose proof (request_segment_row _ _ h current Hh (client_rows _ Hc _ _ Hi) Hs) as Hseg.
  destruct (request_segment _ _ _ _) as [[r events]|]; [|done]. cbn. eexists. split; [done|].
  eapply update_row_ok; [done|done|done|congruence].
Qed.

Lemma client_step_ok c c' : client_ok c → client_step inputs target c c' → client_ok c'.
Proof.
  intros Hc. destruct 1 as [original h c Hs Hb|i h c c' Hs Hh Hp|i refused c row Hi Hin|dropped c|original h c Hs Hb|rest c Hs].
  - by apply acquire_ok.
  - destruct (poll_row_ok c i h Hc Hs Hh) as (c1 & Hp1 & Hc1). congruence.
  - eapply update_row_ok; [done|done|exact (callback_row _ _ _ (client_rows _ Hc _ _ Hi))|].
    intros Hs. pose proof (client_stopped _ Hc _ _ Hs Hi) as Hst. cbn.
    unfold callback. by destruct (callback_refusal _).
  - apply update_rows_ok; [done|]. intros i row Hi. split; [by apply drop_row, (client_rows _ Hc i)|].
    by unfold drop_operation; cbn.
  - by apply acquire_ok.
  - apply update_rows_ok; [done|]. intros i row Hi. pose proof (client_stopped _ Hc _ _ Hs Hi) as Hst. split.
    + by apply retire_row_ok; [apply (client_rows _ Hc i)|].
    + unfold retire_row. destruct (callback_eof _); [done|]. by destruct (incoming _).
Qed.

Lemma client_reachable_ok c : client_reachable inputs target c → client_ok c.
Proof.
  intros Hr. assert (client_ok new_client) as Hn by apply client_new. revert Hn.
  induction Hr as [|c1 c2 c3 Hs _ IH]; [done|]. intros Hc. by apply IH, (client_step_ok c1).
Qed.

Lemma delivery_of_eq k m a : delivery_of k (Ev_Deliver k m a) = Some (m, a).
Proof. cbn. by rewrite bool_decide_eq_true_2. Qed.

(** The deliveries of a response that exists all carry its message. *)
Lemma deliveries_carry original s deliveries :
  response_ok original s deliveries → deliveries ≠ [] →
  ∃ m answer refused, decodes original s m ∧ deliveries = refused ++ [(m, answer)] ∧ Forall (refused_full m) refused.
Proof.
  intros [Hd _ _] Hne. unfold decoded_ok in Hd. destruct (decoded s) as [[slot|]|]; [|done..].
  destruct Hd as (m & Hm & Hslot). destruct slot as [m'|[| |answer]]; cbn in Hslot; try done.
  - by destruct Hslot.
  - destruct Hslot as [(refused & -> & Hf) _]. by exists m, answer, refused.
Qed.

(** C15: Whatever responses a client receives, and however it is interleaved,
    cancelled and retired, the actor accepts at most one message of each response:
    every delivery directly follows a grant of its own by the current reply
    permission, carries exactly the message that the response's verified receipt
    and checked bytes decode to, and is repeated only after a full mailbox returned
    that message. *)
Theorem responses_reach_actor_once c i row :
  client_reachable inputs target c → requests c !! i = Some row →
  (∀ p k m a, row_events row !! p = Some (Ev_Deliver k m a) →
    (∃ q, p = S q ∧ row_events row !! q = Some (Ev_Reply k true)) ∧
    ∃ s, replies (row_request row) !! k = Some s ∧ decodes (outgoing (row_request row)) s m) ∧
  (∀ p q k m a m' a', p < q →
    row_events row !! p = Some (Ev_Deliver k m a) → row_events row !! q = Some (Ev_Deliver k m' a') →
    m' = m ∧ ∃ returned, a = Err (TrySend_Full returned)).
Proof.
  intros Hc%client_reachable_ok Hi. pose proof (client_rows _ Hc _ _ Hi) as [Hl Hr _ _ _ _ _].
  assert (∀ p k m a, row_events row !! p = Some (Ev_Deliver k m a) → ∃ s m0 answer refused,
    replies (row_request row) !! k = Some s ∧ decodes (outgoing (row_request row)) s m0 ∧
    deliveries_of k (row_events row) = refused ++ [(m0, answer)] ∧ Forall (refused_full m0) refused ∧
    (m, a) ∈ deliveries_of k (row_events row)) as Hcarry.
  { intros p k m a Hp.
    assert ((m, a) ∈ deliveries_of k (row_events row)) as Hin.
    { apply list_elem_of_omap. eexists. split; [by eapply list_elem_of_lookup_2|apply delivery_of_eq]. }
    specialize (Hr k). destruct (replies (row_request row) !! k) as [s|].
    - destruct (deliveries_carry _ _ _ Hr) as (m0 & answer & refused & ? & ? & ?).
      { intros He. rewrite He in Hin. by apply not_elem_of_nil in Hin. }
      by exists s, m0, answer, refused.
    - rewrite Hr in Hin. by apply not_elem_of_nil in Hin. }
  split.
  - intros p k m a Hp. split; [by apply (Hl _ _ _ Hp)|].
    destruct (Hcarry _ _ _ _ Hp) as (s & m0 & answer & refused & Hs & Hm & Hd & Hf & Hin).
    exists s. split; [done|]. rewrite Hd in Hin. apply elem_of_app in Hin as [Hin|Hin].
    + rewrite Forall_forall in Hf. by destruct (Hf _ Hin) as [m' [= -> ->]].
    + by apply list_elem_of_singleton in Hin as [= -> ->].
  - intros p q k m a m' a' Hpq Hp Hq.
    destruct (Hcarry _ _ _ _ Hp) as (s & m0 & answer & refused & _ & _ & Hd & Hf & _).
    destruct (omap_two (delivery_of k) _ _ _ _ _ _ _ Hp Hq Hpq (delivery_of_eq k m a) (delivery_of_eq k m' a'))
      as (l1 & l2 & l3 & Heq).
    unfold deliveries_of in Hd. rewrite Heq in Hd.
    destruct (two_before_last _ _ _ _ _ _ _ Hd) as (k1 & -> & Hin).
    apply Forall_app in Hf as [_ [(returned & [= -> ->]) Hf]%Forall_cons]. split; [|by exists returned].
    apply elem_of_app in Hin as [Hin|Hin].
    + rewrite Forall_forall in Hf. by destruct (Hf _ Hin) as [m1 [= -> _]].
    + by apply list_elem_of_singleton in Hin as [= -> _].
Qed.

(** A client makes at most one query for each message of its actor, only for
    a message that declares the actor's own address, directly after a grant by the
    current request permission, and with an encoding and a proof that passed the
    bounded framing check.  No index or assertion of a client is hit, its rows stay
    within their quota, and the source is closed once the quota is used. *)
Lemma requests_query_once c :
  client_reachable inputs target c →
  (∀ i row, requests c !! i = Some row →
    (∀ p bytes proof, row_events row !! p = Some (Ev_Get bytes proof) →
      (∃ q, p = S q ∧ row_events row !! q = Some (Ev_Request true)) ∧
      from (outgoing (row_request row)) = target ∧
      encoded_bytes (row_request row) = Some bytes ∧ protected_proof (row_request row) = Some proof ∧
      Json.check bytes proof (json_limits inputs) = Some (Some (Ok ()))) ∧
    (∀ p q bytes proof bytes' proof', row_events row !! p = Some (Ev_Get bytes proof) →
      row_events row !! q = Some (Ev_Get bytes' proof') → p = q)) ∧
  (∀ i h, serving c = true → honest_host h → is_Some (poll_row inputs i h c)) ∧
  (len (requests c) ≤ Npos (retained_requests (client_limits inputs)))%N ∧
  (len (requests c) = Npos (retained_requests (client_limits inputs)) → open c = false).
Proof.
  intros Hc%client_reachable_ok. split_and!; try by destruct Hc.
  - intros i row Hi. pose proof (client_rows _ Hc _ _ Hi) as [Hl _ Hg _ Ho _ _]. split.
    + intros p bytes proof Hp. split; [by apply (Hl _ _ _ Hp)|].
      assert ((bytes, proof) ∈ gets_of (row_events row)) as Hin.
      { apply list_elem_of_omap. eexists. split; [by eapply list_elem_of_lookup_2|done]. }
      destruct Hg as [Hg|(b & pr & Hg & Hb & Hpr & Hcheck)]; rewrite Hg in Hin; [by apply not_elem_of_nil in Hin|].
      apply list_elem_of_singleton in Hin as [= -> ->]. split; [apply Ho; by exists b|done].
    + assert (∀ p q bytes proof bytes' proof', p < q → row_events row !! p = Some (Ev_Get bytes proof) →
        row_events row !! q = Some (Ev_Get bytes' proof') → False) as Htwo.
      { intros p q b1 p1 b2 p2 Hpq Hp Hq.
        destruct (omap_two get_of _ _ _ _ _ _ _ Hp Hq Hpq eq_refl eq_refl) as (l1 & l2 & l3 & Heq).
        unfold gets_of in Hg. rewrite Heq in Hg. destruct Hg as [Hg|(b & pr & Hg & _)]; [by destruct l1|].
        apply (f_equal length) in Hg. rewrite length_app in Hg. cbn in Hg. rewrite length_app in Hg. cbn in Hg. lia. }
      intros p q b1 p1 b2 p2 Hp Hq. destruct (lt_eq_lt_dec p q) as [[Hlt|Heq]|Hlt]; [|done|]; exfalso; by eapply Htwo.
  - intros i h Hs Hh. destruct (poll_row_ok c i h Hc Hs Hh) as (c' & -> & _). by eexists.
Qed.
End law.
