(* ===== verification/RemoteClientExample.v ===== *)
(** * A request and its response on a concrete client

    One message is sent as a query; the mailbox of its actor is full when the
    response is first delivered and has room afterwards. *)

From stdpp Require Import strings.
From Stdlib Require Import Init.Byte.
From S2P Require Import Prelude Endpoint RemoteIngress RemoteDeclaration RemoteExample RemoteClient RemoteClientLaw.
Import Verification.

#[export] Instance echo_types : ClientTypes := {|
  client_parser := brace_parser;
  Outgoing := N; from _ := APPLICATION_ROOT; Receipt := N; Message := N;
  Sample := Bytes; payload := id; attachment _ := Some [];
  NativeReplyError := (); Panic := (); EncodingError := (); ProtectionError := ();
  VerificationError := (); DecodingError := (); RequestError := (); ReplyError := ();
  AcquireError := (); QueryError := (); CallbackError := ()
|}.

Definition echo_inputs : ClientInputs := {|
  client_limits := {| concurrent_requests := 1; retained_requests := 1; retained_responses := 1 |};
  json_limits := small_limits;
  encode _ _ := Ok (Some framed);
  decode receipt bytes original := Ok (receipt + len bytes + original)%N
|}.

(** Permissions are granted and providers answer at once. *)
Definition echo_host (full : bool) (response : option Bytes) : ClientHost := {|
  select_permission := Ok (); get_permission := Ok (); reply_permission := Ok ();
  delivery_permission := Ok (); acquired := Ok ();
  protect_made := None; protect_polled := Polled_Ready (Ok [x2f]);
  verify_made := None; verify_polled := Polled_Ready (Ok 7%N);
  provider_dropped := None; joined := false; visible := Some (Ok ()); get_returned := Ok ();
  received := Ok <$> response;
  try_send message := if full then Err (TrySend_Full message) else Ok ()
|}.

Lemma echo_honest full response : honest_host (echo_host full response).
Proof. intros message error. destruct full; cbn; intros [= <-]. by left. Qed.

Definition echo_poll full response c : Client := default c (poll_row echo_inputs 0 (echo_host full response) c).

(** Start, permit, protection, visibility, response; then its check, its
    verification with a delivery to a full mailbox, and the delivery that succeeds. *)
Definition echoed : Client :=
  echo_poll false None (echo_poll true None (echo_poll true None
    (echo_poll true (Some framed) (echo_poll true None (echo_poll true None (echo_poll true None
      (echo_poll true None
        (acquire echo_inputs APPLICATION_ROOT true 3%N (echo_host true None) new_client)))))))).

Definition polls full response c : bool :=
  serving c && match poll_row echo_inputs 0 (echo_host full response) c with Some _ => true | None => false end.

Lemma echo_poll_reachable full response c :
  polls full response c = true → client_reachable echo_inputs APPLICATION_ROOT c →
  client_reachable echo_inputs APPLICATION_ROOT (echo_poll full response c).
Proof.
  unfold polls, echo_poll. intros [Hs Hp]%andb_prop Hr. destruct (poll_row _ _ _ _) as [c'|] eqn:Hc; [|done].
  eapply rtc_r; [done|]. eapply client_polls; [done|apply echo_honest|done].
Qed.

Lemma echoed_reachable : client_reachable echo_inputs APPLICATION_ROOT echoed.
Proof.
  unfold echoed. do 8 (apply echo_poll_reachable; [vm_compute; reflexivity|]).
  apply rtc_once. by constructor.
Qed.

(** The only row of the client. *)
Definition echo_row : Row := default {| row_request := new_client_request 0%N; row_events := [] |} (requests echoed !! 0).

Lemma echo_row_at : requests echoed !! 0 = Some echo_row.
Proof. vm_compute. reflexivity. Qed.

Lemma echo_events :
  row_events echo_row =
    [Ev_Request true; Ev_Request true; Ev_Get framed [x2f];
     Ev_Reply 0 true; Ev_Reply 0 true; Ev_Deliver 0 15%N (Err (TrySend_Full 15%N));
     Ev_Reply 0 true; Ev_Deliver 0 15%N (Ok ())].
Proof. vm_compute. reflexivity. Qed.

Lemma echo_bounded : (Npos (Json.input_bytes (json_limits echo_inputs)) ≤ usize_max)%N.
Proof. unfold usize_max, u64_max. cbn. lia. Qed.

(** The delivered message is what the response decodes to. *)
Lemma responses_reach_actor_once_witness :
  row_events echo_row !! 7 = Some (Ev_Deliver 0 15%N (Ok ())) ∧
  ∃ s, replies (row_request echo_row) !! 0 = Some s ∧ decodes echo_inputs (outgoing (row_request echo_row)) s 15%N.
Proof.
  assert (row_events echo_row !! 7 = Some (Ev_Deliver 0 15%N (Ok ()))) as Hp by (rewrite echo_events; reflexivity).
  split; [exact Hp|].
  destruct (responses_reach_actor_once echo_inputs APPLICATION_ROOT echo_bounded echoed 0 echo_row
    echoed_reachable echo_row_at) as [Hd _].
  exact (proj2 (Hd _ _ _ _ Hp)).
Defined.

(** The query carried a checked encoding, and the quota of one row closed the source. *)
Lemma requests_query_once_witness :
  row_events echo_row !! 2 = Some (Ev_Get framed [x2f]) ∧
  Json.check framed [x2f] small_limits = Some (Some (Ok ())) ∧ open echoed = false.
Proof.
  assert (row_events echo_row !! 2 = Some (Ev_Get framed [x2f])) as Hp by (rewrite echo_events; reflexivity).
  destruct (requests_query_once echo_inputs APPLICATION_ROOT echo_bounded echoed echoed_reachable)
    as (Hrow & _ & _ & Hopen).
  split; [exact Hp|]. split; [|apply Hopen; vm_compute; reflexivity].
  destruct (proj1 (Hrow 0 echo_row echo_row_at) _ _ _ Hp) as (_ & _ & _ & _ & Hcheck). exact Hcheck.
Defined.
