(* ===== verification/RemoteNode.v ===== *)
(** * The exports of a node

    How a node starts and ends its exports and clients: [preflight], [declare] and
    [withdraw] of [remote/export/query.rs] and [remote/client.rs] over products of
    exports, and the startup and the end of an execution in [application/node.rs].
    The native session answers by oracles ([Session]). *)

From S2P Require Import Prelude Endpoint.

Section node.
Context {Error Native : Type}.

(** Why an export did not start. *)
Variant StartupError :=
  | Unowned (cause : Error)
  | DuplicateTarget
  | QueryCapacity
  | Storage (cause : Error)
  | Declaration (cause : Error).

(** An incoming export, or a client, whose listener is declared after its querier. *)
Variant Role := Incoming | Outgoing.

(** What a leaf keeps of its startup and its end. *)
Record Leaf := {
  role : Role;
  name : nat;
  counts_fit : bool;
  startup : option (Result () StartupError);
  declaration : option Native;
  listener : option Native;
  listener_creation : option (Result () Error);
  withdrawal : option (Result () Error);
  listener_withdrawal : option (Result () Error)
}.

Definition set_startup (x : Result () StartupError) (e : Leaf) : Leaf :=
  {| role := role e; name := name e; counts_fit := counts_fit e; startup := Some x;
     declaration := declaration e; listener := listener e; listener_creation := listener_creation e;
     withdrawal := withdrawal e; listener_withdrawal := listener_withdrawal e |}.

Inductive Exports := One (leaf : Leaf) | Pair (l r : Exports).

(** The answers of the application and of the session, by the leaf's name. *)
Record Session := {
  actor_address : nat → Result MailAddr Error;
  reserve : nat → Result () Error;
  declare_native : nat → Result Native Error;
  declare_listener : nat → Result Native Error;
  undeclare : nat → Result () Error;
  undeclare_listener : nat → Result () Error
}.

Section session.
Context (session : Session).
Implicit Types (e : Leaf) (x : Exports) (addresses : list MailAddr).

(** ** [preflight] *)

(** An incoming export reserves the address of its target; a client does not. *)
Definition preflight_leaf e addresses : Leaf * list MailAddr * bool :=
  match actor_address session (name e) with
  | Err cause => (set_startup (Err (Unowned cause)) e, addresses, false)
  | Ok address =>
      match role e with
      | Outgoing => (e, addresses, true)
      | Incoming =>
          if bool_decide (address ∈ addresses) then
            (set_startup (Err DuplicateTarget) e, addresses, false)
          else (e, addresses ++ [address], true)
      end
  end.

Fixpoint preflight x addresses : Exports * list MailAddr * bool :=
  match x with
  | One e => let '(e, addresses, ok) := preflight_leaf e addresses in (One e, addresses, ok)
  | Pair l r =>
      let '(l, addresses, ok) := preflight l addresses in
      if ok then
        let '(r, addresses, ok) := preflight r addresses in (Pair l r, addresses, ok)
      else (Pair l r, addresses, false)
  end.

(** ** [withdraw] *)

(** A client's listener first. *)
Definition withdraw_leaf e : Leaf :=
  {| role := role e; name := name e; counts_fit := counts_fit e; startup := startup e;
     declaration := None; listener := None; listener_creation := listener_creation e;
     withdrawal := match declaration e with
       | Some _ => Some (undeclare session (name e)) | None => withdrawal e end;
     listener_withdrawal := match listener e with
       | Some _ => Some (undeclare_listener session (name e)) | None => listener_withdrawal e end |}.

Fixpoint withdraw x : Exports :=
  match x with
  | One e => One (withdraw_leaf e)
  | Pair l r => Pair (withdraw l) (withdraw r)
  end.

(** ** [declare] *)

Definition declared (native : Native) e : Leaf :=
  {| role := role e; name := name e; counts_fit := counts_fit e; startup := Some (Ok ());
     declaration := Some native; listener := listener e; listener_creation := listener_creation e;
     withdrawal := withdrawal e; listener_withdrawal := listener_withdrawal e |}.
Definition listening (created : Result Native Error) e : Leaf :=
  {| role := role e; name := name e; counts_fit := counts_fit e; startup := startup e;
     declaration := declaration e;
     listener := match created with Ok native => Some native | Err _ => listener e end;
     listener_creation := Some (match created with Ok _ => Ok () | Err cause => Err cause end);
     withdrawal := withdrawal e; listener_withdrawal := listener_withdrawal e |}.

Definition declare_leaf e : Leaf * bool :=
  if counts_fit e then
    match reserve session (name e) with
    | Err cause => (set_startup (Err (Storage cause)) e, false)
    | Ok _ =>
        match declare_native session (name e) with
        | Err cause => (set_startup (Err (Declaration cause)) e, false)
        | Ok native =>
            let e := declared native e in
            match role e with
            | Incoming => (e, true)
            | Outgoing =>
                let created := declare_listener session (name e) in
                (listening created e, is_Ok created)
            end
        end
    end
  else (set_startup (Err QueryCapacity) e, false).

(** A product withdraws its left part when its right part is not declared. *)
Fixpoint declare x : Exports * bool :=
  match x with
  | One e => let '(e, ok) := declare_leaf e in (One e, ok)
  | Pair l r =>
      let '(l, ok) := declare l in
      if ok then
        let '(r, ok) := declare r in
        if ok then (Pair l r, true) else (Pair (withdraw l) r, false)
      else (Pair l r, false)
  end.

(** ** The execution of a node *)

(** The binding call of the application, which is made once. *)
Variant Binding {Receipt : Type} := Uninvoked | Invoked (receipt : option Receipt).
Arguments Binding : clear implicits.

Record Node {Receipt : Type} := { binding : option (Binding Receipt); exports : Exports; closed : nat }.
Arguments Node : clear implicits.

(** The startup of [Node::run_with]: the binding, the preflight, the declarations;
    [None] is its unreachable arm, false ends the startup. *)
Definition start {Receipt} (bound : Receipt) (granted : Receipt → bool) (n : Node Receipt) :
    option (Node Receipt * bool) :=
  match binding n with
  | Some Uninvoked =>
      let n := {| binding := Some (Invoked (Some bound)); exports := exports n; closed := closed n |} in
      if granted bound then
        let '(x, _, ok) := preflight (exports n) [] in
        if ok then
          let '(x, ok) := declare x in
          Some ({| binding := binding n; exports := x; closed := closed n |}, ok)
        else Some ({| binding := binding n; exports := x; closed := closed n |}, false)
      else Some (n, false)
  | _ => panic!
  end.

(** After the execution every export is withdrawn and the session is closed. *)
Definition finish {Receipt} (n : Node Receipt) : Node Receipt :=
  {| binding := binding n; exports := withdraw (exports n); closed := S (closed n) |}.

(** ** Proofs *)

Fixpoint leaves x : list Leaf :=
  match x with One e => [e] | Pair l r => leaves l ++ leaves r end.

(** What a leaf holds of the session. *)
Definition holds e : bool :=
  match declaration e, listener e with None, None => false | _, _ => true end.
Definition held x : list Leaf := filter (λ e, holds e = true) (leaves x).

#[local] Arguments held : simpl never.

Lemma held_pair l r : held (Pair l r) = held l ++ held r.
Proof. apply filter_app. Qed.

Lemma held_one e : held (One e) = if holds e then [e] else [].
Proof.
  unfold held. cbn [leaves]. rewrite filter_cons, filter_nil.
  by destruct (decide (holds e = true)) as [-> | ->%not_true_is_false].
Qed.

Lemma withdraw_holds_nothing x : held (withdraw x) = [].
Proof. induction x as [e|l IHl r IHr]; [done|]. cbn. by rewrite held_pair, IHl, IHr. Qed.

(** A leaf that kept nothing and refuses keeps nothing, but for a client's querier
    whose listener was refused. *)
Definition refused_listener e : Prop :=
  role e = Outgoing ∧ ∃ cause, listener_creation e = Some (Err cause) ∧ listener e = None.

Lemma declare_leaf_refused e :
  holds e = false → (declare_leaf e).2 = false →
  holds (declare_leaf e).1 = false ∨ refused_listener (declare_leaf e).1.
Proof.
  unfold declare_leaf. destruct (counts_fit e); [|by left]. destruct (reserve session (name e)); [|by left].
  destruct (declare_native session (name e)) as [native|]; [|by left].
  unfold holds. cbn. destruct (role e) eqn:Hr; [done|]. destruct (declaration e), (listener e) eqn:Hl; try done.
  intros _ Hok. right. cbn in *. destruct (declare_listener session (name e)) as [|cause] eqn:Hd; [done|].
  split; [done|]. exists cause. cbn. by rewrite Hl.
Qed.

(** A product that refuses keeps no declaration but the querier of one client whose
    listener was refused, which the end of the execution withdraws. *)
Lemma declare_refused x :
  held x = [] → (declare x).2 = false →
  Forall refused_listener (held (declare x).1) ∧ length (held (declare x).1) ≤ 1.
Proof.
  induction x as [e|l IHl r IHr]; cbn.
  - rewrite held_one. intros Hnone. pose proof (declare_leaf_refused e) as Hl.
    destruct (declare_leaf e) as [e' ok]. cbn in *. intros Hok. rewrite held_one.
    destruct (holds e); [done|]. destruct (Hl eq_refl Hok) as [-> | He]; [by split; [constructor|cbn; lia]|].
    destruct (holds e'); split; try (cbn; lia); [by apply Forall_singleton|constructor].
  - rewrite held_pair. intros [Hl Hr]%app_eq_nil. specialize (IHl Hl). specialize (IHr Hr).
    destruct (declare l) as [l' okl] eqn:Hdl. cbn in IHl. destruct okl.
    + destruct (declare r) as [r' okr]. cbn in IHr. destruct okr; [done|]. cbn. intros _.
      rewrite held_pair, withdraw_holds_nothing. by apply IHr.
    + intros _. cbn. rewrite held_pair, Hr, app_nil_r. by apply IHl.
Qed.

(** The targets of the incoming exports. *)
Definition targets x : list MailAddr :=
  omap (λ e, match role e, actor_address session (name e) with
             | Incoming, Ok address => Some address | _, _ => None end) (leaves x).

Lemma preflight_appends x addresses :
  NoDup addresses →
  let '(x', addresses', ok) := preflight x addresses in
  NoDup addresses' ∧ (ok = true → x' = x ∧ addresses' = addresses ++ targets x).
Proof.
  revert addresses. induction x as [e|l IHl r IHr]; intros addresses Hn; cbn.
  - unfold preflight_leaf, targets. cbn. destruct (actor_address session (name e)) as [address|]; cbn; [|by split].
    destruct (role e); cbn.
    + case_bool_decide as Ha; cbn; [by split|]. split; [|done]. apply NoDup_app. split_and!; [done| |apply NoDup_singleton].
      set_solver.
    + split; [done|]. by rewrite app_nil_r.
  - specialize (IHl addresses Hn). destruct (preflight l addresses) as [[l' a1] okl].
    destruct IHl as [Hn1 Hl]. destruct okl; [|done]. specialize (IHr a1 Hn1).
    destruct (preflight r a1) as [[r' a2] okr]. destruct IHr as [Hn2 Hr]. split; [done|].
    intros ->. destruct (Hl eq_refl) as [-> ->], (Hr eq_refl) as [-> ->]. split; [done|].
    unfold targets. cbn. by rewrite omap_app, app_assoc.
Qed.

Lemma preflight_held x addresses : held x = [] → held (preflight x addresses).1.1 = [].
Proof.
  revert addresses. induction x as [e|l IHl r IHr]; intros addresses; cbn.
  - assert (∀ cause, held (One e) = [] → held (One (set_startup cause e)) = []) as Hs.
    { intros cause. rewrite !held_one. change (holds (set_startup cause e)) with (holds e). by destruct (holds e). }
    unfold preflight_leaf. destruct (actor_address session (name e)); [|apply Hs].
    destruct (role e); [case_bool_decide|]; cbn; auto.
  - rewrite held_pair. intros [Hl Hr]%app_eq_nil. specialize (IHl addresses Hl).
    destruct (preflight l addresses) as [[l' a1] okl]. cbn in IHl. destruct okl; cbn; [|by rewrite held_pair, IHl, Hr].
    specialize (IHr a1 Hr). destruct (preflight r a1) as [[r' a2] okr]. cbn in *. by rewrite held_pair, IHl, IHr.
Qed.

(** C17: However its exports start, a node ends with none declared: a product that
    is refused withdraws what it had declared, except the querier of one client
    whose listener was refused, and the end of the execution withdraws that one
    too.  A startup that is granted serves every export, no two of the incoming
    ones for the same actor, and the binding of a node is never called twice. *)
Theorem exports_start_and_end_together {Receipt} (bound : Receipt) granted (n : Node Receipt) :
  held (exports n) = [] → binding n = Some Uninvoked →
  ∃ n' ok, start bound granted n = Some (n', ok) ∧
    binding n' = Some (Invoked (Some bound)) ∧ start bound granted n' = None ∧
    held (exports (finish n')) = [] ∧
    (ok = true → NoDup (targets (exports n))) ∧
    (ok = false → Forall refused_listener (held (exports n')) ∧ length (held (exports n')) ≤ 1).
Proof.
  intros Hnone Hb. unfold start at 1. rewrite Hb. cbn.
  pose proof (preflight_appends (exports n) [] (NoDup_nil_2)) as Hp.
  destruct (granted bound).
  2: { eexists _, false. split_and!; try done; cbn; [apply withdraw_holds_nothing|].
       intros _. rewrite Hnone. split; [constructor|cbn; lia]. }
  destruct (preflight (exports n) []) as [[x a] ok] eqn:Hpre. destruct Hp as [Hn Hx]. destruct ok.
  - destruct (Hx eq_refl) as [-> Ha]. pose proof (declare_refused (exports n) Hnone) as Hd.
    destruct (declare (exports n)) as [x' ok]. eexists _, ok. split_and!; try done; cbn in *.
    + apply withdraw_holds_nothing.
    + intros _. by rewrite Ha in Hn.
  - eexists _, false. split_and!; try done; cbn; [apply withdraw_holds_nothing|].
    intros _. pose proof (preflight_held (exports n) [] Hnone) as Hh. rewrite Hpre in Hh. cbn in Hh.
    rewrite Hh. split; [constructor|cbn; lia].
Qed.
End session.
End node.

Arguments Binding _ : clear implicits.
Arguments Node {_ _} _.

(** ** A client whose listener is refused, next to an export *)

Definition two_session : Session (Error := ()) (Native := ()) := {|
  actor_address name := Ok (N.of_nat name);
  reserve _ := Ok (); declare_native _ := Ok (); declare_listener _ := Err ();
  undeclare _ := Ok (); undeclare_listener _ := Ok ()
|}.

Definition idle_leaf (role : Role) (name : nat) : Leaf (Error := ()) (Native := ()) :=
  {| role := role; name := name; counts_fit := true; startup := None; declaration := None; listener := None;
     listener_creation := None; withdrawal := None; listener_withdrawal := None |}.

Definition two_exports : Node (Error := ()) (Native := ()) () :=
  {| binding := Some Uninvoked; exports := Pair (One (idle_leaf Incoming 1)) (One (idle_leaf Outgoing 2));
     closed := 0 |}.

(** The export is withdrawn at once, the client's querier at the end. *)
Lemma exports_start_and_end_together_witness :
  snd <$> start two_session () (λ _, true) two_exports = Some false ∧
  ∃ n' ok, start two_session () (λ _, true) two_exports = Some (n', ok) ∧
    held (exports (finish two_session n')) = [].
Proof.
  split; [reflexivity|].
  destruct (exports_start_and_end_together two_session () (λ _, true) two_exports eq_refl eq_refl)
    as (n' & ok & Hs & _ & _ & Hh & _).
  exists n', ok. split; [exact Hs|exact Hh].
Defined.
