(* ===== verification/WorkerPreparation.v ===== *)
(** * The preparation of workers

    [crates/bombay/src/worker_preparation.rs]: the application's source of workers,
    the loop that settles one request of a supervisor or pool with it, and the source
    made from a function ([WorkerFactory]); with the task of
    [crates/bombay/src/local/effects/creation.rs] that runs the loop.

    The request is a value of the behavior crate: what the loop does to it is the
    class [WorkerRequests].  Its law says that it is a roster: roles in order, and
    the submissions of those that are prepared.  A source is an [Async] program on
    the host and its own state. *)

From S2P Require Import Prelude Driver Host LocalIngress LocalEnvironment Endpoint.

(** ** Data *)

(** What the first preparation of a request says. *)
Variant WorkerPreparationStart {Submission WorkerRejection SourceRejection : Type} :=
  | Submitted (submission : Submission)
  | Start_WorkerRejected (reason : WorkerRejection)
  | Start_SourceRejected (reason : SourceRejection).
Arguments WorkerPreparationStart : clear implicits.

(** [StartingWorkerPreparation] and the pending request it becomes; the source is
    borrowed from the request and left in it. *)
Class WorkerRequests (Source Role Submission WorkerRejection SourceRejection : Type) := {
  Starting : Type;
  Remaining : Type;
  WorkerPreparation : Type;
  starting_source_and_role : Starting → Source * Role;
  starting_put : Source → Starting → Starting;
  starting_accept : Submission → Starting → ControlFlow WorkerPreparation Remaining;
  starting_reject : WorkerRejection → Starting → WorkerPreparation;
  starting_reject_source : SourceRejection → Starting → WorkerPreparation;
  remaining_source_and_role : Remaining → Source * Role;
  remaining_put : Source → Remaining → Remaining;
  remaining_accept : Submission → Remaining → ControlFlow WorkerPreparation Remaining;
  remaining_reject : WorkerRejection → Remaining → WorkerPreparation
}.

(** The trait [WorkerPreparationSource]. *)
Class WorkerPreparationSource (P W Source Role Submission WorkerRejection SourceRejection : Type) := {
  prepare_first : Role →
    Async P (W * Source) (WorkerPreparationStart Submission WorkerRejection SourceRejection);
  prepare_next : Role → Async P (W * Source) (Result Submission WorkerRejection)
}.

(** ** [WorkerFactory] *)

Section factory.
Context {P W Factory Role Made Submission Rejection : Type}.
Context (call : Role → Async P (W * Factory) Made).
Context (into_submission : Made → Result Submission Rejection).

(** The factory is called when the preparation is polled, and cannot reject the
    source. *)
Definition WorkerFactory : WorkerPreparationSource P W Factory Role Submission Rejection Empty_set :=
  {| prepare_first role :=
       made ← call role;
       mret match into_submission made with
            | Ok submission => Submitted submission
            | Err reason => Start_WorkerRejected reason
            end;
     prepare_next role := made ← call role; mret (into_submission made) |}.
End factory.

(** ** [settle_worker_preparation] *)

Section settle.
Context {P W Source Role Submission WorkerRejection SourceRejection : Type}.
Context {requests : WorkerRequests Source Role Submission WorkerRejection SourceRejection}.
Context {source : WorkerPreparationSource P W Source Role Submission WorkerRejection SourceRejection}.
Implicit Types (w : W) (s : Source) (role : Role).

(** The source is borrowed for one preparation; a preparation that is dropped or
    unwinds takes it along, with the request. *)
Definition borrowed {A} (m : Async P (W * Source) A) s : Async P W (Source * A) := λ w,
  let '((w, s), o) := m (w, s) in
  (w, match o with
      | Ready x => Ready (s, x)
      | Pending => Pending
      | Panicked payload => Panicked payload
      | Violated => Violated
      end).

(** The loop; [fuel] bounds its iterations. *)
Fixpoint settle_remaining (fuel : nat) (preparation : ControlFlow WorkerPreparation Remaining) :
    Async P W WorkerPreparation :=
  match fuel with
  | 0 => violated
  | S fuel =>
      match preparation with
      | Break prepared => mret prepared
      | Continue pending =>
          let '(s, role) := remaining_source_and_role pending in
          answer ← borrowed (prepare_next role) s;
          let pending := remaining_put answer.1 pending in
          match answer.2 with
          | Ok submission => settle_remaining fuel (remaining_accept submission pending)
          | Err reason => mret (remaining_reject reason pending)
          end
      end
  end.

Definition settle_worker_preparation (fuel : nat) (request : Starting) : Async P W WorkerPreparation :=
  let '(s, role) := starting_source_and_role request in
  first ← borrowed (prepare_first role) s;
  let request := starting_put first.1 request in
  match first.2 with
  | Submitted submission => settle_remaining fuel (starting_accept submission request)
  | Start_WorkerRejected reason => mret (starting_reject reason request)
  | Start_SourceRejected reason => mret (starting_reject_source reason request)
  end.

(** ** Rosters *)

(** A request as its owner sees it: [later] follows [current]. *)
Record Roster := {
  roster_source : Source;
  submitted : list (Role * Submission);
  current : Role;
  later : list Role
}.

(** What is handed back. *)
Variant Preparation :=
  | All_Submitted (s : Source) (workers : list (Role * Submission))
  | Role_Rejected (s : Source) (workers : list (Role * Submission)) (role : Role) (reason : WorkerRejection)
      (unprepared : list Role)
  | Source_Refused (s : Source) (reason : SourceRejection) (roles : list Role).

Definition roster_put s (r : Roster) : Roster :=
  {| roster_source := s; submitted := submitted r; current := current r; later := later r |}.
Definition roster_accept (submission : Submission) (r : Roster) : ControlFlow Preparation Roster :=
  let workers := submitted r ++ [(current r, submission)] in
  match later r with
  | [] => Break (All_Submitted (roster_source r) workers)
  | role :: roles =>
      Continue {| roster_source := roster_source r; submitted := workers; current := role; later := roles |}
  end.
Definition roster_reject (reason : WorkerRejection) (r : Roster) : Preparation :=
  Role_Rejected (roster_source r) (submitted r) (current r) reason (later r).
Definition roster_reject_source (reason : SourceRejection) (r : Roster) : Preparation :=
  Source_Refused (roster_source r) reason (current r :: later r).

Definition flow_map {A B C D : Type} (f : A → C) (g : B → D) (flow : ControlFlow A B) : ControlFlow C D :=
  match flow with Break x => Break (f x) | Continue y => Continue (g y) end.

(** A request is a roster none of whose roles is prepared. *)
Class WorkerRequestsLaw := {
  starting_roster : Starting → Roster;
  remaining_roster : Remaining → Roster;
  prepared_view : WorkerPreparation → Preparation;
  starting_is_fresh x : submitted (starting_roster x) = [];
  starting_parts x :
    starting_source_and_role x = (roster_source (starting_roster x), current (starting_roster x));
  starting_put_roster s x : starting_roster (starting_put s x) = roster_put s (starting_roster x);
  starting_accept_roster submission x :
    flow_map prepared_view remaining_roster (starting_accept submission x) =
      roster_accept submission (starting_roster x);
  starting_reject_roster reason x :
    prepared_view (starting_reject reason x) = roster_reject reason (starting_roster x);
  starting_reject_source_roster reason x :
    prepared_view (starting_reject_source reason x) = roster_reject_source reason (starting_roster x);
  remaining_parts x :
    remaining_source_and_role x = (roster_source (remaining_roster x), current (remaining_roster x));
  remaining_put_roster s x : remaining_roster (remaining_put s x) = roster_put s (remaining_roster x);
  remaining_accept_roster submission x :
    flow_map prepared_view remaining_roster (remaining_accept submission x) =
      roster_accept submission (remaining_roster x);
  remaining_reject_roster reason x :
    prepared_view (remaining_reject reason x) = roster_reject reason (remaining_roster x)
}.

(** ** The reference *)

(** Role by role, each with the source its predecessor left; the first rejection
    ends it. *)
Fixpoint prepare_roles s (workers : list (Role * Submission)) role (roles : list Role) :
    Async P W Preparation :=
  answer ← borrowed (prepare_next role) s;
  match answer.2 with
  | Err reason => mret (Role_Rejected answer.1 workers role reason roles)
  | Ok submission =>
      let workers := workers ++ [(role, submission)] in
      match roles with
      | [] => mret (All_Submitted answer.1 workers)
      | role :: roles => prepare_roles answer.1 workers role roles
      end
  end.

Definition prepare_roster s role (roles : list Role) : Async P W Preparation :=
  first ← borrowed (prepare_first role) s;
  match first.2 with
  | Start_SourceRejected reason => mret (Source_Refused first.1 reason (role :: roles))
  | Start_WorkerRejected reason => mret (Role_Rejected first.1 [] role reason roles)
  | Submitted submission =>
      match roles with
      | [] => mret (All_Submitted first.1 [(role, submission)])
      | next :: roles => prepare_roles first.1 [(role, submission)] next roles
      end
  end.

Definition outcome_map {A B : Type} (f : A → B) (o : Outcome P A) : Outcome P B :=
  match o with
  | Ready x => Ready (f x)
  | Pending => Pending
  | Panicked payload => Panicked payload
  | Violated => Violated
  end.

(** ** Proofs *)

Context {law : WorkerRequestsLaw}.

Local Abbreviation seen m := (λ w, let '(w', o) := m w in (w', outcome_map prepared_view o)).

Lemma settle_accepted fuel flow r submission w :
  flow_map prepared_view remaining_roster flow = roster_accept submission r →
  length (later r) < fuel →
  (∀ pending, S (length (later (remaining_roster pending))) < fuel →
    seen (settle_remaining fuel (Continue pending)) w =
      prepare_roles (roster_source (remaining_roster pending)) (submitted (remaining_roster pending))
        (current (remaining_roster pending)) (later (remaining_roster pending)) w) →
  seen (settle_remaining fuel flow) w =
    match later r with
    | [] => (w, Ready (All_Submitted (roster_source r) (submitted r ++ [(current r, submission)])))
    | role :: roles => prepare_roles (roster_source r) (submitted r ++ [(current r, submission)]) role roles w
    end.
Proof.
  unfold roster_accept. intros Hf Hlen IH.
  destruct fuel as [|fuel]; [lia|]. destruct (later r) as [|role roles] eqn:Hl.
  - destruct flow as [pending|prepared]; cbn in Hf; [discriminate|]. injection Hf as Hf. cbn. by rewrite Hf.
  - destruct flow as [pending|prepared]; cbn in Hf; [|discriminate]. injection Hf as Hf.
    rewrite IH; rewrite Hf; [done|]. cbn in *. lia.
Qed.

Lemma settle_remaining_spec fuel : ∀ pending w,
  S (length (later (remaining_roster pending))) < fuel →
  seen (settle_remaining fuel (Continue pending)) w =
    prepare_roles (roster_source (remaining_roster pending)) (submitted (remaining_roster pending))
      (current (remaining_roster pending)) (later (remaining_roster pending)) w.
Proof.
  induction fuel as [|fuel IH]; [lia|]. intros pending w Hlen. cbn [settle_remaining].
  rewrite remaining_parts. set (r := remaining_roster pending) in *.
  assert (∀ roles, prepare_roles (roster_source r) (submitted r) (current r) roles w =
    ((answer ← borrowed (prepare_next (current r)) (roster_source r);
      match answer.2 with
      | Err reason => mret (Role_Rejected answer.1 (submitted r) (current r) reason roles)
      | Ok submission =>
          match roles with
          | [] => mret (All_Submitted answer.1 (submitted r ++ [(current r, submission)]))
          | role :: roles => prepare_roles answer.1 (submitted r ++ [(current r, submission)]) role roles
          end
      end) w)) as -> by by intros [].
  rewrite !bind_eq. destruct (borrowed _ _ w) as [w' [[s [submission|reason]]| |payload|]]; cbn [outcome_map]; try done.
  - cbn [fst snd]. rewrite (settle_accepted fuel _ (roster_put s r) submission).
    + cbn. by destruct (later r).
    + rewrite remaining_accept_roster. by rewrite remaining_put_roster.
    + cbn. lia.
    + intros next. apply IH.
  - cbn. by rewrite remaining_reject_roster, remaining_put_roster.
Qed.

(** C25: The loop that settles a request ends, having done exactly what asking the
    source role by role does: the first role may refuse the source, each later one
    is asked once, in order, after its predecessors were accepted and with the
    source they left, and the first rejection ends it.  What is handed back holds
    the source, every accepted submission with its role and the roles that were not
    prepared; a preparation that is dropped or unwinds ends it at once. *)
Theorem preparation_settles fuel request w :
  length (later (starting_roster request)) < fuel →
  (let '(w', o) := settle_worker_preparation fuel request w in (w', outcome_map prepared_view o)) =
    prepare_roster (roster_source (starting_roster request)) (current (starting_roster request))
      (later (starting_roster request)) w.
Proof.
  intros Hlen. unfold settle_worker_preparation, prepare_roster. rewrite starting_parts.
  pose proof (starting_is_fresh request) as Hfresh. set (r := starting_roster request) in *.
  rewrite !bind_eq. destruct (borrowed _ _ w) as [w' [[s [submission|reason|reason]]| |payload|]]; cbn [outcome_map]; try done.
  - cbn [fst snd]. rewrite (settle_accepted fuel _ (roster_put s r) submission).
    + cbn. rewrite Hfresh. by destruct (later r).
    + by rewrite starting_accept_roster, starting_put_roster.
    + done.
    + intros next. apply settle_remaining_spec.
  - cbn. by rewrite starting_reject_roster, starting_put_roster, <- Hfresh.
  - cbn. by rewrite starting_reject_source_roster, starting_put_roster.
Qed.
End settle.

(** ** The task of the interpreter *)

Section task.
Context {TY : LocalTypes} {E : Type} `{!ControlLane E}.
Context {Source Role Submission WorkerRejection SourceRejection : Type}.
Context {requests : WorkerRequests Source Role Submission WorkerRejection SourceRejection}.
Context {source : WorkerPreparationSource Panic World Source Role Submission WorkerRejection SourceRejection}.
Context (inject_at : WorkerPreparation → E).

(** [control.send(event)]: a closed lane returns the event. *)
Definition send_prepared (control : ControlSender) (event : E) : Async Panic World (Result () E) :=
  λ w, let '(w, sent) := lane_send control event w in (w, Ready sent).

(** The body of the task that [PrepareWorkers] spawns. *)
Definition prepare_workers_task (fuel : nat) (control : ControlSender) (request : Starting) :
    Async Panic World (Result () E) :=
  prepared ← settle_worker_preparation fuel request;
  send_prepared control (inject_at prepared).
End task.

(** ** A concrete request *)

Section roster.
Context {Source Role Submission WorkerRejection SourceRejection : Type}.

(** A request of [role] and [roles]. *)
Definition fresh_roster (request : Source * Role * list Role) :
    Roster (Source := Source) (Role := Role) (Submission := Submission) :=
  {| roster_source := request.1.1; submitted := []; current := request.1.2; later := request.2 |}.

#[export] Instance rosters : WorkerRequests Source Role Submission WorkerRejection SourceRejection := {|
  Starting := Source * Role * list Role;
  Remaining := Roster (Source := Source) (Role := Role) (Submission := Submission);
  WorkerPreparation := Preparation;
  starting_source_and_role := fst;
  starting_put s request := (s, request.1.2, request.2);
  starting_accept submission request := roster_accept submission (fresh_roster request);
  starting_reject reason request := roster_reject reason (fresh_roster request);
  starting_reject_source reason request := roster_reject_source reason (fresh_roster request);
  remaining_source_and_role r := (roster_source r, current r);
  remaining_put := roster_put;
  remaining_accept := roster_accept;
  remaining_reject := roster_reject
|}.

#[export] Instance rosters_law : WorkerRequestsLaw (requests := rosters).
Proof.
  refine {| starting_roster := fresh_roster : @Starting _ _ _ _ _ rosters → _;
            remaining_roster r := r : Roster; prepared_view x := x |};
    try by intros; cbn; repeat case_match.
  - by intros [[] ?].
  - intros submission [[s role] [|next roles]]; done.
  - by intros submission [? ? ? []].
Defined.
End roster.

(** A source of two workers: it counts the preparations, and rejects the third. *)
Definition two_workers : WorkerPreparationSource N () N N N N () :=
  let prepare role := λ '(w, made),
    ((w, (made + 1)%N), Ready (if (made <? 2)%N then Ok (10 * role)%N else Err role)) in
  {| prepare_first role :=
       answer ← prepare role;
       mret match answer with Ok worker => Submitted worker | Err reason => Start_WorkerRejected reason end;
     prepare_next := prepare |}.

(** The third role is rejected, the fourth is not asked for. *)
Lemma preparation_settles_witness :
  settle_worker_preparation (requests := rosters) (source := two_workers) 4 (0%N, 1%N, [2; 3; 4]%N) () =
    ((), Ready (Role_Rejected 3%N [(1, 10); (2, 20)]%N 3%N 3%N [4%N])).
Proof.
  assert (length (later (starting_roster (SourceRejection := ()) (WorkerRejection := N) (Submission := N)
    (requests := rosters) (WorkerRequestsLaw := rosters_law) (0%N, 1%N, [2; 3; 4]%N))) < 4) as Hlen
    by (apply le_n).
  pose proof (preparation_settles (requests := rosters) (source := two_workers) (law := rosters_law)
    4 (0%N, 1%N, [2; 3; 4]%N) () Hlen) as H.
  assert (prepare_roster (source := two_workers) 0%N 1%N [2; 3; 4]%N () =
    ((), Ready (Role_Rejected 3%N [(1, 10); (2, 20)]%N 3%N 3%N [4%N]))) as Hr by reflexivity.
  etransitivity; [|exact Hr].
  etransitivity; [|exact H]. vm_compute. reflexivity.
Defined.
