(* ===== verification/NativeEntity.v ===== *)
(** * The native port of an entity family

    [crates/bombay/src/entity/bombay.rs] and [crates/bombay/src/entity/family.rs]:
    the permits and metrics of a family, the activation of an entity in the
    segments between its waits, the retirement of a lease, and the shutdown of a
    product of families.

    A [Call] is a poll that makes progress, with what the user's definition, the
    launch and the actor's task answered; the calls of any number of activations
    and retirements arrive in any order ([family_run]).  Permits are counted; the
    relaxed counters are wrapping numbers.  What a launch and a joined task mean is
    the interface [NativeEntity], which the projections of TerminalProjection.v and
    ActorOutcome.v implement ([local_entity]). *)

From S2P Require Import Prelude Driver Host Assessment LocalIngress LocalEnvironment ActorOutcome TerminalProjection Endpoint Lifecycle.

(** ** Interfaces *)

Class NativeEntity := {
  Id : Type;
  Behavior : Type;
  HydrationError : Type;
  Actor : Type;
  ActorRetirement : Type;
  SpawnError : Type;
  Outcome : Type;
  JoinError : Type;
  NotificationError : Type;
  Panic : Type;
  into_retirement : SpawnError →
    option (Result (ActorRetirement * ActorRetirementReport * Result () NotificationError)
                   (Behavior * AllocationRejection));
  allocation_rejected : Behavior → AllocationRejection → SpawnError;
  from_local : Outcome → option ActorRetirement;
  from_joined : Result Outcome JoinError → Result () NotificationError → ActorRetirementReport
}.

(** A refused address gives the behavior back. *)
Class NativeEntityLaw `{NativeEntity} :=
  allocation_rejected_returns b reason : into_retirement (allocation_rejected b reason) = Some (Err (b, reason)).

(** ** Sums over rows *)

Section totals.
Context {A : Type} (weight : A → N).

Fixpoint total (l : list A) : N :=
  match l with [] => 0 | x :: l => weight x + total l end%N.

Lemma total_app l k : total (l ++ k) = (total l + total k)%N.
Proof. induction l as [|x l IH]; cbn [total app]; lia. Qed.

Lemma total_insert l i x y :
  l !! i = Some x → (total (<[i := y]> l) + weight x = total l + weight y)%N.
Proof.
  revert i. induction l as [|z l IH]; intros [|i] Hi; try done.
  - injection Hi as ->. change (weight y + total l + weight x = weight x + total l + weight y)%N. lia.
  - specialize (IH i Hi). change (<[S i:=y]> (z :: l)) with (z :: <[i:=y]> l). cbn [total]. lia.
Qed.
End totals.

(** ** Metrics *)

(** Relaxed [AtomicUsize] operations. *)
Definition wrap (n : N) : N := (n mod (usize_max + 1))%N.
Definition fetch_add (n : N) : N := wrap (n + 1).
Definition fetch_sub (n : N) : N := wrap (n + usize_max).

Lemma fetch_add_wrap n : fetch_add (wrap n) = wrap (n + 1).
Proof. unfold fetch_add, wrap. by rewrite N.Div0.add_mod_idemp_l. Qed.
Lemma fetch_sub_wrap n : fetch_sub (wrap (n + 1)) = wrap n.
Proof.
  unfold fetch_sub, wrap. rewrite N.Div0.add_mod_idemp_l.
  replace (n + 1 + usize_max)%N with (n + 1 * (usize_max + 1))%N by lia. by rewrite N.Div0.mod_add.
Qed.
Lemma wrap_small n : (n ≤ usize_max)%N → wrap n = n.
Proof. intros. unfold wrap. apply N.mod_small. lia. Qed.

Record EntityMetricState := {
  activations : N;
  hydration_failures : N;
  launch_failures : N;
  capacity_refusals : N;
  forced_retirements : N;
  active_hydrations : N;
  peak_hydrations : N;
  resident_actors : N
}.

Definition metrics_default : EntityMetricState := Build_EntityMetricState 0 0 0 0 0 0 0 0.

Definition activation_succeeded (m : EntityMetricState) : EntityMetricState :=
  {| activations := fetch_add (activations m); hydration_failures := hydration_failures m;
     launch_failures := launch_failures m; capacity_refusals := capacity_refusals m;
     forced_retirements := forced_retirements m; active_hydrations := active_hydrations m;
     peak_hydrations := peak_hydrations m; resident_actors := fetch_add (resident_actors m) |}.
Definition hydration_started (m : EntityMetricState) : EntityMetricState :=
  {| activations := activations m; hydration_failures := hydration_failures m;
     launch_failures := launch_failures m; capacity_refusals := capacity_refusals m;
     forced_retirements := forced_retirements m; active_hydrations := fetch_add (active_hydrations m);
     peak_hydrations := N.max (peak_hydrations m) (active_hydrations m + 1);
     resident_actors := resident_actors m |}.
Definition hydration_finished (m : EntityMetricState) : EntityMetricState :=
  {| activations := activations m; hydration_failures := hydration_failures m;
     launch_failures := launch_failures m; capacity_refusals := capacity_refusals m;
     forced_retirements := forced_retirements m; active_hydrations := fetch_sub (active_hydrations m);
     peak_hydrations := peak_hydrations m; resident_actors := resident_actors m |}.
Definition hydration_failed (m : EntityMetricState) : EntityMetricState :=
  {| activations := activations m; hydration_failures := fetch_add (hydration_failures m);
     launch_failures := launch_failures m; capacity_refusals := capacity_refusals m;
     forced_retirements := forced_retirements m; active_hydrations := active_hydrations m;
     peak_hydrations := peak_hydrations m; resident_actors := resident_actors m |}.
Definition launch_failed (m : EntityMetricState) : EntityMetricState :=
  {| activations := activations m; hydration_failures := hydration_failures m;
     launch_failures := fetch_add (launch_failures m); capacity_refusals := capacity_refusals m;
     forced_retirements := forced_retirements m; active_hydrations := active_hydrations m;
     peak_hydrations := peak_hydrations m; resident_actors := resident_actors m |}.
Definition capacity_refused (m : EntityMetricState) : EntityMetricState :=
  {| activations := activations m; hydration_failures := hydration_failures m;
     launch_failures := launch_failures m; capacity_refusals := fetch_add (capacity_refusals m);
     forced_retirements := forced_retirements m; active_hydrations := active_hydrations m;
     peak_hydrations := peak_hydrations m; resident_actors := resident_actors m |}.
Definition forced_retirement (m : EntityMetricState) : EntityMetricState :=
  {| activations := activations m; hydration_failures := hydration_failures m;
     launch_failures := launch_failures m; capacity_refusals := capacity_refusals m;
     forced_retirements := fetch_add (forced_retirements m); active_hydrations := active_hydrations m;
     peak_hydrations := peak_hydrations m; resident_actors := resident_actors m |}.
Definition retired (m : EntityMetricState) : EntityMetricState :=
  {| activations := activations m; hydration_failures := hydration_failures m;
     launch_failures := launch_failures m; capacity_refusals := capacity_refusals m;
     forced_retirements := forced_retirements m; active_hydrations := active_hydrations m;
     peak_hydrations := peak_hydrations m; resident_actors := fetch_sub (resident_actors m) |}.

(** What a shutdown reports. *)
Record EntityMetrics := {
  metric_activations : N;
  metric_hydration_failures : N;
  metric_launch_failures : N;
  metric_capacity_refusals : N;
  metric_forced_retirements : N;
  metric_peak_hydrations : N;
  metric_residents : N
}.

Definition snapshot (m : EntityMetricState) : EntityMetrics :=
  {| metric_activations := activations m; metric_hydration_failures := hydration_failures m;
     metric_launch_failures := launch_failures m; metric_capacity_refusals := capacity_refusals m;
     metric_forced_retirements := forced_retirements m; metric_peak_hydrations := peak_hydrations m;
     metric_residents := resident_actors m |}.

Record EntityCapacity := { concurrent_hydrations : positive; resident_limit : positive }.

(** [Semaphore::new] asserts the maximum of its permits. *)
Definition MAX_PERMITS : N := N.shiftr usize_max 3.
Definition Semaphore_new (permits : N) : option N := if (permits <=? MAX_PERMITS)%N then Some permits else panic!.

Section family.
Context {NE : NativeEntity}.

(** ** Activation and retirement errors *)

Variant EntityActivationError :=
  | ResidentCapacity
  | Hydration (error : HydrationError)
  | AllocationRejected (behavior : Behavior) (reason : AllocationRejection)
  | Launch (retirement : ActorRetirement) (report : ActorRetirementReport)
      (notification : Result () NotificationError).

(** [None]: the projection of the failed launch unwinds. *)
Definition from_launch (failure : SpawnError) : option EntityActivationError :=
  failure ← into_retirement failure;
  Some match failure with
       | Ok (retirement, report, notification) => Launch retirement report notification
       | Err (behavior, reason) => AllocationRejected behavior reason
       end.

Variant EntityRetirementFailure :=
  | ActorRetirementUnavailable (notification : Result () NotificationError)
      (shutdown_request forced retired : option Panic)
  | ShutdownRequestPanicked (notification : Result () NotificationError)
      (shutdown_request : Panic) (forced retired : option Panic)
  | ForcedRetirementPanicked (notification : Result () NotificationError)
      (forced : Panic) (retired : option Panic)
  | RetirementPanicked (notification : Result () NotificationError) (retired : Panic)
  | TerminationNotificationFailed (error : NotificationError).

(** The result of [retire] once the actor is joined. *)
Definition retirement_result (joined : bool) (notification : Result () NotificationError)
    (shutdown_request forced retired : option Panic) : Result () EntityRetirementFailure :=
  if joined then
    match shutdown_request, forced, retired with
    | None, None, None => map_err TerminationNotificationFailed notification
    | Some shutdown_request, forced, retired =>
        Err (ShutdownRequestPanicked notification shutdown_request forced retired)
    | None, Some forced, retired => Err (ForcedRetirementPanicked notification forced retired)
    | None, None, Some retired => Err (RetirementPanicked notification retired)
    end
  else Err (ActorRetirementUnavailable notification shutdown_request forced retired).

(** ** The state of a family *)

(** The waits of [activate]: for a hydration permit, for the hydration, for the
    launch.  Every row holds a resident permit, a hydrating one also a hydration
    permit and the measurement. *)
Variant Stage := Waiting | Hydrating | Launching (address : MailAddr).

(** A lease, before [retire] and while its actor is joined. *)
Variant LeaseStage := Leased | Joining (forced shutdown_request : option Panic).
Record Lease := { lease_entity : Id; lease_actor : Actor; lease_stage : LeaseStage }.

(** What the definition and the caller of the port have seen: how the
    activation of a row ended, and what became of a lease. *)
Variant Event :=
  | Ev_Activated (row : nat) (id : Id) (actor : Actor)
  | Ev_Failed (row : nat) (id : Id) (error : EntityActivationError)
  | Ev_Unprojected (row : nat) (id : Id)
  | Ev_Unwound (row : nat) (id : Id)
  | Ev_Forced (lease : nat) (failure : DrainFailure)
  | Ev_Retired (lease : nat) (retirement : Result ActorRetirement JoinError) (report : ActorRetirementReport)
  | Ev_Returned (lease : nat) (result : Result () EntityRetirementFailure)
  | Ev_Abandoned (lease : nat).

Record Family := {
  hydrations : N;
  residents : N;
  metrics : EntityMetricState;
  addresses : ApplicationAddresses;
  activating : list (Id * option Stage);
  leases : list (option Lease);
  launched : list MailAddr;
  trace : list Event
}.

Definition bombay_entity_runtime (capacity : EntityCapacity) (allocations : ApplicationAddresses) :
    option Family :=
  hydrations ← Semaphore_new (Npos (concurrent_hydrations capacity));
  residents ← Semaphore_new (Npos (resident_limit capacity));
  Some {| hydrations := hydrations; residents := residents; metrics := metrics_default;
          addresses := allocations; activating := []; leases := []; launched := []; trace := [] |}.

Implicit Types (f : Family) (i : nat) (id : Id).

Definition set_metrics (m : EntityMetricState) f : Family :=
  {| hydrations := hydrations f; residents := residents f; metrics := m; addresses := addresses f;
     activating := activating f; leases := leases f; launched := launched f; trace := trace f |}.
Definition observe (e : Event) f : Family :=
  {| hydrations := hydrations f; residents := residents f; metrics := metrics f; addresses := addresses f;
     activating := activating f; leases := leases f; launched := launched f; trace := trace f ++ [e] |}.
Definition set_stage i id (stage : option Stage) f : Family :=
  {| hydrations := hydrations f; residents := residents f; metrics := metrics f; addresses := addresses f;
     activating := <[i := (id, stage)]> (activating f); leases := leases f; launched := launched f;
     trace := trace f |}.
Definition set_lease i (lease : option Lease) f : Family :=
  {| hydrations := hydrations f; residents := residents f; metrics := metrics f; addresses := addresses f;
     activating := activating f; leases := <[i := lease]> (leases f); launched := launched f;
     trace := trace f |}.
Definition set_hydrations n f : Family :=
  {| hydrations := n; residents := residents f; metrics := metrics f; addresses := addresses f;
     activating := activating f; leases := leases f; launched := launched f; trace := trace f |}.
Definition set_residents n f : Family :=
  {| hydrations := hydrations f; residents := n; metrics := metrics f; addresses := addresses f;
     activating := activating f; leases := leases f; launched := launched f; trace := trace f |}.

(** ** [activate] *)

(** The activation ends, its resident permit is released. *)
Definition end_activation i id (e : Event) f : Family :=
  observe e (set_residents (residents f + 1) (set_stage i id None f)).
(** The measurement and the hydration permit are dropped. *)
Definition end_hydration f : Family :=
  set_hydrations (hydrations f + 1) (set_metrics (hydration_finished (metrics f)) f).

Definition activate id f : Family :=
  match checked_sub (residents f) 1 with
  | None =>
      {| hydrations := hydrations f; residents := residents f;
         metrics := capacity_refused (metrics f); addresses := addresses f;
         activating := activating f ++ [(id, None)]; leases := leases f; launched := launched f;
         trace := trace f ++ [Ev_Failed (length (activating f)) id ResidentCapacity] |}
  | Some residents =>
      {| hydrations := hydrations f; residents := residents; metrics := metrics f;
         addresses := addresses f; activating := activating f ++ [(id, Some Waiting)];
         leases := leases f; launched := launched f; trace := trace f |}
  end.

Definition acquire_hydration i id f : Family :=
  match checked_sub (hydrations f) 1 with
  | None => f
  | Some hydrations =>
      set_hydrations hydrations
        (set_metrics (hydration_started (metrics f)) (set_stage i id (Some Hydrating) f))
  end.

Definition refuse_launch i id (failure : SpawnError) f : Family :=
  let f := set_metrics (launch_failed (metrics f)) f in
  match from_launch failure with
  | Some error => end_activation i id (Ev_Failed i id error) f
  | None => end_activation i id (Ev_Unprojected i id) f
  end.

Definition hydrated i id (answer : Result Behavior HydrationError) f : Family :=
  match answer with
  | Err error =>
      let f := end_hydration (set_metrics (hydration_failed (metrics f)) f) in
      end_activation i id (Ev_Failed i id (Hydration error)) f
  | Ok behavior =>
      let f := end_hydration f in
      match allocate (addresses f) with
      | (_, Err reason) => refuse_launch i id (allocation_rejected behavior reason) f
      | (addresses, Ok address) =>
          {| hydrations := hydrations f; residents := residents f; metrics := metrics f;
             addresses := addresses; activating := <[i := (id, Some (Launching address))]> (activating f);
             leases := leases f; launched := launched f ++ [address]; trace := trace f |}
      end
  end.

(** The lease takes the resident permit of the activation. *)
Definition launch_returned i id (answer : Result Actor SpawnError) f : Family :=
  match answer with
  | Err failure => refuse_launch i id failure f
  | Ok actor =>
      {| hydrations := hydrations f; residents := residents f;
         metrics := activation_succeeded (metrics f); addresses := addresses f;
         activating := <[i := (id, None)]> (activating f);
         leases := leases f ++ [Some {| lease_entity := id; lease_actor := actor; lease_stage := Leased |}];
         launched := launched f; trace := trace f ++ [Ev_Activated i id actor] |}
  end.

(** The activation is dropped at its wait, or what it awaits unwinds. *)
Definition abandon_activation i id (stage : Stage) f : Family :=
  let f := match stage with Hydrating => end_hydration f | Waiting | Launching _ => f end in
  end_activation i id (Ev_Unwound i id) f.

(** ** [retire] *)

(** Up to the join: the forced notification and the request to shut down, each
    caught. *)
Definition begin_retire i (lease : Lease) (mode : RetirementMode) (forced requested : option Panic) f :
    Family :=
  let '(f, forced) :=
    match mode with
    | RetirementMode_Graceful => (f, None)
    | RetirementMode_Forced failure =>
        (observe (Ev_Forced i failure) (set_metrics (forced_retirement (metrics f)) f), forced)
    end in
  set_lease i (Some {| lease_entity := lease_entity lease; lease_actor := lease_actor lease;
                       lease_stage := Joining forced requested |}) f.

(** The lease ends, its resident permit is released. *)
Definition end_lease i (e : Event) f : Family :=
  observe e (set_residents (residents f + 1) (set_lease i None f)).

(** From the join on; the projection of the outcome may unwind. *)
Definition finish_retire i (forced shutdown_request : option Panic) (joined : Result Outcome JoinError)
    (notification : Result () NotificationError) (notified : option Panic) f : Family :=
  let report := from_joined joined notification in
  match (match joined with
         | Ok outcome => retirement ← from_local outcome; Some (Ok retirement)
         | Err error => Some (Err error)
         end) with
  | None => end_lease i (Ev_Abandoned i) f
  | Some retirement =>
      let result := retirement_result (is_Ok joined) notification shutdown_request forced notified in
      let f := observe (Ev_Retired i retirement report) f in
      end_lease i (Ev_Returned i result) (set_metrics (retired (metrics f)) f)
  end.

(** ** The calls of a family *)

Variant Call :=
  | Call_Activate (id : Id)
  | Call_Acquire (i : nat)
  | Call_Hydrate (i : nat) (answer : Result Behavior HydrationError)
  | Call_Launch (i : nat) (answer : Result Actor SpawnError)
  | Call_Abandon (i : nat)
  | Call_Retire (i : nat) (mode : RetirementMode) (forced requested : option Panic)
  | Call_Join (i : nat) (joined : Result Outcome JoinError) (notification : Result () NotificationError)
      (notified : option Panic)
  | Call_Drop (i : nat)
  | Call_Allocate.

(** A call that finds no operation in its stage changes nothing. *)
Definition perform (call : Call) f : Family :=
  match call with
  | Call_Activate id => activate id f
  | Call_Acquire i =>
      match activating f !! i with Some (id, Some Waiting) => acquire_hydration i id f | _ => f end
  | Call_Hydrate i answer =>
      match activating f !! i with Some (id, Some Hydrating) => hydrated i id answer f | _ => f end
  | Call_Launch i answer =>
      match activating f !! i with
      | Some (id, Some (Launching _)) => launch_returned i id answer f | _ => f end
  | Call_Abandon i =>
      match activating f !! i with
      | Some (id, Some stage) => abandon_activation i id stage f | _ => f end
  | Call_Retire i mode forced requested =>
      match leases f !! i with
      | Some (Some lease) =>
          match lease_stage lease with
          | Leased => begin_retire i lease mode forced requested f
          | Joining _ _ => f
          end
      | _ => f
      end
  | Call_Join i joined notification notified =>
      match leases f !! i with
      | Some (Some lease) =>
          match lease_stage lease with
          | Joining forced requested => finish_retire i forced requested joined notification notified f
          | Leased => f
          end
      | _ => f
      end
  | Call_Drop i =>
      match leases f !! i with Some (Some _) => end_lease i (Ev_Abandoned i) f | _ => f end
  | Call_Allocate =>
      {| hydrations := hydrations f; residents := residents f; metrics := metrics f;
         addresses := (allocate (addresses f)).1; activating := activating f; leases := leases f;
         launched := launched f; trace := trace f |}
  end.

Definition family_run (calls : list Call) f : Family := foldl (λ f call, perform call f) f calls.

(** ** What is counted *)

Definition hydrating (row : Id * option Stage) : N :=
  match row.2 with Some Hydrating => 1 | _ => 0 end.
Definition occupies (row : Id * option Stage) : N := match row.2 with Some _ => 1 | None => 0 end.
Definition leased (lease : option Lease) : N := match lease with Some _ => 1 | None => 0 end.

Definition is_activation (e : Event) : N := match e with Ev_Activated _ _ _ => 1 | _ => 0 end.
Definition is_hydration_failure (e : Event) : N := match e with Ev_Failed _ _ (Hydration _) => 1 | _ => 0 end.
Definition is_launch_failure (e : Event) : N :=
  match e with
  | Ev_Failed _ _ (AllocationRejected _ _ | Launch _ _ _) | Ev_Unprojected _ _ => 1
  | _ => 0
  end.
Definition is_capacity_refusal (e : Event) : N := match e with Ev_Failed _ _ ResidentCapacity => 1 | _ => 0 end.
Definition is_forced (e : Event) : N := match e with Ev_Forced _ _ => 1 | _ => 0 end.
Definition is_abandoned (e : Event) : N := match e with Ev_Abandoned _ => 1 | _ => 0 end.
Definition one_if (b : bool) : N := if b then 1 else 0.
(** The end of the activation of row [i]; the final notification of lease [i],
    its result, and its end without them. *)
Definition end_of_row i (e : Event) : N :=
  match e with
  | Ev_Activated j _ _ | Ev_Failed j _ _ | Ev_Unprojected j _ | Ev_Unwound j _ => one_if (bool_decide (j = i))
  | _ => 0
  end.
Definition final_of i (e : Event) : N :=
  match e with Ev_Retired j _ _ => one_if (bool_decide (j = i)) | _ => 0 end.
Definition result_of i (e : Event) : N :=
  match e with Ev_Returned j _ => one_if (bool_decide (j = i)) | _ => 0 end.
Definition abandoned_of i (e : Event) : N :=
  match e with Ev_Abandoned j => one_if (bool_decide (j = i)) | _ => 0 end.
(** Whether the activation of row [i], or lease [i], has ended. *)
Definition row_ended i (l : list (Id * option Stage)) : N :=
  match l !! i with Some (_, None) => 1 | _ => 0 end.
Definition lease_ended i (l : list (option Lease)) : N :=
  match l !! i with Some None => 1 | _ => 0 end.

Record family_ok (capacity : EntityCapacity) f : Prop := {
  ok_hydrations : (hydrations f + total hydrating (activating f) = Npos (concurrent_hydrations capacity))%N;
  ok_residents :
    (residents f + total occupies (activating f) + total leased (leases f) = Npos (resident_limit capacity))%N;
  ok_active : active_hydrations (metrics f) = total hydrating (activating f);
  ok_peak : (active_hydrations (metrics f) ≤ peak_hydrations (metrics f) ≤ Npos (concurrent_hydrations capacity))%N;
  ok_launched : NoDup (launched f);
  ok_fresh : Forall (λ a, a < addresses f)%N (launched f);
  ok_activations : activations (metrics f) = wrap (total is_activation (trace f));
  ok_hydration_failures : hydration_failures (metrics f) = wrap (total is_hydration_failure (trace f));
  ok_launch_failures : launch_failures (metrics f) = wrap (total is_launch_failure (trace f));
  ok_capacity_refusals : capacity_refusals (metrics f) = wrap (total is_capacity_refusal (trace f));
  ok_forced : forced_retirements (metrics f) = wrap (total is_forced (trace f));
  ok_resident_actors :
    resident_actors (metrics f) = wrap (total leased (leases f) + total is_abandoned (trace f));
  ok_leases : (total is_activation (trace f) = N.of_nat (length (leases f)))%N;
  ok_row i : total (end_of_row i) (trace f) = row_ended i (activating f);
  ok_final i : (total (final_of i) (trace f) + total (abandoned_of i) (trace f) = lease_ended i (leases f))%N;
  ok_result i : total (result_of i) (trace f) = total (final_of i) (trace f)
}.

(** ** Proofs *)

Lemma fetch_add_small n : (n + 1 ≤ usize_max)%N → fetch_add n = (n + 1)%N.
Proof. intros. by apply wrap_small. Qed.
Lemma fetch_sub_small n : (n + 1 ≤ usize_max)%N → fetch_sub (n + 1) = n.
Proof. intros. rewrite <- (wrap_small (n + 1)) by done. rewrite fetch_sub_wrap. apply wrap_small. lia. Qed.

(** A row or lease that starts, or changes. *)
Lemma row_ended_app i l id stage :
  (row_ended i (l ++ [(id, stage)]) =
   row_ended i l + one_if (bool_decide (length l = i) && is_none stage))%N.
Proof.
  unfold row_ended. destruct (decide (i < length l)) as [Hi|Hi].
  - rewrite lookup_app_l, bool_decide_false by lia. cbn. lia.
  - rewrite lookup_app_r, (lookup_ge_None_2 l i) by lia. destruct (i - length l) as [|k] eqn:Hk.
    + rewrite bool_decide_true by lia. by destruct stage.
    + by rewrite bool_decide_false by lia.
Qed.
Lemma row_ended_insert i j l id stage stage' :
  l !! j = Some (id, Some stage) →
  (row_ended i (<[j := (id, stage')]> l) =
   row_ended i l + one_if (bool_decide (j = i) && is_none stage'))%N.
Proof.
  intros Hj. pose proof (lookup_lt_Some _ _ _ Hj) as Hlt. unfold row_ended. case_bool_decide as Hi.
  - subst j. rewrite list_lookup_insert_eq, Hj by done. by destruct stage'.
  - rewrite list_lookup_insert_ne by done. cbn. lia.
Qed.
Lemma lease_ended_app i l lease : lease_ended i (l ++ [Some lease]) = lease_ended i l.
Proof.
  unfold lease_ended. destruct (decide (i < length l)) as [Hi|Hi]; [by rewrite lookup_app_l|].
  rewrite lookup_app_r, (lookup_ge_None_2 l i) by lia. by destruct (i - length l) as [|k].
Qed.
Lemma lease_ended_insert i j l lease lease' :
  l !! j = Some (Some lease) →
  (lease_ended i (<[j := lease']> l) = lease_ended i l + one_if (bool_decide (j = i) && is_none lease'))%N.
Proof.
  intros Hj. pose proof (lookup_lt_Some _ _ _ Hj) as Hlt. unfold lease_ended. case_bool_decide as Hi.
  - subst j. rewrite list_lookup_insert_eq, Hj by done. by destruct lease'.
  - rewrite list_lookup_insert_ne by done. cbn. lia.
Qed.

(** The totals of the rows that change. *)
Ltac totals :=
  repeat match goal with
  | H : ?l !! ?i = Some ?x |- context [total ?w (<[?i := ?y]> ?l)] =>
      lazymatch goal with
      | _ : (total w (<[i := y]> l) + _ = _)%N |- _ => fail
      | _ => pose proof (total_insert w l i x y H)
      end
  end.
Ltac count_rows :=
  totals; rewrite ?total_app, ?length_app, ?length_insert in *;
  cbn [total hydrating occupies leased is_activation length snd] in *; lia.
(** The ends of one row or lease next to those that were recorded. *)
Ltac ends :=
  let i := fresh "i" in
  intros i;
  repeat match goal with H : ∀ _ : nat, _ = _ |- _ => specialize (H i) end;
  rewrite ?total_app, ?row_ended_app, ?lease_ended_app;
  first [erewrite row_ended_insert by eassumption | erewrite lease_ended_insert by eassumption | idtac];
  cbn [total end_of_row final_of result_of abandoned_of is_none];
  rewrite ?andb_true_r, ?andb_false_r; unfold one_if in *; repeat case_bool_decide; lia.
(** A wrapping counter next to the events it counts. *)
Ltac counter :=
  rewrite ?total_app;
  cbn [total is_activation is_hydration_failure is_launch_failure is_capacity_refusal is_forced is_abandoned];
  repeat match goal with H : _ = wrap _ |- _ => rewrite H; clear H end; rewrite ?fetch_add_wrap;
  f_equal; count_rows.
Ltac keeps := cbn; try first [done | count_rows | counter | ends].

Section capacity.
Context (capacity : EntityCapacity).
Context (Hbound : (Npos (concurrent_hydrations capacity) ≤ MAX_PERMITS)%N).
Local Abbreviation ok := (family_ok capacity).

Lemma permits_fit : (MAX_PERMITS + 1 ≤ usize_max)%N.
Proof. by vm_compute. Qed.

Lemma activate_ok id f : ok f → ok (activate id f).
Proof.
  intros []. unfold activate. destruct (checked_sub (residents f) 1) as [n|] eqn:Hn.
  - autorewrite with machine_int in Hn. split; keeps.
  - split; keeps.
Qed.

Lemma hydration_acquired_ok i id f :
  activating f !! i = Some (id, Some Waiting) → ok f → ok (acquire_hydration i id f).
Proof.
  intros Hi []. unfold acquire_hydration. destruct (checked_sub (hydrations f) 1) as [n|] eqn:Hn; [|by split].
  autorewrite with machine_int in Hn. pose proof permits_fit.
  split; keeps; rewrite fetch_add_small by lia; count_rows.
Qed.

Lemma refuse_launch_ok i id stage failure f :
  activating f !! i = Some (id, Some stage) → stage ≠ Hydrating → ok f → ok (refuse_launch i id failure f).
Proof.
  intros Hi Hs []. unfold refuse_launch, from_launch.
  assert (hydrating (id, Some stage) = 0%N) as Hw by (by destruct stage).
  destruct (into_retirement failure) as [[[[r report] n]|[b reason]]|]; cbn;
    (split; keeps; totals; rewrite Hw in *; count_rows).
Qed.

(** The hydration ended and its row still waits for what follows. *)
Lemma end_hydration_ok i id f :
  activating f !! i = Some (id, Some Hydrating) → ok f →
  ok (end_hydration (set_stage i id (Some Waiting) f)).
Proof.
  intros Hi []. pose proof permits_fit.
  assert (total hydrating (activating f) = total hydrating (<[i := (id, Some Waiting)]> (activating f)) + 1)%N
    as Ht by count_rows.
  split; keeps; rewrite ok_active0, Ht, fetch_sub_small by lia; lia.
Qed.

(** A row whose hydration ended holds no hydration permit. *)
Lemma hydrated_rest i id answer f :
  activating f !! i = Some (id, Some Hydrating) →
  hydrated i id answer f =
    let g := end_hydration (set_stage i id (Some Waiting) f) in
    match answer with
    | Err error =>
        end_activation i id (Ev_Failed i id (Hydration error)) (set_metrics (hydration_failed (metrics g)) g)
    | Ok behavior =>
        match allocate (addresses g) with
        | (_, Err reason) => refuse_launch i id (allocation_rejected behavior reason) g
        | (addresses, Ok address) =>
            {| hydrations := hydrations g; residents := residents g; metrics := metrics g;
               addresses := addresses; activating := <[i := (id, Some (Launching address))]> (activating g);
               leases := leases g; launched := launched g ++ [address]; trace := trace g |}
        end
    end.
Proof.
  intros Hi. destruct answer as [behavior|error]; cbn.
  - destruct (allocate (addresses f)) as [next [address|reason]].
    + unfold end_hydration. cbn. by rewrite list_insert_insert_eq.
    + unfold refuse_launch, end_activation, end_hydration, observe, set_residents, set_stage, set_metrics,
        set_hydrations. cbn. destruct (from_launch _); cbn; by rewrite list_insert_insert_eq.
  - unfold end_activation, end_hydration, observe, set_residents, set_stage, set_metrics, set_hydrations.
    cbn. by rewrite list_insert_insert_eq.
Qed.

Lemma waiting_row i id f (stage : option Stage) :
  activating f !! i = Some (id, Some Hydrating) →
  activating (set_stage i id stage f) !! i = Some (id, stage).
Proof. intros Hi. apply list_lookup_insert_eq. by eapply lookup_lt_Some. Qed.

Lemma family_allocate_spec (next : ApplicationAddresses) :
  match allocate next with
  | (next', Ok address) => address = next ∧ (next' = next + 1)%N
  | (next', Err _) => next' = next
  end.
Proof.
  unfold allocate. destruct (checked_add u64_max next 1) as [n|] eqn:Hn; [|done].
  autorewrite with machine_int in Hn. by destruct Hn.
Qed.

Lemma hydrated_ok i id answer f :
  activating f !! i = Some (id, Some Hydrating) → ok f → ok (hydrated i id answer f).
Proof.
  intros Hi Hf. rewrite (hydrated_rest _ _ _ _ Hi). cbv zeta.
  pose proof (end_hydration_ok i id f Hi Hf) as Hg. pose proof (waiting_row i id f (Some Waiting) Hi) as Hw.
  change (activating (set_stage i id (Some Waiting) f)) with
    (activating (end_hydration (set_stage i id (Some Waiting) f))) in Hw.
  revert Hg Hw. generalize (end_hydration (set_stage i id (Some Waiting) f)) as g. clear f Hi Hf.
  intros g Hg Hw. destruct answer as [behavior|error].
  - pose proof (family_allocate_spec (addresses g)) as Ha. destruct (allocate (addresses g)) as [next [address|reason]].
    + destruct Ha as [-> ->]. destruct Hg. split; keeps.
      * apply NoDup_app. split_and!; [done| |by apply NoDup_singleton].
        intros a Ha ->%list_elem_of_singleton. rewrite Forall_forall in ok_fresh0. specialize (ok_fresh0 _ Ha). lia.
      * apply Forall_app. split; [by eapply Forall_impl; [done|cbn; lia]|]. constructor; [lia|done].
    + by apply refuse_launch_ok with Waiting.
  - destruct Hg. split; keeps.
Qed.

Lemma launch_returned_ok i id address answer f :
  activating f !! i = Some (id, Some (Launching address)) → ok f → ok (launch_returned i id answer f).
Proof.
  intros Hi Hf. destruct answer as [actor|failure]; [|by apply refuse_launch_ok with (Launching address)].
  destruct Hf. split; keeps.
Qed.

Lemma abandon_ok i id stage f :
  activating f !! i = Some (id, Some stage) → ok f → ok (abandon_activation i id stage f).
Proof.
  assert (∀ g s, activating g !! i = Some (id, Some s) → s ≠ Hydrating → ok g →
    ok (end_activation i id (Ev_Unwound i id) g)) as Hend.
  { intros g s Hi Hs []. assert (hydrating (id, Some s) = 0%N) as Hw by (by destruct s).
    split; keeps; totals; rewrite Hw in *; count_rows. }
  intros Hi Hf. destruct stage; try (by eapply Hend).
  unfold abandon_activation.
  replace (end_activation i id (Ev_Unwound i id) (end_hydration f)) with
    (end_activation i id (Ev_Unwound i id) (end_hydration (set_stage i id (Some Waiting) f))).
  - apply Hend with Waiting; [exact (waiting_row i id f (Some Waiting) Hi)|done|by apply end_hydration_ok].
  - unfold end_activation, end_hydration, observe, set_residents, set_stage, set_metrics, set_hydrations.
    cbn. by rewrite list_insert_insert_eq.
Qed.

Lemma begin_retire_ok i lease mode forced requested f :
  leases f !! i = Some (Some lease) → ok f → ok (begin_retire i lease mode forced requested f).
Proof.
  intros Hi []. unfold begin_retire. destruct mode as [|failure]; split; keeps.
Qed.

Lemma end_lease_ok i lease f :
  leases f !! i = Some (Some lease) → ok f → ok (end_lease i (Ev_Abandoned i) f).
Proof. intros Hi []. split; keeps. Qed.

Lemma finish_retire_ok i lease forced requested joined notification notified f :
  leases f !! i = Some (Some lease) → ok f →
  ok (finish_retire i forced requested joined notification notified f).
Proof.
  intros Hi Hf. unfold finish_retire.
  destruct (match joined with Ok _ => _ | Err _ => _ end) as [retirement|]; [|by eapply end_lease_ok].
  destruct Hf. cbv zeta. split; keeps.
  rewrite ok_resident_actors0, !total_app. cbn [total is_abandoned].
  replace (total leased (leases f) + total is_abandoned (trace f))%N with
    (total leased (<[i := None]> (leases f)) + (total is_abandoned (trace f) + 0 + 0) + 1)%N by count_rows.
  rewrite fetch_sub_wrap. rewrite !N.add_0_r. done.
Qed.

Lemma family_perform_ok call f : ok f → ok (perform call f).
Proof.
  intros Hf. destruct call; cbn.
  - by apply activate_ok.
  - destruct (_ !! i) as [[id [[]|]]|] eqn:Hi; try done. by apply hydration_acquired_ok.
  - destruct (_ !! i) as [[id [[]|]]|] eqn:Hi; try done. by apply hydrated_ok.
  - destruct (_ !! i) as [[id [[]|]]|] eqn:Hi; try done. by eapply launch_returned_ok.
  - destruct (_ !! i) as [[id [stage|]]|] eqn:Hi; try done. by apply abandon_ok.
  - destruct (_ !! i) as [[lease|]|] eqn:Hi; try done. destruct (lease_stage lease); [by apply begin_retire_ok|done].
  - destruct (_ !! i) as [[lease|]|] eqn:Hi; try done. destruct (lease_stage lease); [done|by eapply finish_retire_ok].
  - destruct (_ !! i) as [[lease|]|] eqn:Hi; try done. by eapply end_lease_ok.
  - destruct Hf. pose proof (family_allocate_spec (addresses f)) as Ha.
    split; cbn; try done. eapply Forall_impl; [done|]. cbn. intros a Hlt.
    destruct (allocate (addresses f)) as [next [address|reason]]; cbn; [destruct Ha as [_ ->]|subst]; lia.
Qed.

Lemma family_run_ok calls f : ok f → ok (family_run calls f).
Proof. revert f. induction calls as [|call calls IH]; intros f Hf; [done|]. by apply IH, family_perform_ok. Qed.
End capacity.

Lemma bombay_entity_runtime_ok capacity allocations f :
  bombay_entity_runtime capacity allocations = Some f →
  (Npos (concurrent_hydrations capacity) ≤ MAX_PERMITS)%N ∧ family_ok capacity f.
Proof.
  unfold bombay_entity_runtime, Semaphore_new. intros Hf.
  destruct (N.leb_spec (Npos (concurrent_hydrations capacity)) MAX_PERMITS) as [Hh|]; [|done].
  destruct (N.leb_spec (Npos (resident_limit capacity)) MAX_PERMITS) as [Hr|]; [|done].
  change (Some {| hydrations := Npos (concurrent_hydrations capacity); residents := Npos (resident_limit capacity);
    metrics := metrics_default; addresses := allocations; activating := []; leases := []; launched := [];
    trace := [] |} = Some f) in Hf.
  injection Hf as <-. split; [exact Hh|]. clear. split; cbn; try reflexivity; try constructor; try lia.
Qed.

(** ** The laws of a family *)

(** C20: Whatever activations, hydrations, launches, retirements and cancellations
    arrive in any order: every permit is free or held by exactly one row or lease, so
    a family never exceeds its capacity; every launch has a fresh address; the
    activation of every row that ended has ended exactly once, and of no other row;
    every lease that ended was notified to the definition exactly once, with its
    result, or was abandoned without either; and the counters count the hydrations
    that run, their peak, and (modulo their width) what was activated, refused and
    forced.  The resident counter counts the leases that are alive and those that
    were abandoned: only a retirement that comes to its end takes one away. *)
Theorem family_keeps_capacity capacity allocations f calls :
  bombay_entity_runtime capacity allocations = Some f → family_ok capacity (family_run calls f).
Proof. intros [Hb Hf]%bombay_entity_runtime_ok. by apply family_run_ok. Qed.

(** What a failed retirement retains. *)
Definition failure_parts (failure : EntityRetirementFailure) :
    bool * Result () NotificationError * option Panic * option Panic * option Panic :=
  match failure with
  | ActorRetirementUnavailable n shutdown forced retired => (false, n, shutdown, forced, retired)
  | ShutdownRequestPanicked n shutdown forced retired => (true, n, Some shutdown, forced, retired)
  | ForcedRetirementPanicked n forced retired => (true, n, None, Some forced, retired)
  | RetirementPanicked n retired => (true, n, None, None, Some retired)
  | TerminationNotificationFailed error => (true, Err error, None, None, None)
  end.

Lemma retirement_result_spec joined notification shutdown forced notified :
  match retirement_result joined notification shutdown forced notified with
  | Ok _ => joined = true ∧ notification = Ok () ∧ shutdown = None ∧ forced = None ∧ notified = None
  | Err failure => failure_parts failure = (joined, notification, shutdown, forced, notified)
  end.
Proof. by destruct joined, notification as [[]|], shutdown, forced, notified. Qed.

(** The retirement of a joined lease tells the definition exactly once, with
    the native result and the report of the actor, releases its permit, and is
    successful exactly when nothing failed; otherwise every independent failure is
    retained: the join, the notification, and the three caught panics. *)
Lemma retirement_keeps_failures i lease forced shutdown joined notification notified f :
  leases f !! i = Some (Some lease) → lease_stage lease = Joining forced shutdown →
  (∀ outcome, joined = Ok outcome → from_local outcome ≠ None) →
  let f' := perform (Call_Join i joined notification notified) f in
  ∃ retirement result,
    trace f' = trace f ++ [Ev_Retired i retirement (from_joined joined notification); Ev_Returned i result] ∧
    residents f' = (residents f + 1)%N ∧ leases f' !! i = Some None ∧
    match joined, retirement with
    | Ok outcome, Ok retirement => from_local outcome = Some retirement
    | Err error, Err error' => error = error'
    | _, _ => False
    end ∧
    match result with
    | Ok _ => is_Ok joined = true ∧ notification = Ok () ∧ shutdown = None ∧ forced = None ∧ notified = None
    | Err failure => failure_parts failure = (is_Ok joined, notification, shutdown, forced, notified)
    end.
Proof.
  intros Hi Hs Hp f'. unfold f'. cbn. rewrite Hi, Hs. unfold finish_retire.
  pose proof (retirement_result_spec (is_Ok joined) notification shutdown forced notified) as Hr.
  assert (∃ retirement, (match joined with
    | Ok outcome => retirement ← from_local outcome; Some (Ok retirement)
    | Err error => Some (Err error)
    end) = Some retirement ∧
    match joined, retirement with
    | Ok outcome, Ok retirement => from_local outcome = Some retirement
    | Err error, Err error' => error = error'
    | _, _ => False
    end) as (retirement & -> & Hm).
  { destruct joined as [outcome|error]; [|by eexists].
    destruct (from_local outcome) as [r|] eqn:Ho; [|by destruct (Hp _ eq_refl)]. by exists (Ok r). }
  eexists retirement, _. split_and!; [|done..|apply list_lookup_insert_eq; by eapply lookup_lt_Some|done|exact Hr].
  cbn. by rewrite <- app_assoc.
Qed.
End family.
