(* ===== verification/NativeFamily.v ===== *)
(** * Entity families of an application

    [crates/bombay/src/entity/family.rs] and [crates/bombay/src/entity/retirement.rs]:
    the admission of a command by its emitting actor, the delivery of a command to an
    incarnation, and the shutdown of a product of installed families with the
    receiving ends of their reports; the instance of NativeEntity.v's interface for
    local actors, and a concrete family.

    The product of families is a tuple indexed by roles; here it is a list, and a
    position selects a family. *)

From S2P Require Import Prelude Driver Host Assessment LocalIngress LocalEnvironment ActorOutcome TerminalProjection Endpoint Lifecycle EntityRuntime NativeEntity.

(** ** Local actors implement the interface *)

Section local.
Context {TY : LocalTypes} {LH : LaunchHost} `{!TaskSet World Tasks LocalEnvironment.Event LocalEnvironment.JoinError}.
Context {B BError Root ChildFailures : Type} (descendants_of : Descendants → list Root * ChildFailures).
Context (EntityId Hydration Reference : Type).

Definition local_entity : NativeEntity := {|
  Id := EntityId;
  Behavior := B;
  HydrationError := Hydration;
  Actor := Reference;
  NativeEntity.ActorRetirement :=
    TerminalProjection.ActorRetirement (B := B) (BError := BError) (AllocationRejection := AllocationRejection)
      (Root := Root) (ChildFailures := ChildFailures);
  NativeEntity.SpawnError :=
    TerminalProjection.SpawnError (B := B) (BError := BError) (AllocationRejection := AllocationRejection);
  Outcome := LocalOutcome (B := B) (BError := BError);
  NativeEntity.JoinError := LocalEnvironment.JoinError;
  NotificationError := RetirementNotificationError;
  NativeEntity.Panic := LocalEnvironment.Panic;
  NativeEntity.into_retirement failure :=
    (λ projected, match projected with
      | Ok (retirement, receipts) =>
          Ok (retirement, spawn_retirement_report receipts, spawn_termination_notification receipts)
      | Err returned => Err returned
      end) <$> TerminalProjection.into_retirement descendants_of failure;
  allocation_rejected := Spawn_AllocationRejected;
  NativeEntity.from_local := TerminalProjection.from_local descendants_of;
  NativeEntity.from_joined := ActorOutcome.from_joined
|}.

Lemma local_entity_law : @NativeEntityLaw local_entity.
Proof. done. Qed.
End local.

(** ** Delivery to an incarnation *)

Section deliver.
Context {TY : LocalTypes} {M Publisher : Type} {EH : EndpointHost M Publisher}.

Definition deliver (endpoint : ActorRef) (origin : Addr) (command : M) : Async LocalEnvironment.Panic World (Result () M) :=
  sent ← send_from endpoint origin command; mret (map_err into_message sent).

(** A delivery that is refused returns the command. *)
Lemma native_deliver_returns `{!EndpointLaw} endpoint origin command w :
  wp (deliver endpoint origin command)
    (λ _ o, is_Violated o = false ∧ ∀ returned, o = Ready (Err returned) → returned = command) w.
Proof.
  apply wp_bind. eapply wp_mono; [apply wp_send_from|]. intros w' [[[]|error]| | |] [Hv Hs]; cbn [wp_then]; try done.
  apply wp_ret. split; [done|]. intros returned [= <-]. by apply Hs.
Qed.
End deliver.

(** ** Admission by an emitting actor *)

Section admission.
Context {I C : Type}.

Record Admission := { admitted_entity : I; admitted_command : C }.

(** How [EntityReceptionist::admit] ends; the future may be dropped or unwind. *)
Variant AdmissionAnswer := Admit_Ok | Admit_Refused (failure : AdmissionFailure C) | Admit_Gone.

(** [EntityAdmission::interpret]; [cloned]: the clones of the identity return.
    What is left of the input, and what the definition is told. *)
Definition interpret (input : option Admission) (cloned : bool) (answer : AdmissionAnswer) :
    option Admission * option (I * AdmissionFailure C) :=
  match input with
  | None => (None, None)
  | Some admission =>
      if cloned then
        (None, match answer with
               | Admit_Refused failure => Some (admitted_entity admission, failure)
               | Admit_Ok | Admit_Gone => None
               end)
      else (input, None)
  end.
End admission.

(** ** The shutdown of the families *)

Section product.
Context {Role Shutdown Panic RecvError : Type} (closed : RecvError).

(** [FamilyRetirement] *)
Record FamilyRetirement := {
  family_shutdown : Shutdown;
  family_metrics : EntityMetrics;
  disposal_failure : option Panic
}.

(** How the shutdown of one family ends; [None]: it is dropped or unwinds.  The
    metrics are read when it returned. *)
Record FamilyEnd := {
  ended : option Shutdown;
  counted : EntityMetricState;
  disposed : option Panic
}.

(** [InstalledEntityFamilies::shutdown] with its receiving ends: the families end
    in order, each report is published as soon as it exists, and publications that
    are dropped close their receiving ends.  The flag tells whether the shutdown
    returned. *)
Fixpoint shutdown (families : list (Role * FamilyEnd)) :
    list (Result (Role * FamilyRetirement) RecvError) * bool :=
  match families with
  | [] => ([], true)
  | (role, answer) :: tail =>
      match ended answer with
      | None => ((λ _, Err closed) <$> families, false)
      | Some directory =>
          let '(reports, finished) := shutdown tail in
          (Ok (role, {| family_shutdown := directory; family_metrics := snapshot (counted answer);
                        disposal_failure := disposed answer |}) :: reports, finished)
      end
  end.

(** [FamilyAt::family] *)
Definition family_at (position : nat) (reports : list (Result (Role * FamilyRetirement) RecvError)) :
    option (Result FamilyRetirement RecvError) :=
  report ← reports !! position;
  Some match report with Ok (_, retirement) => Ok retirement | Err cause => Err cause end.

Definition has_ended (row : Role * FamilyEnd) : bool :=
  match ended row.2 with Some _ => true | None => false end.

(** Every family has one result: its own report when it and all families before it
    ended, the closed publication otherwise; the shutdown returns exactly when all
    did. *)
Lemma shutdown_reports families :
  length (shutdown families).1 = length families ∧
  (shutdown families).2 = forallb has_ended families ∧
  ∀ i role answer, families !! i = Some (role, answer) →
    if forallb has_ended (take (S i) families) then
      ∃ directory, ended answer = Some directory ∧
        (shutdown families).1 !! i = Some (Ok (role, {| family_shutdown := directory;
          family_metrics := snapshot (counted answer); disposal_failure := disposed answer |}))
    else (shutdown families).1 !! i = Some (Err closed).
Proof.
  induction families as [|[role answer] families (Hlen & Hall & Hat)]; [by split_and!|].
  cbn [shutdown take forallb]. unfold has_ended at 1 3. cbn [snd].
  destruct (ended answer) as [directory|] eqn:He; cbn [andb].
  - destruct (shutdown families) as [reports finished] eqn:Hs. cbn in *.
    split_and!; [by rewrite Hlen|done|].
    intros [|i] role' answer' Hi; cbn in Hi; [|by apply Hat].
    injection Hi as <- <-. by exists directory.
  - cbn [fst snd]. split_and!; [by rewrite length_fmap|done|]. intros i role' answer' Hi.
    by rewrite list_lookup_fmap, Hi.
Qed.
End product.

(** ** A concrete family *)

(** Everything is a number; an outcome is its own retirement. *)
#[export] Instance counted_entity : NativeEntity := {|
  Id := N; Behavior := N; HydrationError := N; Actor := N; NativeEntity.ActorRetirement := N;
  NativeEntity.SpawnError := N * AllocationRejection; Outcome := N; NativeEntity.JoinError := N;
  NotificationError := N; NativeEntity.Panic := N;
  NativeEntity.into_retirement failure := Some (Err failure);
  allocation_rejected b reason := (b, reason);
  NativeEntity.from_local outcome := Some outcome;
  NativeEntity.from_joined _ _ := Report_new Established NoFailuresFound
|}.

Definition small_capacity : EntityCapacity := {| concurrent_hydrations := 1; resident_limit := 2 |}.

(** Entities 5 and 6 activate side by side and 7 is refused; 6 waits for the
    hydration of 5, and is not reconstructed; 5 runs. *)
Definition served_calls : list Call := [
  Call_Activate 5%N; Call_Activate 6%N; Call_Activate 7%N; Call_Acquire 0; Call_Acquire 1;
  Call_Hydrate 0 (Ok 50%N); Call_Acquire 1; Call_Launch 0 (Ok 500%N); Call_Hydrate 1 (Err 9%N)].
(** Its retirement is forced and the notification of that panics. *)
Definition retiring_calls : list Call :=
  served_calls ++ [Call_Retire 0 (RetirementMode_Forced {| Lifecycle.stage := DrainStage_FenceEnqueue;
    outstanding_reservations := 0 |}) (Some 13%N) None].

Definition family_start : Family :=
  {| hydrations := 1; residents := 2; metrics := metrics_default; addresses := 1%N; activating := [];
     leases := []; launched := []; trace := [] |}.

(** One hydration at a time, and every counter. *)
Lemma family_keeps_capacity_witness :
  bombay_entity_runtime small_capacity 1%N = Some family_start ∧
  snapshot (metrics (family_run retiring_calls family_start)) = Build_EntityMetrics 1 1 0 1 1 1 1 ∧
  family_ok small_capacity (family_run retiring_calls family_start).
Proof.
  split; [vm_compute; reflexivity|]. split; [vm_compute; reflexivity|].
  apply (family_keeps_capacity small_capacity 1%N family_start retiring_calls). vm_compute. reflexivity.
Defined.
