(* ===== verification/ApplicationWork.v ===== *)
(** * The outcomes of an application and the size of its mailboxes

    [crates/bombay/src/application/work.rs], [crates/bombay/src/application/outcome.rs],
    [crates/bombay/src/application/scope.rs] and
    [crates/bombay/src/application/mailbox.rs]: what an execution returns for its
    work, how the presence of work is projected, how completed work is selected, and
    the effective capacity of a mailbox.

    [Never] is the empty type.  A callable travels as the second part of a pair and
    is dropped by the projections. *)

From S2P Require Import Prelude Endpoint.

(** ** The capacity of a mailbox *)

Definition MAX_CAPACITY : N := N.shiftl 1 30.

(** The [NonZeroUsize] of a [MailboxCapacity], or the rejected minimum. *)
Definition MailboxCapacity : Type := positive.

(** [usize::checked_next_power_of_two] *)
Definition checked_next_power_of_two (n : N) : option N :=
  let power := (2 ^ N.log2_up n)%N in if (power <=? usize_max)%N then Some power else None.

Definition MailboxCapacity_new (minimum : N) : Result MailboxCapacity N :=
  if (minimum =? 0)%N || (MAX_CAPACITY <? minimum)%N then Err minimum
  else
    match power ← checked_next_power_of_two (N.max minimum 2); nonzero power with
    | Some effective => Ok effective
    | None => Err minimum
    end.

Definition MailboxCapacity_default : MailboxCapacity := 1024%positive.

(** A minimum is accepted exactly between 1 and the largest capacity, and the
    capacity is then the least power of two that is at least 2 and the minimum. *)
Lemma mailbox_capacity_is_least minimum :
  match MailboxCapacity_new minimum with
  | Ok capacity =>
      (1 ≤ minimum ≤ MAX_CAPACITY)%N ∧ (minimum ≤ Npos capacity)%N ∧ (2 ≤ Npos capacity ≤ MAX_CAPACITY)%N ∧
      ∃ k, Npos capacity = (2 ^ k)%N ∧ ∀ j, (minimum ≤ 2 ^ j)%N → (2 ≤ 2 ^ j)%N → (k ≤ j)%N
  | Err refused => refused = minimum ∧ (minimum = 0 ∨ MAX_CAPACITY < minimum)%N
  end.
Proof.
  unfold MailboxCapacity_new.
  destruct (N.eqb_spec minimum 0) as [->|Hz]; [split; [done|by left]|]. cbn [orb].
  destruct (N.ltb_spec MAX_CAPACITY minimum) as [Hm|Hm]; [split; [done|by right]|].
  set (n := N.max minimum 2). assert (1 < n)%N as Hn by (unfold n; lia).
  assert (n ≤ 2 ^ 30)%N as Hn' by (unfold n; change MAX_CAPACITY with (2 ^ 30)%N in Hm; lia).
  destruct (N.log2_up_spec n Hn) as [Hlow Hup].
  assert (N.log2_up n ≤ 30)%N as Hk by (apply N.log2_up_le_pow2; lia).
  assert (2 ^ N.log2_up n ≤ 2 ^ 30)%N as Hp by (by apply N.pow_le_mono_r).
  unfold checked_next_power_of_two. rewrite (proj2 (N.leb_le _ _)).
  2: { etrans; [exact Hp|]. by vm_compute. }
  cbn [mbind option_bind]. destruct (2 ^ N.log2_up n)%N as [|capacity] eqn:Hc; [lia|]. cbn [nonzero].
  change MAX_CAPACITY with (2 ^ 30)%N in *. unfold n in *. split_and!; try lia.
  exists (N.log2_up (N.max minimum 2)). split; [done|]. intros j Hj Hj'.
  apply N.log2_up_le_pow2; lia.
Qed.

(** ** The scope of an application *)

Record ApplicationScope := {
  allocations : ApplicationAddresses;
  client_capacity : MailboxCapacity;
  mailbox_capacity : MailboxCapacity
}.

Definition scope_new : ApplicationScope :=
  {| allocations := ApplicationAddresses_new; client_capacity := MailboxCapacity_default;
     mailbox_capacity := MailboxCapacity_default |}.
Definition with_client_capacity (capacity : MailboxCapacity) (self : ApplicationScope) : ApplicationScope :=
  {| allocations := allocations self; client_capacity := capacity; mailbox_capacity := mailbox_capacity self |}.
Definition with_mailbox_capacity (capacity : MailboxCapacity) (self : ApplicationScope) : ApplicationScope :=
  {| allocations := allocations self; client_capacity := client_capacity self; mailbox_capacity := capacity |}.

Record Application {Root Spaces Members Families : Type} := {
  app_root : Root;
  app_spaces : Spaces;
  app_members : Members;
  app_families : Families;
  app_scope : option ApplicationScope
}.
Arguments Application : clear implicits.

Definition with_topology {Root Spaces} (root : Root) (spaces : Spaces) (self : ApplicationScope) :
    Application Root Spaces () () :=
  {| app_root := root; app_spaces := spaces; app_members := (); app_families := (); app_scope := Some self |}.

(** ** The presence of work *)

Variant ApplicationWorkPresence {Work NoWork : Type} := Supplied (work : Work) | Absent (absence : NoWork).
Arguments ApplicationWorkPresence : clear implicits.

Definition presence_supplied {Work} (presence : ApplicationWorkPresence Work Empty_set) : Work :=
  match presence with Supplied work => work | Absent never => match never with end end.
Definition presence_absent {Never : Type} (presence : ApplicationWorkPresence Empty_set Never) : option Empty_set :=
  match presence with Supplied never => match never with end | Absent _ => None end.

(** ** What became of the work *)

Variant ApplicationCleanupError {RecvError JoinError : Type} :=
  | PublicationClosed (error : RecvError)
  | TaskFailed (error : JoinError).
Arguments ApplicationCleanupError : clear implicits.

Section work.
Context {RecvError JoinError : Type}.
Local Abbreviation CleanupResult C := (Result C (ApplicationCleanupError RecvError JoinError)).

Variant WorkOutcome {Inputs Work Output Cleanup StagingInputs PreparedInputs ColdWork : Type} :=
  | Outcome_StagingRejected (inputs : StagingInputs)
  | Outcome_Unstarted (application : Inputs) (work : ColdWork)
  | Outcome_Prepared (inputs : PreparedInputs) (work : Work) (cleanup : CleanupResult Cleanup)
  | Outcome_NotInvoked (work : Work) (startup_error : option RecvError) (cleanup : CleanupResult Cleanup)
  | Outcome_Completed (output : Output) (cleanup : CleanupResult Cleanup)
  | Outcome_Interrupted (cleanup : CleanupResult Cleanup).
Arguments WorkOutcome : clear implicits.

Section outcome.
Context {Inputs Work Output Cleanup StagingInputs PreparedInputs ColdWork : Type}.
Local Abbreviation outcome := (WorkOutcome Inputs Work Output Cleanup StagingInputs PreparedInputs ColdWork).
Implicit Types (self : outcome).

Definition work_output self : option Output :=
  match self with Outcome_Completed output _ => Some output | _ => None end.

Definition cleanup_of self : option (CleanupResult Cleanup) :=
  match self with
  | Outcome_Prepared _ _ cleanup | Outcome_NotInvoked _ _ cleanup | Outcome_Completed _ cleanup
  | Outcome_Interrupted cleanup => Some cleanup
  | Outcome_StagingRejected _ | Outcome_Unstarted _ _ => None
  end.

Definition try_into_completed self : Result (Output * CleanupResult Cleanup) outcome :=
  match self with Outcome_Completed output cleanup => Ok (output, cleanup) | self => Err self end.
End outcome.

(** *** Projections of the presence *)

Section supplied.
Context {Inputs Work Invoke Output Cleanup StagingInputs PreparedInputs : Type}.

Definition into_supplied
    (self : WorkOutcome Inputs (ApplicationWorkPresence (Work * Invoke) Empty_set)
      (ApplicationWorkPresence Output Empty_set) Cleanup StagingInputs PreparedInputs (Work * Invoke)) :
    WorkOutcome Inputs Work Output Cleanup StagingInputs PreparedInputs Work :=
  match self with
  | Outcome_StagingRejected inputs => Outcome_StagingRejected inputs
  | Outcome_Unstarted application (work, _) => Outcome_Unstarted application work
  | Outcome_Prepared inputs work cleanup =>
      let '(work, _) := presence_supplied work in Outcome_Prepared inputs work cleanup
  | Outcome_NotInvoked work startup_error cleanup =>
      let '(work, _) := presence_supplied work in Outcome_NotInvoked work startup_error cleanup
  | Outcome_Completed output cleanup => Outcome_Completed (presence_supplied output) cleanup
  | Outcome_Interrupted cleanup => Outcome_Interrupted cleanup
  end.

End supplied.

Section projections.
Context {Inputs Work Invoke Output Cleanup StagingInputs PreparedInputs : Type}.
Local Abbreviation staged Root Spaces Families W Failure :=
  (Root * Spaces * Families * W * Failure * ApplicationScope)%type.

Definition into_supplied_with_entities {Root Spaces Families Failure}
    (self : WorkOutcome Inputs (ApplicationWorkPresence (Work * Invoke) Empty_set)
      (ApplicationWorkPresence Output Empty_set) Cleanup
      (staged Root Spaces Families (ApplicationWorkPresence Work Empty_set) Failure) PreparedInputs
      (ApplicationWorkPresence (Work * Invoke) Empty_set)) :
    WorkOutcome Inputs Work Output Cleanup (staged Root Spaces Families Work Failure) PreparedInputs Work :=
  into_supplied
    match self with
    | Outcome_StagingRejected (root, spaces, families, work, failure, scope) =>
        Outcome_StagingRejected (root, spaces, families, presence_supplied work, failure, scope)
    | Outcome_Unstarted application work => Outcome_Unstarted application (presence_supplied work)
    | Outcome_Prepared inputs work cleanup => Outcome_Prepared inputs work cleanup
    | Outcome_NotInvoked work startup_error cleanup => Outcome_NotInvoked work startup_error cleanup
    | Outcome_Completed output cleanup => Outcome_Completed output cleanup
    | Outcome_Interrupted cleanup => Outcome_Interrupted cleanup
    end.

Definition into_http
    (self : WorkOutcome Inputs (ApplicationWorkPresence (Work * Invoke) Empty_set)
      (ApplicationWorkPresence Output Empty_set) Cleanup StagingInputs PreparedInputs ()) :
    WorkOutcome Inputs Work Output Cleanup StagingInputs PreparedInputs () :=
  match self with
  | Outcome_StagingRejected inputs => Outcome_StagingRejected inputs
  | Outcome_Unstarted application _ => Outcome_Unstarted application ()
  | Outcome_Prepared inputs work cleanup =>
      let '(work, _) := presence_supplied work in Outcome_Prepared inputs work cleanup
  | Outcome_NotInvoked work startup_error cleanup =>
      let '(work, _) := presence_supplied work in Outcome_NotInvoked work startup_error cleanup
  | Outcome_Completed output cleanup => Outcome_Completed (presence_supplied output) cleanup
  | Outcome_Interrupted cleanup => Outcome_Interrupted cleanup
  end.

Definition absent_work (work : ApplicationWorkPresence (Empty_set * Invoke) ()) : option Empty_set :=
  match work with Absent _ => None | Supplied (never, _) => match never with end end.

Definition into_absent
    (self : WorkOutcome Inputs (ApplicationWorkPresence (Empty_set * Invoke) ())
      (ApplicationWorkPresence Empty_set ()) Cleanup StagingInputs PreparedInputs ()) :
    WorkOutcome Inputs (option Empty_set) (option Empty_set) Cleanup StagingInputs PreparedInputs (option Empty_set) :=
  match self with
  | Outcome_StagingRejected inputs => Outcome_StagingRejected inputs
  | Outcome_Unstarted application _ => Outcome_Unstarted application None
  | Outcome_Prepared inputs work cleanup => Outcome_Prepared inputs (absent_work work) cleanup
  | Outcome_NotInvoked work startup_error cleanup => Outcome_NotInvoked (absent_work work) startup_error cleanup
  | Outcome_Completed output cleanup => Outcome_Completed (presence_absent output) cleanup
  | Outcome_Interrupted cleanup => Outcome_Interrupted cleanup
  end.

Definition into_absent_with_entities {Root Spaces Families Failure}
    (self : WorkOutcome Inputs (ApplicationWorkPresence (Empty_set * Invoke) ())
      (ApplicationWorkPresence Empty_set ()) Cleanup
      (staged Root Spaces Families (ApplicationWorkPresence Empty_set ()) Failure) PreparedInputs
      (ApplicationWorkPresence (Empty_set * Invoke) ())) :
    WorkOutcome Inputs (option Empty_set) (option Empty_set) Cleanup
      (staged Root Spaces Families (option Empty_set) Failure) PreparedInputs (option Empty_set) :=
  match self with
  | Outcome_StagingRejected (root, spaces, families, work, failure, scope) =>
      Outcome_StagingRejected (root, spaces, families, presence_absent work, failure, scope)
  | Outcome_Unstarted application work => Outcome_Unstarted application (absent_work work)
  | Outcome_Prepared inputs work cleanup => Outcome_Prepared inputs (absent_work work) cleanup
  | Outcome_NotInvoked work startup_error cleanup => Outcome_NotInvoked (absent_work work) startup_error cleanup
  | Outcome_Completed output cleanup => Outcome_Completed (presence_absent output) cleanup
  | Outcome_Interrupted cleanup => Outcome_Interrupted cleanup
  end.
End projections.

(** ** The outcome of an application *)

Record ApplicationOutcome {Work Report Root Notifications Families : Type} := {
  outcome_work : Work;
  outcome_root_report : option Report;
  outcome_root : Result Root RecvError;
  outcome_notifications : Result Notifications RecvError;
  outcome_families : Families
}.
Arguments ApplicationOutcome : clear implicits.

Record ApplicationRetirement {Report Root Notifications Families : Type} := {
  retirement_cleanup : CleanupResult ();
  retirement_root_report : option Report;
  retirement_root : Result Root RecvError;
  retirement_notifications : Result Notifications RecvError;
  retirement_families : Families
}.
Arguments ApplicationRetirement : clear implicits.

(** [ApplicationOutcome::try_into_completed] *)
Definition outcome_into_completed {Inputs Work Output Staging Prepared Cold Report Root Notifications Families}
    (self : ApplicationOutcome (WorkOutcome Inputs Work Output () Staging Prepared Cold)
      Report Root Notifications Families) :
    Result (Output * ApplicationRetirement Report Root Notifications Families)
      (ApplicationOutcome (WorkOutcome Inputs Work Output () Staging Prepared Cold)
        Report Root Notifications Families) :=
  match try_into_completed (outcome_work self) with
  | Ok (output, cleanup) =>
      Ok (output, {| retirement_cleanup := cleanup; retirement_root_report := outcome_root_report self;
                     retirement_root := outcome_root self;
                     retirement_notifications := outcome_notifications self;
                     retirement_families := outcome_families self |})
  | Err work =>
      Err {| outcome_work := work; outcome_root_report := outcome_root_report self;
             outcome_root := outcome_root self; outcome_notifications := outcome_notifications self;
             outcome_families := outcome_families self |}
  end.

(** Completed work is selected with every other result; any other outcome comes
    back whole. *)
Lemma completed_selection {Inputs Work Output Staging Prepared Cold Report Root Notifications Families}
    (self : ApplicationOutcome (WorkOutcome Inputs Work Output () Staging Prepared Cold)
      Report Root Notifications Families) :
  match outcome_into_completed self with
  | Ok (output, rest) =>
      work_output (outcome_work self) = Some output ∧
      cleanup_of (outcome_work self) = Some (retirement_cleanup rest) ∧
      retirement_root_report rest = outcome_root_report self ∧ retirement_root rest = outcome_root self ∧
      retirement_notifications rest = outcome_notifications self ∧ retirement_families rest = outcome_families self
  | Err same => same = self ∧ work_output (outcome_work self) = None
  end.
Proof. by destruct self as [[]]. Qed.
End work.
Arguments WorkOutcome {_ _}.
Arguments ApplicationOutcome {_}.
