(* ===== verification/ApplicationExecution.v ===== *)
(** * The execution of an application

    [crates/bombay/src/application/execution.rs]: the execution future of
    [execute_application_with], the cleanup task it spawns, and the receiving future
    of its results.

    The execution future, the actor, the cleanup task and the retirement of families
    that never started run side by side and meet only in one-shot channels.  A [Call]
    is one poll that makes progress, with what the user's composition, binding and
    work answered; the calls arrive in any order, the execution may be dropped or
    unwind at every wait ([Call_Drop]), and a call of an operation that does not wait
    for it changes nothing.  [perform] is [None] where the code is unreachable.  What
    the receiving future returns is read from the channels ([receive]). *)

From S2P Require Import Prelude Assessment Endpoint ApplicationWork.

Class ApplicationTypes := {
  Root : Type; Spaces : Type; Members : Type; Families : Type;
  Work : Type; Output : Type; Actor : Type; StagingFailure : Type;
  Joined : Type; ActorRetirement : Type; NotificationError : Type;
  RecvError : Type; JoinError : Type;
  channel_closed : RecvError;
  task_panicked : JoinError;
  from_local : Joined → option ActorRetirement;
  actor_task_failed : JoinError → ActorRetirement;
  from_joined : Result Joined JoinError → Result () NotificationError → ActorRetirementReport
}.

Section execution.
Context {AT : ApplicationTypes}.

(** ** Data *)

(** A one-shot channel as its receiver sees it. *)
Variant Channel {T : Type} := Open | Sent (value : T) | Gone.
Arguments Channel : clear implicits.

Local Abbreviation App := (Application Root Spaces Members Families).
Local Abbreviation WorkPresence := (ApplicationWorkPresence Work ()).
Local Abbreviation StagingInputs :=
  (Root * Spaces * Families * WorkPresence * StagingFailure * ApplicationScope)%type.
Local Abbreviation PreparedInputs := (Actor * Spaces * ApplicationScope)%type.

Variant ApplicationWorkCustody :=
  | StagingRejected (inputs : StagingInputs)
  | Unstarted (application : App) (work : WorkPresence)
  | Prepared (inputs : PreparedInputs) (work : WorkPresence)
  | NotInvoked (work : WorkPresence) (startup_error : option RecvError)
  | Completed (output : ApplicationWorkPresence Output ()).

Record ActorNotificationReceipts := {
  termination : Result () NotificationError;
  retirement : Result () NotificationError
}.

(** The waits of the execution: for the startup inputs, the actor's startup, the
    binding, the work, and the end of the cleanup. *)
Variant Phase := Acquiring | Starting | Binding | Working | Joining | Ended.

Variant ActorState := Actor_None | Actor_Running | Actor_Ended (joined : Result Joined JoinError).

(** The waits of the cleanup task. *)
Variant Cleanup :=
  | Cleanup_None
  | Cleanup_Actor
  | Cleanup_Permission (joined : Result Joined JoinError) (receipts : ActorNotificationReceipts)
  | Cleanup_Families
  | Cleanup_Ended
  | Cleanup_Failed (error : JoinError).

(** The task that shuts families down whose application did not start. *)
Variant Retiring := Retiring_None | Retiring_Families | Retiring_Ended (result : Result () JoinError).

(** The installed families, wherever they are owned. *)
Variant FamilyState := Families_None | Families_Installed | Families_Shutdown | Families_Dropped.

(** Whose task the receiving future joins; [true] comes with the observation of the
    root's report. *)
Definition CleanupHandle : Type := bool.

Record World := {
  phase : Phase;
  publication : option ApplicationWorkCustody;
  authority : bool;
  exports : bool;
  work_result : Channel ApplicationWorkCustody;
  cleanup_result : Channel CleanupHandle;
  startup : Channel ();
  permission : Channel ();
  joined : Channel ();
  root_result : Channel ActorRetirement;
  notification_result : Channel ActorNotificationReceipts;
  report : option ActorRetirementReport;
  actor : ActorState;
  cleanup : Cleanup;
  retiring : Retiring;
  families : FamilyState;
  invoked : nat;
  returned : option Output
}.

Definition start (application : App) (work : WorkPresence) : World :=
  {| phase := Acquiring; publication := Some (Unstarted application work); authority := false;
     exports := false; work_result := Open; cleanup_result := Open; startup := Open; permission := Open;
     joined := Open; root_result := Open; notification_result := Open; report := None;
     actor := Actor_None; cleanup := Cleanup_None; retiring := Retiring_None; families := Families_None;
     invoked := 0; returned := None |}.

Implicit Types (w : World).

Definition close {T} (c : Channel T) : Channel T := match c with Open => Gone | c => c end.
Definition is_open {T} (c : Channel T) : bool := match c with Open => true | _ => false end.

Definition set_publication (x : option ApplicationWorkCustody) w : World :=
  {| phase := phase w; publication := x; authority := authority w; exports := exports w;
     work_result := work_result w; cleanup_result := cleanup_result w; startup := startup w;
     permission := permission w; joined := joined w; root_result := root_result w;
     notification_result := notification_result w; report := report w; actor := actor w;
     cleanup := cleanup w; retiring := retiring w; families := families w; invoked := invoked w;
     returned := returned w |}.
Definition set_phase (x : Phase) w : World :=
  {| phase := x; publication := publication w; authority := authority w; exports := exports w;
     work_result := work_result w; cleanup_result := cleanup_result w; startup := startup w;
     permission := permission w; joined := joined w; root_result := root_result w;
     notification_result := notification_result w; report := report w; actor := actor w;
     cleanup := cleanup w; retiring := retiring w; families := families w; invoked := invoked w;
     returned := returned w |}.
Definition set_families (x : FamilyState) w : World :=
  {| phase := phase w; publication := publication w; authority := authority w; exports := exports w;
     work_result := work_result w; cleanup_result := cleanup_result w; startup := startup w;
     permission := permission w; joined := joined w; root_result := root_result w;
     notification_result := notification_result w; report := report w; actor := actor w;
     cleanup := cleanup w; retiring := retiring w; families := x; invoked := invoked w;
     returned := returned w |}.
Definition set_exports (x : bool) w : World :=
  {| phase := phase w; publication := publication w; authority := authority w; exports := x;
     work_result := work_result w; cleanup_result := cleanup_result w; startup := startup w;
     permission := permission w; joined := joined w; root_result := root_result w;
     notification_result := notification_result w; report := report w; actor := actor w;
     cleanup := cleanup w; retiring := retiring w; families := families w; invoked := invoked w;
     returned := returned w |}.
Definition set_authority (x : bool) w : World :=
  {| phase := phase w; publication := publication w; authority := x; exports := exports w;
     work_result := work_result w; cleanup_result := cleanup_result w; startup := startup w;
     permission := permission w; joined := joined w; root_result := root_result w;
     notification_result := notification_result w; report := report w; actor := actor w;
     cleanup := cleanup w; retiring := retiring w; families := families w; invoked := invoked w;
     returned := returned w |}.

(** ** The execution future *)

(** The drop of [ApplicationWorkPublication] sends the custody it holds. *)
Definition send_custody w : World :=
  {| phase := phase w; publication := None; authority := authority w; exports := exports w;
     work_result := match publication w with Some custody => Sent custody | None => work_result w end;
     cleanup_result := cleanup_result w; startup := startup w;
     permission := permission w; joined := joined w; root_result := root_result w;
     notification_result := notification_result w; report := report w; actor := actor w;
     cleanup := cleanup w; retiring := retiring w; families := families w; invoked := invoked w;
     returned := returned w |}.

(** The execution is dropped, returns or unwinds at a wait: its senders close, its
    authority over the actor is released; what the cleanup task owns stays. *)
Definition drop_execution w : World :=
  let w := send_custody w in
  let unspawned := match cleanup w with Cleanup_None => true | _ => false end in
  {| phase := Ended; publication := None; authority := false; exports := false;
     work_result := close (work_result w); cleanup_result := close (cleanup_result w);
     startup := startup w; permission := close (permission w);
     joined := if unspawned then close (joined w) else joined w;
     root_result := if unspawned then close (root_result w) else root_result w;
     notification_result :=
       if unspawned then close (notification_result w) else notification_result w;
     report := report w; actor := actor w; cleanup := cleanup w; retiring := retiring w;
     families := match families w, unspawned, retiring w with
                 | Families_Installed, true, Retiring_None => Families_Dropped
                 | families, _, _ => families
                 end;
     invoked := invoked w; returned := returned w |}.

(** How the composition of the members with the root ends. *)
Variant Composition :=
  | Compose_Ok (composed : Actor)
  | Compose_Err (root : Root) (failure : StagingFailure)
  | Compose_Unwinds.

(** The [prepare] of [execute_with_entities_invocation], and whether the execution
    goes on. *)
Definition prepare (allocated : ApplicationAddresses) (composed : Composition) (installs : bool) w :
    option (World * bool) :=
  match publication w with
  | Some (Unstarted application work) =>
      let w := set_publication (Some (NotInvoked work None)) w in
      let scope :=
        match app_scope application with
        | Some scope => scope
        | None => {| allocations := allocated; client_capacity := MailboxCapacity_default;
                     mailbox_capacity := MailboxCapacity_default |}
        end in
      match composed with
      | Compose_Unwinds => Some (drop_execution w, false)
      | Compose_Err root failure =>
          let inputs := (root, app_spaces application, app_families application, work, failure, scope) in
          Some (drop_execution (set_publication (Some (StagingRejected inputs)) w), false)
      | Compose_Ok composed =>
          if installs then
            let inputs := (composed, app_spaces application, scope) in
            Some (set_publication (Some (Prepared inputs work)) (set_families Families_Installed w), true)
          else Some (drop_execution w, false)
      end
  | _ => panic!
  end.

(** The setup unwinds: families with a task for it are shut down. *)
Definition setup_unwinds (retires : bool) w : World :=
  drop_execution
    (if retires then
       {| phase := phase w; publication := publication w; authority := authority w; exports := exports w;
          work_result := work_result w; cleanup_result := Sent false; startup := startup w;
          permission := permission w; joined := joined w; root_result := root_result w;
          notification_result := notification_result w; report := report w; actor := actor w;
          cleanup := cleanup w; retiring := Retiring_Families; families := families w;
          invoked := invoked w; returned := returned w |}
     else w).

(** The prepared actor is handed off, and the cleanup task with everything that
    follows the actor. *)
Definition handoff w : option World :=
  match publication w with
  | Some (Prepared _ work) =>
      Some {| phase := Starting; publication := Some (NotInvoked work None); authority := true;
              exports := exports w; work_result := work_result w; cleanup_result := Sent true;
              startup := startup w; permission := permission w; joined := joined w;
              root_result := root_result w; notification_result := notification_result w;
              report := report w; actor := Actor_Running; cleanup := Cleanup_Actor;
              retiring := retiring w; families := families w; invoked := invoked w;
              returned := returned w |}
  | _ => panic!
  end.

Definition acquired (allocated : ApplicationAddresses) (composed : Composition)
    (installs sets_up retires : bool) w : option World :=
  match prepare allocated composed installs w with
  | None => panic!
  | Some (w, true) => if sets_up then handoff w else Some (setup_unwinds retires w)
  | Some (w, false) => Some w
  end.

(** The permission is sent, the execution waits for the cleanup. *)
Definition permit w : World :=
  {| phase := Joining; publication := publication w; authority := authority w; exports := exports w;
     work_result := work_result w; cleanup_result := cleanup_result w; startup := startup w;
     permission := Sent (); joined := joined w; root_result := root_result w;
     notification_result := notification_result w; report := report w; actor := actor w;
     cleanup := cleanup w; retiring := retiring w; families := families w; invoked := invoked w;
     returned := returned w |}.

(** Supplied work is invoked: its sender waits outside of the publication. *)
Definition invoke w : option World :=
  match publication w with
  | Some (NotInvoked (Supplied _) None) =>
      Some {| phase := Working; publication := None; authority := authority w; exports := exports w;
              work_result := work_result w; cleanup_result := cleanup_result w; startup := startup w;
              permission := permission w; joined := joined w; root_result := root_result w;
              notification_result := notification_result w; report := report w; actor := actor w;
              cleanup := cleanup w; retiring := retiring w; families := families w;
              invoked := S (invoked w); returned := returned w |}
  | Some (NotInvoked (Absent absence) None) =>
      Some (permit (send_custody (set_publication (Some (Completed (Absent absence))) w)))
  | _ => panic!
  end.

Definition started (binds : bool) w : option World :=
  match startup w with
  | Open => Some w
  | Sent _ => if binds then Some (set_phase Binding w) else invoke w
  | Gone =>
      match publication w with
      | Some (NotInvoked work None) =>
          Some (permit (send_custody (set_publication (Some (NotInvoked work (Some channel_closed))) w)))
      | _ => panic!
      end
  end.

(** [Some exporting] when the binding is granted. *)
Definition bound (granted : option bool) w : option World :=
  match granted with
  | Some exporting => invoke (set_exports exporting w)
  | None => Some (permit (send_custody (set_authority false w)))
  end.

Definition work_returned (output : Output) w : World :=
  permit (send_custody
    {| phase := phase w; publication := Some (Completed (Supplied output)); authority := authority w;
       exports := exports w; work_result := work_result w; cleanup_result := cleanup_result w;
       startup := startup w; permission := permission w; joined := joined w;
       root_result := root_result w; notification_result := notification_result w; report := report w;
       actor := actor w; cleanup := cleanup w; retiring := retiring w; families := families w;
       invoked := invoked w; returned := Some output |}).

(** ** The actor and the tasks *)

Definition publish_startup w : World :=
  {| phase := phase w; publication := publication w; authority := authority w; exports := exports w;
     work_result := work_result w; cleanup_result := cleanup_result w;
     startup := match startup w with Open => Sent () | s => s end;
     permission := permission w; joined := joined w; root_result := root_result w;
     notification_result := notification_result w; report := report w; actor := actor w;
     cleanup := cleanup w; retiring := retiring w; families := families w; invoked := invoked w;
     returned := returned w |}.

(** The sender of the startup goes with the actor's task; its environment drops it a
    little earlier, in its retirement. *)
Definition actor_ends (outcome : Result Joined JoinError) w : World :=
  {| phase := phase w; publication := publication w; authority := authority w; exports := exports w;
     work_result := work_result w; cleanup_result := cleanup_result w; startup := close (startup w);
     permission := permission w; joined := joined w; root_result := root_result w;
     notification_result := notification_result w; report := report w; actor := Actor_Ended outcome;
     cleanup := cleanup w; retiring := retiring w; families := families w; invoked := invoked w;
     returned := returned w |}.

(** The actor is joined and its report is published. *)
Definition cleanup_joins (outcome : Result Joined JoinError) (receipts : ActorNotificationReceipts) w : World :=
  {| phase := phase w; publication := publication w; authority := authority w; exports := exports w;
     work_result := work_result w; cleanup_result := cleanup_result w; startup := startup w;
     permission := permission w; joined := joined w; root_result := root_result w;
     notification_result := notification_result w;
     report := Some (from_joined outcome (termination receipts)); actor := actor w;
     cleanup := Cleanup_Permission outcome receipts; retiring := retiring w; families := families w;
     invoked := invoked w; returned := returned w |}.

(** The cleanup task unwinds or is cancelled. *)
Definition cleanup_fails (error : JoinError) w : World :=
  {| phase := phase w; publication := publication w; authority := authority w; exports := exports w;
     work_result := work_result w; cleanup_result := cleanup_result w; startup := startup w;
     permission := permission w; joined := close (joined w); root_result := close (root_result w);
     notification_result := close (notification_result w); report := report w; actor := actor w;
     cleanup := Cleanup_Failed error; retiring := retiring w; families := Families_Dropped;
     invoked := invoked w; returned := returned w |}.

(** The retirement is handed over once the work is over. *)
Definition cleanup_permitted (outcome : Result Joined JoinError) (receipts : ActorNotificationReceipts) w : World :=
  match (match outcome with Ok local => from_local local | Err error => Some (actor_task_failed error) end) with
  | None => cleanup_fails task_panicked w
  | Some retired =>
      {| phase := phase w; publication := publication w; authority := authority w; exports := exports w;
         work_result := work_result w; cleanup_result := cleanup_result w; startup := startup w;
         permission := permission w; joined := joined w; root_result := Sent retired;
         notification_result := Sent receipts; report := report w; actor := actor w;
         cleanup := Cleanup_Families; retiring := retiring w; families := families w;
         invoked := invoked w; returned := returned w |}
  end.

Definition cleanup_ends w : World :=
  {| phase := phase w; publication := publication w; authority := authority w; exports := exports w;
     work_result := work_result w; cleanup_result := cleanup_result w; startup := startup w;
     permission := permission w; joined := Sent (); root_result := root_result w;
     notification_result := notification_result w; report := report w; actor := actor w;
     cleanup := Cleanup_Ended; retiring := retiring w; families := Families_Shutdown;
     invoked := invoked w; returned := returned w |}.

Definition retiring_ends (result : Result () JoinError) w : World :=
  {| phase := phase w; publication := publication w; authority := authority w; exports := exports w;
     work_result := work_result w; cleanup_result := cleanup_result w; startup := startup w;
     permission := permission w; joined := joined w; root_result := root_result w;
     notification_result := notification_result w; report := report w; actor := actor w;
     cleanup := cleanup w; retiring := Retiring_Ended result;
     families := match result with Ok _ => Families_Shutdown | Err _ => Families_Dropped end;
     invoked := invoked w; returned := returned w |}.

(** ** Calls *)

Variant Call :=
  | Call_Acquired (allocated : ApplicationAddresses) (composed : Composition) (installs sets_up retires : bool)
  | Call_Started (binds : bool)
  | Call_Bound (granted : option bool)
  | Call_Returned (output : Output)
  | Call_Exported
  | Call_Joined
  | Call_Drop
  | Call_Publish
  | Call_Ends (outcome : Result Joined JoinError)
  | Call_Cleanup_joins (receipts : ActorNotificationReceipts)
  | Call_Cleanup_permitted
  | Call_Cleanup_ends
  | Call_Cleanup_fails (error : JoinError)
  | Call_Retiring_ends (result : Result () JoinError).

Definition perform (call : Call) w : option World :=
  match call with
  | Call_Acquired allocated composed installs sets_up retires =>
      match phase w with Acquiring => acquired allocated composed installs sets_up retires w | _ => Some w end
  | Call_Started binds => match phase w with Starting => started binds w | _ => Some w end
  | Call_Bound granted => match phase w with Binding => bound granted w | _ => Some w end
  | Call_Returned output => Some match phase w with Working => work_returned output w | _ => w end
  | Call_Exported =>
      Some match phase w with Working | Joining => set_exports false w | _ => w end
  | Call_Joined =>
      Some match phase w with
           | Joining => if exports w || is_open (joined w) then w else drop_execution w
           | _ => w
           end
  | Call_Drop => Some match phase w with Ended => w | _ => drop_execution w end
  | Call_Publish => Some match actor w with Actor_Running => publish_startup w | _ => w end
  | Call_Ends outcome => Some match actor w with Actor_Running => actor_ends outcome w | _ => w end
  | Call_Cleanup_joins receipts =>
      Some match cleanup w, actor w with
           | Cleanup_Actor, Actor_Ended outcome => cleanup_joins outcome receipts w
           | _, _ => w
           end
  | Call_Cleanup_permitted =>
      Some match cleanup w with
           | Cleanup_Permission outcome receipts =>
               if is_open (permission w) then w else cleanup_permitted outcome receipts w
           | _ => w
           end
  | Call_Cleanup_ends => Some match cleanup w with Cleanup_Families => cleanup_ends w | _ => w end
  | Call_Cleanup_fails error =>
      Some match cleanup w with
           | Cleanup_Actor | Cleanup_Permission _ _ | Cleanup_Families => cleanup_fails error w
           | _ => w
           end
  | Call_Retiring_ends result =>
      Some match retiring w with Retiring_Families => retiring_ends result w | _ => w end
  end.

Fixpoint application_run (calls : list Call) w : option World :=
  match calls with
  | [] => Some w
  | call :: calls => w ← perform call w; application_run calls w
  end.

(** ** The receiving future *)

Definition received_result {T} (c : Channel T) : option (Result T RecvError) :=
  match c with Open => None | Sent value => Some (Ok value) | Gone => Some (Err channel_closed) end.

(** The end of the task whose handle was received. *)
Definition joined_task (handle : CleanupHandle) w : option (Result () JoinError) :=
  if handle then
    match cleanup w with Cleanup_Ended => Some (Ok ()) | Cleanup_Failed error => Some (Err error) | _ => None end
  else match retiring w with Retiring_Ended result => Some result | _ => None end.

Definition received_cleanup w :
    option (Result () (ApplicationCleanupError RecvError JoinError) * option ActorRetirementReport) :=
  match received_result (cleanup_result w) with
  | None => None
  | Some (Ok handle) =>
      ended ← joined_task handle w;
      Some (map_err TaskFailed ended, if handle then report w else None)
  | Some (Err error) => Some (Err (PublicationClosed error), None)
  end.

Local Abbreviation ReceivedWork :=
  (WorkOutcome (RecvError := RecvError) (JoinError := JoinError) App WorkPresence
    (ApplicationWorkPresence Output ()) () StagingInputs PreparedInputs WorkPresence).

Definition received_work w : option (ReceivedWork * option ActorRetirementReport) :=
  custody ← received_result (work_result w);
  match custody with
  | Ok (Unstarted application work) => Some (Outcome_Unstarted application work, None)
  | Ok (StagingRejected inputs) => Some (Outcome_StagingRejected inputs, None)
  | custody =>
      received ← received_cleanup w;
      let '(ended, report) := received in
      Some (match custody with
            | Ok (Prepared inputs work) => Outcome_Prepared inputs work ended
            | Ok (NotInvoked work startup_error) => Outcome_NotInvoked work startup_error ended
            | Ok (Completed output) => Outcome_Completed output ended
            | _ => Outcome_Interrupted ended
            end, report)
  end.

(** [None] while the receiving future waits. *)
Definition receive w :
    option (ReceivedWork * option ActorRetirementReport * Result ActorRetirement RecvError *
      Result ActorNotificationReceipts RecvError) :=
  received ← received_work w;
  root ← received_result (root_result w);
  notifications ← received_result (notification_result w);
  Some (received.1, received.2, root, notifications).
End execution.
