(* ===== verification/ApplicationInvariant.v ===== *)
(** * The invariant of an execution

    What holds between any two polls of ApplicationExecution.v: for each wait of the
    execution and of the cleanup task, which channels are open, who owns the actor,
    the families and the work, and what the custody that was sent tells. *)

From S2P Require Import Prelude Assessment Endpoint ApplicationWork ApplicationExecution.

Section laws.
Context {AT : ApplicationTypes}.
Context (application : Application Root Spaces Members Families) (work : ApplicationWorkPresence Work ()).
Implicit Types (w : World).

(** ** What holds between the polls *)

(** No actor was started and no work was invoked. *)
Definition untouched w : Prop := actor w = Actor_None ∧ invoked w = 0 ∧ returned w = None.

Definition same_scope (scope : ApplicationScope) : Prop :=
  ∀ chosen, app_scope application = Some chosen → scope = chosen.

Definition supplied : Prop := ∃ k, work = Supplied k.

(** What the sent custody tells. *)
Definition custody_exact (custody : ApplicationWorkCustody) w : Prop :=
  match custody with
  | Unstarted a k => a = application ∧ k = work ∧ untouched w
  | StagingRejected (_, spaces, families, k, _, scope) =>
      spaces = app_spaces application ∧ families = app_families application ∧ k = work ∧
      same_scope scope ∧ untouched w
  | Prepared (_, spaces, scope) k =>
      spaces = app_spaces application ∧ k = work ∧ same_scope scope ∧ untouched w
  | NotInvoked k startup_error =>
      k = work ∧ invoked w = 0 ∧ returned w = None ∧
      (startup_error ≠ None → startup w = Gone ∧ ∃ outcome, actor w = Actor_Ended outcome)
  | Completed (Supplied output) => supplied ∧ invoked w = 1 ∧ returned w = Some output
  | Completed (Absent absence) => work = Absent absence ∧ invoked w = 0 ∧ startup w = Sent ()
  end.
Definition work_exact w : Prop :=
  match work_result w with
  | Open => True
  | Sent custody => custody_exact custody w
  | Gone => supplied ∧ invoked w = 1 ∧ returned w = None
  end.

Definition phase_ok w : Prop :=
  match phase w with
  | Acquiring =>
      publication w = Some (Unstarted application work) ∧ work_result w = Open ∧ cleanup_result w = Open ∧
      permission w = Open ∧ startup w = Open ∧ joined w = Open ∧ root_result w = Open ∧
      notification_result w = Open ∧ cleanup w = Cleanup_None ∧ retiring w = Retiring_None ∧
      families w = Families_None ∧ invoked w = 0 ∧ returned w = None
  | Starting =>
      publication w = Some (NotInvoked work None) ∧ work_result w = Open ∧ permission w = Open ∧
      authority w = true ∧ cleanup w ≠ Cleanup_None ∧ invoked w = 0 ∧ returned w = None
  | Binding =>
      publication w = Some (NotInvoked work None) ∧ work_result w = Open ∧ permission w = Open ∧
      authority w = true ∧ cleanup w ≠ Cleanup_None ∧ invoked w = 0 ∧ returned w = None ∧ startup w = Sent ()
  | Working =>
      publication w = None ∧ work_result w = Open ∧ permission w = Open ∧ authority w = true ∧
      cleanup w ≠ Cleanup_None ∧ supplied ∧ invoked w = 1 ∧ returned w = None
  | Joining =>
      publication w = None ∧ work_result w ≠ Open ∧ permission w ≠ Open ∧ cleanup w ≠ Cleanup_None
  | Ended =>
      publication w = None ∧ work_result w ≠ Open ∧ permission w ≠ Open ∧ authority w = false ∧
      cleanup_result w ≠ Open
  end.

Definition actor_ended w : Prop := ∃ outcome, actor w = Actor_Ended outcome.

Definition cleanup_ok w : Prop :=
  match cleanup w with
  | Cleanup_None =>
      actor w = Actor_None ∧ report w = None ∧ cleanup_result w ≠ Sent true ∧
      (phase w = Acquiring ∨
       phase w = Ended ∧ root_result w = Gone ∧ notification_result w = Gone ∧ joined w = Gone)
  | Cleanup_Actor =>
      actor w ≠ Actor_None ∧ root_result w = Open ∧ notification_result w = Open ∧ joined w = Open ∧
      families w = Families_Installed ∧ report w = None
  | Cleanup_Permission outcome receipts =>
      actor w = Actor_Ended outcome ∧ root_result w = Open ∧ notification_result w = Open ∧ joined w = Open ∧
      families w = Families_Installed ∧ report w = Some (from_joined outcome (termination receipts))
  | Cleanup_Families =>
      actor_ended w ∧ root_result w ≠ Open ∧ root_result w ≠ Gone ∧ notification_result w ≠ Open ∧
      notification_result w ≠ Gone ∧ joined w = Open ∧
      families w = Families_Installed ∧ permission w ≠ Open ∧ report w ≠ None
  | Cleanup_Ended =>
      actor_ended w ∧ root_result w ≠ Open ∧ root_result w ≠ Gone ∧ notification_result w ≠ Open ∧
      notification_result w ≠ Gone ∧ joined w = Sent () ∧
      families w = Families_Shutdown ∧ permission w ≠ Open ∧ report w ≠ None
  | Cleanup_Failed _ =>
      actor w ≠ Actor_None ∧ root_result w ≠ Open ∧ notification_result w ≠ Open ∧ joined w = Gone ∧
      families w = Families_Dropped ∧
      (root_result w ≠ Gone → actor_ended w ∧ permission w ≠ Open) ∧ (report w ≠ None → actor_ended w)
  end.

Definition started_ok w : Prop :=
  match cleanup w with Cleanup_None => True | _ => cleanup_result w = Sent true ∧ retiring w = Retiring_None end.

Definition retiring_ok w : Prop :=
  match retiring w with
  | Retiring_None => cleanup_result w ≠ Sent false
  | Retiring_Families =>
      cleanup w = Cleanup_None ∧ cleanup_result w = Sent false ∧ phase w = Ended ∧ families w = Families_Installed
  | Retiring_Ended result =>
      cleanup w = Cleanup_None ∧ cleanup_result w = Sent false ∧ phase w = Ended ∧
      families w = (match result with Ok _ => Families_Shutdown | Err _ => Families_Dropped end)
  end.

Definition startup_ok w : Prop :=
  match startup w with
  | Open => ∀ outcome, actor w ≠ Actor_Ended outcome
  | Sent _ => actor w ≠ Actor_None
  | Gone => actor_ended w
  end.

Record world_ok w : Prop := {
  ok_work : work_exact w;
  ok_phase : phase_ok w;
  ok_cleanup : cleanup_ok w;
  ok_started : started_ok w;
  ok_retiring : retiring_ok w;
  ok_startup : startup_ok w
}.

(** ** Preservation *)

(** The clauses of [world_ok] over the fields of a world. *)
Ltac clauses :=
  unfold work_exact, custody_exact, phase_ok, cleanup_ok, started_ok, retiring_ok, startup_ok, untouched,
    actor_ended in *; cbn in *; unfold close, is_open in *; cbn in *.
Ltac open_world w :=
  destruct w as [ph pub auth ex wr cr st pe jo ro no re ac cl rt fa inv ret];
  intros [Hk Hp Hc Hs Hr Hu]; clauses.
Ltac goal_cases :=
  repeat match goal with |- context [match ?x with _ => _ end] => is_var x; destruct x end.
Ltac close_world := split; clauses; goal_cases; try solve [naive_solver].

Lemma start_ok : world_ok (start application work).
Proof. close_world. Qed.

Lemma publish_ok w : actor w = Actor_Running → world_ok w → world_ok (publish_startup w).
Proof. intros Ha. open_world w. subst ac. close_world. Qed.

Lemma ends_ok outcome w : actor w = Actor_Running → world_ok w → world_ok (actor_ends outcome w).
Proof. intros Ha. open_world w. subst ac. close_world. Qed.

Lemma cleanup_joins_ok outcome receipts w :
  actor w = Actor_Ended outcome → cleanup w = Cleanup_Actor → world_ok w →
  world_ok (cleanup_joins outcome receipts w).
Proof. intros Ha Hl. open_world w. subst ac cl. close_world. Qed.

Lemma cleanup_fails_ok error w :
  match cleanup w with Cleanup_None | Cleanup_Ended | Cleanup_Failed _ => False | _ => True end →
  world_ok w → world_ok (cleanup_fails error w).
Proof. intros Hl. open_world w. destruct cl; try done; close_world. Qed.

Lemma cleanup_permitted_ok outcome receipts w :
  cleanup w = Cleanup_Permission outcome receipts → permission w ≠ Open → world_ok w →
  world_ok (cleanup_permitted outcome receipts w).
Proof.
  intros Hl Hopen Hw. unfold cleanup_permitted.
  destruct (match outcome with Ok _ => _ | Err _ => _ end) as [retired|].
  - revert Hw. open_world w. subst cl. close_world.
  - apply cleanup_fails_ok; [by rewrite Hl|done].
Qed.

Lemma cleanup_ends_ok w : cleanup w = Cleanup_Families → world_ok w → world_ok (cleanup_ends w).
Proof. intros Hl. open_world w. subst cl. close_world. Qed.

Lemma retiring_ends_ok result w :
  retiring w = Retiring_Families → world_ok w → world_ok (retiring_ends result w).
Proof. intros Hrun. open_world w. subst rt. close_world. Qed.

(** The execution goes away at a wait. *)
Lemma drop_ok w : phase w ≠ Ended → world_ok w → world_ok (drop_execution w).
Proof. intros He. open_world w. destruct ph; try done; destruct_and!; subst; close_world. Qed.

Lemma chosen_scope allocated :
  same_scope match app_scope application with
    | Some scope => scope
    | None => {| allocations := allocated; client_capacity := MailboxCapacity_default;
                 mailbox_capacity := MailboxCapacity_default |}
    end.
Proof. intros scope Hs. by rewrite Hs. Qed.

Lemma application_acquired_ok allocated composed installs sets_up retires w :
  phase w = Acquiring → world_ok w →
  ∃ w', acquired allocated composed installs sets_up retires w = Some w' ∧ world_ok w'.
Proof.
  intros Hph. pose proof (chosen_scope allocated) as Hsc. open_world w. subst ph. destruct_and!. subst. cbn in *.
  destruct composed, installs, sets_up, retires; (eexists; split; [reflexivity|]; close_world).
Qed.

Lemma exports_ok exporting w : world_ok w → world_ok (set_exports exporting w).
Proof. by intros []. Qed.

Lemma invoke_ok w :
  phase w = Starting ∨ phase w = Binding → startup w = Sent () → world_ok w →
  ∃ w', invoke w = Some w' ∧ world_ok w'.
Proof.
  intros Hph Hst. assert (∀ k, work = Supplied k → supplied) as Hsup by (intros k ->; by eexists).
  open_world w. subst st.
  assert (pub = Some (NotInvoked work None) ∧ wr = Open ∧ pe = Open ∧ auth = true ∧ cl ≠ Cleanup_None ∧
    inv = 0 ∧ ret = None) as (-> & -> & -> & -> & Hcl & -> & ->) by (destruct Hph as [-> | ->]; naive_solver).
  clear Hp. unfold invoke. cbn.
  destruct work as [k|[]] eqn:Hw; (eexists; split; [reflexivity|]; specialize (Hsup) ; clear Hph);
    (split; clauses; try (destruct cl; naive_solver); try (destruct rt; naive_solver); eauto 10).
Qed.

Lemma started_step_ok binds w :
  phase w = Starting → world_ok w → ∃ w', started binds w = Some w' ∧ world_ok w'.
Proof.
  intros Hph Hw. unfold started. destruct (startup w) as [|[]|] eqn:Hst.
  - by exists w.
  - destruct binds; [|apply invoke_ok; by try left]. eexists. split; [done|].
    revert Hw. open_world w. subst ph st. close_world.
  - revert Hw. open_world w. subst ph st. destruct_and!. subst. cbn. eexists. split; [reflexivity|].
    close_world.
Qed.

Lemma bound_ok granted w :
  phase w = Binding → world_ok w → ∃ w', bound granted w = Some w' ∧ world_ok w'.
Proof.
  intros Hph Hw. assert (startup w = Sent ()) as Hst
    by (pose proof (ok_phase _ Hw) as Hp; unfold phase_ok in Hp; rewrite Hph in Hp; naive_solver).
  destruct granted as [exporting|]; cbn.
  - apply invoke_ok; [by right|done|by apply exports_ok].
  - eexists. split; [done|]. revert Hw. open_world w. subst ph st. destruct_and!. subst. close_world.
Qed.

Lemma returned_ok output w : phase w = Working → world_ok w → world_ok (work_returned output w).
Proof. intros Hph. open_world w. subst ph. destruct_and!. subst. close_world. Qed.

Lemma application_perform_ok call w : world_ok w → ∃ w', perform call w = Some w' ∧ world_ok w'.
Proof.
  intros Hw. destruct call; cbn.
  - destruct (phase w) eqn:Hp; try (by exists w). by apply application_acquired_ok.
  - destruct (phase w) eqn:Hp; try (by exists w). by apply started_step_ok.
  - destruct (phase w) eqn:Hp; try (by exists w). by apply bound_ok.
  - eexists. split; [done|]. destruct (phase w) eqn:Hp; try done. by apply returned_ok.
  - eexists. split; [done|]. destruct (phase w) eqn:Hp; try done; by apply exports_ok.
  - eexists. split; [done|]. destruct (phase w) eqn:Hp; try done. destruct (_ || _); [done|].
    apply drop_ok; [congruence|done].
  - eexists. split; [done|]. destruct (phase w) eqn:Hp; try done; (apply drop_ok; [congruence|done]).
  - eexists. split; [done|]. destruct (actor w) eqn:Ha; try done. by apply publish_ok.
  - eexists. split; [done|]. destruct (actor w) eqn:Ha; try done. by apply ends_ok.
  - eexists. split; [done|]. destruct (cleanup w) eqn:Hl, (actor w) eqn:Ha; try done. by apply cleanup_joins_ok.
  - eexists. split; [done|]. destruct (cleanup w) eqn:Hl; try done. destruct (permission w) eqn:Hpe; cbn; try done;
      (apply cleanup_permitted_ok; [done|congruence|done]).
  - eexists. split; [done|]. destruct (cleanup w) eqn:Hl; try done. by apply cleanup_ends_ok.
  - eexists. split; [done|]. destruct (cleanup w) eqn:Hl; try done; (apply cleanup_fails_ok; [by rewrite Hl|done]).
  - eexists. split; [done|]. destruct (retiring w) eqn:Hr; try done. by apply retiring_ends_ok.
Qed.

Lemma application_run_ok calls w : world_ok w → ∃ w', application_run calls w = Some w' ∧ world_ok w'.
Proof.
  revert w. induction calls as [|call calls IH]; intros w Hw; [by exists w|]. cbn.
  destruct (application_perform_ok call w Hw) as (w' & -> & Hw'). by apply IH.
Qed.
End laws.

Arguments ok_work {_ _ _ _} _.
Arguments ok_phase {_ _ _ _} _.
Arguments ok_cleanup {_ _ _ _} _.
Arguments ok_started {_ _ _ _} _.
Arguments ok_retiring {_ _ _ _} _.
Arguments ok_startup {_ _ _ _} _.
