(* ===== verification/ApplicationLaw.v ===== *)
(** * The laws of an execution

    What the receiving future of ApplicationExecution.v says about the work and the
    actor is exact in every interleaving of the execution, the actor and the cleanup
    task, no [unreachable!] is hit, and nobody waits for a future that is gone. *)

From S2P Require Import Prelude Assessment Endpoint ApplicationWork ApplicationExecution ApplicationInvariant.

Section laws.
Context {AT : ApplicationTypes}.
Context (application : Application Root Spaces Members Families) (work : ApplicationWorkPresence Work ()).
Implicit Types (w : World).
Local Abbreviation world_ok := (world_ok application work).
Local Abbreviation custody_exact := (custody_exact application work).
Local Abbreviation supplied := (supplied work).

(** ** The laws *)

Definition outcome_exact
    (outcome : WorkOutcome (RecvError := RecvError) (JoinError := JoinError)
      (Application Root Spaces Members Families) (ApplicationWorkPresence Work ())
      (ApplicationWorkPresence Output ()) ()
      (Root * Spaces * Families * ApplicationWorkPresence Work () * StagingFailure * ApplicationScope)
      (Actor * Spaces * ApplicationScope) (ApplicationWorkPresence Work ())) w : Prop :=
  match outcome with
  | Outcome_Unstarted a k => custody_exact (Unstarted a k) w
  | Outcome_StagingRejected inputs => custody_exact (StagingRejected inputs) w
  | Outcome_Prepared inputs k _ => custody_exact (Prepared inputs k) w
  | Outcome_NotInvoked k startup_error _ => custody_exact (NotInvoked k startup_error) w
  | Outcome_Completed output _ => custody_exact (Completed output) w
  | Outcome_Interrupted _ => supplied ∧ invoked w = 1 ∧ returned w = None
  end.

Lemma reported_ended w : world_ok w → report w ≠ None → actor_ended w.
Proof.
  intros [_ _ Hc _ _ _]. unfold cleanup_ok in Hc. destruct (cleanup w); destruct_and!; try done.
  by eexists.
Qed.

Lemma received_cleanup_report w ended r : received_cleanup w = Some (ended, r) → r = None ∨ r = report w.
Proof.
  unfold received_cleanup, received_result. destruct (cleanup_result w) as [|handle|]; [done|..].
  - intros Hr. run_option. destruct handle; [by right|by left].
  - intros Hr. run_option. by left.
Qed.

Lemma received_work_exact w outcome r :
  world_ok w → received_work w = Some (outcome, r) → outcome_exact outcome w ∧ (r ≠ None → actor_ended w).
Proof.
  intros Hw Hr. pose proof (ok_work Hw) as Hk. unfold work_exact in Hk.
  assert (∀ ended, received_cleanup w = Some (ended, r) → r ≠ None → actor_ended w) as Hrep.
  { intros ended [-> | ->]%received_cleanup_report; [done|]. by apply reported_ended. }
  unfold received_work, received_result in Hr.
  destruct (work_result w) as [|[]|]; cbn in Hr; run_option; try done;
    try (destruct (received_cleanup w) as [[ended r']|] eqn:Hc; cbn in Hr; [|done]);
    simplify_eq; (split; [exact Hk|]); first [by intros [] | by eapply Hrep].
Qed.

(** The retirement is handed over only after the work. *)
Lemma root_after_work w retired :
  world_ok w → root_result w = Sent retired → actor_ended w ∧ (phase w = Joining ∨ phase w = Ended).
Proof.
  intros [_ Hp Hc _ _ _] Hr. unfold phase_ok, cleanup_ok, actor_ended in *.
  assert ((∃ outcome, actor w = Actor_Ended outcome) ∧ permission w ≠ Open) as [Ha Hpe]
    by (rewrite Hr in *; destruct (cleanup w), (phase w); naive_solver).
  split; [exact Ha|]. destruct (phase w); destruct_and?; first [done | by left | by right].
Qed.

(** C21: No [unreachable!] of an execution is hit, in any interleaving of the
    execution, the actor and the cleanup task and wherever the execution is dropped
    or unwinds, and what the receiving future then returns is exact: the work is
    given back with the original inputs exactly as far as they were not consumed,
    completed work is what the one invocation returned, and an interruption means
    that the work was invoked and did not return.  The root's report and retirement
    are those of an actor that ended, and the retirement is not handed over before
    the work is over. *)
Theorem application_outcome_is_exact calls :
  ∃ w, application_run calls (start application work) = Some w ∧ invoked w ≤ 1 ∧
    (∀ outcome report root notifications,
      receive w = Some (outcome, report, root, notifications) →
      outcome_exact outcome w ∧ (report ≠ None → actor_ended w)) ∧
    (∀ retired, root_result w = Sent retired → actor_ended w ∧ (phase w = Joining ∨ phase w = Ended)).
Proof.
  destruct (application_run_ok application work calls _ (start_ok application work)) as (w & -> & Hw). exists w. split_and!; [done| | |].
  - pose proof (ok_phase Hw) as Hp. pose proof (ok_work Hw) as Hk. unfold phase_ok, work_exact, untouched in *.
    destruct (phase w); [lia|lia|lia|lia|..]; destruct_and!; destruct (work_result w) as [|[]|]; try done;
      unfold custody_exact, untouched in *; repeat case_match; destruct_and!; lia.
  - unfold receive. intros outcome report root notifications Hr. run_option.
    destruct x as [outcome' report']. cbn in *. simplify_eq. by apply received_work_exact.
  - intros retired. by apply root_after_work.
Qed.

Definition cleanup_running w : Prop :=
  match cleanup w with Cleanup_None | Cleanup_Ended | Cleanup_Failed _ => False | _ => True end.

Lemma no_actor_no_cleanup w : world_ok w → actor w = Actor_None → cleanup w = Cleanup_None.
Proof.
  intros [_ _ Hc _ _ _] Ha. unfold cleanup_ok, actor_ended in Hc. rewrite Ha in Hc.
  destruct (cleanup w); destruct_and?; try done; by match goal with H : ∃ _, _ |- _ => destruct H as [? [=]] end.
Qed.

Lemma settled_channels w :
  world_ok w → phase w = Ended → ¬ cleanup_running w →
  work_result w ≠ Open ∧ cleanup_result w ≠ Open ∧ root_result w ≠ Open ∧ notification_result w ≠ Open.
Proof.
  intros [_ Hp Hc _ _ _] Hph Hn. unfold phase_ok, cleanup_ok, cleanup_running in *. rewrite Hph in *.
  destruct (cleanup w); destruct_and?; destruct_or?; destruct_and?; split_and!; try done; congruence.
Qed.

Lemma settled_cleanup w :
  world_ok w → phase w = Ended → ¬ cleanup_running w → retiring w ≠ Retiring_Families →
  ∃ ended r, received_cleanup w = Some (ended, r) ∧ (cleanup w = Cleanup_Ended → r = report w).
Proof.
  intros Hw Hph Hn Hr. destruct (settled_channels w Hw Hph Hn) as (_ & Hcr & _).
  destruct Hw as [_ _ Hc Hs Hrt _]. unfold received_cleanup, received_result, joined_task.
  unfold cleanup_ok, started_ok, retiring_ok, cleanup_running in *.
  destruct (cleanup_result w) as [|[]|] eqn:He; [done|..]; cbn.
  - destruct (cleanup w) eqn:Hl; try naive_solver; cbn; by eexists _, _.
  - destruct (retiring w) eqn:Hw; try naive_solver. cbn. eexists _, _. split; [done|]. intros Hl.
    by rewrite Hl in *; destruct_and!.
  - eexists _, _. split; [done|]. intros Hl. by rewrite Hl in *; destruct_and!.
Qed.

Lemma settled_received w :
  world_ok w → phase w = Ended → ¬ cleanup_running w → retiring w ≠ Retiring_Families →
  ∃ outcome report root notifications,
    receive w = Some (outcome, report, root, notifications) ∧
    (cleanup w = Cleanup_Ended → ∃ retired receipts,
      root = Ok retired ∧ notifications = Ok receipts ∧ report ≠ None).
Proof.
  intros Hw Hph Hn Hr. destruct (settled_channels w Hw Hph Hn) as (Hwr & _ & Hro & Hno).
  destruct (settled_cleanup w Hw Hph Hn Hr) as (ended & r & Hcl & Hrep).
  pose proof (ok_cleanup Hw) as Hc. pose proof (ok_work Hw) as Hk.
  assert (∃ outcome, received_work w = Some (outcome, r) ∨
    received_work w = Some (outcome, None) ∧ cleanup w ≠ Cleanup_Ended) as (outcome & Hrw).
  { assert (actor w = Actor_None → cleanup w ≠ Cleanup_Ended) as Hnone
      by (intros Ha; by rewrite (no_actor_no_cleanup w Hw Ha)).
    unfold received_work, received_result. rewrite Hcl. unfold work_exact, untouched in Hk.
    destruct (work_result w) as [|[inputs| | | |]|]; cbn; [done| | |by eexists; left..].
    - destruct inputs as [[[[[]]]]]. eexists. right. split; [done|]. apply Hnone, Hk.
    - eexists. right. split; [done|]. apply Hnone, Hk. }
  assert (∃ root, received_result (root_result w) = Some root ∧
    (cleanup w = Cleanup_Ended → ∃ retired, root = Ok retired)) as (root & Hroot & Hroot').
  { unfold received_result. unfold cleanup_ok in Hc. destruct (root_result w); [done|..]; eexists; (split; [done|]);
      intros Hl; [by eexists|]. rewrite Hl in Hc. naive_solver. }
  assert (∃ notes, received_result (notification_result w) = Some notes ∧
    (cleanup w = Cleanup_Ended → ∃ receipts, notes = Ok receipts)) as (notes & Hnotes & Hnotes').
  { unfold received_result. unfold cleanup_ok in Hc. destruct (notification_result w); [done|..]; eexists;
      (split; [done|]); intros Hl; [by eexists|]. rewrite Hl in Hc. naive_solver. }
  unfold receive. rewrite Hroot, Hnotes. destruct Hrw as [-> | [-> He]]; cbn;
    (eexists _, _, _, _; split; [done|]; intros Hl); [|done].
  destruct (Hroot' Hl) as [retired ->], (Hnotes' Hl) as [receipts ->]. exists retired, receipts.
  split_and!; [done..|]. rewrite (Hrep Hl). unfold cleanup_ok in Hc. rewrite Hl in Hc. naive_solver.
Qed.

(** C22: Nobody waits in vain.  An execution waits for the startup only while the
    actor runs, and for the cleanup only while the cleanup task runs; the task
    waits for the permission only while the work is not over.  Once the execution is
    gone, however it went, its authority over the actor is released, and when the
    tasks have ended the receiving future returns: with the retirement, its
    receipts and the report if the cleanup task ended by itself. *)
Theorem application_settles calls w :
  application_run calls (start application work) = Some w →
  (phase w = Starting → startup w = Open → actor w = Actor_Running) ∧
  (phase w = Joining → joined w = Open → cleanup_running w) ∧
  (permission w = Open → phase w ≠ Joining ∧ phase w ≠ Ended) ∧
  (phase w = Ended → authority w = false ∧
    (¬ cleanup_running w → retiring w ≠ Retiring_Families →
      ∃ outcome report root notifications,
        receive w = Some (outcome, report, root, notifications) ∧
        (cleanup w = Cleanup_Ended → ∃ retired receipts,
          root = Ok retired ∧ notifications = Ok receipts ∧ report ≠ None))).
Proof.
  intros Hrun. destruct (application_run_ok application work calls _ (start_ok application work)) as (w' & Hw' & Hw).
  assert (w' = w) as -> by congruence. clear Hrun Hw'.
  pose proof (ok_phase Hw) as Hp. pose proof (ok_cleanup Hw) as Hc. pose proof (ok_startup Hw) as Hs.
  unfold phase_ok, cleanup_ok, startup_ok, cleanup_running in *. split_and!.
  - intros Hph Hst. rewrite Hph in Hp. rewrite Hst in Hs. destruct (actor w) as [| |outcome] eqn:Ha;
      [|done|by destruct (Hs outcome)].
    exfalso. destruct Hp as (_ & _ & _ & _ & Hl & _). apply Hl, (no_actor_no_cleanup w Hw Ha).
  - intros Hph Hj. rewrite Hph in Hp. destruct Hp as (_ & _ & _ & Hl). rewrite Hj in Hc.
    destruct (cleanup w); destruct_and?; done.
  - intros Hpe. rewrite Hpe in Hp. split; intros Hph; rewrite Hph in Hp; destruct_and!; done.
  - intros Hph. rewrite Hph in Hp. split; [by destruct_and!|]. intros Hn Hr. by apply settled_received.
Qed.
End laws.
