(* ===== verification/ApplicationExample.v ===== *)
(** * Concrete executions

    An application on numbers: one execution to its end, and one that is dropped
    while its work runs. *)

From S2P Require Import Prelude Assessment Endpoint ApplicationWork ApplicationExecution ApplicationInvariant ApplicationLaw.

#[export] Instance counted_application : ApplicationTypes := {|
  Root := N; Spaces := N; Members := N; Families := N; Work := N; Output := N; Actor := N;
  StagingFailure := N; Joined := N; ActorRetirement := N; NotificationError := N; RecvError := ();
  JoinError := N; channel_closed := (); task_panicked := 99%N;
  from_local joined := Some joined;
  actor_task_failed error := error;
  from_joined _ _ := Report_new Established NoFailuresFound
|}.

Definition small_application : Application N N N N :=
  {| app_root := 1%N; app_spaces := 2%N; app_members := 3%N; app_families := 4%N; app_scope := None |}.
Definition small_work : ApplicationWorkPresence N () := Supplied 5%N.
Definition both_sent : ActorNotificationReceipts := {| termination := Ok (); retirement := Ok () |}.

Definition working_calls : list Call := [
  Call_Acquired 1%N (Compose_Ok 10%N) true true true; Call_Publish; Call_Started true; Call_Bound (Some true)].
Definition cleaning_calls : list Call := [
  Call_Ends (Ok 20%N); Call_Cleanup_joins both_sent; Call_Cleanup_permitted; Call_Cleanup_ends].
Definition finished_calls : list Call :=
  working_calls ++ Call_Returned 7%N :: cleaning_calls ++ [Call_Exported; Call_Joined].
Definition dropped_calls : list Call := working_calls ++ Call_Drop :: cleaning_calls.

Definition finished_world : World := Eval vm_compute in
  default (start small_application small_work) (application_run finished_calls (start small_application small_work)).

(** The output of the work, and a cleanup that follows the dropped execution. *)
Lemma finished_result :
  receive <$> application_run finished_calls (start small_application small_work) =
    Some (Some (Outcome_Completed (Supplied 7%N) (Ok ()), Some (Report_new Established NoFailuresFound),
      Ok 20%N, Ok both_sent)) ∧
  receive <$> application_run dropped_calls (start small_application small_work) =
    Some (Some (Outcome_Interrupted (Ok ()), Some (Report_new Established NoFailuresFound),
      Ok 20%N, Ok both_sent)).
Proof. split; vm_compute; reflexivity. Qed.

Lemma application_settles_witness :
  application_run finished_calls (start small_application small_work) = Some finished_world ∧
  phase finished_world = Ended ∧
  ∃ outcome report root notifications,
    receive finished_world = Some (outcome, report, root, notifications) ∧ root = Ok 20%N.
Proof.
  assert (application_run finished_calls (start small_application small_work) = Some finished_world) as Hrun
    by (vm_compute; reflexivity).
  split; [exact Hrun|]. split; [reflexivity|].
  destruct (application_settles (AT := counted_application) small_application small_work finished_calls finished_world Hrun)
    as (_ & _ & _ & Hend).
  destruct (Hend eq_refl) as [_ Hs].
  destruct (Hs (λ H, H) ltac:(discriminate)) as (outcome & report & root & notifications & Hr & _).
  exists outcome, report, root, notifications. split; [exact Hr|].
  assert (receive finished_world = Some (Outcome_Completed (Supplied 7%N) (Ok ()),
    Some (Report_new Established NoFailuresFound), Ok 20%N, Ok both_sent)) as Hc by (vm_compute; reflexivity).
  rewrite Hc in Hr. by injection Hr as _ _ <- _.
Defined.
