(* ===== verification/ApplicationInterface.v ===== *)
(** * The handles of a running application

    [crates/bombay/src/application/interface.rs]: the external actors, clients and
    senders that an [ApplicationHandle] establishes from the address source of its
    application, the association of an exported actor, and the request that shuts the
    root down ([ApplicationLifecycle]).

    Clones of a handle share the address source and the root, so their calls are one
    sequence on the host's state and the counter ([handle_run]); what actors allocate
    in between is a call of its own.  The reply mailbox, its observation and entity
    references are parameters.  Families, retirement observations and the cleanup of
    an export are read through other components. *)

From S2P Require Import Prelude Driver Host LocalIngress LocalEnvironment Endpoint ApplicationWork.

(** ** The host *)

(** The reply mailboxes: a channel with its capacity, and one cell of admission for
    each mailbox; [complete] of the observe module may resume the panic of a waker. *)
Class ExternalHost `{!LocalTypes} (R : Type) := {
  TerminationPublisher : Type;
  reply_channel : MailboxCapacity → World → World * (ControlSender * Owner * MailboxRef * Consumer);
  reply_admission : MailboxRef → Communication World Owner Consumer Empty_set (User Addr R);
  termination_pair : World → World * (TerminationPublisher * TerminationObservation);
  complete_normal : TerminationPublisher → Async Panic World ()
}.

(** [EntityRef::admit_from]. *)
Class EntityTarget `{!LocalTypes} (E M Refusal : Type) :=
  admit_from : E → Addr → M → Async Panic World (Result () Refusal).

Section interface.
Context {TY : LocalTypes} {M Publisher : Type} {EH : EndpointHost M Publisher}.
Context {R : Type} {XH : ExternalHost R}.
Context {E Refusal : Type} `{!EntityTarget E M Refusal}.
Context (addr : MailAddr → Addr).
Implicit Types (w : World) (next : ApplicationAddresses) (address : MailAddr) (capacity : MailboxCapacity).

(** ** Data *)

(** [EstablishedRecipient]: the reference [ExtractLocalEndpoint] finds in it, with
    the application whose addresses it was launched with. *)
Record EstablishedRecipient := {
  established : ActorRef;
  application : option nat
}.

Variant ExternalActorError := Allocation (reason : AllocationRejection).
Variant ExportError := UnownedTarget | Export_Endpoint (cause : ExternalActorError).

Record ExternalActor := {
  ext_address : MailAddr;
  ext_recipient : EstablishedRecipient;
  ext_mailbox : MailboxRef;
  ext_control_liveness : ControlSender;
  ext_receiver : Consumer;
  ext_termination : option TerminationPublisher
}.

(** The targets [ExternalTarget] seals. *)
Variant Target := Target_Actor (recipient : EstablishedRecipient) | Target_Entity (entity : E).

Record ApplicationClient (T : Type) := { client_target : T; caller : ExternalActor }.
Record ApplicationSender (T : Type) := { sender_target : T; sender_address : MailAddr }.
Arguments client_target {_}.
Arguments caller {_}.
Arguments sender_target {_}.
Arguments sender_address {_}.

Record ApplicationHandle := {
  root : EstablishedRecipient;
  allocated_by : nat;
  client_capacity : MailboxCapacity
}.

(** ** External actors *)

(** [ExternalActor::establish]. *)
Definition establish capacity : World * ApplicationAddresses →
    World * ApplicationAddresses * Result ExternalActor ExternalActorError := λ '(w, next),
  let '(next, allocated) := allocate next in
  match allocated with
  | Err reason => (w, next, Err (Allocation reason))
  | Ok address =>
      let '(w, (control, owner, mailbox, receiver)) := reply_channel capacity w in
      let w := @set_admission _ _ _ _ _ (reply_admission mailbox) (Some (Some owner)) w in
      let '(w, (publisher, observation)) := termination_pair w in
      (w, next,
       Ok {| ext_address := address;
             ext_recipient := {| established := ActorRef_new (addr address) (Endpoint_Standard mailbox) observation;
                                 application := None |};
             ext_mailbox := mailbox; ext_control_liveness := control; ext_receiver := receiver;
             ext_termination := Some publisher |})
  end.

(** [ExternalActor::receive], polled once: [None] while it is pending, [Some None]
    its end. *)
Definition ext_receive (x : ExternalActor) w : World * ExternalActor * option (option (User Addr R)) :=
  let '(w, (receiver, received)) := @poll_recv _ _ _ _ _ (reply_admission (ext_mailbox x)) (ext_receiver x) w in
  (w, {| ext_address := ext_address x; ext_recipient := ext_recipient x; ext_mailbox := ext_mailbox x;
         ext_control_liveness := ext_control_liveness x; ext_receiver := receiver;
         ext_termination := ext_termination x |},
   match received with
   | None => None
   | Some None => Some None
   | Some (Some (Received_User message)) => Some (Some message)
   | Some (Some Received_UserLaneClosed) => Some None
   | Some (Some (Received_Control never)) => match never with end
   end).

Definition ext_close_admission (x : ExternalActor) w : World :=
  (@Admission_close _ _ _ _ _ (reply_admission (ext_mailbox x)) w).1.

(** The drop of [ExternalActor]. *)
Definition ext_drop (x : ExternalActor) : Async Panic World () := λ w,
  let w := ext_close_admission x w in
  match ext_termination x with
  | Some publisher => complete_normal publisher w
  | None => (w, Ready ())
  end.

(** ** Targets *)

(** [ExternalTarget::send_from]. *)
Definition target_send_from (target : Target) address (message : M) :
    Async Panic World (Result () (SendError M + Refusal)) :=
  match target with
  | Target_Actor recipient =>
      sent ← send_from (established recipient) (addr address) message; mret (map_err inl sent)
  | Target_Entity entity => sent ← admit_from entity (addr address) message; mret (map_err inr sent)
  end.

Definition ext_send (x : ExternalActor) (target : Target) (message : M) :
    Async Panic World (Result () (SendError M + Refusal)) :=
  target_send_from target (ext_address x) message.
Definition ext_try_send (x : ExternalActor) (target : EstablishedRecipient) (message : M) w :
    World * option (Result () (TrySendError M)) :=
  try_send_from (established target) (addr (ext_address x)) message w.
Definition client_send (client : ApplicationClient Target) (message : M) :
    Async Panic World (Result () (SendError M + Refusal)) :=
  ext_send (caller client) (client_target client) message.
Definition sender_send (sender : ApplicationSender Target) (message : M) :
    Async Panic World (Result () (SendError M + Refusal)) :=
  target_send_from (sender_target sender) (sender_address sender) message.

Definition client_try_send (client : ApplicationClient EstablishedRecipient) (message : M) w :
    World * option (Result () (TrySendError M)) :=
  ext_try_send (caller client) (client_target client) message w.
Definition sender_try_send (sender : ApplicationSender EstablishedRecipient) (message : M) w :
    World * option (Result () (TrySendError M)) :=
  try_send_from (established (sender_target sender)) (addr (sender_address sender)) message w.

(** ** Clients and senders *)

Definition client_establish {T} (target : T) capacity : World * ApplicationAddresses →
    World * ApplicationAddresses * Result (ApplicationClient T) (T * ExternalActorError) := λ s,
  match establish capacity s with
  | (s, Ok caller) => (s, Ok {| client_target := target; caller := caller |})
  | (s, Err error) => (s, Err (target, error))
  end.

Definition sender_establish {T} (target : T) : World * ApplicationAddresses →
    World * ApplicationAddresses * Result (ApplicationSender T) (T * ExternalActorError) := λ '(w, next),
  let '(next, allocated) := allocate next in
  (w, next, match allocated with
            | Ok address => Ok {| sender_target := target; sender_address := address |}
            | Err error => Err (target, Allocation error)
            end).

Definition belongs_to (recipient : EstablishedRecipient) (allocations : nat) : bool :=
  bool_decide (application recipient = Some allocations).

Definition actor_address (handle : ApplicationHandle) (target : EstablishedRecipient) : Result Addr ExportError :=
  if belongs_to target (allocated_by handle) then Ok (ref_address (established target)) else Err UnownedTarget.

Definition export_client (handle : ApplicationHandle) (target : EstablishedRecipient) :
    World * ApplicationAddresses → World * ApplicationAddresses *
      Result (ApplicationClient EstablishedRecipient) (EstablishedRecipient * ExportError) := λ s,
  match actor_address handle target with
  | Err cause => (s, Err (target, cause))
  | Ok _ =>
      match client_establish target (client_capacity handle) s with
      | (s, Ok client) => (s, Ok client)
      | (s, Err (target, cause)) => (s, Err (target, Export_Endpoint cause))
      end
  end.

(** ** The calls on the handles of one application *)

Variant Call :=
  | Call_External
  | Call_ClientTo (target : Target)
  | Call_SenderTo (target : Target)
  | Call_ExportClient (target : EstablishedRecipient)
  | Call_Client
  | Call_Sender
  | Call_Actor.

Variant Answer :=
  | Answer_External (granted : Result ExternalActor ExternalActorError)
  | Answer_ClientTo (granted : Result (ApplicationClient Target) (Target * ExternalActorError))
  | Answer_SenderTo (granted : Result (ApplicationSender Target) (Target * ExternalActorError))
  | Answer_ExportClient
      (granted : Result (ApplicationClient EstablishedRecipient) (EstablishedRecipient * ExportError))
  | Answer_Client (granted : Result (ApplicationClient EstablishedRecipient) ExternalActorError)
  | Answer_Sender (granted : Result (ApplicationSender EstablishedRecipient) ExternalActorError)
  | Answer_Actor (granted : Result MailAddr AllocationRejection).

Definition handle_call (handle : ApplicationHandle) (call : Call) (s : World * ApplicationAddresses) :
    World * ApplicationAddresses * Answer :=
  match call with
  | Call_External =>
      let '(s, granted) := establish (client_capacity handle) s in (s, Answer_External granted)
  | Call_ClientTo target =>
      let '(s, granted) := client_establish target (client_capacity handle) s in (s, Answer_ClientTo granted)
  | Call_SenderTo target =>
      let '(s, granted) := sender_establish target s in (s, Answer_SenderTo granted)
  | Call_ExportClient target =>
      let '(s, granted) := export_client handle target s in (s, Answer_ExportClient granted)
  | Call_Client =>
      let '(s, granted) := client_establish (root handle) (client_capacity handle) s in
      (s, Answer_Client (map_err snd granted))
  | Call_Sender =>
      let '(s, granted) := sender_establish (root handle) s in (s, Answer_Sender (map_err snd granted))
  | Call_Actor => let '(next, granted) := allocate s.2 in (s.1, next, Answer_Actor granted)
  end.

Fixpoint handle_run (handle : ApplicationHandle) (calls : list Call) (s : World * ApplicationAddresses) :
    World * ApplicationAddresses * list Answer :=
  match calls with
  | [] => (s, [])
  | call :: calls =>
      let '(s, answer) := handle_call handle call s in
      let '(s, answers) := handle_run handle calls s in
      (s, answer :: answers)
  end.

(** ** What a call grants *)

Definition granted_address (answer : Answer) : option MailAddr :=
  match answer with
  | Answer_External (Ok x) => Some (ext_address x)
  | Answer_ClientTo (Ok client) => Some (ext_address (caller client))
  | Answer_SenderTo (Ok sender) => Some (sender_address sender)
  | Answer_ExportClient (Ok client) => Some (ext_address (caller client))
  | Answer_Client (Ok client) => Some (ext_address (caller client))
  | Answer_Sender (Ok sender) => Some (sender_address sender)
  | Answer_Actor (Ok address) => Some address
  | _ => None
  end.

(** A caller that can receive: its recipient names its own mailbox and belongs to no
    application. *)
Definition receiving (x : ExternalActor) : Prop :=
  established (ext_recipient x) =
    ActorRef_new (addr (ext_address x)) (Endpoint_Standard (ext_mailbox x)) (ref_termination (established (ext_recipient x))) ∧
  application (ext_recipient x) = None ∧ is_Some (ext_termination x).

(** The answer of a call: the original target with a caller, or with the reason. *)
Definition answers (handle : ApplicationHandle) (call : Call) (answer : Answer) : Prop :=
  match call, answer with
  | Call_External, Answer_External (Ok x) => receiving x
  | Call_ClientTo target, Answer_ClientTo (Ok client) => client_target client = target ∧ receiving (caller client)
  | Call_SenderTo target, Answer_SenderTo (Ok sender) => sender_target sender = target
  | Call_ExportClient target, Answer_ExportClient (Ok client) =>
      client_target client = target ∧ receiving (caller client) ∧
      application target = Some (allocated_by handle)
  | Call_Client, Answer_Client (Ok client) => client_target client = root handle ∧ receiving (caller client)
  | Call_Sender, Answer_Sender (Ok sender) => sender_target sender = root handle
  | Call_ClientTo target, Answer_ClientTo (Err (returned, Allocation Exhausted)) => returned = target
  | Call_SenderTo target, Answer_SenderTo (Err (returned, Allocation Exhausted)) => returned = target
  | Call_ExportClient target, Answer_ExportClient (Err (returned, Export_Endpoint (Allocation Exhausted))) =>
      returned = target ∧ application target = Some (allocated_by handle)
  | Call_ExportClient target, Answer_ExportClient (Err (returned, UnownedTarget)) =>
      returned = target ∧ application target ≠ Some (allocated_by handle)
  | Call_External, Answer_External (Err (Allocation Exhausted))
  | Call_Client, Answer_Client (Err (Allocation Exhausted))
  | Call_Sender, Answer_Sender (Err (Allocation Exhausted))
  | Call_Actor, Answer_Actor _ => True
  | _, _ => False
  end.

Definition exhausted (answer : Answer) : bool :=
  match answer with
  | Answer_ExportClient (Err (_, UnownedTarget)) => false
  | _ => match granted_address answer with Some _ => false | None => true end
  end.

(** ** Proofs *)

(** What one call does to the counter. *)
Definition counted (next : N) (next' : N) (answer : Answer) : Prop :=
  (next' ≤ u64_max)%N ∧
  match granted_address answer with
  | Some address => address = next ∧ next' = (next + 1)%N
  | None => next' = next ∧ (exhausted answer = true → next = u64_max)
  end.

Lemma establish_spec capacity w next :
  (next ≤ u64_max)%N →
  match establish capacity (w, next) with
  | (_, next', Ok x) => ext_address x = next ∧ next' = (next + 1)%N ∧ (next' ≤ u64_max)%N ∧ receiving x
  | (_, next', Err (Allocation Exhausted)) => next' = next ∧ next = u64_max
  end.
Proof.
  intros Hn. unfold establish. rewrite allocate_eq by done. case_bool_decide as He; [done|].
  destruct (reply_channel capacity w) as [w1 [[[control owner] mailbox] receiver]].
  destruct (termination_pair _) as [w2 [publisher observation]]. cbn. split_and!; try done. unfold u64_max in *; lia.
Qed.

Lemma handle_call_spec handle call w next :
  (next ≤ u64_max)%N →
  let '(s, answer) := handle_call handle call (w, next) in
  counted next s.2 answer ∧ answers handle call answer.
Proof.
  intros Hn. pose proof (establish_spec (client_capacity handle) w next Hn) as Hx.
  unfold counted, exhausted.
  destruct call; unfold handle_call, export_client, client_establish, sender_establish, actor_address, belongs_to;
    try (case_bool_decide as Ho; [|cbn; done]);
    try (destruct (establish _ _) as [[w' next'] [x|[[]]]]; cbn in *; destruct_and?; subst; by split_and!);
    cbn; rewrite allocate_eq by done; case_bool_decide as He; cbn; split_and!; try done; unfold u64_max in *; lia.
Qed.

Lemma handle_run_spec handle calls w next :
  (next ≤ u64_max)%N →
  let '(s, given) := handle_run handle calls (w, next) in
  let count := length (omap granted_address given) in
  omap granted_address given = (λ i, (next + N.of_nat i)%N) <$> seq 0 count ∧
  s.2 = (next + N.of_nat count)%N ∧ (s.2 ≤ u64_max)%N ∧
  Forall2 (answers handle) calls given ∧
  (∀ answer, answer ∈ given → exhausted answer = true → s.2 = u64_max).
Proof.
  revert w next. induction calls as [|call calls IH]; intros w next Hn; cbn [handle_run].
  - cbn. split_and!; [done|lia|done|by constructor|]. by intros ? ?%elem_of_nil.
  - pose proof (handle_call_spec handle call w next Hn) as Hc.
    destruct (handle_call handle call (w, next)) as [[w1 next1] answer]. destruct Hc as [[Hb Hg] Ha].
    specialize (IH w1 next1 Hb). destruct (handle_run handle calls (w1, next1)) as [s given]. cbn in Hg.
    destruct IH as (Hl & Hs & Hb' & Hf & He).
    assert (exhausted answer = true → s.2 = u64_max) as He'.
    { destruct (granted_address answer) as [address|] eqn:Hgr.
      - intros Hx. exfalso. unfold exhausted in Hx. rewrite Hgr in Hx. by repeat case_match.
      - destruct Hg as [-> Hg]. intros Hx. specialize (Hg Hx). lia. }
    assert (∀ x, x ∈ answer :: given → exhausted x = true → s.2 = u64_max) as Hall.
    { intros x [-> | Hx]%elem_of_cons; [done|by apply He]. }
    cbn. destruct (granted_address answer) as [address|]; cbn.
    + destruct Hg as [-> ->]. split_and!; [|lia|done|by constructor|done].
      f_equal; [lia|]. rewrite Hl at 1. rewrite <- fmap_S_seq, <- list_fmap_compose. apply list_fmap_ext. intros; cbn; lia.
    + destruct Hg as [-> _]. split_and!; [done|done|done|by constructor|done].
Qed.

(** C24: Whatever the clones of a handle ask for and whatever actors allocate in
    between, the granted callers and the actors get the addresses 1, 2, 3, ..., so
    none is given twice and none is the root.  A granted caller has the original
    target; a receiving one has a mailbox of its own that no application owns.  A
    refused call returns the original target, for lack of addresses only when
    they are exhausted, and a target the application does not own is never exported
    and takes no address. *)
Theorem callers_are_distinct (handle : ApplicationHandle) (calls : list Call) w :
  let '(s, given) := handle_run handle calls (w, ApplicationAddresses_new) in
  let count := length (omap granted_address given) in
  omap granted_address given = (λ i, N.of_nat (S i)) <$> seq 0 count ∧
  s.2 = N.of_nat (S count) ∧ (s.2 ≤ u64_max)%N ∧
  Forall2 (answers handle) calls given ∧
  (∀ answer, answer ∈ given → exhausted answer = true → s.2 = u64_max).
Proof.
  pose proof (handle_run_spec handle calls w ApplicationAddresses_new ltac:(done)) as H.
  destruct (handle_run _ _ _) as [s given]. destruct H as (Hl & Hs & Hb & Hf & He). unfold ApplicationAddresses_new in *.
  split_and!; [|lia|done..]. rewrite Hl at 1. apply list_fmap_ext. intros; lia.
Qed.
End interface.

(** ** The lifecycle of the root *)

Section lifecycle.
Context {TY : LocalTypes} {M Publisher : Type} {EH : EndpointHost M Publisher}.
Context {Ev WeakControl : Type} `{!ControlLane Ev}.
Context (upgrade : WeakControl → World → option LocalEnvironment.ControlSender).
Implicit Types (w : World).

(** [ApplicationLifecycle]; clones share the root and its control lane. *)
Record ApplicationLifecycle := { lifecycle_root : ActorRef; lifecycle_control : WeakControl }.

(** [ApplicationLifecycle::shutdown]; [ingress] makes the shutdown event and may
    unwind. *)
Definition lifecycle_shutdown (self : ApplicationLifecycle) (ingress : Async Panic World Ev) :
    Async Panic World (Result () ShutdownRejection) := λ w,
  match termination_try_get (ref_termination (lifecycle_root self)) w with
  | Some _ => (w, Ready (Err AlreadyStopped))
  | None =>
      match upgrade (lifecycle_control self) w with
      | None => (w, Ready (Err (shutdown_rejection (lifecycle_root self) w)))
      | Some control => request_actor_shutdown (lifecycle_root self) control ingress w
      end
  end.

(** Requests of any clones in sequence, each with the state it returned in, and what
    everybody else does in between. *)
Inductive lifecycle_history (self : ApplicationLifecycle) (moves : World → World → Prop) :
    World → list (World * Outcome Panic (Result () ShutdownRejection)) → World → Prop :=
  | history_ends w : lifecycle_history self moves w [] w
  | history_moves w w1 l w' :
      moves w w1 → lifecycle_history self moves w1 l w' → lifecycle_history self moves w l w'
  | history_shutdown w ingress l w' :
      (∀ w0, moves w0 (ingress w0).1) →
      lifecycle_history self moves (lifecycle_shutdown self ingress w).1 l w' →
      lifecycle_history self moves w (lifecycle_shutdown self ingress w :: l) w'.

(** New user messages are refused for good. *)
Definition refuses (self : ApplicationLifecycle) w : Prop :=
  ∀ owner, @admission _ _ _ _ _ (endpoint_admission (endpoint_mailbox (lifecycle_root self))) w ≠ Some (Some owner).

(** Nobody reopens the admission of the root: what others do, the making of an event
    and the control lane keep it refused, and closing it empties its cell. *)
Class LifecycleLaw (self : ApplicationLifecycle) (moves : World → World → Prop) := {
  moves_refuse w w' : moves w w' → refuses self w → refuses self w';
  lane_refuses control (event : Ev) w : refuses self w → refuses self (lane_send control event w).1;
  close_refuses owner w :
    refuses self (@close_admission _ _ _ _ _ (endpoint_admission (endpoint_mailbox (lifecycle_root self))) owner
      (@set_admission _ _ _ _ _ (endpoint_admission (endpoint_mailbox (lifecycle_root self))) (Some None) w))
}.

Definition is_rejection (o : Outcome Panic (Result () ShutdownRejection)) : bool :=
  match o with Ready (Err _) => true | _ => false end.

(** *** Proofs *)

Context (self : ApplicationLifecycle) (moves : World → World → Prop) {law : LifecycleLaw self moves}.

(** A request that is not rejected closed the admission itself. *)
Lemma shutdown_step ingress w :
  (∀ w0, moves w0 (ingress w0).1) →
  let x := lifecycle_shutdown self ingress w in
  (refuses self w → refuses self x.1 ∧ is_rejection x.2 = true) ∧
  (is_rejection x.2 = false → refuses self x.1) ∧
  (∀ rejection, x.2 = Ready (Err rejection) → rejection = shutdown_rejection (lifecycle_root self) x.1).
Proof.
  intros Hi. unfold lifecycle_shutdown, request_actor_shutdown.
  destruct (termination_try_get _ w) eqn:Ht; cbn.
  { split_and!; [done|done|]. intros r [= <-]. unfold shutdown_rejection. by rewrite Ht. }
  destruct (upgrade _ w) as [control|]; cbn; [|split_and!; [done|done|congruence]].
  unfold close_admission_of, close_from_endpoint, Admission_close.
  destruct (admission w) as [[owner|]|] eqn:Ha; cbn; [|split_and!; [done|done|congruence]..].
  pose proof (close_refuses owner w) as Hc. set (w1 := close_admission owner _) in *.
  rewrite bind_eq. pose proof (Hi w1) as Hm. destruct (ingress w1) as [w2 o] eqn:Hg. cbn in Hm.
  pose proof (moves_refuse _ _ Hm Hc) as Hr.
  assert (refuses self w → False) as Hno by (intros H; by apply (H owner)).
  destruct o as [event| |payload|]; cbn; [|by split_and!..].
  unfold send_shutdown. pose proof (lane_refuses control event w2 Hr) as Hl.
  destruct (lane_send control event w2) as [w3 [|]]; cbn in *; split_and!; try done; congruence.
Qed.

Lemma refused_history w l w' :
  lifecycle_history self moves w l w' → refuses self w → refuses self w' ∧ Forall (λ x, is_rejection x.2 = true) l.
Proof.
  induction 1 as [w|w w1 l w' Hm _ IH|w ingress l w' Hi _ IH]; intros Hr.
  - by split.
  - apply IH. by eapply moves_refuse.
  - destruct (shutdown_step ingress w Hi) as (Hs & _). destruct (Hs Hr) as [Hr' Ho].
    destruct (IH Hr') as [? ?]. split; [done|]. by constructor.
Qed.

(** C23: However many clones of the lifecycle request the shutdown of the root and
    whatever happens in between, at most one request is not rejected: it closed the
    admission of the root, which stays closed, and only it may submit the shutdown
    event; if it unwinds nobody submits another.  A rejection says that the root has
    stopped exactly if its termination is known when it returns. *)
Theorem shutdown_is_requested_once w l w' :
  lifecycle_history self moves w l w' →
  (∀ i j x y, l !! i = Some x → l !! j = Some y →
    is_rejection x.2 = false → is_rejection y.2 = false → i = j) ∧
  (∀ x, x ∈ l → is_rejection x.2 = false → refuses self x.1 ∧ refuses self w') ∧
  (∀ x rejection, x ∈ l → x.2 = Ready (Err rejection) →
    (rejection = AlreadyStopped ↔ termination_try_get (ref_termination (lifecycle_root self)) x.1 ≠ None)).
Proof.
  induction 1 as [w|w w1 l w' Hm _ IH|w ingress l w' Hi Hh IH].
  - split_and!; [done|by intros ? ?%elem_of_nil|by intros ?? ?%elem_of_nil].
  - exact IH.
  - destruct IH as (Hone & Hclosed & Hexact).
    destruct (shutdown_step ingress w Hi) as (_ & Hc & He). set (x := lifecycle_shutdown self ingress w) in *.
    assert (is_rejection x.2 = false → ∀ i y, l !! i = Some y → is_rejection y.2 = true) as Hrest.
    { intros Hx i y Hy. destruct (refused_history _ _ _ Hh (Hc Hx)) as [_ Hf]. by eapply Forall_lookup_1 in Hf. }
    split_and!.
    + intros [|i] [|j] y z Hy Hz Hry Hrz; cbn in Hy, Hz; [done| | |f_equal; by eapply Hone].
      * injection Hy as <-. by rewrite (Hrest Hry _ _ Hz) in Hrz.
      * injection Hz as <-. by rewrite (Hrest Hrz _ _ Hy) in Hry.
    + intros y [-> | Hy]%elem_of_cons Hr; [|by apply Hclosed]. split; [by apply Hc|].
      by destruct (refused_history _ _ _ Hh (Hc Hr)).
    + intros y r [-> | Hy]%elem_of_cons Hr; [|by apply (Hexact y)]. rewrite (He _ Hr).
      unfold shutdown_rejection. by destruct (termination_try_get _ _).
Qed.
End lifecycle.
