(* ===== verification/InterfaceExample.v ===== *)
(** * Two requests to shut down

    The lifecycle of an application whose root has an open mailbox of LocalExample.v:
    the first request submits its event, the second is rejected. *)

From S2P Require Import Prelude Driver Host LocalIngress LocalEnvironment LocalExample Endpoint ApplicationWork ApplicationInterface.

#[export] Instance open_endpoints : EndpointHost nat nat (H := bench_types) := {|
  user_send _ _ := mret (Ok tt);
  user_try_send _ _ w := (w, Ok tt);
  ingress_send _ _ := mret (Ok tt);
  ingress_try_send _ _ w := (w, Ok tt);
  FenceObservation := (); affine_pair w := (w, (0, tt));
  await_fence _ := mret (Ok tt);
  termination_try_get _ _ := None;
  endpoint_admission _ := bench_mailbox
|}.

#[export] Instance open_lane : ControlLane nat (H := bench_types) := λ _ event w,
  (set_queues (bench_control w ++ [event]) (bench_user w) w, Ok tt).

Definition open_world : Bench :=
  {| bench_control := []; bench_user := []; bench_admission := Some (Some tt); bench_request := None;
     bench_claimed := []; bench_answers := None; bench_fences := []; bench_published := [];
     bench_disposed := 0 |}.

Definition open_lifecycle : ApplicationLifecycle (TY := bench_types) (WeakControl := ()) :=
  {| lifecycle_root := ActorRef_new (0 : @Addr bench_types) (Endpoint_Standard tt) tt; lifecycle_control := tt |}.

(** Others leave the admission alone. *)
Definition bench_moves (w w' : Bench) : Prop := bench_admission w' = bench_admission w.

#[export] Instance open_lifecycle_law :
  LifecycleLaw (EH := open_endpoints) (Ev := nat) open_lifecycle bench_moves.
Proof.
  split.
  - intros w w' Hm Hr owner. cbn. rewrite Hm. apply Hr.
  - intros [] event w Hr owner. apply (Hr owner).
  - done.
Defined.

Definition ask : Async () Bench nat := λ w, (w, Ready 7).
Definition requested (w : Bench) : Bench * Outcome () (Result () ShutdownRejection) :=
  lifecycle_shutdown (TY := bench_types) (EH := open_endpoints) (λ _ _, Some tt) open_lifecycle ask w.

Lemma shutdown_is_requested_once_witness :
  let first := requested open_world in
  let second := requested first.1 in
  first.2 = Ready (Ok tt) ∧ bench_control second.1 = [7] ∧
  ∀ i, [first; second] !! i = Some first → i = 0.
Proof.
  intros first second. split; [reflexivity|]. split; [reflexivity|]. intros i Hi.
  assert (lifecycle_history (TY := bench_types) (EH := open_endpoints) (Ev := nat) (λ _ _, Some tt)
    open_lifecycle bench_moves open_world [first; second] second.1) as Hh.
  { do 2 (apply (history_shutdown (TY := bench_types) (EH := open_endpoints) (Ev := nat) (λ _ _, Some tt)
        open_lifecycle bench_moves _ ask); [done|]). 
    exact (history_ends (TY := bench_types) (EH := open_endpoints) (Ev := nat) (λ _ _, Some tt) open_lifecycle bench_moves _). }
  destruct (shutdown_is_requested_once (TY := bench_types) (EH := open_endpoints) (Ev := nat) (λ _ _, Some tt)
    open_lifecycle bench_moves (law := open_lifecycle_law) _ _ _ Hh) as (Hone & _ & _).
  by apply (Hone i 0 first first).
Defined.
